(* ===== verification/_CoqProject ===== *)
-Q . S2P
Prelude.v
Text.v
MonitorState.v
Trace.v
SolveSMT.v
CutRun.v
CutFacts.v
Verdicts.v
MainDriver.v
Ring.v
GetData.v
Bits.v
Gates.v
BlastArith.v
BlastMul.v
BlastOverflow.v
BlastCompare.v
BlastDiv.v
BlastShift.v
BlastSigned.v
Ast.v
AstSem.v
BoolRewriter.v
AstFacts.v
BoolRewriterOk.v
ExprSubstitution.v
BvPlugin.v
BvFacts.v
PolyRewriter.v
PolyRewriterOk.v
BvRewriterLeq.v
BvRewriterTerms.v
BvRewriterDiv.v
BvRewriterBits.v
BvRewriterEq.v
BvRewriter.v
BvRewriterLeqOk.v
BvRewriterTermsOk.v
BvRewriterDivOk.v
BvRewriterBitsOk.v
BvRewriterXorOk.v
BvRewriterEqOk.v
BvRewriterOk.v
BvRewriterTotal.v
LocalCtx.v
LocalCtxOk.v
BlasterCfg.v
BlastSpec.v
BlasterRewriter.v
BlasterRewriterOk.v
Rewriter.v
RewriterOk.v
RewriterSim.v
ThRewriter.v
ThRewriterOk.v
ThRewriterRun.v
BvTheorems.v
Goal.v
GoalUnder.v
SharedOccs.v
SimplifyTactic.v
PropagateValues.v
PropagateValuesOk.v
BitBlaster.v
BitBlasterOk.v
BitBlasterTactic.v
SatTypes.v
Tactical.v
TacticalOk.v
Expr2Var.v
Goal2Sat.v
Goal2SatOk.v
SatTactic.v
SatTacticOk.v
Pipeline.v
RewriterTheorems.v
CircuitTheorems.v
MonitorWitnesses.v
BlasterWitnesses.v
TacticWitnesses.v
