(* ===== verification/Prelude.v ===== *)
(** * Decentralized monitors for switches and lights, and the bit-blaster under them

    The repository holds three small programs and a vendored copy of the Z3
    solver, through whose API the first of them asks its questions. The
    development verifies the programs, and the path inside Z3 from a goal over
    bit-vectors to clauses and back to a model: the rewriting machine, the
    simplifier with its Boolean and bit-vector rules, the bit-blaster, the
    translation to clauses, and the tactics that put them together.

    ** The parts and how they interact

    - src/get_data.cpp reads the tables of a MySQL database and writes one text
      file per table.
    - src/main.cpp reads such files for the switches and lights of a room,
      gives every pair of a switch and a light a monitor and all of them a
      central one, cuts the traces into segments, asks the solver for each
      segment and each monitor whether its events have a run of consistent cuts,
      and lets the monitors share their verdicts.
    - src/monitor.cpp is an earlier experiment: a ring of monitors that evaluate
      formulas and hand their verdicts to their successors.
    - src/z3-master: the solver. bit_blaster_tpl (tpl_def.h) builds circuits out
      of the gates of a configuration; the two configurations build the gates
      with bool_rewriter; blaster_rewriter_cfg replaces the applications of the
      bit-vector operators by circuits, and rewriter_tpl applies it to whole
      terms. th_rewriter is another configuration of the same machine: it
      simplifies, with the rules of bool_rewriter and bv_rewriter, which
      normalizes sums and products with poly_rewriter. The tactic "simplify"
      applies it to the formulas of a goal, and "propagate-values" lets it replace
      what other formulas of the goal determine. The tactic "bit-blast" does this
      to the formulas of a goal and keeps a converter for models; the tactic "sat"
      has goal2sat turn the result into clauses, asks the SAT solver, and turns its answer into a core or a model.

    ** Files

    - [Prelude]: the result monad [res] (a value or a fault of C++: an index out
      of bounds, [back()] of an empty vector, a null pointer, a failed [stoi], an
      exception, an overflow), checked arrays, counted loops with their
      invariant rules, and the lemmas about fuel. [Text]: lines of files,
      [find], [to_string], [stoi].
    - [MonitorState], [Trace], [Verdicts]: class Monitor of main.cpp, its state,
      [readFile], [readSegTrace], [GetVerdict], [ShareVerdict].
    - [SolveSMT]: the terms of the solver API that main.cpp uses (z3++.h), their
      meaning, and the assertions of [solveSMT]; [CutRun], [CutFacts]: the runs
      of consistent cuts they describe.
    - [MainDriver]: [main] of main.cpp. [Ring]: monitor.cpp. [GetData]:
      get_data.cpp, with [files] mapping names to contents.
    - [Bits]: unsigned and signed values of bit vectors. [Gates]: the interface
      between the template and its configuration, the class [Gates] of the
      constructors and the class [GatesOk] of what they promise.
      [BlastArith], [BlastMul], [BlastOverflow], [BlastCompare], [BlastDiv],
      [BlastShift], [BlastSigned]: the circuits of bit_blaster_tpl_def.h, each
      over any [Gates]. [BlastSpec] states them against the SMT-LIB functions.
    - [Ast]: the terms, recognisers and constructors of ast.h and ast.cpp and
      the structural order of ast_lt.cpp. [AstSem], [AstFacts]: sorting and
      interpretation of terms, and the proof rules for the constructors.
    - [BoolRewriter]: bool_rewriter.cpp; [LocalCtx]: its contextual
      simplification of disjunctions; [BoolRewriterOk]: their correctness.
    - [BvPlugin]: the declarations, recognisers and numerals of
      bv_decl_plugin.h, with [gcd_ext] of rational.h; [BvFacts]: their meaning.
      [PolyRewriter]: poly_rewriter_def.h over bit-vectors, for sums, products
      and cancellation. bv_rewriter.cpp is [BvRewriterLeq] (comparisons),
      [BvRewriterTerms] (extraction, concatenation, extension, rotation,
      shifts), [BvRewriterDiv] (division, remainder, modulus), [BvRewriterBits]
      (bitwise operators, sums, products), [BvRewriterEq] (equations,
      if-then-else, overflow predicates) and [BvRewriter] (the dispatch);
      each has its file of proofs, with the suffix Ok, and [BvRewriterXorOk] the
      second half of those about the bits. [BvRewriterTotal]: which
      operators can throw.
    - [BlasterCfg]: the configurations of bit_blaster_rewriter.cpp and
      bit_blaster.cpp, instances of [GatesOk]. [BlasterRewriter]:
      blaster_rewriter_cfg; [BlasterRewriterOk]: its correctness.
    - [Rewriter]: the machine of rewriter_def.h over the class [RewriterCfg] of
      its configurations; [RewriterOk]: its correctness against what a
      configuration promises, the classes [RewriterCfgOk] and [FinishingCfg].
      [RewriterSim]: two configurations with the same rules run alike.
    - [ExprSubstitution]: expr_substitution.h, with its scopes. [ThRewriter]:
      th_rewriter.cpp; [ThRewriterOk]: its rules are sound; [ThRewriterRun]: it
      keeps the promise of the machine, over the facts that justify its
      substitution.
    - [Goal]: goal.cpp; [GoalUnder]: what a goal says under some of its
      assumptions. [SharedOccs]: shared_occs.cpp and goal_shared_occs.cpp.
      [SimplifyTactic]: simplify_tactic.cpp and its correctness;
      [PropagateValues], [PropagateValuesOk]: propagate_values_tactic.cpp and its
      correctness. [BitBlaster]: bit_blaster_rewriter as an instance of
      the machine, bit_blaster_tactic.cpp and bit_blaster_model_converter.cpp;
      [BitBlasterOk]: the instance keeps the promise; [BitBlasterTactic]: the
      tactic and the converter are correct.
    - [SatTypes]: literals, and the class [SatSolver] of the solver's methods
      with its contract [SatSolverOk]. [Expr2Var]: the map from atoms to
      variables. [Goal2Sat], [Goal2SatOk]: goal2sat.cpp and its correctness.
      [SatTactic], [SatTacticOk]: sat_tactic.cpp and its correctness, and that
      of it and bit-blasting together. [Pipeline]: the four tactics.
    - [Tactical]: tactics over a store of shared goals with exceptions, the
      combinators of tactical.cpp, split-clause and [check_sat] of tactic.cpp.
      [TacticalOk]: the contract [SoundTactic], and that the combinators keep it.
    - [CircuitTheorems], [RewriterTheorems], [BvTheorems], [LocalCtxOk]: the
      properties of the circuits and of the rewriters. [MonitorWitnesses],
      [BlasterWitnesses], [BvTheorems], [TacticWitnesses]: the theorems at
      concrete inputs, the last with a solver that tries every valuation.

    ** What the theorems show

    - Monitors: what [readFile] and [readSegTrace] leave in the arrays, when they
      write past them, and that the happened-before relation they generate is
      symmetric; [ShareVerdict] hands over exactly the marked verdicts.
    - [solveSMT]: its assertions are satisfiable exactly when a run of cuts
      exists (a refinement of the abstract [cut_run]); for which segments one
      exists; the segments for which the API throws.
    - [main]: the setup of a room, the windows of the segments, that no loop runs
      without end and that the run returns where the rooms have at most one pair
      in files of the expected form, and that the solver's answers never reach a
      verdict.
    - The ring: [Evaluate] computes the chain of its operators, and two rounds
      make all monitors agree, for rings of every size.
    - get_data: what it writes is what [readFile] reads back; what stops it.
    - Circuits: every circuit denotes its SMT-LIB function; the Wallace tree and
      the case split end.
    - Rewriters: every result has the sort and the value of the term it replaces,
      under every choice of parameters; the recursion of negation and equality
      ends; disjunctions are left in normal form; the bit-blaster's fresh
      constants are conservative, [pop] undoes what [push] started, and every
      operator is blasted, kept or refused as the options say. The machine is
      sound whatever is shared, cached, flattened or rewritten again, and ends.
    - Simplifier: every rule for bit-vectors gives a term of the same sort and
      value, but for the predicate of signed overflow, which is folded on
      unsigned values ([mk_bvsmul_no_overflow_unsigned]); only three operators
      can throw; the inverse of a coefficient exists exactly when it is odd;
      cancelling monomials is an equivalence. The simplifier is therefore sound
      up to the uses of that one rule, which a trace of the run names.
    - Tactics: "simplify" and "propagate-values" keep the meaning of a goal and
      the cores it has, up to the same uses ([keeps]); the substitution of the
      second is justified at every formula by the formulas already passed.
      Bit-blasting gives an equisatisfiable goal and its converter turns
      models back; the clauses of goal2sat have a model over given values of the
      atoms exactly when the goal is true of them; the cores and models of "sat"
      are right; and the composition decides goals over bit-vectors
      ([bit_vector_goals_decided],
      and [preprocessed_goals_decided] for all four).
    - Combinators: what is built from sound tactics is sound, whatever goals they
      share and change, also on exceptions; so [check_sat] with it is right
      ([check_sat_correct]). [or_else] restores the goal, [repeat] with a limit
      ends. Without branching the cores are right ([check_sat_core_correct]); a
      split whose cases are all closed loses them ([split_loses_core]).

    ** Bounds and fuel

    Loops over counters are folds over their ranges. The segment loop has as much
    fuel as the central monitor has events ([segment_fuel], read from the state);
    a round consumes four and changes no count. The powers of two of [add_order] have
    fuel [n^2], and they double. [mk_not] has fuel for the [weight] of its
    argument, which every nested call lowers. The Wallace tree has as many
    passes as summands; the case split on bits one level per bit of both
    factors. The rewriting machine takes at most two steps per node of the
    term, goal2sat and the traversal for shared terms two per node of a
    formula, [quick_process] one. The passes of propagate-values are as many as
    its option allows, the rounds of [repeat] one more than its limit. The
    extended gcd has fuel for twice the bits of its arguments, whose product a
    step at least halves. Each of these bounds is proved sufficient. For the simplifier,
    whose rules may rewrite their own results again, the theorems hold for every
    fuel, and a run out of fuel is one of their cases; so they do for the
    dependency converters of goals, which may refer to each other in a circle.
    Machine integers are [Z] with
    their wrap-around or overflow written out where the code can reach it
    ([to_unsigned], [int_pow2], [case_size], [c_max_depth]).

    ** Hypotheses

    The answer of the solver's search is a parameter [check] with the contract
    [SolverOk]: [sat] and [unsat] are right, [unknown] is always possible. The
    database is a parameter. The ids that hash-consing gives to nodes are a
    parameter, and the theorems hold for every numbering; so are the reference
    counts the rewriting machine looks at. The rules of bv_rewriter for the
    conversions between integers and bit-vectors are a parameter of which only
    [conversion_typed] is assumed, that their answers have the sort of the
    application; their meaning is not: the theorems about the simplifier and its
    tactics hold for the interpretations that agree with the conversions the run
    rewrote ([ThRewriterRun.agrees]), as they do for the signed overflow
    predicate. One of these rules is not sound in the code (bv2int of a sum of
    three or more terms, [is_add_no_overflow]). Division by zero is that of the
    default [hi_div0]. The SAT solver is a parameter with
    the contracts [SatSolverOk] (a clause is one more constraint) and
    [SatCheckOk] (models and cores are right). sat2goal (in goal2sat.cpp), which
    "sat" calls when the search gives up, reads the trail and the clauses of the
    solver, which that interface hides; it is a parameter, and the theorems hold
    for every function. Both solvers are functions: that a search returns is
    assumed. The combinators hold for all tactics with
    the contract [SoundTactic], all model converters and all probes.

    ** Not modelled

    Clocks and console output; [average] and [standardDeviation], which nothing
    calls; what a program does after an access outside an array, which the
    language leaves undefined and which ends a run of the model as a fault;
    [checkpoint] (memory limits and cancellation), also that of sat2goal;
    the eviction of entries from the cache of the rewriting machine
    (act_cache), which keeps every result here; quantifiers, macros,
    proofs and the shifting of bindings in the rewriting machine, and
    blast_quant; the extensions of goal2sat (EUF, pseudo-Boolean, xor), its
    proof log and the way back (sat2goal); hash-consing, which equality of terms
    replaces; in bv_rewriter the conversions; in poly_rewriter the two options
    that hoist products and if-then-else, which are off; the option local_ctx of bool_rewriter outside disjunctions; in
    th_rewriter the
    families of arithmetic, arrays and the others, which see none of these terms,
    and the memory limit; the parallel combinators, time limits, parameters and
    labels of tactics; the rest of Z3. *)
From stdpp Require Export base list list_numbers strings gmap sorting.
From Stdlib Require Export ZArith Lia Bool.
Open Scope Z_scope.

Declare Scope s2p_scope.
Delimit Scope s2p_scope with s2p.

(** What can go wrong in the modelled C++: an index outside its array (the
    language leaves the behaviour undefined), [back()] of an empty vector, a
    null row pointer, a failed [stoi], a conversion outside [int], an exception
    thrown by the solver API,
    or a loop that the given fuel does not finish. *)
Inductive fault :=
  | OutOfBounds
  | EmptyVector
  | NullPointer
  | InvalidArgument
  | Z3Exception
  | IntOverflow
  | OutOfFuel.

#[global] Instance fault_eq_dec : EqDecision fault.
Proof. solve_decision. Defined.

Inductive res (A : Type) :=
  | Ok (a : A)
  | Fault (f : fault).
Arguments Ok {A} a.
Arguments Fault {A} f.

#[global] Instance res_ret : MRet res := fun A a => Ok a.
#[global] Instance res_bind : MBind res :=
  fun A B k m => match m with Ok a => k a | Fault f => Fault f end.
#[global] Instance res_fmap : FMap res :=
  fun A B k m => match m with Ok a => Ok (k a) | Fault f => Fault f end.

Definition is_ok {A} (r : res A) : bool :=
  match r with Ok _ => true | Fault _ => false end.

Lemma bind_ok {A B} (m : res A) (k : A -> res B) b :
  (m ≫= k) = Ok b <-> exists a, m = Ok a /\ k a = Ok b.
Proof.
  destruct m as [a|f]; cbn.
  - split; [intros H; by exists a|]. by intros (a' & [= <-] & H).
  - split; [done|]. by intros (a' & H & _).
Qed.

(** Conversion of an [int] loop bound compared with an [unsigned] counter. *)
Definition to_unsigned (z : Z) : Z := z mod 2 ^ 32.

(** ** Checked array access *)

Definition aget {A} (l : list A) (i : Z) : res A :=
  if i <? 0 then Fault OutOfBounds
  else match l !! Z.to_nat i with Some x => Ok x | None => Fault OutOfBounds end.

Definition aset {A} (l : list A) (i : Z) (x : A) : res (list A) :=
  if (i <? 0) || (Z.of_nat (length l) <=? i) then Fault OutOfBounds
  else Ok (<[Z.to_nat i := x]> l).

Definition aget2 {A} (l : list (list A)) (i j : Z) : res A :=
  row ← aget l i; aget row j.

Definition aset2 {A} (l : list (list A)) (i j : Z) (x : A) : res (list (list A)) :=
  row ← aget l i; row' ← aset row j x; aset l i row'.

Lemma aget_ok {A} (l : list A) i x :
  aget l i = Ok x <-> 0 <= i /\ l !! Z.to_nat i = Some x.
Proof.
  unfold aget. destruct (Z.ltb_spec i 0).
  - split; [done|lia].
  - destruct (l !! Z.to_nat i); naive_solver.
Qed.

Lemma aget_nat {A} (l : list A) (n : nat) x :
  l !! n = Some x -> aget l (Z.of_nat n) = Ok x.
Proof. intros H. apply aget_ok. rewrite Nat2Z.id. split; [lia|done]. Qed.

Lemma aget_fault {A} (l : list A) i :
  i < 0 \/ Z.of_nat (length l) <= i -> aget l i = Fault OutOfBounds.
Proof.
  unfold aget. intros H. destruct (Z.ltb_spec i 0); [done|].
  by rewrite lookup_ge_None_2 by lia.
Qed.

Lemma aset_ok {A} (l : list A) i x :
  0 <= i < Z.of_nat (length l) -> aset l i x = Ok (<[Z.to_nat i := x]> l).
Proof.
  intros H. unfold aset. destruct (Z.ltb_spec i 0); [lia|].
  destruct (Z.leb_spec (Z.of_nat (length l)) i); [lia|done].
Qed.

Lemma aset_nat {A} (l : list A) (n : nat) x :
  (n < length l)%nat -> aset l (Z.of_nat n) x = Ok (<[n := x]> l).
Proof. intros H. rewrite aset_ok by lia. by rewrite Nat2Z.id. Qed.

Lemma aset_inv {A} (l l' : list A) i x :
  aset l i x = Ok l' ->
  0 <= i < Z.of_nat (length l) /\ l' = <[Z.to_nat i := x]> l.
Proof.
  unfold aset. destruct (Z.ltb_spec i 0), (Z.leb_spec (Z.of_nat (length l)) i);
    cbn; intros [= <-]; split; [lia|done].
Qed.

Lemma aset_fault {A} (l : list A) i x :
  i < 0 \/ Z.of_nat (length l) <= i -> aset l i x = Fault OutOfBounds.
Proof.
  intros H. unfold aset. destruct (Z.ltb_spec i 0); [done|].
  destruct (Z.leb_spec (Z.of_nat (length l)) i); [done|lia].
Qed.

(** ** Counted loops

    [for_in f l s] is the loop that runs [f x] for every [x] of [l], threading
    the state and stopping at the first fault; [for_range a b] is
    [for (x = a; x < b; x++)]. *)

Fixpoint for_in {A S} (f : A -> S -> res S) (l : list A) (s : S) : res S :=
  match l with
  | [] => Ok s
  | x :: l => s' ← f x s; for_in f l s'
  end.

Definition for_range {S} (a b : Z) (f : Z -> S -> res S) (s : S) : res S :=
  for_in f (seqZ a (b - a)) s.

Lemma for_in_app {A S} (f : A -> S -> res S) l1 l2 s :
  for_in f (l1 ++ l2) s = (s' ← for_in f l1 s; for_in f l2 s').
Proof.
  revert s. induction l1 as [|x l1 IH]; intros s; cbn; [done|].
  destruct (f x s); cbn; [apply IH|done].
Qed.

(** Invariant rule: what every iteration preserves holds at the end. *)
Lemma for_in_inv {A S} (P : S -> Prop) (f : A -> S -> res S) l s s' :
  (forall x s1 s2, x ∈ l -> P s1 -> f x s1 = Ok s2 -> P s2) ->
  P s -> for_in f l s = Ok s' -> P s'.
Proof.
  revert s. induction l as [|x l IH]; intros s Hf HP; cbn.
  - by intros [= <-].
  - intros (s1 & H1 & H2)%bind_ok. apply (IH s1); [|eapply Hf; eauto; left|done].
    intros y ??? . apply Hf. by right.
Qed.

(** Invariant rule indexed by the part of the list already visited. *)
Lemma for_in_rule {A S} (I : list A -> S -> Prop) (f : A -> S -> res S) l s :
  I [] s ->
  (forall seen x rest s, l = seen ++ x :: rest -> I seen s ->
     exists s', f x s = Ok s' /\ I (seen ++ [x]) s') ->
  exists s', for_in f l s = Ok s' /\ I l s'.
Proof.
  intros H0 Hstep. assert (forall rest seen s, l = seen ++ rest -> I seen s ->
    exists s', for_in f rest s = Ok s' /\ I l s') as Hgen.
  { intros rest. induction rest as [|x rest IH]; intros seen s1 Hl HI.
    - exists s1. rewrite Hl, app_nil_r. done.
    - destruct (Hstep seen x rest s1 Hl HI) as (s2 & He & HI2). cbn. rewrite He. cbn.
      apply (IH (seen ++ [x])); [by rewrite <- app_assoc|done]. }
  by apply (Hgen l []).
Qed.

Lemma for_in_ext {A S} (f g : A -> S -> res S) l s :
  (forall x s, x ∈ l -> f x s = g x s) -> for_in f l s = for_in g l s.
Proof.
  revert s. induction l as [|x l IH]; intros s H; cbn; [done|].
  rewrite H by left. destruct (g x s); cbn; [|done]. apply IH.
  intros; apply H; by right.
Qed.

(** A loop whose body is a pure function is a left fold. *)
Lemma for_in_pure {A S} (f : A -> S -> res S) (g : A -> S -> S) l s :
  (forall x s, x ∈ l -> f x s = Ok (g x s)) ->
  for_in f l s = Ok (foldl (fun s x => g x s) s l).
Proof.
  revert s. induction l as [|x l IH]; intros s H; cbn; [done|].
  rewrite H by left. cbn. apply IH. intros; apply H; by right.
Qed.

(** A loop over a flattened list is the nested loop. *)
Lemma for_in_bind {A B S} (f : B -> S -> res S) (g : A -> list B) l s :
  for_in f (l ≫= g) s = for_in (fun x s => for_in f (g x) s) l s.
Proof.
  revert s. induction l as [|x l IH]; intros s; [done|].
  rewrite bind_cons, for_in_app. cbn. destruct (for_in f (g x) s); cbn; [apply IH|done].
Qed.

Lemma list_bind_singleton {A B} (f : A -> B) (l : list A) :
  (l ≫= fun x => [f x]) = map f l.
Proof. induction l as [|x l IH]; [done|]. rewrite bind_cons, IH. done. Qed.

(** A loop that only appends. *)
Lemma for_in_append {A B} (f : A -> list B -> res (list B)) (g : A -> list B) l s :
  (forall x s, x ∈ l -> f x s = Ok (s ++ g x)) ->
  for_in f l s = Ok (s ++ (l ≫= g)).
Proof.
  revert s. induction l as [|x l IH]; intros s H.
  - cbn. by rewrite app_nil_r.
  - cbn [for_in]. rewrite H by left. cbn [mbind res_bind].
    rewrite IH by (intros; apply H; by right). by rewrite bind_cons, app_assoc.
Qed.

Lemma seqZ_step a n : 0 < n -> seqZ a n = a :: seqZ (a + 1) (n - 1).
Proof. intros. rewrite seqZ_cons by lia. do 2 f_equal; lia. Qed.

Lemma for_range_empty {S} a b (f : Z -> S -> res S) s :
  b <= a -> for_range a b f s = Ok s.
Proof. intros. unfold for_range. by rewrite seqZ_nil by lia. Qed.

Lemma for_range_step {S} a b (f : Z -> S -> res S) s :
  a < b -> for_range a b f s = (s' ← f a s; for_range (a + 1) b f s').
Proof.
  intros. unfold for_range. rewrite seqZ_step by lia. cbn.
  destruct (f a s); cbn; [|done]. do 2 f_equal. lia.
Qed.

Lemma for_range_append {B} a b (f : Z -> list B -> res (list B)) (g : Z -> list B) s :
  (forall x s, a <= x < b -> f x s = Ok (s ++ g x)) ->
  for_range a b f s = Ok (s ++ (seqZ a (b - a) ≫= g)).
Proof.
  intros H. apply for_in_append. intros x s' Hx. apply elem_of_seqZ in Hx.
  apply H. lia.
Qed.

Lemma for_range_split {S} b a c (f : Z -> S -> res S) s :
  a <= b <= c -> for_range a c f s = (s' ← for_range a b f s; for_range b c f s').
Proof.
  intros H. unfold for_range. rewrite <- for_in_app. f_equal.
  replace (c - a) with ((b - a) + (c - b)) by lia. rewrite seqZ_app by lia.
  do 2 f_equal. lia.
Qed.

(** Indexed invariant rule for [for (x = a; x < b; x++)]: the loop does not
    fault when no iteration does, and the invariant at [b] holds after it. *)
Lemma for_range_rule {S} (I : Z -> S -> Prop) a b (f : Z -> S -> res S) s :
  a <= b -> I a s ->
  (forall x s, a <= x < b -> I x s -> exists s', f x s = Ok s' /\ I (x + 1) s') ->
  exists s', for_range a b f s = Ok s' /\ I b s'.
Proof.
  intros Hab. remember (Z.to_nat (b - a)) as n eqn:Hn.
  revert a s Hab Hn. induction n as [|n IH]; intros a s Hab Hn HI Hf.
  - assert (a = b) as -> by lia. exists s. by rewrite for_range_empty by lia.
  - rewrite for_range_step by lia. destruct (Hf a s) as (s1 & -> & HI1); [lia|done|].
    cbn. apply IH; [lia|lia|done|]. intros. apply Hf; [lia|done].
Qed.

(** ** Computations that do not run out of fuel *)

Definition fuel_ok {A} (r : res A) : Prop := r <> Fault OutOfFuel.

Lemma fuel_bind {A B} (m : res A) (k : A -> res B) :
  fuel_ok m -> (forall a, m = Ok a -> fuel_ok (k a)) -> fuel_ok (m ≫= k).
Proof. destruct m; cbn; [auto|]. by intros H _ [= ->]. Qed.

Lemma fuel_Ok {A} (a : A) : fuel_ok (Ok a).
Proof. done. Qed.

Lemma fuel_aget {A} (l : list A) i : fuel_ok (aget l i).
Proof. unfold aget. destruct (i <? 0); [done|]. by destruct (l !! Z.to_nat i). Qed.

Lemma fuel_aset {A} (l : list A) i x : fuel_ok (aset l i x).
Proof. unfold aset. by case_match. Qed.

Lemma fuel_aget2 {A} (l : list (list A)) i j : fuel_ok (aget2 l i j).
Proof. apply fuel_bind; intros; apply fuel_aget. Qed.

Lemma fuel_aset2 {A} (l : list (list A)) i j x : fuel_ok (aset2 l i j x).
Proof.
  apply fuel_bind; [apply fuel_aget|]. intros.
  apply fuel_bind; intros; apply fuel_aset.
Qed.

Lemma fuel_for_in {A S} (f : A -> S -> res S) l s :
  (forall x s, x ∈ l -> fuel_ok (f x s)) -> fuel_ok (for_in f l s).
Proof.
  revert s. induction l as [|x l IH]; intros s H; cbn; [done|].
  apply fuel_bind; [apply H; left|]. intros s' _. apply IH. intros; apply H; by right.
Qed.

Lemma fuel_for_range {S} a b (f : Z -> S -> res S) s :
  (forall x s, a <= x < b -> fuel_ok (f x s)) -> fuel_ok (for_range a b f s).
Proof.
  intros H. apply fuel_for_in. intros x s' Hx. apply elem_of_seqZ in Hx. apply H. lia.
Qed.

Create HintDb fuel.
#[export] Hint Resolve fuel_Ok fuel_aget fuel_aset fuel_aget2 fuel_aset2 : fuel.
#[export] Hint Extern 1 (fuel_ok (Fault _)) => discriminate : fuel.

(** Walk through binds, loops and tests. *)
Ltac fuel_step :=
  match goal with
  | |- fuel_ok (_ ≫= _) => apply fuel_bind; [|intros ? _]
  | |- fuel_ok (for_range _ _ _ _) => apply fuel_for_range; intros
  | |- fuel_ok (for_in _ _ _) => apply fuel_for_in; intros
  | |- fuel_ok (if ?b then _ else _) => destruct b
  | |- fuel_ok (let '(_, _) := ?p in _) => destruct p
  end.
Ltac fuel_tac := repeat (fuel_step; eauto with fuel); eauto with fuel.

(** ** Hash tables: at most one entry per key *)

Section ObjMap.
Context {K V : Type} `{EqDecision K}.

Fixpoint map_find (m : list (K * V)) (k : K) : option V :=
  match m with
  | [] => None
  | (k', v) :: m => if bool_decide (k' = k) then Some v else map_find m k
  end.
Definition map_remove (m : list (K * V)) (k : K) : list (K * V) :=
  filter (fun e => e.1 <> k) m.
Definition map_insert (m : list (K * V)) (k : K) (v : V) : list (K * V) :=
  (k, v) :: map_remove m k.

Lemma map_find_remove m k k' :
  map_find (map_remove m k) k' = if decide (k = k') then None else map_find m k'.
Proof.
  induction m as [|[h v] m IH]; [by destruct (decide _)|]. unfold map_remove in *.
  rewrite filter_cons. cbn [fst]. destruct (decide (h <> k)) as [Hh|Hh]; cbn [map_find]; rewrite IH.
  - case_bool_decide as Hg; destruct (decide (k = k')); congruence.
  - apply dec_stable in Hh as ->. destruct (decide (k = k')) as [|Hk]; [done|]. by rewrite bool_decide_eq_false_2.
Qed.

Lemma map_find_insert m k v k' :
  map_find (map_insert m k v) k' = if decide (k = k') then Some v else map_find m k'.
Proof.
  unfold map_insert. cbn [map_find]. rewrite map_find_remove.
  destruct (decide (k = k')) as [Hk|Hk]; [by rewrite bool_decide_eq_true_2|by rewrite bool_decide_eq_false_2].
Qed.

Lemma map_find_elem m k v : map_find m k = Some v -> (k, v) ∈ m.
Proof.
  induction m as [|[h u] m IH]; cbn [map_find]; [done|].
  case_bool_decide as Hh; [intros [= ->]; subst; left|intros Hm; right; auto].
Qed.

Lemma map_find_app m m' k :
  map_find (m ++ m') k = match map_find m k with Some v => Some v | None => map_find m' k end.
Proof. induction m as [|[h u] m IH]; [done|]. cbn [app map_find]. by case_bool_decide. Qed.

(** The keys stay different. *)
Lemma map_keys_remove m k : map fst (map_remove m k) = filter (fun k' => k' <> k) (map fst m).
Proof.
  induction m as [|[h v] m IH]; [done|]. unfold map_remove in *. cbn [map]. rewrite !filter_cons. cbn [fst].
  destruct (decide (h <> k)); cbn; by rewrite IH.
Qed.

Lemma map_keys_insert m k v : NoDup (map fst m) -> NoDup (map fst (map_insert m k v)).
Proof.
  intros Hm. cbn. rewrite map_keys_remove. constructor.
  - rewrite list_elem_of_filter. naive_solver.
  - by apply NoDup_filter.
Qed.

Lemma map_find_nodup m k v : NoDup (map fst m) -> (k, v) ∈ m -> map_find m k = Some v.
Proof.
  induction m as [|[h u] m IH]; [by intros _ ?%not_elem_of_nil|]. cbn [map fst].
  intros [Hh Hm]%NoDup_cons [[= -> ->]|Hin]%elem_of_cons; cbn [map_find]; [by rewrite bool_decide_eq_true_2|].
  rewrite bool_decide_eq_false_2; [by apply IH|]. intros ->. apply Hh. apply list_elem_of_fmap. by exists (k, v).
Qed.

Lemma map_find_none m k : k ∉ map fst m -> map_find m k = None.
Proof.
  induction m as [|[h u] m IH]; [done|]. cbn [map fst map_find]. rewrite not_elem_of_cons. intros [Hk Hm].
  rewrite bool_decide_eq_false_2 by congruence. by apply IH.
Qed.

Lemma map_find_filter (p : K -> bool) m k :
  map_find (List.filter (fun e => p (fst e)) m) k = if p k then map_find m k else None.
Proof.
  induction m as [|[h u] m IH]; [by destruct (p k)|]. cbn [List.filter fst map_find].
  destruct (p h) eqn:Hp; cbn [map_find]; rewrite IH; case_bool_decide as Hk; try done; subst; by rewrite Hp.
Qed.
End ObjMap.

(** What a sequence of insertions leaves. *)
Section Inserts.
Context {K V W : Type} `{EqDecision K} (g : K -> V -> W).

Lemma map_find_inserts l m k :
  NoDup (map fst l) ->
  map_find (foldl (fun m '(k, v) => map_insert m k (g k v)) m l) k
  = match map_find l k with Some v => Some (g k v) | None => map_find m k end.
Proof.
  revert m. induction l as [|[h u] l IH]; intros m; [done|]. cbn [map fst foldl map_find].
  intros [Hh Hl]%NoDup_cons. rewrite IH, map_find_insert by done. case_bool_decide as Hk.
  - subst h. by rewrite map_find_none, decide_True.
  - by rewrite decide_False.
Qed.

Lemma map_keys_inserts l m :
  NoDup (map fst m) -> NoDup (map fst (foldl (fun m '(k, v) => map_insert m k (g k v)) m l)).
Proof. revert m. induction l as [|[h u] l IH]; intros m Hm; [done|]. cbn. by apply IH, map_keys_insert. Qed.
End Inserts.

(** ** Tactics *)

(** Split the boolean tests of the context and the goal. *)
Ltac bool_cases :=
  repeat match goal with
  | |- context [if ?b then _ else _] => destruct b eqn:?
  | H : context [if ?b then _ else _] |- _ => destruct b eqn:?
  end.

(** Unfold a successful chain of binds in a hypothesis. *)
Ltac inv_bind :=
  repeat match goal with
  | H : (_ ≫= _) = Ok _ |- _ =>
      let a := fresh "a" in let H1 := fresh "Hb" in
      apply bind_ok in H as (a & H1 & H)
  | H : mret _ = Ok _ |- _ => injection H as H
  | H : Ok _ = Ok _ |- _ => injection H as H
  end.

(** A [Forall] over an explicit list, entry by entry. *)
Ltac forall_list := repeat (apply Forall_cons_2; [done|]); apply Forall_nil_2.
