(* ===== verification/Text.v ===== *)
(** The text functions of the C++ standard library that main.cpp uses:
    reading lines with [getline], writing lines with [<< endl],
    [string::find], [to_string] and [stoi], with the laws that relate them. *)
From S2P Require Import Prelude.
From Stdlib Require Import Ascii DecimalString DecimalZ.

Definition newline : Ascii.ascii := Ascii.ascii_of_nat 10.

(** The lines [getline] returns until it fails on the given contents. *)
Fixpoint getlines (s : string) : list string :=
  match s with
  | EmptyString => []
  | String c s' =>
      if Ascii.eqb c newline then EmptyString :: getlines s'
      else match getlines s' with
           | [] => [String c EmptyString]
           | l :: ls => String c l :: ls
           end
  end.

(** [out << line << endl] *)
Definition put_line (out line : string) : string :=
  (out +:+ line +:+ String newline EmptyString)%string.

Definition put_lines (out : string) (lines : list string) : string :=
  foldl put_line out lines.

Fixpoint one_line (s : string) : bool :=
  match s with
  | EmptyString => true
  | String c s' => negb (Ascii.eqb c newline) && one_line s'
  end.

(** [s.find(sub) != npos] *)
Fixpoint find_sub (sub s : string) : bool :=
  String.prefix sub s ||
  match s with EmptyString => false | String _ s' => find_sub sub s' end.

(** [std::to_string(int)] *)
Definition to_string (z : Z) : string := NilZero.string_of_int (Z.to_int z).

Definition digit (c : Ascii.ascii) : option Z :=
  let n := Z.of_nat (Ascii.nat_of_ascii c) in
  if (48 <=? n) && (n <=? 57) then Some (n - 48) else None.

(** Longest prefix of digits; [None] when there is none. *)
Fixpoint stoi_digits (s : string) (acc : Z) : Z :=
  match s with
  | EmptyString => acc
  | String c s' =>
      match digit c with
      | Some d => stoi_digits s' (10 * acc + d)
      | None => acc
      end
  end.

Definition stoi_unsigned (s : string) : res Z :=
  match s with
  | String c _ => match digit c with
                  | Some _ => Ok (stoi_digits s 0)
                  | None => Fault InvalidArgument
                  end
  | EmptyString => Fault InvalidArgument
  end.

Definition is_space (c : Ascii.ascii) : bool :=
  let n := Z.of_nat (Ascii.nat_of_ascii c) in
  (n =? 32) || ((9 <=? n) && (n <=? 13)).

Fixpoint skip_spaces (s : string) : string :=
  match s with
  | String c s' => if is_space c then skip_spaces s' else s
  | EmptyString => s
  end.

Definition int_max : Z := 2 ^ 31 - 1.
Definition int_min : Z := - 2 ^ 31.

(** [std::stoi]: leading white space, an optional sign, digits; both
    [invalid_argument] and [out_of_range] are uncaught in the program. *)
Definition stoi (s : string) : res Z :=
  let s := skip_spaces s in
  v ← match s with
      | String "-"%char s' => Z.opp <$> stoi_unsigned s'
      | String "+"%char s' => stoi_unsigned s'
      | _ => stoi_unsigned s
      end;
  if (int_min <=? v) && (v <=? int_max) then Ok v else Fault InvalidArgument.

(** ** Laws *)

Lemma getlines_line l s :
  one_line l = true ->
  getlines (l +:+ String newline s)%string = l :: getlines s.
Proof.
  induction l as [|c l IH]; cbn [one_line]; [done|].
  intros [Hc Hl]%andb_true_iff. apply negb_true_iff in Hc.
  change (String c l +:+ String newline s)%string
    with (String c (l +:+ String newline s)).
  cbn [getlines]. by rewrite Hc, IH.
Qed.

Lemma string_app_assoc (a b c : string) : (a +:+ (b +:+ c) = (a +:+ b) +:+ c)%string.
Proof.
  induction a as [|x a IH]; [done|].
  exact (f_equal (String x) IH).
Qed.

Lemma string_app_nil (a : string) : (a +:+ EmptyString = a)%string.
Proof. induction a as [|x a IH]; [done|]. exact (f_equal (String x) IH). Qed.

Lemma string_app_length (a b : string) :
  String.length (a +:+ b) = (String.length a + String.length b)%nat.
Proof. induction a as [|x a IH]; [done|]. exact (f_equal S IH). Qed.

(** Appending the same suffix is injective. *)
#[global] Instance string_app_inj (suffix : string) : Inj (=) (=) (fun a => a +:+ suffix).
Proof.
  intros a. induction a as [|x a IH]; intros [|y b] H; [done|..].
  - apply (f_equal String.length) in H. rewrite !string_app_length in H. cbn in H. lia.
  - apply (f_equal String.length) in H. rewrite !string_app_length in H. cbn in H. lia.
  - injection H as -> H. f_equal. by apply IH.
Qed.

Lemma put_lines_app out l : put_lines out l = (out +:+ put_lines EmptyString l)%string.
Proof.
  revert out. induction l as [|x l IH]; intros out; cbn [put_lines foldl].
  - by rewrite string_app_nil.
  - fold (put_lines (put_line out x) l) (put_lines (put_line "" x) l).
    rewrite IH, (IH (put_line "" x)). unfold put_line.
    change ("" +:+ x +:+ String newline "")%string with (x +:+ String newline "")%string.
    by rewrite !string_app_assoc.
Qed.

Lemma getlines_put_lines l :
  forallb one_line l = true -> getlines (put_lines EmptyString l) = l.
Proof.
  induction l as [|x l IH]; cbn; [done|].
  intros [Hx Hl]%andb_true_iff. fold (put_lines (put_line "" x) l).
  rewrite put_lines_app. unfold put_line.
  change (("" +:+ x +:+ String newline "") +:+ put_lines "" l)%string
    with ((x +:+ String newline "") +:+ put_lines "" l)%string.
  rewrite <- string_app_assoc. change (String newline "" +:+ put_lines "" l)%string
    with (String newline (put_lines "" l)).
  rewrite getlines_line by done. by rewrite IH.
Qed.

Lemma getlines_one_line s : forallb one_line (getlines s) = true.
Proof.
  induction s as [|c s IH]; cbn; [done|].
  destruct (Ascii.eqb c newline) eqn:E; cbn; [done|].
  destruct (getlines s) as [|l ls]; cbn in *; by rewrite E.
Qed.

(** Evaluate [digit] at a literal character. *)
Ltac eval_digit :=
  match goal with
  | |- context [digit ?c] =>
      let v := eval vm_compute in (digit c) in change (digit c) with v; cbv beta iota
  end.

(** Decimal digits printed by [to_string] are read back by [stoi]. *)
Lemma stoi_digits_uint d acc :
  stoi_digits (NilEmpty.string_of_uint d) (Zpos acc) = Zpos (Pos.of_uint_acc d acc).
Proof.
  revert acc. induction d as [|d IH|d IH|d IH|d IH|d IH|d IH|d IH|d IH|d IH|d IH];
    intros acc; cbn [NilEmpty.string_of_uint stoi_digits Pos.of_uint_acc]; [done|..];
    eval_digit; rewrite <- IH; f_equal; lia.
Qed.

Lemma stoi_digits_uint0 d :
  stoi_digits (NilEmpty.string_of_uint d) 0 = Z.of_uint d.
Proof.
  unfold Z.of_uint.
  induction d as [|d IH|d IH|d IH|d IH|d IH|d IH|d IH|d IH|d IH|d IH];
    cbn [NilEmpty.string_of_uint stoi_digits]; [done|..];
    eval_digit; [exact IH|..];
    cbn -[stoi_digits]; apply stoi_digits_uint.
Qed.

Lemma digit_head d :
  d <> Decimal.Nil ->
  exists c s, NilEmpty.string_of_uint d = String c s /\ is_Some (digit c)
    /\ is_space c = false /\ c <> "-"%char /\ c <> "+"%char.
Proof. destruct d; intros Hd; try done; do 2 eexists; split; by cbn. Qed.

Lemma stoi_uint d :
  d <> Decimal.Nil -> Z.of_uint d <= int_max ->
  stoi (NilEmpty.string_of_uint d) = Ok (Z.of_uint d).
Proof.
  intros Hd Hmax. destruct (digit_head d Hd) as (c & s & E & [x Hx] & Hsp & Hm & Hp).
  pose proof (stoi_digits_uint0 d) as Hv. rewrite E in Hv |- *.
  assert (stoi_unsigned (String c s) = Ok (Z.of_uint d)) as Hu
    by (cbn [stoi_unsigned]; by rewrite Hx, Hv).
  unfold stoi. cbn [skip_spaces]. rewrite Hsp. cbv beta zeta.
  assert (0 <= Z.of_uint d) by (unfold Z.of_uint; lia).
  replace (match c with
           | "-"%char => Z.opp <$> stoi_unsigned s
           | "+"%char => stoi_unsigned s
           | _ => stoi_unsigned (String c s) end) with (stoi_unsigned (String c s)).
  - rewrite Hu. cbn -[Z.leb int_min int_max].
    unfold int_min, int_max in *.
    destruct (Z.leb_spec (- 2 ^ 31) (Z.of_uint d)); [|lia].
    destruct (Z.leb_spec (Z.of_uint d) (2 ^ 31 - 1)); [done|lia].
  - destruct c as [[] [] [] [] [] [] [] []]; try reflexivity; by exfalso.
Qed.

Lemma stoi_to_string z : 0 <= z <= int_max -> stoi (to_string z) = Ok z.
Proof.
  intros Hz. pose proof (of_to z) as Hof. unfold to_string.
  assert (exists d, Z.to_int z = Decimal.Pos d) as (d & Hd)
    by (destruct z; [by eexists..|lia]).
  rewrite Hd in Hof |- *. cbn in Hof.
  assert (d <> Decimal.Nil) as Hnil.
  { intros ->. destruct z as [|p|p]; [done| |done].
    injection Hd as Hd. by apply (DecimalPos.Unsigned.to_uint_nonnil p). }
  replace (NilZero.string_of_int (Decimal.Pos d)) with (NilEmpty.string_of_uint d)
    by (by destruct d).
  rewrite <- Hof in Hz |- *. rewrite stoi_uint; [done|done|lia].
Qed.
