(* ===== verification/MonitorState.v ===== *)
(** The state of class [Monitor] of main.cpp: the trace storage that
    [readFile], [readSegTrace] and [solveSMT] work on, the verdict vectors the
    monitors exchange, and the initialisation of both. *)
From S2P Require Import Prelude Text.

(** Trace members of the class, with the declared array sizes. *)
Record TraceStore := {
  EValue : list (list string);       (* string EValue[10][100] *)
  EName : list (list string);        (* string EName[10][100] *)
  numProcess : Z;
  numEvent : list Z;                 (* int numEvent[10] *)
  EValueAll : list (list string);    (* string EValueAll[10][100] *)
  numEventAll : list Z;              (* int numEventAll[10] *)
  hbSet : list (Z * Z);              (* int hbSet[50][2] *)
  numHbSet : Z
}.

Record Monitor := {
  id : Z;
  subformula : list string;
  observations : list bool;
  num_monitors : Z;
  verdicts : list bool;
  verdicts_mod : list bool;
  traceFileName : string;
  store : TraceStore
}.

Definition max_process : nat := 10.
Definition max_event : nat := 100.
Definition max_hb : nat := 50.
#[global] Arguments max_process : simpl never.
#[global] Arguments max_event : simpl never.
#[global] Arguments max_hb : simpl never.

Definition empty_table : list (list string) :=
  replicate max_process (replicate max_event EmptyString).

(** The storage after the initialisation loops of [setValues]. *)
Definition initial_store : TraceStore := {|
  EValue := empty_table;
  EName := empty_table;
  numProcess := 0;
  numEvent := replicate max_process 0;
  EValueAll := empty_table;
  numEventAll := replicate max_process 0;
  hbSet := replicate max_hb (0, 0);
  numHbSet := 0
|}.

(** The default constructor has an empty body: vectors and strings are empty,
    the integers are indeterminate; the storage is the argument [junk]. *)
Definition Monitor_default (junk_id : Z) (junk : TraceStore) : Monitor := {|
  id := junk_id; subformula := []; observations := []; num_monitors := 10;
  verdicts := []; verdicts_mod := []; traceFileName := EmptyString;
  store := junk
|}.

(** [Monitor(int, vector<string>, int)] *)
Definition Monitor_new (m_id : Z) (m_subformula : list string) (m_num_monitors : Z)
  : Monitor := {|
  id := m_id;
  subformula := m_subformula;
  observations := [];
  num_monitors := m_num_monitors;
  verdicts := replicate (Z.to_nat m_num_monitors) false;
  verdicts_mod := replicate (Z.to_nat m_num_monitors) false;
  traceFileName := "details.txt";
  store := initial_store
|}.

(** [setValues] pushes onto the verdict vectors and overwrites the rest. *)
Definition setValues (m : Monitor) (m_id : Z) (m_subformula : list string)
    (m_num_monitors : Z) (traceFile : string) : Monitor := {|
  id := m_id;
  subformula := m_subformula;
  observations := observations m;
  num_monitors := m_num_monitors;
  verdicts := verdicts m ++ replicate (Z.to_nat m_num_monitors) false;
  verdicts_mod := verdicts_mod m ++ replicate (Z.to_nat m_num_monitors) false;
  traceFileName := traceFile;
  store := initial_store
|}.

(** Updates of one component of the state. *)
Definition with_store (m : Monitor) (t : TraceStore) : Monitor := {|
  id := id m; subformula := subformula m; observations := observations m;
  num_monitors := num_monitors m; verdicts := verdicts m;
  verdicts_mod := verdicts_mod m; traceFileName := traceFileName m; store := t
|}.

Definition with_verdicts (m : Monitor) (v vm : list bool) : Monitor := {|
  id := id m; subformula := subformula m; observations := observations m;
  num_monitors := num_monitors m; verdicts := v; verdicts_mod := vm;
  traceFileName := traceFileName m; store := store m
|}.

Definition with_numProcess (t : TraceStore) (n : Z) : TraceStore := {|
  EValue := EValue t; EName := EName t; numProcess := n; numEvent := numEvent t;
  EValueAll := EValueAll t; numEventAll := numEventAll t; hbSet := hbSet t;
  numHbSet := numHbSet t
|}.

Definition with_all (t : TraceStore) (vals : list (list string)) (counts : list Z)
  : TraceStore := {|
  EValue := EValue t; EName := EName t; numProcess := numProcess t;
  numEvent := numEvent t; EValueAll := vals; numEventAll := counts;
  hbSet := hbSet t; numHbSet := numHbSet t
|}.

Definition with_segment (t : TraceStore) (names vals : list (list string))
    (counts : list Z) : TraceStore := {|
  EValue := vals; EName := names; numProcess := numProcess t; numEvent := counts;
  EValueAll := EValueAll t; numEventAll := numEventAll t; hbSet := hbSet t;
  numHbSet := numHbSet t
|}.

Definition with_hb (t : TraceStore) (hb : list (Z * Z)) (n : Z) : TraceStore := {|
  EValue := EValue t; EName := EName t; numProcess := numProcess t;
  numEvent := numEvent t; EValueAll := EValueAll t; numEventAll := numEventAll t;
  hbSet := hb; numHbSet := n
|}.

(** ** Shape invariant

    The arrays keep their declared sizes and every counter stays inside the
    array it indexes. *)
Definition table_shape {A} (tab : list (list A)) : Prop :=
  length tab = max_process /\ Forall (fun row => length row = max_event) tab.

Record store_shape (t : TraceStore) : Prop := {
  shape_EValue : table_shape (EValue t);
  shape_EName : table_shape (EName t);
  shape_EValueAll : table_shape (EValueAll t);
  shape_numEvent : length (numEvent t) = max_process;
  shape_numEventAll : length (numEventAll t) = max_process;
  shape_counts : Forall (fun n => 0 <= n <= Z.of_nat max_event) (numEventAll t);
  shape_hb : length (hbSet t) = max_hb;
  shape_numHb : 0 <= numHbSet t <= Z.of_nat max_hb
}.

Lemma empty_table_shape : table_shape empty_table.
Proof.
  split; [done|]. apply Forall_replicate. by rewrite length_replicate.
Qed.

Lemma initial_store_shape : store_shape initial_store.
Proof.
  split; try apply empty_table_shape; try done.
  apply Forall_replicate. unfold max_event. lia.
Qed.

(** Checked access to a table of the declared shape. *)
Lemma table_lookup {A} (tab : list (list A)) (i j : Z) :
  table_shape tab -> 0 <= i < Z.of_nat max_process -> 0 <= j < Z.of_nat max_event ->
  exists x, aget2 tab i j = Ok x.
Proof.
  intros [Hlen Hrows] Hi Hj. unfold aget2, aget.
  destruct (Z.ltb_spec i 0); [lia|].
  destruct (tab !! Z.to_nat i) as [row|] eqn:E; cbn.
  - eapply Forall_lookup_1 in Hrows as Hrow; [|done].
    destruct (Z.ltb_spec j 0); [lia|].
    destruct (row !! Z.to_nat j) eqn:E2; [by eexists|].
    apply lookup_ge_None in E2. unfold max_event in *. lia.
  - apply lookup_ge_None in E. unfold max_process in *. lia.
Qed.

Lemma table_update {A} (tab : list (list A)) (i j : Z) x :
  table_shape tab -> 0 <= i < Z.of_nat max_process -> 0 <= j < Z.of_nat max_event ->
  exists row, tab !! Z.to_nat i = Some row
    /\ aset2 tab i j x = Ok (<[Z.to_nat i := <[Z.to_nat j := x]> row]> tab)
    /\ table_shape (<[Z.to_nat i := <[Z.to_nat j := x]> row]> tab).
Proof.
  intros [Hlen Hrows] Hi Hj.
  destruct (lookup_lt_is_Some_2 tab (Z.to_nat i)) as [row Hrow];
    [unfold max_process in *; lia|].
  exists row. split; [done|]. unfold aset2.
  assert (aget tab i = Ok row) as -> by (apply aget_ok; split; [lia|done]).
  eapply Forall_lookup_1 in Hrows as Hl; [|done]. cbn in Hl |- *.
  rewrite aset_ok by (unfold max_event in *; lia). cbn.
  rewrite aset_ok by (unfold max_process in *; lia).
  split; [done|]. split; [by rewrite length_insert|].
  apply Forall_insert; [done|]. by rewrite length_insert.
Qed.
