(* ===== verification/Trace.v ===== *)
(** [Monitor::readFile] and [Monitor::readSegTrace] of main.cpp: loading a
    trace file into the monitor's arrays, cutting a segment out of it and
    generating the happened-before pairs of the segment. *)
From S2P Require Import Prelude Text MonitorState.

(** A file system: the contents of every file that can be opened. *)
Abbreviation files := (gmap string string).

(** [ifstream f(name)]; a file that cannot be opened yields no line. *)
Definition read_lines (fs : files) (name : string) : list string :=
  match fs !! name with Some contents => getlines contents | None => [] end.

(** ** [readFile] *)

(** A line that starts a new process: it names a light or a switch. *)
Definition is_header (line : string) : bool :=
  find_sub "light" line || find_sub "switch" line.

Definition readFile_line (line : string) (t : TraceStore) : res TraceStore :=
  if is_header line then Ok (with_numProcess t (numProcess t + 1))
  else
    k ← aget (numEventAll t) (numProcess t);
    counts ← aset (numEventAll t) (numProcess t) (k + 1);
    vals ← aset2 (EValueAll t) (numProcess t) k line;
    Ok (with_all t vals counts).

Definition readFile_store (lines : list string) (t : TraceStore) : res TraceStore :=
  for_in readFile_line lines (with_numProcess t (-1)).

Definition readFile (fs : files) (m : Monitor) : res Monitor :=
  t ← readFile_store (read_lines fs (traceFileName m)) (store m);
  Ok (with_store m t).

(** ** [readSegTrace] *)

(** Body of the copying loop: event [j] of process [i]; [num] numbers the
    events of the segment from 1. *)
Definition copy_event (i j : Z) (s : TraceStore * Z) : res (TraceStore * Z) :=
  let '(t, num) := s in
  k ← aget (numEvent t) i;
  names ← aset2 (EName t) i k (to_string num);
  v ← aget2 (EValueAll t) i j;
  vals ← aset2 (EValue t) i k v;
  counts ← aset (numEvent t) i (k + 1);
  Ok (with_segment t names vals counts, num + 1).

Definition copy_process (start stop : Z) (i : Z) (s : TraceStore * Z)
  : res (TraceStore * Z) :=
  let '(t, num) := s in
  counts ← aset (numEvent t) i 0;
  let t := with_segment t (EName t) (EValue t) counts in
  n ← aget (numEventAll t) i;
  for_range start (Z.min n stop) (copy_event i) (t, num).

(** Body of the four nested loops; [hb] is the pair of [hbSet], [numHbSet]. *)
Definition order_events (t : TraceStore) (eps i j k l : Z) (hb : list (Z * Z) * Z)
  : res (list (Z * Z) * Z) :=
  if (eps <=? Z.abs (j - l)) && negb (i =? k) then
    na ← aget2 (EName t) i j;
    a ← stoi na;
    nb ← aget2 (EName t) k l;
    b ← stoi nb;
    set ← aset (hb.1) (hb.2) (a, b);
    Ok (set, hb.2 + 1)
  else Ok hb.

Definition order_segment (eps : Z) (t : TraceStore) : res TraceStore :=
  hb ← for_range 0 (numProcess t) (fun i hb =>
         ni ← aget (numEvent t) i;
         for_range 0 ni (fun j hb =>
           for_range 0 (numProcess t) (fun k hb =>
             nk ← aget (numEvent t) k;
             for_range 0 nk (fun l hb => order_events t eps i j k l hb) hb) hb) hb)
       (hbSet t, numHbSet t);
  Ok (with_hb t hb.1 hb.2).

Definition copy_segment (start stop : Z) (t : TraceStore) : res TraceStore :=
  s ← for_range 0 (numProcess t) (copy_process start stop) (t, 1);
  Ok s.1.

Definition readSegTrace_store (start stop eps : Z) (t : TraceStore) : res TraceStore :=
  t ← copy_segment (Z.max (start - eps) 0) stop t;
  order_segment eps t.

Definition readSegTrace (start stop eps : Z) (m : Monitor) : res Monitor :=
  t ← readSegTrace_store start stop eps (store m);
  Ok (with_store m t).

(** ** Specification of [readFile] *)

(** A trace file as blocks: a header line followed by the values. *)
Abbreviation block := (string * list string)%type.

Definition block_lines (b : block) : list string := b.1 :: b.2.

Definition block_ok (b : block) : Prop :=
  is_header b.1 = true /\ Forall (fun v => is_header v = false) b.2.

Definition value_row (vs : list string) : list string :=
  vs ++ replicate (max_event - length vs) EmptyString.

(** The storage after reading the given blocks. *)
Definition loaded (t : TraceStore) (bs : list block) : TraceStore :=
  with_all (with_numProcess t (Z.of_nat (length bs) - 1))
    (map (fun b => value_row b.2) bs
       ++ replicate (max_process - length bs) (replicate max_event EmptyString))
    (map (fun b : block => Z.of_nat (length b.2)) bs
       ++ replicate (max_process - length bs) 0).

Lemma loaded_numProcess t bs : numProcess (loaded t bs) = Z.of_nat (length bs) - 1.
Proof. reflexivity. Qed.

Lemma loaded_numEventAll t bs :
  numEventAll (loaded t bs)
  = map (fun b : block => Z.of_nat (length b.2)) bs
      ++ replicate (max_process - length bs) 0.
Proof. reflexivity. Qed.

Lemma loaded_EValueAll t bs :
  EValueAll (loaded t bs)
  = map (fun b : block => value_row b.2) bs
      ++ replicate (max_process - length bs) (replicate max_event EmptyString).
Proof. reflexivity. Qed.

Definition fits (bs : list block) : Prop :=
  (length bs <= max_process)%nat
  /\ Forall (fun b : block => (length b.2 <= max_event)%nat) bs.

Lemma replicate_pred {A} n (x : A) :
  (0 < n)%nat -> replicate n x = x :: replicate (n - 1) x.
Proof. destruct n; [lia|]. intros _. cbn. by rewrite Nat.sub_0_r. Qed.

Lemma loaded_header t bs h :
  is_header h = true -> (length bs < max_process)%nat ->
  readFile_line h (loaded t bs) = Ok (loaded t (bs ++ [(h, [])])).
Proof.
  intros Hh Hlen. unfold readFile_line. rewrite Hh. f_equal.
  unfold loaded, with_all, with_numProcess.
  cbn [EValue EName numProcess numEvent EValueAll numEventAll hbSet numHbSet].
  rewrite !map_app, !length_app.
  rewrite (replicate_pred (max_process - length bs) (replicate _ _)) by lia.
  rewrite (replicate_pred (max_process - length bs) 0) by lia.
  cbn [map length]. rewrite <- !app_assoc. f_equal; [lia|..].
  - do 2 f_equal. f_equal. lia.
  - do 2 f_equal. f_equal. lia.
Qed.

Lemma loaded_value t bs h vs v :
  is_header v = false -> (length bs < max_process)%nat ->
  (length vs < max_event)%nat ->
  readFile_line v (loaded t (bs ++ [(h, vs)])) = Ok (loaded t (bs ++ [(h, vs ++ [v])])).
Proof.
  intros Hv Hbs Hvs. unfold readFile_line. rewrite Hv.
  assert (Z.of_nat (length (bs ++ [(h, vs)])) - 1 = Z.of_nat (length bs)) as Hp
    by (rewrite length_app; cbn; lia).
  rewrite loaded_numProcess, loaded_numEventAll, loaded_EValueAll, Hp, !map_app.
  cbn [map].
  rewrite (aget_nat _ _ (Z.of_nat (length vs))); cbn.
  2: { rewrite lookup_app_l, lookup_app_r; rewrite ?length_app, ?length_map; cbn; try lia.
       by rewrite Nat.sub_diag. }
  rewrite aset_nat by (rewrite !length_app, !length_map; cbn; lia). cbn.
  unfold aset2.
  rewrite (aget_nat _ _ (value_row vs)); cbn.
  2: { rewrite lookup_app_l, lookup_app_r; rewrite ?length_app, ?length_map; cbn; try lia.
       by rewrite Nat.sub_diag. }
  rewrite aset_nat by (unfold value_row; rewrite length_app, length_replicate; lia). cbn.
  rewrite aset_nat by (rewrite !length_app, !length_map; cbn; lia). cbn.
  f_equal. unfold loaded, with_all, with_numProcess.
  cbn [EValue EName numProcess numEvent EValueAll numEventAll hbSet numHbSet].
  rewrite !map_app, !length_app, <- !app_assoc. cbn [map length app].
  rewrite (insert_app_r_alt (map (fun b : block => value_row b.2) bs))
    by (rewrite length_map; lia).
  rewrite (insert_app_r_alt (map (fun b : block => Z.of_nat (length b.2)) bs))
    by (rewrite length_map; lia).
  rewrite !length_map, !Nat.sub_diag. cbn [insert list_insert snd].
  f_equal.
  - do 2 f_equal. unfold value_row. rewrite insert_app_r_alt by lia.
    rewrite Nat.sub_diag, length_app. cbn [length].
    rewrite (replicate_pred (max_event - length vs)) by lia. cbn.
    rewrite <- app_assoc. do 2 f_equal. f_equal. lia.
  - do 2 f_equal. rewrite length_app. cbn. lia.
Qed.

Lemma readFile_values t bs h vs vs' :
  Forall (fun v => is_header v = false) vs' -> (length bs < max_process)%nat ->
  (length (vs ++ vs') <= max_event)%nat ->
  for_in readFile_line vs' (loaded t (bs ++ [(h, vs)]))
  = Ok (loaded t (bs ++ [(h, vs ++ vs')])).
Proof.
  revert vs. induction vs' as [|v vs' IH]; intros vs Hh Hb Hl; cbn.
  - by rewrite app_nil_r.
  - apply Forall_cons in Hh as [Hv Hh]. rewrite length_app in Hl. cbn in Hl.
    rewrite loaded_value by (done || lia). cbn.
    rewrite IH; [by rewrite <- app_assoc|done|done|].
    rewrite <- app_assoc, length_app. cbn. lia.
Qed.

Lemma readFile_loaded t bs bs' :
  Forall block_ok bs' -> fits (bs ++ bs') ->
  for_in readFile_line (bs' ≫= block_lines) (loaded t bs) = Ok (loaded t (bs ++ bs')).
Proof.
  revert bs. induction bs' as [|[h vs] bs' IH]; intros bs Hok Hfit.
  - cbn. by rewrite app_nil_r.
  - apply Forall_cons in Hok as [[Hh Hvs] Hok]. destruct Hfit as [Hlen Hrows].
    rewrite length_app in Hlen. cbn in Hh, Hvs, Hlen.
    apply Forall_app in Hrows as Hr. destruct Hr as [_ Hr].
    apply Forall_cons in Hr as [Hr _]. cbn in Hr.
    cbn. rewrite loaded_header by (done || lia). cbn. rewrite for_in_app.
    rewrite readFile_values by (done || lia). cbn.
    rewrite IH; [by rewrite <- app_assoc|done|].
    rewrite <- app_assoc. split; [rewrite length_app; cbn; lia|done].
Qed.

(** Starting point of the loop on a monitor whose arrays were just reset. *)
Lemma loaded_nil : with_numProcess initial_store (-1) = loaded initial_store [].
Proof. done. Qed.

(** ** Specification of [readSegTrace] *)

(** Entry [j] of row [i]. *)
Definition cell {A} (tab : list (list A)) (i : nat) (j : Z) : option A :=
  row ← tab !! i; row !! Z.to_nat j.

(** Number of events each process contributes to a segment. *)
Definition seg_counts (start stop : Z) (t : TraceStore) : list Z :=
  map (fun n => Z.max 0 (Z.min n stop - start))
    (take (Z.to_nat (numProcess t)) (numEventAll t)).

(** Number given to event [j] of process [i]: processes are numbered one after
    the other, from 1. *)
Definition event_id (ns : list Z) (i : nat) (j : Z) : Z :=
  1 + foldr Z.add 0 (take i ns) + j.

(** Happened-before pairs of a segment, in the order they are generated. *)
Definition hb_pairs (eps : Z) (ns : list Z) : list (Z * Z) :=
  let procs := seqZ 0 (Z.of_nat (length ns)) in
  i ← procs;
  j ← seqZ 0 (ns !!! Z.to_nat i);
  k ← procs;
  l ← seqZ 0 (ns !!! Z.to_nat k);
  if (eps <=? Z.abs (j - l)) && negb (i =? k)
  then [(event_id ns (Z.to_nat i) j, event_id ns (Z.to_nat k) l)] else [].

Lemma event_id_succ ns i n j :
  ns !! i = Some n -> event_id ns (S i) j = event_id ns i (n + j).
Proof.
  intros H. unfold event_id. rewrite (take_S_r _ _ n) by done.
  rewrite foldr_app. cbn.
  assert (forall l a, foldr Z.add a l = foldr Z.add 0 l + a) as Hadd
    by (induction l as [|x l IH]; intros a; cbn; [lia|rewrite IH; lia]).
  rewrite Hadd. lia.
Qed.

Lemma cell_insert {A} (tab : list (list A)) i j i' j' x row :
  tab !! i = Some row -> 0 <= j < Z.of_nat (length row) -> 0 <= j' ->
  cell (<[i := <[Z.to_nat j := x]> row]> tab) i' j'
  = if decide (i' = i /\ j' = j) then Some x else cell tab i' j'.
Proof.
  intros Hrow Hj Hj'. unfold cell.
  assert (i < length tab)%nat by (by eapply lookup_lt_Some).
  destruct (decide (i' = i)) as [->|Hi].
  - rewrite list_lookup_insert_eq by done. cbn. rewrite Hrow. cbn.
    destruct (decide (j' = j)) as [->|Hjj].
    + rewrite list_lookup_insert_eq by lia. by rewrite decide_True.
    + rewrite list_lookup_insert_ne by lia. by rewrite decide_False by lia.
  - rewrite list_lookup_insert_ne by done. by rewrite decide_False by naive_solver.
Qed.

(** The copying loops: processes before [i] are copied, and [k] events of
    process [i]. *)
Record copied (t : TraceStore) (start : Z) (ns : list Z) (i : nat) (k : Z)
    (s : TraceStore * Z) : Prop := {
  cp_frame : s.1 = with_segment t (EName s.1) (EValue s.1) (numEvent s.1);
  cp_EName : table_shape (EName s.1);
  cp_EValue : table_shape (EValue s.1);
  cp_len : length (numEvent s.1) = max_process;
  cp_num : s.2 = event_id ns i k;
  cp_counts : forall i' n, (i' < i)%nat -> ns !! i' = Some n ->
    numEvent s.1 !! i' = Some n;
  cp_cells : forall i' j n, 0 <= j < n ->
    (i' < i)%nat /\ ns !! i' = Some n \/ i' = i /\ n = k ->
    cell (EName s.1) i' j = Some (to_string (event_id ns i' j))
    /\ cell (EValue s.1) i' j = cell (EValueAll t) i' (start + j)
}.

Lemma copied_frame t start ns i k s : copied t start ns i k s ->
  EValueAll s.1 = EValueAll t /\ numEventAll s.1 = numEventAll t
  /\ numProcess s.1 = numProcess t /\ hbSet s.1 = hbSet t /\ numHbSet s.1 = numHbSet t.
Proof. intros H. rewrite (cp_frame _ _ _ _ _ _ H). done. Qed.

Lemma aget2_cell {A} (tab : list (list A)) (i : nat) (j : Z) x :
  0 <= j -> aget2 tab (Z.of_nat i) j = Ok x <-> cell tab i j = Some x.
Proof.
  intros Hj. unfold aget2, cell. rewrite bind_ok. split.
  - intros (row & (_ & H1)%aget_ok & (_ & H2)%aget_ok). rewrite Nat2Z.id in H1.
    by rewrite H1.
  - destruct (tab !! i) as [row|] eqn:E; [|done]. cbn. intros H.
    exists row. split; [by apply aget_nat|]. by apply aget_ok.
Qed.

Lemma copy_event_step t start ns i k s :
  store_shape t -> (i < max_process)%nat -> 0 <= start -> 0 <= k ->
  start + k < Z.of_nat max_event ->
  copied t start ns i k s -> numEvent s.1 !! i = Some k ->
  exists s', copy_event (Z.of_nat i) (start + k) s = Ok s'
    /\ copied t start ns i (k + 1) s' /\ numEvent s'.1 !! i = Some (k + 1).
Proof.
  intros Ht Hi Hstart Hk Hmax Hc Hn. destruct s as [t1 num]. cbn [fst snd] in *.
  pose proof (copied_frame _ _ _ _ _ _ Hc) as (Hva & _). cbn in Hva.
  destruct Hc as [Hf HN HV Hlen Hnum Hcounts Hcells]. cbn [fst snd] in *.
  unfold copy_event. rewrite (aget_nat _ _ k) by done. cbn.
  destruct (table_update (EName t1) (Z.of_nat i) k (to_string num)) as (rN & HrN & -> & HN');
    [done|lia|lia|]. cbn.
  destruct (table_lookup (EValueAll t) (Z.of_nat i) (start + k)) as (v & Hv);
    [apply Ht|lia|lia|]. rewrite Hva, Hv. cbn.
  destruct (table_update (EValue t1) (Z.of_nat i) k v) as (rV & HrV & -> & HV');
    [done|lia|lia|]. cbn.
  rewrite aset_nat by lia. cbn. rewrite !Nat2Z.id in *.
  assert (length rN = max_event) as HlN by (by eapply (Forall_lookup_1 _ _ _ _ (proj2 HN))).
  assert (length rV = max_event) as HlV by (by eapply (Forall_lookup_1 _ _ _ _ (proj2 HV))).
  eexists. split; [done|]. split; [|cbn; by rewrite list_lookup_insert_eq by lia].
  split; cbn; try done.
  - rewrite Hf. done.
  - by rewrite length_insert.
  - rewrite Hnum. unfold event_id. lia.
  - intros i' n Hi' Hns. rewrite list_lookup_insert_ne by lia. by apply Hcounts.
  - intros i' j n Hj Hcase. rewrite !(cell_insert _ i k) by (done || lia).
    case_decide as Hd.
    + destruct Hd as [-> ->]. split; [by rewrite Hnum|].
      apply aget2_cell in Hv; [done|lia].
    + apply (Hcells i' j (if decide (i' = i) then k else n)).
      * case_decide; [|done]. lia.
      * case_decide; [|naive_solver lia]. right. done.
Qed.

(** A completely copied process is one more process copied. *)
Lemma copied_next t start ns i n s :
  ns !! i = Some n -> copied t start ns i n s -> numEvent s.1 !! i = Some n ->
  copied t start ns (S i) 0 s.
Proof.
  intros Hns [Hf HN HV Hlen Hnum Hcounts Hcells] Hn. split; try done.
  - rewrite Hnum, (event_id_succ _ _ n) by done. f_equal. lia.
  - intros i' m Hi' Hm. destruct (decide (i' = i)) as [->|]; [congruence|].
    apply Hcounts; [lia|done].
  - intros i' j m Hj [[Hi' Hm]|[-> ->]]; [|lia].
    apply (Hcells i' j m Hj). destruct (decide (i' = i)) as [->|].
    + right. split; [done|congruence].
    + left. split; [lia|done].
Qed.

Lemma copy_process_step t start stop i s :
  store_shape t -> 0 <= start -> (i < Z.to_nat (numProcess t))%nat ->
  numProcess t <= Z.of_nat max_process ->
  copied t start (seg_counts start stop t) i 0 s ->
  exists s', copy_process start stop (Z.of_nat i) s = Ok s'
    /\ copied t start (seg_counts start stop t) (S i) 0 s'.
Proof.
  intros Ht Hstart Hi Hp Hc. set (ns := seg_counts start stop t) in *.
  destruct s as [t1 num].
  pose proof (copied_frame _ _ _ _ _ _ Hc) as (Hva & Hna & Hnp & Hhb & Hnh).
  cbn [fst snd] in *.
  destruct (lookup_lt_is_Some_2 (numEventAll t) i) as [n Hn];
    [rewrite (shape_numEventAll _ Ht); unfold max_process in *; lia|].
  assert (0 <= n <= Z.of_nat max_event) as Hbound
    by (by eapply (Forall_lookup_1 _ _ _ _ (shape_counts _ Ht))).
  assert (ns !! i = Some (Z.max 0 (Z.min n stop - start))) as Hns.
  { unfold ns, seg_counts. rewrite list_lookup_fmap, lookup_take, Hn.
    case_decide; [done|lia]. }
  unfold copy_process. destruct Hc as [Hf HN HV Hlen Hnum Hcounts Hcells].
  cbn [fst snd] in *.
  rewrite aset_nat by lia. cbn. rewrite Hna, (aget_nat _ _ n) by done. cbn.
  set (s0 := (with_segment t1 (EName t1) (EValue t1) (<[i:=0]> (numEvent t1)), num)).
  assert (copied t start ns i 0 s0 /\ numEvent s0.1 !! i = Some 0) as [Hc0 Hn0].
  { split; [|cbn; by rewrite list_lookup_insert_eq by lia].
    split; cbn; try done.
    - by rewrite Hf.
    - by rewrite length_insert.
    - intros i' m Hi' Hm. rewrite list_lookup_insert_ne by lia. by apply Hcounts. }
  clearbody s0. clear Hf HN HV Hlen Hnum Hcounts Hcells.
  destruct (Z.le_gt_cases start (Z.min n stop)) as [Hle|Hgt].
  - destruct (for_range_rule
      (fun x s => copied t start ns i (x - start) s /\ numEvent s.1 !! i = Some (x - start))
      start (Z.min n stop) (copy_event (Z.of_nat i)) s0) as (s' & -> & Hc' & Hn').
    + done.
    + by rewrite Z.sub_diag.
    + intros x s Hx [Hcx Hnx].
      destruct (copy_event_step t start ns i (x - start) s) as (s' & He & Hc' & Hn');
        try done; try lia.
      replace (start + (x - start)) with x in He by lia.
      replace (x - start + 1) with (x + 1 - start) in * by lia. by exists s'.
    + exists s'. split; [done|]. revert Hc' Hn'.
      replace (Z.max 0 (Z.min n stop - start)) with (Z.min n stop - start) in Hns by lia.
      by apply copied_next.
  - rewrite for_range_empty by lia. exists s0. split; [done|].
    replace (Z.max 0 (Z.min n stop - start)) with 0 in Hns by lia.
    by apply (copied_next _ _ _ _ 0).
Qed.

Lemma copy_segment_spec start stop t :
  store_shape t -> 0 <= start -> 0 <= numProcess t <= Z.of_nat max_process ->
  exists t', copy_segment start stop t = Ok t'
    /\ exists num, copied t start (seg_counts start stop t) (Z.to_nat (numProcess t)) 0 (t', num).
Proof.
  intros Ht Hstart Hp. unfold copy_segment.
  destruct (for_range_rule
    (fun i s => copied t start (seg_counts start stop t) (Z.to_nat i) 0 s)
    0 (numProcess t) (copy_process start stop) (t, 1)) as ([t' num] & -> & Hc).
  - lia.
  - split; cbn; try done; [by destruct t|apply Ht|apply Ht|apply Ht|lia..].
  - intros i s Hi Hc.
    destruct (copy_process_step t start stop (Z.to_nat i) s) as (s' & He & Hc');
      try done; [lia|lia|].
    rewrite Z2Nat.id in He by lia. exists s'. split; [done|].
    by replace (Z.to_nat (i + 1)) with (S (Z.to_nat i)) by lia.
  - exists t'. split; [done|]. by exists num.
Qed.

(** ** The happened-before loops *)

Definition push_hb (p : Z * Z) (hb : list (Z * Z) * Z) : res (list (Z * Z) * Z) :=
  set ← aset (hb.1) (hb.2) p; Ok (set, hb.2 + 1).

(** The stored numbers of the events of a copied segment. *)
Definition named (t : TraceStore) (ns : list Z) : Prop :=
  Z.of_nat (length ns) = numProcess t
  /\ (forall i n, ns !! i = Some n -> numEvent t !! i = Some n)
  /\ forall i n j, ns !! i = Some n -> 0 <= j < n ->
       cell (EName t) i j = Some (to_string (event_id ns i j))
       /\ 0 <= event_id ns i j <= int_max.

Lemma named_stoi t ns i n j :
  named t ns -> ns !! Z.to_nat i = Some n -> 0 <= i -> 0 <= j < n ->
  aget2 (EName t) i j = Ok (to_string (event_id ns (Z.to_nat i) j))
  /\ stoi (to_string (event_id ns (Z.to_nat i) j)) = Ok (event_id ns (Z.to_nat i) j).
Proof.
  intros (_ & _ & Hn) Hi Hi0 Hj. destruct (Hn (Z.to_nat i) n j) as [Hc Hid]; [done..|].
  split; [|by apply stoi_to_string].
  rewrite <- (Z2Nat.id i) at 1 by done. apply aget2_cell; [lia|done].
Qed.

Lemma order_events_push t ns eps i j k l ni nk hb :
  named t ns -> ns !! Z.to_nat i = Some ni -> ns !! Z.to_nat k = Some nk ->
  0 <= i -> 0 <= k -> 0 <= j < ni -> 0 <= l < nk ->
  order_events t eps i j k l hb
  = for_in push_hb
      (if (eps <=? Z.abs (j - l)) && negb (i =? k)
       then [(event_id ns (Z.to_nat i) j, event_id ns (Z.to_nat k) l)] else []) hb.
Proof.
  intros Hnm Hi Hk Hi0 Hk0 Hj Hl. unfold order_events.
  destruct (named_stoi t ns i ni j) as [-> Ha]; [done..|].
  destruct (named_stoi t ns k nk l) as [-> Hb]; [done..|].
  destruct ((eps <=? Z.abs (j - l)) && negb (i =? k)); [|done].
  cbn -[stoi to_string]. rewrite Ha. cbn -[stoi to_string]. rewrite Hb. cbn.
  unfold push_hb. cbn. by destruct (aset hb.1 hb.2 _).
Qed.

Lemma order_segment_pairs eps t ns :
  named t ns ->
  order_segment eps t
  = (hb ← for_in push_hb (hb_pairs eps ns) (hbSet t, numHbSet t);
     Ok (with_hb t hb.1 hb.2)).
Proof.
  intros Hnm. pose proof Hnm as (Hlen & Hcount & _).
  unfold order_segment. f_equal. unfold hb_pairs, for_range.
  rewrite for_in_bind, <- Hlen, Z.sub_0_r. apply for_in_ext. intros i hb Hi.
  apply elem_of_seqZ in Hi.
  destruct (lookup_lt_is_Some_2 ns (Z.to_nat i)) as [ni Hni]; [lia|].
  rewrite (list_lookup_total_correct _ _ _ Hni).
  rewrite <- (Z2Nat.id i) at 1 by lia. rewrite (aget_nat _ _ ni) by auto. cbn.
  rewrite for_in_bind, Z.sub_0_r. apply for_in_ext. intros j hb' Hj.
  apply elem_of_seqZ in Hj.
  rewrite for_in_bind. apply for_in_ext. intros k hb2 Hk.
  apply elem_of_seqZ in Hk.
  destruct (lookup_lt_is_Some_2 ns (Z.to_nat k)) as [nk Hnk]; [lia|].
  rewrite (list_lookup_total_correct _ _ _ Hnk).
  rewrite <- (Z2Nat.id k) at 1 by lia. rewrite (aget_nat _ _ nk) by auto. cbn.
  rewrite for_in_bind, Z.sub_0_r. apply for_in_ext. intros l hb3 Hl.
  apply elem_of_seqZ in Hl.
  by apply (order_events_push t ns eps i j k l ni nk); try lia.
Qed.

Lemma push_hb_all ps hb n :
  0 <= n ->
  for_in push_hb ps (hb, n)
  = if n + Z.of_nat (length ps) <=? Z.of_nat (length hb) then
      Ok (take (Z.to_nat n) hb ++ ps ++ drop (Z.to_nat n + length ps) hb,
          n + Z.of_nat (length ps))
    else if decide (ps = []) then Ok (hb, n) else Fault OutOfBounds.
Proof.
  revert hb n. induction ps as [|p ps IH]; intros hb n Hn.
  - cbn. rewrite Nat.add_0_r, take_drop, Z.add_0_r. by case_match.
  - cbn [for_in length].
    change (push_hb p (hb, n)) with (set ← aset hb n p; Ok (set, n + 1) : res (list (Z * Z) * Z)).
    destruct (Z.leb_spec (n + Z.of_nat (S (length ps))) (Z.of_nat (length hb))) as [Hle|Hgt].
    + rewrite aset_ok by lia. cbn. rewrite IH by lia. rewrite length_insert.
      destruct (Z.leb_spec (n + 1 + Z.of_nat (length ps)) (Z.of_nat (length hb))); [|lia].
      do 2 f_equal; [|lia].
      replace (Z.to_nat (n + 1)) with (S (Z.to_nat n)) by lia.
      rewrite (take_S_r _ _ p) by (rewrite list_lookup_insert_eq by lia; done).
      rewrite take_insert_ge by lia. rewrite drop_insert_lt by lia.
      rewrite <- app_assoc. cbn. do 3 f_equal. f_equal. lia.
    + rewrite decide_False by done.
      destruct (Z.le_gt_cases (Z.of_nat (length hb)) n).
      * by rewrite aset_fault by lia.
      * rewrite aset_ok by lia. cbn. rewrite IH by lia. rewrite length_insert.
        destruct (Z.leb_spec (n + 1 + Z.of_nat (length ps)) (Z.of_nat (length hb))); [lia|].
        rewrite decide_False; [done|]. intros ->. cbn in *. lia.
Qed.

Lemma foldr_add_bounds ns B :
  0 <= B -> Forall (fun n => 0 <= n <= B) ns ->
  0 <= foldr Z.add 0 ns <= B * Z.of_nat (length ns).
Proof. intros HB. induction 1; cbn [foldr length]; lia. Qed.

Lemma seg_counts_bounds start stop t :
  store_shape t -> 0 <= start ->
  Forall (fun n => 0 <= n <= Z.of_nat max_event) (seg_counts start stop t)
  /\ (length (seg_counts start stop t) <= max_process)%nat.
Proof.
  intros Ht Hs. unfold seg_counts. split.
  - apply Forall_map, Forall_take. eapply Forall_impl; [apply (shape_counts _ Ht)|].
    cbn. lia.
  - rewrite length_map, length_take, (shape_numEventAll _ Ht). lia.
Qed.

Lemma event_id_range ns i n j :
  Forall (fun n => 0 <= n <= Z.of_nat max_event) ns -> (length ns <= max_process)%nat ->
  ns !! i = Some n -> 0 <= j < n -> 1 <= event_id ns i j <= 1000.
Proof.
  intros Hns Hlen Hi Hj. assert (i < length ns)%nat by (by eapply lookup_lt_Some).
  assert (event_id ns i j < event_id ns (S i) 0).
  { rewrite (event_id_succ _ _ n) by done. unfold event_id. lia. }
  pose proof (foldr_add_bounds (take i ns) (Z.of_nat max_event)) as H1.
  pose proof (foldr_add_bounds (take (S i) ns) (Z.of_nat max_event)) as H2.
  rewrite length_take in H1, H2. unfold event_id, max_event, max_process in *.
  specialize (H1 ltac:(lia) (Forall_take _ _ _ Hns)).
  specialize (H2 ltac:(lia) (Forall_take _ _ _ Hns)). lia.
Qed.

Lemma copied_named t start stop t' num :
  store_shape t -> 0 <= start -> 0 <= numProcess t <= Z.of_nat max_process ->
  copied t start (seg_counts start stop t) (Z.to_nat (numProcess t)) 0 (t', num) ->
  named t' (seg_counts start stop t).
Proof.
  intros Ht Hs Hp Hc. destruct (copied_frame _ _ _ _ _ _ Hc) as (_ & _ & Hnp & _).
  destruct (seg_counts_bounds start stop t Ht Hs) as [Hb Hl].
  assert (length (seg_counts start stop t) = Z.to_nat (numProcess t)) as Hlen.
  { unfold seg_counts. rewrite length_map, length_take, (shape_numEventAll _ Ht). lia. }
  split; [cbn in *; lia|]. split.
  - intros i n Hi. apply (cp_counts _ _ _ _ _ _ Hc); [|done].
    apply lookup_lt_Some in Hi. lia.
  - intros i n j Hi Hj. split.
    + apply (cp_cells _ _ _ _ _ _ Hc i j n); [done|]. left. split; [|done].
      apply lookup_lt_Some in Hi. lia.
    + pose proof (event_id_range _ _ _ _ Hb Hl Hi Hj). unfold int_max. lia.
Qed.

(** What a call of [readSegTrace] leaves in the storage. *)
Record segment_read (t : TraceStore) (start : Z) (ns : list Z) (pairs : list (Z * Z))
    (t' : TraceStore) : Prop := {
  sr_counts : forall i n, ns !! i = Some n -> numEvent t' !! i = Some n;
  sr_names : forall i n j, ns !! i = Some n -> 0 <= j < n ->
    cell (EName t') i j = Some (to_string (event_id ns i j));
  sr_values : forall i n j, ns !! i = Some n -> 0 <= j < n ->
    cell (EValue t') i j = cell (EValueAll t) i (start + j);
  sr_hb : hbSet t' = take (Z.to_nat (numHbSet t)) (hbSet t) ++ pairs
    ++ drop (Z.to_nat (numHbSet t) + length pairs) (hbSet t);
  sr_numHb : numHbSet t' = numHbSet t + Z.of_nat (length pairs);
  sr_frame : EValueAll t' = EValueAll t /\ numEventAll t' = numEventAll t
    /\ numProcess t' = numProcess t;
  sr_shape : store_shape t'
}.

Section ReadSegTrace.
Context (t : TraceStore) (start stop eps : Z).
Context (Hshape : store_shape t) (Hproc : 0 <= numProcess t <= Z.of_nat max_process).
Let first := Z.max (start - eps) 0.
Let ns := seg_counts first stop t.
Let pairs := hb_pairs eps ns.

Lemma readSegTrace_copied :
  exists t1 num, copied t first ns (Z.to_nat (numProcess t)) 0 (t1, num)
    /\ readSegTrace_store start stop eps t
       = (hb ← for_in push_hb pairs (hbSet t, numHbSet t);
          Ok (with_hb t1 hb.1 hb.2)).
Proof.
  destruct (copy_segment_spec first stop t) as (t1 & He & num & Hc);
    [done|unfold first; lia|done|].
  exists t1, num. split; [done|]. unfold readSegTrace_store.
  fold first. rewrite He. cbn.
  rewrite (order_segment_pairs eps t1 ns).
  2: { unfold ns. eapply copied_named; try done. unfold first; lia. }
  pose proof (copied_frame _ _ _ _ _ _ Hc) as (_ & _ & _ & Hh & Hn).
  cbn in Hh, Hn. by rewrite Hh, Hn.
Qed.

Lemma copied_segment_read t1 num hb :
  copied t first ns (Z.to_nat (numProcess t)) 0 (t1, num) ->
  numHbSet t + Z.of_nat (length pairs) <= Z.of_nat max_hb ->
  hb = take (Z.to_nat (numHbSet t)) (hbSet t) ++ pairs
       ++ drop (Z.to_nat (numHbSet t) + length pairs) (hbSet t) ->
  segment_read t first ns pairs (with_hb t1 hb (numHbSet t + Z.of_nat (length pairs))).
Proof.
  intros Hc Hroom ->. pose proof (shape_numHb _ Hshape) as Hn.
  pose proof (shape_hb _ Hshape) as Hl.
  destruct (copied_named t first stop t1 num) as (Hlen & Hcn & Hnm);
    [done|unfold first; lia|done|done|].
  pose proof (copied_frame _ _ _ _ _ _ Hc) as (Hva & Hna & Hnp & _).
  cbn [fst] in *.
  assert (length ns = Z.to_nat (numProcess t)) as Hlns by (unfold ns; lia).
  split; cbn; try done.
  - intros i n j Hi Hj. by apply (Hnm i n j).
  - intros i n j Hi Hj. apply (cp_cells _ _ _ _ _ _ Hc i j n); [done|]. left.
    apply lookup_lt_Some in Hi as Hlt. split; [lia|done].
  - split; cbn; rewrite ?Hva, ?Hna; try apply Hshape.
    + apply (cp_EValue _ _ _ _ _ _ Hc).
    + apply (cp_EName _ _ _ _ _ _ Hc).
    + apply (cp_len _ _ _ _ _ _ Hc).
    + rewrite !length_app, length_take, length_drop. unfold max_hb in *. lia.
    + unfold max_hb in *. lia.
Qed.
End ReadSegTrace.

Lemma hb_pairs_elem eps ns a b :
  (a, b) ∈ hb_pairs eps ns <->
  exists i j k l ni nk, ns !! i = Some ni /\ ns !! k = Some nk
    /\ 0 <= j < ni /\ 0 <= l < nk /\ eps <= Z.abs (j - l) /\ i <> k
    /\ a = event_id ns i j /\ b = event_id ns k l.
Proof.
  unfold hb_pairs. split.
  - intros (i & Hi & Hz)%list_elem_of_bind. revert Hi.
    intros (j & Hj & Hjz)%list_elem_of_bind. revert Hj.
    intros (k & Hk & Hkz)%list_elem_of_bind. revert Hk.
    intros (l & Hl & Hlz)%list_elem_of_bind. revert Hl.
    rewrite elem_of_seqZ in *.
    destruct (lookup_lt_is_Some_2 ns (Z.to_nat i)) as [ni Hni]; [lia|].
    destruct (lookup_lt_is_Some_2 ns (Z.to_nat k)) as [nk Hnk]; [lia|].
    rewrite (list_lookup_total_correct _ _ _ Hni) in Hjz.
    rewrite (list_lookup_total_correct _ _ _ Hnk) in Hlz.
    destruct ((eps <=? Z.abs (j - l)) && negb (i =? k)) eqn:E; [|by intros ?%elem_of_nil].
    intros [= -> ->]%list_elem_of_singleton.
    apply andb_true_iff in E as [E1%Z.leb_le E2%negb_true_iff%Z.eqb_neq].
    exists (Z.to_nat i), j, (Z.to_nat k), l, ni, nk. repeat split; try done; lia.
  - intros (i & j & k & l & ni & nk & Hi & Hk & Hj & Hl & He & Hne & -> & ->).
    apply lookup_lt_Some in Hi as Hi'. apply lookup_lt_Some in Hk as Hk'.
    apply list_elem_of_bind. exists (Z.of_nat i). rewrite elem_of_seqZ. split; [|lia].
    rewrite Nat2Z.id, (list_lookup_total_correct _ _ _ Hi).
    apply list_elem_of_bind. exists j. rewrite elem_of_seqZ. split; [|lia].
    apply list_elem_of_bind. exists (Z.of_nat k). rewrite elem_of_seqZ. split; [|lia].
    rewrite Nat2Z.id, (list_lookup_total_correct _ _ _ Hk).
    apply list_elem_of_bind. exists l. rewrite elem_of_seqZ. split; [|lia].
    destruct (Z.leb_spec eps (Z.abs (j - l))); [|lia].
    destruct (Z.eqb_spec (Z.of_nat i) (Z.of_nat k)); [lia|]. cbn. by left.
Qed.

Lemma hb_pairs_flip eps ns a b : (a, b) ∈ hb_pairs eps ns -> (b, a) ∈ hb_pairs eps ns.
Proof.
  rewrite !hb_pairs_elem.
  intros (i & j & k & l & ni & nk & H1 & H2 & H3 & H4 & H5 & H6 & H7 & H8).
  exists k, l, i, j, nk, ni; repeat split; try done; lia.
Qed.

(** ** Properties *)

Lemma readFile_of_blocks fs m contents bs :
  fs !! traceFileName m = Some contents ->
  getlines contents = bs ≫= block_lines ->
  Forall block_ok bs -> fits bs -> store m = initial_store ->
  readFile fs m = Ok (with_store m (loaded initial_store bs)).
Proof.
  intros Hf Hl Hok Hfit Hm. unfold readFile, read_lines, readFile_store.
  rewrite Hf, Hl, Hm, loaded_nil.
  by rewrite (readFile_loaded initial_store [] bs) by done.
Qed.

(** C33: [readFile] on a trace file made of blocks (a header line naming a light
    or a switch, then its values), at most ten of them with at most a hundred
    values each, stores the values of block [i] in row [i] of [EValueAll] and
    their number in [numEventAll[i]], and leaves [numProcess] one below the
    number of blocks. *)
Theorem readFile_blocks fs m contents bs :
  fs !! traceFileName m = Some contents ->
  getlines contents = bs ≫= block_lines ->
  Forall block_ok bs -> fits bs -> store m = initial_store ->
  readFile fs m = Ok (with_store m (loaded initial_store bs)).
Proof. apply readFile_of_blocks. Qed.

Lemma readFile_overflow_row t bs h vs v rest :
  (length bs < max_process)%nat -> length vs = max_event -> is_header v = false ->
  for_in readFile_line (v :: rest) (loaded t (bs ++ [(h, vs)])) = Fault OutOfBounds.
Proof.
  intros Hb Hl Hv. cbn [for_in]. unfold readFile_line. rewrite Hv.
  assert (numProcess (loaded t (bs ++ [(h, vs)])) = Z.of_nat (length bs)) as ->
    by (rewrite loaded_numProcess, length_app; cbn; lia).
  rewrite loaded_numEventAll, loaded_EValueAll, !map_app. cbn [map].
  rewrite (aget_nat _ _ (Z.of_nat max_event)); cbn.
  2: { rewrite lookup_app_l, lookup_app_r; rewrite ?length_app, ?length_map; cbn; try lia.
       by rewrite Nat.sub_diag, <- Hl. }
  rewrite aset_nat by (rewrite !length_app, !length_map; cbn; lia). cbn. unfold aset2.
  rewrite (aget_nat _ _ (value_row vs)); cbn.
  2: { rewrite lookup_app_l, lookup_app_r; rewrite ?length_app, ?length_map; cbn; try lia.
       by rewrite Nat.sub_diag. }
  rewrite aset_fault; [done|]. unfold value_row. rewrite length_app, length_replicate. lia.
Qed.

(** C37: a block with more than a hundred values makes [readFile] write past its
    row of [EValueAll], whatever follows in the file. *)
Theorem readFile_overflow fs m contents bs h vs rest :
  fs !! traceFileName m = Some contents ->
  getlines contents = (bs ≫= block_lines) ++ h :: vs ++ rest ->
  Forall block_ok bs -> block_ok (h, vs) -> fits bs ->
  (length bs < max_process)%nat -> (max_event < length vs)%nat ->
  store m = initial_store ->
  readFile fs m = Fault OutOfBounds.
Proof.
  intros Hf Hl Hok [Hh Hvs] [Hfit Hrows] Hb Hlong Hm.
  unfold readFile, read_lines, readFile_store. rewrite Hf, Hl, Hm, loaded_nil.
  rewrite for_in_app, (readFile_loaded initial_store [] bs) by done.
  cbn [mbind res_bind for_in app]. rewrite loaded_header by done.
  cbn [mbind res_bind].
  rewrite <- (take_drop max_event vs) in Hvs |- *. cbn in Hvs.
  apply Forall_app in Hvs as [Hv1 Hv2].
  rewrite <- app_assoc, for_in_app, readFile_values; try done.
  2: { cbn. rewrite length_take. lia. }
  cbn [mbind res_bind app].
  destruct (drop max_event vs) as [|v rest'] eqn:E.
  - apply (f_equal length) in E. rewrite length_drop in E. cbn in E. lia.
  - apply Forall_cons in Hv2 as [Hv _]. cbn [app]. rewrite readFile_overflow_row; [done|done| |done].
    rewrite length_take. lia.
Qed.

Lemma readFile_line_shape line t t' :
  store_shape t -> -1 <= numProcess t -> readFile_line line t = Ok t' ->
  store_shape t' /\ -1 <= numProcess t'.
Proof.
  intros Ht Hp. unfold readFile_line. destruct (is_header line).
  - intros [= <-]. split; [|cbn; lia]. by destruct Ht.
  - intros (k & [Hk0 Hk]%aget_ok & H)%bind_ok.
    apply bind_ok in H as (counts & [Hc ->]%aset_inv & H).
    apply bind_ok in H as (vals & Hv & [= <-]). split; [|done].
    assert (0 <= k <= Z.of_nat max_event)
      by (by eapply (Forall_lookup_1 _ _ _ _ (shape_counts _ Ht))).
    unfold aset2 in Hv. apply bind_ok in Hv as (row & [_ Hrow]%aget_ok & Hv).
    apply bind_ok in Hv as (row' & [Hk2 ->]%aset_inv & [_ ->]%aset_inv).
    assert (length row = max_event)
      by (by eapply (Forall_lookup_1 _ _ _ _ (proj2 (shape_EValueAll _ Ht)))).
    destruct Ht as [H1 H2 [H3 H3'] H4 H5 H6 H7 H8]. split; cbn; try done.
    + split; [by rewrite length_insert|]. apply Forall_insert; [done|].
      by rewrite length_insert.
    + by rewrite length_insert.
    + apply Forall_insert; [done|]. lia.
Qed.

Lemma readFile_keeps fs m m' :
  store_shape (store m) -> readFile fs m = Ok m' ->
  store_shape (store m') /\ -1 <= numProcess (store m')
  /\ verdicts m' = verdicts m /\ verdicts_mod m' = verdicts_mod m.
Proof.
  intros Hm (t & Ht & [= <-])%bind_ok. cbn.
  cut (store_shape t /\ -1 <= numProcess t); [naive_solver|].
  unfold readFile_store in Ht. revert Ht.
  apply (for_in_inv (fun t => store_shape t /\ -1 <= numProcess t)).
  - intros line t1 t2 _ [H1 H2]. by apply readFile_line_shape.
  - cbn. split; [|lia]. by destruct Hm.
Qed.

(** C39: whatever the trace file holds, a [readFile] that stays inside the arrays
    keeps the declared sizes and counters inside them. *)
Theorem readFile_shape fs m m' :
  store_shape (store m) -> readFile fs m = Ok m' ->
  store_shape (store m') /\ -1 <= numProcess (store m')
  /\ verdicts m' = verdicts m /\ verdicts_mod m' = verdicts_mod m.
Proof. apply readFile_keeps. Qed.

Lemma readSegTrace_fits t start stop eps :
  store_shape t -> 0 <= numProcess t <= Z.of_nat max_process ->
  let ns := seg_counts (Z.max (start - eps) 0) stop t in
  numHbSet t + Z.of_nat (length (hb_pairs eps ns)) <= Z.of_nat max_hb ->
  exists t', readSegTrace_store start stop eps t = Ok t'
    /\ segment_read t (Z.max (start - eps) 0) ns (hb_pairs eps ns) t'.
Proof.
  intros Ht Hp ns Hroom.
  destruct (readSegTrace_copied t start stop eps Ht Hp) as (t1 & num & Hc & ->).
  fold ns. pose proof (shape_numHb _ Ht) as Hn. pose proof (shape_hb _ Ht) as Hl.
  rewrite push_hb_all by lia. rewrite Hl.
  destruct (Z.leb_spec (numHbSet t + Z.of_nat (length (hb_pairs eps ns)))
    (Z.of_nat max_hb)); [|lia].
  eexists. split; [done|]. by eapply copied_segment_read.
Qed.

Lemma readSegTrace_over t start stop eps :
  store_shape t -> 0 <= numProcess t <= Z.of_nat max_process ->
  Z.of_nat max_hb < numHbSet t
    + Z.of_nat (length (hb_pairs eps (seg_counts (Z.max (start - eps) 0) stop t))) ->
  readSegTrace_store start stop eps t = Fault OutOfBounds.
Proof.
  intros Ht Hp Hover.
  destruct (readSegTrace_copied t start stop eps Ht Hp) as (t1 & num & Hc & ->).
  pose proof (shape_numHb _ Ht) as Hn. pose proof (shape_hb _ Ht) as Hl.
  rewrite push_hb_all by lia. rewrite Hl.
  destruct (Z.leb_spec (numHbSet t + Z.of_nat (length (hb_pairs eps
    (seg_counts (Z.max (start - eps) 0) stop t)))) (Z.of_nat max_hb)); [lia|].
  rewrite decide_False; [done|]. intros E. rewrite E in *. cbn in *. lia.
Qed.

(** C24: when the happened-before pairs of the segment still fit in [hbSet],
    [readSegTrace] succeeds; process [i] keeps its events of the window
    [max(start-eps,0) .. end), numbered consecutively, and the pairs are
    appended after those of the earlier segments. *)
Theorem readSegTrace_spec t start stop eps :
  store_shape t -> 0 <= numProcess t <= Z.of_nat max_process ->
  let ns := seg_counts (Z.max (start - eps) 0) stop t in
  numHbSet t + Z.of_nat (length (hb_pairs eps ns)) <= Z.of_nat max_hb ->
  exists t', readSegTrace_store start stop eps t = Ok t'
    /\ segment_read t (Z.max (start - eps) 0) ns (hb_pairs eps ns) t'.
Proof. apply readSegTrace_fits. Qed.

(** C38: the pairs are never dropped: once the pairs of all segments together
    exceed the fifty entries of [hbSet], [readSegTrace] writes past it. *)
Theorem readSegTrace_overflow t start stop eps :
  store_shape t -> 0 <= numProcess t <= Z.of_nat max_process ->
  Z.of_nat max_hb < numHbSet t
    + Z.of_nat (length (hb_pairs eps (seg_counts (Z.max (start - eps) 0) stop t))) ->
  readSegTrace_store start stop eps t = Fault OutOfBounds.
Proof. apply readSegTrace_over. Qed.

(** the generated relation pairs exactly the events of different processes
    whose positions in the segment differ by at least [eps], and pairs them in
    both directions: it is symmetric. *)
Theorem hb_pairs_symmetric eps ns a b :
  ((a, b) ∈ hb_pairs eps ns <->
    exists i j k l ni nk, ns !! i = Some ni /\ ns !! k = Some nk
      /\ 0 <= j < ni /\ 0 <= l < nk /\ eps <= Z.abs (j - l) /\ i <> k
      /\ a = event_id ns i j /\ b = event_id ns k l)
  /\ ((a, b) ∈ hb_pairs eps ns <-> (b, a) ∈ hb_pairs eps ns).
Proof.
  split; [apply hb_pairs_elem|]. split; apply hb_pairs_flip.
Qed.

(** A single process has no partner to be ordered with. *)
Lemma hb_pairs_single eps n : hb_pairs eps [n] = [].
Proof.
  destruct (hb_pairs eps [n]) as [|[a b] ps] eqn:E; [done|exfalso].
  assert ((a, b) ∈ hb_pairs eps [n]) as H by (rewrite E; left).
  apply hb_pairs_elem in H as (i & j & k & l & ni & nk & Hi & Hk & _ & _ & _ & Hne & _).
  apply lookup_lt_Some in Hi, Hk. cbn in *. lia.
Qed.

(** In a trace file of two blocks (what [main] writes for one switch and one
    light) the second process is never looked at: only the first block has
    events in a segment and no happened-before pair is ever generated. *)
Theorem two_block_trace fs m contents b1 b2 start stop eps :
  fs !! traceFileName m = Some contents ->
  getlines contents = block_lines b1 ++ block_lines b2 ->
  Forall block_ok [b1; b2] -> fits [b1; b2] -> store m = initial_store ->
  exists m1 m2, readFile fs m = Ok m1 /\ readSegTrace start stop eps m1 = Ok m2
    /\ numProcess (store m2) = 1
    /\ numHbSet (store m2) = 0
    /\ numEvent (store m2) !! 0%nat
       = Some (Z.max 0 (Z.min (Z.of_nat (length b1.2)) stop - Z.max (start - eps) 0)).
Proof.
  intros Hf Hl Hok Hfit Hm.
  assert (readFile fs m = Ok (with_store m (loaded initial_store [b1; b2]))) as Hr.
  { eapply readFile_of_blocks; try done. cbn. by rewrite app_nil_r. }
  exists (with_store m (loaded initial_store [b1; b2])).
  pose proof Hr as Hs. apply readFile_keeps in Hs as (Hs & _);
    [|rewrite Hm; apply initial_store_shape]. cbn [store with_store] in Hs.
  set (first := Z.max (start - eps) 0).
  set (n := Z.max 0 (Z.min (Z.of_nat (length b1.2)) stop - first)).
  assert (seg_counts first stop (loaded initial_store [b1; b2]) = [n]) as Hns by done.
  destruct (readSegTrace_fits (loaded initial_store [b1; b2]) start stop eps)
    as (t' & He & Hseg); [done|rewrite loaded_numProcess; unfold max_process; cbn; lia|..];
    fold first in Hseg || fold first; rewrite Hns, hb_pairs_single in *.
  - cbn. unfold max_hb. lia.
  - exists (with_store m t'). split; [done|]. unfold readSegTrace.
    cbn [store with_store]. rewrite He. split; [done|]. cbn [store with_store].
    destruct Hseg as [Hc _ _ _ Hn (_ & _ & Hp) _]. rewrite Hn, Hp. split; [done|].
    split; [done|]. by apply Hc.
Qed.
