(* ===== verification/SolveSMT.v ===== *)
(** [Monitor::solveSMT] of main.cpp: the part of Z3's C++ API (z3++.h) that it
    calls - the terms the operators build, their SMT-LIB meaning over the integers
    and the fixed-width bit-vectors, and the contract of [solver::check] - and the
    constraints it asserts for the events and the happened-before pairs of the
    current segment. *)
From S2P Require Import Prelude Text MonitorState.

Inductive sort :=
  | IntS
  | BvS (w : nat).

#[global] Instance sort_eq_dec : EqDecision sort.
Proof. solve_decision. Defined.

Record func_decl := { fname : string; fdom : sort; frange : sort }.

#[global] Instance func_decl_eq_dec : EqDecision func_decl.
Proof. solve_decision. Defined.

(** The nodes the program builds. [EOr] is the n-ary disjunction of [mk_or]. *)
Inductive expr :=
  | EConst (name : string) (s : sort)
  | ENum (v : Z) (s : sort)
  | EApp (f : func_decl) (a : expr)
  | EBv2Int (a : expr)
  | ESub (a b : expr)
  | EBvAnd (a b : expr)
  | EEq (a b : expr)
  | EDistinct (a b : expr)
  | ELe (a b : expr)
  | EAnd (a b : expr)
  | EImplies (a b : expr)
  | EOr (l : list expr)
  | EForall (x : string) (s : sort) (body : expr).

(** ** The API functions *)

(** [context::bv_sort]: width zero is refused with an exception. *)
Definition bv_sort (w : Z) : res sort :=
  if w <=? 0 then Fault Z3Exception else Ok (BvS (Z.to_nat w)).

(** [context::num_val]: numerals of a bit-vector sort are reduced modulo the
    power of two of its width. *)
Definition num_val (v : Z) (s : sort) : expr :=
  match s with
  | IntS => ENum v IntS
  | BvS w => ENum (v mod 2 ^ Z.of_nat w) (BvS w)
  end.

(** [context::bv_const], [context::int_const] *)
Definition bv_const (name : string) (w : Z) : res expr :=
  s ← bv_sort w; Ok (EConst name s).
Definition int_const (name : string) : expr := EConst name IntS.

(** [z3::function(name, domain, range)] *)
Definition function (name : string) (domain range : sort) : func_decl :=
  {| fname := name; fdom := domain; frange := range |}.

(** Sort of a term, used where an operator overloads on it. *)
Fixpoint get_sort (e : expr) : sort :=
  match e with
  | EConst _ s | ENum _ s => s
  | EApp f _ => frange f
  | EBvAnd a _ => get_sort a
  | _ => IntS
  end.

(** [expr == expr], [expr == int], [expr != int], [int <= expr], [expr <= int] *)
Definition eq_ee (a b : expr) : expr := EEq a b.
Definition eq_ei (a : expr) (b : Z) : expr := EEq a (num_val b (get_sort a)).
Definition ne_ei (a : expr) (b : Z) : expr := EDistinct a (num_val b (get_sort a)).
Definition le_ie (a : Z) (b : expr) : expr := ELe (num_val a (get_sort b)) b.
Definition le_ei (a : expr) (b : Z) : expr := ELe a (num_val b (get_sort a)).

(** [f(int)] and [f(expr)] *)
Definition app_i (f : func_decl) (a : Z) : expr := EApp f (num_val a (fdom f)).
Definition app_e (f : func_decl) (a : expr) : expr := EApp f a.

(** [vector[i]]: an index outside the vector is an API error, thrown. *)
Definition vec_get (v : list expr) (i : Z) : res expr :=
  if i <? 0 then Fault Z3Exception
  else match v !! Z.to_nat i with Some e => Ok e | None => Fault Z3Exception end.

(** ** Meaning *)

Record interp := {
  i_const : string -> sort -> Z;
  i_fun : func_decl -> Z -> Z
}.

(** Values lie in the carrier of their sort. *)
Definition in_sort (s : sort) (v : Z) : Prop :=
  match s with IntS => True | BvS w => 0 <= v < 2 ^ Z.of_nat w end.

Definition interp_ok (I : interp) : Prop :=
  (forall n s, in_sort s (i_const I n s))
  /\ forall f v, in_sort (frange f) (i_fun I f v).

Definition bind_const (I : interp) (x : string) (s : sort) (v : Z) : interp := {|
  i_const := fun n s' => if decide (n = x /\ s' = s) then v else i_const I n s';
  i_fun := i_fun I
|}.

(** Integer and bit-vector terms; bit-vectors are their unsigned values. *)
Fixpoint ival (I : interp) (e : expr) : Z :=
  match e with
  | EConst n s => i_const I n s
  | ENum v _ => v
  | EApp f a => i_fun I f (ival I a)
  | EBv2Int a => ival I a
  | ESub a b => ival I a - ival I b
  | EBvAnd a b => Z.land (ival I a) (ival I b)
  | _ => 0
  end.

(** Formulas. *)
Fixpoint holds (I : interp) (e : expr) : Prop :=
  match e with
  | EEq a b => ival I a = ival I b
  | EDistinct a b => ival I a <> ival I b
  | ELe a b => ival I a <= ival I b
  | EAnd a b => holds I a /\ holds I b
  | EImplies a b => holds I a -> holds I b
  | EOr l => (fix go l := match l with [] => False | e :: l => holds I e \/ go l end) l
  | EForall x s body => forall v, in_sort s v -> holds (bind_const I x s v) body
  | _ => False
  end.

Lemma holds_EOr I l : holds I (EOr l) <-> exists e, e ∈ l /\ holds I e.
Proof.
  induction l as [|e l IH]; cbn in *.
  - split; [done|]. by intros (e & He%elem_of_nil & _).
  - rewrite IH. split.
    + intros [H|(e' & H1 & H2)]; [exists e|exists e']; (split; [|done]); by constructor.
    + intros (e' & [->|H]%elem_of_cons & H2); [by left|right; by exists e'].
Qed.

Definition models (I : interp) (assertions : list expr) : Prop :=
  interp_ok I /\ Forall (holds I) assertions.

Definition satisfiable (assertions : list expr) : Prop :=
  exists I, models I assertions.

(** ** The solver *)

Inductive check_result := unsat | sat | unknown.

#[global] Instance check_result_eq_dec : EqDecision check_result.
Proof. solve_decision. Defined.

(** What the documentation of [Z3_solver_check] promises: [sat] and [unsat] are
    right, [unknown] promises nothing. *)
Class SolverOk (check : list expr -> check_result) : Prop := {
  check_sat : forall s, check s = sat -> satisfiable s;
  check_unsat : forall s, check s = unsat -> ~ satisfiable s
}.

(** [j = lo; j < hi; j = j * 2] *)
Fixpoint doubling (fuel : nat) (j hi : Z) : res (list Z) :=
  if j <? hi then
    match fuel with
    | O => Fault OutOfFuel
    | S fuel => l ← doubling fuel (j * 2) hi; Ok (j :: l)
    end
  else Ok [].

(** [(int)pow(2, k)] for an [int] exponent. *)
Definition int_pow2 (k : Z) : res Z :=
  if k <? 0 then Ok 0 else if k <=? 30 then Ok (2 ^ k) else Fault IntOverflow.

Definition totNumEvents (t : TraceStore) : res Z :=
  for_range 0 (numProcess t) (fun i tot => n ← aget (numEvent t) i; Ok (tot + n)) 0.

Definition event_name (i : Z) : string := "eventList" +:+ to_string i.
Definition b1_name (i : Z) : string := "b1" +:+ to_string i.
Definition b2_name (i : Z) : string := "b2" +:+ to_string i.

(** The constants [eventList[i]], pinned to [i]; the state is the vector and the
    assertions of the solver. *)
Definition add_event (tot i : Z) (s : list expr * list expr)
  : res (list expr * list expr) :=
  let '(eventList, asserts) := s in
  c ← bv_const (event_name i) tot;
  let eventList := eventList ++ [c] in
  e ← vec_get eventList i;
  Ok (eventList, asserts ++ [eq_ei e i]).

(** [f(i)] is one of the listed values. *)
Definition add_range (f : func_decl) (tot : Z) (eventList : list expr) (i : Z)
    (asserts : list expr) : res (list expr) :=
  range ← for_range 0 (tot ^ 2)
            (fun j acc => e ← vec_get eventList j; Ok (acc ++ [eq_ee (app_i f i) e])) [];
  Ok (asserts ++ [EOr range]).

(** [f(i+1) - f(i)] is a power of two below the square of the event count. *)
Definition add_order (f : func_decl) (tot i : Z) (asserts : list expr)
  : res (list expr) :=
  js ← doubling (Z.to_nat (tot ^ 2)) 1 (tot ^ 2);
  let event_order :=
    map (fun j => eq_ei (ESub (EBv2Int (app_i f (i + 1))) (EBv2Int (app_i f i))) j) js in
  Ok (asserts ++ [EOr event_order]).

(** One happened-before pair: a cut that contains event [hbSet[i][1]] contains
    event [hbSet[i][0]]. *)
Definition add_hb (f : func_decl) (t : TraceStore) (tot i : Z) (asserts : list expr)
  : res (list expr) :=
  b1 ← bv_const (b1_name i) tot;
  b2 ← bv_const (b2_name i) tot;
  h ← aget (hbSet t) i;
  p0 ← int_pow2 (h.1 - 1);
  p1 ← int_pow2 (h.2 - 1);
  let x := int_const "x" in
  let has b := ne_ei (EBv2Int (EBvAnd (app_e f x) b)) 0 in
  Ok (asserts ++ [eq_ei b1 p1; eq_ei b2 p0;
                  EForall "x" IntS (EImplies (has b1) (has b2))]).

Definition solveSMT_assertions (t : TraceStore) : res (list expr) :=
  tot ← totNumEvents t;
  ev ← for_range 0 (tot ^ 2) (add_event tot) ([], []);
  let '(eventList, asserts) := ev in
  range ← bv_sort tot;
  let f := function "f" IntS range in
  e0 ← vec_get eventList 0;
  let asserts := asserts ++ [eq_ee (app_i f 0) e0] in
  asserts ← for_range 0 (tot + 1) (add_range f tot eventList) asserts;
  asserts ← for_range 0 tot (add_order f tot) asserts;
  last ← vec_get eventList (tot ^ 2 - 1);
  let asserts := asserts ++ [eq_ee (app_i f tot) last] in
  let x := int_const "x" in
  let asserts := asserts ++ [EAnd (le_ie 0 x) (le_ei x tot)] in
  for_range 0 (numHbSet t) (add_hb f t tot) asserts.

(** [check] is the solver; [numFormula] is not used by the code. *)
Definition solveSMT (check : list expr -> check_result) (t : TraceStore)
    (numFormula : Z) : res bool :=
  asserts ← solveSMT_assertions t;
  Ok (if decide (check asserts = sat) then true else false).
