(* ===== verification/CutRun.v ===== *)
(** What [solveSMT] asks the solver for: a run of cuts. The abstract
    specification, the proof that the assertions of [SolveSMT] say exactly
    this, and what follows for the segments the program can meet. *)
From S2P Require Import Prelude Text MonitorState SolveSMT.

(** A run of [n] steps through subsets of the [n] events, coded in binary. *)
Record cut_run (n : Z) (hb : list (Z * Z)) (f : Z -> Z) : Prop := {
  cr_width : forall x, 0 <= f x < 2 ^ n;
  cr_start : f 0 = 0;
  cr_range : forall i, 0 <= i <= n -> exists j, 0 <= j < n ^ 2 /\ f i = j mod 2 ^ n;
  cr_step : forall i, 0 <= i < n -> exists k, 0 <= k /\ 2 ^ k < n ^ 2 /\ f (i + 1) = f i + 2 ^ k;
  cr_end : f n = (n ^ 2 - 1) mod 2 ^ n;
  cr_hb : forall x a b, (a, b) ∈ hb ->
    Z.testbit (f x) (b - 1) = true -> Z.testbit (f x) (a - 1) = true
}.

(** ** The assertions as a list *)

Section Assertions.
Context (n : Z) (Hn : 1 <= n).
Let w := Z.to_nat n.
Let range := BvS w.
Let fd := function "f" IntS range.

Definition ev (i : Z) : expr := EConst (event_name i) range.
Definition f_at (i : Z) : expr := app_i fd i.
Definition has (b : expr) : expr :=
  ne_ei (EBv2Int (EBvAnd (app_e fd (int_const "x")) b)) 0.

Definition hb_asserts (i a b : Z) : list expr :=
  let b1 := EConst (b1_name i) range in
  let b2 := EConst (b2_name i) range in
  [eq_ei b1 (2 ^ (b - 1)); eq_ei b2 (2 ^ (a - 1));
   EForall "x" IntS (EImplies (has b1) (has b2))].

Definition all_asserts (js : list Z) (hb : list (Z * Z)) : list expr :=
  map (fun i => eq_ei (ev i) i) (seqZ 0 (n ^ 2))
  ++ [eq_ee (f_at 0) (ev 0)]
  ++ map (fun i => EOr (map (fun j => eq_ee (f_at i) (ev j)) (seqZ 0 (n ^ 2))))
       (seqZ 0 (n + 1))
  ++ map (fun i => EOr (map (fun j =>
       eq_ei (ESub (EBv2Int (f_at (i + 1))) (EBv2Int (f_at i))) j) js)) (seqZ 0 n)
  ++ [eq_ee (f_at n) (ev (n ^ 2 - 1))]
  ++ [EAnd (le_ie 0 (int_const "x")) (le_ei (int_const "x") n)]
  ++ (seqZ 0 (Z.of_nat (length hb)) ≫= fun i =>
        hb_asserts i (hb !!! Z.to_nat i).1 (hb !!! Z.to_nat i).2).

Lemma bv_sort_ok : bv_sort n = Ok range.
Proof. unfold bv_sort. destruct (Z.leb_spec n 0); [lia|done]. Qed.

Lemma vec_get_ev N i : 0 <= i < N -> vec_get (map ev (seqZ 0 N)) i = Ok (ev i).
Proof.
  intros Hi. unfold vec_get. destruct (Z.ltb_spec i 0); [lia|].
  rewrite list_lookup_fmap, lookup_seqZ_lt by lia. cbn. do 2 f_equal. lia.
Qed.

Lemma events_loop N :
  0 <= N ->
  for_range 0 N (add_event n) ([], [])
  = Ok (map ev (seqZ 0 N), map (fun i => eq_ei (ev i) i) (seqZ 0 N)).
Proof.
  intros HN.
  destruct (for_range_rule (fun i s => s =
    (map ev (seqZ 0 i), map (fun i => eq_ei (ev i) i) (seqZ 0 i))) 0 N (add_event n) ([], []))
    as (s' & -> & ->); [done|done| |done].
  intros i s Hi ->. unfold add_event, bv_const. rewrite bv_sort_ok.
  cbn [mbind res_bind].
  change (EConst (event_name i) range) with (ev i).
  assert (seqZ 0 (i + 1) = seqZ 0 i ++ [i]) as Hs
    by (rewrite seqZ_app by lia; by rewrite Z.add_0_l).
  change [ev i] with (map ev [i]). rewrite <- map_app, <- Hs, vec_get_ev by lia.
  cbn [mbind res_bind]. eexists. split; [done|]. by rewrite Hs, !map_app.
Qed.
End Assertions.

Lemma doubling_spec fuel j hi :
  0 < j -> (Z.to_nat (hi - j) <= fuel)%nat ->
  exists l, doubling fuel j hi = Ok l
    /\ forall x, x ∈ l <-> exists k, 0 <= k /\ x = j * 2 ^ k /\ x < hi.
Proof.
  revert j. induction fuel as [|fuel IH]; intros j Hj Hf; cbn.
  - destruct (Z.ltb_spec j hi); [lia|]. exists []. split; [done|].
    intros x. split; [by intros ?%elem_of_nil|]. intros (k & Hk & -> & Hlt).
    assert (0 < 2 ^ k) by (by apply Z.pow_pos_nonneg). nia.
  - destruct (Z.ltb_spec j hi).
    + destruct (IH (j * 2)) as (l & -> & Hl); [lia|lia|].
      exists (j :: l). split; [done|]. intros x. rewrite elem_of_cons, Hl. split.
      * intros [->|(k & Hk & -> & Hlt)].
        -- exists 0. rewrite Z.pow_0_r. lia.
        -- exists (k + 1). rewrite Z.pow_add_r by lia. lia.
      * intros (k & Hk & -> & Hlt). destruct (decide (k = 0)) as [->|].
        -- left. rewrite Z.pow_0_r. lia.
        -- right. exists (k - 1). rewrite Z.pow_sub_r by lia.
           replace (2 ^ k) with (2 * 2 ^ (k - 1)) in *; [|].
           ++ split; [lia|]. split; [|lia]. rewrite Z.pow_1_r.
              replace (2 * 2 ^ (k - 1)) with (2 ^ (k - 1) * 2) by lia.
              rewrite Z.div_mul by lia. lia.
           ++ replace k with (1 + (k - 1)) at 2 by lia. rewrite Z.pow_add_r by lia. lia.
    + exists []. split; [done|]. intros x.
      split; [by intros ?%elem_of_nil|]. intros (k & Hk & -> & Hlt).
      assert (0 < 2 ^ k) by (by apply Z.pow_pos_nonneg). nia.
Qed.

(** The storage of a segment with [n] events and the pairs [hb]. *)
Record segment (t : TraceStore) (n : Z) (hb : list (Z * Z)) : Prop := {
  seg_total : totNumEvents t = Ok n;
  seg_hb : hb = take (Z.to_nat (numHbSet t)) (hbSet t);
  seg_hb_len : 0 <= numHbSet t <= Z.of_nat (length (hbSet t));
  seg_hb_cap : length (hbSet t) = max_hb;
  seg_ids : Forall (fun p => 1 <= p.1 <= 31 /\ 1 <= p.2 <= 31) hb
}.

Lemma int_pow2_ok k : 0 <= k <= 30 -> int_pow2 k = Ok (2 ^ k).
Proof.
  intros Hk. unfold int_pow2. destruct (Z.ltb_spec k 0); [lia|].
  destruct (Z.leb_spec k 30); [done|lia].
Qed.

Lemma hb_loop n t hb asserts :
  1 <= n -> segment t n hb ->
  for_range 0 (numHbSet t) (add_hb (function "f" IntS (BvS (Z.to_nat n))) t n) asserts
  = Ok (asserts ++ (seqZ 0 (Z.of_nat (length hb)) ≫= fun i =>
          hb_asserts n i (hb !!! Z.to_nat i).1 (hb !!! Z.to_nat i).2)).
Proof.
  intros Hn [_ Hhb Hlen _ Hids]. unfold for_range. rewrite Z.sub_0_r.
  assert (Z.of_nat (length hb) = numHbSet t) as Hl
    by (rewrite Hhb, length_take; lia).
  rewrite Hl. apply for_in_append. intros i s Hi. apply elem_of_seqZ in Hi.
  unfold add_hb, bv_const. rewrite (bv_sort_ok n) by done. cbn [mbind res_bind].
  destruct (lookup_lt_is_Some_2 hb (Z.to_nat i)) as [[a b] Hp]; [lia|].
  rewrite (list_lookup_total_correct _ _ _ Hp).
  assert (aget (hbSet t) i = Ok (a, b)) as ->.
  { apply aget_ok. split; [lia|]. rewrite Hhb in Hp.
    rewrite lookup_take in Hp. by case_decide. }
  cbn [mbind res_bind fst snd].
  eapply (Forall_lookup_1 _ _ _ _ Hids) in Hp. cbn in Hp.
  rewrite !int_pow2_ok by lia. done.
Qed.

Lemma assertions_ok t n hb :
  1 <= n -> segment t n hb ->
  exists js, solveSMT_assertions t = Ok (all_asserts n js hb)
    /\ forall x, x ∈ js <-> exists k, 0 <= k /\ x = 2 ^ k /\ x < n ^ 2.
Proof.
  intros Hn Hseg. assert (0 < n ^ 2) as Hsq by (apply Z.pow_pos_nonneg; lia).
  destruct (doubling_spec (Z.to_nat (n ^ 2)) 1 (n ^ 2)) as (js & Hjs & Hjx); [lia|lia|].
  exists js. split.
  2: { intros x. rewrite Hjx. setoid_rewrite Z.mul_1_l. done. }
  unfold solveSMT_assertions. rewrite (seg_total _ _ _ Hseg). cbn [mbind res_bind].
  rewrite events_loop by lia. rewrite bv_sort_ok by lia. cbn [mbind res_bind].
  rewrite (vec_get_ev n Hn (n ^ 2) 0) by lia. cbn [mbind res_bind].
  rewrite (for_range_append 0 (n + 1) _ (fun i => [EOr (map (fun j =>
    eq_ee (f_at n i) (ev n j)) (seqZ 0 (n ^ 2)))])).
  2: { intros i s _. unfold add_range.
       rewrite (for_range_append _ _ _ (fun j => [eq_ee (f_at n i) (ev n j)])).
       - cbn [mbind res_bind app]. by rewrite Z.sub_0_r, list_bind_singleton.
       - intros j acc Hj. by rewrite vec_get_ev by lia. }
  cbn [mbind res_bind].
  rewrite (for_range_append 0 n _ (fun i => [EOr (map (fun j =>
     eq_ei (ESub (EBv2Int (f_at n (i + 1))) (EBv2Int (f_at n i))) j) js)])).
  2: { intros i s _. unfold add_order. by rewrite Hjs. }
  cbn [mbind res_bind]. rewrite (vec_get_ev n Hn (n ^ 2) (n ^ 2 - 1)) by lia.
  cbn [mbind res_bind]. rewrite (hb_loop n t hb) by done. f_equal.
  unfold all_asserts. rewrite !list_bind_singleton, !Z.sub_0_r. by rewrite <- !app_assoc.
Qed.

(** ** From a model of the assertions to a run and back *)

Lemma holds_or_map {A} I (g : A -> expr) l :
  holds I (EOr (map g l)) <-> exists x, x ∈ l /\ holds I (g x).
Proof.
  rewrite holds_EOr. split.
  - intros (e & (x & -> & Hx)%list_elem_of_fmap & He). by exists x.
  - intros (x & Hx & He). exists (g x). split; [|done]. by apply list_elem_of_fmap_2.
Qed.

Lemma Forall_holds_map {A} I (g : A -> expr) l :
  Forall (holds I) (map g l) <-> forall x, x ∈ l -> holds I (g x).
Proof. rewrite Forall_map, Forall_forall. done. Qed.

Lemma land_pow2 n v k :
  0 <= n -> 0 <= v < 2 ^ n -> 0 <= k ->
  Z.land v (2 ^ k mod 2 ^ n) <> 0 <-> Z.testbit v k = true.
Proof.
  intros Hn Hv Hk. destruct (Z.lt_ge_cases k n) as [Hlt|Hge].
  - rewrite Z.mod_small.
    2: { split; [apply Z.pow_nonneg; lia|apply Z.pow_lt_mono_r; lia]. }
    split.
    + intros Hne. apply not_false_is_true. intros Hf. apply Hne.
      apply Z.bits_inj'. intros i Hi. rewrite Z.land_spec, Z.pow2_bits_eqb, Z.bits_0 by lia.
      destruct (Z.eqb_spec k i) as [<-|]; [by rewrite Hf|by rewrite andb_false_r].
    + intros Hb Heq. apply (f_equal (fun z => Z.testbit z k)) in Heq.
      rewrite Z.land_spec, Z.pow2_bits_true, Hb, Z.bits_0 in Heq by lia. done.
  - assert (2 ^ k mod 2 ^ n = 0) as ->.
    { apply Z.mod_divide; [lia|]. exists (2 ^ (k - n)).
      rewrite <- Z.pow_add_r by lia. f_equal. lia. }
    rewrite Z.land_0_r. split; [done|]. intros Hb. exfalso.
    destruct (Z.eq_dec v 0) as [->|]; [by rewrite Z.bits_0 in Hb|].
    rewrite Z.bits_above_log2 in Hb; [done|lia|].
    apply Z.lt_le_trans with n; [|done]. apply Z.log2_lt_pow2; lia.
Qed.

Section Models.
Context (n : Z) (Hn : 1 <= n).
Let fd := function "f" IntS (BvS (Z.to_nat n)).

(** The meaning of one assertion in terms of the function read off [I]. *)
Lemma holds_event I i :
  holds I (eq_ei (ev n i) i)
  <-> i_const I (event_name i) (BvS (Z.to_nat n)) = i mod 2 ^ n.
Proof. cbn -[event_name]. by rewrite Z2Nat.id by lia. Qed.

Lemma holds_at I i j :
  i_fun I fd i = i_const I (event_name j) (BvS (Z.to_nat n)) ->
  holds I (eq_ee (f_at n i) (ev n j)).
Proof. done. Qed.

Lemma at_holds I i j :
  holds I (eq_ee (f_at n i) (ev n j)) ->
  i_fun I fd i = i_const I (event_name j) (BvS (Z.to_nat n)).
Proof. done. Qed.

(** Bit test of the cut at the bound index. *)
Lemma holds_has I name v x :
  interp_ok I -> 0 <= v ->
  i_const I name (BvS (Z.to_nat n)) = 2 ^ v mod 2 ^ n ->
  holds (bind_const I "x" IntS x) (has n (EConst name (BvS (Z.to_nat n))))
  <-> Z.testbit (i_fun I fd x) v = true.
Proof.
  intros [_ Hf] Hv Hb. pose proof (Hf fd x) as Hs. cbn in Hs.
  rewrite Z2Nat.id in Hs by lia. cbn -[decide]. fold fd.
  rewrite decide_True by done. rewrite decide_False by naive_solver. rewrite Hb.
  apply land_pow2; lia.
Qed.

Lemma holds_hb I i a b :
  interp_ok I -> 1 <= a -> 1 <= b ->
  Forall (holds I) (hb_asserts n i a b)
  <-> i_const I (b1_name i) (BvS (Z.to_nat n)) = 2 ^ (b - 1) mod 2 ^ n
      /\ i_const I (b2_name i) (BvS (Z.to_nat n)) = 2 ^ (a - 1) mod 2 ^ n
      /\ forall x, Z.testbit (i_fun I fd x) (b - 1) = true ->
                   Z.testbit (i_fun I fd x) (a - 1) = true.
Proof.
  intros Hok Ha Hb. unfold hb_asserts. rewrite !Forall_cons.
  assert (forall i' v, holds I (eq_ei (EConst i' (BvS (Z.to_nat n))) v)
    <-> i_const I i' (BvS (Z.to_nat n)) = v mod 2 ^ n) as Heq.
  { intros i' v. cbn. by rewrite Z2Nat.id by lia. }
  rewrite !Heq. split.
  - intros (H1 & H2 & H3 & _). split; [done|]. split; [done|]. intros x Hx.
    specialize (H3 x Logic.I). cbn [holds] in H3. revert H3.
    rewrite (holds_has I _ (b - 1)), (holds_has I _ (a - 1)) by (done || lia). by auto.
  - intros (H1 & H2 & H3). split; [done|]. split; [done|]. split; [|done].
    intros x _. cbn [holds].
    rewrite (holds_has I _ (b - 1)), (holds_has I _ (a - 1)) by (done || lia).
    by apply H3.
Qed.
End Models.

(** *** Every model is a run *)

Lemma Forall_bind_seq {B} (P : B -> Prop) (g : Z -> list B) N :
  Forall P (seqZ 0 N ≫= g) <-> forall i, 0 <= i < N -> Forall P (g i).
Proof.
  rewrite Forall_bind, Forall_forall. setoid_rewrite elem_of_seqZ.
  split; intros H i Hi; apply H; lia.
Qed.

Lemma lookup_pair (hb : list (Z * Z)) a b :
  (a, b) ∈ hb <-> exists i, 0 <= i < Z.of_nat (length hb) /\ hb !!! Z.to_nat i = (a, b).
Proof.
  rewrite list_elem_of_lookup. split.
  - intros (i & Hi). exists (Z.of_nat i). rewrite Nat2Z.id.
    apply lookup_lt_Some in Hi as Hl. split; [lia|]. by apply list_lookup_total_correct.
  - intros (i & Hi & Hp). exists (Z.to_nat i).
    destruct (lookup_lt_is_Some_2 hb (Z.to_nat i)) as [p Hp']; [lia|].
    rewrite (list_lookup_total_correct _ _ _ Hp') in Hp. by rewrite Hp', Hp.
Qed.

Lemma models_run n js hb I :
  1 <= n -> (forall x, x ∈ js <-> exists k, 0 <= k /\ x = 2 ^ k /\ x < n ^ 2) ->
  Forall (fun p => 1 <= p.1 <= 31 /\ 1 <= p.2 <= 31) hb ->
  models I (all_asserts n js hb) ->
  cut_run n hb (i_fun I (function "f" IntS (BvS (Z.to_nat n)))).
Proof.
  intros Hn Hjs Hids [Hok H]. unfold all_asserts in H.
  rewrite !Forall_app, !Forall_holds_map, !Forall_singleton, Forall_bind_seq in H.
  destruct H as (Hev & H0 & Hrange & Hstep & Hend & _ & Hhb).
  assert (0 < n ^ 2) as Hsq by (apply Z.pow_pos_nonneg; lia).
  assert (forall i, 0 <= i < n ^ 2 ->
    i_const I (event_name i) (BvS (Z.to_nat n)) = i mod 2 ^ n) as Hval.
  { intros i Hi. apply holds_event, Hev; [done|]. apply elem_of_seqZ. lia. }
  split.
  - intros x. destruct Hok as [_ Hf].
    pose proof (Hf (function "f" IntS (BvS (Z.to_nat n))) x) as Hb. cbn in Hb.
    by rewrite Z2Nat.id in Hb by lia.
  - apply at_holds in H0. rewrite H0, Hval by lia. apply Z.mod_0_l, Z.pow_nonzero; lia.
  - intros i Hi. specialize (Hrange i). rewrite elem_of_seqZ, holds_or_map in Hrange.
    destruct Hrange as (j & Hj%elem_of_seqZ & He); [lia|].
    exists j. split; [lia|]. apply at_holds in He. rewrite He. apply Hval. lia.
  - intros i Hi. specialize (Hstep i). rewrite elem_of_seqZ, holds_or_map in Hstep.
    destruct Hstep as (j & Hj%Hjs & He); [lia|]. destruct Hj as (k & Hk & -> & Hlt).
    exists k. split; [done|]. split; [done|]. cbn -[Z.pow] in He. lia.
  - apply at_holds in Hend. rewrite Hend. apply Hval. lia.
  - intros x a b (i & Hi & Hp)%lookup_pair. specialize (Hhb i Hi). rewrite Hp in Hhb.
    assert ((a, b) ∈ hb) as Hin by (apply lookup_pair; eauto).
    rewrite Forall_forall in Hids. specialize (Hids _ Hin). cbn in Hids, Hhb.
    apply holds_hb in Hhb; [|lia|done|lia..]. apply Hhb.
Qed.

(** *** Every run gives a model *)

Fixpoint strip (p s : string) : option string :=
  match p, s with
  | EmptyString, _ => Some s
  | String c p, String d s => if Ascii.eqb c d then strip p s else None
  | String _ _, EmptyString => None
  end.

(** The value the run gives to a constant of the encoding. *)
Definition name_value (hb : list (Z * Z)) (name : string) : Z :=
  let num r := match stoi r with Ok i => i | Fault _ => 0 end in
  match strip "eventList" name, strip "b1" name, strip "b2" name with
  | Some r, _, _ => num r
  | _, Some r, _ => 2 ^ ((hb !!! Z.to_nat (num r)).2 - 1)
  | _, _, Some r => 2 ^ ((hb !!! Z.to_nat (num r)).1 - 1)
  | _, _, _ => 0
  end.

Lemma name_value_event hb i : 0 <= i <= int_max -> name_value hb (event_name i) = i.
Proof.
  intros Hi. unfold name_value, event_name.
  change (strip "eventList" ("eventList" +:+ to_string i)) with (Some (to_string i)).
  cbv beta iota. by rewrite stoi_to_string by lia.
Qed.

Lemma name_value_b1 hb i :
  0 <= i <= int_max -> name_value hb (b1_name i) = 2 ^ ((hb !!! Z.to_nat i).2 - 1).
Proof.
  intros Hi. unfold name_value, b1_name.
  change (strip "eventList" ("b1" +:+ to_string i)) with (@None string).
  change (strip "b1" ("b1" +:+ to_string i)) with (Some (to_string i)).
  cbv beta iota. by rewrite stoi_to_string by lia.
Qed.

Lemma name_value_b2 hb i :
  0 <= i <= int_max -> name_value hb (b2_name i) = 2 ^ ((hb !!! Z.to_nat i).1 - 1).
Proof.
  intros Hi. unfold name_value, b2_name.
  change (strip "eventList" ("b2" +:+ to_string i)) with (@None string).
  change (strip "b1" ("b2" +:+ to_string i)) with (@None string).
  change (strip "b2" ("b2" +:+ to_string i)) with (Some (to_string i)).
  cbv beta iota. by rewrite stoi_to_string by lia.
Qed.

Definition run_interp (hb : list (Z * Z)) (f : Z -> Z) : interp := {|
  i_const := fun name s => match s with
                           | IntS => 0
                           | BvS w => name_value hb name mod 2 ^ Z.of_nat w
                           end;
  i_fun := fun fd x => match frange fd with
                       | IntS => 0
                       | BvS w => f x mod 2 ^ Z.of_nat w
                       end
|}.

Lemma run_interp_ok hb f : interp_ok (run_interp hb f).
Proof.
  split.
  - intros name [|w]; cbn; [done|]. apply Z.mod_pos_bound, Z.pow_pos_nonneg; lia.
  - intros fd x. cbn. unfold in_sort. destruct (frange fd) as [|w]; [done|].
    apply Z.mod_pos_bound, Z.pow_pos_nonneg; lia.
Qed.

Lemma run_models n js hb f :
  1 <= n <= 1000 -> (forall x, x ∈ js <-> exists k, 0 <= k /\ x = 2 ^ k /\ x < n ^ 2) ->
  Forall (fun p => 1 <= p.1 <= 31 /\ 1 <= p.2 <= 31) hb ->
  Z.of_nat (length hb) <= int_max ->
  cut_run n hb f -> models (run_interp hb f) (all_asserts n js hb).
Proof.
  intros Hn Hjs Hids Hlen [Hw H0 Hr Hs He Hh]. split; [apply run_interp_ok|].
  assert (0 < n ^ 2) as Hsq by (apply Z.pow_pos_nonneg; lia).
  assert (n ^ 2 <= int_max) as Hmax by (unfold int_max; rewrite Z.pow_2_r; nia).
  set (I := run_interp hb f).
  assert (forall x, i_fun I (function "f" IntS (BvS (Z.to_nat n))) x = f x) as Hf.
  { intros x. cbn. rewrite Z2Nat.id by lia. apply Z.mod_small, Hw. }
  assert (forall i, 0 <= i < n ^ 2 ->
    i_const I (event_name i) (BvS (Z.to_nat n)) = i mod 2 ^ n) as Hval.
  { intros i Hi. cbn -[event_name]. rewrite Z2Nat.id by lia. by rewrite name_value_event by lia. }
  unfold all_asserts.
  rewrite !Forall_app, !Forall_holds_map, !Forall_singleton, Forall_bind_seq.
  split; [|split; [|split; [|split; [|split; [|split]]]]].
  - intros i Hi%elem_of_seqZ. apply holds_event; [lia|]. apply Hval. lia.
  - apply holds_at. rewrite Hf, H0, Hval by lia. symmetry. apply Z.mod_0_l, Z.pow_nonzero; lia.
  - intros i Hi%elem_of_seqZ. apply holds_or_map.
    destruct (Hr i) as (j & Hj & Hfj); [lia|]. exists j. rewrite elem_of_seqZ. split; [lia|].
    apply holds_at. by rewrite Hf, Hval by lia.
  - intros i Hi%elem_of_seqZ. apply holds_or_map.
    destruct (Hs i) as (k & Hk & Hlt & Hfk); [lia|]. exists (2 ^ k). split.
    + apply Hjs. by exists k.
    + change (i_fun I (function "f" IntS (BvS (Z.to_nat n))) (i + 1)
        - i_fun I (function "f" IntS (BvS (Z.to_nat n))) i = 2 ^ k). rewrite !Hf. lia.
  - apply holds_at. by rewrite Hf, He, Hval by lia.
  - cbn. lia.
  - intros i Hi. destruct (hb !!! Z.to_nat i) as [a b] eqn:Hp.
    assert ((a, b) ∈ hb) as Hin by (apply lookup_pair; eauto).
    rewrite Forall_forall in Hids. specialize (Hids _ Hin). cbn in Hids |- *.
    apply holds_hb; [lia|apply run_interp_ok|lia|lia|].
    split; [|split].
    + cbn -[b1_name]. rewrite Z2Nat.id by lia. rewrite name_value_b1 by lia. by rewrite Hp.
    + cbn -[b2_name]. rewrite Z2Nat.id by lia. rewrite name_value_b2 by lia. by rewrite Hp.
    + intros x. rewrite Hf. by apply Hh.
Qed.
