(* ===== verification/CutFacts.v ===== *)
(** Which segments have a run of cuts, and what [solveSMT] therefore answers:
    the refinement theorem of [CutRun] applied to the segments of the program. *)
From S2P Require Import Prelude Text MonitorState Trace SolveSMT CutRun.

(** ** Sums of powers of two *)

Definition is_pow2 (x : Z) : Prop := exists k, 0 <= k /\ x = 2 ^ k.
Definition sumZ (l : list Z) : Z := foldr Z.add 0 l.

Lemma is_pow2_pos x : is_pow2 x -> 1 <= x.
Proof. intros (k & Hk & ->). pose proof (Z.pow_pos_nonneg 2 k). lia. Qed.

Lemma sumZ_app l1 l2 : sumZ (l1 ++ l2) = sumZ l1 + sumZ l2.
Proof. unfold sumZ. induction l1 as [|x l1 IH]; cbn; [done|]. rewrite IH. lia. Qed.

Lemma sumZ_nonneg l : Forall is_pow2 l -> Z.of_nat (length l) <= sumZ l.
Proof.
  induction 1 as [|x l Hx Hl IH]; cbn; [done|]. fold (sumZ l).
  apply is_pow2_pos in Hx. lia.
Qed.

Lemma binary_sum (m : nat) N :
  0 <= N < 2 ^ Z.of_nat m ->
  exists l, Forall is_pow2 l /\ sumZ l = N /\ (length l <= m)%nat.
Proof.
  revert N. induction m as [|m IH]; intros N HN.
  - exists []. cbn in *. split; [done|]. lia.
  - rewrite Nat2Z.inj_succ, Z.pow_succ_r in HN by lia.
    destruct (Z.lt_ge_cases N (2 ^ Z.of_nat m)).
    + destruct (IH N) as (l & H1 & H2 & H3); [lia|]. exists l. repeat split; [done|done|lia].
    + destruct (IH (N - 2 ^ Z.of_nat m)) as (l & H1 & H2 & H3); [lia|].
      exists (2 ^ Z.of_nat m :: l). split; [constructor; [|done]; eexists; split; [|done]; lia|].
      cbn. fold (sumZ l). lia.
Qed.

Lemma split_pow2 l :
  Forall is_pow2 l -> Z.of_nat (length l) < sumZ l ->
  exists l', Forall is_pow2 l' /\ sumZ l' = sumZ l /\ length l' = S (length l).
Proof.
  induction 1 as [|x l Hx Hl IH]; cbn; [lia|]. fold (sumZ l). intros Hlt.
  destruct Hx as (k & Hk & ->). destruct (decide (k = 0)) as [->|].
  - rewrite Z.pow_0_r in *. destruct IH as (l' & H1 & H2 & H3); [lia|].
    exists (1 :: l'). cbn. fold (sumZ l'). split; [constructor; [by exists 0|done]|]. lia.
  - exists (2 ^ (k - 1) :: 2 ^ (k - 1) :: l). cbn. fold (sumZ l).
    assert (is_pow2 (2 ^ (k - 1))) as Hhalf by (exists (k - 1); split; [lia|done]).
    split; [by repeat constructor|].
    split; [|done]. replace k with (1 + (k - 1)) at 3 by lia.
    rewrite Z.pow_add_r by lia. lia.
Qed.

Lemma exact_sum (m : nat) l :
  Forall is_pow2 l -> (length l <= m)%nat -> Z.of_nat m <= sumZ l ->
  exists l', Forall is_pow2 l' /\ sumZ l' = sumZ l /\ length l' = m.
Proof.
  intros Hl. remember (m - length l)%nat as d eqn:Hd. revert l Hl Hd.
  induction d as [|d IH]; intros l Hl Hd Hm Hs.
  - exists l. split; [done|]. split; [done|lia].
  - destruct (split_pow2 l) as (l1 & H1 & H2 & H3); [done|lia|].
    destruct (IH l1) as (l' & H4 & H5 & H6); [done|lia|lia|lia|].
    exists l'. split; [done|]. split; [congruence|done].
Qed.

Lemma square_lt_pow2 n : n = 2 \/ 4 <= n -> n ^ 2 <= 2 ^ n.
Proof.
  intros [->|Hn]; [done|]. rewrite <- (Z2Nat.id n) by lia.
  assert (4 <= Z.to_nat n)%nat as Hk by lia. clear Hn. revert Hk.
  generalize (Z.to_nat n) as k. clear n. intros k Hk.
  induction Hk as [|k Hk IH]; [done|].
  rewrite Nat2Z.inj_succ, Z.pow_succ_r by lia. nia.
Qed.

(** ** Runs without happened-before pairs *)

Lemma prefix_sum_step l (i : nat) x :
  l !! i = Some x -> sumZ (take (S i) l) = sumZ (take i l) + x.
Proof.
  intros H. rewrite (take_S_r _ _ x) by done. rewrite sumZ_app. cbn. lia.
Qed.

Lemma prefix_sum_le l (i : nat) :
  Forall is_pow2 l -> 0 <= sumZ (take i l) <= sumZ l.
Proof.
  intros Hl. rewrite <- (take_drop i l) at 3. rewrite sumZ_app.
  apply (Forall_take _ i) in Hl as H1. apply (Forall_drop _ i) in Hl as H2.
  apply sumZ_nonneg in H1, H2. lia.
Qed.

Lemma run_exists n : n = 2 \/ 4 <= n -> exists f, cut_run n [] f.
Proof.
  intros Hn. pose proof (square_lt_pow2 n Hn) as Hsq.
  assert (n <= n ^ 2 - 1) as Hge by (rewrite Z.pow_2_r; nia).
  destruct (binary_sum (Z.to_nat n) (n ^ 2 - 1)) as (l0 & Hp0 & Hs0 & Hl0);
    [rewrite Z2Nat.id by lia; lia|].
  destruct (exact_sum (Z.to_nat n) l0) as (l & Hp & Hs & Hl); [done|done|lia|].
  rewrite Hs0 in Hs.
  exists (fun x => sumZ (take (Z.to_nat x) l)).
  assert (forall i, 0 <= sumZ (take i l) < n ^ 2) as Hb
    by (intros i; pose proof (prefix_sum_le l i Hp); lia).
  split.
  - intros x. specialize (Hb (Z.to_nat x)). lia.
  - done.
  - intros i Hi. exists (sumZ (take (Z.to_nat i) l)). specialize (Hb (Z.to_nat i)).
    split; [lia|]. rewrite Z.mod_small; [done|lia].
  - intros i Hi. destruct (lookup_lt_is_Some_2 l (Z.to_nat i)) as [x Hx]; [lia|].
    eapply Forall_lookup_1 in Hp as Hpx; [|done]. destruct Hpx as (k & Hk & ->).
    exists k. split; [done|].
    replace (Z.to_nat (i + 1)) with (S (Z.to_nat i)) by lia.
    rewrite (prefix_sum_step _ _ _ Hx). split; [|done].
    pose proof (Hb (S (Z.to_nat i))) as H1. pose proof (Hb (Z.to_nat i)) as H2.
    rewrite (prefix_sum_step _ _ _ Hx) in H1. lia.
  - rewrite take_ge by lia. rewrite Hs, Z.mod_small; [done|lia].
  - intros x a b H. by apply elem_of_nil in H.
Qed.

Lemma no_run_1 hb f : ~ cut_run 1 hb f.
Proof.
  intros H. destruct (cr_step _ _ _ H 0) as (k & Hk & Hlt & _); [lia|].
  pose proof (Z.pow_pos_nonneg 2 k). lia.
Qed.

Lemma no_run_3 hb f : ~ cut_run 3 hb f.
Proof.
  intros H. pose proof (cr_end _ _ _ H) as He. change (f 3 = 0) in He.
  pose proof (cr_start _ _ _ H) as H0.
  destruct (cr_step _ _ _ H 0) as (k0 & Hk0 & _ & E0); [lia|].
  destruct (cr_step _ _ _ H 1) as (k1 & Hk1 & _ & E1); [lia|].
  destruct (cr_step _ _ _ H 2) as (k2 & Hk2 & _ & E2); [lia|].
  change (0 + 1) with 1 in E0. change (1 + 1) with 2 in E1. change (2 + 1) with 3 in E2.
  pose proof (Z.pow_pos_nonneg 2 k0). pose proof (Z.pow_pos_nonneg 2 k1).
  pose proof (Z.pow_pos_nonneg 2 k2). lia.
Qed.

(** ** Runs with a pair of mutually ordered events *)

(** Does every way of adding powers of two below [2 ^ n], [n] times, up to
    [2 ^ n - 1] pass through a value whose bits [a] and [b] differ? *)
Fixpoint passes (n steps : nat) (v : Z) (a b : Z) : bool :=
  negb (eqb (Z.testbit v a) (Z.testbit v b))
  || match steps with
     | O => negb (v =? 2 ^ Z.of_nat n - 1)
     | S steps =>
         forallb (fun k => passes n steps (v + 2 ^ k) a b) (seqZ 0 (Z.of_nat n))
     end.

Lemma passes_sound n steps v a b g :
  passes n steps v a b = true -> g 0 = v ->
  (forall i, 0 <= i < Z.of_nat steps -> exists k, 0 <= k < Z.of_nat n /\ g (i + 1) = g i + 2 ^ k) ->
  g (Z.of_nat steps) = 2 ^ Z.of_nat n - 1 ->
  exists x, Z.testbit (g x) a <> Z.testbit (g x) b.
Proof.
  revert v g. induction steps as [|steps IH]; intros v g Hp H0 Hstep Hend; cbn [passes] in Hp;
    apply orb_true_iff in Hp as [Hp|Hp].
  - exists 0. rewrite H0. intros E. rewrite E, eqb_reflx in Hp. done.
  - change (Z.of_nat 0) with 0 in Hend. rewrite H0 in Hend.
    by rewrite Hend, Z.eqb_refl in Hp.
  - exists 0. rewrite H0. intros E. rewrite E, eqb_reflx in Hp. done.
  - rewrite forallb_forall in Hp. destruct (Hstep 0) as (k & Hk & E); [lia|].
    destruct (IH (v + 2 ^ k) (fun x => g (x + 1))) as (x & Hx).
    + apply Hp. apply list_elem_of_In, elem_of_seqZ. lia.
    + by rewrite E, H0.
    + intros i Hi. apply Hstep. lia.
    + rewrite <- Hend. f_equal. lia.
    + by exists (x + 1).
Qed.

Definition all_pass (n : nat) : bool :=
  forallb (fun a => forallb (fun b => (a =? b) || passes n n 0 a b) (seqZ 0 (Z.of_nat n)))
    (seqZ 0 (Z.of_nat n)).

Lemma no_mutual_run n hb f a b :
  n = 2 \/ n = 4 -> (a, b) ∈ hb -> (b, a) ∈ hb -> 1 <= a <= n -> 1 <= b <= n -> a <> b ->
  ~ cut_run n hb f.
Proof.
  intros Hn Hab Hba Ha Hb Hne H.
  assert (all_pass (Z.to_nat n) = true) as Hall by (destruct Hn; subst n; vm_compute; done).
  assert (n ^ 2 = 2 ^ n) as Hsq by (destruct Hn; subst n; done).
  unfold all_pass in Hall. rewrite Z2Nat.id in Hall by lia.
  rewrite forallb_forall in Hall.
  specialize (Hall (a - 1) ltac:(apply list_elem_of_In, elem_of_seqZ; lia)). cbn in Hall.
  rewrite forallb_forall in Hall.
  specialize (Hall (b - 1) ltac:(apply list_elem_of_In, elem_of_seqZ; lia)). cbn in Hall.
  destruct (Z.eqb_spec (a - 1) (b - 1)); [lia|]. cbn in Hall.
  destruct (passes_sound _ _ _ _ _ f Hall) as (x & Hx).
  - apply (cr_start _ _ _ H).
  - intros i Hi. rewrite Z2Nat.id in * by lia.
    destruct (cr_step _ _ _ H i) as (k & Hk & Hlt & E); [lia|]. exists k. split; [|done].
    rewrite Hsq in Hlt. apply Z.pow_lt_mono_r_iff in Hlt; lia.
  - rewrite Z2Nat.id by lia. rewrite (cr_end _ _ _ H), Hsq, Z.mod_small; [done|].
    destruct Hn; subst n; cbn; lia.
  - apply Hx. apply eq_true_iff_eq.
    split; [by apply (cr_hb _ _ _ H x b a)|by apply (cr_hb _ _ _ H x a b)].
Qed.

(** ** The segments the program builds *)

Lemma event_id_lt ns i n j :
  ns !! i = Some n -> j < n -> event_id ns i j < event_id ns (S i) 0.
Proof. intros H Hj. rewrite (event_id_succ _ _ n) by done. unfold event_id. lia. Qed.

Lemma event_id_mono ns i k :
  Forall (fun n => 0 <= n) ns -> (i <= k)%nat -> event_id ns i 0 <= event_id ns k 0.
Proof.
  intros Hns. induction 1 as [|k Hk IH]; [lia|].
  destruct (ns !! k) as [n|] eqn:E.
  - rewrite (event_id_succ _ _ n) by done.
    eapply Forall_lookup_1 in Hns; [|done]. cbn in Hns. unfold event_id in *. lia.
  - apply lookup_ge_None in E. unfold event_id in *.
    rewrite (take_ge ns (S k)) by lia. rewrite (take_ge ns k) in IH by lia. lia.
Qed.

Lemma event_id_bounds ns i n j :
  Forall (fun n => 0 <= n) ns -> ns !! i = Some n -> 0 <= j < n ->
  1 <= event_id ns i j <= sumZ ns.
Proof.
  intros Hns Hi Hj. pose proof (event_id_mono ns 0 i Hns ltac:(lia)) as H0.
  pose proof (event_id_mono ns (S i) (length ns) Hns) as H1.
  apply lookup_lt_Some in Hi as Hl. specialize (H1 ltac:(lia)).
  pose proof (event_id_lt ns i n j Hi ltac:(lia)) as H2.
  unfold event_id in *. rewrite (take_ge ns (length ns)) in H1 by lia.
  change (foldr Z.add 0 (take 0 ns)) with 0 in H0.
  unfold sumZ. lia.
Qed.

(** Events of different processes carry different numbers. *)
Lemma event_id_ne ns i j k l ni nk :
  Forall (fun n => 0 <= n) ns -> ns !! i = Some ni -> ns !! k = Some nk ->
  0 <= j < ni -> 0 <= l < nk -> i <> k -> event_id ns i j <> event_id ns k l.
Proof.
  intros Hns Hi Hk Hj Hl Hne.
  pose proof (event_id_lt ns i ni j Hi ltac:(lia)).
  pose proof (event_id_lt ns k nk l Hk ltac:(lia)).
  destruct (Nat.lt_gt_cases i k) as [Hcase _]. destruct (Hcase Hne).
  - pose proof (event_id_mono ns (S i) k Hns ltac:(lia)). unfold event_id in *. lia.
  - pose proof (event_id_mono ns (S k) i Hns ltac:(lia)). unfold event_id in *. lia.
Qed.

Lemma hb_pairs_ids eps ns a b :
  Forall (fun n => 0 <= n) ns -> (a, b) ∈ hb_pairs eps ns ->
  1 <= a <= sumZ ns /\ 1 <= b <= sumZ ns /\ a <> b.
Proof.
  intros Hns (i & j & k & l & ni & nk & Hi & Hk & Hj & Hl & _ & Hne & -> & ->)%hb_pairs_elem.
  split; [by eapply event_id_bounds|]. split; [by eapply event_id_bounds|].
  by eapply event_id_ne.
Qed.

Lemma totNumEvents_sum t ns :
  Z.of_nat (length ns) = numProcess t ->
  (forall i n, ns !! i = Some n -> numEvent t !! i = Some n) ->
  totNumEvents t = Ok (sumZ ns).
Proof.
  intros Hlen Hc. unfold totNumEvents.
  destruct (for_range_rule (fun i tot => tot = sumZ (take (Z.to_nat i) ns)) 0 (numProcess t)
    (fun i tot => n ← aget (numEvent t) i; Ok (tot + n)) 0) as (tot & -> & ->);
    [lia|done| |].
  - intros i tot Hi ->. destruct (lookup_lt_is_Some_2 ns (Z.to_nat i)) as [n Hn]; [lia|].
    assert (aget (numEvent t) i = Ok n) as -> by (apply aget_ok; split; [lia|auto]).
    cbn [mbind res_bind]. eexists. split; [done|]. replace (Z.to_nat (i + 1)) with (S (Z.to_nat i)) by lia.
    rewrite (take_S_r _ _ n) by done. rewrite sumZ_app. cbn. lia.
  - by rewrite take_ge by lia.
Qed.

(** The first segment a monitor reads, as input of [solveSMT]. *)
Lemma first_segment t start stop eps t' :
  let ns := seg_counts (Z.max (start - eps) 0) stop t in
  store_shape t -> 0 <= numProcess t <= Z.of_nat max_process -> numHbSet t = 0 ->
  sumZ ns <= 31 ->
  readSegTrace_store start stop eps t = Ok t' ->
  segment t' (sumZ ns) (hb_pairs eps ns) /\ Forall (fun n => 0 <= n) ns.
Proof.
  intros ns Ht Hp H0 Hsum He.
  destruct (seg_counts_bounds (Z.max (start - eps) 0) stop t Ht ltac:(lia)) as [Hb _].
  fold ns in Hb.
  assert (Forall (fun n => 0 <= n) ns) as Hns by (eapply Forall_impl; [done|]; cbn; lia).
  split; [|done].
  destruct (Z.le_gt_cases (numHbSet t + Z.of_nat (length (hb_pairs eps ns))) (Z.of_nat max_hb))
    as [Hle|Hgt].
  2: { rewrite readSegTrace_over in He; done || lia. }
  destruct (readSegTrace_fits t start stop eps Ht Hp Hle) as (t1 & He1 & Hseg).
  rewrite He in He1. injection He1 as <-.
  destruct Hseg as [Hc _ _ Hhb Hn (_ & _ & Hnp) Hsh].
  rewrite H0 in *. change (take (Z.to_nat 0) (hbSet t)) with (@nil (Z * Z)) in Hhb.
  cbn [app] in Hhb. fold ns in Hhb, Hn, Hc.
  assert (length ns = Z.to_nat (numProcess t)) as Hlen.
  { unfold ns, seg_counts. rewrite length_map, length_take, (shape_numEventAll _ Ht). lia. }
  split.
  - apply totNumEvents_sum; [lia|done].
  - rewrite Hhb, Hn, Z.add_0_l, Nat2Z.id. symmetry. apply take_app_length.
  - rewrite Hn, (shape_hb _ Hsh). lia.
  - apply Hsh.
  - apply Forall_forall. intros [a b] Hin.
    pose proof (hb_pairs_ids eps ns a b Hns Hin). cbn. lia.
Qed.

Lemma assertions_refine t n hb :
  1 <= n <= 1000 -> segment t n hb ->
  exists asserts, solveSMT_assertions t = Ok asserts
    /\ (satisfiable asserts <-> exists f, cut_run n hb f).
Proof.
  intros Hn Hseg. destruct (assertions_ok t n hb) as (js & He & Hjs); [lia|done|].
  exists (all_asserts n js hb). split; [done|].
  pose proof (seg_ids _ _ _ Hseg) as Hids.
  split.
  - intros (I & HI). eexists. eapply models_run; eauto. lia.
  - intros (f & Hf). exists (run_interp hb f). apply run_models; try done.
    rewrite (seg_hb _ _ _ Hseg), length_take.
    pose proof (seg_hb_cap _ _ _ Hseg) as ->.
    unfold max_hb, int_max. lia.
Qed.

Lemma solveSMT_unsat check `{SolverOk check} t n hb numFormula :
  1 <= n <= 1000 -> segment t n hb -> ~ (exists f, cut_run n hb f) ->
  solveSMT check t numFormula = Ok false.
Proof.
  intros Hn Hseg Hno. destruct (assertions_refine t n hb Hn Hseg) as (asserts & He & Hs).
  unfold solveSMT. rewrite He. cbn [mbind res_bind]. f_equal.
  case_decide as Hd; [|done]. apply check_sat in Hd. by apply Hs in Hd.
Qed.

(** ** Properties *)

(** C2: [solveSMT] asks for exactly one thing: for a segment with [n] events and
    the pairs [hb] the assertions are built without error and are satisfiable
    iff there is a run of cuts, a function from step numbers to [n]-bit sets of
    events that starts empty, adds a power of two at every step, ends in
    [n^2-1] modulo [2^n] and at no index holds the later event of a pair
    without the earlier one. *)
Theorem solveSMT_refines t n hb :
  1 <= n <= 1000 -> segment t n hb ->
  exists asserts, solveSMT_assertions t = Ok asserts
    /\ (satisfiable asserts <-> exists f, cut_run n hb f).
Proof. apply assertions_refine. Qed.

(** without happened-before pairs a run exists iff the segment has two
    events or at least four; with one or three events there is none whatever
    the pairs are, so the answer is [false]. *)
Theorem solveSMT_no_pairs check `{SolverOk check} t n hb numFormula :
  1 <= n <= 1000 -> segment t n hb ->
  (n = 1 \/ n = 3 -> solveSMT check t numFormula = Ok false)
  /\ (hb = [] -> exists asserts, solveSMT_assertions t = Ok asserts
        /\ (satisfiable asserts <-> n = 2 \/ 4 <= n)).
Proof.
  intros Hn Hseg. split.
  - intros Hcase. apply (solveSMT_unsat check t n hb); [lia|done|].
    intros (f & Hf). destruct Hcase; subst n; [by eapply no_run_1|by eapply no_run_3].
  - intros ->. destruct (assertions_refine t n [] Hn Hseg) as (asserts & He & Hs).
    exists asserts. split; [done|]. rewrite Hs. split; [|apply run_exists].
    intros (f & Hf). destruct (decide (n = 1)) as [->|]; [by apply no_run_1 in Hf|].
    destruct (decide (n = 3)) as [->|]; [by apply no_run_3 in Hf|]. lia.
Qed.

(** the first segment of a monitor that holds two or four events, at least
    one of which is related to an event of another process, is always answered
    [false]: the relation orders every pair both ways, and a run cannot add two
    events in one step. *)
Theorem solveSMT_related_false check `{SolverOk check} t start stop eps t' numFormula :
  let ns := seg_counts (Z.max (start - eps) 0) stop t in
  store_shape t -> 0 <= numProcess t <= Z.of_nat max_process -> numHbSet t = 0 ->
  sumZ ns = 2 \/ sumZ ns = 4 -> hb_pairs eps ns <> [] ->
  readSegTrace_store start stop eps t = Ok t' ->
  solveSMT check t' numFormula = Ok false.
Proof.
  intros ns Ht Hp H0 Hsum Hne He.
  destruct (first_segment t start stop eps t' Ht Hp H0) as [Hseg Hns]; [fold ns; lia|done|].
  fold ns in Hseg, Hns. apply (solveSMT_unsat check t' (sumZ ns) (hb_pairs eps ns)); [lia|done|].
  intros (f & Hf). destruct (hb_pairs eps ns) as [|[a b] ps] eqn:E; [done|].
  assert ((a, b) ∈ hb_pairs eps ns) as Hab by (rewrite E; left).
  pose proof (hb_pairs_ids eps ns a b Hns Hab) as (Ha & Hb & Hne').
  apply hb_pairs_flip in Hab as Hba. rewrite E in Hab, Hba.
  by apply (no_mutual_run (sumZ ns) _ f a b Hsum Hab Hba Ha Hb Hne').
Qed.

(** A segment without events makes [solveSMT] end with an exception of the
    solver API, which the program does not catch. *)
Theorem solveSMT_no_events check t numFormula :
  totNumEvents t = Ok 0 -> solveSMT check t numFormula = Fault Z3Exception.
Proof. intros Ht. unfold solveSMT, solveSMT_assertions. by rewrite Ht. Qed.
