(* ===== verification/Verdicts.v ===== *)
(** [GetVerdict] and [ShareVerdict] of main.cpp: one monitor adopting the
    verdicts another has marked as modified. *)
From S2P Require Import Prelude Text MonitorState.

(** The sender argument of the C++ method is not used by its body. *)
Definition GetVerdict (m : Monitor) (position : Z) (verdict : bool) : res Monitor :=
  v ← aset (verdicts m) position verdict;
  vm ← aset (verdicts_mod m) position true;
  Ok (with_verdicts m v vm).

Definition ShareVerdict (self m : Monitor) : res Monitor :=
  for_range 0 (to_unsigned (num_monitors self))
    (fun c m =>
       modified ← aget (verdicts_mod self) c;
       if (modified : bool) then
         v ← aget (verdicts self) c; GetVerdict m c v
       else Ok m) m.

(** Both vectors of a monitor have an entry per monitor of the system. *)
Definition vectors_ok (n : nat) (m : Monitor) : Prop :=
  length (verdicts m) = n /\ length (verdicts_mod m) = n.

(** ** Specification *)

(** What the receiver knows after [c] positions have been shared. *)
Record adopted (self m : Monitor) (c : nat) (m' : Monitor) : Prop := {
  ad_frame : m' = with_verdicts m (verdicts m') (verdicts_mod m');
  ad_len : length (verdicts m') = length (verdicts m)
    /\ length (verdicts_mod m') = length (verdicts_mod m);
  ad_verdicts : forall p, verdicts m' !! p
    = if decide ((p < c)%nat /\ verdicts_mod self !! p = Some true)
      then verdicts self !! p else verdicts m !! p;
  ad_mod : forall p, verdicts_mod m' !! p
    = if decide ((p < c)%nat /\ verdicts_mod self !! p = Some true)
      then Some true else verdicts_mod m !! p
}.

Lemma adopted_next self m c m' (modified : bool) v n :
  vectors_ok n m -> (c < n)%nat ->
  verdicts_mod self !! c = Some modified -> verdicts self !! c = Some v ->
  adopted self m c m' ->
  exists m'', (if modified then GetVerdict m' (Z.of_nat c) v else Ok m') = Ok m''
    /\ adopted self m (S c) m''.
Proof.
  intros [Hv Hvm] Hc Hm Hsv [Hf [Hl1 Hl2] Had Ham]. destruct modified.
  - unfold GetVerdict. rewrite !aset_nat by lia. cbn.
    eexists. split; [done|]. split; cbn.
    + by rewrite Hf.
    + rewrite !length_insert. done.
    + intros p. destruct (decide (p = c)) as [->|Hne].
      * rewrite list_lookup_insert_eq by lia. rewrite decide_True by (split; [lia|done]). done.
      * rewrite list_lookup_insert_ne by done. rewrite Had.
        apply decide_ext. split; intros [H1 H2]; (split; [lia|done]).
    + intros p. destruct (decide (p = c)) as [->|Hne].
      * rewrite list_lookup_insert_eq by lia. rewrite decide_True by (split; [lia|done]). done.
      * rewrite list_lookup_insert_ne by done. rewrite Ham.
        apply decide_ext. split; intros [H1 H2]; (split; [lia|done]).
  - exists m'. split; [done|]. split; [done|done|..]; intros p.
    + rewrite Had. apply decide_ext. split; intros [H1 H2]; (split; [|done]); [lia|].
      destruct (decide (p = c)) as [->|]; [congruence|lia].
    + rewrite Ham. apply decide_ext. split; intros [H1 H2]; (split; [|done]); [lia|].
      destruct (decide (p = c)) as [->|]; [congruence|lia].
Qed.

Lemma ShareVerdict_adopts self m n :
  vectors_ok n self -> vectors_ok n m -> num_monitors self = Z.of_nat n ->
  Z.of_nat n < 2 ^ 32 ->
  exists m', ShareVerdict self m = Ok m' /\ adopted self m n m'.
Proof.
  intros [Hs1 Hs2] Hm Hn Hmax. unfold ShareVerdict, to_unsigned.
  rewrite Hn, Z.mod_small by lia.
  destruct (for_range_rule (fun c m' => adopted self m (Z.to_nat c) m') 0 (Z.of_nat n)
    (fun c m => modified ← aget (verdicts_mod self) c;
       if (modified : bool) then v ← aget (verdicts self) c; GetVerdict m c v else Ok m) m)
    as (m' & -> & Had).
  - lia.
  - split; [by destruct m|done|..]; intros p; rewrite decide_False; try done; lia.
  - intros c m1 Hc Had.
    destruct (lookup_lt_is_Some_2 (verdicts_mod self) (Z.to_nat c)) as [b Hb]; [lia|].
    destruct (lookup_lt_is_Some_2 (verdicts self) (Z.to_nat c)) as [v Hv]; [lia|].
    destruct (adopted_next self m (Z.to_nat c) m1 b v n) as (m2 & He & Had2); try done; [lia|].
    exists m2. rewrite Z2Nat.id in He by lia.
    assert (aget (verdicts_mod self) c = Ok b) as -> by (apply aget_ok; split; [lia|done]).
    assert (aget (verdicts self) c = Ok v) as -> by (apply aget_ok; split; [lia|done]).
    split; [done|]. by replace (Z.to_nat (c + 1)) with (S (Z.to_nat c)) by lia.
  - exists m'. split; [done|]. by rewrite Nat2Z.id in Had.
Qed.

(** Sharing keeps the vectors all false when both sides are. *)
Definition all_false (m : Monitor) : Prop := Forall (fun v => v = false) (verdicts m).

Lemma adopted_false self m c m' :
  all_false self -> all_false m -> adopted self m c m' -> all_false m'.
Proof.
  unfold all_false. rewrite !Forall_lookup. intros Hs Hm Had p v Hp.
  rewrite (ad_verdicts _ _ _ _ Had) in Hp. case_decide; eauto.
Qed.

(** ** Properties *)

(** [ShareVerdict] hands over exactly the marked verdicts: afterwards the
    receiver holds the sender's verdict at every position the sender has marked
    and its own at the others, marks the union of the marks, and nothing else
    of the receiver has changed. *)
Theorem ShareVerdict_spec self m n :
  vectors_ok n self -> vectors_ok n m -> num_monitors self = Z.of_nat n ->
  Z.of_nat n < 2 ^ 32 ->
  exists m', ShareVerdict self m = Ok m'
    /\ m' = with_verdicts m (verdicts m') (verdicts_mod m') /\ vectors_ok n m'
    /\ forall p, (p < n)%nat ->
         verdicts m' !! p = (if decide (verdicts_mod self !! p = Some true)
                             then verdicts self !! p else verdicts m !! p)
         /\ (verdicts_mod m' !! p = Some true
             <-> verdicts_mod self !! p = Some true \/ verdicts_mod m !! p = Some true).
Proof.
  intros Hs Hm Hn Hmax.
  destruct (ShareVerdict_adopts self m n Hs Hm Hn Hmax) as (m' & He & [Hf Hl Hv Hvm]).
  exists m'. split; [done|]. split; [done|]. split; [unfold vectors_ok in *; naive_solver lia|].
  intros p Hp. rewrite Hv, Hvm. split.
  - apply decide_ext. naive_solver.
  - case_decide; naive_solver.
Qed.
