(* ===== verification/MainDriver.v ===== *)
(** [main] of main.cpp: for every room, build one monitor per pair of a switch
    and a light and a central one, then run all of them segment by segment for
    every [eps], exchanging verdicts after each segment. Timing and console
    output are left out. *)
From S2P Require Import Prelude Text MonitorState Trace SolveSMT CutRun CutFacts Verdicts.

Definition max_monitors : nat := 20.
Definition segLength : Z := 4.

(** ** Files *)

(** [ofstream::open] truncates; [<<] appends a line. *)
Definition open_out (fs : files) (name : string) : files := <[name := EmptyString]> fs.

Definition write_line (name line : string) (fs : files) : files :=
  <[name := put_line (default EmptyString (fs !! name)) line]> fs.

(** The paths [directory_iterator("data")] yields, in no particular order. *)
Definition data_paths (fs : files) : list string :=
  filter (fun p => String.prefix "data/" p) (map fst (map_to_list fs)).

(** Numbers of switches and lights of a room. *)
Definition count_files (path : string) (paths : list string) : Z * Z :=
  foldl (fun '(numSwitch, numLight) fileName =>
           if find_sub (path +:+ "switch") fileName then (numSwitch + 1, numLight)
           else if find_sub (path +:+ "light") fileName then (numSwitch, numLight + 1)
           else (numSwitch, numLight)) (0, 0) paths.

Definition switch_file (path : string) (plug : Z) : string :=
  "data/" +:+ path +:+ "switch_" +:+ to_string plug.
Definition light_file (path : string) (light : Z) : string :=
  "data/" +:+ path +:+ "light_" +:+ to_string light.

(** Copy a file line by line to the distributed trace, and to the central trace
    when [central] holds. *)
Definition copy_lines (central : bool) (lines : list string) (fs : files) : files :=
  foldl (fun fs line =>
           let fs := write_line "detailsDist.txt" line fs in
           if central then write_line "detailsCen.txt" line fs else fs) fs lines.

Definition copy_file (name : string) (central : bool) (fs : files) : files :=
  copy_lines central (read_lines fs (name +:+ ".txt")) fs.

(** ** State of the run of one room *)

Record room := {
  r_fs : files;
  r_formC : list string;
  r_monitors : list Monitor;   (* Monitor monitorList[20] *)
  r_mon : Z
}.

(** Body of the two loops over the switches ([plug]) and lights. *)
Definition build_monitor (path : string) (numSwitch numLight plug light : Z) (r : room)
  : res room :=
  let fs := open_out (r_fs r) "detailsDist.txt" in
  let fs := copy_file (switch_file path plug) (light =? 1) fs in
  let fs := copy_file (light_file path light) (plug =? 1) fs in
  let form1 := [switch_file path plug; light_file path light] in
  let formC := r_formC r ++ (if light =? 1 then [switch_file path plug] else [])
                         ++ (if plug =? 1 then [light_file path light] else []) in
  m ← aget (r_monitors r) (r_mon r);
  let m := setValues m 0 form1 (numSwitch * numLight) "detailsDist.txt" in
  m ← readFile fs m;
  monitors ← aset (r_monitors r) (r_mon r) m;
  Ok {| r_fs := fs; r_formC := formC; r_monitors := monitors; r_mon := r_mon r + 1 |}.

Definition setup_room (junk_id : Z) (junk : TraceStore) (path : string) (fs : files)
  : res (room * Monitor * Z) :=
  let '(numSwitch, numLight) := count_files path (data_paths fs) in
  let fresh := Monitor_default junk_id junk in
  let fs := open_out fs "detailsCen.txt" in
  r ← for_range 1 (numSwitch + 1) (fun plug r =>
        for_range 1 (numLight + 1) (fun light r =>
          build_monitor path numSwitch numLight plug light r) r)
      {| r_fs := fs; r_formC := []; r_monitors := replicate max_monitors fresh; r_mon := 0 |};
  centMon ← readFile (r_fs r) (setValues fresh 0 (r_formC r) 1 "detailsCen.txt");
  Ok (r, centMon, numSwitch * numLight).

Section Run.
Context (check : list expr -> check_result).

(** Read the segment and put the solver's answer into [verdicts_mod[0]]. *)
Definition monitor_segment (start stop eps : Z) (m : Monitor) : res Monitor :=
  m ← readSegTrace start stop eps m;
  b ← solveSMT check (store m) 0;
  vm ← aset (verdicts_mod m) 0 b;
  Ok (with_verdicts m (verdicts m) vm).

Definition monitor_segment_at (start stop eps i : Z) (l : list Monitor)
  : res (list Monitor) :=
  m ← aget l i; m' ← monitor_segment start stop eps m; aset l i m'.

(** [monitorList[i].ShareVerdict(&monitorList[j])] *)
Definition share (i j : Z) (l : list Monitor) : res (list Monitor) :=
  if i =? j then Ok l
  else a ← aget l i; b ← aget l j; b' ← ShareVerdict a b; aset l j b'.

Definition share_all (n : Z) (l : list Monitor) : res (list Monitor) :=
  for_range 0 n (fun i l => for_range 0 n (fun j l => share i j l) l) l.

Definition segment_round (n start stop eps : Z) (s : list Monitor * Monitor)
  : res (list Monitor * Monitor) :=
  l ← for_range 0 n (monitor_segment_at start stop eps) s.1;
  cent ← monitor_segment start stop eps s.2;
  l ← share_all n l;
  Ok (l, cent).

(** [while(end < centMon.numEventAll[0])] *)
Fixpoint segments (fuel : nat) (n eps stop : Z) (s : list Monitor * Monitor)
  : res (list Monitor * Monitor) :=
  events ← aget (numEventAll (store s.2)) 0;
  if stop <? events then
    match fuel with
    | O => Fault OutOfFuel
    | S fuel =>
        s ← segment_round n stop (stop + segLength) eps s;
        segments fuel n eps (stop + segLength) s
    end
  else Ok s.

(** Enough iterations: each takes [segLength] events of the first process. *)
Definition segment_fuel (centMon : Monitor) : nat :=
  Z.to_nat (default 0 (head (numEventAll (store centMon)))).

Definition run_room (junk_id : Z) (junk : TraceStore) (path : string) (fs : files)
  : res (files * list Monitor * Monitor) :=
  s ← setup_room junk_id junk path fs;
  let '(r, centMon, n) := s in
  f ← for_range 0 6 (fun eps s => segments (segment_fuel s.2) n eps 0 s) (r_monitors r, centMon);
  Ok (r_fs r, f.1, f.2).

Definition rooms : list string :=
  ["entrance"; "kitchen"; "office"; "toilet"; "staircase"; "bathroom"].

Definition main (junk_id : Z) (junk : TraceStore) (fs : files) : res files :=
  for_in (fun path fs => r ← run_room junk_id junk path fs; Ok r.1.1) rooms fs.
End Run.

(** ** What setting up a room leaves in the files *)

Definition dist_file : string := "detailsDist.txt".
Definition cen_file : string := "detailsCen.txt".

Lemma write_line_other name line fs other :
  name <> other -> write_line name line fs !! other = fs !! other.
Proof. intros H. unfold write_line. by rewrite lookup_insert_ne. Qed.

Lemma write_line_same name line fs c :
  fs !! name = Some c -> write_line name line fs !! name = Some (put_line c line).
Proof. intros H. unfold write_line. by rewrite H, lookup_insert_eq. Qed.

Lemma copy_lines_dist central lines fs c :
  fs !! dist_file = Some c ->
  copy_lines central lines fs !! dist_file = Some (put_lines c lines).
Proof.
  unfold copy_lines.
  revert fs c. induction lines as [|line lines IH]; intros fs c Hc; [done|].
  cbn [foldl put_lines]. apply IH. destruct central.
  - rewrite write_line_other by done. by apply write_line_same.
  - by apply write_line_same.
Qed.

Lemma copy_lines_cen (central : bool) lines fs c :
  fs !! cen_file = Some c ->
  copy_lines central lines fs !! cen_file
  = Some (put_lines c (if central then lines else [])).
Proof.
  unfold copy_lines.
  revert fs c. induction lines as [|line lines IH]; intros fs c Hc; [by destruct central|].
  cbn [foldl]. destruct central; cbn [put_lines foldl].
  - apply IH. apply write_line_same. by rewrite write_line_other.
  - apply (IH _ c). by rewrite write_line_other.
Qed.

Lemma copy_lines_other central lines fs other :
  other <> dist_file -> other <> cen_file ->
  copy_lines central lines fs !! other = fs !! other.
Proof.
  intros H1 H2. unfold copy_lines. revert fs.
  induction lines as [|line lines IH]; intros fs; [done|].
  cbn [foldl]. rewrite IH. destruct central; rewrite ?write_line_other; try done; by apply not_eq_sym.
Qed.

Lemma put_lines_cat out l1 l2 : put_lines (put_lines out l1) l2 = put_lines out (l1 ++ l2).
Proof. unfold put_lines. by rewrite foldl_app. Qed.

(** Files read by the loops are in the data directory, so the files they write
    are different. *)
Lemma data_file_ne name :
  "data/" +:+ name <> dist_file /\ "data/" +:+ name <> cen_file.
Proof. split; intros H; by injection H. Qed.

Section Setup.
Context (fs0 : files) (path : string) (junk_id : Z) (junk : TraceStore).
Context (numSwitch numLight : Z) (sw li : Z -> block).
Context (Hcount : count_files path (data_paths fs0) = (numSwitch, numLight)).
Context (Hsw : forall p, 1 <= p <= numSwitch ->
  read_lines fs0 (switch_file path p +:+ ".txt") = block_lines (sw p)
  /\ block_ok (sw p) /\ (length (sw p).2 <= max_event)%nat).
Context (Hli : forall l, 1 <= l <= numLight ->
  read_lines fs0 (light_file path l +:+ ".txt") = block_lines (li l)
  /\ block_ok (li l) /\ (length (li l).2 <= max_event)%nat).
Context (Hfit : 0 <= numSwitch /\ 0 <= numLight /\ numSwitch * numLight <= Z.of_nat max_monitors).

(** The pairs of a switch and a light, in the order of the loops. *)
Definition plug_pairs : list (Z * Z) :=
  p ← seqZ 1 numSwitch; l ← seqZ 1 numLight; [(p, l)].

Definition cen_blocks (pairs : list (Z * Z)) : list block :=
  pairs ≫= fun '(p, l) =>
    (if l =? 1 then [sw p] else []) ++ (if p =? 1 then [li l] else []).

Lemma plug_pairs_elem p l :
  (p, l) ∈ plug_pairs <-> 1 <= p <= numSwitch /\ 1 <= l <= numLight.
Proof.
  unfold plug_pairs. rewrite list_elem_of_bind. split.
  - intros (p' & (l' & [= -> ->]%list_elem_of_singleton & Hl)%list_elem_of_bind & Hp).
    apply elem_of_seqZ in Hl, Hp. lia.
  - intros [Hp Hl]. exists p. rewrite elem_of_seqZ. split; [|lia].
    apply list_elem_of_bind. exists l. rewrite elem_of_seqZ. split; [by left|lia].
Qed.

Lemma plug_pairs_length : Z.of_nat (length plug_pairs) = numSwitch * numLight.
Proof.
  unfold plug_pairs.
  assert (forall L : list Z, length (L ≫= fun p => seqZ 1 numLight ≫= fun l => [(p, l)])
    = (length L * Z.to_nat numLight)%nat) as ->.
  { induction L as [|p L IH]; [done|]. rewrite bind_cons, length_app, IH.
    rewrite list_bind_singleton, length_map, length_seqZ. cbn. lia. }
  rewrite length_seqZ. nia.
Qed.

(** The run of the loops after the pairs [seen]. *)
Record built (seen : list (Z * Z)) (r : room) : Prop := {
  bu_data : forall name, r_fs r !! ("data/" +:+ name) = fs0 !! ("data/" +:+ name);
  bu_cen : r_fs r !! cen_file
    = Some (put_lines EmptyString (cen_blocks seen ≫= block_lines));
  bu_mon : r_mon r = Z.of_nat (length seen);
  bu_len : length (r_monitors r) = max_monitors;
  bu_new : forall k, (length seen <= k < max_monitors)%nat ->
    r_monitors r !! k = Some (Monitor_default junk_id junk);
  bu_old : forall k p l, seen !! k = Some (p, l) ->
    exists m, r_monitors r !! k = Some m
      /\ store m = loaded initial_store [sw p; li l]
      /\ subformula m = [switch_file path p; light_file path l]
      /\ num_monitors m = numSwitch * numLight
      /\ verdicts m = replicate (Z.to_nat (numSwitch * numLight)) false
      /\ verdicts_mod m = replicate (Z.to_nat (numSwitch * numLight)) false
}.

(** The files after the copies made for one pair. *)
Definition pair_files (p l : Z) (fs : files) : files :=
  copy_file (light_file path l) (p =? 1)
    (copy_file (switch_file path p) (l =? 1) (open_out fs "detailsDist.txt")).

Definition agrees (fs : files) : Prop :=
  forall name, fs !! ("data/" +:+ name) = fs0 !! ("data/" +:+ name).

Lemma agrees_read fs name :
  agrees fs -> read_lines fs ("data/" +:+ name) = read_lines fs0 ("data/" +:+ name).
Proof. intros H. unfold read_lines. by rewrite H. Qed.

Lemma agrees_open fs : agrees fs -> agrees (open_out fs "detailsDist.txt").
Proof.
  intros H name. unfold open_out. destruct (data_file_ne name) as [H1 _].
  rewrite lookup_insert_ne by (by apply not_eq_sym). apply H.
Qed.

Lemma agrees_copy fs name central : agrees fs -> agrees (copy_file name central fs).
Proof.
  intros H other. unfold copy_file. destruct (data_file_ne other).
  rewrite copy_lines_other by done. apply H.
Qed.

Lemma pair_files_spec p l fs cen :
  1 <= p <= numSwitch -> 1 <= l <= numLight -> agrees fs ->
  fs !! cen_file = Some (put_lines EmptyString cen) ->
  agrees (pair_files p l fs)
  /\ pair_files p l fs !! dist_file
     = Some (put_lines EmptyString (block_lines (sw p) ++ block_lines (li l)))
  /\ pair_files p l fs !! cen_file
     = Some (put_lines EmptyString (cen ++ (cen_blocks [(p, l)] ≫= block_lines))).
Proof.
  intros Hp Hl Hag Hcen. destruct (Hsw p Hp) as (Hswr & _). destruct (Hli l Hl) as (Hlir & _).
  unfold pair_files. set (fs1 := open_out fs "detailsDist.txt").
  assert (agrees fs1) as Hag1 by (by apply agrees_open).
  assert (read_lines fs1 (switch_file path p +:+ ".txt") = block_lines (sw p)) as Hs1.
  { rewrite <- Hswr. unfold switch_file. rewrite <- !string_app_assoc. by apply agrees_read. }
  set (fs2 := copy_file (switch_file path p) (l =? 1) fs1).
  assert (agrees fs2) as Hag2 by (by apply agrees_copy).
  assert (read_lines fs2 (light_file path l +:+ ".txt") = block_lines (li l)) as Hl2.
  { rewrite <- Hlir. unfold light_file. rewrite <- !string_app_assoc. by apply agrees_read. }
  split; [by apply agrees_copy|]. unfold copy_file at 1 2. rewrite Hl2. split.
  - rewrite <- put_lines_cat. apply copy_lines_dist. unfold fs2, copy_file. rewrite Hs1.
    apply copy_lines_dist. apply lookup_insert_eq.
  - rewrite (copy_lines_cen _ _ _ (put_lines "" (cen ++ if l =? 1 then block_lines (sw p) else []))).
    + rewrite put_lines_cat, <- app_assoc. do 3 f_equal.
      change (cen_blocks [(p, l)]) with
        (((if l =? 1 then [sw p] else []) ++ (if p =? 1 then [li l] else [])) ++ []).
      destruct (l =? 1), (p =? 1); cbn; by rewrite ?app_nil_r.
    + unfold fs2, copy_file. rewrite Hs1, <- put_lines_cat. apply copy_lines_cen.
      unfold fs1, open_out. by rewrite lookup_insert_ne.
Qed.

Lemma pair_one_line p l :
  1 <= p <= numSwitch -> 1 <= l <= numLight ->
  getlines (put_lines EmptyString (block_lines (sw p) ++ block_lines (li l)))
  = block_lines (sw p) ++ block_lines (li l).
Proof.
  intros Hp Hl. destruct (Hsw p Hp) as (Hswr & _). destruct (Hli l Hl) as (Hlir & _).
  apply getlines_put_lines. rewrite forallb_app, <- Hswr, <- Hlir.
  apply andb_true_iff. unfold read_lines.
  split; case_match; try done; apply getlines_one_line.
Qed.

Lemma pair_readFile p l fs m :
  1 <= p <= numSwitch -> 1 <= l <= numLight ->
  fs !! dist_file = Some (put_lines EmptyString (block_lines (sw p) ++ block_lines (li l))) ->
  store m = initial_store -> traceFileName m = dist_file ->
  readFile fs m = Ok (with_store m (loaded initial_store [sw p; li l])).
Proof.
  intros Hp Hl Hd Hm Hf.
  destruct (Hsw p Hp) as (_ & Hso & Hsl). destruct (Hli l Hl) as (_ & Hlo & Hll).
  eapply readFile_of_blocks; [by rewrite Hf| |forall_list| |done].
  - rewrite pair_one_line by done. cbn. by rewrite app_nil_r.
  - split; [cbn; unfold max_process; lia|]. forall_list.
Qed.

Lemma build_step seen p l rest r :
  plug_pairs = seen ++ (p, l) :: rest -> built seen r ->
  exists r', build_monitor path numSwitch numLight p l r = Ok r'
    /\ built (seen ++ [(p, l)]) r'.
Proof.
  intros Hpairs [Hdata Hcen Hmon Hlen Hnew Hold].
  assert ((p, l) ∈ plug_pairs) as Hin by (rewrite Hpairs; apply elem_of_app; right; left).
  apply plug_pairs_elem in Hin as [Hp Hl].
  assert (length seen < max_monitors)%nat as Hk.
  { pose proof plug_pairs_length as Hpl. rewrite Hpairs, length_app in Hpl. cbn in Hpl. lia. }
  destruct (pair_files_spec p l (r_fs r) _ Hp Hl Hdata Hcen) as (Hag & Hd & Hc).
  unfold build_monitor. fold (pair_files p l (r_fs r)).
  rewrite Hmon, (aget_nat _ _ (Monitor_default junk_id junk)) by (apply Hnew; lia).
  cbn [mbind res_bind].
  rewrite (pair_readFile p l) by done. cbn [mbind res_bind].
  rewrite aset_nat by lia. cbn [mbind res_bind]. eexists. split; [done|].
  split; cbn [r_fs r_mon r_monitors]; try done.
  - rewrite Hc. unfold cen_blocks. by rewrite !bind_app.
  - rewrite length_app. cbn. lia.
  - by rewrite length_insert.
  - intros k Hk'. rewrite length_app in Hk'. cbn in Hk'.
    rewrite list_lookup_insert_ne by lia. apply Hnew. lia.
  - intros k p' l' Hk'. destruct (decide (k = length seen)) as [->|Hne].
    + rewrite list_lookup_insert_eq by lia.
      rewrite lookup_app_r, Nat.sub_diag in Hk' by lia. injection Hk' as <- <-.
      eexists. split; [done|]. by cbn.
    + rewrite list_lookup_insert_ne by done. apply Hold.
      apply lookup_lt_Some in Hk' as Hkl. rewrite length_app in Hkl. cbn in Hkl.
      by rewrite lookup_app_l in Hk' by lia.
Qed.

Lemma setup_loops :
  exists r,
    for_range 1 (numSwitch + 1) (fun plug r =>
      for_range 1 (numLight + 1) (fun light r =>
        build_monitor path numSwitch numLight plug light r) r)
      {| r_fs := open_out fs0 "detailsCen.txt"; r_formC := [];
         r_monitors := replicate max_monitors (Monitor_default junk_id junk); r_mon := 0 |}
    = Ok r /\ built plug_pairs r.
Proof.
  destruct (for_in_rule built (fun '(p, l) r => build_monitor path numSwitch numLight p l r)
    plug_pairs {| r_fs := open_out fs0 "detailsCen.txt"; r_formC := [];
       r_monitors := replicate max_monitors (Monitor_default junk_id junk); r_mon := 0 |})
    as (r & He & Hb).
  - split; cbn [r_fs r_mon r_monitors]; try done.
    + intros name. unfold open_out. destruct (data_file_ne name) as [_ H2].
      by rewrite lookup_insert_ne by (by apply not_eq_sym).
    + apply lookup_insert_eq.
    + intros k Hk. apply lookup_replicate_2. lia.
  - intros seen [p l] rest s Hl Hb. by apply (build_step seen p l rest).
  - exists r. split; [|done]. rewrite <- He. unfold plug_pairs, for_range.
    rewrite for_in_bind. replace (numSwitch + 1 - 1) with numSwitch by lia.
    replace (numLight + 1 - 1) with numLight by lia.
    apply for_in_ext. intros p s _. rewrite for_in_bind. apply for_in_ext.
    intros l s' _. cbn. by destruct (build_monitor _ _ _ _ _ _).
Qed.
Lemma cen_blocks_elem b :
  b ∈ cen_blocks plug_pairs ->
  (exists p, 1 <= p <= numSwitch /\ b = sw p) \/ (exists l, 1 <= l <= numLight /\ b = li l).
Proof.
  unfold cen_blocks. intros ([p l] & Hb & [Hp Hl]%plug_pairs_elem)%list_elem_of_bind.
  apply elem_of_app in Hb as [Hb|Hb].
  - left. exists p. split; [done|]. destruct (l =? 1);
      [by apply list_elem_of_singleton in Hb|by apply elem_of_nil in Hb].
  - right. exists l. split; [done|]. destruct (p =? 1);
      [by apply list_elem_of_singleton in Hb|by apply elem_of_nil in Hb].
Qed.

Lemma cen_block_ok b :
  b ∈ cen_blocks plug_pairs ->
  block_ok b /\ (length b.2 <= max_event)%nat /\ forallb one_line (block_lines b) = true.
Proof.
  intros [(p & Hp & ->)|(l & Hl & ->)]%cen_blocks_elem.
  - destruct (Hsw p Hp) as (<- & Ho & Hle). split; [done|]. split; [done|].
    unfold read_lines. case_match; [apply getlines_one_line|done].
  - destruct (Hli l Hl) as (<- & Ho & Hle). split; [done|]. split; [done|].
    unfold read_lines. case_match; [apply getlines_one_line|done].
Qed.

Lemma cen_one_line (bs : list block) :
  (forall b, b ∈ bs -> forallb one_line (block_lines b) = true) ->
  forallb one_line (bs ≫= block_lines) = true.
Proof.
  induction bs as [|b bs IH]; intros H; [done|].
  rewrite bind_cons, forallb_app, H by left. apply IH. intros; apply H; by right.
Qed.

Lemma setup_room_built :
  (length (cen_blocks plug_pairs) <= max_process)%nat ->
  exists r cent, setup_room junk_id junk path fs0 = Ok (r, cent, numSwitch * numLight)
    /\ built plug_pairs r
    /\ store cent = loaded initial_store (cen_blocks plug_pairs)
    /\ verdicts cent = [false] /\ verdicts_mod cent = [false].
Proof.
  intros Hlen. destruct setup_loops as (r & He & Hb).
  unfold setup_room. rewrite Hcount, He. cbn [mbind res_bind].
  erewrite (readFile_of_blocks _ _ _ (cen_blocks plug_pairs)); [| |..]; cbn [mbind res_bind].
  - do 2 eexists. split; [done|]. by split.
  - apply (bu_cen _ _ Hb).
  - apply getlines_put_lines, cen_one_line. intros b Hin. by apply cen_block_ok.
  - apply Forall_forall. intros b Hin. by apply cen_block_ok.
  - split; [done|]. apply Forall_forall. intros b Hin. by apply cen_block_ok.
  - done.
Qed.
End Setup.

(** ** Termination *)

Lemma fuel_stoi s : fuel_ok (stoi s).
Proof.
  assert (forall s, fuel_ok (stoi_unsigned s)) as Hu.
  { intros [|c s']; cbn; [done|]. by destruct (digit c). }
  assert (forall s, fuel_ok (Z.opp <$> stoi_unsigned s)) as Hm.
  { intros s'. specialize (Hu s'). by destruct (stoi_unsigned s'). }
  unfold stoi. apply fuel_bind; [|intros v _; by case_match].
  destruct (skip_spaces s) as [|[[] [] [] [] [] [] [] []] s']; auto.
Qed.

#[local] Hint Resolve fuel_stoi : fuel.

Lemma fuel_readSegTrace start stop eps m : fuel_ok (readSegTrace start stop eps m).
Proof.
  unfold readSegTrace, readSegTrace_store, copy_segment, order_segment.
  fuel_tac; unfold copy_process, copy_event, order_events; fuel_tac.
  all: destruct s; fuel_tac; unfold copy_event; destruct s; fuel_tac.
Qed.

Lemma fuel_bv_const name w : fuel_ok (bv_const name w).
Proof. unfold bv_const, bv_sort. by case_match. Qed.

Lemma fuel_vec_get l i : fuel_ok (vec_get l i).
Proof. unfold vec_get. case_match; [done|]. by case_match. Qed.

Lemma fuel_int_pow2 k : fuel_ok (int_pow2 k).
Proof. unfold int_pow2. by repeat case_match. Qed.

#[local] Hint Resolve fuel_bv_const fuel_vec_get fuel_int_pow2 fuel_readSegTrace : fuel.

Lemma fuel_solveSMT check t k : fuel_ok (solveSMT check t k).
Proof.
  unfold solveSMT, solveSMT_assertions, totNumEvents, bv_sort.
  apply fuel_bind; [|done]. apply fuel_bind; [fuel_tac|]. intros tot _.
  apply fuel_bind; [unfold add_event; fuel_tac; destruct s; fuel_tac|].
  intros [ev asserts] _. fuel_tac.
  - unfold add_range. fuel_tac.
  - unfold add_order. destruct (doubling_spec (Z.to_nat (tot ^ 2)) 1 (tot ^ 2)) as (l & -> & _);
      [lia|lia|]. fuel_tac.
  - unfold add_hb. fuel_tac.
Qed.


(** ** What a segment leaves alone *)

(** [readSegTrace] writes only the segment arrays and the pairs. *)
Definition same_trace (t t' : TraceStore) : Prop :=
  EValueAll t' = EValueAll t /\ numEventAll t' = numEventAll t
  /\ numProcess t' = numProcess t.

#[global] Instance same_trace_preorder : PreOrder same_trace.
Proof.
  split; [done|]. intros t1 t2 t3 (H1 & H2 & H3) (H4 & H5 & H6).
  unfold same_trace. by rewrite H4, H5, H6.
Qed.

Lemma copy_event_frame i j s s' :
  copy_event i j s = Ok s' -> same_trace s.1 s'.1.
Proof. destruct s as [t num]. intros H. unfold copy_event in H. inv_bind. by subst s'. Qed.

Lemma copy_process_frame start stop i s s' :
  copy_process start stop i s = Ok s' -> same_trace s.1 s'.1.
Proof.
  destruct s as [t num]. intros H. unfold copy_process in H. inv_bind.
  revert H. apply (for_in_inv (fun s => same_trace t s.1)); [|done].
  intros x s1 s2 _ H1 H2%copy_event_frame. by etrans.
Qed.

Lemma readSegTrace_frame start stop eps m m' :
  readSegTrace start stop eps m = Ok m' ->
  same_trace (store m) (store m') /\ verdicts m' = verdicts m
  /\ verdicts_mod m' = verdicts_mod m /\ num_monitors m' = num_monitors m.
Proof.
  unfold readSegTrace, readSegTrace_store, copy_segment, order_segment. intros H. inv_bind.
  subst m'. subst. split; [|done]. cbn.
  match goal with |- same_trace _ (with_hb ?t _ _) => trans t; [|done] end.
  match goal with H : for_range _ _ (copy_process _ _) _ = _ |- _ => revert H end.
  apply (for_in_inv (fun s => same_trace (store m) s.1)); [|done].
  intros x s1 s2 _ H1 H2%copy_process_frame. by etrans.
Qed.

Lemma monitor_segment_frame check start stop eps m m' :
  monitor_segment check start stop eps m = Ok m' ->
  same_trace (store m) (store m') /\ verdicts m' = verdicts m.
Proof.
  unfold monitor_segment. intros H. inv_bind. subst m'. cbn.
  match goal with H : readSegTrace _ _ _ _ = _ |- _ => apply readSegTrace_frame in H as (?&?&?) end.
  done.
Qed.

(** ** The shared verdicts *)

Lemma GetVerdict_false m c m' :
  GetVerdict m c false = Ok m' -> all_false m -> all_false m'.
Proof.
  unfold GetVerdict, all_false. intros H Hm. inv_bind. subst m'. cbn.
  match goal with H : aset (verdicts m) _ _ = _ |- _ => apply aset_inv in H as [_ ->] end.
  by apply Forall_insert.
Qed.

Lemma ShareVerdict_false self m m' :
  ShareVerdict self m = Ok m' -> all_false self -> all_false m -> all_false m'.
Proof.
  intros H Hs Hm. revert H. apply (for_in_inv all_false); [|done].
  intros c m1 m2 _ H1 H. inv_bind. destruct a; inv_bind; [|by subst].
  apply aget_ok in Hb0 as [_ Hl]. rewrite (Forall_lookup_1 _ _ _ _ Hs Hl) in H.
  by apply GetVerdict_false in H.
Qed.

Definition quiet (s : list Monitor * Monitor) : Prop :=
  Forall all_false s.1 /\ all_false s.2.

Lemma aset_Forall {A} (P : A -> Prop) l i x l' :
  aset l i x = Ok l' -> Forall P l -> P x -> Forall P l'.
Proof. intros [_ ->]%aset_inv Hl Hx. by apply Forall_insert. Qed.

Lemma aget_Forall {A} (P : A -> Prop) l i x : aget l i = Ok x -> Forall P l -> P x.
Proof. intros [_ H]%aget_ok Hl. by apply (Forall_lookup_1 _ _ _ _ Hl H). Qed.

Lemma monitor_segment_at_false check start stop eps i l l' :
  monitor_segment_at check start stop eps i l = Ok l' ->
  Forall all_false l -> Forall all_false l'.
Proof.
  unfold monitor_segment_at. intros H Hl. inv_bind.
  apply (aset_Forall _ _ _ _ _ H Hl). apply monitor_segment_frame in Hb0 as [_ Hv].
  unfold all_false. rewrite Hv. by apply (aget_Forall all_false _ _ _ Hb).
Qed.

Lemma share_false i j l l' :
  share i j l = Ok l' -> Forall all_false l -> Forall all_false l'.
Proof.
  unfold share. destruct (i =? j); [by intros [= <-]|]. intros H Hl. inv_bind.
  apply (aset_Forall _ _ _ _ _ H Hl).
  apply (ShareVerdict_false _ _ _ Hb1); by eapply aget_Forall.
Qed.

Lemma share_all_false n l l' :
  share_all n l = Ok l' -> Forall all_false l -> Forall all_false l'.
Proof.
  intros H Hl. revert H. apply (for_in_inv (Forall all_false)); [|done].
  intros i l1 l2 _ Hl1. apply (for_in_inv (Forall all_false)); [|done].
  intros j l3 l4 _ Hl3 H. by apply share_false in H.
Qed.

Lemma segment_round_frame check n start stop eps s s' :
  segment_round check n start stop eps s = Ok s' ->
  same_trace (store s.2) (store s'.2) /\ (quiet s -> quiet s').
Proof.
  unfold segment_round. intros H. inv_bind. subst s'. cbn.
  apply monitor_segment_frame in Hb0 as [Hs Hv]. split; [done|].
  intros [Hl Hc]. split; cbn; [|unfold all_false; by rewrite Hv].
  apply (share_all_false _ _ _ Hb1). revert Hb.
  apply (for_in_inv (Forall all_false)); [|done].
  intros i l1 l2 _ H1 H. by apply monitor_segment_at_false in H.
Qed.

Lemma segments_frame check fuel n eps stop s s' :
  segments check fuel n eps stop s = Ok s' ->
  same_trace (store s.2) (store s'.2) /\ (quiet s -> quiet s').
Proof.
  revert stop s. induction fuel as [|fuel IH]; intros stop s H; cbn [segments] in H;
    apply bind_ok in H as (events & _ & H); destruct (stop <? events); try done;
    try by injection H as <-.
  apply bind_ok in H as (s1 & [H1 H2]%segment_round_frame & [H3 H4]%IH).
  split; [by etrans|tauto].
Qed.

Lemma build_monitor_quiet path ns nl p l r r' :
  build_monitor path ns nl p l r = Ok r' ->
  Forall all_false (r_monitors r) -> Forall all_false (r_monitors r').
Proof.
  unfold build_monitor. intros H Hl. inv_bind. subst r'. cbn.
  apply (aset_Forall _ _ _ _ _ Hb1 Hl).
  apply readFile_keeps in Hb0 as (_ & _ & Hv & _); [|apply initial_store_shape].
  unfold all_false. rewrite Hv. cbn. apply Forall_app. split.
  - by apply (aget_Forall all_false _ _ _ Hb).
  - by apply Forall_replicate.
Qed.

Lemma setup_room_quiet junk_id junk path fs r cent n :
  setup_room junk_id junk path fs = Ok (r, cent, n) ->
  quiet (r_monitors r, cent) /\ store_shape (store cent).
Proof.
  unfold setup_room. destruct (count_files path (data_paths fs)) as [ns nl].
  intros H. inv_bind. simplify_eq.
  apply readFile_keeps in Hb0 as (Hs & _ & Hv & _); [|apply initial_store_shape].
  split; [|done]. split; [|unfold all_false; cbn; rewrite Hv; cbn; forall_list].
  revert Hb. apply (for_in_inv (fun r => Forall all_false (r_monitors r))).
  - intros p r1 r2 _ H1. apply (for_in_inv (fun r => Forall all_false (r_monitors r))); [|done].
    intros l r3 r4 _ H3 H. by apply build_monitor_quiet in H.
  - cbn [r_monitors]. apply Forall_replicate. by apply Forall_nil_2.
Qed.

(** ** Termination of the segment loop *)

Lemma fuel_GetVerdict m c v : fuel_ok (GetVerdict m c v).
Proof. unfold GetVerdict. fuel_tac. Qed.

#[local] Hint Resolve fuel_solveSMT fuel_GetVerdict : fuel.

Lemma fuel_ShareVerdict self m : fuel_ok (ShareVerdict self m).
Proof. unfold ShareVerdict. fuel_tac. Qed.

#[local] Hint Resolve fuel_ShareVerdict : fuel.

Lemma fuel_monitor_segment check start stop eps m :
  fuel_ok (monitor_segment check start stop eps m).
Proof. unfold monitor_segment. fuel_tac. Qed.

#[local] Hint Resolve fuel_monitor_segment : fuel.

Lemma fuel_segment_round check n start stop eps s :
  fuel_ok (segment_round check n start stop eps s).
Proof. unfold segment_round, share_all, monitor_segment_at, share. fuel_tac. Qed.

Lemma fuel_segments check fuel n eps stop s :
  default 0 (head (numEventAll (store s.2))) <= stop + segLength * Z.of_nat fuel ->
  fuel_ok (segments check fuel n eps stop s).
Proof.
  revert stop s. induction fuel as [|fuel IH]; intros stop s Hf; cbn [segments];
    apply fuel_bind; auto with fuel; intros events [_ He]%aget_ok;
    destruct (numEventAll (store s.2)) as [|k ks] eqn:Hn; try done; injection He as ->; cbn in Hf.
  - destruct (Z.ltb_spec stop events); [unfold segLength in *; lia|done].
  - destruct (stop <? events); [|done].
    apply fuel_bind; [apply fuel_segment_round|].
    intros s1 [(_ & Hn1 & _) _]%segment_round_frame. apply IH. rewrite Hn1, Hn. cbn. unfold segLength in *. lia.
Qed.

Lemma fuel_setup_room junk_id junk path fs : fuel_ok (setup_room junk_id junk path fs).
Proof.
  assert (forall fs m, fuel_ok (readFile fs m)) as Hread.
  { intros fs' m. unfold readFile, readFile_store, readFile_line. fuel_tac. }
  unfold setup_room. case_match. unfold build_monitor. fuel_tac.
Qed.

Lemma fuel_run_room check junk_id junk path fs :
  fuel_ok (run_room check junk_id junk path fs).
Proof.
  unfold run_room. apply fuel_bind; [apply fuel_setup_room|].
  intros [[r cent] n] _. apply fuel_bind; [|done]. apply fuel_for_in. intros eps s _.
  apply fuel_segments. unfold segment_fuel, segLength. lia.
Qed.

Lemma segments_rounds check fuel n eps k s events :
  numEventAll (store s.2) !! 0%nat = Some events ->
  0 <= k -> events <= segLength * (k + Z.of_nat fuel) ->
  segments check fuel n eps (segLength * k) s
  = for_range k ((events + 3) / segLength)
      (fun k s => segment_round check n (segLength * k) (segLength * k + segLength) eps s) s.
Proof.
  revert k s. unfold segLength.
  induction fuel as [|fuel IH]; intros k s He Hk Hf; cbn [segments];
    rewrite (aget_nat _ 0 _ He : aget _ 0 = _); cbn [mbind res_bind];
    destruct (Z.ltb_spec (4 * k) events) as [Hlt|Hge]; try lia.
  - rewrite for_range_empty; [done|]. apply Z.lt_succ_r, Z.div_lt_upper_bound; lia.
  - rewrite for_range_step.
    2: { apply (Z.lt_le_trans _ (k + 1)); [lia|]. apply Z.div_le_lower_bound; lia. }
    unfold segLength. destruct (segment_round _ _ _ _ _ _) as [s1|f] eqn:E; cbn [mbind res_bind]; [|done].
    apply segment_round_frame in E as [(_ & Hn & _) _].
    replace (4 * k + 4) with (4 * (k + 1)) by lia. apply IH; [by rewrite Hn|lia|lia].
  - rewrite for_range_empty; [done|]. apply Z.lt_succ_r, Z.div_lt_upper_bound; lia.
Qed.

(** ** Rooms whose run returns *)

Lemma loaded_shape bs : Forall block_ok bs -> fits bs -> store_shape (loaded initial_store bs).
Proof.
  intros Hok Hfit. pose proof (readFile_loaded initial_store [] bs Hok Hfit) as Hr.
  cut (store_shape (loaded initial_store bs) /\ -1 <= numProcess (loaded initial_store bs)); [tauto|]. revert Hr.
  apply (for_in_inv (fun t => store_shape t /\ -1 <= numProcess t)).
  - intros line t1 t2 _ [H1 H2]. by apply readFile_line_shape.
  - rewrite <- loaded_nil. split; [by destruct initial_store_shape|done].
Qed.

(** A monitor that has read a trace of [N] events of the one process that is
    looked at, and has no happened-before pairs. *)
Record one_process (N : Z) (m : Monitor) : Prop := {
  op_shape : store_shape (store m);
  op_process : numProcess (store m) = 1;
  op_pairs : numHbSet (store m) = 0;
  op_events : numEventAll (store m) !! 0%nat = Some N;
  op_verdicts : (0 < length (verdicts_mod m))%nat
}.

Lemma one_process_segment_returns check N start eps m :
  0 <= start < N -> 0 <= eps -> one_process N m ->
  exists m', monitor_segment check start (start + segLength) eps m = Ok m' /\ one_process N m'.
Proof.
  intros Hs Heps [Hsh Hp Hh HN Hv]. pose proof (Forall_lookup_1 _ _ _ _ (shape_counts _ Hsh) HN) as HN'. cbn in HN'.
  set (first := Z.max (start - eps) 0). set (n := Z.max 0 (Z.min N (start + segLength) - first)).
  assert (seg_counts first (start + segLength) (store m) = [n]) as Hns.
  { unfold seg_counts. rewrite Hp. destruct (numEventAll (store m)) as [|k ks]; [done|]. by injection HN as ->. }
  destruct (readSegTrace_fits (store m) start (start + segLength) eps) as (t' & He & Hseg);
    fold first; rewrite ?Hns, ?hb_pairs_single; [done|rewrite Hp; unfold max_process; lia|cbn; rewrite Hh; unfold max_hb; lia|].
  fold first in Hseg. rewrite Hns, hb_pairs_single in Hseg. destruct Hseg as [Hc _ _ _ Hn (_ & Hall & Hnp) Hsh'].
  rewrite Hh in Hn. cbn in Hn. destruct (assertions_refine t' n []) as (asserts & Ha & _).
  - unfold n, first, segLength, max_event in *. lia.
  - assert (totNumEvents t' = Ok n) as Htot.
    { replace n with (sumZ [n]) by (cbn; lia). apply totNumEvents_sum; [by rewrite Hnp, Hp|exact Hc]. }
    split; [done|by rewrite Hn| | |by constructor].
    + rewrite Hn, (shape_hb _ Hsh'). lia.
    + apply Hsh'.
  - unfold monitor_segment, readSegTrace, solveSMT. rewrite He. cbn [mbind res_bind store with_store verdicts_mod]. rewrite Ha.
    cbn [mbind res_bind]. rewrite (aset_nat _ 0) by done. cbn [mbind res_bind]. eexists. split; [done|].
    split; cbn; [done|by rewrite Hnp|done|by rewrite Hall|by rewrite length_insert].
Qed.

Lemma for_range_one {S} (f : Z -> S -> res S) s : for_range 0 1 f s = f 0 s.
Proof. rewrite for_range_step by lia. destruct (f 0 s); [apply for_range_empty; lia|done]. Qed.

(** One monitor beside the central one, on the same events. *)
Definition pair_ready (N : Z) (s : list Monitor * Monitor) : Prop :=
  (exists m rest, s.1 = m :: rest /\ one_process N m) /\ one_process N s.2.

Lemma pair_round_returns check N start eps s :
  0 <= start < N -> 0 <= eps -> pair_ready N s ->
  exists s', segment_round check 1 start (start + segLength) eps s = Ok s' /\ pair_ready N s'.
Proof.
  intros Hs Heps [(m & rest & Hm & Hready) Hcent]. destruct s as [l cent]. cbn [fst snd] in *. subst l.
  destruct (one_process_segment_returns check N start eps m Hs Heps Hready) as (m' & He & Hready').
  destruct (one_process_segment_returns check N start eps cent Hs Heps Hcent) as (cent' & Hec & Hcent').
  exists (m' :: rest, cent'). split; [|split; [by exists m', rest|done]].
  unfold segment_round, share_all. rewrite !for_range_one. cbn [fst snd]. unfold monitor_segment_at.
  change (aget (m :: rest) 0) with (Ok m). cbn [mbind res_bind]. rewrite He. cbn [mbind res_bind].
  change (aset (m :: rest) 0 m') with (Ok (m' :: rest)). cbn [mbind res_bind]. by rewrite Hec.
Qed.

Lemma pair_segments_return check N eps s :
  0 <= eps -> 0 <= N -> pair_ready N s ->
  exists s', segments check (segment_fuel s.2) 1 eps 0 s = Ok s' /\ pair_ready N s'.
Proof.
  intros Heps HN Hs. pose proof (op_events _ _ (proj2 Hs)) as He.
  replace 0 with (segLength * 0) at 1 by done.
  rewrite (segments_rounds check _ 1 eps 0 s N He); [|lia|].
  2: { unfold segment_fuel, segLength. destruct (numEventAll (store s.2)) as [|k ks]; [done|]. injection He as ->. cbn. lia. }
  apply (for_range_rule (fun _ s => pair_ready N s)); [apply Z.div_pos; unfold segLength; lia|done|].
  intros k s1 Hk Hs1. apply pair_round_returns; [|done..]. split; [unfold segLength; lia|].
  destruct Hk as [_ Hk]. unfold segLength in *. pose proof (Z.mul_div_le (N + 3) 4 ltac:(lia)). lia.
Qed.

(** A central monitor without events has no segments. *)
Lemma no_segments check fuel n eps s : head (numEventAll (store s.2)) = Some 0 -> segments check fuel n eps 0 s = Ok s.
Proof.
  intros H0. destruct fuel; cbn [segments]; unfold aget; cbn; destruct (numEventAll (store s.2)) as [|k ks]; try done;
    by injection H0 as ->.
Qed.

(** The room has no pair of a switch and a light, or one of each, in files with a
    header and at most a hundred values. *)
Definition block_file (fs : files) (name : string) (b : block) : Prop :=
  read_lines fs (name +:+ ".txt") = block_lines b /\ block_ok b /\ (length b.2 <= max_event)%nat.
Definition room_ready (fs : files) (path : string) : Prop :=
  let '(numSwitch, numLight) := count_files path (data_paths fs) in
  numSwitch * numLight = 0
  \/ (numSwitch, numLight) = (1, 1)
     /\ exists sw li, block_file fs (switch_file path 1) sw /\ block_file fs (light_file path 1) li.

Lemma for_range_same {S} a b (f : Z -> S -> res S) s : (forall x, a <= x < b -> f x s = Ok s) -> for_range a b f s = Ok s.
Proof.
  intros Hf. destruct (Z_le_gt_dec a b) as [Hab|]; [|apply for_range_empty; lia].
  destruct (for_range_rule (fun _ s' => s' = s) a b f s Hab eq_refl) as (s' & He & ->); [|done].
  intros x s' Hx ->. exists s. split; [by apply Hf|done].
Qed.

Lemma setup_room_none junk_id junk path fs numSwitch numLight :
  count_files path (data_paths fs) = (numSwitch, numLight) -> numSwitch * numLight = 0 ->
  exists r cent, setup_room junk_id junk path fs = Ok (r, cent, 0) /\ r_fs r = open_out fs cen_file
    /\ store cent = loaded initial_store [].
Proof.
  intros Hc H0. unfold setup_room. rewrite Hc.
  rewrite for_range_same.
  2: { intros plug Hp. apply for_range_empty. nia. }
  cbn [mbind res_bind r_fs r_formC]. unfold readFile, read_lines, open_out.
  cbn [traceFileName setValues]. rewrite lookup_insert_eq. cbn [mbind res_bind]. rewrite H0. by eexists _, _.
Qed.

Lemma agrees_open_cen fs : agrees fs (open_out fs cen_file).
Proof.
  intros name. unfold open_out. destruct (data_file_ne name) as [_ H2]. by rewrite lookup_insert_ne by (by apply not_eq_sym).
Qed.

Lemma run_room_returns check junk_id junk path fs :
  room_ready fs path ->
  exists r, run_room check junk_id junk path fs = Ok r /\ agrees fs r.1.1.
Proof.
  unfold room_ready. destruct (count_files path (data_paths fs)) as [ns nl] eqn:Hc. intros [H0|([= -> ->] & sw & li & Hsw & Hli)].
  - destruct (setup_room_none junk_id junk path fs ns nl Hc H0) as (r & cent & He & Hfs & Hs).
    unfold run_room. rewrite He. cbn [mbind res_bind]. rewrite (for_range_same 0 6).
    2: { intros eps _. apply no_segments. cbn [snd]. by rewrite Hs. }
    cbn [mbind res_bind]. eexists. split; [done|]. cbn. rewrite Hfs. apply agrees_open_cen.
  - assert (forall p, 1 <= p <= 1 -> block_file fs (switch_file path p) sw) as Hsw1 by (intros p Hp; by replace p with 1 by lia).
    assert (forall p, 1 <= p <= 1 -> block_file fs (light_file path p) li) as Hli1 by (intros p Hp; by replace p with 1 by lia).
    destruct (setup_room_built fs path junk_id junk 1 1 (fun _ => sw) (fun _ => li) Hc Hsw1 Hli1)
      as (r & cent & He & Hb & Hs & _ & Hvm); [unfold max_monitors; lia|..].
    { change (2 <= max_process)%nat. unfold max_process. lia. }
    assert (forall m, store m = loaded initial_store [sw; li] -> (0 < length (verdicts_mod m))%nat ->
      one_process (Z.of_nat (length sw.2)) m) as Hone.
    { intros m Hm Hv. destruct Hsw as (_ & Hso & Hsl), Hli as (_ & Hlo & Hll).
      split; rewrite ?Hm; try done. apply loaded_shape; [by forall_list|].
      split; [cbn; unfold max_process; lia|by forall_list]. }
    unfold run_room. rewrite He. cbn [mbind res_bind]. change (1 * 1) with 1.
    destruct (for_range_rule (fun _ s => pair_ready (Z.of_nat (length sw.2)) s) 0 6
      (fun eps s => segments check (segment_fuel s.2) 1 eps 0 s) (r_monitors r, cent)) as ([l c] & Hr & _).
    + lia.
    + destruct (bu_old _ _ _ _ _ _ _ _ _ _ Hb 0 1 1 eq_refl) as (m & Hm & Hst & _ & _ & _ & Hv).
      split; cbn [fst snd].
      * destruct (r_monitors r) as [|m0 rest] eqn:Hl; [done|]. injection Hm as ->. exists m, rest. split; [done|].
        apply Hone; [done|]. rewrite Hv. change (0 < 1)%nat. lia.
      * apply Hone; [by rewrite Hs|]. rewrite Hvm. change (0 < 1)%nat. lia.
    + intros eps s Heps Hs'. apply pair_segments_return; [lia|lia|done].
    + rewrite Hr. cbn [mbind res_bind]. eexists. split; [done|]. cbn. exact (bu_data _ _ _ _ _ _ _ _ _ _ Hb).
Qed.

(** ** The next rooms *)

(** The counts do not depend on the order in which the files are met. *)
Lemma count_files_counts path paths acc :
  foldl (fun '(numSwitch, numLight) fileName =>
           if find_sub (path +:+ "switch") fileName then (numSwitch + 1, numLight)
           else if find_sub (path +:+ "light") fileName then (numSwitch, numLight + 1)
           else (numSwitch, numLight)) acc paths
  = (acc.1 + Z.of_nat (length (List.filter (find_sub (path +:+ "switch")) paths)),
     acc.2 + Z.of_nat (length (List.filter (fun f => negb (find_sub (path +:+ "switch") f) && find_sub (path +:+ "light") f) paths))).
Proof.
  revert acc. induction paths as [|f paths IH]; intros [ns nl]; cbn [foldl List.filter]; [by rewrite !Z.add_0_r|].
  destruct (find_sub (path +:+ "switch") f), (find_sub (path +:+ "light") f); rewrite IH; cbn [negb andb length fst snd]; f_equal; lia.
Qed.

Lemma count_files_permutation path paths paths' :
  paths ≡ₚ paths' -> count_files path paths = count_files path paths'.
Proof.
  intros Hp. unfold count_files. rewrite !count_files_counts.
  assert (forall f : string -> bool, length (List.filter f paths) = length (List.filter f paths')) as Hf; [|by rewrite !Hf].
  intros f. induction Hp as [|x l l' _ IH|x y l|l1 l2 l3 _ IH1 _ IH2]; cbn [List.filter];
    repeat destruct (f _); cbn [length]; congruence.
Qed.

Lemma data_paths_elem fs path : path ∈ data_paths fs <-> String.prefix "data/" path = true /\ is_Some (fs !! path).
Proof.
  unfold data_paths. rewrite list_elem_of_filter, list_elem_of_fmap. split.
  - intros (Hp & [x y] & -> & Hin%elem_of_map_to_list). split; [by apply Is_true_true|by exists y].
  - intros (Hp & y & Hy). split; [by apply Is_true_true|]. exists (path, y). split; [done|]. by apply elem_of_map_to_list.
Qed.

Lemma prefix_split a p : String.prefix a p = true -> exists b, p = a +:+ b.
Proof.
  revert p. induction a as [|c a IH]; intros p; [by exists p|]. destruct p as [|d p]; [done|]. cbn [String.prefix].
  destruct (Ascii.ascii_dec c d) as [->|]; [|done]. intros [b ->]%IH. by exists b.
Qed.

Lemma agrees_paths fs fs' : agrees fs fs' -> data_paths fs ≡ₚ data_paths fs'.
Proof.
  intros Ha. apply NoDup_Permutation; [apply NoDup_filter, NoDup_fst_map_to_list..|].
  intros path. rewrite !data_paths_elem. split; intros [Hp Hs]; (split; [done|]);
    apply prefix_split in Hp as [name ->]; [by rewrite Ha|by rewrite <- Ha].
Qed.

Lemma agrees_ready fs fs' path : agrees fs fs' -> room_ready fs path -> room_ready fs' path.
Proof.
  intros Ha. unfold room_ready. rewrite (count_files_permutation path _ _ (agrees_paths fs fs' Ha)).
  destruct (count_files path (data_paths fs')) as [ns nl]. intros [H0|(Heq & sw & li & (Hs & Hsb) & (Hl & Hlb))]; [by left|right].
  split; [done|]. exists sw, li. unfold block_file, switch_file, light_file in *. rewrite <- !string_app_assoc in *.
  rewrite !(agrees_read fs fs') by done. done.
Qed.

Lemma main_returns check junk_id junk fs :
  (forall path, path ∈ rooms -> room_ready fs path) -> exists fs', main check junk_id junk fs = Ok fs'.
Proof.
  intros Hready. destruct (for_in_rule (fun _ fs' => agrees fs fs')
    (fun path fs => r ← run_room check junk_id junk path fs; Ok r.1.1) rooms fs) as (fs' & He & _); [done| |by exists fs'].
  intros seen path rest fs1 Hl Ha. assert (path ∈ rooms) as Hin by (rewrite Hl; apply elem_of_app; right; left).
  destruct (run_room_returns check junk_id junk path fs1) as (r & Hr & Har); [eapply agrees_ready; [done|by apply Hready]|].
  rewrite Hr. cbn [mbind res_bind]. exists r.1.1. split; [done|]. intros name. by rewrite Har.
Qed.

(** ** Properties *)

(** C22: setting up a room with the files [switch_p] and [light_l]: the monitors
    are filled in the order of the loops, the one for a pair holds the two
    blocks of its files and the paths of the pair, and the central monitor
    holds every switch and light block exactly once, in the order met. *)
Theorem setup_room_spec fs path junk_id junk numSwitch numLight sw li :
  count_files path (data_paths fs) = (numSwitch, numLight) ->
  (forall p, 1 <= p <= numSwitch ->
     read_lines fs (switch_file path p +:+ ".txt") = block_lines (sw p)
     /\ block_ok (sw p) /\ (length (sw p).2 <= max_event)%nat) ->
  (forall l, 1 <= l <= numLight ->
     read_lines fs (light_file path l +:+ ".txt") = block_lines (li l)
     /\ block_ok (li l) /\ (length (li l).2 <= max_event)%nat) ->
  0 <= numSwitch /\ 0 <= numLight /\ numSwitch * numLight <= Z.of_nat max_monitors ->
  let pairs := plug_pairs numSwitch numLight in
  (length (cen_blocks sw li pairs) <= max_process)%nat ->
  exists r cent, setup_room junk_id junk path fs = Ok (r, cent, numSwitch * numLight)
    /\ (forall k p l, pairs !! k = Some (p, l) ->
          exists m, r_monitors r !! k = Some m
            /\ store m = loaded initial_store [sw p; li l]
            /\ subformula m = [switch_file path p; light_file path l]
            /\ vectors_ok (Z.to_nat (numSwitch * numLight)) m /\ all_false m)
    /\ store cent = loaded initial_store (cen_blocks sw li pairs).
Proof.
  intros Hc Hsw Hli Hfit pairs Hlen.
  destruct (setup_room_built fs path junk_id junk numSwitch numLight sw li Hc Hsw Hli Hfit Hlen)
    as (r & cent & He & Hb & Hs & _).
  exists r, cent. split; [done|]. split; [|done]. intros k p l Hk.
  destruct (bu_old _ _ _ _ _ _ _ _ _ _ Hb k p l Hk) as (m & Hm & H1 & H2 & _ & H3 & H4).
  exists m. split; [done|]. split; [done|]. split; [done|].
  unfold vectors_ok, all_false. rewrite H3, H4, length_replicate. split; [done|].
  by apply Forall_replicate.
Qed.

(** C1: the answers of the solver never reach a verdict. Whatever the solver
    says, after all segments of a room every verdict of every monitor is still
    [false]: the answer is stored in [verdicts_mod[0]], which only marks
    position 0 for sharing. *)
Theorem run_room_verdicts_false check junk_id junk path fs fs' l cent :
  run_room check junk_id junk path fs = Ok (fs', l, cent) ->
  Forall all_false l /\ all_false cent.
Proof.
  unfold run_room. intros H. apply bind_ok in H as ([[r c] n] & Hs & H).
  apply bind_ok in H as ([l1 c1] & Hr & [= _ <- <-]).
  apply setup_room_quiet in Hs as [Hq _]. change (quiet (l1, c1)).
  revert Hr. apply (for_in_inv quiet); [|done].
  intros eps s1 s2 _ H1 [_ H2]%segments_frame. auto.
Qed.

(** the segment loop cuts the trace of the central monitor into the windows
    [4k, 4k+4), every window is handled exactly once and in order, and there
    are as many as the events of its first process need; the fuel is never the
    reason to stop. *)
Theorem segments_windows check n eps s events :
  numEventAll (store s.2) !! 0%nat = Some events ->
  segments check (segment_fuel s.2) n eps 0 s
  = for_range 0 ((events + 3) / segLength)
      (fun k s => segment_round check n (segLength * k) (segLength * k + segLength) eps s) s.
Proof.
  intros He. rewrite <- (segments_rounds check (segment_fuel s.2) n eps 0 s events); [done|done|lia|].
  unfold segment_fuel, segLength. destruct (numEventAll (store s.2)) as [|k ks]; [done|]. injection He as ->. cbn. lia.
Qed.

(** C23: [main] ends. The loops of every room end, whatever the files hold and the
    solver answers: a segment loop takes at most as many rounds as the central
    monitor has events, a number the rounds do not change. And when every room
    has no pair of a switch and a light, or one of each in files with a header
    and at most a hundred values, the run has no fault: it returns the files. *)
Theorem main_terminates check junk_id junk fs :
  main check junk_id junk fs <> Fault OutOfFuel
  /\ ((forall path, path ∈ rooms -> room_ready fs path) -> exists fs', main check junk_id junk fs = Ok fs').
Proof.
  split; [|apply main_returns].
  apply fuel_for_in. intros path fs' _. apply fuel_bind; [apply fuel_run_room|done].
Qed.

(** C40: a monitor whose trace file has a single block (what a room gets whose
    switch or light file lacks the [_1] suffix: it is counted, but the file
    [main] opens does not exist) ends the program with the solver's exception
    at its first segment. *)
Theorem single_block_crash check fs m contents b start stop eps :
  fs !! traceFileName m = Some contents ->
  getlines contents = block_lines b -> block_ok b -> fits [b] ->
  store m = initial_store ->
  exists m1, readFile fs m = Ok m1
    /\ monitor_segment check start stop eps m1 = Fault Z3Exception.
Proof.
  intros Hf Hl Hok Hfit Hm. eexists. split.
  - apply (readFile_of_blocks fs m contents [b]); try done; [|forall_list].
    cbn. by rewrite app_nil_r.
  - unfold monitor_segment, readSegTrace, readSegTrace_store, copy_segment, order_segment.
    cbn [store with_store]. unfold loaded. cbn [length Z.of_nat].
    cbn. done.
Qed.
