(* ===== verification/Ring.v ===== *)
(** The ring of monitors of monitor.cpp: every monitor evaluates its own chain
    of observations and hands the verdicts it knows to its neighbour. Monitors
    hold pointers to each other, so the operations work on a shared heap of
    monitors; a pointer is an index of the heap. *)
From S2P Require Import Prelude.

(** ** State *)

Record Monitor := {
  id : Z;
  subformula : list string;
  observations : list bool;
  num_monitors : Z;
  verdicts : list bool;
  verdicts_mod : list bool;
  network : list nat
}.

Abbreviation heap := (list Monitor).

(** [Monitor(int, vector<string>, int)] *)
Definition Monitor_new (m_id : Z) (m_subformula : list string) (m_num_monitors : Z)
  : Monitor := {|
  id := m_id;
  subformula := m_subformula;
  observations := [];
  num_monitors := m_num_monitors;
  verdicts := replicate (Z.to_nat m_num_monitors) false;
  verdicts_mod := replicate (Z.to_nat m_num_monitors) false;
  network := []
|}.

Definition with_verdicts (m : Monitor) (v vm : list bool) : Monitor := {|
  id := id m; subformula := subformula m; observations := observations m;
  num_monitors := num_monitors m; verdicts := v; verdicts_mod := vm;
  network := network m
|}.

Definition with_observations (m : Monitor) (o : list bool) : Monitor := {|
  id := id m; subformula := subformula m; observations := o;
  num_monitors := num_monitors m; verdicts := verdicts m;
  verdicts_mod := verdicts_mod m; network := network m
|}.

Definition AddNetwork (m_network : list nat) (m : Monitor) : Monitor := {|
  id := id m; subformula := subformula m; observations := observations m;
  num_monitors := num_monitors m; verdicts := verdicts m;
  verdicts_mod := verdicts_mod m; network := m_network
|}.

(** Store a verdict and mark it, as [GetVerdict] and [Evaluate] do. *)
Definition set_verdict (m : Monitor) (position : Z) (verdict : bool) : res Monitor :=
  v ← aset (verdicts m) position verdict;
  vm ← aset (verdicts_mod m) position true;
  Ok (with_verdicts m v vm).

Definition deref (h : heap) (p : nat) : res Monitor :=
  match h !! p with Some m => Ok m | None => Fault NullPointer end.

(** A method of the object at [p] that changes the object. *)
Definition method (f : Monitor -> res Monitor) (p : nat) (h : heap) : res heap :=
  m ← deref h p; m' ← f m; Ok (<[p := m']> h).

(** ** Operations *)

Definition GetVerdict (position : Z) (verdict : bool) : nat -> heap -> res heap :=
  method (fun m => set_verdict m position verdict).

(** One turn of the loop of [ShareVerdict]; the sender is read again in every
    turn, the receiver may be the sender itself. *)
Definition share_position (self : nat) (c : Z) (h : heap) : res heap :=
  m ← deref h self;
  modified ← aget (verdicts_mod m) c;
  if (modified : bool) then
    receiver ← aget (network m) (Z.rem (id m + 1) (num_monitors m));
    verdict ← aget (verdicts m) c;
    GetVerdict c verdict receiver h
  else Ok h.

Definition ShareVerdict (self : nat) (h : heap) : res heap :=
  m ← deref h self;
  for_range 0 (to_unsigned (num_monitors m)) (share_position self) h.

(** One turn of the loop of [Evaluate]; [sub_verdict] is the vector it grows. *)
Definition evaluate_step (m : Monitor) (c : Z) (sub_verdict : list bool)
  : res (list bool) :=
  op ← aget (subformula m) (c - 1);
  o ← aget (observations m) c;
  prev ← (if c =? 1 then aget (observations m) (c - 1) else aget sub_verdict (c - 2));
  let verd := if String.eqb op "and" then o && prev else o || prev in
  Ok (sub_verdict ++ [verd]).

Definition Evaluate_monitor (m : Monitor) : res Monitor :=
  sub_verdict ← for_range 1 (Z.of_nat (length (observations m))) (evaluate_step m) [];
  verdict ← match last sub_verdict with Some v => Ok v | None => Fault EmptyVector end;
  set_verdict m (id m) verdict.

Definition Evaluate : nat -> heap -> res heap := method Evaluate_monitor.

(** The loop of [Evaluate_All] from position [c] on, with [fuel] positions left. *)
Fixpoint evaluate_all (v : list bool) (c : Z) (fuel : nat) : res bool :=
  match fuel with
  | O => Ok true
  | S fuel => b ← aget v c; if (b : bool) then evaluate_all v (c + 1) fuel else Ok false
  end.

Definition Evaluate_All (m : Monitor) : res bool :=
  evaluate_all (verdicts m) 0 (Z.to_nat (to_unsigned (num_monitors m))).

(** The two phases of [main]: all monitors evaluate, then [rounds] rounds in
    which each of them shares once. *)
Definition run_ring (rounds : Z) (h : heap) : res heap :=
  let n := Z.of_nat (length h) in
  h ← for_range 0 n (fun d h => Evaluate (Z.to_nat d) h) h;
  for_range 0 rounds (fun _ h => for_range 0 n (fun d h => ShareVerdict (Z.to_nat d) h) h) h.

(** The monitors [main] builds. *)
Definition main_heap : heap :=
  let ops := [["and"]; ["or"]; ["or"]] in
  let obs := [[true; true]; [true; true]; [false; true]] in
  let networks := [0; 1; 2]%nat in
  zip_with (fun d p => AddNetwork networks
      (with_observations (Monitor_new d p.1 3) p.2))
    [0; 1; 2] (zip ops obs).

Definition main : res bool :=
  h ← run_ring 3 main_heap;
  m1 ← deref h 0;
  Evaluate_All m1.

Example main_prints : main = Ok true.
Proof. reflexivity. Qed.

(** ** Specification of [Evaluate] *)

Definition connect (acc : bool) (p : string * bool) : bool :=
  if String.eqb p.1 "and" then p.2 && acc else p.2 || acc.

(** The chain [o0 op1 o1 op2 o2 ...] read from the left. *)
Definition chain (ops : list string) (o0 : bool) (os : list bool) : bool :=
  foldl connect o0 (zip ops os).

Lemma foldl_connect_snoc l k acc p :
  l !! k = Some p -> foldl connect acc (take (S k) l) = connect (foldl connect acc (take k l)) p.
Proof. intros H. by rewrite (take_S_r _ _ _ H), foldl_app. Qed.

Section Evaluate.
Context (m : Monitor) (o0 : bool) (os : list bool).
Context (Hobs : observations m = o0 :: os).
Let steps := zip (subformula m) os.

(** [c - 1] operators have been applied. *)
Definition evaluated (c : Z) (sub_verdict : list bool) : Prop :=
  Z.of_nat (length sub_verdict) = c - 1
  /\ (1 < c -> last sub_verdict = Some (foldl connect o0 (take (Z.to_nat (c - 1)) steps))).

Lemma evaluate_step_ok c sub_verdict :
  1 <= c <= Z.of_nat (length os) -> c <= Z.of_nat (length (subformula m)) ->
  evaluated c sub_verdict ->
  exists s, evaluate_step m c sub_verdict = Ok s /\ evaluated (c + 1) s.
Proof.
  intros Hc Hops [Hlen Hlast]. unfold evaluate_step.
  set (k := Z.to_nat (c - 1)) in *.
  destruct (lookup_lt_is_Some_2 (subformula m) k) as [op Hop]; [lia|].
  destruct (lookup_lt_is_Some_2 os k) as [o Ho]; [lia|].
  assert (steps !! k = Some (op, o)) as Hstep by (by apply lookup_zip_Some).
  rewrite (proj2 (aget_ok _ _ op)) by (split; [lia|done]). cbn [mbind res_bind].
  rewrite Hobs, (proj2 (aget_ok (o0 :: os) c o)).
  2: { split; [lia|]. assert (Z.to_nat c = S k) as -> by (unfold k; lia). exact Ho. }
  cbn [mbind res_bind].
  assert ((if c =? 1 then aget (o0 :: os) (c - 1) else aget sub_verdict (c - 2))
    = Ok (foldl connect o0 (take k steps))) as ->.
  { destruct (Z.eqb_spec c 1) as [->|Hne]; [done|].
    apply aget_ok. split; [lia|]. rewrite last_lookup in Hlast. rewrite <- Hlast by lia.
    f_equal. lia. }
  cbn [mbind res_bind]. eexists. split; [done|]. split; [rewrite length_app; cbn; lia|].
  intros _. rewrite last_snoc. assert (Z.to_nat (c + 1 - 1) = S k) as -> by (unfold k; lia).
  by rewrite (foldl_connect_snoc _ _ _ _ Hstep).
Qed.

Lemma Evaluate_chain :
  os <> [] -> (length os <= length (subformula m))%nat ->
  Evaluate_monitor m = set_verdict m (id m) (chain (subformula m) o0 os).
Proof.
  intros Hne Hops. unfold Evaluate_monitor.
  destruct (for_range_rule evaluated 1 (Z.of_nat (length (observations m)))
    (evaluate_step m) []) as (s & -> & Hlen & Hlast).
  - rewrite Hobs. cbn. lia.
  - split; cbn; lia.
  - intros c sub Hc. rewrite Hobs in Hc. cbn in Hc. apply evaluate_step_ok; lia.
  - rewrite Hobs in *. cbn [mbind res_bind length] in *.
    rewrite Hlast by (destruct os; [done|cbn; lia]). cbn [mbind res_bind].
    f_equal. unfold chain. f_equal. apply take_ge.
    unfold steps. rewrite length_zip_with. lia.
Qed.
End Evaluate.

(** ** What the monitors know *)

(** Monitor [d] has marked the positions [p] with [K d p]; a marked position
    holds the verdict [v p], the others still hold [false]. *)
Record node (N : nat) (v : nat -> bool) (known : nat -> bool) (d : nat) (m : Monitor)
  : Prop := {
  nd_id : id m = Z.of_nat d;
  nd_num : num_monitors m = Z.of_nat N;
  nd_net : network m = seq 0 N;
  nd_len : length (verdicts m) = N;
  nd_mod : verdicts_mod m = map known (seq 0 N);
  nd_val : forall p, (p < N)%nat -> verdicts m !! p = Some (known p && v p)
}.

Definition knows (N : nat) (v : nat -> bool) (K : nat -> nat -> bool) (h : heap) : Prop :=
  length h = N
  /\ forall d, (d < N)%nat -> exists m, h !! d = Some m /\ node N v (K d) d m.

Lemma node_ext N v known known' d m :
  (forall p, (p < N)%nat -> known p = known' p) -> node N v known d m -> node N v known' d m.
Proof.
  intros He [H1 H2 H3 H4 H5 H6]. split; try done.
  - rewrite H5. apply list_eq_same_length with N; rewrite ?length_map, ?length_seq; try done.
    intros i x y Hi Hx Hy. rewrite list_lookup_fmap, lookup_seq_lt in Hx, Hy by done.
    cbn in Hx, Hy. simplify_eq. by apply He.
  - intros p Hp. by rewrite <- He by done; apply H6.
Qed.

Lemma knows_ext N v K K' h :
  (forall d p, (d < N)%nat -> (p < N)%nat -> K d p = K' d p) -> knows N v K h -> knows N v K' h.
Proof.
  intros He [Hl Hn]. split; [done|]. intros d Hd. destruct (Hn d Hd) as (m & Hm & Hnode).
  exists m. split; [done|]. by apply (node_ext _ _ (K d)); [intros; apply He|].
Qed.

Lemma node_mod N v known d m p :
  node N v known d m -> (p < N)%nat -> verdicts_mod m !! p = Some (known p).
Proof.
  intros Hn Hp. rewrite (nd_mod _ _ _ _ _ Hn), list_lookup_fmap, lookup_seq_lt by done. done.
Qed.

(** Storing the right verdict at [p] extends the knowledge of the node. *)
Lemma node_set N v known d m p :
  node N v known d m -> (p < N)%nat ->
  exists m', set_verdict m (Z.of_nat p) (v p) = Ok m'
    /\ node N v (fun q => Nat.eqb q p || known q) d m'.
Proof.
  intros Hn Hp. pose proof (node_mod _ _ _ _ _ p Hn Hp) as Hmod.
  destruct Hn as [H1 H2 H3 H4 H5 H6]. apply lookup_lt_Some in Hmod.
  unfold set_verdict. rewrite !aset_nat by lia. cbn [mbind res_bind].
  eexists. split; [done|]. split; cbn; try done.
  - by rewrite length_insert.
  - apply list_eq. intros i. rewrite H5, list_lookup_fmap.
    destruct (decide (i < N)%nat) as [Hi|Hi].
    + rewrite lookup_seq_lt by done. cbn. destruct (Nat.eqb_spec i p) as [->|Hne].
      * by rewrite list_lookup_insert_eq by (by rewrite length_map, length_seq).
      * rewrite list_lookup_insert_ne, list_lookup_fmap, lookup_seq_lt by done. done.
    + rewrite !lookup_ge_None_2; rewrite ?length_insert, ?length_map, ?length_seq; try done; lia.
  - intros q Hq. destruct (Nat.eqb_spec q p) as [->|Hne].
    + rewrite list_lookup_insert_eq by lia. done.
    + rewrite list_lookup_insert_ne by done. by apply H6.
Qed.

Lemma method_ok f p h m m' :
  h !! p = Some m -> f m = Ok m' -> method f p h = Ok (<[p := m']> h).
Proof. intros Hm Hf. unfold method, deref. rewrite Hm. cbn. by rewrite Hf. Qed.

(** Replacing node [t] by one that knows [known]. *)
Lemma knows_insert N v K h t m' known :
  (t < N)%nat -> knows N v K h -> node N v known t m' ->
  knows N v (fun d q => if Nat.eqb d t then known q else K d q) (<[t := m']> h).
Proof.
  intros Ht [Hl Hn] Hm'. split; [by rewrite length_insert|]. intros d Hd.
  destruct (Nat.eqb_spec d t) as [->|Hne].
  - exists m'. by rewrite list_lookup_insert_eq by lia.
  - rewrite list_lookup_insert_ne by done. by apply Hn.
Qed.

Lemma knows_GetVerdict N v K h t p :
  (t < N)%nat -> (p < N)%nat -> knows N v K h ->
  exists h', GetVerdict (Z.of_nat p) (v p) t h = Ok h'
    /\ knows N v (fun d q => K d q || Nat.eqb d t && Nat.eqb q p) h'.
Proof.
  intros Ht Hp Hk. destruct (proj2 Hk t Ht) as (m & Hm & Hnode).
  destruct (node_set _ _ _ _ _ p Hnode Hp) as (m' & Hs & Hnode').
  exists (<[t := m']> h). split; [by apply (method_ok _ _ _ m)|].
  eapply knows_ext; [|by apply (knows_insert _ _ K _ _ _ _ Ht Hk Hnode')].
  intros d q _ _. cbn. destruct (Nat.eqb_spec d t) as [->|]; cbn.
  - by rewrite orb_comm.
  - by rewrite orb_false_r.
Qed.

(** ** Sharing *)

(** The neighbour in the ring. *)
Definition next (N d : nat) : nat := S d mod N.

(** The first [c] positions known to [d] handed to its neighbour. *)
Definition handed (N : nat) (K : nat -> nat -> bool) (d c : nat) : nat -> nat -> bool :=
  fun d' p => K d' p || Nat.eqb d' (next N d) && (Nat.ltb p c && K d p).

Definition learn (N : nat) (K : nat -> nat -> bool) (d : nat) : nat -> nat -> bool :=
  handed N K d N.

Lemma handed_self N K d c p : handed N K d c d p = K d p.
Proof. unfold handed. destruct (K d p), (Nat.eqb d (next N d)), (Nat.ltb p c); done. Qed.

Lemma share_position_ok N v K d c h :
  (d < N)%nat -> (c < N)%nat -> knows N v (handed N K d c) h ->
  exists h', share_position d (Z.of_nat c) h = Ok h' /\ knows N v (handed N K d (S c)) h'.
Proof.
  intros Hd Hc Hk. destruct (proj2 Hk d Hd) as (m & Hm & Hnode).
  assert (Nat.lt (next N d) N) as Hnext by (apply Nat.mod_upper_bound; lia).
  unfold share_position, deref. rewrite Hm. cbn [mbind res_bind].
  rewrite (aget_nat _ _ _ (node_mod _ _ _ _ _ c Hnode Hc)). cbn [mbind res_bind].
  rewrite handed_self. destruct (K d c) eqn:EK.
  - rewrite (nd_id _ _ _ _ _ Hnode), (nd_num _ _ _ _ _ Hnode), (nd_net _ _ _ _ _ Hnode).
    replace (Z.rem (Z.of_nat d + 1) (Z.of_nat N)) with (Z.of_nat (next N d)).
    2: { unfold next. rewrite Z.rem_mod_nonneg by lia. rewrite Nat2Z.inj_mod. f_equal. lia. }
    rewrite (aget_nat _ _ (next N d)) by (by apply lookup_seq). cbn [mbind res_bind].
    rewrite (aget_nat _ _ _ (nd_val _ _ _ _ _ Hnode c Hc)), handed_self, EK. cbn [mbind res_bind andb].
    destruct (knows_GetVerdict _ _ _ _ (next N d) c Hnext Hc Hk) as (h' & He & Hk').
    exists h'. split; [done|]. eapply knows_ext; [|apply Hk']. intros d' q _ _. unfold handed.
    destruct (Nat.eqb_spec q c) as [->|Hne].
    + rewrite EK. rewrite (proj2 (Nat.ltb_lt c (S c))) by lia.
      destruct (K d' c), (Nat.eqb d' (next N d)); cbn; rewrite ?orb_true_r; done.
    + replace (Nat.ltb q (S c)) with (Nat.ltb q c).
      2: { apply eq_true_iff_eq. rewrite !Nat.ltb_lt. lia. }
      by rewrite andb_false_r, orb_false_r.
  - exists h. split; [done|]. eapply knows_ext; [|apply Hk]. intros d' q _ _. unfold handed.
    destruct (Nat.eqb_spec q c) as [->|Hne]; [by rewrite EK, !andb_false_r|].
    replace (Nat.ltb q (S c)) with (Nat.ltb q c); [done|].
    apply eq_true_iff_eq. rewrite !Nat.ltb_lt. lia.
Qed.

Lemma ShareVerdict_learn N v K d h :
  (d < N)%nat -> Z.of_nat N < 2 ^ 32 -> knows N v K h ->
  exists h', ShareVerdict d h = Ok h' /\ knows N v (learn N K d) h'.
Proof.
  intros Hd HN Hk. destruct (proj2 Hk d Hd) as (m & Hm & Hnode).
  unfold ShareVerdict, deref, to_unsigned. rewrite Hm. cbn [mbind res_bind].
  rewrite (nd_num _ _ _ _ _ Hnode), Z.mod_small by lia.
  destruct (for_range_rule (fun c h => knows N v (handed N K d (Z.to_nat c)) h) 0 (Z.of_nat N)
    (share_position d) h) as (h' & He & Hk'); [lia|..].
  - eapply knows_ext; [|apply Hk]. intros d' q _ _. unfold handed.
    by rewrite andb_false_r, orb_false_r.
  - intros c h1 Hc Hk1. replace (Z.to_nat (c + 1)) with (S (Z.to_nat c)) by lia.
    pose proof (share_position_ok N v K d (Z.to_nat c) h1) as Hstep.
    rewrite Z2Nat.id in Hstep by lia. apply Hstep; [done|lia|done].
  - exists h'. split; [done|]. by rewrite Nat2Z.id in Hk'.
Qed.

(** ** Rounds *)

Definition round (N : nat) (K : nat -> nat -> bool) (d : nat) : nat -> nat -> bool :=
  foldl (learn N) K (seq 0 d).

Lemma round_S N K d : round N K (S d) = learn N (round N K d) d.
Proof. unfold round. by rewrite seq_S, foldl_app. Qed.

Lemma round_mono N K d d' p : K d' p = true -> round N K d d' p = true.
Proof.
  intros H. induction d as [|d IH]; [done|]. rewrite round_S. unfold learn, handed.
  by rewrite IH.
Qed.

Lemma learn_next N K d p :
  (p < N)%nat -> K d p = true -> learn N K d (next N d) p = true.
Proof.
  intros Hp H. unfold learn, handed. rewrite H, Nat.eqb_refl.
  rewrite (proj2 (Nat.ltb_lt p N)) by done. apply orb_true_r.
Qed.

Definition own (N : nat) (K : nat -> nat -> bool) : Prop :=
  forall d, (d < N)%nat -> K d d = true.
Definition informed (N : nat) (K : nat -> nat -> bool) (d : nat) : Prop :=
  forall p, (p < N)%nat -> K d p = true.

Lemma next_small N d : (S d < N)%nat -> next N d = S d.
Proof. intros H. unfold next. by apply Nat.mod_small. Qed.

(** Before node [d] shares in a round, it has heard from its predecessors. *)
Lemma round_heard N K d p :
  own N K -> (d < N)%nat -> (p <= d)%nat -> round N K d d p = true.
Proof.
  intros Ho Hd. induction d as [|d IH]; intros Hp.
  - assert (p = 0)%nat as -> by lia. by apply round_mono, Ho.
  - destruct (decide (p = S d)) as [->|Hne]; [by apply round_mono, Ho|].
    rewrite round_S. pose proof (learn_next N (round N K d) d p) as Hl.
    rewrite next_small in Hl by done. apply Hl; [lia|]. apply IH; lia.
Qed.

(** After one round node 0 knows everything. *)
Lemma round_first N K : own N K -> informed N (round N K N) 0.
Proof.
  intros Ho p Hp. destruct N as [|N]; [lia|]. rewrite round_S.
  pose proof (learn_next (S N) (round (S N) K N) N p) as Hl.
  unfold next in Hl. rewrite Nat.Div0.mod_same in Hl. apply Hl; [done|].
  apply round_heard; [done|lia|lia].
Qed.

Lemma round_le N K i j d p :
  (i <= j)%nat -> round N K i d p = true -> round N K j d p = true.
Proof.
  intros Hij H. induction Hij as [|j Hij IH]; [done|]. rewrite round_S.
  unfold learn, handed. by rewrite IH.
Qed.

(** After the next round all do. *)
Lemma round_second N K d : informed N K 0 -> (d < N)%nat -> informed N (round N K N) d.
Proof.
  intros H0 Hd p Hp. apply (round_le _ _ d); [lia|].
  induction d as [|d IH]; [by apply H0|].
  rewrite round_S. pose proof (learn_next N (round N K d) d p Hp) as Hl.
  rewrite next_small in Hl by done. apply Hl, IH. lia.
Qed.

Lemma share_round N v K h :
  Z.of_nat N < 2 ^ 32 -> knows N v K h ->
  exists h', for_range 0 (Z.of_nat N) (fun d h => ShareVerdict (Z.to_nat d) h) h = Ok h'
    /\ knows N v (round N K N) h'.
Proof.
  intros HN Hk.
  destruct (for_range_rule (fun d h => knows N v (round N K (Z.to_nat d)) h) 0 (Z.of_nat N)
    (fun d h => ShareVerdict (Z.to_nat d) h) h) as (h' & He & Hk'); [lia|done|..].
  - intros d h1 Hd Hk1. replace (Z.to_nat (d + 1)) with (S (Z.to_nat d)) by lia.
    rewrite round_S. apply ShareVerdict_learn; [lia|done|done].
  - exists h'. by rewrite Nat2Z.id in Hk'.
Qed.

Definition all_informed (N : nat) (K : nat -> nat -> bool) : Prop :=
  forall d, (d < N)%nat -> informed N K d.

Lemma share_rounds N v K h rounds :
  Z.of_nat N < 2 ^ 32 -> 2 <= rounds -> own N K -> knows N v K h ->
  exists h', for_range 0 rounds
      (fun _ h => for_range 0 (Z.of_nat N) (fun d h => ShareVerdict (Z.to_nat d) h) h) h = Ok h'
    /\ exists K', knows N v K' h' /\ all_informed N K'.
Proof.
  intros HN Hr Ho Hk.
  destruct (for_range_rule (fun r h => exists K, knows N v K h /\ own N K
      /\ (1 <= r -> informed N K 0) /\ (2 <= r -> all_informed N K)) 0 rounds
    (fun _ h => for_range 0 (Z.of_nat N) (fun d h => ShareVerdict (Z.to_nat d) h) h) h)
    as (h' & He & K' & Hk' & _ & _ & Hall); [lia|exists K; split; [done|]; split; [done|lia]|..].
  - intros r h1 Hr1 (K1 & Hk1 & Ho1 & H1 & H2).
    destruct (share_round _ _ _ _ HN Hk1) as (h2 & He & Hk2).
    exists h2. split; [done|]. exists (round N K1 N). split; [done|].
    split; [intros d Hd; by apply round_mono, Ho1|]. split; [intros _; by apply round_first|].
    intros Hr2 d Hd. apply round_second; [apply H1; lia|done].
  - exists h'. split; [done|]. exists K'. split; [done|]. by apply Hall.
Qed.

(** ** The local verdicts *)

Definition local_verdict (m : Monitor) : bool :=
  match observations m with
  | o0 :: os => chain (subformula m) o0 os
  | [] => false
  end.

(** Monitor [d] as [main] sets it up: nothing is known, and there are operators
    for at least two observations. *)
Record fresh (N d : nat) (m : Monitor) : Prop := {
  fr_node : node N (fun _ => false) (fun _ => false) d m;
  fr_obs : (2 <= length (observations m))%nat;
  fr_ops : (length (observations m) <= S (length (subformula m)))%nat
}.

Definition fresh_heap (h : heap) : Prop :=
  forall d m, h !! d = Some m -> fresh (length h) d m.

Definition verdict_of (h : heap) (p : nat) : bool :=
  match h !! p with Some m => local_verdict m | None => false end.

Lemma node_unknown N v known d m :
  (forall p, (p < N)%nat -> known p = false) ->
  node N (fun _ => false) (fun _ => false) d m -> node N v known d m.
Proof.
  intros Hf [H1 H2 H3 H4 H5 H6].
  apply (node_ext N v (fun _ => false)); [by intros; rewrite Hf|]. by split.
Qed.

Lemma Evaluate_fresh N v d m :
  (d < N)%nat -> fresh N d m -> v d = local_verdict m ->
  exists m', Evaluate_monitor m = Ok m' /\ node N v (fun q => Nat.eqb q d) d m'.
Proof.
  intros Hd [Hnode Hobs Hops] Hv. pose proof (node_mod _ _ _ _ _ d Hnode Hd) as Hm.
  apply (node_unknown _ v (fun _ => false)) in Hnode as Hnode'; [|done].
  destruct (node_set _ _ _ _ _ d Hnode' Hd) as (m' & Hs & Hn').
  exists m'. split.
  2: { eapply node_ext; [|apply Hn']. intros q _. apply orb_false_r. }
  rewrite <- Hs, Hv. unfold local_verdict.
  destruct (observations m) as [|o0 os] eqn:Eo; [cbn in Hobs; lia|]. cbn in Hobs, Hops.
  rewrite (Evaluate_chain m o0 os Eo), (nd_id _ _ _ _ _ Hnode); [done| |lia].
  intros ->. cbn in Hobs. lia.
Qed.

Lemma evaluate_phase h :
  fresh_heap h ->
  exists h', for_range 0 (Z.of_nat (length h)) (fun d h => Evaluate (Z.to_nat d) h) h = Ok h'
    /\ knows (length h) (verdict_of h) Nat.eqb h'.
Proof.
  intros Hf. set (N := length h).
  destruct (for_range_rule (fun d h' =>
      knows N (verdict_of h) (fun d' p => Nat.ltb d' (Z.to_nat d) && Nat.eqb d' p) h'
      /\ forall d', (Z.to_nat d <= d')%nat -> h' !! d' = h !! d')
    0 (Z.of_nat N) (fun d h => Evaluate (Z.to_nat d) h) h) as (h' & He & Hk & _); [lia|..].
  - split; [|done]. split; [done|]. intros d Hd.
    destruct (lookup_lt_is_Some_2 h d Hd) as [m Hm]. exists m. split; [done|].
    apply node_unknown; [done|apply (fr_node _ _ _ (Hf d m Hm))].
  - intros d h1 Hd [Hk Hsame]. set (k := Z.to_nat d) in *.
    assert (k < N)%nat as HkN by (unfold k; lia).
    destruct (lookup_lt_is_Some_2 h k HkN) as [m Hm].
    destruct (Evaluate_fresh N (verdict_of h) k m HkN (Hf k m Hm)) as (m' & He & Hn);
      [unfold verdict_of; by rewrite Hm|].
    exists (<[k := m']> h1). split; [apply (method_ok _ _ _ m); [by rewrite Hsame|done]|].
    replace (Z.to_nat (d + 1)) with (S k) by (unfold k; lia). split.
    + eapply knows_ext; [|apply (knows_insert _ _ _ _ k m' _ HkN Hk Hn)].
      intros d' p _ _. cbn beta. destruct (Nat.eqb_spec d' k) as [->|Hne].
      * rewrite (proj2 (Nat.ltb_lt k (S k))) by lia. apply Nat.eqb_sym.
      * f_equal. apply eq_true_iff_eq. rewrite !Nat.ltb_lt. lia.
    + intros d' Hd'. rewrite list_lookup_insert_ne by lia. apply Hsame. lia.
  - exists h'. split; [done|]. eapply knows_ext; [|apply Hk]. intros d p Hd _. cbn beta.
    by rewrite (proj2 (Nat.ltb_lt d (Z.to_nat (Z.of_nat N)))) by lia.
Qed.

(** ** The common verdict *)

Lemma forallb_map_id {A} (f : A -> bool) l : forallb Datatypes.id (map f l) = forallb f l.
Proof. induction l as [|x l IH]; [done|]. cbn. by rewrite IH. Qed.

Lemma evaluate_all_forallb v c l :
  drop c v = l -> evaluate_all v (Z.of_nat c) (length l) = Ok (forallb Datatypes.id l).
Proof.
  revert c. induction l as [|b l IH]; intros c Hl; [done|]. cbn [length evaluate_all].
  assert (v !! c = Some b) as Hb by (by rewrite <- (Nat.add_0_r c), <- lookup_drop, Hl).
  rewrite (aget_nat _ _ _ Hb). cbn [mbind res_bind forallb]. destruct b; [|done].
  replace (Z.of_nat c + 1) with (Z.of_nat (S c)) by lia. apply IH.
  replace (S c) with (c + 1)%nat by lia. by rewrite <- drop_drop, Hl.
Qed.

Lemma node_informed N v known d m :
  node N v known d m -> (forall p, (p < N)%nat -> known p = true) ->
  verdicts m = map v (seq 0 N).
Proof.
  intros Hn Hk. apply list_eq. intros p. rewrite list_lookup_fmap.
  destruct (decide (p < N)%nat) as [Hp|Hp].
  - rewrite (nd_val _ _ _ _ _ Hn p Hp), lookup_seq_lt by done. cbn. by rewrite Hk.
  - rewrite !lookup_ge_None_2; rewrite ?length_seq, ?(nd_len _ _ _ _ _ Hn); try done; lia.
Qed.

Lemma verdict_of_map h : map (verdict_of h) (seq 0 (length h)) = map local_verdict h.
Proof.
  apply list_eq. intros p. rewrite !list_lookup_fmap.
  destruct (h !! p) as [m|] eqn:E.
  - rewrite lookup_seq_lt by (by eapply lookup_lt_Some). cbn. unfold verdict_of. by rewrite E.
  - apply lookup_ge_None in E. by rewrite lookup_ge_None_2 by (by rewrite length_seq).
Qed.

(** ** Properties *)

(** [Evaluate] computes the chain of the monitor's operators from the left
    (no precedence: [and] and [or] bind alike) and stores and marks it under
    the monitor's own id; nothing else changes. *)
Theorem Evaluate_spec m o0 os :
  observations m = o0 :: os -> os <> [] -> (length os <= length (subformula m))%nat ->
  length (verdicts_mod m) = length (verdicts m) ->
  0 <= id m < Z.of_nat (length (verdicts m)) ->
  Evaluate_monitor m
  = Ok (with_verdicts m (<[Z.to_nat (id m) := chain (subformula m) o0 os]> (verdicts m))
                        (<[Z.to_nat (id m) := true]> (verdicts_mod m))).
Proof.
  intros Hobs Hne Hops Hl Hid. rewrite (Evaluate_chain m o0 os Hobs Hne Hops).
  unfold set_verdict. rewrite !aset_ok by lia. done.
Qed.

(** the errors of [Evaluate]: with fewer than two observations it takes
    [back()] of an empty vector, and with too few operators it reads past the
    end of the subformula. *)
Theorem Evaluate_errors m :
  ((length (observations m) < 2)%nat -> Evaluate_monitor m = Fault EmptyVector)
  /\ ((length (subformula m) + 1 < length (observations m))%nat ->
      Evaluate_monitor m = Fault OutOfBounds).
Proof.
  unfold Evaluate_monitor. split; intros H.
  - by rewrite for_range_empty by lia.
  - set (k := Z.of_nat (length (subformula m))).
    destruct (observations m) as [|o0 os] eqn:Hobs; [cbn in H; lia|]. cbn [length] in H |- *.
    rewrite (for_range_split (k + 1)) by lia.
    destruct (for_range_rule (evaluated m o0 os) 1 (k + 1) (evaluate_step m) [])
      as (s & -> & _); [lia|split; cbn; lia| |].
    + intros c sub Hc. apply evaluate_step_ok; [done|lia|lia].
    + cbn [mbind res_bind]. rewrite for_range_step by lia. unfold evaluate_step.
      by rewrite (aget_fault (subformula m)) by (right; unfold k; lia).
Qed.

(** C25: the ring works for any number of monitors: if every monitor starts
    with nothing known and enough operators for its observations, then after
    two or more rounds (the code runs three) every monitor holds the local
    verdicts of all monitors, and [Evaluate_All] returns their conjunction at
    each of them. *)
Theorem run_ring_agrees h rounds :
  fresh_heap h -> Z.of_nat (length h) < 2 ^ 32 -> 2 <= rounds ->
  exists h', run_ring rounds h = Ok h' /\ length h' = length h
    /\ forall m, m ∈ h' -> verdicts m = map local_verdict h
         /\ Evaluate_All m = Ok (forallb local_verdict h).
Proof.
  intros Hf HN Hr. unfold run_ring. destruct (evaluate_phase h Hf) as (h1 & -> & Hk1).
  cbn [mbind res_bind].
  assert (own (length h) Nat.eqb) as Ho by (intros d _; apply Nat.eqb_refl).
  destruct (share_rounds _ _ _ _ rounds HN Hr Ho Hk1) as (h2 & He & K & Hk & Hall).
  exists h2. split; [done|]. split; [apply Hk|]. intros m (d & Hm)%list_elem_of_lookup.
  assert (d < length h)%nat as Hd by (rewrite <- (proj1 Hk); by eapply lookup_lt_Some).
  destruct (proj2 Hk d Hd) as (m1 & Hm1 & Hn). simplify_eq.
  assert (verdicts m = map local_verdict h) as Hv
    by (by rewrite (node_informed _ _ _ _ _ Hn (Hall d Hd)), verdict_of_map).
  split; [done|]. unfold Evaluate_All, to_unsigned.
  rewrite (nd_num _ _ _ _ _ Hn), Z.mod_small, Nat2Z.id, Hv by lia.
  rewrite <- (length_map local_verdict h).
  pose proof (evaluate_all_forallb (map local_verdict h) 0 _ eq_refl) as He2.
  rewrite drop_0, forallb_map_id in He2. exact He2.
Qed.
