(* ===== verification/GetData.v ===== *)
(** [main] of get_data.cpp: every table of the database becomes a text file
    whose first line is the table's name and whose other lines are the second
    column of the rows. The database behind the MySQL client calls is a
    parameter: whether the connection succeeds, and what a query returns. *)
From S2P Require Import Prelude Text MonitorState Trace.

(** A row as [mysql_fetch_row] hands it out: a cell that is SQL NULL is a null
    pointer. *)
Abbreviation row := (list (option string)).

Record database := {
  connects : bool;
  query : string -> option (list row)   (* None: mysql_query failed *)
}.

(** [string(row[n])] *)
Definition cell_string (r : row) (n : nat) : res string :=
  match r !! n with
  | Some (Some s) => Ok s
  | Some None => Fault NullPointer
  | None => Fault OutOfBounds
  end.

(** The fetch loop: push column [n] of every row. *)
Definition fetch_column (n : nat) (rows : list row) (input : list string) : res (list string) :=
  for_in (fun r input => s ← cell_string r n; Ok (input ++ [s])) rows input.

Definition show_tables : string := "show tables from light_switch".
Definition select_all (table : string) : string := "SELECT * FROM " +:+ table.

Definition get_tables (db : database) : res (list string) :=
  match query db show_tables with
  | Some rows => fetch_column 0 rows []
  | None => Ok []
  end.

(** [details[i]] of one table: empty when its query fails. *)
Definition get_details (db : database) (table : string) : res (list string) :=
  match query db (select_all table) with
  | Some rows => fetch_column 1 rows [table]
  | None => Ok []
  end.

Definition table_file (table : string) : string := table +:+ ".txt".

(** The writing loop: one file per table. *)
Definition write_tables (tables : list (string * list string)) (fs : files) : files :=
  foldl (fun fs '(table, details) => <[table_file table := put_lines EmptyString details]> fs)
    fs tables.

Definition main (db : database) (fs : files) : res files :=
  if connects db then
    table_names ← get_tables db;
    details ← for_in (fun table details => d ← get_details db table; Ok (details ++ [d]))
                table_names [];
    Ok (write_tables (zip table_names details) fs)
  else Ok fs.

(** ** Lemmas *)

Lemma fetch_column_ok n rows vs input :
  Forall2 (fun r v => r !! n = Some (Some v)) rows vs ->
  fetch_column n rows input = Ok (input ++ vs).
Proof.
  unfold fetch_column. intros H. revert input.
  induction H as [|r v rows vs Hr _ IH]; intros input; cbn [for_in].
  - by rewrite app_nil_r.
  - unfold cell_string. rewrite Hr. cbn [mbind res_bind]. by rewrite IH, <- app_assoc.
Qed.

(** What the query of a table yields, [None] when it fails. *)
Definition table_values (db : database) (table : string) (vs : option (list string)) : Prop :=
  match query db (select_all table), vs with
  | Some rows, Some vs => Forall2 (fun r v => r !! 1%nat = Some (Some v)) rows vs
  | None, None => True
  | _, _ => False
  end.

Definition details_of (table : string) (vs : option (list string)) : list string :=
  match vs with Some vs => table :: vs | None => [] end.

Lemma get_details_ok db table vs :
  table_values db table vs -> get_details db table = Ok (details_of table vs).
Proof.
  unfold table_values, get_details. destruct (query db (select_all table)) as [rows|], vs as [vs|];
    try done. apply fetch_column_ok.
Qed.

Lemma table_file_inj a b : table_file a = table_file b -> a = b.
Proof. apply (string_app_inj ".txt"). Qed.

Lemma write_tables_other tables fs name :
  (forall t d, (t, d) ∈ tables -> table_file t <> name) ->
  write_tables tables fs !! name = fs !! name.
Proof.
  revert fs. induction tables as [|[t d] tables IH]; intros fs H; [done|].
  cbn [write_tables foldl]. fold (write_tables tables (<[table_file t:=put_lines "" d]> fs)).
  rewrite IH by (intros t' d' Ht; apply (H t' d'); by right).
  apply lookup_insert_ne. apply (H t d). left.
Qed.

Lemma write_tables_lookup tables fs t d :
  NoDup (map fst tables) -> (t, d) ∈ tables ->
  write_tables tables fs !! table_file t = Some (put_lines EmptyString d).
Proof.
  revert fs. induction tables as [|[t' d'] tables IH]; intros fs Hd Ht; [by apply elem_of_nil in Ht|].
  cbn [map fst] in Hd. apply NoDup_cons in Hd as [Hn Hd].
  cbn [write_tables foldl]. fold (write_tables tables (<[table_file t':=put_lines "" d']> fs)).
  apply elem_of_cons in Ht as [[= <- <-]|Ht]; [|by apply IH].
  rewrite write_tables_other; [apply lookup_insert_eq|].
  intros t' d' Ht He%table_file_inj. subst t'. apply Hn.
  apply list_elem_of_fmap. by exists (t, d').
Qed.

(** A database whose tables and values are as given. *)
Record holds (db : database) (content : list (string * option (list string))) : Prop := {
  ho_connects : connects db = true;
  ho_tables : exists rows, query db show_tables = Some rows
    /\ Forall2 (fun r t => r !! 0%nat = Some (Some t)) rows (map fst content);
  ho_nodup : NoDup (map fst content);
  ho_values : forall t vs, (t, vs) ∈ content -> table_values db t vs
}.

Lemma details_loop db content acc :
  (forall t vs, (t, vs) ∈ content -> table_values db t vs) ->
  for_in (fun table details => d ← get_details db table; Ok (details ++ [d]))
    (map fst content) acc
  = Ok (acc ++ map (fun p => details_of p.1 p.2) content).
Proof.
  revert acc. induction content as [|[t vs] content IH]; intros acc Hv; cbn.
  - by rewrite app_nil_r.
  - rewrite (get_details_ok _ _ vs) by (apply Hv; left). cbn.
    rewrite IH by (intros; apply Hv; by right). by rewrite <- app_assoc.
Qed.

Lemma main_writes_tables db content fs :
  holds db content ->
  main db fs = Ok (write_tables (map (fun p => (p.1, details_of p.1 p.2)) content) fs).
Proof.
  intros [Hc (rows & Hq & Hr) _ Hv]. unfold main, get_tables. rewrite Hc, Hq.
  rewrite (fetch_column_ok _ _ _ _ Hr). cbn [mbind res_bind app].
  rewrite (details_loop db content []) by done.
  cbn [mbind res_bind]. do 2 f_equal. rewrite app_nil_l. clear.
  induction content as [|p content IH]; [done|]. cbn. by f_equal.
Qed.

(** ** Properties *)

(** C36: a table read from the database and written to disk is what a monitor
    reads back: if the table's name marks it as a switch or a light and the
    values are single lines that do not, [readFile] of main.cpp loads exactly
    the values of the table as one process. *)
Theorem table_round_trip db content fs t vs m :
  holds db content -> (t, Some vs) ∈ content ->
  forallb one_line (t :: vs) = true -> block_ok (t, vs) -> (length vs <= max_event)%nat ->
  traceFileName m = table_file t -> store m = initial_store ->
  exists fs', main db fs = Ok fs'
    /\ readFile fs' m = Ok (with_store m (loaded initial_store [(t, vs)])).
Proof.
  intros Hdb Ht Hlines Hok Hlen Hname Hm. eexists. split; [by apply main_writes_tables|].
  apply (readFile_of_blocks _ _ (put_lines EmptyString (t :: vs)) [(t, vs)]).
  - rewrite Hname. apply write_tables_lookup; [by rewrite map_map; apply (ho_nodup _ _ Hdb)|].
    apply list_elem_of_fmap. by exists (t, Some vs).
  - rewrite getlines_put_lines by done. cbn. by rewrite app_nil_r.
  - forall_list.
  - split; [cbn; unfold max_process; lia|forall_list].
  - done.
Qed.

(** Only the files of the tables are written: any other file keeps its
    contents, and the file of a table whose query failed is left empty. *)
Theorem main_frame db content fs :
  holds db content ->
  exists fs', main db fs = Ok fs'
    /\ (forall name, (forall t vs, (t, vs) ∈ content -> table_file t <> name) ->
          fs' !! name = fs !! name)
    /\ (forall t, (t, None) ∈ content -> fs' !! table_file t = Some EmptyString).
Proof.
  intros Hdb. eexists. split; [by apply main_writes_tables|]. split.
  - intros name Hname. apply write_tables_other. intros t d Ht.
    apply list_elem_of_fmap in Ht as ([t' vs] & [= -> ->] & Ht). by apply (Hname t' vs).
  - intros t Ht. apply (write_tables_lookup _ _ t []).
    + rewrite map_map. apply (ho_nodup _ _ Hdb).
    + apply list_elem_of_fmap. by exists (t, None).
Qed.

(** a SQL NULL in the second column of a table stops the program: the
    string is built from a null pointer, and no file is written. *)
Theorem main_null_cell db fs table tables rows before r after :
  connects db = true ->
  get_tables db = Ok (table :: tables) ->
  query db (select_all table) = Some rows -> rows = before ++ r :: after ->
  Forall (fun r => exists s, r !! 1%nat = Some (Some s)) before ->
  r !! 1%nat = Some None ->
  main db fs = Fault NullPointer.
Proof.
  intros Hc Ht Hq -> Hb Hr. unfold main. rewrite Hc, Ht. cbn [mbind res_bind for_in].
  unfold get_details. rewrite Hq. unfold fetch_column. rewrite for_in_app.
  apply Forall_exists_Forall2_l in Hb as (vs & Hvs).
  pose proof (fetch_column_ok 1 before vs [table] Hvs) as He. unfold fetch_column in He.
  rewrite He. cbn [mbind res_bind for_in]. unfold cell_string. by rewrite Hr.
Qed.
