(* ===== verification/Bits.v ===== *)
(** Bit lists, least significant bit first, and the numbers they stand for. *)
From S2P Require Import Prelude.

(** Unsigned value. *)
Fixpoint uval (l : list bool) : Z :=
  match l with [] => 0 | b :: l => Z.b2z b + 2 * uval l end.

Definition pow2 (n : nat) : Z := 2 ^ Z.of_nat n.

Definition msb (l : list bool) : bool := List.last l false.

(** Two's-complement value. *)
Definition sval (l : list bool) : Z :=
  uval l - (if msb l then pow2 (length l) else 0).

(** ** Powers of two *)

Lemma pow2_0 : pow2 0 = 1.
Proof. done. Qed.

Lemma pow2_S n : pow2 (S n) = 2 * pow2 n.
Proof. unfold pow2. rewrite Nat2Z.inj_succ, Z.pow_succ_r; lia. Qed.

Lemma pow2_pos n : 0 < pow2 n.
Proof. unfold pow2. apply Z.pow_pos_nonneg; lia. Qed.

Lemma pow2_add n m : pow2 (n + m) = pow2 n * pow2 m.
Proof. unfold pow2. rewrite Nat2Z.inj_add, Z.pow_add_r; lia. Qed.

Lemma pow2_le n m : (n <= m)%nat -> pow2 n <= pow2 m.
Proof. intros H. unfold pow2. apply Z.pow_le_mono_r; lia. Qed.

Lemma pow2_double n : (0 < n)%nat -> pow2 n = 2 * pow2 (n - 1).
Proof. intros H. rewrite <- pow2_S. f_equal. lia. Qed.

Lemma pow2_nat_lt n : Z.of_nat n < pow2 n.
Proof. induction n as [|n IH]; [done|]. rewrite pow2_S. lia. Qed.

(** ** Unsigned value *)

Lemma uval_bounds l : 0 <= uval l < pow2 (length l).
Proof.
  induction l as [|b l IH]; cbn [uval length]; [done|].
  rewrite pow2_S. destruct b; cbn [Z.b2z]; lia.
Qed.

Lemma uval_mod l : uval l mod pow2 (length l) = uval l.
Proof. apply Z.mod_small, uval_bounds. Qed.

Lemma uval_app l1 l2 : uval (l1 ++ l2) = uval l1 + pow2 (length l1) * uval l2.
Proof.
  induction l1 as [|b l1 IH]; cbn [uval length app].
  - rewrite pow2_0. lia.
  - rewrite IH, pow2_S. lia.
Qed.

Lemma uval_snoc l b : uval (l ++ [b]) = uval l + Z.b2z b * pow2 (length l).
Proof. rewrite uval_app. cbn [uval]. lia. Qed.

Lemma uval_inj l1 l2 : length l1 = length l2 -> uval l1 = uval l2 -> l1 = l2.
Proof.
  revert l2. induction l1 as [|b1 l1 IH]; intros [|b2 l2]; cbn [length uval]; try done.
  intros Hl Hv. assert (b1 = b2 /\ uval l1 = uval l2) as [-> Hv'].
  { destruct b1, b2; cbn [Z.b2z] in Hv; split; (done || lia). }
  f_equal. apply IH; [lia|done].
Qed.

Lemma uval_replicate_false n : uval (replicate n false) = 0.
Proof. induction n as [|n IH]; cbn [replicate uval]; [done|]. rewrite IH. done. Qed.

Lemma uval_replicate_true n : uval (replicate n true) = pow2 n - 1.
Proof. induction n as [|n IH]; cbn [replicate uval]; [done|]. rewrite IH, pow2_S. cbn. lia. Qed.

Lemma uval_take n l : uval (take n l) = uval l mod pow2 n.
Proof.
  destruct (decide (n <= length l)%nat) as [Hn|Hn].
  - rewrite <- (take_drop n l) at 2. rewrite uval_app, length_take, Nat.min_l by done.
    pose proof (uval_bounds (take n l)) as Hb. rewrite length_take, Nat.min_l in Hb by done.
    rewrite Z.mul_comm, Z.mod_add by (pose proof (pow2_pos n); lia). by rewrite Z.mod_small.
  - rewrite take_ge by lia. symmetry. apply Z.mod_small.
    pose proof (uval_bounds l). pose proof (pow2_le (length l) n). lia.
Qed.

Lemma uval_drop n l : uval (drop n l) = uval l / pow2 n.
Proof.
  destruct (decide (n <= length l)%nat) as [Hn|Hn].
  - rewrite <- (take_drop n l) at 2. rewrite uval_app, length_take, Nat.min_l by done.
    pose proof (uval_bounds (take n l)) as Hb. rewrite length_take, Nat.min_l in Hb by done.
    rewrite Z.mul_comm, Z.div_add by (pose proof (pow2_pos n); lia).
    by rewrite Z.div_small.
  - rewrite drop_ge by lia. symmetry. apply Z.div_small.
    pose proof (uval_bounds l). pose proof (pow2_le (length l) n). lia.
Qed.

Lemma uval_testbit l i : Z.testbit (uval l) (Z.of_nat i) = nth i l false.
Proof.
  revert i. induction l as [|b l IH]; intros i; cbn [uval nth].
  - rewrite Z.testbit_0_l. by destruct i.
  - destruct i as [|i].
    + replace (Z.b2z b + 2 * uval l) with (2 * uval l + Z.b2z b) by lia.
      apply Z.testbit_0_r.
    + rewrite Nat2Z.inj_succ. replace (Z.b2z b + 2 * uval l) with (2 * uval l + Z.b2z b) by lia.
      rewrite Z.testbit_succ_r by lia. apply IH.
Qed.

(** The bits of a number. *)
Definition bits_of (n : nat) (v : Z) : list bool :=
  map (fun i => Z.testbit v (Z.of_nat i)) (seq 0 n).

Lemma bits_of_length n v : length (bits_of n v) = n.
Proof. unfold bits_of. by rewrite length_map, length_seq. Qed.

Lemma bits_of_S n v : bits_of (S n) v = Z.odd v :: bits_of n (v / 2).
Proof.
  unfold bits_of. cbn [seq map]. f_equal.
  rewrite <- fmap_S_seq. rewrite <- list_fmap_compose. apply map_ext. intros i.
  cbn [compose]. by rewrite Nat2Z.inj_succ, Z.div2_bits by lia.
Qed.

Lemma uval_bits_of n v : uval (bits_of n v) = v mod pow2 n.
Proof.
  revert v. induction n as [|n IH]; intros v.
  - cbn. by rewrite Z.mod_1_r.
  - rewrite bits_of_S. cbn [uval]. rewrite IH, pow2_S.
    rewrite Z.rem_mul_r by (pose proof (pow2_pos n); lia). rewrite Zmod_odd.
    destruct (Z.odd v); done.
Qed.

(** The low bit of a sum modulo a power of two. *)
Lemma mod_cons o M P : 0 < P -> (Z.b2z o + 2 * M) mod (2 * P) = Z.b2z o + 2 * (M mod P).
Proof.
  intros HP. rewrite Z.rem_mul_r by lia.
  replace (Z.b2z o + 2 * M) with (Z.b2z o + M * 2) by lia.
  rewrite Z.mod_add, Z.div_add by lia. by destruct o.
Qed.

Lemma mod_low lo M P Q : 0 <= lo < P -> 0 < Q -> (lo + P * M) mod (P * Q) = lo + P * (M mod Q).
Proof.
  intros Hlo HQ. rewrite Z.rem_mul_r by lia.
  rewrite (Z.mul_comm P M), Z.mod_add, Z.div_add by lia.
  by rewrite (Z.mod_small lo), (Z.div_small lo), Z.add_0_l by lia.
Qed.

(** Sum of three bits. *)
Lemma full_adder_sum a b c :
  Z.b2z (xorb a (xorb b c)) + 2 * Z.b2z ((a && b) || (a && c) || (b && c))
  = Z.b2z a + Z.b2z b + Z.b2z c.
Proof. by destruct a, b, c. Qed.

(** Rewriting both sides of a congruence modulo [m]: it is enough that the
    difference is a multiple of [m]. *)
Lemma mod_eq a b m k : a = b + k * m -> a mod m = b mod m.
Proof. intros ->. apply Z_mod_plus_full. Qed.

(** ** Signed value *)

Lemma msb_snoc l b : msb (l ++ [b]) = b.
Proof. unfold msb. apply List.last_last. Qed.

Lemma msb_uval l : msb l = true <-> (0 < length l)%nat /\ pow2 (length l - 1) <= uval l.
Proof.
  destruct l as [|b l _] using rev_ind; [cbn; split; [done|lia]|].
  rewrite msb_snoc, length_app, uval_snoc. cbn [length]. rewrite Nat.add_sub.
  pose proof (uval_bounds l). split.
  - intros ->. cbn. lia.
  - intros [_ Hle]. destruct b; [done|]. cbn in Hle. lia.
Qed.

Lemma msb_false_uval l : (0 < length l)%nat -> msb l = false <-> uval l < pow2 (length l - 1).
Proof. intros Hl. rewrite <- not_true_iff_false, msb_uval. lia. Qed.

Lemma sval_bounds l :
  (0 < length l)%nat -> - pow2 (length l - 1) <= sval l < pow2 (length l - 1).
Proof.
  intros Hl. unfold sval. pose proof (uval_bounds l) as Hb. pose proof (pow2_double _ Hl).
  destruct (msb l) eqn:Em.
  - apply msb_uval in Em as [_ Hm]. lia.
  - apply msb_false_uval in Em; [|done]. lia.
Qed.

Lemma bits_of_mod n v : bits_of n (v mod pow2 n) = bits_of n v.
Proof. apply uval_inj; [by rewrite !bits_of_length|]. by rewrite !uval_bits_of, Zmod_mod. Qed.

Lemma sval_uval_mod l : sval l mod pow2 (length l) = uval l.
Proof.
  rewrite <- (uval_mod l). unfold sval.
  apply (mod_eq _ _ _ (if msb l then -1 else 0)). destruct (msb l); lia.
Qed.

Lemma sval_neg l : (0 < length l)%nat -> sval l < 0 <-> msb l = true.
Proof.
  intros Hl. pose proof (sval_bounds l Hl). pose proof (uval_bounds l). unfold sval in *.
  destruct (msb l); [|lia]. split; [done|lia].
Qed.

(** ** Bitwise operations *)

Lemma uval_cons_testbit b v i :
  0 <= i -> Z.testbit (Z.b2z b + 2 * v) i = if i =? 0 then b else Z.testbit v (i - 1).
Proof.
  intros Hi. replace (Z.b2z b + 2 * v) with (2 * v + Z.b2z b) by lia.
  destruct (Z.eqb_spec i 0) as [->|Hne]; [apply Z.testbit_0_r|].
  replace i with (Z.succ (i - 1)) at 1 by lia. by rewrite Z.testbit_succ_r by lia.
Qed.

Section Bitwise.
(** A bitwise operation on integers and the Boolean function it applies. *)
Context (op : Z -> Z -> Z) (f : bool -> bool -> bool).
Context (op_spec : forall u v i, Z.testbit (op u v) i = f (Z.testbit u i) (Z.testbit v i)).

Lemma uval_zip_with l1 l2 :
  op 0 0 = 0 -> length l1 = length l2 -> uval (zip_with f l1 l2) = op (uval l1) (uval l2).
Proof.
  intros op_0. revert l2. induction l1 as [|x l1 IH]; intros [|y l2]; try done.
  cbn [length]. intros [= Hl]. cbn [zip_with uval]. rewrite IH by done.
  apply Z.bits_inj'. intros i Hi. rewrite op_spec, !uval_cons_testbit, op_spec by done.
  by destruct (i =? 0).
Qed.
End Bitwise.

Lemma uval_negb l : uval (map negb l) = pow2 (length l) - 1 - uval l.
Proof.
  induction l as [|b l IH]; cbn [map uval length]; [done|].
  rewrite IH, pow2_S. destruct b; cbn; lia.
Qed.

(** ** Finite sums and the convolution of two bit lists *)

Definition sum (f : nat -> Z) (n : nat) : Z := foldr (fun k acc => f k + acc) 0 (seq 0 n).

Lemma sum_front f n : sum f (S n) = f 0%nat + sum (fun k => f (S k)) n.
Proof.
  unfold sum. cbn [seq foldr]. f_equal. rewrite <- fmap_S_seq.
  induction (seq 0 n) as [|k l IH]; [done|]. cbn. by rewrite IH.
Qed.

Lemma sum_end f n : sum f (S n) = sum f n + f n.
Proof.
  revert f. induction n as [|n IH]; intros f; [cbn; lia|].
  rewrite sum_front, IH, (sum_front f n). lia.
Qed.

Lemma sum_ext f g n : (forall k, (k < n)%nat -> f k = g k) -> sum f n = sum g n.
Proof.
  intros He. induction n as [|n IH]; [done|]. rewrite !sum_end, IH by (intros; apply He; lia).
  f_equal. apply He. lia.
Qed.

Lemma sum_add f g n : sum (fun k => f k + g k) n = sum f n + sum g n.
Proof. induction n as [|n IH]; [done|]. rewrite !sum_end, IH. lia. Qed.

Lemma sum_scale c f n : sum (fun k => c * f k) n = c * sum f n.
Proof. induction n as [|n IH]; [cbn; lia|]. rewrite !sum_end, IH. lia. Qed.

Definition nthz (l : list bool) (i : nat) : Z := Z.b2z (nth i l false).

Lemma uval_sum n l : sum (fun k => pow2 k * nthz l k) n = uval l mod pow2 n.
Proof.
  revert l. induction n as [|n IH]; intros l; [by rewrite Z.mod_1_r|].
  rewrite sum_front. destruct l as [|b l].
  - rewrite Z.mod_0_l by (pose proof (pow2_pos (S n)); lia).
    rewrite (sum_ext _ (fun k => 0 * 0)).
    + rewrite sum_scale. done.
    + intros k _. unfold nthz. by rewrite Z.mul_0_r.
  - rewrite pow2_S. cbn [uval]. rewrite mod_cons by apply pow2_pos. rewrite <- IH, <- sum_scale.
    rewrite pow2_0. unfold nthz at 1. cbn [nth]. rewrite Z.mul_1_l. f_equal.
    apply sum_ext. intros k _. rewrite pow2_S. unfold nthz. cbn. lia.
Qed.

(** Column [k] of the product: the pairs of bits whose positions add up to [k]. *)
Definition column_sum (a b : list bool) (k : nat) : Z :=
  sum (fun j => nthz a j * nthz b (k - j)) (S k).

Lemma column_sum_cons x a b k :
  column_sum (x :: a) b (S k) = Z.b2z x * nthz b (S k) + column_sum a b k.
Proof. unfold column_sum. rewrite sum_front. done. Qed.

Lemma convolution n a b :
  sum (fun k => pow2 k * column_sum a b k) n mod pow2 n = (uval a * uval b) mod pow2 n.
Proof.
  revert n. induction a as [|x a IH]; intros n.
  - rewrite (sum_ext _ (fun k => 0 * 0)); [by rewrite sum_scale|].
    intros k _. unfold column_sum. rewrite (sum_ext _ (fun j => 0 * 0)); [rewrite sum_scale; lia|].
    intros j _. unfold nthz at 1. by destruct j.
  - assert (sum (fun k => pow2 k * column_sum (x :: a) b k) n
      = Z.b2z x * (uval b mod pow2 n)
        + sum (fun k => pow2 (S k) * column_sum a b k) (n - 1)) as ->.
    { rewrite <- uval_sum, <- sum_scale. destruct n as [|n]; [done|].
      rewrite !sum_front, Nat.sub_succ, Nat.sub_0_r.
      rewrite (sum_ext (fun k => pow2 (S k) * column_sum (x :: a) b (S k))
        (fun k => Z.b2z x * (pow2 (S k) * nthz b (S k)) + pow2 (S k) * column_sum a b k)).
      - rewrite sum_add. unfold column_sum at 1. rewrite sum_front. cbn [sum seq foldr].
        rewrite pow2_0. unfold nthz at 1. cbn [nth Nat.sub]. lia.
      - intros k _. rewrite column_sum_cons. lia. }
    destruct n as [|n]; [by rewrite !Z.mod_1_r|].
    rewrite Nat.sub_succ, Nat.sub_0_r.
    rewrite (sum_ext _ (fun k => 2 * (pow2 k * column_sum a b k))).
    2: { intros k _. rewrite pow2_S. lia. }
    rewrite sum_scale. specialize (IH n).
    pose proof (pow2_pos n). pose proof (pow2_pos (S n)).
    set (T := sum _ n) in *. pose proof (Z.div_mod T (pow2 n)).
    pose proof (Z.div_mod (uval a * uval b) (pow2 n)).
    pose proof (Z.div_mod (uval b) (pow2 (S n))).
    apply (mod_eq _ _ _ (T / pow2 n - uval a * uval b / pow2 n - Z.b2z x * (uval b / pow2 (S n)))).
    cbn [uval]. rewrite pow2_S in *. nia.
Qed.
