(* ===== verification/Gates.v ===== *)
(** The interface between Z3's bit-blaster template and its configuration:
    [bit_blaster_tpl<Cfg>] builds circuits from the Boolean constructors of
    [Cfg] and promises arithmetic; the configuration promises that every
    constructor denotes its Boolean function. Circuits are proved against this
    interface, the configurations discharge it. *)
From S2P Require Import Prelude Bits.

(** The constructors "Cfg required API" of bit_blaster_tpl.h, with the tests
    and constants of the [ast_manager] the template calls. *)
Class Gates (E : Type) := {
  mk_true : E;
  mk_false : E;
  is_true : E -> bool;
  is_false : E -> bool;
  mk_not : E -> E;
  mk_xor : E -> E -> E;
  mk_iff : E -> E -> E;
  mk_and : E -> E -> E;
  mk_or : E -> E -> E;
  mk_nand : E -> E -> E;
  mk_nor : E -> E -> E;
  mk_and_n : list E -> E;
  mk_or_n : list E -> E;
  mk_xor3 : E -> E -> E -> E;
  mk_carry : E -> E -> E -> E;
  mk_ite : E -> E -> E -> E;
  mk_ge2 : E -> E -> E -> E;
  ast_mk_ite : E -> E -> E -> E      (* m().mk_ite: no simplification *)
}.

Definition majority (a b c : bool) : bool := (a && b) || (a && c) || (b && c).

(** What a configuration promises, for one assignment of the atoms. *)
Class GatesOk {E} `{Gates E} (eval : E -> bool) : Prop := {
  eval_true : eval mk_true = true;
  eval_false : eval mk_false = false;
  is_true_true : is_true mk_true = true;
  is_false_false : is_false mk_false = true;
  eval_is_true : forall a, is_true a = true -> eval a = true;
  eval_is_false : forall a, is_false a = true -> eval a = false;
  eval_not : forall a, eval (mk_not a) = negb (eval a);
  eval_xor : forall a b, eval (mk_xor a b) = xorb (eval a) (eval b);
  eval_iff : forall a b, eval (mk_iff a b) = Bool.eqb (eval a) (eval b);
  eval_and : forall a b, eval (mk_and a b) = eval a && eval b;
  eval_or : forall a b, eval (mk_or a b) = eval a || eval b;
  eval_nand : forall a b, eval (mk_nand a b) = negb (eval a && eval b);
  eval_nor : forall a b, eval (mk_nor a b) = negb (eval a || eval b);
  eval_and_n : forall l, eval (mk_and_n l) = forallb eval l;
  eval_or_n : forall l, eval (mk_or_n l) = existsb eval l;
  eval_xor3 : forall a b c, eval (mk_xor3 a b c) = xorb (eval a) (xorb (eval b) (eval c));
  eval_carry : forall a b c, eval (mk_carry a b c) = majority (eval a) (eval b) (eval c);
  eval_ite : forall c t e, eval (mk_ite c t e) = if eval c then eval t else eval e;
  eval_ge2 : forall a b c, eval (mk_ge2 a b c) = majority (eval a) (eval b) (eval c);
  eval_ast_ite : forall c t e, eval (ast_mk_ite c t e) = if eval c then eval t else eval e
}.

(** Push [eval] through the constructors. *)
Ltac gates :=
  repeat first
    [ rewrite eval_true | rewrite eval_false | rewrite eval_not | rewrite eval_xor
    | rewrite eval_iff | rewrite eval_and | rewrite eval_or | rewrite eval_nand
    | rewrite eval_nor | rewrite eval_and_n | rewrite eval_or_n | rewrite eval_xor3
    | rewrite eval_carry | rewrite eval_ite | rewrite eval_ge2 | rewrite eval_ast_ite ].

(** The configuration whose expressions are their own values. *)
#[global] Instance bool_gates : Gates bool := {|
  mk_true := true; mk_false := false; is_true := fun a => a; is_false := negb;
  mk_not := negb; mk_xor := xorb; mk_iff := Bool.eqb; mk_and := andb; mk_or := orb;
  mk_nand := fun a b => negb (a && b); mk_nor := fun a b => negb (a || b);
  mk_and_n := forallb (fun b => b); mk_or_n := existsb (fun b => b);
  mk_xor3 := fun a b c => xorb a (xorb b c); mk_carry := majority;
  mk_ite := fun c t e : bool => if c then t else e; mk_ge2 := majority;
  ast_mk_ite := fun c t e : bool => if c then t else e
|}.

#[global] Instance bool_gates_ok : GatesOk (fun b : bool => b).
Proof. split; try done. intros a. by destruct a. Qed.

(** ** Evaluating bit vectors of expressions *)

(** [bits[i]]; the callers stay inside the vector. *)
Definition bit {E} `{Gates E} (l : list E) (i : nat) : E := nth i l mk_false.

Definition top {E} `{Gates E} (l : list E) : E := List.last l mk_false.

Section Eval.
Context {E : Type} `{Gates E} (eval : E -> bool) `{!GatesOk eval}.

(** Unsigned and signed value of a vector of expressions. *)
Definition uv (l : list E) : Z := uval (map eval l).
Definition sv (l : list E) : Z := sval (map eval l).

Lemma uv_bounds l : 0 <= uv l < pow2 (length l).
Proof. unfold uv. rewrite <- (length_map eval l). apply uval_bounds. Qed.

Lemma uv_cons a l : uv (a :: l) = Z.b2z (eval a) + 2 * uv l.
Proof. done. Qed.

Lemma uv_app l1 l2 : uv (l1 ++ l2) = uv l1 + pow2 (length l1) * uv l2.
Proof. unfold uv. by rewrite map_app, uval_app, length_map. Qed.

Lemma uv_snoc l a : uv (l ++ [a]) = uv l + Z.b2z (eval a) * pow2 (length l).
Proof. rewrite uv_app. cbn. lia. Qed.

Lemma uv_take n l : uv (take n l) = uv l mod pow2 n.
Proof. unfold uv. by rewrite <- uval_take, firstn_map. Qed.

Lemma uv_drop n l : uv (drop n l) = uv l / pow2 n.
Proof. unfold uv. by rewrite <- uval_drop, skipn_map. Qed.

Lemma uv_mod l : uv l mod pow2 (length l) = uv l.
Proof. apply Z.mod_small, uv_bounds. Qed.

Lemma eval_nth l i : eval (bit l i) = nth i (map eval l) false.
Proof. unfold bit. rewrite <- eval_false. by rewrite map_nth. Qed.

Lemma uv_testbit l i : Z.testbit (uv l) (Z.of_nat i) = eval (bit l i).
Proof. unfold uv. by rewrite uval_testbit, eval_nth. Qed.

Lemma eval_top l : eval (top l) = msb (map eval l).
Proof.
  unfold top, msb. rewrite <- eval_false. generalize mk_false. intros d.
  induction l as [|a [|b l] IH]; [done|done|]. exact IH.
Qed.

Lemma sv_uv l : sv l = uv l - (if eval (top l) then pow2 (length l) else 0).
Proof. unfold sv, sval. by rewrite length_map, eval_top. Qed.

Lemma uv_replicate_false n : uv (replicate n mk_false) = 0.
Proof.
  induction n as [|n IH]; cbn [replicate]; [done|]. by rewrite uv_cons, IH, eval_false.
Qed.
End Eval.
