(* ===== verification/BlastArith.v ===== *)
(** bit_blaster_tpl: numerals, adders, negation, subtraction, multiplexers and
    the bitwise operations. A vector [expr * const * a_bits] of [sz] bits is a
    list of length [sz]; the loops over its bits are recursions on the list.
    [checkpoint], which may abandon a run on a resource limit, is left out. *)
From S2P Require Import Prelude Bits Gates.

Section Circuits.
Context {E : Type} `{Gates E}.

(** ** Numerals *)

Definition is_bool_const (e : E) : bool := is_true e || is_false e.

Definition is_numeral_bits (bits : list E) : bool := forallb is_bool_const bits.

(** The loop from bit [i] on, with the sum [r] so far. *)
Fixpoint is_numeral_loop (i : nat) (r : Z) (bits : list E) : option Z :=
  match bits with
  | [] => Some r
  | b :: bits =>
      if is_true b then is_numeral_loop (S i) (r + pow2 i) bits
      else if negb (is_false b) then None
      else is_numeral_loop (S i) r bits
  end.
Definition is_numeral (bits : list E) : option Z := is_numeral_loop 0 0 bits.

Definition is_minus_one (bits : list E) : bool := forallb is_true bits.

Definition bool_bit (b : bool) : E := if b then mk_true else mk_false.

(** [_num2bits]: 32 bits at a time while more than 32 are left. *)
Fixpoint num2bits_loop (fuel : nat) (aux : Z) (left : nat) : list E :=
  match fuel, left with
  | O, _ | _, O => []
  | S fuel, S left' =>
      if Nat.ltb 32 left then
        let u := aux mod 2 ^ 32 in
        map (fun j => bool_bit (negb (Z.land u (Z.shiftl 1 (Z.of_nat j)) =? 0))) (seq 0 32)
          ++ num2bits_loop fuel (aux / 2 ^ 32) (left - 32)
      else bool_bit (negb (aux mod 2 =? 0)) :: num2bits_loop fuel (aux / 2) left'
  end.
Definition num2bits (v : Z) (sz : nat) : list E := num2bits_loop sz v sz.

(** ** Adders *)

Definition mk_half_adder (a b : E) : E * E := (mk_xor a b, mk_and a b).
Definition mk_full_adder (a b cin : E) : E * E := (mk_xor3 a b cin, mk_carry a b cin).

(** The carry of the last bit is not built. *)
Fixpoint neg_loop (cin : E) (a : list E) : list E :=
  match a with
  | [] => []
  | [x] => [mk_xor (mk_not x) cin]
  | x :: a => let '(out, cout) := mk_half_adder (mk_not x) cin in out :: neg_loop cout a
  end.
Definition mk_neg (a : list E) : list E := neg_loop mk_true a.

Fixpoint adder_loop (cin : E) (a b : list E) : list E :=
  match a, b with
  | [x], y :: _ => [mk_xor3 x y cin]
  | x :: a, y :: b => let '(out, cout) := mk_full_adder x y cin in out :: adder_loop cout a b
  | _, _ => []
  end.
Definition mk_adder (a b : list E) : list E := adder_loop mk_false a b.

(** Bits of the difference, and the last carry: set when nothing is borrowed. *)
Fixpoint subtracter_loop (cin : E) (a b : list E) : list E * E :=
  match a, b with
  | x :: a, y :: b =>
      let '(out, cout) := mk_full_adder x (mk_not y) cin in
      let '(outs, last) := subtracter_loop cout a b in (out :: outs, last)
  | _, _ => ([], cin)
  end.
Definition mk_subtracter (a b : list E) : list E * E := subtracter_loop mk_true a b.

Definition mk_carry_save_adder (a b c : list E) : list E * list E :=
  let abc := zip a (zip b c) in
  (map (fun '(x, (y, z)) => mk_xor3 x y z) abc, map (fun '(x, (y, z)) => mk_carry x y z) abc).

(** ** Selection *)

Definition mk_multiplexer (c : E) (t e : list E) : list E := zip_with (mk_ite c) t e.

Definition mk_abs (a : list E) : list E :=
  if is_false (top a) then a
  else if is_true (top a) then mk_neg a
  else mk_multiplexer (top a) (mk_neg a) a.

(** ** Bitwise operations, extensions *)

Definition mk_not_bits (a : list E) : list E := map mk_not a.
Definition mk_and_bits : list E -> list E -> list E := zip_with mk_and.
Definition mk_or_bits : list E -> list E -> list E := zip_with mk_or.
Definition mk_xor_bits : list E -> list E -> list E := zip_with mk_xor.
Definition mk_xnor_bits : list E -> list E -> list E := zip_with mk_iff.
Definition mk_nand_bits : list E -> list E -> list E := zip_with mk_nand.
Definition mk_nor_bits : list E -> list E -> list E := zip_with mk_nor.

Definition mk_redand (a : list E) : list E := [mk_and_n a].
Definition mk_redor (a : list E) : list E := [mk_or_n a].

Definition mk_sign_extend (a : list E) (n : nat) : list E := a ++ replicate n (top a).
Definition mk_zero_extend (a : list E) (n : nat) : list E := a ++ replicate n mk_false.
End Circuits.

Section Correct.
Context {E : Type} `{Gates E} (eval : E -> bool) `{!GatesOk eval}.

(** ** Lengths *)

Lemma neg_loop_length cin a : length (neg_loop cin a) = length a.
Proof.
  revert cin. induction a as [|x [|y a] IH]; intros cin; [done|done|].
  cbn [neg_loop mk_half_adder length] in *. f_equal. apply IH.
Qed.

Lemma mk_neg_length a : length (mk_neg a) = length a.
Proof. apply neg_loop_length. Qed.

Lemma adder_loop_length cin a b : length a = length b -> length (adder_loop cin a b) = length a.
Proof.
  revert cin b. induction a as [|x [|x' a] IH]; intros cin [|y b]; try done.
  cbn [adder_loop mk_full_adder length] in *. intros [= Hl]. f_equal. by apply IH.
Qed.

Lemma mk_adder_length a b : length a = length b -> length (mk_adder a b) = length a.
Proof. apply adder_loop_length. Qed.

Lemma subtracter_loop_length cin a b :
  length a = length b -> length (subtracter_loop cin a b).1 = length a.
Proof.
  revert cin b. induction a as [|x a IH]; intros cin [|y b]; try done.
  cbn [subtracter_loop mk_full_adder length]. intros [= Hl].
  specialize (IH (mk_carry x (mk_not y) cin) b Hl).
  destruct (subtracter_loop _ a b) as [outs last]. cbn in *. by f_equal.
Qed.

Lemma mk_subtracter_length a b : length a = length b -> length (mk_subtracter a b).1 = length a.
Proof. apply subtracter_loop_length. Qed.

Lemma mk_multiplexer_length c t e :
  length t = length e -> length (mk_multiplexer c t e) = length t.
Proof. intros Hl. unfold mk_multiplexer. rewrite length_zip_with. lia. Qed.

Lemma mk_abs_length a : length (mk_abs a) = length a.
Proof.
  unfold mk_abs. repeat case_match; [done|apply mk_neg_length|].
  rewrite mk_multiplexer_length; apply mk_neg_length.
Qed.

(** ** Numerals *)

Lemma is_numeral_loop_uv i r bits v :
  is_numeral_loop i r bits = Some v -> v = r + pow2 i * uv eval bits.
Proof.
  revert i r. induction bits as [|b bits IH]; intros i r; cbn [is_numeral_loop].
  - intros [= <-]. cbn. lia.
  - rewrite uv_cons. destruct (is_true b) eqn:Et.
    + intros ->%IH. rewrite (eval_is_true b) by done. cbn. rewrite pow2_S. lia.
    + destruct (is_false b) eqn:Ef; cbn [negb]; [|done].
      intros ->%IH. rewrite (eval_is_false b) by done. cbn. rewrite pow2_S. lia.
Qed.

Lemma is_numeral_uv bits v : is_numeral bits = Some v -> uv eval bits = v.
Proof. intros ->%is_numeral_loop_uv. rewrite pow2_0. lia. Qed.

Lemma is_minus_one_uv bits :
  is_minus_one bits = true -> uv eval bits = pow2 (length bits) - 1.
Proof.
  unfold is_minus_one. induction bits as [|b bits IH]; cbn [forallb length]; [done|].
  intros [Hb Hr]%andb_true_iff. rewrite uv_cons, pow2_S, IH, (eval_is_true b) by done.
  cbn. lia.
Qed.

Lemma eval_bool_bit b : eval (bool_bit b) = b.
Proof. destruct b; cbn; [apply eval_true|apply eval_false]. Qed.

Lemma odd_test v : negb (v mod 2 =? 0) = Z.odd v.
Proof. rewrite Zmod_odd. by destruct (Z.odd v). Qed.

Lemma mask_test u j : 0 <= j -> negb (Z.land u (Z.shiftl 1 j) =? 0) = Z.testbit u j.
Proof.
  intros Hj. rewrite Z.shiftl_1_l. destruct (Z.testbit u j) eqn:Et.
  - apply negb_true_iff, Z.eqb_neq. intros Hz.
    assert (Z.testbit (Z.land u (2 ^ j)) j = true) as Hb
      by (rewrite Z.land_spec, Et, Z.pow2_bits_true by done; done).
    by rewrite Hz, Z.testbit_0_l in Hb.
  - apply negb_false_iff, Z.eqb_eq. apply Z.bits_inj_0. intros k.
    rewrite Z.land_spec. destruct (decide (k = j)) as [->|Hne]; [by rewrite Et|].
    by rewrite Z.pow2_bits_false, andb_false_r.
Qed.

Lemma bits_of_split n k v :
  (k <= n)%nat -> bits_of n v = bits_of k (v mod pow2 k) ++ bits_of (n - k) (v / pow2 k).
Proof.
  intros Hk. unfold bits_of. replace n with (k + (n - k))%nat at 1 by lia.
  rewrite seq_app, map_app. f_equal.
  - apply map_ext_in. intros i [_ Hi]%in_seq. symmetry. unfold pow2.
    apply Z.mod_pow2_bits_low. lia.
  - rewrite Nat.add_0_l, <- (Nat.add_0_r k) at 1. rewrite <- fmap_add_seq.
    rewrite <- list_fmap_compose. apply map_ext. intros i. cbn [compose]. unfold pow2.
    rewrite Z.div_pow2_bits by lia. f_equal. lia.
Qed.

Lemma num2bits_loop_bits fuel v n :
  (n <= fuel)%nat -> map eval (num2bits_loop fuel v n) = bits_of n v.
Proof.
  revert v n. induction fuel as [|fuel IH]; intros v n Hn.
  - assert (n = 0)%nat as -> by lia. done.
  - destruct n as [|n]; [done|]. cbn [num2bits_loop].
    destruct (Nat.ltb_spec 32 (S n)) as [Hlt|Hge].
    + rewrite map_app, IH by lia. rewrite (bits_of_split (S n) 32) by lia. f_equal.
      unfold bits_of at 1. rewrite map_map. apply map_ext. intros j.
      by rewrite eval_bool_bit, mask_test by lia.
    + cbn [map]. rewrite eval_bool_bit, IH by lia. by rewrite bits_of_S, odd_test.
Qed.

Lemma num2bits_bits v n : map eval (num2bits v n) = bits_of n v.
Proof. by apply num2bits_loop_bits. Qed.

Lemma num2bits_length v n : length (num2bits v n) = n.
Proof. by rewrite <- (length_map eval), num2bits_bits, bits_of_length. Qed.

Lemma num2bits_uv v n : uv eval (num2bits v n) = v mod pow2 n.
Proof. unfold uv. by rewrite num2bits_bits, uval_bits_of. Qed.

(** ** Adders *)

Lemma neg_loop_uv cin a :
  uv eval (neg_loop cin a)
  = (pow2 (length a) - 1 - uv eval a + Z.b2z (eval cin)) mod pow2 (length a).
Proof.
  revert cin. induction a as [|x [|y a] IH]; intros cin.
  - cbn. by rewrite Z.mod_1_r.
  - cbn [neg_loop]. rewrite !uv_cons. gates. by destruct (eval x), (eval cin).
  - cbn [neg_loop mk_half_adder] in *. remember (y :: a) as l. clear Heql.
    rewrite !uv_cons, IH. cbn [length]. rewrite pow2_S, <- mod_cons by apply pow2_pos.
    f_equal. gates. destruct (eval x), (eval cin); cbn; lia.
Qed.

Lemma mk_neg_uv a : uv eval (mk_neg a) = (- uv eval a) mod pow2 (length a).
Proof.
  unfold mk_neg. rewrite neg_loop_uv, eval_true. apply (mod_eq _ _ _ 1). cbn. lia.
Qed.

Lemma adder_loop_uv cin a b :
  length a = length b ->
  uv eval (adder_loop cin a b)
  = (uv eval a + uv eval b + Z.b2z (eval cin)) mod pow2 (length a).
Proof.
  revert cin b. induction a as [|x [|x' a] IH]; intros cin [|y b]; try done.
  - intros _. cbn. by rewrite Z.mod_1_r.
  - destruct b; [intros _|done]. cbn [adder_loop]. rewrite !uv_cons. gates.
    by destruct (eval x), (eval y), (eval cin).
  - cbn [adder_loop mk_full_adder] in *. remember (x' :: a) as l. clear Heql.
    cbn [length]. intros [= Hl]. rewrite !uv_cons, IH by done.
    rewrite pow2_S, <- mod_cons by apply pow2_pos. f_equal. gates.
    pose proof (full_adder_sum (eval x) (eval y) (eval cin)). unfold majority. lia.
Qed.

Lemma mk_adder_uv a b :
  length a = length b -> uv eval (mk_adder a b) = (uv eval a + uv eval b) mod pow2 (length a).
Proof.
  intros Hl. unfold mk_adder. rewrite adder_loop_uv, eval_false by done. f_equal. cbn. lia.
Qed.

(** Nothing is lost when the last carry is kept. *)
Lemma subtracter_loop_uv cin a b :
  length a = length b ->
  let '(outs, last) := subtracter_loop cin a b in
  uv eval outs + pow2 (length a) * Z.b2z (eval last)
  = uv eval a + (pow2 (length a) - 1 - uv eval b) + Z.b2z (eval cin).
Proof.
  revert cin b. induction a as [|x a IH]; intros cin [|y b]; try done.
  - intros _. cbn [subtracter_loop length]. rewrite pow2_0. cbn. lia.
  - cbn [subtracter_loop mk_full_adder length]. intros [= Hl].
    specialize (IH (mk_carry x (mk_not y) cin) b Hl).
    destruct (subtracter_loop _ a b) as [outs last].
    rewrite !uv_cons, pow2_S. revert IH. gates.
    pose proof (full_adder_sum (eval x) (negb (eval y)) (eval cin)).
    assert (Z.b2z (negb (eval y)) = 1 - Z.b2z (eval y)) by (by destruct (eval y)).
    unfold majority. lia.
Qed.

Lemma mk_subtracter_uv a b :
  length a = length b ->
  uv eval (mk_subtracter a b).1 = (uv eval a - uv eval b) mod pow2 (length a)
  /\ eval (mk_subtracter a b).2 = (uv eval b <=? uv eval a).
Proof.
  intros Hl. pose proof (subtracter_loop_uv mk_true a b Hl) as Hs. fold (mk_subtracter a b) in Hs.
  pose proof (subtracter_loop_length mk_true a b Hl) as Hn. fold (mk_subtracter a b) in Hn.
  destruct (mk_subtracter a b) as [outs last]. cbn [fst snd] in *. rewrite eval_true in Hs.
  pose proof (uv_bounds eval outs) as Ho. rewrite Hn in Ho.
  pose proof (uv_bounds eval a). pose proof (uv_bounds eval b) as Hb. rewrite <- Hl in Hb.
  cbn [Z.b2z] in Hs. split.
  - rewrite <- (Z.mod_small (uv eval outs) (pow2 (length a))) by done.
    apply (mod_eq _ _ _ (1 - Z.b2z (eval last))). lia.
  - destruct (eval last); cbn [Z.b2z] in Hs; symmetry;
      [apply Z.leb_le|apply Z.leb_gt]; lia.
Qed.

Lemma mk_carry_save_adder_length a b c :
  length a = length b -> length a = length c ->
  length (mk_carry_save_adder a b c).1 = length a
  /\ length (mk_carry_save_adder a b c).2 = length a.
Proof.
  intros H1 H2. unfold mk_carry_save_adder. cbn [fst snd].
  rewrite !length_map, !length_zip_with. lia.
Qed.

Lemma mk_carry_save_adder_uv a b c :
  length a = length b -> length a = length c ->
  uv eval (mk_carry_save_adder a b c).1 + 2 * uv eval (mk_carry_save_adder a b c).2
  = uv eval a + uv eval b + uv eval c.
Proof.
  unfold mk_carry_save_adder. cbn [fst snd]. revert b c.
  induction a as [|x a IH]; intros [|y b] [|z c]; try done.
  cbn [length]. intros [= H1] [= H2]. specialize (IH b c H1 H2). cbn [zip zip_with map].
  rewrite !uv_cons. gates.
  pose proof (full_adder_sum (eval x) (eval y) (eval z)). unfold majority. lia.
Qed.

(** ** Selection *)

Lemma mk_multiplexer_map c t e :
  length t = length e ->
  map eval (mk_multiplexer c t e) = if eval c then map eval t else map eval e.
Proof.
  unfold mk_multiplexer. revert e. induction t as [|x t IH]; intros [|y e]; try done.
  - by destruct (eval c).
  - cbn [length]. intros [= Hl]. cbn [zip_with map]. rewrite eval_ite, IH by done.
    by destruct (eval c).
Qed.

Lemma mk_multiplexer_uv c t e :
  length t = length e ->
  uv eval (mk_multiplexer c t e) = if eval c then uv eval t else uv eval e.
Proof. intros Hl. unfold uv. rewrite mk_multiplexer_map by done. by destruct (eval c). Qed.

(** Absolute value as an unsigned number; the least number is kept. *)
Lemma mk_abs_uv a : uv eval (mk_abs a) = if eval (top a) then (- uv eval a) mod pow2 (length a) else uv eval a.
Proof.
  unfold mk_abs. destruct (is_false (top a)) eqn:Ef; [by rewrite eval_is_false|].
  destruct (is_true (top a)) eqn:Et; [by rewrite eval_is_true, mk_neg_uv|].
  rewrite mk_multiplexer_uv, mk_neg_uv by apply mk_neg_length. done.
Qed.

Lemma mk_abs_abs a : (0 < length a)%nat -> uv eval (mk_abs a) = Z.abs (sv eval a).
Proof.
  intros Ha. rewrite mk_abs_uv, (eval_top eval). unfold sv, sval, uv. set (l := map eval a).
  assert (length l = length a) as Hl by apply length_map. rewrite <- Hl in *.
  pose proof (uval_bounds l). pose proof (pow2_pos (length l - 1)).
  pose proof (pow2_double _ Ha). destruct (msb l) eqn:Em; [|lia].
  apply msb_uval in Em as [_ Hm].
  rewrite (mod_eq _ (pow2 (length l) - uval l) _ (-1)) by lia. rewrite Z.mod_small by lia. lia.
Qed.

(** ** Bitwise operations, extensions *)

Lemma eval_zip_with (g : E -> E -> E) (f : bool -> bool -> bool) a b :
  (forall x y, eval (g x y) = f (eval x) (eval y)) ->
  map eval (zip_with g a b) = zip_with f (map eval a) (map eval b).
Proof.
  intros Hg. revert b. induction a as [|x a IH]; intros [|y b]; try done.
  cbn [zip_with map]. by rewrite Hg, IH.
Qed.

Lemma mk_and_bits_uv a b :
  length a = length b -> uv eval (mk_and_bits a b) = Z.land (uv eval a) (uv eval b).
Proof.
  intros Hl. unfold uv, mk_and_bits. rewrite (eval_zip_with _ _ _ _ eval_and).
  apply uval_zip_with; [apply Z.land_spec|done|by rewrite !length_map].
Qed.

Lemma mk_or_bits_uv a b :
  length a = length b -> uv eval (mk_or_bits a b) = Z.lor (uv eval a) (uv eval b).
Proof.
  intros Hl. unfold uv, mk_or_bits. rewrite (eval_zip_with _ _ _ _ eval_or).
  apply uval_zip_with; [apply Z.lor_spec|done|by rewrite !length_map].
Qed.

Lemma mk_xor_bits_uv a b :
  length a = length b -> uv eval (mk_xor_bits a b) = Z.lxor (uv eval a) (uv eval b).
Proof.
  intros Hl. unfold uv, mk_xor_bits. rewrite (eval_zip_with _ _ _ _ eval_xor).
  apply uval_zip_with; [apply Z.lxor_spec|done|by rewrite !length_map].
Qed.

Lemma mk_not_bits_uv a : uv eval (mk_not_bits a) = pow2 (length a) - 1 - uv eval a.
Proof.
  unfold uv, mk_not_bits. rewrite <- (length_map eval a), <- uval_negb, !map_map.
  f_equal. apply map_ext, eval_not.
Qed.

(** The negated operations are the complements of the plain ones. *)
Lemma negated_bits (g h : E -> E -> E) a b :
  length a = length b -> (forall x y, eval (g x y) = negb (eval (h x y))) ->
  uv eval (zip_with g a b) = pow2 (length a) - 1 - uv eval (zip_with h a b).
Proof.
  intros Hl Hg. revert b Hl. induction a as [|x a IH]; intros [|y b]; try done.
  cbn [length]. intros [= Hl]. cbn [zip_with]. rewrite !uv_cons, IH, pow2_S, Hg by done.
  destruct (eval (h x y)); cbn; lia.
Qed.

Lemma mk_nand_bits_uv a b :
  length a = length b ->
  uv eval (mk_nand_bits a b) = pow2 (length a) - 1 - Z.land (uv eval a) (uv eval b).
Proof.
  intros Hl. rewrite <- mk_and_bits_uv by done. apply negated_bits; [done|].
  intros x y. by gates.
Qed.

Lemma mk_nor_bits_uv a b :
  length a = length b ->
  uv eval (mk_nor_bits a b) = pow2 (length a) - 1 - Z.lor (uv eval a) (uv eval b).
Proof.
  intros Hl. rewrite <- mk_or_bits_uv by done. apply negated_bits; [done|].
  intros x y. by gates.
Qed.

Lemma mk_xnor_bits_uv a b :
  length a = length b ->
  uv eval (mk_xnor_bits a b) = pow2 (length a) - 1 - Z.lxor (uv eval a) (uv eval b).
Proof.
  intros Hl. rewrite <- mk_xor_bits_uv by done. apply negated_bits; [done|].
  intros x y. gates. by destruct (eval x), (eval y).
Qed.

Lemma forallb_minus_one l : forallb (fun b => b) l = (uval l =? pow2 (length l) - 1).
Proof.
  induction l as [|b l IH]; [done|]. cbn [forallb uval length]. rewrite IH, pow2_S.
  pose proof (uval_bounds l). apply eq_true_iff_eq.
  rewrite andb_true_iff, !Z.eqb_eq. destruct b; cbn; lia.
Qed.

Lemma existsb_nonzero l : existsb (fun b => b) l = negb (uval l =? 0).
Proof.
  induction l as [|b l IH]; [done|]. cbn [existsb uval]. rewrite IH.
  pose proof (uval_bounds l). apply eq_true_iff_eq.
  rewrite orb_true_iff, !negb_true_iff, !Z.eqb_neq. destruct b; cbn; lia.
Qed.

Lemma forallb_eval (l : list E) : forallb eval l = forallb (fun b => b) (map eval l).
Proof. induction l as [|x l IH]; [done|]. cbn. by rewrite IH. Qed.

Lemma existsb_eval (l : list E) : existsb eval l = existsb (fun b => b) (map eval l).
Proof. induction l as [|x l IH]; [done|]. cbn. by rewrite IH. Qed.

Lemma mk_redand_uv a : uv eval (mk_redand a) = Z.b2z (uv eval a =? pow2 (length a) - 1).
Proof.
  unfold mk_redand. rewrite uv_cons, eval_and_n, forallb_eval, forallb_minus_one, length_map.
  fold (uv eval a). cbn. lia.
Qed.

Lemma mk_redor_uv a : uv eval (mk_redor a) = Z.b2z (negb (uv eval a =? 0)).
Proof.
  unfold mk_redor. rewrite uv_cons, eval_or_n, existsb_eval, existsb_nonzero.
  fold (uv eval a). cbn. lia.
Qed.

Lemma mk_zero_extend_uv a n : uv eval (mk_zero_extend a n) = uv eval a.
Proof. unfold mk_zero_extend. rewrite uv_app, uv_replicate_false by done. lia. Qed.

Lemma mk_sign_extend_length a n : length (mk_sign_extend a n) = (length a + n)%nat.
Proof. unfold mk_sign_extend. by rewrite length_app, length_replicate. Qed.

Lemma mk_sign_extend_sv a n : (0 < length a)%nat -> sv eval (mk_sign_extend a n) = sv eval a.
Proof.
  intros Ha. induction n as [|n IH].
  - unfold mk_sign_extend. by rewrite app_nil_r.
  - rewrite <- IH. unfold mk_sign_extend. rewrite replicate_S_end, app_assoc.
    set (l := a ++ replicate n (top a)).
    assert (top (l ++ [top a]) = top l) as Ht.
    { unfold top at 1. rewrite List.last_last. unfold l, top. clear.
      destruct n as [|n]; [by rewrite app_nil_r|].
      by rewrite replicate_S_end, app_assoc, List.last_last. }
    rewrite !sv_uv, uv_snoc, Ht, length_app by done. cbn [length].
    assert (eval (top a) = eval (top l)) as ->.
    { f_equal. rewrite <- Ht. unfold top at 2. by rewrite List.last_last. }
    rewrite Nat.add_1_r, pow2_S. destruct (eval (top l)); cbn; lia.
Qed.
End Correct.
