(* ===== verification/BlastMul.v ===== *)
(** bit_blaster_tpl: multiplication. [mk_multiplier] handles constant factors
    first, then builds an array of adders or a Wallace tree; the circuits of
    all branches compute the product modulo the width. *)
From S2P Require Import Prelude Bits Gates BlastArith.

Section Circuits.
Context {E : Type} `{Gates E}.

(** ** The array multiplier *)

(** Column [i]: bits [j] of [a] and [i - j] of [b], and the carries [cins] of
    the column before. One turn of the inner loop. *)
Definition column_step (a b cins : list E) (i : nat) (s : E * list E) (j : nat)
  : E * list E :=
  let '(out, couts) := s in
  let i3 := mk_and (bit a j) (bit b (i - j)) in
  let '(out, cout) := mk_full_adder i3 out (bit cins (j - 2)) in
  (out, couts ++ [cout]).

Definition column (a b cins : list E) (i : nat) : E * list E :=
  let i1 := mk_and (bit a 0) (bit b i) in
  let i2 := mk_and (bit a 1) (bit b (i - 1)) in
  let '(out, cout) := mk_half_adder i1 i2 in
  foldl (column_step a b cins i) (out, [cout]) (seq 2 (i - 1)).

(** The last column builds no carries. *)
Definition last_column (a b cins : list E) (i : nat) : E :=
  let i1 := mk_and (bit a 0) (bit b i) in
  let i2 := mk_and (bit a 1) (bit b (i - 1)) in
  foldl (fun out j => mk_xor3 (mk_and (bit a j) (bit b (i - j))) out (bit cins (j - 2)))
    (mk_xor i1 i2) (seq 2 (i - 1)).

(** Columns [i], ..., [i + n - 1]. *)
Fixpoint columns (a b : list E) (i n : nat) (cins : list E) : list E :=
  match n with
  | O => []
  | S O => [last_column a b cins i]
  | S n => let '(out, couts) := column a b cins i in out :: columns a b (S i) n couts
  end.

Definition mk_array_multiplier (a b : list E) : list E :=
  mk_and (bit a 0) (bit b 0) :: columns a b 1 (length a - 1) [].

(** ** The Wallace tree *)

Definition partial_product (a b : list E) (i : nat) : list E :=
  replicate i mk_false ++ map (fun x => mk_and x (bit b i)) (take (length a - i) a).

(** Three summands become a sum and a carry vector, shifted by one bit. *)
Definition reduce_triple (p1 p2 p3 : list E) : list (list E) :=
  let '(sum_bits, carry_bits) := mk_carry_save_adder p1 p2 p3 in
  [sum_bits; removelast (mk_false :: carry_bits)].

Fixpoint wallace_pass (pps : list (list E)) : list (list E) :=
  match pps with
  | p1 :: p2 :: p3 :: pps => reduce_triple p1 p2 p3 ++ wallace_pass pps
  | _ => pps
  end.

(** [while (pps.size() != 2)]; [fuel] passes suffice for as many summands. *)
Fixpoint wallace (fuel : nat) (pps : list (list E)) : list (list E) :=
  match fuel with
  | O => pps
  | S fuel => if Nat.eqb (length pps) 2 then pps else wallace fuel (wallace_pass pps)
  end.

Definition mk_wallace_multiplier (a b : list E) : list E :=
  if Nat.eqb (length a) 1 then [mk_and (bit a 0) (bit b 0)]
  else match wallace (length a) (map (partial_product a b) (seq 0 (length a))) with
       | [p1; p2] => mk_adder p1 p2
       | _ => []
       end.

(** ** Multiplication by a constant *)

(** The recursion over the values of the bits that are not constant; [is_a]
    and [i] say where to look for the next one, [fuel] bounds the number of
    positions that are left. *)
Fixpoint skip_consts (l : list E) (i : nat) (fuel : nat) : nat :=
  match fuel with
  | O => i
  | S fuel =>
      if Nat.ltb i (length l) && is_bool_const (bit l i) then skip_consts l (S i) fuel else i
  end.

Definition next_split (is_a : bool) (i sz : nat) (a b : list E) : bool * nat :=
  let i := if is_a then skip_consts a i (S sz) else i in
  let '(is_a, i) := if is_a && Nat.eqb i sz then (false, 0%nat) else (is_a, i) in
  (is_a, if is_a then i else skip_consts b i (S sz)).

Fixpoint case_multiplier (fuel : nat) (is_a : bool) (i sz : nat) (a b : list E) : list E :=
  match fuel with
  | O => []
  | S fuel =>
      let '(is_a, i) := next_split is_a i sz a b in
      if Nat.ltb i sz then
        let x := if is_a then bit a i else bit b i in
        let set e := if is_a then (<[i := e]> a, b) else (a, <[i := e]> b) in
        let '(a1, b1) := set mk_true in
        let '(a2, b2) := set mk_false in
        let out1 := case_multiplier fuel is_a (S i) sz a1 b1 in
        let out2 := case_multiplier fuel is_a (S i) sz a2 b2 in
        map (fun j => ast_mk_ite x (bit out1 j) (bit out2 j)) (seq 0 sz)
      else
        match is_numeral a, is_numeral b with
        | Some n_a, Some n_b => num2bits (n_a * n_b) sz
        | _, _ => []
        end
  end.

(** [case_size], doubled for every bit that is not constant while it is below
    the size of the circuit. *)
Fixpoint case_size (a b : list E) (size circuit : Z) : Z :=
  match a, b with
  | x :: a, y :: b =>
      if size <? circuit then
        let size := if is_bool_const x then size else (size * 2) mod 2 ^ 32 in
        let size := if is_bool_const y then size else (size * 2) mod 2 ^ 32 in
        case_size a b size circuit
      else size
  | _, _ => size
  end.

Definition mk_const_case_multiplier (a b : list E) : bool * list E :=
  let sz := length a in
  let circuit_size := (Z.of_nat sz * Z.of_nat sz * 5) mod 2 ^ 32 in
  if circuit_size <=? case_size a b 1 circuit_size then (false, [])
  else (false, case_multiplier (S (S (2 * sz))) true 0 sz a b).

(** The Booth recoding of the constant [a]: one turn of the loop. *)
Definition booth_step (b minus_b : list E) (out : list E) (last now : bool) (i : nat) : list E :=
  let sz := length out in
  if now && negb last then take i out ++ mk_adder (drop i out) (take (sz - i) minus_b)
  else if negb now && last then take i out ++ mk_adder (drop i out) (take (sz - i) b)
  else out.

Fixpoint booth_loop (a b minus_b : list E) (out : list E) (last : bool) (i : nat) : list E :=
  match a with
  | [] => out
  | x :: a => booth_loop a b minus_b (booth_step b minus_b out last (is_true x) i) (is_true x) (S i)
  end.

(** [None] is the result [false]. The bits of [mk_const_case_multiplier] are
    used when its flag says so. *)
Definition mk_const_multiplier (use_bcm : bool) (a b : list E) : option (list E) :=
  match is_numeral a with
  | None => None
  | Some _ =>
      let '(done, case_bits) := mk_const_case_multiplier a b in
      if (done : bool) then Some case_bits
      else if use_bcm then
        Some (booth_loop a b (mk_neg b) (replicate (length a) mk_false) false 0)
      else None
  end.

(** ** [mk_multiplier] *)

Definition mk_general_multiplier (use_wtm : bool) (a b : list E) : list E :=
  if use_wtm then mk_wallace_multiplier a b else mk_array_multiplier a b.

Definition mk_multiplier (use_wtm use_bcm : bool) (a b : list E) : list E :=
  let n_b := is_numeral a in
  let '(a, b) := match n_b with Some _ => (b, a) | None => (a, b) end in
  if is_minus_one b then mk_neg a
  else match is_numeral a, n_b with
       | Some n_a, Some n_b => num2bits (n_a * n_b) (length a)
       | _, _ =>
           match mk_const_multiplier use_bcm a b with
           | Some out => out
           | None =>
               match mk_const_multiplier use_bcm b a with
               | Some out => out
               | None => mk_general_multiplier use_wtm a b
               end
           end
       end.
End Circuits.

Section Correct.
Context {E : Type} `{Gates E} (eval : E -> bool) `{!GatesOk eval}.

(** ** The array multiplier *)

(** Number of set bits. *)
Definition ones (l : list E) : Z := foldr (fun x acc => Z.b2z (eval x) + acc) 0 l.

Lemma ones_snoc l x : ones (l ++ [x]) = ones l + Z.b2z (eval x).
Proof. induction l as [|y l IH]; cbn; [lia|]. unfold ones in IH. lia. Qed.

Lemma ones_take_S l k : (k < length l)%nat ->
  ones (take (S k) l) = ones (take k l) + Z.b2z (eval (bit l k)).
Proof.
  intros Hk. destruct (lookup_lt_is_Some_2 l k Hk) as [x Hx].
  rewrite (take_S_r _ _ _ Hx), ones_snoc. unfold bit.
  by rewrite (nth_lookup_Some _ _ _ _ Hx).
Qed.

Definition product_bit (a b : list E) (i j : nat) : Z :=
  nthz (map eval a) j * nthz (map eval b) (i - j).

Lemma product_bit_and a b i j :
  product_bit a b i j = Z.b2z (eval (mk_and (bit a j) (bit b (i - j)))).
Proof.
  unfold product_bit, nthz. rewrite <- !eval_nth, eval_and by done.
  by destruct (eval (bit a j)), (eval (bit b (i - j))).
Qed.

Lemma columns_start a b i :
  (0 < i)%nat ->
  sum (product_bit a b i) 2
  = Z.b2z (eval (mk_and (bit a 0) (bit b i))) + Z.b2z (eval (mk_and (bit a 1) (bit b (i - 1)))).
Proof.
  intros Hi. rewrite !sum_end, !product_bit_and, Nat.sub_0_r. cbn. lia.
Qed.

Lemma xor_sum x y : Z.b2z (xorb x y) + 2 * Z.b2z (x && y) = Z.b2z x + Z.b2z y.
Proof. by destruct x, y. Qed.

(** The inner loop adds the products and the carries of the column. *)
Lemma column_fold a b cins i s k :
  (k <= length cins)%nat ->
  let r := foldl (column_step a b cins i) s (seq 2 k) in
  Z.b2z (eval r.1) + 2 * ones r.2 + sum (product_bit a b i) 2
  = Z.b2z (eval s.1) + 2 * ones s.2 + sum (product_bit a b i) (2 + k) + ones (take k cins)
  /\ length r.2 = (length s.2 + k)%nat.
Proof.
  induction k as [|k IH]; intros Hk.
  - cbn [seq foldl Nat.add]. rewrite take_0. cbn [ones foldr].
    split; [lia|done].
  - rewrite seq_S, foldl_app. cbn [foldl]. destruct IH as [IHs IHl]; [lia|].
    destruct (foldl (column_step a b cins i) s (seq 2 k)) as [out couts].
    cbn [fst snd column_step mk_full_adder] in *.
    replace (2 + S k)%nat with (S (2 + k)) by lia.
    rewrite ones_snoc, length_app, (sum_end _ (2 + k)), ones_take_S by lia.
    rewrite product_bit_and. cbn [length Nat.add]. split; [|lia].
    replace (S (S k) - 2)%nat with k by lia. gates.
    pose proof (full_adder_sum (eval (bit a (2 + k)) && eval (bit b (i - (2 + k))))
      (eval out) (eval (bit cins k))).
    revert IHs H0. unfold majority. cbn [Nat.add]. lia.
Qed.

Lemma column_adds a b cins i :
  (0 < i)%nat -> length cins = (i - 1)%nat ->
  let r := column a b cins i in
  Z.b2z (eval r.1) + 2 * ones r.2 = column_sum (map eval a) (map eval b) i + ones cins
  /\ length r.2 = i.
Proof.
  intros Hi Hc. unfold column. cbn [mk_half_adder].
  set (s0 := (mk_xor _ _, [mk_and _ _])).
  destruct (column_fold a b cins i s0 (i - 1)) as [Hs Hl]; [lia|].
  rewrite columns_start, (firstn_all2 cins) in Hs by lia.
  replace (2 + (i - 1))%nat with (S i) in Hs by lia.
  revert Hs Hl. generalize (foldl (column_step a b cins i) s0 (seq 2 (i - 1))) as r.
  intros r. unfold s0. cbn [fst snd ones foldr length]. gates. intros Hs Hl.
  pose proof (xor_sum (eval (bit a 0) && eval (bit b i)) (eval (bit a 1) && eval (bit b (i - 1)))).
  unfold column_sum. fold (product_bit a b i). split; lia.
Qed.

Lemma odd_b2z x : Z.odd (Z.b2z x) = x.
Proof. by destruct x. Qed.

Lemma last_column_odd a b cins i :
  (0 < i)%nat -> length cins = (i - 1)%nat ->
  eval (last_column a b cins i)
  = Z.odd (column_sum (map eval a) (map eval b) i + ones cins).
Proof.
  intros Hi Hc. unfold last_column. set (f := fun out j => _).
  set (s0 := mk_xor _ _).
  assert (forall k, (k <= length cins)%nat -> eval (foldl f s0 (seq 2 k))
    = Z.odd (sum (product_bit a b i) (2 + k) + ones (take k cins))) as Hgen.
  { induction k as [|k IH]; intros Hk.
    - cbn [seq foldl Nat.add take ones foldr]. rewrite columns_start, Z.add_0_r, Z.odd_add by done.
      rewrite !odd_b2z. unfold s0. by gates.
    - rewrite seq_S, foldl_app. cbn [foldl].
      replace (2 + S k)%nat with (S (2 + k)) by lia.
      rewrite (sum_end _ (2 + k)), ones_take_S, product_bit_and by lia. unfold f at 1.
      rewrite eval_xor3, IH by lia. replace (2 + k - 2)%nat with k by lia.
      rewrite !Z.odd_add, !odd_b2z.
      destruct (Z.odd (sum _ _)), (Z.odd (ones _)), (eval (mk_and _ _)), (eval (bit cins k)); done. }
  rewrite Hgen by lia. rewrite (firstn_all2 cins) by lia. unfold column_sum.
  fold (product_bit a b i). by replace (S i) with (2 + (i - 1))%nat by lia.
Qed.

Lemma columns_uv a b i n cins :
  (0 < i)%nat -> length cins = (i - 1)%nat ->
  uv eval (columns a b i n cins)
  = (ones cins + sum (fun k => pow2 k * column_sum (map eval a) (map eval b) (i + k)) n)
      mod pow2 n.
Proof.
  revert i cins. induction n as [|n IH]; intros i cins Hi Hc; [cbn; by rewrite Z.mod_1_r|].
  destruct n as [|n].
  - cbn [columns]. rewrite uv_cons, last_column_odd by done.
    unfold sum. cbn [seq foldr]. rewrite pow2_0, Nat.add_0_r, pow2_S, pow2_0, Zmod_odd.
    rewrite !Z.add_0_r, !Z.mul_1_l, Z.add_comm. cbn [uv map uval].
    destruct (Z.odd _); done.
  - destruct (column_adds a b cins i Hi Hc) as [Hs Hl].
    remember (S n) as n' eqn:Hn'. cbn [columns]. subst n'.
    destruct (column a b cins i) as [out couts]. cbn [fst snd] in *.
    rewrite uv_cons, IH by lia.
    rewrite (sum_front _ (S n)), (pow2_S (S n)), <- mod_cons by apply pow2_pos. f_equal.
    rewrite (sum_ext (fun k => pow2 (S k) * _)
      (fun k => 2 * (pow2 k * column_sum (map eval a) (map eval b) (S i + k)))).
    2: { intros k _. rewrite pow2_S, Nat.add_succ_r. cbn [Nat.add]. lia. }
    rewrite sum_scale, pow2_0, Nat.add_0_r. lia.
Qed.

Lemma columns_length a b i n cins : length (columns a b i n cins) = n.
Proof.
  revert i cins. induction n as [|n IH]; intros i cins; [done|].
  destruct n as [|n]; [done|]. remember (S n) as n' eqn:Hn'. cbn [columns]. subst n'.
  destruct (column a b cins i) as [out couts]. cbn [length]. by rewrite IH.
Qed.

Lemma mk_array_multiplier_uv a b :
  (0 < length a)%nat -> length a = length b ->
  uv eval (mk_array_multiplier a b) = (uv eval a * uv eval b) mod pow2 (length a).
Proof.
  intros Ha Hl. unfold mk_array_multiplier, uv at 2 3. rewrite <- convolution, uv_cons.
  destruct (length a) as [|n]; [lia|]. rewrite Nat.sub_succ, Nat.sub_0_r, sum_front.
  assert (column_sum (map eval a) (map eval b) 0 = Z.b2z (eval (mk_and (bit a 0) (bit b 0)))) as Hc.
  { unfold column_sum. change (1 * ?x) with x. rewrite sum_front. cbn [sum seq foldr].
    rewrite Z.add_0_r. apply product_bit_and. }
  rewrite pow2_0, Z.mul_1_l, Hc.
  rewrite (sum_ext (fun k => pow2 (S k) * _)
    (fun k => 2 * (pow2 k * column_sum (map eval a) (map eval b) (1 + k)))).
  2: { intros k _. rewrite pow2_S. cbn [Nat.add]. lia. }
  rewrite sum_scale, pow2_S, mod_cons by apply pow2_pos. do 2 f_equal.
  by apply (columns_uv a b 1 n []); [lia|].
Qed.

Lemma mk_array_multiplier_length a b :
  (0 < length a)%nat -> length (mk_array_multiplier a b) = length a.
Proof. intros Ha. unfold mk_array_multiplier. cbn [length]. rewrite columns_length. lia. Qed.

(** ** The Wallace tree *)

Definition total (pps : list (list E)) : Z := foldr (fun p acc => uv eval p + acc) 0 pps.

Definition widths (n : nat) (pps : list (list E)) : Prop := Forall (fun p => length p = n) pps.

Lemma total_cons p pps : total (p :: pps) = uv eval p + total pps.
Proof. done. Qed.

Lemma total_app l1 l2 : total (l1 ++ l2) = total l1 + total l2.
Proof. induction l1 as [|p l1 IH]; [done|]. cbn [app]. rewrite !total_cons. lia. Qed.

Lemma reduce_triple_total n p1 p2 p3 :
  length p1 = n -> length p2 = n -> length p3 = n ->
  widths n (reduce_triple p1 p2 p3)
  /\ exists k, total (reduce_triple p1 p2 p3) = uv eval p1 + uv eval p2 + uv eval p3 + k * pow2 n.
Proof.
  intros H1 H2 H3. unfold reduce_triple.
  destruct (mk_carry_save_adder_length p1 p2 p3) as [Hs Hc]; [congruence..|].
  pose proof (mk_carry_save_adder_uv eval p1 p2 p3) as Hv.
  destruct (mk_carry_save_adder p1 p2 p3) as [s c]. cbn [fst snd] in *.
  rewrite removelast_firstn_len. cbn [length Nat.pred]. rewrite Hc, H1. split.
  - repeat constructor; [congruence|]. rewrite length_take. cbn [length]. lia.
  - rewrite !total_cons, uv_take, uv_cons, eval_false by done. cbn [Z.b2z total foldr].
    exists (- ((0 + 2 * uv eval c) / pow2 n)). rewrite <- Hv by congruence.
    pose proof (Z.div_mod (0 + 2 * uv eval c) (pow2 n)). pose proof (pow2_pos n). lia.
Qed.

Lemma list_ind3 {A} (P : list A -> Prop) :
  P [] -> (forall x, P [x]) -> (forall x y, P [x; y]) ->
  (forall x y z l, P l -> P (x :: y :: z :: l)) -> forall l, P l.
Proof.
  intros H0 H1 H2 H3. fix IH 1. intros [|x [|y [|z l]]]; [done|apply H1|apply H2|apply H3, IH].
Qed.

Lemma wallace_pass_total n pps :
  widths n pps ->
  widths n (wallace_pass pps) /\ exists k, total (wallace_pass pps) = total pps + k * pow2 n.
Proof.
  induction pps as [|p|p1 p2|p1 p2 p3 pps IH] using list_ind3; cbn [wallace_pass];
    try (intros Hw; split; [done|exists 0; lia]).
  intros Hw. apply Forall_cons in Hw as [H1 [H2 [H3 Hw]%Forall_cons]%Forall_cons].
  destruct (IH Hw) as [IHw (k & IHt)].
  destruct (reduce_triple_total n p1 p2 p3) as [Hw1 (k' & Ht)]; [done..|].
  split; [by apply Forall_app|]. exists (k + k'). rewrite total_app, Ht, IHt.
  rewrite !total_cons. lia.
Qed.

Lemma wallace_pass_length pps :
  (length (wallace_pass pps) <= length pps)%nat
  /\ ((3 <= length pps)%nat -> (2 <= length (wallace_pass pps) < length pps)%nat).
Proof.
  induction pps as [|p|p1 p2|p1 p2 p3 pps [IH _]] using list_ind3; cbn [wallace_pass];
    cbn [length]; try lia.
  rewrite length_app. unfold reduce_triple.
  destruct (mk_carry_save_adder p1 p2 p3). cbn [length] in *. lia.
Qed.

(** The loop reaches two summands. *)
Lemma wallace_total n fuel pps :
  widths n pps -> (2 <= length pps <= fuel)%nat ->
  exists p1 p2, wallace fuel pps = [p1; p2] /\ length p1 = n /\ length p2 = n
    /\ exists k, uv eval p1 + uv eval p2 = total pps + k * pow2 n.
Proof.
  revert pps. induction fuel as [|fuel IH]; intros pps Hw Hl; [lia|]. cbn [wallace].
  destruct (Nat.eqb_spec (length pps) 2) as [H2|Hne].
  - destruct pps as [|p1 [|p2 [|]]]; try done. exists p1, p2. split; [done|].
    apply Forall_cons in Hw as [H1 [H2' _]%Forall_cons].
    split; [done|]. split; [done|]. exists 0. rewrite !total_cons. cbn [total foldr]. lia.
  - destruct (wallace_pass_total n pps Hw) as [Hw' (k & Hk)].
    destruct (wallace_pass_length pps) as [_ Hlt]. specialize (Hlt ltac:(lia)).
    destruct (IH (wallace_pass pps) Hw') as (p1 & p2 & He & H1 & H2 & k' & Hk'); [lia|].
    exists p1, p2. split; [done|]. split; [done|]. split; [done|].
    exists (k + k'). lia.
Qed.

Lemma partial_product_length a b i :
  (i <= length a)%nat -> length (partial_product a b i) = length a.
Proof.
  intros Hi. unfold partial_product.
  rewrite length_app, length_replicate, length_map, length_take. lia.
Qed.

Lemma uv_map_and l y : uv eval (map (fun x => mk_and x y) l) = Z.b2z (eval y) * uv eval l.
Proof.
  induction l as [|x l IH]; [cbn; lia|]. cbn [map]. rewrite !uv_cons, IH, eval_and.
  destruct (eval x), (eval y); cbn; lia.
Qed.

Lemma partial_product_uv a b i :
  (i <= length a)%nat ->
  uv eval (partial_product a b i)
  = (pow2 i * nthz (map eval b) i * uv eval a) mod pow2 (length a).
Proof.
  intros Hi. unfold partial_product.
  rewrite uv_app, uv_replicate_false, length_replicate, uv_map_and, uv_take by done.
  unfold nthz. rewrite <- eval_nth by done. rewrite Z.add_0_l.
  replace (length a) with (i + (length a - i))%nat at 2 by lia. rewrite pow2_add.
  rewrite <- Z.mul_assoc, Z.mul_mod_distr_l by (pose proof (pow2_pos i); pose proof (pow2_pos (length a - i)); lia).
  f_equal. destruct (eval (bit b i)); cbn; [by rewrite !Z.mul_1_l|].
  by rewrite Z.mod_0_l by (pose proof (pow2_pos (length a - i)); lia).
Qed.

Lemma partial_products_total a b n :
  (n <= length a)%nat ->
  exists k, total (map (partial_product a b) (seq 0 n))
    = uv eval a * (uv eval b mod pow2 n) + k * pow2 (length a).
Proof.
  intros Hn. unfold uv at 2. rewrite <- uval_sum. induction n as [|n IH].
  - exists 0. cbn. lia.
  - destruct IH as (k & Hk); [lia|]. rewrite seq_S, map_app, total_app, Hk, sum_end.
    cbn [Nat.add map]. rewrite total_cons, partial_product_uv by lia. cbn [total foldr].
    set (x := pow2 n * nthz (map eval b) n * uv eval a).
    exists (k - x / pow2 (length a)).
    pose proof (Z.div_mod x (pow2 (length a))). pose proof (pow2_pos (length a)).
    unfold x in *. lia.
Qed.

Lemma mk_wallace_multiplier_uv a b :
  (0 < length a)%nat -> length a = length b ->
  uv eval (mk_wallace_multiplier a b) = (uv eval a * uv eval b) mod pow2 (length a)
  /\ length (mk_wallace_multiplier a b) = length a.
Proof.
  intros Ha Hl. unfold mk_wallace_multiplier. destruct (Nat.eqb_spec (length a) 1) as [H1|Hne].
  - destruct a as [|x [|]], b as [|y [|]]; try done. split; [|done].
    rewrite !uv_cons. cbn [bit nth]. gates. by destruct (eval x), (eval y).
  - destruct (wallace_total (length a) (length a) (map (partial_product a b) (seq 0 (length a))))
      as (p1 & p2 & -> & H1 & H2 & k & Hk).
    + apply Forall_map, Forall_seq. intros i Hi. apply partial_product_length. lia.
    + rewrite length_map, length_seq. lia.
    + destruct (partial_products_total a b (length a)) as (k' & Hk'); [done|].
      rewrite Hl, uv_mod, <- Hl in Hk'.
      rewrite mk_adder_uv, mk_adder_length by congruence. split; [|done].
      rewrite H1. apply (mod_eq _ _ _ (k + k')). lia.
Qed.

(** ** Constant factors *)

Lemma is_numeral_loop_const i r l v :
  is_numeral_loop i r l = Some v -> Forall (fun x => is_bool_const x = true) l.
Proof.
  revert i r. induction l as [|x l IH]; intros i r; cbn [is_numeral_loop]; [constructor|].
  unfold is_bool_const in *. destruct (is_true x) eqn:Et; [|destruct (is_false x) eqn:Ef];
    cbn [negb]; try done; intros Hn; constructor; eauto; by rewrite ?Et, ?Ef.
Qed.

Lemma is_numeral_const l v : is_numeral l = Some v -> Forall (fun x => is_bool_const x = true) l.
Proof. apply is_numeral_loop_const. Qed.

Lemma const_eval x : is_bool_const x = true -> eval x = is_true x.
Proof.
  unfold is_bool_const. destruct (is_true x) eqn:Et; [intros _; by apply eval_is_true|].
  cbn. intros Hf. by apply eval_is_false.
Qed.

(** Adding a vector at an offset. *)
Lemma add_shifted_uv out c i :
  length out = length c -> (i <= length out)%nat ->
  let out' := take i out ++ mk_adder (drop i out) (take (length out - i) c) in
  uv eval out' = (uv eval out + pow2 i * uv eval c) mod pow2 (length out)
  /\ length out' = length out.
Proof.
  intros Hl Hi out'. assert (length (drop i out) = length (take (length out - i) c)) as Hd
    by (rewrite length_drop, length_take; lia).
  unfold out'. rewrite length_app, mk_adder_length, length_take, length_drop by done.
  split; [|lia]. rewrite uv_app, mk_adder_uv, length_take, length_drop, Nat.min_l by done.
  rewrite uv_take, (uv_drop eval i), (uv_take eval (length out - i)).
  pose proof (pow2_pos i). pose proof (Z.mod_pos_bound (uv eval out) (pow2 i)).
  rewrite Z.add_mod_idemp_r by (pose proof (pow2_pos (length out - i)); lia).
  replace (pow2 (length out)) with (pow2 i * pow2 (length out - i))
    by (rewrite <- pow2_add; f_equal; lia).
  rewrite <- mod_low by (lia || apply pow2_pos). f_equal.
  pose proof (Z.div_mod (uv eval out) (pow2 i)). lia.
Qed.

Lemma booth_step_uv b out last now i :
  length out = length b -> (i <= length out)%nat ->
  let out' := booth_step b (mk_neg b) out last now i in
  uv eval out' = (uv eval out + pow2 i * ((Z.b2z last - Z.b2z now) * uv eval b)) mod pow2 (length out)
  /\ length out' = length out.
Proof.
  intros Hl Hi. unfold booth_step. pose proof (mk_neg_length b) as Hn.
  destruct now, last; cbn [negb andb Z.b2z].
  - rewrite Z.sub_diag, Z.mul_0_l, Z.mul_0_r, Z.add_0_r, uv_mod. done.
  - destruct (add_shifted_uv out (mk_neg b) i) as [-> ->]; [congruence|done|]. split; [|done].
    rewrite (mk_neg_uv eval), Hl.
    apply (mod_eq _ _ _ (- pow2 i * (- uv eval b / pow2 (length b)))).
    pose proof (Z.div_mod (- uv eval b) (pow2 (length b))). pose proof (pow2_pos (length b)). nia.
  - destruct (add_shifted_uv out b i) as [-> ->]; [congruence|done|]. split; [|done].
    f_equal. lia.
  - rewrite Z.sub_diag, Z.mul_0_l, Z.mul_0_r, Z.add_0_r, uv_mod. done.
Qed.

(** [low] is the value of the bits of the constant already read. *)
Lemma booth_loop_uv a b out last i low :
  Forall (fun x => is_bool_const x = true) a -> length out = length b ->
  (i + length a = length b)%nat ->
  uv eval out = (uv eval b * (low - Z.b2z last * pow2 i)) mod pow2 (length b) ->
  uv eval (booth_loop a b (mk_neg b) out last i)
  = (uv eval b * (low + pow2 i * uv eval a)) mod pow2 (length b)
  /\ length (booth_loop a b (mk_neg b) out last i) = length b.
Proof.
  revert out last i low. induction a as [|x a IH]; intros out last i low Hc Hl Hi Hout;
    cbn [booth_loop].
  - split; [|done]. rewrite Hout. cbn [length] in Hi. rewrite Nat.add_0_r in Hi. rewrite Hi.
    apply (mod_eq _ _ _ (- Z.b2z last * uv eval b)). cbn [uv map uval]. lia.
  - apply Forall_cons in Hc as [Hx Hc]. cbn [length] in Hi.
    destruct (booth_step_uv b out last (is_true x) i) as [Hs Hls]; [done|lia|].
    destruct (IH (booth_step b (mk_neg b) out last (is_true x) i) (is_true x) (S i)
      (low + pow2 i * Z.b2z (is_true x))) as [He Hle]; [done|congruence|lia| |].
    + rewrite Hs, Hl, Hout, pow2_S, Zplus_mod_idemp_l. f_equal. lia.
    + split; [|done]. rewrite He, uv_cons, const_eval, pow2_S by done. f_equal. lia.
Qed.

(** ** The case multiplier *)

Definition consts (l : list E) (i : nat) : Prop :=
  forall j, (j < i)%nat -> is_bool_const (bit l j) = true.

Lemma skip_consts_spec l i fuel :
  (i <= length l)%nat -> (length l - i < fuel)%nat -> consts l i ->
  let r := skip_consts l i fuel in
  (i <= r <= length l)%nat /\ consts l r.
Proof.
  revert i. induction fuel as [|fuel IH]; intros i Hi Hf Hc; [lia|]. cbn [skip_consts].
  destruct (Nat.ltb_spec i (length l)); cbn [andb]; [|split; [lia|done]].
  destruct (is_bool_const (bit l i)) eqn:Ex; [|split; [lia|done]].
  destruct (IH (S i)) as [H1 H2]; [lia|lia| |split; [lia|done]].
  intros j Hj. destruct (decide (j = i)) as [->|]; [done|]. apply Hc. lia.
Qed.

Lemma consts_numeral l : consts l (length l) -> exists v, is_numeral l = Some v.
Proof.
  intros Hc. unfold is_numeral. generalize 0%nat at 1 as i. generalize 0 as r.
  induction l as [|x l IH]; intros r i; [by eexists|].
  pose proof (Hc 0%nat ltac:(cbn; lia)) as Hx. unfold is_bool_const, bit in Hx. cbn in Hx.
  assert (consts l (length l)) as Hl by (intros j Hj; apply (Hc (S j)); cbn; lia).
  cbn [is_numeral_loop]. destruct (is_true x); [by apply IH|].
  cbn [orb] in Hx. rewrite Hx. cbn [negb]. by apply IH.
Qed.

Lemma bit_insert l i j e :
  (i < length l)%nat -> bit (<[i := e]> l) j = if decide (j = i) then e else bit l j.
Proof.
  intros Hi. unfold bit. destruct (decide (j = i)) as [->|Hne].
  - apply nth_lookup_Some. by rewrite list_lookup_insert_eq.
  - by rewrite !nth_lookup, list_lookup_insert_ne.
Qed.

Lemma consts_insert l i e :
  (i < length l)%nat -> consts l i -> is_bool_const e = true -> consts (<[i := e]> l) (S i).
Proof.
  intros Hi Hc He j Hj. rewrite bit_insert by done. case_decide; [done|]. apply Hc. lia.
Qed.

(** Replacing a bit by the constant it evaluates to. *)
Lemma uv_insert l i e :
  (i < length l)%nat -> eval (bit l i) = eval e -> uv eval (<[i := e]> l) = uv eval l.
Proof.
  intros Hi He. unfold uv. f_equal. rewrite list_fmap_insert. apply list_insert_id.
  destruct (lookup_lt_is_Some_2 l i Hi) as [x Hx]. rewrite list_lookup_fmap, Hx. cbn.
  rewrite <- He. unfold bit. by rewrite (nth_lookup_Some _ _ _ _ Hx).
Qed.

Lemma map_bit_seq (f : E -> bool) l : map (fun j => f (bit l j)) (seq 0 (length l)) = map f l.
Proof.
  apply list_eq. intros j. rewrite !list_lookup_fmap.
  destruct (l !! j) as [x|] eqn:Ex.
  - rewrite lookup_seq_lt by (by eapply lookup_lt_Some). cbn. unfold bit.
    by rewrite (nth_lookup_Some _ _ _ _ Ex).
  - apply lookup_ge_None in Ex. by rewrite lookup_ge_None_2 by (by rewrite length_seq).
Qed.

Lemma eval_case_ite x o1 o2 sz (l1 l2 : list bool) :
  map eval o1 = l1 -> map eval o2 = l2 -> length l1 = sz -> length l2 = sz ->
  map eval (map (fun j => ast_mk_ite x (bit o1 j) (bit o2 j)) (seq 0 sz))
  = if eval x then l1 else l2.
Proof.
  intros <- <-. rewrite !length_map. intros H1 H2. rewrite map_map.
  rewrite (map_ext _ (fun j => if eval x then eval (bit o1 j) else eval (bit o2 j)))
    by (intros j; apply eval_ast_ite).
  destruct (eval x); [rewrite <- H1|rewrite <- H2]; apply map_bit_seq.
Qed.

Lemma const_true : is_bool_const (mk_true : E) = true.
Proof. unfold is_bool_const. by rewrite is_true_true. Qed.

Lemma const_false : is_bool_const (mk_false : E) = true.
Proof. unfold is_bool_const. rewrite is_false_false. apply orb_true_r. Qed.

(** The value of a vector with a bit replaced by the constant it has. *)
Lemma split_bit {A} l i (f : Z -> A) :
  (i < length l)%nat ->
  (if eval (bit l i) then f (uv eval (<[i := mk_true]> l)) else f (uv eval (<[i := mk_false]> l)))
  = f (uv eval l).
Proof.
  intros Hi. destruct (eval (bit l i)) eqn:Ex; rewrite uv_insert; try done;
    by rewrite Ex, ?eval_true, ?eval_false.
Qed.

Lemma next_split_spec (is_a : bool) i sz a b :
  length a = sz -> length b = sz -> (i <= sz)%nat ->
  (if is_a then consts a i else consts a sz /\ consts b i) ->
  let r := next_split is_a i sz a b in
  (r.2 <= sz)%nat
  /\ ((if r.1 then 2 * sz - r.2 else sz - r.2) <= (if is_a then 2 * sz - i else sz - i))%nat
  /\ (if r.1 then consts a r.2 /\ (r.2 < sz)%nat else consts a sz /\ consts b r.2).
Proof.
  intros Ha Hb Hi Hc. unfold next_split. destruct is_a; cbn [andb].
  - destruct (skip_consts_spec a i (S sz)) as [Hr Hca]; [lia|lia|done|].
    destruct (Nat.eqb_spec (skip_consts a i (S sz)) sz) as [He|Hne]; cbn [fst snd].
    + destruct (skip_consts_spec b 0 (S sz)) as [Hr' Hcb]; [lia|lia|by intros j Hj; lia|].
      rewrite He in Hca. split; [lia|]. split; [lia|done].
    + split; [lia|]. split; [lia|]. split; [done|lia].
  - destruct Hc as [Hca Hcb]. cbn [fst snd].
    destruct (skip_consts_spec b i (S sz)) as [Hr Hcb']; [lia|lia|done|].
    split; [lia|]. split; [lia|done].
Qed.

Lemma case_multiplier_value fuel (is_a : bool) i sz a b :
  length a = sz -> length b = sz -> (i <= sz)%nat ->
  ((if is_a : bool then 2 * sz - i else sz - i) < fuel)%nat ->
  (if is_a then consts a i else consts a sz /\ consts b i) ->
  map eval (case_multiplier fuel is_a i sz a b) = bits_of sz (uv eval a * uv eval b).
Proof.
  revert is_a i a b. induction fuel as [|fuel IH]; intros is_a i a b Ha Hb Hi Hf Hc; [lia|].
  cbn [case_multiplier].
  destruct (next_split_spec is_a i sz a b Ha Hb Hi Hc) as (Hi' & Hm & Hc').
  destruct (next_split is_a i sz a b) as [is_a' i']. cbn [fst snd] in *. clear Hc.
  destruct (Nat.ltb_spec i' sz) as [Hlt|Hge].
  - destruct is_a'; [|destruct Hc' as [Hca Hcb]].
    + destruct Hc' as [Hca _].
      erewrite eval_case_ite; [apply (split_bit a i' (fun v => bits_of sz (v * uv eval b))); lia
                              |apply IH|apply IH|apply bits_of_length..];
        rewrite ?length_insert; try done; try lia;
        (apply consts_insert; [lia|done|]); [apply const_true|apply const_false].
    + erewrite eval_case_ite; [apply (split_bit b i' (fun v => bits_of sz (uv eval a * v))); lia
                              |apply IH|apply IH|apply bits_of_length..];
        rewrite ?length_insert; try done; try lia;
        (split; [done|]; apply consts_insert; [lia|done|]); [apply const_true|apply const_false].
  - destruct is_a'; [lia|]. destruct Hc' as [Hca Hcb].
    assert (i' = sz) as -> by lia. rewrite <- Ha in Hca. rewrite <- Hb in Hcb.
    destruct (consts_numeral a Hca) as [n_a Hna]. destruct (consts_numeral b Hcb) as [n_b Hnb].
    rewrite Hna, Hnb, num2bits_bits by done.
    by rewrite (is_numeral_uv eval a n_a Hna), (is_numeral_uv eval b n_b Hnb).
Qed.

(** ** [mk_multiplier] *)

Lemma mk_const_multiplier_value use_bcm a b out :
  length a = length b -> mk_const_multiplier use_bcm a b = Some out ->
  uv eval out = (uv eval a * uv eval b) mod pow2 (length a) /\ length out = length a.
Proof.
  intros Hl. unfold mk_const_multiplier. destruct (is_numeral a) as [n_a|] eqn:Hn; [|done].
  assert (exists bits, mk_const_case_multiplier a b = (false, bits)) as [bits ->]
    by (unfold mk_const_case_multiplier; case_match; by eexists).
  destruct use_bcm; [|done]. intros [= <-].
  destruct (booth_loop_uv a b (replicate (length a) mk_false) false 0 0) as [Hu Hlen].
  - by apply (is_numeral_const a n_a).
  - by rewrite length_replicate.
  - lia.
  - rewrite uv_replicate_false by done. cbn [Z.b2z]. rewrite Z.mul_0_l, Z.sub_0_r, Z.mul_0_r.
    by rewrite Z.mod_0_l by (pose proof (pow2_pos (length b)); lia).
  - rewrite Hu, Hlen, Hl, pow2_0. split; [|done]. f_equal. lia.
Qed.

Lemma mk_general_multiplier_value use_wtm a b :
  (0 < length a)%nat -> length a = length b ->
  uv eval (mk_general_multiplier use_wtm a b) = (uv eval a * uv eval b) mod pow2 (length a)
  /\ length (mk_general_multiplier use_wtm a b) = length a.
Proof.
  intros Ha Hl. destruct use_wtm; [by apply mk_wallace_multiplier_uv|].
  split; [by apply mk_array_multiplier_uv|by apply mk_array_multiplier_length].
Qed.

(** The product does not depend on the order of the factors. *)
Definition product (a b out : list E) : Prop :=
  uv eval out = (uv eval a * uv eval b) mod pow2 (length a) /\ length out = length a.

Lemma product_comm a b out : length a = length b -> product a b out -> product b a out.
Proof. unfold product. intros <-. by rewrite (Z.mul_comm (uv eval b)). Qed.

Lemma minus_one_product a b :
  length a = length b -> is_minus_one b = true -> product a b (mk_neg a).
Proof.
  intros Hl Hb. split; [|apply mk_neg_length].
  rewrite (mk_neg_uv eval), (is_minus_one_uv eval b Hb), <- Hl.
  apply (mod_eq _ _ _ (- uv eval a)). lia.
Qed.

(** The part of [mk_multiplier] after the swap. *)
Lemma mk_multiplier_tail use_wtm use_bcm a b :
  (0 < length a)%nat -> length a = length b ->
  product a b (match mk_const_multiplier use_bcm a b with
               | Some out => out
               | None => match mk_const_multiplier use_bcm b a with
                         | Some out => out
                         | None => mk_general_multiplier use_wtm a b
                         end
               end).
Proof.
  intros Ha Hl.
  destruct (mk_const_multiplier use_bcm a b) as [out|] eqn:H1;
    [by apply (mk_const_multiplier_value use_bcm a b)|].
  destruct (mk_const_multiplier use_bcm b a) as [out|] eqn:H2;
    [|by apply mk_general_multiplier_value].
  apply product_comm; [done|]. by apply (mk_const_multiplier_value use_bcm b a).
Qed.

Lemma mk_multiplier_value use_wtm use_bcm a b :
  (0 < length a)%nat -> length a = length b ->
  product a b (mk_multiplier use_wtm use_bcm a b).
Proof.
  intros Ha Hl. unfold mk_multiplier. destruct (is_numeral a) as [n_b|] eqn:Hna.
  - apply product_comm; [done|].
    destruct (is_minus_one a) eqn:Hm; [by apply minus_one_product|].
    destruct (is_numeral b) as [n_a|] eqn:Hnb; [|apply mk_multiplier_tail; lia].
    split; [|apply (num2bits_length eval)].
    by rewrite num2bits_uv, (is_numeral_uv eval a _ Hna), (is_numeral_uv eval b _ Hnb) by done.
  - destruct (is_minus_one b) eqn:Hm; [by apply minus_one_product|].
    rewrite Hna. by apply mk_multiplier_tail.
Qed.
End Correct.
