(* ===== verification/BlastOverflow.v ===== *)
(** bit_blaster_tpl: the predicates that say whether a multiplication fits its
    width. Both look at one more bit of the product and at the positions of the
    leading bits of the factors. *)
From S2P Require Import Prelude Bits Gates BlastArith BlastMul.

Section Circuits.
Context {E : Type} `{Gates E} (use_wtm use_bcm : bool).

(** One turn of the loop of [mk_umul_no_overflow]; the state is [ovf], [v]. *)
Definition umul_step (a b : list E) (s : E * E) (i : nat) : E * E :=
  let '(ovf, v) := s in
  let ovf := mk_or ovf (bit a (length a - i)) in
  let tmp := mk_and ovf (bit b i) in
  (ovf, mk_or tmp v).

Definition mk_umul_no_overflow (a b : list E) : E :=
  let sz := length a in
  let mult_cout := mk_multiplier use_wtm use_bcm (a ++ [mk_false]) (b ++ [mk_false]) in
  let overflow1 := bit mult_cout sz in
  let overflow2 := (foldl (umul_step a b) (mk_false, mk_false) (seq 1 (sz - 1))).2 in
  mk_not (mk_or overflow1 overflow2).

(** One turn of the loop of [mk_smul_no_overflow_core]; the state is [a_acc], [v]. *)
Definition smul_step (a b : list E) (s : E * E) (i : nat) : E * E :=
  let '(a_acc, v) := s in
  let sz := length a in
  let b' := mk_xor (bit b (sz - 1)) (bit b i) in
  let a' := mk_xor (bit a (sz - 1)) (bit a (sz - 1 - i)) in
  let a_acc := mk_or a' a_acc in
  let tmp := mk_and a_acc b' in
  (a_acc, mk_or tmp v).

Definition mk_smul_no_overflow_core (a b : list E) (is_overflow : bool) : E :=
  let sz := length a in
  let mult_cout := mk_multiplier use_wtm use_bcm (a ++ [bit a (sz - 1)]) (b ++ [bit b (sz - 1)]) in
  let overflow1 := mk_xor (bit mult_cout sz) (bit mult_cout (sz - 1)) in
  let overflow2 := (foldl (smul_step a b) (mk_false, mk_false) (seq 1 (sz - 2))).2 in
  let overflow := mk_or overflow1 overflow2 in
  let sign := if is_overflow then mk_iff (bit a (sz - 1)) (bit b (sz - 1))
              else mk_xor (bit a (sz - 1)) (bit b (sz - 1)) in
  mk_not (mk_and sign overflow).

Definition mk_smul_no_overflow (a b : list E) : E := mk_smul_no_overflow_core a b true.
Definition mk_smul_no_underflow (a b : list E) : E := mk_smul_no_overflow_core a b false.
End Circuits.

(** ** The loops on numbers *)

Definition testb (x : Z) (i : nat) : bool := Z.testbit x (Z.of_nat i).

Lemma testb_le x i : 0 <= x -> testb x i = true -> pow2 i <= x.
Proof.
  intros Hx Ht. destruct (decide (pow2 i <= x)) as [|Hn]; [done|exfalso].
  unfold testb in Ht. rewrite Z.testbit_true in Ht by lia.
  change (2 ^ Z.of_nat i) with (pow2 i) in Ht. by rewrite Z.div_small in Ht by lia.
Qed.

Lemma testb_top x i : pow2 i <= x < pow2 (S i) -> testb x i = true.
Proof.
  rewrite pow2_S. intros Hx. unfold testb. rewrite Z.testbit_true by lia.
  change (2 ^ Z.of_nat i) with (pow2 i).
  replace (x / pow2 i) with 1; [done|].
  apply (Z.div_unique _ _ _ (x - pow2 i)); lia.
Qed.

Lemma leading_step x i : 0 <= x -> (pow2 i <=? x) = (pow2 (S i) <=? x) || testb x i.
Proof.
  intros Hx. apply eq_true_iff_eq. rewrite orb_true_iff, !Z.leb_le, pow2_S.
  pose proof (pow2_pos i). split.
  - intros Hle. destruct (decide (2 * pow2 i <= x)); [by left|right].
    apply testb_top. rewrite pow2_S. lia.
  - intros [Hle|Ht]; [lia|]. by apply testb_le.
Qed.

(** Some bit [i] of [y] faces a leading bit of [x] at or above [m - i]. *)
Definition meets (x y : Z) (m k : nat) : bool :=
  existsb (fun i => (pow2 (m - i) <=? x) && testb y i) (seq 1 k).

(** Both loops: [acc] collects the bits of [x] from the top. *)
Definition leading_loop (x y : Z) (m k : nat) : bool * bool :=
  foldl (fun s i => let acc := testb x (m - i) || s.1 in (acc, (acc && testb y i) || s.2))
    (false, false) (seq 1 k).

Lemma leading_loop_meets x y m k :
  0 <= x < pow2 m -> (k <= m)%nat ->
  leading_loop x y m k = (pow2 (m - k) <=? x, meets x y m k).
Proof.
  intros Hx. unfold leading_loop, meets. induction k as [|k IH]; intros Hk.
  - cbn [seq foldl existsb]. rewrite Nat.sub_0_r.
    by rewrite (proj2 (Z.leb_gt (pow2 m) x)) by lia.
  - rewrite seq_S, foldl_app, existsb_app, IH by lia. cbn [foldl existsb fst snd Nat.add].
    assert (testb x (m - S k) || (pow2 (m - k) <=? x) = (pow2 (m - S k) <=? x)) as ->.
    { rewrite (leading_step x (m - S k)) by lia. rewrite orb_comm. do 3 f_equal. lia. }
    f_equal. rewrite orb_false_r. apply orb_comm.
Qed.

Lemma meets_true x y m k :
  0 <= y -> meets x y m k = true ->
  exists i, (1 <= i <= k)%nat /\ pow2 (m - i) <= x /\ pow2 i <= y.
Proof.
  intros Hy. unfold meets. rewrite existsb_exists.
  intros (i & Hi%in_seq & [Hx Ht]%andb_true_iff). exists i.
  split; [lia|]. split; [by apply Z.leb_le|]. by apply testb_le.
Qed.

(** Without a meeting pair, [y] is small or [x] is small against its leading bit. *)
Lemma meets_false x y m k :
  0 <= y < pow2 (S k) -> meets x y m k = false ->
  y < 2 \/ exists i, (1 <= i <= k)%nat /\ x < pow2 (m - i) /\ pow2 i <= y < pow2 (S i).
Proof.
  intros Hy Hm. destruct (decide (y < 2)) as [|Hy2]; [by left|right].
  pose proof (Z.log2_spec y ltac:(lia)) as Hlog. pose proof (Z.log2_nonneg y).
  set (i := Z.to_nat (Z.log2 y)).
  assert (pow2 i = 2 ^ Z.log2 y) as Hp by (unfold pow2, i; by rewrite Z2Nat.id).
  assert (pow2 i <= y < pow2 (S i)) as Hi.
  { rewrite pow2_S, Hp, <- Z.pow_succ_r by done. exact Hlog. }
  exists i. assert (1 <= i <= k)%nat as Hik.
  { split.
    - destruct (decide (i = 0)%nat) as [H0|]; [|lia]. rewrite H0, pow2_S, pow2_0 in Hi. lia.
    - destruct (decide (i <= k)%nat) as [|Hn]; [done|].
      pose proof (pow2_le (S k) i ltac:(lia)). lia. }
  split; [done|]. split; [|done]. destruct (decide (x < pow2 (m - i))) as [|Hn]; [done|exfalso].
  apply not_true_iff_false in Hm. apply Hm. unfold meets. apply existsb_exists.
  exists i. split; [apply in_seq; lia|]. apply andb_true_iff.
  split; [apply Z.leb_le; lia|by apply testb_top].
Qed.

(** One's-complement magnitude. *)
Definition mag (x : Z) : Z := if x <? 0 then - x - 1 else x.

(** The two highest bits differ exactly in the middle half of the range. *)
Lemma top_bits_differ q m :
  0 <= q < 4 * pow2 m ->
  xorb (testb q (S m)) (testb q m) = (pow2 m <=? q) && (q <? 3 * pow2 m).
Proof.
  intros Hq. pose proof (pow2_pos m). unfold testb. rewrite !Z.testbit_eqb by lia.
  change (2 ^ Z.of_nat ?k) with (pow2 k). rewrite pow2_S, (Z.mul_comm 2), <- Z.div_div by lia.
  pose proof (Z.div_mod q (pow2 m)). pose proof (Z.mod_pos_bound q (pow2 m)).
  set (d := q / pow2 m) in *. assert (d = 0 \/ d = 1 \/ d = 2 \/ d = 3) as Hd by nia.
  assert (pow2 m <= q <-> 1 <= d) as Hlo by nia.
  assert (q < 3 * pow2 m <-> d < 3) as Hhi by nia.
  apply eq_true_iff_eq. rewrite andb_true_iff, Z.leb_le, Z.ltb_lt, Hlo, Hhi.
  destruct Hd as [-> | [-> | [-> | ->]]]; cbn; split; (done || lia).
Qed.

(** The bits of a product that is at most twice too large. *)
Lemma product_overflow p m :
  - pow2 (S m) <= p <= pow2 (S m) ->
  xorb (testb (p mod pow2 (S (S m))) (S m)) (testb (p mod pow2 (S (S m))) m)
  = negb ((- pow2 m <=? p) && (p <? pow2 m)).
Proof.
  rewrite !pow2_S. intros Hp. pose proof (pow2_pos m).
  rewrite top_bits_differ by (pose proof (Z.mod_pos_bound p (2 * (2 * pow2 m))); lia).
  apply eq_true_iff_eq. rewrite negb_true_iff, andb_true_iff, andb_false_iff.
  rewrite !Z.leb_gt, !Z.ltb_ge, Z.leb_le, Z.ltb_lt.
  destruct (decide (0 <= p)) as [Hpos|Hneg].
  - rewrite Z.mod_small by lia. lia.
  - rewrite <- (Z.mod_add p 1), Z.mod_small by lia. lia.
Qed.

Section Signed.
Context (x y : Z) (m : nat).
Context (Hx : - pow2 m <= x < pow2 m) (Hy : - pow2 m <= y < pow2 m).

Lemma mag_bound z : - pow2 m <= z < pow2 m -> 0 <= mag z < pow2 m.
Proof using. unfold mag. destruct (Z.ltb_spec z 0); lia. Qed.

Lemma signed_meets_true k :
  meets (mag x) (mag y) m k = true -> (k <= m)%nat ->
  (Bool.eqb (x <? 0) (y <? 0) = true -> pow2 m <= x * y)
  /\ (Bool.eqb (x <? 0) (y <? 0) = false -> x * y < - pow2 m).
Proof using Hx Hy.
  intros Hm Hk. apply meets_true in Hm as (i & Hi & Hxi & Hyi); [|by apply mag_bound].
  assert (pow2 m = pow2 (m - i) * pow2 i) as -> by (rewrite <- pow2_add; f_equal; lia).
  pose proof (pow2_pos i). pose proof (pow2_pos (m - i)). unfold mag in *.
  destruct (Z.ltb_spec x 0), (Z.ltb_spec y 0); cbn; split; try done; intros _; nia.
Qed.

Lemma abs_mag z : Z.abs z <= mag z + 1.
Proof using. unfold mag. destruct (Z.ltb_spec z 0); lia. Qed.

Lemma signed_meets_false :
  meets (mag x) (mag y) m (m - 1) = false -> Z.abs (x * y) <= pow2 (S m).
Proof using Hx Hy.
  intros Hm. rewrite Z.abs_mul, pow2_S. pose proof (abs_mag x). pose proof (abs_mag y).
  pose proof (mag_bound x Hx). pose proof (mag_bound y Hy).
  assert (mag y < 2 \/ exists i, (1 <= i <= m - 1)%nat /\ mag x < pow2 (m - i)
    /\ pow2 i <= mag y < pow2 (S i)) as [Hs|(i & Hi & Hxi & Hyi)].
  - destruct (decide (m = 0)%nat) as [->|]; [left; rewrite pow2_0 in *; lia|].
    apply meets_false; [|done]. by replace (S (m - 1)) with m by lia.
  - nia.
  - assert (2 * pow2 m = pow2 (m - i) * pow2 (S i)) as ->
      by (rewrite <- pow2_S, <- pow2_add; f_equal; lia).
    apply Z.mul_le_mono_nonneg; lia.
Qed.
End Signed.

Section Correct.
Context {E : Type} `{Gates E} (eval : E -> bool) `{!GatesOk eval}.
Context (use_wtm use_bcm : bool).

(** ** Unsigned *)

Lemma umul_loop a b k :
  (k <= length a)%nat -> length a = length b ->
  eval (foldl (umul_step a b) (mk_false, mk_false) (seq 1 k)).2
  = meets (uv eval a) (uv eval b) (length a) k.
Proof.
  intros Hk Hl.
  pose proof (leading_loop_meets (uv eval a) (uv eval b) (length a) k (uv_bounds eval a) Hk) as Hlm.
  assert ((fun s : E * E => (eval s.1, eval s.2))
    (foldl (umul_step a b) (mk_false, mk_false) (seq 1 k))
    = leading_loop (uv eval a) (uv eval b) (length a) k) as Hf.
  { unfold leading_loop. clear Hk Hlm. induction k as [|k IH].
    - cbn. by rewrite eval_false.
    - rewrite seq_S, !foldl_app, <- IH. cbn [foldl].
      destruct (foldl (umul_step a b) (mk_false, mk_false) (seq 1 k)) as [ovf v].
      unfold umul_step, testb. rewrite !uv_testbit by done. cbn [fst snd]. gates.
      by rewrite (orb_comm (eval ovf)). }
  rewrite Hlm in Hf. by injection Hf as _ ->.
Qed.

Lemma bit_uv l i : eval (bit l i) = testb (uv eval l) i.
Proof. unfold testb. by rewrite uv_testbit. Qed.

Lemma mk_umul_no_overflow_value a b :
  (0 < length a)%nat -> length a = length b ->
  eval (mk_umul_no_overflow use_wtm use_bcm a b) = (uv eval a * uv eval b <? pow2 (length a)).
Proof.
  intros Ha Hl. unfold mk_umul_no_overflow. set (n := length a).
  set (x := uv eval a). set (y := uv eval b).
  destruct (mk_multiplier_value eval use_wtm use_bcm (a ++ [mk_false]) (b ++ [mk_false])) as [Hm _].
  { rewrite length_app. cbn. lia. } { rewrite !length_app. cbn. lia. }
  rewrite !uv_snoc, eval_false in Hm by done. cbn [Z.b2z] in Hm.
  rewrite !Z.mul_0_l, !Z.add_0_r, length_app, Nat.add_1_r in Hm. fold x y n in Hm.
  gates. rewrite umul_loop, bit_uv, Hm by (lia || done). fold x y n.
  assert (0 <= x < pow2 n) as Hx by apply uv_bounds.
  assert (0 <= y < pow2 n) as Hy by (unfold y, n; rewrite Hl; apply uv_bounds).
  pose proof (pow2_pos n). pose proof (pow2_S n).
  assert (testb ((x * y) mod pow2 (S n)) n || meets x y n (n - 1) = (pow2 n <=? x * y)) as ->.
  2: { rewrite Z.leb_antisym. by rewrite negb_involutive. }
  apply eq_true_iff_eq. rewrite orb_true_iff, Z.leb_le.
  pose proof (Z.mod_pos_bound (x * y) (pow2 (S n))).
  pose proof (Z.mod_le (x * y) (pow2 (S n))). split.
  - intros [Ht|Hme].
    + apply testb_le in Ht; [nia|lia].
    + apply meets_true in Hme as (i & Hi & Hxi & Hyi); [|lia].
      replace (pow2 n) with (pow2 (n - i) * pow2 i) by (rewrite <- pow2_add; f_equal; lia).
      pose proof (pow2_pos i). pose proof (pow2_pos (n - i)). nia.
  - intros Hle. destruct (meets x y n (n - 1)) eqn:Hme; [by right|left].
    assert (x * y < pow2 (S n)) as Hlt.
    { apply meets_false in Hme as [Hy2|(i & Hi & Hxi & Hyi)]; [nia| |].
      - replace (pow2 (S n)) with (pow2 (n - i) * pow2 (S i)) by (rewrite <- pow2_add; f_equal; lia).
        pose proof (pow2_pos i). pose proof (pow2_pos (n - i)). nia.
      - replace (S (n - 1)) with n by lia. done. }
    rewrite Z.mod_small by nia. by apply testb_top.
Qed.

(** ** Signed *)

Lemma bit_last l : (0 < length l)%nat -> bit l (length l - 1) = top l.
Proof.
  unfold bit, top. generalize (mk_false : E). intros d.
  induction l as [|x [|y l] IH]; cbn [length]; [lia|done|]. intros _.
  change (List.last (x :: y :: l) d) with (List.last (y :: l) d).
  rewrite <- IH by (cbn; lia). cbn [length]. by replace (S (S (length l)) - 1)%nat with (S (S (length l) - 1)) by lia.
Qed.

Lemma sv_bounds a : (0 < length a)%nat -> - pow2 (length a - 1) <= sv eval a < pow2 (length a - 1).
Proof. intros Ha. unfold sv. rewrite <- (length_map eval a) in *. by apply sval_bounds. Qed.

Lemma sv_negative a : (0 < length a)%nat -> eval (top a) = (sv eval a <? 0).
Proof.
  intros Ha. rewrite (eval_top eval). apply eq_true_iff_eq. rewrite Z.ltb_lt. unfold sv.
  symmetry. apply sval_neg. by rewrite length_map.
Qed.

Lemma sv_testb a i : (i < length a)%nat -> testb (sv eval a) i = eval (bit a i).
Proof.
  intros Hi. rewrite bit_uv. unfold testb.
  rewrite <- (Z.mod_pow2_bits_low (sv eval a) (Z.of_nat (length a))) by lia.
  rewrite <- (Z.mod_pow2_bits_low (uv eval a) (Z.of_nat (length a))) by lia.
  change (2 ^ Z.of_nat (length a)) with (pow2 (length a)). f_equal.
  rewrite uv_mod. unfold sv, uv. rewrite <- (length_map eval a). apply sval_uval_mod.
Qed.

Lemma mag_testb a i :
  (i < length a)%nat -> xorb (eval (bit a (length a - 1))) (eval (bit a i)) = testb (mag (sv eval a)) i.
Proof.
  intros Hi. rewrite bit_last, sv_negative, <- sv_testb by lia. unfold mag, testb.
  destruct (sv eval a <? 0); [|by destruct (Z.testbit _ _)].
  replace (- sv eval a - 1) with (Z.lnot (sv eval a)) by (unfold Z.lnot; lia).
  rewrite Z.lnot_spec by lia. by destruct (Z.testbit _ _).
Qed.

Lemma mag_bounds a : (0 < length a)%nat -> 0 <= mag (sv eval a) < pow2 (length a - 1).
Proof.
  intros Ha. pose proof (sv_bounds a Ha). unfold mag. destruct (Z.ltb_spec (sv eval a) 0); lia.
Qed.

Lemma smul_loop a b k :
  (0 < length a)%nat -> (k <= length a - 1)%nat -> length a = length b ->
  eval (foldl (smul_step a b) (mk_false, mk_false) (seq 1 k)).2
  = meets (mag (sv eval a)) (mag (sv eval b)) (length a - 1) k.
Proof.
  intros Ha Hk Hl.
  pose proof (leading_loop_meets (mag (sv eval a)) (mag (sv eval b)) (length a - 1) k
    (mag_bounds a Ha) Hk) as Hlm.
  assert ((fun s : E * E => (eval s.1, eval s.2))
    (foldl (smul_step a b) (mk_false, mk_false) (seq 1 k))
    = leading_loop (mag (sv eval a)) (mag (sv eval b)) (length a - 1) k) as Hf.
  { unfold leading_loop. clear Hlm. induction k as [|k IH].
    - cbn. by rewrite eval_false.
    - rewrite seq_S, !foldl_app, <- IH by lia. cbn [foldl].
      destruct (foldl (smul_step a b) (mk_false, mk_false) (seq 1 k)) as [acc v].
      unfold smul_step. cbn [fst snd]. gates.
      rewrite <- !mag_testb by lia. by rewrite <- Hl. }
  rewrite Hlm in Hf. by injection Hf as _ ->.
Qed.

(** The extra sign bit of a factor. *)
Lemma sign_extended a :
  (0 < length a)%nat ->
  uv eval (a ++ [bit a (length a - 1)]) = sv eval a mod pow2 (S (length a)).
Proof.
  intros Ha. rewrite bit_last, uv_snoc, sv_uv by done.
  pose proof (uv_bounds eval a). rewrite pow2_S.
  pose proof (pow2_pos (length a)). symmetry.
  rewrite <- (Z.mod_small (uv eval a + _) (2 * pow2 (length a)))
    by (destruct (eval (top a)); cbn [Z.b2z]; lia).
  apply (mod_eq _ _ _ (- Z.b2z (eval (top a)))). destruct (eval (top a)); cbn [Z.b2z]; lia.
Qed.

(** The test on the product and the loop together. *)
Lemma smul_overflow a b :
  (0 < length a)%nat -> length a = length b ->
  let x := sv eval a in let y := sv eval b in let m := (length a - 1)%nat in
  let p := (x * y) mod pow2 (S (S m)) in
  let ovf := xorb (testb p (S m)) (testb p m) || meets (mag x) (mag y) m (m - 1) in
  (Bool.eqb (x <? 0) (y <? 0) && ovf = (pow2 m <=? x * y))
  /\ (xorb (x <? 0) (y <? 0) && ovf = (x * y <? - pow2 m)).
Proof.
  intros Ha Hl x y m p ovf. assert (- pow2 m <= x < pow2 m) as Hx by (by apply sv_bounds).
  assert (- pow2 m <= y < pow2 m) as Hy by (unfold y, m; rewrite Hl in *; by apply sv_bounds).
  assert (forall u v, xorb u v = negb (Bool.eqb u v)) as Hxor by (by intros [] []).
  rewrite Hxor. pose proof (pow2_pos m).
  destruct (meets (mag x) (mag y) m (m - 1)) eqn:Hm; unfold ovf.
  - rewrite orb_true_r, !andb_true_r.
    apply signed_meets_true in Hm as [H1 H2]; [|done|done|lia].
    destruct (Bool.eqb (x <? 0) (y <? 0)); cbn [negb]; split; symmetry;
      rewrite ?Z.leb_le, ?Z.leb_gt, ?Z.ltb_lt, ?Z.ltb_ge; try (specialize (H1 eq_refl); lia);
      specialize (H2 eq_refl); lia.
  - rewrite orb_false_r. apply signed_meets_false in Hm; [|done|done].
    unfold p. rewrite product_overflow by lia.
    split; apply eq_true_iff_eq; rewrite andb_true_iff, ?negb_true_iff, ?andb_false_iff;
      rewrite ?eqb_true_iff, ?eqb_false_iff, ?Z.leb_gt, ?Z.ltb_ge, ?Z.leb_le, ?Z.ltb_lt;
      destruct (Z.ltb_spec x 0), (Z.ltb_spec y 0); split; try nia; intuition (try done; nia).
Qed.

Lemma mk_smul_no_overflow_core_value a b is_overflow :
  (0 < length a)%nat -> length a = length b ->
  eval (mk_smul_no_overflow_core use_wtm use_bcm a b is_overflow)
  = if is_overflow then sv eval a * sv eval b <? pow2 (length a - 1)
    else - pow2 (length a - 1) <=? sv eval a * sv eval b.
Proof.
  intros Ha Hl. unfold mk_smul_no_overflow_core.
  destruct (mk_multiplier_value eval use_wtm use_bcm (a ++ [bit a (length a - 1)])
    (b ++ [bit b (length a - 1)])) as [Hm _].
  { rewrite length_app. cbn. lia. } { rewrite !length_app. cbn. lia. }
  rewrite (sign_extended a) in Hm by done.
  replace (bit b (length a - 1)) with (bit b (length b - 1)) in Hm at 2 by (by rewrite Hl).
  rewrite (sign_extended b), length_app, Nat.add_1_r, <- Hl in Hm by lia.
  rewrite <- Z.mul_mod in Hm by (pose proof (pow2_pos (S (length a))); lia).
  destruct (smul_overflow a b Ha Hl) as [Hov Hun].
  replace (S (S (length a - 1))) with (S (length a)) in * by lia.
  replace (S (length a - 1)) with (length a) in * by lia.
  replace (length a - 1 - 1)%nat with (length a - 2)%nat in * by lia.
  gates. rewrite smul_loop, !bit_uv, Hm by lia.
  assert (eval (if is_overflow then mk_iff (bit a (length a - 1)) (bit b (length a - 1))
      else mk_xor (bit a (length a - 1)) (bit b (length a - 1)))
    = if is_overflow then Bool.eqb (sv eval a <? 0) (sv eval b <? 0)
      else xorb (sv eval a <? 0) (sv eval b <? 0)) as ->.
  { rewrite bit_last by done. rewrite Hl, bit_last by lia.
    rewrite <- !sv_negative by lia. destruct is_overflow; by gates. }
  destruct is_overflow; [rewrite Hov|rewrite Hun].
  - by rewrite <- Z.ltb_antisym.
  - by rewrite <- Z.leb_antisym.
Qed.
End Correct.
