(* ===== verification/BlastCompare.v ===== *)
(** bit_blaster_tpl: equality and order predicates. *)
From S2P Require Import Prelude Bits Gates BlastArith BlastOverflow.

Section Circuits.
Context {E : Type} `{Gates E}.

Definition mk_eq (a b : list E) : E := mk_and_n (zip_with mk_iff a b).

Definition mk_comp (a b : list E) : list E := [mk_eq a b].

(** Literals that say that the bits are those of [n]. *)
Fixpoint is_eq_bits (a : list E) (n : Z) : list E :=
  match a with
  | [] => []
  | x :: a => (if n mod 2 =? 0 then mk_not x else x) :: is_eq_bits a (n / 2)
  end.
Definition mk_is_eq (a : list E) (n : Z) : E := mk_and_n (is_eq_bits a n).

(** The equalities with 0, 1, ..., [sz - 1]. *)
Definition mk_eqs (a : list E) : list E :=
  map (fun i => mk_is_eq a (Z.of_nat i)) (seq 0 (length a)).

Definition le_step (out : E) (p : E * E) : E := mk_ge2 (mk_not p.1) p.2 out.

(** [mk_le<Signed>]: from the lowest bit up; the sign bits are compared the
    other way round. *)
Definition mk_le (signed : bool) (a b : list E) : E :=
  let out := mk_or (mk_not (bit a 0)) (bit b 0) in
  if signed then
    let out := foldl le_step out (zip (drop 1 (removelast a)) (drop 1 (removelast b))) in
    mk_ge2 (mk_not (top b)) (top a) out
  else foldl le_step out (zip (drop 1 a) (drop 1 b)).

Definition mk_sle : list E -> list E -> E := mk_le true.
Definition mk_ule : list E -> list E -> E := mk_le false.
End Circuits.

Section Correct.
Context {E : Type} `{Gates E} (eval : E -> bool) `{!GatesOk eval}.

Lemma uv_eq_cons x y u v :
  (Z.b2z x + 2 * u =? Z.b2z y + 2 * v) = Bool.eqb x y && (u =? v).
Proof.
  apply eq_true_iff_eq. rewrite andb_true_iff, !Z.eqb_eq, eqb_true_iff.
  destruct x, y; cbn; split; try lia; intros [? ?]; done || lia.
Qed.

Lemma mk_eq_value a b :
  length a = length b -> eval (mk_eq a b) = (uv eval a =? uv eval b).
Proof.
  unfold mk_eq. gates. revert b. induction a as [|x a IH]; intros [|y b]; try done.
  cbn [length]. intros [= Hl]. cbn [zip_with forallb].
  by rewrite !uv_cons, uv_eq_cons, IH, eval_iff.
Qed.

Lemma mk_is_eq_value a n : eval (mk_is_eq a n) = (uv eval a =? n mod pow2 (length a)).
Proof.
  unfold mk_is_eq. gates. revert n. induction a as [|x a IH]; intros n.
  - cbn. by rewrite Z.mod_1_r.
  - cbn [is_eq_bits forallb length]. rewrite IH, uv_cons, pow2_S.
    rewrite Z.rem_mul_r, Zmod_odd by (pose proof (pow2_pos (length a)); lia).
    replace (if Z.odd n then 1 else 0) with (Z.b2z (Z.odd n)) by (by destruct (Z.odd n)).
    rewrite uv_eq_cons. f_equal. destruct (Z.odd n); cbn; gates; by destruct (eval x).
Qed.

Lemma mk_eqs_value a i :
  (i < length a)%nat -> eval (bit (mk_eqs a) i) = (uv eval a =? Z.of_nat i).
Proof.
  intros Hi. unfold mk_eqs, bit. erewrite nth_lookup_Some.
  2: { rewrite list_lookup_fmap, lookup_seq_lt by done. done. }
  cbn [Nat.add]. rewrite mk_is_eq_value. f_equal. apply Z.mod_small.
  pose proof (pow2_nat_lt (length a)). lia.
Qed.

(** Comparing one more bit. *)
Lemma le_cons x y u v :
  (Z.b2z x + 2 * u <=? Z.b2z y + 2 * v) = if u =? v then implb x y else u <? v.
Proof.
  apply eq_true_iff_eq. rewrite Z.leb_le.
  destruct (Z.eqb_spec u v) as [->|Hne]; [destruct x, y; cbn; split; done || lia|].
  rewrite Z.ltb_lt. destruct x, y; cbn; lia.
Qed.

Lemma le_step_snoc out l1 l2 x y :
  length l1 = length l2 ->
  eval out = (uv eval l1 <=? uv eval l2) ->
  eval (le_step out (x, y)) = (uv eval (l1 ++ [x]) <=? uv eval (l2 ++ [y])).
Proof.
  intros Hl Ho. unfold le_step. cbn [fst snd]. gates. rewrite Ho, !uv_snoc, <- Hl.
  pose proof (uv_bounds eval l1). pose proof (uv_bounds eval l2) as H2. rewrite <- Hl in H2.
  apply eq_true_iff_eq. unfold majority.
  destruct (Z.leb_spec (uv eval l1) (uv eval l2)), (eval x), (eval y); cbn;
    rewrite Z.leb_le; split; done || lia.
Qed.

Lemma le_steps out l1 l2 a b :
  length l1 = length l2 -> length a = length b ->
  eval out = (uv eval l1 <=? uv eval l2) ->
  eval (foldl le_step out (zip a b)) = (uv eval (l1 ++ a) <=? uv eval (l2 ++ b)).
Proof.
  revert out l1 l2 b. induction a as [|x a IH]; intros out l1 l2 [|y b] Hl; try done.
  - intros _ Ho. by rewrite !app_nil_r.
  - cbn [length zip_with foldl]. intros [= Hab] Ho.
    rewrite (IH _ (l1 ++ [x]) (l2 ++ [y])); [by rewrite <- !app_assoc| |done|].
    + rewrite !length_app. cbn. lia.
    + by apply le_step_snoc.
Qed.

Lemma le_first a b :
  (0 < length a)%nat -> length a = length b ->
  eval (mk_or (mk_not (bit a 0)) (bit b 0)) = (uv eval (take 1 a) <=? uv eval (take 1 b)).
Proof.
  intros Ha Hl. destruct a as [|x a], b as [|y b]; try done; [cbn in Ha; lia|].
  cbn [take bit nth]. rewrite !uv_cons. gates. by destruct (eval x), (eval y).
Qed.

Lemma mk_ule_value a b :
  (0 < length a)%nat -> length a = length b -> eval (mk_ule a b) = (uv eval a <=? uv eval b).
Proof.
  intros Ha Hl. unfold mk_ule, mk_le.
  rewrite (le_steps _ (take 1 a) (take 1 b)); rewrite ?take_drop; try done.
  - rewrite !length_take. lia.
  - rewrite !length_drop. lia.
  - by apply le_first.
Qed.

Lemma sv_split a : (0 < length a)%nat ->
  sv eval a = uv eval (removelast a) - Z.b2z (eval (top a)) * pow2 (length a - 1).
Proof.
  intros Ha. destruct a as [|x a _] using rev_ind; [cbn in Ha; lia|].
  rewrite sv_uv, uv_snoc, removelast_last, length_app by done. unfold top.
  rewrite List.last_last. cbn [length]. rewrite Nat.add_sub, Nat.add_1_r, pow2_S.
  destruct (eval x); cbn; lia.
Qed.

Lemma le_sign p q x y u v :
  0 <= u < p -> 0 <= v < p -> q = (u <=? v) ->
  majority (negb y) x q = (u - Z.b2z x * p <=? v - Z.b2z y * p).
Proof.
  intros Hu Hv ->. apply eq_true_iff_eq. rewrite Z.leb_le. unfold majority.
  destruct (Z.leb_spec u v), x, y; cbn; split; done || lia.
Qed.

Lemma mk_sle_value a b :
  (0 < length a)%nat -> length a = length b -> eval (mk_sle a b) = (sv eval a <=? sv eval b).
Proof.
  intros Ha Hl. unfold mk_sle, mk_le. rewrite !sv_split, <- Hl by lia. gates.
  assert (length (removelast a) = (length a - 1)%nat) as Hra
    by (rewrite removelast_firstn_len, length_take; lia).
  assert (length (removelast b) = (length a - 1)%nat) as Hrb
    by (rewrite removelast_firstn_len, length_take; lia).
  destruct (decide (length a = 1)%nat) as [H1|Hne].
  - destruct a as [|x [|]], b as [|y [|]]; try done. cbn [removelast drop zip_with foldl bit nth top List.last].
    gates. by destruct (eval x), (eval y).
  - pose proof (uv_bounds eval (removelast a)) as Hba. pose proof (uv_bounds eval (removelast b)) as Hbb.
    rewrite Hra in Hba. rewrite Hrb in Hbb. apply le_sign; [done|done|].
    rewrite (le_steps _ (take 1 (removelast a)) (take 1 (removelast b)));
      rewrite ?take_drop, ?length_take, ?length_drop; try done; try lia.
    rewrite <- le_first by lia.
    destruct a as [|x [|x' a]], b as [|y [|y' b]]; done || (cbn in Hne; lia).
Qed.
End Correct.
