(* ===== verification/BlastDiv.v ===== *)
(** bit_blaster_tpl: division and remainder, unsigned by restoring division and
    signed on top of it. Division by zero follows SMT-LIB: the quotient is all
    ones and the remainder is the dividend. *)
From S2P Require Import Prelude Bits Gates BlastArith BlastOverflow BlastCompare.

Section Circuits.
Context {E : Type} `{Gates E}.

(** Stages of the restoring division: [p] is the residual, [rest] the bits of
    the dividend still to come, highest first. Quotient bits are listed
    highest first. *)
Fixpoint udiv_loop (rest p b : list E) : list E * list E :=
  let '(t, q) := mk_subtracter p b in
  match rest with
  | [] => ([q], mk_multiplexer q t p)
  | x :: rest =>
      let '(qs, r) := udiv_loop rest (x :: mk_multiplexer q (removelast t) (removelast p)) b in
      (q :: qs, r)
  end.

Definition mk_udiv_urem (a b : list E) : list E * list E :=
  let '(qs, r) := udiv_loop (rev (removelast a))
                    (top a :: replicate (length a - 1) mk_false) b in
  (rev qs, r).

Definition mk_udiv (a b : list E) : list E := (mk_udiv_urem a b).1.
Definition mk_urem (a b : list E) : list E := (mk_udiv_urem a b).2.

Definition mk_sdiv (a b : list E) : list E :=
  if is_false (top a) && is_false (top b) then mk_udiv a b
  else if is_false (top a) && is_true (top b) then mk_neg (mk_udiv a (mk_neg b))
  else if is_true (top a) && is_false (top b) then mk_neg (mk_udiv (mk_neg a) b)
  else if is_true (top a) && is_true (top b) then mk_udiv (mk_neg a) (mk_neg b)
  else
    let udiv_bits := mk_udiv (mk_abs a) (mk_abs b) in
    mk_multiplexer (mk_iff (top a) (top b)) udiv_bits (mk_neg udiv_bits).

(** [rational::is_power_of_two] *)
Definition power_of_two (v : Z) : option nat :=
  if (0 <? v) && (v =? 2 ^ Z.log2 v) then Some (Z.to_nat (Z.log2 v)) else None.

(** Remainder of the magnitudes; [a urem 2^n] keeps the low bits. *)
Definition srem_magnitude (a b : list E) : list E :=
  match is_numeral (mk_abs b) ≫= power_of_two with
  | Some shift => mk_zero_extend (take shift (mk_abs a)) (length a - shift)
  | None => mk_urem (mk_abs a) (mk_abs b)
  end.

Definition mk_srem (a b : list E) : list E :=
  if is_false (top a) && is_false (top b) then mk_urem a b
  else if is_false (top a) && is_true (top b) then mk_urem a (mk_neg b)
  else if is_true (top a) && is_false (top b) then mk_neg (mk_urem (mk_neg a) b)
  else if is_true (top a) && is_true (top b) then mk_neg (mk_urem (mk_neg a) (mk_neg b))
  else
    let urem_bits := srem_magnitude a b in
    mk_multiplexer (top a) (mk_neg urem_bits) urem_bits.

Definition mk_smod (a b : list E) : list E :=
  let u := mk_urem (mk_abs a) (mk_abs b) in
  let neg_u := mk_neg u in
  let neg_u_add_b := mk_adder neg_u b in
  let u_add_b := mk_adder u b in
  let u_eq_0 := mk_eq u (num2bits 0 (length a)) in
  let ite1 := mk_multiplexer (top b) neg_u neg_u_add_b in
  let ite2 := mk_multiplexer (top b) u_add_b u in
  let body := mk_multiplexer (top a) ite1 ite2 in
  mk_multiplexer u_eq_0 u body.
End Circuits.

(** ** Signed division on numbers *)

(** Division by zero as in SMT-LIB. *)
Definition smt_udiv (n : nat) (x y : Z) : Z := if y =? 0 then pow2 n - 1 else x / y.
Definition smt_sdiv (x y : Z) : Z :=
  if y =? 0 then (if x <? 0 then 1 else -1) else Z.quot x y.

Lemma abs_div x y : 0 <= Z.abs x / Z.abs y <= Z.abs x.
Proof.
  destruct (decide (y = 0)) as [->|Hy]; [rewrite Z.div_0_r; lia|].
  split; [apply Z.div_pos; lia|]. apply Z.div_le_upper_bound; [lia|]. nia.
Qed.

Lemma abs_mod x y : 0 <= Z.abs x mod Z.abs y <= Z.abs x.
Proof.
  destruct (decide (y = 0)) as [->|Hy]; [rewrite Z.mod_0_r; lia|].
  pose proof (Z.mod_pos_bound (Z.abs x) (Z.abs y)).
  pose proof (Z.mod_le (Z.abs x) (Z.abs y)). lia.
Qed.

Lemma sgn_mul_abs x v : Z.sgn x * v = if x <? 0 then - v else if x =? 0 then 0 else v.
Proof. destruct (Z.ltb_spec x 0), (Z.eqb_spec x 0); lia. Qed.

(** The sign rule of [mk_sdiv]. *)
Lemma sdiv_signs n x y :
  Z.abs x < pow2 n ->
  (if Bool.eqb (x <? 0) (y <? 0) then smt_udiv n (Z.abs x) (Z.abs y)
   else (- smt_udiv n (Z.abs x) (Z.abs y)) mod pow2 n)
  = smt_sdiv x y mod pow2 n.
Proof.
  intros Hx. unfold smt_udiv, smt_sdiv. pose proof (pow2_pos n).
  destruct (Z.eqb_spec y 0) as [->|Hy]; cbn [Z.abs Z.eqb].
  - change (Z.abs 0 =? 0) with true. replace (0 <? 0) with false by done. cbv iota.
    destruct (x <? 0); cbn [Bool.eqb].
    + apply (mod_eq _ _ _ (-1)). lia.
    + rewrite <- (Z.mod_small (pow2 n - 1) (pow2 n)) by lia. apply (mod_eq _ _ _ 1). lia.
  - rewrite (proj2 (Z.eqb_neq (Z.abs y) 0)) by lia. pose proof (abs_div x y).
    rewrite Z.quot_div by done. set (q := Z.abs x / Z.abs y) in *.
    rewrite <- (Z.mod_small q (pow2 n)) at 1 by lia.
    destruct (Z.ltb_spec x 0), (Z.ltb_spec y 0); cbn [Bool.eqb]; f_equal; nia.
Qed.

Lemma srem_signs n x y :
  Z.abs x < pow2 n ->
  (if x <? 0 then (- (Z.abs x mod Z.abs y)) mod pow2 n else Z.abs x mod Z.abs y)
  = Z.rem x y mod pow2 n.
Proof.
  intros Hx. pose proof (abs_mod x y). pose proof (pow2_pos n).
  destruct (decide (y = 0)) as [->|Hy].
  - change (Z.abs 0) with 0 in *. rewrite Z.rem_0_r_ext, Z.mod_0_r in * by done. destruct (Z.ltb_spec x 0); [f_equal; lia|].
    rewrite Z.mod_small by lia. lia.
  - rewrite Z.rem_mod by done. set (r := Z.abs x mod Z.abs y) in *.
    rewrite <- (Z.mod_small r (pow2 n)) at 2 by lia.
    destruct (Z.ltb_spec x 0); f_equal; [nia|].
    destruct (decide (x = 0)) as [->|]; [|nia]. unfold r. cbn. by rewrite Z.mod_0_l by lia.
Qed.

(** The cases of [mk_smod]. *)
Lemma smod_signs n x y u :
  Z.abs x < pow2 n -> u = Z.abs x mod Z.abs y ->
  (if u =? 0 then u
   else if x <? 0 then (if y <? 0 then (- u) mod pow2 n else (- u + y) mod pow2 n)
        else (if y <? 0 then (u + y) mod pow2 n else u))
  = (x mod y) mod pow2 n.
Proof.
  intros Hx Hu. pose proof (abs_mod x y) as Hb. rewrite <- Hu in Hb. pose proof (pow2_pos n).
  destruct (decide (y = 0)) as [->|Hy].
  - change (Z.abs 0) with 0 in *. rewrite !Z.mod_0_r in *. replace (0 <? 0) with false by done.
    destruct (Z.eqb_spec u 0); [rewrite Z.mod_small; lia|].
    destruct (Z.ltb_spec x 0); [f_equal; lia|]. rewrite Z.mod_small; lia.
  - assert (Z.abs x = Z.abs y * (Z.abs x / Z.abs y) + u) as Hdiv
      by (rewrite Hu; apply Z.div_mod; lia).
    assert (0 <= u < Z.abs y) as Hlt by (rewrite Hu; apply Z.mod_pos_bound; lia).
    set (q := Z.abs x / Z.abs y) in *.
    assert (forall r k, x = y * k + r -> (0 <= r < y \/ y < r <= 0) -> x mod y = r) as Hmod.
    { intros r k He Hr. symmetry. by apply (Z.mod_unique _ _ k). }
    destruct (Z.eqb_spec u 0) as [Hz|Hnz].
    + rewrite (Hmod 0 (if Bool.eqb (x <? 0) (y <? 0) then q else - q)).
      * rewrite Hz. symmetry. apply Z.mod_0_l. lia.
      * destruct (Z.ltb_spec x 0), (Z.ltb_spec y 0); cbn [Bool.eqb]; lia.
      * lia.
    + destruct (Z.ltb_spec x 0), (Z.ltb_spec y 0).
      * rewrite (Hmod (- u) q); [done|lia|lia].
      * rewrite (Hmod (- u + y) (- q - 1)); [done|lia|lia].
      * rewrite (Hmod (u + y) (- q - 1)); [done|lia|lia].
      * rewrite (Hmod u q); [|lia|lia]. symmetry. apply Z.mod_small. lia.
Qed.

Section Correct.
Context {E : Type} `{Gates E} (eval : E -> bool) `{!GatesOk eval}.

Lemma uv_removelast l : uv eval (removelast l) = uv eval l mod pow2 (length l - 1).
Proof. rewrite removelast_firstn_len, uv_take. by rewrite Nat.sub_1_r. Qed.

Lemma removelast_length (l : list E) : length (removelast l) = (length l - 1)%nat.
Proof. rewrite removelast_firstn_len, length_take. lia. Qed.

Lemma uv_le1 l x : uv eval (l ++ [x]) = uv eval l + pow2 (length l) * Z.b2z (eval x).
Proof. rewrite uv_snoc. lia. Qed.

(** One stage: quotient bit and residual. *)
Lemma udiv_stage p b :
  length p = length b ->
  let '(t, q) := mk_subtracter p b in
  length t = length b /\ eval q = (uv eval b <=? uv eval p)
  /\ uv eval (mk_multiplexer q t p)
     = (if uv eval b <=? uv eval p then uv eval p - uv eval b else uv eval p).
Proof.
  intros Hl. pose proof (mk_subtracter_length p b Hl) as Ht.
  destruct (mk_subtracter_uv eval p b Hl) as [Hu Hq].
  destruct (mk_subtracter p b) as [t q]. cbn [fst snd] in *.
  split; [congruence|]. split; [done|]. rewrite mk_multiplexer_uv, Hq, Hu by done.
  destruct (Z.leb_spec (uv eval b) (uv eval p)); [|done].
  apply Z.mod_small. pose proof (uv_bounds eval p). pose proof (uv_bounds eval b). lia.
Qed.

(** The residual shifted by one bit of the dividend. *)
Lemma udiv_shift p b x k :
  length p = length b -> (S k < length b)%nat -> uv eval p < pow2 (length b - S k) ->
  let '(t, q) := mk_subtracter p b in
  let p' := x :: mk_multiplexer q (removelast t) (removelast p) in
  length p' = length b
  /\ uv eval p' = Z.b2z (eval x) + 2 * uv eval (mk_multiplexer q t p)
  /\ uv eval p' < pow2 (length b - k).
Proof.
  intros Hl Hk Hp. pose proof (udiv_stage p b Hl) as Hs.
  destruct (mk_subtracter p b) as [t q]. destruct Hs as (Ht & Hq & Hm).
  assert (length (removelast t) = length (removelast p)) as Hrl
    by (rewrite !removelast_length; congruence).
  set (rem := uv eval (mk_multiplexer q t p)) in *.
  assert (0 <= rem < pow2 (length b - S k)) as Hrem.
  { split; [apply uv_bounds|]. rewrite Hm. pose proof (uv_bounds eval b).
    destruct (uv eval b <=? uv eval p); lia. }
  assert (uv eval (mk_multiplexer q (removelast t) (removelast p)) = rem) as Hu.
  { rewrite mk_multiplexer_uv, !uv_removelast, Ht, Hl by done.
    rewrite <- (Z.mod_small rem (pow2 (length b - 1))).
    - unfold rem. rewrite mk_multiplexer_uv by congruence. by destruct (eval q).
    - pose proof (pow2_le (length b - S k) (length b - 1) ltac:(lia)). lia. }
  cbn [length]. rewrite uv_cons, Hu, mk_multiplexer_length, removelast_length by done.
  split; [lia|]. split; [done|].
  replace (length b - k)%nat with (S (length b - S k)) by lia. rewrite pow2_S.
  destruct (eval x); cbn; lia.
Qed.

(** Value of the residual and the bits still to come. *)
Definition dividend (p rest : list E) : Z := uv eval p * pow2 (length rest) + uv eval (rev rest).

Lemma udiv_loop_value rest p b :
  length p = length b -> (length rest < length b)%nat ->
  uv eval p < pow2 (length b - length rest) -> uv eval b = 0 \/ uv eval p < 2 * uv eval b ->
  let '(qs, r) := udiv_loop rest p b in
  length qs = S (length rest) /\ length r = length b
  /\ (uv eval b = 0 -> uv eval r = dividend p rest /\ uv eval (rev qs) = pow2 (S (length rest)) - 1)
  /\ (0 < uv eval b ->
      dividend p rest = uv eval (rev qs) * uv eval b + uv eval r /\ uv eval r < uv eval b).
Proof.
  revert p. induction rest as [|x rest IH]; intros p Hl Hlen Hp Hb; cbn [udiv_loop length].
  - pose proof (udiv_stage p b Hl) as Hs. destruct (mk_subtracter p b) as [t q].
    destruct Hs as (Ht & Hq & Hm). cbn [rev app]. unfold dividend. cbn [length rev].
    rewrite Hm, uv_cons, Hq, pow2_S, pow2_0. rewrite mk_multiplexer_length by congruence.
    pose proof (uv_bounds eval p). cbn [uv map uval].
    split; [done|]. split; [done|]. destruct (Z.leb_spec (uv eval b) (uv eval p)); cbn [Z.b2z]; lia.
  - cbn [length] in Hlen, Hp. pose proof (udiv_stage p b Hl) as Hs.
    pose proof (udiv_shift p b x (length rest) Hl Hlen Hp) as Hsh.
    destruct (mk_subtracter p b) as [t q]. destruct Hs as (Ht & Hq & Hm).
    destruct Hsh as (Hl' & Hu' & Hp').
    set (p' := x :: mk_multiplexer q (removelast t) (removelast p)) in *.
    specialize (IH p' Hl' ltac:(lia) Hp'). rewrite Hm in Hu'.
    destruct (udiv_loop rest p' b) as [qs r].
    destruct IH as (Hqs & Hr & H0 & H1).
    { destruct Hb as [->|Hb]; [by left|right]. rewrite Hu'.
      destruct (Z.leb_spec (uv eval b) (uv eval p)), (eval x); cbn; lia. }
    cbn [length rev]. rewrite uv_snoc, length_rev, Hqs, Hq.
    split; [done|]. split; [done|].
    assert (dividend p (x :: rest) = dividend p' rest
      + Z.b2z (uv eval b <=? uv eval p) * (uv eval b * pow2 (S (length rest)))) as HV.
    { unfold dividend. cbn [length rev]. rewrite uv_snoc, length_rev, Hu', pow2_S.
      destruct (uv eval b <=? uv eval p); cbn [Z.b2z]; lia. }
    rewrite HV. split.
    + intros Hz. destruct (H0 Hz) as [-> ->]. rewrite Hz.
      pose proof (uv_bounds eval p). rewrite (proj2 (Z.leb_le 0 (uv eval p))) by lia.
      cbn [Z.b2z]. rewrite (pow2_S (S (length rest))). lia.
    + intros Hpos. destruct (H1 Hpos) as [-> Hlt]. split; [lia|done].
Qed.

Lemma uv_top_split l :
  (0 < length l)%nat ->
  uv eval l = Z.b2z (eval (top l)) * pow2 (length l - 1) + uv eval (removelast l).
Proof.
  intros Hl. destruct l as [|x l _] using rev_ind; [cbn in Hl; lia|].
  rewrite removelast_last, uv_snoc, length_app. unfold top. rewrite List.last_last.
  cbn [length]. rewrite Nat.add_sub. lia.
Qed.

Lemma mk_udiv_urem_value a b :
  (0 < length a)%nat -> length a = length b ->
  length (mk_udiv a b) = length a /\ length (mk_urem a b) = length a
  /\ uv eval (mk_udiv a b)
     = (if uv eval b =? 0 then pow2 (length a) - 1 else uv eval a / uv eval b)
  /\ uv eval (mk_urem a b) = uv eval a mod uv eval b.
Proof.
  intros Ha Hl. unfold mk_udiv, mk_urem, mk_udiv_urem.
  set (p := top a :: replicate (length a - 1) mk_false).
  assert (uv eval p = Z.b2z (eval (top a))) as Hp
    by (unfold p; rewrite uv_cons, uv_replicate_false by done; lia).
  assert (length (rev (removelast a)) = (length a - 1)%nat) as Hrl
    by (rewrite length_rev; apply removelast_length).
  pose proof (uv_bounds eval b) as Hb.
  pose proof (udiv_loop_value (rev (removelast a)) p b) as Hloop. rewrite Hrl in Hloop.
  destruct (udiv_loop (rev (removelast a)) p b) as [qs r]. cbn [fst snd].
  destruct Hloop as (Hqs & Hr & H0 & H1).
  - unfold p. cbn [length]. rewrite length_replicate. lia.
  - lia.
  - rewrite Hp, Hl. replace (length b - (length b - 1))%nat with 1%nat by lia.
    rewrite pow2_S, pow2_0. destruct (eval (top a)); cbn; lia.
  - rewrite Hp. destruct (eval (top a)); cbn; lia.
  - assert (dividend p (rev (removelast a)) = uv eval a) as Hd.
    { unfold dividend. rewrite Hp, Hrl, rev_involutive. by rewrite (uv_top_split a). }
    rewrite Hd in H0, H1. rewrite length_rev. split; [lia|]. split; [lia|].
    destruct (Z.eqb_spec (uv eval b) 0) as [Hz|Hnz].
    + destruct (H0 Hz) as [-> ->]. rewrite Hz, Z.mod_0_r.
      by replace (S (length a - 1)) with (length a) by lia.
    + destruct H1 as [He Hlt]; [lia|]. pose proof (uv_bounds eval r).
      split; [apply (Z.div_unique _ _ _ (uv eval r))|apply (Z.mod_unique _ _ (uv eval (rev qs)))];
        lia.
Qed.

(** ** Signed *)

(** Bits of a magnitude: what the unsigned divider is run on. *)
Definition magnitude (a m : list E) : Prop :=
  length m = length a /\ uv eval m = Z.abs (sv eval a).

Lemma abs_magnitude a : (0 < length a)%nat -> magnitude a (mk_abs a).
Proof. intros Ha. split; [apply mk_abs_length|by apply mk_abs_abs]. Qed.

Lemma positive_magnitude a :
  (0 < length a)%nat -> is_false (top a) = true -> magnitude a a /\ (sv eval a <? 0) = false.
Proof.
  intros Ha Ht. assert (eval (top a) = false) as He by (by apply eval_is_false).
  rewrite <- (sv_negative eval a Ha). split; [|done]. split; [done|].
  rewrite <- (mk_abs_abs eval a Ha). unfold mk_abs. by rewrite Ht.
Qed.

Lemma negative_magnitude a :
  (0 < length a)%nat -> is_true (top a) = true ->
  magnitude a (mk_neg a) /\ (sv eval a <? 0) = true.
Proof.
  intros Ha Ht. assert (eval (top a) = true) as He by (by apply eval_is_true).
  rewrite <- (sv_negative eval a Ha). split; [|done]. split; [apply mk_neg_length|].
  rewrite <- (mk_abs_abs eval a Ha), (mk_abs_uv eval), He. apply (mk_neg_uv eval).
Qed.

Lemma sv_abs_small a : (0 < length a)%nat -> Z.abs (sv eval a) < pow2 (length a).
Proof.
  intros Ha. pose proof (sv_bounds eval a Ha). pose proof (pow2_double _ Ha).
  pose proof (pow2_pos (length a - 1)). lia.
Qed.

Section Magnitudes.
Context (a b ma mb : list E) (Ha : (0 < length a)%nat) (Hl : length a = length b).
Context (Hma : magnitude a ma) (Hmb : magnitude b mb).

Lemma magnitudes_divide :
  length (mk_udiv ma mb) = length a /\ length (mk_urem ma mb) = length a
  /\ uv eval (mk_udiv ma mb) = smt_udiv (length a) (Z.abs (sv eval a)) (Z.abs (sv eval b))
  /\ uv eval (mk_urem ma mb) = Z.abs (sv eval a) mod Z.abs (sv eval b).
Proof.
  destruct Hma as [Hla Hva], Hmb as [Hlb Hvb]. unfold smt_udiv.
  rewrite <- Hva, <- Hvb, <- Hla. apply mk_udiv_urem_value; lia.
Qed.
End Magnitudes.

Lemma mk_neg_of a n v : length a = n -> uv eval a = v -> uv eval (mk_neg a) = (- v) mod pow2 n.
Proof. intros <- <-. apply (mk_neg_uv eval). Qed.

(** Facts about a branch chosen by the constant sign bits. *)
Ltac sign_facts :=
  repeat match goal with
  | H : _ && _ = true |- _ => apply andb_true_iff in H as [? ?]
  | H : is_false (top ?l) = true |- _ =>
      let Hm := fresh "Hm" in let Hs := fresh "Hs" in
      apply positive_magnitude in H as [Hm Hs]; [|lia]
  | H : is_true (top ?l) = true |- _ =>
      let Hm := fresh "Hm" in let Hs := fresh "Hs" in
      apply negative_magnitude in H as [Hm Hs]; [|lia]
  end.

(** Run the unsigned divider on the magnitudes of the branch. *)
Ltac divide_magnitudes :=
  match goal with
  | Hl : length ?a = length ?b, Hm : magnitude ?a ?ma, Hm' : magnitude ?b ?mb |- _ =>
      destruct (magnitudes_divide a b ma mb ltac:(lia) Hl Hm Hm') as (? & ? & ? & ?)
  end;
  repeat match goal with Hs : (sv eval _ <? 0) = _ |- _ => rewrite Hs end; cbn [Bool.eqb].

(** Split on the tests of the constant sign bits. *)
Ltac sign_cases :=
  repeat match goal with
  | |- context [if is_false ?x && ?y then _ else _] => destruct (is_false x && y) eqn:?
  | |- context [if is_true ?x && ?y then _ else _] => destruct (is_true x && y) eqn:?
  end.

Lemma mk_sdiv_value a b :
  (0 < length a)%nat -> length a = length b ->
  uv eval (mk_sdiv a b) = smt_sdiv (sv eval a) (sv eval b) mod pow2 (length a)
  /\ length (mk_sdiv a b) = length a.
Proof.
  intros Ha Hl. rewrite <- sdiv_signs by (by apply sv_abs_small). unfold mk_sdiv.
  sign_cases; sign_facts.
  - divide_magnitudes. by split.
  - divide_magnitudes. split; [by apply mk_neg_of|by rewrite mk_neg_length].
  - divide_magnitudes. split; [by apply mk_neg_of|by rewrite mk_neg_length].
  - divide_magnitudes. by split.
  - destruct (magnitudes_divide a b (mk_abs a) (mk_abs b) Ha Hl) as (Hlq & _ & Hq & _);
      [apply abs_magnitude; lia..|].
    rewrite mk_multiplexer_length by (by rewrite mk_neg_length). split; [|done].
    rewrite (mk_multiplexer_uv eval) by (by rewrite mk_neg_length).
    rewrite eval_iff, (sv_negative eval a), (sv_negative eval b) by lia.
    rewrite Hq, (mk_neg_of _ _ _ Hlq Hq). done.
Qed.

Lemma power_of_two_spec v k : power_of_two v = Some k -> v = pow2 k.
Proof.
  unfold power_of_two. destruct (Z.ltb_spec 0 v); cbn [andb]; [|done].
  destruct (Z.eqb_spec v (2 ^ Z.log2 v)) as [Hv|]; [|done]. intros [= <-].
  unfold pow2. rewrite Z2Nat.id by apply Z.log2_nonneg. done.
Qed.

(** Remainder by a constant power of two: the low bits. *)
Lemma low_bits_rem a ma k :
  (0 < length a)%nat -> magnitude a ma -> pow2 k < pow2 (length a) ->
  uv eval (mk_zero_extend (take k ma) (length a - k)) = Z.abs (sv eval a) mod pow2 k
  /\ length (mk_zero_extend (take k ma) (length a - k)) = length a.
Proof.
  intros Ha [Hl Hv] Hk. rewrite (mk_zero_extend_uv eval), uv_take, Hv. split; [done|].
  assert (k < length a)%nat.
  { destruct (decide (k < length a)%nat) as [|Hn]; [done|].
    pose proof (pow2_le (length a) k ltac:(lia)). lia. }
  unfold mk_zero_extend. rewrite length_app, length_take, length_replicate. lia.
Qed.

Lemma srem_general a b :
  (0 < length a)%nat -> length a = length b ->
  uv eval (srem_magnitude a b) = Z.abs (sv eval a) mod Z.abs (sv eval b)
  /\ length (srem_magnitude a b) = length a.
Proof.
  intros Ha Hl. unfold srem_magnitude. destruct (magnitudes_divide a b (mk_abs a) (mk_abs b) Ha Hl) as (_ & Hlr & _ & Hr);
    [apply abs_magnitude; lia..|].
  destruct (is_numeral (mk_abs b)) as [v|] eqn:Hn; cbn [mbind option_bind]; [|done].
  destruct (power_of_two v) as [k|] eqn:Hk; [|done].
  apply power_of_two_spec in Hk. apply (is_numeral_uv eval) in Hn.
  rewrite (mk_abs_abs eval), Hk in Hn by lia. rewrite Hn. apply low_bits_rem; [done| |].
  - by apply abs_magnitude.
  - rewrite <- Hn, Hl. apply sv_abs_small. lia.
Qed.

Lemma mk_srem_value a b :
  (0 < length a)%nat -> length a = length b ->
  uv eval (mk_srem a b) = Z.rem (sv eval a) (sv eval b) mod pow2 (length a)
  /\ length (mk_srem a b) = length a.
Proof.
  intros Ha Hl. rewrite <- srem_signs by (by apply sv_abs_small). unfold mk_srem.
  sign_cases; sign_facts.
  - divide_magnitudes. by split.
  - divide_magnitudes. by split.
  - divide_magnitudes. split; [by apply mk_neg_of|by rewrite mk_neg_length].
  - divide_magnitudes. split; [by apply mk_neg_of|by rewrite mk_neg_length].
  - destruct (srem_general a b Ha Hl) as [Hr Hlr].
    rewrite mk_multiplexer_length, mk_neg_length by (by rewrite mk_neg_length). split; [|done].
    rewrite (mk_multiplexer_uv eval) by (by rewrite mk_neg_length).
    rewrite (sv_negative eval a) by lia.
    by rewrite Hr, (mk_neg_of _ _ _ Hlr Hr).
Qed.

Lemma mk_smod_value a b :
  (0 < length a)%nat -> length a = length b ->
  uv eval (mk_smod a b) = (sv eval a mod sv eval b) mod pow2 (length a)
  /\ length (mk_smod a b) = length a.
Proof.
  intros Ha Hl. destruct (magnitudes_divide a b (mk_abs a) (mk_abs b) Ha Hl) as (_ & Hlr & _ & Hr);
    [apply abs_magnitude; lia..|].
  rewrite <- (smod_signs _ _ _ _ (sv_abs_small a Ha) eq_refl), <- Hr. unfold mk_smod.
  set (u := mk_urem (mk_abs a) (mk_abs b)) in *.
  assert (length (mk_neg u) = length a) as Hln by (by rewrite mk_neg_length).
  assert (length (mk_adder (mk_neg u) b) = length a) as Hl1 by (rewrite mk_adder_length; lia).
  assert (length (mk_adder u b) = length a) as Hl2 by (rewrite mk_adder_length; lia).
  assert (length (num2bits 0 (length a) : list E) = length a) as Hl0 by apply (num2bits_length eval).
  cbv zeta. set (ite1 := mk_multiplexer (top b) (mk_neg u) _).
  set (ite2 := mk_multiplexer (top b) (mk_adder u b) u).
  assert (length ite1 = length a) as Hi1 by (unfold ite1; rewrite mk_multiplexer_length; congruence).
  assert (length ite2 = length a) as Hi2 by (unfold ite2; rewrite mk_multiplexer_length; congruence).
  assert (length (mk_multiplexer (top a) ite1 ite2) = length a) as Hbody
    by (rewrite mk_multiplexer_length; congruence).
  rewrite mk_multiplexer_length by congruence. split; [|done].
  rewrite (mk_multiplexer_uv eval _ u), (mk_multiplexer_uv eval (top a)) by congruence.
  unfold ite1, ite2. rewrite !(mk_multiplexer_uv eval) by congruence.
  rewrite (mk_eq_value eval), (num2bits_uv eval), Z.mod_0_l
    by (congruence || (pose proof (pow2_pos (length a)); lia)).
  rewrite (sv_negative eval a), (sv_negative eval b) by lia.
  rewrite !(mk_adder_uv eval) by congruence. rewrite (mk_neg_of _ _ _ Hlr eq_refl), Hln, Hlr.
  assert (forall y, (y + uv eval b) mod pow2 (length a) = (y + sv eval b) mod pow2 (length a)) as Hsv.
  { intros y. rewrite (sv_uv eval), Hl. destruct (eval (top b)); [|f_equal; lia].
    apply (mod_eq _ _ _ 1). lia. }
  rewrite Zplus_mod_idemp_l, !Hsv. done.
Qed.
End Correct.
