(* ===== verification/BlastShift.v ===== *)
(** bit_blaster_tpl: shifts by a vector, as barrel shifters, and rotations. *)
From S2P Require Import Prelude Bits Gates BlastArith BlastOverflow BlastCompare BlastDiv.

Section Circuits.
Context {E : Type} `{Gates E}.

(** ** Shifts

    [pick s j out] is the bit that moves to position [j] in a shift by [s]. *)
Definition shift_stage (pick : nat -> nat -> list E -> E) (x : E) (i : nat) (out : list E)
  : list E :=
  map (fun j => mk_ite x (pick (2 ^ i)%nat j out) (bit out j)) (seq 0 (length out)).

(** The loop over the bits [bs] of the amount, from bit [i] on; it stops at
    the first bit that shifts everything out and returns the bits left. *)
Fixpoint barrel_loop (pick : nat -> nat -> list E -> E) (i : nat) (bs out : list E)
  : list E * list E :=
  match bs with
  | [] => (out, [])
  | x :: bs' =>
      if Nat.leb (length out) (2 ^ i) then (out, bs)
      else barrel_loop pick (S i) bs' (shift_stage pick x i out)
  end.

Definition barrel (pick : nat -> nat -> list E -> E) (fill : E) (a b : list E) : list E :=
  let '(out, rest) := barrel_loop pick 0 b a in
  let is_large := foldl mk_or mk_false rest in
  map (mk_ite is_large fill) out.

Definition pick_shl (s j : nat) (out : list E) : E :=
  if Nat.leb s j then bit out (j - s) else mk_false.
Definition pick_lshr (s j : nat) (out : list E) : E :=
  if Nat.ltb (s + j) (length out) then bit out (j + s) else mk_false.
Definition pick_ashr (fill : E) (s j : nat) (out : list E) : E :=
  if Nat.ltb (s + j) (length out) then bit out (j + s) else fill.

(** A constant amount, cut at the width. *)
Definition clamp (k : Z) (sz : nat) : nat := Z.to_nat (Z.min k (Z.of_nat sz)).

Definition mk_shl (a b : list E) : list E :=
  match is_numeral b with
  | Some k => let n := clamp k (length a) in replicate n mk_false ++ take (length a - n) a
  | None => barrel pick_shl mk_false a b
  end.

Definition mk_lshr (a b : list E) : list E :=
  match is_numeral b with
  | Some k => let n := clamp k (length a) in drop n a ++ replicate n mk_false
  | None => barrel pick_lshr mk_false a b
  end.

Definition mk_ashr (a b : list E) : list E :=
  match is_numeral b with
  | Some k => let n := clamp k (length a) in drop n a ++ replicate n (top a)
  | None => barrel (pick_ashr (top a)) (top a) a b
  end.

(** ** Rotations *)

Definition mk_rotate_left (a : list E) (n : nat) : list E :=
  let n := (n mod length a)%nat in
  drop (length a - n) a ++ take (length a - n) a.

Definition mk_rotate_right (a : list E) (n : nat) : list E :=
  mk_rotate_left a (length a - n mod length a).

(** [mk_ext_rotate_left_right<Left>] *)
Definition mk_ext_rotate_left_right (left_rot : bool) (a b : list E) : list E :=
  let sz := length a in
  let general :=
    let masked_b := mk_urem b (num2bits (Z.of_nat sz) sz) in
    let eqs := mk_eqs masked_b in
    map (fun i =>
           foldl (fun out j =>
                    let src := ((if left_rot then sz + i - j else i + j) mod sz)%nat in
                    mk_ite (bit eqs j) (bit a src) out)
             (bit a i) (seq 1 (sz - 1)))
      (seq 0 sz) in
  match is_numeral b with
  | Some k =>
      if k <? 2 ^ 32 then
        (if left_rot then mk_rotate_left else mk_rotate_right) a (Z.to_nat k)
      else general
  | None => general
  end.

Definition mk_ext_rotate_left : list E -> list E -> list E := mk_ext_rotate_left_right true.
Definition mk_ext_rotate_right : list E -> list E -> list E := mk_ext_rotate_left_right false.
End Circuits.

Section Barrel.
Context {E : Type} `{Gates E} (eval : E -> bool) `{!GatesOk eval}.

(** A vector whose bits are those of [v]. *)
Lemma uv_of_bits n v (f : nat -> E) :
  (forall j, (j < n)%nat -> eval (f j) = Z.testbit v (Z.of_nat j)) ->
  uv eval (map f (seq 0 n)) = v mod pow2 n.
Proof.
  intros Hf. rewrite <- uval_bits_of. unfold uv, bits_of. f_equal. rewrite map_map.
  apply map_ext_in. intros j Hj%in_seq. apply Hf. lia.
Qed.

Lemma pow2_nat i : Z.of_nat (2 ^ i)%nat = pow2 i.
Proof. by rewrite Nat2Z.inj_pow. Qed.

(** [P t out]: [out] is the operand shifted by [t]. *)
Context (n : nat) (P : Z -> list E -> Prop) (pick : nat -> nat -> list E -> E) (fill : E).
Context (P_length : forall t out, P t out -> length out = n).
Context (P_stage : forall t out x i, 0 <= t -> P t out ->
  P (t + Z.b2z (eval x) * pow2 i) (shift_stage pick x i out)).

Lemma barrel_loop_shifts i bs t out :
  0 <= t -> P t out ->
  exists used rest, bs = used ++ rest /\ (barrel_loop pick i bs out).2 = rest
    /\ P (t + pow2 i * uv eval used) (barrel_loop pick i bs out).1
    /\ (rest = [] \/ (n <= 2 ^ (i + length used))%nat).
Proof using All.
  revert i t out. induction bs as [|x bs IH]; intros i t out Ht HP; cbn [barrel_loop].
  - exists [], []. split; [done|]. split; [done|]. split; [|by left].
    cbn [uv map uval fst]. by rewrite Z.mul_0_r, Z.add_0_r.
  - destruct (Nat.leb_spec (length out) (2 ^ i)) as [Hle|Hgt].
    + exists [], (x :: bs). split; [done|]. split; [done|].
      rewrite (P_length _ _ HP) in Hle. split; [|right; by rewrite Nat.add_0_r].
      cbn [uv map uval fst]. by rewrite Z.mul_0_r, Z.add_0_r.
    + destruct (IH (S i) (t + Z.b2z (eval x) * pow2 i) (shift_stage pick x i out))
        as (used & rest & -> & Hrest & HP' & Hbig).
      * pose proof (pow2_pos i). destruct (eval x); cbn; lia.
      * by apply P_stage.
      * exists (x :: used), rest. split; [done|]. split; [done|].
        rewrite uv_cons. rewrite pow2_S in HP'. cbn [length]. rewrite Nat.add_succ_r.
        split; [|done].
        replace (t + pow2 i * (Z.b2z (eval x) + 2 * uv eval used))
          with (t + Z.b2z (eval x) * pow2 i + 2 * pow2 i * uv eval used) by lia. done.
Qed.

Lemma foldl_or l x : eval (foldl mk_or x l) = eval x || existsb eval l.
Proof using GatesOk0.
  revert x. induction l as [|y l IH]; intros x; cbn; [by rewrite orb_false_r|].
  by rewrite IH, eval_or, orb_assoc.
Qed.

(** The shifter shifts by the whole amount, or fills when it is too large. *)
Lemma barrel_shifts a b :
  P 0 a ->
  (exists out, P (uv eval b) out
     /\ map eval (barrel pick fill a b) = map eval out)
  \/ (Z.of_nat n <= uv eval b
      /\ map eval (barrel pick fill a b) = replicate n (eval fill)).
Proof using All.
  intros HP. unfold barrel.
  destruct (barrel_loop_shifts 0 b 0 a (Z.le_refl 0) HP) as (used & rest & -> & Hrest & HP' & Hbig).
  destruct (barrel_loop pick 0 (used ++ rest) a) as [out rest']. cbn [fst snd] in *. subst rest'.
  rewrite pow2_0, Z.add_0_l, Z.mul_1_l in HP'. rewrite uv_app, map_map.
  assert (eval (foldl mk_or mk_false rest) = negb (uv eval rest =? 0)) as Hlarge.
  { rewrite foldl_or, eval_false, existsb_eval. cbn [orb]. apply existsb_nonzero. }
  pose proof (uv_bounds eval rest). pose proof (uv_bounds eval used).
  destruct (Z.eqb_spec (uv eval rest) 0) as [Hz|Hnz].
  - left. exists out. rewrite Hz, Z.mul_0_r, Z.add_0_r. split; [done|].
    apply map_ext. intros x. by rewrite eval_ite, Hlarge.
  - right. destruct Hbig as [->|Hbig]; [done|]. split.
    + cbn [Nat.add] in Hbig. rewrite <- pow2_nat. nia.
    + rewrite <- (P_length _ _ HP'). apply const_fmap. intros i x _.
      by rewrite eval_ite, Hlarge.
Qed.
End Barrel.

Section Correct.
Context {E : Type} `{Gates E} (eval : E -> bool) `{!GatesOk eval}.

Lemma mul_pow2_clamp x n t : Z.of_nat n <= t -> 0 = (x * 2 ^ t) mod pow2 n.
Proof.
  intros Ht. replace t with (Z.of_nat n + (t - Z.of_nat n)) by lia.
  rewrite Z.pow_add_r by lia. fold (pow2 n). symmetry.
  rewrite Z.mul_assoc, (Z.mul_comm x), <- Z.mul_assoc, Z.mul_comm.
  apply Z_mod_mult.
Qed.

Lemma shift_stage_length pick x i (out : list E) : length (shift_stage pick x i out) = length out.
Proof. unfold shift_stage. by rewrite length_map, length_seq. Qed.

(** ** Left shift *)

Definition shifted_left (n : nat) (x : Z) (t : Z) (out : list E) : Prop :=
  length out = n /\ uv eval out = (x * 2 ^ t) mod pow2 n.

Lemma shl_stage n v t out x i :
  0 <= t -> shifted_left n v t out ->
  shifted_left n v (t + Z.b2z (eval x) * pow2 i) (shift_stage pick_shl x i out).
Proof.
  intros Ht [Hl Hv]. split; [by rewrite shift_stage_length|].
  assert (uv eval (shift_stage pick_shl x i out)
    = (uv eval out * 2 ^ (Z.b2z (eval x) * pow2 i)) mod pow2 n) as ->.
  { rewrite <- Hl. apply (uv_of_bits eval). intros j Hj. rewrite eval_ite.
    pose proof (pow2_pos i). destruct (eval x); cbn [Z.b2z].
    - rewrite Z.mul_1_l, Z.mul_pow2_bits by lia. unfold pick_shl.
      rewrite <- pow2_nat. destruct (Nat.leb_spec (2 ^ i) j).
      + rewrite <- Nat2Z.inj_sub by done. by rewrite uv_testbit.
      + by rewrite eval_false, Z.testbit_neg_r by lia.
    - by rewrite Z.mul_0_l, Z.mul_1_r, uv_testbit. }
  pose proof (pow2_pos n). pose proof (pow2_pos i).
  rewrite Hv, Z.mul_mod_idemp_l, <- Z.mul_assoc, <- Z.pow_add_r by (destruct (eval x); cbn; lia).
  done.
Qed.

Lemma mk_shl_value a b :
  length a = length b ->
  uv eval (mk_shl a b) = (uv eval a * 2 ^ uv eval b) mod pow2 (length a)
  /\ length (mk_shl a b) = length a.
Proof.
  intros Hl. unfold mk_shl. destruct (is_numeral b) as [k|] eqn:Hk.
  - apply (is_numeral_uv eval) in Hk. pose proof (uv_bounds eval b). unfold clamp.
    rewrite length_app, length_replicate, length_take. split; [|lia].
    rewrite uv_app, (uv_replicate_false eval), length_replicate, uv_take, Z.add_0_l, <- Hk.
    set (n := Z.to_nat _).
    rewrite <- Z.mul_mod_distr_l
      by (pose proof (pow2_pos n); pose proof (pow2_pos (length a - n)); lia).
    rewrite <- pow2_add. replace (n + (length a - n))%nat with (length a) by lia.
    destruct (decide (uv eval b <= Z.of_nat (length a))).
    + f_equal. unfold n, pow2. rewrite Z2Nat.id, Z.min_l by lia. lia.
    + rewrite <- mul_pow2_clamp by lia. unfold n. rewrite Z.min_r, Nat2Z.id by lia.
      rewrite Z.mul_comm. apply Z_mod_mult.
  - destruct (barrel_shifts eval (length a) (shifted_left (length a) (uv eval a)) pick_shl mk_false)
      with (a := a) (b := b) as [(out & [Ho Hv] & He)|[Hbig He]].
    + by intros t out [? _].
    + intros t out x i. apply shl_stage.
    + split; [done|]. by rewrite Z.mul_1_r, uv_mod.
    + unfold uv in *. rewrite He. split; [done|].
      by rewrite <- (length_map eval), He, length_map.
    + unfold uv in *. rewrite He. split.
      * rewrite eval_false, uval_replicate_false. by apply mul_pow2_clamp.
      * by rewrite <- (length_map eval), He, length_replicate.
Qed.

(** ** Logical right shift *)

Definition shifted_right (n : nat) (x : Z) (t : Z) (out : list E) : Prop :=
  length out = n /\ uv eval out = x / 2 ^ t.

Lemma uv_testbit_high out i : (length out <= i)%nat -> Z.testbit (uv eval out) (Z.of_nat i) = false.
Proof.
  intros Hi. rewrite uv_testbit by done. unfold bit.
  rewrite nth_overflow by done. apply eval_false.
Qed.

Lemma lshr_stage n v t out x i :
  0 <= t -> shifted_right n v t out ->
  shifted_right n v (t + Z.b2z (eval x) * pow2 i) (shift_stage pick_lshr x i out).
Proof.
  intros Ht [Hl Hv]. split; [by rewrite shift_stage_length|].
  pose proof (pow2_pos n). pose proof (pow2_pos i). pose proof (uv_bounds eval out) as Hb.
  assert (0 < 2 ^ (Z.b2z (eval x) * pow2 i)) as Hp
    by (apply Z.pow_pos_nonneg; destruct (eval x); cbn; lia).
  assert (uv eval (shift_stage pick_lshr x i out)
    = (uv eval out / 2 ^ (Z.b2z (eval x) * pow2 i)) mod pow2 n) as ->.
  { rewrite <- Hl. apply (uv_of_bits eval). intros j Hj. rewrite eval_ite.
    destruct (eval x); cbn [Z.b2z].
    - rewrite Z.mul_1_l, Z.div_pow2_bits by lia. unfold pick_lshr.
      rewrite <- pow2_nat, <- Nat2Z.inj_add. destruct (Nat.ltb_spec (2 ^ i + j) (length out)).
      + by rewrite uv_testbit.
      + by rewrite eval_false, uv_testbit_high by lia.
    - by rewrite Z.mul_0_l, Z.div_1_r, uv_testbit. }
  rewrite Z.mod_small.
  - rewrite Hv, Z.div_div, <- Z.pow_add_r by (destruct (eval x); cbn; lia). done.
  - split; [apply Z.div_pos; lia|]. rewrite Hl in Hb.
    apply Z.le_lt_trans with (uv eval out); [|lia]. apply Z.div_le_upper_bound; nia.
Qed.

Lemma div_pow2_clamp x n t : 0 <= x < pow2 n -> Z.of_nat n <= t -> x / 2 ^ t = 0.
Proof.
  intros Hx Ht. apply Z.div_small.
  pose proof (Z.pow_le_mono_r 2 (Z.of_nat n) t ltac:(lia) Ht). unfold pow2 in Hx. lia.
Qed.

Lemma mk_lshr_value a b :
  length a = length b ->
  uv eval (mk_lshr a b) = uv eval a / 2 ^ uv eval b /\ length (mk_lshr a b) = length a.
Proof.
  intros Hl. unfold mk_lshr. destruct (is_numeral b) as [k|] eqn:Hk.
  - apply (is_numeral_uv eval) in Hk. pose proof (uv_bounds eval b). unfold clamp.
    rewrite length_app, length_replicate, length_drop. split; [|lia].
    rewrite uv_app, (uv_replicate_false eval), uv_drop, Z.mul_0_r, Z.add_0_r, <- Hk.
    destruct (decide (uv eval b <= Z.of_nat (length a))).
    + unfold pow2. by rewrite Z.min_l, Z2Nat.id by lia.
    + rewrite Z.min_r, Nat2Z.id by lia. rewrite (div_pow2_clamp _ (length a) (uv eval b)).
      * apply Z.div_small, uv_bounds.
      * apply uv_bounds.
      * lia.
  - destruct (barrel_shifts eval (length a) (shifted_right (length a) (uv eval a)) pick_lshr mk_false)
      with (a := a) (b := b) as [(out & [Ho Hv] & He)|[Hbig He]].
    + by intros t out [? _].
    + intros t out x i. apply lshr_stage.
    + split; [done|]. by rewrite Z.div_1_r.
    + unfold uv in *. rewrite He. split; [done|].
      by rewrite <- (length_map eval), He, length_map.
    + rewrite (div_pow2_clamp _ (length a)); [|apply uv_bounds|done].
      unfold uv in *. rewrite He. split.
      * by rewrite eval_false, uval_replicate_false.
      * by rewrite <- (length_map eval), He, length_replicate.
Qed.

(** ** Arithmetic right shift *)

Lemma signed_of_mod l v :
  (0 < length l)%nat -> - pow2 (length l - 1) <= v < pow2 (length l - 1) ->
  uv eval l = v mod pow2 (length l) -> sv eval l = v.
Proof.
  intros Hl Hv Hu. pose proof (sv_bounds eval l Hl) as Hs. pose proof (pow2_double _ Hl).
  assert (sv eval l mod pow2 (length l) = v mod pow2 (length l)) as Heq.
  { rewrite <- Hu. unfold sv, uv. rewrite <- (length_map eval l). apply sval_uval_mod. }
  pose proof (Z.div_mod (sv eval l) (pow2 (length l))).
  pose proof (Z.div_mod v (pow2 (length l))). rewrite Heq in *.
  assert (sv eval l / pow2 (length l) = v / pow2 (length l)) by nia. nia.
Qed.

Lemma testbit_sign v n i :
  - pow2 n <= v < pow2 n -> (n <= i)%nat -> Z.testbit v (Z.of_nat i) = (v <? 0).
Proof.
  intros Hv Hi. pose proof (pow2_le n i Hi).
  destruct (Z.ltb_spec v 0) as [Hneg|Hpos].
  - replace v with (Z.lnot (- v - 1)) by (unfold Z.lnot; lia).
    rewrite Z.lnot_spec by lia. apply negb_true_iff.
    apply not_true_iff_false. intros Ht. apply testb_le in Ht; lia.
  - apply not_true_iff_false. intros Ht. apply testb_le in Ht; lia.
Qed.

Lemma div_pow2_bounds v t m : - pow2 m <= v < pow2 m -> 0 <= t -> - pow2 m <= v / 2 ^ t < pow2 m.
Proof.
  intros Hv Ht. assert (0 < 2 ^ t) by (by apply Z.pow_pos_nonneg). pose proof (pow2_pos m). split.
  - apply Z.div_le_lower_bound; nia.
  - apply Z.div_lt_upper_bound; nia.
Qed.

Lemma div_pow2_sign v t : 0 <= t -> (v / 2 ^ t <? 0) = (v <? 0).
Proof.
  intros Ht. assert (0 < 2 ^ t) by (by apply Z.pow_pos_nonneg).
  apply eq_true_iff_eq. rewrite !Z.ltb_lt. split; intros Hs.
  - destruct (decide (v < 0)); [done|]. pose proof (Z.div_pos v (2 ^ t)). lia.
  - apply Z.div_lt_upper_bound; lia.
Qed.

Definition shifted_arith (n : nat) (v : Z) (t : Z) (out : list E) : Prop :=
  length out = n /\ sv eval out = v / 2 ^ t.

Lemma ashr_stage n v fill t out x i :
  (0 < n)%nat -> eval fill = (v <? 0) -> 0 <= t -> shifted_arith n v t out ->
  shifted_arith n v (t + Z.b2z (eval x) * pow2 i) (shift_stage (pick_ashr fill) x i out).
Proof.
  intros Hn Hfill Ht [Hl Hv]. split; [by rewrite shift_stage_length|].
  pose proof (pow2_pos i). set (s := Z.b2z (eval x) * pow2 i).
  assert (0 <= s) as Hs by (unfold s; destruct (eval x); cbn; lia).
  pose proof (sv_bounds eval out ltac:(lia)) as Hb.
  rewrite Z.pow_add_r, <- Z.div_div, <- Hv by (try apply Z.pow_nonzero; lia || apply Z.pow_pos_nonneg; lia).
  apply signed_of_mod; rewrite shift_stage_length; [lia|by apply div_pow2_bounds|].
  apply (uv_of_bits eval). intros j Hj. rewrite eval_ite, Z.div_pow2_bits by lia.
  unfold s. destruct (eval x); cbn [Z.b2z].
  - rewrite Z.mul_1_l, <- pow2_nat, <- Nat2Z.inj_add. unfold pick_ashr.
    destruct (Nat.ltb_spec (2 ^ i + j) (length out)).
    + rewrite <- (sv_testb eval) by lia. done.
    + rewrite Hfill, (testbit_sign _ (length out - 1)), Hv, div_pow2_sign; done || lia.
  - rewrite Z.mul_0_l, Z.add_0_r. by rewrite <- (sv_testb eval).
Qed.

Lemma uv_replicate (n : nat) (x : E) : uv eval (replicate n x) = Z.b2z (eval x) * (pow2 n - 1).
Proof.
  induction n as [|n IH]; [by rewrite pow2_0, Z.sub_diag, Z.mul_0_r|].
  cbn [replicate]. rewrite uv_cons, IH, pow2_S. destruct (eval x); cbn [Z.b2z]; lia.
Qed.

Lemma ashr_const a n :
  (0 < length a)%nat -> (n <= length a)%nat ->
  sv eval (drop n a ++ replicate n (top a)) = sv eval a / pow2 n.
Proof.
  intros Ha Hn.
  assert (length (drop n a ++ replicate n (top a)) = length a) as Hl
    by (rewrite length_app, length_replicate, length_drop; lia).
  apply signed_of_mod; rewrite Hl; [done| |].
  - apply div_pow2_bounds; [by apply sv_bounds|lia].
  - rewrite uv_app, uv_drop, length_drop, uv_replicate, (sv_uv eval).
    pose proof (uv_bounds eval a). pose proof (pow2_pos n). pose proof (pow2_pos (length a - n)).
    assert (pow2 (length a) = pow2 (length a - n) * pow2 n) as Hp
      by (rewrite <- pow2_add; f_equal; lia).
    set (q := uv eval a / pow2 n).
    assert ((uv eval a - (if eval (top a) then pow2 (length a) else 0)) / pow2 n
      = q + - (Z.b2z (eval (top a)) * pow2 (length a - n))) as ->.
    { unfold q. rewrite <- Z.div_add by lia. f_equal. rewrite Hp.
      destruct (eval (top a)); cbn; lia. }
    assert (0 <= q < pow2 (length a - n)) as Hq.
    { unfold q. split; [apply Z.div_pos; lia|]. apply Z.div_lt_upper_bound; lia. }
    rewrite <- (Z.mod_small (q + _) (pow2 (length a))).
    + apply (mod_eq _ _ _ (Z.b2z (eval (top a)))). lia.
    + rewrite Hp. destruct (eval (top a)); cbn [Z.b2z]; nia.
Qed.

Lemma sv_fill (n : nat) (l : list E) (b : bool) :
  (0 < n)%nat -> map eval l = replicate n b -> sv eval l = - Z.b2z b.
Proof.
  intros Hn Hl. unfold sv, sval. rewrite Hl, length_replicate.
  assert (msb (replicate n b) = b) as ->.
  { unfold msb. destruct n as [|n]; [lia|]. by rewrite replicate_S_end, List.last_last. }
  destruct b; rewrite ?uval_replicate_true, ?uval_replicate_false; cbn; lia.
Qed.

Lemma arith_clamp v n t :
  - pow2 n <= v < pow2 n -> Z.of_nat n <= t -> v / 2 ^ t = - Z.b2z (v <? 0).
Proof.
  intros Hv Ht. pose proof (Z.pow_le_mono_r 2 (Z.of_nat n) t ltac:(lia) Ht) as Hp.
  fold (pow2 n) in Hp. destruct (Z.ltb_spec v 0); cbn [Z.b2z Z.opp].
  - symmetry. apply (Z.div_unique _ _ _ (v + 2 ^ t)); lia.
  - apply Z.div_small. lia.
Qed.

Lemma mk_ashr_value a b :
  (0 < length a)%nat -> length a = length b ->
  sv eval (mk_ashr a b) = sv eval a / 2 ^ uv eval b /\ length (mk_ashr a b) = length a.
Proof.
  intros Ha Hl. pose proof (sv_bounds eval a Ha) as Hb. pose proof (pow2_double _ Ha).
  pose proof (pow2_pos (length a - 1)).
  assert (forall t, Z.of_nat (length a) <= t -> sv eval a / 2 ^ t = - Z.b2z (sv eval a <? 0)) as Hclamp.
  { intros t Ht. apply (arith_clamp _ (length a)); lia. }
  unfold mk_ashr. destruct (is_numeral b) as [k|] eqn:Hk.
  - apply (is_numeral_uv eval) in Hk. pose proof (uv_bounds eval b). unfold clamp.
    split; [|rewrite length_app, length_replicate, length_drop; lia].
    rewrite ashr_const, <- Hk by lia.
    destruct (decide (uv eval b <= Z.of_nat (length a))).
    + unfold pow2. by rewrite Z.min_l, Z2Nat.id by lia.
    + rewrite Z.min_r, Nat2Z.id, (Hclamp (uv eval b)) by lia. apply Hclamp. lia.
  - destruct (barrel_shifts eval (length a) (shifted_arith (length a) (sv eval a))
      (pick_ashr (top a)) (top a)) with (a := a) (b := b) as [(out & [Ho Hv] & He)|[Hbig He]].
    + by intros t out [? _].
    + intros t out x i. apply ashr_stage; [done|by apply sv_negative].
    + split; [done|]. by rewrite Z.div_1_r.
    + unfold sv in *. rewrite He. split; [done|].
      by rewrite <- (length_map eval), He, length_map.
    + rewrite (sv_fill _ _ _ Ha He), Hclamp, (sv_negative eval) by done.
      split; [done|]. by rewrite <- (length_map eval), He, length_replicate.
Qed.

(** ** Rotations *)

(** Position that moves to [i] when [sz] bits are rotated left by [k]. *)
Definition rot_index (sz i : nat) (k : Z) : nat :=
  Z.to_nat ((Z.of_nat i - k) mod Z.of_nat sz).

Lemma rot_index_eq sz i k m :
  (i < sz)%nat -> (m < sz)%nat -> Z.of_nat m = k mod Z.of_nat sz ->
  rot_index sz i k = if decide (i < m)%nat then (sz + i - m)%nat else (i - m)%nat.
Proof.
  intros Hi Hm Hk. unfold rot_index. rewrite <- Zminus_mod_idemp_r, <- Hk.
  case_decide.
  - rewrite <- (Z.mod_add _ 1), Z.mod_small by lia. lia.
  - rewrite Z.mod_small by lia. lia.
Qed.

Lemma bit_app (l1 l2 : list E) i :
  bit (l1 ++ l2) i = if decide (i < length l1)%nat then bit l1 i else bit l2 (i - length l1).
Proof.
  unfold bit. case_decide; [by apply app_nth1|apply app_nth2; lia].
Qed.

Lemma bit_drop (l : list E) k i : bit (drop k l) i = bit l (k + i).
Proof. unfold bit. by rewrite !nth_lookup, lookup_drop. Qed.

Lemma bit_take (l : list E) k i : (i < k)%nat -> bit (take k l) i = bit l i.
Proof. intros Hi. unfold bit. by rewrite !nth_lookup, lookup_take_lt. Qed.

Lemma mk_rotate_left_length (a : list E) n : length (mk_rotate_left a n) = length a.
Proof. unfold mk_rotate_left. rewrite length_app, length_drop, length_take. lia. Qed.

Lemma mk_rotate_left_bit (a : list E) n i :
  (i < length a)%nat ->
  bit (mk_rotate_left a n) i = bit a (rot_index (length a) i (Z.of_nat n)).
Proof.
  intros Hi. assert (n mod length a < length a)%nat as Hm by (apply Nat.mod_upper_bound; lia).
  rewrite (rot_index_eq _ _ _ (n mod length a)) by (lia || by rewrite Nat2Z.inj_mod).
  unfold mk_rotate_left. rewrite bit_app, length_drop, bit_drop.
  replace (length a - (length a - n mod length a))%nat with (n mod length a)%nat by lia.
  case_decide; [f_equal; lia|]. apply bit_take. lia.
Qed.

Lemma mk_rotate_right_bit (a : list E) n i :
  (i < length a)%nat ->
  bit (mk_rotate_right a n) i = bit a (rot_index (length a) i (- Z.of_nat n)).
Proof.
  intros Hi. unfold mk_rotate_right. rewrite mk_rotate_left_bit by done. f_equal.
  assert (n mod length a < length a)%nat as Hm by (apply Nat.mod_upper_bound; lia).
  unfold rot_index. f_equal. rewrite Nat2Z.inj_sub, Nat2Z.inj_mod by lia.
  rewrite <- Zminus_mod_idemp_r, Zminus_mod_idemp_r.
  apply (mod_eq _ _ _ (- (1 + Z.of_nat n / Z.of_nat (length a)))).
  pose proof (Z.div_mod (Z.of_nat n) (Z.of_nat (length a))). lia.
Qed.

(** The chain of multiplexers selects the position [r] asks for. *)
Lemma select_chain (eqs : list E) (f : nat -> E) (x : E) r k :
  (forall j, (1 <= j <= k)%nat -> eval (bit eqs j) = Nat.eqb r j) ->
  eval (foldl (fun out j => mk_ite (bit eqs j) (f j) out) x (seq 1 k))
  = if decide (1 <= r <= k)%nat then eval (f r) else eval x.
Proof.
  induction k as [|k IH]; intros He.
  - cbn. by rewrite decide_False by lia.
  - rewrite seq_S, foldl_app. cbn [foldl Nat.add]. rewrite eval_ite, (He (S k)) by lia.
    rewrite IH by (intros j Hj; apply He; lia).
    destruct (Nat.eqb_spec r (S k)) as [->|Hne]; [by rewrite decide_True by lia|].
    repeat case_decide; done || lia.
Qed.

Lemma masked_eqs b n j :
  length b = n -> (j < n)%nat ->
  eval (bit (mk_eqs (mk_urem b (num2bits (Z.of_nat n) n))) j)
  = Nat.eqb (Z.to_nat (uv eval b mod Z.of_nat n)) j.
Proof.
  intros Hb Hj. pose proof (num2bits_length eval (Z.of_nat n) n) as Hlen.
  destruct (mk_udiv_urem_value eval b (num2bits (Z.of_nat n) n)) as (_ & Hl & _ & Hv); [lia|congruence|].
  rewrite (mk_eqs_value eval) by lia. rewrite Hv, (num2bits_uv eval).
  rewrite (Z.mod_small (Z.of_nat n)) by (pose proof (pow2_nat_lt n); lia).
  pose proof (Z.mod_pos_bound (uv eval b) (Z.of_nat n)).
  apply eq_true_iff_eq. rewrite Z.eqb_eq, Nat.eqb_eq. lia.
Qed.

(** Direction of a rotation. *)
Definition rot_amount (left_rot : bool) (k : Z) : Z := if left_rot then k else - k.

Lemma mk_ext_rotate_value (left_rot : bool) a b i :
  length a = length b -> (i < length a)%nat ->
  eval (bit (mk_ext_rotate_left_right left_rot a b) i)
  = eval (bit a (rot_index (length a) i (rot_amount left_rot (uv eval b)))).
Proof.
  intros Hl Hi. unfold mk_ext_rotate_left_right. set (general := map _ (seq 0 (length a))).
  assert (eval (bit general i)
    = eval (bit a (rot_index (length a) i (rot_amount left_rot (uv eval b))))) as Hgen.
  { unfold general. unfold bit at 1. erewrite nth_lookup_Some.
    2: { rewrite list_lookup_fmap, lookup_seq_lt by done. done. }
    cbn [Nat.add]. set (r := Z.to_nat (uv eval b mod Z.of_nat (length a))).
    pose proof (Z.mod_pos_bound (uv eval b) (Z.of_nat (length a))) as Hr.
    rewrite (select_chain _ (fun j => bit a ((if left_rot then length a + i - j else i + j) mod length a)) _ r).
    2: { intros j Hj. apply masked_eqs; lia. }
    assert (rot_index (length a) i (rot_amount left_rot (uv eval b))
      = ((if left_rot then length a + i - r else i + r) mod length a)%nat) as ->.
    { unfold rot_index, rot_amount. rewrite <- (Nat2Z.id (_ mod length a)), Nat2Z.inj_mod. f_equal.
      pose proof (Z.div_mod (uv eval b) (Z.of_nat (length a))).
      set (q := uv eval b / Z.of_nat (length a)) in *. destruct left_rot.
      - apply (mod_eq _ _ _ (- q - 1)). lia.
      - apply (mod_eq _ _ _ q). lia. }
    case_decide; [done|]. assert (r = 0)%nat as -> by lia. f_equal. f_equal.
    destruct left_rot; symmetry.
    - rewrite Nat.sub_0_r, Nat.add_comm, Nat.Div0.add_mod, Nat.Div0.mod_same, Nat.add_0_r.
      by rewrite Nat.Div0.mod_mod, Nat.mod_small.
    - rewrite Nat.add_0_r. by apply Nat.mod_small. }
  destruct (is_numeral b) as [k|] eqn:Hk; [|done]. destruct (k <? 2 ^ 32); [|done].
  apply (is_numeral_uv eval) in Hk. pose proof (uv_bounds eval b). rewrite <- Hk.
  destruct left_rot; [rewrite mk_rotate_left_bit by done|rewrite mk_rotate_right_bit by done];
    by rewrite Z2Nat.id by lia.
Qed.
End Correct.
