(* ===== verification/BlastSigned.v ===== *)
(** bit_blaster_tpl: the divider with four copies, [mk_sdiv_srem_smod], which
    the template keeps next to the circuits it uses. It is right for quotient
    and remainder; for the modulus it misses the case of a zero remainder. *)
From S2P Require Import Prelude Bits Gates BlastArith BlastOverflow BlastCompare BlastDiv.

Inductive signed_op_kind := SDIV | SREM | SMOD.

Section Circuits.
Context {E : Type} `{Gates E}.

(** One of the four copies: [na], [nb] are the signs it is for. It is built
    only when the constant sign bits do not exclude them. *)
Definition sign_possible (msb : E) (negative : bool) : bool :=
  if negative then negb (is_false msb) else negb (is_true msb).

Definition signed_out (k : signed_op_kind) (na nb : bool) (b : list E) (qr : list E * list E) : list E :=
  let '(q, r) := qr in
  match k with
  | SDIV => if xorb na nb then mk_neg q else q
  | SREM => if na then mk_neg r else r
  | SMOD =>
      match na, nb with
      | false, false => r
      | true, false => (mk_subtracter b r).1
      | false, true => mk_adder b r
      | true, true => mk_neg r
      end
  end.

Definition signed_copy (k : signed_op_kind) (na nb : bool) (a b : list E) : list E :=
  if sign_possible (top a) na && sign_possible (top b) nb then
    signed_out k na nb b
      (mk_udiv_urem (if na then mk_neg a else a) (if nb then mk_neg b else b))
  else replicate (length a) mk_false.

Definition mk_sdiv_srem_smod (k : signed_op_kind) (a b : list E) : list E :=
  let ite1 := mk_multiplexer (top b) (signed_copy k true true a b) (signed_copy k true false a b) in
  let ite2 := mk_multiplexer (top b) (signed_copy k false true a b) (signed_copy k false false a b) in
  mk_multiplexer (top a) ite1 ite2.
End Circuits.

(** ** On numbers *)

(** What the four copies compute for the modulus. *)
Definition four_copy_smod (x y : Z) : Z :=
  let u := Z.abs x mod Z.abs y in
  if x <? 0 then (if y <? 0 then - u else y - u) else (if y <? 0 then y + u else u).

Definition signed_result (k : signed_op_kind) (x y : Z) : Z :=
  match k with SDIV => smt_sdiv x y | SREM => Z.rem x y | SMOD => four_copy_smod x y end.

(** It is the modulus unless the signs differ and the division is exact. *)
Lemma four_copy_smod_cases n x y :
  Z.abs x < pow2 n ->
  (four_copy_smod x y) mod pow2 n
  = if (Z.abs x mod Z.abs y =? 0) && xorb (x <? 0) (y <? 0) then y mod pow2 n
    else (x mod y) mod pow2 n.
Proof.
  intros Hx. rewrite <- (smod_signs n x y _ Hx eq_refl). unfold four_copy_smod.
  pose proof (abs_mod x y) as Hb. set (u := Z.abs x mod Z.abs y) in *.
  pose proof (pow2_pos n). assert (u mod pow2 n = u) as Hu by (apply Z.mod_small; lia).
  destruct (Z.eqb_spec u 0) as [->|_]; destruct (x <? 0), (y <? 0); cbn [andb xorb];
    rewrite ?Z.sub_0_r, ?Z.add_0_r, ?Z.mod_0_l by lia; auto; f_equal; lia.
Qed.

Section Correct.
Context {E : Type} `{Gates E} (eval : E -> bool) `{!GatesOk eval}.

Lemma sign_possible_eval msb : sign_possible msb (eval msb) = true.
Proof.
  unfold sign_possible. destruct (eval msb) eqn:He.
  - destruct (is_false msb) eqn:Hf; [|done]. apply eval_is_false in Hf. congruence.
  - destruct (is_true msb) eqn:Ht; [|done]. apply eval_is_true in Ht. congruence.
Qed.

Lemma sign_magnitude a :
  (0 < length a)%nat -> magnitude eval a (if eval (top a) then mk_neg a else a).
Proof.
  intros Ha. pose proof (mk_abs_abs eval a Ha) as Habs. rewrite (mk_abs_uv eval) in Habs.
  destruct (eval (top a)); (split; [|rewrite <- Habs]); rewrite ?mk_neg_length; try done.
  apply (mk_neg_uv eval).
Qed.

Lemma signed_out_length k na nb n b q r :
  length b = n -> length q = n -> length r = n -> length (signed_out k na nb b (q, r)) = n.
Proof.
  intros Hb Hq Hr. destruct k, na, nb; cbn;
    rewrite ?mk_neg_length, ?mk_adder_length, ?mk_subtracter_length; congruence.
Qed.

Lemma mk_udiv_urem_pair (a b : list E) : mk_udiv_urem a b = (mk_udiv a b, mk_urem a b).
Proof. unfold mk_udiv, mk_urem. by destruct (mk_udiv_urem a b). Qed.

Lemma signed_copy_length k na nb a b :
  (0 < length a)%nat -> length a = length b -> length (signed_copy k na nb a b) = length a.
Proof.
  intros Ha Hl. unfold signed_copy. destruct (_ && _); [|apply length_replicate].
  rewrite mk_udiv_urem_pair.
  set (x := if na then mk_neg a else a). set (y := if nb then mk_neg b else b).
  assert (length x = length a) as Hx by (unfold x; destruct na; rewrite ?mk_neg_length; done).
  assert (length y = length a) as Hy by (unfold y; destruct nb; rewrite ?mk_neg_length; done).
  destruct (mk_udiv_urem_value eval x y) as (Hq & Hr & _); [lia|lia|].
  apply signed_out_length; lia.
Qed.

(** The copy for the signs the vectors have. *)
Lemma signed_copy_value k a b :
  (0 < length a)%nat -> length a = length b ->
  uv eval (signed_copy k (eval (top a)) (eval (top b)) a b)
  = signed_result k (sv eval a) (sv eval b) mod pow2 (length a).
Proof.
  intros Ha Hl. unfold signed_copy. rewrite !sign_possible_eval, mk_udiv_urem_pair. cbn [andb].
  pose proof (sign_magnitude a Ha) as Hma. pose proof (sign_magnitude b ltac:(lia)) as Hmb.
  destruct (magnitudes_divide eval a b _ _ Ha Hl Hma Hmb) as (Hlq & Hlr & Hq & Hr).
  set (q := mk_udiv _ _) in *. set (r := mk_urem _ _) in *.
  pose proof (sv_abs_small eval a Ha) as Hsmall. pose proof (pow2_pos (length a)).
  rewrite (sv_negative eval a), (sv_negative eval b) by lia. destruct k; cbn [signed_out signed_result].
  - rewrite <- sdiv_signs by done.
    destruct (sv eval a <? 0), (sv eval b <? 0); cbn [xorb Bool.eqb]; try done; by apply mk_neg_of.
  - rewrite <- srem_signs by done. destruct (sv eval a <? 0); [by apply mk_neg_of|done].
  - unfold four_copy_smod. rewrite <- Hr.
    assert (forall y, (uv eval b + y) mod pow2 (length a) = (sv eval b + y) mod pow2 (length a)) as Hsv.
    { intros y. rewrite (sv_uv eval), Hl. destruct (eval (top b)); [|f_equal; lia].
      apply (mod_eq _ _ _ 1). lia. }
    destruct (sv eval a <? 0), (sv eval b <? 0).
    + by apply mk_neg_of.
    + destruct (mk_subtracter_uv eval b r) as [-> _]; [congruence|]. rewrite <- Hl. apply Hsv.
    + rewrite (mk_adder_uv eval) by congruence. rewrite <- Hl. apply Hsv.
    + rewrite Z.mod_small; [done|]. rewrite <- Hlr. apply uv_bounds.
Qed.

Lemma mk_sdiv_srem_smod_value k a b :
  (0 < length a)%nat -> length a = length b ->
  uv eval (mk_sdiv_srem_smod k a b) = signed_result k (sv eval a) (sv eval b) mod pow2 (length a)
  /\ length (mk_sdiv_srem_smod k a b) = length a.
Proof.
  intros Ha Hl. assert (forall na nb, length (signed_copy k na nb a b) = length a) as Hc
    by (intros; by apply signed_copy_length).
  unfold mk_sdiv_srem_smod. rewrite !mk_multiplexer_length; rewrite ?mk_multiplexer_length; rewrite ?Hc; try done.
  split; [|done]. rewrite !(mk_multiplexer_uv eval) by (rewrite ?mk_multiplexer_length; rewrite ?Hc; done).
  rewrite <- signed_copy_value by done. by destruct (eval (top a)), (eval (top b)).
Qed.
End Correct.
