(* ===== verification/Ast.v ===== *)
(** Z3's terms (ast.h, ast.cpp): sorts, declarations, the hash-consed nodes of
    the basic and bit-vector families, the recognisers and constructors of
    [ast_manager] the rewriters use, and the structural order of ast_lt.cpp.
    Nodes are hash-consed, so the pointer comparisons of the code are
    equalities of terms here. Quantifiers and the other theories are left out. *)
From S2P Require Import Prelude Text.

(** ** Data *)

(** A symbol is a number or a string. *)
Inductive symbol := SymNum (n : nat) | SymStr (s : string).

Inductive sort :=
  | BoolSort
  | BvSort (bv_size : nat)
  | UserSort (name : symbol).

Inductive basic_op_kind :=
  | OP_TRUE | OP_FALSE | OP_EQ | OP_DISTINCT | OP_ITE | OP_AND | OP_OR | OP_XOR
  | OP_NOT | OP_IMPLIES | OP_OEQ.

Inductive bv_op_kind :=
  | OP_BV_NUM | OP_BIT1 | OP_BIT0 | OP_BNEG | OP_BADD | OP_BSUB | OP_BMUL
  | OP_BSDIV | OP_BUDIV | OP_BSREM | OP_BUREM | OP_BSMOD
  | OP_BSDIV0 | OP_BUDIV0 | OP_BSREM0 | OP_BUREM0 | OP_BSMOD0
  | OP_BSDIV_I | OP_BUDIV_I | OP_BSREM_I | OP_BUREM_I | OP_BSMOD_I
  | OP_ULEQ | OP_SLEQ | OP_UGEQ | OP_SGEQ | OP_ULT | OP_SLT | OP_UGT | OP_SGT
  | OP_BAND | OP_BOR | OP_BNOT | OP_BXOR | OP_BNAND | OP_BNOR | OP_BXNOR
  | OP_CONCAT | OP_SIGN_EXT | OP_ZERO_EXT | OP_EXTRACT | OP_REPEAT
  | OP_BREDOR | OP_BREDAND | OP_BCOMP
  | OP_BSHL | OP_BLSHR | OP_BASHR | OP_ROTATE_LEFT | OP_ROTATE_RIGHT
  | OP_EXT_ROTATE_LEFT | OP_EXT_ROTATE_RIGHT
  | OP_BUMUL_NO_OVFL | OP_BSMUL_NO_OVFL | OP_BSMUL_NO_UDFL
  | OP_BIT2BOOL | OP_MKBV | OP_INT2BV | OP_BV2INT | OP_CARRY | OP_XOR3.

(** Family and kind of a declaration; [NullFid] is the family of the symbols
    the user declares. *)
Inductive decl_kind := Basic (k : basic_op_kind) | Bv (k : bv_op_kind) | NullFid.

Inductive parameter := PInt (n : nat) | PRational (z : Z) | PSymbol (s : symbol).

Record func_decl := mk_func_decl {
  decl_name : symbol;
  kind : decl_kind;
  params : list parameter;
  domain : list sort;
  range : sort
}.

Inductive expr :=
  | Var (idx : nat) (s : sort)
  | App (d : func_decl) (args : list expr).

#[global] Instance symbol_eq_dec : EqDecision symbol.
Proof. solve_decision. Defined.
#[global] Instance sort_eq_dec : EqDecision sort.
Proof. solve_decision. Defined.
#[global] Instance basic_op_kind_eq_dec : EqDecision basic_op_kind.
Proof. solve_decision. Defined.
#[global] Instance bv_op_kind_eq_dec : EqDecision bv_op_kind.
Proof. solve_decision. Defined.
#[global] Instance decl_kind_eq_dec : EqDecision decl_kind.
Proof. solve_decision. Defined.
#[global] Instance parameter_eq_dec : EqDecision parameter.
Proof. solve_decision. Defined.
#[global] Instance func_decl_eq_dec : EqDecision func_decl.
Proof. solve_decision. Defined.

(** Induction over the arguments of an application. *)
Section ExprInd.
Variable P : expr -> Prop.
Hypothesis P_var : forall i s, P (Var i s).
Hypothesis P_app : forall d args, Forall P args -> P (App d args).

Fixpoint expr_induction (e : expr) : P e :=
  match e with
  | Var i s => P_var i s
  | App d args =>
      P_app d args ((fix all (l : list expr) : Forall P l :=
        match l with
        | [] => Forall_nil_2 _
        | x :: l => Forall_cons_2 _ _ _ (expr_induction x) (all l)
        end) args)
  end.
End ExprInd.

#[global] Instance expr_eq_dec : EqDecision expr.
Proof.
  refine (fix go (x y : expr) : Decision (x = y) :=
    match x, y with
    | Var i s, Var j t => cast_if_and (decide (i = j)) (decide (s = t))
    | App d l, App e m =>
        cast_if_and (decide (d = e))
          ((fix gos (l m : list expr) : Decision (l = m) :=
            match l, m with
            | [], [] => left eq_refl
            | a :: l, b :: m => cast_if_and (go a b) (gos l m)
            | _, _ => right _
            end) l m)
    | _, _ => right _
    end); abstract congruence.
Defined.

(** ** Sorts *)

Definition get_sort (e : expr) : sort := match e with Var _ s => s | App d _ => range d end.

(** [ast_manager::is_bool] of a sort and of a term. *)
Definition is_bool_sort (s : sort) : bool := match s with BoolSort => true | _ => false end.
Definition is_bool (e : expr) : bool := is_bool_sort (get_sort e).

(** [bv_util::is_bv_sort], [is_bv], [get_bv_size]. *)
Definition is_bv_sort (s : sort) : bool := match s with BvSort _ => true | _ => false end.
Definition is_bv (e : expr) : bool := is_bv_sort (get_sort e).
Definition sort_bv_size (s : sort) : nat := match s with BvSort n => n | _ => 0%nat end.
Definition get_bv_size (e : expr) : nat := sort_bv_size (get_sort e).

(** ** Constructors *)

Definition bool_decl (name : string) (k : basic_op_kind) (arity : nat) : func_decl :=
  mk_func_decl (SymStr name) (Basic k) [] (replicate arity BoolSort) BoolSort.

Definition m_true : expr := App (bool_decl "true" OP_TRUE 0) [].
Definition m_false : expr := App (bool_decl "false" OP_FALSE 0) [].
Definition m_mk_not (e : expr) : expr := App (bool_decl "not" OP_NOT 1) [e].
Definition m_mk_and (args : list expr) : expr := App (bool_decl "and" OP_AND 2) args.
Definition m_mk_or (args : list expr) : expr := App (bool_decl "or" OP_OR 2) args.
Definition m_mk_eq (l r : expr) : expr :=
  App (mk_func_decl (SymStr "=") (Basic OP_EQ) [] [get_sort l; get_sort l] BoolSort) [l; r].
Definition m_mk_ite (c t e : expr) : expr :=
  App (mk_func_decl (SymStr "if") (Basic OP_ITE) [] [BoolSort; get_sort t; get_sort t] (get_sort t))
    [c; t; e].
Definition m_mk_distinct (args : list expr) : expr :=
  App (mk_func_decl (SymStr "distinct") (Basic OP_DISTINCT) [] (map get_sort args) BoolSort) args.

(** [mk_fresh_func_decl]: a symbol with the next number. *)
Definition fresh_bool (id : nat) : func_decl := mk_func_decl (SymNum id) NullFid [] [] BoolSort.

(** Nodes of a term as a tree. *)
Fixpoint size (e : expr) : nat :=
  match e with
  | Var _ _ => 1
  | App _ args => Datatypes.S (sum_list (map size args))
  end.

(** ** Recognisers *)

Definition is_app_of (e : expr) (k : decl_kind) : bool :=
  match e with App d _ => bool_decide (kind d = k) | Var _ _ => false end.

(** [to_app(e)->get_args()] and [get_arg(i)]; the callers know the arity. *)
Definition get_args (e : expr) : list expr := match e with App _ l => l | Var _ _ => [] end.
Definition get_arg (e : expr) (i : nat) : expr := nth i (get_args e) m_false.

Definition is_true (e : expr) : bool := bool_decide (e = m_true).
Definition is_false (e : expr) : bool := bool_decide (e = m_false).
Definition is_not (e : expr) : bool := is_app_of e (Basic OP_NOT).
Definition is_and (e : expr) : bool := is_app_of e (Basic OP_AND).
Definition is_or (e : expr) : bool := is_app_of e (Basic OP_OR).
Definition is_eq (e : expr) : bool := is_app_of e (Basic OP_EQ).
Definition is_ite (e : expr) : bool := is_app_of e (Basic OP_ITE).
Definition is_mkbv (e : expr) : bool := is_app_of e (Bv OP_MKBV).
Definition is_bv_num (e : expr) : bool := is_app_of e (Bv OP_BV_NUM).

Definition is_uninterp_const (e : expr) : bool :=
  match e with App d [] => bool_decide (kind d = NullFid) | _ => false end.

Definition is_complement_core (n1 n2 : expr) : bool :=
  (is_true n1 && is_false n2) || (is_not n1 && bool_decide (get_arg n1 0 = n2)).
Definition is_complement (n1 n2 : expr) : bool :=
  is_complement_core n1 n2 || is_complement_core n2 n1.

(** ** Values, equality and distinctness the plugins decide *)

(** The plugin asked is that of the family; the user's symbols have none. *)
Definition basic_is_value (e : expr) : bool := is_true e || is_false e.

Definition is_value (e : expr) : bool :=
  match e with
  | App d _ => match kind d with
               | Basic _ => basic_is_value e
               | Bv _ => is_bv_num e
               | NullFid => false
               end
  | Var _ _ => false
  end.

(** Both families define [is_unique_value] as [is_value]. *)
Definition is_unique_value (e : expr) : bool := is_value e.

(** No modelled plugin overrides [are_equal], which compares the pointers. *)
Definition are_equal (a b : expr) : bool := bool_decide (a = b).

(** [bv_decl_plugin::get_offset_term]: [t] and [k] with [a = k + t]. *)
Definition get_offset_term (a : expr) : expr * Z :=
  match a with
  | App (mk_func_decl _ (Bv OP_BADD) _ _ _)
      [App (mk_func_decl _ (Bv OP_BV_NUM) [PRational v; PInt sz] _ _) _; t] =>
      (t, v mod 2 ^ Z.of_nat sz)
  | _ => (a, 0)
  end.

(** [decl_plugin::are_distinct], for a plugin's [is_unique_value]. *)
Definition plugin_are_distinct (unique : expr -> bool) (a b : expr) : bool :=
  negb (bool_decide (a = b)) && unique a && unique b.

Definition bv_are_distinct (a b : expr) : bool :=
  let '(a_term, a_offset) := get_offset_term a in
  let '(b_term, b_offset) := get_offset_term b in
  if bool_decide (a_term = b_term) && negb (a_offset =? b_offset) then true
  else plugin_are_distinct is_bv_num a b.

(** [ast_manager::are_distinct]: the plugin of [a]'s family, or else of [b]'s. *)
Definition are_distinct (a b : expr) : bool :=
  match a, b with
  | App da _, App db _ =>
      match (match kind da with NullFid => kind db | k => k end) with
      | Basic _ => plugin_are_distinct basic_is_value a b
      | Bv _ => bv_are_distinct a b
      | NullFid => false
      end
  | _, _ => false
  end.

(** ** The structural order of ast_lt.cpp *)

(** [check_value]: a difference decides, equality goes on with [k]. *)
Definition check_value (v1 v2 : nat) (k : bool) : bool :=
  if bool_decide (v1 = v2) then k else Nat.ltb v1 v2.

(** [lt] of two symbols: the numbers first, the strings by [strcmp]. *)
Definition symbol_lt (s1 s2 : symbol) : bool :=
  match s1, s2 with
  | SymNum a, SymNum b => Nat.ltb a b
  | SymNum _, SymStr _ => true
  | SymStr _, SymNum _ => false
  | SymStr a, SymStr b => String.ltb a b
  end.
Definition check_symbol (s1 s2 : symbol) (k : bool) : bool :=
  if bool_decide (s1 = s2) then k else symbol_lt s1 s2.

(** [parameter::get_kind()], in the order of the C++ enumeration. *)
Definition parameter_kind (p : parameter) : nat :=
  match p with PInt _ => 0 | PSymbol _ => 2 | PRational _ => 3 end%nat.
Definition check_parameter (p1 p2 : parameter) (k : bool) : bool :=
  check_value (parameter_kind p1) (parameter_kind p2)
    match p1, p2 with
    | PInt a, PInt b => check_value a b k
    | PSymbol a, PSymbol b => check_symbol a b k
    | PRational a, PRational b => if bool_decide (a = b) then k else a <? b
    | _, _ => k
    end.
Fixpoint check_parameters (l1 l2 : list parameter) (k : bool) : bool :=
  match l1, l2 with
  | p1 :: l1, p2 :: l2 => check_parameter p1 p2 (check_parameters l1 l2 k)
  | _, _ => k
  end.

Definition sort_name (s : sort) : symbol :=
  match s with BoolSort => SymStr "Bool" | BvSort _ => SymStr "bv" | UserSort n => n end.
Definition sort_params (s : sort) : list parameter :=
  match s with BvSort n => [PInt n] | _ => [] end.

Definition sort_lt (s1 s2 : sort) : bool :=
  if bool_decide (s1 = s2) then false
  else check_symbol (sort_name s1) (sort_name s2)
    (check_value (length (sort_params s1)) (length (sort_params s2))
      (check_parameters (sort_params s1) (sort_params s2) false)).

Fixpoint check_sorts (l1 l2 : list sort) (k : bool) : bool :=
  match l1, l2 with
  | s1 :: l1, s2 :: l2 => if bool_decide (s1 = s2) then check_sorts l1 l2 k else sort_lt s1 s2
  | _, _ => k
  end.

Definition func_decl_lt (d1 d2 : func_decl) : bool :=
  if bool_decide (d1 = d2) then false
  else check_symbol (decl_name d1) (decl_name d2)
    (check_value (length (domain d1)) (length (domain d2))
      (check_value (length (params d1)) (length (params d2))
        (check_parameters (params d1) (params d2)
          (check_sorts (domain d1) (domain d2) (sort_lt (range d1) (range d2)))))).

(** [get_depth()]: kept in 16 bits of the node's flags. *)
Definition c_max_depth : Z := 2 ^ 16 - 1.
Fixpoint get_depth (e : expr) : Z :=
  match e with
  | Var _ _ => 1
  | App _ args => Z.min c_max_depth (foldr Z.max 0 (map get_depth args) + 1)
  end.

(** [lt]; every node kind has its own lexicographic order. *)
Fixpoint lt (n1 n2 : expr) : bool :=
  if bool_decide (n1 = n2) then false
  else match n1, n2 with
  | App _ _, Var _ _ => true
  | Var _ _, App _ _ => false
  | Var i s, Var j t => check_value i j (sort_lt s t)
  | App d1 l1, App d2 l2 =>
      check_value (length l1) (length l2)
        (if negb (get_depth n1 =? get_depth n2) then get_depth n1 <? get_depth n2
         else if bool_decide (d1 = d2)
           then (fix check_args (l1 l2 : list expr) : bool :=
              match l1, l2 with
              | a :: l1, b :: l2 => if bool_decide (a = b) then check_args l1 l2 else lt a b
              | _, _ => false
              end) l1 l2
           else func_decl_lt d1 d2)
  end.
