(* ===== verification/AstSem.v ===== *)
(** What Z3's terms mean: values, the meaning of the operators of the basic and
    bit-vector families (SMT-LIB's, with its values for division by zero), the
    sorting rules the declarations enforce, and the lemma that a well-sorted
    term denotes a value of its sort. The rewriters are proved against it. *)
From S2P Require Import Prelude Text Bits BlastDiv BlastShift Ast.

(** ** Values *)

Inductive value :=
  | VBool (b : bool)
  | VBv (bits : list bool)          (* least significant bit first *)
  | VUser (name : symbol) (z : Z).

#[global] Instance value_eq_dec : EqDecision value.
Proof. solve_decision. Defined.

Definition value_sort (v : value) : sort :=
  match v with
  | VBool _ => BoolSort
  | VBv l => BvSort (length l)
  | VUser n _ => UserSort n
  end.

(** Reading a value of a known sort. *)
Definition truth (v : value) : bool := match v with VBool b => b | _ => false end.
Definition bits (v : value) : list bool := match v with VBv l => l | _ => [] end.

(** ** Operators *)

Definition basic_apply (k : basic_op_kind) (vs : list value) : option value :=
  match k, vs with
  | OP_TRUE, [] => Some (VBool true)
  | OP_FALSE, [] => Some (VBool false)
  | OP_EQ, [a; b] | OP_OEQ, [a; b] => Some (VBool (bool_decide (a = b)))
  | OP_DISTINCT, vs => Some (VBool (bool_decide (NoDup vs)))
  | OP_ITE, [c; t; e] => Some (if truth c then t else e)
  | OP_AND, vs => Some (VBool (forallb truth vs))
  | OP_OR, vs => Some (VBool (existsb truth vs))
  | OP_XOR, vs => Some (VBool (foldr xorb false (map truth vs)))
  | OP_NOT, [a] => Some (VBool (negb (truth a)))
  | OP_IMPLIES, [a; b] => Some (VBool (implb (truth a) (truth b)))
  | _, _ => None
  end.

(** A function of the unsigned, or signed, values at the width of the first. *)
Definition unsigned_op (f : Z -> Z -> Z) (x y : list bool) : list bool :=
  bits_of (length x) (f (uval x) (uval y)).
Definition signed_op (f : Z -> Z -> Z) (x y : list bool) : list bool :=
  bits_of (length x) (f (sval x) (sval y)).

(** Every bit moves [r] positions up, around the end. *)
Definition rotate (x : list bool) (r : Z) : list bool :=
  map (fun i => nth (rot_index (length x) i r) x false) (seq 0 (length x)).

Definition bv_binary (k : bv_op_kind) : option (list bool -> list bool -> list bool) :=
  match k with
  | OP_BSUB => Some (unsigned_op Z.sub)
  | OP_BNAND => Some (zip_with (fun a b => negb (a && b)))
  | OP_BNOR => Some (zip_with (fun a b => negb (a || b)))
  | OP_BSDIV | OP_BSDIV_I => Some (signed_op smt_sdiv)
  | OP_BUDIV | OP_BUDIV_I => Some (fun x y => unsigned_op (smt_udiv (length x)) x y)
  | OP_BSREM | OP_BSREM_I => Some (signed_op Z.rem)
  | OP_BUREM | OP_BUREM_I => Some (unsigned_op Z.modulo)
  | OP_BSMOD | OP_BSMOD_I => Some (signed_op Z.modulo)
  | OP_BSHL => Some (unsigned_op (fun x y => x * 2 ^ y))
  | OP_BLSHR => Some (unsigned_op (fun x y => x / 2 ^ y))
  | OP_BASHR => Some (fun x y => bits_of (length x) (sval x / 2 ^ uval y))
  | OP_EXT_ROTATE_LEFT => Some (fun x y => rotate x (uval y))
  | OP_EXT_ROTATE_RIGHT => Some (fun x y => rotate x (- uval y))
  | _ => None
  end.

(** The operators applied to any positive number of vectors, left to right. *)
Definition bv_assoc (k : bv_op_kind) : option (list bool -> list bool -> list bool) :=
  match k with
  | OP_BADD => Some (unsigned_op Z.add)
  | OP_BMUL => Some (unsigned_op Z.mul)
  | OP_BAND => Some (zip_with andb)
  | OP_BOR => Some (zip_with orb)
  | OP_BXOR => Some (zip_with xorb)
  | OP_BXNOR => Some (zip_with Bool.eqb)
  | _ => None
  end.

Definition bv_pred (k : bv_op_kind) : option (list bool -> list bool -> bool) :=
  match k with
  | OP_ULEQ => Some (fun x y => uval x <=? uval y)
  | OP_SLEQ => Some (fun x y => sval x <=? sval y)
  | OP_UGEQ => Some (fun x y => uval y <=? uval x)
  | OP_SGEQ => Some (fun x y => sval y <=? sval x)
  | OP_ULT => Some (fun x y => uval x <? uval y)
  | OP_SLT => Some (fun x y => sval x <? sval y)
  | OP_UGT => Some (fun x y => uval y <? uval x)
  | OP_SGT => Some (fun x y => sval y <? sval x)
  | OP_BUMUL_NO_OVFL => Some (fun x y => uval x * uval y <? pow2 (length x))
  | OP_BSMUL_NO_OVFL => Some (fun x y => sval x * sval y <? pow2 (length x - 1))
  | OP_BSMUL_NO_UDFL => Some (fun x y => - pow2 (length x - 1) <=? sval x * sval y)
  | _ => None
  end.

(** The operators that are functions of vectors of one width. *)
Definition bv_uniform (k : bv_op_kind) (vs : list value) : option value :=
  match bv_binary k with
  | Some f => match vs with [a; b] => Some (VBv (f (bits a) (bits b))) | _ => None end
  | None =>
      match bv_assoc k with
      | Some f => match vs with a :: vs => Some (VBv (foldl f (bits a) (map bits vs))) | _ => None end
      | None =>
          match bv_pred k, vs with
          | Some p, [a; b] => Some (VBool (p (bits a) (bits b)))
          | _, _ => None
          end
      end
  end.

(** [None]: the operator's meaning is left to the interpretation. *)
Definition bv_apply (k : bv_op_kind) (ps : list parameter) (vs : list value) : option value :=
  match k, ps, vs with
  | OP_BV_NUM, [PRational v; PInt n], [] => Some (VBv (bits_of n v))
  | OP_BIT0, _, [] => Some (VBv [false])
  | OP_BIT1, _, [] => Some (VBv [true])
  | OP_BNOT, _, [a] => Some (VBv (map negb (bits a)))
  | OP_BNEG, _, [a] => Some (VBv (bits_of (length (bits a)) (- uval (bits a))))
  | OP_CONCAT, _, vs => Some (VBv (concat (rev (map bits vs))))
  | OP_SIGN_EXT, [PInt n], [a] => Some (VBv (bits a ++ replicate n (msb (bits a))))
  | OP_ZERO_EXT, [PInt n], [a] => Some (VBv (bits a ++ replicate n false))
  | OP_EXTRACT, [PInt hi; PInt lo], [a] => Some (VBv (take (S hi - lo) (drop lo (bits a))))
  | OP_REPEAT, [PInt n], [a] => Some (VBv (concat (replicate n (bits a))))
  | OP_ROTATE_LEFT, [PInt n], [a] => Some (VBv (rotate (bits a) (Z.of_nat n)))
  | OP_ROTATE_RIGHT, [PInt n], [a] => Some (VBv (rotate (bits a) (- Z.of_nat n)))
  | OP_BCOMP, _, [a; b] => Some (VBv [bool_decide (a = b)])
  | OP_BREDOR, _, [a] => Some (VBv [existsb (fun b => b) (bits a)])
  | OP_BREDAND, _, [a] => Some (VBv [forallb (fun b => b) (bits a)])
  | OP_BIT2BOOL, [PInt i], [a] => Some (VBool (nth i (bits a) false))
  | OP_MKBV, _, vs => Some (VBv (map truth vs))
  | OP_CARRY, _, [a; b; c] =>
      Some (VBool ((truth a && truth b) || (truth a && truth c) || (truth b && truth c)))
  | OP_XOR3, _, [a; b; c] => Some (VBool (xorb (truth a) (xorb (truth b) (truth c))))
  | _, _, _ => bv_uniform k vs
  end.

(** ** Interpretations *)

(** The user's symbols, the free variables, and the operators whose meaning the
    theories leave open (division by zero, conversions to integers). *)
Record interp := {
  i_decl : func_decl -> list value -> value;
  i_var : nat -> sort -> value;
  i_decl_sort : forall d vs, value_sort (i_decl d vs) = range d;
  i_var_sort : forall i s, value_sort (i_var i s) = s
}.

Definition default_value (s : sort) : value :=
  match s with
  | BoolSort => VBool false
  | BvSort n => VBv (replicate n false)
  | UserSort n => VUser n 0
  end.

Lemma default_value_sort s : value_sort (default_value s) = s.
Proof. destruct s; cbn; by rewrite ?length_replicate. Qed.

Definition default_interp : interp := {|
  i_decl d _ := default_value (range d);
  i_var _ s := default_value s;
  i_decl_sort d _ := default_value_sort (range d);
  i_var_sort _ s := default_value_sort s
|}.

Definition decl_apply (I : interp) (d : func_decl) (vs : list value) : value :=
  match kind d with
  | Basic k => default (i_decl I d vs) (basic_apply k vs)
  | Bv k => default (i_decl I d vs) (bv_apply k (params d) vs)
  | NullFid => i_decl I d vs
  end.

Fixpoint eval (I : interp) (e : expr) : value :=
  match e with
  | Var i s => i_var I i s
  | App d args => decl_apply I d (map (eval I) args)
  end.

(** ** Sorting *)

Definition all_same (s : sort) (ss : list sort) : bool := forallb (fun t => bool_decide (t = s)) ss.

Definition bv_num_decl (v : Z) (n : nat) : func_decl :=
  mk_func_decl (SymStr "bv") (Bv OP_BV_NUM) [PRational v; PInt n] [] (BvSort n).

Definition concat_decl (ss : list sort) : func_decl :=
  mk_func_decl (SymStr "concat") (Bv OP_CONCAT) [] ss (BvSort (sum_list (map sort_bv_size ss))).

Definition basic_sort (k : basic_op_kind) (ss : list sort) : option sort :=
  match k, ss with
  | OP_TRUE, [] | OP_FALSE, [] => Some BoolSort
  | OP_EQ, [s; t] | OP_OEQ, [s; t] => if decide (s = t) then Some BoolSort else None
  | OP_DISTINCT, [] => Some BoolSort
  | OP_DISTINCT, s :: ss => if all_same s ss then Some BoolSort else None
  | OP_ITE, [BoolSort; s; t] => if decide (s = t) then Some s else None
  | OP_AND, ss | OP_OR, ss | OP_XOR, ss => if all_same BoolSort ss then Some BoolSort else None
  | OP_IMPLIES, [BoolSort; BoolSort] => Some BoolSort
  | OP_NOT, [BoolSort] => Some BoolSort
  | _, _ => None
  end.

(** All the arguments of the uniform operators have the width of the first;
    an associative operator has at least two of them. *)
Definition bv_uniform_sort (k : bv_op_kind) (ss : list sort) : option sort :=
  match ss with
  | BvSort n :: ss =>
      if all_same (BvSort n) ss then
        match bv_binary k with
        | Some _ => if Nat.eqb (length ss) 1 then Some (BvSort n) else None
        | None =>
            match bv_assoc k with
            | Some _ => if Nat.ltb 0 (length ss) then Some (BvSort n) else None
            | None => if Nat.eqb (length ss) 1 then Some BoolSort else None
            end
        end
      else None
  | _ => None
  end.
Definition is_uniform (k : bv_op_kind) : bool :=
  match bv_binary k, bv_assoc k, bv_pred k with None, None, None => false | _, _, _ => true end.

(** The operators whose sorting rule [bv_sort] gives one by one. *)
Definition is_structural (k : bv_op_kind) : bool :=
  match k with
  | OP_BV_NUM | OP_BIT0 | OP_BIT1 | OP_BNOT | OP_BNEG | OP_CONCAT | OP_SIGN_EXT | OP_ZERO_EXT | OP_EXTRACT
  | OP_REPEAT | OP_ROTATE_LEFT | OP_ROTATE_RIGHT | OP_BCOMP | OP_BREDOR | OP_BREDAND
  | OP_BIT2BOOL | OP_MKBV | OP_CARRY | OP_XOR3 => true
  | _ => false
  end.

Definition bv_sort (d : func_decl) (k : bv_op_kind) (ss : list sort) : option sort :=
  match k, params d, ss with
  | OP_BV_NUM, [PRational v; PInt n], [] =>
      if bool_decide (d = bv_num_decl v n) && (0 <=? v) && (v <? pow2 n) && Nat.ltb 0 n
      then Some (BvSort n) else None
  | OP_BIT0, _, [] | OP_BIT1, _, [] => Some (BvSort 1)
  | OP_BNOT, _, [BvSort n] | OP_BNEG, _, [BvSort n] => Some (BvSort n)
  | OP_CONCAT, _, ss =>
      if forallb is_bv_sort ss && bool_decide (d = concat_decl ss)
      then Some (BvSort (sum_list (map sort_bv_size ss))) else None
  | OP_SIGN_EXT, [PInt k], [BvSort n] | OP_ZERO_EXT, [PInt k], [BvSort n] => Some (BvSort (n + k))
  | OP_EXTRACT, [PInt hi; PInt lo], [BvSort n] =>
      if Nat.leb lo hi && Nat.ltb hi n then Some (BvSort (S hi - lo)) else None
  | OP_REPEAT, [PInt k], [BvSort n] => Some (BvSort (k * n))
  | OP_ROTATE_LEFT, [PInt _], [BvSort n] | OP_ROTATE_RIGHT, [PInt _], [BvSort n] => Some (BvSort n)
  | OP_BCOMP, _, [BvSort n; BvSort m] => if Nat.eqb n m then Some (BvSort 1) else None
  | OP_BREDOR, _, [BvSort _] | OP_BREDAND, _, [BvSort _] => Some (BvSort 1)
  | OP_BIT2BOOL, [PInt i], [BvSort n] => if Nat.ltb i n then Some BoolSort else None
  | OP_MKBV, _, ss => if all_same BoolSort ss then Some (BvSort (length ss)) else None
  | OP_CARRY, _, [BoolSort; BoolSort; BoolSort]
  | OP_XOR3, _, [BoolSort; BoolSort; BoolSort] => Some BoolSort
  | _, _, _ =>
      if is_uniform k then bv_uniform_sort k ss
      else if is_structural k then None
      else if decide (ss = domain d) then Some (range d) else None
  end.

(** The sort of an application, from the sorts of the arguments. *)
Definition op_sort (d : func_decl) (ss : list sort) : option sort :=
  match kind d with
  | Basic k => basic_sort k ss
  | Bv k => bv_sort d k ss
  | NullFid => if decide (ss = domain d) then Some (range d) else None
  end.

(** Bit-vectors have a positive width. *)
Definition positive_width (s : sort) : bool := match s with BvSort n => Nat.ltb 0 n | _ => true end.

Fixpoint wf (e : expr) : bool :=
  match e with
  | Var _ s => positive_width s
  | App d args =>
      bool_decide (op_sort d (map get_sort args) = Some (range d))
      && positive_width (range d) && forallb wf args
  end.

(** ** A well-sorted term denotes a value of its sort *)

Lemma wf_app d args :
  wf (App d args) = true
  <-> op_sort d (map get_sort args) = Some (range d) /\ positive_width (range d) = true
      /\ Forall (fun e => wf e = true) args.
Proof.
  cbn [wf]. rewrite !andb_true_iff, bool_decide_eq_true, forallb_forall, Forall_forall.
  setoid_rewrite list_elem_of_In. tauto.
Qed.

Lemma wf_positive e : wf e = true -> positive_width (get_sort e) = true.
Proof. destruct e as [i s|d args]; [done|]. rewrite wf_app. by intros (_ & Hp & _). Qed.

Lemma all_same_spec s ss : all_same s ss = true <-> Forall (fun t => t = s) ss.
Proof.
  unfold all_same. rewrite forallb_forall, Forall_forall. setoid_rewrite list_elem_of_In.
  split; intros Hs t Ht; specialize (Hs t Ht); by apply bool_decide_eq_true in Hs || apply bool_decide_eq_true.
Qed.

Lemma value_bool v : value_sort v = BoolSort -> v = VBool (truth v).
Proof. by destruct v. Qed.

Lemma value_bv v n : value_sort v = BvSort n -> v = VBv (bits v) /\ length (bits v) = n.
Proof. destruct v; cbn; naive_solver. Qed.

Lemma foldl_length (f : list bool -> list bool -> list bool) n l ls :
  (forall x y, length x = n -> length y = n -> length (f x y) = n) ->
  length l = n -> Forall (fun y => length y = n) ls -> length (foldl f l ls) = n.
Proof. intros Hf Hl Hls. revert l Hl. induction Hls; intros l' Hl; cbn; auto. Qed.

Lemma rotate_length x r : length (rotate x r) = length x.
Proof. unfold rotate. by rewrite length_map, length_seq. Qed.

Lemma bv_binary_length k f x y n :
  bv_binary k = Some f -> length x = n -> length y = n -> length (f x y) = n.
Proof.
  intros Hf Hx Hy. destruct k; try discriminate Hf; injection Hf as <-;
    unfold unsigned_op, signed_op; rewrite ?bits_of_length, ?rotate_length, ?length_zip_with; lia.
Qed.

Lemma bv_assoc_length k f x y n :
  bv_assoc k = Some f -> length x = n -> length y = n -> length (f x y) = n.
Proof.
  intros Hf Hx Hy. destruct k; try discriminate Hf; injection Hf as <-;
    unfold unsigned_op; rewrite ?bits_of_length, ?length_zip_with; lia.
Qed.

Lemma value_bits_lengths n vs :
  Forall (fun v => value_sort v = BvSort n) vs -> Forall (fun l => length l = n) (map bits vs).
Proof. induction 1 as [|v vs Hv _ IH]; cbn; constructor; [|done]. by apply value_bv in Hv as [_ ?]. Qed.

Lemma length_concat_replicate {A} n (l : list A) : length (concat (replicate n l)) = (n * length l)%nat.
Proof. induction n as [|n IH]; [done|]. cbn. by rewrite length_app, IH. Qed.

Lemma concat_bits_length vs :
  forallb is_bv_sort (map value_sort vs) = true ->
  length (concat (rev (map bits vs))) = sum_list (map sort_bv_size (map value_sort vs)).
Proof.
  induction vs as [|v vs IH]; [done|]. cbn [map forallb]. rewrite andb_true_iff. intros [Hv Hvs].
  cbn [rev]. rewrite concat_app, length_app, IH by done. cbn [concat sum_list]. 
  rewrite app_nil_r. destruct v; try discriminate Hv. cbn. lia.
Qed.

Lemma basic_apply_sort I d k vs s :
  kind d = Basic k -> basic_sort k (map value_sort vs) = Some s ->
  value_sort (decl_apply I d vs) = s.
Proof.
  unfold decl_apply. intros -> Hs.
  destruct k; cbn [basic_sort] in Hs; try (by repeat (case_match; simplify_eq/=)).
Qed.

Lemma bv_uniform_value_sort k vs s :
  is_uniform k = true -> bv_uniform_sort k (map value_sort vs) = Some s ->
  exists v, bv_uniform k vs = Some v /\ value_sort v = s.
Proof.
  unfold is_uniform, bv_uniform_sort, bv_uniform. intros Hu Hs.
  destruct vs as [|x vs]; [done|]. cbn [map] in Hs.
  destruct (value_sort x) as [|n|] eqn:Hx; try done. apply value_bv in Hx as [_ Hx].
  destruct (all_same _ _) eqn:Hvs; [|done]. apply all_same_spec, Forall_map in Hvs.
  destruct (bv_binary k) as [f|] eqn:Hf.
  { destruct vs as [|y [|]]; try done. cbn in Hs. simplify_eq. eexists. split; [done|].
    apply Forall_singleton, value_bv in Hvs as [_ Hy]. cbn. f_equal. by apply (bv_binary_length _ _ _ _ _ Hf). }
  destruct (bv_assoc k) as [f|] eqn:Hg.
  { rewrite length_map in Hs. case_match; [|done]. simplify_eq. eexists. split; [done|]. cbn. f_equal.
    apply foldl_length; [intros; by eapply bv_assoc_length|done|by apply value_bits_lengths]. }
  destruct (bv_pred k) as [p|]; [|done].
  destruct vs as [|y [|]]; try done. cbn in Hs. simplify_eq. by eexists.
Qed.

Lemma bv_apply_sort I d k vs s :
  kind d = Bv k -> bv_sort d k (map value_sort vs) = Some s -> s = range d ->
  value_sort (decl_apply I d vs) = s.
Proof.
  unfold decl_apply. intros Hk Hs Hd. rewrite Hk.
  destruct k;
    try (by rewrite Hd; apply i_decl_sort);
    try (apply bv_uniform_value_sort in Hs as (v & Hv & Hs); [|done]; cbn [bv_apply]; by rewrite Hv);
    cbn [bv_sort is_uniform is_structural bv_binary bv_assoc bv_pred] in Hs; clear Hd Hk;
    repeat (case_match; simplify_eq/=); try done; f_equal;
    repeat match goal with H : value_sort _ = BvSort _ |- _ => apply value_bv in H as [_ H] end;
    rewrite ?length_map, ?bits_of_length, ?length_app, ?length_replicate, ?length_take, ?length_drop, ?rotate_length,
      ?length_concat_replicate;
    rewrite ?andb_true_iff, ?Nat.leb_le, ?Nat.ltb_lt in *; try congruence || lia.
  apply concat_bits_length. tauto.
Qed.

Lemma decl_apply_sort I d vs :
  op_sort d (map value_sort vs) = Some (range d) -> value_sort (decl_apply I d vs) = range d.
Proof.
  unfold op_sort. destruct (kind d) as [k|k|] eqn:Hk; intros Hs.
  - by eapply basic_apply_sort.
  - by eapply bv_apply_sort.
  - unfold decl_apply. rewrite Hk. apply i_decl_sort.
Qed.

Theorem eval_sort I e : wf e = true -> value_sort (eval I e) = get_sort e.
Proof.
  induction e as [i s|d args IH] using expr_induction; [intros _; apply i_var_sort|].
  rewrite wf_app. intros (Hs & _ & Hwf). apply decl_apply_sort.
  rewrite map_map, <- Hs. f_equal. clear Hs.
  induction IH as [|e args He _ IHargs]; [done|]. apply Forall_cons in Hwf as [Hwe Hwf].
  cbn [map]. f_equal; [by apply He|by apply IHargs].
Qed.

(** Terms of sort [Bool] and bit-vector terms. *)
Definition wfb (e : expr) : bool := wf e && is_bool e.

Lemma wfb_spec e : wfb e = true <-> wf e = true /\ get_sort e = BoolSort.
Proof. unfold wfb, is_bool, is_bool_sort. destruct (get_sort e), (wf e); naive_solver. Qed.

Lemma eval_bool I e : wfb e = true -> eval I e = VBool (truth (eval I e)).
Proof. rewrite wfb_spec. intros [Hw Hs]. apply value_bool. by rewrite eval_sort. Qed.

Lemma eval_bv I e n :
  wf e = true -> get_sort e = BvSort n -> eval I e = VBv (bits (eval I e)) /\ length (bits (eval I e)) = n.
Proof. intros Hw Hs. apply value_bv. by rewrite eval_sort. Qed.
