(* ===== verification/BoolRewriter.v ===== *)
(** bool_rewriter (bool_rewriter.h, bool_rewriter.cpp): the simplifier of the
    Boolean connectives, equality, distinct and if-then-else. The parameters
    are those of [updt_params], with [local_ctx] at its default, off. *)
From S2P Require Import Prelude Text Ast.

(** [br_status] and the [result] it comes with. *)
Inductive br_status :=
  | BR_REWRITE1 (result : expr)
  | BR_REWRITE2 (result : expr)
  | BR_REWRITE3 (result : expr)
  | BR_REWRITE_FULL (result : expr)
  | BR_DONE (result : expr)
  | BR_FAILED.

(** The pattern [if (core(args, result) == BR_FAILED) result = app]. *)
Definition result_or (b : br_status) (app : expr) : expr :=
  match b with
  | BR_REWRITE1 r | BR_REWRITE2 r | BR_REWRITE3 r | BR_REWRITE_FULL r | BR_DONE r => r
  | BR_FAILED => app
  end.

Definition br_result (b : br_status) : option expr :=
  match b with
  | BR_REWRITE1 r | BR_REWRITE2 r | BR_REWRITE3 r | BR_REWRITE_FULL r | BR_DONE r => Some r
  | BR_FAILED => None
  end.

Record bool_rewriter_params := {
  flat : bool;
  elim_and : bool;
  blast_distinct : bool;
  blast_distinct_threshold : Z;
  ite_extra_rules : bool;
  elim_ite : bool
}.

Section Rewriter.
Context (p : bool_rewriter_params).

(** [ast::get_id]: the number the manager gave the node when it was made. *)
Context (get_id : expr -> Z).

(** ** Equality and negation *)

(** [ite] has values of [val]'s theory at its leaves; [mk_eq] here builds. *)
Fixpoint try_ite_value (ite val : expr) : br_status :=
  match ite with
  | App d [cond; t; e] =>
      if are_distinct val e then BR_REWRITE2 (m_mk_and [m_mk_eq t val; cond])
      else if are_distinct val t then BR_REWRITE2 (m_mk_and [m_mk_eq e val; m_mk_not cond])
      else if are_equal val t then
        if are_equal val e then BR_DONE m_true
        else BR_REWRITE2 (m_mk_or [m_mk_eq e val; cond])
      else if are_equal val e then BR_REWRITE2 (m_mk_or [m_mk_eq t val; m_mk_not cond])
      else
        let leaf_ite i := is_ite i && is_value (get_arg i 1) && is_value (get_arg i 2) in
        match (if leaf_ite t then try_ite_value t val else BR_FAILED) with
        | BR_FAILED =>
            match (if leaf_ite e then try_ite_value e val else BR_FAILED) with
            | BR_FAILED => BR_FAILED
            | r => BR_REWRITE2 (m_mk_ite cond (m_mk_eq t val) (result_or r m_true))
            end
        | r => BR_REWRITE2 (m_mk_ite cond (result_or r m_true) (m_mk_eq e val))
        end
  | _ => BR_FAILED
  end.

(** [(iff (iff a b) (iff (not a) b))], up to the order of the sides. *)
Definition opposite_eqs (lhs rhs : expr) : bool :=
  let is_not_of x y := is_not x && bool_decide (get_arg x 0 = y) in
  let la := get_arg lhs 0 in let lb := get_arg lhs 1 in
  let ra := get_arg rhs 0 in let rb := get_arg rhs 1 in
  is_eq lhs && is_eq rhs &&
  ((bool_decide (la = ra) && (is_not_of rb lb || is_not_of lb rb))
   || (bool_decide (lb = rb) && (is_not_of ra la || is_not_of la ra))).

(** The two operations call each other: equality takes negation as [neg]. *)
Definition mk_eq_core_with (neg : expr -> expr) (lhs rhs : expr) : br_status :=
  if are_equal lhs rhs then BR_DONE m_true
  else if are_distinct lhs rhs then BR_DONE m_false
  else
    let r :=
      if negb (ite_extra_rules p) then BR_FAILED
      else if is_ite lhs && is_value rhs then try_ite_value lhs rhs
      else if is_ite rhs && is_value lhs then try_ite_value rhs lhs
      else BR_FAILED in
    match r with
    | BR_FAILED =>
        if is_bool lhs then
          let unfolded := is_not lhs && is_not rhs in
          let l := if unfolded then get_arg lhs 0 else lhs in
          let r := if unfolded then get_arg rhs 0 else rhs in
          if is_true l then BR_DONE r
          else if is_false l then BR_DONE (neg r)
          else if is_true r then BR_DONE l
          else if is_false r then BR_DONE (neg l)
          else if is_complement l r then BR_DONE m_false
          else if unfolded then BR_DONE (m_mk_eq l r)
          else if opposite_eqs l r then BR_DONE m_false
          else BR_FAILED
        else BR_FAILED
    | r => r
    end.

Definition mk_eq_with (neg : expr -> expr) (lhs rhs : expr) : expr :=
  result_or (mk_eq_core_with neg lhs rhs) (m_mk_eq lhs rhs).

Definition mk_not_core_with (neg : expr -> expr) (t : expr) : br_status :=
  if is_not t then BR_DONE (get_arg t 0)
  else if is_true t then BR_DONE m_false
  else if is_false t then BR_DONE m_true
  else if is_eq t && is_bool (get_arg t 0) then
    BR_DONE (mk_eq_with neg (neg (get_arg t 0)) (get_arg t 1))
  else BR_FAILED.

Fixpoint mk_not_fuel (fuel : nat) (t : expr) : expr :=
  match fuel with
  | O => m_mk_not t
  | S fuel => result_or (mk_not_core_with (mk_not_fuel fuel) t) (m_mk_not t)
  end.

(** A node's own weight and those of its arguments; a negation costs one. *)
Fixpoint weight (e : expr) : nat :=
  match e with
  | Var _ _ => 1
  | App d args =>
      match kind d with
      | Bv OP_BV_NUM => 1
      | Basic OP_ITE => 5 + sum_list (map weight args)
      | _ => 1 + sum_list (map weight args)
      end
  end%nat.

Definition mk_not (t : expr) : expr := mk_not_fuel (weight t) t.
Definition mk_not_core (t : expr) : br_status := mk_not_core_with mk_not t.
Definition mk_eq_core (lhs rhs : expr) : br_status := mk_eq_core_with mk_not lhs rhs.
Definition mk_eq (lhs rhs : expr) : expr := mk_eq_with mk_not lhs rhs.
Definition mk_iff : expr -> expr -> expr := mk_eq.
Definition mk_xor (lhs rhs : expr) : expr := mk_eq (mk_not lhs) rhs.

(** ** Conjunction and disjunction *)

(** The loop of [mk_nflat_and_core] and of [mk_nflat_or_core]: [neutral]
    arguments are dropped, an [absorbing] one or a pair of complements ends
    it ([None]), a repeated literal is dropped. [ordered] is the test of the
    disjunction that asks for sorting. [buffer] is what is kept so far. *)
Fixpoint scan (neutral absorbing : expr -> bool) (ordered : expr -> expr -> bool)
    (args neg_lits pos_lits : list expr) (s : bool) (buffer : list expr)
    : option (bool * list expr) :=
  match args with
  | [] => Some (s, buffer)
  | arg :: args =>
      let keep neg pos :=
        let late := match last buffer with Some prev => negb (ordered prev arg) | None => false end in
        scan neutral absorbing ordered args neg pos (s || late) (buffer ++ [arg]) in
      let drop := scan neutral absorbing ordered args neg_lits pos_lits true buffer in
      if absorbing arg then None
      else if neutral arg then drop
      else if is_not arg then
        let atom := get_arg arg 0 in
        if bool_decide (atom ∈ neg_lits) then drop
        else if bool_decide (atom ∈ pos_lits) then None
        else keep (atom :: neg_lits) pos_lits
      else if bool_decide (arg ∈ pos_lits) then drop
      else if bool_decide (arg ∈ neg_lits) then None
      else keep neg_lits (arg :: pos_lits)
  end.

(** [std::sort] with [ast_lt], which compares the ids. *)
Definition ast_lt (n1 n2 : expr) : Prop := get_id n1 <= get_id n2.
#[global] Instance ast_lt_dec n1 n2 : Decision (ast_lt n1 n2) := Z_le_dec _ _.
Definition sort_ids (l : list expr) : list expr := merge_sort ast_lt l.

Definition mk_nflat_and_core (args : list expr) : br_status :=
  match scan is_true is_false (fun _ _ => true) args [] [] false [] with
  | None => BR_DONE m_false
  | Some (_, []) => BR_DONE m_true
  | Some (_, [e]) => BR_DONE e
  | Some (s, buffer) => if s then BR_DONE (m_mk_and buffer) else BR_FAILED
  end.

Definition mk_flat_and_core (args : list expr) : br_status :=
  if existsb is_and args then
    let flat_args := flat_map (fun arg => if is_and arg then get_args arg else [arg]) args in
    BR_DONE (result_or (mk_nflat_and_core flat_args) (m_mk_and flat_args))
  else mk_nflat_and_core args.

Definition mk_nflat_or_core (args : list expr) : br_status :=
  match scan is_false is_true (fun prev arg => negb (lt arg prev)) args [] [] false [] with
  | None => BR_DONE m_true
  | Some (_, []) => BR_DONE m_false
  | Some (_, [e]) => BR_DONE e
  | Some (s, buffer) => if s then BR_DONE (m_mk_or (sort_ids buffer)) else BR_FAILED
  end.

(** The loop from the first nested disjunction on, with [ordered] and [prev]. *)
Fixpoint flatten_or (args : list expr) (ordered : bool) (prev : option expr) : bool * list expr :=
  match args with
  | [] => (ordered, [])
  | arg :: args =>
      if is_or arg then
        let '(o, l) := flatten_or args false prev in (o, get_args arg ++ l)
      else
        let o := match prev with Some q => negb (lt arg q) | None => true end in
        let '(o, l) := flatten_or args (ordered && o) (Some arg) in (o, arg :: l)
  end.

(** The arguments before the first nested disjunction, and the others. *)
Fixpoint split_or (args : list expr) : list expr * list expr :=
  match args with
  | [] => ([], [])
  | arg :: rest => if is_or arg then ([], args)
                   else let '(l, r) := split_or rest in (arg :: l, r)
  end.

Definition mk_flat_or_core (args : list expr) : br_status :=
  match split_or args with
  | (_, []) => mk_nflat_or_core args
  | (before, nested) =>
      let '(ordered, l) := flatten_or nested true None in
      let flat_args := before ++ l in
      BR_DONE (result_or (mk_nflat_or_core flat_args)
        (m_mk_or (if ordered then flat_args else sort_ids flat_args)))
  end.

Definition mk_or_core (args : list expr) : br_status :=
  if flat p then mk_flat_or_core args else mk_nflat_or_core args.
Definition mk_or (args : list expr) : expr := result_or (mk_or_core args) (m_mk_or args).

Definition mk_and_as_or (args : list expr) : expr := mk_not (mk_or (map mk_not args)).
Definition mk_and_core (args : list expr) : br_status :=
  if elim_and p then BR_DONE (mk_and_as_or args)
  else if flat p then mk_flat_and_core args else mk_nflat_and_core args.
Definition mk_and (args : list expr) : expr := result_or (mk_and_core args) (m_mk_and args).

Definition mk_implies (lhs rhs : expr) : expr := mk_or [mk_not lhs; rhs].
Definition mk_nand (args : list expr) : expr := mk_not (mk_and args).
Definition mk_nor (args : list expr) : expr := mk_not (mk_or args).

(** At least two of the three. *)
Definition mk_ge2 (a b c : expr) : expr :=
  if is_false a then mk_and [b; c]
  else if is_false b then mk_and [a; c]
  else if is_false c then mk_and [a; b]
  else if is_true a then mk_or [b; c]
  else if is_true b then mk_or [a; c]
  else if is_true c then mk_or [a; b]
  else mk_or [mk_and [a; b]; mk_and [a; c]; mk_and [b; c]].

(** ** Distinct *)

(** The inner loop: [None] when two arguments are equal, else [all_diff]. *)
Fixpoint differs_from (arg : expr) (before : list expr) : option bool :=
  match before with
  | [] => Some true
  | b :: before =>
      if are_distinct arg b then differs_from arg before
      else if are_equal arg b then None else Some false
  end.

Fixpoint distinct_loop (before args : list expr) (all_value all_diff : bool) : option bool :=
  match args with
  | [] => Some all_diff
  | arg :: args =>
      if bool_decide (arg ∈ before) then None
      else
        let all_value := all_value && is_unique_value arg in
        if negb all_value && all_diff then
          match differs_from arg before with
          | None => None
          | Some all_diff => distinct_loop (before ++ [arg]) args all_value all_diff
          end
        else distinct_loop (before ++ [arg]) args all_value all_diff
  end.

Fixpoint diseqs (args : list expr) : list expr :=
  match args with
  | [] => []
  | a :: args => map (fun b => m_mk_not (m_mk_eq a b)) args ++ diseqs args
  end.

Definition mk_distinct_core (args : list expr) : br_status :=
  match args with
  | [] | [_] => BR_DONE m_true
  | [a; b] => BR_REWRITE2 (m_mk_not (m_mk_eq a b))
  | a :: _ =>
      match distinct_loop [] args true true with
      | None => BR_DONE m_false
      | Some true => BR_DONE m_true
      | Some false =>
          if is_bool a then BR_DONE m_false
          else if blast_distinct p && (Z.of_nat (length args) <? blast_distinct_threshold p)
          then BR_REWRITE3 (m_mk_and (diseqs args))
          else BR_FAILED
      end
  end.

(** ** If-then-else *)

(** The rules for a Boolean [t]. *)
Definition ite_bool (c t e : expr) : br_status :=
  let elim := elim_ite p in
  if is_true t && is_false e then BR_DONE c
  else if is_true t && elim then BR_DONE (mk_or [c; e])
  else if is_false t && is_true e then BR_DONE (mk_not c)
  else if is_false t && elim then BR_DONE (mk_and [mk_not c; e])
  else if is_true e && elim then BR_DONE (mk_or [mk_not c; t])
  else if is_false e && elim then BR_DONE (mk_and [c; t])
  else if bool_decide (c = e) && elim then BR_DONE (mk_and [c; t])
  else if bool_decide (c = t) && elim then BR_DONE (mk_or [c; e])
  else if is_complement_core t e && elim then BR_DONE (mk_eq c t)
  else if is_complement_core e t && elim then BR_DONE (mk_eq c t)
  else BR_FAILED.

(** The extra rules for a nested if-then-else in the first branch. *)
Definition ite_then (c t e : expr) : br_status :=
  let c2 := get_arg t 0 in let t1 := get_arg t 1 in let t2 := get_arg t 2 in
  if bool_decide (e = t1) then BR_REWRITE1 (m_mk_ite (mk_and [c; mk_not c2]) t2 e)
  else if bool_decide (e = t2) then BR_REWRITE1 (m_mk_ite (mk_and [c; c2]) t1 e)
  else if is_ite e then
    let c3 := get_arg e 0 in
    if bool_decide (t1 = get_arg e 1) && bool_decide (t2 = get_arg e 2) then
      let and1 := mk_and [c; c2] in let and2 := mk_and [mk_not c; c3] in
      BR_REWRITE1 (m_mk_ite (mk_or [and1; and2]) t1 t2)
    else if bool_decide (t1 = get_arg e 2) && bool_decide (t2 = get_arg e 1) then
      let and1 := mk_and [c; c2] in let and2 := mk_and [mk_not c; mk_not c3] in
      BR_REWRITE1 (m_mk_ite (mk_or [and1; and2]) t1 t2)
    else BR_FAILED
  else BR_FAILED.

(** The extra rules for a nested if-then-else in the second branch. *)
Definition ite_else (c t e : expr) : br_status :=
  let c2 := get_arg e 0 in
  if bool_decide (t = get_arg e 1) then
    BR_REWRITE1 (m_mk_ite (mk_or [c; c2]) t (get_arg e 2))
  else if bool_decide (t = get_arg e 2) then
    BR_REWRITE1 (m_mk_ite (mk_or [c; mk_not c2]) t (get_arg e 1))
  else BR_FAILED.

(** The first result that is not [BR_FAILED]. *)
Definition br_else (b : br_status) (k : br_status) : br_status :=
  match b with BR_FAILED => k | b => b end.

(** The rules after the nested conditions were merged into [c], [t], [e]. *)
Definition ite_rules (c t e : expr) : br_status :=
  if is_true c then BR_DONE t
  else if is_false c then BR_DONE e
  else if bool_decide (t = e) then BR_DONE t
  else
    let extra := ite_extra_rules p && elim_ite p in
    br_else (if is_bool t then ite_bool c t e else BR_FAILED)
      (br_else (if is_ite t && extra then ite_then c t e else BR_FAILED)
        (if is_ite e && extra then ite_else c t e else BR_FAILED)).

Definition mk_ite_core (c t e : expr) : br_status :=
  let s1 := is_not c in
  let '(c, t, e) := if s1 then (get_arg c 0, e, t) else (c, t, e) in
  let s2 := is_ite t && bool_decide (get_arg t 0 = c) in
  let t := if s2 then get_arg t 1 else t in
  if is_ite e && bool_decide (get_arg e 1 = t) then
    BR_REWRITE3 (m_mk_ite (m_mk_or [c; get_arg e 0]) t (get_arg e 2))
  else
    let s3 := is_ite e && bool_decide (get_arg e 0 = c) in
    let e := if s3 then get_arg e 2 else e in
    br_else (ite_rules c t e)
      (if s1 || s2 || s3 then BR_DONE (m_mk_ite c t e) else BR_FAILED).

Definition mk_ite (c t e : expr) : expr := result_or (mk_ite_core c t e) (m_mk_ite c t e).
Definition mk_distinct (args : list expr) : expr :=
  result_or (mk_distinct_core args) (m_mk_distinct args).

(** ** Dispatch *)

Definition mk_app_core (f : func_decl) (args : list expr) : br_status :=
  match kind f, args with
  | Basic OP_EQ, [a; b] => mk_eq_core a b
  | Basic OP_DISTINCT, args => mk_distinct_core args
  | Basic OP_AND, args => mk_and_core args
  | Basic OP_OR, args => mk_or_core args
  | Basic OP_NOT, [a] => mk_not_core a
  | Basic OP_ITE, [c; t; e] => mk_ite_core c t e
  | Basic OP_IMPLIES, [a; b] => BR_DONE (mk_implies a b)
  | Basic OP_XOR, [a] => BR_DONE a
  | Basic OP_XOR, [a; b] => BR_DONE (mk_xor a b)
  | _, _ => BR_FAILED
  end.
Definition mk_app (f : func_decl) (args : list expr) : expr :=
  result_or (mk_app_core f args) (App f args).
End Rewriter.

(** The defaults of bool_rewriter_params.pyg. *)
Definition default_params : bool_rewriter_params := {|
  flat := true; elim_and := false; blast_distinct := false;
  blast_distinct_threshold := 2 ^ 32 - 1; ite_extra_rules := false; elim_ite := true |}.
