(* ===== verification/AstFacts.v ===== *)
(** Facts about the meaning of Z3's terms that the rewriters share: how the
    constructors of [ast_manager] evaluate, what a recogniser tells about a
    well-sorted term, and that [are_distinct] terms have distinct values. *)
From S2P Require Import Prelude Text Bits Ast AstSem.

Section Facts.
Context (I : interp).
Local Abbreviation eval := (eval I).

(** The truth value of a term. *)
Definition tr (e : expr) : bool := truth (eval e).

(** [r] is a well-sorted term of sort [s] and value [v]; for formulas, of
    truth value [b]. *)
Definition means (s : sort) (v : value) (r : expr) : Prop :=
  wf r = true /\ get_sort r = s /\ eval r = v.
Definition holds (b : bool) (r : expr) : Prop := wfb r = true /\ tr r = b.

Lemma means_bool b r : means BoolSort (VBool b) r <-> holds b r.
Proof.
  unfold means, holds, tr. rewrite wfb_spec. split.
  - intros (Hw & Hs & ->). done.
  - intros [Hb <-]. split_and!; try apply Hb. by apply eval_bool, wfb_spec.
Qed.

Lemma means_self e : wf e = true -> means (get_sort e) (eval e) e.
Proof. done. Qed.

Lemma holds_self e : wfb e = true -> holds (tr e) e.
Proof. done. Qed.

Lemma holds_eval b e : holds b e -> eval e = VBool b.
Proof. intros [Hw <-]. by apply eval_bool. Qed.

(** ** Constructors *)

Lemma wf_all_bool args : Forall (fun e => wfb e = true) args ->
  all_same BoolSort (map get_sort args) = true /\ Forall (fun e => wf e = true) args.
Proof.
  rewrite all_same_spec, Forall_map, !Forall_forall.
  intros Hw. split; intros e He; specialize (Hw e He); by apply wfb_spec in Hw as [? ?].
Qed.

Lemma holds_true : holds true m_true.
Proof. done. Qed.
Lemma holds_false : holds false m_false.
Proof. done. Qed.

Lemma holds_not b e : holds b e -> holds (negb b) (m_mk_not e).
Proof.
  intros [Hw <-]. split; [|done]. apply wfb_spec in Hw as [Hw Hs].
  apply wfb_spec. split; [|done]. unfold m_mk_not. rewrite wf_app. cbn. rewrite Hs. by repeat constructor.
Qed.

Lemma forallb_tr args : forallb truth (map eval args) = forallb tr args.
Proof. induction args as [|a args IH]; [done|]. cbn [map forallb]. by rewrite IH. Qed.

Lemma existsb_tr args : existsb truth (map eval args) = existsb tr args.
Proof. induction args as [|a args IH]; [done|]. cbn [map existsb]. by rewrite IH. Qed.

Lemma holds_and args : Forall (fun e => wfb e = true) args -> holds (forallb tr args) (m_mk_and args).
Proof.
  intros Hw. apply wf_all_bool in Hw as [Hs Hw]. split.
  - apply wfb_spec. split; [|done]. unfold m_mk_and. rewrite wf_app. cbn. by rewrite Hs.
  - unfold tr. cbn. apply forallb_tr.
Qed.

Lemma holds_or args : Forall (fun e => wfb e = true) args -> holds (existsb tr args) (m_mk_or args).
Proof.
  intros Hw. apply wf_all_bool in Hw as [Hs Hw]. split.
  - apply wfb_spec. split; [|done]. unfold m_mk_or. rewrite wf_app. cbn. by rewrite Hs.
  - unfold tr. cbn. apply existsb_tr.
Qed.

Lemma holds_wfb b e : holds b e -> wfb e = true.
Proof. by intros [? _]. Qed.

Lemma holds_and2 a b x y : holds a x -> holds b y -> holds (a && b) (m_mk_and [x; y]).
Proof.
  intros [Hx <-] [Hy <-]. rewrite <- (andb_true_r (tr y)). apply (holds_and [x; y]).
  by repeat constructor.
Qed.

Lemma holds_or2 a b x y : holds a x -> holds b y -> holds (a || b) (m_mk_or [x; y]).
Proof.
  intros [Hx <-] [Hy <-]. rewrite <- (orb_false_r (tr y)). apply (holds_or [x; y]).
  by repeat constructor.
Qed.

Lemma holds_eq a b :
  wf a = true -> wf b = true -> get_sort a = get_sort b ->
  holds (bool_decide (eval a = eval b)) (m_mk_eq a b).
Proof.
  intros Ha Hb Hs. split; [|done]. apply wfb_spec. split; [|done]. unfold m_mk_eq.
  rewrite wf_app. cbn. rewrite Hs, decide_True by done. by repeat constructor.
Qed.

Lemma means_ite c t e :
  wfb c = true -> wf t = true -> wf e = true -> get_sort t = get_sort e ->
  means (get_sort t) (if tr c then eval t else eval e) (m_mk_ite c t e).
Proof.
  rewrite wfb_spec. intros [Hc Hcs] Ht He Hs. split_and!; try done. unfold m_mk_ite.
  rewrite wf_app. cbn. rewrite Hcs, Hs, decide_True by done. split_and!; try done.
  - rewrite <- Hs. by apply wf_positive.
  - by repeat constructor.
Qed.

Lemma holds_ite a b c x y z :
  holds a x -> holds b y -> holds c z -> holds (if a then b else c) (m_mk_ite x y z).
Proof.
  intros [Hx <-] Hy Hz. pose proof (holds_wfb _ _ Hy) as [Hwy Hsy]%wfb_spec.
  pose proof (holds_wfb _ _ Hz) as [Hwz Hsz]%wfb_spec.
  apply means_bool. rewrite <- Hsy.
  replace (VBool _) with (if tr x then eval y else eval z)
    by (rewrite (holds_eval _ _ Hy), (holds_eval _ _ Hz); by destruct (tr x)).
  apply means_ite; try done. congruence.
Qed.

(** Equality of formulas is equivalence. *)
Lemma eq_bool a b :
  wfb a = true -> wfb b = true -> bool_decide (eval a = eval b) = Bool.eqb (tr a) (tr b).
Proof.
  intros Ha Hb. unfold tr. rewrite (eval_bool I a), (eval_bool I b) by done. cbn.
  destruct (truth (eval a)), (truth (eval b)); cbn; (apply bool_decide_eq_true || apply bool_decide_eq_false); congruence.
Qed.

(** ** Recognisers *)

Lemma is_true_spec e : is_true e = true -> e = m_true.
Proof. apply bool_decide_eq_true. Qed.
Lemma is_false_spec e : is_false e = true -> e = m_false.
Proof. apply bool_decide_eq_true. Qed.

Lemma is_app_of_spec e k : is_app_of e k = true -> exists d args, e = App d args /\ kind d = k.
Proof. destruct e as [|d args]; [done|]. cbn. intros Hk%bool_decide_eq_true. eauto. Qed.

(** The shape of a well-sorted application of a basic operator. *)
Lemma wf_basic e k :
  is_app_of e (Basic k) = true -> wf e = true ->
  exists d args, e = App d args /\ kind d = Basic k
    /\ basic_sort k (map get_sort args) = Some (get_sort e) /\ Forall (fun x => wf x = true) args.
Proof.
  intros (d & args & -> & Hk)%is_app_of_spec. rewrite wf_app. intros (Hs & _ & Hw).
  exists d, args. unfold op_sort in Hs. rewrite Hk in Hs. done.
Qed.

Lemma not_inv e :
  is_not e = true -> wf e = true ->
  exists x, get_arg e 0 = x /\ get_args e = [x] /\ wfb x = true /\ wfb e = true /\ tr e = negb (tr x).
Proof.
  intros Hn Hw. destruct (wf_basic e OP_NOT Hn Hw) as (d & args & -> & Hk & Hs & Ha).
  destruct args as [|x [|]]; cbn [map basic_sort] in Hs; try done; repeat case_match; try done.
  apply Forall_cons in Ha as [Hx _]. exists x. split_and!; try done.
  - by apply wfb_spec.
  - apply wfb_spec. split; [done|congruence].
  - unfold tr. cbn. unfold decl_apply. by rewrite Hk.
Qed.

Lemma eq_inv e :
  is_eq e = true -> wf e = true ->
  exists a b, get_arg e 0 = a /\ get_arg e 1 = b /\ get_args e = [a; b]
    /\ wf a = true /\ wf b = true /\ get_sort a = get_sort b
    /\ holds (bool_decide (eval a = eval b)) e.
Proof.
  intros Hn Hw. destruct (wf_basic e OP_EQ Hn Hw) as (d & args & -> & Hk & Hs & Ha).
  destruct args as [|a [|b [|]]]; cbn [map basic_sort] in Hs; try done. case_decide; [|done].
  apply Forall_cons in Ha as [Hx Ha]. apply Forall_cons in Ha as [Hy _].
  exists a, b. split_and!; try done.
  split; [apply wfb_spec; split; [done|congruence]|].
  unfold tr. cbn. unfold decl_apply. by rewrite Hk.
Qed.

Lemma ite_inv e :
  is_ite e = true -> wf e = true ->
  exists d c t f, e = App d [c; t; f] /\ wfb c = true /\ wf t = true /\ wf f = true
    /\ get_sort t = get_sort e /\ get_sort f = get_sort e
    /\ eval e = (if tr c then eval t else eval f).
Proof.
  intros Hn Hw. destruct (wf_basic e OP_ITE Hn Hw) as (d & args & -> & Hk & Hs & Ha).
  destruct args as [|c [|t [|f [|]]]]; cbn [map basic_sort] in Hs; try done; repeat case_match; try done.
  apply Forall_cons in Ha as [Hc Ha]. apply Forall_cons in Ha as [Ht Ha]. apply Forall_cons in Ha as [Hf _].
  exists d, c, t, f. split_and!; try done; try congruence.
  - by apply wfb_spec.
  - cbn. unfold decl_apply. by rewrite Hk.
Qed.

Lemma and_inv e :
  is_and e = true -> wf e = true ->
  Forall (fun x => wfb x = true) (get_args e) /\ holds (forallb tr (get_args e)) e.
Proof.
  intros Hn Hw. destruct (wf_basic e OP_AND Hn Hw) as (d & args & -> & Hk & Hs & Ha).
  cbn [basic_sort] in Hs. destruct (all_same _ _) eqn:Hall; [|done]. apply all_same_spec, Forall_map in Hall. split.
  - cbn. revert Hall Ha. rewrite !Forall_forall. intros Hall Ha x Hx. apply wfb_spec. eauto.
  - split; [apply wfb_spec; split; [done|congruence]|].
    unfold tr. cbn. unfold decl_apply. rewrite Hk. apply forallb_tr.
Qed.

Lemma or_inv e :
  is_or e = true -> wf e = true ->
  Forall (fun x => wfb x = true) (get_args e) /\ holds (existsb tr (get_args e)) e.
Proof.
  intros Hn Hw. destruct (wf_basic e OP_OR Hn Hw) as (d & args & -> & Hk & Hs & Ha).
  cbn [basic_sort] in Hs. destruct (all_same _ _) eqn:Hall; [|done]. apply all_same_spec, Forall_map in Hall. split.
  - cbn. revert Hall Ha. rewrite !Forall_forall. intros Hall Ha x Hx. apply wfb_spec. eauto.
  - split; [apply wfb_spec; split; [done|congruence]|].
    unfold tr. cbn. unfold decl_apply. rewrite Hk. apply existsb_tr.
Qed.

(** ** Distinct values *)

Lemma bv_num_inv e :
  is_bv_num e = true -> wf e = true ->
  exists v n, e = App (bv_num_decl v n) [] /\ 0 <= v < pow2 n.
Proof.
  intros (d & args & -> & Hk)%is_app_of_spec. rewrite wf_app. unfold op_sort. rewrite Hk.
  intros (Hs & _ & _). cbn [bv_sort is_uniform is_structural bv_binary bv_assoc bv_pred] in Hs.
  repeat (case_match; try discriminate Hs).
  apply map_eq_nil in H4 as ->. rewrite !andb_true_iff, bool_decide_eq_true in H5.
  destruct H5 as [[[-> ?] ?] ?]. eexists _, _. split; [done|]. lia.
Qed.

(** [t] and [k] of [get_offset_term]: [e] is [k + t] at their common width. *)
Lemma offset_term e t k :
  wf e = true -> get_offset_term e = (t, k) ->
  wf t = true /\ get_sort t = get_sort e
  /\ (k = 0 /\ t = e
      \/ exists n, get_sort e = BvSort n /\ 0 <= k < pow2 n
           /\ bits (eval e) = bits_of n (k + uval (bits (eval t)))).
Proof.
  intros Hw Ho. unfold get_offset_term in Ho.
  repeat (case_match; try (by simplify_eq; auto)). simplify_eq.
  rewrite wf_app in Hw. unfold op_sort in Hw. cbn [Ast.kind map] in Hw.
  destruct Hw as (Hs & Hp & Ha). apply Forall_cons in Ha as [Hn Ha].
  apply Forall_cons in Ha as [Ht _].
  apply bv_num_inv in Hn as (v & m & Heq & Hv); [|done]. simplify_eq.
  cbn in Hs. destruct (bool_decide _) eqn:Hd; [|done]. apply bool_decide_eq_true in Hd.
  injection Hs as <-. cbn [get_sort range]. split_and!; try done. right. exists m.
  fold (pow2 m). rewrite Z.mod_small by done. split_and!; try done; [lia..|].
  cbn. unfold unsigned_op. by rewrite bits_of_length, uval_bits_of, Z.mod_small by done.
Qed.

Lemma basic_value_distinct a b :
  plugin_are_distinct basic_is_value a b = true -> eval a <> eval b.
Proof.
  unfold plugin_are_distinct, basic_is_value. rewrite !andb_true_iff, !orb_true_iff, negb_true_iff.
  rewrite bool_decide_eq_false. intros [[Hab [->%is_true_spec| ->%is_false_spec]]
    [->%is_true_spec| ->%is_false_spec]]; done.
Qed.

Lemma bv_num_distinct a b :
  wf a = true -> wf b = true -> plugin_are_distinct is_bv_num a b = true -> eval a <> eval b.
Proof.
  intros Ha Hb. unfold plugin_are_distinct.
  rewrite !andb_true_iff, negb_true_iff, bool_decide_eq_false. intros [[Hab Hna] Hnb].
  apply bv_num_inv in Hna as (v & n & -> & Hv), Hnb as (w & m & -> & Hw); [|done..].
  cbn. intros [= Heq]. apply Hab. assert (n = m) as <-.
  { apply (f_equal length) in Heq. by rewrite !bits_of_length in Heq. }
  apply (f_equal uval) in Heq. rewrite !uval_bits_of, !Z.mod_small in Heq by done. by subst.
Qed.

Lemma offset_value e t k n :
  wf e = true -> get_sort e = BvSort n -> get_offset_term e = (t, k) ->
  0 <= k < pow2 n /\ uval (bits (eval e)) = (k + uval (bits (eval t))) mod pow2 n.
Proof.
  intros Hw Hs Ho. apply offset_term in Ho as (_ & _ & Ho); [|done].
  pose proof (pow2_pos n). destruct Ho as [[-> ->]|(m & Hm & Hk & ->)].
  - split; [lia|]. destruct (eval_bv I e n Hw Hs) as [_ <-]. by rewrite Z.add_0_l, uval_mod.
  - assert (n = m) as <- by congruence. by rewrite uval_bits_of.
Qed.

Lemma bv_are_distinct_sound a b :
  wf a = true -> wf b = true -> bv_are_distinct a b = true -> eval a <> eval b.
Proof.
  intros Ha Hb. unfold bv_are_distinct.
  destruct (get_offset_term a) as [t k] eqn:Hoa, (get_offset_term b) as [u j] eqn:Hob.
  destruct (_ && _) eqn:Hd; [intros _|by apply bv_num_distinct].
  apply andb_true_iff in Hd as [->%bool_decide_eq_true Hkj%negb_true_iff%Z.eqb_neq].
  destruct (offset_term a u k Ha Hoa) as (_ & Hsa & Hka), (offset_term b u j Hb Hob) as (_ & Hsb & Hkb).
  assert (exists n, get_sort u = BvSort n) as [n Hn].
  { destruct Hka as [[-> _]|(n & ? & _)]; [|exists n; congruence].
    destruct Hkb as [[-> _]|(n & ? & _)]; [done|exists n; congruence]. }
  apply (offset_value _ _ _ n) in Hoa as [Hk Hea], Hob as [Hj Heb]; [|congruence..].
  intros Heq. rewrite Heq, Heb in Hea. apply Hkj. set (x := uval (bits (eval u))) in *.
  assert ((k - j) mod pow2 n = 0) as Hdiv.
  { replace (k - j) with ((k + x) - (j + x)) by lia. by rewrite Zminus_mod, Hea, Z.sub_diag. }
  apply Z.mod_divide in Hdiv as [q Hq]; [|lia].
  destruct (Z.lt_trichotomy q 0) as [?|[->|?]]; nia.
Qed.

Theorem are_distinct_sound a b :
  wf a = true -> wf b = true -> are_distinct a b = true -> eval a <> eval b.
Proof.
  intros Ha Hb. unfold are_distinct. destruct a as [|da la], b as [|db lb]; try done.
  destruct (kind da); [by apply basic_value_distinct|by apply bv_are_distinct_sound|].
  destruct (kind db); [by apply basic_value_distinct|by apply bv_are_distinct_sound|done].
Qed.

(** Different unique values of one sort are different values. *)
Lemma unique_value_distinct a b :
  wf a = true -> wf b = true -> get_sort a = get_sort b ->
  is_unique_value a = true -> is_unique_value b = true -> a <> b -> eval a <> eval b.
Proof.
  intros Ha Hb Hs. unfold is_unique_value, is_value.
  destruct a as [|da la], b as [|db lb]; try done.
  destruct (kind da) eqn:Hka, (kind db) eqn:Hkb; try done; intros Hva Hvb Hab.
  - apply basic_value_distinct. unfold plugin_are_distinct.
    by rewrite Hva, Hvb, bool_decide_eq_false_2.
  - apply bv_num_inv in Hvb as (v & n & [= -> ->] & _); [|done].
    unfold basic_is_value in Hva. apply orb_true_iff in Hva as [Hva|Hva];
      [apply is_true_spec in Hva|apply is_false_spec in Hva]; injection Hva as -> ->; done.
  - apply bv_num_inv in Hva as (v & n & [= -> ->] & _); [|done].
    unfold basic_is_value in Hvb. apply orb_true_iff in Hvb as [Hvb|Hvb];
      [apply is_true_spec in Hvb|apply is_false_spec in Hvb]; injection Hvb as -> ->; done.
  - apply bv_num_distinct; try done. unfold plugin_are_distinct.
    by rewrite Hva, Hvb, bool_decide_eq_false_2.
Qed.
End Facts.

(** ** Arguments of Boolean operators *)

Lemma wfb_args args s :
  (if all_same BoolSort (map get_sort args) then Some BoolSort else None) = Some s ->
  Forall (fun e => wf e = true) args -> s = BoolSort /\ Forall (fun e => wfb e = true) args.
Proof.
  destruct (all_same _ _) eqn:Hs; [|done]. apply all_same_spec, Forall_map in Hs. intros [= <-] Ha.
  split; [done|]. rewrite Forall_forall in Ha, Hs |- *. intros e He. apply wfb_spec. auto.
Qed.

Lemma mkbv_inv I t :
  is_mkbv t = true -> wf t = true ->
  Forall (fun e => wfb e = true) (get_args t) /\ eval I t = VBv (map (tr I) (get_args t))
  /\ get_sort t = BvSort (length (get_args t)).
Proof.
  intros (d & args & -> & Hk)%is_app_of_spec. rewrite wf_app. unfold op_sort. rewrite Hk.
  intros (Hs & _ & Hw). cbn [bv_sort get_args get_sort] in *.
  destruct (all_same _ _) eqn:Ha; [|done]. injection Hs as Hs.
  destruct (wfb_args args BoolSort) as [_ Hb]; [by rewrite Ha|done|].
  split_and!; [done| |by rewrite <- Hs, length_map].
  cbn. unfold decl_apply. rewrite Hk. cbn. by rewrite map_map.
Qed.
