(* ===== verification/BoolRewriterOk.v ===== *)
(** The Boolean rewriter is correct: every [mk_*] returns a well-sorted term of
    the sort and value of the application it stands for, in every
    interpretation and for every numbering of the nodes; and the mutual
    recursion of negation and equality ends. *)
From S2P Require Import Prelude Text Bits Ast AstSem AstFacts BoolRewriter.

(** [b], if it is a result, is one of sort [s] and value [v]. *)
Definition br_means (I : interp) (s : sort) (v : value) (b : br_status) : Prop :=
  match b with
  | BR_FAILED => True
  | BR_REWRITE1 r | BR_REWRITE2 r | BR_REWRITE3 r | BR_REWRITE_FULL r | BR_DONE r => means I s v r
  end.
Definition br_holds (I : interp) (v : bool) (b : br_status) : Prop := br_means I BoolSort (VBool v) b.

Lemma br_means_result I s v b r :
  br_means I s v b -> br_result b = Some r -> wf r = true /\ get_sort r = s /\ eval I r = v.
Proof. destruct b; cbn; try done; intros (? & ? & ?) [= <-]; done. Qed.

Section Negation.
Context (I : interp) (p : bool_rewriter_params).
Local Abbreviation eval := (eval I).
Local Abbreviation tr := (tr I).
Local Abbreviation holds := (holds I).

Lemma result_or_means s v b app : br_means I s v b -> means I s v app -> means I s v (result_or b app).
Proof. by destruct b. Qed.

Lemma result_or_holds v b app : br_holds I v b -> holds v app -> holds v (result_or b app).
Proof. rewrite <- !means_bool. apply result_or_means. Qed.

Lemma done_holds v r : holds v r -> br_holds I v (BR_DONE r).
Proof. by rewrite <- means_bool. Qed.
Lemma rewrite2_holds v r : holds v r -> br_holds I v (BR_REWRITE2 r).
Proof. by rewrite <- means_bool. Qed.

Lemma br_ext v v' b : br_holds I v b -> v = v' -> br_holds I v' b.
Proof. by intros ? <-. Qed.

Lemma try_ite_value_ok ite val :
  wf ite = true -> is_ite ite = true -> wf val = true -> get_sort ite = get_sort val ->
  br_holds I (bool_decide (eval ite = eval val)) (try_ite_value ite val).
Proof.
  induction ite as [|d args IH] using expr_induction; [done|]. intros Hw Hi Hv Hs.
  destruct (ite_inv I _ Hi Hw) as (d' & c & t & e & [= <- ->] & Hc & Ht & He & Hst & Hse & ->).
  apply Forall_cons in IH as [_ IH]. apply Forall_cons in IH as [IHt IH]. apply Forall_cons in IH as [IHe _].
  assert (holds (bool_decide (eval t = eval val)) (m_mk_eq t val)) as Hmt by (apply holds_eq; congruence).
  assert (holds (bool_decide (eval e = eval val)) (m_mk_eq e val)) as Hme by (apply holds_eq; congruence).
  pose proof (holds_self I c Hc) as Hmc. pose proof (holds_not I _ _ Hmc) as Hmn.
  cbn [try_ite_value].
  destruct (are_distinct val e) eqn:Hde.
  { apply are_distinct_sound with (I := I) in Hde; [|done..].
    eapply br_ext; [apply rewrite2_holds, (holds_and2 I _ _ _ _ Hmt Hmc)|].
    destruct (tr c); [by rewrite andb_true_r|]. rewrite andb_false_r. symmetry. by apply bool_decide_eq_false. }
  destruct (are_distinct val t) eqn:Hdt.
  { apply are_distinct_sound with (I := I) in Hdt; [|done..].
    eapply br_ext; [apply rewrite2_holds, (holds_and2 I _ _ _ _ Hme Hmn)|].
    destruct (tr c); [|by rewrite andb_true_r]. rewrite andb_false_r. symmetry. by apply bool_decide_eq_false. }
  unfold are_equal. destruct (bool_decide (val = t)) eqn:Hvt.
  { apply bool_decide_eq_true in Hvt as <-. destruct (bool_decide (val = e)) eqn:Hve.
    - apply bool_decide_eq_true in Hve as <-. eapply br_ext; [apply done_holds, holds_true|]. destruct (tr c); by rewrite bool_decide_eq_true_2.
    - eapply br_ext; [apply rewrite2_holds, (holds_or2 I _ _ _ _ Hme Hmc)|].
      destruct (tr c); [|by rewrite orb_false_r]. by rewrite orb_true_r, bool_decide_eq_true_2. }
  destruct (bool_decide (val = e)) eqn:Hve.
  { apply bool_decide_eq_true in Hve as <-. eapply br_ext; [apply rewrite2_holds, (holds_or2 I _ _ _ _ Hmt Hmn)|].
    destruct (tr c); [by rewrite orb_false_r|]. by rewrite orb_true_r, bool_decide_eq_true_2. }
  set (bt := if _ && _ && _ then try_ite_value t val else BR_FAILED).
  set (be := if _ && _ && _ then try_ite_value e val else BR_FAILED).
  assert (br_holds I (bool_decide (eval t = eval val)) bt) as Hbt.
  { unfold bt. destruct (is_ite t) eqn:Hit; [|done]. cbn [andb].
    destruct (_ && _); [|done]. apply IHt; congruence. }
  clearbody bt.
  assert (br_holds I (bool_decide (eval e = eval val)) be) as Hbe.
  { unfold be. destruct (is_ite e) eqn:Hie; [|done]. cbn [andb].
    destruct (_ && _); [|done]. apply IHe; congruence. }
  assert (forall r, bool_decide ((if tr c then eval t else eval e) = eval val) = r ->
    (if tr c then bool_decide (eval t = eval val) else bool_decide (eval e = eval val)) = r) as Hif
    by (intros r <-; by destruct (tr c)).
  unfold br_holds, br_means in Hbt, Hbe.
  destruct bt; [..|destruct be]; try done; cbn [result_or]; rewrite means_bool in Hbt || rewrite means_bool in Hbe;
    (eapply br_ext; [apply rewrite2_holds, holds_ite; eassumption|by apply Hif]).
Qed.

(** [x] is the negation of [y]. *)
Lemma not_of_inv x y :
  wf x = true -> is_not x && bool_decide (get_arg x 0 = y) = true -> tr x = negb (tr y).
Proof.
  intros Hw [Hn Hy%bool_decide_eq_true]%andb_true_iff.
  destruct (not_inv I x Hn Hw) as (z & Hz & _ & _ & _ & ->). congruence.
Qed.

Lemma complement_core_ok l r :
  wf l = true -> is_complement_core l r = true -> tr l = negb (tr r).
Proof.
  intros Hw. unfold is_complement_core. intros [[->%is_true_spec ->%is_false_spec]%andb_true_iff|Hn]%orb_true_iff.
  - done.
  - by apply not_of_inv.
Qed.

Lemma complement_ok l r :
  wf l = true -> wf r = true -> is_complement l r = true -> tr l = negb (tr r).
Proof.
  intros Hl Hr [H|H]%orb_true_iff; apply complement_core_ok in H; try done. by rewrite H, negb_involutive.
Qed.

Lemma opposite_eqs_ok l r :
  wf l = true -> wf r = true -> opposite_eqs l r = true -> tr l = negb (tr r).
Proof.
  intros Hl Hr. unfold opposite_eqs. rewrite !andb_true_iff. intros [[Hel Her] Ho].
  destruct (eq_inv I l Hel Hl) as (la & lb & <- & <- & _ & Hla & Hlb & Hsl & _ & Hvl).
  destruct (eq_inv I r Her Hr) as (ra & rb & <- & <- & _ & Hra & Hrb & Hsr & _ & Hvr).
  rewrite Hvl, Hvr.
  assert (forall a x y, wf a = true -> wf x = true -> wf y = true ->
    get_sort a = get_sort x -> get_sort a = get_sort y ->
    (is_not y && bool_decide (get_arg y 0 = x)) || (is_not x && bool_decide (get_arg x 0 = y)) = true ->
    bool_decide (eval a = eval x) = negb (bool_decide (eval a = eval y))) as Hkey.
  { intros a x y Ha Hx Hy Hsx Hsy Hn.
    assert (wfb a = true /\ wfb x = true /\ wfb y = true) as (Hba & Hbx & Hby).
    { rewrite !wfb_spec. apply orb_true_iff in Hn as [[Hn _]%andb_true_iff|[Hn _]%andb_true_iff];
        destruct (not_inv I _ Hn) as (z & _ & _ & _ & [_ ?]%wfb_spec & _); try done; split_and!; congruence. }
    assert (tr x = negb (tr y)) as Hxy.
    { apply orb_true_iff in Hn as [Hn|Hn]; apply not_of_inv in Hn; try done. by rewrite Hn, negb_involutive. }
    rewrite !eq_bool, Hxy by done. by destruct (tr a), (tr y). }
  assert (forall x y, bool_decide (eval x = eval y) = bool_decide (eval y = eval x)) as Hcomm
    by (intros x y; apply bool_decide_ext; naive_solver).
  apply orb_true_iff in Ho as [[Hab%bool_decide_eq_true Ho]%andb_true_iff|[Hab%bool_decide_eq_true Ho]%andb_true_iff].
  - rewrite <- Hab. apply Hkey; try done; congruence.
  - rewrite (Hcomm (get_arg l 0)), (Hcomm (get_arg r 0)), <- Hab. apply Hkey; try done; congruence.
Qed.

(** ** Equality, given a correct negation *)

Context (neg : expr -> expr) (neg_ok : forall x, wfb x = true -> holds (negb (tr x)) (neg x)).

Lemma mk_eq_bool_ok l r k :
  wfb l = true -> wfb r = true -> br_holds I (Bool.eqb (tr l) (tr r)) k ->
  br_holds I (Bool.eqb (tr l) (tr r))
    (if is_true l then BR_DONE r
     else if is_false l then BR_DONE (neg r)
     else if is_true r then BR_DONE l
     else if is_false r then BR_DONE (neg l)
     else if is_complement l r then BR_DONE m_false
     else k).
Proof.
  intros Hl Hr Hk.
  destruct (is_true l) eqn:Hlt; [apply is_true_spec in Hlt as ->|].
  { eapply br_ext; [by apply done_holds, holds_self|]. cbn. by destruct (tr r). }
  destruct (is_false l) eqn:Hlf; [apply is_false_spec in Hlf as ->|].
  { eapply br_ext; [by apply done_holds, neg_ok|]. cbn. by destruct (tr r). }
  destruct (is_true r) eqn:Hrt; [apply is_true_spec in Hrt as ->|].
  { eapply br_ext; [by apply done_holds, holds_self|]. cbn. by destruct (tr l). }
  destruct (is_false r) eqn:Hrf; [apply is_false_spec in Hrf as ->|].
  { eapply br_ext; [by apply done_holds, neg_ok|]. cbn. by destruct (tr l). }
  destruct (is_complement l r) eqn:Hc; [|done].
  apply wfb_spec in Hl as [Hl _], Hr as [Hr _]. apply complement_ok in Hc; [|done..].
  eapply br_ext; [by apply done_holds, holds_false|]. rewrite Hc. by destruct (tr r).
Qed.

Lemma mk_eq_core_with_ok l r :
  wf l = true -> wf r = true -> get_sort l = get_sort r ->
  br_holds I (bool_decide (eval l = eval r)) (mk_eq_core_with p neg l r).
Proof.
  intros Hl Hr Hs. unfold mk_eq_core_with, are_equal.
  destruct (bool_decide (l = r)) eqn:Heq.
  { apply bool_decide_eq_true in Heq as <-. eapply br_ext; [by apply done_holds, holds_true|].
    by rewrite bool_decide_eq_true_2. }
  destruct (are_distinct l r) eqn:Hd.
  { apply (are_distinct_sound I) in Hd; [|done..]. eapply br_ext; [by apply done_holds, holds_false|].
    by rewrite bool_decide_eq_false_2. }
  set (b := if negb (ite_extra_rules p) then _ else _).
  assert (br_holds I (bool_decide (eval l = eval r)) b) as Hb.
  { unfold b. destruct (negb _); [done|].
    destruct (is_ite l) eqn:Hil, (is_ite r) eqn:Hir, (is_value l), (is_value r); cbn [andb]; try done;
      try (by apply try_ite_value_ok);
      (eapply br_ext; [by apply try_ite_value_ok|apply bool_decide_ext; naive_solver]). }
  clearbody b. destruct b; [done..|]. clear Hb.
  destruct (is_bool l) eqn:Hbl; [|done].
  assert (wfb l = true /\ wfb r = true) as [Hwl Hwr].
  { unfold is_bool, is_bool_sort in Hbl. rewrite !wfb_spec. destruct (get_sort l) eqn:?; split_and!; congruence. }
  destruct (is_not l && is_not r) eqn:Hn.
  - apply andb_true_iff in Hn as [Hnl Hnr].
    destruct (not_inv I l Hnl Hl) as (x & -> & _ & Hx & _ & Hlx).
    destruct (not_inv I r Hnr Hr) as (y & -> & _ & Hy & _ & Hry).
    assert (bool_decide (eval l = eval r) = Bool.eqb (tr x) (tr y)) as ->
      by (rewrite eq_bool, Hlx, Hry by done; by destruct (tr x), (tr y)).
    apply mk_eq_bool_ok; try done. eapply br_ext; [apply done_holds, holds_eq|by apply eq_bool];
      apply wfb_spec in Hx as [? ?], Hy as [? ?]; congruence.
  - rewrite eq_bool by done. apply mk_eq_bool_ok; try done.
    destruct (opposite_eqs l r) eqn:Ho; [|done]. apply opposite_eqs_ok in Ho; [|done..].
    eapply br_ext; [by apply done_holds, holds_false|]. rewrite Ho. by destruct (tr r).
Qed.

Lemma mk_eq_with_ok l r :
  wf l = true -> wf r = true -> get_sort l = get_sort r ->
  holds (bool_decide (eval l = eval r)) (mk_eq_with p neg l r).
Proof. intros Hl Hr Hs. apply result_or_holds; [by apply mk_eq_core_with_ok|by apply holds_eq]. Qed.

Lemma mk_not_core_with_ok t :
  wfb t = true -> br_holds I (negb (tr t)) (mk_not_core_with p neg t).
Proof.
  intros Ht. pose proof Ht as [Hw Hs]%wfb_spec. unfold mk_not_core_with.
  destruct (is_not t) eqn:Hn.
  { destruct (not_inv I t Hn Hw) as (x & -> & _ & Hx & _ & ->). rewrite negb_involutive.
    by apply done_holds, holds_self. }
  destruct (is_true t) eqn:Htt; [apply is_true_spec in Htt as ->; by apply done_holds, holds_false|].
  destruct (is_false t) eqn:Htf; [apply is_false_spec in Htf as ->; by apply done_holds, holds_true|].
  destruct (is_eq t && is_bool (get_arg t 0)) eqn:He; [|done].
  apply andb_true_iff in He as [He Hb].
  destruct (eq_inv I t He Hw) as (a & b & Ha & -> & _ & Hwa & Hwb & Hab & _ & ->). rewrite Ha in *.
  assert (wfb a = true) as Hba.
  { unfold wfb. by rewrite Hwa. }
  assert (wfb b = true) as Hbb.
  { apply wfb_spec. split; [done|]. rewrite <- Hab. by apply wfb_spec. }
  destruct (neg_ok a Hba) as [Hwn Htn]. pose proof Hwn as [? ?]%wfb_spec.
  pose proof Hbb as [? ?]%wfb_spec.
  eapply br_ext; [apply done_holds, mk_eq_with_ok; congruence|].
  rewrite !eq_bool, Htn by done. by destruct (tr a), (tr b).
Qed.
End Negation.

Section NegationTies.
Context (I : interp) (p : bool_rewriter_params).

Lemma mk_not_fuel_ok fuel t : wfb t = true -> holds I (negb (tr I t)) (mk_not_fuel p fuel t).
Proof.
  revert t. induction fuel as [|fuel IH]; intros t Ht; cbn [mk_not_fuel].
  - by apply holds_not, holds_self.
  - apply result_or_holds; [by apply mk_not_core_with_ok|by apply holds_not, holds_self].
Qed.

Lemma mk_not_ok t : wfb t = true -> holds I (negb (tr I t)) (mk_not p t).
Proof. apply mk_not_fuel_ok. Qed.

Lemma mk_not_core_ok t : wfb t = true -> br_holds I (negb (tr I t)) (mk_not_core p t).
Proof. apply mk_not_core_with_ok, mk_not_ok. Qed.

Lemma mk_eq_core_ok l r :
  wf l = true -> wf r = true -> get_sort l = get_sort r ->
  br_holds I (bool_decide (eval I l = eval I r)) (mk_eq_core p l r).
Proof. apply mk_eq_core_with_ok, mk_not_ok. Qed.

Lemma mk_eq_ok l r :
  wf l = true -> wf r = true -> get_sort l = get_sort r ->
  holds I (bool_decide (eval I l = eval I r)) (mk_eq p l r).
Proof. apply mk_eq_with_ok, mk_not_ok. Qed.
End NegationTies.

(** ** The recursion of negation and equality *)

Section Weight.
Context (p : bool_rewriter_params).

Lemma weight_pos e : (1 <= weight e)%nat.
Proof. destruct e as [|d args]; cbn; [lia|]. destruct (kind d) as [[]|[]|]; lia. Qed.

Lemma value_weight e : is_value e = true -> weight e = 1%nat.
Proof.
  destruct e as [|d args]; [done|]. cbn [is_value weight]. destruct (kind d) as [k|k|] eqn:Hk; [|..|done].
  - unfold basic_is_value. intros [H|H]%orb_true_iff;
      [apply is_true_spec in H|apply is_false_spec in H]; injection H as -> ->; by injection Hk as <-.
  - unfold is_bv_num, is_app_of. intros He%bool_decide_eq_true. rewrite Hk in He. by injection He as ->.
Qed.

(** Weight of an application of a basic operator. *)
Lemma weight_basic k d args :
  kind d = Basic k -> k <> OP_ITE -> weight (App d args) = S (sum_list (map weight args)).
Proof. intros Hk Hi. cbn. rewrite Hk. by destruct k. Qed.

Lemma weight_ite d c t e :
  kind d = Basic OP_ITE -> weight (App d [c; t; e]) = (5 + weight c + weight t + weight e)%nat.
Proof. intros Hk. cbn. rewrite Hk. lia. Qed.

Lemma weight_nth args i : (weight (nth i args m_false) <= S (sum_list (map weight args)))%nat.
Proof.
  revert i. induction args as [|a args IH]; intros [|i]; cbn; [lia..|]. specialize (IH i). lia.
Qed.

Lemma weight_arg e i k : is_app_of e (Basic k) = true -> (weight (get_arg e i) <= weight e)%nat.
Proof.
  intros (d & args & -> & Hk)%is_app_of_spec. pose proof (weight_nth args i).
  unfold get_arg, get_args. cbn [weight]. rewrite Hk. destruct k; lia.
Qed.

Lemma value_not_ite e : is_value e = true -> is_ite e = false.
Proof.
  destruct e as [|d args]; [done|]. cbn [is_value]. unfold is_ite, is_app_of.
  destruct (kind d) as [k|k|] eqn:Hk; try (intros; by apply bool_decide_eq_false).
  unfold basic_is_value. intros [H|H]%orb_true_iff;
    [apply is_true_spec in H|apply is_false_spec in H]; injection H as -> ->; by injection Hk as <-.
Qed.

(** A bound on the weight of a result. *)
Definition br_weight (n : nat) (b : br_status) : Prop := (weight (result_or b m_true) <= n)%nat.

Lemma br_weight_le n m b : br_weight n b -> (n <= m)%nat -> br_weight m b.
Proof. unfold br_weight. lia. Qed.

(** An if-then-else with values at its leaves. *)
Lemma try_leaf_weight ite val :
  is_ite ite = true -> wf ite = true -> is_value val = true ->
  is_value (get_arg ite 1) && is_value (get_arg ite 2) = true ->
  br_weight (weight ite - 2) (try_ite_value ite val).
Proof.
  intros Hi Hw Hv Hl. apply value_weight in Hv.
  destruct (ite_inv default_interp ite Hi Hw) as (d & c & t & e & -> & _).
  unfold is_ite in Hi. apply is_app_of_spec in Hi as (d' & l & [= <- <-] & Hk). rewrite weight_ite by done.
  cbn [get_arg get_args nth] in Hl. apply andb_true_iff in Hl as [Ht He].
  pose proof (value_not_ite t Ht) as Hnt. pose proof (value_not_ite e He) as Hne.
  apply value_weight in Ht, He. cbn [try_ite_value]. unfold br_weight.
  repeat case_match; rewrite ?Hnt, ?Hne in *; try discriminate; cbn; rewrite ?Ht, ?He, ?Hv; lia.
Qed.

(** A leaf of the if-then-else that is one with values at its leaves. *)
Lemma try_nested_weight t val :
  wf t = true -> is_value val = true ->
  let b := if is_ite t && is_value (get_arg t 1) && is_value (get_arg t 2)
           then try_ite_value t val else BR_FAILED in
  b = BR_FAILED \/ (weight (result_or b m_true) + 2 <= weight t)%nat.
Proof.
  intros Hw Hv b. unfold b. destruct (is_ite t) eqn:Hi; cbn [andb]; [|by left].
  destruct (_ && _) eqn:Hl; [|by left]. right.
  pose proof (try_leaf_weight t val Hi Hw Hv Hl) as Hb. unfold br_weight in Hb.
  pose proof (weight_pos (result_or (try_ite_value t val) m_true)). lia.
Qed.

Lemma try_ite_value_weight ite val :
  is_ite ite = true -> wf ite = true -> is_value val = true ->
  br_weight (weight ite) (try_ite_value ite val).
Proof.
  intros Hi Hw Hval. pose proof (value_weight val Hval) as Hv.
  destruct (ite_inv default_interp ite Hi Hw) as (d & c & t & e & -> & _ & Ht & He & _).
  unfold is_ite in Hi. apply is_app_of_spec in Hi as (d' & l & [= <- <-] & Hk).
  rewrite weight_ite by done. cbn [try_ite_value].
  pose proof (try_nested_weight t val Ht Hval) as Hbt. pose proof (try_nested_weight e val He Hval) as Hbe.
  cbv zeta in *. set (bt := if is_ite t && _ && _ then _ else BR_FAILED) in *.
  set (be := if is_ite e && _ && _ then _ else BR_FAILED) in *. clearbody bt be.
  unfold br_weight in *. pose proof (weight_pos t). pose proof (weight_pos e).
  repeat case_match; destruct Hbt as [?|Hbt], Hbe as [?|Hbe]; try discriminate;
    cbn [result_or] in *; cbn in *; rewrite ?Hv; lia.
Qed.

(** The sides of an equality of formulas, both stripped of a negation or none. *)
Lemma unfolded_sides l r :
  wfb l = true -> wfb r = true ->
  exists l' r', (if is_not l && is_not r then get_arg l 0 else l) = l'
    /\ (if is_not l && is_not r then get_arg r 0 else r) = r'
    /\ wfb l' = true /\ wfb r' = true /\ (weight l' <= weight l)%nat /\ (weight r' <= weight r)%nat.
Proof.
  intros Hl Hr. assert (forall x, wfb x = true -> is_not x = true ->
    wfb (get_arg x 0) = true /\ (S (weight (get_arg x 0)) <= weight x)%nat) as Harg.
  { intros x [Hx _]%wfb_spec Hn. destruct (not_inv default_interp x Hn Hx) as (y & -> & Hy & Hw & _).
    split; [done|]. unfold is_not in Hn. apply is_app_of_spec in Hn as (d & args & -> & Hk).
    cbn in Hy. subst args. rewrite (weight_basic OP_NOT) by done. cbn. lia. }
  eexists _, _. split; [done|]. split; [done|].
  destruct (is_not l) eqn:Hnl, (is_not r) eqn:Hnr; cbn [andb]; try done.
  destruct (Harg l Hl Hnl), (Harg r Hr Hnr). split_and!; done || lia.
Qed.

Context (neg : expr -> expr).

(** A negation and an equality cost one node each. *)
Lemma mk_eq_with_weight l r :
  (forall x, wfb x = true -> (weight (neg x) <= weight x + 1)%nat) ->
  wf l = true -> wf r = true -> get_sort l = get_sort r ->
  (weight (mk_eq_with p neg l r) <= 1 + weight l + weight r)%nat.
Proof.
  intros Hneg Hl Hr Hs. pose proof (weight_pos l). pose proof (weight_pos r).
  unfold mk_eq_with, mk_eq_core_with.
  destruct (are_equal l r); [cbn; lia|]. destruct (are_distinct l r); [cbn; lia|].
  set (b := if negb (ite_extra_rules p) then _ else _).
  assert (br_weight (1 + weight l + weight r) b) as Hb.
  { unfold b. destruct (negb _); [unfold br_weight; cbn; lia|].
    destruct (is_ite l) eqn:Hil, (is_ite r) eqn:Hir, (is_value l) eqn:Hvl, (is_value r) eqn:Hvr;
      cbn [andb]; try (unfold br_weight; cbn; lia);
      (eapply br_weight_le; [by apply try_ite_value_weight|lia]). }
  clearbody b. destruct b; [exact Hb..|]. clear Hb.
  destruct (is_bool l) eqn:Hbl; [|cbn; lia].
  assert (wfb l = true /\ wfb r = true) as [Hwl Hwr].
  { unfold is_bool, is_bool_sort in Hbl. rewrite !wfb_spec. destruct (get_sort l) eqn:?; split_and!; congruence. }
  destruct (unfolded_sides l r Hwl Hwr) as (l' & r' & -> & -> & Hwl' & Hwr' & Hle & Hre).
  pose proof (Hneg l' Hwl'). pose proof (Hneg r' Hwr').
  repeat (case_match; [cbn; lia|]). cbn; lia.
Qed.

(** Equality calls negation on terms no heavier than its sides. *)
Lemma mk_eq_with_ext neg' l r n :
  wf l = true -> wf r = true -> get_sort l = get_sort r ->
  (weight l <= n)%nat -> (weight r <= n)%nat ->
  (forall x, wfb x = true -> (weight x <= n)%nat -> neg x = neg' x) ->
  mk_eq_with p neg l r = mk_eq_with p neg' l r.
Proof.
  intros Hl Hr Hs Hnl Hnr Hneg. unfold mk_eq_with, mk_eq_core_with.
  destruct (are_equal l r); [done|]. destruct (are_distinct l r); [done|].
  destruct (if negb (ite_extra_rules p) then _ else _); [done..|].
  destruct (is_bool l) eqn:Hbl; [|done].
  assert (wfb l = true /\ wfb r = true) as [Hwl Hwr].
  { unfold is_bool, is_bool_sort in Hbl. rewrite !wfb_spec. destruct (get_sort l) eqn:?; split_and!; congruence. }
  destruct (unfolded_sides l r Hwl Hwr) as (l' & r' & -> & -> & Hwl' & Hwr' & Hle & Hre).
  rewrite !Hneg by (done || lia). done.
Qed.
End Weight.

Section Fuel.
Context (p : bool_rewriter_params).

Lemma mk_not_fuel_weight fuel t :
  wfb t = true -> (weight (mk_not_fuel p fuel t) <= weight t + 1)%nat.
Proof.
  revert t. induction fuel as [|fuel IH]; intros t Ht; cbn [mk_not_fuel]; [cbn; lia|].
  pose proof Ht as [Hw Hs]%wfb_spec. pose proof (weight_pos t). unfold mk_not_core_with.
  destruct (is_not t) eqn:Hn.
  { unfold is_not in Hn. pose proof (weight_arg t 0 OP_NOT Hn). cbn. lia. }
  destruct (is_true t); [cbn; lia|]. destruct (is_false t); [cbn; lia|].
  destruct (is_eq t && is_bool (get_arg t 0)) eqn:He; [|cbn; lia].
  apply andb_true_iff in He as [He Hb].
  destruct (eq_inv default_interp t He Hw) as (x & y & Hx & Hy & Hxy & Hwx & Hwy & Hsxy & _).
  rewrite Hx, Hy in *. cbn [result_or].
  assert (wfb x = true) as Hbx by (unfold wfb; by rewrite Hwx).
  destruct (mk_not_fuel_ok default_interp p fuel x Hbx) as [[Hwn Hsn]%wfb_spec _].
  pose proof Hbx as [_ Hsx]%wfb_spec.
  pose proof (mk_eq_with_weight p (mk_not_fuel p fuel) (mk_not_fuel p fuel x) y) as Hle.
  pose proof (IH x Hbx). unfold is_eq in He. apply is_app_of_spec in He as (d & args & -> & Hk).
  cbn in Hxy. subst args. rewrite (weight_basic OP_EQ) by done. cbn.
  specialize (Hle IH Hwn Hwy ltac:(congruence)). lia.
Qed.

(** Negation of a term depends on the negation of lighter terms only. *)
Lemma mk_not_core_with_ext neg fuel t n :
  wfb t = true -> (weight t <= S n)%nat ->
  (forall x, wfb x = true -> (weight x <= n)%nat -> neg x = mk_not_fuel p fuel x) ->
  mk_not_core_with p neg t = mk_not_core_with p (mk_not_fuel p fuel) t.
Proof.
  intros Ht Hn Hneg. pose proof Ht as [Hw Hs]%wfb_spec. unfold mk_not_core_with.
  destruct (is_not t) eqn:Hnt; [done|]. destruct (is_true t); [done|]. destruct (is_false t); [done|].
  destruct (is_eq t && is_bool (get_arg t 0)) eqn:He; [|done].
  apply andb_true_iff in He as [He Hb].
  destruct (eq_inv default_interp t He Hw) as (x & y & Hx & Hy & Hxy & Hwx & Hwy & Hsxy & _).
  rewrite Hx, Hy in *. cbn [result_or].
  assert (wfb x = true) as Hbx by (unfold wfb; by rewrite Hwx). pose proof Hbx as [_ Hsx]%wfb_spec.
  assert (S (weight x + weight y) <= weight t)%nat as Hlt.
  { unfold is_eq in He. apply is_app_of_spec in He as (d & args & -> & Hk).
    cbn in Hxy. subst args. rewrite (weight_basic OP_EQ) by done. cbn. lia. }
  pose proof (weight_pos x). pose proof (weight_pos y). rewrite (Hneg x) by (done || lia).
  destruct (mk_not_fuel_ok default_interp p fuel x Hbx) as [[Hwn Hsn]%wfb_spec _].
  pose proof (mk_not_fuel_weight fuel x Hbx). f_equal.
  apply (mk_eq_with_ext p _ _ _ _ n); try done; [congruence|lia..].
Qed.

(** The weight is fuel enough: more does not change the result. *)
Lemma mk_not_fuel_enough n m t :
  wfb t = true -> (weight t <= n)%nat -> (weight t <= m)%nat ->
  mk_not_fuel p n t = mk_not_fuel p m t.
Proof.
  revert m t. induction n as [|n IH]; intros m t Ht Hn Hm; [pose proof (weight_pos t); lia|].
  destruct m as [|m]; [pose proof (weight_pos t); lia|]. cbn [mk_not_fuel]. f_equal.
  apply (mk_not_core_with_ext _ _ _ (Nat.min n m)); [done|lia|].
  intros x Hx Hle. apply IH; [done|lia..].
Qed.

(** negation and equality of the Boolean rewriter call each other; on
    every well-sorted formula the recursion ends: [mk_not] satisfies the
    equation of the code, with no bound on the depth. *)
Theorem mk_not_unfold t :
  wfb t = true -> mk_not p t = result_or (mk_not_core p t) (m_mk_not t).
Proof.
  intros Ht. unfold mk_not at 1, mk_not_core.
  rewrite (mk_not_fuel_enough _ (S (weight t))) by (done || lia). cbn [mk_not_fuel]. f_equal.
  symmetry. apply (mk_not_core_with_ext _ _ _ (weight t)); [done|lia|].
  intros x Hx Hle. apply mk_not_fuel_enough; [done|lia..].
Qed.
End Fuel.

(** ** Conjunction and disjunction *)

Section Connectives.
Context (I : interp) (p : bool_rewriter_params) (get_id : expr -> Z).
Local Abbreviation tr := (tr I).
Local Abbreviation holds := (holds I).
Local Abbreviation all_wfb := (Forall (fun e => wfb e = true)).

(** Some term of [l] has the truth value [z]: the disjunction for [true], the
    negated conjunction for [false]. *)
Definition has (z : bool) (l : list expr) : bool := existsb (fun e => Bool.eqb (tr e) z) l.

Lemma has_app z l1 l2 : has z (l1 ++ l2) = has z l1 || has z l2.
Proof. apply existsb_app. Qed.

Lemma has_elem z l e : e ∈ l -> tr e = z -> has z l = true.
Proof.
  intros He Ht. apply existsb_exists. exists e. rewrite Ht, eqb_reflx. split; [|done].
  by apply list_elem_of_In.
Qed.

Lemma has_ext z l1 l2 : (forall e, e ∈ l1 <-> e ∈ l2) -> has z l1 = has z l2.
Proof.
  clear p get_id. intros Hl. apply eq_true_iff_eq. unfold has. rewrite !existsb_exists.
  setoid_rewrite <- list_elem_of_In. naive_solver.
Qed.

Lemma existsb_has l : existsb tr l = has true l.
Proof. induction l as [|e l IH]; cbn; [done|]. rewrite IH. by destruct (tr e). Qed.
Lemma forallb_has l : forallb tr l = negb (has false l).
Proof. induction l as [|e l IH]; cbn; [done|]. rewrite IH. by destruct (tr e). Qed.

(** What a run of [scan] leaves. *)
Definition scanned (z s : bool) (l : list expr) (r : option (bool * list expr)) : Prop :=
  match r with
  | None => has z l = true
  | Some (s', l') => has z l' = has z l /\ (s' = false -> s = false /\ l' = l) /\ all_wfb l'
  end.

Lemma scanned_ext z s s' l l' r :
  scanned z s l r -> has z l = has z l' -> (s = false -> s' = false /\ l = l') -> scanned z s' l' r.
Proof. destruct r as [[s'' l'']|]; cbn; [|congruence]. naive_solver. Qed.

Lemma scan_ok (z : bool) neutral absorbing ordered :
  (forall e, absorbing e = true -> tr e = z) -> (forall e, neutral e = true -> tr e = negb z) ->
  forall args neg_lits pos_lits s buffer,
  all_wfb args -> all_wfb buffer ->
  (forall x, x ∈ neg_lits -> exists a, a ∈ buffer /\ tr a = negb (tr x)) ->
  (forall x, x ∈ pos_lits -> x ∈ buffer) ->
  scanned z s (buffer ++ args) (scan neutral absorbing ordered args neg_lits pos_lits s buffer).
Proof.
  intros Habs Hneu. induction args as [|arg args IH]; intros neg pos s buffer Hargs Hbuf Hneg Hpos.
  { cbn. by rewrite app_nil_r. }
  apply Forall_cons in Hargs as [Harg Hargs].
  assert (forall a, a ∈ buffer -> tr a = tr arg ->
    scanned z s (buffer ++ arg :: args) (scan neutral absorbing ordered args neg pos true buffer)) as Hdrop.
  { intros a Ha Hta. eapply scanned_ext; [by apply IH| |done].
    rewrite !has_app. cbn. rewrite <- Hta. destruct (Bool.eqb (tr a) z) eqn:Hz; [|done].
    apply eqb_prop in Hz. by rewrite (has_elem z buffer a). }
  assert (forall a, a ∈ buffer -> tr a = negb (tr arg) -> has z (buffer ++ arg :: args) = true) as Hcompl.
  { intros a Ha Hta. destruct (decide (tr arg = z)) as [Hz|Hz].
    - eapply has_elem; [|exact Hz]. set_solver.
    - apply (has_elem _ _ a); [set_solver|]. rewrite Hta. by destruct (tr arg), z. }
  assert (forall neg' pos', 
    (forall x, x ∈ neg' -> x ∈ neg \/ tr arg = negb (tr x)) -> (forall x, x ∈ pos' -> x ∈ pos \/ x = arg) ->
    scanned z s (buffer ++ arg :: args)
      (scan neutral absorbing ordered args neg' pos'
        (s || match last buffer with Some prev => negb (ordered prev arg) | None => false end)
        (buffer ++ [arg]))) as Hkeep.
  { intros neg' pos' Hn Hp. eapply scanned_ext; [apply IH| |].
    - done.
    - apply Forall_app. auto.
    - intros x [Hx|Hx]%Hn; [|exists arg; set_solver]. destruct (Hneg x Hx) as (a & Ha & ?).
      exists a. set_solver.
    - intros x [Hx%Hpos| ->]%Hp; set_solver.
    - by rewrite <- app_assoc.
    - intros [-> _]%orb_false_iff. by rewrite <- app_assoc. }
  cbn [scan]. destruct (absorbing arg) eqn:Ha; [eapply has_elem; [|by apply Habs]; set_solver|].
  destruct (neutral arg) eqn:Hu.
  { apply Hneu in Hu. eapply scanned_ext; [by apply IH| |done].
    rewrite !has_app. cbn. rewrite Hu. by destruct z. }
  destruct (is_not arg) eqn:Hn.
  - pose proof Harg as [Hw _]%wfb_spec. destruct (not_inv I arg Hn Hw) as (x & -> & _ & _ & _ & Ht).
    case_bool_decide as Hxn; [destruct (Hneg x Hxn) as (a & Hab & Hta); eapply Hdrop; [done|congruence]|].
    case_bool_decide as Hxp.
    { apply (Hcompl x); [by apply Hpos|]. by rewrite Ht, negb_involutive. }
    apply Hkeep; set_solver.
  - case_bool_decide as Hxp; [eapply Hdrop; [by apply Hpos|done]|].
    case_bool_decide as Hxn; [destruct (Hneg arg Hxn) as (a & Hab & Hta); by apply (Hcompl a)|].
    apply Hkeep; set_solver.
Qed.

Lemma scan_start (z : bool) neutral absorbing ordered args :
  (forall e, absorbing e = true -> tr e = z) -> (forall e, neutral e = true -> tr e = negb z) ->
  all_wfb args -> scanned z false args (scan neutral absorbing ordered args [] [] false []).
Proof. intros Habs Hneu Ha. apply (scan_ok z _ _ _ Habs Hneu); set_solver || done. Qed.

Lemma tr_is_true e : is_true e = true -> tr e = true.
Proof. by intros ->%is_true_spec. Qed.
Lemma tr_is_false e : is_false e = true -> tr e = false.
Proof. by intros ->%is_false_spec. Qed.

Lemma mk_nflat_and_core_ok args :
  all_wfb args -> br_holds I (forallb tr args) (mk_nflat_and_core args).
Proof.
  intros Ha. unfold mk_nflat_and_core.
  pose proof (scan_start false is_true is_false (fun _ _ => true) args tr_is_false tr_is_true Ha) as Hs.
  rewrite forallb_has. destruct (scan _ _ _ _ _ _ _ _) as [[s buffer]|]; cbn [scanned] in Hs.
  - destruct Hs as (<- & _ & Hb). rewrite <- forallb_has.
    assert (br_holds I (forallb tr buffer) (if s then BR_DONE (m_mk_and buffer) else BR_FAILED)) as Hmany
      by (destruct s; [by apply done_holds, holds_and|done]).
    destruct buffer as [|e [|e' buffer]]; [apply done_holds, holds_true| |done].
    apply Forall_cons in Hb as [He _]. cbn. rewrite andb_true_r. by apply done_holds, holds_self.
  - rewrite Hs. apply done_holds, holds_false.
Qed.

Lemma sort_ids_perm l : sort_ids get_id l ≡ₚ l.
Proof. apply merge_sort_Permutation. Qed.

Lemma holds_sorted_or l : all_wfb l -> holds (existsb tr l) (m_mk_or (sort_ids get_id l)).
Proof.
  intros Hl. rewrite existsb_has. rewrite (has_ext _ l (sort_ids get_id l)).
  - rewrite <- existsb_has. apply holds_or. by rewrite sort_ids_perm.
  - intros e. by rewrite sort_ids_perm.
Qed.

Lemma mk_nflat_or_core_ok args :
  all_wfb args -> br_holds I (existsb tr args) (mk_nflat_or_core get_id args).
Proof.
  intros Ha. unfold mk_nflat_or_core.
  pose proof (scan_start true is_false is_true (fun prev arg => negb (lt arg prev)) args
    tr_is_true tr_is_false Ha) as Hs.
  rewrite existsb_has. destruct (scan _ _ _ _ _ _ _ _) as [[s buffer]|]; cbn [scanned] in Hs.
  - destruct Hs as (<- & _ & Hb). rewrite <- existsb_has.
    assert (br_holds I (existsb tr buffer)
      (if s then BR_DONE (m_mk_or (sort_ids get_id buffer)) else BR_FAILED)) as Hmany
      by (destruct s; [by apply done_holds, holds_sorted_or|done]).
    destruct buffer as [|e [|e' buffer]]; [apply done_holds, holds_false| |done].
    apply Forall_cons in Hb as [He _]. cbn. rewrite orb_false_r. by apply done_holds, holds_self.
  - rewrite Hs. apply done_holds, holds_true.
Qed.

(** Flattening replaces a nested connective by its arguments. *)
Lemma flatten_and_ok args :
  all_wfb args ->
  let flat_args := flat_map (fun arg => if is_and arg then get_args arg else [arg]) args in
  all_wfb flat_args /\ forallb tr flat_args = forallb tr args.
Proof.
  induction 1 as [|e args He _ [IHw IHv]]; [done|]. cbn.
  destruct (is_and e) eqn:Hi; cbn; [|split; [by constructor|by rewrite IHv]].
  pose proof He as [Hw _]%wfb_spec. destruct (and_inv I e Hi Hw) as [Hg [_ Hv]].
  split; [by apply Forall_app|]. by rewrite forallb_app, IHv, Hv.
Qed.

Lemma mk_flat_and_core_ok args :
  all_wfb args -> br_holds I (forallb tr args) (mk_flat_and_core args).
Proof.
  intros Ha. unfold mk_flat_and_core. destruct (existsb is_and args); [|by apply mk_nflat_and_core_ok].
  destruct (flatten_and_ok args Ha) as [Hw <-].
  apply done_holds, result_or_holds; [by apply mk_nflat_and_core_ok|by apply holds_and].
Qed.

Lemma flatten_or_ok args ordered prev :
  all_wfb args ->
  let l := (flatten_or args ordered prev).2 in all_wfb l /\ existsb tr l = existsb tr args.
Proof.
  intros Ha. revert ordered prev. induction Ha as [|e args He _ IH]; intros ordered prev; [done|].
  cbn [flatten_or]. destruct (is_or e) eqn:Hi.
  - specialize (IH false prev). destruct (flatten_or _ _ _) as [o l]. cbn in IH |- *.
    destruct IH as [IHw IHv]. pose proof He as [Hw _]%wfb_spec.
    destruct (or_inv I e Hi Hw) as [Hg [_ Hv]].
    split; [by apply Forall_app|]. by rewrite existsb_app, IHv, Hv.
  - set (o := match prev with Some _ => _ | None => _ end). specialize (IH (ordered && o) (Some e)).
    destruct (flatten_or _ _ _) as [o' l]. cbn in IH |- *. destruct IH as [IHw IHv].
    split; [by constructor|by rewrite IHv].
Qed.

Lemma split_or_app args : (split_or args).1 ++ (split_or args).2 = args.
Proof.
  induction args as [|e args IH]; [done|]. cbn. destruct (is_or e); [done|].
  destruct (split_or args). cbn in *. by rewrite IH.
Qed.

Lemma mk_flat_or_core_ok args :
  all_wfb args -> br_holds I (existsb tr args) (mk_flat_or_core get_id args).
Proof.
  intros Ha. unfold mk_flat_or_core. pose proof (split_or_app args) as Hsplit.
  destruct (split_or args) as [before [|e nested]]; [by apply mk_nflat_or_core_ok|].
  cbn in Hsplit. subst args. apply Forall_app in Ha as [Hb Hn].
  destruct (flatten_or_ok (e :: nested) true None Hn) as [Hw Hv].
  destruct (flatten_or _ _ _) as [ordered l]. cbn [snd] in Hw, Hv.
  assert (all_wfb (before ++ l)) as Hl by by apply Forall_app.
  assert (existsb tr (before ++ e :: nested) = existsb tr (before ++ l)) as ->
    by by rewrite !existsb_app, Hv.
  apply done_holds, result_or_holds; [by apply mk_nflat_or_core_ok|].
  destruct ordered; [by apply holds_or|by apply holds_sorted_or].
Qed.

Lemma mk_or_core_ok args : all_wfb args -> br_holds I (existsb tr args) (mk_or_core p get_id args).
Proof.
  intros Ha. unfold mk_or_core. destruct (flat p); [by apply mk_flat_or_core_ok|by apply mk_nflat_or_core_ok].
Qed.

Lemma mk_or_ok args : all_wfb args -> holds (existsb tr args) (mk_or p get_id args).
Proof. intros Ha. apply result_or_holds; [by apply mk_or_core_ok|by apply holds_or]. Qed.

Lemma mk_and_as_or_ok args : all_wfb args -> holds (forallb tr args) (mk_and_as_or p get_id args).
Proof.
  intros Ha. unfold mk_and_as_or.
  assert (all_wfb (map (mk_not p) args) /\ existsb tr (map (mk_not p) args) = negb (forallb tr args)) as [Hw Hv].
  { induction Ha as [|e args He _ [IHw IHv]]; [done|]. destruct (mk_not_ok I p e He) as [Hwe Hve].
    cbn. split; [by constructor|]. by rewrite IHv, Hve, negb_andb. }
  destruct (mk_or_ok _ Hw) as [Hwo Hvo]. destruct (mk_not_ok I p _ Hwo) as [Hwn Hvn].
  split; [done|]. by rewrite Hvn, Hvo, Hv, negb_involutive.
Qed.

Lemma mk_and_core_ok args : all_wfb args -> br_holds I (forallb tr args) (mk_and_core p get_id args).
Proof.
  intros Ha. unfold mk_and_core. destruct (elim_and p); [by apply done_holds, mk_and_as_or_ok|].
  destruct (flat p); [by apply mk_flat_and_core_ok|by apply mk_nflat_and_core_ok].
Qed.

Lemma mk_and_ok args : all_wfb args -> holds (forallb tr args) (mk_and p get_id args).
Proof. intros Ha. apply result_or_holds; [by apply mk_and_core_ok|by apply holds_and]. Qed.
End Connectives.

(** ** The derived connectives *)

Section Derived.
Context (I : interp) (p : bool_rewriter_params) (get_id : expr -> Z).
Local Abbreviation eval := (eval I).
Local Abbreviation tr := (tr I).
Local Abbreviation holds := (holds I).
Local Abbreviation mk_and := (mk_and p get_id).
Local Abbreviation mk_or := (mk_or p get_id).
Local Abbreviation mk_not := (mk_not p).
Local Abbreviation mk_eq := (mk_eq p).

Lemma not_ok a x : holds a x -> holds (negb a) (mk_not x).
Proof. intros [Hx <-]. by apply mk_not_ok. Qed.

Lemma eq_ok a b x y : holds a x -> holds b y -> holds (Bool.eqb a b) (mk_eq x y).
Proof.
  intros [Hx <-] [Hy <-]. rewrite <- eq_bool by done. apply wfb_spec in Hx as [? ?], Hy as [? ?].
  apply mk_eq_ok; congruence.
Qed.

Lemma and2_ok a b x y : holds a x -> holds b y -> holds (a && b) (mk_and [x; y]).
Proof.
  intros [Hx <-] [Hy <-]. rewrite <- (andb_true_r (tr y)). apply (mk_and_ok I p get_id [x; y]).
  by repeat constructor.
Qed.

Lemma or2_ok a b x y : holds a x -> holds b y -> holds (a || b) (mk_or [x; y]).
Proof.
  intros [Hx <-] [Hy <-]. rewrite <- (orb_false_r (tr y)). apply (mk_or_ok I p get_id [x; y]).
  by repeat constructor.
Qed.

Lemma or3_ok a b c x y z : holds a x -> holds b y -> holds c z -> holds (a || b || c) (mk_or [x; y; z]).
Proof.
  intros [Hx <-] [Hy <-] [Hz <-]. rewrite <- (orb_false_r (tr z)), <- orb_assoc.
  apply (mk_or_ok I p get_id [x; y; z]). by repeat constructor.
Qed.

Lemma holds_ext a b x : holds a x -> a = b -> holds b x.
Proof. by intros ? <-. Qed.

Lemma xor_ok a b x y : holds a x -> holds b y -> holds (xorb a b) (mk_xor p x y).
Proof.
  intros Hx Hy. eapply holds_ext; [apply eq_ok; [by apply not_ok|done]|]. by destruct a, b.
Qed.

Lemma implies_ok a b x y : holds a x -> holds b y -> holds (implb a b) (mk_implies p get_id x y).
Proof.
  intros Hx Hy. eapply holds_ext; [apply or2_ok; [by apply not_ok|done]|]. by destruct a, b.
Qed.

Lemma ge2_ok a b c x y z :
  holds a x -> holds b y -> holds c z ->
  holds ((a && b) || (a && c) || (b && c)) (mk_ge2 p get_id x y z).
Proof.
  intros Hx Hy Hz. unfold mk_ge2.
  assert (forall u v, is_false u = true -> holds v u -> v = false) as Hf
    by (intros u v ->%is_false_spec [_ <-]; done).
  assert (forall u v, is_true u = true -> holds v u -> v = true) as Ht
    by (intros u v ->%is_true_spec [_ <-]; done).
  repeat (case_match; [(eapply holds_ext;
    [first [by apply and2_ok|by apply or2_ok]
    |first [rewrite (Hf x a) by done|rewrite (Hf y b) by done|rewrite (Hf z c) by done
           |rewrite (Ht x a) by done|rewrite (Ht y b) by done|rewrite (Ht z c) by done];
     by repeat match goal with b : bool |- _ => destruct b end])|]).
  by apply or3_ok; apply and2_ok.
Qed.

(** ** If-then-else *)

Lemma ite_bool_ok c t e :
  wfb c = true -> wfb t = true -> wfb e = true ->
  br_holds I (if tr c then tr t else tr e) (ite_bool p get_id c t e).
Proof.
  intros Hc Ht He. pose proof (holds_self I c Hc) as Mc. pose proof (holds_self I t Ht) as Mt.
  pose proof (holds_self I e He) as Me. unfold ite_bool.
  assert (forall x, is_true x = true -> tr x = true) as Htrue by apply tr_is_true.
  assert (forall x, is_false x = true -> tr x = false) as Hfalse by apply tr_is_false.
  assert (forall x y, bool_decide (x = y) = true -> tr x = tr y) as Hsame
    by (intros x y ->%bool_decide_eq_true; done).
  assert (forall x y, wfb x = true -> is_complement_core x y = true -> tr x = negb (tr y)) as Hcompl
    by (intros x y [? _]%wfb_spec; by apply complement_core_ok).
  repeat match goal with
  | |- br_holds _ _ (if ?b then _ else _) =>
      let Hb := fresh "Hb" in destruct b eqn:Hb; [try apply andb_true_iff in Hb as [Hb ?]|]
  end; try done;
  repeat match goal with
  | Hb : is_true ?x = true |- _ => apply Htrue in Hb
  | Hb : is_false ?x = true |- _ => apply Hfalse in Hb
  | Hb : bool_decide (?x = ?y) = true |- _ => apply Hsame in Hb
  | Hb : is_complement_core ?x ?y = true |- _ => apply Hcompl in Hb; [|done]
  end;
  (eapply br_ext;
    [apply done_holds; eauto using not_ok, and2_ok, or2_ok, eq_ok|]);
  destruct (tr c), (tr t), (tr e); congruence || done.
Qed.

Lemma means_ext s v w x : means I s v x -> v = w -> means I s w x.
Proof. by intros ? <-. Qed.

Lemma build_ite s a u v c t e :
  holds a c -> means I s u t -> means I s v e -> means I s (if a then u else v) (m_mk_ite c t e).
Proof.
  intros [Hc <-] (Ht & <- & <-) (He & Hs & <-). by apply means_ite.
Qed.

(** The parts of a nested if-then-else. *)
Lemma ite_parts s v t :
  is_ite t = true -> means I s v t ->
  exists a u w, holds a (get_arg t 0) /\ means I s u (get_arg t 1) /\ means I s w (get_arg t 2)
    /\ v = if a then u else w.
Proof.
  intros Hi (Hw & <- & <-).
  destruct (ite_inv I t Hi Hw) as (d & c & x & y & -> & Hc & Hx & Hy & Hsx & Hsy & ->).
  exists (tr c), (eval x), (eval y). by split_and!.
Qed.

Lemma means_eq s v w x y : means I s v x -> means I s w y -> x = y -> v = w.
Proof. intros (_ & _ & <-) (_ & _ & <-). congruence. Qed.

Lemma ite_then_ok s a u v c t e :
  is_ite t = true -> holds a c -> means I s u t -> means I s v e ->
  br_means I s (if a then u else v) (ite_then p get_id c t e).
Proof.
  intros Hit Hc Ht He. destruct (ite_parts s u t Hit Ht) as (a2 & u1 & u2 & Hc2 & Hu1 & Hu2 & ->).
  unfold ite_then. case_bool_decide as E1.
  { pose proof (means_eq _ _ _ _ _ He Hu1 E1) as ->.
    eapply means_ext; [apply build_ite; [apply and2_ok; [done|by apply not_ok]|done..]|]. by destruct a, a2. }
  case_bool_decide as E2.
  { pose proof (means_eq _ _ _ _ _ He Hu2 E2) as ->.
    eapply means_ext; [apply build_ite; [by apply and2_ok|done..]|]. by destruct a, a2. }
  destruct (is_ite e) eqn:Hie; [|done].
  destruct (ite_parts s v e Hie He) as (a3 & v1 & v2 & Hc3 & Hv1 & Hv2 & ->).
  destruct (_ && _) eqn:E3.
  { apply andb_true_iff in E3 as [E3%bool_decide_eq_true E4%bool_decide_eq_true].
    pose proof (means_eq _ _ _ _ _ Hu1 Hv1 E3) as ->. pose proof (means_eq _ _ _ _ _ Hu2 Hv2 E4) as ->.
    eapply means_ext; [apply build_ite; [eauto 10 using or2_ok, and2_ok, not_ok|done..]|].
    by destruct a, a2, a3. }
  destruct (bool_decide (get_arg t 1 = get_arg e 2) && _) eqn:E4; [|done].
  apply andb_true_iff in E4 as [E4%bool_decide_eq_true E5%bool_decide_eq_true].
  pose proof (means_eq _ _ _ _ _ Hu1 Hv2 E4) as ->. pose proof (means_eq _ _ _ _ _ Hu2 Hv1 E5) as ->.
  eapply means_ext; [apply build_ite; [eauto 10 using or2_ok, and2_ok, not_ok|done..]|].
  by destruct a, a2, a3.
Qed.

Lemma ite_else_ok s a u v c t e :
  is_ite e = true -> holds a c -> means I s u t -> means I s v e ->
  br_means I s (if a then u else v) (ite_else p get_id c t e).
Proof.
  intros Hie Hc Ht He. destruct (ite_parts s v e Hie He) as (a2 & v1 & v2 & Hc2 & Hv1 & Hv2 & ->).
  unfold ite_else. case_bool_decide as E1.
  { pose proof (means_eq _ _ _ _ _ Ht Hv1 E1) as ->.
    eapply means_ext; [apply build_ite; [by apply or2_ok|done..]|]. by destruct a, a2. }
  case_bool_decide as E2; [|done]. pose proof (means_eq _ _ _ _ _ Ht Hv2 E2) as ->.
  eapply means_ext; [apply build_ite; [apply or2_ok; [done|by apply not_ok]|done..]|]. by destruct a, a2.
Qed.

Lemma br_else_ok s v b k : br_means I s v b -> br_means I s v k -> br_means I s v (br_else b k).
Proof. by destruct b. Qed.

Lemma ite_rules_ok s a u v c t e :
  holds a c -> means I s u t -> means I s v e ->
  br_means I s (if a then u else v) (ite_rules p get_id c t e).
Proof.
  intros Hc Ht He. unfold ite_rules.
  destruct (is_true c) eqn:Hct; [apply is_true_spec in Hct as ->; by destruct Hc as [_ <-]|].
  destruct (is_false c) eqn:Hcf; [apply is_false_spec in Hcf as ->; by destruct Hc as [_ <-]|].
  case_bool_decide as Hte.
  { pose proof (means_eq _ _ _ _ _ Ht He Hte) as ->. by destruct a. }
  apply br_else_ok; [|apply br_else_ok].
  - destruct (is_bool t) eqn:Hb; [|done]. destruct Ht as (Hwt & Hst & <-), He as (Hwe & Hse & <-).
    destruct Hc as [Hc <-].
    assert (wfb t = true) as Hbt by (unfold wfb; by rewrite Hwt).
    pose proof Hbt as [_ Hsb]%wfb_spec. assert (wfb e = true) as Hbe by (apply wfb_spec; split; congruence).
    replace s with BoolSort by congruence. rewrite (eval_bool I t), (eval_bool I e) by done.
    pose proof (ite_bool_ok c t e Hc Hbt Hbe) as Hok. unfold br_holds in Hok.
    by destruct (tr c).
  - destruct (is_ite t) eqn:Hi; [|done]. cbn [andb]. destruct (ite_extra_rules p && _); [by apply ite_then_ok|done].
  - destruct (is_ite e) eqn:Hi; [|done]. cbn [andb]. destruct (ite_extra_rules p && _); [by apply ite_else_ok|done].
Qed.

(** A branch that tests the same condition is read under it. *)
Lemma merge_nested s a u c t :
  holds a c -> means I s u t ->
  let nested := is_ite t && bool_decide (get_arg t 0 = c) in
  exists u1 u2, means I s u1 (if nested then get_arg t 1 else t)
    /\ means I s u2 (if nested then get_arg t 2 else t)
    /\ (a = true -> u1 = u) /\ (a = false -> u2 = u).
Proof.
  intros Hc Ht. destruct (is_ite t) eqn:Hi; cbn [andb]; [|by exists u, u].
  case_bool_decide as Hn; [|by exists u, u].
  destruct (ite_parts s u t Hi Ht) as (a2 & u1 & u2 & Hc2 & Hu1 & Hu2 & ->).
  exists u1, u2. rewrite Hn in Hc2. destruct Hc as [_ Hc], Hc2 as [_ Hc2].
  assert (a2 = a) as -> by congruence. split_and!; try done; by intros ->.
Qed.

Lemma mk_ite_core_ok s a u v c t e :
  holds a c -> means I s u t -> means I s v e ->
  br_means I s (if a then u else v) (mk_ite_core p get_id c t e).
Proof.
  intros Hc Ht He. unfold mk_ite_core.
  assert (exists a' u' v' c' t' e',
    (if is_not c then (get_arg c 0, e, t) else (c, t, e)) = (c', t', e')
    /\ holds a' c' /\ means I s u' t' /\ means I s v' e'
    /\ (if a' then u' else v') = (if a then u else v)) as (a1 & u1 & v1 & c1 & t1 & e1 & -> & Hc1 & Ht1 & He1 & <-).
  { destruct (is_not c) eqn:Hn; [|by exists a, u, v, c, t, e].
    destruct Hc as [Hcw <-]. pose proof Hcw as [Hw _]%wfb_spec.
    destruct (not_inv I c Hn Hw) as (x & -> & _ & Hx & _ & ->).
    exists (tr x), v, u, x, e, t. split_and!; try done. by destruct (tr x). }
  generalize (is_not c). intros s1. clear c t e Hc Ht He.
  set (s2 := is_ite t1 && bool_decide (get_arg t1 0 = c1)).
  set (s3 := is_ite e1 && bool_decide (get_arg e1 0 = c1)).
  set (t2 := if s2 then get_arg t1 1 else t1).
  set (e2 := if s3 then get_arg e1 2 else e1).
  destruct (merge_nested s a1 u1 c1 t1 Hc1 Ht1) as (u2 & _ & Hu2 & _ & Hut & _).
  destruct (merge_nested s a1 v1 c1 e1 Hc1 He1) as (_ & v2 & _ & Hv2 & _ & Hvt).
  fold s2 t2 in Hu2. fold s3 e2 in Hv2.
  assert ((if a1 then u1 else v1) = (if a1 then u2 else v1)) as -> by (destruct a1; [by rewrite Hut|done]).
  destruct (is_ite e1 && bool_decide (get_arg e1 1 = t2)) eqn:He1t.
  { apply andb_true_iff in He1t as [Hie Ht%bool_decide_eq_true].
    destruct (ite_parts s v1 e1 Hie He1) as (a3 & w1 & w2 & Hc3 & Hw1 & Hw2 & ->).
    pose proof (means_eq _ _ _ _ _ Hw1 Hu2 Ht) as ->.
    eapply means_ext; [apply build_ite; [by apply holds_or2|done..]|]. by destruct a1, a3. }
  assert ((if a1 then u2 else v1) = (if a1 then u2 else v2)) as -> by (destruct a1; [done|by rewrite Hvt]).
  apply br_else_ok; [by apply ite_rules_ok|]. destruct (s1 || s2 || s3); [|done]. by apply build_ite.
Qed.

Lemma mk_ite_ok s a u v c t e :
  holds a c -> means I s u t -> means I s v e ->
  means I s (if a then u else v) (mk_ite p get_id c t e).
Proof. intros Hc Ht He. apply result_or_means; [by apply mk_ite_core_ok|by apply build_ite]. Qed.

(** For formulas. *)
Lemma mk_ite_holds a u v c t e :
  holds a c -> holds u t -> holds v e -> holds (if a then u else v) (mk_ite p get_id c t e).
Proof.
  intros Hc Ht He. apply means_bool in Ht, He. apply means_bool.
  eapply means_ext; [by apply mk_ite_ok|]. by destruct a.
Qed.
End Derived.

(** ** Distinct *)

Section Distinct.
Context (I : interp) (p : bool_rewriter_params) (s : sort).
Local Abbreviation eval := (eval I).
Local Abbreviation holds := (holds I).

(** The arguments of a [distinct] are well-sorted terms of one sort. *)
Local Abbreviation all_of_sort := (Forall (fun e => wf e = true /\ get_sort e = s)).
Local Abbreviation distinct args := (NoDup (map eval args)).

Lemma NoDup_snoc {A} (l : list A) x : NoDup (l ++ [x]) <-> NoDup l /\ x ∉ l.
Proof.
  rewrite NoDup_app. split.
  - intros (Hl & Hx & _). split; [done|]. intros Hin. apply (Hx x Hin). set_solver.
  - intros [Hl Hx]. split_and!; [done| |apply NoDup_singleton]. set_solver.
Qed.

Lemma not_in_values arg before :
  (forall b, b ∈ before -> eval arg <> eval b) -> eval arg ∉ map eval before.
Proof. intros Hd (b & Hb & Hin)%list_elem_of_fmap. by apply (Hd b). Qed.

Lemma differs_from_ok arg before :
  wf arg = true -> all_of_sort before ->
  match differs_from arg before with
  | None => arg ∈ before
  | Some true => eval arg ∉ map eval before
  | Some false => True
  end.
Proof.
  intros Ha Hb. induction Hb as [|b before [Hwb _] _ IH]; cbn [differs_from]; [set_solver|].
  destruct (are_distinct arg b) eqn:Hd.
  - apply (are_distinct_sound I) in Hd; [|done..]. destruct (differs_from arg before) as [[]|]; cbn; set_solver.
  - unfold are_equal. case_bool_decide; set_solver.
Qed.

Lemma distinct_loop_ok before args all_value all_diff :
  all_of_sort before -> all_of_sort args ->
  (all_value = true -> Forall (fun e => is_unique_value e = true) before) ->
  (all_diff = true -> distinct before) ->
  match distinct_loop before args all_value all_diff with
  | None => ~ distinct (before ++ args)
  | Some true => distinct (before ++ args)
  | Some false => True
  end.
Proof.
  revert before all_value all_diff. induction args as [|arg args IH]; intros before av ad Hb Ha Hv Hd.
  { cbn. rewrite app_nil_r. destruct ad; auto. }
  apply Forall_cons in Ha as [[Hwa Hsa] Ha]. cbn [distinct_loop].
  assert (arg ∈ before -> ~ distinct (before ++ arg :: args)) as Hdup.
  { intros Hin Hnd. rewrite map_app in Hnd. apply NoDup_app in Hnd as (_ & Hnd & _).
    apply (Hnd (eval arg)); [|set_solver]. apply list_elem_of_fmap. eauto. }
  case_bool_decide as Hin; [by apply Hdup|].
  assert (all_of_sort (before ++ [arg])) as Hb' by (apply Forall_app; auto).
  assert (before ++ arg :: args = (before ++ [arg]) ++ args) as Happ by by rewrite <- app_assoc.
  assert (distinct (before ++ [arg]) <-> distinct before /\ eval arg ∉ map eval before) as Hsnoc
    by (rewrite map_app; apply NoDup_snoc).
  destruct (negb (av && is_unique_value arg) && ad) eqn:Hc.
  - apply andb_true_iff in Hc as [Hav%negb_true_iff ->]. rewrite Hav.
    pose proof (differs_from_ok arg before Hwa Hb) as Hdf.
    destruct (differs_from arg before) as [ad|]; [|done]. rewrite Happ. apply IH; try done.
    intros ->. apply Hsnoc. auto.
  - rewrite Happ. apply IH; try done.
    + intros [-> Hu]%andb_true_iff. apply Forall_app. auto.
    + intros ->. rewrite andb_true_r in Hc. apply negb_false_iff, andb_true_iff in Hc as [-> Hu].
      apply Hsnoc. split; [auto|]. apply not_in_values. intros b Hbin. rewrite Forall_forall in Hv, Hb.
      destruct (Hb b Hbin) as [Hwb Hsb].
      apply unique_value_distinct; try done; [congruence|by apply Hv|by intros ->].
Qed.

Lemma diseqs_ok args :
  all_of_sort args ->
  Forall (fun e => wfb e = true) (diseqs args)
  /\ forallb (tr I) (diseqs args) = bool_decide (distinct args).
Proof.
  induction 1 as [|a args [Hw Hs] Ha [IHw IHv]]; [done|]. cbn [diseqs].
  assert (Forall (fun e => wfb e = true) (map (fun b => m_mk_not (m_mk_eq a b)) args)
    /\ forallb (tr I) (map (fun b => m_mk_not (m_mk_eq a b)) args)
       = bool_decide (eval a ∉ map eval args)) as [Hmw Hmv].
  { clear IHw IHv. induction Ha as [|b args [Hwb Hsb] _ [IHw IHv]].
    { split; [constructor|]. symmetry. apply bool_decide_eq_true. set_solver. }
    destruct (holds_not I _ _ (holds_eq I a b Hw Hwb ltac:(congruence))) as [Hwn Hvn].
    cbn [map forallb].
    split; [by constructor|]. rewrite Hvn, IHv, <- bool_decide_not, <- bool_decide_and.
    apply bool_decide_ext. set_solver. }
  split; [by apply Forall_app|]. rewrite forallb_app, Hmv, IHv, <- bool_decide_and.
  apply bool_decide_ext. cbn. by rewrite NoDup_cons.
Qed.

(** Three formulas are not pairwise different. *)
Lemma bool_pigeonhole a b c args :
  s = BoolSort -> all_of_sort (a :: b :: c :: args) -> ~ distinct (a :: b :: c :: args).
Proof.
  intros -> Hw. apply Forall_cons in Hw as [Ha Hw]. apply Forall_cons in Hw as [Hb Hw].
  apply Forall_cons in Hw as [Hc _]. apply wfb_spec in Ha, Hb, Hc. cbn.
  rewrite (eval_bool I a), (eval_bool I b), (eval_bool I c) by done.
  rewrite !NoDup_cons. destruct (truth (eval a)), (truth (eval b)), (truth (eval c)); set_solver.
Qed.

Lemma mk_distinct_core_ok args :
  all_of_sort args -> br_holds I (bool_decide (distinct args)) (mk_distinct_core p args).
Proof.
  intros Ha. unfold mk_distinct_core.
  destruct args as [|a [|b [|c args]]].
  - by apply done_holds, holds_true.
  - eapply br_ext; [by apply done_holds, holds_true|]. symmetry. apply bool_decide_eq_true, NoDup_singleton.
  - apply Forall_cons in Ha as [[Hwa Hsa] Ha]. apply Forall_cons in Ha as [[Hwb Hsb] _].
    eapply br_ext; [apply rewrite2_holds, holds_not, holds_eq; congruence|].
    rewrite <- bool_decide_not. apply bool_decide_ext. cbn. rewrite !NoDup_cons.
    split; [intros Hab; split_and!; [set_solver|set_solver|constructor]|set_solver].
  - set (args' := a :: b :: c :: args) in *.
    pose proof (distinct_loop_ok [] args' true true ltac:(constructor) Ha ltac:(done) ltac:(constructor)) as Hl.
    destruct (distinct_loop _ _ _ _) as [[]|]; cbn [app] in Hl.
    + eapply br_ext; [by apply done_holds, holds_true|]. by rewrite bool_decide_eq_true_2.
    + destruct (is_bool a) eqn:Hb.
      { eapply br_ext; [by apply done_holds, holds_false|]. symmetry.
        apply bool_decide_eq_false, bool_pigeonhole; [|done].
        apply Forall_cons in Ha as [[Hw <-] _]. apply wfb_spec. unfold wfb. by rewrite Hw. }
      destruct (blast_distinct p && _); [|done].
      destruct (diseqs_ok args' Ha) as [Hw <-]. unfold br_holds. cbn [br_means].
      apply means_bool. by apply holds_and.
    + eapply br_ext; [by apply done_holds, holds_false|]. by rewrite bool_decide_eq_false_2.
Qed.
End Distinct.

(** ** The whole rewriter *)

Section Application.
Context (I : interp) (p : bool_rewriter_params) (get_id : expr -> Z).

Lemma distinct_args args s :
  basic_sort OP_DISTINCT (map get_sort args) = Some s -> Forall (fun e => wf e = true) args ->
  s = BoolSort /\ exists t, Forall (fun e => wf e = true /\ get_sort e = t) args.
Proof.
  destruct args as [|a args]; cbn [map basic_sort]; [intros [= <-]; by split; [|exists BoolSort]|].
  destruct (all_same _ _) eqn:Hsame; [|done]. apply all_same_spec, Forall_map in Hsame.
  intros [= <-] [Hwa Ha]%Forall_cons. split; [done|]. exists (get_sort a).
  constructor; [done|]. by apply Forall_and.
Qed.

Lemma done_bool b x : holds I b x -> br_means I BoolSort (VBool b) (BR_DONE x).
Proof. apply done_holds. Qed.

(** The operators of fixed arity. *)
Lemma mk_app_core_fixed f k args :
  kind f = Basic k -> basic_sort k (map get_sort args) = Some (range f) ->
  Forall (fun e => wf e = true) args -> k = OP_EQ \/ k = OP_ITE \/ k = OP_NOT \/ k = OP_IMPLIES ->
  br_means I (range f) (default (i_decl I f (map (eval I) args)) (basic_apply k (map (eval I) args)))
    (mk_app_core p get_id f args).
Proof.
  intros Hk Hs Ha Hcases. unfold mk_app_core. rewrite Hk.
  assert (forall e, wf e = true -> get_sort e = BoolSort -> holds I (tr I e) e) as Hb
    by (intros; by apply holds_self, wfb_spec).
  destruct Hcases as [->|[->|[->| ->]]];
    destruct args as [|a [|b [|c [|]]]]; cbn [map basic_sort] in Hs;
    try done; repeat (case_match; try discriminate Hs); injection Hs as <-;
    repeat match goal with H : Forall _ (_ :: _) |- _ => apply Forall_cons in H as [? H] end;
    cbn [basic_apply map default].
  - by apply mk_eq_core_ok.
  - apply mk_ite_core_ok; [by apply Hb|done|]. by split_and!.
  - by apply mk_not_core_ok, wfb_spec.
  - apply done_bool, implies_ok; by apply Hb.
Qed.

Lemma mk_app_core_ok f args :
  wf (App f args) = true ->
  br_means I (range f) (eval I (App f args)) (mk_app_core p get_id f args).
Proof.
  intros Hw. pose proof Hw as (Hs & _ & Ha)%wf_app. unfold op_sort in Hs.
  destruct (kind f) as [k|k|] eqn:Hk; [|by unfold mk_app_core; rewrite Hk..].
  cbn [eval]. unfold decl_apply. rewrite Hk.
  destruct k; try (by apply mk_app_core_fixed; tauto); unfold mk_app_core; rewrite Hk; try done.
  - destruct (distinct_args _ _ Hs Ha) as (-> & t & Hall). by apply (mk_distinct_core_ok I p t).
  - destruct (wfb_args _ _ Hs Ha) as [-> Hall]. cbn [basic_apply default]. rewrite forallb_tr.
    by apply mk_and_core_ok.
  - destruct (wfb_args _ _ Hs Ha) as [-> Hall]. cbn [basic_apply default]. rewrite existsb_tr.
    by apply mk_or_core_ok.
  - destruct (wfb_args _ _ Hs Ha) as [-> Hall].
    destruct args as [|a [|b [|]]]; try done; cbn [map basic_apply foldr default id].
    + apply Forall_cons in Hall as [Hla _]. rewrite xorb_false_r. by apply done_bool, holds_self.
    + apply Forall_cons in Hall as [Hla [Hlb _]%Forall_cons]. rewrite xorb_false_r.
      apply done_bool, xor_ok; by apply holds_self.
Qed.

(** C16: the Boolean rewriter is correct: for every well-sorted application of
    a connective, equality, distinct or if-then-else, under every choice of
    its parameters, every numbering of the nodes and every interpretation,
    it returns a well-sorted term of the same sort and the same value. *)
Theorem mk_app_sound f args :
  wf (App f args) = true ->
  means I (get_sort (App f args)) (eval I (App f args)) (mk_app p get_id f args).
Proof. intros Hw. apply result_or_means; [by apply mk_app_core_ok|done]. Qed.
End Application.
