(* ===== verification/ExprSubstitution.v ===== *)
(** Substitutions of terms by terms (ast/expr_substitution.h, .cpp): what the
    simplifier replaces, and the assumptions every replacement depends on; and the
    substitution with scopes that undoes its insertions. Proofs are off. *)
From S2P Require Import Prelude Ast.

(** ** Substitutions *)

(** [m_subst_dep] is only kept when cores are enabled. The empty list is the
    null dependency. *)
Record expr_substitution := mk_expr_substitution {
  m_subst : list (expr * expr);
  m_subst_dep : list (expr * list expr);
  m_cores_enabled : bool
}.

Definition new_expr_substitution (core_enabled : bool) : expr_substitution := mk_expr_substitution [] [] core_enabled.

Definition es_empty (s : expr_substitution) : bool := match m_subst s with [] => true | _ => false end.
Definition es_size (s : expr_substitution) : nat := length (m_subst s).
Definition es_contains (c : expr) (s : expr_substitution) : bool :=
  match map_find (m_subst s) c with Some _ => true | None => false end.

(** A new entry, or one that replaces the old. *)
Definition es_insert (c def : expr) (def_dep : list expr) (s : expr_substitution) : expr_substitution :=
  mk_expr_substitution (map_insert (m_subst s) c def)
    (if m_cores_enabled s then map_insert (m_subst_dep s) c def_dep else m_subst_dep s) (m_cores_enabled s).

Definition es_erase (c : expr) (s : expr_substitution) : expr_substitution :=
  mk_expr_substitution (map_remove (m_subst s) c)
    (if m_cores_enabled s then map_remove (m_subst_dep s) c else m_subst_dep s) (m_cores_enabled s).

(** The replacement and its dependency. *)
Definition es_find (c : expr) (s : expr_substitution) : option (expr * list expr) :=
  def ← map_find (m_subst s) c;
  Some (def, if m_cores_enabled s then default [] (map_find (m_subst_dep s) c) else []).

(** [reset], and [cleanup], which also frees the memory. *)
Definition es_reset (s : expr_substitution) : expr_substitution :=
  mk_expr_substitution [] (if m_cores_enabled s then [] else m_subst_dep s) (m_cores_enabled s).

Lemma es_find_insert c def d s c' :
  es_find c' (es_insert c def d s)
  = if decide (c = c') then Some (def, if m_cores_enabled s then d else []) else es_find c' s.
Proof.
  unfold es_find, es_insert. cbn [m_subst m_subst_dep m_cores_enabled]. rewrite map_find_insert.
  destruct (decide (c = c')) as [Hc|Hc], (m_cores_enabled s); rewrite ?map_find_insert; try done;
    by destruct (decide (c = c')).
Qed.

Lemma es_find_erase c s c' : es_find c' (es_erase c s) = if decide (c = c') then None else es_find c' s.
Proof.
  unfold es_find, es_erase. cbn [m_subst m_subst_dep m_cores_enabled]. rewrite map_find_remove.
  destruct (decide (c = c')) as [Hc|Hc]; [done|]. destruct (m_cores_enabled s); [|done].
  rewrite map_find_remove. by destruct (decide (c = c')).
Qed.

Lemma es_find_reset c s : es_find c (es_reset s) = None.
Proof. done. Qed.

Lemma es_contains_find c s : es_contains c s = bool_decide (is_Some (es_find c s)).
Proof.
  unfold es_contains, es_find. destruct (map_find (m_subst s) c); symmetry;
    [by apply bool_decide_eq_true_2|apply bool_decide_eq_false_2]. by intros [].
Qed.

Lemma es_cores_insert c def d s : m_cores_enabled (es_insert c def d s) = m_cores_enabled s.
Proof. done. Qed.

(** ** Scopes *)

(** The trail of the inserted terms, and its lengths when the scopes began; the
    last scope is at the end. *)
Record scoped_expr_substitution := mk_scoped {
  m_sub : expr_substitution;
  m_trail : list expr;
  m_trail_lim : list nat
}.

Definition new_scoped (s : expr_substitution) : scoped_expr_substitution := mk_scoped s [] [].

(** Only what is not there is inserted. *)
Definition scoped_insert (c def : expr) (def_dep : list expr) (s : scoped_expr_substitution)
    : scoped_expr_substitution :=
  if es_contains c (m_sub s) then s
  else mk_scoped (es_insert c def def_dep (m_sub s)) (m_trail s ++ [c]) (m_trail_lim s).

Definition scoped_reset (s : scoped_expr_substitution) : scoped_expr_substitution :=
  mk_scoped (es_reset (m_sub s)) [] [].

Definition scoped_push (s : scoped_expr_substitution) : scoped_expr_substitution :=
  mk_scoped (m_sub s) (m_trail s) (m_trail_lim s ++ [length (m_trail s)]).

Definition scoped_pop (n : nat) (s : scoped_expr_substitution) : res scoped_expr_substitution :=
  if Nat.ltb 0 n then
    let new_sz := Z.of_nat (length (m_trail_lim s)) - Z.of_nat n in
    old_sz ← aget (m_trail_lim s) new_sz;
    Ok (mk_scoped (foldl (fun sub c => es_erase c sub) (m_sub s) (drop old_sz (m_trail s)))
          (take old_sz (m_trail s)) (take (Z.to_nat new_sz) (m_trail_lim s)))
  else Ok s.

Definition scope_level (s : scoped_expr_substitution) : nat := length (m_trail_lim s).

(** The overload of [find] that answers with the term itself when it has no
    replacement. *)
Definition scoped_find (e : expr) (s : scoped_expr_substitution) : expr :=
  match es_find e (m_sub s) with Some (d, _) => d | None => e end.

(** What a client may do between a [push] and its [pop]. *)
Inductive scope_op :=
  | ScopePush
  | ScopeInsert (c def : expr) (def_dep : list expr).

Definition scope_step (s : scoped_expr_substitution) (op : scope_op) : scoped_expr_substitution :=
  match op with
  | ScopePush => scoped_push s
  | ScopeInsert c def d => scoped_insert c def d s
  end.

(** The scopes that the operations open. *)
Definition opened (ops : list scope_op) : nat :=
  length (List.filter (fun op => match op with ScopePush => true | _ => false end) ops).

(** The same replacements, and the same scopes. *)
Definition same_scopes (s s' : scoped_expr_substitution) : Prop :=
  (forall c, es_find c (m_sub s') = es_find c (m_sub s)) /\ m_trail s' = m_trail s /\ m_trail_lim s' = m_trail_lim s.

(** What the operations have added to [s]. *)
Record grown (s s' : scoped_expr_substitution) (added : list expr) (lims : list nat) : Prop := mk_grown {
  grown_trail : m_trail s' = m_trail s ++ added;
  grown_lims : m_trail_lim s' = m_trail_lim s ++ lims;
  grown_new : forall c, c ∈ added -> es_find c (m_sub s) = None;
  grown_old : forall c, c ∉ added -> es_find c (m_sub s') = es_find c (m_sub s)
}.

Lemma grown_refl s : grown s s [] [].
Proof. split; [by rewrite app_nil_r..|by intros c ?%not_elem_of_nil|done]. Qed.

Lemma grown_step s s' added lims op :
  grown s s' added lims ->
  exists added' lims', grown s (scope_step s' op) added' lims' /\ exists more more',
    added' = added ++ more /\ lims' = lims ++ more' /\ length more' = opened [op]
    /\ (more' <> [] -> more' = [length (m_trail s')]).
Proof.
  intros [Ht Hl Hn Ho]. destruct op as [|c def d]; cbn [scope_step].
  - exists added, (lims ++ [length (m_trail s')]). split.
    + split; [done|cbn; by rewrite Hl, app_assoc|done|done].
    + exists [], [length (m_trail s')]. by rewrite app_nil_r.
  - unfold scoped_insert. rewrite es_contains_find. case_bool_decide as Hc.
    { exists added, lims. split; [by split|]. exists [], []. by rewrite !app_nil_r. }
    exists (added ++ [c]), lims. split; [|exists [c], []; by rewrite app_nil_r].
    assert (es_find c (m_sub s') = None) as Hc' by (destruct (es_find c (m_sub s')); [destruct Hc; eauto|done]).
    split; [cbn; by rewrite Ht, app_assoc|done| |].
    + intros c' [?|Hx%list_elem_of_singleton]%elem_of_app; [by apply Hn|]. subst c'.
      destruct (decide (c ∈ added)); [by apply Hn|]. by rewrite <- Ho.
    + intros c' [H1 H2%not_elem_of_cons]%not_elem_of_app. cbn [m_sub]. rewrite es_find_insert.
      destruct (decide (c = c')); [naive_solver|by apply Ho].
Qed.

Lemma grown_run s ops :
  exists added lims, grown s (foldl scope_step s ops) added lims /\ length lims = opened ops
    /\ match ops with
       | ScopePush :: _ => head lims = Some (length (m_trail s))
       | _ => True
       end.
Proof.
  assert (forall ops s' added lims, grown s s' added lims ->
    exists more more', grown s (foldl scope_step s' ops) (added ++ more) (lims ++ more') /\ length more' = opened ops) as Hrun.
  { clear ops. induction ops as [|op ops IH]; intros s' added lims Hg.
    { exists [], []. by rewrite !app_nil_r. }
    destruct (grown_step s s' added lims op Hg) as (a & l & Hg1 & m1 & m1' & -> & -> & Hlen & _). cbn [foldl].
    destruct (IH _ _ _ Hg1) as (m2 & m2' & Hg2 & Hlen2). exists (m1 ++ m2), (m1' ++ m2'). rewrite !app_assoc.
    split; [done|]. rewrite length_app, Hlen, Hlen2. unfold opened. cbn. by destruct op. }
  destruct ops as [|op ops]; [exists [], []; split; [apply grown_refl|done]|].
  destruct (grown_step s s [] [] op (grown_refl s)) as (a & l & Hg1 & m1 & m1' & -> & -> & Hlen & Hm).
  destruct (Hrun ops _ _ _ Hg1) as (m2 & m2' & Hg2 & Hlen2). exists (m1 ++ m2), (m1' ++ m2'). split; [done|].
  split; [rewrite length_app, Hlen, Hlen2; unfold opened; cbn; by destruct op|].
  destruct op; [|done]. destruct m1' as [|x [|]]; try done. cbn. by injection Hm as ->.
Qed.

Lemma erase_all_find l s c :
  es_find c (foldl (fun sub c => es_erase c sub) s l) = if decide (c ∈ l) then None else es_find c s.
Proof.
  revert s. induction l as [|x l IH]; intros s; cbn [foldl]; [by rewrite decide_False by apply not_elem_of_nil|].
  rewrite IH, es_find_erase. destruct (decide (c ∈ l)) as [Hc|Hc]; [by rewrite decide_True by set_solver|].
  destruct (decide (x = c)) as [->|Hx]; [by rewrite decide_True by set_solver|]. by rewrite decide_False by set_solver.
Qed.

(** Closing as many scopes as were opened restores the substitution, whatever was
    inserted in between. *)
Lemma scoped_pop_restores s ops :
  exists s', scoped_pop (S (opened ops)) (foldl scope_step (scoped_push s) ops) = Ok s' /\ same_scopes s s'.
Proof.
  destruct (grown_run s (ScopePush :: ops)) as (added & lims & [Ht Hl Hn Ho] & Hlen & Hhd).
  change (foldl scope_step s (ScopePush :: ops)) with (foldl scope_step (scoped_push s) ops) in *.
  set (s1 := foldl scope_step (scoped_push s) ops) in *. unfold opened in Hlen. cbn in Hlen. fold (opened ops) in Hlen.
  unfold scoped_pop. cbn [Nat.ltb Nat.leb]. rewrite Hl, length_app, Hlen.
  replace (Z.of_nat (length (m_trail_lim s) + S (opened ops)) - Z.of_nat (S (opened ops)))
    with (Z.of_nat (length (m_trail_lim s))) by lia.
  destruct lims as [|x lims]; [done|]. injection Hhd as ->.
  rewrite (aget_nat _ _ (length (m_trail s))) by (rewrite lookup_app_r, Nat.sub_diag by lia; done).
  cbn [mbind res_bind]. eexists. split; [done|]. rewrite Nat2Z.id, Ht. split_and!; cbn [m_sub m_trail m_trail_lim].
  - intros c. rewrite erase_all_find, drop_app_length.
    destruct (decide (c ∈ added)) as [Hc|Hc]; [by rewrite Hn|by apply Ho].
  - by rewrite take_app_length.
  - by rewrite take_app_length.
Qed.
