(* ===== verification/BvPlugin.v ===== *)
(** The bit-vector plugin (bv_decl_plugin.h, bv_decl_plugin.cpp): the
    declarations it makes, the recognisers of [bv_recognizers] and the
    constructors of [bv_util]; the numbers the rewriters compute with
    (rational.h, rational.cpp, mpz.cpp). The conversions from and to the
    integers, whose sort is another plugin's, are left out. *)
From S2P Require Import Prelude Text Ast AstSem.

(** ** Declarations *)

(** How [mk_unary], [mk_binary], [mk_pred], [mk_reduction] and [mk_comp] type an
    operator; the flag of [BinaryOp] is the one that marks it associative. *)
Inductive bv_shape := UnaryOp | BinaryOp (ac : bool) | PredOp | ReductionOp | CompOp.

Definition bv_signature (k : bv_op_kind) : option (string * bv_shape) :=
  match k with
  | OP_BNEG => Some ("bvneg", UnaryOp)
  | OP_BADD => Some ("bvadd", BinaryOp true)
  | OP_BSUB => Some ("bvsub", BinaryOp false)
  | OP_BMUL => Some ("bvmul", BinaryOp true)
  | OP_BSDIV => Some ("bvsdiv", BinaryOp false)
  | OP_BUDIV => Some ("bvudiv", BinaryOp false)
  | OP_BSREM => Some ("bvsrem", BinaryOp false)
  | OP_BUREM => Some ("bvurem", BinaryOp false)
  | OP_BSMOD => Some ("bvsmod", BinaryOp false)
  | OP_BSDIV0 => Some ("bvsdiv0", UnaryOp)
  | OP_BUDIV0 => Some ("bvudiv0", UnaryOp)
  | OP_BSREM0 => Some ("bvsrem0", UnaryOp)
  | OP_BUREM0 => Some ("bvurem0", UnaryOp)
  | OP_BSMOD0 => Some ("bvsmod0", UnaryOp)
  | OP_BSDIV_I => Some ("bvsdiv_i", BinaryOp false)
  | OP_BUDIV_I => Some ("bvudiv_i", BinaryOp false)
  | OP_BSREM_I => Some ("bvsrem_i", BinaryOp false)
  | OP_BUREM_I => Some ("bvurem_i", BinaryOp false)
  | OP_BSMOD_I => Some ("bvsmod_i", BinaryOp false)
  | OP_ULEQ => Some ("bvule", PredOp)
  | OP_SLEQ => Some ("bvsle", PredOp)
  | OP_UGEQ => Some ("bvuge", PredOp)
  | OP_SGEQ => Some ("bvsge", PredOp)
  | OP_ULT => Some ("bvult", PredOp)
  | OP_SLT => Some ("bvslt", PredOp)
  | OP_UGT => Some ("bvugt", PredOp)
  | OP_SGT => Some ("bvsgt", PredOp)
  | OP_BAND => Some ("bvand", BinaryOp true)
  | OP_BOR => Some ("bvor", BinaryOp true)
  | OP_BNOT => Some ("bvnot", UnaryOp)
  | OP_BXOR => Some ("bvxor", BinaryOp true)
  | OP_BNAND => Some ("bvnand", BinaryOp false)
  | OP_BNOR => Some ("bvnor", BinaryOp false)
  | OP_BXNOR => Some ("bvxnor", BinaryOp true)
  | OP_BREDOR => Some ("bvredor", ReductionOp)
  | OP_BREDAND => Some ("bvredand", ReductionOp)
  | OP_BCOMP => Some ("bvcomp", CompOp)
  | OP_BUMUL_NO_OVFL => Some ("bvumul_noovfl", PredOp)
  | OP_BSMUL_NO_OVFL => Some ("bvsmul_noovfl", PredOp)
  | OP_BSMUL_NO_UDFL => Some ("bvsmul_noudfl", PredOp)
  | OP_BSHL => Some ("bvshl", BinaryOp false)
  | OP_BLSHR => Some ("bvlshr", BinaryOp false)
  | OP_BASHR => Some ("bvashr", BinaryOp false)
  | OP_EXT_ROTATE_LEFT => Some ("ext_rotate_left", BinaryOp false)
  | OP_EXT_ROTATE_RIGHT => Some ("ext_rotate_right", BinaryOp false)
  | _ => None
  end%string.

(** The declaration of an operator on vectors of one width. *)
Definition uniform_decl (k : bv_op_kind) (name : string) (shape : bv_shape) (n : nat) : func_decl :=
  let s := BvSort n in
  match shape with
  | UnaryOp => mk_func_decl (SymStr name) (Bv k) [] [s] s
  | BinaryOp _ => mk_func_decl (SymStr name) (Bv k) [] [s; s] s
  | PredOp => mk_func_decl (SymStr name) (Bv k) [] [s; s] BoolSort
  | ReductionOp => mk_func_decl (SymStr name) (Bv k) [] [s] (BvSort 1)
  | CompOp => mk_func_decl (SymStr name) (Bv k) [] [s; s] (BvSort 1)
  end.

(** The arguments fit: the arity and the sorts are those of the declaration, or
    the operator is associative and all have its sort. *)
Definition uniform_fits (shape : bv_shape) (n : nat) (ss : list sort) : bool :=
  let arity := match shape with UnaryOp | ReductionOp => 1 | _ => 2 end%nat in
  (Nat.eqb (length ss) arity || match shape with BinaryOp true => true | _ => false end)
  && all_same (BvSort n) ss.

Definition bit_decl (name : string) (k : bv_op_kind) : func_decl :=
  mk_func_decl (SymStr name) (Bv k) [] [] (BvSort 1).
Definition bool3_decl (name : string) (k : bv_op_kind) : func_decl :=
  mk_func_decl (SymStr name) (Bv k) [] [BoolSort; BoolSort; BoolSort] BoolSort.

Definition mk_num_decl (ps : list parameter) (ss : list sort) : option func_decl :=
  match ps, ss with
  | [PRational v; PInt n], [] => if Nat.eqb n 0 then None else Some (bv_num_decl (v mod 2 ^ Z.of_nat n) n)
  | _, _ => None
  end.

Definition mk_bit2bool_decl (n : nat) (ps : list parameter) (ss : list sort) : option func_decl :=
  match ps, ss with
  | [PInt i], [s] =>
      if Nat.ltb i n then Some (mk_func_decl (SymStr "bit2bool") (Bv OP_BIT2BOOL) ps [s] BoolSort) else None
  | _, _ => None
  end.

Definition mk_mkbv_decl (ss : list sort) : option func_decl :=
  if all_same BoolSort ss
  then Some (mk_func_decl (SymStr "mkbv") (Bv OP_MKBV) [] ss (BvSort (length ss))) else None.

Definition get_concat_size (ss : list sort) : option nat :=
  if forallb is_bv_sort ss then Some (sum_list (map sort_bv_size ss)) else None.

Definition get_extend_size (ps : list parameter) (ss : list sort) : option nat :=
  match ps, ss with [PInt k], [BvSort n] => Some (n + k)%nat | _, _ => None end.

Definition get_extract_size (ps : list parameter) (ss : list sort) : option nat :=
  match ps, ss with
  | [PInt high; PInt low], [BvSort n] =>
      if Nat.ltb high low || Nat.leb n high then None else Some (high - low + 1)%nat
  | _, _ => None
  end.

(** A declaration with the sorts of the arguments as its domain. *)
Definition sized_decl (name : string) (k : bv_op_kind) (ps : list parameter) (ss : list sort) (n : nat)
    : func_decl := mk_func_decl (SymStr name) (Bv k) ps ss (BvSort n).

(** [mk_func_decl], for the sorts of the arguments; [None] where it throws. *)
Definition bv_mk_func_decl (k : bv_op_kind) (ps : list parameter) (ss : list sort) : option func_decl :=
  match k with
  | OP_BV_NUM => mk_num_decl ps ss
  | OP_BIT0 => Some (bit_decl "bit0" OP_BIT0)
  | OP_BIT1 => Some (bit_decl "bit1" OP_BIT1)
  | OP_CARRY => Some (bool3_decl "carry" OP_CARRY)
  | OP_XOR3 => Some (bool3_decl "xor3" OP_XOR3)
  | OP_MKBV => mk_mkbv_decl ss
  | _ =>
      match ss with
      | BvSort n :: _ =>
          match bv_signature k with
          | Some (name, shape) => if uniform_fits shape n ss then Some (uniform_decl k name shape n) else None
          | None =>
              match k with
              | OP_BIT2BOOL => mk_bit2bool_decl n ps ss
              | OP_CONCAT => r ← get_concat_size ss; Some (sized_decl "concat" k [] ss r)
              | OP_SIGN_EXT => r ← get_extend_size ps ss; Some (sized_decl "sign_extend" k ps ss r)
              | OP_ZERO_EXT => r ← get_extend_size ps ss; Some (sized_decl "zero_extend" k ps ss r)
              | OP_EXTRACT => r ← get_extract_size ps ss; Some (sized_decl "extract" k ps ss r)
              | OP_ROTATE_LEFT | OP_ROTATE_RIGHT =>
                  match ps, ss with
                  | [PInt _], [BvSort n] =>
                      Some (sized_decl (match k with OP_ROTATE_LEFT => "rotate_left" | _ => "rotate_right" end)
                              k ps ss n)
                  | _, _ => None
                  end
              | OP_REPEAT =>
                  match ps, ss with
                  | [PInt (Datatypes.S i)], [BvSort n] =>
                      Some (sized_decl "repeat" k ps ss (n * Datatypes.S i))
                  | _, _ => None
                  end
              | _ => None
              end
          end
      | _ => None
      end
  end.

(** [ast_manager::mk_app] of a kind of the family. Where the plugin throws there
    is no term: the result is an application that no sorting rule accepts. *)
Definition thrown (ss : list sort) : func_decl :=
  mk_func_decl (SymStr "exception") NullFid [] (BoolSort :: ss) BoolSort.
Definition bv_app (k : bv_op_kind) (ps : list parameter) (args : list expr) : expr :=
  let ss := map get_sort args in
  App (default (thrown ss) (bv_mk_func_decl k ps ss)) args.

(** ** Constructors *)

Definition mk_numeral (val : Z) (bv_size : nat) : expr := bv_app OP_BV_NUM [PRational val; PInt bv_size] [].
Definition mk_bv_extract (high low : nat) (n : expr) : expr := bv_app OP_EXTRACT [PInt high; PInt low] [n].
Definition mk_bv_concat (args : list expr) : expr := bv_app OP_CONCAT [] args.
Definition mk_ule (a b : expr) : expr := bv_app OP_ULEQ [] [a; b].
Definition mk_sle (a b : expr) : expr := bv_app OP_SLEQ [] [a; b].
Definition mk_bv_not (a : expr) : expr := bv_app OP_BNOT [] [a].
Definition mk_bv_or (args : list expr) : expr := bv_app OP_BOR [] args.
Definition mk_bv_xor (args : list expr) : expr := bv_app OP_BXOR [] args.

(** ** Recognisers *)

Definition is_concat (e : expr) : bool := is_app_of e (Bv OP_CONCAT).
Definition is_extract (e : expr) : bool := is_app_of e (Bv OP_EXTRACT).
Definition is_bv_add (e : expr) : bool := is_app_of e (Bv OP_BADD).
Definition is_bv_mul (e : expr) : bool := is_app_of e (Bv OP_BMUL).
Definition is_bv_or (e : expr) : bool := is_app_of e (Bv OP_BOR).
Definition is_bv_xor (e : expr) : bool := is_app_of e (Bv OP_BXOR).
Definition is_bv_not (e : expr) : bool := is_app_of e (Bv OP_BNOT).

(** A recogniser that also takes the two arguments. *)
Definition match_binary (k : bv_op_kind) (e : expr) : option (expr * expr) :=
  match e with
  | App d [a; b] => if bool_decide (kind d = Bv k) then Some (a, b) else None
  | _ => None
  end.

(** The parameters of an extraction. *)
Definition extract_params (e : expr) : nat * nat :=
  match e with
  | App d _ => match params d with PInt high :: PInt low :: _ => (high, low) | _ => (0, 0)%nat end
  | Var _ _ => (0, 0)%nat
  end.
Definition get_extract_high (e : expr) : nat := fst (extract_params e).
Definition get_extract_low (e : expr) : nat := snd (extract_params e).

(** [is_numeral], with the value and the width. *)
Definition is_numeral (e : expr) : option (Z * nat) :=
  match e with
  | App d _ =>
      if bool_decide (kind d = Bv OP_BV_NUM) then
        match params d with PRational v :: PInt n :: _ => Some (v, n) | _ => None end
      else None
  | Var _ _ => None
  end.

(** The numeral of value [p], of any width. *)
Definition numeral_is (p : Z -> nat -> bool) (e : expr) : bool :=
  match is_numeral e with Some (v, n) => p v n | None => false end.
Definition is_allone (e : expr) : bool := numeral_is (fun v n => v =? 2 ^ Z.of_nat n - 1) e.
Definition is_zero (e : expr) : bool := numeral_is (fun v _ => v =? 0) e.

(** ** Numbers *)

(** [norm]: the representative modulo [2 ^ bv_size], unsigned or signed. *)
Definition norm (val : Z) (bv_size : nat) (is_signed : bool) : Z :=
  let r := val mod 2 ^ Z.of_nat bv_size in
  if is_signed then
    let r := if 2 ^ (Z.of_nat bv_size - 1) <=? r then r - 2 ^ Z.of_nat bv_size else r in
    if r <? - 2 ^ (Z.of_nat bv_size - 1) then r + 2 ^ Z.of_nat bv_size else r
  else r.
Definition has_sign_bit (n : Z) (bv_size : nat) : bool :=
  2 ^ (Z.of_nat bv_size - 1) <=? norm n bv_size false.

(** [mpz_manager::bitwise_not], of a number below [2 ^ sz]. *)
Definition bitwise_not (sz : nat) (a : Z) : Z := Z.lnot a mod 2 ^ Z.of_nat sz.

(** [is_power_of_two], with the exponent. *)
Definition is_power_of_two (a : Z) : option nat :=
  if (0 <? a) && (a =? 2 ^ Z.log2 a) then Some (Z.to_nat (Z.log2 a)) else None.

(** [gcd] with cofactors: [tmp1] and [tmp2] are combinations of the inputs with
    coefficients [a], [b] and [nexta], [nextb]. Their product at least halves. *)
Fixpoint gcd_loop (fuel : nat) (tmp1 tmp2 a nexta b nextb : Z) : Z * Z * Z :=
  match fuel with
  | O => (tmp1, a, b)
  | Datatypes.S fuel =>
      if 0 <? tmp2 then
        let quot := Z.quot tmp1 tmp2 in
        gcd_loop fuel tmp2 (Z.rem tmp1 tmp2) nexta (a - quot * nexta) nextb (b - nextb * quot)
      else (tmp1, a, b)
  end.
Definition gcd_fuel (x y : Z) : nat := Z.to_nat (Z.log2 (x * y) + 2).

(** For positive [r1] and [r2]: the greatest common divisor and the cofactors. *)
Definition gcd_ext (r1 r2 : Z) : Z * Z * Z :=
  if r1 <? r2 then gcd_loop (gcd_fuel r2 r1) r2 r1 0 1 1 0
  else gcd_loop (gcd_fuel r1 r2) r1 r2 1 0 0 1.

Definition mult_inverse (n : Z) (num_bits : nat) : option Z :=
  if n =? 1 then Some n
  else if Z.even n then None
  else
    let '(_, x, _) := gcd_ext n (2 ^ Z.of_nat num_bits) in
    Some (if x <? 0 then x mod 2 ^ Z.of_nat num_bits else x).

(** [is_sorted] and [std::sort] with the structural order. *)
Fixpoint is_sorted (ns : list expr) : bool :=
  match ns with
  | prev :: (curr :: _) as rest => if lt curr prev then false else is_sorted rest
  | _ => true
  end.
Definition ast_le (a b : expr) : Prop := lt b a = false.
#[global] Instance ast_le_dec a b : Decision (ast_le a b).
Proof. apply bool_eq_dec. Defined.
Definition sort_exprs (l : list expr) : list expr := merge_sort ast_le l.
