(* ===== verification/BvFacts.v ===== *)
(** What the terms of the bit-vector family denote, as numbers modulo a power of
    two: the proof rules for the constructors of [BvPlugin], and what each
    recogniser tells about a well-sorted term. The rules of the bit-vector
    rewriter are proved sound with them. *)
From S2P Require Import Prelude Text Bits BlastDiv BlastShift Ast AstSem AstFacts BvPlugin.

(** ** Congruence modulo [2 ^ n] *)

Definition eqm (n : nat) (v w : Z) : Prop := v mod pow2 n = w mod pow2 n.

#[global] Instance eqm_equiv n : Equivalence (eqm n).
Proof. split; unfold eqm; [by intros v|by intros v w|intros u v w; congruence]. Qed.

#[global] Instance eqm_add n : Proper (eqm n ==> eqm n ==> eqm n) Z.add.
Proof. intros a b Hab c d Hcd. unfold eqm in *. by rewrite Z.add_mod, Hab, Hcd, <- Z.add_mod by (pose proof (pow2_pos n); lia). Qed.
#[global] Instance eqm_mul n : Proper (eqm n ==> eqm n ==> eqm n) Z.mul.
Proof. intros a b Hab c d Hcd. unfold eqm in *. by rewrite Z.mul_mod, Hab, Hcd, <- Z.mul_mod by (pose proof (pow2_pos n); lia). Qed.
#[global] Instance eqm_opp n : Proper (eqm n ==> eqm n) Z.opp.
Proof. intros a b Hab. rewrite <- (Z.mul_1_l a), <- (Z.mul_1_l b), <- !Z.mul_opp_l. by rewrite Hab. Qed.
#[global] Instance eqm_sub n : Proper (eqm n ==> eqm n ==> eqm n) Z.sub.
Proof. intros a b Hab c d Hcd. unfold Z.sub. by rewrite Hab, Hcd. Qed.

Lemma eqm_mod n v : eqm n (v mod pow2 n) v.
Proof. unfold eqm. by rewrite Zmod_mod. Qed.

Lemma eqm_small n v w : eqm n v w -> 0 <= v < pow2 n -> 0 <= w < pow2 n -> v = w.
Proof. unfold eqm. intros Hvw Hv Hw. by rewrite !Z.mod_small in Hvw by done. Qed.

Lemma eqm_diff n v w : 0 <= v < pow2 n -> 0 <= w < pow2 n -> v = w <-> eqm n (v - w) 0.
Proof.
  intros Hv Hw. split; [intros ->; by rewrite Z.sub_diag|]. intros Hd. apply (eqm_small n); [|done..].
  replace v with (w + (v - w)) by lia. rewrite Hd. by rewrite Z.add_0_r.
Qed.

Lemma eqm_pow2 n : eqm n (pow2 n) 0.
Proof. unfold eqm. rewrite Z_mod_same_full. done. Qed.

Lemma eqm_multiple n v w k : v = w + k * pow2 n -> eqm n v w.
Proof. intros ->. apply mod_eq with (k := k). done. Qed.

Lemma bits_of_eqm n v w : eqm n v w <-> bits_of n v = bits_of n w.
Proof.
  unfold eqm. rewrite <- (bits_of_mod n v), <- (bits_of_mod n w). split; [congruence|].
  intros Hb. apply (f_equal uval) in Hb. by rewrite !uval_bits_of, !Zmod_mod in Hb.
Qed.

Lemma nth_bits_of n v i : nth i (bits_of n v) false = (Z.testbit v (Z.of_nat i) && Nat.ltb i n).
Proof.
  unfold bits_of. destruct (Nat.ltb_spec i n) as [Hi|Hi].
  - rewrite andb_true_r, (nth_indep _ _ (Z.testbit v (Z.of_nat 0))) by (rewrite length_map, length_seq; done).
    rewrite (map_nth (fun i => Z.testbit v (Z.of_nat i))), seq_nth by done. done.
  - rewrite andb_false_r. apply nth_overflow. by rewrite length_map, length_seq.
Qed.

Lemma zip_bits_of (f : bool -> bool -> bool) (g : Z -> Z -> Z) n v w :
  (forall i, Z.testbit (g v w) (Z.of_nat i) = f (Z.testbit v (Z.of_nat i)) (Z.testbit w (Z.of_nat i))) ->
  zip_with f (bits_of n v) (bits_of n w) = bits_of n (g v w).
Proof.
  intros Hg. unfold bits_of. induction (seq 0 n) as [|i l IH]; [done|]. cbn. by rewrite IH, Hg.
Qed.

(** The operators applied from left to right, and the numbers they fold. *)
Class AssocOp (k : bv_op_kind) (g : Z -> Z -> Z) (u : Z) := {
  ao_fun : list bool -> list bool -> list bool;
  ao_kind : bv_assoc k = Some ao_fun;
  ao_bits n v w : ao_fun (bits_of n v) (bits_of n w) = bits_of n (g v w);
  ao_assoc a b c : g a (g b c) = g (g a b) c;
  ao_unit a : g a u = a
}.

Lemma unsigned_bits n g v w :
  (forall a b c d, eqm n a b -> eqm n c d -> eqm n (g a c) (g b d)) ->
  unsigned_op g (bits_of n v) (bits_of n w) = bits_of n (g v w).
Proof.
  intros Hg. unfold unsigned_op. rewrite bits_of_length, !uval_bits_of.
  apply bits_of_eqm, Hg; apply eqm_mod.
Qed.

#[global, refine] Instance badd_op : AssocOp OP_BADD Z.add 0 :=
  {| ao_fun := unsigned_op Z.add; ao_kind := eq_refl : bv_assoc OP_BADD = Some (unsigned_op Z.add) |}.
Proof.
  - intros. apply unsigned_bits. intros a b c d Hab Hcd. by rewrite Hab, Hcd.
  - intros. lia.
  - intros. lia.
Defined.
#[global, refine] Instance bmul_op : AssocOp OP_BMUL Z.mul 1 :=
  {| ao_fun := unsigned_op Z.mul; ao_kind := eq_refl : bv_assoc OP_BMUL = Some (unsigned_op Z.mul) |}.
Proof.
  - intros. apply unsigned_bits. intros a b c d Hab Hcd. by rewrite Hab, Hcd.
  - intros. lia.
  - intros. lia.
Defined.
#[global, refine] Instance bor_op : AssocOp OP_BOR Z.lor 0 :=
  {| ao_fun := zip_with orb; ao_kind := eq_refl : bv_assoc OP_BOR = Some (zip_with orb) |}.
Proof.
  - intros. apply zip_bits_of. intros. apply Z.lor_spec.
  - intros. by rewrite Z.lor_assoc.
  - intros. apply Z.lor_0_r.
Defined.
#[global, refine] Instance bxor_op : AssocOp OP_BXOR Z.lxor 0 :=
  {| ao_fun := zip_with xorb; ao_kind := eq_refl : bv_assoc OP_BXOR = Some (zip_with xorb) |}.
Proof.
  - intros. apply zip_bits_of. intros. apply Z.lxor_spec.
  - intros. by rewrite Z.lxor_assoc.
  - intros. apply Z.lxor_0_r.
Defined.
#[global, refine] Instance band_op : AssocOp OP_BAND Z.land (-1) :=
  {| ao_fun := zip_with andb; ao_kind := eq_refl : bv_assoc OP_BAND = Some (zip_with andb) |}.
Proof.
  - intros. apply zip_bits_of. intros. apply Z.land_spec.
  - intros. by rewrite Z.land_assoc.
  - intros. apply Z.land_m1_r.
Defined.

Section Fold.
Context {k : bv_op_kind} {g : Z -> Z -> Z} {u : Z} `{!AssocOp k g u}.

Lemma fold_left_right v vs : foldl g v vs = foldr g u (v :: vs).
Proof.
  revert v. induction vs as [|w vs IH]; intros v; cbn [foldl foldr]; [by rewrite ao_unit|].
  rewrite IH. cbn [foldr]. by rewrite ao_assoc.
Qed.

Lemma foldl_bits n v vs : foldl ao_fun (bits_of n v) (map (bits_of n) vs) = bits_of n (foldl g v vs).
Proof. revert v. induction vs as [|w vs IH]; intros v; [done|]. cbn. by rewrite ao_bits, IH. Qed.

Lemma foldr_op_app vs ws : foldr g u (vs ++ ws) = foldr g (foldr g u ws) vs.
Proof. apply foldr_app. Qed.

Lemma foldr_op_eqm n vs ws : Forall2 (eqm n) vs ws -> eqm n (foldr g u vs) (foldr g u ws).
Proof.
  induction 1 as [|v w vs ws Hvw _ IH]; [done|]. cbn. apply bits_of_eqm in Hvw, IH. apply bits_of_eqm.
  by rewrite <- !ao_bits, Hvw, IH.
Qed.

Lemma op_eqm n a b c d : eqm n a b -> eqm n c d -> eqm n (g a c) (g b d).
Proof. intros Hab%bits_of_eqm Hcd%bits_of_eqm. apply bits_of_eqm. by rewrite <- !ao_bits, Hab, Hcd. Qed.
End Fold.

(** ** Denotations *)

Section Facts.
Context (I : interp).
Local Abbreviation eval := (eval I).
Local Abbreviation tr := (tr I).
Local Abbreviation means := (means I).
Local Abbreviation holds := (holds I).

(** The values of a vector as unsigned and signed numbers. *)
Definition uv (e : expr) : Z := uval (bits (eval e)).
Definition sv (e : expr) : Z := sval (bits (eval e)).

(** A well-sorted vector of [n] bits, and one that denotes [v]. *)
Definition vec (n : nat) (e : expr) : Prop := wf e = true /\ get_sort e = BvSort n.
Definition den (n : nat) (v : Z) (e : expr) : Prop := means (BvSort n) (VBv (bits_of n v)) e.

Lemma vec_pos n e : vec n e -> (0 < n)%nat.
Proof. intros [Hw Hs]. apply wf_positive in Hw. rewrite Hs in Hw. by apply Nat.ltb_lt. Qed.

Lemma vec_size n e : vec n e -> get_bv_size e = n.
Proof. intros [_ Hs]. unfold get_bv_size. by rewrite Hs. Qed.

Lemma vec_width n m e : vec n e -> vec m e -> n = m.
Proof. intros [_ Hn] [_ Hm]. congruence. Qed.

Lemma vec_bits n e : vec n e -> eval e = VBv (bits (eval e)) /\ length (bits (eval e)) = n.
Proof. intros [Hw Hs]. by apply eval_bv. Qed.

Lemma uv_range n e : vec n e -> 0 <= uv e < pow2 n.
Proof. intros Hv. apply vec_bits in Hv as [_ <-]. apply uval_bounds. Qed.

Lemma bits_uv n e : vec n e -> bits (eval e) = bits_of n (uv e).
Proof.
  intros Hv. apply vec_bits in Hv as [_ Hl]. apply uval_inj; [by rewrite bits_of_length|].
  rewrite uval_bits_of, <- Hl. symmetry. apply uval_mod.
Qed.

Lemma den_self n e : vec n e -> den n (uv e) e.
Proof. intros Hv. split_and!; [by apply Hv..|]. rewrite <- (bits_uv n e Hv). by apply (vec_bits n). Qed.

Lemma den_vec n v e : den n v e -> vec n e.
Proof. intros (Hw & Hs & _). done. Qed.

Lemma den_uv n v e : den n v e -> uv e = v mod pow2 n.
Proof. intros (_ & _ & Hv). unfold uv. rewrite Hv. apply uval_bits_of. Qed.

Lemma den_ext n v w e : den n v e -> eqm n v w -> den n w e.
Proof. unfold den. intros Hd Hvw%bits_of_eqm. by rewrite <- Hvw. Qed.

Lemma den_eqm n v e : vec n e -> eqm n (uv e) v -> den n v e.
Proof. intros Hv. by apply den_ext, den_self. Qed.

Lemma den_uv_small n v e : den n v e -> 0 <= v < pow2 n -> uv e = v.
Proof. intros ->%den_uv Hv. by apply Z.mod_small. Qed.

Lemma den_inj n v w e : den n v e -> den n w e -> eqm n v w.
Proof. intros (_ & _ & Hv) (_ & _ & Hw). apply bits_of_eqm. congruence. Qed.

Lemma vec_eq n a b : vec n a -> vec n b -> eval a = eval b <-> uv a = uv b.
Proof.
  intros Ha Hb. split; [unfold uv; congruence|]. intros Hab.
  apply vec_bits in Ha as [Ha Hla], Hb as [Hb Hlb]. rewrite Ha, Hb. f_equal. apply uval_inj; [congruence|done].
Qed.

Lemma vec_means n e v : vec n e -> eval e = v -> means (BvSort n) v e.
Proof. by intros [Hw Hs] Hv. Qed.

Lemma means_den n v e : means (BvSort n) (VBv (bits_of n v)) e <-> den n v e.
Proof. done. Qed.

(** The signed value of the bits of a number. *)
Lemma norm_unsigned v n : norm v n false = v mod pow2 n.
Proof. done. Qed.

Lemma norm_signed v n : (0 < n)%nat -> norm v n true = sval (bits_of n v).
Proof.
  intros Hn. unfold norm, sval. rewrite bits_of_length, uval_bits_of.
  replace (2 ^ (Z.of_nat n - 1)) with (pow2 (n - 1)) by (unfold pow2; f_equal; lia).
  fold (pow2 n). pose proof (pow2_double n Hn). pose proof (pow2_pos (n - 1)).
  pose proof (Z.mod_pos_bound v (pow2 n)). destruct (msb _) eqn:Hm.
  - apply msb_uval in Hm as [_ Hm]. rewrite bits_of_length, uval_bits_of in Hm.
    destruct (Z.leb_spec (pow2 (n - 1)) (v mod pow2 n)); [|lia]. cbv zeta.
    destruct (Z.ltb_spec (v mod pow2 n - pow2 n) (- pow2 (n - 1))); lia.
  - apply msb_false_uval in Hm; [|by rewrite bits_of_length]. rewrite bits_of_length, uval_bits_of in Hm.
    destruct (Z.leb_spec (pow2 (n - 1)) (v mod pow2 n)); [lia|]. cbv zeta.
    destruct (Z.ltb_spec (v mod pow2 n) (- pow2 (n - 1))); lia.
Qed.

Lemma sv_norm n e : vec n e -> sv e = norm (uv e) n true.
Proof. intros Hv. rewrite norm_signed by (by eapply vec_pos). unfold sv. by rewrite (bits_uv n e Hv). Qed.

Lemma sv_range n e : vec n e -> - pow2 (n - 1) <= sv e < pow2 (n - 1).
Proof.
  intros Hv. pose proof (vec_pos n e Hv). apply vec_bits in Hv as [_ Hl].
  unfold sv. rewrite <- Hl. apply sval_bounds. lia.
Qed.

Lemma sv_eqm n e : vec n e -> eqm n (sv e) (uv e).
Proof. intros Hv. unfold eqm, sv, uv. apply vec_bits in Hv as [_ <-]. by rewrite sval_uval_mod, uval_mod. Qed.

Lemma norm_eqm v n s : (0 < n)%nat -> eqm n (norm v n s) v.
Proof.
  intros Hn. destruct s; [|apply eqm_mod]. rewrite norm_signed by done. unfold eqm.
  rewrite <- (uval_bits_of n v), <- sval_uval_mod, bits_of_length. done.
Qed.

Lemma norm_bounds v n : (0 < n)%nat -> - pow2 (n - 1) <= norm v n true < pow2 (n - 1).
Proof.
  intros Hn. rewrite norm_signed by done. pose proof (sval_bounds (bits_of n v)) as Hb.
  rewrite bits_of_length in Hb. by apply Hb.
Qed.

(** ** Formulas about vectors *)

Lemma vec_eq_holds n a b : vec n a -> vec n b -> holds (uv a =? uv b) (m_mk_eq a b).
Proof.
  intros Ha Hb. replace (uv a =? uv b) with (bool_decide (eval a = eval b)).
  - apply holds_eq; [by apply Ha|by apply Hb|]. destruct Ha as [_ ->], Hb as [_ ->]. done.
  - destruct (Z.eqb_spec (uv a) (uv b)) as [He|He];
      [apply bool_decide_eq_true|apply bool_decide_eq_false]; by rewrite (vec_eq n).
Qed.

Lemma den_ite n c t e :
  wfb c = true -> vec n t -> vec n e -> den n (if tr c then uv t else uv e) (m_mk_ite c t e).
Proof.
  intros Hc Ht He. pose proof (means_ite I c t e Hc) as Hm. destruct Ht as [Hwt Hst] eqn:Et, He as [Hwe Hse] eqn:Ee.
  rewrite Hst, Hse in Hm. specialize (Hm Hwt Hwe eq_refl). unfold den.
  replace (VBv _) with (if tr c then eval t else eval e); [done|].
  destruct (tr c); [rewrite <- (bits_uv n t) by done|rewrite <- (bits_uv n e) by done]; by apply (vec_bits n).
Qed.

(** ** Constructors *)

(** A declaration of the plugin whose sorting rule accepts the arguments. *)
Lemma bv_app_means k ps args d v :
  bv_mk_func_decl k ps (map get_sort args) = Some d ->
  kind d = Bv k -> params d = ps -> bv_sort d k (map get_sort args) = Some (range d) ->
  positive_width (range d) = true -> Forall (fun e => wf e = true) args ->
  bv_apply k ps (map eval args) = Some v ->
  means (range d) v (bv_app k ps args).
Proof.
  intros Hd Hk Hps Hs Hp Hw Hv. unfold bv_app. rewrite Hd. cbn [default id].
  split_and!; [|done|].
  - apply wf_app. split_and!; try done. unfold op_sort. by rewrite Hk.
  - cbn [AstSem.eval]. unfold decl_apply. by rewrite Hk, Hps, Hv.
Qed.

Lemma positive_bv n : (0 < n)%nat -> positive_width (BvSort n) = true.
Proof. intros Hn. by apply Nat.ltb_lt. Qed.

Lemma den_numeral n v : (0 < n)%nat -> den n v (mk_numeral v n).
Proof.
  intros Hn. apply (den_ext n (v mod pow2 n)); [|apply eqm_mod].
  assert (bv_mk_func_decl OP_BV_NUM [PRational v; PInt n] [] = Some (bv_num_decl (v mod pow2 n) n)) as Hd.
  { cbn. destruct (Nat.eqb_spec n 0); [lia|done]. }
  pose proof (Z.mod_pos_bound v (pow2 n) (pow2_pos n)) as [Hlo Hhi].
  unfold mk_numeral, bv_app, map. rewrite Hd. split_and!; [|done..].
  apply wf_app. split_and!; [|by apply positive_bv|constructor]. unfold op_sort. cbn.
  rewrite bool_decide_eq_true_2 by done.
  apply Z.leb_le in Hlo as ->. apply Z.ltb_lt in Hhi as ->. destruct n; [lia|done].
Qed.

Lemma vec_all_same n args : Forall (vec n) args -> all_same (BvSort n) (map get_sort args) = true.
Proof. intros Hv. apply all_same_spec, Forall_map. apply (Forall_impl _ _ _ Hv). by intros e [_ ?]. Qed.

Lemma vec_wf n args : Forall (vec n) args -> Forall (fun e => wf e = true) args.
Proof. intros Hv. apply (Forall_impl _ _ _ Hv). by intros e [? _]. Qed.

Lemma map_bits_uv n args : Forall (vec n) args -> map bits (map eval args) = map (bits_of n) (map uv args).
Proof. induction 1 as [|e args He _ IH]; [done|]. cbn [map]. by rewrite IH, (bits_uv n e He). Qed.

(** Uniform operators: the sorting rule and the meaning. *)
Lemma uniform_means k name shape s v n args :
  bv_signature k = Some (name, shape) -> is_uniform k = true ->
  uniform_fits shape n (map get_sort args) = true -> range (uniform_decl k name shape n) = s ->
  bv_uniform_sort k (map get_sort args) = Some s -> positive_width s = true ->
  (exists a rest, args = a :: rest) -> Forall (vec n) args ->
  bv_uniform k (map eval args) = Some v ->
  means s v (bv_app k [] args).
Proof.
  intros Hsig Hu Hfit Hr Hsort Hp (a & rest & ->) Hargs Hv.
  assert (get_sort a = BvSort n) as Ha by (apply Forall_cons in Hargs as [[_ Ha] _]; exact Ha).
  assert (bv_mk_func_decl k [] (map get_sort (a :: rest)) = Some (uniform_decl k name shape n)) as Hd.
  { cbn [map] in *. rewrite Ha in *. destruct k; try discriminate Hsig; cbn [bv_mk_func_decl];
      rewrite Hsig, Hfit; done. }
  rewrite <- Hr. apply bv_app_means; try done.
  - by destruct shape.
  - by destruct shape.
  - rewrite Hr, <- Hsort. by destruct k.
  - by rewrite Hr.
  - by apply vec_wf with n.
  - rewrite <- Hv. by destruct k.
Qed.

Lemma assoc_signature k f : bv_assoc k = Some f -> exists name, bv_signature k = Some (name, BinaryOp true) /\ bv_binary k = None.
Proof. destruct k; try discriminate; eexists; by split. Qed.
Lemma binary_signature k f : bv_binary k = Some f -> exists name, bv_signature k = Some (name, BinaryOp false).
Proof. destruct k; try discriminate; by eexists. Qed.
Lemma pred_signature k p : bv_pred k = Some p -> exists name, bv_signature k = Some (name, PredOp) /\ bv_binary k = None /\ bv_assoc k = None.
Proof. destruct k; try discriminate; by eexists. Qed.

Lemma assoc_means k f n args a rest :
  bv_assoc k = Some f -> args = a :: rest -> rest <> [] -> Forall (vec n) args ->
  means (BvSort n) (VBv (foldl f (bits (eval a)) (map bits (map eval rest)))) (bv_app k [] args).
Proof.
  intros Hf -> Hrest Hargs. destruct (assoc_signature k f Hf) as (name & Hsig & Hb).
  pose proof (vec_all_same _ _ Hargs) as Hall. pose proof Hargs as [Ha _]%Forall_cons.
  assert (Hpos : (0 < n)%nat) by (by eapply vec_pos).
  eapply uniform_means; try exact Hargs; try exact Hsig; [..|by exists a, rest|].
  - unfold is_uniform. by rewrite Hb, Hf.
  - unfold uniform_fits. by rewrite orb_true_r, Hall.
  - done.
  - apply Forall_cons in Hargs as [_ Hargs]. apply vec_all_same in Hargs. destruct Ha as [_ Ha].
    unfold bv_uniform_sort. cbn [map]. rewrite Ha, Hargs, Hb, Hf, length_map. by destruct rest.
  - by apply positive_bv.
  - unfold bv_uniform. rewrite Hb, Hf. done.
Qed.

Lemma binary_means k f n a b :
  bv_binary k = Some f -> vec n a -> vec n b ->
  means (BvSort n) (VBv (f (bits (eval a)) (bits (eval b)))) (bv_app k [] [a; b]).
Proof.
  intros Hf Ha Hb. destruct (binary_signature k f Hf) as (name & Hsig).
  assert (Forall (vec n) [a; b]) as Hargs by (rewrite !Forall_cons, Forall_nil; tauto).
  pose proof (vec_all_same _ _ Hargs) as Hall. assert (Hpos : (0 < n)%nat) by (by eapply vec_pos).
  eapply uniform_means; try exact Hargs; try exact Hsig; [..|by exists a, [b]|].
  - unfold is_uniform. by rewrite Hf.
  - unfold uniform_fits. by rewrite Hall.
  - done.
  - destruct Ha as [_ Ha], Hb as [_ Hb]. unfold bv_uniform_sort. cbn [map]. rewrite Ha, Hb. cbn. rewrite bool_decide_eq_true_2 by done. by rewrite Hf.
  - by apply positive_bv.
  - unfold bv_uniform. by rewrite Hf.
Qed.

Lemma pred_holds k p n a b :
  bv_pred k = Some p -> vec n a -> vec n b -> holds (p (bits (eval a)) (bits (eval b))) (bv_app k [] [a; b]).
Proof.
  intros Hf Ha Hb. destruct (pred_signature k p Hf) as (name & Hsig & Hnb & Hna). apply means_bool.
  assert (Forall (vec n) [a; b]) as Hargs by (rewrite !Forall_cons, Forall_nil; tauto).
  pose proof (vec_all_same _ _ Hargs) as Hall.
  eapply uniform_means; try exact Hargs; try exact Hsig; [..|by exists a, [b]|].
  - unfold is_uniform. by rewrite Hnb, Hna, Hf.
  - unfold uniform_fits. by rewrite Hall.
  - done.
  - destruct Ha as [_ Ha], Hb as [_ Hb]. unfold bv_uniform_sort. cbn [map]. rewrite Ha, Hb. cbn.
    rewrite bool_decide_eq_true_2 by done. by rewrite Hnb, Hna.
  - done.
  - unfold bv_uniform. by rewrite Hnb, Hna, Hf.
Qed.

Lemma mk_ule_holds n a b : vec n a -> vec n b -> holds (uv a <=? uv b) (mk_ule a b).
Proof. intros Ha Hb. exact (pred_holds OP_ULEQ _ n a b eq_refl Ha Hb). Qed.
Lemma mk_sle_holds n a b : vec n a -> vec n b -> holds (sv a <=? sv b) (mk_sle a b).
Proof. intros Ha Hb. exact (pred_holds OP_SLEQ _ n a b eq_refl Ha Hb). Qed.

(** [bvnot]. *)
Lemma negb_bits_of n v : map negb (bits_of n v) = bits_of n (- v - 1).
Proof.
  apply uval_inj; [by rewrite length_map, !bits_of_length|].
  rewrite uval_negb, !uval_bits_of, bits_of_length.
  pose proof (Z.mod_pos_bound v (pow2 n) (pow2_pos n)). symmetry.
  rewrite <- (Z.mod_small (pow2 n - 1 - v mod pow2 n) (pow2 n)) by lia.
  change (eqm n (- v - 1) (pow2 n - 1 - v mod pow2 n)). rewrite (eqm_mod n v), eqm_pow2. by replace (0 - 1 - v) with (- v - 1) by lia.
Qed.

Lemma den_not n v a : den n v a -> den n (- v - 1) (mk_bv_not a).
Proof.
  intros Ha. pose proof (den_vec _ _ _ Ha) as Hv. pose proof (vec_pos _ _ Hv) as Hn. destruct Hv as [Hw Hs].
  pose proof (bv_app_means OP_BNOT [] [a] (uniform_decl OP_BNOT "bvnot" UnaryOp n) (VBv (map negb (bits (eval a))))) as Hm.
  destruct Ha as (_ & _ & Ha). rewrite Ha in Hm. cbn [bits] in Hm. rewrite negb_bits_of in Hm.
  apply Hm; cbn [map]; rewrite ?Hs; try done.
  - cbn. by rewrite bool_decide_eq_true_2.
  - cbn. by apply Nat.ltb_lt in Hn.
  - by apply Forall_singleton.
  - cbn [bv_apply map]. rewrite Ha. cbn [bits]. by rewrite negb_bits_of.
Qed.

(** [extract]. *)
Lemma take_drop_bits_of n v lo len :
  (lo + len <= n)%nat -> take len (drop lo (bits_of n v)) = bits_of len (v / pow2 lo).
Proof.
  intros Hl. apply uval_inj; [rewrite length_take, length_drop, !bits_of_length; lia|].
  rewrite uval_take, uval_drop, !uval_bits_of.
  replace n with (lo + (n - lo))%nat by lia. rewrite pow2_add.
  pose proof (pow2_pos lo). pose proof (pow2_pos (n - lo)).
  rewrite Z.rem_mul_r, (Z.mul_comm (pow2 lo)), Z.div_add by lia.
  rewrite Z.div_small, Z.add_0_l by (apply Z.mod_pos_bound; lia).
  replace (n - lo)%nat with (len + (n - lo - len))%nat by lia. rewrite pow2_add.
  pose proof (pow2_pos len). pose proof (pow2_pos (n - lo - len)).
  rewrite Z.rem_mul_r by lia. rewrite Z.add_comm, (Z.mul_comm (pow2 len)), Z.add_comm, Z.mod_add, Zmod_mod by lia. done.
Qed.

Lemma den_extract n v hi lo a :
  den n v a -> (lo <= hi < n)%nat -> den (S hi - lo) (v / pow2 lo) (mk_bv_extract hi lo a).
Proof.
  intros Ha Hhi. pose proof (den_vec _ _ _ Ha) as [Hw Hs]. destruct Ha as (_ & _ & Ha).
  assert (S hi - lo = hi - lo + 1)%nat as He by lia.
  pose proof (bv_app_means OP_EXTRACT [PInt hi; PInt lo] [a]
    (sized_decl "extract" OP_EXTRACT [PInt hi; PInt lo] [BvSort n] (hi - lo + 1))
    (VBv (bits_of (S hi - lo) (v / pow2 lo)))) as Hm.
  cbn [range sized_decl] in Hm. rewrite <- He in Hm. apply Hm; cbn [map]; rewrite ?Hs; try done.
  - rewrite He. cbn -[Nat.ltb Nat.leb Nat.sub]. destruct (Nat.ltb_spec hi lo); [lia|]. destruct (Nat.leb_spec n hi); [lia|]. done.
  - cbn -[Nat.ltb Nat.leb Nat.sub]. destruct (Nat.leb_spec lo hi); [|lia]. destruct (Nat.ltb_spec hi n); [|lia]. done.
  - apply positive_bv. lia.
  - by apply Forall_singleton.
  - cbn [bv_apply map]. rewrite Ha. cbn [bits]. do 2 f_equal. apply take_drop_bits_of. lia.
Qed.

(** [concat], whose arguments may have any widths. *)
Definition bvec (e : expr) : Prop := vec (get_bv_size e) e.
Definition width (es : list expr) : nat := sum_list (map get_bv_size es).
Fixpoint catv (es : list expr) : Z :=
  match es with [] => 0 | e :: es => uv e * pow2 (width es) + catv es end.

Lemma vec_bvec n e : vec n e -> bvec e.
Proof. intros Hv. unfold bvec. by rewrite (vec_size n). Qed.

Lemma width_app es fs : width (es ++ fs) = (width es + width fs)%nat.
Proof. unfold width. rewrite map_app. induction (map get_bv_size es) as [|n l IH]; [done|]. cbn. lia. Qed.

Lemma catv_app es fs : catv (es ++ fs) = catv es * pow2 (width fs) + catv fs.
Proof.
  induction es as [|e es IH]; cbn [app catv]; [lia|]. rewrite IH, width_app, pow2_add. lia.
Qed.

Lemma catv_bounds es : Forall bvec es -> 0 <= catv es < pow2 (width es).
Proof.
  induction 1 as [|e es He _ IH]; [done|]. cbn [catv].
  change (width (e :: es)) with (get_bv_size e + width es)%nat. rewrite pow2_add.
  pose proof (uv_range _ _ He). pose proof (pow2_pos (width es)). nia.
Qed.

Lemma bvec_sorts es : Forall bvec es -> forallb is_bv_sort (map get_sort es) = true /\ map sort_bv_size (map get_sort es) = map get_bv_size es.
Proof. induction 1 as [|e es [_ He] _ [IH1 IH2]]; [done|]. cbn [map forallb]. by rewrite He, IH1, IH2. Qed.

Lemma bvec_wf es : Forall bvec es -> Forall (fun e => wf e = true) es.
Proof. intros Hv. apply (Forall_impl _ _ _ Hv). by intros e [? _]. Qed.

Lemma length_concat_bits es : Forall bvec es -> length (concat (rev (map bits (map eval es)))) = width es.
Proof.
  induction 1 as [|e es He _ IH]; [done|]. cbn [map rev]. rewrite concat_app, length_app, IH.
  cbn [concat]. rewrite app_nil_r. apply vec_bits in He as [_ ->].
  change (width (e :: es)) with (get_bv_size e + width es)%nat. lia.
Qed.

Lemma concat_bits es :
  Forall bvec es -> concat (rev (map bits (map eval es))) = bits_of (width es) (catv es).
Proof.
  intros Hes. apply uval_inj; [by rewrite bits_of_length, length_concat_bits|].
  rewrite uval_bits_of, (Z.mod_small (catv es)) by (by apply catv_bounds).
  induction Hes as [|e es He Hes IH]; [done|]. cbn [map rev catv].
  rewrite concat_app, uval_app, IH, length_concat_bits by done. cbn [concat]. rewrite app_nil_r.
  fold (uv e). lia.
Qed.

Lemma concat_decl_made ss :
  ss <> [] -> forallb is_bv_sort ss = true -> bv_mk_func_decl OP_CONCAT [] ss = Some (concat_decl ss).
Proof.
  destruct ss as [|s ss]; [done|]. intros _ Hss. destruct s; try discriminate Hss.
  cbn [bv_mk_func_decl bv_signature]. unfold get_concat_size. by rewrite Hss.
Qed.

Lemma den_concat es : es <> [] -> Forall bvec es -> den (width es) (catv es) (mk_bv_concat es).
Proof.
  intros Hne Hes. destruct (bvec_sorts es Hes) as [Hss Hsz].
  destruct es as [|e es]; [done|]. pose proof Hes as [He _]%Forall_cons.
  pose proof (bv_app_means OP_CONCAT [] (e :: es) (concat_decl (map get_sort (e :: es)))
    (VBv (bits_of (width (e :: es)) (catv (e :: es))))) as Hm.
  cbn [range concat_decl] in Hm. rewrite Hsz in Hm. apply Hm; try done.
  - by apply concat_decl_made.
  - cbn [bv_sort]. rewrite Hss, bool_decide_eq_true_2 by done. cbn [andb]. by rewrite Hsz.
  - apply positive_bv. apply vec_pos in He. cbn. lia.
  - by apply bvec_wf.
  - cbn [bv_apply]. by rewrite (concat_bits (e :: es)).
Qed.

(** The associative operators. *)
Section Assoc.
Context {k : bv_op_kind} {g : Z -> Z -> Z} {u : Z} `{!AssocOp k g u}.

Lemma uvs_eqm n vs args : Forall2 (den n) vs args -> Forall2 (eqm n) (map uv args) vs.
Proof.
  induction 1 as [|v e vs es Hve _ IH]; [constructor|]. cbn [map]. constructor; [|done].
  rewrite (den_uv _ _ _ Hve). apply eqm_mod.
Qed.

Lemma den_assoc n vs args :
  (2 <= length args)%nat -> Forall2 (den n) vs args -> den n (foldr g u vs) (bv_app k [] args).
Proof.
  intros Hl Hd. assert (Forall (vec n) args) as Hargs.
  { clear Hl. induction Hd as [|v e vs es He _ IH]; constructor; [by eapply den_vec|done]. }
  destruct args as [|a [|b rest]]; cbn in Hl; try lia.
  apply (den_ext n (foldr g u (map uv (a :: b :: rest)))).
  - pose proof (assoc_means k ao_fun n (a :: b :: rest) a (b :: rest) ao_kind eq_refl ltac:(done) Hargs) as Hm.
    apply Forall_cons in Hargs as [Ha Hargs]. rewrite (bits_uv n a Ha), (map_bits_uv n) in Hm by done.
    by rewrite foldl_bits, fold_left_right in Hm.
  - by apply foldr_op_eqm, uvs_eqm.
Qed.
End Assoc.

(** ** Inversion *)

Lemma bv_inv e k :
  is_app_of e (Bv k) = true -> wf e = true ->
  exists d args, e = App d args /\ kind d = Bv k
    /\ bv_sort d k (map get_sort args) = Some (range d) /\ Forall (fun x => wf x = true) args.
Proof.
  intros (d & args & -> & Hk)%is_app_of_spec. rewrite wf_app. intros (Hs & _ & Hw).
  exists d, args. unfold op_sort in Hs. by rewrite Hk in Hs.
Qed.

Lemma uniform_sort_inv k d args :
  is_uniform k = true -> bv_sort d k (map get_sort args) = Some (range d) ->
  Forall (fun x => wf x = true) args ->
  exists n a rest, args = a :: rest /\ vec n a /\ Forall (vec n) rest
    /\ match bv_binary k, bv_assoc k with
       | Some _, _ => length rest = 1%nat /\ range d = BvSort n
       | None, Some _ => rest <> [] /\ range d = BvSort n
       | None, None => length rest = 1%nat /\ range d = BoolSort
       end.
Proof.
  intros Hu Hs Hw. assert (bv_uniform_sort k (map get_sort args) = Some (range d)) as Hs'
    by (rewrite <- Hs; by destruct k).
  clear Hs. unfold bv_uniform_sort in Hs'. destruct args as [|a rest]; [done|]. cbn [map] in Hs'.
  destruct (get_sort a) as [|n|] eqn:Ha; try done. destruct (all_same _ _) eqn:Hall; [|done].
  apply all_same_spec, Forall_map in Hall. apply Forall_cons in Hw as [Hwa Hw].
  exists n, a, rest. split_and!; [done|done| |].
  - apply Forall_and. split; [done|]. exact Hall.
  - rewrite length_map in Hs'. destruct (bv_binary k); [|destruct (bv_assoc k)];
      (destruct rest as [|x [|]]; cbn in Hs'; try done); (split; [done|congruence]).
Qed.

Lemma eval_uniform_app d k args :
  kind d = Bv k -> is_uniform k = true ->
  eval (App d args) = default (i_decl I d (map eval args)) (bv_uniform k (map eval args)).
Proof. intros Hk Hu. cbn. unfold decl_apply. rewrite Hk. by destruct k. Qed.

Lemma binary_inv d args k f :
  kind d = Bv k -> bv_binary k = Some f -> wf (App d args) = true ->
  exists n a b, args = [a; b] /\ vec n a /\ vec n b /\ range d = BvSort n
    /\ eval (App d args) = VBv (f (bits (eval a)) (bits (eval b))).
Proof.
  intros Hk Hf Hw. assert (is_uniform k = true) as Hu by (unfold is_uniform; by rewrite Hf).
  destruct (bv_inv (App d args) k) as (d' & args' & [= <- <-] & _ & Hs & Hwa); [by apply bool_decide_eq_true|done|].
  destruct (uniform_sort_inv k d args Hu Hs Hwa) as (n & a & rest & -> & Ha & Hrest & Hr).
  rewrite Hf in Hr. destruct Hr as [Hl Hr]. destruct rest as [|b [|]]; try discriminate Hl.
  apply Forall_cons in Hrest as [Hb _]. exists n, a, b. split_and!; try done.
  rewrite (eval_uniform_app d k) by done. unfold bv_uniform. by rewrite Hf.
Qed.

Lemma pred_inv d args k p :
  kind d = Bv k -> bv_pred k = Some p -> wf (App d args) = true ->
  exists n a b, args = [a; b] /\ vec n a /\ vec n b /\ range d = BoolSort
    /\ eval (App d args) = VBool (p (bits (eval a)) (bits (eval b))).
Proof.
  intros Hk Hf Hw. destruct (pred_signature k p Hf) as (_ & _ & Hnb & Hna).
  assert (is_uniform k = true) as Hu by (unfold is_uniform; by rewrite Hnb, Hna, Hf).
  destruct (bv_inv (App d args) k) as (d' & args' & [= <- <-] & _ & Hs & Hwa); [by apply bool_decide_eq_true|done|].
  destruct (uniform_sort_inv k d args Hu Hs Hwa) as (n & a & rest & -> & Ha & Hrest & Hr).
  rewrite Hnb, Hna in Hr. destruct Hr as [Hl Hr]. destruct rest as [|b [|]]; try discriminate Hl.
  apply Forall_cons in Hrest as [Hb _]. exists n, a, b. split_and!; try done.
  rewrite (eval_uniform_app d k) by done. unfold bv_uniform. by rewrite Hnb, Hna, Hf.
Qed.

Lemma assoc_inv {k g u} `{!AssocOp k g u} e :
  is_app_of e (Bv k) = true -> wf e = true ->
  exists n d args, e = App d args /\ kind d = Bv k /\ vec n e /\ (2 <= length args)%nat
    /\ Forall (vec n) args /\ den n (foldr g u (map uv args)) e.
Proof.
  intros He Hw. destruct (bv_inv e k He Hw) as (d & args & -> & Hk & Hs & Hwa).
  destruct (assoc_signature k ao_fun ao_kind) as (_ & _ & Hnb).
  assert (is_uniform k = true) as Hu by (unfold is_uniform; by rewrite Hnb, ao_kind).
  destruct (uniform_sort_inv k d args Hu Hs Hwa) as (n & a & rest & -> & Ha & Hrest & Hr).
  rewrite Hnb, ao_kind in Hr. destruct Hr as [Hne Hr].
  assert (eval (App d (a :: rest)) = VBv (bits_of n (foldr g u (map uv (a :: rest))))) as Hev.
  { rewrite (eval_uniform_app d k) by done. unfold bv_uniform. rewrite Hnb, ao_kind. cbn [map default id].
    rewrite (bits_uv n a Ha), (map_bits_uv n) by done. by rewrite foldl_bits, fold_left_right. }
  exists n, d, (a :: rest). split_and!; try done.
  - destruct rest; [done|]. cbn. lia.
  - by apply Forall_cons.
Qed.

Lemma is_numeral_bv_num e v n : is_numeral e = Some (v, n) -> is_bv_num e = true.
Proof. destruct e as [|d args]; cbn; [done|]. by destruct (bool_decide _). Qed.

Lemma numeral_inv e v n :
  is_numeral e = Some (v, n) -> wf e = true ->
  e = App (bv_num_decl v n) [] /\ 0 <= v < pow2 n /\ vec n e /\ den n v e /\ uv e = v.
Proof.
  intros Hn Hw. destruct (bv_num_inv e (is_numeral_bv_num _ _ _ Hn) Hw) as (v' & n' & -> & Hv).
  cbn in Hn. injection Hn as -> ->. split_and!; try done; try lia.
  cbn. rewrite uval_bits_of. by apply Z.mod_small.
Qed.

Lemma numeral_vec e v n m : is_numeral e = Some (v, n) -> vec m e -> n = m /\ 0 <= v < pow2 m /\ uv e = v.
Proof.
  intros Hn He. destruct (numeral_inv e v n Hn (proj1 He)) as (_ & Hv & Hve & _ & Hu).
  assert (n = m) as -> by (by eapply vec_width). done.
Qed.

Lemma numeral_none e : wf e = true -> is_numeral e = None -> is_bv_num e = false.
Proof.
  intros Hw Hn. apply not_true_iff_false. intros Hb. destruct (bv_num_inv e Hb Hw) as (v & n & -> & _). done.
Qed.

Lemma numeral_eq n a b :
  vec n a -> vec n b -> is_bv_num a = true -> is_bv_num b = true -> uv a = uv b -> a = b.
Proof.
  intros Ha Hb Hna Hnb Hab. destruct (bv_num_inv a Hna (proj1 Ha)) as (v & m & -> & Hv).
  destruct (bv_num_inv b Hnb (proj1 Hb)) as (w & l & -> & Hw).
  assert (m = n) as -> by (by destruct Ha as [_ [= ->]]). assert (l = n) as -> by (by destruct Hb as [_ [= ->]]).
  unfold uv in Hab. cbn in Hab. rewrite !uval_bits_of, !Z.mod_small in Hab by done. by subst.
Qed.

Lemma not_bv_inv e :
  is_bv_not e = true -> wf e = true ->
  exists n d a, e = App d [a] /\ vec n a /\ vec n e /\ den n (- uv a - 1) e.
Proof.
  intros He Hw. destruct (bv_inv e OP_BNOT He Hw) as (d & args & -> & Hk & Hs & Hwa).
  cbn [bv_sort is_uniform is_structural bv_binary bv_assoc bv_pred] in Hs.
  destruct args as [|a [|b args]]; cbn [map] in Hs; [done| |by destruct (get_sort a)].
  destruct (get_sort a) as [|n|] eqn:Ha; try done. injection Hs as Hr.
  apply Forall_cons in Hwa as [Hwa _].
  assert (eval (App d [a]) = VBv (bits_of n (- uv a - 1))) as Hev.
  { cbn. unfold decl_apply. rewrite Hk. cbn. rewrite (bits_uv n a) by done. by rewrite negb_bits_of. }
  exists n, d, a. by split_and!.
Qed.

Lemma extract_inv e :
  is_extract e = true -> wf e = true ->
  exists n d a hi lo, e = App d [a] /\ extract_params e = (hi, lo) /\ (lo <= hi < n)%nat
    /\ vec n a /\ vec (S hi - lo) e /\ den (S hi - lo) (uv a / pow2 lo) e.
Proof.
  intros He Hw. destruct (bv_inv e OP_EXTRACT He Hw) as (d & args & -> & Hk & Hs & Hwa).
  cbn [bv_sort is_uniform is_structural bv_binary bv_assoc bv_pred] in Hs.
  destruct (params d) as [|[hi| |] [|[lo| |] [|]]] eqn:Hp; try done.
  destruct args as [|a [|]]; cbn [map] in Hs; try done; destruct (get_sort a) as [|n|] eqn:Ha; try done.
  destruct (_ && _) eqn:Hb; [|done]. apply andb_true_iff in Hb as [Hlo%Nat.leb_le Hhi%Nat.ltb_lt].
  injection Hs as Hs. apply Forall_cons in Hwa as [Hwa _].
  assert (eval (App d [a]) = VBv (bits_of (S hi - lo) (uv a / pow2 lo))) as Hev.
  { cbn [AstSem.eval map]. unfold decl_apply. rewrite Hk, Hp. cbn [bv_apply].
    rewrite (bits_uv n a) by done. cbn [default id]. f_equal. apply take_drop_bits_of. lia. }
  exists n, d, a, hi, lo. split_and!; try done. cbn. by rewrite Hp.
Qed.

Lemma concat_inv e :
  is_concat e = true -> wf e = true ->
  exists d args, e = App d args /\ args <> [] /\ Forall bvec args /\ get_bv_size e = width args
    /\ vec (width args) e /\ uv e = catv args /\ d = concat_decl (map get_sort args).
Proof.
  intros He Hw. destruct (bv_inv e OP_CONCAT He Hw) as (d & args & -> & Hk & Hs & Hwa).
  cbn [bv_sort is_uniform is_structural bv_binary bv_assoc bv_pred] in Hs.
  destruct (forallb _ _ && _) eqn:Hall; [|by destruct (params d) as [|[] [|[] []]]].
  apply andb_true_iff in Hall as [Hall Hd%bool_decide_eq_true].
  assert (Forall bvec args) as Hv.
  { clear -Hall Hwa. induction Hwa as [|a args Ha _ IH]; [done|]. cbn in Hall.
    apply andb_true_iff in Hall as [Hb Hall]. constructor; [|by apply IH].
    split; [done|]. unfold get_bv_size. by destruct (get_sort a). }
  destruct (bvec_sorts _ Hv) as [_ Hsz].
  assert (range d = BvSort (width args)) as Hr by (rewrite Hd; cbn; by rewrite Hsz).
  assert (args <> []) as Hne.
  { intros ->. apply wf_positive in Hw. cbn in Hw. rewrite Hr in Hw. done. }
  exists d, args. split_and!; try done.
  - unfold get_bv_size. cbn. by rewrite Hr.
  - assert (eval (App d args) = VBv (bits_of (width args) (catv args))) as Hev.
    { cbn. unfold decl_apply. rewrite Hk. cbn. by rewrite concat_bits. }
    unfold uv. rewrite Hev. cbn [bits]. rewrite uval_bits_of. apply Z.mod_small. by apply catv_bounds.
Qed.

Lemma match_binary_spec k e a b :
  match_binary k e = Some (a, b) -> exists d, e = App d [a; b] /\ kind d = Bv k.
Proof.
  destruct e as [|d [|x [|y []]]]; cbn; try done. case_bool_decide; [|done].
  intros [= <- <-]. by exists d.
Qed.
End Facts.

Create HintDb bv.
#[export] Hint Resolve den_vec vec_pos : bv.
