(* ===== verification/PolyRewriter.v ===== *)
(** poly_rewriter (poly_rewriter.h, poly_rewriter_def.h), the simplifier of sums
    and products, over the configuration of the bit-vectors (bv_rewriter.h,
    [bv_rewriter_core]): there are no powers, and [m_curr_sort] is the sort of
    the vectors of [sz] bits. The options hoist_mul and hoist_ite are at their
    defaults, off; [cancel_monomials] is never asked to move terms. *)
From S2P Require Import Prelude Text Ast AstSem BoolRewriter BvPlugin.

Record poly_params := {
  p_flat : bool;
  p_som : bool;
  p_som_blowup : nat;
  p_sort_sums : bool;
  p_ast_order : bool
}.

Section Poly.
Context (p : poly_params) (get_id : expr -> Z) (sz : nat).

Definition is_num (e : expr) : bool := is_bv_num e.
Definition num_val (e : expr) : Z := match is_numeral e with Some (v, _) => v | None => 0 end.

Definition normalize (c : Z) : Z := norm c sz false.

Definition mk_num (c : Z) : expr := mk_numeral c sz.

Definition mk_add_app (args : list expr) : expr :=
  match args with
  | [] => mk_num 0
  | [a] => a
  | _ => bv_app OP_BADD [] args
  end.

(** The overload for a coefficient and a term. *)
Definition mk_coeff_app (c : Z) (arg : expr) : expr :=
  if c =? 1 then arg
  else if is_zero arg then arg
  else bv_app OP_BMUL [] [mk_num c; arg].

Fixpoint mk_mul_app (args : list expr) : expr :=
  match args with
  | [] => mk_num 1
  | [a] => a
  | [_; _] => bv_app OP_BMUL [] args
  | a :: rest => if is_num a then mk_coeff_app (num_val a) (mk_mul_app rest) else bv_app OP_BMUL [] args
  end.

(** ** The order of monomials *)

Definition is_essentially_var (e : expr) : bool :=
  match e with
  | Var _ _ => true
  | App d _ => match kind d with Bv _ => false | _ => true end
  end.

Definition ordinal (e : expr) : Z :=
  if is_essentially_var e then get_id e
  else if is_bv_mul e then
    if is_num (get_arg e 0) then get_id (get_arg e 1) else get_id e
  else if is_num e then -1
  else get_id e.

Definition mon_lt (e1 e2 : expr) : bool :=
  if p_ast_order p then lt e1 e2 else ordinal e1 <? ordinal e2.
Definition mon_le (a b : expr) : Prop := mon_lt b a = false.
#[local] Instance mon_le_dec a b : Decision (mon_le a b).
Proof. apply bool_eq_dec. Defined.
Definition sort_monomials (l : list expr) : list expr := merge_sort mon_le l.

(** Every argument that is not a numeral is at least the one before it. *)
Fixpoint ordered_from (prev : option expr) (args : list expr) : bool :=
  match args with
  | [] => true
  | curr :: args =>
      if is_num curr then ordered_from prev args
      else match prev with Some q => negb (mon_lt curr q) | None => true end
           && ordered_from (Some curr) args
  end.

(** ** Products *)

Definition num_coeffs (args : list expr) : nat := length (List.filter is_num args).
Definition non_nums (args : list expr) : list expr := List.filter (fun e => negb (is_num e)) args.

(** [product_iterator_next] (util.cpp): the first counter moves first. *)
Fixpoint product_iterator_next (szs it : list nat) : bool * list nat :=
  match szs, it with
  | n :: szs, i :: it =>
      if Nat.ltb (Datatypes.S i) n then (true, Datatypes.S i :: it)
      else let '(b, it) := product_iterator_next szs it in (b, O :: it)
  | _, _ => (false, [])
  end.

(** The loop over the products of one summand of each factor; it gives up when
    there are more than [limit] of them, and so needs [limit + 2] rounds. *)
Fixpoint som_loop (fuel limit : nat) (sums : list (list expr)) (it : list nat) (sum : list expr)
    : option (list expr) :=
  match fuel with
  | O => None
  | Datatypes.S fuel =>
      if Nat.ltb limit (length sum) then None
      else
        let m_args := zip_with (fun v i => nth i v m_false) sums it in
        let sum := sum ++ [mk_mul_app m_args] in
        let '(more, it) := product_iterator_next (map length sums) it in
        if more then som_loop fuel limit sums it sum else Some sum
  end.

Definition som_of (args : list expr) : br_status :=
  let sums := map (fun arg => if is_bv_add arg then get_args arg else [arg]) args in
  let limit := (p_som_blowup p * length sums)%nat in
  match som_loop (limit + 2) limit sums (map (fun _ => O) args) [] with
  | None => BR_FAILED
  | Some sum => BR_REWRITE2 (mk_add_app sum)
  end.

(** A product of numerals and one [var]; [c] is the product of the numerals. *)
Definition mul_one_var (args : list expr) (c : Z) (var : expr) : br_status :=
  if c =? 1 then BR_DONE var
  else if is_bv_mul var then
    match get_args var with
    | [c2; x] =>
        if is_num c2 then BR_REWRITE1 (mk_coeff_app (normalize (c * num_val c2)) x) else BR_FAILED
    | _ => BR_FAILED
    end
  else if negb (is_bv_add var) then
    if Nat.eqb (length args) 2 && bool_decide (nth 1 args m_false = var) then BR_FAILED
    else BR_DONE (mk_coeff_app c var)
  else BR_REWRITE2 (mk_add_app (map (mk_coeff_app c) (get_args var))).

Definition mk_nflat_mul_core (args : list expr) : br_status :=
  let cheap :=
    match args with
    | [a; x] => is_num a && negb (num_val a =? 1) && negb (num_val a =? 0) && is_essentially_var x
    | _ => false
    end in
  if cheap then BR_FAILED
  else
    let num_args := length args in
    let num_coeffs := num_coeffs args in
    let num_add := length (List.filter is_bv_add args) in
    let c := normalize (foldl (fun c arg => if is_num arg then c * num_val arg else c) 1 args) in
    if Nat.eqb num_coeffs num_args then BR_DONE (mk_num c)
    else if c =? 0 then BR_DONE (mk_num c)
    else if Nat.eqb num_coeffs (num_args - 1) then mul_one_var args c (List.last (non_nums args) m_false)
    else if Nat.ltb 1 num_coeffs
            || (Nat.eqb num_coeffs 1 && negb (is_num (List.hd m_false args)))
    then BR_REWRITE2 (mk_coeff_app c (mk_mul_app (non_nums args)))
    else if negb (p_som p) || Nat.eqb num_add 0 then
      let ordered := ordered_from None args in
      if ordered && Nat.eqb num_coeffs 0 then BR_FAILED
      else
        let new_args := if ordered then non_nums args else sort_monomials (non_nums args) in
        BR_DONE (mk_coeff_app c (mk_mul_app new_args))
    else som_of args.

(** Nested products, at every depth. *)
Fixpoint flatten_mul (e : expr) : list expr :=
  match e with
  | App d args => if bool_decide (kind d = Bv OP_BMUL) then flat_map flatten_mul args else [e]
  | Var _ _ => [e]
  end.

Definition mk_flat_mul_core (args : list expr) : br_status :=
  let monomial :=
    match args with
    | [a; x] => is_num a && negb (is_bv_mul x && is_num (get_arg x 0))
    | _ => false
    end in
  if negb monomial && existsb is_bv_mul args then
    let flat_args := flat_map flatten_mul args in
    match mk_nflat_mul_core flat_args with
    | BR_FAILED => BR_DONE (mk_mul_app flat_args)
    | st => st
    end
  else mk_nflat_mul_core args.

(** ** Sums *)

(** [get_power_product]: the coefficient and the rest of a monomial. *)
Definition get_power_product (t : expr) : Z * expr :=
  match t with
  | App d [a; x] => if bool_decide (kind d = Bv OP_BMUL) && is_num a then (num_val a, x) else (1, t)
  | _ => (1, t)
  end.
Definition power_product (t : expr) : expr := snd (get_power_product t).

(** The entry of [coeffs] for [pp] after a loop over [args]. *)
Definition coeff_of (pp : expr) (args : list expr) : Z :=
  foldr (fun arg acc =>
    let '(a, q) := get_power_product arg in if bool_decide (q = pp) then a + acc else acc)
    0 (non_nums args).

(** The monomials with the repeated power products combined into the first of
    their occurrences; [coeff] gives the coefficients. *)
Fixpoint combine_monomials (multiple : expr -> bool) (coeff : expr -> Z) (visited : list expr)
    (args : list expr) : list expr :=
  match args with
  | [] => []
  | arg :: args =>
      let pp := power_product arg in
      if negb (multiple pp) then arg :: combine_monomials multiple coeff visited args
      else if bool_decide (pp ∈ visited) then combine_monomials multiple coeff visited args
      else
        let rest := combine_monomials multiple coeff (pp :: visited) args in
        if coeff pp =? 0 then rest else mk_coeff_app (coeff pp) pp :: rest
  end.

(** How often the power products of [args] include [pp]. *)
Definition occurrences (pp : expr) (args : list expr) : nat :=
  length (List.filter (fun q => bool_decide (q = pp)) (map power_product args)).

(** The flag [ordered] after the loop over the arguments. *)
Fixpoint sum_ordered (args : list expr) (i : nat) (ordered : bool) (prev : option expr) : bool :=
  match args with
  | [] => ordered
  | arg :: args =>
      if is_num arg then sum_ordered args (Datatypes.S i) (negb (p_sort_sums p) || Nat.eqb i 0) prev
      else if p_sort_sums p && ordered then
        let ordered := match prev with Some q => negb (mon_lt arg q) | None => true end in
        sum_ordered args (Datatypes.S i) ordered (Some arg)
      else sum_ordered args (Datatypes.S i) ordered prev
  end.

Definition sum_of_nums (args : list expr) : Z :=
  foldr (fun arg c => if is_num arg then num_val arg + c else c) 0 args.

Definition mk_nflat_add_core (args : list expr) : br_status :=
  let c := normalize (sum_of_nums args) in
  let ordered := sum_ordered args 0 true None in
  let multiple pp := Nat.ltb 1 (occurrences pp args) in
  let const := if c =? 0 then [] else [mk_num c] in
  if existsb (fun arg => multiple (power_product arg)) args then
    let monomials := combine_monomials multiple (fun pp => normalize (coeff_of pp args)) [] (non_nums args) in
    BR_DONE (mk_add_app (const ++ if p_sort_sums p then sort_monomials monomials else monomials))
  else if ordered && (Nat.eqb (num_coeffs args) 0
            || (Nat.eqb (num_coeffs args) 1 && is_num (List.hd m_false args)
                && negb (num_val (List.hd m_false args) =? 0)))
  then BR_FAILED
  else BR_DONE (mk_add_app (const ++ if ordered then non_nums args else sort_monomials (non_nums args))).

(** Nested sums, one level. *)
Definition flatten_add (args : list expr) : list expr :=
  flat_map (fun arg => if is_bv_add arg then get_args arg else [arg]) args.

Definition mk_flat_add_core (args : list expr) : br_status :=
  if existsb is_bv_add args then
    match mk_nflat_add_core (flatten_add args) with
    | BR_FAILED => BR_DONE (mk_add_app (flatten_add args))
    | st => st
    end
  else mk_nflat_add_core args.

(** ** Negation and difference *)

Definition mk_uminus (arg : expr) : br_status :=
  if is_num arg then BR_DONE (mk_num (normalize (- num_val arg)))
  else BR_REWRITE1 (mk_coeff_app (-1) arg).

Definition mk_sub (args : list expr) : br_status :=
  match args with
  | [] => BR_FAILED
  | [a] => BR_DONE a
  | a :: rest =>
      let minus_one := mk_num (-1) in
      BR_REWRITE2 (mk_add_app
        (a :: map (fun x => mk_mul_app [minus_one; x]) (List.filter (fun x => negb (is_zero x)) rest)))
  end.

(** ** Equations *)

Definition get_monomials (t : expr) : list expr := if is_bv_add t then get_args t else [t].

(** [cancel_monomials] with [move] false: the two new sides. *)
Definition cancel_monomials (lhs rhs : expr) : option (expr * expr) :=
  let ls := get_monomials lhs in
  let rs := get_monomials rhs in
  let lpps := map power_product (non_nums ls) in
  let multiple pp := bool_decide (pp ∈ lpps) && bool_decide (pp ∈ map power_product (non_nums rs)) in
  let has_multiple := existsb (fun arg => multiple (power_product arg)) (non_nums rs) in
  let num_coeffs := (num_coeffs ls + num_coeffs rs)%nat in
  let c := normalize (sum_of_nums ls - sum_of_nums rs) in
  if negb has_multiple && Nat.leb num_coeffs 1 && (Nat.eqb num_coeffs 0 || is_num rhs) then None
  else
    let new_ls := combine_monomials multiple (fun pp => coeff_of pp ls - coeff_of pp rs) [] (non_nums ls) in
    let new_rs := List.filter (fun arg => negb (multiple (power_product arg))) (non_nums rs) in
    let empty (l : list expr) := match l with [] => true | _ => false end in
    let c_at_rhs := empty new_rs || negb (empty new_ls) in
    let c := if c_at_rhs then normalize (- c) else c in
    let insert_c_lhs := negb c_at_rhs && (empty new_ls || negb (c =? 0)) in
    let insert_c_rhs := c_at_rhs && (empty new_rs || negb (c =? 0)) in
    Some (mk_add_app ((if insert_c_lhs then [mk_num c] else []) ++ new_ls),
          mk_add_app ((if insert_c_rhs then [mk_num c] else []) ++ new_rs)).
End Poly.

(** [mk_add_core] and [mk_mul_core]. *)
Section Cores.
Context (p : poly_params) (get_id : expr -> Z).

Definition mk_mul_core (args : list expr) : br_status :=
  match args with
  | [] => BR_FAILED
  | [a] => BR_DONE a
  | a :: _ =>
      let sz := get_bv_size a in
      if p_flat p then mk_flat_mul_core p get_id sz args else mk_nflat_mul_core p get_id sz args
  end.

Definition mk_add_core (args : list expr) : br_status :=
  match args with
  | [] => BR_FAILED
  | [a] => BR_DONE a
  | a :: _ =>
      let sz := get_bv_size a in
      if p_flat p then mk_flat_add_core p get_id sz args else mk_nflat_add_core p get_id sz args
  end.
End Cores.

(** The defaults of poly_rewriter_params.pyg; [bv_sort_ac] is off. *)
Definition default_poly_params : poly_params :=
  {| p_flat := true; p_som := false; p_som_blowup := 10; p_sort_sums := false; p_ast_order := true |}.
