(* ===== verification/PolyRewriterOk.v ===== *)
(** The simplifier of sums and products is correct: each result denotes the sum,
    product, difference or negation it stands for, modulo the size of the
    vectors; and cancelling monomials keeps the solutions of an equation. *)
From S2P Require Import Prelude Text Bits Ast AstSem AstFacts BoolRewriter BoolRewriterOk BvPlugin BvFacts PolyRewriter.

(** ** Sums and products of numbers *)

Definition sumZ : list Z -> Z := foldr Z.add 0.
Definition prodZ : list Z -> Z := foldr Z.mul 1.

Lemma sumZ_concat l k : sumZ (l ++ k) = sumZ l + sumZ k.
Proof. induction l as [|x l IH]; [done|]. cbn in *. lia. Qed.

Lemma prodZ_app l k : prodZ (l ++ k) = prodZ l * prodZ k.
Proof. induction l as [|x l IH]; [cbn; lia|]. cbn in *. rewrite IH. lia. Qed.

Lemma sumZ_perm l k : l ≡ₚ k -> sumZ l = sumZ k.
Proof. induction 1; cbn in *; lia. Qed.

Lemma prodZ_perm l k : l ≡ₚ k -> prodZ l = prodZ k.
Proof. induction 1; cbn in *; lia. Qed.

Lemma sumZ_scale {A} (f : A -> Z) c l : sumZ (map (fun x => c * f x) l) = c * sumZ (map f l).
Proof. induction l as [|x l IH]; cbn in *; lia. Qed.

Section Poly.
Context (I : interp) (p : poly_params) (get_id : expr -> Z) (n : nat) (n_pos : (0 < n)%nat).
Local Abbreviation vec := (vec n).
Local Abbreviation den := (den I n).
Local Abbreviation uv := (uv I).

(** [b], if it is a result, denotes [v]. *)
Definition br_den (v : Z) (b : br_status) : Prop := br_means I (BvSort n) (VBv (bits_of n v)) b.

Lemma br_den_ext v w b : br_den v b -> eqm n v w -> br_den w b.
Proof. unfold br_den. intros Hb Hvw%bits_of_eqm. by rewrite <- Hvw. Qed.

Lemma den_nums v : den v (mk_num n v).
Proof. by apply den_numeral. Qed.

Lemma is_num_inv e : is_num e = true -> vec e -> is_numeral e = Some (uv e, n) /\ num_val e = uv e.
Proof.
  intros Hn He. destruct (bv_num_inv e Hn (proj1 He)) as (v & m & -> & Hv).
  assert (is_numeral (App (bv_num_decl v m) []) = Some (v, m)) as Hnum by done.
  destruct (numeral_vec I _ _ _ _ Hnum He) as (-> & _ & Hu). unfold num_val. by rewrite Hnum, Hu.
Qed.

Lemma is_zero_inv e : is_zero e = true -> vec e -> uv e = 0.
Proof.
  unfold is_zero, numeral_is. destruct (is_numeral e) as [[v m]|] eqn:Hn; [|done].
  intros ->%Z.eqb_eq He. by apply (numeral_vec I e 0 m n).
Qed.

Lemma normalize_eqm c : eqm n (normalize n c) c.
Proof. apply eqm_mod. Qed.

(** ** Building sums and products *)

Lemma den_sum args : Forall vec args -> den (sumZ (map uv args)) (mk_add_app n args).
Proof.
  intros Hargs. destruct args as [|a [|b args]]; [apply den_nums| |].
  - apply Forall_cons in Hargs as [Ha _]. cbn. rewrite Z.add_0_r. by apply den_self.
  - apply (den_assoc I); [cbn; lia|]. clear -Hargs.
    induction Hargs; constructor; [by apply den_self|done].
Qed.

Lemma den_list_vec vs args : Forall2 den vs args -> Forall vec args.
Proof. induction 1; constructor; [by eapply den_vec|done]. Qed.

Lemma sum_den vs args : Forall2 den vs args -> den (sumZ vs) (mk_add_app n args).
Proof.
  intros Hd. eapply den_ext; [apply den_sum; by eapply den_list_vec|].
  by apply foldr_op_eqm, uvs_eqm.
Qed.

Lemma den_coeff c v x : den v x -> den (c * v) (mk_coeff_app n c x).
Proof.
  intros Hx. unfold mk_coeff_app. destruct (Z.eqb_spec c 1) as [->|Hc]; [by rewrite Z.mul_1_l|].
  destruct (is_zero x) eqn:Hz.
  - apply is_zero_inv in Hz; [|by eapply den_vec]. rewrite (den_uv I _ _ _ Hx) in Hz.
    eapply den_ext; [exact Hx|]. assert (eqm n v 0) as -> by (unfold eqm; by rewrite Hz). by rewrite Z.mul_0_r.
  - rewrite <- (Z.mul_1_r v). apply (den_assoc I (g := Z.mul) (u := 1) n [c; v]); [done|].
    constructor; [apply den_nums|]. by constructor.
Qed.

Lemma den_prod args : Forall vec args -> den (prodZ (map uv args)) (mk_mul_app n args).
Proof.
  induction args as [|a args IH]; intros Hargs; [apply den_nums|].
  apply Forall_cons in Hargs as [Ha Hargs]. specialize (IH Hargs).
  destruct args as [|b [|c args]].
  - cbn. rewrite Z.mul_1_r. by apply den_self.
  - apply (den_assoc I (g := Z.mul) (u := 1) n [uv a; uv b]); [done|].
    apply Forall_cons in Hargs as [Hb _]. constructor; [by apply den_self|]. constructor; [by apply den_self|constructor].
  - cbn [mk_mul_app]. destruct (is_num a) eqn:Hn.
    + apply is_num_inv in Hn as [_ ->]; [|done]. by apply den_coeff.
    + apply (den_assoc I (g := Z.mul) (u := 1) n (map uv (a :: b :: c :: args))); [cbn; lia|].
      assert (Forall vec (a :: b :: c :: args)) as Hall by (by apply Forall_cons).
      clear -Hall. induction Hall; constructor; [by apply den_self|done].
Qed.

(** ** Splitting the arguments *)

Lemma non_nums_cons a args : non_nums (a :: args) = if is_num a then non_nums args else a :: non_nums args.
Proof. unfold non_nums. cbn. by destruct (is_num a). Qed.

Lemma non_nums_vec args : Forall vec args -> Forall vec (non_nums args).
Proof.
  induction 1 as [|a args Ha _ IH]; [constructor|]. rewrite non_nums_cons.
  destruct (is_num a); [done|by constructor].
Qed.

Lemma sum_split args :
  Forall vec args -> sumZ (map uv args) = sum_of_nums args + sumZ (map uv (non_nums args)).
Proof.
  unfold sumZ, sum_of_nums. induction 1 as [|a args Ha _ IH]; [done|]. rewrite non_nums_cons. cbn [map foldr].
  destruct (is_num a) eqn:Hn; cbn [map foldr]; rewrite IH; [|lia]. apply is_num_inv in Hn as [_ ->]; [lia|done].
Qed.

Lemma prod_split args c :
  Forall vec args ->
  c * prodZ (map uv args)
  = foldl (fun c arg => if is_num arg then c * num_val arg else c) c args * prodZ (map uv (non_nums args)).
Proof.
  unfold prodZ. intros Hargs. revert c. induction Hargs as [|a args Ha _ IH]; intros c; [done|].
  rewrite non_nums_cons. cbn [map foldr foldl]. destruct (is_num a) eqn:Hn; cbn [map foldr].
  - rewrite <- IH. apply is_num_inv in Hn as [_ ->]; [lia|done].
  - rewrite Z.mul_shuffle3, IH. apply Z.mul_shuffle3.
Qed.

Lemma num_coeffs_length args : (num_coeffs args + length (non_nums args) = length args)%nat.
Proof.
  unfold num_coeffs. induction args as [|a args IH]; [done|]. rewrite non_nums_cons. cbn [List.filter].
  destruct (is_num a); cbn [length]; lia.
Qed.

Lemma sort_perm l : sort_monomials p get_id l ≡ₚ l.
Proof. apply merge_sort_Permutation. Qed.

Lemma forall_perm (P : expr -> Prop) l k : l ≡ₚ k -> Forall P k -> Forall P l.
Proof. by intros ->. Qed.

Lemma map_perm {A B} (f : A -> B) l k : l ≡ₚ k -> map f l ≡ₚ map f k.
Proof. apply fmap_Permutation. Qed.

(** ** Products *)

(** A product that was recognised. *)
Lemma mul_inv_args e : is_bv_mul e = true -> vec e -> Forall vec (get_args e) /\ den (prodZ (map uv (get_args e))) e.
Proof.
  intros Hm He. destruct (assoc_inv I e Hm (proj1 He)) as (m & d & args & -> & _ & Hv & _ & Hargs & Hd).
  assert (m = n) as -> by (by eapply vec_width). done.
Qed.

Lemma add_inv_args e :
  is_bv_add e = true -> vec e ->
  Forall vec (get_args e) /\ den (sumZ (map uv (get_args e))) e /\ (2 <= length (get_args e))%nat.
Proof.
  intros Hm He. destruct (assoc_inv I e Hm (proj1 He)) as (m & d & args & -> & _ & Hv & Hl & Hargs & Hd).
  assert (m = n) as -> by (by eapply vec_width). done.
Qed.

Lemma den_value v e : vec e -> den v e -> eqm n (uv e) v.
Proof. intros He Hd. rewrite (den_uv I _ _ _ Hd). apply eqm_mod. Qed.

Lemma done_den v e : den v e -> br_den v (BR_DONE e).
Proof. done. Qed.

Lemma mul_one_var_ok args c var : vec var -> br_den (c * uv var) (mul_one_var n args c var).
Proof.
  intros Hv. unfold mul_one_var. pose proof (den_self I n var Hv) as Hd.
  destruct (Z.eqb_spec c 1) as [->|Hc]; [by rewrite Z.mul_1_l|].
  destruct (is_bv_mul var) eqn:Hm.
  - destruct (mul_inv_args var Hm Hv) as [Hargs Hval]. destruct (get_args var) as [|c2 [|x [|]]]; try done.
    destruct (is_num c2) eqn:Hn; [|done]. apply Forall_cons in Hargs as [Hc2 [Hx _]%Forall_cons].
    apply is_num_inv in Hn as [_ ->]; [|done]. apply den_value in Hval; [|done].
    eapply br_den_ext; [apply den_coeff; by apply den_self|].
    rewrite Hval, normalize_eqm. cbn. by rewrite Z.mul_1_r, Z.mul_assoc.
  - destruct (is_bv_add var) eqn:Ha; cbn [negb].
    + destruct (add_inv_args var Ha Hv) as (Hargs & Hval & _). apply den_value in Hval; [|done].
      eapply br_den_ext; [apply (sum_den (map (fun x => c * uv x) (get_args var)))|].
      * clear -Hargs n_pos. induction Hargs; constructor; [by apply den_coeff, den_self|done].
      * by rewrite sumZ_scale, Hval.
    + destruct (_ && _); [done|]. by apply den_coeff.
Qed.

(** The sums of products. *)
Definition sums_of (sums : list (list expr)) : list (list Z) := map (map uv) sums.
Definition at_counters (sums : list (list Z)) (it : list nat) : Z :=
  prodZ (zip_with (fun v i => nth i v 0) sums it).

(** What is left of the product of the sums when the counters are at [it]. *)
Fixpoint rest_from (sums : list (list Z)) (it : list nat) : Z :=
  match sums, it with
  | l :: sums, i :: it =>
      sumZ (drop i l) * at_counters sums it + sumZ l * (rest_from sums it - at_counters sums it)
  | _, _ => 1
  end.

Definition in_range (sums : list (list Z)) (it : list nat) : Prop :=
  Forall2 (fun l i => (i < length l)%nat) sums it.

Lemma sumZ_drop l i : (i < length l)%nat -> sumZ (drop i l) = nth i l 0 + sumZ (drop (S i) l).
Proof.
  revert i. induction l as [|x l IH]; intros [|i] Hi; cbn in Hi; try lia; [done|]. apply IH. lia.
Qed.

Lemma at_counters_cons l sums i it : at_counters (l :: sums) (i :: it) = nth i l 0 * at_counters sums it.
Proof. done. Qed.

Lemma product_iterator_next_ok sums it :
  in_range sums it ->
  let '(more, it') := product_iterator_next (map length sums) it in
  in_range sums it'
  /\ rest_from sums it = at_counters sums it + (if more then rest_from sums it' else 0).
Proof.
  induction 1 as [|l i sums it Hi Hr IH]; [split; [constructor|done]|]. cbn [map product_iterator_next].
  destruct (Nat.ltb_spec (S i) (length l)) as [Hl|Hl].
  - split; [by constructor|]. cbn [rest_from]. rewrite at_counters_cons, (sumZ_drop l i Hi). lia.
  - destruct (product_iterator_next _ it) as [more it']. destruct IH as [Hr' IH]. split.
    + constructor; [lia|done].
    + cbn [rest_from]. rewrite at_counters_cons, (sumZ_drop l i Hi), (drop_ge l) by lia.
      rewrite drop_0. destruct more; rewrite IH; cbn [sumZ foldr]; lia.
Qed.

Lemma rest_from_start sums :
  Forall (fun l => l <> []) sums -> rest_from sums (map (fun _ => O) sums) = prodZ (map sumZ sums).
Proof.
  induction 1 as [|l sums _ _ IH]; [done|]. cbn [map rest_from prodZ foldr]. rewrite drop_0, IH. unfold prodZ. lia.
Qed.

Lemma picked_vec sums it :
  Forall (Forall vec) sums -> in_range (sums_of sums) it ->
  Forall vec (zip_with (fun v i => nth i v m_false) sums it)
  /\ map uv (zip_with (fun v i => nth i v m_false) sums it) = zip_with (fun v i => nth i v 0) (sums_of sums) it.
Proof.
  intros Hs. revert it. induction Hs as [|l sums Hl _ IH]; intros it Hr.
  { apply Forall2_nil_inv_l in Hr as ->. done. }
  cbn in Hr. apply Forall2_cons_inv_l in Hr as (i & it' & Hi & Hr & ->). rewrite length_map in Hi.
  destruct (IH it' Hr) as [IHv IHu]. cbn. split.
  - constructor; [|done]. rewrite Forall_forall in Hl. apply Hl. by apply list_elem_of_In, nth_In.
  - rewrite IHu. f_equal. rewrite (nth_indep _ 0 (uv m_false)) by (by rewrite length_map). by rewrite map_nth.
Qed.

Lemma som_loop_ok fuel limit sums it sum vs r :
  Forall (Forall vec) sums -> in_range (sums_of sums) it -> Forall2 den vs sum ->
  som_loop n fuel limit sums it sum = Some r ->
  exists ws, Forall2 den ws r /\ sumZ ws = sumZ vs + rest_from (sums_of sums) it.
Proof.
  intros Hs. revert it sum vs. induction fuel as [|fuel IH]; intros it sum vs Hr Hsum; [done|].
  cbn [som_loop]. destruct (Nat.ltb limit (length sum)); [done|].
  pose proof (product_iterator_next_ok _ _ Hr) as Hnext.
  assert (map length (sums_of sums) = map length sums) as Hl.
  { unfold sums_of. rewrite map_map. apply map_ext. intros l. apply length_map. }
  rewrite Hl in Hnext. destruct (picked_vec sums it Hs Hr) as [Hv Hu].
  destruct (product_iterator_next _ it) as [more it']. destruct Hnext as [Hr' Hrest].
  set (v := at_counters (sums_of sums) it) in *.
  assert (Forall2 den (vs ++ [v]) (sum ++ [mk_mul_app n (zip_with (fun v i => nth i v m_false) sums it)])) as Hsum'.
  { apply Forall2_app; [done|]. constructor; [|constructor]. unfold v, at_counters. rewrite <- Hu. by apply den_prod. }
  destruct more; [intros Hloop|intros [= <-]].
  - destruct (IH it' _ _ Hr' Hsum' Hloop) as (ws & Hws & Hval). exists ws. split; [done|].
    rewrite Hval, sumZ_concat, Hrest. cbn. lia.
  - exists (vs ++ [v]). split; [done|]. rewrite sumZ_concat, Hrest. cbn. lia.
Qed.

Lemma som_of_ok args : Forall vec args -> br_den (prodZ (map uv args)) (som_of p n args).
Proof.
  intros Hargs. unfold som_of.
  set (sums := map (fun arg => if is_bv_add arg then get_args arg else [arg]) args).
  assert (Forall (fun l => l <> []) (sums_of sums) /\ Forall (Forall vec) sums
    /\ eqm n (prodZ (map uv args)) (prodZ (map sumZ (sums_of sums)))
    /\ map (fun _ => O) args = map (fun _ => O) (sums_of sums)) as (Hne & Hv & Hval & ->).
  { unfold sums, prodZ. clear sums. induction Hargs as [|a args Ha _ (IH1 & IH2 & IH3 & IH4)]; [by split_and!|].
    cbn [map sums_of foldr]. destruct (is_bv_add a) eqn:Hadd.
    - destruct (add_inv_args a Hadd Ha) as (Hs & Hd & Hl). apply den_value in Hd; [|done]. split_and!.
      + constructor; [|done]. destruct (get_args a); [cbn in Hl; lia|done].
      + by constructor.
      + by rewrite Hd, IH3.
      + by rewrite IH4.
    - split_and!; [by constructor| | |by rewrite IH4].
      { constructor; [|done]. by apply Forall_cons_2, Forall_nil_2. }
      rewrite IH3. cbn. by rewrite Z.add_0_r. }
  destruct (som_loop _ _ _ _ _ _) as [sum|] eqn:Hloop; [|done].
  assert (in_range (sums_of sums) (map (fun _ => O) (sums_of sums))) as Hr.
  { clear -Hne. induction Hne as [|l ls Hl _ IH]; constructor; [destruct l; [done|cbn; lia]|done]. }
  edestruct som_loop_ok as (ws & Hws & Hsum); [exact Hv|exact Hr|apply Forall2_nil_2|exact Hloop|].
  eapply br_den_ext; [by apply sum_den|]. by rewrite Hsum, rest_from_start, Hval.
Qed.

Lemma non_nums_one args :
  num_coeffs args = (length args - 1)%nat -> length args <> num_coeffs args ->
  non_nums args = [List.last (non_nums args) m_false].
Proof.
  intros Hc Hne. pose proof (num_coeffs_length args) as Hl.
  destruct (non_nums args) as [|x [|y l]]; cbn in Hl; [lia|done|lia].
Qed.

Lemma mk_nflat_mul_core_ok args :
  Forall vec args -> br_den (prodZ (map uv args)) (mk_nflat_mul_core p get_id n args).
Proof.
  intros Hargs. unfold mk_nflat_mul_core. destruct (match args with [a; x] => _ | _ => _ end); [done|].
  pose proof (prod_split args 1 Hargs) as Hprod. rewrite Z.mul_1_l in Hprod.
  set (F := foldl _ 1 args) in *. pose proof (normalize_eqm F) as Hc. set (c := normalize n F) in *.
  pose proof (non_nums_vec args Hargs) as Hv.
  assert (eqm n (prodZ (map uv args)) (c * prodZ (map uv (non_nums args)))) as Hval by (by rewrite Hc, Hprod).
  clearbody c. clear Hprod Hc. pose proof (num_coeffs_length args) as Hl.
  destruct (Nat.eqb_spec (num_coeffs args) (length args)) as [He|He].
  { destruct (non_nums args); [|cbn in Hl; lia].
    eapply br_den_ext; [apply den_nums|]. rewrite Hval. by rewrite Z.mul_1_r. }
  destruct (Z.eqb_spec c 0) as [->|Hc0]; [eapply br_den_ext; [apply den_nums|by rewrite Hval]|].
  destruct (Nat.eqb_spec (num_coeffs args) (length args - 1)) as [H1|H1].
  { rewrite (non_nums_one args) in Hv, Hval by (done || lia). apply Forall_cons in Hv as [Hv _].
    eapply br_den_ext; [by apply mul_one_var_ok|]. rewrite Hval. cbn. by rewrite Z.mul_1_r. }
  destruct (_ || _).
  { eapply br_den_ext; [|by symmetry]. by apply den_coeff, den_prod. }
  destruct (_ || _); [|by apply som_of_ok].
  destruct (_ && _); [done|]. eapply br_den_ext; [|by symmetry].
  apply den_coeff. destruct (ordered_from _ _ _ _); [by apply den_prod|].
  rewrite <- (prodZ_perm _ _ (map_perm uv _ _ (sort_perm (non_nums args)))).
  apply den_prod. eapply forall_perm; [apply sort_perm|done].
Qed.

Lemma flatten_mul_ok e : vec e -> Forall vec (flatten_mul e) /\ eqm n (prodZ (map uv (flatten_mul e))) (uv e).
Proof.
  induction e as [i s|d args IH] using expr_induction; intros He.
  { cbn. rewrite Z.mul_1_r. split; [by apply Forall_cons_2, Forall_nil_2|done]. }
  cbn [flatten_mul]. case_bool_decide as Hk.
  2: { cbn [map prodZ foldr]. rewrite Z.mul_1_r. split; [by apply Forall_cons_2, Forall_nil_2|done]. }
  destruct (mul_inv_args (App d args)) as [Hargs Hd]; [by apply bool_decide_eq_true|done|].
  cbn [get_args] in *. apply den_value in Hd; [|done]. rewrite Hd. clear Hd He Hk.
  induction Hargs as [|a args Ha _ IHargs]; [by split|].
  apply Forall_cons in IH as [IHa IH]. destruct (IHa Ha) as [IHv IHval], (IHargs IH) as [IHvs IHvals].
  cbn [flat_map map]. split; [by apply Forall_app|]. by rewrite map_app, prodZ_app, IHval, IHvals.
Qed.

Lemma flatten_muls_ok args :
  Forall vec args ->
  Forall vec (flat_map flatten_mul args) /\ eqm n (prodZ (map uv (flat_map flatten_mul args))) (prodZ (map uv args)).
Proof.
  induction 1 as [|a args Ha _ [IHv IH]]; [by split|]. destruct (flatten_mul_ok a Ha) as [Hv Hval].
  cbn [flat_map map]. split; [by apply Forall_app|]. by rewrite map_app, prodZ_app, Hval, IH.
Qed.

Lemma mk_flat_mul_core_ok args :
  Forall vec args -> br_den (prodZ (map uv args)) (mk_flat_mul_core p get_id n args).
Proof.
  intros Hargs. unfold mk_flat_mul_core. destruct (_ && _); [|by apply mk_nflat_mul_core_ok].
  destruct (flatten_muls_ok args Hargs) as [Hv Hval].
  eapply br_den_ext; [|exact Hval]. pose proof (mk_nflat_mul_core_ok _ Hv) as Hok.
  destruct (mk_nflat_mul_core _ _ _ _); try exact Hok. by apply den_prod.
Qed.

(** ** Sums *)

Lemma power_product_ok t :
  vec t -> let '(a, x) := get_power_product t in vec x /\ eqm n (uv t) (a * uv x).
Proof.
  intros Ht. assert (vec t /\ eqm n (uv t) (1 * uv t)) as Hself by (by rewrite Z.mul_1_l).
  destruct t as [|d [|a [|x [|]]]]; try exact Hself. cbn [get_power_product].
  destruct (_ && _) eqn:Hm; [|exact Hself]. apply andb_true_iff in Hm as [Hk Hn].
  destruct (mul_inv_args (App d [a; x]) Hk Ht) as [Hargs Hd]. apply den_value in Hd; [|done].
  apply Forall_cons in Hargs as [Ha [Hx _]%Forall_cons]. apply is_num_inv in Hn as [_ ->]; [|done].
  split; [done|]. rewrite Hd. cbn. by rewrite Z.mul_1_r.
Qed.

Lemma power_product_eq t : power_product t = snd (get_power_product t).
Proof. done. Qed.

Lemma coeff_of_cons pp arg args :
  is_num arg = false ->
  coeff_of pp (arg :: args) = (if bool_decide (power_product arg = pp) then fst (get_power_product arg) else 0) + coeff_of pp args.
Proof.
  intros Hn. unfold coeff_of. rewrite non_nums_cons, Hn. cbn [foldr]. unfold power_product.
  destruct (get_power_product arg) as [a q]. cbn [fst snd]. by destruct (bool_decide _).
Qed.

Lemma non_nums_idem args : non_nums (non_nums args) = non_nums args.
Proof.
  induction args as [|a args IH]; [done|]. rewrite non_nums_cons. destruct (is_num a) eqn:Hn; [done|].
  by rewrite non_nums_cons, Hn, IH.
Qed.

Lemma coeff_of_non_nums pp args : coeff_of pp (non_nums args) = coeff_of pp args.
Proof. unfold coeff_of. by rewrite non_nums_idem. Qed.

(** The distinct repeated power products, in the order [combine_monomials]
    meets them. *)
Fixpoint combined (multiple : expr -> bool) (visited args : list expr) : list expr :=
  match args with
  | [] => []
  | arg :: args =>
      let pp := power_product arg in
      if negb (multiple pp) || bool_decide (pp ∈ visited) then combined multiple visited args
      else pp :: combined multiple (pp :: visited) args
  end.
Definition singles (multiple : expr -> bool) (args : list expr) : list expr :=
  List.filter (fun arg => negb (multiple (power_product arg))) args.

Lemma combine_monomials_ok multiple coeff visited args :
  Forall vec args ->
  exists vs, Forall2 den vs (combine_monomials n multiple coeff visited args)
    /\ sumZ vs = sumZ (map uv (singles multiple args))
                 + sumZ (map (fun pp => coeff pp * uv pp) (combined multiple visited args)).
Proof.
  intros Hargs. revert visited. induction Hargs as [|arg args Ha _ IH]; intros visited.
  { exists []. split; [constructor|done]. }
  cbn [combine_monomials combined singles List.filter].
  destruct (multiple (power_product arg)) eqn:Hm; cbn [negb orb].
  - destruct (bool_decide _); [apply IH|].
    destruct (IH (power_product arg :: visited)) as (vs & Hvs & Hsum).
    destruct (Z.eqb_spec (coeff (power_product arg)) 0) as [Hc|Hc].
    + exists vs. split; [done|]. rewrite Hsum. cbn [map sumZ foldr]. rewrite Hc. unfold singles, sumZ. lia.
    + pose proof (power_product_ok arg Ha) as Hpp. rewrite (surjective_pairing (get_power_product arg)) in Hpp.
      destruct Hpp as [Hx _]. rewrite <- power_product_eq in Hx.
      exists (coeff (power_product arg) * uv (power_product arg) :: vs). split.
      * constructor; [|done]. by apply den_coeff, den_self.
      * cbn [map sumZ foldr] in *. unfold singles, sumZ in *. lia.
  - destruct (IH visited) as (vs & Hvs & Hsum). exists (uv arg :: vs). split.
    + constructor; [by apply den_self|done].
    + cbn [map sumZ foldr] in *. unfold singles, sumZ in *. lia.
Qed.

Lemma combined_spec multiple visited args q :
  q ∈ combined multiple visited args <-> multiple q = true /\ q ∉ visited /\ q ∈ map power_product args.
Proof.
  revert visited. induction args as [|arg args IH]; intros visited; cbn [combined map].
  { split; [by intros ?%not_elem_of_nil|by intros (_ & _ & ?%not_elem_of_nil)]. }
  destruct (multiple (power_product arg)) eqn:Hm; cbn [negb orb].
  - case_bool_decide as Hv.
    + rewrite IH, elem_of_cons. naive_solver.
    + rewrite elem_of_cons, IH, !elem_of_cons.
      destruct (decide (q = power_product arg)) as [->|]; naive_solver.
  - rewrite IH, elem_of_cons. naive_solver congruence.
Qed.

Lemma combined_nodup multiple visited args : NoDup (combined multiple visited args).
Proof.
  revert visited. induction args as [|arg args IH]; intros visited; cbn [combined]; [constructor|].
  destruct (_ || _); [done|]. constructor; [|done]. rewrite combined_spec, not_elem_of_cons. naive_solver.
Qed.

(** The summands that [q] selects. *)
Definition selected (q : expr -> bool) (args : list expr) : list expr :=
  List.filter (fun arg => q (power_product arg)) args.

Lemma indicator_sum D x c (f : expr -> Z) :
  NoDup D ->
  sumZ (map (fun q => (if bool_decide (x = q) then c else 0) * f q) D)
  = if bool_decide (x ∈ D) then c * f x else 0.
Proof.
  induction 1 as [|q D Hq _ IH]; [done|]. cbn [map sumZ foldr]. fold sumZ. rewrite IH.
  destruct (decide (x = q)) as [->|Hx].
  - rewrite (bool_decide_eq_true_2 (q = q)) by done. rewrite (bool_decide_eq_true_2 (q ∈ q :: D)) by left.
    rewrite (bool_decide_eq_false_2 (q ∈ D)) by done. lia.
  - rewrite (bool_decide_eq_false_2 (x = q)) by done. rewrite (bool_decide_ext (x ∈ q :: D) (x ∈ D)); [lia|].
    rewrite elem_of_cons. naive_solver.
Qed.

Lemma sumZ_map_add {A} (f g : A -> Z) l : sumZ (map (fun x => f x + g x) l) = sumZ (map f l) + sumZ (map g l).
Proof. induction l as [|x l IH]; cbn in *; lia. Qed.

Lemma coeff_sum D args :
  NoDup D -> Forall vec args ->
  eqm n (sumZ (map (fun q => coeff_of q args * uv q) D))
    (sumZ (map uv (selected (fun q => bool_decide (q ∈ D)) (non_nums args)))).
Proof.
  intros HD Hargs. induction Hargs as [|arg args Ha _ IH].
  { rewrite (map_ext _ (fun q => 0 * uv q)), sumZ_scale; done. }
  rewrite non_nums_cons. destruct (is_num arg) eqn:Hn.
  { rewrite (map_ext _ (fun q => coeff_of q args * uv q)); [exact IH|].
    intros q. f_equal. unfold coeff_of. by rewrite non_nums_cons, Hn. }
  pose proof (power_product_ok arg Ha) as Hpp. rewrite (surjective_pairing (get_power_product arg)) in Hpp.
  destruct Hpp as [_ Hpp]. rewrite <- power_product_eq in Hpp.
  rewrite (map_ext _ (fun q => (if bool_decide (power_product arg = q) then fst (get_power_product arg) else 0) * uv q
                               + coeff_of q args * uv q))
    by (intros q; rewrite coeff_of_cons by done; lia).
  rewrite sumZ_map_add, indicator_sum, IH by done. unfold selected. cbn [List.filter].
  destruct (bool_decide _); [|done]. cbn [map sumZ foldr]. by rewrite Hpp.
Qed.

Lemma selected_split q args :
  sumZ (map uv args) = sumZ (map uv (singles q args)) + sumZ (map uv (selected q args)).
Proof.
  unfold singles, selected. induction args as [|arg args IH]; [done|]. cbn [List.filter].
  destruct (q _); cbn [negb map sumZ foldr] in *; unfold sumZ in *; lia.
Qed.

Lemma selected_ext q q' args :
  (forall arg, arg ∈ args -> q (power_product arg) = q' (power_product arg)) -> selected q args = selected q' args.
Proof.
  intros Hq. unfold selected. induction args as [|arg args IH]; [done|]. cbn [List.filter].
  rewrite (Hq arg) by left. rewrite IH; [done|]. intros x Hx. apply Hq. by right.
Qed.

(** The sum of the combined monomials, when the coefficients are those of [args]
    and [others] shares the repeated power products. *)
Lemma combined_selects multiple args others :
  (forall arg, arg ∈ others -> multiple (power_product arg) = true -> power_product arg ∈ map power_product args) ->
  selected (fun q => bool_decide (q ∈ combined multiple [] args)) others = selected multiple others.
Proof.
  intros Hin. apply selected_ext. intros arg Harg. destruct (multiple (power_product arg)) eqn:Hm.
  - apply bool_decide_eq_true, combined_spec. split_and!; [done|by apply not_elem_of_nil|by apply Hin].
  - apply bool_decide_eq_false. rewrite combined_spec. naive_solver congruence.
Qed.

Lemma const_den c : Forall2 den (if c =? 0 then [] else [c]) (if c =? 0 then [] else [mk_num n c]).
Proof. destruct (c =? 0); [constructor|]. constructor; [apply den_nums|constructor]. Qed.

Lemma sum_const c : sumZ (if c =? 0 then [] else [c]) = c.
Proof. destruct (Z.eqb_spec c 0); cbn; lia. Qed.

Lemma forall2_perm (R : Z -> expr -> Prop) vs l k :
  Forall2 R vs l -> k ≡ₚ l -> exists ws, Forall2 R ws k /\ ws ≡ₚ vs.
Proof.
  intros Hvs Hk. revert vs Hvs. induction Hk as [|x k l _ IH|x y k|k l m _ IH1 _ IH2]; intros vs Hvs.
  - by exists vs.
  - apply Forall2_cons_inv_r in Hvs as (v & vs' & Hv & Hvs & ->). destruct (IH vs' Hvs) as (ws & Hws & Hp).
    exists (v :: ws). split; [by constructor|by rewrite Hp].
  - apply Forall2_cons_inv_r in Hvs as (v & vs' & Hv & Hvs & ->).
    apply Forall2_cons_inv_r in Hvs as (w & us & Hw & Hus & ->).
    exists (w :: v :: us). split; [by repeat constructor|constructor].
  - destruct (IH2 vs Hvs) as (us & Hus & Hpu). destruct (IH1 us Hus) as (ws & Hws & Hpw).
    exists ws. split; [done|by rewrite Hpw].
Qed.

Lemma add_parts c vs l (s : bool) :
  Forall2 den vs l ->
  den (c + sumZ vs) (mk_add_app n ((if c =? 0 then [] else [mk_num n c]) ++ (if s then sort_monomials p get_id l else l))).
Proof.
  intros Hvs. rewrite <- (sum_const c) at 1. destruct s.
  - destruct (forall2_perm _ _ _ _ Hvs (sort_perm l)) as (ws & Hws & Hp).
    rewrite <- (sumZ_perm _ _ Hp), <- sumZ_concat. apply sum_den, Forall2_app; [apply const_den|done].
  - rewrite <- sumZ_concat. apply sum_den, Forall2_app; [apply const_den|done].
Qed.

Lemma den_selfs args : Forall vec args -> Forall2 den (map uv args) args.
Proof. induction 1; cbn [map]; constructor; [by apply den_self|done]. Qed.

Lemma mk_nflat_add_core_ok args :
  Forall vec args -> br_den (sumZ (map uv args)) (mk_nflat_add_core p get_id n args).
Proof.
  intros Hargs. unfold mk_nflat_add_core. set (multiple := fun pp => Nat.ltb 1 (occurrences pp args)).
  pose proof (sum_split args Hargs) as Hsplit. pose proof (non_nums_vec args Hargs) as Hnn.
  set (c := normalize n (sum_of_nums args)) in *.
  assert (eqm n (sumZ (map uv args)) (c + sumZ (map uv (non_nums args)))) as Hval
    by (unfold c; by rewrite normalize_eqm, Hsplit).
  clearbody c. destruct (existsb _ args).
  - destruct (combine_monomials_ok multiple (fun pp => normalize n (coeff_of pp args)) [] _ Hnn) as (vs & Hvs & Hsum).
    eapply br_den_ext; [by apply add_parts|]. rewrite Hval. f_equiv. rewrite Hsum.
    rewrite (selected_split multiple (non_nums args)). f_equiv.
    rewrite <- (combined_selects multiple (non_nums args) (non_nums args)), <- coeff_sum by
      (done || apply combined_nodup || (intros; by apply list_elem_of_fmap_2)).
    apply (foldr_op_eqm (k := OP_BADD)). clear Hsum. induction (combined multiple [] (non_nums args)) as [|q D IH]; [constructor|].
    cbn [map]. constructor; [by rewrite normalize_eqm|done].
  - destruct (_ && _); [done|]. eapply br_den_ext; [|by symmetry].
    pose proof (add_parts c _ _ (negb (sum_ordered p get_id args 0 true None)) (den_selfs _ Hnn)) as Hd.
    by destruct (sum_ordered _ _ _ _ _ _).
Qed.

Lemma flatten_add_ok args :
  Forall vec args -> Forall vec (flatten_add args) /\ eqm n (sumZ (map uv (flatten_add args))) (sumZ (map uv args)).
Proof.
  induction 1 as [|a args Ha _ [IHv IH]]; [by split|]. unfold flatten_add in *. cbn [flat_map map].
  rewrite map_app, sumZ_concat. cbn [sumZ foldr]. fold sumZ. destruct (is_bv_add a) eqn:Hadd.
  - destruct (add_inv_args a Hadd Ha) as (Hs & Hd & _). apply den_value in Hd; [|done].
    split; [by apply Forall_app|]. by rewrite Hd, IH.
  - split; [by constructor|]. cbn. by rewrite Z.add_0_r, IH.
Qed.

Lemma mk_flat_add_core_ok args :
  Forall vec args -> br_den (sumZ (map uv args)) (mk_flat_add_core p get_id n args).
Proof.
  intros Hargs. unfold mk_flat_add_core. destruct (existsb _ _); [|by apply mk_nflat_add_core_ok].
  destruct (flatten_add_ok args Hargs) as [Hv Hval].
  eapply br_den_ext; [|exact Hval]. pose proof (mk_nflat_add_core_ok _ Hv) as Hok.
  destruct (mk_nflat_add_core _ _ _ _); try exact Hok. by apply den_sum.
Qed.

(** ** Negation, difference, equations *)

Lemma mk_uminus_ok arg : vec arg -> br_den (- uv arg) (mk_uminus n arg).
Proof.
  intros Ha. unfold mk_uminus. destruct (is_num arg) eqn:Hn.
  - apply is_num_inv in Hn as [_ ->]; [|done]. eapply br_den_ext; [apply den_nums|]. apply normalize_eqm.
  - replace (- uv arg) with (-1 * uv arg) by lia. by apply den_coeff, den_self.
Qed.

Lemma mk_sub_ok a rest : vec a -> Forall vec rest -> br_den (uv a - sumZ (map uv rest)) (mk_sub n (a :: rest)).
Proof.
  intros Ha Hrest. unfold mk_sub. pose proof (den_self I n a Ha) as Hd. destruct rest as [|b rest'] eqn:Hr.
  { cbn. by rewrite Z.sub_0_r. }
  rewrite <- Hr in *. clear b rest' Hr.
  set (kept := List.filter (fun x => negb (is_zero x)) rest).
  assert (Forall vec kept /\ sumZ (map uv kept) = sumZ (map uv rest)) as [Hk Hsum].
  { unfold kept. clear kept. induction Hrest as [|x rest Hx _ [IHv IH]]; [by split|]. cbn [List.filter].
    destruct (is_zero x) eqn:Hz; cbn [negb map sumZ foldr] in *.
    - apply is_zero_inv in Hz; [|done]. split; [done|]. unfold sumZ in *. lia.
    - split; [by constructor|]. unfold sumZ in *. lia. }
  eapply br_den_ext; [apply (sum_den (uv a :: map (fun x => -1 * uv x) kept))|].
  - constructor; [done|]. clear -Hk n_pos. induction Hk as [|x kept Hx _ IH]; constructor; [|done].
    replace (-1 * uv x) with (prodZ [-1; uv x]) by (cbn; lia).
    apply (den_assoc I (g := Z.mul) (u := 1) n [-1; uv x]); [done|].
    constructor; [apply den_nums|]. constructor; [by apply den_self|constructor].
  - cbn [sumZ foldr]. fold sumZ. rewrite sumZ_scale, Hsum. by replace (uv a + -1 * sumZ (map uv rest)) with (uv a - sumZ (map uv rest)) by lia.
Qed.

Lemma get_monomials_ok t :
  vec t -> Forall vec (get_monomials t) /\ eqm n (uv t) (sumZ (map uv (get_monomials t))).
Proof.
  intros Ht. unfold get_monomials. destruct (is_bv_add t) eqn:Ha.
  - destruct (add_inv_args t Ha Ht) as (Hs & Hd & _). by apply den_value in Hd.
  - split; [by apply Forall_cons_2, Forall_nil_2|]. cbn. by rewrite Z.add_0_r.
Qed.

Lemma side_den (b : bool) c vs l :
  Forall2 den vs l -> den ((if b then c else 0) + sumZ vs) (mk_add_app n ((if b then [mk_num n c] else []) ++ l)).
Proof.
  intros Hvs. destruct b.
  - apply (sum_den (c :: vs)). constructor; [apply den_nums|done].
  - by apply sum_den.
Qed.

(** What cancelling leaves on the two sides, and their difference. *)
Lemma cancelled multiple ls rs :
  Forall vec ls -> Forall vec rs ->
  (forall pp, multiple pp = true -> pp ∈ map power_product (non_nums ls)) ->
  exists vs ws,
    Forall2 den vs (combine_monomials n multiple (fun pp => coeff_of pp ls - coeff_of pp rs) [] (non_nums ls))
    /\ Forall2 den ws (singles multiple (non_nums rs))
    /\ eqm n (sumZ vs - sumZ ws) (sumZ (map uv (non_nums ls)) - sumZ (map uv (non_nums rs))).
Proof.
  intros Hls Hrs Hm. pose proof (non_nums_vec ls Hls) as Hl. pose proof (non_nums_vec rs Hrs) as Hr.
  destruct (combine_monomials_ok multiple (fun pp => coeff_of pp ls - coeff_of pp rs) [] _ Hl) as (vs & Hvs & Hsum).
  exists vs, (map uv (singles multiple (non_nums rs))). split_and!; [done| |].
  - apply den_selfs. unfold singles. clear -Hr. induction Hr as [|x l Hx _ IH]; [constructor|]. cbn.
    destruct (negb _); [by constructor|done].
  - rewrite Hsum, (selected_split multiple (non_nums ls)), (selected_split multiple (non_nums rs)).
    pose proof (combined_nodup multiple [] (non_nums ls)) as HD.
    pose proof (coeff_sum _ ls HD Hls) as Hcl. pose proof (coeff_sum _ rs HD Hrs) as Hcr.
    rewrite combined_selects in Hcl by (intros; by apply list_elem_of_fmap_2).
    rewrite combined_selects in Hcr by (intros; by apply Hm).
    set (D := combined multiple [] (non_nums ls)) in *.
    assert (map (fun pp => (coeff_of pp ls - coeff_of pp rs) * uv pp) D
      = map (fun q => coeff_of q ls * uv q + -1 * (coeff_of q rs * uv q)) D) as ->
      by (apply map_ext; intros q; ring).
    rewrite sumZ_map_add, sumZ_scale, Hcl, Hcr.
    apply eq_subrelation; [apply _|]. lia.
Qed.

(** The constant on the side where it goes; it is left out when it is zero. *)
Lemma coeff_sides (at_rhs el er : bool) c0 :
  let c := if at_rhs then normalize n (- c0) else c0 in
  eqm n ((if negb at_rhs && (el || negb (c =? 0)) then c else 0)
         - (if at_rhs && (er || negb (c =? 0)) then c else 0)) c0.
Proof.
  cbv zeta. destruct at_rhs; cbn [negb andb].
  - pose proof (normalize_eqm (- c0)) as Hc. set (c := normalize n (- c0)) in *.
    assert (eqm n (0 - c) c0) as Hr by (rewrite Hc; by replace (0 - - c0) with c0 by lia).
    destruct (_ || _) eqn:Hi; [done|]. apply orb_false_iff in Hi as [_ Hi%negb_false_iff%Z.eqb_eq].
    by rewrite Hi in Hr.
  - rewrite Z.sub_0_r. destruct (_ || _) eqn:Hi; [done|].
    apply orb_false_iff in Hi as [_ Hi%negb_false_iff%Z.eqb_eq]. by rewrite Hi.
Qed.

Lemma cancel_monomials_ok lhs rhs l r :
  vec lhs -> vec rhs -> cancel_monomials n lhs rhs = Some (l, r) ->
  vec l /\ vec r /\ (uv l = uv r <-> uv lhs = uv rhs).
Proof.
  intros Hl Hr. unfold cancel_monomials.
  destruct (get_monomials_ok lhs Hl) as [Hls Hlv], (get_monomials_ok rhs Hr) as [Hrs Hrv].
  set (ls := get_monomials lhs) in *. set (rs := get_monomials rhs) in *.
  set (multiple := fun pp => bool_decide (pp ∈ map power_product (non_nums ls))
                           && bool_decide (pp ∈ map power_product (non_nums rs))).
  destruct (_ && _ && _); [done|].
  destruct (cancelled multiple ls rs Hls Hrs) as (vs & ws & Hvs & Hws & Hdiff).
  { intros pp [Hpp _]%andb_true_iff. by apply bool_decide_eq_true in Hpp. }
  unfold singles in Hws. set (new_ls := combine_monomials _ _ _ _ _) in *. set (new_rs := List.filter _ _) in *.
  set (c0 := normalize n (sum_of_nums ls - sum_of_nums rs)).
  set (c_at_rhs := match new_rs with [] => true | _ => false end || _).
  set (c := if c_at_rhs then normalize n (- c0) else c0).
  set (il := negb c_at_rhs && _). set (ir := c_at_rhs && _). intros [= <- <-].
  pose proof (side_den il c vs new_ls Hvs) as Hdl. pose proof (side_den ir c ws new_rs Hws) as Hdr.
  assert (eqm n ((if il then c else 0) + sumZ vs - ((if ir then c else 0) + sumZ ws)) (uv lhs - uv rhs)) as Hsub.
  { assert (eqm n ((if il then c else 0) - (if ir then c else 0)) c0) as Hc.
    { apply coeff_sides. }
    rewrite Hlv, Hrv, (sum_split ls), (sum_split rs) by done.
    transitivity (c0 + (sumZ vs - sumZ ws)).
    - rewrite <- Hc. apply eq_subrelation; [apply _|]. lia.
    - rewrite Hdiff. unfold c0. rewrite normalize_eqm. apply eq_subrelation; [apply _|]. lia. }
  pose proof (den_vec _ _ _ _ Hdl) as Hvl. pose proof (den_vec _ _ _ _ Hdr) as Hvr. split_and!; [done|done|].
  apply den_value in Hdl, Hdr; [|done..]. rewrite <- Hdl, <- Hdr in Hsub.
  rewrite !(eqm_diff n) by (by apply uv_range). by rewrite Hsub.
Qed.
End Poly.

(** ** The cores *)

Section Cores.
Context (I : interp) (p : poly_params) (get_id : expr -> Z) (n : nat).

Lemma mk_add_core_ok args :
  args <> [] -> Forall (vec n) args -> br_den I n (sumZ (map (uv I) args)) (mk_add_core p get_id args).
Proof.
  intros Hne Hargs. destruct args as [|a args]; [done|]. pose proof Hargs as [Ha _]%Forall_cons.
  destruct args as [|b args]; [cbn; rewrite Z.add_0_r; by apply den_self|].
  unfold mk_add_core. rewrite (vec_size n) by done. assert ((0 < n)%nat) by (by eapply vec_pos).
  destruct (p_flat p); [by apply mk_flat_add_core_ok|by apply mk_nflat_add_core_ok].
Qed.

Lemma mk_mul_core_ok args :
  args <> [] -> Forall (vec n) args -> br_den I n (prodZ (map (uv I) args)) (mk_mul_core p get_id args).
Proof.
  intros Hne Hargs. destruct args as [|a args]; [done|]. pose proof Hargs as [Ha _]%Forall_cons.
  destruct args as [|b args]; [cbn; rewrite Z.mul_1_r; by apply den_self|].
  unfold mk_mul_core. rewrite (vec_size n) by done. assert ((0 < n)%nat) by (by eapply vec_pos).
  destruct (p_flat p); [by apply mk_flat_mul_core_ok|by apply mk_nflat_mul_core_ok].
Qed.
End Cores.
