(* ===== verification/BvRewriterLeq.v ===== *)
(** bv_rewriter (bv_rewriter.h, bv_rewriter.cpp), the simplifier of the
    bit-vector operators, first part: comparisons, extraction, shifts, division,
    concatenation and the operators that become concatenations. Extractions are
    made by [mk_extract_proc], which only caches declarations. *)
From S2P Require Import Prelude Text Ast AstSem BoolRewriter BvPlugin PolyRewriter.

(** The options of bv_rewriter_params.pyg, and those of poly_rewriter. *)
Record bv_params := {
  m_hi_div0 : bool;
  m_elim_sign_ext : bool;
  m_mul2concat : bool;
  m_bit2bool : bool;
  m_blast_eq_value : bool;
  m_mkbv2num : bool;
  m_ite2id : bool;
  m_split_concat_eq : bool;
  m_bv_sort_ac : bool;
  m_extract_prop : bool;
  m_bvnot_simpl : bool;
  m_le_extra : bool;
  m_poly : poly_params
}.

(** [shift_left], [shift_right] and [~] on [uint64_t] (util.h). *)
Definition u64 (x : Z) : Z := x mod 2 ^ 64.
Definition shift_right (x y : Z) : Z := if y <? 64 then Z.shiftr x y else 0.
Definition shift_left (x y : Z) : Z := if y <? 64 then u64 (Z.shiftl x y) else 0.

Definition mk_bool_val (b : bool) : expr := if b then m_true else m_false.
Definition all_ones (n : nat) : Z := 2 ^ Z.of_nat n - 1.
Definition m_mk_xor (args : list expr) : expr := App (bool_decl "xor" OP_XOR 2) args.

(** ** Bits known to be zero *)

(** The search goes through a concatenation from its last argument on. *)
Fixpoint is_zero_bit (x : expr) (idx : nat) : bool :=
  match x with
  | Var _ _ => false
  | App d args =>
      match is_numeral x with
      | Some (val, _) => if val =? 0 then true else Z.even (val / 2 ^ Z.of_nat idx)
      | None =>
          if bool_decide (kind d = Bv OP_CONCAT) then
            match (fix pick (args : list expr) : nat + bool :=
              match args with
              | [] => inl idx
              | y :: rest =>
                  match pick rest with
                  | inl i => if Nat.leb (get_bv_size y) i then inl (i - get_bv_size y)%nat
                             else inr (is_zero_bit y i)
                  | r => r
                  end
              end) args
            with inr r => r | inl _ => false end
          else false
      end
  end.

(** The number of bits from the last one that may be set down, of the lowest [k]. *)
Fixpoint zero_prefix (x : expr) (k : nat) : nat :=
  match k with
  | O => O
  | Datatypes.S i => if is_zero_bit x i then zero_prefix x i else k
  end.

Section Rewriter.
Context (p : bv_params) (get_id : expr -> Z) (ref_count : expr -> nat).

Definition m_flat : bool := p_flat (m_poly p).

(** ** Comparisons *)

(** Short-circuited concatenation. *)
Definition short_concat (args : list expr) : expr :=
  match args with [a] => a | _ => mk_bv_concat args end.

(** [are_eq_upto_num]: the common summands and the two constants. *)
Definition are_eq_upto_num (a b : expr) : option (expr * Z * Z) :=
  let aadd := is_bv_add a in
  let badd := is_bv_add b in
  let numa := length (get_args a) in
  let numb := length (get_args b) in
  let has_num_a := aadd && negb (Nat.eqb numa 0) && is_num (get_arg a 0) in
  let has_num_b := badd && negb (Nat.eqb numb 0) && is_num (get_arg b 0) in
  if negb aadd && negb badd then if bool_decide (a = b) then Some (a, 0, 0) else None
  else if negb aadd then
    if Nat.eqb numa 2 && has_num_a && bool_decide (get_arg a 0 = b) then Some (b, 0, 0) else None
  else if negb badd then
    if Nat.eqb numb 2 && has_num_b && bool_decide (get_arg b 0 = a) then Some (a, 0, 0) else None
  else if Nat.eqb numa 0 || Nat.eqb numb 0 then None
  else
    let rest_a := if has_num_a then drop 1 (get_args a) else get_args a in
    let rest_b := if has_num_b then drop 1 (get_args b) else get_args b in
    if bool_decide (rest_a = rest_b) then
      let a0_val := if has_num_a then num_val (get_arg a 0) else 0 in
      let b0_val := if has_num_b then num_val (get_arg b 0) else 0 in
      let common := if has_num_a && Nat.ltb 2 numa then bv_app OP_BADD [] rest_a
                    else if has_num_a then get_arg a 1 else a in
      Some (common, a0_val, b0_val)
    else None.

Definition rw_leq_overflow (is_signed : bool) (a b : expr) : br_status :=
  if is_signed then BR_FAILED
  else match are_eq_upto_num a b with
  | None => BR_FAILED
  | Some (common, a0_val, b0_val) =>
      let sz := get_bv_size a in
      if a0_val =? b0_val then BR_DONE m_true
      else if a0_val <? b0_val then BR_REWRITE2 (mk_ule (mk_numeral (b0_val - a0_val) sz) b)
      else
        let lower := 2 ^ Z.of_nat sz - a0_val in
        let upper := 2 ^ Z.of_nat sz - b0_val - 1 in
        BR_REWRITE2
          (if lower =? upper then m_mk_eq common (mk_numeral lower sz)
           else if b0_val =? 0 then mk_ule (mk_numeral lower sz) common
           else m_mk_and [mk_ule (mk_numeral lower sz) common; mk_ule common (mk_numeral upper sz)])
  end.

(** The arguments without the common ones at the front. *)
Fixpoint strip_common (l1 l2 : list expr) : list expr * list expr :=
  match l1, l2 with
  | a :: l1', b :: l2' => if are_equal a b then strip_common l1' l2' else (l1, l2)
  | _, _ => (l1, l2)
  end.

(** The numerals at the front of two concatenations, compared at the width of
    the shorter one; [None]: one of the two is not a numeral. *)
Definition leq_heads (is_signed : bool) (l1 l2 : list expr) : option br_status :=
  match l1, l2 with
  | a :: rest_a, b :: rest_b =>
      match is_numeral a, is_numeral b with
      | Some (af, af_sz), Some (bf, bf_sz) =>
          let sz_min := Nat.min af_sz bf_sz in
          let hi f f_sz :=
            norm (if Nat.ltb sz_min f_sz then f / 2 ^ Z.of_nat (f_sz - sz_min) else f) sz_min is_signed in
          let hi_af := hi af af_sz in
          let hi_bf := hi bf bf_sz in
          let low f f_sz rest :=
            if Nat.ltb sz_min f_sz then short_concat (mk_numeral f (f_sz - sz_min) :: rest)
            else short_concat rest in
          Some (if hi_af =? hi_bf then BR_REWRITE2 (mk_ule (low af af_sz rest_a) (low bf bf_sz rest_b))
                else BR_DONE (mk_bool_val (hi_af <? hi_bf)))
      | _, _ => None
      end
  | _, _ => None
  end.

Definition rw_leq_concats (is_signed : bool) (a b : expr) : br_status :=
  if negb (is_concat a) || negb (is_concat b) then BR_FAILED
  else
    let l1 := get_args a in
    let l2 := get_args b in
    match leq_heads is_signed l1 l2 with
    | Some st => st
    | None =>
        let '(s1, s2) := strip_common l1 l2 in
        match s1 with
        | [] => BR_DONE m_true
        | _ =>
            if Nat.ltb (length s1) (length l1) then BR_REWRITE2 (mk_ule (short_concat s1) (short_concat s2))
            else
              let '(t1, t2) := strip_common (rev l1) (rev l2) in
              match t1 with
              | [] => BR_DONE m_true
              | _ =>
                  if Nat.ltb (length t1) (length l1) then
                    BR_REWRITE2 ((if is_signed then mk_sle else mk_ule)
                                   (short_concat (rev t1)) (short_concat (rev t2)))
                  else BR_FAILED
              end
        end
    end.

(** [a] is the sum of x and minus the remainder of x by c1, the bound is c2, when [c1] divides [c2]: the new bound. *)
Definition leq_srem (a : expr) (r2 : Z) : option (expr * Z * nat) :=
  '(a1, a2) ← match_binary OP_BADD a;
  '(a3, a4) ← match_binary OP_BMUL a2;
  '(r1, sz) ← is_numeral a3;
  if norm r1 sz true =? -1 then
    '(a5, a6) ← match_binary OP_BSREM_I a4;
    '(r1, sz) ← is_numeral a6;
    let r1 := norm r1 sz true in
    if (0 <? r1) && (0 <? r2) && bool_decide (a1 = a5) && (Z.rem r2 r1 =? 0)
       && (r1 + r2 - 1 <? 2 ^ (Z.of_nat sz - 1))
    then Some (a1, r1 + r2 - 1, sz) else None
  else None.

(** (bvule r1 (+ r2 a)). *)
Definition leq_sum (r1 : Z) (b : expr) : option expr :=
  '(a1, a2) ← match_binary OP_BADD b;
  '(r2, sz) ← is_numeral a1;
  let result := mk_ule a2 (mk_numeral (- r2 - 1) sz) in
  let above := mk_ule (mk_numeral (r1 - r2) sz) a2 in
  Some (if r2 <? r1 then m_mk_and [result; above]
        else if r1 <? r2 then m_mk_or [result; above]
        else result).

(** The leading zero bits of the bound. *)
Definition leq_zero_bits (a b : expr) : br_status :=
  let bv_sz := get_bv_size b in
  match zero_prefix b bv_sz with
  | O => BR_REWRITE1 (m_mk_eq a (mk_numeral 0 bv_sz))
  | Datatypes.S first_non_zero =>
      if Nat.ltb first_non_zero (bv_sz - 1) then
        BR_REWRITE3 (m_mk_and
          [m_mk_eq (mk_bv_extract (bv_sz - 1) (first_non_zero + 1) a) (mk_numeral 0 (bv_sz - first_non_zero - 1));
           mk_ule (mk_bv_extract first_non_zero 0 a) (mk_bv_extract first_non_zero 0 b)])
      else BR_FAILED
  end.

(** The rules that look at the operators of the two sides. *)
Definition leq_rules (is_signed : bool) (r1 r2 : option Z) (a b : expr) : br_status :=
  let srem := match r2 with Some r2 => if is_signed then leq_srem a r2 else None | None => None end in
  let sum := match r1 with Some r1 => if is_signed then None else leq_sum r1 b | None => None end in
  match srem, sum with
  | Some (a1, bound, sz), _ => BR_REWRITE2 (mk_sle a1 (mk_numeral bound sz))
  | None, Some result => BR_REWRITE2 result
  | None, None =>
      br_else (if m_le_extra p then rw_leq_concats is_signed a b else BR_FAILED)
        (br_else (if m_le_extra p then rw_leq_overflow is_signed a b else BR_FAILED)
          (if is_signed then BR_FAILED else leq_zero_bits a b))
  end.

Definition mk_leq_core (is_signed : bool) (a b : expr) : br_status :=
  let value e := '(r, sz) ← is_numeral e; Some (norm r sz is_signed) in
  let r1 := value a in
  let r2 := value b in
  let sz := get_bv_size a in
  let lower := if is_signed then - 2 ^ (Z.of_nat sz - 1) else 0 in
  let upper := if is_signed then 2 ^ (Z.of_nat sz - 1) - 1 else all_ones sz in
  let is_val (r : option Z) v := match r with Some r => r =? v | None => false end in
  if bool_decide (a = b) then BR_DONE m_true
  else match r1, r2 with
  | Some r1, Some r2 => BR_DONE (mk_bool_val (r1 <=? r2))
  | _, _ =>
      if is_val r2 lower then BR_REWRITE1 (m_mk_eq a b)
      else if is_val r2 upper then BR_DONE m_true
      else if is_val r1 lower then BR_DONE m_true
      else if is_val r1 upper then BR_REWRITE1 (m_mk_eq a b)
      else leq_rules is_signed r1 r2 a b
  end.

Definition rw_ule (a b : expr) : br_status := mk_leq_core false a b.
Definition rw_uge (a b : expr) : br_status := br_else (rw_ule b a) (BR_DONE (mk_ule b a)).
Definition rw_ult (a b : expr) : br_status := BR_REWRITE2 (m_mk_not (mk_ule b a)).
Definition rw_sle (a b : expr) : br_status := mk_leq_core true a b.
Definition rw_sge (a b : expr) : br_status := br_else (rw_sle b a) (BR_DONE (mk_sle b a)).
Definition rw_slt (a b : expr) : br_status := BR_REWRITE2 (m_mk_not (mk_sle b a)).
End Rewriter.
