(* ===== verification/BvRewriterTerms.v ===== *)
(** bv_rewriter, second part: extraction, concatenation, extension, repetition,
    rotation and shifts. Extractions are made by
    [mk_extract_proc], which caches declarations, a bit-vector's extraction. *)
From S2P Require Import Prelude Text Ast AstSem BoolRewriter BvPlugin PolyRewriter BvRewriterLeq.

Section Rewriter.
Context (p : bv_params) (ref_count : expr -> nat).

(** [mk_app] of the family with the kind of [e]. *)
Definition mk_same_app (e : expr) (args : list expr) : expr :=
  match e with
  | App (mk_func_decl _ (Bv k) _ _ _) _ => bv_app k [] args
  | _ => e
  end.

(** ** Extraction *)

Definition is_empty_concat (e : expr) : bool :=
  is_concat e && match get_args e with [] => true | _ => false end.
Definition first_part (e : expr) : expr := if is_concat e then get_arg e 0 else e.

(** How many bits may be removed from the front of every argument; 0: none. *)
Fixpoint removable_bits (args : list expr) (all_numerals : bool) (removable : nat) : nat :=
  match args with
  | [] => removable
  | curr :: rest =>
      if is_empty_concat curr then removable_bits rest all_numerals removable
      else
        let curr_first := first_part curr in
        if negb all_numerals then
          if Nat.eqb removable (get_bv_size curr_first) then removable_bits rest all_numerals removable
          else O
        else match is_numeral curr_first with
        | Some (_, curr_first_sz) =>
            let removable := Nat.min removable curr_first_sz in
            if Nat.eqb removable 0 then O else removable_bits rest true removable
        | None =>
            let curr_first_sz := get_bv_size curr_first in
            if Nat.ltb removable curr_first_sz || Nat.eqb curr_first_sz 0 then O
            else removable_bits rest false curr_first_sz
        end
  end.

(** An argument without its first [removable] bits. *)
Definition remove_bits (removable : nat) (curr : expr) : option expr :=
  let new_first :=
    '(val, curr_first_sz) ← is_numeral (first_part curr);
    if Nat.ltb removable curr_first_sz then Some (mk_numeral val (curr_first_sz - removable)) else None in
  if is_concat curr then
    match new_first, drop 1 (get_args curr) with
    | Some new_first, rest => Some (mk_bv_concat (new_first :: rest))
    | None, [] => None
    | None, [a] => Some a
    | None, rest => Some (mk_bv_concat rest)
    end
  else new_first.

(** Bits of a sum or a product above [high] chopped off. *)
Definition propagate_extract (high : nat) (arg : expr) : option expr :=
  if negb (is_bv_add arg) && negb (is_bv_mul arg) then None
  else
    let sz := get_bv_size arg in
    let to_remove := if Nat.ltb (high + 1) sz then (sz - high - 1)%nat else O in
    if Nat.eqb to_remove 0 then None
    else match removable_bits (get_args arg) true to_remove with
    | O => None
    | removable =>
        Some (mk_same_app arg
          (omap (fun curr => if is_empty_concat curr then None else remove_bits removable curr)
             (get_args arg)))
    end.

Definition extract_numeral (high low : nat) (v : Z) : expr :=
  let sz := (high - low + 1)%nat in
  let v := if v <? 0 then v mod 2 ^ Z.of_nat sz else v in
  if v <? 2 ^ 64
  then mk_numeral (Z.land (shift_right v (Z.of_nat low)) (u64 (shift_left 1 (Z.of_nat sz) - 1))) sz
  else mk_numeral (v / 2 ^ Z.of_nat low) sz.

(** The arguments of a concatenation after the first one taken, up to the one
    that has the bit [low]; the search ends there ([UNREACHABLE]). *)
Fixpoint extract_rest (low idx : nat) (used_extract : bool) (new_args args : list expr) : br_status :=
  match args with
  | [] => BR_FAILED
  | curr :: rest =>
      let curr_sz := get_bv_size curr in
      let idx := (idx - curr_sz)%nat in
      if Nat.ltb low idx then extract_rest low idx used_extract (new_args ++ [curr]) rest
      else if Nat.eqb idx low then
        let result := mk_bv_concat (new_args ++ [curr]) in
        if used_extract then BR_REWRITE2 result else BR_DONE result
      else BR_REWRITE2 (mk_bv_concat (new_args ++ [mk_bv_extract (curr_sz - 1) (low - idx) curr]))
  end.

Fixpoint extract_concat (high low idx : nat) (args : list expr) : br_status :=
  match args with
  | [] => BR_FAILED
  | curr :: rest =>
      let curr_sz := get_bv_size curr in
      let idx := (idx - curr_sz)%nat in
      if Nat.ltb high idx then extract_concat high low idx rest
      else if Nat.leb idx low then
        if Nat.eqb low idx && Nat.eqb (high - idx) (curr_sz - 1) then BR_DONE curr
        else BR_REWRITE1 (mk_bv_extract (high - idx) (low - idx) curr)
      else if Nat.eqb (high - idx) (curr_sz - 1) then extract_rest low idx false [curr] rest
      else extract_rest low idx true [mk_bv_extract (high - idx) 0 curr] rest
  end.

(** Extraction goes into an if-then-else when that does not duplicate too much. *)
Definition extract_ite (high low : nat) (arg : expr) : br_status :=
  match arg with
  | App _ [c; t; e] =>
      if is_ite arg && (Nat.eqb (ref_count t) 1 || Nat.eqb (ref_count e) 1 || negb (is_ite t) || negb (is_ite e))
      then BR_REWRITE2 (m_mk_ite c (mk_bv_extract high low t) (mk_bv_extract high low e))
      else BR_FAILED
  | _ => BR_FAILED
  end.

Definition extract_prop (high low : nat) (arg : expr) : br_status :=
  if m_extract_prop p && Nat.leb low high then
    match propagate_extract high arg with
    | Some ep_res => BR_REWRITE2 (mk_bv_extract high low ep_res)
    | None => BR_FAILED
    end
  else BR_FAILED.

Definition mk_extract (high low : nat) (arg : expr) : br_status :=
  let sz := get_bv_size arg in
  if Nat.eqb low 0 && Nat.eqb high (sz - 1) then BR_DONE arg
  else match is_numeral arg with
  | Some (v, _) => BR_DONE (extract_numeral high low v)
  | None =>
      if is_extract arg then
        let low2 := get_extract_low arg in
        BR_DONE (mk_bv_extract (high + low2) (low + low2) (get_arg arg 0))
      else if is_concat arg then extract_concat high low sz (get_args arg)
      else if is_bv_not arg || is_bv_or arg || is_bv_xor arg
              || (Nat.eqb low 0 && (is_bv_add arg || is_bv_mul arg)) then
        BR_REWRITE2 (mk_same_app arg (map (mk_bv_extract high low) (get_args arg)))
      else br_else (extract_prop high low arg) (extract_ite high low arg)
  end.

(** ** Concatenation, extension, repetition, rotation *)

(** The buffer of new arguments, the last one first, and the three flags. *)
Record concat_state := {
  new_args : list expr;
  fused_numeral : bool;
  expanded : bool;
  fused_extract : bool
}.

(** Two numerals side by side, and two adjacent extractions of a term. *)
Definition fuse_numerals (arg prev : expr) : option expr :=
  '(v1, sz1) ← is_numeral arg;
  '(v2, sz2) ← is_numeral prev;
  Some (mk_numeral (v2 * 2 ^ Z.of_nat sz1 + v1) (sz1 + sz2)).

Definition fuse_extracts (arg prev : expr) : option expr :=
  if is_extract arg && is_extract prev && bool_decide (get_arg arg 0 = get_arg prev 0)
     && Nat.eqb (get_extract_low prev) (get_extract_high arg + 1)
  then Some (mk_bv_extract (get_extract_high prev) (get_extract_low arg) (get_arg arg 0))
  else None.

Definition concat_step (s : concat_state) (arg : expr) : concat_state :=
  let prev := head (new_args s) in
  match prev ≫= fuse_numerals arg with
  | Some e => {| new_args := e :: tail (new_args s); fused_numeral := true;
                 expanded := expanded s; fused_extract := fused_extract s |}
  | None =>
      if m_flat p && is_concat arg then
        {| new_args := rev (get_args arg) ++ new_args s; fused_numeral := fused_numeral s;
           expanded := true; fused_extract := fused_extract s |}
      else match prev ≫= fuse_extracts arg with
      | Some e => {| new_args := e :: tail (new_args s); fused_numeral := fused_numeral s;
                     expanded := expanded s; fused_extract := true |}
      | None => {| new_args := arg :: new_args s; fused_numeral := fused_numeral s;
                   expanded := expanded s; fused_extract := fused_extract s |}
      end
  end.

Definition mk_concat (args : list expr) : br_status :=
  let s := foldl concat_step
    {| new_args := []; fused_numeral := false; expanded := false; fused_extract := false |} args in
  if negb (fused_numeral s) && negb (expanded s) && negb (fused_extract s) then BR_FAILED
  else match new_args s with
  | [a] => if fused_extract s then BR_REWRITE1 a else BR_DONE a
  | l =>
      let result := mk_bv_concat (rev l) in
      if fused_extract s then BR_REWRITE2 result
      else if expanded s then BR_REWRITE1 result
      else BR_DONE result
  end.

Definition mk_zero_extend (n : nat) (arg : expr) : br_status :=
  if Nat.eqb n 0 then BR_DONE arg
  else BR_REWRITE1 (mk_bv_concat [mk_numeral 0 n; arg]).

Definition mk_sign_extend (n : nat) (arg : expr) : br_status :=
  if Nat.eqb n 0 then BR_DONE arg
  else match is_numeral arg with
  | Some (r, bv_size) =>
      let result_bv_size := (bv_size + n)%nat in
      BR_DONE (mk_numeral (norm r bv_size true mod 2 ^ Z.of_nat result_bv_size) result_bv_size)
  | None =>
      if m_elim_sign_ext p then
        let sz := get_bv_size arg in
        BR_REWRITE2 (mk_bv_concat (replicate n (mk_bv_extract (sz - 1) (sz - 1) arg) ++ [arg]))
      else BR_FAILED
  end.

Definition mk_repeat (n : nat) (arg : expr) : br_status :=
  if Nat.eqb n 1 then BR_DONE arg else BR_REWRITE1 (mk_bv_concat (replicate n arg)).

Definition mk_bv_rotate_left (n : nat) (arg : expr) : br_status :=
  let sz := get_bv_size arg in
  let n := (n mod sz)%nat in
  if Nat.eqb n 0 || Nat.eqb sz 1 then BR_DONE arg
  else BR_REWRITE2 (mk_bv_concat [mk_bv_extract (sz - n - 1) 0 arg; mk_bv_extract (sz - 1) (sz - n) arg]).

Definition mk_bv_rotate_right (n : nat) (arg : expr) : br_status :=
  let sz := get_bv_size arg in
  let n := (n mod sz)%nat in
  mk_bv_rotate_left (sz - n) arg.

(** The remainder is below a width, so the conversion to [uint64_t] is exact. *)
Definition rotate_amount (r2 : Z) (bv_size : nat) : nat :=
  Z.to_nat (Z.rem r2 (Z.of_nat bv_size) mod Z.of_nat bv_size).

Definition mk_bv_ext_rotate_left (arg1 arg2 : expr) : br_status :=
  match is_numeral arg2 with
  | Some (r2, bv_size) => mk_bv_rotate_left (rotate_amount r2 bv_size) arg1
  | None => BR_FAILED
  end.

Definition mk_bv_ext_rotate_right (arg1 arg2 : expr) : br_status :=
  match is_numeral arg2 with
  | Some (r2, bv_size) => mk_bv_rotate_right (rotate_amount r2 bv_size) arg1
  | None => BR_FAILED
  end.

(** ** Shifts *)

Definition mk_bv_shl (arg1 arg2 : expr) : br_status :=
  let bv_size := get_bv_size arg1 in
  let n := Z.of_nat bv_size in
  match is_numeral arg2 with
  | Some (r2, _) =>
      if r2 =? 0 then BR_DONE arg1
      else if n <=? r2 then BR_DONE (mk_numeral 0 bv_size)
      else match is_numeral arg1 with
      | Some (r1, _) =>
          if n <=? 64 then BR_DONE (mk_numeral (norm (shift_left r1 r2) bv_size false) bv_size)
          else BR_DONE (mk_numeral (norm (r1 * 2 ^ r2) bv_size false) bv_size)
      | None =>
          let k := Z.to_nat r2 in
          BR_REWRITE2 (mk_bv_concat [mk_bv_extract (bv_size - k - 1) 0 arg1; mk_numeral 0 k])
      end
  | None => BR_FAILED
  end.

Definition mk_bv_lshr (arg1 arg2 : expr) : br_status :=
  let bv_size := get_bv_size arg1 in
  let n := Z.of_nat bv_size in
  match is_numeral arg2 with
  | Some (r2, _) =>
      if r2 =? 0 then BR_DONE arg1
      else if n <=? r2 then BR_DONE (mk_numeral 0 bv_size)
      else match is_numeral arg1 with
      | Some (r1, _) =>
          if n <=? 64 then BR_DONE (mk_numeral (norm (shift_right r1 r2) bv_size false) bv_size)
          else BR_DONE (mk_numeral (r1 / 2 ^ r2) bv_size)
      | None =>
          let k := Z.to_nat r2 in
          BR_REWRITE2 (mk_bv_concat [mk_numeral 0 k; mk_bv_extract (bv_size - 1) k arg1])
      end
  | None => BR_FAILED
  end.

(** Arithmetic shift of constants in 64-bit words. *)
Definition ashr_u64 (n1 n2_orig : Z) (bv_size : nat) : Z :=
  let n := Z.of_nat bv_size in
  let n2 := n2_orig mod n in
  let r := shift_right n1 n2 in
  let sign := negb (Z.land n1 (shift_left 1 (n - 1)) =? 0) in
  let allone := u64 (shift_left 1 n - 1) in
  if n2 <? n2_orig then if sign then allone else 0
  else if sign then
    let mask := Z.land (u64 (Z.lnot (u64 (shift_left 1 (n - n2) - 1)))) allone in
    Z.lor r mask
  else r.

(** The loop that pads with ones: [q] is the power of two of the step. *)
Fixpoint pad_ones (steps : nat) (q r1 : Z) : Z :=
  match steps with
  | O => r1
  | Datatypes.S steps => pad_ones steps (q * 2) (if r1 <? q then r1 + q else r1)
  end.

Definition ashr_numerals (r1 r2 : Z) (bv_size : nat) : expr :=
  let n := Z.of_nat bv_size in
  let sign := has_sign_bit r1 bv_size in
  if n <=? 64 then mk_numeral (ashr_u64 r1 r2 bv_size) bv_size
  else if n <=? r2 then mk_numeral (if sign then 2 ^ n - 1 else 0) bv_size
  else
    let r1 := r1 / 2 ^ r2 in
    mk_numeral (if sign then pad_ones bv_size 1 r1 else r1) bv_size.

Definition mk_bv_ashr (arg1 arg2 : expr) : br_status :=
  let bv_size := get_bv_size arg1 in
  match is_numeral arg2 with
  | None => BR_FAILED
  | Some (r2, _) =>
      if r2 =? 0 then BR_DONE arg1
      else match is_numeral arg1 with
      | Some (r1, _) => BR_DONE (ashr_numerals r1 r2 bv_size)
      | None =>
          match match_binary OP_BASHR arg1 with
          | Some (x, y) =>
              match is_numeral y with
              | Some (r1, _) =>
                  let r1 := Z.min (r1 + r2) (Z.of_nat bv_size) in
                  BR_REWRITE1 (bv_app OP_BASHR [] [x; mk_numeral r1 bv_size])
              | None => BR_FAILED
              end
          | None => BR_FAILED
          end
      end
  end.
End Rewriter.
