(* ===== verification/BvRewriterDiv.v ===== *)
(** bv_rewriter, third part: division, remainder and modulus. [hi_div0] is the
    argument of the [_core] functions; the other two entries pass [m_hi_div0]
    and [true]. *)
From S2P Require Import Prelude Text Ast AstSem BoolRewriter BvPlugin PolyRewriter BvRewriterLeq.

(** [is_minus_one_core]. *)
Definition is_minus_one_core (arg : expr) : bool := numeral_is (fun r n => r =? all_ones n) arg.

Definition is_x_minus_one (arg : expr) : option expr :=
  match match_binary OP_BADD arg with
  | Some (a, b) => if is_minus_one_core a then Some b else if is_minus_one_core b then Some a else None
  | None => None
  end.

(** The operator once the divisor is known not to be a numeral: with the
    hardware interpretation of zero, or a case distinction on it. *)
Definition div_general (hi_div0 : bool) (k0 k_i : bv_op_kind) (arg1 arg2 : expr) : br_status :=
  if hi_div0 then BR_DONE (bv_app k_i [] [arg1; arg2])
  else BR_REWRITE2 (m_mk_ite (m_mk_eq arg2 (mk_numeral 0 (get_bv_size arg2)))
                      (bv_app k0 [] [arg1]) (bv_app k_i [] [arg1; arg2])).

Definition mk_bv_sdiv_core (hi_div0 : bool) (arg1 arg2 : expr) : br_status :=
  match is_numeral arg2 with
  | None => div_general hi_div0 OP_BSDIV0 OP_BSDIV_I arg1 arg2
  | Some (r2, bv_size) =>
      let r2 := norm r2 bv_size true in
      if r2 =? 0 then
        if negb hi_div0 then BR_REWRITE1 (bv_app OP_BSDIV0 [] [arg1])
        else BR_REWRITE2 (m_mk_ite (bv_app OP_SLT [] [arg1; mk_numeral 0 bv_size])
                            (mk_numeral 1 bv_size) (mk_numeral (all_ones bv_size) bv_size))
      else if r2 =? 1 then BR_DONE arg1
      else match is_numeral arg1 with
      | Some (r1, bv_size) => BR_DONE (mk_numeral (Z.quot (norm r1 bv_size true) r2) bv_size)
      | None => BR_DONE (bv_app OP_BSDIV_I [] [arg1; arg2])
      end
  end.

Definition mk_bv_udiv_core (hi_div0 : bool) (arg1 arg2 : expr) : br_status :=
  match is_numeral arg2 with
  | None => div_general hi_div0 OP_BUDIV0 OP_BUDIV_I arg1 arg2
  | Some (r2, bv_size) =>
      let r2 := norm r2 bv_size false in
      if r2 =? 0 then
        if negb hi_div0 then BR_REWRITE1 (bv_app OP_BUDIV0 [] [arg1])
        else BR_DONE (mk_numeral (all_ones bv_size) bv_size)
      else if r2 =? 1 then BR_DONE arg1
      else match is_numeral arg1 with
      | Some (r1, bv_size) => BR_DONE (mk_numeral (Z.quot (norm r1 bv_size false) r2) bv_size)
      | None =>
          match is_power_of_two r2 with
          | Some shift => BR_REWRITE1 (bv_app OP_BLSHR [] [arg1; mk_numeral (Z.of_nat shift) bv_size])
          | None => BR_DONE (bv_app OP_BUDIV_I [] [arg1; arg2])
          end
      end
  end.

Definition mk_bv_srem_core (hi_div0 : bool) (arg1 arg2 : expr) : br_status :=
  match is_numeral arg2 with
  | None => div_general hi_div0 OP_BSREM0 OP_BSREM_I arg1 arg2
  | Some (r2, bv_size) =>
      let r2 := norm r2 bv_size true in
      if r2 =? 0 then
        if negb hi_div0 then BR_REWRITE1 (bv_app OP_BSREM0 [] [arg1]) else BR_DONE arg1
      else if r2 =? 1 then BR_DONE (mk_numeral 0 bv_size)
      else match is_numeral arg1 with
      | Some (r1, bv_size) => BR_DONE (mk_numeral (Z.rem (norm r1 bv_size true) r2) bv_size)
      | None => BR_DONE (bv_app OP_BSREM_I [] [arg1; arg2])
      end
  end.

(** The rules of [urem] for a divisor that is not a numeral. *)
Definition urem_special (hi_div0 : bool) (arg1 arg2 : expr) : br_status :=
  let is_zero1 := numeral_is (fun r1 _ => r1 =? 0) arg1 in
  let minus_one := match is_x_minus_one arg1 with Some x => bool_decide (x = arg2) | None => false end in
  if negb hi_div0 then
    if is_zero1 then BR_REWRITE2 (m_mk_ite (m_mk_eq arg2 arg1) (bv_app OP_BUREM0 [] [arg1]) arg1)
    else if minus_one then
      let bv_size := get_bv_size arg1 in
      BR_REWRITE2 (m_mk_ite (m_mk_eq arg2 (mk_numeral 0 bv_size))
                     (bv_app OP_BUREM0 [] [mk_numeral (all_ones bv_size) bv_size]) arg1)
    else BR_FAILED
  else if is_zero1 then BR_DONE arg1
  else if minus_one then BR_DONE arg1
  else BR_FAILED.

Definition mk_bv_urem_core (hi_div0 : bool) (arg1 arg2 : expr) : br_status :=
  match is_numeral arg2 with
  | None => br_else (urem_special hi_div0 arg1 arg2) (div_general hi_div0 OP_BUREM0 OP_BUREM_I arg1 arg2)
  | Some (r2, bv_size) =>
      let r2 := norm r2 bv_size false in
      if r2 =? 0 then
        if negb hi_div0 then BR_REWRITE1 (bv_app OP_BUREM0 [] [arg1]) else BR_DONE arg1
      else if r2 =? 1 then BR_DONE (mk_numeral 0 bv_size)
      else match is_numeral arg1 with
      | Some (r1, _) => BR_DONE (mk_numeral (Z.rem (norm r1 bv_size false) r2) bv_size)
      | None =>
          match is_power_of_two r2 with
          | Some shift =>
              BR_REWRITE2 (mk_bv_concat [mk_numeral 0 (bv_size - shift); mk_bv_extract (shift - 1) 0 arg1])
          | None => BR_DONE (bv_app OP_BUREM_I [] [arg1; arg2])
          end
      end
  end.

(** The modulus of two numerals, given as signed numbers, the second not zero. *)
Definition smod_numerals (r1 r2 : Z) (bv_size : nat) : Z :=
  let abs_r1 := norm (Z.abs r1) bv_size false in
  let abs_r2 := norm (Z.abs r2) bv_size false in
  let u := norm (Z.rem abs_r1 abs_r2) bv_size false in
  if u =? 0 then u
  else if (0 <? r1) && (0 <? r2) then u
  else if (r1 <? 0) && (0 <? r2) then norm (- u + r2) bv_size false
  else if (0 <? r1) && (r2 <? 0) then norm (u + r2) bv_size false
  else norm (- u) bv_size false.

Definition mk_bv_smod_core (hi_div0 : bool) (arg1 arg2 : expr) : br_status :=
  let r1 := '(r1, bv_size) ← is_numeral arg1; Some (norm r1 bv_size true) in
  if match r1 with Some r1 => r1 =? 0 | None => false end
  then BR_REWRITE1 (bv_app OP_BUREM [] [arg1; arg2])
  else match is_numeral arg2 with
  | None => div_general hi_div0 OP_BSMOD0 OP_BSMOD_I arg1 arg2
  | Some (r2, bv_size) =>
      let r2 := norm r2 bv_size true in
      if r2 =? 0 then BR_DONE (if negb hi_div0 then bv_app OP_BSMOD0 [] [arg1] else arg1)
      else match r1 with
      | Some r1 => BR_DONE (mk_numeral (smod_numerals r1 r2 bv_size) bv_size)
      | None =>
          if r2 =? 1 then BR_REWRITE2 (mk_numeral 0 bv_size)
          else div_general hi_div0 OP_BSMOD0 OP_BSMOD_I arg1 arg2
      end
  end.
