(* ===== verification/BvRewriterBits.v ===== *)
(** bv_rewriter, fourth part: the bitwise operators, sums and products. Two
    rules of [rw_or], [rw_xor] and [rw_mul] ask for a vector of no
    bits, on which the plugin throws: these functions have a [res] result. *)
From S2P Require Import Prelude Text Ast AstSem BoolRewriter BvPlugin PolyRewriter BvRewriterLeq.

Section Rewriter.
Context (p : bv_params) (get_id : expr -> Z).

(** ** Shared steps *)

(** The first concatenation among the arguments gives the place to split all. *)
Definition split_at (k : bv_op_kind) (sz1 sz2 : nat) (args : list expr) : res expr :=
  if Nat.eqb sz1 sz2 then Fault Z3Exception
  else
    let args1 := map (mk_bv_extract (sz2 - 1) (sz2 - sz1)) args in
    let args2 := map (mk_bv_extract (sz2 - sz1 - 1) 0) args in
    Ok (mk_bv_concat [bv_app k [] args1; bv_app k [] args2]).
Definition distribute_concat (k : bv_op_kind) (args : list expr) : res (option expr) :=
  match List.find is_concat args with
  | None => Ok None
  | Some arg => result ← split_at k (get_bv_size (get_arg arg 0)) (get_bv_size arg) args; Ok (Some result)
  end.

(** One level of flattening. *)
Definition flat_args (same : expr -> bool) (args : list expr) : list expr :=
  if m_flat p then concat (map (fun arg => if same arg then get_args arg else [arg]) args) else args.

(** The bits of [v1] equal to [b] from position [i] on: the position after them
    and the rest of [v1]; at most [fuel] bits. *)
Fixpoint bit_run (b : bool) (fuel i : nat) (v1 : Z) : nat * Z :=
  match fuel with
  | O => (i, v1)
  | Datatypes.S fuel => if Bool.eqb (Z.odd v1) b then bit_run b fuel (i + 1) (v1 / 2) else (i, v1)
  end.

(** The runs of ones and of zeros of a mask from position [i] on, the lowest first. *)
Fixpoint mask_runs (ones zeros : nat -> nat -> expr) (fuel sz i : nat) (v1 : Z) : list expr :=
  match fuel with
  | O => []
  | Datatypes.S fuel =>
      if Nat.ltb i sz then
        let '(j, v1) := bit_run true (sz - i) i v1 in
        let '(k, v1) := bit_run false (sz - j) j v1 in
        (if Nat.eqb j i then [] else [ones (j - 1)%nat i])
          ++ (if Nat.eqb k j then [] else [zeros (k - 1)%nat j])
          ++ mask_runs ones zeros fuel sz k v1
      else []
  end.

(** ** Disjunction *)

(** What the loop over the arguments leaves. *)
Record or_state := {
  or_v1 : Z;
  or_coeffs : nat;
  or_merged : bool;
  or_pos : list expr;
  or_neg : list expr;
  or_args : list expr
}.

(** [None]: an argument and its complement. *)
Definition or_step (s : or_state) (arg : expr) : option or_state :=
  match is_numeral arg with
  | Some (v2, _) =>
      Some {| or_v1 := Z.lor (or_v1 s) v2; or_coeffs := Datatypes.S (or_coeffs s); or_merged := or_merged s;
              or_pos := or_pos s; or_neg := or_neg s; or_args := or_args s |}
  | None =>
      let merge := Some {| or_v1 := or_v1 s; or_coeffs := or_coeffs s; or_merged := true;
                           or_pos := or_pos s; or_neg := or_neg s; or_args := or_args s |} in
      if is_bv_not arg then
        let atom := get_arg arg 0 in
        if bool_decide (atom ∈ or_pos s) then None
        else if bool_decide (atom ∈ or_neg s) then merge
        else Some {| or_v1 := or_v1 s; or_coeffs := or_coeffs s; or_merged := or_merged s;
                     or_pos := or_pos s; or_neg := atom :: or_neg s; or_args := or_args s ++ [arg] |}
      else if bool_decide (arg ∈ or_pos s) then merge
      else if bool_decide (arg ∈ or_neg s) then None
      else Some {| or_v1 := or_v1 s; or_coeffs := or_coeffs s; or_merged := or_merged s;
                   or_pos := arg :: or_pos s; or_neg := or_neg s; or_args := or_args s ++ [arg] |}
  end.

Fixpoint or_loop (s : or_state) (args : list expr) : option or_state :=
  match args with
  | [] => Some s
  | arg :: args => s ← or_step s arg; or_loop s args
  end.

(** (bvor (concat x #x00) (concat #x00 y)): from the highest bit down, the runs
    where the first is zero are taken from the second, and conversely. *)
Fixpoint merge_runs (fuel k : nat) (concat1 concat2 : expr) : list expr :=
  match fuel, k with
  | _, O | O, _ => []
  | Datatypes.S fuel, _ =>
      let k1 := zero_prefix concat1 k in
      let k2 := zero_prefix concat2 k1 in
      (if Nat.eqb k1 k then [] else [mk_bv_extract (k - 1) k1 concat2])
        ++ (if Nat.eqb k2 k1 then [] else [mk_bv_extract (k1 - 1) k2 concat1])
        ++ merge_runs fuel k2 concat1 concat2
  end.

Definition disjoint_bits (sz : nat) (x y : expr) : bool :=
  forallb (fun i => is_zero_bit x i || is_zero_bit y i) (seq 0 sz).

Definition merge_concats (sz : nat) (s : or_state) : option expr :=
  match or_args s with
  | [concat1; concat2] =>
      if Nat.eqb (or_coeffs s) 0 && is_concat concat1 && is_concat concat2 && disjoint_bits sz concat1 concat2
      then Some (mk_bv_concat (merge_runs sz sz concat1 concat2)) else None
  | _ => None
  end.

Definition mask_or (sz : nat) (v1 : Z) (t : expr) : expr :=
  mk_bv_concat (rev (mask_runs
    (fun hi lo => mk_numeral (all_ones (hi - lo + 1)) (hi - lo + 1))
    (fun hi lo => mk_bv_extract hi lo t) sz sz 0 (norm v1 sz false))).

(** The end of [rw_or] and [rw_xor]: sort, distribute or build. *)
Definition sort_ac (l : list expr) : list expr := if m_bv_sort_ac p then sort_exprs l else l.
Definition rebuild (k : bv_op_kind) (l : list expr) : res br_status :=
  let l := sort_ac l in
  d ← distribute_concat k l;
  Ok (match d with Some result => BR_REWRITE3 result | None => BR_DONE (bv_app k [] l) end).

Definition or_finish (sz : nat) (s : or_state) : res br_status :=
  match or_args s ++ (if or_v1 s =? 0 then [] else [mk_numeral (or_v1 s) sz]) with
  | [] => Ok (BR_DONE (mk_numeral 0 sz))
  | [a] => Ok (BR_DONE a)
  | new_args => rebuild OP_BOR new_args
  end.

Definition rw_or (args : list expr) : res br_status :=
  match args with
  | [] => Ok BR_FAILED
  | [a] => Ok (BR_DONE a)
  | a :: _ =>
      let sz := get_bv_size a in
      let flat := flat_args is_bv_or args in
      let flattened := negb (Nat.eqb (length flat) (length args)) in
      match or_loop {| or_v1 := 0; or_coeffs := 0; or_merged := false;
                       or_pos := []; or_neg := []; or_args := [] |} flat with
      | None => Ok (BR_DONE (mk_numeral (all_ones sz) sz))
      | Some s =>
          if or_v1 s =? all_ones sz then Ok (BR_DONE (mk_numeral (or_v1 s) sz))
          else match merge_concats sz s with
          | Some result => Ok (BR_REWRITE2 result)
          | None =>
              if negb (or_v1 s =? 0) && Nat.eqb (length (or_args s)) 1
              then Ok (BR_REWRITE2 (mask_or sz (or_v1 s) (List.hd m_false (or_args s))))
              else if negb flattened && negb (or_merged s)
                      && (Nat.eqb (or_coeffs s) 0 || (Nat.eqb (or_coeffs s) 1 && negb (or_v1 s =? 0)))
                      && (negb (m_bv_sort_ac p) || is_sorted flat)
              then Ok BR_FAILED
              else or_finish sz s
          end
      end
  end.

(** ** Exclusive or *)

Record xor_state := {
  xor_v1 : Z;
  xor_coeffs : nat;
  xor_merged : bool;
  xor_pos : list expr;
  xor_neg : list expr
}.

Definition unmark (x : expr) (l : list expr) : list expr := List.filter (fun y => negb (bool_decide (y = x))) l.

Definition xor_step (sz : nat) (s : xor_state) (arg : expr) : xor_state :=
  match is_numeral arg with
  | Some (v2, _) =>
      {| xor_v1 := Z.lxor (xor_v1 s) v2; xor_coeffs := Datatypes.S (xor_coeffs s);
         xor_merged := xor_merged s; xor_pos := xor_pos s; xor_neg := xor_neg s |}
  | None =>
      let flipped := Z.lxor (xor_v1 s) (all_ones sz) in
      if is_bv_not arg then
        let atom := get_arg arg 0 in
        if bool_decide (atom ∈ xor_neg s) then
          {| xor_v1 := xor_v1 s; xor_coeffs := xor_coeffs s; xor_merged := true;
             xor_pos := xor_pos s; xor_neg := unmark atom (xor_neg s) |}
        else if bool_decide (atom ∈ xor_pos s) then
          {| xor_v1 := flipped; xor_coeffs := xor_coeffs s; xor_merged := true;
             xor_pos := unmark atom (xor_pos s); xor_neg := xor_neg s |}
        else
          {| xor_v1 := xor_v1 s; xor_coeffs := xor_coeffs s; xor_merged := xor_merged s;
             xor_pos := xor_pos s; xor_neg := atom :: xor_neg s |}
      else if bool_decide (arg ∈ xor_pos s) then
        {| xor_v1 := xor_v1 s; xor_coeffs := xor_coeffs s; xor_merged := true;
           xor_pos := unmark arg (xor_pos s); xor_neg := xor_neg s |}
      else if bool_decide (arg ∈ xor_neg s) then
        {| xor_v1 := flipped; xor_coeffs := xor_coeffs s; xor_merged := true;
           xor_pos := xor_pos s; xor_neg := unmark arg (xor_neg s) |}
      else
        {| xor_v1 := xor_v1 s; xor_coeffs := xor_coeffs s; xor_merged := xor_merged s;
           xor_pos := arg :: xor_pos s; xor_neg := xor_neg s |}
  end.

(** The arguments still marked, in their order, each once. *)
Fixpoint xor_new_args (pos neg args : list expr) : list expr :=
  match args with
  | [] => []
  | arg :: rest =>
      if is_num arg then xor_new_args pos neg rest
      else if is_bv_not arg then
        let atom := get_arg arg 0 in
        if bool_decide (atom ∈ neg) then arg :: xor_new_args pos (unmark atom neg) rest
        else xor_new_args pos neg rest
      else if bool_decide (arg ∈ pos) then arg :: xor_new_args (unmark arg pos) neg rest
      else xor_new_args pos neg rest
  end.

Definition mask_xor (sz : nat) (v1 : Z) (t : expr) : expr :=
  let not_t := mk_bv_not t in
  match rev (mask_runs (fun hi lo => mk_bv_extract hi lo not_t) (fun hi lo => mk_bv_extract hi lo t) sz sz 0 v1) with
  | [e] => e
  | exs => mk_bv_concat exs
  end.

Definition xor_finish (sz : nat) (s : xor_state) (args : list expr) : res br_status :=
  match (if xor_v1 s =? 0 then [] else [mk_numeral (xor_v1 s) sz])
          ++ xor_new_args (xor_pos s) (xor_neg s) args with
  | [] => Ok (BR_DONE (mk_numeral 0 sz))
  | [a] => Ok (BR_DONE a)
  | [a; b] => if is_allone a then Ok (BR_DONE (mk_bv_not b)) else rebuild OP_BXOR [a; b]
  | new_args => rebuild OP_BXOR new_args
  end.

Definition rw_xor (args : list expr) : res br_status :=
  match args with
  | [] => Ok BR_FAILED
  | [a] => Ok (BR_DONE a)
  | a :: _ =>
      let sz := get_bv_size a in
      let flat := flat_args is_bv_xor args in
      let flattened := negb (Nat.eqb (length flat) (length args)) in
      let s := foldl (xor_step sz)
        {| xor_v1 := 0; xor_coeffs := 0; xor_merged := false; xor_pos := []; xor_neg := [] |} flat in
      if negb (xor_v1 s =? 0) && Nat.eqb (xor_coeffs s) (length flat - 1) then
        let t := default m_false (List.find (fun t => negb (is_num t)) flat) in
        Ok (BR_REWRITE3 (mask_xor sz (xor_v1 s) t))
      else if negb (xor_merged s) && negb flattened
              && (Nat.eqb (xor_coeffs s) 0
                  || (Nat.eqb (xor_coeffs s) 1 && negb (xor_v1 s =? 0) && negb (xor_v1 s =? all_ones sz)))
              && (negb (m_bv_sort_ac p) || is_sorted flat)
      then
        d ← distribute_concat OP_BXOR flat;
        Ok (match d with Some result => BR_REWRITE3 result | None => BR_FAILED end)
      else xor_finish sz s flat
  end.

(** ** Negation and the operators defined from it *)

(** A term whose negation is at hand, and the negation. *)
Definition is_negatable (arg : expr) : option expr :=
  match is_numeral arg with
  | Some (r, bv_size) => Some (mk_numeral (bitwise_not bv_size r) bv_size)
  | None => if is_bv_not arg then Some (get_arg arg 0) else None
  end.

Definition bvnot_simpl (arg : expr) : br_status :=
  let mul :=
    '(s, t) ← match_binary OP_BMUL arg;
    if is_allone s || is_allone t then Some (bv_app OP_BADD [] [s; t]) else None in
  let add :=
    '(s, t) ← match_binary OP_BADD arg;
    nt ← is_negatable t;
    ns ← is_negatable s;
    Some (bv_app OP_BADD [] [mk_numeral 1 (get_bv_size s); ns; nt]) in
  match mul, add with
  | Some result, _ | None, Some result => BR_REWRITE1 result
  | None, None => BR_FAILED
  end.

Definition rw_not (arg : expr) : br_status :=
  if is_bv_not arg then BR_DONE (get_arg arg 0)
  else match is_numeral arg with
  | Some (val, bv_size) => BR_DONE (mk_numeral (bitwise_not bv_size val) bv_size)
  | None =>
      if is_concat arg then BR_REWRITE2 (mk_bv_concat (map mk_bv_not (get_args arg)))
      else if m_bvnot_simpl p then bvnot_simpl arg
      else BR_FAILED
  end.

Definition mk_bv_and (args : list expr) : br_status :=
  BR_REWRITE3 (mk_bv_not (mk_bv_or (map mk_bv_not args))).
Definition mk_bv_nand (args : list expr) : br_status :=
  BR_REWRITE2 (mk_bv_or (map mk_bv_not args)).
Definition mk_bv_nor (args : list expr) : br_status :=
  BR_REWRITE2 (mk_bv_not (mk_bv_or args)).

Definition xnor2 (a b : expr) : expr := mk_bv_not (mk_bv_xor [a; b]).
Definition mk_bv_xnor (args : list expr) : br_status :=
  match args with
  | [] => BR_REWRITE2 m_true
  | [a] => BR_REWRITE2 (mk_bv_not a)
  | [a; b] => BR_REWRITE2 (xnor2 a b)
  | a :: b :: rest => BR_REWRITE_FULL (foldl xnor2 (xnor2 a b) rest)
  end.

(** ** Reductions and comparison *)

Definition mk_bv_redor (arg : expr) : br_status :=
  if is_num arg then BR_DONE (if is_zero arg then mk_numeral 0 1 else mk_numeral 1 1) else BR_FAILED.

Definition mk_bv_redand (arg : expr) : br_status :=
  match is_numeral arg with
  | Some (r, bv_size) => BR_DONE (if r =? all_ones bv_size then mk_numeral 1 1 else mk_numeral 0 1)
  | None => BR_FAILED
  end.

Definition mk_bv_comp (arg1 arg2 : expr) : br_status :=
  if bool_decide (arg1 = arg2) then BR_DONE (mk_numeral 1 1)
  else if is_num arg1 && is_num arg2 then BR_DONE (mk_numeral 0 1)
  else BR_REWRITE2 (m_mk_ite (m_mk_eq arg1 arg2) (mk_numeral 1 1) (mk_numeral 0 1)).

(** ** Sums and products *)

(** At most one of the arguments may have a one at each position. *)
Definition at_most_one (l : list expr) (i : nat) : bool :=
  Nat.leb (length (List.filter (fun x => negb (is_zero_bit x i)) l)) 1.
Definition disjoint_args (l : list expr) : bool :=
  Nat.leb 2 (length l) && forallb (at_most_one l) (seq 0 (get_bv_size (List.hd m_false l))).

Definition mk_bv_add (args : list expr) : br_status :=
  let st := mk_add_core (m_poly p) get_id args in
  let or_of l := if disjoint_args l then BR_REWRITE1 (mk_bv_or l) else st in
  match st with
  | BR_FAILED => or_of args
  | BR_DONE result => if is_bv_add result then or_of (get_args result) else st
  | _ => st
  end.

(** A power of two times a term. *)
Definition mul2concat (x y : expr) (st : br_status) : res br_status :=
  if m_mul2concat p then
    match is_numeral x with
    | Some (v, bv_size) =>
        match is_power_of_two v with
        | Some O => Fault Z3Exception
        | Some shift =>
            Ok (BR_REWRITE2 (mk_bv_concat [mk_bv_extract (bv_size - shift - 1) 0 y; mk_numeral 0 shift]))
        | None => Ok st
        end
    | None => Ok st
    end
  else Ok st.

Definition rw_mul (args : list expr) : res br_status :=
  let st := mk_mul_core (m_poly p) get_id args in
  match st, args with
  | BR_FAILED, [x; y] => mul2concat x y st
  | BR_DONE result, _ =>
      match match_binary OP_BMUL result with Some (x, y) => mul2concat x y st | None => Ok st end
  | _, _ => Ok st
  end.
End Rewriter.
