(* ===== verification/BvRewriterEq.v ===== *)
(** bv_rewriter, fifth part: equality, bits, if-then-else and the overflow
    predicates of multiplication. *)
From S2P Require Import Prelude Text Ast AstSem BoolRewriter BvPlugin PolyRewriter BvRewriterLeq BvRewriterTerms.

Section Rewriter.
Context (p : bv_params).

(** ** Bits *)

(** A bit of a vector as a formula. *)
Definition rw_bit2bool (n : expr) (idx : nat) : br_status :=
  if is_mkbv n then BR_DONE (get_arg n idx)
  else match is_numeral n with
  | None => BR_FAILED
  | Some (v, sz) =>
      if Nat.leb sz idx then BR_FAILED
      else BR_DONE (mk_bool_val ((v / 2 ^ Z.of_nat idx) mod 2 =? 1))
  end.

(** A list of Booleans, the lowest bit first, as a number. *)
Fixpoint bools_val (args : list expr) : Z :=
  match args with
  | [] => 0
  | arg :: args => bools_val args * 2 + (if is_true arg then 1 else 0)
  end.

Definition mk_mkbv (args : list expr) : br_status :=
  if m_mkbv2num p then
    if forallb (fun arg => is_true arg || is_false arg) args
    then BR_DONE (mk_numeral (bools_val args) (length args))
    else BR_FAILED
  else BR_FAILED.

(** An equation between vectors of one bit; [rhs] is a numeral of value [v]. *)
Definition bit_eq_ops (lhs rhs : expr) (v : Z) : br_status :=
  let is_one := v =? 1 in
  let bit1 := if is_one then rhs else mk_numeral 1 1 in
  let eqs := map (fun arg => m_mk_eq arg bit1) (get_args lhs) in
  if is_bv_not lhs then BR_REWRITE1 (m_mk_eq (get_arg lhs 0) (mk_numeral (1 - v) 1))
  else if is_bv_or lhs then
    if is_one then BR_REWRITE2 (m_mk_or eqs) else BR_REWRITE3 (m_mk_not (m_mk_or eqs))
  else if is_bv_xor lhs then
    if is_one then BR_REWRITE2 (m_mk_xor eqs) else BR_REWRITE3 (m_mk_not (m_mk_xor eqs))
  else BR_FAILED.

Definition bit_eq (lhs rhs : expr) : br_status :=
  if negb (Nat.eqb (get_bv_size lhs) 1) then BR_FAILED
  else
    let '(lhs, rhs) := if is_num lhs then (rhs, lhs) else (lhs, rhs) in
    match is_numeral rhs with
    | None => BR_FAILED
    | Some (v, _) =>
        if is_num lhs then BR_DONE (mk_bool_val (bool_decide (lhs = rhs)))
        else if is_ite lhs then
          BR_REWRITE2 (m_mk_ite (get_arg lhs 0) (m_mk_eq (get_arg lhs 1) rhs) (m_mk_eq (get_arg lhs 2) rhs))
        else bit_eq_ops lhs rhs v
    end.

(** ** Equality *)

Definition mk_blast_eq_value (lhs rhs : expr) : br_status :=
  if Nat.eqb (get_bv_size lhs) 1 then BR_FAILED
  else
    let '(lhs, rhs) := if is_num lhs then (rhs, lhs) else (lhs, rhs) in
    match is_numeral rhs with
    | None => BR_FAILED
    | Some (v, sz) =>
        if negb (is_bv_or lhs) && negb (is_bv_xor lhs) && negb (is_bv_not lhs) then BR_FAILED
        else BR_REWRITE3 (m_mk_and
          (map (fun i => m_mk_eq (mk_bv_extract i i lhs) (mk_numeral (v / 2 ^ Z.of_nat i mod 2) 1)) (seq 0 sz)))
    end.

(** The pieces of two concatenations, from the last argument of both on, that
    cover the same bits; [low1] and [low2]: the bits of the heads already
    covered. Every step finishes an argument. *)
Fixpoint concat_eqs (fuel low1 low2 : nat) (args1 args2 : list expr) : list expr :=
  match fuel, args1, args2 with
  | Datatypes.S fuel, arg1 :: rest1, arg2 :: rest2 =>
      let sz1 := get_bv_size arg1 in
      let sz2 := get_bv_size arg2 in
      let rsz1 := (sz1 - low1)%nat in
      let rsz2 := (sz2 - low2)%nat in
      if Nat.eqb rsz1 rsz2 then
        m_mk_eq (mk_bv_extract (sz1 - 1) low1 arg1) (mk_bv_extract (sz2 - 1) low2 arg2)
          :: concat_eqs fuel 0 0 rest1 rest2
      else if Nat.ltb rsz1 rsz2 then
        m_mk_eq (mk_bv_extract (sz1 - 1) low1 arg1) (mk_bv_extract (rsz1 + low2 - 1) low2 arg2)
          :: concat_eqs fuel 0 (low2 + rsz1) rest1 args2
      else
        m_mk_eq (mk_bv_extract (rsz2 + low1 - 1) low1 arg1) (mk_bv_extract (sz2 - 1) low2 arg2)
          :: concat_eqs fuel (low1 + rsz2) 0 args1 rest2
  | _, _, _ => []
  end.

Definition concat_args (e : expr) : list expr := if is_concat e then get_args e else [e].
Definition mk_eq_concat (lhs rhs : expr) : br_status :=
  let args1 := rev (concat_args lhs) in
  let args2 := rev (concat_args rhs) in
  BR_REWRITE3 (m_mk_and (concat_eqs (length args1 + length args2) 0 0 args1 args2)).

Definition is_concat_split_target (t : expr) : bool :=
  m_split_concat_eq p || is_concat t || is_num t || is_bv_or t.
Definition is_concat_target (lhs rhs : expr) : bool :=
  (is_concat lhs && is_concat_split_target rhs) || (is_concat rhs && is_concat_split_target lhs).

(** [bv_rewriter_core::is_minus_one]. *)
Definition is_minus_one (e : expr) : bool := is_allone e.
Definition is_minus_one_times_t (arg : expr) : bool :=
  match match_binary OP_BMUL arg with Some (t1, _) => is_minus_one t1 | None => false end.

Definition mk_bv_sub (a b : expr) : expr := bv_app OP_BSUB [] [a; b].
Definition mk_bv_mul (a b : expr) : expr := bv_app OP_BMUL [] [a; b].

Definition mk_t1_add_t2_eq_c (t1 t2 c : expr) : expr :=
  if is_minus_one_times_t t1 then m_mk_eq t2 (mk_bv_sub c t1) else m_mk_eq t1 (mk_bv_sub c t2).

Definition isolate_term (lhs rhs : expr) : option expr :=
  let '(lhs, rhs) := if negb (is_num lhs) || negb (is_bv_add rhs) then (rhs, lhs) else (lhs, rhs) in
  if negb (is_num lhs) || negb (is_bv_add rhs) then None
  else match get_args rhs with
  | t1 :: rest =>
      let t2 := match rest with [t2] => t2 | _ => bv_app OP_BADD [] rest end in
      Some (mk_t1_add_t2_eq_c t1 t2 lhs)
  | [] => None
  end.

(** A product with a numeral first: the numeral, the other factor. *)
Definition match_coeff (e : expr) : option (Z * nat * expr) :=
  '(c, x) ← match_binary OP_BMUL e; '(c_val, sz) ← is_numeral c; Some (c_val, sz, x).

Definition is_add_mul_const (e : expr) : bool :=
  is_bv_add e
  && forallb (fun arg => is_num arg || match match_coeff arg with Some _ => true | None => false end)
       (get_args e).

(** c * x = rhs, for [c] with an inverse. *)
Definition mul_eq_inverse (c_inv_val : Z) (sz : nat) (x rhs : expr) : br_status :=
  match is_numeral rhs with
  | Some (rhs_val, sz) => BR_REWRITE1 (m_mk_eq x (mk_numeral (c_inv_val * rhs_val) sz))
  | None =>
      match match_coeff rhs with
      | Some (c2_val, sz, x2) =>
          let new_c2 := norm (c_inv_val * c2_val) sz false in
          if new_c2 =? 1 then BR_REWRITE1 (m_mk_eq x x2)
          else BR_REWRITE1 (m_mk_eq x (mk_bv_mul (mk_numeral (c_inv_val * c2_val) sz) x2))
      | None =>
          if is_add_mul_const rhs
          then BR_REWRITE2 (m_mk_eq x (mk_bv_mul (mk_numeral c_inv_val sz) rhs))
          else BR_FAILED
      end
  end.

(** The inverse of the first coefficient of a sum that has one. *)
Fixpoint first_inverse (args : list expr) : option (Z * nat) :=
  match args with
  | [] => None
  | arg :: rest =>
      let inverse :=
        '(c2_val, sz, _) ← match_coeff arg; c2_inv_val ← mult_inverse c2_val sz; Some (c2_inv_val, sz) in
      match inverse with Some r => Some r | None => first_inverse rest end
  end.

Definition mk_mul_eq (lhs rhs : expr) : br_status :=
  let product :=
    '(c_val, sz, x) ← match_coeff lhs; c_inv_val ← mult_inverse c_val sz; Some (c_inv_val, sz, x) in
  br_else
    match product with
    | Some (c_inv_val, sz, x) => mul_eq_inverse c_inv_val sz x rhs
    | None => BR_FAILED
    end
    match is_numeral lhs with
    | Some (c_val, sz) =>
        if is_add_mul_const rhs then
          match first_inverse (get_args rhs) with
          | Some (c2_inv_val, sz) =>
              BR_REWRITE3 (m_mk_eq (mk_numeral (c2_inv_val * c_val) sz)
                             (mk_bv_mul (mk_numeral c2_inv_val sz) rhs))
          | None => BR_FAILED
          end
        else BR_FAILED
    | None => BR_FAILED
    end.

Definition is_urem_any (e : expr) : option (expr * expr) :=
  match match_binary OP_BUREM e with Some r => Some r | None => match_binary OP_BUREM_I e end.

(** A remainder by a numeral equal to a numeral. *)
Definition urem_eq (lhs rhs : expr) : br_status :=
  let parts :=
    '(dividend, divisor) ← is_urem_any lhs;
    '(rhs_val, _) ← is_numeral rhs;
    '(divisor_val, divisor_sz) ← is_numeral divisor;
    Some (dividend, rhs_val, divisor_val, divisor_sz) in
  match parts with
  | Some (dividend, rhs_val, divisor_val, divisor_sz) =>
      if negb (divisor_val =? 0) && (divisor_val <=? rhs_val) then BR_DONE m_false
      else if 2 ^ Z.of_nat divisor_sz <=? divisor_val + rhs_val then BR_REWRITE2 (m_mk_eq dividend rhs)
      else BR_FAILED
  | None => BR_FAILED
  end.

(** Sums and products on either side. *)
Definition arith_eq (lhs rhs : expr) : br_status :=
  if is_bv_add lhs || is_bv_mul lhs || is_bv_add rhs || is_bv_mul rhs then
    let st := cancel_monomials (get_bv_size lhs) lhs rhs in
    let '(lhs, rhs) := default (lhs, rhs) st in
    let cancelled := match st with Some _ => true | None => false end in
    if cancelled && is_num lhs && is_num rhs then BR_DONE (mk_bool_val (bool_decide (lhs = rhs)))
    else match isolate_term lhs rhs with
    | Some result => BR_REWRITE2 result
    | None =>
        if is_concat_target lhs rhs then mk_eq_concat lhs rhs
        else if cancelled then BR_DONE (m_mk_eq lhs rhs)
        else BR_FAILED
    end
  else BR_FAILED.

Definition rw_eq (lhs rhs : expr) : br_status :=
  if bool_decide (lhs = rhs) then BR_DONE m_true
  else if is_num lhs && is_num rhs then BR_DONE m_false
  else
    let swapped := is_num lhs in
    let '(lhs, rhs) := if swapped then (rhs, lhs) else (lhs, rhs) in
    br_else (if m_bit2bool p then bit_eq lhs rhs else BR_FAILED)
      (br_else (mk_mul_eq lhs rhs)
        (br_else (mk_mul_eq rhs lhs)
          (br_else (if m_blast_eq_value p then mk_blast_eq_value lhs rhs else BR_FAILED)
            (br_else (urem_eq lhs rhs)
              (br_else (arith_eq lhs rhs)
                (if is_concat_target lhs rhs then mk_eq_concat lhs rhs
                 else if swapped then BR_DONE (m_mk_eq lhs rhs)
                 else BR_FAILED)))))).

(** ** If-then-else *)

(** The choice between [t] and [e] on lhs = rhs, when all are vectors. *)
Definition ite2id (lhs rhs t e : expr) : br_status :=
  let '(lhs, rhs) := if is_num lhs then (rhs, lhs) else (lhs, rhs) in
  if (are_equal lhs t && are_equal rhs e) || (are_equal lhs e && are_equal rhs t) then BR_REWRITE1 e
  else if Nat.eqb (get_bv_size rhs) 1 then
    match is_numeral rhs, is_numeral t, is_numeral e with
    | Some (rhs_n, _), Some (t_n, t_sz), Some (e_n, _) =>
        if Nat.eqb t_sz 1 then BR_REWRITE1 (if are_equal rhs t then lhs else mk_bv_not lhs)
        else if (rhs_n =? 1) && (t_n =? 1) && (e_n =? 0) then mk_zero_extend (t_sz - 1) lhs
        else if (rhs_n =? 0) && (t_n =? 1) && (e_n =? 0) then mk_zero_extend (t_sz - 1) (mk_bv_not lhs)
        else if (rhs_n =? 0) && (t_n =? 0) && (e_n =? 1) then mk_zero_extend (t_sz - 1) lhs
        else if (rhs_n =? 1) && (t_n =? 0) && (e_n =? 1) then mk_zero_extend (t_sz - 1) (mk_bv_not lhs)
        else BR_FAILED
    | _, _, _ => BR_FAILED
    end
  else BR_FAILED.

Definition rw_ite (c t e : expr) : br_status :=
  if are_equal t e then BR_REWRITE1 e
  else if is_not c then BR_REWRITE1 (m_mk_ite (get_arg c 0) e t)
  else if m_ite2id p && is_eq c && is_bv t && is_bv e && is_bv (get_arg c 1)
  then ite2id (get_arg c 0) (get_arg c 1) t e
  else BR_FAILED.

(** ** Overflow of multiplication *)

(** A factor 0 or 1, then two numerals, which [fits] decides. *)
Definition mul_no_overflow (fits : Z -> Z -> nat -> bool) (a0 a1 : expr) : br_status :=
  let trivial := numeral_is (fun v _ => (v =? 0) || (v =? 1)) in
  if trivial a0 then BR_DONE m_true
  else if trivial a1 then BR_DONE m_true
  else match is_numeral a0, is_numeral a1 with
  | Some (a0_val, _), Some (a1_val, bv_sz) => BR_DONE (mk_bool_val (fits a0_val a1_val bv_sz))
  | _, _ => BR_FAILED
  end.

Definition mk_bvsmul_no_overflow : expr -> expr -> br_status :=
  mul_no_overflow (fun a0_val a1_val bv_sz => a0_val * a1_val <? 2 ^ (Z.of_nat bv_sz - 1)).
Definition mk_bvumul_no_overflow : expr -> expr -> br_status :=
  mul_no_overflow (fun a0_val a1_val bv_sz => a0_val * a1_val <? 2 ^ Z.of_nat bv_sz).
Definition mk_bvsmul_no_underflow : expr -> expr -> br_status :=
  mul_no_overflow (fun a0_val a1_val bv_sz =>
    let ul := 2 ^ Z.of_nat bv_sz in
    let lim := 2 ^ (Z.of_nat bv_sz - 1) in
    let a0_val := if lim <=? a0_val then a0_val - ul else a0_val in
    let a1_val := if lim <=? a1_val then a1_val - ul else a1_val in
    - lim <=? a0_val * a1_val).
End Rewriter.
