(* ===== verification/BvRewriter.v ===== *)
(** bv_rewriter (bv_rewriter.h, bv_rewriter.cpp): the rewriting of an
    application of the bit-vector family, over the parts in the BvRewriter
    files. The two conversions from and to the integers build terms of the
    arithmetic plugin, which has no model: their rewriting is a parameter. *)
From S2P Require Import Prelude Text Ast AstSem BoolRewriter BvPlugin PolyRewriter BvRewriterLeq BvRewriterTerms BvRewriterDiv BvRewriterBits BvRewriterEq.

Section Rewriter.
Context (p : bv_params) (get_id : expr -> Z) (ref_count : expr -> nat).
Context (mk_conversion : func_decl -> list expr -> br_status).

(** An integer parameter of a declaration. *)
Definition get_int (f : func_decl) : nat :=
  match params f with PInt n :: _ => n | _ => O end.

Definition with_unary (args : list expr) (k : expr -> br_status) : res br_status :=
  match args with [a] => Ok (k a) | _ => Ok BR_FAILED end.
Definition with_binary (args : list expr) (k : expr -> expr -> br_status) : res br_status :=
  match args with [a; b] => Ok (k a b) | _ => Ok BR_FAILED end.

(** [mk_app_core]; the arities the cases assert are those of the sorting rules. *)
Definition mk_app_core (f : func_decl) (k : bv_op_kind) (args : list expr) : res br_status :=
  match k with
  | OP_BIT0 => Ok (BR_DONE (mk_numeral 0 1))
  | OP_BIT1 => Ok (BR_DONE (mk_numeral 1 1))
  | OP_ULEQ => with_binary args (rw_ule p)
  | OP_UGEQ => with_binary args (rw_uge p)
  | OP_ULT => with_binary args rw_ult
  | OP_UGT => with_binary args (fun a b => rw_ult b a)
  | OP_SLEQ => with_binary args (rw_sle p)
  | OP_SGEQ => with_binary args (rw_sge p)
  | OP_SLT => with_binary args rw_slt
  | OP_SGT => with_binary args (fun a b => rw_slt b a)
  | OP_BADD => Ok (mk_bv_add p get_id args)
  | OP_BMUL => rw_mul p get_id args
  | OP_BSUB => Ok (mk_sub (get_bv_size (List.hd m_false args)) args)
  | OP_BNEG => with_unary args (fun a => mk_uminus (get_bv_size a) a)
  | OP_BSHL => with_binary args mk_bv_shl
  | OP_BLSHR => with_binary args mk_bv_lshr
  | OP_BASHR => with_binary args mk_bv_ashr
  | OP_BSDIV => with_binary args (mk_bv_sdiv_core (m_hi_div0 p))
  | OP_BUDIV => with_binary args (mk_bv_udiv_core (m_hi_div0 p))
  | OP_BSREM => with_binary args (mk_bv_srem_core (m_hi_div0 p))
  | OP_BUREM => with_binary args (mk_bv_urem_core (m_hi_div0 p))
  | OP_BSMOD => with_binary args (mk_bv_smod_core (m_hi_div0 p))
  | OP_BSDIV_I => with_binary args (mk_bv_sdiv_core true)
  | OP_BUDIV_I => with_binary args (mk_bv_udiv_core true)
  | OP_BSREM_I => with_binary args (mk_bv_srem_core true)
  | OP_BUREM_I => with_binary args (mk_bv_urem_core true)
  | OP_BSMOD_I => with_binary args (mk_bv_smod_core true)
  | OP_CONCAT => Ok (mk_concat p args)
  | OP_EXTRACT =>
      let '(high, low) := extract_params (App f args) in
      with_unary args (mk_extract p ref_count high low)
  | OP_REPEAT => with_unary args (mk_repeat (get_int f))
  | OP_ZERO_EXT => with_unary args (mk_zero_extend (get_int f))
  | OP_SIGN_EXT => with_unary args (mk_sign_extend p (get_int f))
  | OP_BOR => rw_or p args
  | OP_BXOR => rw_xor p args
  | OP_BNOT => with_unary args (rw_not p)
  | OP_BAND => Ok (mk_bv_and args)
  | OP_BNAND => Ok (mk_bv_nand args)
  | OP_BNOR => Ok (mk_bv_nor args)
  | OP_BXNOR => Ok (mk_bv_xnor args)
  | OP_ROTATE_LEFT => with_unary args (mk_bv_rotate_left (get_int f))
  | OP_ROTATE_RIGHT => with_unary args (mk_bv_rotate_right (get_int f))
  | OP_EXT_ROTATE_LEFT => with_binary args mk_bv_ext_rotate_left
  | OP_EXT_ROTATE_RIGHT => with_binary args mk_bv_ext_rotate_right
  | OP_BV2INT | OP_INT2BV => Ok (mk_conversion f args)
  | OP_BREDOR => with_unary args mk_bv_redor
  | OP_BREDAND => with_unary args mk_bv_redand
  | OP_BCOMP => with_binary args mk_bv_comp
  | OP_MKBV => Ok (mk_mkbv p args)
  | OP_BIT2BOOL => with_unary args (fun a => rw_bit2bool a (get_int f))
  | OP_BSMUL_NO_OVFL => with_binary args mk_bvsmul_no_overflow
  | OP_BUMUL_NO_OVFL => with_binary args mk_bvumul_no_overflow
  | OP_BSMUL_NO_UDFL => with_binary args mk_bvsmul_no_underflow
  | _ => Ok BR_FAILED
  end.
End Rewriter.

(** The defaults of bv_rewriter_params.pyg and poly_rewriter_params.pyg. *)
Definition default_bv_params : bv_params := {|
  m_hi_div0 := true;
  m_elim_sign_ext := true;
  m_mul2concat := false;
  m_bit2bool := true;
  m_blast_eq_value := false;
  m_mkbv2num := false;
  m_ite2id := false;
  m_split_concat_eq := false;
  m_bv_sort_ac := false;
  m_extract_prop := false;
  m_bvnot_simpl := false;
  m_le_extra := false;
  m_poly := default_poly_params
|}.
