(* ===== verification/BvRewriterLeqOk.v ===== *)
(** The comparisons of the bit-vector rewriter are correct: [rw_ule] and
    [rw_sle] return formulas that hold exactly when the first argument is at
    most the second, for all the options. *)
From S2P Require Import Prelude Text Bits Ast AstSem AstFacts BoolRewriter BoolRewriterOk BvPlugin BvFacts PolyRewriter PolyRewriterOk BvRewriterLeq.

(** ** Results *)

Lemma br_else_means I s v b k : br_means I s v b -> br_means I s v k -> br_means I s v (br_else b k).
Proof. by destruct b. Qed.

Lemma result_holds I b r st : br_result st = Some r -> holds I b r -> br_holds I b st.
Proof. destruct st; intros [= <-]; apply means_bool. Qed.

Lemma result_den I n v r st : br_result st = Some r -> den I n v r -> br_den I n v st.
Proof. destruct st; by intros [= <-]. Qed.

Lemma holds_val I b b' e : holds I b e -> b = b' -> holds I b' e.
Proof. by intros ? <-. Qed.

Lemma bool_val_holds I b : holds I b (mk_bool_val b).
Proof. destruct b; [apply holds_true|apply holds_false]. Qed.

(** ** Bits of numbers *)

Lemma testbit_cat u w c i :
  0 <= c < pow2 w ->
  Z.testbit (u * pow2 w + c) (Z.of_nat i)
  = if Nat.ltb i w then Z.testbit c (Z.of_nat i) else Z.testbit u (Z.of_nat (i - w)).
Proof.
  intros Hc. unfold pow2 in *. destruct (Nat.ltb_spec i w).
  - rewrite <- (Z.mod_pow2_bits_low _ (Z.of_nat w)) by lia.
    by rewrite Z.add_comm, Z.mod_add, Z.mod_small by lia.
  - replace (Z.of_nat i) with (Z.of_nat (i - w) + Z.of_nat w) by lia.
    rewrite <- Z.div_pow2_bits by lia. by rewrite Z.div_add_l, Z.div_small, Z.add_0_r by lia.
Qed.

Lemma low_bits_only v m k :
  (m <= k)%nat -> 0 <= v < pow2 k -> (forall i, (m <= i < k)%nat -> Z.testbit v (Z.of_nat i) = false) ->
  v < pow2 m.
Proof.
  intros Hm Hv Hz. replace v with (v mod pow2 m); [apply Z.mod_pos_bound, pow2_pos|].
  apply Z.bits_inj'. intros i Hi. unfold pow2 in *. destruct (Z.lt_ge_cases i (Z.of_nat m)).
  - by apply Z.mod_pow2_bits_low.
  - rewrite Z.mod_pow2_bits_high by lia. symmetry. destruct (Z.lt_ge_cases i (Z.of_nat k)).
    + specialize (Hz (Z.to_nat i) ltac:(lia)). by rewrite Z2Nat.id in Hz by lia.
    + rewrite <- (Z.mod_small v (2 ^ Z.of_nat k)) by done. apply Z.mod_pow2_bits_high. lia.
Qed.

Section Leq.
Context (I : interp) (p : bv_params).
Local Abbreviation eval := (eval I).
Local Abbreviation uv := (uv I).
Local Abbreviation sv := (sv I).
Local Abbreviation den := (den I).
Local Abbreviation holds := (holds I).
Local Abbreviation catv := (catv I).

(** ** Bits known to be zero *)

Lemma is_zero_bit_ok x idx :
  bvec x -> (idx < get_bv_size x)%nat -> is_zero_bit x idx = true -> Z.testbit (uv x) (Z.of_nat idx) = false.
Proof.
  revert idx. induction x as [|d args IH] using expr_induction; [done|]. intros idx Hx Hidx.
  cbn [is_zero_bit]. destruct (is_numeral (App d args)) as [[v n]|] eqn:Hn.
  { destruct (numeral_vec I _ _ _ _ Hn Hx) as (-> & Hv & ->).
    destruct (Z.eqb_spec v 0) as [->|]; [by rewrite Z.testbit_0_l|].
    rewrite Z.testbit_odd, Z.shiftr_div_pow2 by lia. unfold Z.odd, Z.even.
    by destruct (v / _) as [|[]|[]]. }
  case_bool_decide as Hk; [|done].
  destruct (concat_inv I (App d args)) as (d' & args' & [= <- <-] & _ & Hargs & Hsz & _ & -> & _);
    [by apply bool_decide_eq_true|by apply Hx|].
  rewrite Hsz in Hidx. clear Hn Hk Hsz Hx.
  set (pick := fix pick (args : list expr) : nat + bool := _).
  assert (match pick args with
          | inl j => idx = (width args + j)%nat
          | inr r => (idx < width args)%nat /\ (r = true -> Z.testbit (catv args) (Z.of_nat idx) = false)
          end) as Hpick.
  { clear Hidx. induction Hargs as [|y args Hy Hargs IHargs]; [done|].
    apply Forall_cons in IH as [IHy IH]. specialize (IHargs IH). cbn [pick BvFacts.catv].
    change (width (y :: args)) with (get_bv_size y + width args)%nat.
    pose proof (catv_bounds I args Hargs) as Hc.
    destruct (pick args) as [j|r].
    - destruct (Nat.leb_spec (get_bv_size y) j); [lia|]. split; [lia|]. intros Hz.
      rewrite testbit_cat by done. destruct (Nat.ltb_spec idx (width args)); [lia|].
      apply IHy; [done|lia|]. by replace (idx - width args)%nat with j by lia.
    - destruct IHargs as [Hi Hz]. split; [lia|]. intros Hr. rewrite testbit_cat by done.
      apply Nat.ltb_lt in Hi as ->. by apply Hz. }
  destruct (pick args); [lia|]. by apply Hpick.
Qed.

Lemma zero_prefix_le x k : (zero_prefix x k <= k)%nat.
Proof. induction k as [|k IH]; cbn; [done|]. destruct (is_zero_bit x k); lia. Qed.

Lemma zero_prefix_bits x k i :
  bvec x -> (k <= get_bv_size x)%nat -> (zero_prefix x k <= i < k)%nat -> Z.testbit (uv x) (Z.of_nat i) = false.
Proof.
  intros Hx. induction k as [|k IH]; cbn [zero_prefix]; [lia|]. intros Hk.
  destruct (is_zero_bit x k) eqn:Hz; [|lia]. intros Hi.
  destruct (decide (i = k)) as [->|]; [apply is_zero_bit_ok; [done|lia|done]|apply IH; lia].
Qed.

Lemma zero_prefix_uv n x : vec n x -> uv x < pow2 (zero_prefix x n).
Proof.
  intros Hx. pose proof (vec_size _ _ Hx) as Hs. apply (low_bits_only _ _ n).
  - apply zero_prefix_le.
  - by apply uv_range.
  - intros i Hi. apply (zero_prefix_bits x n); [by eapply vec_bvec|lia|done].
Qed.

(** ** Comparisons *)

Definition le_v (is_signed : bool) (a b : expr) : bool :=
  if is_signed then sv a <=? sv b else uv a <=? uv b.

Lemma ule_den n v w a b : den n v a -> den n w b -> holds (v mod pow2 n <=? w mod pow2 n) (mk_ule a b).
Proof.
  intros Ha Hb. rewrite <- (den_uv I _ _ _ Ha), <- (den_uv I _ _ _ Hb).
  apply (mk_ule_holds I n); by eapply den_vec.
Qed.

Lemma eq_den n v w a b : den n v a -> den n w b -> holds (v mod pow2 n =? w mod pow2 n) (m_mk_eq a b).
Proof.
  intros Ha Hb. rewrite <- (den_uv I _ _ _ Ha), <- (den_uv I _ _ _ Hb).
  apply (vec_eq_holds I n); by eapply den_vec.
Qed.

(** A term against a constant in range. *)
Lemma ule_const n a c : vec n a -> 0 <= c < pow2 n -> holds (uv a <=? c) (mk_ule a (mk_numeral c n)).
Proof.
  intros Ha Hc. pose proof (uv_range I n a Ha).
  eapply holds_val; [apply (ule_den n (uv a) c); [by apply den_self|apply den_numeral; by eapply vec_pos]|].
  by rewrite !Z.mod_small by lia.
Qed.

Lemma const_ule n a c : vec n a -> 0 <= c < pow2 n -> holds (c <=? uv a) (mk_ule (mk_numeral c n) a).
Proof.
  intros Ha Hc. pose proof (uv_range I n a Ha).
  eapply holds_val; [apply (ule_den n c (uv a)); [apply den_numeral; by eapply vec_pos|by apply den_self]|].
  by rewrite !Z.mod_small by lia.
Qed.

Lemma eq_const n a c : vec n a -> 0 <= c < pow2 n -> holds (uv a =? c) (m_mk_eq a (mk_numeral c n)).
Proof.
  intros Ha Hc. pose proof (uv_range I n a Ha).
  eapply holds_val; [apply (eq_den n (uv a) c); [by apply den_self|apply den_numeral; by eapply vec_pos]|].
  by rewrite !Z.mod_small by lia.
Qed.

(** A sum of two numbers below the size wraps around at most once. *)
Lemma add_wrap n x y :
  0 <= x < pow2 n -> 0 <= y < pow2 n ->
  (x + y) mod pow2 n = if x + y <? pow2 n then x + y else x + y - pow2 n.
Proof.
  intros Hx Hy. destruct (Z.ltb_spec (x + y) (pow2 n)); [by apply Z.mod_small; lia|].
  symmetry. apply (Z.mod_unique _ _ 1); lia.
Qed.

(** *** Sums with a common part *)

Lemma badd_inv n a :
  is_bv_add a = true -> vec n a ->
  exists d args, a = App d args /\ (2 <= length args)%nat /\ Forall (vec n) args
    /\ eqm n (uv a) (sumZ (map uv args)).
Proof.
  intros Ha Hva. destruct (assoc_inv I a Ha (proj1 Hva)) as (m & d & args & -> & _ & Hm & Hl & Hargs & Hd).
  assert (m = n) as -> by (by eapply vec_width). exists d, args. split_and!; [done..|].
  rewrite (den_uv I _ _ _ Hd). apply eqm_mod.
Qed.

Lemma sum_parts n args :
  (2 <= length args)%nat -> Forall (vec n) args ->
  let has_num := is_num (nth 0 args m_false) in
  let rest := if has_num then drop 1 args else args in
  let v := if has_num then num_val (nth 0 args m_false) else 0 in
  0 <= v < pow2 n /\ Forall (vec n) rest /\ sumZ (map uv args) = v + sumZ (map uv rest).
Proof.
  intros Hl Hargs. destruct args as [|x args]; [cbn in Hl; lia|]. cbn -[is_num num_val].
  pose proof Hargs as [Hx Hrest]%Forall_cons. destruct (is_num x) eqn:Hn.
  - destruct (is_num_inv I n x Hn Hx) as [_ ->]. split; [by apply uv_range|done].
  - pose proof (pow2_pos n). split; [lia|done].
Qed.

Lemma are_eq_upto_num_ok n a b c va vb :
  vec n a -> vec n b -> are_eq_upto_num a b = Some (c, va, vb) ->
  vec n c /\ 0 <= va < pow2 n /\ 0 <= vb < pow2 n
  /\ uv a = (uv c + va) mod pow2 n /\ uv b = (uv c + vb) mod pow2 n.
Proof.
  intros Ha Hb. unfold are_eq_upto_num. pose proof (pow2_pos n). pose proof (uv_range I n a Ha).
  destruct (is_bv_add a) eqn:Haa, (is_bv_add b) eqn:Hba; cbn [negb andb].
  2, 3: by rewrite ?andb_false_r.
  2: { case_bool_decide as Hab; [|done]. intros [= <- <- <-]. subst b.
       rewrite Z.add_0_r, Z.mod_small by done. do 3 (split; [done || lia|]). done. }
  destruct (badd_inv n a Haa Ha) as (d & args & -> & Hl & Hargs & Hua).
  destruct (badd_inv n b Hba Hb) as (e & brgs & -> & Hk & Hbrgs & Hub).
  unfold get_arg. cbn [get_args]. 
  destruct (Nat.eqb_spec (length args) 0) as [|_]; [lia|]. destruct (Nat.eqb_spec (length brgs) 0) as [|_]; [lia|].
  cbn [orb negb andb].
  destruct (sum_parts n args Hl Hargs) as (Hva & Hrest & Hsum).
  destruct (sum_parts n brgs Hk Hbrgs) as (Hvb & _ & Hsumb).
  revert Hva Hrest Hsum Hvb Hsumb.
  set (rest_a := if is_num (nth 0 args m_false) then drop 1 _ else _).
  set (rest_b := if is_num (nth 0 brgs m_false) then drop 1 _ else _).
  set (v := if is_num (nth 0 args m_false) then _ else _).
  set (w := if is_num (nth 0 brgs m_false) then _ else _).
  intros Hva Hrest Hsum Hvb Hsumb. case_bool_decide as Heq; [|done]. rewrite <- Heq in Hsumb.
  set (common := if _ && _ then _ else _). intros [= <- <- <-].
  assert (vec n common /\ eqm n (uv common) (sumZ (map uv rest_a))) as [Hvc Huc].
  { unfold common. clear Hsumb Heq. clearbody v w. destruct (is_num (nth 0 args m_false)); cbn [andb].
    - destruct (Nat.ltb_spec 2 (length args)).
      + assert (den n (sumZ (map uv rest_a)) (bv_app OP_BADD [] rest_a)) as Hd.
        { apply (den_assoc I); [unfold rest_a; rewrite length_drop; lia|by apply den_selfs]. }
        split; [by eapply den_vec|]. rewrite (den_uv I _ _ _ Hd). apply eqm_mod.
      + destruct args as [|x [|y [|]]]; cbn in Hl; try (cbn in *; lia). cbn in *.
        apply Forall_cons in Hrest as [Hy _]. split; [done|]. by rewrite Z.add_0_r.
    - done. }
  assert (forall e v, vec n e -> eqm n (uv e) (v + sumZ (map uv rest_a)) -> uv e = (uv common + v) mod pow2 n) as Hmod.
  { intros x y Hx Hy. rewrite <- (Z.mod_small (uv x) (pow2 n)) by (by apply uv_range).
    change (eqm n (uv x) (uv common + y)). rewrite Huc, Z.add_comm. done. }
  do 3 (split; [done|]). split; apply Hmod; try done; [by rewrite <- Hsum|by rewrite <- Hsumb].
Qed.

Lemma rw_leq_overflow_ok n is_signed a b :
  vec n a -> vec n b -> br_holds I (le_v is_signed a b) (rw_leq_overflow is_signed a b).
Proof.
  intros Ha Hb. unfold rw_leq_overflow. destruct is_signed; [done|].
  destruct (are_eq_upto_num a b) as [[[c va] vb]|] eqn:He; [|done].
  destruct (are_eq_upto_num_ok n a b c va vb Ha Hb He) as (Hc & Hva & Hvb & Hua & Hub).
  rewrite (vec_size n a) by done. fold (pow2 n). unfold le_v.
  pose proof (uv_range I n c Hc). rewrite add_wrap in Hua, Hub by done.
  destruct (Z.eqb_spec va vb).
  { eapply result_holds; [done|]. eapply holds_val; [apply holds_true|]. symmetry. apply Z.leb_le. subst vb. lia. }
  destruct (Z.ltb_spec va vb); eapply result_holds; try done.
  - eapply holds_val; [apply (const_ule n); [done|lia]|].
    destruct (Z.ltb_spec (uv c + va) (pow2 n)), (Z.ltb_spec (uv c + vb) (pow2 n)); lia.
  - destruct (Z.eqb_spec (pow2 n - va) (pow2 n - vb - 1)).
    { eapply holds_val; [apply (eq_const n); [done|lia]|].
      destruct (Z.ltb_spec (uv c + va) (pow2 n)), (Z.ltb_spec (uv c + vb) (pow2 n)); lia. }
    destruct (Z.eqb_spec vb 0).
    { eapply holds_val; [apply (const_ule n); [done|lia]|].
      destruct (Z.ltb_spec (uv c + va) (pow2 n)), (Z.ltb_spec (uv c + vb) (pow2 n)); lia. }
    eapply holds_val; [apply holds_and2; [apply (const_ule n)|apply (ule_const n)]; [done|lia..|done|lia]|].
    destruct (Z.ltb_spec (uv c + va) (pow2 n)), (Z.ltb_spec (uv c + vb) (pow2 n)); lia.
Qed.

(** *** Concatenations *)

Lemma norm_small v n :
  (0 < n)%nat -> 0 <= v < pow2 n -> norm v n true = if pow2 (n - 1) <=? v then v - pow2 n else v.
Proof.
  intros Hn Hv. unfold norm. fold (pow2 n). rewrite Z.mod_small by done.
  replace (2 ^ (Z.of_nat n - 1)) with (pow2 (n - 1)) by (unfold pow2; f_equal; lia).
  pose proof (pow2_double n Hn). destruct (Z.leb_spec (pow2 (n - 1)) v).
  - destruct (Z.ltb_spec (v - pow2 n) (- pow2 (n - 1))); lia.
  - destruct (Z.ltb_spec v (- pow2 (n - 1))); lia.
Qed.

(** The sign of a concatenation is that of its first part. *)
Lemma norm_cat h l k w s :
  (0 < k)%nat -> 0 <= h < pow2 k -> 0 <= l < pow2 w ->
  norm (h * pow2 w + l) (k + w) s = norm h k s * pow2 w + l.
Proof.
  intros Hk Hh Hl. pose proof (pow2_pos w).
  assert (0 <= h * pow2 w + l < pow2 (k + w)) by (rewrite pow2_add; nia).
  destruct s; [|rewrite !norm_unsigned, !Z.mod_small by done; done].
  rewrite !norm_small by (done || lia). replace (k + w - 1)%nat with ((k - 1) + w)%nat by lia. rewrite !pow2_add.
  destruct (Z.leb_spec (pow2 (k - 1)) h), (Z.leb_spec (pow2 (k - 1) * pow2 w) (h * pow2 w + l)); nia.
Qed.

Lemma cat_leb h h' l l' w :
  0 <= l < w -> 0 <= l' < w -> (h * w + l <=? h' * w + l') = if h =? h' then l <=? l' else h <? h'.
Proof. intros Hl Hl'. destruct (Z.eqb_spec h h'); [subst; lia|]. destruct (Z.ltb_spec h h'); nia. Qed.

Lemma cat_leb_high h h' l w : 0 <= l < w -> (h * w + l <=? h' * w + l) = (h <=? h').
Proof. intros Hl. destruct (Z.leb_spec h h'); nia. Qed.

Lemma le_v_norm n s a b : vec n a -> vec n b -> le_v s a b = (norm (uv a) n s <=? norm (uv b) n s).
Proof.
  intros Ha Hb. destruct s; cbn [le_v]; [by rewrite !(sv_norm I n)|].
  by rewrite !norm_unsigned, !Z.mod_small by (by apply uv_range).
Qed.

Lemma le_vec_holds n (s : bool) a b :
  vec n a -> vec n b -> holds (norm (uv a) n s <=? norm (uv b) n s) ((if s then mk_sle else mk_ule) a b).
Proof.
  intros Ha Hb. rewrite <- le_v_norm by done. destruct s; [by apply (mk_sle_holds I n)|by apply (mk_ule_holds I n)].
Qed.

Lemma width_nil es : Forall bvec es -> width es = 0%nat -> es = [].
Proof.
  intros Hes Hw. destruct Hes as [|e es He _]; [done|]. apply vec_pos in He.
  change (width (e :: es)) with (get_bv_size e + width es)%nat in Hw. lia.
Qed.

Lemma width_pos es : Forall bvec es -> es <> [] -> (0 < width es)%nat.
Proof. intros Hes Hne. destruct (width es) eqn:Hw; [|lia]. by apply width_nil in Hw. Qed.

Lemma short_concat_ok es : es <> [] -> Forall bvec es -> den (width es) (catv es) (short_concat es).
Proof.
  intros Hne Hes. destruct es as [|a [|b es]]; [done| |by apply den_concat].
  apply Forall_cons in Hes as [Ha _]. cbn [BvFacts.catv short_concat]. change (width []) with 0%nat.
  change (width [a]) with (get_bv_size a + 0)%nat. rewrite pow2_0, Nat.add_0_r, Z.add_0_r, Z.mul_1_r. by apply den_self.
Qed.

Lemma short_concat_uv es : es <> [] -> Forall bvec es -> vec (width es) (short_concat es) /\ uv (short_concat es) = catv es.
Proof.
  intros Hne Hes. pose proof (short_concat_ok es Hne Hes) as Hd. split; [by eapply den_vec|].
  apply (den_uv_small I _ _ _ Hd). by apply catv_bounds.
Qed.

Lemma strip_common_spec l1 l2 :
  exists c, l1 = c ++ fst (strip_common l1 l2) /\ l2 = c ++ snd (strip_common l1 l2).
Proof.
  revert l2. induction l1 as [|a l1 IH]; intros l2; [by exists []|]. destruct l2 as [|b l2]; [by exists []|].
  cbn. unfold are_equal. case_bool_decide as Hab; [|by exists []]. subst b.
  destruct (IH l2) as (c & H1 & H2). exists (a :: c). cbn. by rewrite <- H1, <- H2.
Qed.

(** The part of a numeral below the bits compared first, with the rest. *)
Lemma numeral_split f f_sz m rest :
  0 <= f < pow2 f_sz -> (m <= f_sz)%nat -> Forall bvec rest ->
  let low := (f mod pow2 (f_sz - m)) * pow2 (width rest) + catv rest in
  f * pow2 (width rest) + catv rest = f / pow2 (f_sz - m) * pow2 (f_sz - m + width rest) + low
  /\ 0 <= low < pow2 (f_sz - m + width rest)
  /\ 0 <= f / pow2 (f_sz - m) < pow2 m
  /\ ((0 < f_sz - m + width rest)%nat ->
      den (f_sz - m + width rest) low
        (if Nat.ltb m f_sz then short_concat (mk_numeral f (f_sz - m) :: rest) else short_concat rest)).
Proof.
  intros Hf Hm Hrest. pose proof (catv_bounds I rest Hrest) as Hc. pose proof (pow2_pos (width rest)).
  pose proof (pow2_pos (f_sz - m)). pose proof (Z.mod_pos_bound f (pow2 (f_sz - m)) ltac:(lia)).
  assert (pow2 f_sz = pow2 (f_sz - m) * pow2 m) as Hp by (rewrite <- pow2_add; f_equal; lia).
  rewrite pow2_add. pose proof (Z.div_mod f (pow2 (f_sz - m)) ltac:(lia)). cbv zeta.
  split; [nia|]. split; [nia|].
  split; [split; [apply Z.div_pos; lia|apply Z.div_lt_upper_bound; lia]|].
  - intros Hpos. destruct (Nat.ltb_spec m f_sz).
    + assert (den (f_sz - m) f (mk_numeral f (f_sz - m))) as Hd by (apply den_numeral; lia).
      pose proof (den_vec _ _ _ _ Hd) as Hv.
      eapply den_ext; [replace (f_sz - m + width rest)%nat with (width (mk_numeral f (f_sz - m) :: rest))|].
      * apply short_concat_ok; [done|]. constructor; [by eapply vec_bvec|done].
      * unfold width. cbn [map]. by rewrite (vec_size _ _ Hv).
      * cbn [BvFacts.catv]. by rewrite (den_uv I _ _ _ Hd).
    + replace (f_sz - m)%nat with 0%nat in * by lia. rewrite pow2_0, Z.mod_1_r. cbn [Nat.add] in *.
      apply short_concat_ok; [|done]. intros ->. cbn in Hpos. lia.
Qed.

Lemma head_numeral a rest af af_sz :
  is_numeral a = Some (af, af_sz) -> Forall bvec (a :: rest) ->
  0 <= af < pow2 af_sz /\ width (a :: rest) = (af_sz + width rest)%nat
  /\ catv (a :: rest) = af * pow2 (width rest) + catv rest /\ a = App (bv_num_decl af af_sz) [].
Proof.
  intros Hn [Ha _]%Forall_cons. destruct (numeral_vec I _ _ _ _ Hn Ha) as (Hs & Hv & Hu).
  rewrite <- Hs in Hv. split; [done|]. split; [unfold width; cbn [map]; by rewrite <- Hs|].
  split; [by rewrite <- Hu|]. by apply (numeral_inv I a af af_sz Hn (proj1 Ha)).
Qed.

Lemma leq_heads_ok n s l1 l2 st :
  Forall bvec l1 -> Forall bvec l2 -> width l1 = n -> width l2 = n -> l1 <> l2 ->
  leq_heads s l1 l2 = Some st -> br_holds I (norm (catv l1) n s <=? norm (catv l2) n s) st.
Proof.
  intros H1 H2 Hw1 Hw2 Hne. destruct l1 as [|a ra], l2 as [|b rb]; try done. cbn [leq_heads].
  destruct (is_numeral a) as [[af af_sz]|] eqn:Ha; [|done]. destruct (is_numeral b) as [[bf bf_sz]|] eqn:Hb; [|done].
  destruct (head_numeral a ra af af_sz Ha H1) as (Haf & Hwa & -> & Hea).
  destruct (head_numeral b rb bf bf_sz Hb H2) as (Hbf & Hwb & -> & Heb).
  rewrite Hwa in Hw1. rewrite Hwb in Hw2. apply Forall_cons in H1 as [Hva H1], H2 as [Hvb H2].
  set (m := Nat.min af_sz bf_sz).
  assert (0 < m)%nat as Hm.
  { apply vec_pos in Hva, Hvb. rewrite Hea in Hva. rewrite Heb in Hvb. cbn in Hva, Hvb. unfold m. lia. }
  destruct (numeral_split af af_sz m ra Haf ltac:(lia) H1) as (Ea & Hla & Hha & Hda).
  destruct (numeral_split bf bf_sz m rb Hbf ltac:(lia) H2) as (Eb & Hlb & Hhb & Hdb).
  assert (forall f f_sz, (m <= f_sz)%nat -> 
    (if Nat.ltb m f_sz then f / 2 ^ Z.of_nat (f_sz - m) else f) = f / pow2 (f_sz - m)) as Hhi.
  { intros f f_sz Hf. destruct (Nat.ltb_spec m f_sz); [done|].
    replace (f_sz - m)%nat with 0%nat by lia. by rewrite pow2_0, Z.div_1_r. }
  rewrite !Hhi by lia. clear Hhi.
  assert (af_sz - m + width ra = n - m)%nat as Hra by lia. assert (bf_sz - m + width rb = n - m)%nat as Hrb by lia.
  rewrite Hra in *. rewrite Hrb in *. rewrite Ea, Eb. remember (n - m)%nat as w eqn:Hw.
  assert (n = (m + w)%nat) as -> by lia. rewrite !norm_cat, cat_leb by done.
  destruct (Z.eqb_spec (norm (af / pow2 (af_sz - m)) m s) (norm (bf / pow2 (bf_sz - m)) m s)) as [He|He];
    intros [= <-]; eapply result_holds; try done; [|by apply bool_val_holds].
  assert (0 < w)%nat as Hnm.
  { destruct (Nat.eq_dec w 0) as [H0|]; [|lia]. exfalso. apply Hne.
    assert (ra = []) as -> by (apply width_nil; [done|lia]). assert (rb = []) as -> by (apply width_nil; [done|lia]).
    cbn in Hwa, Hwb, Hw1, Hw2. replace (af_sz - m)%nat with 0%nat in He by lia. replace (bf_sz - m)%nat with 0%nat in He by lia.
    rewrite pow2_0, !Z.div_1_r in He. assert (eqm m af bf) as Hab by (by rewrite <- (norm_eqm af m s), <- (norm_eqm bf m s), He).
    rewrite Hea, Heb. replace af_sz with m in * by lia. replace bf_sz with m in * by lia.
    by rewrite (eqm_small m af bf). }
  pose proof (ule_den _ _ _ _ _ (Hda Hnm) (Hdb Hnm)) as Hle. by rewrite (Z.mod_small _ _ Hla), (Z.mod_small _ _ Hlb) in Hle.
Qed.

Lemma leq_suffix n s c s1 s2 :
  c <> [] -> Forall bvec c -> Forall bvec s1 -> Forall bvec s2 -> width s1 = width s2 -> s1 <> [] ->
  width (c ++ s1) = n ->
  holds (norm (catv (c ++ s1)) n s <=? norm (catv (c ++ s2)) n s) (mk_ule (short_concat s1) (short_concat s2)).
Proof.
  intros Hc Hvc H1 H2 Hw Hne <-. assert (s2 <> []).
  { intros ->. apply Hne, width_nil; [done|]. by rewrite Hw. }
  rewrite width_app, !catv_app, <- Hw. pose proof (width_pos _ Hvc Hc). pose proof (catv_bounds I c Hvc).
  pose proof (catv_bounds I s1 H1). pose proof (catv_bounds I s2 H2). rewrite <- Hw in *.
  rewrite !norm_cat, cat_leb, Z.eqb_refl by done.
  destruct (short_concat_uv s1) as [Hv1 <-]; [done..|]. destruct (short_concat_uv s2) as [Hv2 <-]; [done..|].
  apply (mk_ule_holds I (width s1)); [done|by rewrite Hw].
Qed.

Lemma leq_prefix n (s : bool) c t1 t2 :
  Forall bvec c -> Forall bvec t1 -> Forall bvec t2 -> width t1 = width t2 -> t1 <> [] ->
  width (t1 ++ c) = n ->
  holds (norm (catv (t1 ++ c)) n s <=? norm (catv (t2 ++ c)) n s)
    ((if s then mk_sle else mk_ule) (short_concat t1) (short_concat t2)).
Proof.
  intros Hc H1 H2 Hw Hne <-. assert (t2 <> []).
  { intros ->. apply Hne, width_nil; [done|]. by rewrite Hw. }
  rewrite width_app, !catv_app. pose proof (width_pos _ H1 Hne). pose proof (catv_bounds I c Hc).
  pose proof (catv_bounds I t1 H1). pose proof (catv_bounds I t2 H2). rewrite <- Hw in *.
  rewrite !norm_cat, cat_leb_high by done.
  destruct (short_concat_uv t1) as [Hv1 <-]; [done..|]. destruct (short_concat_uv t2) as [Hv2 <-]; [done..|].
  apply le_vec_holds; [done|by rewrite Hw].
Qed.

Lemma rw_leq_concats_ok n s a b :
  vec n a -> vec n b -> a <> b -> br_holds I (le_v s a b) (rw_leq_concats s a b).
Proof.
  intros Ha Hb Hab. unfold rw_leq_concats.
  destruct (is_concat a) eqn:Hca, (is_concat b) eqn:Hcb; cbn [negb orb]; try done.
  destruct (concat_inv I a Hca (proj1 Ha)) as (d1 & l1 & -> & Hn1 & H1 & _ & Hv1 & Hu1 & Hd1).
  destruct (concat_inv I b Hcb (proj1 Hb)) as (d2 & l2 & -> & Hn2 & H2 & _ & Hv2 & Hu2 & Hd2).
  assert (width l1 = n) as Hw1 by (by eapply vec_width). assert (width l2 = n) as Hw2 by (by eapply vec_width).
  rewrite (le_v_norm n), Hu1, Hu2 by done. cbn [get_args].
  assert (l1 <> l2) as Hne by (intros ->; apply Hab; by rewrite Hd1, Hd2). clear Hd1 Hd2 Hu1 Hu2.
  destruct (leq_heads s l1 l2) as [st|] eqn:Hh; [by eapply leq_heads_ok|].
  pose proof (strip_common_spec l1 l2) as (c & E1 & E2). destruct (strip_common l1 l2) as [s1 s2] eqn:Hs.
  cbn [fst snd] in E1, E2. rewrite E1 in H1, Hw1. rewrite E2 in H2, Hw2. rewrite width_app in Hw1, Hw2.
  apply Forall_app in H1 as [Hc H1], H2 as [_ H2].
  destruct s1 as [|x s1].
  { assert (s2 = []) as -> by (apply width_nil; [done|change (width []) with 0%nat in Hw1; lia]). congruence. }
  destruct (Nat.ltb_spec (length (x :: s1)) (length l1)) as [Hlt|Hge].
  { eapply result_holds; [done|]. rewrite E1, E2. apply leq_suffix; try done; [|lia|by rewrite width_app].
    intros ->. rewrite E1 in Hlt. cbn in Hlt. lia. }
  assert (c = []) as -> by (destruct c; [done|]; rewrite E1, length_app in Hge; cbn in Hge; lia).
  cbn [app] in E1, E2. rewrite <- E1 in H1, Hw1. rewrite <- E2 in H2, Hw2. change (width []) with 0%nat in Hw1, Hw2.
  clear Hs E1 E2 Hge x s1 s2 Hc. cbn [Nat.add] in *.
  pose proof (strip_common_spec (rev l1) (rev l2)) as (c & E1 & E2).
  destruct (strip_common (rev l1) (rev l2)) as [t1 t2]. cbn [fst snd] in E1, E2.
  apply (f_equal (@rev expr)) in E1, E2. rewrite !rev_involutive, !rev_app_distr in E1, E2.
  assert (forall l l', Forall bvec (rev l ++ l') -> Forall bvec (rev l) /\ Forall bvec l') as Hsplit by (intros; by apply Forall_app).
  rewrite E1 in H1, Hw1. rewrite E2 in H2, Hw2. rewrite width_app in Hw1, Hw2.
  apply Hsplit in H1 as [H1 Hc], H2 as [H2 _].
  destruct t1 as [|x t1].
  { assert (rev t2 = []) as Ht by (apply width_nil; [done|cbn in Hw1; lia]). exfalso. apply Hne.
    by rewrite E1, E2, Ht. }
  destruct (Nat.ltb_spec (length (x :: t1)) (length l1)) as [Hlt|Hge]; [|done].
  eapply result_holds; [done|]. rewrite E1, E2. apply leq_prefix; try done; [lia| |by rewrite width_app].
  intros Hnil. apply (f_equal length) in Hnil. rewrite length_rev in Hnil. done.
Qed.

(** *** The remaining rules *)

Lemma match_add n e a b :
  match_binary OP_BADD e = Some (a, b) -> vec n e -> vec n a /\ vec n b /\ eqm n (uv e) (uv a + uv b).
Proof.
  intros (d & -> & Hk)%match_binary_spec He.
  destruct (badd_inv n (App d [a; b])) as (d' & args & [= <- <-] & _ & Hargs & Hu); [by apply bool_decide_eq_true|done|].
  apply Forall_cons in Hargs as [Ha Hargs]. apply Forall_cons in Hargs as [Hb _]. split_and!; try done.
  rewrite Hu. unfold sumZ. cbn. by rewrite Z.add_0_r.
Qed.

Lemma match_mul n e a b :
  match_binary OP_BMUL e = Some (a, b) -> vec n e -> vec n a /\ vec n b /\ eqm n (uv e) (uv a * uv b).
Proof.
  intros (d & -> & Hk)%match_binary_spec He.
  destruct (assoc_inv I (k := OP_BMUL) (App d [a; b])) as (m & d' & args & [= <- <-] & _ & Hm & _ & Hargs & Hd);
    [by apply bool_decide_eq_true|by apply He|].
  assert (m = n) as -> by (by eapply vec_width).
  apply Forall_cons in Hargs as [Ha Hargs]. apply Forall_cons in Hargs as [Hb _].
  split; [done|]. split; [done|].
  rewrite (den_uv I _ _ _ Hd), eqm_mod. cbn. by rewrite Z.mul_1_r.
Qed.

Lemma leq_sum_ok n a b r1 r :
  vec n a -> vec n b -> uv a = r1 -> leq_sum r1 b = Some r -> holds (uv a <=? uv b) r.
Proof.
  intros Ha Hb Hr1. unfold leq_sum. pose proof (uv_range I n a Ha) as Hba. rewrite Hr1 in *.
  destruct (match_binary OP_BADD b) as [[a1 a2]|] eqn:Hm; [|done].
  destruct (match_add n b a1 a2 Hm Hb) as (Ha1 & Ha2 & Hu). cbn.
  destruct (is_numeral a1) as [[r2 m]|] eqn:Hn; [|done]. destruct (numeral_vec I _ _ _ _ Hn Ha1) as (-> & Hr2 & Hu1).
  cbn. intros [= <-]. pose proof (uv_range I n a2 Ha2) as Hba2.
  assert (uv b = (r2 + uv a2) mod pow2 n) as Hub.
  { rewrite <- (Z.mod_small (uv b) (pow2 n)) by (by apply uv_range). by rewrite Hu, Hu1. }
  rewrite add_wrap in Hub by lia. pose proof (den_numeral I n) as Hnum.
  assert (0 < n)%nat as Hn0 by (by eapply vec_pos).
  pose proof (ule_den n _ _ _ _ (den_self I n a2 Ha2) (Hnum (- r2 - 1) Hn0)) as H1.
  pose proof (ule_den n _ _ _ _ (Hnum (r1 - r2) Hn0) (den_self I n a2 Ha2)) as H2.
  rewrite (Z.mod_small (uv a2)) in H1, H2 by done.
  assert ((- r2 - 1) mod pow2 n = pow2 n - r2 - 1) as E1 by (symmetry; apply (Z.mod_unique _ _ (-1)); lia).
  rewrite E1 in H1.
  assert ((r1 - r2) mod pow2 n = if r1 <? r2 then r1 - r2 + pow2 n else r1 - r2) as E2.
  { destruct (Z.ltb_spec r1 r2); [symmetry; apply (Z.mod_unique _ _ (-1)); lia|apply Z.mod_small; lia]. }
  rewrite E2 in H2. destruct (Z.ltb_spec r2 r1), (Z.ltb_spec r1 r2); try lia.
  - eapply holds_val; [apply (holds_and2 I _ _ _ _ H1 H2)|]. destruct (Z.ltb_spec (r2 + uv a2) (pow2 n)); lia.
  - eapply holds_val; [apply (holds_or2 I _ _ _ _ H1 H2)|]. destruct (Z.ltb_spec (r2 + uv a2) (pow2 n)); lia.
  - eapply holds_val; [apply H1|]. destruct (Z.ltb_spec (r2 + uv a2) (pow2 n)); lia.
Qed.

Lemma quot_bound x c k :
  0 < c -> 0 < k -> (c * Z.quot x c <=? c * k) = (x <=? c + c * k - 1).
Proof.
  intros Hc Hk. destruct (Z.le_gt_cases 0 x).
  - rewrite Z.quot_div_nonneg by lia. pose proof (Z.div_mod x c ltac:(lia)). pose proof (Z.mod_pos_bound x c Hc).
    apply eq_true_iff_eq. rewrite !Z.leb_le, <- Z.mul_le_mono_pos_l by done.
    destruct (Z.le_gt_cases (x / c) k); [split; nia|]. assert (c * (k + 1) <= c * (x / c)) by nia. lia.
  - assert (Z.quot x c <= 0).
    { rewrite <- (Z.opp_involutive x), Z.quot_opp_l by lia. pose proof (Z.quot_pos (- x) c). lia. }
    destruct (Z.leb_spec (c * Z.quot x c) (c * k)), (Z.leb_spec x (c + c * k - 1)); nia.
Qed.

Lemma match_srem n e a b :
  match_binary OP_BSREM_I e = Some (a, b) -> vec n e -> vec n a /\ vec n b /\ den n (Z.rem (sv a) (sv b)) e.
Proof.
  intros (d & -> & Hk)%match_binary_spec He.
  destruct (binary_inv I d [a; b] OP_BSREM_I _ Hk eq_refl (proj1 He)) as (m & a' & b' & [= <- <-] & Ha & Hb & Hr & Hev).
  assert (m = n) as -> by (destruct He as [_ He]; cbn in He; congruence).
  split; [done|]. split; [done|]. split; [apply He|]. split; [apply He|].
  unfold signed_op in Hev. rewrite Hev. unfold BvFacts.sv. destruct (vec_bits I n a Ha) as [_ ->]. done.
Qed.

Lemma signed_small n x : (0 < n)%nat -> - pow2 (n - 1) <= x < pow2 (n - 1) -> norm x n true = x.
Proof.
  intros Hn Hx. pose proof (pow2_double n Hn). destruct (Z.le_gt_cases 0 x).
  - rewrite norm_small by lia. destruct (Z.leb_spec (pow2 (n - 1)) x); lia.
  - replace (norm x n true) with (norm (x + pow2 n) n true).
    + rewrite norm_small by lia. destruct (Z.leb_spec (pow2 (n - 1)) (x + pow2 n)); lia.
    + unfold norm. fold (pow2 n). by rewrite <- (Z_mod_plus_full x 1), Z.mul_1_l.
Qed.

Lemma den_sv n v e : den n v e -> sv e = norm v n true.
Proof.
  intros Hd. rewrite (sv_norm I n) by (by eapply den_vec). rewrite (den_uv I _ _ _ Hd).
  unfold norm. fold (pow2 n). by rewrite Zmod_mod.
Qed.

Lemma leq_srem_ok n a b r2 a1 bound sz :
  vec n a -> vec n b -> sv b = r2 -> leq_srem a r2 = Some (a1, bound, sz) ->
  holds (sv a <=? sv b) (mk_sle a1 (mk_numeral bound sz)).
Proof.
  intros Ha Hb <-. assert (0 < n)%nat as Hn0 by (by eapply vec_pos). unfold leq_srem.
  destruct (match_binary OP_BADD a) as [[x a2]|] eqn:Hm; [|done]. destruct (match_add n a x a2 Hm Ha) as (Hx & Ha2 & Hu).
  cbn [mbind option_bind]. destruct (match_binary OP_BMUL a2) as [[a3 a4]|] eqn:Hm2; [|done].
  destruct (match_mul n a2 a3 a4 Hm2 Ha2) as (Ha3 & Ha4 & Hu2). cbn [mbind option_bind].
  destruct (is_numeral a3) as [[m1 z]|] eqn:Hn3; [|done]. destruct (numeral_vec I _ _ _ _ Hn3 Ha3) as (-> & _ & Hm1).
  cbn [mbind option_bind]. destruct (Z.eqb_spec (norm m1 n true) (-1)) as [Hminus|]; [|done].
  destruct (match_binary OP_BSREM_I a4) as [[a5 a6]|] eqn:Hm4; [|done].
  destruct (match_srem n a4 a5 a6 Hm4 Ha4) as (Ha5 & Ha6 & Hd4). cbn [mbind option_bind].
  destruct (is_numeral a6) as [[c z]|] eqn:Hn6; [|done]. destruct (numeral_vec I _ _ _ _ Hn6 Ha6) as (-> & _ & Hc).
  cbn [mbind option_bind]. set (c1 := norm c n true).
  destruct (_ && _) eqn:Hcond; [|done]. rewrite !andb_true_iff, !Z.ltb_lt, bool_decide_eq_true, Z.eqb_eq in Hcond.
  destruct Hcond as [[[[Hc1 Hc2] <-] Hdiv] Hfit]. intros [= <- <- <-].
  replace (2 ^ (Z.of_nat n - 1)) with (pow2 (n - 1)) in Hfit by (unfold pow2; f_equal; lia).
  assert (sv a6 = c1) as Hs6 by (by rewrite (sv_norm I n), Hc).
  pose proof (sv_range I n x Hx) as Hbx.
  assert (sv b = c1 * (sv b / c1)) as Hb1.
  { rewrite Z.rem_mod_nonneg in Hdiv by lia. pose proof (Z.div_mod (sv b) c1 ltac:(lia)). lia. }
  assert (0 < sv b / c1) by nia.
  assert (sv a = c1 * Z.quot (sv x) c1) as Hsa.
  { pose proof (Z.quot_rem (sv x) c1 ltac:(lia)) as Hqr. pose proof (Z.rem_bound_abs (sv x) c1 ltac:(lia)).
    assert (- pow2 (n - 1) <= c1 * Z.quot (sv x) c1 < pow2 (n - 1)) as Hq.
    { destruct (Z.le_gt_cases 0 (sv x)).
      - pose proof (Z.rem_nonneg (sv x) c1 ltac:(lia) ltac:(lia)). pose proof (Z.quot_pos (sv x) c1 ltac:(lia) ltac:(lia)). nia.
      - pose proof (Z.rem_nonpos (sv x) c1 ltac:(lia) ltac:(lia)). lia. }
    assert (eqm n (sv a) (c1 * Z.quot (sv x) c1)) as He.
    { rewrite (sv_eqm I n a Ha), Hu, Hu2, Hm1, (den_uv I _ _ _ Hd4), eqm_mod, Hs6.
      rewrite <- (norm_eqm m1 n true Hn0), Hminus, <- (sv_eqm I n x Hx). by replace (c1 * _) with (sv x + -1 * Z.rem (sv x) c1) by lia. }
    rewrite <- (signed_small n (sv a)), <- (signed_small n (c1 * _)) by (done || by apply sv_range).
    unfold norm. fold (pow2 n). by rewrite He. }
  rewrite Hsa, Hb1, quot_bound, <- Hb1 by done.
  pose proof (den_numeral I n (c1 + sv b - 1) Hn0) as Hd. pose proof (den_vec _ _ _ _ Hd) as Hv.
  eapply holds_val; [apply (mk_sle_holds I n); [done|exact Hv]|].
  by rewrite (den_sv n _ _ Hd), signed_small by (done || lia).
Qed.

Lemma leq_zero_bits_ok n a b :
  vec n a -> vec n b -> br_holds I (uv a <=? uv b) (leq_zero_bits a b).
Proof.
  intros Ha Hb. unfold leq_zero_bits. rewrite (vec_size n b) by done.
  pose proof (zero_prefix_uv n b Hb) as Hz. pose proof (uv_range I n a Ha) as Hba. pose proof (uv_range I n b Hb) as Hbb.
  destruct (zero_prefix b n) as [|fnz] eqn:Hp.
  - eapply result_holds; [done|]. eapply holds_val; [apply (eq_const n); [done|split; [done|apply pow2_pos]]|].
    rewrite pow2_0 in Hz. lia.
  - destruct (Nat.ltb_spec fnz (n - 1)); [|done].
    assert (den (n - fnz - 1) (uv a / pow2 (fnz + 1)) (mk_bv_extract (n - 1) (fnz + 1) a)) as Hhi.
    { replace (n - fnz - 1)%nat with (S (n - 1) - (fnz + 1))%nat by lia. apply (den_extract I n); [by apply den_self|lia]. }
    assert (forall e, vec n e -> den (fnz + 1) (uv e) (mk_bv_extract fnz 0 e)) as Hlo.
    { intros e He. replace (fnz + 1)%nat with (S fnz - 0)%nat by lia. eapply den_ext;
        [apply (den_extract I n); [by apply den_self|lia]|]. by rewrite pow2_0, Z.div_1_r. }
    eapply result_holds; [done|]. eapply holds_val; [apply holds_and2|].
    + apply (eq_den (n - fnz - 1)); [done|].
      apply den_numeral. lia.
    + apply (ule_den (fnz + 1)); by apply Hlo.
    + rewrite Z.mod_0_l by (pose proof (pow2_pos (n - fnz - 1)); lia).
      replace (fnz + 1)%nat with (S fnz) by lia. rewrite (Z.mod_small (uv b)) by lia.
      assert (pow2 n = pow2 (n - fnz - 1) * pow2 (S fnz)) as Hpn by (rewrite <- pow2_add; f_equal; lia).
      pose proof (pow2_pos (S fnz)). pose proof (pow2_pos (n - fnz - 1)).
      rewrite Z.mod_small by (split; [apply Z.div_pos; lia|apply Z.div_lt_upper_bound; lia]).
      pose proof (Z.div_mod (uv a) (pow2 (S fnz)) ltac:(lia)) as Hdm.
      pose proof (Z.mod_pos_bound (uv a) (pow2 (S fnz)) ltac:(lia)).
      destruct (Z.eqb_spec (uv a / pow2 (S fnz)) 0) as [E|E].
      * rewrite E in Hdm. cbn [andb]. rewrite Z.mul_0_r, Z.add_0_l in Hdm. by rewrite <- Hdm.
      * assert (0 <= uv a / pow2 (S fnz)) by (apply Z.div_pos; lia). cbn [andb]. symmetry. apply Z.leb_gt. nia.
Qed.

Lemma leq_rules_ok n s r1 r2 a b :
  vec n a -> vec n b -> a <> b ->
  match r1 with Some r1 => norm (uv a) n s = r1 | None => True end ->
  match r2 with Some r2 => norm (uv b) n s = r2 | None => True end ->
  br_holds I (le_v s a b) (leq_rules p s r1 r2 a b).
Proof.
  intros Ha Hb Hab Hr1 Hr2. unfold leq_rules.
  set (srem := match r2 with Some _ => _ | None => _ end). set (sum := match r1 with Some _ => _ | None => _ end).
  assert (forall a1 bound sz, srem = Some (a1, bound, sz) -> holds (le_v s a b) (mk_sle a1 (mk_numeral bound sz))) as Hsrem.
  { intros a1 bound sz He. unfold srem in He. destruct r2 as [r2|], s; try done. eapply leq_srem_ok; [exact Ha|done| |exact He].
    by rewrite (sv_norm I n). }
  assert (forall r, sum = Some r -> holds (le_v s a b) r) as Hsum.
  { intros r He. unfold sum in He. destruct r1 as [r1|], s; try done. eapply leq_sum_ok; [exact Ha|done| |exact He].
    rewrite <- Hr1, norm_unsigned. symmetry. apply Z.mod_small. by apply uv_range. }
  destruct srem as [[[a1 bound] sz]|]; [eapply result_holds; [done|by apply Hsrem]|].
  destruct sum as [r|]; [eapply result_holds; [done|by apply Hsum]|].
  apply br_else_means; [|apply br_else_means].
  - destruct (m_le_extra p); [by apply (rw_leq_concats_ok n)|done].
  - destruct (m_le_extra p); [by apply (rw_leq_overflow_ok n)|done].
  - destruct s; [done|]. by apply (leq_zero_bits_ok n).
Qed.

Lemma numeral_value s n e r :
  vec n e -> ('(r, sz) ← is_numeral e; Some (norm r sz s)) = Some r -> norm (uv e) n s = r.
Proof.
  intros He. destruct (is_numeral e) as [[v m]|] eqn:Hn; [|done]. cbn.
  destruct (numeral_vec I _ _ _ _ Hn He) as (-> & _ & ->). by intros [= ->].
Qed.

Lemma mk_leq_core_ok n s a b : vec n a -> vec n b -> br_holds I (le_v s a b) (mk_leq_core p s a b).
Proof.
  intros Ha Hb. assert (0 < n)%nat as Hn by (by eapply vec_pos). unfold mk_leq_core. rewrite (vec_size n a) by done.
  replace (2 ^ (Z.of_nat n - 1)) with (pow2 (n - 1)) by (unfold pow2; f_equal; lia).
  unfold all_ones. fold (pow2 n).
  pose proof (numeral_value s n a) as H1. pose proof (numeral_value s n b) as H2.
  set (r1 := _ ← is_numeral a; _) in *. set (r2 := _ ← is_numeral b; _) in *.
  case_bool_decide as Hab.
  { eapply result_holds; [done|]. subst b. eapply holds_val; [apply holds_true|].
    rewrite (le_v_norm n) by done. symmetry. apply Z.leb_refl. }
  set (lower := if s then _ else _). set (upper := if s then _ else _).
  assert (forall e, vec n e -> lower <= norm (uv e) n s <= upper) as Hbounds.
  { intros e He. unfold lower, upper. destruct s; [pose proof (norm_bounds (uv e) n Hn); lia|].
    pose proof (uv_range I n e He). rewrite norm_unsigned, Z.mod_small; lia. }
  assert (norm (uv a) n s = norm (uv b) n s -> uv a = uv b) as Hinj.
  { intros He. apply (eqm_small n); [|by apply uv_range..]. rewrite <- (norm_eqm _ n s), He by done. by apply norm_eqm. }
  pose proof (Hbounds a Ha). pose proof (Hbounds b Hb).
  assert (forall b', (le_v s a b = true <-> uv a = uv b) -> b' = BR_REWRITE1 (m_mk_eq a b) -> br_holds I (le_v s a b) b') as Heq.
  { intros b' Hle ->. eapply result_holds; [done|]. eapply holds_val; [by apply (vec_eq_holds I n)|].
    apply eq_true_iff_eq. by rewrite Z.eqb_eq, Hle. }
  rewrite (le_v_norm n) in * by done.
  assert (forall v, (match r1 with Some r => r =? v | None => false end) = true -> norm (uv a) n s = v) as Hv1.
  { intros v. destruct r1 as [r|]; [|done]. intros <-%Z.eqb_eq. by apply H1. }
  assert (forall v, (match r2 with Some r => r =? v | None => false end) = true -> norm (uv b) n s = v) as Hv2.
  { intros v. destruct r2 as [r|]; [|done]. intros <-%Z.eqb_eq. by apply H2. }
  assert (br_holds I (norm (uv a) n s <=? norm (uv b) n s)
    (if match r2 with Some r => r =? lower | None => false end then BR_REWRITE1 (m_mk_eq a b)
     else if match r2 with Some r => r =? upper | None => false end then BR_DONE m_true
     else if match r1 with Some r => r =? lower | None => false end then BR_DONE m_true
     else if match r1 with Some r => r =? upper | None => false end then BR_REWRITE1 (m_mk_eq a b)
     else leq_rules p s r1 r2 a b)) as Hrules.
  { destruct (match r2 with Some r => r =? lower | None => false end) eqn:E1.
    { apply Hv2 in E1. apply Heq; [|done]. rewrite Z.leb_le. split; [intros; apply Hinj; lia|intros ->; lia]. }
    destruct (match r2 with Some r => r =? upper | None => false end) eqn:E2.
    { apply Hv2 in E2. eapply result_holds; [done|]. eapply holds_val; [apply holds_true|]. symmetry. apply Z.leb_le. lia. }
    destruct (match r1 with Some r => r =? lower | None => false end) eqn:E3.
    { apply Hv1 in E3. eapply result_holds; [done|]. eapply holds_val; [apply holds_true|]. symmetry. apply Z.leb_le. lia. }
    destruct (match r1 with Some r => r =? upper | None => false end) eqn:E4.
    { apply Hv1 in E4. apply Heq; [|done]. rewrite Z.leb_le. split; [intros; apply Hinj; lia|intros ->; lia]. }
    rewrite <- (le_v_norm n) by done. apply (leq_rules_ok n); try done.
    - destruct r1; [by apply H1|done].
    - destruct r2; [by apply H2|done]. }
  destruct r1 as [v1|], r2 as [v2|]; try exact Hrules.
  rewrite (H1 v1), (H2 v2) by done. eapply result_holds; [done|]. apply bool_val_holds.
Qed.
End Leq.
