(* ===== verification/BvRewriterTermsOk.v ===== *)
(** Extraction, concatenation, extension, repetition, rotation and shifts of the
    bit-vector rewriter are correct: the results have the width and the value
    of the operators, for all the options. *)
From S2P Require Import Prelude Text Bits BlastShift Ast AstSem AstFacts BoolRewriter BoolRewriterOk BvPlugin BvFacts PolyRewriter PolyRewriterOk BvRewriterLeq BvRewriterLeqOk BvRewriterTerms.

(** ** Numbers *)

Lemma eqm_div w lo k x y : (lo + w <= k)%nat -> eqm k x y -> eqm w (x / pow2 lo) (y / pow2 lo).
Proof.
  intros Hk Hxy%bits_of_eqm. apply bits_of_eqm. rewrite <- !(take_drop_bits_of k) by done. by rewrite Hxy.
Qed.

Lemma eqm_le m n x y : (m <= n)%nat -> eqm n x y -> eqm m x y.
Proof.
  intros Hm Hxy. rewrite <- (Z.div_1_r x), <- (Z.div_1_r y), <- pow2_0. by apply (eqm_div m 0 n).
Qed.

Lemma eqm_cat k w h h' l : eqm k h h' -> eqm (k + w) (h * pow2 w + l) (h' * pow2 w + l).
Proof.
  intros Hh. unfold eqm in Hh. pose proof (pow2_pos k).
  apply (eqm_multiple _ _ _ (h / pow2 k - h' / pow2 k)). rewrite pow2_add.
  pose proof (Z.div_mod h (pow2 k) ltac:(lia)). pose proof (Z.div_mod h' (pow2 k) ltac:(lia)). nia.
Qed.

Lemma eqm_low w h l : eqm w (h * pow2 w + l) l.
Proof. apply (eqm_multiple _ _ _ h). lia. Qed.

Lemma cat_div_high u c w lo : 0 <= c < pow2 w -> (w <= lo)%nat -> (u * pow2 w + c) / pow2 lo = u / pow2 (lo - w).
Proof.
  intros Hc Hlo. replace lo with (w + (lo - w))%nat at 1 by lia. pose proof (pow2_pos w). pose proof (pow2_pos (lo - w)).
  rewrite pow2_add, <- Z.div_div by lia. by rewrite Z.div_add_l, (Z.div_small c), Z.add_0_r by lia.
Qed.

Lemma cat_div_low u c w lo : (lo <= w)%nat -> (u * pow2 w + c) / pow2 lo = u * pow2 (w - lo) + c / pow2 lo.
Proof.
  intros Hlo. replace w with (w - lo + lo)%nat at 1 by lia. pose proof (pow2_pos lo).
  rewrite pow2_add, Z.mul_assoc, Z.div_add_l by lia. done.
Qed.

Lemma eqm_pow2_le m k : (m <= k)%nat -> eqm m (pow2 k) 0.
Proof. intros Hm. apply (eqm_multiple _ _ _ (pow2 (k - m))). rewrite Z.add_0_l, <- pow2_add. f_equal. lia. Qed.

Lemma shiftr_pow2 v lo : Z.shiftr v (Z.of_nat lo) = v / pow2 lo.
Proof. apply Z.shiftr_div_pow2. lia. Qed.

Section Terms.
Context (I : interp) (p : bv_params) (ref_count : expr -> nat).
Local Abbreviation eval := (eval I).
Local Abbreviation uv := (uv I).
Local Abbreviation sv := (sv I).
Local Abbreviation den := (den I).
Local Abbreviation catv := (catv I).

Lemma width_cons e es : width (e :: es) = (get_bv_size e + width es)%nat.
Proof. done. Qed.

Lemma width_one e : width [e] = get_bv_size e.
Proof. cbn. lia. Qed.

Lemma catv_one e : catv [e] = uv e.
Proof. cbn [BvFacts.catv]. change (width []) with 0%nat. rewrite pow2_0. lia. Qed.

(** ** Extraction *)

Lemma den_extract_vec n hi lo a :
  vec n a -> (lo <= hi < n)%nat -> den (S hi - lo) (uv a / pow2 lo) (mk_bv_extract hi lo a).
Proof. intros Ha Hhi. apply (den_extract I n); [by apply den_self|done]. Qed.

Lemma extract_numeral_ok high low v :
  (low <= high)%nat -> 0 <= v -> den (S high - low) (v / pow2 low) (extract_numeral high low v).
Proof.
  intros Hlo Hv. unfold extract_numeral. replace (high - low + 1)%nat with (S high - low)%nat by lia.
  set (sz := (S high - low)%nat). assert (0 < sz)%nat as Hsz by lia.
  destruct (Z.ltb_spec v 0); [lia|]. cbv zeta. destruct (Z.ltb_spec v (2 ^ 64)); [|by apply den_numeral].
  eapply den_ext; [by apply den_numeral|]. unfold shift_right, shift_left, u64.
  assert (0 <= v / pow2 low) by (apply Z.div_pos; [done|apply pow2_pos]).
  assert (v / pow2 low <= v) by (apply Z.div_le_upper_bound; [apply pow2_pos|pose proof (pow2_pos low); nia]).
  replace (if Z.of_nat low <? 64 then Z.shiftr v (Z.of_nat low) else 0) with (v / pow2 low).
  2: { rewrite shiftr_pow2. destruct (Z.ltb_spec (Z.of_nat low) 64); [done|]. apply Z.div_small. split; [done|].
       unfold pow2. pose proof (Z.pow_le_mono_r 2 64 (Z.of_nat low)). lia. }
  destruct (Z.ltb_spec (Z.of_nat sz) 64).
  - rewrite Z.shiftl_1_l. fold (pow2 sz). pose proof (pow2_pos sz).
    assert (pow2 sz < 2 ^ 64) by (unfold pow2; apply Z.pow_lt_mono_r; lia).
    rewrite (Z.mod_small (pow2 sz)), Z.mod_small by lia.
    replace (pow2 sz - 1) with (Z.ones (Z.of_nat sz)) by (by rewrite Z.ones_equiv).
    rewrite Z.land_ones by lia. apply eqm_mod.
  - replace ((0 - 1) mod 2 ^ 64) with (Z.ones 64) by done. rewrite Z.land_ones, Z.mod_small by lia. done.
Qed.

Lemma extract_rest_ok lo used new_args args :
  new_args <> [] -> Forall bvec new_args -> Forall bvec args -> (lo < width args)%nat ->
  br_den I (width new_args + (width args - lo)) ((catv new_args * pow2 (width args) + catv args) / pow2 lo)
    (extract_rest lo (width args) used new_args args).
Proof.
  intros Hne Hnew Hargs. revert new_args Hne Hnew. induction Hargs as [|a args Ha Hargs IH]; intros new_args Hne Hnew Hlo;
    [done|]. cbn [extract_rest]. rewrite width_cons in *.
  replace (get_bv_size a + width args - get_bv_size a)%nat with (width args) by lia.
  pose proof (catv_bounds I args Hargs). pose proof (uv_range I _ a Ha).
  assert (new_args ++ [a] <> []) by (by destruct new_args).
  assert (Forall bvec (new_args ++ [a])) by (apply Forall_app; split; [done|by apply Forall_singleton]).
  destruct (Nat.ltb_spec lo (width args)).
  { specialize (IH (new_args ++ [a])). rewrite width_app, width_one, catv_app, width_one, catv_one in IH.
    replace (width new_args + (get_bv_size a + width args - lo))%nat
      with (width new_args + get_bv_size a + (width args - lo))%nat by lia.
    replace (catv new_args * pow2 (get_bv_size a + width args) + catv (a :: args))
      with ((catv new_args * pow2 (get_bv_size a) + uv a) * pow2 (width args) + catv args);
      [by apply IH|]. cbn [BvFacts.catv]. rewrite pow2_add. lia. }
  assert ((catv new_args * pow2 (get_bv_size a + width args) + catv (a :: args)) / pow2 lo
    = catv new_args * pow2 (get_bv_size a + width args - lo) + uv a / pow2 (lo - width args)) as ->.
  { rewrite cat_div_low by lia. cbn [BvFacts.catv]. by rewrite cat_div_high. }
  destruct (Nat.eqb_spec (width args) lo) as [<-|].
  - rewrite Nat.sub_diag, pow2_0, Z.div_1_r. replace (get_bv_size a + width args - width args)%nat with (get_bv_size a) by lia.
    pose proof (den_concat I (new_args ++ [a])) as Hd. rewrite width_app, width_one, catv_app, width_one, catv_one in Hd.
    destruct used; by apply Hd.
  - set (e := mk_bv_extract _ _ a). set (w := (get_bv_size a + width args - lo)%nat).
    assert (den w (uv a / pow2 (lo - width args)) e) as He.
    { unfold w. replace (_ - lo)%nat with (S (get_bv_size a - 1) - (lo - width args))%nat by lia.
      apply den_extract_vec with (n := get_bv_size a); [done|lia]. }
    pose proof (den_vec _ _ _ _ He) as Hve. pose proof (den_concat I (new_args ++ [e])) as Hd.
    rewrite width_app, width_one, catv_app, width_one, catv_one, (vec_size _ _ Hve) in Hd.
    rewrite (den_uv_small I _ _ _ He) in Hd; [|split].
    + apply Hd; [by destruct new_args|]. apply Forall_app. split; [done|]. apply Forall_singleton. by eapply vec_bvec.
    + apply Z.div_pos; [lia|apply pow2_pos].
    + apply Z.div_lt_upper_bound; [apply pow2_pos|]. rewrite <- pow2_add. unfold w.
      replace (lo - width args + (get_bv_size a + width args - lo))%nat with (get_bv_size a) by lia. lia.
Qed.

Lemma extract_concat_ok lo hi args :
  Forall bvec args -> (lo <= hi < width args)%nat ->
  br_den I (S hi - lo) (catv args / pow2 lo) (extract_concat hi lo (width args) args).
Proof.
  induction 1 as [|a args Ha Hargs IH]; intros Hhi; [change (width []) with 0%nat in Hhi; lia|].
  cbn [extract_concat BvFacts.catv]. rewrite width_cons in *.
  replace (get_bv_size a + width args - get_bv_size a)%nat with (width args) by lia.
  pose proof (catv_bounds I args Hargs). pose proof (uv_range I _ a Ha).
  destruct (Nat.ltb_spec hi (width args)).
  { eapply br_den_ext; [apply IH; lia|]. symmetry. apply (eqm_div _ _ (width args)); [lia|apply eqm_low]. }
  destruct (Nat.leb_spec (width args) lo).
  { rewrite cat_div_high by done. destruct (_ && _) eqn:E.
    - apply andb_true_iff in E as [<-%Nat.eqb_eq E%Nat.eqb_eq]. rewrite Nat.sub_diag, pow2_0, Z.div_1_r.
      replace (S hi - lo)%nat with (get_bv_size a) by lia. by apply den_self.
    - replace (S hi - lo)%nat with (S (hi - width args) - (lo - width args))%nat by lia.
      apply den_extract_vec with (n := get_bv_size a); [done|lia]. }
  assert (forall used e v, den (S hi - width args) v e -> eqm (S hi - width args) v (uv a) ->
    br_den I (S hi - lo) ((uv a * pow2 (width args) + catv args) / pow2 lo)
      (extract_rest lo (width args) used [e] args)) as Hrest.
  { intros used e v He Hv. pose proof (den_vec _ _ _ _ He) as Hve.
    pose proof (extract_rest_ok lo used [e] args) as Hd. rewrite width_one, catv_one, (vec_size _ _ Hve) in Hd.
    replace (S hi - lo)%nat with (S hi - width args + (width args - lo))%nat by lia.
    eapply br_den_ext; [apply Hd; try done; apply Forall_singleton; by eapply vec_bvec|].
    apply (eqm_div _ _ (S hi - width args + width args)); [lia|]. apply eqm_cat.
    rewrite (den_uv I _ _ _ He), eqm_mod. done. }
  destruct (Nat.eqb_spec (hi - width args) (get_bv_size a - 1)).
  - apply (Hrest _ _ (uv a)); [|done]. replace (S hi - width args)%nat with (get_bv_size a) by lia. by apply den_self.
  - apply (Hrest _ _ (uv a / pow2 0)); [|by rewrite pow2_0, Z.div_1_r].
    replace (S hi - width args)%nat with (S (hi - width args) - 0)%nat by lia.
    apply den_extract_vec with (n := get_bv_size a); [done|lia].
Qed.

(** *** Into the operators *)

Lemma mk_same_app_kind d args k l : kind d = Bv k -> mk_same_app (App d args) l = bv_app k [] l.
Proof. destruct d as [nm kd ps dom rg]. cbn. by intros ->. Qed.

Lemma extracts_den n hi lo args :
  Forall (vec n) args -> (lo <= hi < n)%nat ->
  Forall2 (den (S hi - lo)) (map (fun a => uv a / pow2 lo) args) (map (mk_bv_extract hi lo) args).
Proof. induction 1; intros Hhi; cbn [map]; constructor; [by apply (den_extract_vec n)|auto]. Qed.

(** An operator whose result's bits [lo] and up are those of the arguments. *)
Lemma extract_assoc {k g u} `{!AssocOp k g u} n hi lo arg :
  is_app_of arg (Bv k) = true -> vec n arg -> (lo <= hi < n)%nat ->
  (forall x y, g (x / pow2 lo) (y / pow2 lo) = g x y / pow2 lo) -> u / pow2 lo = u ->
  den (S hi - lo) (uv arg / pow2 lo) (mk_same_app arg (map (mk_bv_extract hi lo) (get_args arg))).
Proof.
  intros Hk Ha Hhi Hg Hu. destruct (assoc_inv I arg Hk (proj1 Ha)) as (m & d & args & -> & Hkd & Hm & Hl & Hargs & Hd).
  assert (m = n) as -> by (by eapply vec_width). rewrite (mk_same_app_kind _ _ k) by done. cbn [get_args].
  eapply den_ext; [apply (den_assoc I); [by rewrite length_map|by apply (extracts_den n)]|].
  transitivity (foldr g u (map uv args) / pow2 lo).
  - assert (foldr g u (map (fun a => uv a / pow2 lo) args) = foldr g u (map uv args) / pow2 lo) as ->; [|done].
    clear Hd Hl Hargs Hm Hk Ha. induction args as [|a args IH]; cbn; [done|]. by rewrite IH, Hg.
  - apply (eqm_div _ _ n); [lia|]. rewrite (den_uv I _ _ _ Hd), eqm_mod. done.
Qed.

Lemma extract_ops_ok n hi lo arg :
  vec n arg -> (lo <= hi < n)%nat ->
  is_bv_not arg || is_bv_or arg || is_bv_xor arg || (Nat.eqb lo 0 && (is_bv_add arg || is_bv_mul arg)) = true ->
  den (S hi - lo) (uv arg / pow2 lo) (mk_same_app arg (map (mk_bv_extract hi lo) (get_args arg))).
Proof.
  intros Ha Hhi. rewrite !orb_true_iff, andb_true_iff, orb_true_iff.
  intros [[[Hk|Hk]|Hk]|[->%Nat.eqb_eq [Hk|Hk]]].
  - destruct (not_bv_inv I arg Hk (proj1 Ha)) as (m & d & a & -> & Hva & Hm & Hd).
    assert (m = n) as -> by (by eapply vec_width). rewrite (mk_same_app_kind _ _ OP_BNOT) by (by apply bool_decide_eq_true in Hk).
    eapply den_ext; [apply (den_not I), den_extract_vec with (n := n); [done|lia]|].
    transitivity ((- uv a - 1) / pow2 lo).
    + replace (- (uv a / pow2 lo) - 1) with (Z.lnot (uv a / pow2 lo)) by (unfold Z.lnot; lia).
      replace (- uv a - 1) with (Z.lnot (uv a)) by (unfold Z.lnot; lia). rewrite <- !shiftr_pow2, Z.lnot_shiftr by lia. done.
    + apply (eqm_div _ _ n); [lia|]. by rewrite (den_uv I _ _ _ Hd), eqm_mod.
  - apply (extract_assoc (k := OP_BOR) n); try done.
    intros x y. by rewrite <- !shiftr_pow2, Z.shiftr_lor.
  - apply (extract_assoc (k := OP_BXOR) n); try done.
    intros x y. by rewrite <- !shiftr_pow2, Z.shiftr_lxor.
  - apply (extract_assoc (k := OP_BADD) n); try done. intros x y. by rewrite pow2_0, !Z.div_1_r.
  - apply (extract_assoc (k := OP_BMUL) n); try done. intros x y. by rewrite pow2_0, !Z.div_1_r.
Qed.

(** *** Removing high bits *)

Lemma not_empty_concat e : wf e = true -> is_empty_concat e = false.
Proof.
  intros Hw. unfold is_empty_concat. destruct (is_concat e) eqn:Hc; [|done].
  destruct (concat_inv I e Hc Hw) as (d & args & -> & Hne & _). by destruct args.
Qed.

(** The first part of an argument is a numeral of at least [r] bits or has [r]. *)
Definition removable (r : nat) (e : expr) : Prop :=
  (exists v sz, is_numeral (first_part e) = Some (v, sz) /\ (r <= sz)%nat) \/ get_bv_size (first_part e) = r.

Lemma removable_bits_spec args all r0 r :
  Forall (fun e => wf e = true) args -> removable_bits args all r0 = r -> r <> 0%nat ->
  (r <= r0)%nat /\ (all = false -> r = r0) /\ Forall (removable r) args.
Proof.
  intros Hargs. revert all r0. induction Hargs as [|a args Ha _ IH]; intros all r0; cbn [removable_bits].
  { by intros ->. }
  rewrite not_empty_concat by done. destruct all; cbn [negb].
  - destruct (is_numeral (first_part a)) as [[v sz]|] eqn:Hn.
    + destruct (Nat.eqb_spec (r0 `min` sz) 0); [congruence|]. intros Hr Hr0. destruct (IH _ _ Hr Hr0) as (Hle & _ & Hall).
      split_and!; [lia|done|]. constructor; [left; exists v, sz; split; [done|lia]|done].
    + destruct (_ || _) eqn:Hc; [congruence|]. apply orb_false_iff in Hc as [Hc%Nat.ltb_ge _]. intros Hr Hr0.
      destruct (IH _ _ Hr Hr0) as (_ & Heq & Hall). specialize (Heq eq_refl).
      split_and!; [lia|done|]. constructor; [by right|done].
  - destruct (Nat.eqb_spec r0 (get_bv_size (first_part a))); [|congruence]. intros Hr Hr0.
    destruct (IH _ _ Hr Hr0) as (Hle & Heq & Hall). split_and!; [done|done|]. constructor; [|done].
    right. specialize (Heq eq_refl). congruence.
Qed.

Lemma remove_bits_ok n r e :
  vec n e -> (0 < r < n)%nat -> removable r e ->
  exists e', remove_bits r e = Some e' /\ den (n - r) (uv e) e'.
Proof.
  intros He Hr Hrem. unfold remove_bits, removable in *.
  set (new_first := '(val, sz) ← is_numeral (first_part e); _).
  assert (forall m, vec m (first_part e) -> (m <= n)%nat -> match new_first with
    | Some e' => (r < m)%nat /\ den (m - r) (uv (first_part e)) e'
    | None => m = r
    end) as Hfirst.
  { intros m Hm Hmn. unfold new_first. destruct (is_numeral (first_part e)) as [[v sz]|] eqn:Hn; cbn [mbind option_bind].
    - destruct (numeral_vec I _ _ _ _ Hn Hm) as (-> & _ & ->). rewrite (vec_size _ _ Hm) in Hrem.
      destruct (Nat.ltb_spec r m); [split; [done|apply den_numeral; lia]|].
      destruct Hrem as [(v' & sz' & [= <- <-] & Hle)|]; lia.
    - rewrite (vec_size _ _ Hm) in Hrem. by destruct Hrem as [(v' & sz' & ? & _)|]. }
  unfold first_part in Hfirst. destruct (is_concat e) eqn:Hc.
  - destruct (concat_inv I e Hc (proj1 He)) as (d & args & -> & Hne & Hargs & _ & Hv & -> & _).
    assert (width args = n) as Hw by (by eapply vec_width). clear Hv. destruct args as [|f rest]; [done|].
    apply Forall_cons in Hargs as [Hf Hrest]. rewrite width_cons in Hw. cbn [BvFacts.catv get_args drop].
    unfold get_arg in Hfirst. cbn in Hfirst. specialize (Hfirst _ Hf ltac:(lia)).
    destruct new_first as [e'|].
    + destruct Hfirst as [Hrf Hd]. pose proof (den_vec _ _ _ _ Hd) as Hv. eexists. split; [done|].
      pose proof (den_concat I (e' :: rest)) as Hcat. rewrite width_cons, (vec_size _ _ Hv) in Hcat.
      replace (n - r)%nat with (get_bv_size f - r + width rest)%nat by lia.
      eapply den_ext; [apply Hcat; [done|constructor; [by eapply vec_bvec|done]]|].
      cbn [BvFacts.catv]. apply eqm_cat. rewrite (den_uv I _ _ _ Hd). apply eqm_mod.
    + assert (den (n - r) (uv f * pow2 (width rest) + catv rest) (short_concat rest)) as Hd.
      { replace (n - r)%nat with (width rest) by lia. eapply den_ext; [apply (short_concat_ok I); [|done]|symmetry; apply eqm_low].
        intros ->. change (width []) with 0%nat in Hw. lia. }
      destruct rest as [|x [|y rest]]; [change (width []) with 0%nat in Hw; lia|by exists x|by eexists].
  - specialize (Hfirst n He ltac:(lia)). destruct new_first as [e'|]; [|lia]. exists e'. by destruct Hfirst.
Qed.

Lemma remove_all n r args :
  Forall (vec n) args -> (0 < r < n)%nat -> Forall (removable r) args ->
  Forall2 (den (n - r)) (map uv args)
    (omap (fun curr => if is_empty_concat curr then None else remove_bits r curr) args).
Proof.
  intros Hargs Hr Hrem. induction Hargs as [|a args Ha _ IH]; [constructor|].
  apply Forall_cons in Hrem as [Hra Hrem]. destruct (remove_bits_ok n r a Ha Hr Hra) as (e' & He & Hd).
  cbn [map omap list_omap]. rewrite not_empty_concat by apply Ha. rewrite He. constructor; [done|auto].
Qed.

Lemma propagate_extract_ok n hi arg e :
  vec n arg -> propagate_extract hi arg = Some e ->
  exists m, (hi < m <= n)%nat /\ den m (uv arg) e.
Proof.
  intros Ha. unfold propagate_extract. rewrite (vec_size n) by done.
  destruct (negb _ && negb _) eqn:Hk; [done|]. destruct (Nat.ltb_spec (hi + 1) n) as [Hlt|]; [|done].
  destruct (Nat.eqb_spec (n - hi - 1) 0); [done|].
  destruct (removable_bits (get_args arg) true (n - hi - 1)) as [|r'] eqn:Hr; [done|]. set (r := S r') in *.
  intros [= <-]. exists (n - r)%nat.
  assert (forall k g u `{!AssocOp k g u}, is_app_of arg (Bv k) = true ->
    (r <= n - hi - 1)%nat /\ den (n - r) (uv arg) (mk_same_app arg
      (omap (fun curr => if is_empty_concat curr then None else remove_bits r curr) (get_args arg)))) as Hop.
  { intros k g u Hop Hka. destruct (assoc_inv I arg Hka (proj1 Ha)) as (m & d & args & -> & Hkd & Hm & Hl & Hargs & Hd).
    assert (m = n) as -> by (by eapply vec_width). cbn [get_args] in *. rewrite (mk_same_app_kind _ _ k) by done.
    destruct (removable_bits_spec args true (n - hi - 1) r) as (Hle & _ & Hall); [by eapply vec_wf|done|done|].
    split; [done|]. pose proof (remove_all n r args Hargs ltac:(lia) Hall) as Hrem.
    eapply den_ext; [apply (den_assoc I); [|exact Hrem]|].
    - apply Forall2_length in Hrem. by rewrite <- Hrem, length_map.
    - apply (eqm_le _ n); [lia|]. by rewrite (den_uv I _ _ _ Hd), eqm_mod. }
  apply andb_false_iff in Hk as [Hk%negb_false_iff|Hk%negb_false_iff].
  - destruct (Hop OP_BADD _ _ _ Hk). split; [lia|done].
  - destruct (Hop OP_BMUL _ _ _ Hk). split; [lia|done].
Qed.

Lemma extract_prop_ok n hi lo arg :
  vec n arg -> (lo <= hi < n)%nat -> br_den I (S hi - lo) (uv arg / pow2 lo) (extract_prop p hi lo arg).
Proof.
  intros Ha Hhi. unfold extract_prop. destruct (_ && _); [|done].
  destruct (propagate_extract hi arg) as [e|] eqn:He; [|done].
  destruct (propagate_extract_ok n hi arg e Ha He) as (m & Hm & Hd).
  apply (den_ext I _ (uv e / pow2 lo)); [apply (den_extract_vec m); [by eapply den_vec|lia]|].
  apply (eqm_div _ _ m); [lia|]. rewrite (den_uv I _ _ _ Hd). apply eqm_mod.
Qed.

Lemma extract_ite_ok n hi lo arg :
  vec n arg -> (lo <= hi < n)%nat -> br_den I (S hi - lo) (uv arg / pow2 lo) (extract_ite ref_count hi lo arg).
Proof.
  intros Ha Hhi. unfold extract_ite. destruct arg as [|d [|c [|t [|e [|]]]]]; try done.
  destruct (is_ite _) eqn:Hi; [|done]. cbn [andb]. destruct (_ || _); [|done].
  destruct (ite_inv I _ Hi (proj1 Ha)) as (d' & c' & t' & e' & [= <- <- <- <-] & Hc & Ht & He & Hst & Hse & Hev).
  destruct Ha as [Hw Hs]. cbn [get_sort] in *. rewrite Hs in *.
  pose proof (den_extract_vec n hi lo t (conj Ht Hst) Hhi) as Hdt.
  pose proof (den_extract_vec n hi lo e (conj He Hse) Hhi) as Hde.
  eapply den_ext; [apply (den_ite I); [done|by eapply den_vec|by eapply den_vec]|].
  unfold BvFacts.uv at 3. rewrite Hev. destruct (tr I c); [rewrite (den_uv I _ _ _ Hdt)|rewrite (den_uv I _ _ _ Hde)]; apply eqm_mod.
Qed.

Lemma mk_extract_ok n hi lo arg :
  vec n arg -> (lo <= hi < n)%nat -> br_den I (S hi - lo) (uv arg / pow2 lo) (mk_extract p ref_count hi lo arg).
Proof.
  intros Ha Hhi. unfold mk_extract. rewrite (vec_size n) by done.
  destruct (Nat.eqb lo 0 && Nat.eqb hi (n - 1)) eqn:Hfull.
  { apply andb_true_iff in Hfull as [->%Nat.eqb_eq ->%Nat.eqb_eq]. rewrite pow2_0, Z.div_1_r.
    replace (S (n - 1) - 0)%nat with n by lia. by apply den_self. }
  destruct (is_numeral arg) as [[v m]|] eqn:Hn.
  { destruct (numeral_vec I _ _ _ _ Hn Ha) as (-> & Hv & ->). apply extract_numeral_ok; lia. }
  destruct (is_extract arg) eqn:He.
  { destruct (extract_inv I arg He (proj1 Ha)) as (m & d & a & hi2 & lo2 & -> & Hps & Hhi2 & Hva & Hv & Hd).
    assert (S hi2 - lo2 = n)%nat as Hw by (by eapply vec_width). unfold get_extract_low. rewrite Hps. cbn [snd].
    replace (S hi - lo)%nat with (S (hi + lo2) - (lo + lo2))%nat by lia.
    eapply (den_ext I); [apply (den_extract_vec m); [done|lia]|]. cbn [get_arg get_args nth].
    rewrite (Nat.add_comm lo), pow2_add, <- Z.div_div by (pose proof (pow2_pos lo2); pose proof (pow2_pos lo); lia).
    apply (eqm_div _ _ n); [lia|]. rewrite (den_uv I _ _ _ Hd), Hw. symmetry. apply eqm_mod. }
  destruct (is_concat arg) eqn:Hc.
  { destruct (concat_inv I arg Hc (proj1 Ha)) as (d & args & -> & _ & Hargs & _ & Hv & -> & _).
    assert (width args = n) as <- by (by eapply vec_width). by apply extract_concat_ok. }
  destruct (_ || _) eqn:Hk; [by apply (extract_ops_ok n)|].
  apply br_else_means; [by apply (extract_prop_ok n)|by apply (extract_ite_ok n)].
Qed.

(** ** Concatenation *)

(** The buffer stands for [v] on [w] bits. *)
Definition buffer (w : nat) (v : Z) (l : list expr) : Prop :=
  Forall bvec l /\ width (rev l) = w /\ catv (rev l) = v.

Lemma buffer_push w v l a : buffer w v l -> bvec a ->
  buffer (w + get_bv_size a) (v * pow2 (get_bv_size a) + uv a) (a :: l).
Proof.
  intros (Hl & <- & <-) Ha. split; [by constructor|]. cbn [rev].
  by rewrite width_app, catv_app, width_one, catv_one.
Qed.

Lemma buffer_inv w v a l : buffer w v (a :: l) -> exists w' v',
  buffer w' v' l /\ bvec a /\ w = (w' + get_bv_size a)%nat /\ v = v' * pow2 (get_bv_size a) + uv a.
Proof.
  intros ([Ha Hl]%Forall_cons & <- & <-). exists (width (rev l)), (catv (rev l)). cbn [rev].
  by rewrite width_app, catv_app, width_one, catv_one.
Qed.

Lemma buffer_app w v l args : buffer w v l -> Forall bvec args ->
  buffer (w + width args) (v * pow2 (width args) + catv args) (rev args ++ l).
Proof.
  intros (Hl & <- & <-) Hargs. split; [apply Forall_app; split; [by apply Forall_rev|done]|].
  by rewrite rev_app_distr, rev_involutive, width_app, catv_app.
Qed.

(** One argument replaces the last one and the new one. *)
Lemma buffer_fuse w v l k u a : buffer w v l -> vec k a -> uv a = u -> buffer (w + k) (v * pow2 k + u) (a :: l).
Proof. intros Hl Ha <-. rewrite <- (vec_size _ _ Ha). apply buffer_push; [done|by eapply vec_bvec]. Qed.

Lemma fuse_numerals_ok k m arg prev e :
  vec k arg -> vec m prev -> fuse_numerals arg prev = Some e ->
  vec (m + k) e /\ uv e = uv prev * pow2 k + uv arg.
Proof.
  intros Ha Hp. unfold fuse_numerals. destruct (is_numeral arg) as [[v1 sz1]|] eqn:Hn1; [|done].
  destruct (is_numeral prev) as [[v2 sz2]|] eqn:Hn2; [|done]. cbn [mbind option_bind]. intros [= <-].
  destruct (numeral_vec I _ _ _ _ Hn1 Ha) as (-> & Hv1 & ->), (numeral_vec I _ _ _ _ Hn2 Hp) as (-> & Hv2 & ->).
  fold (pow2 k). pose proof (vec_pos _ _ Ha). rewrite (Nat.add_comm k).
  pose proof (den_numeral I (m + k) (v2 * pow2 k + v1) ltac:(lia)) as Hd.
  split; [by eapply den_vec|]. apply (den_uv_small I _ _ _ Hd). rewrite pow2_add. nia.
Qed.

Lemma div_pow2_split x lo k m :
  x / pow2 lo mod pow2 (k + m) = x / pow2 (lo + k) mod pow2 m * pow2 k + x / pow2 lo mod pow2 k.
Proof.
  pose proof (pow2_pos k). pose proof (pow2_pos m). pose proof (pow2_pos lo).
  rewrite !pow2_add, Z.rem_mul_r, <- Z.div_div by lia. lia.
Qed.

Lemma fuse_extracts_ok k m arg prev e :
  vec k arg -> vec m prev -> fuse_extracts arg prev = Some e ->
  vec (m + k) e /\ uv e = uv prev * pow2 k + uv arg.
Proof.
  intros Ha Hp. unfold fuse_extracts. destruct (_ && _) eqn:Hc; [|done]. intros [= <-].
  rewrite !andb_true_iff, bool_decide_eq_true, Nat.eqb_eq in Hc. destruct Hc as [[[Hea Hep] Hsame] Hadj].
  destruct (extract_inv I arg Hea (proj1 Ha)) as (n & d & a & hi & lo & -> & Hps & Hhi & Hva & Hv & Hd).
  destruct (extract_inv I prev Hep (proj1 Hp)) as (n' & d' & a' & hi' & lo' & -> & Hps' & Hhi' & Hva' & Hv' & Hd').
  cbn in Hsame. subst a'. assert (n' = n) as -> by (by eapply vec_width).
  assert (S hi - lo = k)%nat as <- by (by eapply vec_width). assert (S hi' - lo' = m)%nat as <- by (by eapply vec_width).
  unfold get_extract_low, get_extract_high in *. rewrite Hps, Hps' in *. cbn [fst snd] in *. cbn [get_arg get_args nth].
  assert (S hi' - lo' + (S hi - lo) = S hi' - lo)%nat as Hw by lia.
  pose proof (den_extract_vec n hi' lo a Hva ltac:(lia)) as He. rewrite Hw. split; [by eapply den_vec|].
  rewrite (den_uv I _ _ _ He), (den_uv I _ _ _ Hd), (den_uv I _ _ _ Hd').
  replace (S hi' - lo)%nat with (S hi - lo + (S hi' - lo'))%nat by lia. rewrite div_pow2_split.
  by replace (lo + (S hi - lo))%nat with lo' by lia.
Qed.

Lemma buffer_replace w v l arg e (fuse : expr -> expr -> option expr) :
  (forall k m prev, vec k arg -> vec m prev -> fuse arg prev = Some e ->
    vec (m + k) e /\ uv e = uv prev * pow2 k + uv arg) ->
  buffer w v l -> bvec arg -> (head l ≫= fuse arg) = Some e ->
  buffer (w + get_bv_size arg) (v * pow2 (get_bv_size arg) + uv arg) (e :: tail l).
Proof.
  intros Hfuse Hl Ha. destruct l as [|prev l]; [done|]. cbn [head hd_error mbind option_bind tail]. intros He.
  destruct (buffer_inv _ _ _ _ Hl) as (w' & v' & Hb & Hp & -> & ->).
  destruct (Hfuse _ _ _ Ha Hp He) as [Hv Hu]. pose proof (buffer_push _ _ _ _ Hb (vec_bvec _ _ Hv)) as Hpush.
  rewrite (vec_size _ _ Hv), Hu, pow2_add in Hpush.
  rewrite <- Nat.add_assoc. by replace ((v' * pow2 (get_bv_size prev) + uv prev) * pow2 (get_bv_size arg) + uv arg)
    with (v' * (pow2 (get_bv_size prev) * pow2 (get_bv_size arg)) + (uv prev * pow2 (get_bv_size arg) + uv arg)) by lia.
Qed.

Lemma concat_step_ok w v s arg :
  buffer w v (new_args s) -> bvec arg ->
  buffer (w + get_bv_size arg) (v * pow2 (get_bv_size arg) + uv arg) (new_args (concat_step p s arg)).
Proof.
  intros Hs Ha. unfold concat_step. destruct (head (new_args s) ≫= fuse_numerals arg) as [e|] eqn:Hn.
  { eapply buffer_replace; [|done..]. intros k m prev. by apply fuse_numerals_ok. }
  destruct (m_flat p && is_concat arg) eqn:Hc.
  { apply andb_true_iff in Hc as [_ Hc].
    destruct (concat_inv I arg Hc (proj1 Ha)) as (d & args & -> & _ & Hargs & -> & _ & -> & _). by apply buffer_app. }
  destruct (head (new_args s) ≫= fuse_extracts arg) as [e|] eqn:He.
  { eapply buffer_replace; [|done..]. intros k m prev. by apply fuse_extracts_ok. }
  by apply buffer_push.
Qed.

Lemma concat_steps_ok w v s args :
  buffer w v (new_args s) -> Forall bvec args ->
  buffer (w + width args) (v * pow2 (width args) + catv args) (new_args (foldl (concat_step p) s args)).
Proof.
  intros Hs Hargs. revert w v s Hs. induction Hargs as [|a args Ha _ IH]; intros w v s Hs; cbn [foldl].
  - change (width []) with 0%nat. cbn [BvFacts.catv]. by rewrite pow2_0, Nat.add_0_r, Z.add_0_r, Z.mul_1_r.
  - rewrite width_cons. cbn [BvFacts.catv]. specialize (IH _ _ _ (concat_step_ok _ _ _ _ Hs Ha)).
    rewrite Nat.add_assoc, pow2_add.
    by replace (v * (pow2 (get_bv_size a) * pow2 (width args)) + (uv a * pow2 (width args) + catv args))
      with ((v * pow2 (get_bv_size a) + uv a) * pow2 (width args) + catv args) by lia.
Qed.

Lemma mk_concat_ok args : args <> [] -> Forall bvec args -> br_den I (width args) (catv args) (mk_concat p args).
Proof.
  intros Hne Hargs. unfold mk_concat. set (s := foldl _ _ _).
  assert (buffer (width args) (catv args) (new_args s)) as (Hl & Hw & Hv).
  { apply (concat_steps_ok 0 0 {| new_args := [] |}); [|done]. by split_and!. }
  clearbody s. destruct (_ && _); [done|]. pose proof (width_pos _ Hargs Hne) as Hpos.
  destruct (new_args s) as [|a l]; [change (width (rev [])) with 0%nat in Hw; lia|].
  assert (den (width args) (catv args) (mk_bv_concat (rev (a :: l)))) as Hd.
  { rewrite <- Hw, <- Hv. apply den_concat; [|by apply Forall_rev]. cbn. by destruct (rev l). }
  destruct l as [|b l]; [|by destruct (fused_extract s), (expanded s)].
  cbn [rev app] in Hw, Hv. rewrite width_one in Hw. rewrite catv_one in Hv. rewrite <- Hw, <- Hv.
  assert (den (get_bv_size a) (uv a) a) by (apply den_self; by apply Forall_cons in Hl as [? _]).
  by destruct (fused_extract s).
Qed.

(** ** Extension, repetition, rotation *)

Lemma bits_of_uval n l : length l = n -> bits_of n (uval l) = l.
Proof. intros Hl. apply uval_inj; [by rewrite bits_of_length|]. by rewrite uval_bits_of, <- Hl, uval_mod. Qed.

Lemma den_bits n l e : vec n e -> length l = n -> den n (uval l) e <-> bits (eval e) = l.
Proof.
  intros He Hl. unfold BvFacts.den, means. rewrite (bits_of_uval n l) by done. destruct (vec_bits I n e He) as [-> _].
  destruct He. cbn [bits]. split; [by intros (_ & _ & [= ->])|by intros ->].
Qed.

Lemma mk_zero_extend_ok n k a : vec n a -> br_den I (n + k) (uv a) (mk_zero_extend k a).
Proof.
  intros Ha. unfold mk_zero_extend. destruct (Nat.eqb_spec k 0) as [->|Hk].
  - rewrite Nat.add_0_r. by apply den_self.
  - assert (den k 0 (mk_numeral 0 k)) as Hd by (apply den_numeral; lia). pose proof (den_vec _ _ _ _ Hd) as Hv.
    pose proof (den_concat I [mk_numeral 0 k; a]) as Hcat.
    rewrite width_cons, width_one, (vec_size _ _ Hv), (vec_size _ _ Ha) in Hcat.
    rewrite (Nat.add_comm n). eapply br_den_ext; [apply Hcat; [done|]|].
    + constructor; [by eapply vec_bvec|]. apply Forall_singleton. by eapply vec_bvec.
    + cbn [BvFacts.catv]. rewrite (den_uv I _ _ _ Hd), Z.mod_0_l by (pose proof (pow2_pos k); lia).
      change (width []) with 0%nat. rewrite pow2_0. by replace (0 * _ + _) with (uv a) by lia.
Qed.

Lemma width_replicate k e : width (replicate k e) = (k * get_bv_size e)%nat.
Proof. induction k as [|k IH]; [done|]. cbn [replicate]. rewrite width_cons, IH. lia. Qed.

Lemma catv_replicate k e : catv (replicate k e) * (pow2 (get_bv_size e) - 1) = uv e * (pow2 (k * get_bv_size e) - 1).
Proof.
  induction k as [|k IH]; [change (0 * get_bv_size e)%nat with 0%nat; rewrite pow2_0; cbn; lia|].
  cbn [replicate BvFacts.catv]. rewrite width_replicate.
  change (S k * get_bv_size e)%nat with (get_bv_size e + k * get_bv_size e)%nat. rewrite pow2_add. nia.
Qed.

Lemma mk_sign_extend_ok n k a : vec n a -> br_den I (n + k) (sv a) (mk_sign_extend p k a).
Proof.
  intros Ha. pose proof (vec_pos _ _ Ha) as Hn. unfold mk_sign_extend. destruct (Nat.eqb_spec k 0) as [->|Hk].
  { rewrite Nat.add_0_r. eapply br_den_ext; [by apply den_self|]. symmetry. by apply sv_eqm. }
  destruct (is_numeral a) as [[v m]|] eqn:Hnum.
  { destruct (numeral_vec I _ _ _ _ Hnum Ha) as (-> & _ & Hu). rewrite (sv_norm I n), Hu by done. fold (pow2 (n + k)).
    eapply br_den_ext; [apply den_numeral; lia|apply eqm_mod]. }
  destruct (m_elim_sign_ext p); [|done]. rewrite (vec_size n) by done. set (sign := mk_bv_extract (n - 1) (n - 1) a).
  assert (den 1 (uv a / pow2 (n - 1)) sign) as Hs.
  { pose proof (den_extract_vec n (n - 1) (n - 1) a Ha ltac:(lia)) as Hs.
    by replace (S (n - 1) - (n - 1))%nat with 1%nat in Hs by lia. }
  pose proof (den_vec _ _ _ _ Hs) as Hv. pose proof (den_concat I (replicate k sign ++ [a])) as Hcat.
  rewrite width_app, width_one, width_replicate, catv_app, width_one, catv_one, (vec_size _ _ Hv), (vec_size _ _ Ha), Nat.mul_1_r in Hcat.
  rewrite (Nat.add_comm n). eapply br_den_ext; [apply Hcat|].
  - by destruct k.
  - apply Forall_app. split; [|apply Forall_singleton; by eapply vec_bvec].
    apply Forall_replicate. by eapply vec_bvec.
  - pose proof (catv_replicate k sign) as Hrep. rewrite (vec_size _ _ Hv), Nat.mul_1_r in Hrep.
    change (pow2 1 - 1) with 1 in Hrep. rewrite Z.mul_1_r in Hrep. rewrite Hrep.
    rewrite (sv_norm I n), norm_small by (done || by apply uv_range).
    pose proof (uv_range I n a Ha) as Hb. pose proof (pow2_double n Hn) as Hp. pose proof (pow2_pos (n - 1)).
    rewrite (den_uv_small I _ _ _ Hs).
    2: { split; [apply Z.div_pos; lia|]. apply Z.div_lt_upper_bound; [done|]. change (pow2 1) with 2. lia. }
    destruct (Z.leb_spec (pow2 (n - 1)) (uv a)) as [Hle|Hlt].
    + replace (uv a / pow2 (n - 1)) with 1 by (apply (Z.div_unique _ _ _ (uv a - pow2 (n - 1))); lia).
      apply (eqm_multiple _ _ _ 1). rewrite pow2_add. lia.
    + rewrite Z.div_small by lia. by replace (0 * _ * _ + _) with (uv a) by lia.
Qed.

Lemma mk_repeat_ok n k a :
  vec n a -> (0 < k)%nat -> br_den I (k * n) (uval (concat (replicate k (bits (eval a))))) (mk_repeat k a).
Proof.
  intros Ha Hk. unfold mk_repeat. pose proof (vec_bits I n a Ha) as [_ Hl].
  assert (length (concat (replicate k (bits (eval a)))) = (k * n)%nat) as Hlen by (by rewrite length_concat_replicate, Hl).
  destruct (Nat.eqb_spec k 1) as [->|].
  { cbn [replicate concat]. rewrite app_nil_r, Nat.mul_1_l. by apply (den_self I n a). }
  assert (Forall bvec (replicate k a)) as Hrep by (apply Forall_replicate; by eapply vec_bvec).
  pose proof (den_concat I (replicate k a)) as Hcat. rewrite width_replicate, (vec_size _ _ Ha) in Hcat.
  eapply br_den_ext; [apply Hcat; [destruct k; [lia|done]|done]|]. apply bits_of_eqm. rewrite bits_of_uval by done.
  pose proof (concat_bits I _ Hrep) as Hb. rewrite width_replicate, (vec_size _ _ Ha) in Hb. rewrite <- Hb.
  change (map bits (map eval (replicate k a))) with (bits <$> (eval <$> replicate k a)). rewrite !fmap_replicate.
  f_equal. clear. induction k as [|k IH]; [done|]. cbn [replicate rev]. 
  by rewrite IH, <- replicate_S_end.
Qed.

Lemma rotate_split x r k :
  (k < length x)%nat -> Z.of_nat k = r mod Z.of_nat (length x) ->
  rotate x r = drop (length x - k) x ++ take (length x - k) x.
Proof.
  intros Hk Hr. apply nth_ext with false false.
  { rewrite rotate_length, length_app, length_drop, length_take. lia. }
  rewrite rotate_length. intros i Hi. unfold rotate.
  rewrite (nth_indep _ false (nth (rot_index (length x) 0 r) x false)) by (by rewrite length_map, length_seq).
  rewrite (map_nth (fun i => nth (rot_index (length x) i r) x false)), seq_nth by done. cbn [Nat.add].
  rewrite (rot_index_eq _ _ _ k) by done. case_decide.
  - rewrite app_nth1 by (rewrite length_drop; lia). rewrite nth_skipn. f_equal. lia.
  - rewrite app_nth2, length_drop by (rewrite length_drop; lia). rewrite nth_firstn.
    replace (i - (length x - (length x - k)))%nat with (i - k)%nat by lia.
    destruct (Nat.ltb_spec (i - k) (length x - k)); [done|lia].
Qed.

Lemma mk_bv_rotate_left_ok n k r a :
  vec n a -> Z.of_nat k mod Z.of_nat n = r mod Z.of_nat n ->
  br_den I n (uval (rotate (bits (eval a)) r)) (mk_bv_rotate_left k a).
Proof.
  intros Ha Hr. pose proof (vec_pos _ _ Ha) as Hn. pose proof (vec_bits I n a Ha) as [_ Hl].
  unfold mk_bv_rotate_left. rewrite (vec_size n) by done.
  assert (k mod n < n)%nat as Hk by (apply Nat.mod_upper_bound; lia).
  rewrite (rotate_split _ r (k mod n)) by (rewrite Hl; done || (rewrite Nat2Z.inj_mod; done)). rewrite Hl.
  destruct (Nat.eqb_spec (k mod n) 0) as [->|Hk0]; cbn [orb].
  { rewrite Nat.sub_0_r, drop_ge, take_ge by lia. by apply (den_self I n a). }
  destruct (Nat.eqb_spec n 1); [lia|]. cbn [orb]. set (m := (k mod n)%nat) in *.
  pose proof (den_extract_vec n (n - m - 1) 0 a Ha ltac:(lia)) as H1.
  pose proof (den_extract_vec n (n - 1) (n - m) a Ha ltac:(lia)) as H2.
  replace (S (n - m - 1) - 0)%nat with (n - m)%nat in H1 by lia. replace (S (n - 1) - (n - m))%nat with m in H2 by lia.
  rewrite pow2_0, Z.div_1_r in H1. pose proof (den_vec _ _ _ _ H1) as Hv1. pose proof (den_vec _ _ _ _ H2) as Hv2.
  pose proof (den_concat I [mk_bv_extract (n - m - 1) 0 a; mk_bv_extract (n - 1) (n - m) a]) as Hcat.
  rewrite width_cons, width_one, (vec_size _ _ Hv1), (vec_size _ _ Hv2) in Hcat.
  replace (n - m + m)%nat with n in Hcat by lia. eapply br_den_ext; [apply Hcat; [done|]|].
  - constructor; [by eapply vec_bvec|]. apply Forall_singleton. by eapply vec_bvec.
  - cbn [BvFacts.catv]. rewrite width_one, (vec_size _ _ Hv2). change (width []) with 0%nat.
    rewrite uval_app, uval_drop, uval_take, length_drop, Hl. fold (uv a).
    rewrite (den_uv I _ _ _ H1), (den_uv I _ _ _ H2), pow2_0. replace (n - (n - m))%nat with m by lia.
    pose proof (uv_range I n a Ha). rewrite (Z.mod_small (uv a / _)); [|split].
    + unfold eqm. f_equal. lia.
    + apply Z.div_pos; [lia|apply pow2_pos].
    + apply Z.div_lt_upper_bound; [apply pow2_pos|]. rewrite <- pow2_add.
      replace (n - m + m)%nat with n by lia. lia.
Qed.

Lemma mk_bv_rotate_right_ok n k r a :
  vec n a -> (- Z.of_nat k) mod Z.of_nat n = r mod Z.of_nat n ->
  br_den I n (uval (rotate (bits (eval a)) r)) (mk_bv_rotate_right k a).
Proof.
  intros Ha Hr. pose proof (vec_pos _ _ Ha) as Hn. unfold mk_bv_rotate_right. rewrite (vec_size n) by done.
  apply mk_bv_rotate_left_ok; [done|]. rewrite <- Hr.
  assert (k mod n < n)%nat by (apply Nat.mod_upper_bound; lia).
  rewrite Nat2Z.inj_sub, Nat2Z.inj_mod by lia.
  apply (mod_eq _ _ _ (1 + Z.of_nat k / Z.of_nat n)). pose proof (Z.div_mod (Z.of_nat k) (Z.of_nat n)). lia.
Qed.

Lemma rotate_amount_ok n v : (0 < n)%nat -> 0 <= v -> Z.of_nat (rotate_amount v n) = v mod Z.of_nat n.
Proof.
  intros Hn Hv. unfold rotate_amount. rewrite Z.rem_mod_nonneg, Zmod_mod by lia.
  pose proof (Z.mod_pos_bound v (Z.of_nat n)). lia.
Qed.

(** ** Shifts *)

Lemma amount_pow2 r : 0 <= r -> 2 ^ r = pow2 (Z.to_nat r).
Proof. intros Hr. unfold pow2. by rewrite Z2Nat.id. Qed.

(** A concatenation of two. *)
Lemma den_concat2 n m v w a b :
  den n v a -> den m w b -> den (n + m) (v mod pow2 n * pow2 m + w mod pow2 m) (mk_bv_concat [a; b]).
Proof.
  intros Ha Hb. pose proof (den_vec _ _ _ _ Ha) as Hva. pose proof (den_vec _ _ _ _ Hb) as Hvb.
  pose proof (den_concat I [a; b]) as Hcat. rewrite width_cons, width_one, (vec_size _ _ Hva), (vec_size _ _ Hvb) in Hcat.
  replace (v mod _ * _ + _) with (catv [a; b]).
  - apply Hcat; [done|]. constructor; [by eapply vec_bvec|]. apply Forall_singleton. by eapply vec_bvec.
  - cbn [BvFacts.catv]. rewrite width_one, (vec_size _ _ Hvb), (den_uv I _ _ _ Ha), (den_uv I _ _ _ Hb).
    change (width []) with 0%nat. rewrite pow2_0. lia.
Qed.

Lemma mk_bv_shl_ok n a b : vec n a -> vec n b -> br_den I n (uv a * 2 ^ uv b) (mk_bv_shl a b).
Proof.
  intros Ha Hb. pose proof (vec_pos _ _ Ha) as Hn. unfold mk_bv_shl. rewrite (vec_size n) by done.
  destruct (is_numeral b) as [[r2 m]|] eqn:Hnb; [|done]. destruct (numeral_vec I _ _ _ _ Hnb Hb) as (-> & Hr2 & ->).
  destruct (Z.eqb_spec r2 0) as [->|]; [rewrite Z.mul_1_r; by apply den_self|].
  destruct (Z.leb_spec (Z.of_nat n) r2).
  { eapply br_den_ext; [by apply den_numeral|]. rewrite amount_pow2, (eqm_pow2_le n) by lia. by rewrite Z.mul_0_r. }
  destruct (is_numeral a) as [[r1 m]|] eqn:Hna.
  { destruct (numeral_vec I _ _ _ _ Hna Ha) as (-> & Hr1 & ->).
    destruct (Z.leb_spec (Z.of_nat n) 64); (eapply br_den_ext; [by apply den_numeral|]); rewrite norm_eqm by done; [|done].
    unfold shift_left, u64. destruct (Z.ltb_spec r2 64); [|lia]. rewrite Z.shiftl_mul_pow2 by lia.
    apply (eqm_le n 64); [lia|]. apply (eqm_mod 64). }
  set (k := Z.to_nat r2). assert (den (n - k) (uv a) (mk_bv_extract (n - k - 1) 0 a)) as H1.
  { pose proof (den_extract_vec n (n - k - 1) 0 a Ha ltac:(lia)) as H1. rewrite pow2_0, Z.div_1_r in H1.
    by replace (S (n - k - 1) - 0)%nat with (n - k)%nat in H1 by lia. }
  pose proof (den_concat2 _ _ _ _ _ _ H1 (den_numeral I k 0 ltac:(lia))) as Hd.
  replace (n - k + k)%nat with n in Hd by lia. eapply br_den_ext; [exact Hd|].
  rewrite amount_pow2, Z.mod_0_l by (lia || (pose proof (pow2_pos k); lia)). fold k.
  pose proof (eqm_cat (n - k) k _ _ 0 (eqm_mod (n - k) (uv a))) as He.
  rewrite !Z.add_0_r in *. by replace (n - k + k)%nat with n in He by lia.
Qed.

Lemma mk_bv_lshr_ok n a b : vec n a -> vec n b -> br_den I n (uv a / 2 ^ uv b) (mk_bv_lshr a b).
Proof.
  intros Ha Hb. pose proof (vec_pos _ _ Ha) as Hn. pose proof (uv_range I n a Ha) as Hua.
  unfold mk_bv_lshr. rewrite (vec_size n) by done.
  destruct (is_numeral b) as [[r2 m]|] eqn:Hnb; [|done]. destruct (numeral_vec I _ _ _ _ Hnb Hb) as (-> & Hr2 & ->).
  destruct (Z.eqb_spec r2 0) as [->|]; [rewrite Z.div_1_r; by apply den_self|].
  destruct (Z.leb_spec (Z.of_nat n) r2).
  { rewrite Z.div_small; [by apply den_numeral|]. rewrite amount_pow2 by lia.
    pose proof (pow2_le n (Z.to_nat r2) ltac:(lia)). lia. }
  destruct (is_numeral a) as [[r1 m]|] eqn:Hna.
  { destruct (numeral_vec I _ _ _ _ Hna Ha) as (-> & Hr1 & ->).
    destruct (Z.leb_spec (Z.of_nat n) 64); [|by apply den_numeral].
    eapply br_den_ext; [by apply den_numeral|]. rewrite norm_eqm by done.
    unfold shift_right. destruct (Z.ltb_spec r2 64); [|lia]. by rewrite Z.shiftr_div_pow2 by lia. }
  set (k := Z.to_nat r2).
  pose proof (den_extract_vec n (n - 1) k a Ha ltac:(lia)) as H1. replace (S (n - 1) - k)%nat with (n - k)%nat in H1 by lia.
  pose proof (den_concat2 _ _ _ _ _ _ (den_numeral I k 0 ltac:(lia)) H1) as Hd.
  replace (k + (n - k))%nat with n in Hd by lia. eapply br_den_ext; [exact Hd|].
  rewrite amount_pow2, Z.mod_0_l by (lia || (pose proof (pow2_pos k); lia)). fold k.
  rewrite Z.mul_0_l, Z.add_0_l, Z.mod_small; [done|]. pose proof (pow2_pos k).
  split; [apply Z.div_pos; lia|]. apply Z.div_lt_upper_bound; [done|]. rewrite <- pow2_add.
  replace (k + (n - k))%nat with n by lia. lia.
Qed.

(** *** Arithmetic shift *)

(** The loop sets the bits from [m] on. *)
Lemma pad_ones_ok steps m q x :
  (0 < m)%nat -> (q <= m <= q + steps)%nat -> pow2 (m - 1) <= x < pow2 m ->
  pad_ones steps (pow2 q) x = x + pow2 (q + steps) - pow2 m.
Proof.
  revert m q x. induction steps as [|steps IH]; intros m q x Hm Hq Hx; cbn [pad_ones].
  { replace q with m by lia. rewrite Nat.add_0_r. lia. }
  replace (pow2 q * 2) with (pow2 (S q)) by (rewrite pow2_S; lia).
  replace (q + S steps)%nat with (S q + steps)%nat by lia. destruct (decide (q = m)) as [->|].
  - destruct (Z.ltb_spec x (pow2 m)); [|lia]. pose proof (pow2_S m). pose proof (pow2_pos (m - 1)).
    rewrite (IH (S m)); [lia|lia|lia|]. replace (S m - 1)%nat with m by lia. lia.
  - pose proof (pow2_le q (m - 1) ltac:(lia)). destruct (Z.ltb_spec x (pow2 q)); [lia|]. by apply IH; [|lia|].
Qed.

(** A negative number shifted: ones come in at the top. *)
Lemma ashr_negative n k v :
  (k <= n)%nat -> eqm n ((v - pow2 n) / pow2 k) (v / pow2 k + pow2 n - pow2 (n - k)).
Proof.
  intros Hk. pose proof (pow2_pos k). apply (eqm_multiple _ _ _ (-1)).
  replace (v - pow2 n) with (v + - pow2 (n - k) * pow2 k).
  - rewrite Z.div_add by lia. lia.
  - replace n with (n - k + k)%nat at 2 by lia. rewrite pow2_add. lia.
Qed.

Lemma low_mask m : 0 <= m <= 64 -> u64 (shift_left 1 m - 1) = Z.ones m.
Proof.
  intros Hm. unfold u64, shift_left. destruct (Z.ltb_spec m 64); [|by assert (m = 64) as -> by lia].
  rewrite Z.shiftl_1_l, Z.ones_equiv. pose proof (Z.pow_lt_mono_r 2 m 64 ltac:(lia)). unfold u64.
  assert (0 < 2 ^ m) by (apply Z.pow_pos_nonneg; lia). rewrite (Z.mod_small (2 ^ m)), Z.mod_small by lia. lia.
Qed.

(** Setting the bits from [m] to [n] of a number below [2 ^ m]. *)
Lemma high_ones n m r :
  (m <= n <= 64)%nat -> 0 <= r < pow2 m ->
  Z.lor r (Z.land (u64 (Z.lnot (u64 (shift_left 1 (Z.of_nat m) - 1)))) (u64 (shift_left 1 (Z.of_nat n) - 1)))
  = r + pow2 n - pow2 m.
Proof.
  intros Hm Hr. rewrite !low_mask by lia. rewrite Z.land_ones by lia. unfold u64. fold (pow2 n).
  change (2 ^ 64) with (pow2 64).
  assert ((Z.lnot (Z.ones (Z.of_nat m)) mod pow2 64) mod pow2 n = (pow2 (n - m) - 1) * pow2 m) as ->.
  { replace (Z.lnot (Z.ones (Z.of_nat m))) with (- pow2 m) by (rewrite Z.ones_equiv; unfold Z.lnot, pow2; lia).
    assert (eqm n (- pow2 m mod pow2 64) (- pow2 m)) as -> by (apply (eqm_le _ 64); [lia|apply eqm_mod]).
    pose proof (pow2_pos m). pose proof (pow2_pos (n - m)). assert (pow2 n = pow2 (n - m) * pow2 m) as -> by (rewrite <- pow2_add; f_equal; lia).
    symmetry. apply (Z.mod_unique _ _ (-1)); [left|]; nia. }
  pose proof (Z.add_lor_land r ((pow2 (n - m) - 1) * pow2 m)) as Hl.
  assert (Z.land r ((pow2 (n - m) - 1) * pow2 m) = 0) as Hz.
  { pose proof (pow2_pos m). rewrite <- (Z.mod_small r (pow2 m)) by done. unfold pow2 at 1.
    rewrite <- Z.land_ones, <- Z.land_assoc by lia. rewrite (Z.land_comm (Z.ones _)), Z.land_ones by lia.
    fold (pow2 m). by rewrite Z.mod_mul, Z.land_0_r by lia. }
  assert (pow2 n = pow2 (n - m) * pow2 m) as -> by (rewrite <- pow2_add; f_equal; lia). lia.
Qed.

(** The sign bit and the signed value of a number in range. *)
Lemma signed_value n v :
  (0 < n)%nat -> 0 <= v < pow2 n -> norm v n true = if has_sign_bit v n then v - pow2 n else v.
Proof.
  intros Hn Hv. rewrite norm_small by done. unfold has_sign_bit. rewrite norm_unsigned, Z.mod_small by done.
  by replace (2 ^ (Z.of_nat n - 1)) with (pow2 (n - 1)) by (unfold pow2; f_equal; lia).
Qed.

Lemma sign_bit_u64 n v :
  (0 < n <= 64)%nat -> 0 <= v < pow2 n ->
  negb (Z.land v (shift_left 1 (Z.of_nat n - 1)) =? 0) = has_sign_bit v n.
Proof.
  intros Hn Hv. unfold has_sign_bit. rewrite norm_unsigned, (Z.mod_small v) by done.
  replace (Z.of_nat n - 1) with (Z.of_nat (n - 1)) by lia. fold (pow2 (n - 1)).
  unfold shift_left. destruct (Z.ltb_spec (Z.of_nat (n - 1)) 64); [|lia].
  rewrite Z.shiftl_1_l. unfold u64. rewrite (Z.mod_small (2 ^ _)) by (pose proof (Z.pow_lt_mono_r 2 (Z.of_nat (n - 1)) 64 ltac:(lia)); lia).
  pose proof (pow2_double n ltac:(lia)) as Hp. pose proof (pow2_pos (n - 1)).
  rewrite Z.land_comm. fold (pow2 (n - 1)).
  assert (Z.testbit v (Z.of_nat (n - 1)) = (pow2 (n - 1) <=? v)) as Hbit.
  { rewrite Z.testbit_odd, shiftr_pow2. destruct (Z.leb_spec (pow2 (n - 1)) v).
    - by replace (v / pow2 (n - 1)) with 1 by (apply (Z.div_unique _ _ _ (v - pow2 (n - 1))); lia).
    - by rewrite Z.div_small by lia. }
  rewrite <- Hbit. assert (Z.land (pow2 (n - 1)) v = if Z.testbit v (Z.of_nat (n - 1)) then pow2 (n - 1) else 0) as ->.
  { apply Z.bits_inj'. intros i Hi. unfold pow2 at 1. rewrite Z.land_spec, Z.pow2_bits_eqb by lia.
    destruct (Z.eqb_spec (Z.of_nat (n - 1)) i) as [<-|Hne]; cbn [andb].
    - destruct (Z.testbit v _); [|by rewrite Z.testbit_0_l]. unfold pow2. by rewrite Z.pow2_bits_true by lia.
    - destruct (Z.testbit v _); [|by rewrite Z.testbit_0_l]. unfold pow2. by rewrite Z.pow2_bits_false by lia. }
  destruct (Z.testbit v _); [|done]. destruct (Z.eqb_spec (pow2 (n - 1)) 0); [lia|done].
Qed.

(** The shift of a number at least the width long leaves only the sign. *)
Lemma ashr_long n x k : - pow2 (n - 1) <= x < pow2 (n - 1) -> (n - 1 <= k)%nat -> x / pow2 k = if x <? 0 then -1 else 0.
Proof.
  intros Hx Hk. pose proof (pow2_le (n - 1) k Hk). pose proof (pow2_pos k). destruct (Z.ltb_spec x 0).
  - symmetry. apply (Z.div_unique _ _ _ (x + pow2 k)); lia.
  - apply Z.div_small. lia.
Qed.

Lemma sign_div n k v :
  (k < n)%nat -> pow2 (n - 1) <= v < pow2 n -> pow2 (n - k - 1) <= v / pow2 k < pow2 (n - k).
Proof.
  intros Hk Hv. pose proof (pow2_pos k).
  replace (n - 1)%nat with (k + (n - k - 1))%nat in Hv by lia. replace n with (k + (n - k))%nat in Hv at 2 by lia.
  rewrite !pow2_add in Hv. split; [apply Z.div_le_lower_bound; lia|apply Z.div_lt_upper_bound; lia].
Qed.

(** The shift of a numeral, by fewer bits than it has and not. *)
Lemma ashr_short n v k w :
  (0 < n)%nat -> (k < n)%nat -> 0 <= v < pow2 n ->
  w = (if has_sign_bit v n then v / pow2 k + pow2 n - pow2 (n - k) else v / pow2 k) ->
  eqm n w (norm v n true / pow2 k).
Proof.
  intros Hn Hk Hv ->. rewrite signed_value by done. destruct (has_sign_bit v n); [|done].
  symmetry. apply ashr_negative. lia.
Qed.

Lemma has_sign_bit_spec n v : (0 < n)%nat -> 0 <= v < pow2 n -> has_sign_bit v n = (pow2 (n - 1) <=? v).
Proof.
  intros Hn Hv. unfold has_sign_bit. rewrite norm_unsigned, Z.mod_small by done.
  by replace (2 ^ (Z.of_nat n - 1)) with (pow2 (n - 1)) by (unfold pow2; f_equal; lia).
Qed.

Lemma ashr_beyond n v k :
  (0 < n)%nat -> (n <= k)%nat -> 0 <= v < pow2 n ->
  eqm n (if has_sign_bit v n then pow2 n - 1 else 0) (norm v n true / pow2 k).
Proof.
  intros Hn Hk Hv. pose proof (norm_bounds v n Hn) as Hb. rewrite (ashr_long n) by (done || lia).
  rewrite signed_value in * by done. rewrite has_sign_bit_spec in * by done. pose proof (pow2_pos n).
  destruct (Z.leb_spec (pow2 (n - 1)) v).
  - destruct (Z.ltb_spec (v - pow2 n) 0); [|lia]. apply (eqm_multiple _ _ _ 1). lia.
  - destruct (Z.ltb_spec v 0); [lia|done].
Qed.

Lemma ashr_numerals_ok n r1 r2 :
  (0 < n)%nat -> 0 <= r1 < pow2 n -> 0 <= r2 < pow2 n -> r2 <> 0 ->
  den n (norm r1 n true / 2 ^ r2) (ashr_numerals r1 r2 n).
Proof.
  intros Hn H1 H2 Hne. set (k := Z.to_nat r2). rewrite (amount_pow2 r2) by lia. fold k.
  assert (0 <= r1 / pow2 k) as Hq by (apply Z.div_pos; [lia|apply pow2_pos]).
  unfold ashr_numerals. destruct (Z.leb_spec (Z.of_nat n) 64) as [H64|H64].
  - eapply den_ext; [by apply den_numeral|]. unfold ashr_u64. rewrite sign_bit_u64 by (done || lia).
    destruct (Z.ltb_spec (r2 mod Z.of_nat n) r2) as [Hlt|Hge].
    + assert (n <= k)%nat by (destruct (decide (n <= k)%nat); [done|]; rewrite Z.mod_small in Hlt; lia).
      rewrite low_mask, Z.ones_equiv by lia. fold (pow2 n). by apply ashr_beyond.
    + assert (k < n)%nat as Hk by (pose proof (Z.mod_pos_bound r2 (Z.of_nat n)); lia).
      assert (r2 mod Z.of_nat n = r2) as -> by (apply Z.mod_small; lia).
      assert (shift_right r1 r2 = r1 / pow2 k) as ->.
      { unfold shift_right. destruct (Z.ltb_spec r2 64); [|lia]. by rewrite Z.shiftr_div_pow2, amount_pow2 by lia. }
      apply ashr_short; [done..|]. destruct (has_sign_bit r1 n) eqn:Hs; [|done].
      replace (Z.of_nat n - r2) with (Z.of_nat (n - k)) by lia. rewrite has_sign_bit_spec in Hs by done.
      apply high_ones; [lia|]. split; [done|]. apply (sign_div n k); [done|]. apply Z.leb_le in Hs. lia.
  - destruct (Z.leb_spec (Z.of_nat n) r2); (eapply den_ext; [by apply den_numeral|]).
    + fold (pow2 n). apply ashr_beyond; [done|lia|done].
    + assert (k < n)%nat as Hk by lia. rewrite (amount_pow2 r2) by lia. fold k.
      apply ashr_short; [done..|]. destruct (has_sign_bit r1 n) eqn:Hs; [|done]. rewrite has_sign_bit_spec in Hs by done.
      apply Z.leb_le in Hs. change 1 with (pow2 0). rewrite (pad_ones_ok n (n - k)); [done|lia|lia|].
      apply sign_div; lia.
Qed.

Lemma ashr_means n a b :
  vec n a -> vec n b -> den n (sv a / 2 ^ uv b) (bv_app OP_BASHR [] [a; b]).
Proof.
  intros Ha Hb. pose proof (binary_means I OP_BASHR _ n a b eq_refl Ha Hb) as Hm.
  destruct (vec_bits I n a Ha) as [_ Hl]. cbn beta in Hm. by rewrite Hl in Hm.
Qed.

Lemma match_ashr n e a b :
  match_binary OP_BASHR e = Some (a, b) -> vec n e -> vec n a /\ vec n b /\ sv e = sv a / 2 ^ uv b.
Proof.
  intros (d & -> & Hk)%match_binary_spec He.
  destruct (binary_inv I d [a; b] OP_BASHR _ Hk eq_refl (proj1 He)) as (m & a' & b' & [= <- <-] & Ha & Hb & Hr & Hev).
  assert (m = n) as -> by (destruct He as [_ He]; cbn in He; congruence). split; [done|]. split; [done|].
  destruct (vec_bits I n a Ha) as [_ Hl]. rewrite Hl in Hev. unfold BvFacts.sv at 1. rewrite Hev. cbn [bits].
  rewrite <- norm_signed by (by eapply vec_pos). fold (sv a) (uv b). apply signed_small; [by eapply vec_pos|].
  pose proof (sv_range I n a Ha). pose proof (uv_range I n b Hb). rewrite amount_pow2 by lia.
  set (k := Z.to_nat (uv b)). pose proof (pow2_pos k). split; [apply Z.div_le_lower_bound|apply Z.div_lt_upper_bound]; nia.
Qed.

Lemma mk_bv_ashr_ok n a b : vec n a -> vec n b -> br_den I n (sv a / 2 ^ uv b) (mk_bv_ashr a b).
Proof.
  intros Ha Hb. pose proof (vec_pos _ _ Ha) as Hn. unfold mk_bv_ashr. rewrite (vec_size n) by done.
  destruct (is_numeral b) as [[r2 m]|] eqn:Hnb; [|done]. destruct (numeral_vec I _ _ _ _ Hnb Hb) as (-> & Hr2 & ->).
  destruct (Z.eqb_spec r2 0) as [->|].
  { rewrite Z.div_1_r. eapply br_den_ext; [by apply den_self|]. symmetry. by apply sv_eqm. }
  destruct (is_numeral a) as [[r1 m]|] eqn:Hna.
  { destruct (numeral_vec I _ _ _ _ Hna Ha) as (-> & Hr1 & Hu). rewrite (sv_norm I n), Hu by done. by apply ashr_numerals_ok. }
  destruct (match_binary OP_BASHR a) as [[x y]|] eqn:Hm; [|done]. destruct (match_ashr n a x y Hm Ha) as (Hx & Hy & ->).
  destruct (is_numeral y) as [[r1 m]|] eqn:Hny; [|done]. destruct (numeral_vec I _ _ _ _ Hny Hy) as (-> & Hr1 & ->).
  pose proof (pow2_nat_lt n) as Hlt. set (c := Z.min (r1 + r2) (Z.of_nat n)).
  pose proof (den_numeral I n c Hn) as Hc. apply (den_ext I n (sv x / 2 ^ c)).
  - replace c with (uv (mk_numeral c n)) at 1 by (apply (den_uv_small I n); [done|lia]).
    apply ashr_means; [done|by eapply den_vec].
  - rewrite Z.div_div, <- Z.pow_add_r by (lia || (apply Z.pow_nonzero; lia) || (apply Z.pow_pos_nonneg; lia)).
    unfold c. destruct (Z.min_spec (r1 + r2) (Z.of_nat n)) as [[_ ->]|[Hle ->]]; [done|].
    pose proof (sv_range I n x Hx). rewrite !amount_pow2, !(ashr_long n) by (done || lia). done.
Qed.
End Terms.
