(* ===== verification/BvRewriterDivOk.v ===== *)
(** Division, remainder and modulus of the bit-vector rewriter are correct, with
    the values SMT-LIB gives to a division by zero ([hi_div0] set). *)
From S2P Require Import Prelude Text Bits BlastDiv Ast AstSem AstFacts BoolRewriter BoolRewriterOk BvPlugin BvFacts PolyRewriter PolyRewriterOk BvRewriterLeq BvRewriterLeqOk BvRewriterTerms BvRewriterTermsOk BvRewriterDiv.

Lemma is_power_of_two_spec a k : is_power_of_two a = Some k -> a = pow2 k.
Proof.
  unfold is_power_of_two. destruct (_ && _) eqn:Hc; [|done]. intros [= <-].
  apply andb_true_iff in Hc as [Ha%Z.ltb_lt Hp%Z.eqb_eq]. unfold pow2. by rewrite Z2Nat.id by apply Z.log2_nonneg.
Qed.

Section Div.
Context (I : interp).
Local Abbreviation uv := (uv I).
Local Abbreviation sv := (sv I).
Local Abbreviation den := (den I).

(** ** Operators *)

Lemma unsigned_op_means k f n a b :
  bv_binary k = Some (unsigned_op f) -> vec n a -> vec n b -> den n (f (uv a) (uv b)) (bv_app k [] [a; b]).
Proof.
  intros Hk Ha Hb. pose proof (binary_means I k _ n a b Hk Ha Hb) as Hm. unfold unsigned_op in Hm.
  destruct (vec_bits I n a Ha) as [_ Hl]. by rewrite Hl in Hm.
Qed.

Lemma signed_op_means k f n a b :
  bv_binary k = Some (signed_op f) -> vec n a -> vec n b -> den n (f (sv a) (sv b)) (bv_app k [] [a; b]).
Proof.
  intros Hk Ha Hb. pose proof (binary_means I k _ n a b Hk Ha Hb) as Hm. unfold signed_op in Hm.
  destruct (vec_bits I n a Ha) as [_ Hl]. by rewrite Hl in Hm.
Qed.

Lemma udiv_means n a b :
  vec n a -> vec n b -> den n (smt_udiv n (uv a) (uv b)) (bv_app OP_BUDIV_I [] [a; b]).
Proof.
  intros Ha Hb. pose proof (binary_means I OP_BUDIV_I _ n a b eq_refl Ha Hb) as Hm. unfold unsigned_op in Hm.
  destruct (vec_bits I n a Ha) as [_ Hl]. by rewrite Hl in Hm.
Qed.

Lemma lshr_means n a b : vec n a -> vec n b -> den n (uv a / 2 ^ uv b) (bv_app OP_BLSHR [] [a; b]).
Proof. by apply (unsigned_op_means OP_BLSHR (fun x y => x / 2 ^ y)). Qed.

(** ** Division *)

Lemma mk_bv_sdiv_ok n a b : vec n a -> vec n b -> br_den I n (smt_sdiv (sv a) (sv b)) (mk_bv_sdiv_core true a b).
Proof.
  intros Ha Hb. pose proof (vec_pos _ _ Ha) as Hn. unfold mk_bv_sdiv_core.
  pose proof (signed_op_means OP_BSDIV_I smt_sdiv n a b eq_refl Ha Hb) as Hgen.
  destruct (is_numeral b) as [[r2 m]|] eqn:Hnb; [|exact Hgen].
  destruct (numeral_vec I _ _ _ _ Hnb Hb) as (-> & _ & Hu2). rewrite <- Hu2, <- (sv_norm I n) by done.
  unfold smt_sdiv in *. destruct (Z.eqb_spec (sv b) 0) as [_|Hne]; cbn [negb].
  { pose proof (den_numeral I n 1 Hn) as H1. pose proof (den_numeral I n (all_ones n) Hn) as H2.
    pose proof (den_numeral I n 0 Hn) as H0.
    pose proof (pred_holds I OP_SLT _ n a _ eq_refl Ha (den_vec _ _ _ _ H0)) as [Hw Ht]. cbn beta in Ht.
    eapply (den_ext I); [apply (den_ite I); [done|by eapply den_vec..]|].
    rewrite Ht. fold (sv a) (sv (mk_numeral 0 n)). rewrite (den_sv I _ _ _ H0), signed_small
      by (done || (pose proof (pow2_pos (n - 1)); lia)).
    destruct (sv a <? 0); rewrite (den_uv I _ _ _ H1) || rewrite (den_uv I _ _ _ H2); rewrite eqm_mod; [done|].
    apply (eqm_multiple _ _ _ 1). unfold all_ones, pow2. lia. }
  destruct (Z.eqb_spec (sv b) 1) as [->|].
  { rewrite Z.quot_1_r. eapply br_den_ext; [by apply den_self|]. symmetry. by apply sv_eqm. }
  destruct (is_numeral a) as [[r1 m]|] eqn:Hna; [|exact Hgen].
  destruct (numeral_vec I _ _ _ _ Hna Ha) as (-> & _ & Hu1). rewrite <- Hu1, <- (sv_norm I n) by done. by apply den_numeral.
Qed.

Lemma mk_bv_udiv_ok n a b : vec n a -> vec n b -> br_den I n (smt_udiv n (uv a) (uv b)) (mk_bv_udiv_core true a b).
Proof.
  intros Ha Hb. pose proof (vec_pos _ _ Ha) as Hn. unfold mk_bv_udiv_core.
  pose proof (uv_range I n a Ha) as Hba. pose proof (udiv_means n a b Ha Hb) as Hgen.
  destruct (is_numeral b) as [[r2 m]|] eqn:Hnb; [|exact Hgen].
  destruct (numeral_vec I _ _ _ _ Hnb Hb) as (-> & Hr2 & Hu2). rewrite norm_unsigned, Z.mod_small, <- Hu2 by done.
  rewrite <- Hu2 in Hr2. unfold smt_udiv in *. destruct (Z.eqb_spec (uv b) 0) as [_|Hne]; cbn [negb]; [by apply den_numeral|].
  destruct (Z.eqb_spec (uv b) 1) as [->|]; [rewrite Z.div_1_r; by apply den_self|].
  destruct (is_numeral a) as [[r1 m]|] eqn:Hna.
  { destruct (numeral_vec I _ _ _ _ Hna Ha) as (-> & Hr1 & Hu1). rewrite norm_unsigned, Z.mod_small by done.
    rewrite Z.quot_div_nonneg, Hu1 by lia. by apply den_numeral. }
  destruct (is_power_of_two (uv b)) as [k|] eqn:Hk; [|exact Hgen]. apply is_power_of_two_spec in Hk.
  assert (k < n)%nat as Hkn.
  { destruct (decide (k < n)%nat); [done|]. pose proof (pow2_le n k ltac:(lia)). lia. }
  pose proof (den_numeral I n (Z.of_nat k) Hn) as Hd. pose proof (lshr_means n a _ Ha (den_vec _ _ _ _ Hd)) as Hl.
  rewrite (den_uv_small I _ _ _ Hd) in Hl by (pose proof (pow2_nat_lt n); lia). by rewrite Hk.
Qed.

(** ** Remainder *)

Lemma mk_bv_srem_ok n a b : vec n a -> vec n b -> br_den I n (Z.rem (sv a) (sv b)) (mk_bv_srem_core true a b).
Proof.
  intros Ha Hb. pose proof (vec_pos _ _ Ha) as Hn. unfold mk_bv_srem_core.
  pose proof (signed_op_means OP_BSREM_I Z.rem n a b eq_refl Ha Hb) as Hgen.
  destruct (is_numeral b) as [[r2 m]|] eqn:Hnb; [|exact Hgen].
  destruct (numeral_vec I _ _ _ _ Hnb Hb) as (-> & _ & Hu2). rewrite <- Hu2, <- (sv_norm I n) by done.
  destruct (Z.eqb_spec (sv b) 0) as [->|Hne]; cbn [negb].
  { assert (Z.rem (sv a) 0 = sv a) as -> by (by destruct (sv a)). eapply br_den_ext; [by apply den_self|]. symmetry. by apply sv_eqm. }
  destruct (Z.eqb_spec (sv b) 1) as [->|]; [rewrite Z.rem_1_r; by apply den_numeral|].
  destruct (is_numeral a) as [[r1 m]|] eqn:Hna; [|exact Hgen].
  destruct (numeral_vec I _ _ _ _ Hna Ha) as (-> & _ & Hu1). rewrite <- Hu1, <- (sv_norm I n) by done. by apply den_numeral.
Qed.

Lemma is_x_minus_one_spec n a x :
  is_x_minus_one a = Some x -> vec n a -> vec n x /\ eqm n (uv a) (uv x - 1).
Proof.
  unfold is_x_minus_one. destruct (match_binary OP_BADD a) as [[y z]|] eqn:Hm; [|done]. intros Hx Ha.
  destruct (match_add I n a y z Hm Ha) as (Hy & Hz & Hu).
  assert (forall e, vec n e -> is_minus_one_core e = true -> eqm n (uv e) (-1)) as Hone.
  { intros e He. unfold is_minus_one_core, numeral_is. destruct (is_numeral e) as [[v m]|] eqn:Hn; [|done].
    destruct (numeral_vec I _ _ _ _ Hn He) as (-> & _ & ->). intros ->%Z.eqb_eq.
    apply (eqm_multiple _ _ _ 1). unfold all_ones, pow2. lia. }
  destruct (is_minus_one_core y) eqn:H1; [|destruct (is_minus_one_core z) eqn:H2; [|done]]; injection Hx as <-.
  - split; [done|]. rewrite Hu, (Hone y) by done. by replace (-1 + uv z) with (uv z - 1) by lia.
  - split; [done|]. rewrite Hu, (Hone z) by done. by replace (uv y + -1) with (uv y - 1) by lia.
Qed.

Lemma urem_special_ok n a b : vec n a -> vec n b -> br_den I n (uv a mod uv b) (urem_special true a b).
Proof.
  intros Ha Hb. unfold urem_special, numeral_is. cbn [negb]. pose proof (uv_range I n b Hb) as Hbb.
  destruct (is_numeral a) as [[v m]|] eqn:Hna.
  1: destruct (numeral_vec I _ _ _ _ Hna Ha) as (-> & _ & Hu); destruct (Z.eqb_spec v 0) as [->|].
  { rewrite Hu, Zmod_0_l. rewrite <- Hu. by apply den_self. }
  all: destruct (is_x_minus_one a) as [x|] eqn:Hx; [|done]; case_bool_decide as Hxb; [|done]; subst x.
  all: destruct (is_x_minus_one_spec n a b Hx Ha) as [_ He]; replace (uv a mod uv b) with (uv a); [by apply den_self|].
  all: pose proof (uv_range I n a Ha); destruct (Z.eq_dec (uv b) 0) as [->|]; [by rewrite Z.mod_0_r|].
  all: rewrite (eqm_small n (uv a) (uv b - 1)) by (done || lia); symmetry; apply Z.mod_small; lia.
Qed.

Lemma mk_bv_urem_ok n a b : vec n a -> vec n b -> br_den I n (uv a mod uv b) (mk_bv_urem_core true a b).
Proof.
  intros Ha Hb. pose proof (vec_pos _ _ Ha) as Hn. unfold mk_bv_urem_core.
  pose proof (uv_range I n a Ha) as Hba. pose proof (unsigned_op_means OP_BUREM_I Z.modulo n a b eq_refl Ha Hb) as Hgen.
  destruct (is_numeral b) as [[r2 m]|] eqn:Hnb; [|apply br_else_means; [by apply urem_special_ok|exact Hgen]].
  destruct (numeral_vec I _ _ _ _ Hnb Hb) as (-> & Hr2 & Hu2). rewrite norm_unsigned, (Z.mod_small r2), <- Hu2 by done.
  rewrite <- Hu2 in Hr2. destruct (Z.eqb_spec (uv b) 0) as [->|Hne]; cbn [negb]; [rewrite Z.mod_0_r; by apply den_self|].
  destruct (Z.eqb_spec (uv b) 1) as [->|]; [rewrite Z.mod_1_r; by apply den_numeral|].
  destruct (is_numeral a) as [[r1 m]|] eqn:Hna.
  { destruct (numeral_vec I _ _ _ _ Hna Ha) as (-> & Hr1 & Hu1). rewrite norm_unsigned, (Z.mod_small r1) by done.
    rewrite Z.rem_mod_nonneg, Hu1 by lia. by apply den_numeral. }
  destruct (is_power_of_two (uv b)) as [k|] eqn:Hk; [|exact Hgen]. apply is_power_of_two_spec in Hk. rewrite Hk in *.
  assert (k < n)%nat as Hkn.
  { destruct (decide (k < n)%nat); [done|]. pose proof (pow2_le n k ltac:(lia)). lia. }
  assert (0 < k)%nat as Hk0 by (destruct k; [by rewrite pow2_0 in *|lia]).
  pose proof (den_extract_vec I n (k - 1) 0 a Ha ltac:(lia)) as H1. rewrite pow2_0, Z.div_1_r in H1.
  replace (S (k - 1) - 0)%nat with k in H1 by lia.
  pose proof (den_concat2 I _ _ _ _ _ _ (den_numeral I (n - k) 0 ltac:(lia)) H1) as Hd.
  replace (n - k + k)%nat with n in Hd by lia. eapply br_den_ext; [exact Hd|].
  rewrite Z.mod_0_l, Z.mul_0_l, Z.add_0_l; [done|]. pose proof (pow2_pos (n - k)). lia.
Qed.

(** ** Modulus *)

Lemma mod_abs x y :
  y <> 0 ->
  x mod y = (let u := Z.abs x mod Z.abs y in
             if u =? 0 then u
             else if (0 <? x) && (0 <? y) then u
             else if (x <? 0) && (0 <? y) then - u + y
             else if (0 <? x) && (y <? 0) then u + y
             else - u).
Proof.
  intros Hy. cbv zeta. destruct (Z.eqb_spec (Z.abs x mod Z.abs y) 0) as [E|E].
  - rewrite E. apply Z.mod_divide; [done|]. apply Z.mod_divide in E; [|lia].
    by rewrite Z.divide_abs_l, Z.divide_abs_r in E.
  - destruct (Z.lt_trichotomy x 0) as [Hx|[->|Hx]]; [|by rewrite Z.mod_0_l in E by lia|];
      destruct (Z.lt_trichotomy y 0) as [Hy'|[->|Hy']]; try lia.
    + rewrite !Z.abs_neq in * by lia. destruct (Z.ltb_spec 0 x); [lia|]. destruct (Z.ltb_spec x 0); [|lia].
      destruct (Z.ltb_spec 0 y); [lia|]. cbn [andb].
      rewrite <- (Z.opp_involutive x), <- (Z.opp_involutive y) at 1. by rewrite Z.mod_opp_opp by lia.
    + rewrite Z.abs_neq, Z.abs_eq in * by lia. destruct (Z.ltb_spec 0 x); [lia|]. destruct (Z.ltb_spec x 0); [|lia].
      destruct (Z.ltb_spec 0 y); [|lia]. cbn [andb].
      rewrite <- (Z.opp_involutive x) at 1. rewrite Z.mod_opp_l_nz by lia. lia.
    + rewrite Z.abs_eq, Z.abs_neq in * by lia. destruct (Z.ltb_spec 0 x); [|lia]. destruct (Z.ltb_spec 0 y); [lia|].
      destruct (Z.ltb_spec x 0); [lia|]. destruct (Z.ltb_spec y 0); [|lia]. cbn [andb].
      rewrite <- (Z.opp_involutive y) at 1. rewrite Z.mod_opp_r_nz by lia. lia.
    + rewrite !Z.abs_eq in * by lia. destruct (Z.ltb_spec 0 x); [|lia]. by destruct (Z.ltb_spec 0 y); [|lia].
Qed.

Lemma smod_numerals_ok n x y :
  (0 < n)%nat -> - pow2 (n - 1) <= x < pow2 (n - 1) -> - pow2 (n - 1) <= y < pow2 (n - 1) -> y <> 0 ->
  eqm n (smod_numerals x y n) (x mod y).
Proof.
  intros Hn Hx Hy Hne. pose proof (pow2_double n Hn) as Hp. unfold smod_numerals.
  rewrite !norm_unsigned, (Z.mod_small (Z.abs x)), (Z.mod_small (Z.abs y)), Z.rem_mod_nonneg by lia.
  pose proof (Z.mod_pos_bound (Z.abs x) (Z.abs y) ltac:(lia)).
  rewrite (Z.mod_small (Z.abs x mod Z.abs y)) by lia. rewrite (mod_abs x y) by done. cbv zeta.
  repeat case_match; done || apply eqm_mod.
Qed.

Lemma mk_bv_smod_ok n a b : vec n a -> vec n b -> br_den I n (sv a mod sv b) (mk_bv_smod_core true a b).
Proof.
  intros Ha Hb. pose proof (vec_pos _ _ Ha) as Hn. unfold mk_bv_smod_core.
  pose proof (signed_op_means OP_BSMOD_I Z.modulo n a b eq_refl Ha Hb) as Hgen.
  pose proof (sv_range I n a Ha) as Hba. pose proof (sv_range I n b Hb) as Hbb.
  assert (match ('(r1, m) ← is_numeral a; Some (norm r1 m true)) with Some r1 => r1 = sv a | None => True end) as Hr1.
  { destruct (is_numeral a) as [[v m]|] eqn:Hna; [|done]. cbn.
    destruct (numeral_vec I _ _ _ _ Hna Ha) as (-> & _ & Hu). by rewrite (sv_norm I n), Hu. }
  set (r1 := _ ← is_numeral a; _) in *. clearbody r1.
  destruct (match r1 with Some r1 => r1 =? 0 | None => false end) eqn:Hz.
  { destruct r1 as [r1|]; [|done]. subst r1. apply Z.eqb_eq in Hz. rewrite Hz, Zmod_0_l.
    eapply br_den_ext; [by apply (unsigned_op_means OP_BUREM Z.modulo)|].
    assert (uv a = 0) as ->; [|by rewrite Zmod_0_l].
    apply (eqm_small n); [|by apply uv_range|pose proof (pow2_pos n); lia]. by rewrite <- (sv_eqm I n a Ha), Hz. }
  destruct (is_numeral b) as [[r2 m]|] eqn:Hnb; [|exact Hgen].
  destruct (numeral_vec I _ _ _ _ Hnb Hb) as (-> & _ & Hu2). rewrite <- Hu2, <- (sv_norm I n) by done.
  destruct (Z.eqb_spec (sv b) 0) as [->|Hne]; cbn [negb].
  { rewrite Z.mod_0_r. eapply br_den_ext; [by apply den_self|]. symmetry. by apply sv_eqm. }
  destruct r1 as [r1|].
  - subst r1. eapply br_den_ext; [by apply den_numeral|]. by apply smod_numerals_ok.
  - destruct (Z.eqb_spec (sv b) 1) as [->|]; [|exact Hgen]. rewrite Z.mod_1_r. by apply den_numeral.
Qed.
End Div.
