(* ===== verification/BvRewriterBitsOk.v ===== *)
(** The bitwise operators, sums and products of the bit-vector rewriter are
    correct: whenever a function does not fault, its result has the value of
    the operator, for all the options. *)
From S2P Require Import Prelude Text Bits Ast AstSem AstFacts BoolRewriter BoolRewriterOk BvPlugin BvFacts PolyRewriter PolyRewriterOk BvRewriterLeq BvRewriterLeqOk BvRewriterTerms BvRewriterTermsOk BvRewriterDiv BvRewriterDivOk BvRewriterBits.

(** ** Bitwise operators on numbers *)

Class BitwiseOp (k : bv_op_kind) (g : Z -> Z -> Z) (u : Z) `{!AssocOp k g u} := {
  bw_comm a b : g a b = g b a;
  bw_div a b m : g (a / pow2 m) (b / pow2 m) = g a b / pow2 m;
  bw_unit m : u / pow2 m = u
}.

#[global] Instance bor_bitwise : BitwiseOp OP_BOR Z.lor 0.
Proof.
  split.
  - apply Z.lor_comm.
  - intros. by rewrite <- !shiftr_pow2, Z.shiftr_lor.
  - done.
Qed.
#[global] Instance bxor_bitwise : BitwiseOp OP_BXOR Z.lxor 0.
Proof.
  split.
  - apply Z.lxor_comm.
  - intros. by rewrite <- !shiftr_pow2, Z.shiftr_lxor.
  - done.
Qed.

Lemma testbit_div x lo j : Z.testbit (x / pow2 lo) (Z.of_nat j) = Z.testbit x (Z.of_nat (lo + j)).
Proof. rewrite <- shiftr_pow2, Z.shiftr_spec by lia. f_equal. lia. Qed.

(** Numbers with the same bits in a range. *)
Lemma same_bits_mod x y lo len :
  (forall j, (lo <= j < lo + len)%nat -> Z.testbit x (Z.of_nat j) = Z.testbit y (Z.of_nat j)) ->
  x / pow2 lo mod pow2 len = y / pow2 lo mod pow2 len.
Proof.
  intros Hxy. apply Z.bits_inj'. intros i Hi. unfold pow2 at 2 4. destruct (Z.lt_ge_cases i (Z.of_nat len)).
  - rewrite !Z.mod_pow2_bits_low by done. rewrite <- (Z2Nat.id i), !testbit_div by done. apply Hxy. lia.
  - by rewrite !Z.mod_pow2_bits_high by lia.
Qed.

Lemma high_bit_zero n x i : 0 <= x < pow2 n -> (n <= i)%nat -> Z.testbit x (Z.of_nat i) = false.
Proof.
  intros Hx Hi. rewrite <- (Z.mod_small x (pow2 n)) by done. apply Z.mod_pow2_bits_high. lia.
Qed.

(** Equality from the bits below the width. *)
Lemma bits_eq n x y :
  0 <= x < pow2 n -> 0 <= y < pow2 n ->
  (forall j, (j < n)%nat -> Z.testbit x (Z.of_nat j) = Z.testbit y (Z.of_nat j)) -> x = y.
Proof.
  intros Hx Hy Hxy. rewrite <- (Z.mod_small x (pow2 n)), <- (Z.mod_small y (pow2 n)) by done.
  rewrite <- (Z.div_1_r x), <- (Z.div_1_r y), <- pow2_0. apply same_bits_mod. intros j Hj. apply Hxy. lia.
Qed.

Lemma ones_testbit n j : (j < n)%nat -> Z.testbit (pow2 n - 1) (Z.of_nat j) = true.
Proof.
  intros Hj. replace (pow2 n - 1) with (Z.ones (Z.of_nat n)) by (by rewrite Z.ones_equiv).
  apply Z.ones_spec_low. lia.
Qed.

Lemma compl_testbit n x j :
  0 <= x < pow2 n -> (j < n)%nat -> Z.testbit (pow2 n - 1 - x) (Z.of_nat j) = negb (Z.testbit x (Z.of_nat j)).
Proof.
  intros Hx Hj. replace (pow2 n - 1 - x) with (Z.lnot x mod pow2 n).
  - unfold pow2. by rewrite Z.mod_pow2_bits_low, Z.lnot_spec by lia.
  - symmetry. apply (Z.mod_unique _ _ (-1)); unfold Z.lnot; lia.
Qed.

Lemma lor_bounds n x y : 0 <= x < pow2 n -> 0 <= y < pow2 n -> 0 <= Z.lor x y < pow2 n.
Proof.
  intros Hx Hy. split; [apply Z.lor_nonneg; lia|]. apply (low_bits_only _ n (Nat.max n (S (Z.to_nat (Z.log2 (Z.lor x y)))))).
  - lia.
  - split; [apply Z.lor_nonneg; lia|]. destruct (Z.eq_dec (Z.lor x y) 0) as [->|]; [apply pow2_pos|].
    assert (0 <= Z.lor x y) by (apply Z.lor_nonneg; lia).
    pose proof (Z.log2_spec (Z.lor x y) ltac:(lia)) as [_ Hlt].
    eapply Z.lt_le_trans; [exact Hlt|]. unfold pow2. apply Z.pow_le_mono_r; [lia|].
    pose proof (Z.log2_nonneg (Z.lor x y)). lia.
  - intros i Hi. rewrite Z.lor_spec, !(high_bit_zero n) by (done || lia). done.
Qed.

Section Bitwise.
Context (I : interp) (p : bv_params) (get_id : expr -> Z).
Local Abbreviation eval := (eval I).
Local Abbreviation uv := (uv I).
Local Abbreviation sv := (sv I).
Local Abbreviation den := (den I).
Local Abbreviation catv := (catv I).

(** ** Pieces of a number *)

(** The concatenation of [l] is the part of [W] from bit [lo] on, [len] bits long. *)
Definition covers (W : Z) (lo len : nat) (l : list expr) : Prop :=
  Forall bvec l /\ width l = len /\ catv l = W / pow2 lo mod pow2 len.

Lemma covers_nil W lo : covers W lo 0 [].
Proof. split; [done|]. split; [done|]. by rewrite pow2_0, Z.mod_1_r. Qed.

Lemma covers_app W lo len len' l l' :
  covers W (lo + len) len' l' -> covers W lo len l -> covers W lo (len + len') (l' ++ l).
Proof.
  intros (Hl' & Hw' & Hc') (Hl & Hw & Hc). split; [by apply Forall_app|].
  rewrite width_app, catv_app, Hw, Hw', Hc, Hc', div_pow2_split. split; [lia|done].
Qed.

Lemma covers_one W X lo len e :
  den len (X / pow2 lo) e ->
  (forall j, (lo <= j < lo + len)%nat -> Z.testbit X (Z.of_nat j) = Z.testbit W (Z.of_nat j)) ->
  covers W lo len [e].
Proof.
  intros He Hx. pose proof (den_vec _ _ _ _ He) as Hv. split; [apply Forall_singleton; by eapply vec_bvec|].
  rewrite width_one, catv_one, (vec_size _ _ Hv), (den_uv I _ _ _ He). split; [done|]. by apply same_bits_mod.
Qed.

Lemma covers_extract W n lo len a :
  vec n a -> (0 < len)%nat -> (lo + len <= n)%nat ->
  (forall j, (lo <= j < lo + len)%nat -> Z.testbit (uv a) (Z.of_nat j) = Z.testbit W (Z.of_nat j)) ->
  covers W lo len [mk_bv_extract (lo + len - 1) lo a].
Proof.
  intros Ha Hlen Hn Hx. apply (covers_one _ (uv a)); [|done].
  pose proof (den_extract_vec I n (lo + len - 1) lo a Ha ltac:(lia)) as Hd.
  by replace (S (lo + len - 1) - lo)%nat with len in Hd by lia.
Qed.

Lemma covers_den W n l : l <> [] -> covers W 0 n l -> den n W (mk_bv_concat l).
Proof.
  intros Hne (Hl & <- & Hc). eapply den_ext; [by apply den_concat|]. rewrite Hc, pow2_0, Z.div_1_r. apply eqm_mod.
Qed.

(** A piece that is empty when its range is. *)
Lemma covers_opt W lo len (b : bool) (e : expr) :
  (b = true -> len = 0%nat) -> (b = false -> covers W lo len [e]) -> covers W lo len (if b then [] else [e]).
Proof. intros Ht Hf. destruct b; [rewrite Ht by done; apply covers_nil|by apply Hf]. Qed.

(** *** Runs of a mask *)

Lemma bit_run_spec b fuel i v j v' :
  bit_run b fuel i v = (j, v') ->
  (i <= j <= i + fuel)%nat /\ v' = v / pow2 (j - i)
  /\ (forall t, (t < j - i)%nat -> Z.testbit v (Z.of_nat t) = b)
  /\ (j = (i + fuel)%nat \/ Z.testbit v (Z.of_nat (j - i)) = negb b).
Proof.
  revert i v. induction fuel as [|fuel IH]; intros i v; cbn [bit_run].
  { intros [= <- <-]. rewrite Nat.sub_diag, pow2_0, Z.div_1_r. split_and!; [lia..|done|intros; lia|left; lia]. }
  destruct (Bool.eqb (Z.odd v) b) eqn:Hb.
  - intros Hr. destruct (IH _ _ Hr) as (Hj & -> & Hall & Hend).
    assert (j - i = S (j - (i + 1)))%nat as Hs by lia. rewrite Hs. split_and!; [lia..| | |].
    + rewrite pow2_S, Z.div_div by (pose proof (pow2_pos (j - (i + 1))); lia). done.
    + intros t Ht. destruct t as [|t]; [rewrite Z.bit0_odd; by apply eqb_prop|].
      rewrite <- (Hall t) by lia. change 2 with (pow2 1). by rewrite testbit_div.
    + destruct Hend as [Hend|Hend]; [left; lia|right]. rewrite <- Hend. change 2 with (pow2 1). by rewrite testbit_div.
  - intros [= <- <-]. rewrite Nat.sub_diag, pow2_0, Z.div_1_r. split_and!; [lia..|done|intros; lia|]. right.
    rewrite Z.bit0_odd. by destruct (Z.odd v), b.
Qed.

Lemma mask_runs_ok W v0 ones zeros fuel sz i :
  (sz - i <= fuel)%nat -> (i <= sz)%nat ->
  (forall lo len, (0 < len)%nat -> (lo + len <= sz)%nat ->
    (forall j, (lo <= j < lo + len)%nat -> Z.testbit v0 (Z.of_nat j) = true) -> covers W lo len [ones (lo + len - 1)%nat lo]) ->
  (forall lo len, (0 < len)%nat -> (lo + len <= sz)%nat ->
    (forall j, (lo <= j < lo + len)%nat -> Z.testbit v0 (Z.of_nat j) = false) -> covers W lo len [zeros (lo + len - 1)%nat lo]) ->
  covers W i (sz - i) (rev (mask_runs ones zeros fuel sz i (v0 / pow2 i))).
Proof.
  intros Hfuel Hi Hones Hzeros. revert i Hfuel Hi. induction fuel as [|fuel IH]; intros i Hfuel Hi; cbn [mask_runs].
  { replace (sz - i)%nat with 0%nat by lia. apply covers_nil. }
  destruct (Nat.ltb_spec i sz); [|replace (sz - i)%nat with 0%nat by lia; apply covers_nil].
  destruct (bit_run true (sz - i) i (v0 / pow2 i)) as [j v1] eqn:H1.
  destruct (bit_run_spec _ _ _ _ _ _ H1) as (Hj & -> & Hall1 & Hend1).
  destruct (bit_run false (sz - j) j (v0 / pow2 i / pow2 (j - i))) as [k v2] eqn:H2.
  destruct (bit_run_spec _ _ _ _ _ _ H2) as (Hk & -> & Hall2 & Hend2).
  pose proof (pow2_pos i). pose proof (pow2_pos j). pose proof (pow2_pos (j - i)). pose proof (pow2_pos (k - j)).
  assert (v0 / pow2 i / pow2 (j - i) = v0 / pow2 j) as Hv1.
  { rewrite Z.div_div, <- pow2_add by lia. do 2 f_equal. lia. }
  rewrite Hv1 in *. assert (v0 / pow2 j / pow2 (k - j) = v0 / pow2 k) as ->.
  { rewrite Z.div_div, <- pow2_add by lia. do 2 f_equal. lia. }
  assert (i < k)%nat as Hik.
  { destruct (decide (k = i)) as [->|]; [|lia]. assert (j = i) as -> by lia. rewrite Nat.sub_diag in *.
    destruct Hend1 as [|Hend1], Hend2 as [|Hend2]; try lia. by rewrite Hend1 in Hend2. }
  rewrite !rev_app_distr. replace (sz - i)%nat with ((j - i) + ((k - j) + (sz - k)))%nat by lia.
  assert (forall b (l : list expr) e, (if b : bool then l else [e]) = rev (if b then rev l else [e])) as Hrev
    by (intros []; intros; by rewrite ?rev_involutive).
  rewrite (Hrev (Nat.eqb j i) [] _), (Hrev (Nat.eqb k j) [] _), !rev_involutive. cbn [rev].
  apply covers_app; [apply covers_app|].
  - replace (i + (j - i) + (k - j))%nat with k by lia. apply IH; lia.
  - replace (i + (j - i))%nat with j by lia. apply covers_opt; [intros ->%Nat.eqb_eq; lia|intros Hne%Nat.eqb_neq].
    replace (k - 1)%nat with (j + (k - j) - 1)%nat by lia. apply Hzeros; [lia..|]. intros t Ht.
    rewrite <- (Hall2 (t - j)%nat) by lia. rewrite testbit_div. f_equal. lia.
  - apply covers_opt; [intros ->%Nat.eqb_eq; lia|intros Hne%Nat.eqb_neq].
    replace (j - 1)%nat with (i + (j - i) - 1)%nat by lia. apply Hones; [lia..|]. intros t Ht.
    rewrite <- (Hall1 (t - i)%nat) by lia. rewrite testbit_div. f_equal. lia.
Qed.

(** ** Shared steps *)

Section Assoc.
Context {k : bv_op_kind} {g : Z -> Z -> Z} {u : Z} `{!AssocOp k g u} `{!BitwiseOp k g u}.
Local Abbreviation fold l := (foldr g u (map uv l)).

Lemma fold_perm l l' : l ≡ₚ l' -> fold l = fold l'.
Proof.
  induction 1 as [|x l l' _ IH|x y l|l l' l'' _ IH1 _ IH2]; cbn; [done|by rewrite IH| |by rewrite IH1].
  by rewrite !ao_assoc, (bw_comm (uv y)).
Qed.

Lemma fold_app l l' : fold (l ++ l') = g (fold l) (fold l').
Proof.
  induction l as [|x l IH]; cbn.
  - by rewrite bw_comm, ao_unit.
  - by rewrite IH, ao_assoc.
Qed.

Lemma fold_div m l : foldr g u (map (fun a => uv a / pow2 m) l) = fold l / pow2 m.
Proof. induction l as [|x l IH]; cbn; [by rewrite bw_unit|]. by rewrite IH, bw_div. Qed.

Lemma split_at_ok n sz1 args r :
  (0 < sz1 <= n)%nat -> (2 <= length args)%nat -> Forall (vec n) args ->
  split_at k sz1 n args = Ok r -> den n (fold args) r.
Proof.
  intros Hsz Hl Hargs. unfold split_at. destruct (Nat.eqb_spec sz1 n) as [|Hne]; [done|]. intros [= <-].
  pose proof (extracts_den I n (n - 1) (n - sz1) args Hargs ltac:(lia)) as H1.
  pose proof (extracts_den I n (n - sz1 - 1) 0 args Hargs ltac:(lia)) as H2.
  replace (S (n - 1) - (n - sz1))%nat with sz1 in H1 by lia. replace (S (n - sz1 - 1) - 0)%nat with (n - sz1)%nat in H2 by lia.
  apply (den_assoc I (k := k)) in H1; [|by rewrite length_map]. apply (den_assoc I (k := k)) in H2; [|by rewrite length_map].
  rewrite fold_div in H1, H2. rewrite pow2_0, Z.div_1_r in H2.
  pose proof (den_concat2 I _ _ _ _ _ _ H1 H2) as Hd. replace (sz1 + (n - sz1))%nat with n in Hd by lia.
  eapply den_ext; [exact Hd|]. rewrite <- (Z.div_1_r (fold args)) at 2. rewrite <- pow2_0.
  replace (fold args / pow2 (n - sz1)) with (fold args / pow2 (0 + (n - sz1))) by (do 2 f_equal; lia).
  rewrite <- div_pow2_split, pow2_0, Z.div_1_r. replace (n - sz1 + sz1)%nat with n by lia. apply eqm_mod.
Qed.

Lemma distribute_concat_ok n args d :
  (2 <= length args)%nat -> Forall (vec n) args -> distribute_concat k args = Ok d ->
  match d with Some r => den n (fold args) r | None => True end.
Proof.
  intros Hl Hargs. unfold distribute_concat. destruct (List.find is_concat args) as [arg|] eqn:Hf; [|by intros [= <-]].
  apply List.find_some in Hf as [Hin Hc]. apply list_elem_of_In in Hin.
  assert (vec n arg) as Ha by (by eapply Forall_forall in Hargs).
  destruct (concat_inv I arg Hc (proj1 Ha)) as (d' & l & -> & Hne & Hvl & _ & Hv & _ & _).
  assert (width l = n) as Hw by (by eapply vec_width). destruct l as [|x l]; [done|].
  apply Forall_cons in Hvl as [Hx _]. apply vec_pos in Hx. rewrite width_cons in Hw.
  rewrite (vec_size n (App d' (x :: l))) by done. cbn [get_arg get_args nth]. intros (r & Hr & [= <-])%bind_ok.
  by eapply split_at_ok; [|done..]; lia.
Qed.

Lemma flat_args_ok n args :
  Forall (vec n) args ->
  let flat := flat_args p (fun e => is_app_of e (Bv k)) args in
  Forall (vec n) flat /\ (length args <= length flat)%nat /\ eqm n (fold flat) (fold args).
Proof.
  intros Hargs. unfold flat_args. destruct (m_flat p); [|done]. cbv zeta.
  induction Hargs as [|a args Ha _ (IHv & IHl & IHe)]; [done|]. cbn [map concat].
  destruct (is_app_of a (Bv k)) eqn:Hk.
  - destruct (assoc_inv I a Hk (proj1 Ha)) as (m & d & l & -> & _ & Hm & Hl & Hvl & Hd).
    assert (m = n) as -> by (by eapply vec_width). cbn [get_args]. rewrite length_app. split_and!.
    + by apply Forall_app.
    + cbn [length]. lia.
    + rewrite fold_app. cbn [map foldr]. apply op_eqm; [|done]. symmetry. rewrite (den_uv I _ _ _ Hd). apply eqm_mod.
  - cbn [app length]. split_and!; [by constructor|lia|]. cbn [map foldr]. by apply op_eqm.
Qed.

Lemma sort_ac_perm l : sort_ac p l ≡ₚ l.
Proof. unfold sort_ac. destruct (m_bv_sort_ac p); [apply merge_sort_Permutation|done]. Qed.

Lemma rebuild_ok n l r :
  (2 <= length l)%nat -> Forall (vec n) l -> rebuild p k l = Ok r -> br_den I n (fold l) r.
Proof.
  intros Hl Hv. unfold rebuild. pose proof (sort_ac_perm l) as Hp. intros (d & Hd & [= <-])%bind_ok.
  rewrite <- (fold_perm _ _ Hp). assert (Forall (vec n) (sort_ac p l)) as Hvs by (by rewrite Hp).
  rewrite <- Hp in Hl. pose proof (distribute_concat_ok n _ d Hl Hvs Hd) as Hdc.
  destruct d; [exact Hdc|]. apply (den_assoc I); [done|by apply den_selfs].
Qed.
End Assoc.

(** ** Disjunction *)

Definition lors (l : list expr) : Z := foldr Z.lor 0 (map uv l).

Lemma lors_bounds n l : Forall (vec n) l -> 0 <= lors l < pow2 n.
Proof.
  induction 1 as [|a l Ha _ IH]; [cbn; pose proof (pow2_pos n); lia|].
  apply lor_bounds; [by apply uv_range|done].
Qed.

Lemma lors_cons a l : lors (a :: l) = Z.lor (uv a) (lors l).
Proof. done. Qed.

Lemma lors_app l l' : lors (l ++ l') = Z.lor (lors l) (lors l').
Proof. apply (fold_app (k := OP_BOR)). Qed.

Lemma lors_one a : lors [a] = uv a.
Proof. cbn. apply Z.lor_0_r. Qed.

Lemma lors_absorb e l : e ∈ l -> Z.lor (lors l) (uv e) = lors l.
Proof.
  induction 1 as [l|e x l _ IH]; rewrite lors_cons.
  - by rewrite Z.lor_comm, Z.lor_assoc, Z.lor_diag.
  - by rewrite <- Z.lor_assoc, IH.
Qed.

Lemma lor_compl n x y : 0 <= x < pow2 n -> 0 <= y < pow2 n -> Z.lor y x = y -> Z.lor y (pow2 n - 1 - x) = pow2 n - 1.
Proof.
  intros Hx Hy Hxy. pose proof (pow2_pos n). apply (bits_eq n); [apply lor_bounds; lia|lia|]. intros j Hj.
  rewrite <- Hxy, !Z.lor_spec, compl_testbit, ones_testbit by done. by destruct (Z.testbit x _), (Z.testbit y _).
Qed.

Lemma lor_ones n y : 0 <= y < pow2 n -> Z.lor (pow2 n - 1) y = pow2 n - 1.
Proof.
  intros Hy. pose proof (pow2_pos n). apply (bits_eq n); [apply lor_bounds; lia|lia|]. intros j Hj.
  by rewrite Z.lor_spec, ones_testbit.
Qed.

Definition or_inv (n : nat) (s : or_state) (V : Z) : Prop :=
  Forall (vec n) (or_args s) /\ 0 <= or_v1 s < pow2 n /\ (or_coeffs s = 0%nat -> or_v1 s = 0)
  /\ Forall (fun a => a ∈ or_args s) (or_pos s)
  /\ Forall (fun a => vec n a /\ exists e, e ∈ or_args s /\ uv e = pow2 n - 1 - uv a) (or_neg s)
  /\ Z.lor (or_v1 s) (lors (or_args s)) = V.

Lemma or_inv_bounds n s V : or_inv n s V -> 0 <= V < pow2 n.
Proof. intros (Ha & Hv & _ & _ & _ & <-). apply lor_bounds; [done|by apply lors_bounds]. Qed.

Lemma or_inv_absorb n s V e : or_inv n s V -> e ∈ or_args s -> Z.lor V (uv e) = V.
Proof. intros (_ & _ & _ & _ & _ & <-) He. by rewrite <- Z.lor_assoc, lors_absorb. Qed.

(** An argument added at the end keeps what is known of the others. *)
Lemma or_marks_app n s e :
  Forall (fun a => a ∈ or_args s) (or_pos s) ->
  Forall (fun a => vec n a /\ exists e, e ∈ or_args s /\ uv e = pow2 n - 1 - uv a) (or_neg s) ->
  Forall (fun a => a ∈ or_args s ++ [e]) (or_pos s)
  /\ Forall (fun a => vec n a /\ exists e', e' ∈ or_args s ++ [e] /\ uv e' = pow2 n - 1 - uv a) (or_neg s).
Proof.
  intros Hp Hn. split.
  - apply (Forall_impl _ _ _ Hp). intros a Ha. apply elem_of_app. by left.
  - apply (Forall_impl _ _ _ Hn). intros a (Ha & e' & He & Hu). split; [done|]. exists e'.
    split; [|done]. apply elem_of_app. by left.
Qed.

Lemma or_step_ok n s V arg :
  or_inv n s V -> vec n arg ->
  match or_step s arg with
  | Some s' => or_inv n s' (Z.lor V (uv arg))
  | None => Z.lor V (uv arg) = pow2 n - 1
  end.
Proof.
  intros Hinv Ha. pose proof (or_inv_bounds _ _ _ Hinv) as HV. pose proof (uv_range I n arg Ha) as Hua.
  pose proof Hinv as (Hargs & Hv & Hc & Hpos & Hneg & HVe). unfold or_step.
  destruct (is_numeral arg) as [[v2 m]|] eqn:Hn.
  { destruct (numeral_vec I _ _ _ _ Hn Ha) as (-> & Hv2 & ->). split; [done|]. cbn [or_args or_v1 or_coeffs or_pos or_neg].
    split; [by apply lor_bounds|]. do 3 (split; [done|]).
    rewrite <- HVe, <- !Z.lor_assoc, (Z.lor_comm v2). done. }
  assert (or_inv n s V -> Z.lor V (uv arg) = V ->
    or_inv n {| or_v1 := or_v1 s; or_coeffs := or_coeffs s; or_merged := true; or_pos := or_pos s; or_neg := or_neg s;
                or_args := or_args s |} (Z.lor V (uv arg))) as Hmerge by (intros ? ->; done).
  assert (Z.lor (or_v1 s) (lors (or_args s ++ [arg])) = Z.lor V (uv arg)) as Hpush.
  { by rewrite lors_app, lors_one, Z.lor_assoc, HVe. }
  destruct (or_marks_app n s arg Hpos Hneg) as [Hpos' Hneg'].
  assert (Forall (vec n) (or_args s ++ [arg])) as Hargs' by (apply Forall_app; split; [done|by apply Forall_cons_2, Forall_nil_2]).
  assert (arg ∈ or_args s ++ [arg]) as Hin by (apply elem_of_app; right; by apply list_elem_of_singleton).
  destruct (is_bv_not arg) eqn:Hnot.
  - destruct (not_bv_inv I arg Hnot (proj1 Ha)) as (m & d & a & -> & Hva & Hm & Hd).
    assert (m = n) as -> by (by eapply vec_width). cbn [get_arg get_args nth].
    pose proof (uv_range I n a Hva) as Hb.
    assert (uv (App d [a]) = pow2 n - 1 - uv a) as Hu.
    { rewrite (den_uv I _ _ _ Hd). symmetry. apply (Z.mod_unique _ _ (-1)); lia. }
    destruct (bool_decide (a ∈ or_pos s)) eqn:E1; [|destruct (bool_decide (a ∈ or_neg s)) eqn:E2].
    + apply bool_decide_eq_true in E1. rewrite Forall_forall in Hpos. rewrite Hu. apply lor_compl; [done..|].
      eapply or_inv_absorb; [done|]. by apply Hpos.
    + apply bool_decide_eq_true in E2. rewrite Forall_forall in Hneg. destruct (Hneg a E2) as (_ & e & He & Hue).
      apply Hmerge; [done|]. rewrite Hu, <- Hue. by eapply or_inv_absorb.
    + split; [done|]. cbn [or_args or_v1 or_coeffs or_pos or_neg]. do 3 (split; [done|]). split; [|done].
      constructor; [|done]. split; [done|]. exists (App d [a]). by split.
  - destruct (bool_decide (arg ∈ or_pos s)) eqn:E1; [|destruct (bool_decide (arg ∈ or_neg s)) eqn:E2].
    + apply bool_decide_eq_true in E1. rewrite Forall_forall in Hpos. apply Hmerge; [done|].
      eapply or_inv_absorb; [done|]. by apply Hpos.
    + apply bool_decide_eq_true in E2. rewrite Forall_forall in Hneg. destruct (Hneg arg E2) as (_ & e & He & Hue).
      replace (uv arg) with (pow2 n - 1 - uv e) by lia. apply lor_compl; [lia|done|]. by eapply or_inv_absorb.
    + split; [done|]. cbn [or_args or_v1 or_coeffs or_pos or_neg]. do 2 (split; [done|]). split; [|done]. by constructor.
Qed.

Lemma or_loop_ok n s V args :
  or_inv n s V -> Forall (vec n) args ->
  match or_loop s args with
  | Some s' => or_inv n s' (Z.lor V (lors args))
  | None => Z.lor V (lors args) = pow2 n - 1
  end.
Proof.
  intros Hs Hargs. revert s V Hs. induction Hargs as [|a args Ha Hargs IH]; intros s V Hs; cbn [or_loop].
  { cbn. by rewrite Z.lor_0_r. }
  pose proof (or_step_ok n s V a Hs Ha) as Hstep. rewrite lors_cons.
  destruct (or_step s a) as [s'|]; cbn [mbind option_bind].
  - rewrite Z.lor_assoc. by apply IH.
  - rewrite Z.lor_assoc, Hstep. apply lor_ones. by apply lors_bounds.
Qed.

(** Where a vector has zeros, the disjunction is the other one. *)
Lemma zero_prefix_covers n x y W k :
  vec n x -> vec n y -> (k <= n)%nat ->
  (forall j, (j < n)%nat -> Z.testbit (uv x) (Z.of_nat j) = false -> Z.testbit (uv y) (Z.of_nat j) = Z.testbit W (Z.of_nat j)) ->
  let k' := zero_prefix x k in
  covers W k' (k - k') (if Nat.eqb k' k then [] else [mk_bv_extract (k - 1) k' y]).
Proof.
  intros Hx Hy Hk HW. cbv zeta. pose proof (zero_prefix_le x k) as Hle.
  apply covers_opt; [intros ->%Nat.eqb_eq; lia|intros Hne%Nat.eqb_neq].
  replace (k - 1)%nat with (zero_prefix x k + (k - zero_prefix x k) - 1)%nat by lia.
  apply (covers_extract W n); [done|lia|lia|]. intros j Hj. apply HW; [lia|].
  apply (zero_prefix_bits I x k); [by eapply vec_bvec|by rewrite (vec_size n)|lia].
Qed.

Lemma zero_prefix_stop x k : (0 < k)%nat -> zero_prefix x k = k -> is_zero_bit x (k - 1) = false.
Proof.
  destruct k as [|k]; [lia|]. cbn [zero_prefix]. replace (S k - 1)%nat with k by lia.
  destruct (is_zero_bit x k); [|done]. pose proof (zero_prefix_le x k). lia.
Qed.

Lemma merge_runs_ok n x y fuel k :
  vec n x -> vec n y -> (k <= fuel)%nat -> (k <= n)%nat ->
  (forall j, (j < k)%nat -> is_zero_bit x j || is_zero_bit y j = true) ->
  covers (Z.lor (uv x) (uv y)) 0 k (merge_runs fuel k x y).
Proof.
  intros Hx Hy. revert k. induction fuel as [|fuel IH]; intros k Hf Hk Hz.
  { assert (k = 0)%nat as -> by lia. apply covers_nil. }
  destruct k as [|k0]; [apply covers_nil|]. set (k := S k0) in *. cbn [merge_runs]. fold k.
  change (match k with O => [] | S _ => ?e end) with e. cbv zeta.
  pose proof (zero_prefix_le x k) as Hk1. set (k1 := zero_prefix x k) in *.
  pose proof (zero_prefix_le y k1) as Hk2. set (k2 := zero_prefix y k1) in *.
  assert (k2 < k)%nat as Hlt.
  { destruct (decide (k2 = k)) as [He|]; [|lia]. assert (k1 = k) as E1 by lia. exfalso.
    assert (zero_prefix y k = k) as E2 by (rewrite <- E1 at 1; exact He).
    pose proof (zero_prefix_stop x k ltac:(lia) E1) as Z1. pose proof (zero_prefix_stop y k ltac:(lia) E2) as Z2.
    specialize (Hz (k - 1)%nat ltac:(lia)). by rewrite Z1, Z2 in Hz. }
  replace k with (k2 + ((k1 - k2) + (k - k1)))%nat at 1 by lia. rewrite app_assoc.
  apply covers_app; [apply covers_app|].
  - replace (0 + k2 + (k1 - k2))%nat with k1 by lia. apply (zero_prefix_covers n); try done.
    intros j _ Hj. by rewrite Z.lor_spec, Hj.
  - cbn [Nat.add]. apply (zero_prefix_covers n); try done; [lia|].
    intros j _ Hj. by rewrite Z.lor_spec, Hj, orb_false_r.
  - apply IH; [lia|lia|]. intros j Hj. apply Hz. lia.
Qed.

Lemma merge_runs_nonempty fuel k x y :
  (0 < k <= fuel)%nat -> (forall j, (j < k)%nat -> is_zero_bit x j || is_zero_bit y j = true) -> merge_runs fuel k x y <> [].
Proof.
  intros Hk Hz. destruct fuel as [|fuel]; [lia|]. destruct k as [|k0]; [lia|]. set (k := S k0) in *.
  cbn [merge_runs]. fold k. change (match k with O => [] | S _ => ?e end) with e. cbv zeta.
  destruct (Nat.eqb_spec (zero_prefix x k) k) as [E1|]; [|done]. rewrite E1.
  destruct (Nat.eqb_spec (zero_prefix y k) k) as [E2|]; [|done].
  pose proof (zero_prefix_stop x k ltac:(lia) E1) as Z1. pose proof (zero_prefix_stop y k ltac:(lia) E2) as Z2.
  specialize (Hz (k - 1)%nat ltac:(lia)). by rewrite Z1, Z2 in Hz.
Qed.

Lemma merge_concats_ok n s V r :
  (0 < n)%nat -> or_inv n s V -> merge_concats n s = Some r -> den n V r.
Proof.
  intros Hn (Hargs & _ & Hc & _ & _ & <-). unfold merge_concats.
  destruct (or_args s) as [|x [|y [|]]]; try done. destruct (_ && _) eqn:Hcond; [|done]. intros [= <-].
  rewrite !andb_true_iff in Hcond. destruct Hcond as [[[Hz%Nat.eqb_eq _] _] Hd].
  rewrite (Hc Hz), Z.lor_0_l, lors_cons, lors_one.
  apply Forall_cons in Hargs as [Hx Hargs]. apply Forall_cons in Hargs as [Hy _].
  assert (forall j, (j < n)%nat -> is_zero_bit x j || is_zero_bit y j = true) as Hzero.
  { intros j Hj. unfold disjoint_bits in Hd. rewrite forallb_forall in Hd. apply Hd, in_seq. lia. }
  apply covers_den; [by apply merge_runs_nonempty|by apply (merge_runs_ok n)].
Qed.

(** The pieces of [mask_runs] cover the width, so there is one. *)
Lemma covers_nonempty W lo len l : (0 < len)%nat -> covers W lo len l -> l <> [].
Proof. intros Hlen (_ & <- & _) ->. change (width []) with 0%nat in Hlen. lia. Qed.

Lemma mask_or_ok n v1 t :
  vec n t -> 0 <= v1 < pow2 n -> den n (Z.lor v1 (uv t)) (mask_or n v1 t).
Proof.
  intros Ht Hv. pose proof (vec_pos _ _ Ht) as Hn. unfold mask_or. rewrite norm_unsigned, Z.mod_small by done.
  match goal with |- den _ _ (mk_bv_concat ?l) => assert (covers (Z.lor v1 (uv t)) 0 n l) as Hcov end.
  { pose proof (mask_runs_ok (Z.lor v1 (uv t)) v1
      (fun hi lo => mk_numeral (all_ones (hi - lo + 1)) (hi - lo + 1)) (fun hi lo => mk_bv_extract hi lo t) n n 0) as Hruns.
    rewrite pow2_0, Z.div_1_r, Nat.sub_0_r in Hruns. apply Hruns; [lia..| |]; clear Hruns.
    - intros lo len Hlen Hlo Hbits. replace (lo + len - 1 - lo + 1)%nat with len by lia.
      apply (covers_one _ (-1)).
      + eapply den_ext; [by apply den_numeral|]. pose proof (pow2_pos lo).
        assert (-1 / pow2 lo = -1) as -> by (symmetry; apply (Z.div_unique _ _ _ (pow2 lo - 1)); lia).
        apply (eqm_multiple _ _ _ 1). unfold all_ones. fold (pow2 len). lia.
      + intros j Hj. rewrite Z.lor_spec, Hbits by done. by rewrite Z.bits_m1 by lia.
    - intros lo len Hlen Hlo Hbits. apply (covers_extract _ n); [done..|]. intros j Hj. by rewrite Z.lor_spec, Hbits. }
  by apply covers_den; [eapply covers_nonempty|].
Qed.

Lemma numeral_or v (l : list expr) n :
  (0 < n)%nat -> 0 <= v < pow2 n -> Forall (vec n) l ->
  let l' := l ++ (if v =? 0 then [] else [mk_numeral v n]) in
  Forall (vec n) l' /\ lors l' = Z.lor v (lors l).
Proof.
  intros Hn Hv Hl. cbv zeta. destruct (Z.eqb_spec v 0) as [->|]; [by rewrite app_nil_r|].
  pose proof (den_numeral I n v Hn) as Hd. split.
  - apply Forall_app. split; [done|]. apply Forall_cons_2, Forall_nil_2. by eapply den_vec.
  - by rewrite lors_app, lors_one, (den_uv_small I _ _ _ Hd), Z.lor_comm.
Qed.

Lemma or_finish_ok n s V r : (0 < n)%nat -> or_inv n s V -> or_finish p n s = Ok r -> br_den I n V r.
Proof.
  intros Hn (Hargs & Hv & _ & _ & _ & <-). unfold or_finish.
  destruct (numeral_or (or_v1 s) (or_args s) n Hn Hv Hargs) as [Hl <-].
  set (l := or_args s ++ _) in *. clearbody l. destruct l as [|a [|b l]].
  - intros [= <-]. by apply den_numeral.
  - intros [= <-]. rewrite lors_one. apply den_self. by apply Forall_cons in Hl as [? _].
  - intros Hr. apply (rebuild_ok (k := OP_BOR) n) in Hr; [done|cbn; lia|done].
Qed.

Lemma rw_or_ok n args r :
  args <> [] -> Forall (vec n) args -> rw_or p args = Ok r -> br_den I n (lors args) r.
Proof.
  intros Hne Hargs. unfold rw_or. destruct args as [|a [|b args]]; [done| |].
  { intros [= <-]. rewrite lors_one. apply den_self. by apply Forall_cons in Hargs as [? _]. }
  pose proof Hargs as [Ha _]%Forall_cons. pose proof (vec_pos _ _ Ha) as Hn. rewrite (vec_size n) by done.
  set (l := a :: b :: args) in *. destruct (flat_args_ok (k := OP_BOR) n l Hargs) as (Hflat & _ & He).
  change (fun e => is_app_of e (Bv OP_BOR)) with is_bv_or in *. set (flat := flat_args p is_bv_or l) in *.
  set (s0 := {| or_v1 := 0; or_coeffs := 0; or_merged := false; or_pos := []; or_neg := []; or_args := [] |}) in *.
  assert (or_inv n s0 0) as H0.
  { pose proof (pow2_pos n). split; [done|]. split; [cbn; lia|]. done. }
  pose proof (or_loop_ok n s0 0 flat H0 Hflat) as Hloop. rewrite Z.lor_0_l in Hloop.
  intros Hr. apply (br_den_ext I n (lors flat)); [|exact He]. clear He.
  destruct (or_loop s0 flat) as [s|].
  2: { injection Hr as <-. rewrite Hloop. by apply den_numeral. }
  pose proof Hloop as (Hvs & Hv1 & _ & _ & _ & HV).
  unfold all_ones in Hr. fold (pow2 n) in Hr. destruct (Z.eqb_spec (or_v1 s) (pow2 n - 1)) as [E|].
  { injection Hr as <-. rewrite <- HV, E, lor_ones by (by apply lors_bounds). by apply den_numeral. }
  destruct (merge_concats n s) as [m|] eqn:Hm; [injection Hr as <-; by eapply merge_concats_ok|].
  destruct (_ && Nat.eqb _ 1) eqn:Hmask.
  { injection Hr as <-. apply andb_true_iff in Hmask as [_ Hl%Nat.eqb_eq].
    destruct (or_args s) as [|t [|]] eqn:Hs; try discriminate Hl. rewrite lors_one in HV. rewrite <- HV.
    apply mask_or_ok; [by apply Forall_cons in Hvs as [? _]|done]. }
  match type of Hr with (if ?c then _ else _) = _ => destruct c end; [by injection Hr as <-|]. by eapply or_finish_ok.
Qed.
End Bitwise.
