(* ===== verification/BvRewriterXorOk.v ===== *)
(** Exclusive or, negation, the operators defined from them, reductions, sums
    and products of the bit-vector rewriter are correct. *)
From S2P Require Import Prelude Text Bits Ast AstSem AstFacts BoolRewriter BoolRewriterOk BvPlugin BvFacts PolyRewriter PolyRewriterOk BvRewriterLeq BvRewriterLeqOk BvRewriterTerms BvRewriterTermsOk BvRewriterDiv BvRewriterDivOk BvRewriterBits BvRewriterBitsOk.

Lemma lxor_bounds n x y : 0 <= x < pow2 n -> 0 <= y < pow2 n -> 0 <= Z.lxor x y < pow2 n.
Proof.
  intros Hx Hy. assert (0 <= Z.lxor x y) by (apply Z.lxor_nonneg; lia). split; [done|].
  pose proof (lor_bounds n x y Hx Hy). rewrite <- Z.sub_lor_land.
  assert (0 <= Z.land x y) by (apply Z.land_nonneg; lia). lia.
Qed.

Lemma compl_lxor n x : 0 <= x < pow2 n -> pow2 n - 1 - x = Z.lxor x (pow2 n - 1).
Proof.
  intros Hx. apply (bits_eq n); [lia|apply lxor_bounds; lia|]. intros j Hj.
  rewrite compl_testbit, Z.lxor_spec, ones_testbit by done. by destruct (Z.testbit x _).
Qed.

(** Equations between exclusive ors, bit by bit. *)
Ltac xor_ring :=
  apply Z.bits_inj'; intros ? ?; rewrite ?Z.lxor_spec, ?Z.testbit_0_l;
  repeat match goal with |- context [Z.testbit ?a ?b] => destruct (Z.testbit a b) end; reflexivity.

Lemma xor_unmark (f : expr -> Z) x l :
  NoDup l -> x ∈ l ->
  foldr Z.lxor 0 (map f (unmark x l)) = Z.lxor (f x) (foldr Z.lxor 0 (map f l)).
Proof.
  intros Hnd. induction Hnd as [|y l Hy Hnd IH]; intros Hx; [by apply not_elem_of_nil in Hx|].
  unfold unmark in *. cbn [List.filter]. case_bool_decide as Heq; cbn [negb map foldr].
  - subst y. assert (List.filter (fun y => negb (bool_decide (y = x))) l = l) as ->; [|xor_ring].
    clear IH Hx Hnd. induction l as [|z l IH]; [done|]. apply not_elem_of_cons in Hy as [Hxz Hy]. cbn [List.filter].
    rewrite bool_decide_eq_false_2 by congruence. cbn [negb]. f_equal. by apply IH.
  - apply elem_of_cons in Hx as [->|Hx]; [done|]. rewrite IH by done. xor_ring.
Qed.

Lemma unmark_spec x y l : y ∈ unmark x l <-> y ∈ l /\ y <> x.
Proof.
  unfold unmark. rewrite !list_elem_of_In, List.filter_In, negb_true_iff, bool_decide_eq_false. done.
Qed.

Lemma unmark_nodup x l : NoDup l -> NoDup (unmark x l).
Proof. rewrite !NoDup_ListNoDup. apply List.NoDup_filter. Qed.

Section Xor.
Context (I : interp) (p : bv_params) (get_id : expr -> Z).
Local Abbreviation uv := (uv I).
Local Abbreviation sv := (sv I).
Local Abbreviation den := (den I).

(** ** Exclusive or *)

Definition xors (l : list expr) : Z := foldr Z.lxor 0 (map uv l).
Definition nots (n : nat) (l : list expr) : Z := foldr Z.lxor 0 (map (fun a => pow2 n - 1 - uv a) l).

Lemma xors_app l l' : xors (l ++ l') = Z.lxor (xors l) (xors l').
Proof. apply (fold_app I (k := OP_BXOR)). Qed.
Lemma xors_cons a l : xors (a :: l) = Z.lxor (uv a) (xors l).
Proof. done. Qed.
Lemma xors_one a : xors [a] = uv a.
Proof. cbn. apply Z.lxor_0_r. Qed.

Lemma xors_bounds n l : Forall (vec n) l -> 0 <= xors l < pow2 n.
Proof.
  induction 1 as [|a l Ha _ IH]; [cbn; pose proof (pow2_pos n); lia|].
  apply lxor_bounds; [by apply uv_range|done].
Qed.

Definition pos_mark (n : nat) (seen : list expr) (x : expr) : Prop :=
  vec n x /\ x ∈ seen /\ is_num x = false /\ is_bv_not x = false.
Definition neg_mark (n : nat) (seen : list expr) (x : expr) : Prop :=
  vec n x /\ exists e, e ∈ seen /\ is_num e = false /\ is_bv_not e = true /\ get_arg e 0 = x.

Record xor_inv (n : nat) (s : xor_state) (seen : list expr) (V : Z) : Prop := {
  xi_v1 : 0 <= xor_v1 s < pow2 n;
  xi_pos_nodup : NoDup (xor_pos s);
  xi_neg_nodup : NoDup (xor_neg s);
  xi_pos : forall x, x ∈ xor_pos s -> pos_mark n seen x;
  xi_neg : forall x, x ∈ xor_neg s -> neg_mark n seen x;
  xi_value : V = Z.lxor (xor_v1 s) (Z.lxor (xors (xor_pos s)) (nots n (xor_neg s)));
  xi_coeffs : xor_coeffs s = length (List.filter is_num seen)
}.

Lemma pos_mark_app n seen e x : pos_mark n seen x -> pos_mark n (seen ++ [e]) x.
Proof. intros (Hx & Hin & Hr). split; [done|]. split; [|done]. apply elem_of_app. by left. Qed.

Lemma neg_mark_app n seen e x : neg_mark n seen x -> neg_mark n (seen ++ [e]) x.
Proof.
  intros (Hx & e' & Hin & Hr). split; [done|]. exists e'. split; [|done]. apply elem_of_app. by left.
Qed.

Lemma num_count_app seen e : length (List.filter is_num (seen ++ [e])) = (length (List.filter is_num seen) + if is_num e then 1 else 0)%nat.
Proof. rewrite List.filter_app, length_app. cbn. by destruct (is_num e). Qed.

Lemma is_num_spec e : wf e = true -> is_num e = match is_numeral e with Some _ => true | None => false end.
Proof.
  intros Hw. unfold is_num. destruct (is_numeral e) as [[v n]|] eqn:Hn; [by eapply is_numeral_bv_num|by apply numeral_none].
Qed.

Lemma not_uv n d a : vec n a -> vec n (App d [a]) -> den n (- uv a - 1) (App d [a]) -> uv (App d [a]) = pow2 n - 1 - uv a.
Proof.
  intros Ha _ Hd. pose proof (uv_range I n a Ha). rewrite (den_uv I _ _ _ Hd).
  symmetry. apply (Z.mod_unique _ _ (-1)); lia.
Qed.

Lemma xor_step_ok n s seen V arg :
  xor_inv n s seen V -> vec n arg -> xor_inv n (xor_step n s arg) (seen ++ [arg]) (Z.lxor V (uv arg)).
Proof.
  intros [Hv Hp Hn Hpos Hneg -> Hc] Ha. pose proof (uv_range I n arg Ha) as Hua. pose proof (pow2_pos n) as Hpn.
  pose proof (is_num_spec arg (proj1 Ha)) as Hnum. unfold xor_step.
  assert (forall x, x ∈ xor_pos s -> pos_mark n (seen ++ [arg]) x) as Hpos' by (intros; by apply pos_mark_app, Hpos).
  assert (forall x, x ∈ xor_neg s -> neg_mark n (seen ++ [arg]) x) as Hneg' by (intros; by apply neg_mark_app, Hneg).
  pose proof (num_count_app seen arg) as Hcount.
  assert (arg ∈ seen ++ [arg]) as Hin by (apply elem_of_app; right; by apply list_elem_of_singleton).
  assert (0 <= Z.lxor (xor_v1 s) (all_ones n) < pow2 n) as Hflip by (apply lxor_bounds; unfold all_ones; fold (pow2 n); lia).
  destruct (is_numeral arg) as [[v2 m]|] eqn:Hna.
  { destruct (numeral_vec I _ _ _ _ Hna Ha) as (-> & Hv2 & ->).
    split; cbn [xor_v1 xor_pos xor_neg xor_coeffs]; try done; [by apply lxor_bounds|xor_ring|rewrite Hcount, Hnum; lia]. }
  rewrite Hnum, Nat.add_0_r in Hcount. rewrite Hc.
  destruct (is_bv_not arg) eqn:Hnot.
  - destruct (not_bv_inv I arg Hnot (proj1 Ha)) as (m & d & a & -> & Hva & Hm & Hd).
    assert (m = n) as -> by (by eapply vec_width). cbn [get_arg get_args nth].
    pose proof (not_uv n d a Hva Ha Hd) as Hu. pose proof (uv_range I n a Hva) as Hb.
    destruct (bool_decide (a ∈ xor_neg s)) eqn:E1; [|destruct (bool_decide (a ∈ xor_pos s)) eqn:E2];
      [apply bool_decide_eq_true in E1|apply bool_decide_eq_true in E2; apply bool_decide_eq_false in E1|
       apply bool_decide_eq_false in E1, E2];
      split; cbn [xor_v1 xor_pos xor_neg xor_coeffs]; try done;
      try (by apply unmark_nodup); try (by intros x [? _]%unmark_spec; auto).
    + unfold nots. rewrite xor_unmark by done. rewrite Hu. xor_ring.
    + unfold xors. rewrite xor_unmark by done. rewrite Hu, compl_lxor by done. unfold all_ones. fold (pow2 n). xor_ring.
    + by constructor.
    + intros x [->|Hx]%elem_of_cons; [|by apply Hneg']. split; [done|]. by exists (App d [a]).
    + unfold nots. cbn [map foldr]. rewrite Hu. xor_ring.
  - destruct (bool_decide (arg ∈ xor_pos s)) eqn:E1; [|destruct (bool_decide (arg ∈ xor_neg s)) eqn:E2];
      [apply bool_decide_eq_true in E1|apply bool_decide_eq_true in E2; apply bool_decide_eq_false in E1|
       apply bool_decide_eq_false in E1, E2];
      split; cbn [xor_v1 xor_pos xor_neg xor_coeffs]; try done;
      try (by apply unmark_nodup); try (by intros x [? _]%unmark_spec; auto).
    + unfold xors. rewrite xor_unmark by done. xor_ring.
    + unfold nots. rewrite xor_unmark by done. rewrite (compl_lxor n (uv arg)) by done. unfold all_ones. fold (pow2 n). xor_ring.
    + by constructor.
    + intros x [->|Hx]%elem_of_cons; [by split|by apply Hpos'].
    + rewrite xors_cons. xor_ring.
Qed.

Lemma xor_loop_ok n s seen V args :
  xor_inv n s seen V -> Forall (vec n) args ->
  xor_inv n (foldl (xor_step n) s args) (seen ++ args) (Z.lxor V (xors args)).
Proof.
  intros Hs Hargs. revert s seen V Hs. induction Hargs as [|a args Ha _ IH]; intros s seen V Hs; cbn [foldl].
  - rewrite app_nil_r. cbn. by rewrite Z.lxor_0_r.
  - specialize (IH _ _ _ (xor_step_ok _ _ _ _ _ Hs Ha)). rewrite <- app_assoc in IH. rewrite xors_cons.
    by rewrite Z.lxor_assoc in IH.
Qed.

(** The marked arguments are taken in their order, each once. *)
Lemma xor_new_args_ok n pos neg args :
  NoDup pos -> NoDup neg -> Forall (vec n) args ->
  (forall x, x ∈ pos -> pos_mark n args x) -> (forall x, x ∈ neg -> neg_mark n args x) ->
  Forall (vec n) (xor_new_args pos neg args)
  /\ xors (xor_new_args pos neg args) = Z.lxor (xors pos) (nots n neg).
Proof.
  intros Hp Hn Hargs. revert pos neg Hp Hn. induction Hargs as [|a args Ha Hargs IH]; intros pos neg Hp Hn Hpos Hneg.
  { assert (pos = []) as ->. { destruct pos as [|x pos]; [done|]. destruct (Hpos x) as (_ & []%not_elem_of_nil & _). left. }
    assert (neg = []) as ->. { destruct neg as [|x neg]; [done|]. destruct (Hneg x) as (_ & e & []%not_elem_of_nil & _). left. }
    done. }
  assert (forall x, x ∈ pos -> x <> a -> pos_mark n args x) as Hposr.
  { intros x Hx Hxa. destruct (Hpos x Hx) as (Hv & [->|Hin]%elem_of_cons & Hr); [done|]. by split. }
  assert (forall x, x ∈ neg -> (is_num a = true \/ is_bv_not a = false \/ get_arg a 0 <> x) -> neg_mark n args x) as Hnegr.
  { intros x Hx Hxa. destruct (Hneg x Hx) as (Hv & e & [->|Hin]%elem_of_cons & Hn1 & Hn2 & He).
    - destruct Hxa as [?|[?|?]]; congruence.
    - split; [done|]. by exists e. }
  cbn [xor_new_args]. destruct (is_num a) eqn:Hna.
  { apply IH; [done..| |]; [intros x Hx; apply Hposr; [done|]|intros x Hx; apply Hnegr; [done|by left]].
    intros ->. destruct (Hpos a Hx) as (_ & _ & ? & _). congruence. }
  destruct (is_bv_not a) eqn:Hnot.
  - assert (forall x, x ∈ pos -> x <> a) as Hne by (intros x Hx ->; destruct (Hpos a Hx) as (_ & _ & _ & ?); congruence).
    destruct (not_bv_inv I a Hnot (proj1 Ha)) as (m & d & y & -> & Hvy & Hm & Hd).
    assert (m = n) as -> by (by eapply vec_width). pose proof (not_uv n d y Hvy Ha Hd) as Hu. cbn [get_arg get_args nth] in *.
    destruct (bool_decide (y ∈ neg)) eqn:E; [apply bool_decide_eq_true in E|apply bool_decide_eq_false in E].
    + destruct (IH pos (unmark y neg)) as [Hv He]; [done|by apply unmark_nodup|by auto| |].
      { intros x [Hx Hxy]%unmark_spec. apply Hnegr; [done|]. right. right. congruence. }
      split; [by constructor|]. rewrite xors_cons, He, Hu. unfold nots at 1. rewrite xor_unmark by done. fold (nots n neg). xor_ring.
    + apply IH; [done..|by auto|]. intros x Hx. apply Hnegr; [done|]. right. right. congruence.
  - destruct (bool_decide (a ∈ pos)) eqn:E; [apply bool_decide_eq_true in E|apply bool_decide_eq_false in E].
    + destruct (IH (unmark a pos) neg) as [Hv He]; [by apply unmark_nodup|done| | |].
      { intros x [Hx Hxa]%unmark_spec. by apply Hposr. }
      { intros x Hx. apply Hnegr; [done|]. right. by left. }
      split; [by constructor|]. rewrite xors_cons, He. unfold xors at 1. rewrite xor_unmark by done. fold (xors pos). xor_ring.
    + apply IH; [done..| |]; [intros x Hx; apply Hposr; congruence|]. intros x Hx. apply Hnegr; [done|]. right. by left.
Qed.

Lemma is_allone_uv n e : is_allone e = true -> vec n e -> uv e = pow2 n - 1.
Proof.
  unfold is_allone, numeral_is. destruct (is_numeral e) as [[v m]|] eqn:Hn; [|done]. intros ->%Z.eqb_eq He.
  by destruct (numeral_vec I _ _ _ _ Hn He) as (-> & _ & ->).
Qed.

Lemma xor_finish_ok n s args V r :
  (0 < n)%nat -> Forall (vec n) args -> xor_inv n s args V -> xor_finish p n s args = Ok r -> br_den I n V r.
Proof.
  intros Hn Hargs [Hv Hp Hg Hpos Hneg -> _]. unfold xor_finish.
  destruct (xor_new_args_ok n _ _ args Hp Hg Hargs Hpos Hneg) as [Hvn <-].
  set (l := xor_new_args _ _ _) in *. clearbody l.
  assert (Forall (vec n) ((if xor_v1 s =? 0 then [] else [mk_numeral (xor_v1 s) n]) ++ l)
    /\ xors ((if xor_v1 s =? 0 then [] else [mk_numeral (xor_v1 s) n]) ++ l) = Z.lxor (xor_v1 s) (xors l)) as [Hall <-].
  { destruct (Z.eqb_spec (xor_v1 s) 0) as [->|]; [by split|]. pose proof (den_numeral I n (xor_v1 s) Hn) as Hd. split.
    - constructor; [by eapply den_vec|done].
    - cbn [app]. by rewrite xors_cons, (den_uv_small I _ _ _ Hd). }
  set (l' := _ ++ l) in *. clearbody l'. clear l Hvn.
  assert (forall l, (2 <= length l)%nat -> Forall (vec n) l -> rebuild p OP_BXOR l = Ok r -> br_den I n (xors l) r) as Hre
    by (intros l Hl Hvl Hr; by apply (rebuild_ok I p (k := OP_BXOR) n) in Hr).
  destruct l' as [|a [|b [|c l']]].
  - intros [= <-]. by apply den_numeral.
  - intros [= <-]. rewrite xors_one. apply den_self. by apply Forall_cons in Hall as [? _].
  - pose proof Hall as [Ha [Hb _]%Forall_cons]%Forall_cons. destruct (is_allone a) eqn:Ho; [|by apply Hre; [cbn; lia|]].
    intros [= <-]. eapply (den_ext I); [by apply (den_not I), den_self|].
    rewrite xors_cons, xors_one, (is_allone_uv n a Ho Ha), Z.lxor_comm, <- compl_lxor by (by apply uv_range).
    apply (eqm_multiple _ _ _ (-1)). lia.
  - apply Hre; [cbn; lia|done].
Qed.

(** *** Masks *)

Lemma nums_loop n s l :
  Forall (vec n) l -> Forall (fun e => is_num e = true) l ->
  foldl (xor_step n) s l
  = {| xor_v1 := Z.lxor (xor_v1 s) (xors l); xor_coeffs := (xor_coeffs s + length l)%nat; xor_merged := xor_merged s;
       xor_pos := xor_pos s; xor_neg := xor_neg s |}.
Proof.
  intros Hv. revert s. induction Hv as [|a l Ha _ IH]; intros s Hnum.
  - destruct s. cbn. by rewrite Z.lxor_0_r, Nat.add_0_r.
  - apply Forall_cons in Hnum as [Hna Hnum]. cbn [foldl]. rewrite IH by done. unfold xor_step.
    destruct (is_num_inv I n a Hna Ha) as [-> _]. cbn [xor_v1 xor_coeffs xor_merged xor_pos xor_neg].
    rewrite xors_cons. f_equal; [xor_ring|cbn; lia].
Qed.

Lemma all_nums l : length (List.filter is_num l) = length l -> Forall (fun e => is_num e = true) l.
Proof.
  induction l as [|a l IH]; [done|]. cbn. destruct (is_num a) eqn:Ha; cbn.
  - intros [= Hl]. constructor; [done|by apply IH].
  - pose proof (List.filter_length_le is_num l). lia.
Qed.

(** The only argument that is not a numeral. *)
Lemma one_not_num l :
  l <> [] -> length (List.filter is_num l) = (length l - 1)%nat ->
  exists l1 t l2, l = l1 ++ t :: l2 /\ List.find (fun t => negb (is_num t)) l = Some t /\ is_num t = false
    /\ Forall (fun e => is_num e = true) l1 /\ Forall (fun e => is_num e = true) l2.
Proof.
  induction l as [|a l IH]; [done|]. intros _. cbn. rewrite Nat.sub_0_r. destruct (is_num a) eqn:Ha; cbn.
  - intros Hl. assert (length (List.filter is_num l) = (length l - 1)%nat) as Hl' by lia.
    destruct l as [|b l]; [done|]. destruct (IH ltac:(done) Hl') as (l1 & t & l2 & -> & Hf & Ht & H1 & H2).
    exists (a :: l1), t, l2. split; [done|]. split; [done|]. split; [done|]. split; [by constructor|done].
  - intros Hl. exists [], a, l. do 4 (split; [done|]). by apply all_nums.
Qed.

Lemma mask_xor_ok n v1 t :
  vec n t -> 0 <= v1 < pow2 n -> den n (Z.lxor v1 (uv t)) (mask_xor n v1 t).
Proof.
  intros Ht Hv. pose proof (vec_pos _ _ Ht) as Hn. pose proof (uv_range I n t Ht) as Hb. unfold mask_xor.
  pose proof (den_not I n _ _ (den_self I n t Ht)) as Hnot. pose proof (den_vec _ _ _ _ Hnot) as Hvn.
  assert (uv (mk_bv_not t) = pow2 n - 1 - uv t) as Hun.
  { rewrite (den_uv I _ _ _ Hnot). symmetry. apply (Z.mod_unique _ _ (-1)); lia. }
  set (l := rev _). assert (covers I (Z.lxor v1 (uv t)) 0 n l) as Hcov.
  { pose proof (mask_runs_ok I (Z.lxor v1 (uv t)) v1
      (fun hi lo => mk_bv_extract hi lo (mk_bv_not t)) (fun hi lo => mk_bv_extract hi lo t) n n 0) as Hruns.
    rewrite pow2_0, Z.div_1_r, Nat.sub_0_r in Hruns. apply Hruns; [lia..| |]; clear Hruns;
      intros lo len Hlen Hlo Hbits; (eapply covers_extract; [done..|]); intros j Hj; rewrite Z.lxor_spec, Hbits by done.
    - rewrite Hun, compl_testbit by (done || lia). done.
    - by destruct (Z.testbit (uv t) _). }
  clearbody l. assert (l <> []) as Hne by (by eapply covers_nonempty).
  destruct l as [|e [|e' l]]; [done| |by apply covers_den].
  destruct Hcov as ([He _]%Forall_cons & Hw & Hc). rewrite width_one in Hw. rewrite catv_one, pow2_0, Z.div_1_r in Hc.
  apply den_eqm; [by rewrite <- Hw|]. rewrite Hc. apply eqm_mod.
Qed.

Lemma mask_value n flat :
  Forall (vec n) flat -> flat <> [] ->
  let s := foldl (xor_step n) {| xor_v1 := 0; xor_coeffs := 0; xor_merged := false; xor_pos := []; xor_neg := [] |} flat in
  length (List.filter is_num flat) = (length flat - 1)%nat ->
  let t := default m_false (List.find (fun t => negb (is_num t)) flat) in
  vec n t /\ Z.lxor (xor_v1 s) (uv t) = xors flat.
Proof.
  intros Hflat Hne. cbv zeta. intros Hl. destruct (one_not_num flat Hne Hl) as (l1 & t & l2 & -> & -> & Ht & H1 & H2).
  cbn [default id]. apply Forall_app in Hflat as [Hv1 [Hvt Hv2]%Forall_cons]. split; [done|].
  rewrite foldl_app. cbn [foldl]. rewrite (nums_loop n _ l1) by done. rewrite (nums_loop n _ l2) by done. cbn [xor_v1].
  rewrite xors_app, xors_cons. pose proof (is_num_spec t (proj1 Hvt)) as Hn. rewrite Ht in Hn. unfold xor_step.
  destruct (is_numeral t); [done|]. cbn [xor_pos xor_neg xor_v1].
  rewrite !bool_decide_eq_false_2 by apply not_elem_of_nil. destruct (is_bv_not t); cbn [xor_v1]; xor_ring.
Qed.

Lemma rw_xor_ok n args r :
  args <> [] -> Forall (vec n) args -> rw_xor p args = Ok r -> br_den I n (xors args) r.
Proof.
  intros Hne Hargs. unfold rw_xor. destruct args as [|a [|b args]]; [done| |].
  { intros [= <-]. rewrite xors_one. apply den_self. by apply Forall_cons in Hargs as [? _]. }
  pose proof Hargs as [Ha _]%Forall_cons. pose proof (vec_pos _ _ Ha) as Hn. rewrite (vec_size n) by done.
  set (l := a :: b :: args) in *. destruct (flat_args_ok I p (k := OP_BXOR) n l Hargs) as (Hflat & Hlen & He).
  change (fun e => is_app_of e (Bv OP_BXOR)) with is_bv_xor in *. set (flat := flat_args p is_bv_xor l) in *.
  set (s0 := {| xor_v1 := 0; xor_coeffs := 0; xor_merged := false; xor_pos := []; xor_neg := [] |}) in *.
  assert (2 <= length flat)%nat as Hl by (unfold l in Hlen; cbn in Hlen; lia).
  assert (xor_inv n s0 [] 0) as H0.
  { pose proof (pow2_pos n). split; cbn; [lia|apply NoDup_nil_2..|by intros x ?%not_elem_of_nil|by intros x ?%not_elem_of_nil|done|done]. }
  pose proof (xor_loop_ok n s0 [] 0 flat H0 Hflat) as Hloop. rewrite Z.lxor_0_l in Hloop. cbn [app] in Hloop.
  intros Hr. apply (br_den_ext I n (xors flat)); [|exact He]. clear He H0.
  destruct (_ && Nat.eqb (xor_coeffs _) _) eqn:Hmask.
  { injection Hr as <-. apply andb_true_iff in Hmask as [_ Hc%Nat.eqb_eq]. rewrite (xi_coeffs _ _ _ _ Hloop) in Hc.
    destruct (mask_value n flat Hflat) as [Hvt Hval]; [by intros ->; cbn in Hl; lia|done|]. fold s0 in Hval.
    unfold br_den, br_means. rewrite <- Hval. apply mask_xor_ok; [done|]. apply (xi_v1 _ _ _ _ Hloop). }
  match type of Hr with (if ?c then _ else _) = _ => destruct c end; [|by eapply xor_finish_ok].
  apply bind_ok in Hr as (d & Hd & [= <-]). pose proof (distribute_concat_ok I (k := OP_BXOR) n flat d Hl Hflat Hd) as Hdc.
  by destruct d.
Qed.

(** ** Negation and the operators defined from it *)

Lemma den_pair {k g u} `{!AssocOp k g u} n v w a b :
  den n v a -> den n w b -> den n (g v w) (bv_app k [] [a; b]).
Proof.
  intros Ha Hb. pose proof (den_assoc I (k := k) n [v; w] [a; b]) as Hd. cbn [foldr] in Hd. rewrite (ao_unit (k := k) (u := u)) in Hd.
  apply Hd; [done|]. constructor; [done|]. constructor; [done|constructor].
Qed.

Lemma nots_den n args :
  Forall (vec n) args -> Forall2 (den n) (map (fun a => Z.lnot (uv a)) args) (map mk_bv_not args).
Proof.
  induction 1 as [|a args Ha _ IH]; cbn [map]; constructor; [|done].
  replace (Z.lnot (uv a)) with (- uv a - 1) by (unfold Z.lnot; lia). by apply (den_not I), den_self.
Qed.

Lemma den_lnot n v a : den n v a -> den n (Z.lnot v) (mk_bv_not a).
Proof. intros Ha. replace (Z.lnot v) with (- v - 1) by (unfold Z.lnot; lia). by apply (den_not I). Qed.

Lemma catv_nots es : Forall bvec es -> Forall bvec (map mk_bv_not es) /\ width (map mk_bv_not es) = width es
  /\ catv I (map mk_bv_not es) = pow2 (width es) - 1 - catv I es.
Proof.
  induction 1 as [|e es He _ (IHv & IHw & IHc)]; [done|]. cbn [map].
  pose proof (den_not I _ _ _ (den_self I _ e He)) as Hd. pose proof (den_vec _ _ _ _ Hd) as Hv.
  rewrite !width_cons, IHw, (vec_size _ _ Hv). split; [by constructor; [eapply vec_bvec|]|]. split; [done|].
  cbn [BvFacts.catv]. rewrite IHw, IHc, pow2_add, (den_uv I _ _ _ Hd).
  pose proof (uv_range I _ e He). assert ((- uv e - 1) mod pow2 (get_bv_size e) = pow2 (get_bv_size e) - 1 - uv e) as ->; [|lia].
  symmetry. apply (Z.mod_unique _ _ (-1)); lia.
Qed.

Lemma is_negatable_ok n e e' : is_negatable e = Some e' -> vec n e -> den n (- uv e - 1) e'.
Proof.
  unfold is_negatable. intros He Hv. pose proof (vec_pos _ _ Hv) as Hn.
  destruct (is_numeral e) as [[v m]|] eqn:Hnum.
  - destruct (numeral_vec I _ _ _ _ Hnum Hv) as (-> & _ & ->). injection He as <-. unfold bitwise_not. fold (pow2 n).
    eapply den_ext; [by apply den_numeral|]. rewrite eqm_mod. by replace (Z.lnot v) with (- v - 1) by (unfold Z.lnot; lia).
  - destruct (is_bv_not e) eqn:Hnot; [|done]. injection He as <-.
    destruct (not_bv_inv I e Hnot (proj1 Hv)) as (m & d & a & -> & Hva & Hm & Hd).
    assert (m = n) as -> by (by eapply vec_width). cbn [get_arg get_args nth]. rewrite (not_uv n d a) by done.
    eapply den_ext; [by apply den_self|]. apply (eqm_multiple _ _ _ 1). lia.
Qed.

Lemma bvnot_simpl_ok n e : vec n e -> br_den I n (- uv e - 1) (bvnot_simpl e).
Proof.
  intros He. pose proof (vec_pos _ _ He) as Hn. unfold bvnot_simpl.
  destruct ('(s, t) ← match_binary OP_BMUL e; _) as [r|] eqn:Hmul.
  { destruct (match_binary OP_BMUL e) as [[s t]|] eqn:Hm; [|done]. cbn [mbind option_bind] in Hmul.
    destruct (match_mul I n e s t Hm He) as (Hs & Ht & Hu). destruct (is_allone s || is_allone t) eqn:Ho; [|done].
    injection Hmul as <-.
    eapply br_den_ext; [apply (den_pair (k := OP_BADD)); by apply den_self|]. rewrite Hu. apply orb_true_iff in Ho as [Ho|Ho]; rewrite (is_allone_uv n _ Ho) by done.
    - apply (eqm_multiple _ _ _ (1 + uv t)). lia.
    - apply (eqm_multiple _ _ _ (1 + uv s)). lia. }
  clear Hmul. destruct (match_binary OP_BADD e) as [[s t]|] eqn:Hm; [|done]. cbn [mbind option_bind].
  destruct (match_add I n e s t Hm He) as (Hs & Ht & Hu). destruct (is_negatable t) as [nt|] eqn:Hnt; [|done].
  destruct (is_negatable s) as [ns|] eqn:Hns; [|done]. cbn [mbind option_bind]. rewrite (vec_size n s) by done.
  apply is_negatable_ok with (n := n) in Hnt, Hns; [|done..].
  pose proof (den_assoc I (k := OP_BADD) n [1; - uv s - 1; - uv t - 1] [mk_numeral 1 n; ns; nt]) as Hadd. cbn [foldr] in Hadd.
  eapply br_den_ext; [apply Hadd; [cbn; lia|]|].
  - constructor; [by apply den_numeral|]. by repeat (constructor; [done|]).
  - rewrite Hu. by replace (1 + (- uv s - 1 + (- uv t - 1 + 0))) with (- (uv s + uv t) - 1) by lia.
Qed.

Lemma rw_not_ok n e : vec n e -> br_den I n (- uv e - 1) (rw_not p e).
Proof.
  intros He. unfold rw_not. destruct (is_bv_not e) eqn:Hnot.
  { apply is_negatable_ok with (e := e); [|done]. unfold is_negatable. rewrite Hnot.
    destruct (is_numeral e) as [[v m]|] eqn:Hn; [|done]. apply is_numeral_bv_num in Hn.
    unfold is_bv_not, is_bv_num in *. destruct e as [|d l]; [done|]. cbn in Hn, Hnot.
    apply bool_decide_eq_true in Hn, Hnot. congruence. }
  pose proof (is_negatable_ok n e) as Hneg. unfold is_negatable in Hneg. rewrite Hnot in Hneg.
  destruct (is_numeral e) as [[v m]|] eqn:Hn; [by apply Hneg|]. clear Hneg.
  destruct (is_concat e) eqn:Hc; [|destruct (m_bvnot_simpl p); [by apply bvnot_simpl_ok|done]].
  destruct (concat_inv I e Hc (proj1 He)) as (d & args & -> & Hne & Hargs & _ & Hv & -> & _).
  assert (width args = n) as <- by (by eapply vec_width). destruct (catv_nots args Hargs) as (Hvn & Hw & Hcat).
  rewrite <- Hw. eapply br_den_ext; [apply den_concat; [by destruct args|done]|].
  rewrite Hcat, Hw. apply (eqm_multiple _ _ _ 1). lia.
Qed.

Lemma lnot_fold_or l :
  Z.lnot (foldr Z.lor 0 (map (fun a => Z.lnot (uv a)) l)) = foldr Z.land (-1) (map uv l).
Proof.
  induction l as [|a l IH]; [done|]. cbn [map foldr]. rewrite Z.lnot_lor, IH, Z.lnot_involutive. done.
Qed.

Lemma mk_bv_and_ok n args :
  (2 <= length args)%nat -> Forall (vec n) args -> br_den I n (foldr Z.land (-1) (map uv args)) (mk_bv_and args).
Proof.
  intros Hl Hargs. unfold mk_bv_and. rewrite <- lnot_fold_or. apply den_lnot.
  apply (den_assoc I (k := OP_BOR)); [by rewrite length_map|by apply nots_den].
Qed.

Lemma mk_bv_nand_ok n a b :
  vec n a -> vec n b -> br_den I n (Z.lnot (Z.land (uv a) (uv b))) (mk_bv_nand [a; b]).
Proof.
  intros Ha Hb. unfold mk_bv_nand. rewrite Z.lnot_land.
  apply (den_pair (k := OP_BOR)); by apply den_lnot, den_self.
Qed.

Lemma mk_bv_nor_ok n a b :
  vec n a -> vec n b -> br_den I n (Z.lnot (Z.lor (uv a) (uv b))) (mk_bv_nor [a; b]).
Proof.
  intros Ha Hb. unfold mk_bv_nor. apply den_lnot, (den_pair (k := OP_BOR)); by apply den_self.
Qed.

Definition xnorZ (x y : Z) : Z := Z.lnot (Z.lxor x y).

Lemma xnor2_den n v w a b : den n v a -> den n w b -> den n (xnorZ v w) (xnor2 a b).
Proof.
  intros Ha Hb. by apply den_lnot, (den_pair (k := OP_BXOR)).
Qed.

Lemma xnors_den n v a rest :
  den n v a -> Forall (vec n) rest -> den n (foldl xnorZ v (map uv rest)) (foldl xnor2 a rest).
Proof.
  intros Ha Hrest. revert v a Ha. induction Hrest as [|b rest Hb _ IH]; intros v a Ha; cbn [foldl map]; [done|].
  apply IH, xnor2_den; [done|by apply den_self].
Qed.

Lemma mk_bv_xnor_ok n a rest :
  vec n a -> rest <> [] -> Forall (vec n) rest ->
  br_den I n (foldl xnorZ (uv a) (map uv rest)) (mk_bv_xnor (a :: rest)).
Proof.
  intros Ha Hne Hrest. pose proof (xnors_den n _ a rest (den_self I n a Ha) Hrest) as Hd.
  destruct rest as [|b [|c rest]]; done.
Qed.

(** ** Reductions and comparison *)

Lemma mk_bv_redor_ok n a : vec n a -> br_den I 1 (if uv a =? 0 then 0 else 1) (mk_bv_redor a).
Proof.
  intros Ha. unfold mk_bv_redor, is_zero, numeral_is. destruct (is_num a) eqn:Hn; [|done].
  destruct (is_num_inv I n a Hn Ha) as [-> _]. destruct (uv a =? 0); apply den_numeral; lia.
Qed.

Lemma mk_bv_redand_ok n a : vec n a -> br_den I 1 (if uv a =? pow2 n - 1 then 1 else 0) (mk_bv_redand a).
Proof.
  intros Ha. unfold mk_bv_redand. destruct (is_numeral a) as [[v m]|] eqn:Hn; [|done].
  destruct (numeral_vec I _ _ _ _ Hn Ha) as (-> & _ & ->). unfold all_ones. fold (pow2 n).
  destruct (v =? pow2 n - 1); apply den_numeral; lia.
Qed.

Lemma mk_bv_comp_ok n a b :
  vec n a -> vec n b -> br_den I 1 (if uv a =? uv b then 1 else 0) (mk_bv_comp a b).
Proof.
  intros Ha Hb. unfold mk_bv_comp. case_bool_decide as Hab.
  { subst b. rewrite Z.eqb_refl. apply den_numeral. lia. }
  destruct (is_num a && is_num b) eqn:Hn.
  { apply andb_true_iff in Hn as [Hna Hnb]. destruct (Z.eqb_spec (uv a) (uv b)) as [He|]; [|apply den_numeral; lia].
    exfalso. apply Hab. by apply (numeral_eq I n). }
  pose proof (vec_eq_holds I n a b Ha Hb) as [Hw Ht]. pose proof (den_numeral I 1 1 ltac:(lia)) as H1.
  pose proof (den_numeral I 1 0 ltac:(lia)) as H0.
  eapply (den_ext I); [apply (den_ite I); [exact Hw|by eapply den_vec..]|]. rewrite Ht.
  destruct (uv a =? uv b); [by rewrite (den_uv I _ _ _ H1)|by rewrite (den_uv I _ _ _ H0)].
Qed.

(** ** Sums and products *)

Lemma disjoint_sum n l :
  Forall (vec n) l -> (forall i, (i < n)%nat -> at_most_one l i = true) -> sumZ (map uv l) = lors I l.
Proof.
  intros Hl. induction Hl as [|x l Hx Hl IH]; intros Hone; [done|].
  assert (forall i, (i < n)%nat -> at_most_one l i = true) as Hone'.
  { intros i Hi. specialize (Hone i Hi). unfold at_most_one in *. cbn [List.filter] in Hone.
    destruct (is_zero_bit x i); [done|]. cbn [negb length] in Hone. apply Nat.leb_le in Hone. apply Nat.leb_le. lia. }
  rewrite lors_cons. cbn [map sumZ foldr]. change (foldr Z.add 0 (map uv l)) with (sumZ (map uv l)). rewrite IH by done.
  pose proof (uv_range I n x Hx) as Hb. pose proof (lors_bounds I n l Hl) as Hbl.
  rewrite <- Z.add_lor_land. assert (Z.land (uv x) (lors I l) = 0) as ->; [|lia].
  pose proof (pow2_pos n). apply (bits_eq n); [|lia|].
  { split; [apply Z.land_nonneg; lia|]. pose proof (Z.add_lor_land (uv x) (lors I l)). pose proof (Z.sub_lor_land (uv x) (lors I l)).
    pose proof (lxor_bounds n _ _ Hb Hbl). pose proof (lor_bounds n _ _ Hb Hbl). lia. }
  intros j Hj. rewrite Z.land_spec, Z.testbit_0_l. destruct (Z.testbit (uv x) _) eqn:Hbit; [|done]. cbn [andb].
  assert (is_zero_bit x j = false) as Hz.
  { apply not_true_iff_false. intros Hz. apply (is_zero_bit_ok I) in Hz; [congruence|by eapply vec_bvec|by rewrite (vec_size n)]. }
  specialize (Hone j Hj). unfold at_most_one in Hone. cbn [List.filter] in Hone. rewrite Hz in Hone. cbn [negb length] in Hone.
  apply Nat.leb_le in Hone. assert (length (List.filter (fun x => negb (is_zero_bit x j)) l) = 0%nat) as Hnil by lia.
  clear -Hnil Hl Hj. induction Hl as [|y l Hy _ IH]; [by rewrite Z.testbit_0_l|]. cbn [List.filter] in Hnil.
  destruct (is_zero_bit y j) eqn:Hz; [|done]. rewrite lors_cons, Z.lor_spec, IH by done.
  apply (is_zero_bit_ok I) in Hz; [by rewrite Hz|by eapply vec_bvec|by rewrite (vec_size n)].
Qed.

Lemma mk_bv_add_ok n args :
  args <> [] -> Forall (vec n) args -> br_den I n (sumZ (map uv args)) (mk_bv_add p get_id args).
Proof.
  intros Hne Hargs. pose proof (mk_add_core_ok I (m_poly p) get_id n args Hne Hargs) as Hst. unfold mk_bv_add.
  set (st := mk_add_core _ _ args) in *.
  assert (forall l, Forall (vec n) l -> eqm n (sumZ (map uv l)) (sumZ (map uv args)) ->
    br_den I n (sumZ (map uv args)) (if disjoint_args l then BR_REWRITE1 (mk_bv_or l) else st)) as Hor.
  { intros l Hl Hs. destruct (disjoint_args l) eqn:Hd; [|done]. apply andb_true_iff in Hd as [Hlen%Nat.leb_le Hd].
    eapply br_den_ext; [|exact Hs]. destruct l as [|a l]; [cbn in Hlen; lia|]. pose proof Hl as [Ha _]%Forall_cons.
    cbn [List.hd] in Hd. rewrite (vec_size n) in Hd by done. rewrite forallb_forall in Hd.
    rewrite (disjoint_sum n) by (done || (intros i Hi; apply Hd, in_seq; lia)).
    apply (den_assoc I (k := OP_BOR)); [done|by apply den_selfs]. }
  clearbody st. destruct st as [| | | |r|]; try done; [|by apply Hor].
  destruct (is_bv_add r) eqn:Hr; [|done]. pose proof (den_vec _ _ _ _ Hst) as Hv.
  destruct (badd_inv I n r Hr Hv) as (d & l & -> & _ & Hl & Hu). apply Hor; [done|]. cbn [get_args].
  rewrite <- Hu, (den_uv I _ _ _ Hst). apply eqm_mod.
Qed.

Lemma mul2concat_ok n x y st r :
  vec n x -> vec n y -> br_den I n (uv x * uv y) st -> mul2concat p x y st = Ok r -> br_den I n (uv x * uv y) r.
Proof.
  intros Hx Hy Hst. unfold mul2concat. destruct (m_mul2concat p); [|by intros [= <-]].
  destruct (is_numeral x) as [[v m]|] eqn:Hn; [|by intros [= <-]].
  destruct (numeral_vec I _ _ _ _ Hn Hx) as (-> & Hv & Hu). rewrite Hu in *.
  destruct (is_power_of_two v) as [[|k]|] eqn:Hp; [done| |by intros [= <-]].
  apply is_power_of_two_spec in Hp as ->. intros [= <-]. set (s := S k) in *.
  assert (s < n)%nat as Hs.
  { destruct (decide (s < n)%nat); [done|]. pose proof (pow2_le n s ltac:(lia)). lia. }
  pose proof (den_extract_vec I n (n - s - 1) 0 y Hy ltac:(lia)) as H1. rewrite pow2_0, Z.div_1_r in H1.
  replace (S (n - s - 1) - 0)%nat with (n - s)%nat in H1 by lia.
  pose proof (den_concat2 I _ _ _ _ _ _ H1 (den_numeral I s 0 ltac:(lia))) as Hd.
  replace (n - s + s)%nat with n in Hd by lia. eapply br_den_ext; [exact Hd|].
  rewrite Z.mod_0_l by (pose proof (pow2_pos s); lia).
  pose proof (eqm_cat (n - s) s _ _ 0 (eqm_mod (n - s) (uv y))) as He. rewrite !Z.add_0_r in *.
  replace (n - s + s)%nat with n in He by lia. by rewrite He, Z.mul_comm.
Qed.

Lemma rw_mul_ok n args r :
  args <> [] -> Forall (vec n) args -> rw_mul p get_id args = Ok r -> br_den I n (prodZ (map uv args)) r.
Proof.
  intros Hne Hargs. pose proof (mk_mul_core_ok I (m_poly p) get_id n args Hne Hargs) as Hst. unfold rw_mul.
  set (st := mk_mul_core _ _ args) in *. clearbody st.
  destruct st as [s|s|s|s|s|] eqn:E; try (by intros [= <-]).
  - pose proof (den_vec _ _ _ _ Hst) as Hv. destruct (match_binary OP_BMUL s) as [[x y]|] eqn:Hm; [|by intros [= <-]].
    destruct (match_mul I n s x y Hm Hv) as (Hx & Hy & Hu). intros Hr.
    assert (eqm n (uv x * uv y) (prodZ (map uv args))) as He by (rewrite <- Hu, (den_uv I _ _ _ Hst); apply eqm_mod).
    eapply br_den_ext; [|exact He]. eapply mul2concat_ok; [done..| |exact Hr].
    eapply br_den_ext; [exact Hst|by symmetry].
  - destruct args as [|x [|y [|]]]; try (by intros [= <-]). apply Forall_cons in Hargs as [Hx Hargs].
    apply Forall_cons in Hargs as [Hy _]. intros Hr. unfold prodZ. cbn [map foldr]. rewrite Z.mul_1_r.
    by apply (mul2concat_ok n x y BR_FAILED).
Qed.
End Xor.
