(* ===== verification/BvRewriterEqOk.v ===== *)
(** Equality, bits, if-then-else and the overflow predicates of the bit-vector
    rewriter are correct; the extended gcd ends and finds the inverses modulo a
    power of two. *)
From Stdlib Require Import Znumtheory.
From S2P Require Import Prelude Text Bits Ast AstSem AstFacts BoolRewriter BoolRewriterOk BvPlugin BvFacts PolyRewriter PolyRewriterOk BvRewriterLeq BvRewriterLeqOk BvRewriterTerms BvRewriterTermsOk BvRewriterDiv BvRewriterDivOk BvRewriterBits BvRewriterBitsOk BvRewriterXorOk BvRewriterEq.

(** ** The extended gcd *)

Lemma gcd_loop_ok fuel x y tmp1 tmp2 a nexta b nextb d ra rb :
  0 < tmp1 -> 0 <= tmp2 <= tmp1 -> tmp1 * tmp2 < 2 ^ (Z.of_nat fuel - 1) -> (0 < fuel)%nat ->
  tmp1 = a * x + b * y -> tmp2 = nexta * x + nextb * y ->
  gcd_loop fuel tmp1 tmp2 a nexta b nextb = (d, ra, rb) ->
  d = Z.gcd tmp1 tmp2 /\ d = ra * x + rb * y.
Proof.
  revert tmp1 tmp2 a nexta b nextb. induction fuel as [|fuel IH]; intros tmp1 tmp2 a nexta b nextb H1 H2 Hp Hf E1 E2; [lia|].
  cbn [gcd_loop]. destruct (Z.ltb_spec 0 tmp2) as [Hpos|].
  2: { intros [= <- <- <-]. assert (tmp2 = 0) as -> by lia. rewrite Z.gcd_0_r. split; [lia|done]. }
  cbv zeta. set (q := Z.quot tmp1 tmp2). pose proof (Z.quot_rem tmp1 tmp2 ltac:(lia)) as Hqr. fold q in Hqr.
  pose proof (Z.rem_bound_pos tmp1 tmp2 ltac:(lia) Hpos) as Hr. set (r := Z.rem tmp1 tmp2) in *.
  assert (0 < q) as Hq by (apply Z.quot_str_pos; lia).
  intros Hres. apply IH in Hres as [-> Hd]; [|lia|lia| | |done|].
  - split; [|done]. rewrite Z.gcd_comm. unfold r. rewrite Z.rem_mod_nonneg, Z.gcd_mod, Z.gcd_comm by lia. done.
  - replace (Z.of_nat (S fuel) - 1) with (Z.of_nat fuel) in Hp by lia.
    assert (2 * (tmp2 * r) < 2 ^ Z.of_nat fuel) as Hh by nia.
    destruct fuel as [|f]; [change (2 ^ Z.of_nat 0) with 1 in Hp; nia|].
    rewrite Nat2Z.inj_succ, Z.pow_succ_r in Hh by lia. replace (Z.of_nat (S f) - 1) with (Z.of_nat f) by lia. lia.
  - destruct fuel; [|lia]. change (2 ^ (Z.of_nat 1 - 1)) with 1 in Hp. nia.
  - subst tmp1 tmp2. lia.
Qed.

Lemma gcd_fuel_ok x y : 0 < x -> 0 < y -> x * y < 2 ^ (Z.of_nat (gcd_fuel x y) - 1) /\ (0 < gcd_fuel x y)%nat.
Proof.
  intros Hx Hy. unfold gcd_fuel. pose proof (Z.log2_nonneg (x * y)) as Hl.
  rewrite Z2Nat.id by lia. pose proof (Z.log2_spec (x * y) ltac:(nia)) as [_ Hlt].
  replace (Z.log2 (x * y) + 2 - 1) with (Z.succ (Z.log2 (x * y))) by lia. split; [done|lia].
Qed.

Lemma gcd_ext_ok x y d a b : 0 < x -> 0 < y -> gcd_ext x y = (d, a, b) -> d = Z.gcd x y /\ d = a * x + b * y.
Proof.
  intros Hx Hy. unfold gcd_ext. destruct (Z.ltb_spec x y).
  - intros Hg. destruct (gcd_fuel_ok y x Hy Hx) as [Hp Hf].
    destruct (gcd_loop_ok _ x y y x 0 1 1 0 d a b Hy ltac:(lia) Hp Hf ltac:(lia) ltac:(lia) Hg) as [-> He].
    split; [apply Z.gcd_comm|done].
  - intros Hg. destruct (gcd_fuel_ok x y Hx Hy) as [Hp Hf].
    by apply (gcd_loop_ok _ x y x y 1 0 0 1 d a b Hx ltac:(lia) Hp Hf ltac:(lia) ltac:(lia) Hg).
Qed.

Lemma odd_coprime x n : Z.even x = false -> Z.gcd x (pow2 n) = 1.
Proof.
  intros Hx. change (Z.coprime x (pow2 n)). induction n as [|n IH]; [rewrite pow2_0; apply Z.coprime_1_r|].
  rewrite pow2_S. apply Z.coprime_mul_r; [|done].
  unfold Z.coprime. rewrite Z.gcd_comm, <- Z.gcd_mod by lia.
  pose proof (Zmod_even x) as Hm. rewrite Hx in Hm. rewrite Hm. done.
Qed.

Lemma mult_inverse_ok c n i : 0 <= c -> mult_inverse c n = Some i -> eqm n (i * c) 1.
Proof.
  intros Hc. unfold mult_inverse. fold (pow2 n). destruct (Z.eqb_spec c 1) as [->|]; [by intros [= <-]|].
  destruct (Z.even c) eqn:He; [done|]. assert (0 < c) by (destruct (Z.eq_dec c 0) as [->|]; [discriminate He|lia]).
  destruct (gcd_ext c (pow2 n)) as [[d x] y] eqn:Hg.
  apply gcd_ext_ok in Hg as [-> Hd]; [|done|apply pow2_pos]. rewrite odd_coprime in Hd by done.
  intros [= <-]. transitivity (x * c).
  - destruct (x <? 0); [by rewrite eqm_mod|done].
  - apply (eqm_multiple _ _ _ (- y)). lia.
Qed.

Section Equality.
Context (I : interp) (p : bv_params).
Local Abbreviation uv := (uv I).
Local Abbreviation sv := (sv I).
Local Abbreviation den := (den I).
Local Abbreviation holds := (holds I).
Local Abbreviation tr := (tr I).

(** ** Equations *)

Lemma uv_eqm n a b : vec n a -> vec n b -> uv a = uv b <-> eqm n (uv a) (uv b).
Proof. intros Ha Hb. split; [by intros ->|]. intros He. by apply (eqm_small n); [|apply uv_range..]. Qed.

(** Two equations with the same solutions. *)
Lemma eq_iff n a b l r :
  vec n a -> vec n b -> (uv a = uv b <-> uv l = uv r) -> holds (uv l =? uv r) (m_mk_eq a b).
Proof.
  intros Ha Hb Hiff. eapply (holds_val I); [by apply (vec_eq_holds I n)|].
  apply eq_true_iff_eq. by rewrite !Z.eqb_eq.
Qed.

Lemma den_mul n v w a b : den n v a -> den n w b -> den n (v * w) (mk_bv_mul a b).
Proof.
  intros Ha Hb. eapply den_ext; [apply (den_assoc I (k := OP_BMUL) n [v; w] [a; b]); [cbn; lia|constructor; [done|by constructor; [|constructor]]]|].
  cbn. by rewrite Z.mul_1_r.
Qed.

Lemma den_sub n a b : vec n a -> vec n b -> den n (uv a - uv b) (mk_bv_sub a b).
Proof. by apply (unsigned_op_means I OP_BSUB). Qed.

Lemma inverse_iff n i c x y : eqm n (i * c) 1 -> eqm n (c * x) y <-> eqm n x (i * y).
Proof.
  intros Hi. split; intros He.
  - rewrite <- He, Z.mul_assoc, Hi. by rewrite Z.mul_1_l.
  - rewrite He, Z.mul_assoc, (Z.mul_comm c), Hi. by rewrite Z.mul_1_l.
Qed.

Lemma match_coeff_ok n e c sz x :
  match_coeff e = Some (c, sz, x) -> vec n e -> sz = n /\ 0 <= c /\ vec n x /\ eqm n (uv e) (c * uv x).
Proof.
  intros Hm He. unfold match_coeff in Hm. destruct (match_binary OP_BMUL e) as [[k y]|] eqn:Hb; [|done]. cbn in Hm.
  destruct (is_numeral k) as [[v m]|] eqn:Hk; [|done]. cbn in Hm. injection Hm as -> -> ->.
  destruct (match_mul I n e k x Hb He) as (Hvk & Hvx & Hu).
  destruct (numeral_vec I _ _ _ _ Hk Hvk) as (-> & Hv & Huk). split_and!; [done|lia|by apply Hvx..|].
  by rewrite Hu, Huk.
Qed.

Section Inverse.
Context (n : nat) (i c : Z) (inverse : eqm n (i * c) 1).
Context (x lhs rhs : expr) (x_vec : vec n x) (lhs_vec : vec n lhs) (rhs_vec : vec n rhs).
Context (lhs_product : eqm n (uv lhs) (c * uv x)).

Lemma eq_inverse e : den n (i * uv rhs) e -> holds (uv lhs =? uv rhs) (m_mk_eq x e).
Proof.
  intros He. pose proof (den_vec _ _ _ _ He) as Hv. apply (eq_iff n); [done..|].
  rewrite (uv_eqm n x e), (uv_eqm n lhs rhs) by done.
  rewrite (den_uv I _ _ _ He), eqm_mod, lhs_product. symmetry. by apply inverse_iff.
Qed.

Lemma mul_eq_inverse_ok : br_holds I (uv lhs =? uv rhs) (mul_eq_inverse i n x rhs).
Proof.
  assert (0 < n)%nat as Hn by (by eapply vec_pos). unfold mul_eq_inverse.
  destruct (is_numeral rhs) as [[v m]|] eqn:Hnum.
  { destruct (numeral_vec I _ _ _ _ Hnum rhs_vec) as (-> & _ & Hu).
    eapply result_holds; [done|]. apply eq_inverse. rewrite Hu. by apply den_numeral. }
  destruct (match_coeff rhs) as [[[c2 sz] x2]|] eqn:Hm.
  - destruct (match_coeff_ok n _ _ _ _ Hm rhs_vec) as (-> & Hc2 & Hx2 & Hu).
    assert (eqm n (i * c2 * uv x2) (i * uv rhs)) as He by (by rewrite Hu, Z.mul_assoc).
    destruct (Z.eqb_spec (norm (i * c2) n false) 1) as [E|].
    + eapply result_holds; [done|]. apply eq_inverse. apply (den_eqm I); [done|]. rewrite <- He.
      rewrite norm_unsigned in E. rewrite <- (eqm_mod n (i * c2)), E. by rewrite Z.mul_1_l.
    + eapply result_holds; [done|]. apply eq_inverse. eapply (den_ext I); [|exact He].
      apply den_mul; [by apply den_numeral|by apply den_self].
  - destruct (is_add_mul_const rhs); [|done]. eapply result_holds; [done|]. apply eq_inverse.
    apply den_mul; [by apply den_numeral|by apply den_self].
Qed.
End Inverse.

Lemma first_inverse_ok n args i sz :
  Forall (vec n) args -> first_inverse args = Some (i, sz) -> sz = n /\ exists c, eqm n (i * c) 1.
Proof.
  induction 1 as [|arg args Ha _ IH]; [done|]. cbn [first_inverse].
  destruct (match_coeff arg) as [[[c2 m] x2]|] eqn:Hm; [|exact IH].
  destruct (match_coeff_ok n _ _ _ _ Hm Ha) as (-> & Hc2 & _). cbn.
  destruct (mult_inverse c2 n) as [j|] eqn:Hj; [|exact IH]. intros [= <- <-].
  split; [done|]. exists c2. by apply mult_inverse_ok.
Qed.

Lemma mk_mul_eq_ok n lhs rhs : vec n lhs -> vec n rhs -> br_holds I (uv lhs =? uv rhs) (mk_mul_eq lhs rhs).
Proof.
  intros Hl Hr. assert (0 < n)%nat as Hn by (by eapply vec_pos). unfold mk_mul_eq. apply br_else_means.
  - destruct (match_coeff lhs) as [[[c m] x]|] eqn:Hm; [|done].
    destruct (match_coeff_ok n _ _ _ _ Hm Hl) as (-> & Hc & Hx & Hu). cbn.
    destruct (mult_inverse c n) as [i|] eqn:Hi; [|done]. cbn.
    apply (mul_eq_inverse_ok n i c); try done. by apply mult_inverse_ok.
  - destruct (is_numeral lhs) as [[c m]|] eqn:Hnum; [|done].
    destruct (numeral_vec I _ _ _ _ Hnum Hl) as (-> & _ & Hu).
    destruct (is_add_mul_const rhs) eqn:Ha; [|done]. apply andb_true_iff in Ha as [Ha _].
    destruct (badd_inv I n rhs Ha Hr) as (d & args & -> & _ & Hargs & _). cbn [get_args].
    destruct (first_inverse args) as [[i sz]|] eqn:Hi; [|done].
    destruct (first_inverse_ok n _ _ _ Hargs Hi) as (-> & c2 & Hc2).
    pose proof (den_numeral I n (i * c) Hn) as D1.
    pose proof (den_mul n _ _ _ _ (den_numeral I n i Hn) (den_self I n _ Hr)) as D2.
    eapply result_holds; [done|]. apply (eq_iff n); [by eapply den_vec..|].
    rewrite (uv_eqm n (mk_numeral _ _)), (uv_eqm n lhs) by (done || by eapply den_vec).
    rewrite (den_uv I _ _ _ D1), (den_uv I _ _ _ D2), !eqm_mod, Hu.
    rewrite <- (inverse_iff n i c2) by done. rewrite Z.mul_assoc, (Z.mul_comm c2 i), Hc2. by rewrite Z.mul_1_l.
Qed.

(** ** Bits *)

Lemma bit_value_eqb v i : (v / 2 ^ Z.of_nat i) mod 2 = Z.b2z (Z.testbit v (Z.of_nat i)).
Proof. rewrite Z.testbit_spec' by lia. done. Qed.

Lemma rw_bit2bool_ok m n idx :
  vec m n -> (idx < m)%nat ->
  br_holds I (nth idx (bits (eval I n)) false) (rw_bit2bool n idx).
Proof.
  intros Hn Hi. unfold rw_bit2bool. destruct (is_mkbv n) eqn:Hm.
  - destruct (mkbv_inv I n Hm (proj1 Hn)) as (Hargs & -> & Hs).
    assert (m = length (get_args n)) as -> by (destruct Hn as [_ Hn]; congruence).
    eapply result_holds; [done|]. cbn [bits].
    replace (get_arg n idx) with (nth idx (get_args n) m_false) by (by destruct n).
    rewrite (nth_indep _ _ (tr m_false)), map_nth by (by rewrite length_map).
    apply holds_self. rewrite Forall_forall in Hargs. apply Hargs. rewrite list_elem_of_In. by apply nth_In.
  - destruct (is_numeral n) as [[v sz]|] eqn:Hnum; [|done].
    destruct (numeral_vec I _ _ _ _ Hnum Hn) as (-> & _ & Hu).
    destruct (Nat.leb_spec m idx); [lia|]. eapply result_holds; [done|].
    eapply (holds_val I); [apply bool_val_holds|]. rewrite bit_value_eqb, (bits_uv I m n Hn), Hu, nth_bits_of.
    rewrite (proj2 (Nat.ltb_lt _ _)), andb_true_r by done. by destruct (Z.testbit _ _).
Qed.

Lemma bools_val_ok args :
  Forall (fun e => wfb e = true) args -> forallb (fun arg => is_true arg || is_false arg) args = true ->
  bools_val args = uval (map tr args).
Proof.
  induction 1 as [|a args Ha _ IH]; [done|]. cbn [forallb bools_val map uval].
  intros [Ht Hargs]%andb_true_iff. rewrite IH by done.
  destruct (is_true a) eqn:E; [apply is_true_spec in E as ->; change (tr m_true) with true; cbn [Z.b2z]; lia|].
  cbn [orb] in Ht. apply is_false_spec in Ht as ->. change (tr m_false) with false. cbn [Z.b2z]. lia.
Qed.

Lemma mk_mkbv_means args :
  args <> [] -> Forall (fun e => wfb e = true) args ->
  br_means I (BvSort (length args)) (VBv (map tr args)) (mk_mkbv p args).
Proof.
  intros Hne Ha. unfold mk_mkbv. destruct (m_mkbv2num p); [|done]. destruct (forallb _ _) eqn:Hb; [|done].
  cbn [br_means]. rewrite bools_val_ok by done.
  rewrite <- (bits_of_uval (length args) (map tr args)) at 1 by (by rewrite length_map).
  apply den_numeral. destruct args; [done|cbn; lia].
Qed.

(** A bit is 0 or 1. *)
Lemma one_bit a : vec 1 a -> uv a = 0 \/ uv a = 1.
Proof. intros Ha%(uv_range I). change (pow2 1) with 2 in Ha. lia. Qed.

Lemma eqs_holds bit1 args :
  vec 1 bit1 -> uv bit1 = 1 -> Forall (vec 1) args ->
  Forall (fun e => wfb e = true) (map (fun arg => m_mk_eq arg bit1) args)
  /\ map tr (map (fun arg => m_mk_eq arg bit1) args) = map (fun a => uv a =? 1) args.
Proof.
  intros Hb H1 Ha. induction Ha as [|a args Ha _ [IHw IHt]]; [by split|]. cbn [map].
  destruct (vec_eq_holds I 1 a bit1 Ha Hb) as [Hw Ht]. rewrite IHt, Ht, H1. by repeat constructor.
Qed.

Lemma existsb_values {A} (f : A -> bool) l : existsb (fun b => b) (map f l) = existsb f l.
Proof. induction l as [|a l IH]; [done|]. cbn. by rewrite IH. Qed.

Lemma ors_bit args : Forall (vec 1) args -> foldr Z.lor 0 (map uv args) = Z.b2z (existsb (fun b => b) (map (fun a => uv a =? 1) args)).
Proof. induction 1 as [|a args Ha _ IH]; [done|]. cbn [map foldr existsb]. rewrite IH. by destruct (one_bit a Ha) as [-> | ->], (existsb _ _). Qed.

Lemma xors_bit args : Forall (vec 1) args -> foldr Z.lxor 0 (map uv args) = Z.b2z (foldr xorb false (map (fun a => uv a =? 1) args)).
Proof. induction 1 as [|a args Ha _ IH]; [done|]. cbn [map foldr]. rewrite IH. generalize (foldr xorb false (map (fun a => uv a =? 1) args)). intros []; by destruct (one_bit a Ha) as [-> | ->]. Qed.

Lemma holds_xor args : Forall (fun e => wfb e = true) args -> holds (foldr xorb false (map tr args)) (m_mk_xor args).
Proof.
  intros Ha. destruct (wf_all_bool args Ha) as [Hs Hw]. split.
  - apply wfb_spec. split; [|done]. unfold m_mk_xor. rewrite wf_app. cbn. by rewrite Hs.
  - unfold AstFacts.tr. cbn. by rewrite map_map.
Qed.

(** A formula, or its negation, as the bit of an operator is 1 or 0. *)
Lemma bit_side (b : bool) (v : Z) lhs f :
  (v = 0 \/ v = 1) -> uv lhs = Z.b2z b -> holds b f ->
  br_holds I (uv lhs =? v) (if v =? 1 then BR_REWRITE2 f else BR_REWRITE3 (m_mk_not f)).
Proof.
  intros Hv -> Hf. destruct Hv as [-> | ->].
  - apply (result_holds _ _ (m_mk_not f)); [done|]. eapply (holds_val I); [by apply holds_not|]. by destruct b.
  - apply (result_holds _ _ f); [done|]. eapply (holds_val I); [exact Hf|]. by destruct b.
Qed.

Lemma bit_eq_ops_ok lhs rhs v :
  vec 1 lhs -> is_numeral rhs = Some (v, 1%nat) -> vec 1 rhs -> br_holds I (uv lhs =? v) (bit_eq_ops lhs rhs v).
Proof.
  intros Hl Hnum Hr. destruct (numeral_vec I _ _ _ _ Hnum Hr) as (_ & Hv & Hu). change (pow2 1) with 2 in Hv.
  assert (v = 0 \/ v = 1) as Hv01 by lia. unfold bit_eq_ops.
  set (bit1 := if v =? 1 then rhs else mk_numeral 1 1).
  assert (vec 1 bit1 /\ uv bit1 = 1) as [Hb1 Hu1].
  { pose proof (den_numeral I 1 1 ltac:(lia)) as Hd. unfold bit1. destruct (Z.eqb_spec v 1) as [->|]; [done|].
    split; [by eapply den_vec|]. by rewrite (den_uv I _ _ _ Hd). }
  destruct (is_bv_not lhs) eqn:Hn.
  { destruct (not_bv_inv I lhs Hn (proj1 Hl)) as (m & d & a & -> & Ha & Hm & Hd).
    assert (m = 1%nat) as -> by (by eapply vec_width). cbn [get_arg get_args nth].
    eapply result_holds; [done|].
    pose proof (den_numeral I 1 (1 - v) ltac:(lia)) as Hd1. eapply (holds_val I);
      [apply (vec_eq_holds I 1); [done|by eapply den_vec]|].
    rewrite (den_uv I _ _ _ Hd1), (den_uv I _ _ _ Hd). by destruct (one_bit a Ha) as [-> | ->], Hv01 as [-> | ->]. }
  assert (forall k, is_app_of lhs (Bv k) = true -> forall g u, AssocOp k g u ->
    Forall (vec 1) (get_args lhs) /\ uv lhs = foldr g u (map uv (get_args lhs)) mod 2) as Hops.
  { intros k Hk g u Hop. destruct (assoc_inv I lhs Hk (proj1 Hl)) as (m & d & args & -> & _ & Hm & _ & Hargs & Hd).
    assert (m = 1%nat) as -> by (by eapply vec_width). split; [done|]. by rewrite (den_uv I _ _ _ Hd). }
  destruct (is_bv_or lhs) eqn:Ho.
  { destruct (Hops _ Ho _ _ _) as [Hargs Hul]. rewrite ors_bit in Hul by done.
    destruct (eqs_holds bit1 _ Hb1 Hu1 Hargs) as [Hw Ht].
    apply (bit_side (existsb (fun b => b) (map (fun a => uv a =? 1) (get_args lhs)))); [done| |].
    - rewrite Hul. by destruct (existsb _ _).
    - rewrite <- Ht, existsb_values. by apply holds_or. }
  destruct (is_bv_xor lhs) eqn:Hx; [|done].
  destruct (Hops _ Hx _ _ _) as [Hargs Hul]. rewrite xors_bit in Hul by done.
  destruct (eqs_holds bit1 _ Hb1 Hu1 Hargs) as [Hw Ht].
  apply (bit_side (foldr xorb false (map (fun a => uv a =? 1) (get_args lhs)))); [done| |].
  - rewrite Hul. by destruct (foldr _ _ _).
  - rewrite <- Ht. by apply holds_xor.
Qed.

Lemma swap_numeral (l r l' r' : expr) (num : bool) n :
  vec n l -> vec n r -> (if num then (r, l) else (l, r)) = (l', r') ->
  vec n l' /\ vec n r' /\ (uv l =? uv r) = (uv l' =? uv r').
Proof. intros Hl Hr. destruct num; intros [= <- <-]; [|done]. split_and!; try done. apply Z.eqb_sym. Qed.

Lemma both_numerals n a b :
  vec n a -> vec n b -> is_num a = true -> is_num b = true -> bool_decide (a = b) = (uv a =? uv b).
Proof.
  intros Ha Hb Hna Hnb. destruct (Z.eqb_spec (uv a) (uv b)) as [E|E].
  - apply bool_decide_eq_true. by apply (numeral_eq I n).
  - apply bool_decide_eq_false. congruence.
Qed.

Lemma bit_eq_ok n lhs rhs : vec n lhs -> vec n rhs -> br_holds I (uv lhs =? uv rhs) (bit_eq lhs rhs).
Proof.
  intros Hl Hr. unfold bit_eq. rewrite (vec_size n) by done. destruct (Nat.eqb_spec n 1) as [->|]; [|done]. cbn [negb].
  destruct (if is_num lhs then (rhs, lhs) else (lhs, rhs)) as [l r] eqn:Hs.
  destruct (swap_numeral _ _ _ _ _ _ Hl Hr Hs) as (Hl' & Hr' & ->). clear Hs.
  destruct (is_numeral r) as [[v m]|] eqn:Hnum; [|done].
  destruct (numeral_vec I _ _ _ _ Hnum Hr') as (-> & _ & Hu).
  destruct (is_num l) eqn:Hnl.
  { eapply result_holds; [done|]. eapply (holds_val I); [apply bool_val_holds|].
    apply (both_numerals 1); [done..|]. by eapply is_numeral_bv_num. }
  destruct (is_ite l) eqn:Hi; [|rewrite Hu; by apply bit_eq_ops_ok].
  destruct (ite_inv I l Hi (proj1 Hl')) as (d & c & t & e & -> & Hc & Ht & He & Hst & Hse & Hev).
  cbn [get_arg get_args nth]. destruct Hl' as [Hwl Hsl]. rewrite Hsl in Hst, Hse.
  eapply result_holds; [done|].
  eapply (holds_val I); [apply (holds_ite I); [by apply holds_self|by apply (vec_eq_holds I 1)..]|].
  unfold BvFacts.uv. rewrite Hev. by destruct (AstFacts.tr I c).
Qed.

Lemma mk_blast_eq_value_ok n lhs rhs :
  vec n lhs -> vec n rhs -> br_holds I (uv lhs =? uv rhs) (mk_blast_eq_value lhs rhs).
Proof.
  intros Hl Hr. unfold mk_blast_eq_value. destruct (Nat.eqb _ 1); [done|].
  destruct (if is_num lhs then (rhs, lhs) else (lhs, rhs)) as [l r] eqn:Hs.
  destruct (swap_numeral _ _ _ _ _ _ Hl Hr Hs) as (Hl' & Hr' & ->). clear Hs.
  destruct (is_numeral r) as [[v m]|] eqn:Hnum; [|done].
  destruct (numeral_vec I _ _ _ _ Hnum Hr') as (-> & Hv & Hu). destruct (_ && _ && _); [done|].
  pose proof (uv_range I n l Hl') as Hb. eapply result_holds; [done|].
  set (bit_of := fun i => m_mk_eq (mk_bv_extract i i l) (mk_numeral (v / 2 ^ Z.of_nat i mod 2) 1)).
  assert (forall i, (i < n)%nat -> holds (Bool.eqb (Z.testbit (uv l) (Z.of_nat i)) (Z.testbit v (Z.of_nat i))) (bit_of i)) as Hbit.
  { intros i Hi. pose proof (den_extract_vec I n i i l Hl' ltac:(lia)) as D1.
    replace (S i - i)%nat with 1%nat in D1 by lia. pose proof (den_numeral I 1 (v / 2 ^ Z.of_nat i mod 2) ltac:(lia)) as D2.
    eapply (holds_val I); [by eapply (eq_den I 1)|]. rewrite bit_value_eqb. change (pow2 1) with 2.
    unfold pow2. rewrite bit_value_eqb. by destruct (Z.testbit (uv l) _), (Z.testbit v _). }
  eapply (holds_val I).
  - apply holds_and, Forall_map, Forall_forall. intros i [_ Hi]%elem_of_seq. by eapply holds_wfb, Hbit.
  - rewrite Hu. apply eq_true_iff_eq. rewrite Z.eqb_eq, forallb_forall. split.
    + intros Hall. apply (bits_eq n); [done..|]. intros j Hj. destruct (Hbit j Hj) as [_ Ht].
      apply eqb_prop. rewrite <- Ht. apply Hall, in_map_iff. exists j. split; [done|]. apply in_seq. lia.
    + intros Heq x (j & <- & Hj%in_seq)%in_map_iff. destruct (Hbit j ltac:(lia)) as [_ ->]. rewrite Heq. apply eqb_reflx.
Qed.

(** ** Concatenations *)

(** The value of the pieces, the lowest first. *)
Fixpoint lowcat (es : list expr) : Z :=
  match es with [] => 0 | e :: es => lowcat es * pow2 (get_bv_size e) + uv e end.

Lemma lowcat_snoc es e : lowcat (es ++ [e]) = uv e * pow2 (width es) + lowcat es.
Proof.
  induction es as [|a es IH]; cbn [app lowcat]; [change (width []) with 0%nat; rewrite pow2_0; lia|].
  rewrite IH, width_cons, pow2_add. ring.
Qed.

Lemma lowcat_rev es : lowcat (rev es) = catv I es.
Proof.
  induction es as [|a es IH]; [done|]. cbn [rev]. rewrite lowcat_snoc, IH. cbn [catv].
  assert (forall l, width (rev l) = width l) as ->; [|done].
  induction l as [|b l IHl]; [done|]. cbn [rev]. rewrite width_app, IHl, width_one, width_cons. lia.
Qed.

Lemma piece_ok a es low len :
  bvec a -> (0 < len)%nat -> (low + len <= get_bv_size a)%nat ->
  den len (lowcat (a :: es) / pow2 low) (mk_bv_extract (len + low - 1) low a).
Proof.
  intros Ha Hl Hs. replace len with (S (len + low - 1) - low)%nat at 1 by lia.
  eapply (den_ext I); [apply (den_extract_vec I (get_bv_size a)); [done|lia]|].
  apply (eqm_div _ _ (get_bv_size a)); [lia|]. symmetry. apply eqm_low.
Qed.

Lemma whole_div a es : bvec a -> lowcat (a :: es) / pow2 (get_bv_size a) = lowcat es / pow2 0.
Proof.
  intros Ha. cbn [lowcat]. pose proof (uv_range I _ a Ha). rewrite pow2_0, Z.div_1_r, Z.div_add_l, Z.div_small by lia. lia.
Qed.

Lemma eqb_split m x y : 0 < m -> (x =? y) = (x mod m =? y mod m) && (x / m =? y / m).
Proof.
  intros Hm. apply eq_true_iff_eq. rewrite andb_true_iff, !Z.eqb_eq. split; [by intros ->|].
  intros [H1 H2]. rewrite (Z.div_mod x m), (Z.div_mod y m) by lia. congruence.
Qed.

(** The formulas together say that the numbers are equal. *)
Definition says (fs : list expr) (x y : Z) : Prop :=
  Forall (fun e => wfb e = true) fs /\ forallb tr fs = (x =? y).

Lemma says_piece a b es1 es2 low1 low2 len fs :
  bvec a -> bvec b -> (0 < len)%nat -> (low1 + len <= get_bv_size a)%nat -> (low2 + len <= get_bv_size b)%nat ->
  says fs (lowcat (a :: es1) / pow2 (low1 + len)) (lowcat (b :: es2) / pow2 (low2 + len)) ->
  says (m_mk_eq (mk_bv_extract (len + low1 - 1) low1 a) (mk_bv_extract (len + low2 - 1) low2 b) :: fs)
    (lowcat (a :: es1) / pow2 low1) (lowcat (b :: es2) / pow2 low2).
Proof.
  intros Ha Hb Hl H1 H2 [Hw Ht]. pose proof (piece_ok a es1 low1 len Ha Hl H1) as D1.
  pose proof (piece_ok b es2 low2 len Hb Hl H2) as D2. destruct (eq_den I _ _ _ _ _ D1 D2) as [Hwe Hte].
  pose proof (pow2_pos low1). pose proof (pow2_pos low2). pose proof (pow2_pos len).
  split; [by constructor|]. cbn [forallb]. rewrite Hte, Ht.
  rewrite (eqb_split (pow2 len) (lowcat (a :: es1) / pow2 low1)) by done.
  by rewrite !pow2_add, !Z.div_div by lia.
Qed.

Definition low_ok (low : nat) (args : list expr) : Prop :=
  match args with [] => low = 0%nat | a :: _ => (low < get_bv_size a)%nat end.

Lemma low_ok_start args : Forall bvec args -> low_ok 0 args.
Proof. destruct 1 as [|a args Ha _]; [done|]. by eapply vec_pos. Qed.

Lemma concat_eqs_ok fuel low1 low2 args1 args2 :
  Forall bvec args1 -> Forall bvec args2 -> low_ok low1 args1 -> low_ok low2 args2 ->
  (width args1 + low2 = width args2 + low1)%nat -> (length args1 + length args2 <= fuel)%nat ->
  says (concat_eqs fuel low1 low2 args1 args2) (lowcat args1 / pow2 low1) (lowcat args2 / pow2 low2).
Proof.
  revert low1 low2 args1 args2. induction fuel as [|fuel IH]; intros low1 low2 args1 args2 H1 H2 L1 L2 Hw Hf.
  { destruct args1, args2; cbn [length] in Hf; try lia. cbn in L1, L2. subst. by split. }
  destruct args1 as [|a es1], args2 as [|b es2]; cbn [low_ok] in L1, L2.
  - subst. by split.
  - subst. rewrite width_cons in Hw. change (width []) with 0%nat in Hw. lia.
  - subst. rewrite width_cons in Hw. change (width []) with 0%nat in Hw. lia.
  - pose proof H1 as [Ha Hes1]%Forall_cons. pose proof H2 as [Hb Hes2]%Forall_cons. rewrite !width_cons in Hw.
    cbn [length] in Hf. cbn [concat_eqs]. set (sz1 := get_bv_size a) in *. set (sz2 := get_bv_size b) in *.
    pose proof (whole_div a es1 Ha) as W1. pose proof (whole_div b es2 Hb) as W2. fold sz1 in W1. fold sz2 in W2.
    destruct (Nat.eqb_spec (sz1 - low1) (sz2 - low2)) as [E|E]; [|destruct (Nat.ltb_spec (sz1 - low1) (sz2 - low2))].
    + replace (sz1 - 1)%nat with (sz1 - low1 + low1 - 1)%nat by lia.
      replace (sz2 - 1)%nat with (sz1 - low1 + low2 - 1)%nat by lia. apply says_piece; try done; try lia.
      replace (low1 + (sz1 - low1))%nat with sz1 by lia. replace (low2 + (sz1 - low1))%nat with sz2 by lia.
      rewrite W1, W2. apply IH; try done; try lia; by apply low_ok_start.
    + replace (sz1 - 1)%nat with (sz1 - low1 + low1 - 1)%nat by lia. apply says_piece; try done; try lia.
      replace (low1 + (sz1 - low1))%nat with sz1 by lia.
      rewrite W1. apply IH; try done; cbn [length]; rewrite ?width_cons; try (by apply low_ok_start); cbn [low_ok]; fold sz2; lia.
    + replace (sz2 - 1)%nat with (sz2 - low2 + low2 - 1)%nat by lia. apply says_piece; try done; try lia.
      replace (low2 + (sz2 - low2))%nat with sz2 by lia.
      rewrite W2. apply IH; try done; cbn [length]; rewrite ?width_cons; try (by apply low_ok_start); cbn [low_ok]; fold sz1; lia.
Qed.

Lemma concat_args_ok n e : vec n e -> Forall bvec (concat_args e) /\ width (concat_args e) = n /\ catv I (concat_args e) = uv e.
Proof.
  intros He. unfold concat_args. destruct (is_concat e) eqn:Hc.
  - destruct (concat_inv I e Hc (proj1 He)) as (d & args & -> & _ & Hargs & _ & Hv & Hu & _).
    split_and!; [done|by eapply vec_width|done].
  - rewrite width_one, catv_one, (vec_size n) by done. split_and!; [|done..].
    apply Forall_cons. split; [by eapply vec_bvec|constructor].
Qed.

Lemma width_rev es : width (rev es) = width es.
Proof. induction es as [|a es IH]; [done|]. cbn [rev]. rewrite width_app, IH, width_one, width_cons. lia. Qed.

Lemma mk_eq_concat_ok n lhs rhs : vec n lhs -> vec n rhs -> br_holds I (uv lhs =? uv rhs) (mk_eq_concat lhs rhs).
Proof.
  intros Hl Hr. destruct (concat_args_ok n lhs Hl) as (Hb1 & Hw1 & Hc1), (concat_args_ok n rhs Hr) as (Hb2 & Hw2 & Hc2).
  unfold mk_eq_concat. set (args1 := rev (concat_args lhs)). set (args2 := rev (concat_args rhs)).
  assert (Forall bvec args1 /\ Forall bvec args2) as [H1 H2] by (split; by apply Forall_rev).
  destruct (concat_eqs_ok (length args1 + length args2) 0 0 args1 args2) as [Hw Ht]; try done.
  - by apply low_ok_start.
  - by apply low_ok_start.
  - unfold args1, args2. rewrite !width_rev. lia.
  - eapply result_holds; [done|]. eapply (holds_val I); [by apply holds_and|]. rewrite Ht.
    unfold args1, args2. by rewrite !lowcat_rev, Hc1, Hc2, pow2_0, !Z.div_1_r.
Qed.

(** ** Sums *)

Lemma sum_of_two n d t1 rest :
  vec n (App d (t1 :: rest)) -> is_bv_add (App d (t1 :: rest)) = true ->
  let t2 := match rest with [t2] => t2 | _ => bv_app OP_BADD [] rest end in
  vec n t1 /\ vec n t2 /\ eqm n (uv (App d (t1 :: rest))) (uv t1 + uv t2).
Proof.
  intros Hv Ha t2. destruct (badd_inv I n _ Ha Hv) as (d' & args & [= <- <-] & Hl & Hargs & Hu).
  apply Forall_cons in Hargs as [Ht1 Hrest]. cbn [length] in Hl. split; [done|].
  assert (den n (sumZ (map uv rest)) t2) as D2.
  { unfold t2. destruct rest as [|x [|y rest]]; [cbn in Hl; lia| |].
    - apply Forall_cons in Hrest as [Hx _]. cbn. rewrite Z.add_0_r. by apply den_self.
    - apply (den_assoc I (k := OP_BADD)); [cbn; lia|]. by apply den_selfs. }
  split; [by eapply den_vec|]. rewrite Hu. cbn [map sumZ foldr]. rewrite (den_uv I _ _ _ D2). by rewrite eqm_mod.
Qed.

Lemma isolate_term_ok n lhs rhs r :
  vec n lhs -> vec n rhs -> isolate_term lhs rhs = Some r -> holds (uv lhs =? uv rhs) r.
Proof.
  intros Hl Hr. unfold isolate_term.
  assert (exists l' r', (if negb (is_num lhs) || negb (is_bv_add rhs) then (rhs, lhs) else (lhs, rhs)) = (l', r')
    /\ vec n l' /\ vec n r' /\ (uv lhs =? uv rhs) = (uv l' =? uv r')) as (l' & r' & -> & Hl' & Hr' & ->).
  { destruct (_ || _); eexists _, _; split_and!; try done. apply Z.eqb_sym. }
  destruct (negb (is_num l') || negb (is_bv_add r')) eqn:Hc; [done|].
  apply orb_false_iff in Hc as [_ Ha%negb_false_iff].
  destruct r' as [|d [|t1 rest]]; cbn [get_args]; try done. intros [= <-].
  destruct (sum_of_two n d t1 rest Hr' Ha) as (H1 & H2 & Hu). cbv zeta in *. set (t2 := match rest with [t2] => _ | _ => _ end) in *.
  assert (forall x y, vec n x -> vec n y -> eqm n (uv (App d (t1 :: rest))) (uv x + uv y) ->
    holds (uv l' =? uv (App d (t1 :: rest))) (m_mk_eq x (mk_bv_sub l' y))) as Hside.
  { intros x y Hx Hy Hxy. pose proof (den_sub n l' y Hl' Hy) as D. pose proof (den_vec _ _ _ _ D) as Hv.
    apply (eq_iff n); [done..|]. rewrite (uv_eqm n x), (uv_eqm n l') by done.
    rewrite (den_uv I _ _ _ D), eqm_mod, Hxy. split; intros He.
    - rewrite He. by replace (uv l' - uv y + uv y) with (uv l') by lia.
    - rewrite He. by replace (uv x + uv y - uv y) with (uv x) by lia. }
  unfold mk_t1_add_t2_eq_c. destruct (is_minus_one_times_t t1); apply Hside; try done. by rewrite Hu, Z.add_comm.
Qed.

Lemma arith_eq_ok n lhs rhs : vec n lhs -> vec n rhs -> br_holds I (uv lhs =? uv rhs) (arith_eq p lhs rhs).
Proof.
  intros Hl Hr. assert (0 < n)%nat as Hn by (by eapply vec_pos). unfold arith_eq. destruct (_ || _); [|done].
  rewrite (vec_size n) by done.
  assert (exists l r c, default (lhs, rhs) (cancel_monomials n lhs rhs) = (l, r)
    /\ match cancel_monomials n lhs rhs with Some _ => true | None => false end = c
    /\ vec n l /\ vec n r /\ (uv lhs =? uv rhs) = (uv l =? uv r)) as (l & r & c & -> & -> & Hl' & Hr' & ->).
  { destruct (cancel_monomials n lhs rhs) as [[l r]|] eqn:Hc; eexists _, _, _; cbn; split_and!; try done;
      destruct (cancel_monomials_ok I (fun _ => 0) n Hn _ _ _ _ Hl Hr Hc) as (? & ? & Hiff); try done.
    apply eq_true_iff_eq. by rewrite !Z.eqb_eq. }
  destruct (c && is_num l && is_num r) eqn:Hnum.
  { apply andb_true_iff in Hnum as [[_ Hnl]%andb_true_iff Hnr]. eapply result_holds; [done|].
    eapply (holds_val I); [apply bool_val_holds|]. by apply (both_numerals n). }
  destruct (isolate_term l r) as [res|] eqn:Hi; [eapply result_holds; [done|by eapply isolate_term_ok]|].
  destruct (is_concat_target p l r); [by apply (mk_eq_concat_ok n)|]. destruct c; [|done].
  eapply result_holds; [done|]. by apply (vec_eq_holds I n).
Qed.

(** ** Remainders *)

Lemma urem_any_ok n e a b :
  is_urem_any e = Some (a, b) -> vec n e -> vec n a /\ vec n b /\ den n (uv a mod uv b) e.
Proof.
  intros Hm He. assert (exists k, match_binary k e = Some (a, b) /\ bv_binary k = Some (unsigned_op Z.modulo)) as (k & Hk & Hf).
  { unfold is_urem_any in Hm. destruct (match_binary OP_BUREM e) eqn:E; [exists OP_BUREM|exists OP_BUREM_I]; by simplify_eq. }
  apply match_binary_spec in Hk as (d & -> & Hk).
  destruct (binary_inv I d [a; b] k _ Hk Hf (proj1 He)) as (m & a' & b' & [= <- <-] & Ha & Hb & Hr & Hev).
  assert (m = n) as -> by (destruct He as [_ He]; cbn in He; congruence). do 2 (split; [done|]).
  apply vec_means; [done|]. rewrite Hev. unfold unsigned_op. destruct (vec_bits I n a Ha) as [_ ->]. done.
Qed.

Lemma urem_solved x d r m :
  0 <= x < m -> 0 <= d -> 0 <= r < m -> (d = 0 \/ r < d) -> m <= d + r -> x mod d = r <-> x = r.
Proof.
  intros Hx Hd Hr Hc Hm. destruct (Z.eq_dec d 0) as [->|]; [by rewrite Z.mod_0_r|].
  split; [|intros ->; apply Z.mod_small; lia]. intros <-.
  pose proof (Z.div_mod x d ltac:(lia)). assert (0 <= x / d) by (apply Z.div_pos; lia).
  destruct (Z.eq_dec (x / d) 0) as [E|]; [rewrite E in *; lia|nia].
Qed.

Lemma urem_eq_ok n lhs rhs : vec n lhs -> vec n rhs -> br_holds I (uv lhs =? uv rhs) (urem_eq lhs rhs).
Proof.
  intros Hl Hr. unfold urem_eq. destruct (is_urem_any lhs) as [[x y]|] eqn:Hu; [|done]. cbn.
  destruct (urem_any_ok n _ _ _ Hu Hl) as (Hx & Hy & D).
  destruct (is_numeral rhs) as [[r m]|] eqn:Hnr; [|done]. destruct (numeral_vec I _ _ _ _ Hnr Hr) as (-> & Hbr & Hur). cbn.
  destruct (is_numeral y) as [[d m]|] eqn:Hny; [|done]. destruct (numeral_vec I _ _ _ _ Hny Hy) as (-> & Hbd & Hud). cbn.
  fold (pow2 n). pose proof (uv_range I n x Hx) as Hbx. rewrite Hud in D.
  assert (uv lhs = uv x mod d) as El.
  { rewrite (den_uv I _ _ _ D). destruct (Z.eq_dec d 0) as [->|]; [rewrite Z.mod_0_r; by apply Z.mod_small|].
    pose proof (Z.mod_pos_bound (uv x) d ltac:(lia)). apply Z.mod_small. lia. }
  destruct (negb (d =? 0) && (d <=? r)) eqn:Hc.
  - apply andb_true_iff in Hc as [Hd%negb_true_iff%Z.eqb_neq Hdr%Z.leb_le]. eapply result_holds; [done|].
    eapply (holds_val I); [apply holds_false|]. pose proof (Z.mod_pos_bound (uv x) d ltac:(lia)). lia.
  - destruct (Z.leb_spec (pow2 n) (d + r)); [|done]. eapply result_holds; [done|]. apply (eq_iff n); [done..|].
    rewrite El, Hur. symmetry. apply (urem_solved _ _ _ (pow2 n)); lia.
Qed.

(** ** All the rules for equations *)

Lemma rw_eq_ok n lhs rhs : vec n lhs -> vec n rhs -> br_holds I (uv lhs =? uv rhs) (rw_eq p lhs rhs).
Proof.
  intros Hl Hr. unfold rw_eq. case_bool_decide as Heq.
  { subst rhs. eapply result_holds; [done|]. eapply (holds_val I); [apply holds_true|]. symmetry. apply Z.eqb_refl. }
  destruct (is_num lhs && is_num rhs) eqn:Hnum.
  { apply andb_true_iff in Hnum as [Hnl Hnr]. eapply result_holds; [done|]. eapply (holds_val I); [apply holds_false|].
    rewrite <- (both_numerals n) by done. symmetry. by apply bool_decide_eq_false. }
  destruct (if is_num lhs then (rhs, lhs) else (lhs, rhs)) as [l r] eqn:Hs.
  destruct (swap_numeral _ _ _ _ _ _ Hl Hr Hs) as (Hl' & Hr' & E).
  clear Hs. rewrite E. clear E Heq.
  apply br_else_means; [destruct (m_bit2bool p); [by apply (bit_eq_ok n)|done]|].
  apply br_else_means; [by apply (mk_mul_eq_ok n)|].
  apply br_else_means; [rewrite Z.eqb_sym; by apply (mk_mul_eq_ok n)|].
  apply br_else_means; [destruct (m_blast_eq_value p); [by apply (mk_blast_eq_value_ok n)|done]|].
  apply br_else_means; [by apply (urem_eq_ok n)|]. apply br_else_means; [by apply (arith_eq_ok n)|].
  destruct (is_concat_target p l r); [by apply (mk_eq_concat_ok n)|].
  destruct (is_num lhs); [|done]. eapply result_holds; [done|]. by apply (vec_eq_holds I n).
Qed.

(** ** If-then-else *)

Section Ite.
Context (n : nat) (lhs rhs t e : expr) (t_vec : vec n t) (e_vec : vec n e).
Local Abbreviation choice := (if uv lhs =? uv rhs then eval I t else eval I e).
Local Abbreviation choice_v := (if uv lhs =? uv rhs then uv t else uv e).

Lemma choice_den r : den n choice_v r -> means I (BvSort n) choice r.
Proof.
  intros Hd. apply vec_means; [by eapply den_vec|].
  assert (forall a, vec n a -> den n (uv a) r -> eval I r = eval I a) as Ha.
  { intros a Ha Hda. apply (vec_eq I n); [by eapply den_vec|done|]. eapply den_uv_small; [exact Hda|by apply uv_range]. }
  destruct (uv lhs =? uv rhs); by apply Ha.
Qed.

Lemma choice_br b : br_den I n choice_v b -> br_means I (BvSort n) choice b.
Proof. destruct b; cbn; try done; apply choice_den. Qed.

Lemma ite_same_sides :
  (are_equal lhs t && are_equal rhs e) || (are_equal lhs e && are_equal rhs t) = true ->
  means I (BvSort n) choice e.
Proof.
  unfold are_equal. rewrite orb_true_iff, !andb_true_iff, !bool_decide_eq_true. intros Hs. apply choice_den, (den_eqm I); [done|].
  destruct Hs as [[<- <-]|[<- <-]]; destruct (Z.eqb_spec (uv lhs) (uv rhs)) as [E|]; by rewrite ?E.
Qed.
End Ite.

Lemma bit_ite n lhs rhs t e rhs_n t_n e_n t_sz :
  vec n t -> vec n e -> vec 1 lhs -> vec 1 rhs -> t <> e ->
  is_numeral rhs = Some (rhs_n, 1%nat) -> is_numeral t = Some (t_n, t_sz) -> is_numeral e = Some (e_n, t_sz) ->
  br_means I (BvSort n) (if uv lhs =? uv rhs then eval I t else eval I e)
    (if Nat.eqb t_sz 1 then BR_REWRITE1 (if are_equal rhs t then lhs else mk_bv_not lhs)
     else if (rhs_n =? 1) && (t_n =? 1) && (e_n =? 0) then mk_zero_extend (t_sz - 1) lhs
     else if (rhs_n =? 0) && (t_n =? 1) && (e_n =? 0) then mk_zero_extend (t_sz - 1) (mk_bv_not lhs)
     else if (rhs_n =? 0) && (t_n =? 0) && (e_n =? 1) then mk_zero_extend (t_sz - 1) lhs
     else if (rhs_n =? 1) && (t_n =? 0) && (e_n =? 1) then mk_zero_extend (t_sz - 1) (mk_bv_not lhs)
     else BR_FAILED).
Proof.
  intros t_vec e_vec Hl Hr Hte Hnr Hnt Hne. pose proof (vec_pos _ _ t_vec) as Hn.
  destruct (numeral_vec I _ _ _ _ Hnr Hr) as (_ & _ & Hur). destruct (numeral_vec I _ _ _ _ Hnt t_vec) as (-> & Hbt & Hut).
  destruct (numeral_vec I _ _ _ _ Hne e_vec) as (_ & Hbe & Hue).
  pose proof (den_not I 1 _ _ (den_self I 1 lhs Hl)) as Dn. pose proof (den_vec _ _ _ _ Dn) as Hvn.
  assert (uv (mk_bv_not lhs) = 1 - uv lhs) as Hun by (rewrite (den_uv I _ _ _ Dn); by destruct (one_bit lhs Hl) as [-> | ->]).
  assert (t_n <> e_n) as Hne'.
  { intros E. apply Hte. apply (numeral_eq I n); try done; [by eapply is_numeral_bv_num..|congruence]. }
  destruct (Nat.eqb_spec n 1) as [->|Hn1].
  - change (pow2 1) with 2 in *. unfold are_equal.
    assert (bool_decide (rhs = t) = (uv rhs =? uv t)) as -> by (apply (both_numerals 1); try done; by eapply is_numeral_bv_num).
    apply (choice_br 1 lhs rhs t e t_vec e_vec), (den_eqm I 1); [by destruct (_ =? _)|].
    assert (uv t <> uv e) as Hd by congruence. clear -Hl Hr t_vec e_vec Hun Hd.
    assert (forall x y : Z, x = y -> eqm 1 x y) as Heqm by (by intros x y ->). apply Heqm.
    assert (forall b : bool, uv (if b then lhs else mk_bv_not lhs) = if b then uv lhs else 1 - uv lhs) as -> by (by intros []).
    destruct (one_bit lhs Hl), (one_bit rhs Hr), (one_bit t t_vec), (one_bit e e_vec);
      destruct (Z.eqb_spec (uv rhs) (uv t)), (Z.eqb_spec (uv lhs) (uv rhs)); lia.
  - assert (forall x, vec 1 x -> uv x = (if uv lhs =? uv rhs then uv t else uv e) ->
      br_means I (BvSort n) (if uv lhs =? uv rhs then eval I t else eval I e) (mk_zero_extend (n - 1) x)) as Hext.
    { intros x Hx Hux. apply (choice_br n lhs rhs t e t_vec e_vec). rewrite <- Hux. replace n with (1 + (n - 1))%nat at 1 by lia.
      by apply mk_zero_extend_ok. }
    assert (forall i j k x, (rhs_n =? i) && (t_n =? j) && (e_n =? k) = true -> vec 1 x ->
      uv x = (if uv lhs =? i then j else k) -> br_means I (BvSort n) (if uv lhs =? uv rhs then eval I t else eval I e) (mk_zero_extend (n - 1) x)) as Hcase.
    { intros i j k x [[Hi%Z.eqb_eq Hj%Z.eqb_eq]%andb_true_iff Hk%Z.eqb_eq]%andb_true_iff Hx Hux.
      apply Hext; [done|]. by rewrite Hur, Hut, Hue, Hi, Hj, Hk. }
    repeat match goal with |- br_means _ _ _ (if ?c then _ else _) => destruct c eqn:? end; [..|done];
      (eapply Hcase; [eassumption|done|]); rewrite ?Hun; by destruct (one_bit lhs Hl) as [-> | ->].
Qed.

Lemma ite2id_ok n m lhs rhs t e :
  vec m lhs -> vec m rhs -> vec n t -> vec n e -> t <> e ->
  br_means I (BvSort n) (if uv lhs =? uv rhs then eval I t else eval I e) (ite2id lhs rhs t e).
Proof.
  intros Hl Hr Ht He Hte. unfold ite2id.
  destruct (if is_num lhs then (rhs, lhs) else (lhs, rhs)) as [l r] eqn:Hs.
  destruct (swap_numeral _ _ _ _ _ _ Hl Hr Hs) as (Hl' & Hr' & ->). clear Hs.
  destruct (_ || _) eqn:Hsides; [by apply ite_same_sides|].
  rewrite (vec_size m) by done. destruct (Nat.eqb_spec m 1) as [->|]; [|done].
  destruct (is_numeral r) as [[rv rs]|] eqn:Hnr; [|done]. destruct (is_numeral t) as [[tv ts]|] eqn:Hnt; [|done].
  destruct (is_numeral e) as [[ev es]|] eqn:Hne; [|done].
  destruct (numeral_vec I _ _ _ _ Hnr Hr') as (-> & _). destruct (numeral_vec I _ _ _ _ Hnt Ht) as (-> & _).
  destruct (numeral_vec I _ _ _ _ Hne He) as (-> & _). by apply bit_ite.
Qed.

Lemma rw_ite_ok c t e :
  wfb c = true -> wf t = true -> wf e = true -> get_sort t = get_sort e ->
  br_means I (get_sort t) (if tr c then eval I t else eval I e) (rw_ite p c t e).
Proof.
  intros Hc Ht He Hs. unfold rw_ite, are_equal. case_bool_decide as Heq.
  { subst e. cbn [br_means]. split_and!; try done. by destruct (AstFacts.tr I c). }
  apply wfb_spec in Hc as [Hwc Hsc]. destruct (is_not c) eqn:Hn.
  { destruct (not_inv I c Hn Hwc) as (x & -> & _ & Hx & _ & ->). cbn [br_means].
    pose proof (means_ite I x e t Hx He Ht (eq_sym Hs)) as Hm. rewrite <- Hs in Hm. by destruct (AstFacts.tr I x). }
  destruct (_ && _) eqn:Hi; [|done].
  apply andb_true_iff in Hi as [Hi Hbr]. apply andb_true_iff in Hi as [Hi Hbe]. apply andb_true_iff in Hi as [Hi Hbt].
  apply andb_true_iff in Hi as [_ Hceq].
  destruct (eq_inv I c Hceq Hwc) as (a & b & Ha & Hb & _ & Hwa & Hwb & Hsab & _ & Htr). rewrite Ha, Hb in *.
  unfold is_bv in Hbr, Hbt. destruct (get_sort b) as [|m|] eqn:Hsb; try done.
  destruct (get_sort t) as [|n|] eqn:Hst; try done.
  assert (tr c = (uv a =? uv b)) as ->.
  { rewrite Htr. apply eq_true_iff_eq. rewrite bool_decide_eq_true, Z.eqb_eq. by apply (vec_eq I m). }
  apply (ite2id_ok n m); done || congruence.
Qed.

(** ** Overflow of products *)

Definition trivial_factor (v : Z) : Prop := v = 0 \/ v = 1.

Lemma mul_no_overflow_ok n fits (sem : bool) a0 a1 :
  vec n a0 -> vec n a1 ->
  (trivial_factor (uv a0) \/ trivial_factor (uv a1) -> sem = true) ->
  fits (uv a0) (uv a1) n = sem ->
  br_holds I sem (mul_no_overflow fits a0 a1).
Proof.
  intros H0 H1 Htriv Hfits. unfold mul_no_overflow, numeral_is.
  assert (forall a v m, vec n a -> is_numeral a = Some (v, m) -> (v =? 0) || (v =? 1) = true -> trivial_factor (uv a)) as Hone.
  { intros a v m Ha Hnum Hv. destruct (numeral_vec I _ _ _ _ Hnum Ha) as (_ & _ & ->).
    unfold trivial_factor. lia. }
  assert (sem = true -> br_holds I sem (BR_DONE m_true)) as Htrue by (intros ->; apply done_holds, holds_true).
  destruct (is_numeral a0) as [[v0 m0]|] eqn:E0; [destruct (_ || _) eqn:C0; [apply Htrue, Htriv; left; by eapply Hone|]|];
    (destruct (is_numeral a1) as [[v1 m1]|] eqn:E1; [destruct ((v1 =? 0) || _) eqn:C1; [apply Htrue, Htriv; right; by eapply Hone|]|]; try done).
  destruct (numeral_vec I _ _ _ _ E0 H0) as (-> & _ & <-). destruct (numeral_vec I _ _ _ _ E1 H1) as (-> & _ & <-).
  apply done_holds. eapply (holds_val I); [apply bool_val_holds|done].
Qed.

Lemma mk_bvumul_no_overflow_ok n a b :
  vec n a -> vec n b -> br_holds I (uv a * uv b <? pow2 n) (mk_bvumul_no_overflow a b).
Proof.
  intros Ha Hb. pose proof (uv_range I n a Ha). pose proof (uv_range I n b Hb).
  apply (mul_no_overflow_ok n); try done. intros [[-> | ->]|[-> | ->]]; apply Z.ltb_lt; lia.
Qed.

Lemma small_signed n a : vec n a -> trivial_factor (uv a) -> sv a = uv a \/ n = 1%nat.
Proof.
  intros Ha Ht. destruct (Nat.eq_dec n 1) as [|Hn1]; [by right|]. left. pose proof (vec_pos _ _ Ha).
  rewrite (sv_norm I n), norm_small by (done || by apply uv_range).
  assert (2 <= pow2 (n - 1)) by (change 2 with (pow2 1); apply pow2_le; lia).
  destruct Ht as [-> | ->]; case_match; lia.
Qed.

Lemma mk_bvsmul_no_underflow_ok n a b :
  vec n a -> vec n b -> br_holds I (- pow2 (n - 1) <=? sv a * sv b) (mk_bvsmul_no_underflow a b).
Proof.
  intros Ha Hb. pose proof (vec_pos _ _ Ha) as Hn. pose proof (sv_range I n a Ha) as Sa. pose proof (sv_range I n b Hb) as Sb.
  pose proof (pow2_pos (n - 1)). apply (mul_no_overflow_ok n); try done.
  - intros Ht. apply Z.leb_le. destruct (Nat.eq_dec n 1) as [->|].
    { change (pow2 (1 - 1)) with 1 in *. assert (sv a = 0 \/ sv a = -1) as [-> | ->] by lia; lia. }
    destruct Ht as [Ht|Ht].
    + destruct (small_signed n a Ha Ht) as [->|]; [|done]. destruct Ht as [-> | ->]; lia.
    + destruct (small_signed n b Hb Ht) as [->|]; [|done]. destruct Ht as [-> | ->]; lia.
  - cbv zeta. fold (pow2 n). rewrite (sv_norm I n a), (sv_norm I n b), !norm_small by (done || by apply uv_range).
    replace (2 ^ (Z.of_nat n - 1)) with (pow2 (n - 1)) by (unfold pow2; f_equal; lia). done.
Qed.

(** The answer for two numerals above 1 is about their unsigned values. *)
Lemma mk_bvsmul_no_overflow_means n a b v w :
  vec n a -> vec n b -> is_numeral a = Some (v, n) -> is_numeral b = Some (w, n) -> 1 < v -> 1 < w ->
  mk_bvsmul_no_overflow a b = BR_DONE (mk_bool_val (v * w <? pow2 (n - 1))).
Proof.
  intros Ha Hb Hv Hw V W. pose proof (vec_pos _ _ Ha). unfold mk_bvsmul_no_overflow, mul_no_overflow, numeral_is. rewrite Hv, Hw.
  destruct (Z.eqb_spec v 0), (Z.eqb_spec v 1), (Z.eqb_spec w 0), (Z.eqb_spec w 1); try lia. cbn [orb].
  by replace (2 ^ (Z.of_nat n - 1)) with (pow2 (n - 1)) by (unfold pow2; f_equal; lia).
Qed.
End Equality.
