(* ===== verification/BvRewriterOk.v ===== *)
(** The rewriting of an application of the bit-vector family is correct: for
    every operator, whatever the options, the result denotes what the
    application denotes. *)
From S2P Require Import Prelude Text Bits BlastArith BlastDiv BlastShift Ast AstSem AstFacts BoolRewriter BoolRewriterOk BvPlugin BvFacts PolyRewriter PolyRewriterOk BvRewriterLeq BvRewriterLeqOk BvRewriterTerms BvRewriterTermsOk BvRewriterDiv BvRewriterDivOk BvRewriterBits BvRewriterBitsOk BvRewriterXorOk BvRewriterEq BvRewriterEqOk BvRewriter.

(** ** More operators on numbers *)

Lemma xnor_lxor_testbit x y i : 0 <= i -> Z.testbit (xnorZ x y) i = Bool.eqb (Z.testbit x i) (Z.testbit y i).
Proof.
  intros Hi. unfold xnorZ. rewrite Z.lnot_spec, Z.lxor_spec by done. by destruct (Z.testbit x i), (Z.testbit y i).
Qed.

#[global, refine] Instance bxnor_op : AssocOp OP_BXNOR xnorZ (-1) :=
  {| ao_fun := zip_with Bool.eqb; ao_kind := eq_refl : bv_assoc OP_BXNOR = Some (zip_with Bool.eqb) |}.
Proof.
  - intros. apply zip_bits_of. intros. apply xnor_lxor_testbit. lia.
  - intros a b c. apply Z.bits_inj'. intros i Hi. rewrite !xnor_lxor_testbit by done.
    by destruct (Z.testbit a i), (Z.testbit b i), (Z.testbit c i).
  - intros a. apply Z.bits_inj'. intros i Hi. rewrite xnor_lxor_testbit, Z.bits_m1 by done. by destruct (Z.testbit a i).
Defined.

Lemma nand_bits n v w : zip_with (fun a b => negb (a && b)) (bits_of n v) (bits_of n w) = bits_of n (Z.lnot (Z.land v w)).
Proof. apply (zip_bits_of _ (fun x y => Z.lnot (Z.land x y))). intros i. by rewrite Z.lnot_spec, Z.land_spec by lia. Qed.
Lemma nor_bits n v w : zip_with (fun a b => negb (a || b)) (bits_of n v) (bits_of n w) = bits_of n (Z.lnot (Z.lor v w)).
Proof. apply (zip_bits_of _ (fun x y => Z.lnot (Z.lor x y))). intros i. by rewrite Z.lnot_spec, Z.lor_spec by lia. Qed.

Section Application.
Context (I : interp) (p : bv_params) (get_id : expr -> Z) (ref_count : expr -> nat).
Context (mk_conversion : func_decl -> list expr -> br_status).
Local Abbreviation eval := (eval I).
Local Abbreviation uv := (uv I).
Local Abbreviation sv := (sv I).

(** The result of a rule has the sort and the value of the application. *)
Definition rule_ok (f : func_decl) (args : list expr) (st : br_status) : Prop :=
  br_means I (range f) (eval (App f args)) st.

(** ** Rules for the shapes of operators *)

Lemma binary_rule k op f args st :
  kind f = Bv k -> bv_binary k = Some op -> wf (App f args) = true ->
  (forall n a b, args = [a; b] -> vec n a -> vec n b ->
    br_means I (BvSort n) (VBv (op (bits (eval a)) (bits (eval b)))) st) ->
  rule_ok f args st.
Proof.
  intros Hk Hop Hw Hst. unfold rule_ok.
  destruct (binary_inv I f args k op Hk Hop Hw) as (n & a & b & -> & Ha & Hb & -> & ->). by apply Hst.
Qed.

Lemma pred_rule k op f args st :
  kind f = Bv k -> bv_pred k = Some op -> wf (App f args) = true ->
  (forall n a b, args = [a; b] -> vec n a -> vec n b -> br_holds I (op (bits (eval a)) (bits (eval b))) st) ->
  rule_ok f args st.
Proof.
  intros Hk Hop Hw Hst. unfold rule_ok.
  destruct (pred_inv I f args k op Hk Hop Hw) as (n & a & b & -> & Ha & Hb & -> & ->). by apply (Hst n).
Qed.

Lemma assoc_rule k g u `{!AssocOp k g u} f args st :
  kind f = Bv k -> wf (App f args) = true ->
  (forall n, (2 <= length args)%nat -> Forall (vec n) args -> br_den I n (foldr g u (map uv args)) st) ->
  rule_ok f args st.
Proof.
  intros Hk Hw Hst. unfold rule_ok.
  destruct (assoc_inv I (k := k) (App f args)) as (n & d & args' & [= <- <-] & _ & Hv & Hl & Hargs & Hd);
    [by apply bool_decide_eq_true|done|].
  destruct Hd as (_ & Hs & ->). cbn in Hs. rewrite Hs. by apply Hst.
Qed.

(** The sort of the application and its arguments, for the other operators. *)
Lemma bv_rule_inv k f args :
  kind f = Bv k -> wf (App f args) = true ->
  bv_sort f k (map get_sort args) = Some (range f) /\ Forall (fun e => wf e = true) args
  /\ eval (App f args) = default (i_decl I f (map eval args)) (bv_apply k (params f) (map eval args)).
Proof.
  intros Hk Hw. destruct (bv_inv (App f args) k) as (d & args' & [= <- <-] & _ & Hs & Ha);
    [by apply bool_decide_eq_true|done|]. split_and!; [done..|]. cbn. unfold decl_apply. by rewrite Hk.
Qed.

Lemma unary_rule k f args :
  kind f = Bv k -> wf (App f args) = true ->
  (forall ss s, bv_sort f k ss = Some s -> exists n, ss = [BvSort n]) ->
  exists n a, args = [a] /\ vec n a /\ bv_sort f k [BvSort n] = Some (range f)
    /\ eval (App f args) = default (i_decl I f [eval a]) (bv_apply k (params f) [eval a]).
Proof.
  intros Hk Hw Hone. destruct (bv_rule_inv k f args Hk Hw) as (Hs & Ha & He).
  destruct (Hone _ _ Hs) as (n & Hn). destruct args as [|a [|]]; try done. cbn [map] in *. injection Hn as Hn.
  apply Forall_cons in Ha as [Ha _]. rewrite Hn in Hs. by exists n, a.
Qed.

(** A vector given by its bits. *)
Lemma bits_rule n l st : length l = n -> br_den I n (uval l) st -> br_means I (BvSort n) (VBv l) st.
Proof. intros Hl. unfold br_den. by rewrite bits_of_uval. Qed.

Lemma bit_rule (b : bool) v st : v = Z.b2z b -> br_den I 1 v st -> br_means I (BvSort 1) (VBv [b]) st.
Proof. intros -> Hd. apply (bits_rule 1); [done|]. by destruct b. Qed.

(** ** The operators *)

Ltac binary := eapply binary_rule; [eassumption|reflexivity|assumption|intros n a b -> Ha Hb].
Ltac predicate := eapply pred_rule; [eassumption|reflexivity|assumption|intros n a b -> Ha Hb].
Ltac of_length H := destruct (vec_bits I _ _ H) as [_ ?Hl].

Lemma with_binary_inv args core st a b : args = [a; b] -> with_binary args core = Ok st -> st = core a b.
Proof. intros -> [= <-]. done. Qed.

(** The comparisons. *)
Lemma comparisons_ok k f args st :
  kind f = Bv k -> wf (App f args) = true ->
  k ∈ [OP_ULEQ; OP_UGEQ; OP_ULT; OP_UGT; OP_SLEQ; OP_SGEQ; OP_SLT; OP_SGT] ->
  mk_app_core p get_id ref_count mk_conversion f k args = Ok st -> rule_ok f args st.
Proof.
  intros Hk Hw Hin. rewrite !elem_of_cons, elem_of_nil in Hin.
  assert (forall n a b, vec n a -> vec n b -> br_holds I (negb (uv b <=? uv a)) (rw_ult a b)) as Hult.
  { intros n a b Ha Hb. apply rewrite2_holds, holds_not. by apply (mk_ule_holds I n). }
  assert (forall n a b, vec n a -> vec n b -> br_holds I (negb (sv b <=? sv a)) (rw_slt a b)) as Hslt.
  { intros n a b Ha Hb. apply rewrite2_holds, holds_not. by apply (mk_sle_holds I n). }
  pose proof (mk_leq_core_ok I p) as Hleq.
  destruct Hin as [->|[->|[->|[->|[->|[->|[->|[->|[]]]]]]]]]; intros [= Hst]; predicate; injection Hst as <-.
  - by apply (Hleq n false).
  - apply br_else_means; [by apply (Hleq n false)|]. apply done_holds. by apply (mk_ule_holds I n).
  - rewrite Z.ltb_antisym. by apply (Hult n).
  - rewrite Z.ltb_antisym. by apply (Hult n).
  - by apply (Hleq n true).
  - apply br_else_means; [by apply (Hleq n true)|]. apply done_holds. by apply (mk_sle_holds I n).
  - rewrite Z.ltb_antisym. by apply (Hslt n).
  - rewrite Z.ltb_antisym. by apply (Hslt n).
Qed.

(** Sums, products, differences and shifts. *)
Lemma arithmetic_ok k f args st :
  kind f = Bv k -> wf (App f args) = true ->
  k ∈ [OP_BADD; OP_BMUL; OP_BSUB; OP_BSHL; OP_BLSHR; OP_BASHR] ->
  mk_app_core p get_id ref_count mk_conversion f k args = Ok st -> rule_ok f args st.
Proof.
  intros Hk Hw Hin. rewrite !elem_of_cons, elem_of_nil in Hin.
  destruct Hin as [->|[->|[->|[->|[->|[->|[]]]]]]]; intros Hst; cbn [mk_app_core] in Hst.
  - injection Hst as <-. apply (assoc_rule OP_BADD Z.add 0); [done..|]. intros n Hl Ha.
    apply mk_bv_add_ok; [by destruct args; cbn in Hl; [lia|]|done].
  - apply (assoc_rule OP_BMUL Z.mul 1); [done..|]. intros n Hl Ha.
    eapply rw_mul_ok; [by destruct args; cbn in Hl; [lia|]|done|exact Hst].
  - binary. injection Hst as <-. of_length Ha. unfold unsigned_op. rewrite Hl. cbn [List.hd]. rewrite (vec_size n) by done.
    pose proof (mk_sub_ok I n (vec_pos n a Ha) a [b] Ha (proj2 (Forall_singleton _ _) Hb)) as Hsub.
    cbn in Hsub. by rewrite Z.add_0_r in Hsub.
  - binary. injection Hst as <-. of_length Ha. unfold unsigned_op. rewrite Hl. by apply mk_bv_shl_ok.
  - binary. injection Hst as <-. of_length Ha. unfold unsigned_op. rewrite Hl. by apply mk_bv_lshr_ok.
  - binary. injection Hst as <-. of_length Ha. rewrite Hl. by apply mk_bv_ashr_ok.
Qed.

(** Division and remainder, with the value at 0 that the theory fixes. *)
Lemma division_ok k f args st :
  m_hi_div0 p = true -> kind f = Bv k -> wf (App f args) = true ->
  k ∈ [OP_BSDIV; OP_BUDIV; OP_BSREM; OP_BUREM; OP_BSMOD; OP_BSDIV_I; OP_BUDIV_I; OP_BSREM_I; OP_BUREM_I; OP_BSMOD_I] ->
  mk_app_core p get_id ref_count mk_conversion f k args = Ok st -> rule_ok f args st.
Proof.
  intros Hdiv Hk Hw Hin. rewrite !elem_of_cons, elem_of_nil in Hin.
  destruct Hin as [->|[->|[->|[->|[->|[->|[->|[->|[->|[->|[]]]]]]]]]]]; intros Hst; cbn [mk_app_core] in Hst;
    rewrite ?Hdiv in Hst; binary; injection Hst as <-; of_length Ha; unfold unsigned_op, signed_op; rewrite ?Hl;
    (by apply mk_bv_sdiv_ok) || (by apply mk_bv_udiv_ok) || (by apply mk_bv_srem_ok) || (by apply mk_bv_urem_ok)
    || (by apply mk_bv_smod_ok).
Qed.

(** The bitwise operators. *)
Lemma bitwise_ok k f args st :
  kind f = Bv k -> wf (App f args) = true ->
  k ∈ [OP_BOR; OP_BXOR; OP_BAND; OP_BXNOR; OP_BNAND; OP_BNOR] ->
  mk_app_core p get_id ref_count mk_conversion f k args = Ok st -> rule_ok f args st.
Proof.
  intros Hk Hw Hin. rewrite !elem_of_cons, elem_of_nil in Hin.
  assert ((2 <= length args)%nat -> args <> []) as Hne by (destruct args; cbn; [lia|done]).
  destruct Hin as [->|[->|[->|[->|[->|[->|[]]]]]]]; intros Hst; cbn [mk_app_core] in Hst.
  - apply (assoc_rule OP_BOR Z.lor 0); [done..|]. intros n Hl Ha. eapply rw_or_ok; [by apply Hne|done|exact Hst].
  - apply (assoc_rule OP_BXOR Z.lxor 0); [done..|]. intros n Hl Ha. eapply rw_xor_ok; [by apply Hne|done|exact Hst].
  - injection Hst as <-. apply (assoc_rule OP_BAND Z.land (-1)); [done..|]. intros n Hl Ha. by apply mk_bv_and_ok.
  - injection Hst as <-. apply (assoc_rule OP_BXNOR xnorZ (-1)); [done..|]. intros n Hl Ha.
    destruct args as [|a [|b rest]]; cbn [length] in Hl; try lia. apply Forall_cons in Ha as [Ha Hrest].
    cbn [map]. rewrite <- (fold_left_right (k := OP_BXNOR)). by apply (mk_bv_xnor_ok I n a (b :: rest)).
  - binary. injection Hst as <-. rewrite (bits_uv I n a Ha), (bits_uv I n b Hb), nand_bits. by apply mk_bv_nand_ok.
  - binary. injection Hst as <-. rewrite (bits_uv I n a Ha), (bits_uv I n b Hb), nor_bits. by apply mk_bv_nor_ok.
Qed.

(** Negation, complement, extension, repetition and rotation. *)
Lemma value_rule n l v st : length l = n -> eqm n (uval l) v -> br_den I n v st -> br_means I (BvSort n) (VBv l) st.
Proof. intros Hl Hv Hst. apply bits_rule; [done|]. eapply br_den_ext; [exact Hst|by symmetry]. Qed.

Lemma sign_extension l k : eqm (length l + k) (uval (l ++ replicate k (msb l))) (sval l).
Proof.
  rewrite uval_app. unfold sval. destruct (msb l).
  - rewrite uval_replicate_true. apply (eqm_multiple _ _ _ 1). rewrite pow2_add. lia.
  - rewrite uval_replicate_false. apply eq_subrelation; [apply _|]. lia.
Qed.

Ltac unary f args Hk Hw :=
  destruct (unary_rule _ f args Hk Hw) as (n & a & -> & Ha & Hs & Hev);
    [intros ss s; cbn [bv_sort is_uniform is_structural bv_binary bv_assoc bv_pred];
     repeat (case_match; try done); intros; simplify_eq; by eexists|];
  cbn [bv_sort is_uniform is_structural bv_binary bv_assoc bv_pred] in Hs.

Lemma structural_ok k f args st :
  kind f = Bv k -> wf (App f args) = true ->
  k ∈ [OP_BNEG; OP_BNOT; OP_ZERO_EXT; OP_SIGN_EXT; OP_REPEAT; OP_ROTATE_LEFT; OP_ROTATE_RIGHT] ->
  mk_app_core p get_id ref_count mk_conversion f k args = Ok st -> rule_ok f args st.
Proof.
  intros Hk Hw Hin. rewrite !elem_of_cons, elem_of_nil in Hin. unfold rule_ok.
  pose proof (wf_positive _ Hw) as Hpos. cbn [get_sort] in Hpos.
  destruct Hin as [->|[->|[->|[->|[->|[->|[->|[]]]]]]]]; unary f args Hk Hw; intros Hst;
    cbn [mk_app_core with_unary] in Hst; injection Hst as <-; rewrite Hev; of_length Ha; unfold get_int;
    lazymatch type of Hs with context [params f] => destruct (params f) as [|[m| |] [|]]; try done | _ => idtac end;
    injection Hs as Hs; rewrite <- Hs in *;
    cbn [bv_apply default id bits].
  - rewrite Hl, (vec_size n) by done. by apply (mk_uminus_ok I n (vec_pos n a Ha)).
  - rewrite (bits_uv I n a Ha), negb_bits_of. by apply rw_not_ok.
  - apply value_rule with (v := uv a); [by rewrite length_app, length_replicate, Hl| |by apply mk_zero_extend_ok].
    rewrite uval_app, uval_replicate_false, Z.mul_0_r, Z.add_0_r. done.
  - apply value_rule with (v := sv a); [by rewrite length_app, length_replicate, Hl| |by apply mk_sign_extend_ok].
    rewrite <- Hl. apply sign_extension.
  - apply bits_rule; [by rewrite length_concat_replicate, Hl|].
    apply (mk_repeat_ok I n m a Ha). destruct m; [done|lia].
  - apply bits_rule; [by rewrite rotate_length|]. by apply mk_bv_rotate_left_ok.
  - apply bits_rule; [by rewrite rotate_length|]. by apply mk_bv_rotate_right_ok.
Qed.

(** Rotations by a vector, and the operators with one bit or a formula as result. *)
Lemma rotations_ok k f args st :
  kind f = Bv k -> wf (App f args) = true ->
  k ∈ [OP_EXT_ROTATE_LEFT; OP_EXT_ROTATE_RIGHT] ->
  mk_app_core p get_id ref_count mk_conversion f k args = Ok st -> rule_ok f args st.
Proof.
  intros Hk Hw Hin. rewrite !elem_of_cons, elem_of_nil in Hin.
  destruct Hin as [->|[->|[]]]; intros Hst; cbn [mk_app_core] in Hst; binary; injection Hst as <-;
    of_length Ha; pose proof (vec_pos _ _ Ha) as Hn; apply bits_rule; [by rewrite rotate_length| |by rewrite rotate_length|].
  - unfold mk_bv_ext_rotate_left. destruct (is_numeral b) as [[r m]|] eqn:Hnum; [|done].
    destruct (numeral_vec I _ _ _ _ Hnum Hb) as (-> & Hr & Hu). fold (uv b). rewrite Hu.
    apply mk_bv_rotate_left_ok; [done|]. rewrite rotate_amount_ok by lia. apply Zmod_mod.
  - unfold mk_bv_ext_rotate_right. destruct (is_numeral b) as [[r m]|] eqn:Hnum; [|done].
    destruct (numeral_vec I _ _ _ _ Hnum Hb) as (-> & Hr & Hu). fold (uv b). rewrite Hu.
    apply mk_bv_rotate_right_ok; [done|]. rewrite rotate_amount_ok by lia.
    rewrite <- (Z.sub_0_l (_ mod _)), Zminus_mod_idemp_r. done.
Qed.

Lemma bit_results_ok k f args st :
  kind f = Bv k -> wf (App f args) = true ->
  k ∈ [OP_BREDOR; OP_BREDAND; OP_BIT2BOOL] ->
  mk_app_core p get_id ref_count mk_conversion f k args = Ok st -> rule_ok f args st.
Proof.
  intros Hk Hw Hin. rewrite !elem_of_cons, elem_of_nil in Hin. unfold rule_ok.
  destruct Hin as [->|[->|[->|[]]]]; unary f args Hk Hw; intros Hst;
    cbn [mk_app_core with_unary] in Hst; injection Hst as <-; rewrite Hev; of_length Ha; unfold get_int.
  - injection Hs as <-. cbn [bv_apply default id bits]. eapply bit_rule; [|by apply (mk_bv_redor_ok I n)].
    rewrite existsb_nonzero. fold (uv a). by destruct (uv a =? 0).
  - injection Hs as <-. cbn [bv_apply default id bits]. eapply bit_rule; [|by apply (mk_bv_redand_ok I n)].
    rewrite forallb_minus_one, Hl. fold (uv a). by destruct (uv a =? _).
  - destruct (params f) as [|[m| |] [|]]; try done. destruct (Nat.ltb_spec m n); [|done]. injection Hs as <-.
    cbn [bv_apply default id bits]. by apply (rw_bit2bool_ok I n).
Qed.

(** Constants, comparison of vectors, concatenation, extraction and bits put
    together. *)
Lemma parts_ok k f args st :
  kind f = Bv k -> wf (App f args) = true ->
  k ∈ [OP_BIT0; OP_BIT1; OP_BCOMP; OP_CONCAT; OP_EXTRACT; OP_MKBV] ->
  mk_app_core p get_id ref_count mk_conversion f k args = Ok st -> rule_ok f args st.
Proof.
  intros Hk Hw Hin. rewrite !elem_of_cons, elem_of_nil in Hin. unfold rule_ok.
  assert (is_app_of (App f args) (Bv k) = true) as Happ by (by apply bool_decide_eq_true).
  destruct (bv_rule_inv k f args Hk Hw) as (Hs & Ha & Hev).
  destruct Hin as [->|[->|[->|[->|[->|[->|[]]]]]]]; intros Hst; cbn [mk_app_core] in Hst;
    cbn [bv_sort is_uniform is_structural bv_binary bv_assoc bv_pred] in Hs.
  - injection Hst as <-. destruct args; cbn [map] in *; [|done]. injection Hs as <-. rewrite Hev.
    apply (bit_rule false 0); [done|]. apply (den_numeral I 1). lia.
  - injection Hst as <-. destruct args; cbn [map] in *; [|done]. injection Hs as <-. rewrite Hev.
    apply (bit_rule true 1); [done|]. apply (den_numeral I 1). lia.
  - destruct args as [|a [|b [|]]]; cbn [map] in *; try done; destruct (get_sort a) as [|n|] eqn:Hsa; try done;
      destruct (get_sort b) as [|m|] eqn:Hsb; try done. destruct (Nat.eqb_spec n m) as [->|]; [|done].
    injection Hs as <-. injection Hst as <-. rewrite Hev. cbn [bv_apply default id].
    apply Forall_cons in Ha as [Hwa Ha]. apply Forall_cons in Ha as [Hwb _].
    assert (vec m a) as Hva by done. assert (vec m b) as Hvb by done.
    eapply bit_rule; [|by apply (mk_bv_comp_ok I m)].
    destruct (Z.eqb_spec (uv a) (uv b)) as [E|E].
    + rewrite bool_decide_eq_true_2; [done|]. by apply (vec_eq I m).
    + rewrite bool_decide_eq_false_2; [done|]. intros He. apply E. by apply (vec_eq I m).
  - destruct (concat_inv I _ Happ Hw) as (d & args' & [= <- <-] & Hne & Hargs & _ & Hv & Hu & _). injection Hst as <-.
    pose proof (proj2 Hv) as Hr. cbn [get_sort] in Hr. rewrite Hr.
    destruct (vec_bits I _ _ Hv) as [-> _]. rewrite (bits_uv I _ _ Hv). rewrite Hu. by apply mk_concat_ok.
  - destruct (extract_inv I _ Happ Hw) as (n & d & a & hi & lo & [= <- ->] & Hp & Hb & Hva & Hv & Hd).
    rewrite Hp in Hst. injection Hst as <-. destruct Hd as (_ & Hr & ->). cbn [get_sort] in Hr. rewrite Hr.
    by apply (mk_extract_ok I p ref_count n).
  - injection Hst as <-. destruct (mkbv_inv I _ Happ Hw) as (Hall & -> & Hr). cbn [get_sort get_args] in *. rewrite Hr.
    apply mk_mkbv_means; [|done]. intros ->. apply wf_positive in Hw. cbn [get_sort] in Hw. rewrite Hr in Hw. done.
Qed.

(** Overflow of products; [bvsmul_noovfl] is apart. *)
Lemma overflow_ok k f args st :
  kind f = Bv k -> wf (App f args) = true ->
  k ∈ [OP_BUMUL_NO_OVFL; OP_BSMUL_NO_UDFL] ->
  mk_app_core p get_id ref_count mk_conversion f k args = Ok st -> rule_ok f args st.
Proof.
  intros Hk Hw Hin. rewrite !elem_of_cons, elem_of_nil in Hin.
  destruct Hin as [->|[->|[]]]; intros Hst; cbn [mk_app_core] in Hst; predicate; injection Hst as <-; of_length Ha; rewrite Hl.
  - by apply (mk_bvumul_no_overflow_ok I n).
  - by apply (mk_bvsmul_no_underflow_ok I n).
Qed.

(** The answers of the conversions have their sorts. *)
Definition conversion_typed : Prop :=
  forall f args r, kind f = Bv OP_BV2INT \/ kind f = Bv OP_INT2BV -> wf (App f args) = true ->
    br_result (mk_conversion f args) = Some r -> wf r = true /\ get_sort r = range f.

(** Every operator with rules of its own but the signed overflow predicate. *)
Lemma bv_mk_app_core_ok k f args st :
  m_hi_div0 p = true -> kind f = Bv k -> k ∉ [OP_BSMUL_NO_OVFL; OP_BV2INT; OP_INT2BV] -> wf (App f args) = true ->
  mk_app_core p get_id ref_count mk_conversion f k args = Ok st -> rule_ok f args st.
Proof.
  intros Hdiv Hk Hno Hw Hst.
  destruct (decide (k ∈ [OP_ULEQ; OP_UGEQ; OP_ULT; OP_UGT; OP_SLEQ; OP_SGEQ; OP_SLT; OP_SGT])); [by eapply comparisons_ok|].
  destruct (decide (k ∈ [OP_BADD; OP_BMUL; OP_BSUB; OP_BSHL; OP_BLSHR; OP_BASHR])); [by eapply arithmetic_ok|].
  destruct (decide (k ∈ [OP_BSDIV; OP_BUDIV; OP_BSREM; OP_BUREM; OP_BSMOD; OP_BSDIV_I; OP_BUDIV_I; OP_BSREM_I; OP_BUREM_I; OP_BSMOD_I]));
    [by eapply division_ok|].
  destruct (decide (k ∈ [OP_BOR; OP_BXOR; OP_BAND; OP_BXNOR; OP_BNAND; OP_BNOR])); [by eapply bitwise_ok|].
  destruct (decide (k ∈ [OP_BNEG; OP_BNOT; OP_ZERO_EXT; OP_SIGN_EXT; OP_REPEAT; OP_ROTATE_LEFT; OP_ROTATE_RIGHT]));
    [by eapply structural_ok|].
  destruct (decide (k ∈ [OP_EXT_ROTATE_LEFT; OP_EXT_ROTATE_RIGHT])); [by eapply rotations_ok|].
  destruct (decide (k ∈ [OP_BREDOR; OP_BREDAND; OP_BIT2BOOL])); [by eapply bit_results_ok|].
  destruct (decide (k ∈ [OP_BIT0; OP_BIT1; OP_BCOMP; OP_CONCAT; OP_EXTRACT; OP_MKBV])); [by eapply parts_ok|].
  destruct (decide (k ∈ [OP_BUMUL_NO_OVFL; OP_BSMUL_NO_UDFL])); [by eapply overflow_ok|].
  destruct k; try done; try (match goal with H : _ ∉ _ |- _ => exfalso; apply H, (bool_decide_eq_true_1 _); reflexivity end);
    cbn [mk_app_core] in Hst; by injection Hst as <-.
Qed.
End Application.
