(* ===== verification/BvRewriterTotal.v ===== *)
(** The bit-vector rewriter raises no exception on terms whose concatenations
    have at least two arguments, unless it is asked to turn products into
    concatenations; an argument of one piece makes it raise one. *)
From S2P Require Import Prelude Text Bits Ast AstSem AstFacts BoolRewriter BoolRewriterOk BvPlugin BvFacts PolyRewriter PolyRewriterOk BvRewriterLeq BvRewriterLeqOk BvRewriterTerms BvRewriterTermsOk BvRewriterDiv BvRewriterBits BvRewriterBitsOk BvRewriterXorOk BvRewriterEq BvRewriter.

(** Every concatenation in the term has two pieces. *)
Fixpoint concats_split (e : expr) : bool :=
  match e with
  | Var _ _ => true
  | App d args =>
      (negb (bool_decide (kind d = Bv OP_CONCAT)) || Nat.leb 2 (length args)) && forallb concats_split args
  end.

Lemma concats_split_args e : concats_split e = true -> Forall (fun x => concats_split x = true) (get_args e).
Proof.
  destruct e as [|d args]; [constructor|]. cbn [concats_split get_args]. intros [_ Ha]%andb_true_iff.
  apply Forall_forall. intros x Hx%list_elem_of_In. by apply (proj1 (forallb_forall _ _) Ha).
Qed.

(** What the rules ask of an argument: its first piece is shorter than it. *)
Definition shorter_piece (e : expr) : Prop := is_concat e = true -> get_bv_size (get_arg e 0) <> get_bv_size e.

Lemma concats_split_shorter e : wf e = true -> concats_split e = true -> shorter_piece e.
Proof.
  intros Hw Hs Hc. destruct (concat_inv default_interp e Hc Hw) as (d & args & -> & _ & Hargs & Hsz & _ & _ & Hd).
  rewrite Hsz. cbn [concats_split] in Hs. apply andb_true_iff in Hs as [Hs _].
  rewrite Hd in Hs. cbn [kind concat_decl] in Hs. rewrite bool_decide_eq_true_2 in Hs by done.
  cbn [negb orb] in Hs. apply Nat.leb_le in Hs. destruct args as [|a [|b args]]; cbn [length] in Hs; try lia.
  cbn [get_arg get_args nth]. rewrite !width_cons. apply Forall_cons in Hargs as [_ Hargs].
  apply Forall_cons in Hargs as [Hb _]. apply vec_pos in Hb. lia.
Qed.

Section Total.
Context (p : bv_params) (get_id : expr -> Z) (ref_count : expr -> nat).
Context (mk_conversion : func_decl -> list expr -> br_status).

Lemma distribute_total k l : Forall shorter_piece l -> exists d, distribute_concat k l = Ok d.
Proof.
  intros Hl. unfold distribute_concat. destruct (List.find is_concat l) as [a|] eqn:Hf; [|by eexists].
  apply List.find_some in Hf as [Hin Hc]. apply list_elem_of_In in Hin. rewrite Forall_forall in Hl.
  unfold split_at. destruct (Nat.eqb_spec (get_bv_size (get_arg a 0)) (get_bv_size a)) as [E|]; [|by eexists].
  by destruct (Hl a Hin Hc).
Qed.

Lemma numeral_shorter v n : shorter_piece (mk_numeral v n).
Proof. intros Hc. exfalso. revert Hc. unfold is_concat, mk_numeral, bv_app, is_app_of. cbn. by destruct n. Qed.

Lemma rebuild_total k l : Forall shorter_piece l -> exists r, rebuild p k l = Ok r.
Proof.
  intros Hl. unfold rebuild. destruct (distribute_total k (sort_ac p l)) as [d ->]; [|by eexists].
  unfold sort_ac. destruct (m_bv_sort_ac p); [|done]. unfold sort_exprs.
  revert Hl. rewrite !Forall_forall. intros Hl x Hx. apply Hl. by rewrite merge_sort_Permutation in Hx.
Qed.

Lemma flat_shorter same args :
  Forall (fun e => wf e = true) args -> Forall (fun e => concats_split e = true) args ->
  Forall shorter_piece (flat_args p same args).
Proof.
  intros Hw Hs. assert (forall l, Forall (fun e => wf e = true) l -> Forall (fun e => concats_split e = true) l ->
    Forall shorter_piece l) as Hall.
  { clear. intros l Hw Hs. induction Hw as [|a l Ha _ IH]; [done|]. apply Forall_cons in Hs as [Hsa Hs].
    constructor; [by apply concats_split_shorter|by apply IH]. }
  unfold flat_args. destruct (m_flat p); [|by apply Hall].
  induction Hw as [|a args Ha _ IH]; [done|]. apply Forall_cons in Hs as [Hsa Hs]. cbn [map concat].
  apply Forall_app. split; [|by apply IH]. destruct (same a).
  - apply Hall; [|by apply concats_split_args]. destruct a as [|d l]; [constructor|]. by apply wf_app in Ha as (_ & _ & Ha).
  - by apply Hall; apply Forall_singleton.
Qed.

(** ** Disjunction *)

Lemma or_step_args s arg s' : or_step s arg = Some s' -> or_args s' ⊆ or_args s ++ [arg].
Proof.
  unfold or_step. intros Hs x. rewrite elem_of_app, list_elem_of_singleton.
  repeat (case_match; simplify_eq/=); rewrite ?elem_of_app, ?list_elem_of_singleton; tauto.
Qed.

Lemma or_loop_args s args s' : or_loop s args = Some s' -> or_args s' ⊆ or_args s ++ args.
Proof.
  revert s. induction args as [|a args IH]; intros s; cbn [or_loop].
  - intros [= <-]. by rewrite app_nil_r.
  - destruct (or_step s a) as [s1|] eqn:Hs; [|done]. cbn. intros Hl%IH x Hx%Hl.
    apply or_step_args in Hs. rewrite elem_of_app in Hx. rewrite elem_of_app, elem_of_cons.
    destruct Hx as [Hx%Hs|]; [|tauto]. rewrite elem_of_app, list_elem_of_singleton in Hx. tauto.
Qed.

Lemma rw_or_total args :
  Forall (fun e => wf e = true) args -> Forall (fun e => concats_split e = true) args ->
  exists r, rw_or p args = Ok r.
Proof.
  intros Hw Hs. unfold rw_or. destruct args as [|a [|b args]]; [by eexists..|]. set (l := a :: b :: args) in *.
  pose proof (flat_shorter is_bv_or l Hw Hs) as Hflat. set (flat := flat_args p is_bv_or l) in *.
  destruct (or_loop _ flat) as [s|] eqn:Hloop; [|by eexists]. apply or_loop_args in Hloop. cbn [or_args app] in Hloop.
  destruct (_ =? _); [by eexists|]. destruct (merge_concats _ s); [by eexists|].
  destruct (_ && _); [by eexists|]. destruct (_ && _ && _ && _); [by eexists|]. unfold or_finish.
  assert (Forall shorter_piece (or_args s ++ (if or_v1 s =? 0 then [] else [mk_numeral (or_v1 s) (get_bv_size a)]))) as Hl.
  { apply Forall_app. split; [rewrite Forall_forall in Hflat |- *; auto|].
    destruct (_ =? _); [constructor|]. apply Forall_singleton, numeral_shorter. }
  destruct (or_args s ++ _) as [|x [|y rest]]; [by eexists..|by apply rebuild_total].
Qed.

(** ** Exclusive or *)

Lemma xor_new_args_subset pos neg args : xor_new_args pos neg args ⊆ args.
Proof.
  revert pos neg. induction args as [|a args IH]; intros pos neg; cbn [xor_new_args]; [done|].
  repeat case_match; try (by apply list_subseteq_skip); (intros x Hx%IH; by apply elem_of_cons; right).
Qed.

Lemma rw_xor_total args :
  Forall (fun e => wf e = true) args -> Forall (fun e => concats_split e = true) args ->
  exists r, rw_xor p args = Ok r.
Proof.
  intros Hw Hs. unfold rw_xor. destruct args as [|a [|b args]]; [by eexists..|]. set (l := a :: b :: args) in *.
  pose proof (flat_shorter is_bv_xor l Hw Hs) as Hflat. set (flat := flat_args p is_bv_xor l) in *. cbv zeta.
  set (s := foldl _ _ flat). destruct (_ && _); [by eexists|]. destruct (_ && _ && _ && _).
  { destruct (distribute_total OP_BXOR flat Hflat) as [d ->]. by eexists. }
  unfold xor_finish.
  assert (Forall shorter_piece ((if xor_v1 s =? 0 then [] else [mk_numeral (xor_v1 s) (get_bv_size a)])
    ++ xor_new_args (xor_pos s) (xor_neg s) flat)) as Hl.
  { apply Forall_app. split; [destruct (_ =? _); [constructor|]; apply Forall_singleton, numeral_shorter|].
    rewrite Forall_forall in Hflat |- *. intros x Hx. by eapply Hflat, xor_new_args_subset. }
  destruct ((if xor_v1 s =? 0 then _ else _) ++ _) as [|x [|y [|z rest]]]; [by eexists..| |by apply rebuild_total].
  destruct (is_allone x); [by eexists|by apply rebuild_total].
Qed.

Lemma rw_mul_total args : m_mul2concat p = false -> exists r, rw_mul p get_id args = Ok r.
Proof.
  intros Hm. unfold rw_mul, mul2concat. rewrite Hm. repeat case_match; by eexists.
Qed.

(** ** Every operator *)

Lemma mk_app_core_total f k args :
  m_mul2concat p = false -> Forall (fun e => wf e = true) args -> Forall (fun e => concats_split e = true) args ->
  exists r, mk_app_core p get_id ref_count mk_conversion f k args = Ok r.
Proof.
  intros Hm Hw Hs. destruct (rw_or_total args Hw Hs) as [r1 H1], (rw_xor_total args Hw Hs) as [r2 H2].
  destruct (rw_mul_total args Hm) as [r3 H3].
  destruct k; cbn [mk_app_core]; try (by eexists); try (destruct (extract_params _));
    unfold with_binary, with_unary; try (destruct args as [|? [|? [|]]]; by eexists).
Qed.

(** The exceptions come from the distribution over a concatenation and from the
    products by one that are to become shifts. *)
Lemma distribute_fault k l e : distribute_concat k l = Fault e -> e = Z3Exception.
Proof. unfold distribute_concat, split_at. repeat case_match; cbn; congruence. Qed.

Lemma rebuild_fault k l e : rebuild p k l = Fault e -> e = Z3Exception.
Proof. unfold rebuild. destruct (distribute_concat _ _) eqn:Hd; cbn; [done|]. intros [= <-]. by apply distribute_fault in Hd. Qed.

Lemma rw_or_fault args e : rw_or p args = Fault e -> e = Z3Exception.
Proof.
  unfold rw_or, or_finish. repeat case_match; try done; apply rebuild_fault.
Qed.

Lemma rw_xor_fault args e : rw_xor p args = Fault e -> e = Z3Exception.
Proof.
  unfold rw_xor, xor_finish. destruct args as [|a [|b args]]; [done..|]. cbv zeta.
  destruct (_ && _); [done|]. destruct (_ && _).
  - destruct (distribute_concat _ _) eqn:Hd; cbn; [done|]. intros [= <-]. by apply distribute_fault in Hd.
  - repeat case_match; try done; apply rebuild_fault.
Qed.

Lemma rw_mul_fault args e : rw_mul p get_id args = Fault e -> e = Z3Exception.
Proof. unfold rw_mul, mul2concat. repeat case_match; congruence. Qed.

Lemma mk_app_core_fault f k args e :
  mk_app_core p get_id ref_count mk_conversion f k args = Fault e -> e = Z3Exception /\ k ∈ [OP_BOR; OP_BXOR; OP_BMUL].
Proof.
  destruct k; cbn [mk_app_core]; try done; try (destruct (extract_params _));
    try (unfold with_binary, with_unary; destruct args as [|? [|? [|]]]; done); (split; [|rewrite !elem_of_cons; auto]).
  - by eapply rw_mul_fault.
  - by eapply rw_or_fault.
  - by eapply rw_xor_fault.
Qed.

(** ** Where the exception is raised *)

(** A concatenation of one part. *)
Lemma distribute_one_part n x k l : vec n x -> distribute_concat k (mk_bv_concat [x] :: l) = Fault Z3Exception.
Proof.
  intros Hx. assert (Forall bvec [x]) as Hv by (apply Forall_singleton; by eapply vec_bvec).
  destruct (den_concat default_interp [x] ltac:(done) Hv) as (_ & Hs & _).
  assert (is_concat (mk_bv_concat [x]) = true) as Hc.
  { unfold mk_bv_concat, bv_app. rewrite concat_decl_made; [done..|]. cbn. by rewrite (proj2 Hx). }
  unfold distribute_concat. cbn [List.find]. rewrite Hc. unfold split_at, get_bv_size at 2. rewrite Hs.
  cbn [sort_bv_size]. unfold get_arg, mk_bv_concat, bv_app. cbn [get_args nth]. rewrite width_cons. cbn.
  by rewrite Nat.add_0_r, Nat.eqb_refl.
Qed.

(** No numeral, negation or exclusive disjunction: nothing to merge or flatten. *)
Definition xor_atom (e : expr) : Prop := is_numeral e = None /\ is_bv_not e = false /\ is_bv_xor e = false.

Lemma xor_atoms_fold sz l pos :
  Forall xor_atom l -> NoDup l -> (forall e, e ∈ l -> e ∉ pos) ->
  foldl (xor_step sz) {| xor_v1 := 0; xor_coeffs := 0; xor_merged := false; xor_pos := pos; xor_neg := [] |} l
  = {| xor_v1 := 0; xor_coeffs := 0; xor_merged := false; xor_pos := rev l ++ pos; xor_neg := [] |}.
Proof.
  intros Hl. revert pos. induction Hl as [|e l (Hn & Hb & _) _ IH]; intros pos Hnd Hpos; [done|].
  apply NoDup_cons in Hnd as [He Hnd]. cbn [foldl]. unfold xor_step at 2. rewrite Hn, Hb. cbn [xor_pos xor_neg].
  rewrite !bool_decide_eq_false_2; [|by apply not_elem_of_nil|apply Hpos; by left]. cbn.
  rewrite IH; [by rewrite <- app_assoc|done|]. intros x Hx [->|Hp]%elem_of_cons; [done|]. apply (Hpos x); [by right|done].
Qed.

Lemma flat_atoms l : Forall xor_atom l -> flat_args p is_bv_xor l = l.
Proof.
  intros Hl. unfold flat_args. destruct (m_flat p); [|done]. induction Hl as [|e l (_ & _ & Hx) _ IH]; [done|].
  cbn [map concat]. by rewrite Hx, IH.
Qed.

Lemma one_part_atom n x : vec n x -> xor_atom (mk_bv_concat [x]).
Proof.
  intros Hx. unfold mk_bv_concat, bv_app. rewrite concat_decl_made; [|done|]; [by split_and!|].
  cbn. by rewrite (proj2 Hx).
Qed.

(** An exclusive disjunction of atoms, one of which is such a concatenation. *)
Lemma xor_one_part n x l f :
  m_bv_sort_ac p = false -> vec n x -> l <> [] -> Forall xor_atom l -> NoDup (mk_bv_concat [x] :: l) ->
  mk_app_core p get_id ref_count mk_conversion f OP_BXOR (mk_bv_concat [x] :: l) = Fault Z3Exception.
Proof.
  intros Hsort Hx Hne Hl Hnd. cbn [mk_app_core]. destruct l as [|y l]; [done|]. set (args := mk_bv_concat [x] :: y :: l) in *.
  assert (Forall xor_atom args) as Hargs by (constructor; [by eapply one_part_atom|done]).
  assert (forall sz, foldl (xor_step sz) {| xor_v1 := 0; xor_coeffs := 0; xor_merged := false; xor_pos := []; xor_neg := [] |} args
    = {| xor_v1 := 0; xor_coeffs := 0; xor_merged := false; xor_pos := rev args ++ []; xor_neg := [] |}) as Hfold.
  { intros sz. apply xor_atoms_fold; [done..|]. intros e _. by apply not_elem_of_nil. }
  change (rw_xor p args = Fault Z3Exception). unfold rw_xor. unfold args at 1. cbv zeta.
  rewrite (flat_atoms args Hargs), Hfold, Nat.eqb_refl, Hsort. cbn [xor_v1 xor_coeffs xor_merged Z.eqb negb andb orb Nat.eqb].
  unfold args. by rewrite (distribute_one_part n).
Qed.
End Total.
