(* ===== verification/LocalCtx.v ===== *)
(** Local contextual simplification (bool_rewriter.cpp, lines 300 to 609): with
    [local_ctx] on, a disjunct may assume that the other disjuncts are false.
    The disjunction with it, and the counter [m_local_ctx_cost], a 32-bit
    unsigned, which is passed along and bounds how often it is tried. *)
From S2P Require Import Prelude Ast BoolRewriter.

Definition mk_or_app (args : list expr) : expr :=
  match args with
  | [] => m_false
  | [a] => a
  | _ => m_mk_or args
  end.

(** [m_local_ctx_cost += n]. *)
Definition add_cost (cost n : Z) : Z := to_unsigned (cost + n).

(** The state of a round over the arguments: what is kept so far, its atoms
    under a negation and its other members, and the flags of the search. *)
Record ctx := mk_ctx {
  new_args : list expr;
  neg_lits : list expr;
  pos_lits : list expr;
  modified : bool;
  simp : bool;
  local_ctx_cost : Z
}.

Definition with_cost (st : ctx) (cost : Z) : ctx :=
  mk_ctx (new_args st) (neg_lits st) (pos_lits st) (modified st) (simp st) cost.

(** [modified = true; simp = true]. *)
Definition mark_modified (st : ctx) : ctx :=
  mk_ctx (new_args st) (neg_lits st) (pos_lits st) true true (local_ctx_cost st).

Definition push_new_arg (arg : expr) (st : ctx) : ctx :=
  let '(mk_ctx new neg pos m s c) := st in
  if is_not arg then
    let narg := get_arg arg 0 in
    if bool_decide (narg ∈ neg) then st else mk_ctx (new ++ [arg]) (narg :: neg) pos m s c
  else
    if bool_decide (arg ∈ pos) then st else mk_ctx (new ++ [arg]) neg (arg :: pos) m s c.

Section LocalCtx.
Context (p : bool_rewriter_params).

(** ** One disjunct under the marks *)

Section Marks.
Context (neg_lits pos_lits : list expr).

(** The loop of [simp_nested_not_or]: [None] when the disjunction is true. *)
Fixpoint drop_false (args : list expr) (simp : bool) (new_args : list expr)
    : option (bool * list expr) :=
  match args with
  | [] => Some (simp, new_args)
  | arg :: args =>
      let drop := drop_false args true new_args in
      let keep := drop_false args simp (new_args ++ [arg]) in
      if bool_decide (arg ∈ neg_lits) then None
      else if bool_decide (arg ∈ pos_lits) then drop
      else if is_not arg then
        let atom := get_arg arg 0 in
        if bool_decide (atom ∈ neg_lits) then drop
        else if bool_decide (atom ∈ pos_lits) then None
        else keep
      else keep
  end.

(** [args] are those of the disjunction under the negation. *)
Definition simp_nested_not_or (args : list expr) (cost : Z) : option expr * Z :=
  (match drop_false args false [] with
   | None => Some m_false
   | Some (false, _) => None
   | Some (true, []) => Some m_true
   | Some (true, [e]) => Some (mk_not p e)
   | Some (true, new_args) => Some (m_mk_not (m_mk_or new_args))
   end, add_cost cost (Z.of_nat (length args))).

(** The term, and whether it was replaced. *)
Definition simp_arg (arg : expr) : expr * bool :=
  if is_not arg then
    let atom := get_arg arg 0 in
    if bool_decide (atom ∈ neg_lits) then (m_false, true)
    else if bool_decide (atom ∈ pos_lits) then (m_true, true)
    else (arg, false)
  else
    if bool_decide (arg ∈ neg_lits) then (m_true, true)
    else if bool_decide (arg ∈ pos_lits) then (m_false, true)
    else (arg, false).

Definition mk_nested_ite (c t e : expr) : expr :=
  if is_true c then t
  else if is_false c then e
  else if bool_decide (t = e) then t
  else if is_bool t then
    if is_true t then (if is_false e then c else m_mk_or [c; e])
    else if is_false t then
      (if is_true e then mk_not p c else m_mk_not (m_mk_or [c; mk_not p e]))
    else if is_true e then m_mk_or [mk_not p c; t]
    else if is_false e || bool_decide (c = e) then
      m_mk_not (m_mk_or [mk_not p c; mk_not p t])
    else if bool_decide (c = t) then m_mk_or [c; e]
    else if is_complement_core t e then mk_eq p c t
    else if is_complement_core e t then mk_eq p c t
    else m_mk_ite c t e
  else m_mk_ite c t e.

Definition simp_nested_eq_ite (t : expr) (cost : Z) : option expr * Z :=
  let neg := is_not t in
  let t := if neg then get_arg t 0 else t in
  let result r := Some (if neg then mk_not p r else r) in
  (if is_eq t then
     let '(new_lhs, m1) := simp_arg (get_arg t 0) in
     let '(new_rhs, m2) := simp_arg (get_arg t 1) in
     if negb (m1 || m2) then None else result (mk_eq p new_lhs new_rhs)
   else if is_ite t then
     let '(new_c, m1) := simp_arg (get_arg t 0) in
     let '(new_t, m2) := simp_arg (get_arg t 1) in
     let '(new_e, m3) := simp_arg (get_arg t 2) in
     if negb (m1 || m2 || m3) then None else result (mk_nested_ite new_c new_t new_e)
   else None, add_cost cost 3).
End Marks.

(** ** The rounds *)

(** A simplification that succeeds replaces the argument. *)
Definition replace_arg (arg : expr) (st : ctx) (r : option expr * Z) : expr * ctx :=
  let st := with_cost st r.2 in
  match r.1 with Some new_arg => (new_arg, mark_modified st) | None => (arg, st) end.

Definition try_not_or (arg : expr) (st : ctx) : expr * ctx :=
  if is_not arg && is_or (get_arg arg 0) then
    replace_arg arg st
      (simp_nested_not_or (neg_lits st) (pos_lits st) (get_args (get_arg arg 0)) (local_ctx_cost st))
  else (arg, st).

Definition try_eq_ite (arg : expr) (st : ctx) : expr * ctx :=
  replace_arg arg st (simp_nested_eq_ite (neg_lits st) (pos_lits st) arg (local_ctx_cost st)).

(** [PROCESS_ARG]; on the left, [result] when the disjunction is found true. *)
Definition process_arg (arg : expr) (st : ctx) : (expr * Z) + ctx :=
  let '(arg, st) := try_not_or arg st in
  let '(arg, st) := try_eq_ite arg st in
  if is_false arg then inr st
  else if is_true arg then inl (arg, local_ctx_cost st)
  else if flat p && is_or arg then inr (foldl (fun st a => push_new_arg a st) st (get_args arg))
  else inr (push_new_arg arg st).

Fixpoint process_args (args : list expr) (st : ctx) : (expr * Z) + ctx :=
  match args with
  | [] => inr st
  | arg :: args =>
      match process_arg arg st with
      | inl r => inl r
      | inr st => process_args args st
      end
  end.

(** The [while (true)] of [local_ctx_simp]: [fuel] bounds the rounds. *)
Fixpoint local_ctx_loop (fuel : nat) (forward : bool) (args : list expr) (modified0 simp0 : bool)
    (cost : Z) : res (option expr * Z) :=
  match fuel with
  | O => Fault OutOfFuel
  | S fuel =>
      let st := mk_ctx [] [] [] modified0 simp0 (add_cost cost (2 * Z.of_nat (length args))) in
      match process_args (if forward then args else rev args) st with
      | inl (result, cost) => Ok (Some result, cost)
      | inr st =>
          if forward then
            local_ctx_loop fuel false (new_args st) (modified st) (simp st) (local_ctx_cost st)
          else if negb (modified st) then
            Ok (if simp st then Some (mk_or_app args) else None, local_ctx_cost st)
          else local_ctx_loop fuel true (rev (new_args st)) false (simp st) (local_ctx_cost st)
      end
  end.

(** Two rounds that change something make the arguments lighter. *)
Definition weights (args : list expr) : nat := sum_list (map weight args).
Definition local_ctx_simp (args : list expr) (cost : Z) : res (option expr * Z) :=
  local_ctx_loop (2 * S (weights args)) true args false false cost.

(** ** The connectives with it *)

Context (local_ctx : bool) (local_ctx_limit : Z) (get_id : expr -> Z).

Definition mk_nflat_or_core_ctx (args : list expr) (cost : Z) : res (br_status * Z) :=
  match scan is_false is_true (fun prev arg => negb (lt arg prev)) args [] [] false [] with
  | None => Ok (BR_DONE m_true, cost)
  | Some (_, []) => Ok (BR_DONE m_false, cost)
  | Some (_, [e]) => Ok (BR_DONE e, cost)
  | Some (s, buffer) =>
      let sorted cost := Ok (if s then BR_DONE (m_mk_or (sort_ids get_id buffer)) else BR_FAILED, cost) in
      if local_ctx && (cost <=? local_ctx_limit) then
        '(r, cost) ← local_ctx_simp buffer cost;
        match r with Some result => Ok (BR_DONE result, cost) | None => sorted cost end
      else sorted cost
  end.

Definition mk_flat_or_core_ctx (args : list expr) (cost : Z) : res (br_status * Z) :=
  match split_or args with
  | (_, []) => mk_nflat_or_core_ctx args cost
  | (before, nested) =>
      let '(ordered, l) := flatten_or nested true None in
      let flat_args := before ++ l in
      '(r, cost) ← mk_nflat_or_core_ctx flat_args cost;
      Ok (BR_DONE (result_or r (m_mk_or (if ordered then flat_args else sort_ids get_id flat_args))),
          cost)
  end.

Definition mk_or_core_ctx (args : list expr) (cost : Z) : res (br_status * Z) :=
  if flat p then mk_flat_or_core_ctx args cost else mk_nflat_or_core_ctx args cost.

Definition mk_or_ctx (args : list expr) (cost : Z) : res (expr * Z) :=
  '(r, cost) ← mk_or_core_ctx args cost; Ok (result_or r (m_mk_or args), cost).

Definition mk_and_as_or_ctx (args : list expr) (cost : Z) : res (expr * Z) :=
  '(r, cost) ← mk_or_ctx (map (mk_not p) args) cost; Ok (mk_not p r, cost).

Definition mk_and_core_ctx (args : list expr) (cost : Z) : res (br_status * Z) :=
  if elim_and p then '(r, cost) ← mk_and_as_or_ctx args cost; Ok (BR_DONE r, cost)
  else Ok (if flat p then mk_flat_and_core args else mk_nflat_and_core args, cost).
End LocalCtx.

(** [reset_local_ctx_cost]. *)
Definition reset_local_ctx_cost (_ : Z) : Z := 0.
