(* ===== verification/LocalCtxOk.v ===== *)
(** Contextual simplification is correct: what replaces a disjunct has its
    value whenever the marks hold, and is lighter, so the rounds end. *)
From S2P Require Import Prelude Ast AstSem AstFacts BoolRewriter BoolRewriterOk LocalCtx.

Section Weights.
Context (p : bool_rewriter_params).

Lemma weights_cons e l : weights (e :: l) = (weight e + weights l)%nat.
Proof. done. Qed.

Lemma weights_app l1 l2 : weights (l1 ++ l2) = (weights l1 + weights l2)%nat.
Proof. induction l1 as [|e l1 IH]; [done|]. cbn [app]. rewrite !weights_cons, IH. lia. Qed.

Lemma weights_single e : weights [e] = weight e.
Proof. rewrite weights_cons. apply Nat.add_0_r. Qed.

Lemma weights_perm l1 l2 : Permutation l1 l2 -> weights l1 = weights l2.
Proof. induction 1; rewrite ?weights_cons; lia. Qed.

Lemma weights_rev l : weights (rev l) = weights l.
Proof. symmetry. apply weights_perm, Permutation_rev. Qed.

Lemma weight_args k e :
  is_app_of e (Basic k) = true -> k <> OP_ITE -> weight e = S (weights (get_args e)).
Proof. intros (d & args & -> & Hk)%is_app_of_spec Hi. by apply (weight_basic k). Qed.

Lemma weight_not_arg e : is_not e = true -> wf e = true -> weight e = S (weight (get_arg e 0)).
Proof.
  intros Hn Hw. destruct (not_inv default_interp e Hn Hw) as (x & -> & Hx & _).
  rewrite (weight_args OP_NOT e Hn) by done. rewrite Hx, !weights_cons. cbn. lia.
Qed.

Lemma weight_eq_args e :
  is_eq e = true -> wf e = true -> weight e = S (weight (get_arg e 0) + weight (get_arg e 1)).
Proof.
  intros He Hw. destruct (eq_inv default_interp e He Hw) as (a & b & -> & -> & Hx & _).
  rewrite (weight_args OP_EQ e He) by done. rewrite Hx, !weights_cons. cbn. lia.
Qed.

Lemma weight_ite_args e :
  is_ite e = true -> wf e = true ->
  weight e = (5 + weight (get_arg e 0) + weight (get_arg e 1) + weight (get_arg e 2))%nat.
Proof.
  intros He Hw. destruct (ite_inv default_interp e He Hw) as (d & c & t & f & -> & _).
  unfold is_ite in He. apply is_app_of_spec in He as (d' & l & [= <- <-] & Hk). by apply weight_ite.
Qed.

Lemma mk_not_weight t : wfb t = true -> (weight (mk_not p t) <= S (weight t))%nat.
Proof. intros Ht. pose proof (mk_not_fuel_weight p (weight t) t Ht). unfold mk_not. lia. Qed.

Lemma mk_eq_weight l r :
  wf l = true -> wf r = true -> get_sort l = get_sort r ->
  (weight (mk_eq p l r) <= 1 + weight l + weight r)%nat.
Proof.
  intros. apply mk_eq_with_weight; try done. intros x Hx. pose proof (mk_not_weight x Hx). lia.
Qed.

(** An equality with [true] or [false] goes away. *)
Lemma mk_eq_value_weight l r :
  wfb l = true -> wfb r = true -> basic_is_value l || basic_is_value r = true ->
  (weight (mk_eq p l r) <= weight l + weight r)%nat.
Proof.
  intros Hl Hr Hv. pose proof (weight_pos l). pose proof (weight_pos r).
  pose proof (mk_not_weight l Hl). pose proof (mk_not_weight r Hr).
  pose proof Hl as [Hwl Hsl]%wfb_spec. pose proof Hr as [Hwr Hsr]%wfb_spec.
  unfold mk_eq, mk_eq_with, mk_eq_core_with.
  destruct (are_equal l r); [cbn; lia|]. destruct (are_distinct l r); [cbn; lia|].
  set (b := if negb (ite_extra_rules p) then _ else _).
  assert (b = BR_FAILED \/ (weight (result_or b m_true) <= weight l + weight r)%nat) as Hb.
  { unfold b. destruct (negb _); [by left|].
    destruct (is_ite l) eqn:Hil, (is_ite r) eqn:Hir, (is_value l) eqn:Hvl, (is_value r) eqn:Hvr;
      cbn [andb]; try (by left); right;
      (etransitivity; [by apply try_ite_value_weight|lia]). }
  clearbody b. destruct b; [destruct Hb as [?|Hb]; [done|exact Hb]..|]. clear Hb.
  unfold is_bool. rewrite Hsl. cbn [is_bool_sort].
  assert (is_not l && is_not r = false) as ->.
  { unfold basic_is_value in Hv. rewrite !orb_true_iff in Hv.
    destruct Hv as [[->%is_true_spec| ->%is_false_spec]|[->%is_true_spec| ->%is_false_spec]];
      cbn; rewrite ?andb_false_r; done. }
  unfold basic_is_value in Hv. destruct (is_true l) eqn:Hlt, (is_false l) eqn:Hlf,
    (is_true r) eqn:Hrt, (is_false r) eqn:Hrf; try discriminate Hv; cbn [result_or]; lia.
Qed.
End Weights.

(** ** [mk_nested_ite] *)

Section NestedIte.
Context (I : interp) (p : bool_rewriter_params).
Local Abbreviation tr := (tr I).
Local Abbreviation holds := (holds I).

(** A choice between formulas; a literal among the parts makes it lighter. *)
Lemma mk_nested_ite_ok c t e :
  wfb c = true -> wfb t = true -> wfb e = true ->
  holds (if tr c then tr t else tr e) (mk_nested_ite p c t e).
Proof.
  intros Hc Ht He. pose proof (holds_self I c Hc) as Mc. pose proof (holds_self I t Ht) as Mt.
  pose proof (holds_self I e He) as Me. unfold mk_nested_ite.
  assert (forall x, is_true x = true -> tr x = true) as Htrue by apply tr_is_true.
  assert (forall x, is_false x = true -> tr x = false) as Hfalse by apply tr_is_false.
  assert (forall x y, bool_decide (x = y) = true -> tr x = tr y) as Hsame
    by (intros x y ->%bool_decide_eq_true; done).
  assert (forall x y, wfb x = true -> is_complement_core x y = true -> tr x = negb (tr y)) as Hcompl
    by (intros x y [? _]%wfb_spec; by apply complement_core_ok).
  repeat match goal with
  | |- holds _ (if ?b then _ else _) => let Hb := fresh "Hb" in destruct b eqn:Hb
  end;
  repeat match goal with
  | Hb : _ || _ = true |- _ => apply orb_true_iff in Hb as [Hb|Hb]
  | Hb : is_true ?x = true |- _ => apply Htrue in Hb
  | Hb : is_false ?x = true |- _ => apply Hfalse in Hb
  | Hb : bool_decide (?x = ?y) = true |- _ => apply Hsame in Hb
  | Hb : is_complement_core ?x ?y = true |- _ => apply Hcompl in Hb; [|done]
  end;
  (eapply holds_ext; [eauto using not_ok, holds_not, holds_or2, eq_ok, holds_ite|]);
  destruct (tr c), (tr t), (tr e); congruence || done.
Qed.

Lemma mk_nested_ite_weight c t e :
  wfb c = true -> wfb t = true -> wfb e = true ->
  basic_is_value c || basic_is_value t || basic_is_value e = true ->
  (weight (mk_nested_ite p c t e) < 5 + weight c + weight t + weight e)%nat.
Proof.
  intros Hc Ht He Hv. pose proof (weight_pos c). pose proof (weight_pos t). pose proof (weight_pos e).
  pose proof (mk_not_weight p c Hc). pose proof (mk_not_weight p t Ht).
  pose proof (mk_not_weight p e He). pose proof Hc as [Hwc Hsc]%wfb_spec.
  pose proof Ht as [Hwt Hst]%wfb_spec. pose proof (mk_eq_weight p c t Hwc Hwt ltac:(congruence)).
  unfold mk_nested_ite, is_bool. rewrite Hst. cbn [is_bool_sort].
  unfold basic_is_value in Hv. destruct (is_true c), (is_false c), (is_true t), (is_false t),
    (is_true e), (is_false e); try discriminate Hv; cbn [orb];
    repeat case_match; cbn; lia.
Qed.
End NestedIte.

(** ** One disjunct under the marks *)

Section Marks.
Context (I : interp) (p : bool_rewriter_params).
Local Abbreviation eval := (eval I).
Local Abbreviation tr := (tr I).
Local Abbreviation holds := (holds I).
Local Abbreviation all_wfb := (Forall (fun e => wfb e = true)).
Context (neg pos : list expr) (neg_wfb : all_wfb neg) (pos_wfb : all_wfb pos).

(** The disjuncts the marks come from are false. *)
Definition marks_hold : Prop :=
  (forall x, x ∈ neg -> tr x = true) /\ (forall x, x ∈ pos -> tr x = false).

(** [r] may replace [e]. *)
Definition improves (e r : expr) : Prop :=
  wfb r = true /\ (marks_hold -> tr r = tr e) /\ (weight r < weight e)%nat.

Lemma marked_wfb x : x ∈ neg \/ x ∈ pos -> wfb x = true.
Proof. rewrite Forall_forall in neg_wfb, pos_wfb. intros [?|?]; auto. Qed.

(** What [simp_arg] leaves of [arg]. *)
Definition simplified (arg a : expr) (m : bool) : Prop :=
  wf a = true /\ get_sort a = get_sort arg /\ (weight a <= weight arg)%nat
  /\ (m = true -> basic_is_value a = true) /\ (marks_hold -> eval a = eval arg).

Lemma simplified_self arg : wf arg = true -> simplified arg arg false.
Proof. done. Qed.

Lemma simplified_literal arg a b :
  wfb arg = true -> holds b a -> basic_is_value a = true -> (marks_hold -> tr arg = b) ->
  simplified arg a true.
Proof.
  intros Ha Hh Hv Hb. pose proof Hh as [[Hwa Hsa]%wfb_spec _]. pose proof Ha as [_ Hs]%wfb_spec.
  split_and!; try done; [congruence| |].
  - rewrite (value_weight a); [apply weight_pos|].
    unfold basic_is_value in Hv. by apply orb_true_iff in Hv as [->%is_true_spec| ->%is_false_spec].
  - intros Hm. rewrite (holds_eval I b a Hh), (eval_bool I arg Ha). by rewrite <- (Hb Hm).
Qed.

Lemma simp_arg_ok arg :
  wf arg = true -> simplified arg (simp_arg neg pos arg).1 (simp_arg neg pos arg).2.
Proof.
  intros Hw. unfold simp_arg. destruct (is_not arg) eqn:Hn.
  - destruct (not_inv I arg Hn Hw) as (x & -> & _ & Hx & Ha & Ht).
    case_bool_decide as Hxn; [|case_bool_decide as Hxp; [|by apply simplified_self]]; cbn [fst snd].
    + apply (simplified_literal arg _ false Ha); [apply holds_false|done|].
      intros [Hm _]. by rewrite Ht, Hm.
    + apply (simplified_literal arg _ true Ha); [apply holds_true|done|].
      intros [_ Hm]. by rewrite Ht, Hm.
  - case_bool_decide as Hxn; [|case_bool_decide as Hxp; [|by apply simplified_self]]; cbn [fst snd].
    + apply (simplified_literal arg _ true); [apply marked_wfb; auto|apply holds_true|done|].
      intros [Hm _]. by apply Hm.
    + apply (simplified_literal arg _ false); [apply marked_wfb; auto|apply holds_false|done|].
      intros [_ Hm]. by apply Hm.
Qed.

(** The loop over a nested disjunction. *)
Lemma drop_false_ok args s new :
  all_wfb args -> all_wfb new ->
  match drop_false neg pos args s new with
  | None => marks_hold -> existsb tr (new ++ args) = true
  | Some (s', l) =>
      all_wfb l /\ (marks_hold -> existsb tr l = existsb tr (new ++ args))
      /\ (weights l + (if s' && negb s then 1 else 0) <= weights new + weights args)%nat
  end.
Proof.
  intros Ha. revert s new. induction Ha as [|e args He Ha IH]; intros s new Hn; cbn [drop_false].
  { rewrite app_nil_r, andb_negb_r, !Nat.add_0_r. done. }
  assert (match drop_false neg pos args s (new ++ [e]) with
          | None => marks_hold -> existsb tr (new ++ e :: args) = true
          | Some (s', l) => all_wfb l /\ (marks_hold -> existsb tr l = existsb tr (new ++ e :: args))
              /\ (weights l + (if s' && negb s then 1 else 0) <= weights new + weights (e :: args))%nat
          end) as Hkeep.
  { specialize (IH s (new ++ [e])). rewrite <- app_assoc, weights_app, weights_single in IH.
    rewrite weights_cons, Nat.add_assoc. apply IH. apply Forall_app. auto. }
  assert ((marks_hold -> tr e = false) ->
          match drop_false neg pos args true new with
          | None => marks_hold -> existsb tr (new ++ e :: args) = true
          | Some (s', l) => all_wfb l /\ (marks_hold -> existsb tr l = existsb tr (new ++ e :: args))
              /\ (weights l + (if s' && negb s then 1 else 0) <= weights new + weights (e :: args))%nat
          end) as Hdrop.
  { intros Hf. specialize (IH true new Hn). destruct (drop_false _ _ _ _ _) as [[s' l]|].
    - destruct IH as (Hl & Hv & Hwt). split_and!; [done| |].
      + intros Hm. rewrite Hv, !existsb_app by done. cbn. by rewrite Hf.
      + pose proof (weight_pos e). rewrite weights_cons. cbn [negb] in Hwt. rewrite andb_false_r in Hwt.
        destruct (_ && _); lia.
    - intros Hm. rewrite existsb_app. cbn. rewrite Hf, orb_false_l, <- existsb_app by done. by apply IH. }
  assert ((marks_hold -> tr e = true) -> marks_hold -> existsb tr (new ++ e :: args) = true) as Habs.
  { intros Ht Hm. rewrite existsb_app. cbn. rewrite Ht by done. by rewrite orb_true_r. }
  case_bool_decide as Hen; [apply Habs; intros [Hm _]; by apply Hm|].
  case_bool_decide as Hep; [apply Hdrop; intros [_ Hm]; by apply Hm|].
  destruct (is_not e) eqn:Hne; [|done]. pose proof He as [Hw _]%wfb_spec.
  destruct (not_inv I e Hne Hw) as (x & -> & _ & _ & _ & Ht).
  case_bool_decide as Hxn; [apply Hdrop; intros [Hm _]; by rewrite Ht, Hm|].
  case_bool_decide as Hxp; [apply Habs; intros [_ Hm]; by rewrite Ht, Hm|done].
Qed.

Lemma simp_nested_not_or_ok arg cost r :
  wfb arg = true -> is_not arg = true -> is_or (get_arg arg 0) = true ->
  (simp_nested_not_or p neg pos (get_args (get_arg arg 0)) cost).1 = Some r -> improves arg r.
Proof.
  intros Ha Hn Ho. pose proof Ha as [Hw _]%wfb_spec. unfold improves. rewrite (weight_not_arg arg) by done.
  destruct (not_inv I arg Hn Hw) as (x & Hx & _ & Hwx & _ & ->). rewrite Hx in *.
  pose proof Hwx as [Hw' _]%wfb_spec. destruct (or_inv I x Ho Hw') as [Hargs [_ Hv]].
  rewrite (weight_args OP_OR x) by done. set (args := get_args x) in *. rewrite Hv.
  pose proof (drop_false_ok args false [] Hargs) as Hd. cbn [app] in Hd.
  unfold simp_nested_not_or. cbn [fst].
  destruct (drop_false _ _ _ _ _) as [[s l]|].
  - specialize (Hd ltac:(constructor)) as (Hl & Hlv & Hwt). destruct s; [|done]. cbn [andb negb] in Hwt.
    destruct l as [|e [|e' l]]; intros [= <-].
    + split_and!; [done|intros Hm; by rewrite <- Hlv|cbn in *; lia].
    + apply Forall_cons in Hl as [He _]. destruct (mk_not_ok I p e He) as [Hwn Hvn].
      pose proof (mk_not_weight p e He). rewrite weights_single in Hwt.
      split_and!; [done| |cbn in *; lia]. intros Hm. rewrite Hvn, <- Hlv by done. cbn. by rewrite orb_false_r.
    + destruct (holds_not I _ _ (holds_or I _ Hl)) as [Hwn Hvn].
      split_and!; [done|intros Hm; by rewrite Hvn, Hlv|]. cbn in *. lia.
  - intros [= <-]. split_and!; [done|intros Hm; by rewrite Hd|cbn; lia].
Qed.

(** The negation around an improved term. *)
Lemma improve_not neg_t t r :
  wfb t = true -> neg_t = is_not t ->
  (wfb (if neg_t then get_arg t 0 else t) = true -> improves (if neg_t then get_arg t 0 else t) r) ->
  improves t (if neg_t then mk_not p r else r).
Proof.
  intros Ht -> Hr. pose proof Ht as [Hw _]%wfb_spec. destruct (is_not t) eqn:Hn; [|by apply Hr].
  destruct (not_inv I t Hn Hw) as (x & Hx & _ & Hwx & _ & Htr). rewrite Hx in Hr.
  destruct (Hr Hwx) as (Hwr & Hv & Hwt). destruct (mk_not_ok I p r Hwr) as [Hwn Hvn].
  pose proof (mk_not_weight p r Hwr). split_and!; [done|intros Hm; by rewrite Hvn, Htr, Hv|].
  rewrite (weight_not_arg t Hn Hw), Hx. lia.
Qed.

Lemma simp_eq_ok t :
  wfb t = true -> is_eq t = true ->
  let '(l, m1) := simp_arg neg pos (get_arg t 0) in
  let '(r, m2) := simp_arg neg pos (get_arg t 1) in
  m1 || m2 = true -> improves t (mk_eq p l r).
Proof.
  intros Ht He. pose proof Ht as [Hw _]%wfb_spec. pose proof (weight_eq_args t He Hw) as Hwt.
  destruct (eq_inv I t He Hw) as (a & b & Ha & Hb & _ & Hwa & Hwb & Hs & _ & Hv).
  rewrite Ha, Hb in *. pose proof (simp_arg_ok a Hwa) as Hl. pose proof (simp_arg_ok b Hwb) as Hr.
  destruct (simp_arg neg pos a) as [l m1], (simp_arg neg pos b) as [r m2]. cbn [fst snd] in *.
  destruct Hl as (Hwl & Hsl & Hl & Hml & Hvl), Hr as (Hwr & Hsr & Hr & Hmr & Hvr). intros Hm.
  destruct (mk_eq_ok I p l r Hwl Hwr ltac:(congruence)) as [Hwe Hve].
  assert (basic_is_value l || basic_is_value r = true) as Hlit.
  { apply orb_true_iff. apply orb_true_iff in Hm as [Hm|Hm]; auto. }
  assert (get_sort l = BoolSort) as Hbl.
  { unfold basic_is_value in Hlit. rewrite !orb_true_iff in Hlit.
    destruct Hlit as [[->%is_true_spec| ->%is_false_spec]|[->%is_true_spec| ->%is_false_spec]];
      first [done|rewrite Hsl, Hs, <- Hsr; done]. }
  assert (wfb l = true) by by apply wfb_spec.
  assert (wfb r = true) by (apply wfb_spec; split; congruence).
  split_and!; [done|intros Hmk; by rewrite Hve, Hv, Hvl, Hvr|].
  pose proof (mk_eq_value_weight p l r ltac:(done) ltac:(done) Hlit). lia.
Qed.

Lemma simp_ite_ok t :
  wfb t = true -> is_ite t = true ->
  let '(c', m1) := simp_arg neg pos (get_arg t 0) in
  let '(t', m2) := simp_arg neg pos (get_arg t 1) in
  let '(e', m3) := simp_arg neg pos (get_arg t 2) in
  m1 || m2 || m3 = true -> improves t (mk_nested_ite p c' t' e').
Proof.
  intros Ht Hi. pose proof Ht as [Hw Hs]%wfb_spec. pose proof (weight_ite_args t Hi Hw) as Hwt.
  destruct (ite_inv I t Hi Hw) as (d & c & x & e & -> & Hc & Hwx & Hwe & Hsx & Hse & Hv).
  cbn [get_arg get_args nth] in *. pose proof Hc as [Hwc Hsc]%wfb_spec.
  pose proof (simp_arg_ok c Hwc) as Sc. pose proof (simp_arg_ok x Hwx) as Sx.
  pose proof (simp_arg_ok e Hwe) as Se.
  destruct (simp_arg neg pos c) as [c' m1], (simp_arg neg pos x) as [t' m2],
    (simp_arg neg pos e) as [e' m3]. cbn [fst snd] in *.
  destruct Sc as (Hwc' & Hsc' & Hlc & Hmc & Hvc), Sx as (Hwx' & Hsx' & Hlx & Hmx & Hvx),
    Se as (Hwe' & Hse' & Hle & Hme & Hve). intros Hm.
  assert (wfb c' = true) as Hbc by (apply wfb_spec; split; congruence).
  assert (wfb t' = true) as Hbt by (apply wfb_spec; split; congruence).
  assert (wfb e' = true) as Hbe by (apply wfb_spec; split; congruence).
  destruct (mk_nested_ite_ok I p c' t' e' Hbc Hbt Hbe) as [Hwr Hvr].
  split_and!; [done| |].
  - intros Hmk. rewrite Hvr. unfold AstFacts.tr. rewrite Hv, Hvc, Hvx, Hve by done.
    unfold AstFacts.tr. by destruct (truth (eval c)).
  - pose proof (mk_nested_ite_weight p c' t' e' Hbc Hbt Hbe) as Hlt.
    rewrite !orb_true_iff in Hm, Hlt. specialize (Hlt ltac:(tauto)). lia.
Qed.

Lemma simp_nested_eq_ite_ok t cost r :
  wfb t = true -> (simp_nested_eq_ite p neg pos t cost).1 = Some r -> improves t r.
Proof.
  intros Ht. unfold simp_nested_eq_ite. cbn [fst].
  set (u := if is_not t then get_arg t 0 else t).
  destruct (is_eq u) eqn:He; [|destruct (is_ite u) eqn:Hi; [|done]].
  - pose proof (simp_eq_ok u) as Hok. destruct (simp_arg _ _ (get_arg u 0)), (simp_arg _ _ (get_arg u 1)).
    destruct (_ || _); [|done]. intros [= <-]. apply improve_not; auto.
  - pose proof (simp_ite_ok u) as Hok. destruct (simp_arg _ _ (get_arg u 0)),
      (simp_arg _ _ (get_arg u 1)), (simp_arg _ _ (get_arg u 2)).
    destruct (_ || _); [|done]. intros [= <-]. apply improve_not; auto.
Qed.
End Marks.

(** ** The rounds *)

Section Rounds.
Context (I : interp) (p : bool_rewriter_params).
Local Abbreviation tr := (tr I).
Local Abbreviation holds := (holds I).
Local Abbreviation all_wfb := (Forall (fun e => wfb e = true)).

(** The marks come from the arguments kept. *)
Definition ctx_ok (st : ctx) : Prop :=
  all_wfb (new_args st)
  /\ (forall x, x ∈ neg_lits st -> wfb x = true /\ exists a, a ∈ new_args st /\ tr a = negb (tr x))
  /\ (forall x, x ∈ pos_lits st -> x ∈ new_args st).

(** One for a modification that the flag did not show before. *)
Definition gain (st st' : ctx) : nat := if modified st' && negb (modified st) then 1 else 0.

(** Processing [l] led from [st] to [st']. *)
Definition kept (st st' : ctx) (l : list expr) : Prop :=
  ctx_ok st' /\ existsb tr (new_args st') = existsb tr (new_args st ++ l)
  /\ (weights (new_args st') + gain st st' <= weights (new_args st) + weights l)%nat
  /\ implb (modified st) (modified st') = true.

(** [arg] was replaced by [arg'], with nothing kept yet. *)
Definition replaced (st : ctx) (arg : expr) (st' : ctx) (arg' : expr) : Prop :=
  new_args st' = new_args st /\ neg_lits st' = neg_lits st /\ pos_lits st' = pos_lits st
  /\ wfb arg' = true /\ (marks_hold I (neg_lits st) (pos_lits st) -> tr arg' = tr arg)
  /\ (weight arg' + gain st st' <= weight arg)%nat /\ implb (modified st) (modified st') = true.

Lemma gain_trans st st1 st2 :
  implb (modified st) (modified st1) = true -> implb (modified st1) (modified st2) = true ->
  (gain st st2 <= gain st st1 + gain st1 st2)%nat.
Proof. unfold gain. by destruct (modified st), (modified st1), (modified st2); cbn; lia || intros. Qed.

Lemma implb_trans a b c : implb a b = true -> implb b c = true -> implb a c = true.
Proof. by destruct a, b, c. Qed.

Lemma marks_of_ctx st :
  ctx_ok st -> existsb tr (new_args st) = false -> marks_hold I (neg_lits st) (pos_lits st).
Proof.
  intros (_ & Hn & Hp) Hf.
  assert (forall a, a ∈ new_args st -> tr a = false) as Hall.
  { intros a Ha. apply not_true_is_false. intros Ht. rewrite <- not_true_iff_false in Hf. apply Hf.
    apply existsb_exists. exists a. by rewrite <- list_elem_of_In. }
  split; intros x Hx; [|by apply Hall, Hp].
  destruct (Hn x Hx) as (_ & a & Ha & Hta). rewrite (Hall a Ha) in Hta. by destruct (tr x).
Qed.

Lemma ctx_marks_wfb st : ctx_ok st -> all_wfb (neg_lits st) /\ all_wfb (pos_lits st).
Proof.
  intros (Hw & Hn & Hp). rewrite !Forall_forall in *. split; intros x Hx; [by apply Hn|by apply Hw, Hp].
Qed.

Lemma kept_nil st : ctx_ok st -> kept st st [].
Proof.
  intros Hst. split_and!; [done|by rewrite app_nil_r| |by destruct (modified st)].
  unfold gain. rewrite andb_negb_r. lia.
Qed.

Lemma kept_app st st1 st2 l1 l2 : kept st st1 l1 -> kept st1 st2 l2 -> kept st st2 (l1 ++ l2).
Proof.
  intros (H1 & V1 & W1 & M1) (H2 & V2 & W2 & M2). pose proof (gain_trans st st1 st2 M1 M2).
  split_and!; [done| |rewrite weights_app; lia|by eapply implb_trans].
  by rewrite V2, existsb_app, V1, <- existsb_app, <- app_assoc.
Qed.

Lemma replaced_trans st a st1 b st2 c :
  replaced st a st1 b -> replaced st1 b st2 c -> replaced st a st2 c.
Proof.
  intros (Hn & Hg & Hp & _ & V1 & W1 & M1) (Hn' & Hg' & Hp' & Hw & V2 & W2 & M2).
  pose proof (gain_trans st st1 st2 M1 M2). rewrite Hg, Hp in V2.
  split_and!; [congruence..|done| |lia|by eapply implb_trans].
  intros Hm. by rewrite V2, V1.
Qed.

Lemma replace_arg_ok arg st r arg' st' :
  wfb arg = true ->
  (forall new_arg, r.1 = Some new_arg -> improves I (neg_lits st) (pos_lits st) arg new_arg) ->
  replace_arg arg st r = (arg', st') -> replaced st arg st' arg'.
Proof.
  intros Ha Hr. unfold replace_arg. destruct r as [[new|] cost]; cbn [fst snd]; intros [= <- <-].
  - destruct (Hr new eq_refl) as (Hw & Hv & Hwt). split_and!; try done.
    + unfold gain. destruct (_ && _); lia.
    + by destruct (modified st).
  - split_and!; try done; [|cbn; by destruct (modified st)]. unfold gain. cbn. rewrite andb_negb_r. lia.
Qed.

Lemma replaced_self arg st : wfb arg = true -> replaced st arg st arg.
Proof.
  intros Ha. split_and!; try done; [|by destruct (modified st)]. unfold gain. rewrite andb_negb_r. lia.
Qed.

Lemma try_not_or_ok arg st arg' st' :
  ctx_ok st -> wfb arg = true -> try_not_or p arg st = (arg', st') -> replaced st arg st' arg'.
Proof.
  intros Hst Ha. destruct (ctx_marks_wfb st Hst) as [Hn Hp]. unfold try_not_or.
  destruct (is_not arg) eqn:Hnot; [destruct (is_or _) eqn:Hor|]; cbn [andb].
  - apply replace_arg_ok; [done|]. intros new. by apply simp_nested_not_or_ok.
  - intros [= <- <-]. by apply replaced_self.
  - intros [= <- <-]. by apply replaced_self.
Qed.

Lemma try_eq_ite_ok arg st arg' st' :
  ctx_ok st -> wfb arg = true -> try_eq_ite p arg st = (arg', st') -> replaced st arg st' arg'.
Proof.
  intros Hst Ha. destruct (ctx_marks_wfb st Hst) as [Hn Hp].
  apply replace_arg_ok; [done|]. intros new. by apply simp_nested_eq_ite_ok.
Qed.

Lemma push_new_arg_ok arg st : ctx_ok st -> wfb arg = true -> kept st (push_new_arg arg st) [arg].
Proof.
  intros Hst Ha. pose proof Hst as (Hw & Hn & Hp). pose proof Ha as [Hwa _]%wfb_spec.
  assert (forall a, a ∈ new_args st -> tr a = tr arg -> kept st st [arg]) as Hdrop.
  { intros a Hin Hta. destruct (kept_nil st Hst) as (_ & Hv & Hwt & Hm). rewrite app_nil_r in Hv.
    split_and!; try done; [|rewrite weights_single; cbn in Hwt; lia].
    rewrite existsb_app. cbn. rewrite orb_false_r. destruct (tr arg) eqn:Ht; [|by rewrite orb_false_r].
    rewrite orb_true_r. apply existsb_exists. exists a. by rewrite <- list_elem_of_In. }
  assert (forall neg pos,
    (forall x, x ∈ neg -> x ∈ neg_lits st \/ wfb x = true /\ tr arg = negb (tr x)) ->
    (forall x, x ∈ pos -> x ∈ pos_lits st \/ x = arg) ->
    kept st (mk_ctx (new_args st ++ [arg]) neg pos (modified st) (simp st) (local_ctx_cost st)) [arg])
    as Hkeep.
  { intros neg pos Hneg Hpos. unfold kept, ctx_ok. cbn [new_args neg_lits pos_lits modified].
    split_and!.
    - apply Forall_app. auto.
    - intros x [Hx|[Hx Ht]]%Hneg; [|split; [done|]; exists arg; set_solver].
      destruct (Hn x Hx) as (? & a & ? & ?). split; [done|]. exists a. set_solver.
    - intros x [Hx%Hp| ->]%Hpos; set_solver.
    - done.
    - rewrite weights_app. unfold gain. cbn. rewrite andb_negb_r. lia.
    - by destruct (modified st). }
  unfold push_new_arg. destruct st as [new neg pos m s c]. cbn [new_args neg_lits pos_lits] in *.
  destruct (is_not arg) eqn:Hnot.
  - destruct (not_inv I arg Hnot Hwa) as (x & -> & _ & Hx & _ & Ht).
    case_bool_decide as Hin; [|apply Hkeep; set_solver].
    destruct (Hn x Hin) as (_ & a & ? & ?). apply (Hdrop a); congruence.
  - case_bool_decide as Hin; [apply (Hdrop arg); auto|apply Hkeep; set_solver].
Qed.

Lemma push_all_ok args st :
  ctx_ok st -> all_wfb args -> kept st (foldl (fun st a => push_new_arg a st) st args) args.
Proof.
  intros Hst Ha. revert st Hst. induction Ha as [|a args Hw _ IH]; intros st Hst; cbn [foldl].
  - by apply kept_nil.
  - pose proof (push_new_arg_ok a st Hst Hw) as Hk. apply (kept_app _ _ _ [a] args Hk).
    apply IH, Hk.
Qed.

(** Pushing a term of the value and at most the weight of the replacement. *)
Lemma kept_replaced st arg st1 arg' st2 l :
  ctx_ok st -> replaced st arg st1 arg' -> kept st1 st2 l ->
  existsb tr l = tr arg' -> (weights l <= weight arg')%nat -> kept st st2 [arg].
Proof.
  intros Hst (Hn & _ & _ & _ & Hv & Hwt & Hm) (H2 & V2 & W2 & M2) Hl Hwl.
  pose proof (gain_trans st st1 st2 Hm M2). rewrite Hn in V2, W2.
  split_and!; [done| |rewrite weights_single; lia|by eapply implb_trans].
  rewrite V2, !existsb_app, Hl. cbn. rewrite orb_false_r.
  destruct (existsb tr (new_args st)) eqn:Hf; [done|]. rewrite Hv; [done|]. by apply marks_of_ctx.
Qed.

Lemma replaced_ctx st arg st1 arg' : ctx_ok st -> replaced st arg st1 arg' -> ctx_ok st1.
Proof. intros Hst (Hn & Hg & Hp & _). unfold ctx_ok. by rewrite Hn, Hg, Hp. Qed.

Lemma process_arg_ok arg st :
  ctx_ok st -> wfb arg = true ->
  match process_arg p arg st with
  | inl (r, _) => r = m_true /\ existsb tr (new_args st ++ [arg]) = true
  | inr st' => kept st st' [arg]
  end.
Proof.
  intros Hst Ha. unfold process_arg. destruct (try_not_or p arg st) as [arg1 st1] eqn:H1.
  apply try_not_or_ok in H1; [|done..]. pose proof (replaced_ctx _ _ _ _ Hst H1) as Hst1.
  pose proof H1 as (_ & _ & _ & Hw1 & _).
  destruct (try_eq_ite p arg1 st1) as [arg2 st2] eqn:H2.
  apply try_eq_ite_ok in H2; [|done..]. pose proof (replaced_trans _ _ _ _ _ _ H1 H2) as Hr.
  pose proof (replaced_ctx _ _ _ _ Hst Hr) as Hst2. pose proof Hr as (_ & _ & _ & Hw2 & Hv & _).
  pose proof Hw2 as [Hwf2 _]%wfb_spec. clear H1 H2.
  destruct (is_false arg2) eqn:Hf.
  { apply (kept_replaced _ _ _ _ _ [] Hst Hr); [by apply kept_nil| |cbn; lia].
    by apply is_false_spec in Hf as ->. }
  destruct (is_true arg2) eqn:Ht.
  { apply is_true_spec in Ht as ->. split; [done|]. rewrite existsb_app. cbn.
    destruct (existsb tr (new_args st)) eqn:He; [done|]. by rewrite <- Hv by (by apply marks_of_ctx). }
  destruct (flat p && is_or arg2) eqn:Ho.
  - apply andb_true_iff in Ho as [_ Ho]. destruct (or_inv I arg2 Ho Hwf2) as [Hargs [_ Htr]].
    apply (kept_replaced _ _ _ _ _ (get_args arg2) Hst Hr); [by apply push_all_ok|done|].
    rewrite (weight_args OP_OR arg2 Ho) by done. lia.
  - apply (kept_replaced _ _ _ _ _ [arg2] Hst Hr); [by apply push_new_arg_ok| |by rewrite weights_single].
    cbn. apply orb_false_r.
Qed.

Lemma process_args_ok args st :
  ctx_ok st -> all_wfb args ->
  match process_args p args st with
  | inl (r, _) => r = m_true /\ existsb tr (new_args st ++ args) = true
  | inr st' => kept st st' args
  end.
Proof.
  intros Hst Ha. revert st Hst. induction Ha as [|a args Hw _ IH]; intros st Hst; cbn [process_args].
  { by apply kept_nil. }
  pose proof (process_arg_ok a st Hst Hw) as Hp. destruct (process_arg p a st) as [[r c]|st1].
  - destruct Hp as [-> Hv]. split; [done|]. change (a :: args) with ([a] ++ args).
    by rewrite app_assoc, existsb_app, Hv.
  - pose proof Hp as (Hst1 & Hv & _). specialize (IH st1 Hst1).
    destruct (process_args p args st1) as [[r c]|st2].
    + destruct IH as [-> IH]. split; [done|]. change (a :: args) with ([a] ++ args).
      by rewrite app_assoc, existsb_app, <- Hv, <- existsb_app.
    + by apply (kept_app _ _ _ [a] args Hp).
Qed.
End Rounds.

(** ** The loop *)

Section Loop.
Context (I : interp) (p : bool_rewriter_params).
Local Abbreviation tr := (tr I).
Local Abbreviation holds := (holds I).
Local Abbreviation all_wfb := (Forall (fun e => wfb e = true)).

(** A round from nothing over [args], in either direction. *)
Lemma round_ok (args l : list expr) m s c :
  all_wfb args -> Permutation args l ->
  match process_args p l (mk_ctx [] [] [] m s c) with
  | inl (r, _) => r = m_true /\ existsb tr args = true
  | inr st =>
      all_wfb (new_args st) /\ existsb tr (new_args st) = existsb tr args
      /\ (weights (new_args st) + (if modified st && negb m then 1 else 0) <= weights args)%nat
      /\ implb m (modified st) = true
  end.
Proof.
  intros Ha Hp.
  assert (existsb tr args = existsb tr l) as ->
    by (rewrite !existsb_has; apply has_ext; intros e; by rewrite Hp).
  assert (weights args = weights l) as -> by by apply weights_perm.
  rewrite Hp in Ha. pose proof (process_args_ok I p l (mk_ctx [] [] [] m s c)) as Hr.
  destruct (process_args _ _ _) as [[r c']|st].
  - apply Hr; [|done]. split_and!; [constructor|set_solver..].
  - destruct Hr as ((Hw & _) & Hv & Hwt & Hm); [split_and!; [constructor|set_solver..]|done|].
    done.
Qed.

Lemma rev_perm (l : list expr) : Permutation l (rev l).
Proof. apply Permutation_rev. Qed.

(** What a search from [args] may return: the value is that of the disjunction. *)
Definition ctx_result (args : list expr) (r : res (option expr * Z)) : Prop :=
  exists o c, r = Ok (o, c) /\ forall e, o = Some e -> holds (existsb tr args) e.

Lemma mk_or_app_ok args : all_wfb args -> holds (existsb tr args) (mk_or_app args).
Proof.
  intros Ha. destruct args as [|a [|b args]]; [apply holds_false| |by apply holds_or].
  apply Forall_cons in Ha as [Ha _]. cbn. rewrite orb_false_r. by apply holds_self.
Qed.

Lemma ctx_result_true args c : existsb tr args = true -> ctx_result args (Ok (Some m_true, c)).
Proof. intros Ha. exists (Some m_true), c. split; [done|]. intros e [= <-]. rewrite Ha. apply holds_true. Qed.

Lemma ctx_result_ext args args' r :
  existsb tr args' = existsb tr args -> ctx_result args' r -> ctx_result args r.
Proof. unfold ctx_result. by intros ->. Qed.

(** Two rounds per unit of weight are enough. *)
Lemma local_ctx_loop_ok n args s c :
  (weights args < n)%nat -> all_wfb args ->
  ctx_result args (local_ctx_loop p (2 * n) true args false s c).
Proof.
  revert args s c. induction n as [|n IH]; intros args s c Hn Ha; [lia|].
  replace (2 * S n)%nat with (S (S (2 * n))) by lia. cbn [local_ctx_loop].
  pose proof (round_ok args args false s (add_cost c (2 * Z.of_nat (length args))) Ha (Permutation_refl _)) as H1.
  destruct (process_args _ _ _) as [[r c1]|st1].
  { destruct H1 as [-> Hv]. by apply ctx_result_true. }
  destruct H1 as (Hw1 & Hv1 & Hwt1 & _). apply (ctx_result_ext _ _ _ Hv1).
  pose proof (round_ok (new_args st1) (rev (new_args st1)) (modified st1) (simp st1)
    (add_cost (local_ctx_cost st1) (2 * Z.of_nat (length (new_args st1)))) Hw1 (rev_perm _)) as H2.
  destruct (process_args _ _ _) as [[r c2]|st2].
  { destruct H2 as [-> Hv]. by apply ctx_result_true. }
  destruct H2 as (Hw2 & Hv2 & Hwt2 & Hm2). destruct (modified st2) eqn:Hm; cbn [negb].
  - eapply ctx_result_ext; [|apply IH].
    + rewrite <- Hv2, !existsb_has. apply has_ext. intros e. by rewrite <- rev_perm.
    + rewrite weights_rev. destruct (modified st1); cbn in Hwt1, Hwt2; lia.
    + by rewrite <- rev_perm.
  - eexists _, _. split; [done|]. destruct (simp st2); [|done]. intros e [= <-]. by apply mk_or_app_ok.
Qed.
End Loop.

(** C35: [local_ctx_simp] ends on every list of formulas, whatever the cost so
    far: the rounds stop before [2 * (weight + 1)] of them. What it returns, if
    it simplifies, is a well-sorted formula with the value of the disjunction
    in every interpretation. *)
Theorem local_ctx_simp_correct I p args cost :
  Forall (fun e => wfb e = true) args ->
  exists o c, local_ctx_simp p args cost = Ok (o, c)
    /\ forall e, o = Some e -> holds I (existsb (tr I) args) e.
Proof. intros Ha. apply local_ctx_loop_ok; [lia|done]. Qed.

(** ** The connectives with it *)

Section Connectives.
Context (I : interp) (p : bool_rewriter_params).
Context (local_ctx : bool) (local_ctx_limit : Z) (get_id : expr -> Z).
Local Abbreviation tr := (tr I).
Local Abbreviation all_wfb := (Forall (fun e => wfb e = true)).

Lemma mk_nflat_or_core_ctx_ok args cost :
  all_wfb args ->
  exists b c, mk_nflat_or_core_ctx p local_ctx local_ctx_limit get_id args cost = Ok (b, c)
    /\ br_holds I (existsb tr args) b.
Proof.
  intros Ha. pose proof (mk_nflat_or_core_ok I get_id args Ha) as Hplain.
  pose proof (scan_start I get_id true is_false is_true (fun prev arg => negb (lt arg prev)) args
    (tr_is_true I) (tr_is_false I) Ha) as Hs.
  unfold mk_nflat_or_core_ctx, mk_nflat_or_core in *.
  destruct (scan _ _ _ _ _ _ _ _) as [[s [|e [|e' buffer]]]|]; eauto.
  destruct (_ && _); [|eauto]. cbn [scanned] in Hs. destruct Hs as (Hv & _ & Hb).
  destruct (local_ctx_loop_ok I p (S (weights (e :: e' :: buffer))) (e :: e' :: buffer) false cost)
    as (o & c & Hl & Ho); [lia|done|].
  unfold local_ctx_simp. rewrite Hl. cbn [mbind res_bind]. destruct o as [r|]; [|eauto].
  eexists _, _. split; [done|]. rewrite existsb_has, <- Hv, <- existsb_has.
  by apply done_holds, Ho.
Qed.

Lemma mk_or_core_ctx_ok args cost :
  all_wfb args ->
  exists b c, mk_or_core_ctx p local_ctx local_ctx_limit get_id args cost = Ok (b, c)
    /\ br_holds I (existsb tr args) b.
Proof.
  intros Ha. unfold mk_or_core_ctx. destruct (flat p); [|by apply mk_nflat_or_core_ctx_ok].
  unfold mk_flat_or_core_ctx. pose proof (split_or_app args) as Hsplit.
  destruct (split_or args) as [before [|e nested]]; [by apply mk_nflat_or_core_ctx_ok|].
  cbn in Hsplit. subst args. apply Forall_app in Ha as [Hb Hn].
  destruct (flatten_or_ok I (e :: nested) true None Hn) as [Hw Hv].
  destruct (flatten_or _ _ _) as [ordered l]. cbn [snd] in Hw, Hv.
  assert (all_wfb (before ++ l)) as Hl by by apply Forall_app.
  assert (existsb tr (before ++ e :: nested) = existsb tr (before ++ l)) as ->
    by by rewrite !existsb_app, Hv.
  destruct (mk_nflat_or_core_ctx_ok (before ++ l) cost Hl) as (b & c & -> & Hok).
  eexists _, _. split; [done|]. apply done_holds, result_or_holds; [done|].
  destruct ordered; [by apply holds_or|by apply holds_sorted_or].
Qed.

Lemma mk_or_ctx_ok args cost :
  all_wfb args ->
  exists e c, mk_or_ctx p local_ctx local_ctx_limit get_id args cost = Ok (e, c)
    /\ holds I (existsb tr args) e.
Proof.
  intros Ha. unfold mk_or_ctx. destruct (mk_or_core_ctx_ok args cost Ha) as (b & c & -> & Hb).
  eexists _, _. split; [done|]. apply result_or_holds; [done|by apply holds_or].
Qed.

Lemma map_not_ok args :
  all_wfb args ->
  all_wfb (map (mk_not p) args) /\ existsb tr (map (mk_not p) args) = negb (forallb tr args).
Proof.
  induction 1 as [|e args He _ [IHw IHv]]; [done|]. destruct (mk_not_ok I p e He) as [Hwe Hve].
  cbn. split; [by constructor|]. by rewrite IHv, Hve, negb_andb.
Qed.

Lemma mk_and_core_ctx_ok args cost :
  all_wfb args ->
  exists b c, mk_and_core_ctx p local_ctx local_ctx_limit get_id args cost = Ok (b, c)
    /\ br_holds I (forallb tr args) b.
Proof.
  intros Ha. unfold mk_and_core_ctx. pose proof (mk_and_core_ok I p get_id args Ha) as Hand.
  unfold mk_and_core in Hand. destruct (elim_and p); [|eauto]. unfold mk_and_as_or_ctx.
  destruct (map_not_ok args Ha) as [Hw Hv]. destruct (mk_or_ctx_ok _ cost Hw) as (e & c & -> & Hwe & Hve).
  eexists _, _. split; [done|]. apply done_holds.
  destruct (mk_not_ok I p e Hwe) as [Hwn Hvn]. split; [done|]. by rewrite Hvn, Hve, Hv, negb_involutive.
Qed.

(** Off, or past its limit, it is the rewriter without it, at no cost. *)
Lemma mk_or_core_ctx_off args cost :
  local_ctx = false \/ local_ctx_limit < cost ->
  mk_or_core_ctx p local_ctx local_ctx_limit get_id args cost = Ok (mk_or_core p get_id args, cost).
Proof.
  intros Hoff. assert (local_ctx && (cost <=? local_ctx_limit) = false) as Hb.
  { destruct Hoff as [->|?]; [done|]. apply andb_false_intro2, Z.leb_gt. lia. }
  assert (forall l, mk_nflat_or_core_ctx p local_ctx local_ctx_limit get_id l cost
                    = Ok (mk_nflat_or_core get_id l, cost)) as Hn.
  { intros l. unfold mk_nflat_or_core_ctx, mk_nflat_or_core. rewrite Hb.
    by destruct (scan _ _ _ _ _ _ _ _) as [[s [|e [|e' buffer]]]|]. }
  unfold mk_or_core_ctx, mk_or_core, mk_flat_or_core_ctx, mk_flat_or_core.
  destruct (flat p); [|apply Hn]. destruct (split_or args) as [before [|e nested]]; [apply Hn|].
  destruct (flatten_or _ _ _) as [ordered l]. by rewrite Hn.
Qed.
End Connectives.

(** the disjunction with contextual simplification is total and right for
    every setting of [local_ctx], its limit and the cost spent; switched off,
    or with the limit exceeded, it is the plain disjunction and costs nothing. *)
Theorem mk_or_core_ctx_correct I p local_ctx limit get_id args cost :
  Forall (fun e => wfb e = true) args ->
  (exists b c, mk_or_core_ctx p local_ctx limit get_id args cost = Ok (b, c)
     /\ br_holds I (existsb (tr I) args) b)
  /\ (local_ctx = false \/ limit < cost ->
      mk_or_core_ctx p local_ctx limit get_id args cost = Ok (mk_or_core p get_id args, cost)).
Proof. intros Ha. split; [by apply mk_or_core_ctx_ok|apply mk_or_core_ctx_off]. Qed.
