(* ===== verification/BlasterCfg.v ===== *)
(** The two configurations of the bit-blaster template: [blaster_cfg] of
    bit_blaster_rewriter.cpp and [bit_blaster_cfg] of bit_blaster.cpp, over the
    Boolean rewriter. Each is shown to keep the promises of [GatesOk], so every
    theorem about the template's circuits holds for the terms Z3 builds. *)
From S2P Require Import Prelude Text Bits Gates Ast AstSem AstFacts BoolRewriter BoolRewriterOk.

(** The circuits are built from formulas: well-sorted terms of sort [Bool]. *)
Definition formula : Type := { e : expr | wfb e = true }.

Lemma formula_eq (x y : formula) : `x = `y -> x = y.
Proof. destruct x, y; cbn. intros ->. f_equal. apply proof_irrel. Qed.

Definition of_holds {I b} (e : expr) (H : holds I b e) : formula := e ↾ holds_wfb I b e H.

Section Cfg.
(** [p]: the parameters of the configuration's rewriter. *)
Context (p : bool_rewriter_params) (get_id : expr -> Z).

(** ** blaster_cfg *)

Definition blaster_mk_xor3 (a b c : expr) : expr := mk_xor p a (mk_xor p b c).

Definition blaster_mk_carry (a b c : expr) : expr :=
  let t1 := mk_and p get_id [a; b] in
  let t2 := mk_and p get_id [a; c] in
  let t3 := mk_and p get_id [b; c] in
  mk_or p get_id [t1; t2; t3].

(** ** bit_blaster_cfg *)

(** Three terms in the order of their ids. *)
Definition sort_args (l1 l2 l3 : expr) : expr * expr * expr :=
  match sort_ids get_id [l1; l2; l3] with
  | [a; b; c] => (a, b, c)
  | _ => (l1, l2, l3)
  end.

Definition bool3 : list sort := [BoolSort; BoolSort; BoolSort].
Definition app_xor3 (a b c : expr) : expr :=
  App (mk_func_decl (SymStr "xor3") (Bv OP_XOR3) [] bool3 BoolSort) [a; b; c].
Definition app_carry (a b c : expr) : expr :=
  App (mk_func_decl (SymStr "carry") (Bv OP_CARRY) [] bool3 BoolSort) [a; b; c].

(** [ext_gates] is [m_params.m_bb_ext_gates]. *)
Definition sorted_xor3 (ext_gates : bool) (l1 l2 l3 : expr) : expr :=
  if ext_gates then
    if bool_decide (l1 = l2) then l3
    else if bool_decide (l1 = l3) then l2
    else if bool_decide (l2 = l3) then l1
    else if is_complement l1 l2 then mk_not p l3
    else if is_complement l1 l3 then mk_not p l2
    else if is_complement l2 l3 then mk_not p l1
    else if is_true l1 then mk_iff p l2 l3
    else if is_false l1 then mk_xor p l2 l3
    else if is_true l2 then mk_iff p l1 l3
    else if is_false l2 then mk_xor p l1 l3
    else if is_true l3 then mk_iff p l1 l2
    else if is_false l3 then mk_xor p l1 l2
    else app_xor3 l1 l2 l3
  else mk_xor p (mk_xor p l1 l2) l3.

Definition bb_mk_xor3 (ext_gates : bool) (l1 l2 l3 : expr) : expr :=
  let '(l1, l2, l3) := sort_args l1 l2 l3 in sorted_xor3 ext_gates l1 l2 l3.

Definition sorted_carry (ext_gates : bool) (l1 l2 l3 : expr) : expr :=
  let mk_and2 a b := mk_and p get_id [a; b] in
  let mk_or2 a b := mk_or p get_id [a; b] in
  if ext_gates then
    if (is_false l1 && is_false l2) || (is_false l1 && is_false l3) || (is_false l2 && is_false l3)
    then m_false
    else if (is_true l1 && is_true l2) || (is_true l1 && is_true l3) || (is_true l2 && is_true l3)
    then m_true
    else if bool_decide (l1 = l2) && bool_decide (l1 = l3) then l1
    else if is_false l1 then mk_and2 l2 l3
    else if is_false l2 then mk_and2 l1 l3
    else if is_false l3 then mk_and2 l1 l2
    else if is_true l1 then mk_or2 l2 l3
    else if is_true l2 then mk_or2 l1 l3
    else if is_true l3 then mk_or2 l1 l2
    else if is_complement l1 l2 then l3
    else if is_complement l1 l3 then l2
    else if is_complement l2 l3 then l1
    else app_carry l1 l2 l3
  else mk_or p get_id [mk_and2 l1 l2; mk_and2 l1 l3; mk_and2 l2 l3].

Definition bb_mk_carry (ext_gates : bool) (l1 l2 l3 : expr) : expr :=
  let '(l1, l2, l3) := sort_args l1 l2 l3 in sorted_carry ext_gates l1 l2 l3.

(** ** They denote their functions *)

Section Correct.
Context (I : interp).
Local Abbreviation tr := (tr I).
Local Abbreviation holds := (holds I).

Lemma blaster_mk_xor3_ok a b c x y z :
  holds a x -> holds b y -> holds c z -> holds (xorb a (xorb b c)) (blaster_mk_xor3 x y z).
Proof. intros Hx Hy Hz. apply xor_ok; [done|by apply xor_ok]. Qed.

Lemma blaster_mk_carry_ok a b c x y z :
  holds a x -> holds b y -> holds c z -> holds (majority a b c) (blaster_mk_carry x y z).
Proof. intros Hx Hy Hz. by apply or3_ok; apply and2_ok. Qed.

Lemma sort_args_perm l1 l2 l3 :
  let '(a, b, c) := sort_args l1 l2 l3 in [a; b; c] ≡ₚ [l1; l2; l3].
Proof.
  unfold sort_args. pose proof (sort_ids_perm get_id [l1; l2; l3]) as Hp.
  destruct (sort_ids get_id _) as [|a [|b [|c [|]]]]; done.
Qed.

(** A symmetric function of the truth values does not see the sorting. *)
Lemma xor_perm l l' : l ≡ₚ l' -> foldr (fun e b => xorb (tr e) b) false l = foldr (fun e b => xorb (tr e) b) false l'.
Proof.
  induction 1; cbn; try congruence. by destruct (tr x), (tr y), (foldr _ _ l).
Qed.

Definition trues (l : list expr) : nat := sum_list (map (fun e => Nat.b2n (tr e)) l).
Lemma trues_perm l l' : l ≡ₚ l' -> trues l = trues l'.
Proof. unfold trues. induction 1; cbn; lia. Qed.

Lemma majority_trues x y z : majority (tr x) (tr y) (tr z) = Nat.leb 2 (trues [x; y; z]).
Proof. unfold trues, majority. cbn. by destruct (tr x), (tr y), (tr z). Qed.

Lemma holds_app_xor3 a b c x y z :
  holds a x -> holds b y -> holds c z -> holds (xorb a (xorb b c)) (app_xor3 x y z).
Proof.
  intros [[Hx Hsx]%wfb_spec <-] [[Hy Hsy]%wfb_spec <-] [[Hz Hsz]%wfb_spec <-].
  split; [|done]. apply wfb_spec. split; [|done]. unfold app_xor3. rewrite wf_app. cbn.
  rewrite Hsx, Hsy, Hsz. by repeat constructor.
Qed.

Lemma holds_app_carry a b c x y z :
  holds a x -> holds b y -> holds c z -> holds (majority a b c) (app_carry x y z).
Proof.
  intros [[Hx Hsx]%wfb_spec <-] [[Hy Hsy]%wfb_spec <-] [[Hz Hsz]%wfb_spec <-].
  split; [|done]. apply wfb_spec. split; [|done]. unfold app_carry. rewrite wf_app. cbn.
  rewrite Hsx, Hsy, Hsz. by repeat constructor.
Qed.

(** Turns the tests of the code on terms into facts on truth values. *)
Ltac read_tests :=
  repeat match goal with
  | |- holds _ (if ?b then _ else _) => let Hb := fresh "Hb" in destruct b eqn:Hb
  | Hb : _ || _ = true |- _ => apply orb_true_iff in Hb as [Hb|Hb]
  | Hb : _ && _ = true |- _ => let Hc := fresh "Hb" in apply andb_true_iff in Hb as [Hb Hc]
  end;
  repeat match goal with
  | Hb : is_true ?x = true |- _ => apply (tr_is_true I) in Hb
  | Hb : is_false ?x = true |- _ => apply (tr_is_false I) in Hb
  | Hb : bool_decide (?x = ?y) = true |- _ => apply bool_decide_eq_true in Hb; apply (f_equal tr) in Hb
  | Hb : is_complement ?x ?y = true |- _ => apply (complement_ok I) in Hb; [|by apply wfb_spec..]
  end.

(** The equation left by a rule, from the facts of its tests. *)
Ltac truth_table x y z :=
  unfold majority; destruct (tr x), (tr y), (tr z); cbn in *; congruence.

Lemma sorted_xor3_ok ext x y z :
  wfb x = true -> wfb y = true -> wfb z = true ->
  holds (xorb (tr x) (xorb (tr y) (tr z))) (sorted_xor3 ext x y z).
Proof.
  intros Hx Hy Hz. unfold sorted_xor3, mk_iff.
  pose proof (holds_self I x Hx) as Mx. pose proof (holds_self I y Hy) as My.
  pose proof (holds_self I z Hz) as Mz.
  read_tests; try (by apply holds_app_xor3);
    (eapply holds_ext;
      [first [eassumption|by apply not_ok|by apply eq_ok|by apply xor_ok; [apply xor_ok|]|by apply xor_ok]
      |truth_table x y z]).
Qed.

Lemma sorted_carry_ok ext x y z :
  wfb x = true -> wfb y = true -> wfb z = true ->
  holds (majority (tr x) (tr y) (tr z)) (sorted_carry ext x y z).
Proof.
  intros Hx Hy Hz. unfold sorted_carry.
  pose proof (holds_self I x Hx) as Mx. pose proof (holds_self I y Hy) as My.
  pose proof (holds_self I z Hz) as Mz.
  read_tests; try (by apply holds_app_carry); try (by apply or3_ok; apply and2_ok);
    (eapply holds_ext;
      [first [eassumption|by apply and2_ok|by apply or2_ok|apply holds_true|apply holds_false]
      |truth_table x y z]).
Qed.

Lemma sorted_args_wfb l1 l2 l3 :
  wfb l1 = true -> wfb l2 = true -> wfb l3 = true ->
  exists a b c, sort_args l1 l2 l3 = (a, b, c) /\ [a; b; c] ≡ₚ [l1; l2; l3]
    /\ wfb a = true /\ wfb b = true /\ wfb c = true.
Proof.
  intros H1 H2 H3. pose proof (sort_args_perm l1 l2 l3) as Hp.
  destruct (sort_args l1 l2 l3) as [[a b] c]. exists a, b, c. split_and!; try done.
  all: assert (Forall (fun e => wfb e = true) [a; b; c]) as Hw by (rewrite Hp; by repeat constructor).
  all: by repeat match goal with H : Forall _ (_ :: _) |- _ => apply Forall_cons in H as [? H] end.
Qed.

Lemma bb_mk_xor3_ok ext x y z :
  wfb x = true -> wfb y = true -> wfb z = true ->
  holds (xorb (tr x) (xorb (tr y) (tr z))) (bb_mk_xor3 ext x y z).
Proof.
  intros Hx Hy Hz. unfold bb_mk_xor3.
  destruct (sorted_args_wfb x y z Hx Hy Hz) as (a & b & c & -> & Hp & Ha & Hb & Hc).
  eapply holds_ext; [by apply sorted_xor3_ok|]. apply xor_perm in Hp. cbn in Hp.
  by rewrite !xorb_false_r in Hp.
Qed.

Lemma bb_mk_carry_ok ext x y z :
  wfb x = true -> wfb y = true -> wfb z = true ->
  holds (majority (tr x) (tr y) (tr z)) (bb_mk_carry ext x y z).
Proof.
  intros Hx Hy Hz. unfold bb_mk_carry.
  destruct (sorted_args_wfb x y z Hx Hy Hz) as (a & b & c & -> & Hp & Ha & Hb & Hc).
  eapply holds_ext; [by apply sorted_carry_ok|]. by rewrite !majority_trues, (trues_perm _ _ Hp).
Qed.
End Correct.
End Cfg.

(** ** The configurations as implementations of the template's interface *)

Section Instances.
Context (p : bool_rewriter_params) (get_id : expr -> Z) (xor3 carry : expr -> expr -> expr -> expr).

(** What is left to a configuration that passes everything else on to its rewriter. *)
Hypothesis xor3_ok : forall I x y z, wfb x = true -> wfb y = true -> wfb z = true ->
  holds I (xorb (tr I x) (xorb (tr I y) (tr I z))) (xor3 x y z).
Hypothesis carry_ok : forall I x y z, wfb x = true -> wfb y = true -> wfb z = true ->
  holds I (majority (tr I x) (tr I y) (tr I z)) (carry x y z).

Lemma formula_holds I (x : formula) : holds I (tr I (`x)) (`x).
Proof. apply holds_self, (proj2_sig x). Qed.

Lemma formulas_wfb (l : list formula) : Forall (fun e => wfb e = true) (map proj1_sig l).
Proof. induction l as [|x l IH]; constructor; [apply (proj2_sig x)|done]. Qed.

Let I0 := default_interp.
Local Abbreviation self x := (formula_holds I0 x).

Definition rewriter_gates : Gates formula := {|
  Gates.mk_true := of_holds m_true (holds_true I0);
  Gates.mk_false := of_holds m_false (holds_false I0);
  Gates.is_true x := is_true (`x);
  Gates.is_false x := is_false (`x);
  Gates.mk_not x := of_holds (mk_not p (`x)) (not_ok I0 p _ _ (self x));
  Gates.mk_xor x y := of_holds (mk_xor p (`x) (`y)) (xor_ok I0 p _ _ _ _ (self x) (self y));
  Gates.mk_iff x y := of_holds (mk_iff p (`x) (`y)) (eq_ok I0 p _ _ _ _ (self x) (self y));
  Gates.mk_and x y :=
    of_holds (mk_and p get_id [`x; `y]) (and2_ok I0 p get_id _ _ _ _ (self x) (self y));
  Gates.mk_or x y :=
    of_holds (mk_or p get_id [`x; `y]) (or2_ok I0 p get_id _ _ _ _ (self x) (self y));
  Gates.mk_nand x y :=
    of_holds (mk_nand p get_id [`x; `y]) (not_ok I0 p _ _ (and2_ok I0 p get_id _ _ _ _ (self x) (self y)));
  Gates.mk_nor x y :=
    of_holds (mk_nor p get_id [`x; `y]) (not_ok I0 p _ _ (or2_ok I0 p get_id _ _ _ _ (self x) (self y)));
  Gates.mk_and_n l := of_holds (mk_and p get_id (map proj1_sig l)) (mk_and_ok I0 p get_id _ (formulas_wfb l));
  Gates.mk_or_n l := of_holds (mk_or p get_id (map proj1_sig l)) (mk_or_ok I0 p get_id _ (formulas_wfb l));
  Gates.mk_xor3 x y z :=
    of_holds (xor3 (`x) (`y) (`z)) (xor3_ok I0 _ _ _ (proj2_sig x) (proj2_sig y) (proj2_sig z));
  Gates.mk_carry x y z :=
    of_holds (carry (`x) (`y) (`z)) (carry_ok I0 _ _ _ (proj2_sig x) (proj2_sig y) (proj2_sig z));
  Gates.mk_ite x y z :=
    of_holds (mk_ite p get_id (`x) (`y) (`z)) (mk_ite_holds I0 p get_id _ _ _ _ _ _ (self x) (self y) (self z));
  Gates.mk_ge2 x y z :=
    of_holds (mk_ge2 p get_id (`x) (`y) (`z)) (ge2_ok I0 p get_id _ _ _ _ _ _ (self x) (self y) (self z));
  Gates.ast_mk_ite x y z :=
    of_holds (m_mk_ite (`x) (`y) (`z)) (holds_ite I0 _ _ _ _ _ _ (self x) (self y) (self z))
|}.

Lemma rewriter_gates_ok I : @GatesOk formula rewriter_gates (fun x => tr I (`x)).
Proof.
  pose proof (formula_holds I) as Hx.
  split; cbn; try done.
  - intros a. apply tr_is_true.
  - intros a. apply tr_is_false.
  - intros a. by apply not_ok.
  - intros a b. by apply xor_ok.
  - intros a b. by apply eq_ok.
  - intros a b. by apply and2_ok.
  - intros a b. by apply or2_ok.
  - intros a b. by apply not_ok, and2_ok.
  - intros a b. by apply not_ok, or2_ok.
  - intros l. destruct (mk_and_ok I p get_id _ (formulas_wfb l)) as [_ ->].
    induction l as [|x l IH]; [done|]. cbn. by rewrite IH.
  - intros l. destruct (mk_or_ok I p get_id _ (formulas_wfb l)) as [_ ->].
    induction l as [|x l IH]; [done|]. cbn. by rewrite IH.
  - intros a b c. by apply xor3_ok; apply (proj2_sig (P := fun e => wfb e = true)).
  - intros a b c. by apply carry_ok; apply (proj2_sig (P := fun e => wfb e = true)).
  - intros c t e. by apply mk_ite_holds.
  - intros a b c. by apply ge2_ok.
  - intros c t e. by apply holds_ite.
Qed.
End Instances.

(** The rewriter of [blaster]: not flat, conjunctions as negated disjunctions. *)
Definition blaster_params : bool_rewriter_params := {|
  flat := false; elim_and := true; blast_distinct := blast_distinct default_params;
  blast_distinct_threshold := blast_distinct_threshold default_params;
  ite_extra_rules := ite_extra_rules default_params; elim_ite := elim_ite default_params |}.

Lemma blaster_xor3_ok p I x y z :
  wfb x = true -> wfb y = true -> wfb z = true ->
  holds I (xorb (tr I x) (xorb (tr I y) (tr I z))) (blaster_mk_xor3 p x y z).
Proof. intros Hx Hy Hz. by apply blaster_mk_xor3_ok; apply holds_self. Qed.

Lemma blaster_carry_ok p get_id I x y z :
  wfb x = true -> wfb y = true -> wfb z = true ->
  holds I (majority (tr I x) (tr I y) (tr I z)) (blaster_mk_carry p get_id x y z).
Proof. intros Hx Hy Hz. by apply blaster_mk_carry_ok; apply holds_self. Qed.

(** [blaster_cfg], with the rewriter of [blaster]. *)
Definition blaster_cfg (get_id : expr -> Z) : Gates formula :=
  rewriter_gates blaster_params get_id _ _
    (blaster_xor3_ok blaster_params) (blaster_carry_ok blaster_params get_id).

(** [bit_blaster_cfg]: its rewriter's parameters are the caller's. *)
Definition bit_blaster_cfg (p : bool_rewriter_params) (ext_gates : bool) (get_id : expr -> Z) : Gates formula :=
  rewriter_gates p get_id _ _
    (fun I => bb_mk_xor3_ok p get_id I ext_gates) (fun I => bb_mk_carry_ok p get_id I ext_gates).

#[global] Instance blaster_cfg_ok get_id I : @GatesOk formula (blaster_cfg get_id) (fun x => tr I (`x)).
Proof. apply rewriter_gates_ok. Qed.

#[global] Instance bit_blaster_cfg_ok p ext get_id I :
  @GatesOk formula (bit_blaster_cfg p ext get_id) (fun x => tr I (`x)).
Proof. apply rewriter_gates_ok. Qed.
