(* ===== verification/BlastSpec.v ===== *)
(** The contract of the bit-blaster template, in the vocabulary of SMT-LIB: for
    every configuration that keeps the promises of [GatesOk], the circuit of an
    operator evaluates to the operator applied to the evaluated vectors. *)
From S2P Require Import Prelude Text Bits Gates BlastArith BlastMul BlastOverflow BlastCompare BlastDiv BlastShift Ast AstSem.

Section Spec.
Context {E : Type} `{Gates E} (eval : E -> bool) `{!GatesOk eval}.
Context (n : nat) (n_pos : (0 < n)%nat).

(** [op] builds the function [f] of two vectors of [n] bits. *)
Definition implements (op : list E -> list E -> list E) (f : list bool -> list bool -> list bool) : Prop :=
  forall a b, length a = n -> length b = n -> map eval (op a b) = f (map eval a) (map eval b).

Definition implements_pred (op : list E -> list E -> E) (f : list bool -> list bool -> bool) : Prop :=
  forall a b, length a = n -> length b = n -> eval (op a b) = f (map eval a) (map eval b).

(** A vector is known by its width and its value. *)
Lemma bits_of_value l z :
  length l = n -> uv eval l mod pow2 n = z mod pow2 n -> map eval l = bits_of n z.
Proof.
  intros Hl Hz. apply uval_inj; [by rewrite length_map, bits_of_length|].
  rewrite uval_bits_of, <- Hz. fold (uv eval l). rewrite <- Hl. symmetry. apply uv_mod.
Qed.

Lemma bits_of_value_mod l z :
  length l = n -> uv eval l = z mod pow2 n -> map eval l = bits_of n z.
Proof. intros Hl Hz. apply bits_of_value; [done|]. by rewrite Hz, Zmod_mod. Qed.

(** ** Operators *)

Lemma adder_spec : implements mk_adder (unsigned_op Z.add).
Proof.
  intros a b Ha Hb. unfold unsigned_op. rewrite length_map, Ha. fold (uv eval a) (uv eval b).
  apply bits_of_value_mod; [rewrite mk_adder_length; congruence|].
  rewrite mk_adder_uv by (done || congruence). by rewrite Ha.
Qed.

Lemma multiplier_spec use_wtm use_bcm : implements (mk_multiplier use_wtm use_bcm) (unsigned_op Z.mul).
Proof.
  intros a b Ha Hb. unfold unsigned_op. rewrite length_map, Ha. fold (uv eval a) (uv eval b).
  destruct (mk_multiplier_value eval use_wtm use_bcm a b) as [Hv Hl]; [lia|congruence|].
  rewrite Ha in Hv, Hl. by apply bits_of_value_mod.
Qed.

Lemma zip_spec (op : E -> E -> E) f :
  (forall x y, eval (op x y) = f (eval x) (eval y)) -> implements (zip_with op) (zip_with f).
Proof.
  intros Hf a b _ _. revert b. induction a as [|x a IH]; intros [|y b]; try done.
  cbn. by rewrite Hf, IH.
Qed.

Lemma udiv_spec : implements mk_udiv (fun x y => unsigned_op (smt_udiv (length x)) x y).
Proof.
  intros a b Ha Hb. unfold unsigned_op, smt_udiv. rewrite length_map, Ha. fold (uv eval a) (uv eval b).
  destruct (mk_udiv_urem_value eval a b) as (Hl & _ & Hv & _); [lia|congruence|].
  rewrite Ha in Hl, Hv. apply bits_of_value; [done|]. by rewrite Hv.
Qed.

Lemma urem_spec : implements mk_urem (unsigned_op Z.modulo).
Proof.
  intros a b Ha Hb. unfold unsigned_op. rewrite length_map, Ha. fold (uv eval a) (uv eval b).
  destruct (mk_udiv_urem_value eval a b) as (_ & Hl & _ & Hv); [lia|congruence|].
  rewrite Ha in Hl. apply bits_of_value; [done|]. by rewrite Hv.
Qed.

Lemma sdiv_spec : implements mk_sdiv (signed_op smt_sdiv).
Proof.
  intros a b Ha Hb. unfold signed_op. rewrite length_map, Ha. fold (sv eval a) (sv eval b).
  destruct (mk_sdiv_value eval a b) as [Hv Hl]; [lia|congruence|].
  rewrite Ha in Hl, Hv. by apply bits_of_value_mod.
Qed.

Lemma srem_spec : implements mk_srem (signed_op Z.rem).
Proof.
  intros a b Ha Hb. unfold signed_op. rewrite length_map, Ha. fold (sv eval a) (sv eval b).
  destruct (mk_srem_value eval a b) as [Hv Hl]; [lia|congruence|].
  rewrite Ha in Hl, Hv. by apply bits_of_value_mod.
Qed.

Lemma smod_spec : implements mk_smod (signed_op Z.modulo).
Proof.
  intros a b Ha Hb. unfold signed_op. rewrite length_map, Ha. fold (sv eval a) (sv eval b).
  destruct (mk_smod_value eval a b) as [Hv Hl]; [lia|congruence|].
  rewrite Ha in Hl, Hv. by apply bits_of_value_mod.
Qed.

Lemma shl_spec : implements mk_shl (unsigned_op (fun x y => x * 2 ^ y)).
Proof.
  intros a b Ha Hb. unfold unsigned_op. rewrite length_map, Ha. fold (uv eval a) (uv eval b).
  destruct (mk_shl_value eval a b) as [Hv Hl]; [congruence|].
  rewrite Ha in Hl, Hv. by apply bits_of_value_mod.
Qed.

Lemma lshr_spec : implements mk_lshr (unsigned_op (fun x y => x / 2 ^ y)).
Proof.
  intros a b Ha Hb. unfold unsigned_op. rewrite length_map, Ha. fold (uv eval a) (uv eval b).
  destruct (mk_lshr_value eval a b) as [Hv Hl]; [congruence|].
  rewrite Ha in Hl. apply bits_of_value; [done|]. by rewrite Hv.
Qed.

Lemma ashr_spec : implements mk_ashr (fun x y => bits_of (length x) (sval x / 2 ^ uval y)).
Proof.
  intros a b Ha Hb. rewrite length_map, Ha. fold (sv eval a) (uv eval b).
  destruct (mk_ashr_value eval a b) as [Hv Hl]; [lia|congruence|].
  rewrite Ha in Hl. apply bits_of_value_mod; [done|]. rewrite <- Hv.
  unfold sv, uv. rewrite <- (sval_uval_mod (map eval _)). by rewrite length_map, Hl.
Qed.

Lemma ext_rotate_spec (left_rot : bool) :
  implements (mk_ext_rotate_left_right left_rot)
    (fun x y => map (fun i => nth (rot_index (length x) i (rot_amount left_rot (uval y))) x false)
                  (seq 0 (length x))).
Proof.
  intros a b Ha Hb. rewrite length_map, Ha. fold (uv eval b).
  assert (length (mk_ext_rotate_left_right left_rot a b) = n) as Hl.
  { unfold mk_ext_rotate_left_right. repeat case_match;
      rewrite ?length_map, ?length_seq; try done; unfold mk_rotate_right; by rewrite mk_rotate_left_length. }
  apply (nth_ext _ _ false false); [by rewrite !length_map, length_seq|].
  intros i Hi. rewrite length_map, Hl in Hi. rewrite <- eval_nth by done.
  rewrite mk_ext_rotate_value by (done || congruence || lia). rewrite eval_nth, Ha by done.
  symmetry. erewrite nth_lookup_Some; [done|]. rewrite list_lookup_fmap, lookup_seq_lt by done. done.
Qed.

(** ** Predicates *)

Lemma eq_spec : implements_pred BlastCompare.mk_eq (fun x y => bool_decide (x = y)).
Proof.
  intros a b Ha Hb. rewrite mk_eq_value by congruence. apply eq_true_iff_eq.
  rewrite Z.eqb_eq, bool_decide_eq_true. split; [|intros Heq; unfold uv; by rewrite Heq].
  apply uval_inj. rewrite !length_map. congruence.
Qed.

Lemma ule_spec : implements_pred mk_ule (fun x y => uval x <=? uval y).
Proof. intros a b Ha Hb. apply mk_ule_value; [done|lia|congruence]. Qed.

Lemma sle_spec : implements_pred mk_sle (fun x y => sval x <=? sval y).
Proof. intros a b Ha Hb. apply mk_sle_value; [done|lia|congruence]. Qed.

Lemma umul_no_overflow_spec use_wtm use_bcm :
  implements_pred (mk_umul_no_overflow use_wtm use_bcm) (fun x y => uval x * uval y <? pow2 (length x)).
Proof. intros a b Ha Hb. rewrite length_map. apply mk_umul_no_overflow_value; [done|lia|congruence]. Qed.

Lemma smul_no_overflow_spec use_wtm use_bcm :
  implements_pred (mk_smul_no_overflow use_wtm use_bcm) (fun x y => sval x * sval y <? pow2 (length x - 1)).
Proof.
  intros a b Ha Hb. rewrite length_map. unfold mk_smul_no_overflow.
  by rewrite (mk_smul_no_overflow_core_value eval) by (lia || congruence).
Qed.

Lemma smul_no_underflow_spec use_wtm use_bcm :
  implements_pred (mk_smul_no_underflow use_wtm use_bcm)
    (fun x y => - pow2 (length x - 1) <=? sval x * sval y).
Proof.
  intros a b Ha Hb. rewrite length_map. unfold mk_smul_no_underflow.
  by rewrite (mk_smul_no_overflow_core_value eval) by (lia || congruence).
Qed.
End Spec.
