(* ===== verification/BlasterRewriter.v ===== *)
(** blaster_rewriter_cfg (bit_blaster_rewriter.cpp): how an application of a
    bit-vector operator becomes the vector [mkbv] of its bits' circuits, the
    bits given to the user's bit-vector constants, and the scopes of [push] and
    [pop]. The traversal is that of Rewriter.v; quantifiers ([pre_visit] and
    [reduce_quantifier]) are left out. *)
From S2P Require Import Prelude Text Bits Gates BlastArith BlastMul BlastOverflow BlastCompare BlastDiv BlastShift.
From S2P Require Import Ast AstSem AstFacts BoolRewriter BlasterCfg.

(** ** State *)

(** The map [m_const2bits], with the keys in the order of their insertion, the
    stack limits of the scopes, and the manager's counter of fresh names. *)
Record state := mk_state {
  m_const2bits : list (func_decl * expr);
  m_keys : list func_decl;
  m_values : list expr;
  m_keyval_lim : list nat;
  m_newbits : list func_decl;
  m_newbits_lim : list nat;
  m_keypos : nat;
  m_fresh_id : nat
}.

Definition initial_state (fresh_id : nat) : state := mk_state [] [] [] [] [] [] 0 fresh_id.

Record options := { m_blast_mul : bool; m_blast_add : bool; m_blast_full : bool }.
Definition default_options : options := {|
  m_blast_mul := true; m_blast_add := true; m_blast_full := false |}.

(** The last element is the innermost scope. *)
Definition push (st : state) : state :=
  mk_state (m_const2bits st) (m_keys st) (m_values st) (m_keyval_lim st ++ [length (m_keys st)])
    (m_newbits st) (m_newbits_lim st ++ [length (m_newbits st)]) (m_keypos st) (m_fresh_id st).

Definition get_num_scopes (st : state) : nat := length (m_keyval_lim st).

(** The loop that removes the keys from the last one down to [lim]. *)
Definition remove_keys (m : list (func_decl * expr)) (keys : list func_decl) : list (func_decl * expr) :=
  foldl map_remove m (rev keys).

Definition pop (num_scopes : nat) (st : state) : res state :=
  if Nat.eqb num_scopes 0 then Ok st
  else if Nat.ltb (get_num_scopes st) num_scopes then Fault OutOfBounds
  else
    let new_sz := (get_num_scopes st - num_scopes)%nat in
    lim ← aget (m_keyval_lim st) (Z.of_nat new_sz);
    nlim ← aget (m_newbits_lim st) (Z.of_nat new_sz);
    Ok (mk_state (remove_keys (m_const2bits st) (drop lim (m_keys st)))
          (take lim (m_keys st)) (take lim (m_values st)) (take new_sz (m_keyval_lim st))
          (take nlim (m_newbits st)) (take new_sz (m_newbits_lim st)) (m_keypos st) (m_fresh_id st)).

Definition start_rewrite (st : state) : state :=
  mk_state (m_const2bits st) (m_keys st) (m_values st) (m_keyval_lim st) (m_newbits st)
    (m_newbits_lim st) (length (m_keys st)) (m_fresh_id st).

(** The caller's map, extended with the constants met from [from] on, and its
    vector of new bits. *)
Definition translation_from (from : nat) (st : state) (const2bits : list (func_decl * expr))
    (newbits : list func_decl) : list (func_decl * expr) * list func_decl :=
  (foldl (fun m '(f, r) => map_insert m f r) const2bits (drop from (zip (m_keys st) (m_values st))),
   newbits ++ m_newbits st).
Definition end_rewrite (st : state) := translation_from (m_keypos st) st.
Definition get_translation (st : state) := translation_from 0 st.

(** ** Bits of a term *)

Definition app_mkbv (bits : list expr) : expr :=
  App (mk_func_decl (SymStr "mkbv") (Bv OP_MKBV) [] (map get_sort bits) (BvSort (length bits))) bits.

Definition app_bit2bool (i : nat) (t : expr) : expr :=
  App (mk_func_decl (SymStr "bit2bool") (Bv OP_BIT2BOOL) [PInt i] [get_sort t] BoolSort) [t].

Definition get_bits (t : expr) : list expr :=
  if is_mkbv t then get_args t
  else map (fun i => app_bit2bool i t) (seq 0 (get_bv_size t)).

(** The bits are formulas, which the types of the code do not say; a term that
    is not one does not reach this point. *)
Definition as_formula (e : expr) : formula :=
  match decide (wfb e = true) with
  | left H => exist _ e H
  | right _ => of_holds m_false (holds_false default_interp)
  end.
Definition bits_in (t : expr) : list formula := map as_formula (get_bits t).

Definition mk_mkbv (bits : list formula) : expr := app_mkbv (map proj1_sig bits).

(** ** The bits of a constant *)

Definition mk_const (f : func_decl) (st : state) : state * expr :=
  match map_find (m_const2bits st) f with
  | Some r => (st, r)
  | None =>
      let bv_size := sort_bv_size (range f) in
      let decls := map fresh_bool (seq (m_fresh_id st) bv_size) in
      let r := app_mkbv (map (fun d => App d []) decls) in
      (mk_state (map_insert (m_const2bits st) f r) (m_keys st ++ [f]) (m_values st ++ [r])
         (m_keyval_lim st) (m_newbits st ++ decls) (m_newbits_lim st) (m_keypos st)
         (m_fresh_id st + bv_size), r)
  end.

(** ** One operator *)

Section Reduce.
Context (get_id : expr -> Z) (opts : options).

(** The circuits of [blaster]: no Wallace tree, no Booth multiplier. *)
#[local] Instance cfg : Gates formula := blaster_cfg get_id.
Local Abbreviation use_wtm := false.
Local Abbreviation use_bcm := false.
Local Abbreviation vector := (list formula).

Definition reduce_unary (bb_op : vector -> vector) (arg : expr) : expr :=
  mk_mkbv (bb_op (bits_in arg)).
Definition reduce_binary (bb_op : vector -> vector -> vector) (arg1 arg2 : expr) : expr :=
  mk_mkbv (bb_op (bits_in arg1) (bits_in arg2)).
Definition reduce_pred (bb_op : vector -> vector -> formula) (arg1 arg2 : expr) : expr :=
  proj1_sig (bb_op (bits_in arg1) (bits_in arg2)).

(** [MK_BIN_AC_REDUCE]: there is at least one argument. *)
Definition reduce_ac (bb_op : vector -> vector -> vector) (args : list expr) : expr :=
  match args with
  | [] => m_false
  | arg :: args => foldl (reduce_binary bb_op) arg args
  end.

Definition reduce_ite (arg1 arg2 arg3 : expr) : expr :=
  mk_mkbv (mk_multiplexer (as_formula arg1) (bits_in arg2) (bits_in arg3)).

Definition reduce_concat (args : list expr) : expr :=
  mk_mkbv (concat (map bits_in (rev args))).

Definition reduce_extract (start end_ : nat) (arg : expr) : expr :=
  mk_mkbv (map (fun i => bit (bits_in arg) i) (seq start (S end_ - start))).

Definition reduce_num (v : Z) (bv_sz : nat) : expr := mk_mkbv (num2bits v bv_sz).

Definition reduce_sign_extend (arg : expr) (n : nat) : expr :=
  mk_mkbv (mk_sign_extend (bits_in arg) n).

Definition blast_bv_term (t : expr) : expr :=
  app_mkbv (map (fun i => app_bit2bool i t) (seq 0 (get_bv_size t))).

Definition mul_circuit : vector -> vector -> vector := mk_multiplier use_wtm use_bcm.

(** The operators of the bit-vector family. *)
Definition reduce_bv (f : func_decl) (k : bv_op_kind) (args : list expr) : res br_status :=
  let if_mul r := Ok (if m_blast_mul opts then BR_DONE r else BR_FAILED) in
  match k, params f, args with
  | OP_BV_NUM, [PRational v; PInt bv_sz], _ => Ok (BR_DONE (reduce_num v bv_sz))
  | OP_BADD, _, args => Ok (if m_blast_add opts then BR_DONE (reduce_ac mk_adder args) else BR_FAILED)
  | OP_BMUL, _, args => if_mul (reduce_ac mul_circuit args)
  | (OP_BSDIV | OP_BUDIV | OP_BSREM | OP_BUREM | OP_BSMOD), _, _ =>
      if m_blast_mul opts then Fault Z3Exception else Ok BR_FAILED
  | (OP_BSDIV0 | OP_BUDIV0 | OP_BSREM0 | OP_BUREM0 | OP_BSMOD0), _, _ => Ok BR_FAILED
  | OP_BSDIV_I, _, [a; b] => if_mul (reduce_binary mk_sdiv a b)
  | OP_BUDIV_I, _, [a; b] => if_mul (reduce_binary mk_udiv a b)
  | OP_BSREM_I, _, [a; b] => if_mul (reduce_binary mk_srem a b)
  | OP_BUREM_I, _, [a; b] => if_mul (reduce_binary mk_urem a b)
  | OP_BSMOD_I, _, [a; b] => if_mul (reduce_binary mk_smod a b)
  | OP_ULEQ, _, [a; b] => Ok (BR_DONE (reduce_pred mk_ule a b))
  | OP_SLEQ, _, [a; b] => Ok (BR_DONE (reduce_pred mk_sle a b))
  | OP_BOR, _, args => Ok (BR_DONE (reduce_ac mk_or_bits args))
  | OP_BNOT, _, [a] => Ok (BR_DONE (reduce_unary mk_not_bits a))
  | OP_BXOR, _, args => Ok (BR_DONE (reduce_ac mk_xor_bits args))
  | OP_CONCAT, _, args => Ok (BR_DONE (reduce_concat args))
  | OP_SIGN_EXT, [PInt n], [a] => Ok (BR_DONE (reduce_sign_extend a n))
  | OP_EXTRACT, [PInt hi; PInt lo], [a] => Ok (BR_DONE (reduce_extract lo hi a))
  | OP_BREDOR, _, [a] => Ok (BR_DONE (reduce_unary mk_redor a))
  | OP_BREDAND, _, [a] => Ok (BR_DONE (reduce_unary mk_redand a))
  | OP_BSHL, _, [a; b] => Ok (BR_DONE (reduce_binary mk_shl a b))
  | OP_BLSHR, _, [a; b] => Ok (BR_DONE (reduce_binary mk_lshr a b))
  | OP_BASHR, _, [a; b] => Ok (BR_DONE (reduce_binary mk_ashr a b))
  | OP_EXT_ROTATE_LEFT, _, [a; b] => Ok (BR_DONE (reduce_binary mk_ext_rotate_left a b))
  | OP_EXT_ROTATE_RIGHT, _, [a; b] => Ok (BR_DONE (reduce_binary mk_ext_rotate_right a b))
  | OP_BUMUL_NO_OVFL, _, [a; b] =>
      Ok (BR_DONE (reduce_pred (mk_umul_no_overflow use_wtm use_bcm) a b))
  | OP_BSMUL_NO_OVFL, _, [a; b] =>
      Ok (BR_DONE (reduce_pred (mk_smul_no_overflow use_wtm use_bcm) a b))
  | OP_BSMUL_NO_UDFL, _, [a; b] =>
      Ok (BR_DONE (reduce_pred (mk_smul_no_underflow use_wtm use_bcm) a b))
  | (OP_BIT2BOOL | OP_MKBV | OP_INT2BV | OP_BV2INT), _, _ => Ok BR_FAILED
  | _, _, _ => Fault Z3Exception
  end.

Definition reduce_app (f : func_decl) (args : list expr) (st : state) : res (state * br_status) :=
  match kind f, args with
  | NullFid, [] =>
      if is_bv_sort (range f) then let '(st, r) := mk_const f st in Ok (st, BR_DONE r)
      else Ok (st, BR_FAILED)
  | Basic OP_EQ, [a; b] =>
      Ok (st, if is_bv a then BR_DONE (reduce_pred BlastCompare.mk_eq a b) else BR_FAILED)
  | Basic OP_ITE, [c; t; e] =>
      Ok (st, if is_bv t then BR_DONE (reduce_ite c t e) else BR_FAILED)
  | Bv k, args => r ← reduce_bv f k args; Ok (st, r)
  | _, _ =>
      Ok (st, if m_blast_full opts && is_bv_sort (range f) then BR_DONE (blast_bv_term (App f args))
              else BR_FAILED)
  end.
End Reduce.
