(* ===== verification/BlasterRewriterOk.v ===== *)
(** Bit-blasting preserves meaning: each [reduce_*] of blaster_rewriter_cfg
    returns a well-sorted term of the value of the application it replaces; the
    bits of the constants are fresh, consistent with the constants, and undone
    by [pop]. *)
From S2P Require Import Prelude Text Bits Gates BlastArith BlastMul BlastOverflow BlastCompare BlastDiv BlastShift.
From S2P Require Import Ast AstSem AstFacts BlastSpec BoolRewriter BoolRewriterOk BlasterCfg BlasterRewriter.

(** ** Bits of a term *)

Section Bits.
Context (I : interp).
Local Abbreviation eval := (AstSem.eval I).
Local Abbreviation tr := (tr I).

(** The value of a formula that is a bit. *)
Definition bit_value (x : formula) : bool := tr (`x).

Lemma as_formula_id e : wfb e = true -> proj1_sig (as_formula e) = e.
Proof. unfold as_formula. by destruct (decide _). Qed.

Lemma bit2bool_holds t n i :
  wf t = true -> get_sort t = BvSort n -> (i < n)%nat ->
  holds I (nth i (bits (eval t)) false) (app_bit2bool i t).
Proof.
  intros Hw Hs Hi. split; [|done]. apply wfb_spec. split; [|done]. unfold app_bit2bool.
  rewrite wf_app. unfold op_sort. cbn [kind map bv_sort Ast.params range].
  rewrite Hs, (proj2 (Nat.ltb_lt _ _)) by done. by repeat constructor.
Qed.

Lemma map_nth_seq {A} (l : list A) d : map (fun i => nth i l d) (seq 0 (length l)) = l.
Proof.
  apply list_eq_same_length with (n := length l); [done|by rewrite length_map, length_seq|].
  intros i x y Hi Hx Hy. rewrite list_lookup_fmap, lookup_seq_lt in Hx by done.
  cbn in Hx. apply (nth_lookup_Some _ _ d) in Hy. congruence.
Qed.

Lemma get_bits_ok t n :
  wf t = true -> get_sort t = BvSort n ->
  Forall (fun e => wfb e = true) (get_bits t) /\ map tr (get_bits t) = bits (eval t).
Proof.
  intros Hw Hs. unfold get_bits, get_bv_size. destruct (is_mkbv t) eqn:Hm.
  - destruct (mkbv_inv I t Hm Hw) as (Hb & -> & _). done.
  - rewrite Hs. cbn [sort_bv_size]. destruct (eval_bv I t n Hw Hs) as [_ Hl]. split.
    + rewrite Forall_map, Forall_forall. intros i [_ Hi]%elem_of_seq. by eapply holds_wfb, bit2bool_holds.
    + rewrite map_map, <- (map_nth_seq (bits (eval t)) false), Hl at 1. apply map_ext_in.
      intros i Hi%in_seq. eapply bit2bool_holds; [done..|lia].
Qed.

Lemma bits_in_ok t n :
  wf t = true -> get_sort t = BvSort n ->
  map bit_value (bits_in t) = bits (eval t) /\ length (bits_in t) = n.
Proof.
  intros Hw Hs. destruct (get_bits_ok t n Hw Hs) as [Hb Hv].
  assert (map bit_value (bits_in t) = bits (eval t)) as Hm.
  { rewrite <- Hv. unfold bits_in, bit_value. rewrite map_map. clear Hv.
    induction Hb as [|e l He _ IH]; [done|]. cbn. by rewrite as_formula_id, IH. }
  split; [done|]. rewrite <- (length_map bit_value), Hm. by apply (eval_bv I t n).
Qed.

Lemma mk_mkbv_ok l n :
  length l = n -> (0 < n)%nat -> means I (BvSort n) (VBv (map bit_value l)) (mk_mkbv l).
Proof.
  intros Hl Hn. unfold mk_mkbv, app_mkbv.
  assert (length (map proj1_sig l) = n) as Hlm by (rewrite length_map; exact Hl). rewrite Hlm.
  destruct (wf_all_bool _ (formulas_wfb l)) as [Hs Hw]. split_and!; [|done|].
  - rewrite wf_app. split_and!; [|by apply Nat.ltb_lt|done].
    unfold op_sort. cbn [kind bv_sort range]. by rewrite Hs, length_map, Hlm.
  - cbn. unfold decl_apply. cbn. by rewrite !map_map.
Qed.
End Bits.

(** ** The operators *)

Section Operators.
Context (I : interp) (get_id : expr -> Z).
Local Abbreviation eval := (AstSem.eval I).
Local Abbreviation ev := (bit_value I).
#[local] Existing Instance cfg.
#[local] Instance cfg_ok : GatesOk (H := cfg get_id) ev := blaster_cfg_ok get_id I.

(** A bit-vector argument of width [n] and value [x]. *)
Local Abbreviation vector n x t := (means I (BvSort n) (VBv x) t).

Lemma vector_bits n x t : vector n x t -> map ev (bits_in t) = x /\ length (bits_in t) = n.
Proof. intros (Hw & Hs & Hv). destruct (bits_in_ok I t n Hw Hs) as [Hm Hl]. by rewrite Hm, Hv. Qed.

Lemma reduce_binary_ok n op f x y a b :
  implements ev n op f -> (forall u v, length u = n -> length v = n -> length (f u v) = n) -> (0 < n)%nat ->
  vector n x a -> vector n y b -> vector n (f x y) (reduce_binary op a b).
Proof.
  intros Hop Hlen Hn Ha Hb. apply vector_bits in Ha as [Hx Hla], Hb as [Hy Hlb].
  unfold reduce_binary. rewrite <- Hx, <- Hy, <- (Hop _ _ Hla Hlb). apply mk_mkbv_ok; [|done].
  rewrite <- (length_map ev), Hop by done. apply Hlen; by rewrite length_map.
Qed.

Lemma reduce_unary_ok n m op f x a :
  (forall l, length l = n -> map ev (op l) = f (map ev l)) -> length (f x) = m -> (0 < m)%nat ->
  vector n x a -> vector m (f x) (reduce_unary op a).
Proof.
  intros Hop Hlen Hm Ha. apply vector_bits in Ha as [Hx Hla]. unfold reduce_unary.
  rewrite <- Hx, <- (Hop _ Hla) in *. apply mk_mkbv_ok; [|done]. by rewrite <- Hlen, length_map.
Qed.

Lemma reduce_pred_ok n op f x y a b :
  implements_pred ev n op f -> vector n x a -> vector n y b ->
  means I BoolSort (VBool (f x y)) (reduce_pred op a b).
Proof.
  intros Hop Ha Hb. apply vector_bits in Ha as [Hx Hla], Hb as [Hy Hlb]. apply means_bool.
  unfold reduce_pred. rewrite <- Hx, <- Hy, <- (Hop _ _ Hla Hlb). apply formula_holds.
Qed.

Lemma reduce_ac_ok n op f x a args xs :
  implements ev n op f -> (forall u v, length u = n -> length v = n -> length (f u v) = n) -> (0 < n)%nat ->
  vector n x a -> Forall2 (fun y b => vector n y b) xs args ->
  vector n (foldl f x xs) (reduce_ac op (a :: args)).
Proof.
  intros Hop Hlen Hn Ha Hargs. cbn [reduce_ac]. revert x a Ha.
  induction Hargs as [|y b xs args Hb _ IH]; intros x a Ha; [done|].
  cbn [foldl]. apply IH. by apply (reduce_binary_ok n op f).
Qed.

(** ** The operators on vectors of one width *)

Lemma vector_self n t : wf t = true -> get_sort t = BvSort n -> vector n (bits (eval t)) t /\ (0 < n)%nat.
Proof.
  intros Hw Hs. split.
  - split_and!; try done. by apply (eval_bv I t n).
  - apply wf_positive in Hw. rewrite Hs in Hw. by apply Nat.ltb_lt.
Qed.

Lemma uniform_inv f k args :
  kind f = Bv k -> is_uniform k = true -> wf (App f args) = true ->
  exists n a rest, args = a :: rest /\ (0 < n)%nat /\ vector n (bits (eval a)) a
    /\ Forall2 (fun y b => vector n y b) (map (fun b => bits (eval b)) rest) rest
    /\ match bv_binary k, bv_assoc k with
       | Some _, _ => length rest = 1%nat /\ range f = BvSort n
       | None, Some _ => range f = BvSort n
       | None, None => length rest = 1%nat /\ range f = BoolSort
       end.
Proof.
  intros Hk Hu. rewrite wf_app. unfold op_sort. rewrite Hk. intros (Hs & _ & Hw).
  assert (bv_uniform_sort k (map get_sort args) = Some (range f)) as Hs'
    by (rewrite <- Hs; unfold bv_sort; by destruct k).
  clear Hs. unfold bv_uniform_sort in Hs'. destruct args as [|a rest]; [done|]. cbn [map] in Hs'.
  destruct (get_sort a) as [|n|] eqn:Ha; try done. destruct (all_same _ _) eqn:Hall; [|done].
  apply all_same_spec, Forall_map in Hall. apply Forall_cons in Hw as [Hwa Hw].
  destruct (vector_self n a Hwa Ha) as [Hva Hn]. exists n, a, rest. split_and!; try done.
  - clear Hs'. induction rest as [|b rest IH]; [constructor|]. apply Forall_cons in Hall as [Hb Hall].
    apply Forall_cons in Hw as [Hwb Hw]. constructor; [by apply vector_self|by apply IH].
  - rewrite length_map in Hs'. destruct (bv_binary k); [|destruct (bv_assoc k)];
      try (destruct (length rest) as [|[|]]; cbn in Hs'; try done); split_and?; congruence.
Qed.

Lemma eval_uniform f k args :
  kind f = Bv k -> is_uniform k = true ->
  eval (App f args) = default (i_decl I f (map eval args)) (bv_uniform k (map eval args)).
Proof. intros Hk Hu. cbn. unfold decl_apply. rewrite Hk. by destruct k. Qed.

Lemma binary_done f k g op args a b :
  kind f = Bv k -> bv_binary k = Some g -> wf (App f args) = true -> args = [a; b] ->
  (forall n, (0 < n)%nat -> implements ev n op g) ->
  means I (range f) (eval (App f args)) (reduce_binary op a b).
Proof.
  intros Hk Hg Hw -> Hop. assert (is_uniform k = true) as Hu by (unfold is_uniform; by rewrite Hg).
  destruct (uniform_inv f k [a; b] Hk Hu Hw) as (n & a' & rest & [= <- <-] & Hn & Ha & Hrest & Hr).
  rewrite Hg in Hr. destruct Hr as [_ ->]. apply Forall2_cons in Hrest as [Hb _].
  rewrite (eval_uniform f k) by done. unfold bv_uniform. rewrite Hg. cbn [map default].
  apply (reduce_binary_ok n op g); try done; [by apply Hop|].
  intros u v Hlu Hlv. by apply (bv_binary_length k g).
Qed.

Lemma assoc_done f k g op args :
  kind f = Bv k -> bv_binary k = None -> bv_assoc k = Some g -> wf (App f args) = true ->
  (forall n, (0 < n)%nat -> implements ev n op g) ->
  means I (range f) (eval (App f args)) (reduce_ac op args).
Proof.
  intros Hk Hbin Hg Hw Hop.
  assert (is_uniform k = true) as Hu by (unfold is_uniform; by rewrite Hbin, Hg).
  destruct (uniform_inv f k args Hk Hu Hw) as (n & a & rest & -> & Hn & Ha & Hrest & Hr).
  rewrite Hbin, Hg in Hr. rewrite Hr, (eval_uniform f k) by done. unfold bv_uniform.
  rewrite Hbin, Hg. cbn [map default]. rewrite map_map.
  apply (reduce_ac_ok n op g); try done; [by apply Hop|].
  intros u v Hlu Hlv. by apply (bv_assoc_length k g).
Qed.

Lemma pred_done f k g op args a b :
  kind f = Bv k -> bv_binary k = None -> bv_assoc k = None -> bv_pred k = Some g ->
  wf (App f args) = true -> args = [a; b] ->
  (forall n, (0 < n)%nat -> implements_pred ev n op g) ->
  means I (range f) (eval (App f args)) (reduce_pred op a b).
Proof.
  intros Hk Hbin Has Hg Hw -> Hop.
  assert (is_uniform k = true) as Hu by (unfold is_uniform; by rewrite Hbin, Has, Hg).
  destruct (uniform_inv f k [a; b] Hk Hu Hw) as (n & a' & rest & [= <- <-] & Hn & Ha & Hrest & Hr).
  rewrite Hbin, Has in Hr. destruct Hr as [_ ->]. apply Forall2_cons in Hrest as [Hb _].
  rewrite (eval_uniform f k) by done. unfold bv_uniform. rewrite Hbin, Has, Hg. cbn [map default].
  by apply (reduce_pred_ok n op g); [apply Hop| |].
Qed.

(** ** The other operators *)

Lemma bv_app_inv f k args :
  kind f = Bv k -> wf (App f args) = true ->
  bv_sort f k (map get_sort args) = Some (range f) /\ Forall (fun e => wf e = true) args.
Proof. intros Hk. rewrite wf_app. unfold op_sort. rewrite Hk. tauto. Qed.

(** One bit-vector argument of width [n]. *)
Lemma one_vector k f args s :
  kind f = Bv k -> wf (App f args) = true -> map get_sort args = [s] ->
  exists a, args = [a] /\ forall n, s = BvSort n -> vector n (bits (eval a)) a /\ (0 < n)%nat.
Proof.
  intros Hk Hw Hs. apply bv_app_inv with (k := k) in Hw as [_ Hw]; [|done].
  destruct args as [|a [|]]; try done. injection Hs as Hs. apply Forall_cons in Hw as [Hw _].
  exists a. split; [done|]. intros n ->. by apply vector_self.
Qed.

Lemma map_get_sort_1 args s : map get_sort args = [s] -> exists a, args = [a] /\ get_sort a = s.
Proof. destruct args as [|a [|]]; try done. intros [= <-]. eauto. Qed.

Lemma num_done f args v n :
  kind f = Bv OP_BV_NUM -> Ast.params f = [PRational v; PInt n] -> wf (App f args) = true ->
  means I (range f) (eval (App f args)) (reduce_num get_id v n).
Proof.
  intros Hk Hp Hw. pose proof Hw as (_ & Hpos & _)%wf_app.
  apply bv_app_inv with (k := OP_BV_NUM) in Hw as [Hs _]; [|done].
  unfold bv_sort in Hs. rewrite Hp in Hs. destruct args as [|]; [|done]. cbn [map] in Hs.
  destruct (_ && Nat.ltb 0 n); [|done]. injection Hs as Hs. rewrite <- Hs in *.
  cbn. unfold decl_apply. rewrite Hk, Hp. cbn [map bv_apply default].
  unfold reduce_num. rewrite <- (num2bits_bits (H := cfg get_id) ev).
  apply mk_mkbv_ok; [apply (num2bits_length (H := cfg get_id) ev)|].
  by apply Nat.ltb_lt.
Qed.

Lemma unary_done f k m op g a :
  kind f = Bv k -> range f = BvSort m -> wf (App f [a]) = true -> is_bv a = true ->
  eval (App f [a]) = VBv (g (bits (eval a))) ->
  (forall l, get_sort a = BvSort (length l) -> map ev (op l) = g (map ev l)) ->
  means I (range f) (eval (App f [a])) (reduce_unary op a).
Proof.
  intros Hk Hr Hw Hbv Hv Hop. pose proof (eval_sort I _ Hw) as Hsort.
  pose proof (wf_positive _ Hw) as Hpos. cbn [get_sort] in Hsort, Hpos. rewrite Hv, Hr in *.
  injection Hsort as Hsort. apply Nat.ltb_lt in Hpos.
  pose proof Hw as (_ & _ & [Hwa _]%Forall_cons)%wf_app.
  unfold is_bv, is_bv_sort in Hbv. destruct (get_sort a) as [|n|] eqn:Ha; try done.
  destruct (vector_self n a Hwa Ha) as [Hva Hn].
  apply (reduce_unary_ok n m op g); try done. intros l Hl. apply Hop. by rewrite Hl.
Qed.

Lemma concat_done f args :
  kind f = Bv OP_CONCAT -> wf (App f args) = true ->
  means I (range f) (eval (App f args)) (reduce_concat args).
Proof.
  intros Hk Hw. pose proof (eval_sort I _ Hw) as Hsort. pose proof (wf_positive _ Hw) as Hpos.
  apply bv_app_inv with (k := OP_CONCAT) in Hw as [Hs Hw]; [|done]. cbn [bv_sort] in Hs.
  destruct (forallb _ _) eqn:Hall; [|by destruct (Ast.params f) as [|[] [|[] [|]]]].
  assert (range f = BvSort (sum_list (map sort_bv_size (map get_sort args)))) as Hr
    by (destruct (bool_decide _), (Ast.params f) as [|[] [|[] [|]]]; cbn in Hs; congruence).
  assert (eval (App f args) = VBv (concat (rev (map (fun b => bits (eval b)) args)))) as Hv.
  { cbn. unfold decl_apply. rewrite Hk. cbn. by rewrite map_map. }
  cbn [get_sort] in Hsort, Hpos. rewrite Hv, Hr in *. injection Hsort as Hsort. apply Nat.ltb_lt in Hpos.
  unfold reduce_concat.
  assert (map ev (concat (map bits_in (rev args))) = concat (rev (map (fun b => bits (eval b)) args))) as Hm.
  { rewrite concat_map, map_map, <- map_rev. f_equal. apply map_ext_in. intros t Ht%in_rev.
    apply list_elem_of_In in Ht. rewrite Forall_forall in Hw. apply forallb_forall with (x := get_sort t) in Hall.
    - unfold is_bv_sort in Hall. destruct (get_sort t) as [|n|] eqn:Hst; try done.
      by apply (bits_in_ok I t n (Hw t Ht)).
    - apply in_map. by apply list_elem_of_In. }
  rewrite <- Hm in Hsort |- *. apply mk_mkbv_ok; [|done]. by rewrite <- Hsort, length_map.
Qed.

Lemma extract_bits l lo len :
  (lo + len <= length l)%nat ->
  map ev (map (fun i => bit (H := cfg get_id) l i) (seq lo len)) = take len (drop lo (map ev l)).
Proof.
  intros Hl. rewrite map_map.
  apply list_eq_same_length with (n := len).
  - rewrite length_take, length_drop, length_map. lia.
  - by rewrite length_map, length_seq.
  - intros i x y Hi Hx Hy. rewrite list_lookup_fmap, lookup_seq_lt in Hx by done. injection Hx as <-.
    rewrite lookup_take, lookup_drop, decide_True in Hy by done. rewrite (eval_nth (H := cfg get_id) ev).
    by apply (nth_lookup_Some _ _ false) in Hy.
Qed.

(** The sorts of the operators of one argument. *)
Lemma unary_sorts f k a :
  kind f = Bv k -> wf (App f [a]) = true ->
  k = OP_BNOT \/ k = OP_BREDOR \/ k = OP_BREDAND \/ k = OP_SIGN_EXT \/ k = OP_EXTRACT ->
  is_bv a = true /\ exists m, range f = BvSort m.
Proof.
  intros Hk Hw Hcases. apply bv_app_inv with (k := k) in Hw as [Hs _]; [|done]. unfold is_bv, is_bv_sort.
  destruct Hcases as [->|[->|[->|[->| ->]]]]; cbn in Hs;
    repeat (case_match; try discriminate Hs); split; try done; injection Hs as Hs; by eexists.
Qed.

Lemma structural_done f k a r :
  kind f = Bv k -> wf (App f [a]) = true ->
  match k, Ast.params f with
  | OP_BNOT, _ => r = reduce_unary (mk_not_bits (H := cfg get_id)) a
  | OP_BREDOR, _ => r = reduce_unary (mk_redor (H := cfg get_id)) a
  | OP_BREDAND, _ => r = reduce_unary (mk_redand (H := cfg get_id)) a
  | OP_SIGN_EXT, [PInt n] => r = reduce_sign_extend get_id a n
  | OP_EXTRACT, [PInt hi; PInt lo] => r = reduce_extract get_id lo hi a
  | _, _ => False
  end ->
  means I (range f) (eval (App f [a])) r.
Proof.
  intros Hk Hw Hr.
  assert (k = OP_BNOT \/ k = OP_BREDOR \/ k = OP_BREDAND \/ k = OP_SIGN_EXT \/ k = OP_EXTRACT) as Hcases
    by (destruct k; tauto).
  destruct (unary_sorts f k a Hk Hw Hcases) as [Hbv [m Hm]].
  pose proof (proj1 (bv_app_inv f k [a] Hk Hw)) as Hs.
  assert (forall g, bv_apply k (Ast.params f) [eval a] = Some (VBv (g (bits (eval a)))) ->
    eval (App f [a]) = VBv (g (bits (eval a)))) as Hval.
  { intros g Hg. cbn. unfold decl_apply. rewrite Hk. cbn [map]. by rewrite Hg. }
  destruct Hcases as [->|[->|[->|[->| ->]]]].
  - subst r. apply (unary_done f OP_BNOT m _ (map negb)); try done; [by apply Hval; destruct (Ast.params f)|].
    intros l _. unfold mk_not_bits. rewrite !map_map. apply map_ext. intros x.
    apply (eval_not (H := cfg get_id) (eval := ev)).
  - subst r. apply (unary_done f OP_BREDOR m _ (fun x => [existsb (fun b => b) x])); try done;
      [by apply (Hval (fun x => [existsb (fun b => b) x])); destruct (Ast.params f)|].
    intros l _. cbn [map mk_redor]. by rewrite (eval_or_n (H := cfg get_id) (eval := ev)), existsb_eval.
  - subst r. apply (unary_done f OP_BREDAND m _ (fun x => [forallb (fun b => b) x])); try done;
      [by apply (Hval (fun x => [forallb (fun b => b) x])); destruct (Ast.params f)|].
    intros l _. cbn [map mk_redand]. by rewrite (eval_and_n (H := cfg get_id) (eval := ev)), forallb_eval.
  - destruct (Ast.params f) as [|[n| |] [|]]; try done. subst r.
    apply (unary_done f OP_SIGN_EXT m (fun l => mk_sign_extend (H := cfg get_id) l n)
      (fun x => x ++ replicate n (msb x))); try done; [by apply (Hval (fun x => x ++ replicate n (msb x)))|].
    intros l _. unfold mk_sign_extend. rewrite map_app. f_equal.
    etransitivity; [apply (fmap_replicate ev)|]. f_equal.
    apply (eval_top (H := cfg get_id) ev).
  - destruct (Ast.params f) as [|[hi| |] [|[lo| |] [|]]] eqn:Hp; try done. subst r.
    apply (unary_done f OP_EXTRACT m (fun l => map (fun i => bit (H := cfg get_id) l i) (seq lo (S hi - lo)))
      (fun x => take (S hi - lo) (drop lo x))); try done; [by apply (Hval (fun x => take (S hi - lo) (drop lo x)))|].
    intros l Hl. apply extract_bits. cbn [bv_sort] in Hs. rewrite Hp in Hs. cbn [map] in Hs. rewrite Hl in Hs.
    destruct (Nat.leb lo hi) eqn:Hlo, (Nat.ltb hi (length l)) eqn:Hhi; try done.
    apply Nat.leb_le in Hlo. apply Nat.ltb_lt in Hhi. lia.
Qed.

(** ** Equality and if-then-else of bit-vectors, unknown terms *)

Lemma eq_done f a b :
  kind f = Basic OP_EQ -> wf (App f [a; b]) = true -> is_bv a = true ->
  means I (range f) (eval (App f [a; b])) (reduce_pred (BlastCompare.mk_eq (H := cfg get_id)) a b).
Proof.
  intros Hk Hw Hb. pose proof Hw as (Hs & _ & Ha)%wf_app. unfold op_sort in Hs. rewrite Hk in Hs.
  cbn in Hs. case_decide as Hsab; [|done]. injection Hs as <-.
  apply Forall_cons in Ha as [Hwa Ha]. apply Forall_cons in Ha as [Hwb _].
  unfold is_bv, is_bv_sort in Hb. destruct (get_sort a) as [|n|] eqn:Hsa; try done.
  destruct (vector_self n a Hwa Hsa) as [Hva Hn], (vector_self n b Hwb) as [Hvb _]; [congruence|].
  cbn. unfold decl_apply. rewrite Hk. cbn [map basic_apply default from_option id].
  pose proof Hva as (_ & _ & Hea). pose proof Hvb as (_ & _ & Heb).
  pose proof (reduce_pred_ok n _ _ _ _ a b (eq_spec (H := cfg get_id) ev n) Hva Hvb) as Hp.
  apply means_bool in Hp. apply means_bool. eapply holds_ext; [exact Hp|].
  apply bool_decide_ext. split; [|by intros ->]. intros Heq. rewrite Hea, Heb. by rewrite Heq.
Qed.

Lemma ite_done f c t e :
  kind f = Basic OP_ITE -> wf (App f [c; t; e]) = true -> is_bv t = true ->
  means I (range f) (eval (App f [c; t; e])) (reduce_ite get_id c t e).
Proof.
  intros Hk Hw Hb. assert (is_ite (App f [c; t; e]) = true) as Hi by by apply bool_decide_eq_true.
  destruct (ite_inv I _ Hi Hw) as (d & c' & t' & e' & [= <- <- <- <-] & Hc & Ht & He & Hst & Hse & ->).
  cbn [get_sort] in Hst, Hse. unfold is_bv, is_bv_sort in Hb. destruct (get_sort t) as [|n|] eqn:Hn; try done.
  destruct (vector_self n t Ht Hn) as [Hvt Hpos], (vector_self n e He) as [Hve _]; [congruence|].
  rewrite <- Hst. pose proof (vector_bits _ _ _ Hvt) as [Hbt Hlt]. pose proof (vector_bits _ _ _ Hve) as [Hbe Hle].
  unfold reduce_ite. set (l := mk_multiplexer _ _ _).
  assert (map ev l = if AstFacts.tr I c then bits (eval t) else bits (eval e)) as Hl.
  { unfold l. rewrite (mk_multiplexer_map (H := cfg get_id) ev) by congruence.
    unfold bit_value at 1. rewrite as_formula_id, Hbt, Hbe by done. done. }
  replace (if AstFacts.tr I c then eval t else eval e) with (VBv (map ev l)).
  - apply mk_mkbv_ok; [|done]. unfold l. by rewrite mk_multiplexer_length by congruence.
  - rewrite Hl. destruct (AstFacts.tr I c); symmetry; [apply Hvt|apply Hve].
Qed.

Lemma term_done t n :
  wf t = true -> get_sort t = BvSort n -> means I (BvSort n) (eval t) (blast_bv_term t).
Proof.
  intros Hw Hs. unfold blast_bv_term, get_bv_size. rewrite Hs. cbn [sort_bv_size].
  destruct (vector_self n t Hw Hs) as [(_ & _ & ->) Hn]. destruct (eval_bv I t n Hw Hs) as [_ Hl].
  set (l := map (fun i => app_bit2bool i t) (seq 0 n)).
  assert (Forall (fun e => wfb e = true) l) as Hb.
  { unfold l. rewrite Forall_map, Forall_forall. intros i [_ Hi]%elem_of_seq. by eapply (holds_wfb I), bit2bool_holds. }
  assert (map ev (map as_formula l) = bits (eval t)) as Hm.
  { rewrite map_map. transitivity (map (AstFacts.tr I) l).
    - apply map_ext_in. intros e He%list_elem_of_In. rewrite Forall_forall in Hb. unfold bit_value.
      by rewrite as_formula_id by auto.
    - unfold l. rewrite map_map, <- (map_nth_seq (bits (eval t)) false), Hl at 1. apply map_ext_in.
      intros i Hi%in_seq. eapply bit2bool_holds; [done..|lia]. }
  rewrite <- Hm. replace (app_mkbv l) with (mk_mkbv (map as_formula l)).
  - apply mk_mkbv_ok; [|done]. unfold l. by rewrite !length_map, length_seq.
  - unfold mk_mkbv. f_equal. clear Hm. induction Hb as [|e l' He _ IH]; [done|]. cbn. by rewrite as_formula_id, IH.
Qed.

(** ** The whole switch *)

Context (opts : options).

Lemma if_mul_ok s v r : means I s v r -> br_means I s v (if m_blast_mul opts then BR_DONE r else BR_FAILED).
Proof. by destruct (m_blast_mul opts). Qed.

(** The circuit of a binary operator, with its table entry. *)
Local Ltac binary spec :=
  intros [= <-]; try apply if_mul_ok; eapply binary_done; [done|done|done|done|]; intros; by apply spec.
Local Ltac predicate spec :=
  intros [= <-]; eapply pred_done; [done|done|done|done|done|done|]; intros; by apply spec.

Lemma reduce_division_ok f k a b r :
  kind f = Bv k -> wf (App f [a; b]) = true ->
  In k [OP_BSDIV_I; OP_BUDIV_I; OP_BSREM_I; OP_BUREM_I; OP_BSMOD_I] ->
  reduce_bv get_id opts f k [a; b] = Ok r -> br_means I (range f) (eval (App f [a; b])) r.
Proof.
  intros Hk Hw Hin. cbn in Hin. destruct Hin as [<-|[<-|[<-|[<-|[<-|[]]]]]]; cbn [reduce_bv].
  - binary (sdiv_spec (H := cfg get_id) ev).
  - binary (udiv_spec (H := cfg get_id) ev).
  - binary (srem_spec (H := cfg get_id) ev).
  - binary (urem_spec (H := cfg get_id) ev).
  - binary (smod_spec (H := cfg get_id) ev).
Qed.

Lemma reduce_shift_ok f k a b r :
  kind f = Bv k -> wf (App f [a; b]) = true ->
  In k [OP_BSHL; OP_BLSHR; OP_BASHR; OP_EXT_ROTATE_LEFT; OP_EXT_ROTATE_RIGHT] ->
  reduce_bv get_id opts f k [a; b] = Ok r -> br_means I (range f) (eval (App f [a; b])) r.
Proof.
  intros Hk Hw Hin. cbn in Hin. destruct Hin as [<-|[<-|[<-|[<-|[<-|[]]]]]]; cbn [reduce_bv].
  - binary (shl_spec (H := cfg get_id) ev).
  - binary (lshr_spec (H := cfg get_id) ev).
  - binary (ashr_spec (H := cfg get_id) ev).
  - binary (fun n => ext_rotate_spec (H := cfg get_id) ev n true).
  - binary (fun n => ext_rotate_spec (H := cfg get_id) ev n false).
Qed.

Lemma reduce_pred_ok' f k a b r :
  kind f = Bv k -> wf (App f [a; b]) = true ->
  In k [OP_ULEQ; OP_SLEQ; OP_BUMUL_NO_OVFL; OP_BSMUL_NO_OVFL; OP_BSMUL_NO_UDFL] ->
  reduce_bv get_id opts f k [a; b] = Ok r -> br_means I (range f) (eval (App f [a; b])) r.
Proof.
  intros Hk Hw Hin. cbn in Hin. destruct Hin as [<-|[<-|[<-|[<-|[<-|[]]]]]]; cbn [reduce_bv].
  - predicate (ule_spec (H := cfg get_id) ev).
  - predicate (sle_spec (H := cfg get_id) ev).
  - predicate (umul_no_overflow_spec (H := cfg get_id) ev).
  - predicate (smul_no_overflow_spec (H := cfg get_id) ev).
  - predicate (smul_no_underflow_spec (H := cfg get_id) ev).
Qed.

Lemma reduce_assoc_ok f k args r :
  kind f = Bv k -> wf (App f args) = true -> In k [OP_BADD; OP_BMUL; OP_BOR; OP_BXOR] ->
  reduce_bv get_id opts f k args = Ok r -> br_means I (range f) (eval (App f args)) r.
Proof.
  intros Hk Hw Hin. cbn in Hin. destruct Hin as [<-|[<-|[<-|[<-|[]]]]]; cbn [reduce_bv]; intros [= <-].
  - destruct (m_blast_add opts); [|done]. eapply assoc_done; [done..|]. intros. by apply (adder_spec (H := cfg get_id) ev).
  - apply if_mul_ok. eapply assoc_done; [done..|]. intros. by apply (multiplier_spec (H := cfg get_id) ev).
  - eapply assoc_done; [done..|]. intros. apply (zip_spec ev). apply (Gates.eval_or (H := cfg get_id) (eval := ev)).
  - eapply assoc_done; [done..|]. intros. apply (zip_spec ev). apply (Gates.eval_xor (H := cfg get_id) (eval := ev)).
Qed.

Lemma reduce_structural_ok f k args r :
  kind f = Bv k -> wf (App f args) = true ->
  In k [OP_BV_NUM; OP_BNOT; OP_CONCAT; OP_SIGN_EXT; OP_EXTRACT; OP_BREDOR; OP_BREDAND] ->
  reduce_bv get_id opts f k args = Ok r -> br_means I (range f) (eval (App f args)) r.
Proof.
  intros Hk Hw Hin. cbn in Hin. destruct Hin as [<-|[<-|[<-|[<-|[<-|[<-|[<-|[]]]]]]]]; cbn [reduce_bv].
  - destruct (Ast.params f) as [|[|v|] [|[n| |] [|]]] eqn:Hp; try done. intros [= <-]. by apply num_done.
  - destruct args as [|a [|]]; try done. intros [= <-]. by apply (structural_done f OP_BNOT).
  - intros [= <-]. by apply concat_done.
  - destruct (Ast.params f) as [|[n| |] [|]] eqn:Hp; try done. destruct args as [|a [|]]; try done.
    intros [= <-]. apply (structural_done f OP_SIGN_EXT); try done. by rewrite Hp.
  - destruct (Ast.params f) as [|[hi| |] [|[lo| |] [|]]] eqn:Hp; try done. destruct args as [|a [|]]; try done.
    intros [= <-]. apply (structural_done f OP_EXTRACT); try done. by rewrite Hp.
  - destruct args as [|a [|]]; try done. intros [= <-]. by apply (structural_done f OP_BREDOR).
  - destruct args as [|a [|]]; try done. intros [= <-]. by apply (structural_done f OP_BREDAND).
Qed.

Lemma reduce_bv_ok f k args r :
  kind f = Bv k -> wf (App f args) = true ->
  reduce_bv get_id opts f k args = Ok r -> br_means I (range f) (eval (App f args)) r.
Proof.
  intros Hk Hw Hr.
  destruct k;
    try (by apply (reduce_structural_ok f _ args) in Hr; cbn; tauto);
    try (by apply (reduce_assoc_ok f _ args) in Hr; cbn; tauto);
    try (destruct args as [|a [|b [|]]]; try done;
         first [by apply (reduce_division_ok f) in Hr; cbn; tauto
               |by apply (reduce_shift_ok f) in Hr; cbn; tauto
               |by apply (reduce_pred_ok' f) in Hr; cbn; tauto]);
    cbn [reduce_bv] in Hr; repeat case_match; simplify_eq; done.
Qed.
End Operators.

(** ** The bits of the constants *)

Section Constants.
(** The interpretation gives the recorded bits the values of the constants. *)
Definition consistent (I : interp) (st : state) : Prop :=
  forall f r, map_find (m_const2bits st) f = Some r -> means I (range f) (eval I (App f [])) r.

Lemma mk_const_recorded f st : let '(st', r) := mk_const f st in map_find (m_const2bits st') f = Some r.
Proof.
  unfold mk_const. destruct (map_find (m_const2bits st) f) eqn:Hf; [done|].
  cbn. by rewrite map_find_remove, bool_decide_eq_true_2.
Qed.

(** Bit-blasting is sound: whatever [reduce_app] answers for a well-sorted
    application is a well-sorted term of the same sort and the same value, in
    every interpretation that gives the recorded bits the values of the
    constants they stand for. *)
Lemma reduce_app_ok I get_id opts f args st st' r :
  wf (App f args) = true -> reduce_app get_id opts f args st = Ok (st', r) -> consistent I st' ->
  br_means I (range f) (eval I (App f args)) r.
Proof.
  intros Hw Hr Hc. unfold reduce_app in Hr.
  assert (forall b, b = m_blast_full opts && is_bv_sort (range f) ->
    br_means I (range f) (eval I (App f args)) (if b then BR_DONE (blast_bv_term (App f args)) else BR_FAILED)) as Hfull.
  { intros b ->. destruct (_ && _) eqn:Hb; [|done]. apply andb_true_iff in Hb as [_ Hb].
    unfold is_bv_sort in Hb. destruct (range f) as [|n|] eqn:Hrf; try done. by apply term_done. }
  destruct (kind f) as [k|k|] eqn:Hk.
  - destruct k; try (injection Hr as <- <-; by apply Hfull).
    + destruct args as [|a [|b [|]]]; try (injection Hr as <- <-; by apply Hfull).
      destruct (is_bv a) eqn:Ha; injection Hr as <- <-; [|done]. by apply eq_done.
    + destruct args as [|c [|t [|e [|]]]]; try (injection Hr as <- <-; by apply Hfull).
      destruct (is_bv t) eqn:Ha; injection Hr as <- <-; [|done]. by apply ite_done.
  - apply bind_ok in Hr as (b & Hb & [= <- <-]). by apply (reduce_bv_ok I get_id opts f k).
  - destruct args as [|a args]; [|injection Hr as <- <-; by apply Hfull].
    destruct (is_bv_sort (range f)); [|injection Hr as <- <-; done].
    pose proof (mk_const_recorded f st) as Hrec. destruct (mk_const f st) as [st1 r1].
    injection Hr as <- <-. by apply Hc.
Qed.

(** ** The bits are fresh *)

(** The fresh Boolean constants of a term were made before the [n]th. *)
Definition name_below (n : nat) (d : func_decl) : bool :=
  match decl_name d with
  | SymNum id => negb (bool_decide (d = fresh_bool id)) || Nat.ltb id n
  | SymStr _ => true
  end.
Fixpoint below (n : nat) (e : expr) : bool :=
  match e with
  | Var _ _ => true
  | App d args => name_below n d && forallb (below n) args
  end.

(** Two interpretations that differ on the fresh constants from [n] on only. *)
Definition agree (n : nat) (I J : interp) : Prop :=
  (forall d vs, name_below n d = true -> i_decl I d vs = i_decl J d vs)
  /\ (forall i s, i_var I i s = i_var J i s).

Lemma eval_agree n I J e : agree n I J -> below n e = true -> eval I e = eval J e.
Proof.
  intros [Hd Hv]. induction e as [i s|d args IH] using expr_induction; [intros _; apply Hv|].
  cbn [below eval]. rewrite andb_true_iff. intros [Hn Ha].
  assert (map (eval I) args = map (eval J) args) as ->.
  { induction IH as [|e args He _ IHargs]; [done|]. cbn in Ha. apply andb_true_iff in Ha as [Hae Ha].
    cbn [map]. f_equal; [by apply He|by apply IHargs]. }
  unfold decl_apply. destruct (kind d); by rewrite ?Hd.
Qed.

(** [I] with the values [l] for the Boolean constants numbered from [n] on. *)
Definition extend_decl (I : interp) (n : nat) (l : list bool) (d : func_decl) (vs : list value) : value :=
  match decl_name d with
  | SymNum id =>
      if bool_decide (d = fresh_bool id) && Nat.leb n id && Nat.ltb id (n + length l)
      then VBool (nth (id - n) l false) else i_decl I d vs
  | SymStr _ => i_decl I d vs
  end.

Lemma extend_decl_sort I n l d vs : value_sort (extend_decl I n l d vs) = range d.
Proof.
  unfold extend_decl. destruct (decl_name d) as [id|s]; [|apply i_decl_sort].
  destruct (bool_decide (d = fresh_bool id)) eqn:Hd; [|apply i_decl_sort]. apply bool_decide_eq_true in Hd.
  destruct (_ && _); [by rewrite Hd|apply i_decl_sort].
Qed.

Definition extend (I : interp) (n : nat) (l : list bool) : interp := {|
  i_decl := extend_decl I n l; i_var := i_var I;
  i_decl_sort := extend_decl_sort I n l; i_var_sort := i_var_sort I |}.

Lemma extend_agree I n l : agree n I (extend I n l).
Proof.
  split; [|done]. intros d vs. unfold name_below. cbn. unfold extend_decl.
  destruct (decl_name d) as [id|s]; [|done]. destruct (bool_decide (d = fresh_bool id)); [|done].
  cbn. intros Hid%Nat.ltb_lt. by rewrite (proj2 (Nat.leb_gt n id)).
Qed.

Lemma extend_fresh I n l i : (i < length l)%nat -> eval (extend I n l) (App (fresh_bool (n + i)) []) = VBool (nth i l false).
Proof.
  intros Hi. cbn [eval map]. unfold decl_apply. cbn [kind fresh_bool i_decl extend].
  unfold extend_decl. cbn [decl_name fresh_bool]. rewrite bool_decide_eq_true_2 by done.
  rewrite (proj2 (Nat.leb_le _ _)), (proj2 (Nat.ltb_lt _ _)) by lia.
  cbn [andb]. do 2 f_equal. lia.
Qed.

(** Every recorded constant and vector is older than the next fresh name. *)
Definition recorded_below (st : state) : Prop :=
  forall f r, map_find (m_const2bits st) f = Some r ->
    name_below (m_fresh_id st) f = true /\ below (m_fresh_id st) r = true.

Lemma name_below_mono n m d : (n <= m)%nat -> name_below n d = true -> name_below m d = true.
Proof.
  unfold name_below. intros Hnm. destruct (decl_name d); [|done]. destruct (bool_decide _); [|done].
  cbn [negb orb]. rewrite !Nat.ltb_lt. lia.
Qed.

(** Bit-vector constants are not fresh Boolean ones. *)
Lemma bv_name_below n f : is_bv_sort (range f) = true -> name_below n f = true.
Proof.
  unfold name_below. destruct (decl_name f) as [id|]; [|done]. case_bool_decide as Hf; [|done]. by rewrite Hf.
Qed.

Lemma agree_mono n m I J : (n <= m)%nat -> agree m I J -> agree n I J.
Proof. intros Hnm [Hd Hv]. split; [|done]. intros d vs Hn. apply Hd. by apply (name_below_mono n m). Qed.

Lemma agree_trans n I J K : agree n I J -> agree n J K -> agree n I K.
Proof. intros [Hd Hv] [Hd' Hv']. split; intros; [by rewrite Hd, Hd'|by rewrite Hv, Hv']. Qed.

Lemma below_mono n m e : (n <= m)%nat -> below n e = true -> below m e = true.
Proof.
  intros Hnm. induction e as [|d args IH] using expr_induction; [done|]. cbn [below].
  rewrite !andb_true_iff. intros [Hd Ha]. split.
  - by apply (name_below_mono n m).
  - induction IH as [|e args He _ IHargs]; [done|]. cbn in *. apply andb_true_iff in Ha as [Hae Ha].
    by rewrite He, IHargs.
Qed.

Lemma fresh_vector_ok I n l :
  (0 < length l)%nat ->
  means (extend I n l) (BvSort (length l)) (VBv l)
    (app_mkbv (map (fun d => App d []) (map fresh_bool (seq n (length l))))).
Proof.
  intros Hl. unfold app_mkbv. rewrite !length_map, length_seq. split_and!; [|done|].
  - rewrite wf_app. split_and!; [|by apply Nat.ltb_lt|].
    + unfold op_sort. cbn [kind bv_sort range]. rewrite !length_map, length_seq.
      rewrite (proj2 (all_same_spec _ _)); [done|]. rewrite !Forall_map. by apply Forall_true.
    + rewrite !Forall_map. by apply Forall_true.
  - change (decl_apply (extend I n l)
      (mk_func_decl (SymStr "mkbv") (Bv OP_MKBV) []
        (map get_sort (map (fun d => App d []) (map fresh_bool (seq n (length l))))) (BvSort (length l)))
      (map (eval (extend I n l)) (map (fun d => App d []) (map fresh_bool (seq n (length l))))) = VBv l).
    unfold decl_apply. cbn [kind bv_apply Ast.params default from_option id]. f_equal. rewrite !map_map. rewrite <- (map_nth_seq l false) at 2.
    apply list_eq_same_length with (n := length l); [by rewrite length_map, length_seq..|].
    intros i x y Hi Hx Hy. rewrite list_lookup_fmap, lookup_seq_lt in Hx, Hy by done. cbn [fmap option_fmap option_map] in Hx, Hy.
    injection Hx as <-. injection Hy as <-. pose proof (extend_fresh I n l i Hi) as He.
    cbn [eval map] in He. by rewrite He.
Qed.

Lemma below_vector n k :
  below (n + k) (app_mkbv (map (fun d => App d []) (map fresh_bool (seq n k)))) = true.
Proof.
  unfold app_mkbv. cbn [below name_below decl_name andb]. apply forallb_forall.
  intros e (d & <- & (i & <- & [_ Hi]%in_seq)%in_map_iff)%in_map_iff. cbn [below forallb].
  rewrite andb_true_r. unfold name_below. cbn [decl_name fresh_bool].
  by rewrite (proj2 (Nat.ltb_lt _ _) Hi), orb_true_r.
Qed.

Lemma mk_const_below f st :
  is_bv_sort (range f) = true -> recorded_below st -> recorded_below (mk_const f st).1.
Proof.
  intros Hf Hb. unfold mk_const. destruct (map_find (m_const2bits st) f) eqn:Hm; [done|].
  set (n := sort_bv_size (range f)). intros g r. cbn [fst m_const2bits m_fresh_id].
  rewrite map_find_insert. case_decide as Hg.
  - intros [= <-]. subst g. split.
    + by apply bv_name_below.
    + apply below_vector.
  - intros Hr. destruct (Hb g r Hr) as [Hg' Hr']. split.
    + eapply name_below_mono; [|done]. lia.
    + eapply below_mono; [|done]. lia.
Qed.

(** Giving bits to a bit-vector constant is a definition, not a
    constraint: whatever the interpretation of the terms built so far, it
    extends to the fresh bits so that the constant and its vector of bits
    have the same value, and nothing older changes. *)
Lemma mk_const_conservative I f st :
  wf (App f []) = true -> is_bv_sort (range f) = true -> recorded_below st -> consistent I st ->
  let '(st', r) := mk_const f st in
  recorded_below st' /\ exists J, agree (m_fresh_id st) I J /\ consistent J st'
    /\ means J (range f) (eval I (App f [])) r.
Proof.
  intros Hw Hs Hb Hc. pose proof (bv_name_below (m_fresh_id st) f Hs) as Hf.
  pose proof (mk_const_below f st Hs Hb) as Hb'.
  assert (below (m_fresh_id st) (App f []) = true) as Hbf by (cbn; by rewrite Hf).
  unfold mk_const in *. destruct (map_find (m_const2bits st) f) as [r|] eqn:Hm.
  { split; [done|]. exists I. split_and!; try done. by apply Hc. }
  split; [done|]. unfold is_bv_sort in Hs. destruct (range f) as [|n|] eqn:Hr; try done. cbn [sort_bv_size].
  destruct (eval_bv I (App f []) n Hw Hr) as [Hv Hl]. set (l := bits (eval I (App f []))) in *.
  assert (0 < n)%nat as Hn by (pose proof (wf_positive _ Hw) as Hp; cbn in Hp; rewrite Hr in Hp; by apply Nat.ltb_lt).
  set (J := extend I (m_fresh_id st) l). pose proof (extend_agree I (m_fresh_id st) l) as Hag. fold J in Hag.
  exists J. assert (means J (BvSort n) (eval I (App f []))
    (app_mkbv (map (fun d => App d []) (map fresh_bool (seq (m_fresh_id st) n))))) as Hmeans.
  { rewrite Hv, <- Hl. apply fresh_vector_ok. lia. }
  split_and!; [done| |exact Hmeans].
  intros g r. cbn [m_const2bits]. rewrite map_find_insert. case_decide as Hg.
  - intros [= <-]. subst g. by rewrite Hr, <- (eval_agree _ I J _ Hag Hbf).
  - intros Hr'. destruct (Hc g r Hr') as (Hwr & Hsr & Her), (Hb g r Hr') as [Hng Hbr].
    split_and!; [done..|]. rewrite <- (eval_agree _ I J _ Hag Hbr), Her.
    apply (eval_agree (m_fresh_id st)); [done|]. cbn. by rewrite Hng.
Qed.
End Constants.

(** ** The switch of [reduce_app] *)

Section Outcome.
Context (get_id : expr -> Z) (opts : options).

Inductive outcome := Blasts | Keeps | Throws.

(** What the options ask for, operator by operator. *)
Definition expected (k : bv_op_kind) : outcome :=
  let mul := if m_blast_mul opts then Blasts else Keeps in
  match k with
  | OP_BADD => if m_blast_add opts then Blasts else Keeps
  | OP_BMUL | OP_BSDIV_I | OP_BUDIV_I | OP_BSREM_I | OP_BUREM_I | OP_BSMOD_I => mul
  | OP_BSDIV | OP_BUDIV | OP_BSREM | OP_BUREM | OP_BSMOD =>
      if m_blast_mul opts then Throws else Keeps
  | OP_BSDIV0 | OP_BUDIV0 | OP_BSREM0 | OP_BUREM0 | OP_BSMOD0
  | OP_BIT2BOOL | OP_MKBV | OP_INT2BV | OP_BV2INT => Keeps
  | OP_BV_NUM | OP_ULEQ | OP_SLEQ | OP_BOR | OP_BNOT | OP_BXOR | OP_CONCAT | OP_SIGN_EXT
  | OP_EXTRACT | OP_BREDOR | OP_BREDAND | OP_BSHL | OP_BLSHR | OP_BASHR | OP_EXT_ROTATE_LEFT
  | OP_EXT_ROTATE_RIGHT | OP_BUMUL_NO_OVFL | OP_BSMUL_NO_OVFL | OP_BSMUL_NO_UDFL => Blasts
  | _ => Throws
  end.

(** A well-sorted operator of two vectors has two arguments. *)
Lemma two_args f k args :
  kind f = Bv k -> wf (App f args) = true -> is_uniform k = true -> bv_assoc k = None ->
  exists a b, args = [a; b].
Proof.
  intros Hk Hw Hu Ha.
  destruct (uniform_inv default_interp f k args Hk Hu Hw) as (n & a & rest & -> & _ & _ & _ & Hr).
  rewrite Ha in Hr. assert (length rest = 1%nat) as Hl by (destruct (bv_binary k); tauto).
  destruct rest as [|b [|]]; try done. by exists a, b.
Qed.

(** The parameters and the argument of the structural operators. *)
Lemma structural_shape f k args :
  kind f = Bv k -> wf (App f args) = true ->
  match k with
  | OP_BV_NUM => exists v n, Ast.params f = [PRational v; PInt n]
  | OP_BNOT | OP_BREDOR | OP_BREDAND => exists a, args = [a]
  | OP_SIGN_EXT => exists n a, Ast.params f = [PInt n] /\ args = [a]
  | OP_EXTRACT => exists hi lo a, Ast.params f = [PInt hi; PInt lo] /\ args = [a]
  | _ => True
  end.
Proof.
  intros Hk Hw. apply (bv_app_inv f k args Hk) in Hw as [Hs _].
  destruct k; try done; cbn [bv_sort is_uniform is_structural bv_binary bv_assoc bv_pred] in Hs;
    repeat match goal with
    | Hs : match ?x with _ => _ end = Some _ |- _ => destruct x eqn:?; try discriminate Hs
    end;
    try match goal with
    | Hm : map get_sort ?l = [_] |- _ => apply map_get_sort_1 in Hm as (? & -> & _)
    end; eauto 6.
Qed.

(** The bit-blaster's switch on a well-sorted application of a bit-vector
    operator always ends: the operators it blasts give a result, those the
    options keep are left alone, and the exception is thrown for a division
    that was not simplified and for the operators the simplifier removes,
    never for one it should blast. *)
Lemma reduce_app_outcome f k args st :
  kind f = Bv k -> wf (App f args) = true ->
  match expected k with
  | Blasts => exists r, reduce_app get_id opts f args st = Ok (st, BR_DONE r)
  | Keeps => reduce_app get_id opts f args st = Ok (st, BR_FAILED)
  | Throws => reduce_app get_id opts f args st = Fault Z3Exception
  end.
Proof.
  intros Hk Hw. unfold reduce_app. rewrite Hk.
  pose proof (structural_shape f k args Hk Hw) as Hshape.
  pose proof (two_args f k args Hk Hw) as Htwo.
  destruct k; cbn [is_uniform bv_binary bv_assoc bv_pred] in Htwo;
    try (destruct Htwo as (a & b & ->); [done..|]);
    repeat match goal with
    | H : exists _, _ |- _ => destruct H
    | H : _ /\ _ |- _ => destruct H
    end; subst; cbn [reduce_bv expected];
    repeat match goal with H : Ast.params f = _ |- _ => rewrite H end;
    destruct (m_blast_mul opts), (m_blast_add opts); cbn [mbind res_bind]; eauto.
Qed.
End Outcome.

(** ** Scopes *)

Section Scopes.
(** What [m_keys], [m_values] and [m_const2bits] say of each other. *)
Definition scoped (st : state) : Prop :=
  length (m_values st) = length (m_keys st)
  /\ forall f, f ∈ m_keys st <-> is_Some (map_find (m_const2bits st) f).

(** [s] is [st] after a [push] and some constants. *)
Definition in_scope (st s : state) : Prop :=
  exists ks vs nb,
    m_keys s = m_keys st ++ ks /\ m_values s = m_values st ++ vs /\ m_newbits s = m_newbits st ++ nb
    /\ m_keyval_lim s = m_keyval_lim st ++ [length (m_keys st)]
    /\ m_newbits_lim s = m_newbits_lim st ++ [length (m_newbits st)]
    /\ (forall f, f ∉ ks -> map_find (m_const2bits s) f = map_find (m_const2bits st) f)
    /\ (forall f, f ∈ ks -> map_find (m_const2bits st) f = None).

Lemma push_in_scope st : in_scope st (push st).
Proof. exists [], [], []. cbn. rewrite !app_nil_r. split_and!; try done; set_solver. Qed.

Lemma mk_const_in_scope st s f : in_scope st s -> in_scope st (mk_const f s).1.
Proof.
  intros (ks & vs & nb & Hk & Hv & Hn & Hl & Hnl & Hout & Hin). unfold mk_const.
  destruct (map_find (m_const2bits s) f) eqn:Hm; [by exists ks, vs, nb|].
  eexists (ks ++ [f]), (vs ++ [_]), (nb ++ _). cbn [fst m_keys m_values m_newbits m_keyval_lim m_newbits_lim].
  rewrite Hk, Hv, Hn, <- !app_assoc. split_and!; try done; intros g Hg; cbn [m_const2bits].
  - rewrite map_find_insert. apply not_elem_of_app in Hg as [Hg Hgf]. rewrite decide_False by set_solver.
    by apply Hout.
  - apply elem_of_app in Hg as [Hg| ->%list_elem_of_singleton]; [by apply Hin|].
    destruct (decide (f ∈ ks)) as [Hf|Hf]; [by apply Hin|]. by rewrite <- Hout.
Qed.

Lemma map_find_remove_keys m keys f :
  map_find (remove_keys m keys) f = if decide (f ∈ keys) then None else map_find m f.
Proof.
  unfold remove_keys. induction keys as [|k keys IH]; [done|].
  cbn [rev]. rewrite foldl_app. cbn [foldl]. rewrite map_find_remove, IH.
  destruct (decide (k = f)) as [->|Hkf]; [by rewrite decide_True by set_solver|].
  destruct (decide (f ∈ keys)); [by rewrite decide_True by set_solver|].
  by rewrite decide_False by set_solver.
Qed.

Lemma aget_snoc {A} (l : list A) x : aget (l ++ [x]) (Z.of_nat (length l)) = Ok x.
Proof.
  unfold aget. rewrite (proj2 (Z.ltb_ge _ _)), Nat2Z.id by lia. by rewrite list_lookup_middle.
Qed.

(** C34: [pop] undoes everything the constants met since the matching [push]
    did: the map, the vectors and the limits of the scopes are those before. *)
Theorem push_pop st fs :
  scoped st -> length (m_newbits_lim st) = length (m_keyval_lim st) ->
  exists st', pop 1 (foldl (fun s f => (mk_const f s).1) (push st) fs) = Ok st'
    /\ m_keys st' = m_keys st /\ m_values st' = m_values st /\ m_newbits st' = m_newbits st
    /\ m_keyval_lim st' = m_keyval_lim st /\ m_newbits_lim st' = m_newbits_lim st
    /\ forall f, map_find (m_const2bits st') f = map_find (m_const2bits st) f.
Proof.
  intros [Hlen Hkeys] Hlims. set (s := foldl _ _ _).
  assert (in_scope st s) as (ks & vs & nb & Hk & Hv & Hn & Hl & Hnl & Hout & Hin).
  { unfold s. generalize (push_in_scope st). generalize (push st). clear s.
    induction fs as [|f fs IH]; intros s Hs; [done|]. cbn. by apply IH, mk_const_in_scope. }
  clearbody s. unfold pop, get_num_scopes. rewrite Hl, length_app. cbn [length Nat.eqb].
  rewrite (proj2 (Nat.ltb_ge _ _)), Nat.add_sub, aget_snoc by lia. cbn [mbind res_bind].
  rewrite Hnl, <- Hlims, aget_snoc. cbn [mbind res_bind]. eexists. split; [done|].
  cbn [m_keys m_values m_newbits m_keyval_lim m_newbits_lim m_const2bits].
  rewrite Hk, Hv, Hn, !take_app_length. split_and!; try done.
  - by rewrite <- Hlen, take_app_length.
  - by rewrite Hlims, take_app_length.
  - intros f. rewrite drop_app_length, map_find_remove_keys.
    case_decide as Hf; [by rewrite Hin|by apply Hout].
Qed.
End Scopes.
