(* ===== verification/Rewriter.v ===== *)
(** rewriter_tpl (ast/rewriter/rewriter.h, rewriter_def.h): the machine that
    rewrites a term bottom-up with the rules of a configuration, with a stack of
    frames, a stack of results and a cache of the shared subterms. Terms have no
    quantifiers here, so there is one scope and bindings are never shifted; the
    configurations define no macros, and proofs are off. *)
From S2P Require Import Prelude Ast BoolRewriter.

(** ** Configurations *)

(** The methods of [default_rewriter_cfg] that the machine calls; [C] is the
    state of the configuration. *)
Class RewriterCfg (C : Type) := {
  cfg_reduce_app : func_decl -> list expr -> C -> res (C * br_status);
  cfg_reduce_var : nat -> sort -> C -> option expr;
  cfg_get_subst : expr -> C -> option (expr * C);
  cfg_pre_visit : expr -> C -> bool;
  cfg_flat_assoc : func_decl -> C -> bool;
  cfg_cache_all_results : C -> bool;
  cfg_cache_results : C -> bool;
  cfg_max_frames_exceeded : nat -> C -> bool;
  cfg_max_steps_exceeded : nat -> C -> bool
}.

(** The declarations marked associative when the plugins make them. *)
Definition is_associative (f : func_decl) : bool :=
  match kind f with
  | Basic (OP_AND | OP_OR | OP_XOR) | Bv (OP_BADD | OP_BMUL | OP_BAND | OP_BOR | OP_BXOR | OP_BXNOR) => true
  | _ => false
  end.

(** ** State *)

(** The states of a frame; macros and rewrite rules have two more. *)
Inductive rw_state := PROCESS_CHILDREN | REWRITE_BUILTIN.

#[global] Instance rw_state_eq_dec : EqDecision rw_state.
Proof. solve_decision. Defined.

Record frame := mk_frame {
  m_curr : expr;
  m_cache_result : bool;
  m_new_child : bool;
  m_state : rw_state;
  m_max_depth : nat;
  m_i : nat;
  m_spos : nat
}.

Definition RW_UNBOUNDED_DEPTH : nat := 3.

Section Rewriter.
Context {C : Type} `{RewriterCfg C}.

(** The frame on top is the first; the result on top is the last. *)
Record rewriter := mk_rewriter {
  m_cfg : C;
  m_cache : list (expr * expr);
  m_frame_stack : list frame;
  m_result_stack : list expr;
  m_root : option expr;
  m_num_steps : nat;
  m_bindings : list expr
}.

(** How often a term is referenced depends on all terms that are alive. *)
Context (ref_count : rewriter -> expr -> nat).

Definition set_cfg (c : C) (st : rewriter) : rewriter :=
  mk_rewriter c (m_cache st) (m_frame_stack st) (m_result_stack st) (m_root st) (m_num_steps st) (m_bindings st).
Definition set_cache (m : list (expr * expr)) (st : rewriter) : rewriter :=
  mk_rewriter (m_cfg st) m (m_frame_stack st) (m_result_stack st) (m_root st) (m_num_steps st) (m_bindings st).
Definition set_frames (fs : list frame) (st : rewriter) : rewriter :=
  mk_rewriter (m_cfg st) (m_cache st) fs (m_result_stack st) (m_root st) (m_num_steps st) (m_bindings st).
Definition set_results (rs : list expr) (st : rewriter) : rewriter :=
  mk_rewriter (m_cfg st) (m_cache st) (m_frame_stack st) rs (m_root st) (m_num_steps st) (m_bindings st).
Definition set_steps (n : nat) (st : rewriter) : rewriter :=
  mk_rewriter (m_cfg st) (m_cache st) (m_frame_stack st) (m_result_stack st) (m_root st) n (m_bindings st).
Definition set_root (t : option expr) (st : rewriter) : rewriter :=
  mk_rewriter (m_cfg st) (m_cache st) (m_frame_stack st) (m_result_stack st) t (m_num_steps st) (m_bindings st).

(** The last binding is that of the first variable. *)
Definition set_inv_bindings (bindings : list expr) (st : rewriter) : rewriter :=
  mk_rewriter (m_cfg st) (m_cache st) (m_frame_stack st) (m_result_stack st) (m_root st) (m_num_steps st) bindings.
Definition set_bindings (bindings : list expr) (st : rewriter) : rewriter :=
  set_inv_bindings (rev bindings) st.
Definition update_inv_binding_at (i : nat) (binding : expr) (st : rewriter) : res rewriter :=
  bs ← aset (m_bindings st) (Z.of_nat i) binding; Ok (set_inv_bindings bs st).
Definition update_binding_at (i : nat) (binding : expr) (st : rewriter) : res rewriter :=
  bs ← aset (m_bindings st) (Z.of_nat (length (m_bindings st)) - Z.of_nat i - 1) binding;
  Ok (set_inv_bindings bs st).

Definition push_result (e : expr) (st : rewriter) : rewriter := set_results (m_result_stack st ++ [e]) st.

Definition update_top (f : frame -> frame) (st : rewriter) : rewriter :=
  match m_frame_stack st with [] => st | fr :: fs => set_frames (f fr :: fs) st end.
Definition pop_frame (st : rewriter) : rewriter := set_frames (tail (m_frame_stack st)) st.

Definition set_new_child_flag (st : rewriter) : rewriter :=
  update_top (fun fr => mk_frame (m_curr fr) (m_cache_result fr) true (m_state fr) (m_max_depth fr)
                          (m_i fr) (m_spos fr)) st.
(** The overload that compares the terms first. *)
Definition set_new_child_flag_if (old_t new_t : expr) (st : rewriter) : rewriter :=
  if bool_decide (old_t = new_t) then st else set_new_child_flag st.

Definition set_state (s : rw_state) (st : rewriter) : rewriter :=
  update_top (fun fr => mk_frame (m_curr fr) (m_cache_result fr) (m_new_child fr) s (m_max_depth fr)
                          (m_i fr) (m_spos fr)) st.
Definition next_child (st : rewriter) : rewriter :=
  update_top (fun fr => mk_frame (m_curr fr) (m_cache_result fr) (m_new_child fr) (m_state fr)
                          (m_max_depth fr) (Datatypes.S (m_i fr)) (m_spos fr)) st.

Definition must_cache (t : expr) (st : rewriter) : bool :=
  let compound := match t with App _ (_ :: _) => true | _ => false end in
  let not_root := negb (bool_decide (m_root st = Some t)) in
  if cfg_cache_all_results (m_cfg st) then not_root && compound
  else if cfg_cache_results (m_cfg st) then Nat.ltb 1 (ref_count st t) && not_root && compound
  else false.

Definition cache_result (t new_t : expr) (c : bool) (st : rewriter) : rewriter :=
  if c then set_cache (map_insert (m_cache st) t new_t) st else st.

Definition push_frame (t : expr) (mcache : bool) (max_depth : nat) (st : rewriter) : res rewriter :=
  if cfg_max_frames_exceeded (length (m_frame_stack st)) (m_cfg st) then Fault Z3Exception
  else Ok (set_frames (mk_frame t mcache false PROCESS_CHILDREN max_depth 0 (length (m_result_stack st))
                         :: m_frame_stack st) st).

(** ** Visiting a term *)

Definition process_var (idx : nat) (s : sort) (st : rewriter) : res rewriter :=
  match cfg_reduce_var idx s (m_cfg st) with
  | Some r => Ok (set_new_child_flag (push_result r st))
  | None =>
      if Nat.ltb idx (length (m_bindings st)) then
        r ← aget (m_bindings st) (Z.of_nat (length (m_bindings st) - idx - 1));
        Ok (set_new_child_flag (push_result r st))
      else Ok (push_result (Var idx s) st)
  end.

(** [None]: the result was pushed; else the term [m_r] to rewrite further. A
    rule that gives a constant is applied again, [fuel] times at most. *)
Fixpoint process_const (fuel : nat) (t : func_decl) (retried : bool) (st : rewriter)
    : res (option expr * rewriter) :=
  match fuel with
  | O => Fault OutOfFuel
  | Datatypes.S fuel =>
      '(c, b) ← cfg_reduce_app t [] (m_cfg st);
      let st := set_cfg c st in
      match b with
      | BR_FAILED =>
          let st := push_result (App t []) st in
          Ok (None, if retried then set_new_child_flag st else st)
      | BR_DONE m_r => Ok (None, set_new_child_flag (push_result m_r st))
      | BR_REWRITE1 m_r | BR_REWRITE2 m_r | BR_REWRITE3 m_r | BR_REWRITE_FULL m_r =>
          match m_r with
          | App t [] => process_const fuel t true st
          | _ => Ok (Some m_r, st)
          end
      end
  end.

(** [true]: the result was pushed; [false]: a frame was. *)
Definition visit (fuel : nat) (t : expr) (max_depth : nat) (st : rewriter) : res (bool * rewriter) :=
  let child_depth := if Nat.eqb max_depth RW_UNBOUNDED_DEPTH then max_depth else Nat.pred max_depth in
  match cfg_get_subst t (m_cfg st) with
  | Some (new_t, c) => Ok (true, set_new_child_flag_if t new_t (push_result new_t (set_cfg c st)))
  | None =>
      if Nat.eqb max_depth 0 then Ok (true, push_result t st)
      else
        let c := must_cache t st in
        match (if c then map_find (m_cache st) t else None) with
        | Some r => Ok (true, set_new_child_flag_if t r (push_result r st))
        | None =>
            if negb (cfg_pre_visit t (m_cfg st)) then Ok (true, push_result t st)
            else match t with
            | App d [] =>
                '(m_r, st) ← process_const fuel d false st;
                match m_r with
                | None => Ok (true, st)
                | Some m_r => st ← push_frame m_r c child_depth st; Ok (false, st)
                end
            | App _ _ => st ← push_frame t c child_depth st; Ok (false, st)
            | Var idx s => st ← process_var idx s st; Ok (true, st)
            end
        end
  end.

(** ** Processing the frame on top *)

(** The result on top replaces the one below it, and the frame is done. *)
Definition replace_result (st : rewriter) : res rewriter :=
  match m_frame_stack st, last (m_result_stack st) with
  | fr :: _, Some m_r =>
      let st := set_results (removelast (removelast (m_result_stack st)) ++ [m_r]) st in
      Ok (set_new_child_flag (pop_frame (cache_result (m_curr fr) m_r (m_cache_result fr) st)))
  | _, _ => Fault EmptyVector
  end.

(** The rest of an [ite] whose condition was rewritten to a constant. *)
Definition constant_fold (fuel : nat) (t : expr) (fr : frame) (st : rewriter) : res (option rewriter) :=
  if Nat.eqb (m_i fr) 1 && is_ite t then
    cond ← aget (m_result_stack st) (Z.of_nat (m_spos fr));
    let arg := if is_true cond then Some (get_arg t 1)
               else if is_false cond then Some (get_arg t 2) else None in
    match arg with
    | None => Ok None
    | Some arg =>
        let st := set_state REWRITE_BUILTIN (set_results (take (m_spos fr) (m_result_stack st) ++ [arg]) st) in
        '(done, st) ← visit fuel arg (m_max_depth fr) st;
        if (done : bool) then st ← replace_result st; Ok (Some st) else Ok (Some st)
    end
  else Ok None.

(** The loop over the arguments; [true] when all of them are rewritten. *)
Fixpoint process_children (fuel : nat) (t : expr) (rest : list expr) (st : rewriter) : res (bool * rewriter) :=
  match rest, m_frame_stack st with
  | [], _ => Ok (true, st)
  | _, [] => Fault EmptyVector
  | arg :: rest, fr :: _ =>
      folded ← constant_fold fuel t fr st;
      match folded with
      | Some st => Ok (false, st)
      | None =>
          '(done, st) ← visit fuel arg (m_max_depth fr) (next_child st);
          if (done : bool) then process_children fuel t rest st else Ok (false, st)
      end
  end.

(** The frame of a nested application of an associative [f] leaves its results
    to the frame below. *)
Definition flattens (f : func_decl) (t : expr) (st : rewriter) : bool :=
  is_associative f && Nat.leb (ref_count st t) 1
  && match m_frame_stack st with
     | _ :: prev_fr :: _ =>
         match m_curr prev_fr with
         | App d _ => bool_decide (d = f)
         | Var _ _ => false
         end && bool_decide (m_state prev_fr = PROCESS_CHILDREN) && cfg_flat_assoc f (m_cfg st)
     | _ => false
     end.

(** The frame is done with the result [m_r]. *)
Definition finish_frame (fr : frame) (m_r : expr) (st : rewriter) : rewriter :=
  pop_frame (cache_result (m_curr fr) m_r (m_cache_result fr)
    (set_results (take (m_spos fr) (m_result_stack st) ++ [m_r]) st)).

(** A result to be rewritten to depth [max_depth]. *)
Definition rewrite_result (fuel : nat) (fr : frame) (m_r : expr) (max_depth : nat) (st : rewriter)
    : res rewriter :=
  let st := set_state REWRITE_BUILTIN (set_results (take (m_spos fr) (m_result_stack st) ++ [m_r]) st) in
  '(done, st) ← visit fuel m_r max_depth st;
  if (done : bool) then replace_result st else Ok st.

(** The arguments are rewritten: apply the rules to [f] and the results. *)
Definition reduce_frame (fuel : nat) (f : func_decl) (fr : frame) (st : rewriter) : res rewriter :=
  let t := m_curr fr in
  if flattens f t st then Ok (set_new_child_flag (pop_frame st))
  else
    let new_args := drop (m_spos fr) (m_result_stack st) in
    '(c, b) ← cfg_reduce_app f new_args (m_cfg st);
    let st := set_cfg c st in
    match b with
    | BR_DONE m_r => Ok (set_new_child_flag (finish_frame fr m_r st))
    | BR_REWRITE1 m_r => rewrite_result fuel fr m_r 1 st
    | BR_REWRITE2 m_r => rewrite_result fuel fr m_r 2 st
    | BR_REWRITE3 m_r => rewrite_result fuel fr m_r 3 st
    | BR_REWRITE_FULL m_r => rewrite_result fuel fr m_r RW_UNBOUNDED_DEPTH st
    | BR_FAILED =>
        let m_r := if m_new_child fr then App f new_args else t in
        Ok (set_new_child_flag_if t m_r (finish_frame fr m_r st))
    end.

Definition process_app (fuel : nat) (f : func_decl) (args : list expr) (fr : frame) (st : rewriter)
    : res rewriter :=
  match m_state fr with
  | PROCESS_CHILDREN =>
      '(all, st) ← process_children fuel (App f args) (drop (m_i fr) args) st;
      if (all : bool) then
        match m_frame_stack st with
        | [] => Fault EmptyVector
        | fr :: _ => reduce_frame fuel f fr st
        end
      else Ok st
  | REWRITE_BUILTIN => replace_result st
  end.

Definition first_visit (fr : frame) : bool :=
  bool_decide (m_state fr = PROCESS_CHILDREN) && Nat.eqb (m_i fr) 0.

(** One iteration of the loop of [resume_core]. *)
Definition step (fuel : nat) (st : rewriter) : res rewriter :=
  match m_frame_stack st with
  | [] => Fault EmptyVector
  | fr :: _ =>
      let t := m_curr fr in
      let st := set_steps (Datatypes.S (m_num_steps st)) st in
      if cfg_max_steps_exceeded (m_num_steps st) (m_cfg st) then Fault Z3Exception
      else
        match (if first_visit fr && m_cache_result fr then map_find (m_cache st) t else None) with
        | Some r => Ok (set_new_child_flag_if t r (pop_frame (push_result r st)))
        | None =>
            match t with
            | App f args => process_app fuel f args fr st
            | Var idx s => process_var idx s (pop_frame st)
            end
        end
  end.

Definition pop_result (st : rewriter) : res (expr * rewriter) :=
  match last (m_result_stack st) with
  | Some r => Ok (r, set_results (removelast (m_result_stack st)) st)
  | None => Fault EmptyVector
  end.

Fixpoint resume_core (fuel : nat) (st : rewriter) : res (expr * rewriter) :=
  match m_frame_stack st, fuel with
  | [], _ => pop_result st
  | _, O => Fault OutOfFuel
  | _, Datatypes.S n => st ← step fuel st; resume_core n st
  end.

Definition main_loop (fuel : nat) (t : expr) (st : rewriter) : res (expr * rewriter) :=
  let st := set_steps 0 (set_root (Some t) st) in
  '(done, st) ← visit fuel t RW_UNBOUNDED_DEPTH st;
  if (done : bool) then pop_result st else resume_core fuel st.

(** The rest of an interrupted run. *)
Definition resume (fuel : nat) (st : rewriter) : res (expr * rewriter) := resume_core fuel st.

(** [operator()]: what an interrupted run left is dropped. *)
Definition rewrite (fuel : nat) (t : expr) (st : rewriter) : res (expr * rewriter) :=
  let st := match m_frame_stack st with
            | [] => st
            | _ => set_cache [] (set_results [] (set_frames [] st))
            end in
  main_loop fuel t st.

(** [reset], and [cleanup], which also frees the memory: the machine forgets
    its caches, its stacks and the bindings, and keeps the configuration. *)
Definition reset (st : rewriter) : rewriter := mk_rewriter (m_cfg st) [] [] [] None (m_num_steps st) [].

Definition initial_rewriter (c : C) : rewriter := mk_rewriter c [] [] [] None 0 [].
End Rewriter.
