(* ===== verification/RewriterOk.v ===== *)
(** The rewriting machine is correct over every configuration whose rules are:
    it replaces a term by one of the same sort and value, whatever is shared,
    cached or rewritten again; and over a configuration whose rules give
    finished results it ends within twice the size of the term. *)
From S2P Require Import Prelude Ast AstSem AstFacts BoolRewriter BoolRewriterOk Rewriter.

(** ** What a configuration promises *)

(** The states grow, and with them the usable terms; [admits] are the
    interpretations over which the results are equal to the terms, and the
    [settled] terms are those the rules have been applied to everywhere. *)
Class RewriterRel (C : Type) := {
  cfg_le : C -> C -> Prop;
  cfg_le_preorder :: PreOrder cfg_le;
  admits : C -> interp -> Prop;
  usable : C -> expr -> Prop;
  settled : C -> expr -> Prop;
  admits_le c c' I : cfg_le c c' -> admits c' I -> admits c I;
  usable_le c c' e : cfg_le c c' -> usable c e -> usable c' e;
  settled_le c c' e : cfg_le c c' -> settled c e -> settled c' e;
  usable_wf c e : usable c e -> wf e = true;
  usable_args c f args : usable c (App f args) -> Forall (usable c) args;
  usable_app c f args args' :
    usable c (App f args) -> Forall (usable c) args' -> map get_sort args' = map get_sort args ->
    usable c (App f args')
}.

(** [b] may replace [a]. *)
Definition rewrites {C} `{RewriterRel C} (c : C) (a b : expr) : Prop :=
  usable c a /\ usable c b /\ get_sort b = get_sort a /\ forall I, admits c I -> eval I b = eval I a.

(** [raises]: the operators whose rule may throw. *)
Class RewriterCfgOk (C : Type) `{RewriterCfg C, RewriterRel C} := {
  cfg_ok : C -> Prop;
  raises : C -> func_decl -> bool;
  raises_le c c' f : cfg_le c c' -> raises c' f = raises c f;
  reduce_app_sound c f args :
    cfg_ok c -> usable c (App f args) ->
    match cfg_reduce_app f args c with
    | Ok (c', b) => cfg_ok c' /\ cfg_le c c' /\ forall r, br_result b = Some r -> rewrites c' (App f args) r
    | Fault e => e = Z3Exception /\ raises c f = true
    end;
  reduce_var_sound c i s r :
    cfg_ok c -> usable c (Var i s) -> cfg_reduce_var i s c = Some r -> rewrites c (Var i s) r;
  get_subst_sound c c' t r :
    cfg_ok c -> usable c t -> cfg_get_subst t c = Some (r, c') -> cfg_ok c' /\ cfg_le c c' /\ rewrites c' t r;
  flat_assoc_sound c f l m r :
    cfg_flat_assoc f c = true -> is_associative f = true -> usable c (App f (l ++ App f m :: r)) ->
    rewrites c (App f (l ++ App f m :: r)) (App f (l ++ m ++ r))
}.

(** A configuration whose results are finished, that visits every term and sets
    no limits. *)
Class FinishingCfg (C : Type) `{RewriterCfgOk C} := {
  finishing c c' f args b :
    cfg_reduce_app f args c = Ok (c', b) -> b = BR_FAILED \/ exists r, b = BR_DONE r;
  settled_app c c' f args b :
    cfg_ok c -> usable c (App f args) -> Forall (settled c) args -> cfg_reduce_app f args c = Ok (c', b) ->
    settled c' (default (App f args) (br_result b));
  settled_var c i s : usable c (Var i s) -> settled c (default (Var i s) (cfg_reduce_var i s c));
  settled_subst c c' t r : usable c t -> cfg_get_subst t c = Some (r, c') -> settled c' r;
  every_term t c : cfg_pre_visit t c = true;
  no_frame_limit n c : cfg_max_frames_exceeded n c = false;
  no_step_limit n c : cfg_max_steps_exceeded n c = false
}.

Section Machine.
Context {C : Type} `{RewriterCfgOk C} (ref_count : rewriter (C := C) -> expr -> nat).
Local Abbreviation rewriter := (rewriter (C := C)).

(** ** Replacement *)

Lemma rewrites_refl c a : usable c a -> rewrites c a a.
Proof. by repeat split. Qed.

Lemma rewrites_trans c x y z : rewrites c x y -> rewrites c y z -> rewrites c x z.
Proof.
  intros (Ha & _ & Hs & He) (_ & Hc & Hs' & He'). split_and!; try done; [congruence|].
  intros I HI. by rewrite He', He.
Qed.

Lemma rewrites_le c c' x y : cfg_le c c' -> rewrites c x y -> rewrites c' x y.
Proof.
  intros Hle (Ha & Hb & Hs & He). split_and!; [by eapply usable_le..|done|].
  intros I HI. by eapply He, admits_le.
Qed.

Lemma rewrites_arg c t f l x r y :
  rewrites c t (App f (l ++ x :: r)) -> rewrites c x y -> rewrites c t (App f (l ++ y :: r)).
Proof.
  intros Ht (Hx & Hy & Hs & He). eapply rewrites_trans; [exact Ht|]. destruct Ht as (_ & Hu & _).
  split_and!; [done| |done|].
  - eapply usable_app; [exact Hu| |by rewrite !map_app; cbn; rewrite Hs].
    apply usable_args in Hu. rewrite Forall_app, Forall_cons in *. tauto.
  - intros I HI. cbn. by rewrite !map_app; cbn; rewrite He.
Qed.

(** ** The invariant *)

Section Run.
Context (root : expr) (start : C) (strict : Prop).

(** In a strict run no operator of the term throws. *)
Fixpoint quiet (c : C) (e : expr) : bool :=
  match e with
  | Var _ _ => true
  | App f args => negb (raises c f) && forallb (quiet c) args
  end.
Definition calm (c : C) (e : expr) : Prop := strict -> quiet c e = true.

(** In a strict run every result is settled, nothing is left out for its depth,
    and a frame without the flag of new children has the arguments of its term. *)
Definition tidy (c : C) (fr : frame) (seg results : list expr) : Prop :=
  strict -> m_max_depth fr = RW_UNBOUNDED_DEPTH /\ Forall (settled c) seg
            /\ (m_new_child fr = false -> results = take (m_i fr) (get_args (m_curr fr))).

(** [fr], over its results [seg], once [t] is replaced. *)
Definition waits (c : C) (fr : frame) (seg : list expr) (t : expr) : Prop :=
  match m_state fr, m_curr fr with
  | PROCESS_CHILDREN, App f args =>
      (0 < m_i fr <= length args)%nat /\ rewrites c (App f args) (App f (seg ++ t :: drop (m_i fr) args))
      /\ tidy c fr seg (seg ++ [t])
  | PROCESS_CHILDREN, Var _ _ => False
  | REWRITE_BUILTIN, App _ _ => length seg = 1%nat /\ rewrites c (m_curr fr) t
  | REWRITE_BUILTIN, Var _ _ => False
  end.

(** [fr] over its results [seg]. *)
Definition ready (c : C) (fr : frame) (seg : list expr) : Prop :=
  match m_state fr, m_curr fr with
  | PROCESS_CHILDREN, App f args =>
      ((m_i fr <= length args)%nat /\ (m_i fr = 0%nat -> seg = []))
      /\ rewrites c (App f args) (App f (seg ++ drop (m_i fr) args)) /\ tidy c fr seg seg
  | PROCESS_CHILDREN, Var _ _ => seg = []
  | REWRITE_BUILTIN, App _ _ => exists r0 r, seg = [r0; r] /\ rewrites c (m_curr fr) r /\ (strict -> settled c r)
  | REWRITE_BUILTIN, Var _ _ => False
  end.

(** The frames and the results below one that replaces [t]. *)
Fixpoint suspended (c : C) (frs : list frame) (rs : list expr) (t : expr) : Prop :=
  match frs with
  | [] => rs = [] /\ rewrites c root t
  | fr :: frs =>
      calm c (m_curr fr) /\ usable c (m_curr fr)
      /\ exists below seg, rs = below ++ seg /\ length below = m_spos fr /\ waits c fr seg t
                           /\ suspended c frs below (m_curr fr)
  end.

Record side (st : rewriter) : Prop := mk_side {
  side_cfg : cfg_ok (m_cfg st);
  side_start : cfg_le start (m_cfg st);
  side_cache : forall k v, map_find (m_cache st) k = Some v -> rewrites (m_cfg st) k v;
  side_bindings : forall i s r c, m_bindings st !! (length (m_bindings st) - i - 1)%nat = Some r ->
    (i < length (m_bindings st))%nat -> cfg_le (m_cfg st) c -> usable c (Var i s) -> rewrites c (Var i s) r;
  side_settled : strict -> (forall k v, map_find (m_cache st) k = Some v -> settled (m_cfg st) v)
                           /\ Forall (settled (m_cfg st)) (m_bindings st)
}.

(** The machine is about to replace [t]. *)
Record expects (st : rewriter) (t : expr) : Prop := mk_expects {
  exp_side : side st;
  exp_usable : usable (m_cfg st) t;
  exp_calm : calm (m_cfg st) t;
  exp_below : suspended (m_cfg st) (m_frame_stack st) (m_result_stack st) t
}.

Definition on_top (c : C) (frs : list frame) (rs : list expr) : Prop :=
  match frs with
  | [] => exists r, rs = [r] /\ rewrites c root r /\ (strict -> settled c r)
  | fr :: frs =>
      calm c (m_curr fr) /\ usable c (m_curr fr)
      /\ exists below seg, rs = below ++ seg /\ length below = m_spos fr /\ ready c fr seg
                           /\ suspended c frs below (m_curr fr)
  end.

Record inv (st : rewriter) : Prop := mk_inv {
  inv_side : side st;
  inv_top : on_top (m_cfg st) (m_frame_stack st) (m_result_stack st)
}.
(** ** Steps between the two *)

Lemma quiet_le c c' e : cfg_le c c' -> quiet c' e = quiet c e.
Proof.
  intros Hle. induction e as [|f args IH] using expr_induction; [done|]. cbn. f_equal; [by rewrite (raises_le c c')|].
  induction IH as [|x args Hx _ IHa]; [done|]. cbn. by rewrite Hx, IHa.
Qed.

Lemma calm_le c c' e : cfg_le c c' -> calm c e -> calm c' e.
Proof. intros Hle Hc Hs. rewrite (quiet_le c) by done. by apply Hc. Qed.

Lemma calm_args c f args : calm c (App f args) -> Forall (calm c) args.
Proof.
  intros Hc. rewrite Forall_forall. intros x Hx Hs. specialize (Hc Hs). cbn in Hc.
  apply andb_true_iff in Hc as [_ Hc]. rewrite forallb_forall in Hc. by apply Hc, list_elem_of_In.
Qed.

Lemma waits_rewrites c fr seg t u : ~ strict -> waits c fr seg t -> rewrites c t u -> waits c fr seg u.
Proof.
  intros Hns. unfold waits, tidy. destruct (m_state fr), (m_curr fr); try done.
  - intros (Hi & Hw & _) Hr. split; [done|]. split; [by eapply rewrites_arg|by intros ?%Hns].
  - intros [Hi Hw] Hr. split; [done|by eapply rewrites_trans].
Qed.

Lemma suspended_rewrites c frs rs t u :
  ~ strict -> suspended c frs rs t -> rewrites c t u -> suspended c frs rs u.
Proof.
  intros Hns. destruct frs as [|fr frs]; cbn; [intros [? ?] ?; split; [done|by eapply rewrites_trans]|].
  intros (Hc & Hu & below & seg & ? & ? & ? & ?) Hr. split_and!; try done. exists below, seg.
  split_and!; try done. by eapply waits_rewrites.
Qed.

Lemma settled_forall_le c c' l : cfg_le c c' -> Forall (settled c) l -> Forall (settled c') l.
Proof. intros Hle Hl. eapply Forall_impl; [exact Hl|]. intros x. by apply settled_le. Qed.

Lemma tidy_le c c' fr seg l : cfg_le c c' -> tidy c fr seg l -> tidy c' fr seg l.
Proof. intros Hle Ht Hs. destruct (Ht Hs) as (? & ? & ?). split_and!; [done|by eapply settled_forall_le|done]. Qed.

Lemma waits_le c c' fr seg t : cfg_le c c' -> waits c fr seg t -> waits c' fr seg t.
Proof.
  intros Hle. unfold waits. destruct (m_state fr), (m_curr fr); try done.
  - intros (Hi & Hw & Ht). split; [done|]. split; [by eapply rewrites_le|by eapply tidy_le].
  - intros [Hi Hw]. split; [done|by eapply rewrites_le].
Qed.

Lemma suspended_le c c' frs rs t : cfg_le c c' -> suspended c frs rs t -> suspended c' frs rs t.
Proof.
  intros Hle. revert rs t. induction frs as [|fr frs IH]; intros rs t; cbn.
  { intros [? ?]. split; [done|by eapply rewrites_le]. }
  intros (Hc & Hu & below & seg & ? & ? & ? & ?). split_and!; [by eapply calm_le|by eapply usable_le|].
  exists below, seg. split_and!; [done|done|by eapply waits_le|by apply IH].
Qed.

Lemma side_le st c' : cfg_le (m_cfg st) c' -> cfg_ok c' -> side st -> side (set_cfg c' st).
Proof.
  intros Hle Hok [_ Hst Hc Hb Hse]. split; cbn; [done|by etransitivity| | |].
  - intros k v Hk. eapply rewrites_le; [done|by apply Hc].
  - intros i s r c Hr Hi Hlc. apply Hb; [done|done|]. by etransitivity.
  - intros Hs. destruct (Hse Hs) as [Hca Hbi]. split; [|by eapply settled_forall_le].
    intros k v Hk. eapply settled_le; [done|by eapply Hca].
Qed.

Lemma expects_le st c' t :
  cfg_le (m_cfg st) c' -> cfg_ok c' -> expects st t -> expects (set_cfg c' st) t.
Proof.
  intros Hle Hok [Hs Hu Hc Hb]. split; cbn.
  - by apply side_le.
  - by eapply usable_le.
  - by eapply calm_le.
  - by eapply suspended_le.
Qed.

Lemma expects_rewrites st t u : ~ strict -> expects st t -> rewrites (m_cfg st) t u -> expects st u.
Proof.
  intros Hns [Hs Hu Hc Hb] Hr. split; try done; [apply Hr|by intros ?%Hns|by eapply suspended_rewrites].
Qed.

Definition flag_when (b : bool) (st : rewriter) : rewriter := if b then set_new_child_flag st else st.

Lemma flag_if_when x y st : set_new_child_flag_if x y st = flag_when (negb (bool_decide (x = y))) st.
Proof. unfold set_new_child_flag_if. by case_bool_decide. Qed.

(** The results the machine pushes are replacements of what it expects. *)
Lemma deliver b st t r :
  expects st t -> rewrites (m_cfg st) t r -> (strict -> settled (m_cfg st) r /\ (b = false -> r = t)) ->
  inv (flag_when b (push_result r st)).
Proof.
  intros [[Hok Hst Hca Hbi Hse] Hu Hc Hb] Hr Hsr. unfold flag_when, set_new_child_flag, update_top.
  destruct (m_frame_stack st) as [|fr frs] eqn:Hf; cbn in Hb.
  { assert (inv (push_result r st)) as Hi.
    { split; [by split|]. cbn. unfold on_top. rewrite Hf. destruct Hb as [-> Hb]. exists r.
      split_and!; [done|by eapply rewrites_trans|]. by intros [? _]%Hsr. }
    destruct b; [cbn; by rewrite Hf|exact Hi]. }
  destruct Hb as (Hcf & Huf & below & seg & Hrs & Hl & Hw & Hb).
  assert (forall fl, (fl = false -> m_new_child fr = false /\ b = false) ->
    let fr' := mk_frame (m_curr fr) (m_cache_result fr) fl (m_state fr) (m_max_depth fr) (m_i fr) (m_spos fr) in
    ready (m_cfg st) fr' (seg ++ [r])) as Hready.
  { intros fl Hfl. unfold waits, ready, tidy in *. cbn. destruct (m_state fr), (m_curr fr) as [|f args]; try done.
    - destruct Hw as (Hi & Hw & Ht). split; [split; lia|]. rewrite <- app_assoc.
      split; [by eapply rewrites_arg|]. intros Hs. destruct (Ht Hs) as (Hd & Hset & Htk), (Hsr Hs) as [Hs' Hrt].
      split_and!; [done|by rewrite Forall_app, Forall_singleton|]. intros [Hn Hb']%Hfl. rewrite (Hrt Hb').
      by apply Htk.
    - destruct Hw as [Hi Hw]. destruct seg as [|r0 [|]]; try done. exists r0, r.
      split_and!; [done|by eapply rewrites_trans|]. by intros [? _]%Hsr. }
  assert (forall fl, (fl = false -> m_new_child fr = false /\ b = false) ->
    let fr' := mk_frame (m_curr fr) (m_cache_result fr) fl (m_state fr) (m_max_depth fr) (m_i fr) (m_spos fr) in
    inv (set_frames (fr' :: frs) (push_result r st))) as Hinv.
  { intros fl Hfl. split; [by split|]. cbn. split_and!; try done. exists below, (seg ++ [r]).
    rewrite Hrs. split_and!; [by rewrite app_assoc|done|by apply Hready|done]. }
  destruct b; [cbn; rewrite Hf; by apply Hinv|]. specialize (Hinv (m_new_child fr) ltac:(done)).
  unfold set_frames in Hinv. cbn in Hinv. unfold push_result, set_results. rewrite Hf. by destruct fr.
Qed.

Lemma deliver_new st t r :
  expects st t -> rewrites (m_cfg st) t r -> (strict -> settled (m_cfg st) r) ->
  inv (set_new_child_flag (push_result r st)).
Proof. intros He Hr Hs. apply (deliver true st t); [done|done|]. intros ?%Hs. by split. Qed.

Lemma deliver_if st t r :
  expects st t -> rewrites (m_cfg st) t r -> (strict -> settled (m_cfg st) r) ->
  inv (set_new_child_flag_if t r (push_result r st)).
Proof.
  intros He Hr Hs. rewrite flag_if_when. apply (deliver _ st t); [done|done|]. intros ?%Hs. split; [done|].
  intros Hb%negb_false_iff. by apply bool_decide_eq_true in Hb.
Qed.

Lemma deliver_same st t : expects st t -> (strict -> settled (m_cfg st) t) -> inv (push_result t st).
Proof. intros He Hs. apply (deliver false st t); [done|apply rewrites_refl, He|]. intros ?%Hs. by split. Qed.

(** ** The frames but for the flag of new children *)

Definition unflag (fr : frame) : frame :=
  mk_frame (m_curr fr) (m_cache_result fr) false (m_state fr) (m_max_depth fr) (m_i fr) (m_spos fr).
Definition same_frames (st st' : rewriter) : Prop :=
  map unflag (m_frame_stack st') = map unflag (m_frame_stack st).

Definition frame_work (fr : frame) : nat :=
  match m_state fr with
  | PROCESS_CHILDREN => Datatypes.S (sum_list (map (fun e => 2 * size e)%nat (drop (m_i fr) (get_args (m_curr fr)))))
  | REWRITE_BUILTIN => 1
  end.

Lemma sum_double {A} (f : A -> nat) l : sum_list (map (fun x => 2 * f x)%nat l) = (2 * sum_list (map f l))%nat.
Proof. induction l as [|x l IH]; [done|]. cbn in *. lia. Qed.

Lemma frame_work_new t c d n :
  (Datatypes.S (frame_work (mk_frame t c false PROCESS_CHILDREN d 0 n)) <= 2 * size t)%nat.
Proof.
  unfold frame_work. cbn [m_state m_i m_curr]. rewrite drop_0, sum_double.
  destruct t as [i s|f args]; cbn [get_args]; [cbn; lia|]. cbn [size]. lia.
Qed.

(** The iterations that are left, when no result is rewritten again. *)
Definition work (st : rewriter) : nat := sum_list (map frame_work (m_frame_stack st)).

Lemma work_push fr st : work (set_frames (fr :: m_frame_stack st) st) = (frame_work fr + work st)%nat.
Proof. done. Qed.

Lemma same_frames_work st st' : same_frames st st' -> work st' = work st.
Proof.
  unfold same_frames, work. assert (forall frs, map frame_work frs = map frame_work (map unflag frs)) as Hu.
  { intros frs. by rewrite map_map. }
  intros Hs. by rewrite Hu, Hs, <- Hu.
Qed.

Lemma flag_frames st : same_frames st (set_new_child_flag st).
Proof.
  unfold same_frames, set_new_child_flag, update_top. destruct (m_frame_stack st) eqn:Hf; cbn; by rewrite ?Hf.
Qed.

Lemma flag_if_frames a b st : same_frames st (set_new_child_flag_if a b st).
Proof. unfold set_new_child_flag_if. case_bool_decide; [done|apply flag_frames]. Qed.

(** ** Faults *)

(** In a strict run there are no faults; else a rule or a limit may throw, and
    rewritten results may exhaust the fuel. *)
Definition wp {A} (P : A -> Prop) (m : res A) : Prop :=
  match m with
  | Ok x => P x
  | Fault e => ~ strict /\ (e = Z3Exception \/ e = OutOfFuel)
  end.

Lemma wp_bind {A B} (P : A -> Prop) (Q : B -> Prop) (m : res A) (k : A -> res B) :
  wp P m -> (forall x, P x -> wp Q (k x)) -> wp Q (m ≫= k).
Proof. destruct m as [x|e]; cbn; auto. Qed.

Lemma wp_mono {A} (P Q : A -> Prop) (m : res A) : wp P m -> (forall x, P x -> Q x) -> wp Q m.
Proof. destruct m as [x|e]; cbn; auto. Qed.

Context (strict_finishing : strict -> FinishingCfg C).

Lemma push_frame_ok t mcache d st :
  expects st t -> (strict -> d = RW_UNBOUNDED_DEPTH) ->
  wp (fun st' => inv st' /\ Datatypes.S (work st') <= work st + 2 * size t)%nat (push_frame t mcache d st).
Proof.
  intros [Hs Hu Hc Hb] Hd. unfold push_frame. destruct (cfg_max_frames_exceeded _ _) eqn:Hm; cbn [wp].
  { split; [|by left]. intros Hst. pose proof (strict_finishing Hst). by rewrite no_frame_limit in Hm. }
  split.
  - split; [by destruct Hs|]. cbn. split_and!; [done|done|]. exists (m_result_stack st), [].
    rewrite app_nil_r. split_and!; [done|done| |done].
    unfold ready. cbn. destruct t as [i s|f args]; [done|]. split; [by split; [lia|]|].
    split; [by apply rewrites_refl|]. intros Hst. cbn. by split_and!; [apply Hd| |].
  - rewrite work_push. pose proof (frame_work_new t mcache d (length (m_result_stack st))). lia.
Qed.

(** ** Visiting *)

Lemma process_var_ok i s st :
  expects st (Var i s) -> wp (fun st' => inv st' /\ same_frames st st') (process_var i s st).
Proof.
  intros He. pose proof (exp_side _ _ He) as [Hok _ Hc Hb Hse]. pose proof (exp_usable _ _ He) as Hu.
  assert (strict -> settled (m_cfg st) (default (Var i s) (cfg_reduce_var i s (m_cfg st)))) as Hset.
  { intros Hs. pose proof (strict_finishing Hs). by apply settled_var. }
  unfold process_var. destruct (cfg_reduce_var i s (m_cfg st)) as [r|] eqn:Hr.
  { cbn. split; [|exact (flag_frames (push_result r st))].
    apply (deliver_new _ (Var i s)); [done|by apply reduce_var_sound|done]. }
  destruct (Nat.ltb_spec i (length (m_bindings st))) as [Hi|Hi].
  - destruct (lookup_lt_is_Some_2 (m_bindings st) (length (m_bindings st) - i - 1)%nat) as [r Hlr]; [lia|].
    rewrite (aget_nat _ _ r) by done. cbn. split; [|exact (flag_frames (push_result r st))].
    apply (deliver_new _ (Var i s)); [done|by apply (Hb i s)|]. intros Hs. destruct (Hse Hs) as [_ Hbi].
    by eapply Forall_lookup_1.
  - cbn. split; [|done]. by apply deliver_same.
Qed.

Lemma process_const_ok fuel d retried st :
  expects st (App d []) -> (strict -> (0 < fuel)%nat) ->
  wp (fun '(m_r, st') => match m_r with
      | None => inv st' /\ same_frames st st'
      | Some r => ~ strict /\ expects st' r /\ m_frame_stack st' = m_frame_stack st
      end) (process_const fuel d retried st).
Proof.
  revert d retried st. induction fuel as [|fuel IH]; intros d retried st He Hfuel; cbn [process_const].
  { split; [intros Hs; specialize (Hfuel Hs); lia|by right]. }
  pose proof (exp_side _ _ He) as [Hok _ _ _]. pose proof (exp_usable _ _ He) as Hu.
  pose proof (reduce_app_sound (m_cfg st) d [] Hok Hu) as Hr.
  destruct (cfg_reduce_app d [] (m_cfg st)) as [[c b]|e] eqn:Hrun; cbn [mbind res_bind].
  - destruct Hr as (Hok' & Hle & Hr). pose proof (expects_le st c _ Hle Hok' He) as He'.
    assert (forall r, br_result b = Some r -> b <> BR_DONE r -> ~ strict) as Hns.
    { intros r Hb Hd Hst. pose proof (strict_finishing Hst).
      destruct (finishing _ _ _ _ _ Hrun) as [->|[r' ->]]; [done|]. by injection Hb as ->. }
    assert (forall r, br_result b = Some r -> b <> BR_DONE r ->
      wp (fun '(m_r, st') => match m_r with
        | None => inv st' /\ same_frames st st'
        | Some r => ~ strict /\ expects st' r /\ m_frame_stack st' = m_frame_stack st
        end) (match r with App t [] => process_const fuel t true (set_cfg c st) | _ => Ok (Some r, set_cfg c st) end))
      as Hre.
    { intros r Hb Hd. pose proof (Hns r Hb Hd) as Hst.
      assert (expects (set_cfg c st) r) as Her by (apply (expects_rewrites _ (App d [])); [done|done|by apply Hr]).
      destruct r as [i s|d' [|x l]]; [done| |done].
      eapply wp_mono; [apply (IH d' true _ Her); done|]. intros [[r'|] st'] Hp; exact Hp. }
    assert (strict -> settled c (default (App d []) (br_result b))) as Hset.
    { intros Hs. pose proof (strict_finishing Hs). by apply (settled_app (m_cfg st) c d [] b). }
    destruct b as [r|r|r|r|r|]; try (by apply Hre).
    + cbn. split; [|exact (flag_frames (push_result r (set_cfg c st)))].
      apply (deliver_new _ (App d [])); [done|by apply Hr|exact Hset].
    + cbn. destruct retried.
      * split; [|exact (flag_frames (push_result _ (set_cfg c st)))].
        apply (deliver_new _ (App d [])); [done|apply rewrites_refl, He'|exact Hset].
      * split; [|done]. by apply deliver_same.
  - destruct Hr as [-> Hra]. split; [|by left]. intros Hst. pose proof (exp_calm _ _ He Hst) as Hq.
    cbn in Hq. by rewrite Hra in Hq.
Qed.

(** What [visit] did: the result is on top, or a frame whose work is less than
    the term's. *)
Definition visited (st : rewriter) (t : expr) (r : bool * rewriter) : Prop :=
  inv r.2 /\ if r.1 then same_frames st r.2
             else strict -> (Datatypes.S (work r.2) <= work st + 2 * size t)%nat.

Lemma visited_result st t r :
  expects st t -> rewrites (m_cfg st) t r -> (strict -> settled (m_cfg st) r) ->
  visited st t (true, set_new_child_flag_if t r (push_result r st)).
Proof. intros He Hr Hs. split; [by apply deliver_if|]. exact (flag_if_frames t r (push_result r st)). Qed.

Lemma visited_same st t : ~ strict -> expects st t -> visited st t (true, push_result t st).
Proof. intros Hns He. split; [|done]. apply deliver_same; [done|]. by intros ?%Hns. Qed.

Lemma visit_frame_ok c d st t :
  expects st t -> (strict -> d = RW_UNBOUNDED_DEPTH) ->
  wp (visited st t) (st' ← push_frame t c d st; Ok (false, st')).
Proof.
  intros He Hd. eapply wp_bind; [by apply push_frame_ok|]. intros st' [Hi Hw]. split; [exact Hi|by intros _].
Qed.

(** A strict run visits without a bound on the depth. *)
Definition unbounded (fuel d : nat) : Prop := strict -> (0 < fuel)%nat /\ d = RW_UNBOUNDED_DEPTH.

Lemma visit_term_ok fuel t d st :
  expects st t -> unbounded fuel d -> wp (visited st t) (visit ref_count fuel t d st).
Proof.
  intros He Hd. pose proof (exp_side _ _ He) as [Hok _ Hca _ Hse]. pose proof (exp_usable _ _ He) as Hu.
  unfold visit. destruct (cfg_get_subst t (m_cfg st)) as [[r c]|] eqn:Hs.
  { destruct (get_subst_sound _ _ _ _ Hok Hu Hs) as (Hok' & Hle & Hr).
    apply (visited_result (set_cfg c st)); [by apply expects_le|done|]. intros Hst. pose proof (strict_finishing Hst).
    by eapply settled_subst. }
  destruct (Nat.eqb_spec d 0) as [Hd0|_]; [apply visited_same; [|done]; intros [_ Hd']%Hd; by rewrite Hd0 in Hd'|].
  destruct (if must_cache ref_count t st then map_find (m_cache st) t else None) as [r|] eqn:Hc.
  { destruct (must_cache ref_count t st); [|done]. apply visited_result; [done|by apply Hca|].
    intros Hst. by eapply Hse. }
  destruct (negb _) eqn:Hp.
  { apply visited_same; [|done]. intros Hst. pose proof (strict_finishing Hst). by rewrite every_term in Hp. }
  set (child_depth := if Nat.eqb d RW_UNBOUNDED_DEPTH then d else Nat.pred d).
  assert (strict -> child_depth = RW_UNBOUNDED_DEPTH) as Hcd.
  { intros [_ ->]%Hd. done. }
  destruct t as [i s|f [|x args]]; [| |by apply visit_frame_ok].
  - eapply wp_bind; [by apply process_var_ok|]. cbn. intros st' Hst. exact Hst.
  - eapply wp_bind; [apply process_const_ok; [done|by intros [? _]%Hd]|]. intros [[r|] st'] Hp'; [|exact Hp'].
    destruct Hp' as (Hns & Her & _). eapply wp_bind; [by apply push_frame_ok|].
    intros st2 [Hi _]. split; [done|]. by intros ?%Hns.
Qed.

(** ** Replacing a result *)

Lemma side_cache_insert st t r c :
  side st -> rewrites (m_cfg st) t r -> (strict -> settled (m_cfg st) r) -> side (cache_result t r c st).
Proof.
  intros [Ho Hs Hc Hb Hse] Hr Hsr. unfold cache_result. destruct c; [|done].
  split; [done|done| |done|]; cbn [m_cache set_cache m_cfg].
  - intros k v. rewrite map_find_insert. case_decide as Hk; [intros [= <-]; by subst|apply Hc].
  - intros Hst. destruct (Hse Hst) as [Hca Hbi]. split; [|done]. intros k v. rewrite map_find_insert.
    case_decide as Hk; [intros [= <-]; auto|by apply Hca].
Qed.

(** The frame on top is done with [r]. *)
Definition frame_done (fr : frame) (r : expr) (below : list expr) (st : rewriter) : rewriter :=
  pop_frame (cache_result (m_curr fr) r (m_cache_result fr) (set_results (below ++ [r]) st)).

(** [r] replaces the term of a frame, which has to hear of it. *)
Definition result_for (b : bool) (st : rewriter) (fr : frame) (r : expr) : Prop :=
  rewrites (m_cfg st) (m_curr fr) r
  /\ (strict -> settled (m_cfg st) r /\ (b = false -> r = m_curr fr)).

Lemma finish_frame_ok b st fr frs below seg r :
  inv st -> m_frame_stack st = fr :: frs -> m_result_stack st = below ++ seg -> length below = m_spos fr ->
  result_for b st fr r -> inv (flag_when b (frame_done fr r below st)).
Proof.
  intros [Hs Ht] Hf Hr Hl [Hrw Hsr]. rewrite Hf, Hr in Ht. destruct Ht as (Hc & Hu & below' & seg' & Hrs & Hl' & _ & Hb).
  assert (below' = below) as -> by (apply (app_inj_1 _ _ _ _) in Hrs as [? _]; [done|congruence]).
  set (st0 := set_frames frs (set_results below (cache_result (m_curr fr) r (m_cache_result fr) st))).
  assert (m_cfg st0 = m_cfg st) as Hcfg by (unfold st0, cache_result; by destruct (m_cache_result fr)).
  assert (expects st0 (m_curr fr)) as He.
  { split; rewrite ?Hcfg; try done.
    destruct (side_cache_insert st (m_curr fr) r (m_cache_result fr) Hs Hrw); [by intros [? _]%Hsr|by split]. }
  pose proof (deliver b st0 (m_curr fr) r He) as Hd. rewrite Hcfg in Hd. specialize (Hd Hrw Hsr).
  unfold st0, push_result in Hd. unfold frame_done, pop_frame, cache_result in *.
  by destruct (m_cache_result fr); cbn in *; rewrite Hf in *.
Qed.

Lemma flag_work st : work (set_new_child_flag st) = work st.
Proof. apply same_frames_work, flag_frames. Qed.
Lemma flag_if_work a b st : work (set_new_child_flag_if a b st) = work st.
Proof. apply same_frames_work, flag_if_frames. Qed.
Lemma flag_when_work b st : work (flag_when b st) = work st.
Proof. destruct b; [apply flag_work|done]. Qed.

Lemma frame_work_pos fr : (0 < frame_work fr)%nat.
Proof. unfold frame_work. destruct (m_state fr); lia. Qed.

Lemma work_top st fr frs :
  m_frame_stack st = fr :: frs -> work st = (frame_work fr + sum_list (map frame_work frs))%nat.
Proof. intros Hf. unfold work. by rewrite Hf. Qed.

(** One iteration done: less is left. *)
Definition progress (st st' : rewriter) : Prop := inv st' /\ (strict -> (work st' < work st)%nat).

Lemma finish_progress b st fr frs r below seg :
  inv st -> m_frame_stack st = fr :: frs -> m_result_stack st = below ++ seg -> length below = m_spos fr ->
  result_for b st fr r -> progress st (flag_when b (frame_done fr r below st)).
Proof.
  intros Hi Hf Hr Hl Hrw. split; [by eapply finish_frame_ok|]. intros _. rewrite flag_when_work, (work_top st fr frs Hf).
  pose proof (frame_work_pos fr). unfold work, frame_done, pop_frame, cache_result.
  destruct (m_cache_result fr); cbn; rewrite Hf; cbn; lia.
Qed.

Lemma replace_result_ok st fr frs :
  inv st -> m_frame_stack st = fr :: frs -> m_state fr = REWRITE_BUILTIN ->
  wp (progress st) (replace_result st).
Proof.
  intros Hi Hf Hst. pose proof (inv_top _ Hi) as Ht. rewrite Hf in Ht.
  destruct Ht as (_ & _ & below & seg & Hr & Hl & Hrd & _). unfold ready in Hrd. rewrite Hst in Hrd.
  assert (exists r0 r, seg = [r0; r] /\ rewrites (m_cfg st) (m_curr fr) r /\ (strict -> settled (m_cfg st) r))
    as (r0 & r & -> & Hrw & Hset) by (by destruct (m_curr fr)).
  unfold replace_result. rewrite Hf, Hr.
  replace (below ++ [r0; r]) with ((below ++ [r0]) ++ [r]) by by rewrite <- app_assoc.
  rewrite last_snoc, removelast_last, removelast_last. cbn [wp].
  apply (finish_progress true st fr frs r below [r0; r]); try done. by split; [|intros ?%Hset].
Qed.

(** ** The rest of an [ite] *)

Lemma ite_branch c f x y z r :
  rewrites c (App f [x; y; z]) (App f [r; y; z]) -> is_ite (App f [x; y; z]) = true ->
  (is_true r = true -> rewrites c (App f [x; y; z]) y) /\ (is_false r = true -> rewrites c (App f [x; y; z]) z).
Proof.
  intros (Hu & Hu' & Hs & He) Hite. pose proof (usable_args _ _ _ Hu) as Hargs.
  rewrite !Forall_cons in Hargs. destruct Hargs as (_ & Hy & Hz & _).
  assert (forall I, exists d a b e, App f [r; y; z] = App d [a; b; e] /\ get_sort b = range f /\ get_sort e = range f
    /\ eval I (App f [r; y; z]) = if tr I a then eval I b else eval I e) as Hb.
  { intros I. destruct (ite_inv I (App f [r; y; z]) Hite (usable_wf _ _ Hu'))
      as (d & a & b & e & Heq & _ & _ & _ & Hb & Hz' & Hev). exists d, a, b, e. by split_and!. }
  split; [intros ->%is_true_spec|intros ->%is_false_spec]; split_and!; try done.
  - destruct (Hb default_interp) as (d & a & b & e & [= <- <- <- <-] & Hsy & _). done.
  - intros I HI. rewrite <- (He I HI). destruct (Hb I) as (d & a & b & e & [= <- <- <- <-] & _ & _ & ->). done.
  - destruct (Hb default_interp) as (d & a & b & e & [= <- <- <- <-] & _ & Hsz & _). done.
  - intros I HI. rewrite <- (He I HI). destruct (Hb I) as (d & a & b & e & [= <- <- <- <-] & _ & _ & ->). done.
Qed.

Lemma ite_shape e : wf e = true -> is_ite e = true -> exists f x y z, e = App f [x; y; z].
Proof.
  intros Hw Hi. destruct (ite_inv default_interp e Hi Hw) as (f & x & y & z & -> & _). by exists f, x, y, z.
Qed.

(** A frame that waits for a branch. *)
Lemma rewrite_branch_ok fuel st fr frs below seg x d :
  inv st -> m_frame_stack st = fr :: frs -> m_result_stack st = below ++ seg -> length below = m_spos fr ->
  (forall i s, m_curr fr <> Var i s) -> rewrites (m_cfg st) (m_curr fr) x -> calm (m_cfg st) x ->
  unbounded fuel d ->
  (strict -> (1 + 2 * size x <= frame_work fr)%nat) ->
  wp (progress st)
    ('(done, st) ← visit ref_count fuel x d
       (set_state REWRITE_BUILTIN (set_results (below ++ [x]) st));
     if (done : bool) then replace_result st else Ok st).
Proof.
  intros Hi Hf Hr Hl Happ Hx Hcx Hfuel Hw. set (st1 := set_state _ _).
  assert (m_frame_stack st1 = mk_frame (m_curr fr) (m_cache_result fr) (m_new_child fr) REWRITE_BUILTIN
            (m_max_depth fr) (m_i fr) (m_spos fr) :: frs) as Hf1.
  { unfold st1, set_state, update_top. cbn. by rewrite Hf. }
  assert (m_result_stack st1 = below ++ [x] /\ m_cfg st1 = m_cfg st /\ side st1) as (Hr1 & Hc1 & Hs1).
  { unfold st1, set_state, update_top. cbn. rewrite Hf. cbn. by destruct (inv_side _ Hi). }
  assert (expects st1 x) as He.
  { split; rewrite ?Hc1; try done; [apply Hx|]. rewrite Hf1, Hr1. pose proof (inv_top _ Hi) as Ht.
    rewrite Hf, Hr in Ht. destruct Ht as (Hc & Hu & below' & seg' & Hrs & Hl' & _ & Hb).
    assert (below' = below) as -> by (apply (app_inj_1 _ _ _ _) in Hrs as [? _]; [done|congruence]).
    cbn. split_and!; try done. exists below, [x]. split_and!; try done.
    unfold waits. cbn. destruct (m_curr fr) as [i s|f args] eqn:Hcur; [by destruct (Happ i s)|by split]. }
  assert (work st1 = (1 + sum_list (map frame_work frs))%nat) as Hw1 by (rewrite (work_top _ _ _ Hf1); done).
  pose proof (work_top st fr frs Hf) as Hw0.
  eapply wp_bind; [by apply visit_term_ok|]. intros [[] st'] [Hi' Hres]; cbn [fst snd] in *.
  - pose proof (same_frames_work _ _ Hres) as Hws. unfold same_frames in Hres. rewrite Hf1 in Hres. cbn in Hres.
    destruct (m_frame_stack st') as [|fr' frs'] eqn:Hf'; [done|]. cbn in Hres.
    injection Hres as Hcurr Hca Hst _ _ _ Hrest.
    eapply wp_mono; [by apply (replace_result_ok st' fr' frs')|]. intros st2 [Hi2 Hw2]. split; [done|].
    intros Hs. specialize (Hw Hs). specialize (Hw2 Hs).
    lia.
  - split; [done|]. intros Hs. specialize (Hw Hs). specialize (Hres Hs). lia.
Qed.

Lemma depth_ok fuel st fr frs f args :
  inv st -> m_frame_stack st = fr :: frs -> m_state fr = PROCESS_CHILDREN -> m_curr fr = App f args ->
  (strict -> (0 < fuel)%nat) -> unbounded fuel (m_max_depth fr).
Proof.
  intros Hi Hf Hst Hcur Hfuel Hs. pose proof (inv_top _ Hi) as Ht. rewrite Hf in Ht.
  destruct Ht as (_ & _ & below & seg & _ & _ & Hrd & _). unfold ready in Hrd. rewrite Hst, Hcur in Hrd.
  destruct Hrd as (_ & _ & Htidy). split; [auto|by apply Htidy].
Qed.

Lemma constant_fold_ok fuel t st fr frs :
  inv st -> m_frame_stack st = fr :: frs -> m_curr fr = t -> m_state fr = PROCESS_CHILDREN ->
  (strict -> (0 < fuel)%nat) ->
  wp (fun o => match o with None => True | Some st' => progress st st' end) (constant_fold ref_count fuel t fr st).
Proof.
  intros Hi Hf Ht Hst Hfuel. unfold constant_fold. destruct (_ && _) eqn:Hit; [|done].
  apply andb_true_iff in Hit as [Hi1%Nat.eqb_eq Hite]. pose proof (inv_top _ Hi) as Htop. rewrite Hf in Htop.
  destruct Htop as (Hcalm & Hu & below & seg & Hr & Hl & Hrd & _). rewrite Ht in Hu, Hcalm.
  unfold ready in Hrd. rewrite Hst, Ht in Hrd.
  destruct (ite_shape t (usable_wf _ _ Hu) Hite) as (f & x & y & z & ->). rewrite Hi1 in Hrd. cbn [drop] in Hrd.
  destruct Hrd as (_ & Hrw & _). pose proof (depth_ok fuel st fr frs f [x; y; z] Hi Hf Hst Ht Hfuel) as Hub.
  destruct (ite_shape (App f (seg ++ [y; z]))) as (f' & r & y' & z' & Heq);
    [by apply (usable_wf (m_cfg st)), Hrw|done|].
  assert (seg = [r]) as ->.
  { injection Heq as _ Heq. destruct seg as [|r1 [|r2 [|r3 seg]]]; cbn in Heq; try discriminate Heq; [congruence|].
    by destruct seg. }
  destruct (ite_branch _ _ _ _ _ _ Hrw Hite) as [Hbt Hbf].
  rewrite (aget_nat _ _ r) by (rewrite Hr, <- Hl; apply list_lookup_middle; done). cbn [mbind res_bind].
  pose proof (calm_args _ _ _ Hcalm) as Hca. rewrite !Forall_cons in Hca. destruct Hca as (_ & Hcy & Hcz & _).
  assert (forall e, rewrites (m_cfg st) (App f [x; y; z]) e -> calm (m_cfg st) e -> (size e <= size y + size z)%nat ->
    wp (fun o => match o with None => True | Some st' => progress st st' end)
      ('(done, st) ← visit ref_count fuel e (m_max_depth fr)
         (set_state REWRITE_BUILTIN (set_results (take (m_spos fr) (m_result_stack st) ++ [e]) st));
       if (done : bool) then st ← replace_result st; Ok (Some st) else Ok (Some st))) as Hbranch.
  { intros e He Hce Hse. rewrite Hr, <- Hl, take_app_length.
    pose proof (rewrite_branch_ok fuel st fr frs below [r] e (m_max_depth fr) Hi Hf Hr Hl) as Hb.
    rewrite Ht in Hb. specialize (Hb ltac:(done) He Hce Hub).
    assert (strict -> (1 + 2 * size e <= frame_work fr)%nat) as Hw.
    { intros _. unfold frame_work. rewrite Hst, Ht, Hi1. cbn. lia. }
    specialize (Hb Hw). destruct (visit _ _ _ _ _) as [[[] st']|e']; cbn in Hb |- *; [|done|done].
    by destruct (replace_result st'). }
  destruct (is_true r) eqn:Htr.
  { apply Hbranch; [by apply Hbt|done|cbn; lia]. }
  destruct (is_false r) eqn:Hfr; [|done].
  apply Hbranch; [by apply Hbf|done|cbn; lia].
Qed.

(** ** The arguments *)

(** The frame on top is that of [App f args], between two arguments. *)
Definition at_children (f : func_decl) (args : list expr) (st : rewriter) : Prop :=
  exists fr frs, m_frame_stack st = fr :: frs /\ m_state fr = PROCESS_CHILDREN /\ m_curr fr = App f args.

Lemma next_child_ok st fr frs f args x rest :
  inv st -> m_frame_stack st = fr :: frs -> m_state fr = PROCESS_CHILDREN -> m_curr fr = App f args ->
  x :: rest = drop (m_i fr) args ->
  expects (next_child st) x /\ (work (next_child st) + 2 * size x = work st)%nat
  /\ exists fr', m_frame_stack (next_child st) = fr' :: frs /\ m_state fr' = PROCESS_CHILDREN
       /\ m_curr fr' = App f args /\ m_i fr' = Datatypes.S (m_i fr) /\ rest = drop (m_i fr') args.
Proof.
  intros Hi Hf Hst Hcur Hrest. pose proof (inv_top _ Hi) as Ht. rewrite Hf in Ht.
  destruct Ht as (Hc & Hu & below & seg & Hr & Hl & Hrd & Hb). unfold ready in Hrd. rewrite Hst, Hcur in Hrd.
  destruct Hrd as ([Hle _] & Hrw & Htidy). rewrite <- Hrest in Hrw. rewrite Hcur in Hc, Hu.
  assert (rest = drop (Datatypes.S (m_i fr)) args) as Hrest'.
  { replace (Datatypes.S (m_i fr)) with (m_i fr + 1)%nat by lia. by rewrite <- drop_drop, <- Hrest. }
  assert (x ∈ args) as Hx.
  { rewrite <- (take_drop (m_i fr) args), <- Hrest. apply elem_of_app. right. left. }
  set (fr1 := mk_frame (m_curr fr) (m_cache_result fr) (m_new_child fr) (m_state fr) (m_max_depth fr)
                (Datatypes.S (m_i fr)) (m_spos fr)).
  assert (next_child st = set_frames (fr1 :: frs) st) as Hn by (unfold next_child, update_top; by rewrite Hf).
  rewrite Hn. split_and!.
  - split; cbn.
    + by destruct (inv_side _ Hi).
    + apply usable_args in Hu. rewrite Forall_forall in Hu. by apply Hu.
    + apply calm_args in Hc. rewrite Forall_forall in Hc. by apply Hc.
    + rewrite Hcur in *. split_and!; try done. exists below, seg. split_and!; try done. unfold waits. cbn.
      assert (length (x :: rest) = length (drop (m_i fr) args)) as Hlen by by rewrite Hrest.
      rewrite length_drop in Hlen. cbn in Hlen.
      rewrite Hst, Hcur. rewrite <- Hrest'. split; [lia|]. split; [done|].
      intros Hs. destruct (Htidy Hs) as (Hd & Hset & Htk). cbn. split_and!; [done|done|]. intros Hnc.
      rewrite (Htk Hnc), Hcur. cbn [get_args]. symmetry. apply take_S_r. rewrite <- (Nat.add_0_r (m_i fr)), <- lookup_drop.
      by rewrite <- Hrest.
  - rewrite (work_top st fr frs Hf). rewrite (work_top _ fr1 frs) by done.
    unfold frame_work. cbn [m_state m_curr m_i fr1]. rewrite Hst, Hcur. cbn [get_args].
    rewrite <- Hrest, <- Hrest'. cbn. lia.
  - exists fr1. split_and!; try done; cbn; by rewrite ?Hst.
Qed.

Lemma process_children_ok fuel f args rest st fr frs :
  inv st -> m_frame_stack st = fr :: frs -> m_state fr = PROCESS_CHILDREN -> m_curr fr = App f args ->
  rest = drop (m_i fr) args -> (strict -> (0 < fuel)%nat) ->
  wp (fun '(all, st') =>
        if (all : bool) then inv st' /\ (work st' <= work st)%nat /\ exists fr' frs',
          m_frame_stack st' = fr' :: frs' /\ m_state fr' = PROCESS_CHILDREN /\ m_curr fr' = App f args
          /\ drop (m_i fr') args = []
        else progress st st')
     (process_children ref_count fuel (App f args) rest st).
Proof.
  intros Hi Hf Hst Hcur Hrest Hfuel. revert st fr frs Hi Hf Hst Hcur Hrest.
  induction rest as [|x rest IH]; intros st fr frs Hi Hf Hst Hcur Hrest; cbn [process_children].
  { cbn. split_and!; [done|done|]. by exists fr, frs. }
  rewrite Hf. eapply wp_bind; [by apply (constant_fold_ok _ _ _ _ frs)|]. intros [st'|] Hfold; [exact Hfold|].
  destruct (next_child_ok st fr frs f args x rest Hi Hf Hst Hcur Hrest) as (He & Hw & fr1 & Hf1 & Hst1 & Hcur1 & _ & Hrest1).
  eapply wp_bind; [apply visit_term_ok; [done|by apply (depth_ok fuel st fr frs f args)]|].
  intros [[] st'] [Hi' Hres]; cbn [fst snd] in *.
  - pose proof (same_frames_work _ _ Hres) as Hws. unfold same_frames in Hres. rewrite Hf1 in Hres. cbn in Hres.
    destruct (m_frame_stack st') as [|fr' frs'] eqn:Hf'; [done|]. cbn in Hres.
    injection Hres as Hcurr Hca Hst' Hd Hi1 Hsp Hrst.
    eapply wp_mono; [apply (IH st' fr' frs'); congruence || done|].
    intros [[] st2]; cbn.
    + intros (Hi2 & Hw2 & Hex). split_and!; [done| |done]. lia.
    + intros [Hi2 Hw2]. split; [done|]. intros Hs. specialize (Hw2 Hs). lia.
  - split; [done|]. intros Hs. specialize (Hres Hs). lia.
Qed.

(** ** The rules *)

Lemma flatten_ok f args st fr frs :
  inv st -> m_frame_stack st = fr :: frs -> m_state fr = PROCESS_CHILDREN -> m_curr fr = App f args ->
  drop (m_i fr) args = [] -> flattens ref_count f (App f args) st = true ->
  progress st (set_new_child_flag (pop_frame st)).
Proof.
  intros Hi Hf Hst Hcur Hdone Hfl. pose proof (inv_top _ Hi) as Ht. rewrite Hf in Ht.
  destruct Ht as (Hc & Hu & below & seg & Hr & Hl & Hrd & Hb). unfold ready in Hrd. rewrite Hst, Hcur, Hdone in Hrd.
  rewrite app_nil_r in Hrd. destruct Hrd as (_ & Hrw & Htidy). rewrite Hcur in Hb.
  unfold flattens in Hfl. rewrite Hf in Hfl. destruct frs as [|fr2 frs]; [by rewrite andb_false_r in Hfl|].
  rewrite !andb_true_iff in Hfl. destruct Hfl as [[Has _] [[Hd Hst2%bool_decide_eq_true] Hfa]].
  destruct (m_curr fr2) as [i s|f2 args2] eqn:Hcur2; [done|]. apply bool_decide_eq_true in Hd. subst f2.
  destruct Hb as (Hc2 & Hu2 & below2 & seg2 & -> & Hl2 & Hw2 & Hb2). split.
  - unfold set_new_child_flag, update_top, pop_frame. cbn. rewrite Hf. cbn.
    split; [by destruct (inv_side _ Hi)|]. cbn. split_and!; [done|done|].
    exists below2, (seg2 ++ seg). split_and!; [by rewrite Hr, app_assoc|done| |done].
    unfold waits in Hw2. unfold ready. cbn. rewrite Hst2, Hcur2 in *. destruct Hw2 as (Hi2 & Hw2 & Htidy2).
    split; [split; lia|]. split.
    + pose proof (rewrites_arg _ _ _ _ _ _ _ Hw2 Hrw) as Hrw2. eapply rewrites_trans; [exact Hrw2|].
      rewrite <- app_assoc. apply flat_assoc_sound; [done|done|]. apply Hrw2.
    + intros Hs. destruct (Htidy Hs) as (_ & Hset & _), (Htidy2 Hs) as (Hd2 & Hset2 & _).
      split_and!; [done|by apply Forall_app|done].
  - intros _. rewrite flag_work, (work_top st fr _ Hf). pose proof (frame_work_pos fr).
    unfold work, pop_frame. cbn. rewrite Hf. cbn. lia.
Qed.

Lemma inv_le st c' :
  cfg_le (m_cfg st) c' -> cfg_ok c' -> inv st -> inv (set_cfg c' st).
Proof.
  intros Hle Hok [Hs Ht]. split; [by apply side_le|]. cbn. unfold on_top in *.
  destruct (m_frame_stack st) as [|fr frs].
  { destruct Ht as (r & ? & ? & Hset). exists r. split_and!; [done|by eapply rewrites_le|].
    intros Hst. eapply settled_le; [exact Hle|by apply Hset]. }
  destruct Ht as (Hc & Hu & below & seg & ? & ? & Hrd & ?). split_and!; [by eapply calm_le|by eapply usable_le|].
  exists below, seg. split_and!; [done|done| |by eapply suspended_le].
  unfold ready in *. destruct (m_state fr), (m_curr fr); try done.
  - destruct Hrd as (? & ? & ?). split; [done|]. split; [by eapply rewrites_le|by eapply tidy_le].
  - destruct Hrd as (r0 & r & ? & ? & Hset). exists r0, r. split_and!; [done|by eapply rewrites_le|].
    intros Hst. eapply settled_le; [exact Hle|by apply Hset].
Qed.

(** What a rewritten term costs is not bounded. *)
Lemma rewrite_result_ok fuel st fr frs r d :
  inv st -> m_frame_stack st = fr :: frs -> (forall i s, m_curr fr <> Var i s) ->
  rewrites (m_cfg st) (m_curr fr) r -> ~ strict ->
  wp (progress st) (rewrite_result ref_count fuel fr r d st).
Proof.
  intros Hi Hf Happ Hr Hns. pose proof (inv_top _ Hi) as Ht. rewrite Hf in Ht.
  destruct Ht as (_ & _ & below & seg & Hrs & Hl & _). unfold rewrite_result.
  rewrite Hrs, <- Hl, take_app_length.
  apply (rewrite_branch_ok fuel st fr frs below seg); try done; by intros ?%Hns.
Qed.

Lemma reduce_frame_ok fuel f args st fr frs :
  inv st -> m_frame_stack st = fr :: frs -> m_state fr = PROCESS_CHILDREN -> m_curr fr = App f args ->
  drop (m_i fr) args = [] -> wp (progress st) (reduce_frame ref_count fuel f fr st).
Proof.
  intros Hi Hf Hst Hcur Hdone. unfold reduce_frame. destruct (flattens _ _ _ _) eqn:Hfl.
  { rewrite Hcur in Hfl. cbn [wp]. by apply (flatten_ok f args st fr frs). }
  pose proof (inv_top _ Hi) as Ht. rewrite Hf in Ht.
  destruct Ht as (Hc & Hu & below & seg & Hr & Hl & Hrd & Hb). unfold ready in Hrd. rewrite Hst, Hcur, Hdone in Hrd.
  rewrite app_nil_r in Hrd. destruct Hrd as ([Hle' _] & Hrw & Htidy). rewrite Hr, <- Hl, drop_app_length.
  assert (strict -> m_new_child fr = false -> seg = args) as Hsame.
  { intros Hs Hn. destruct (Htidy Hs) as (_ & _ & Htk). rewrite (Htk Hn), Hcur. cbn [get_args].
    rewrite <- (take_drop (m_i fr) args) at 2. by rewrite Hdone, app_nil_r. }
  pose proof (side_cfg _ (inv_side _ Hi)) as Hcfg. assert (usable (m_cfg st) (App f seg)) as Huseg by apply Hrw.
  pose proof (reduce_app_sound (m_cfg st) f seg Hcfg Huseg) as Hred.
  destruct (cfg_reduce_app f seg (m_cfg st)) as [[c b]|e] eqn:Hrun; cbn [mbind res_bind].
  - destruct Hred as (Hok & Hle & Hres). set (st1 := set_cfg c st). pose proof (inv_le st c Hle Hok Hi) as Hi1. fold st1 in Hi1.
    assert (strict -> settled c (default (App f seg) (br_result b))) as Hset.
    { intros Hs. pose proof (strict_finishing Hs). apply (settled_app (m_cfg st) c f seg b); try done. by apply Htidy. }
    assert (forall r, br_result b = Some r -> rewrites (m_cfg st1) (m_curr fr) r) as Hto.
    { intros r Hb'. rewrite Hcur. eapply rewrites_trans; [eapply rewrites_le; [exact Hle|exact Hrw]|by apply Hres]. }
    assert (forall r d, br_result b = Some r -> (forall r', b <> BR_DONE r') ->
      wp (progress st) (rewrite_result ref_count fuel fr r d st1)) as Hre.
    { intros r d Hb' Hnd. apply (rewrite_result_ok fuel st1 fr frs r d); [done|exact Hf|by rewrite Hcur|by apply Hto|].
      intros Hs. pose proof (strict_finishing Hs). destruct (finishing _ _ _ _ _ Hrun) as [->|[r' ->]]; [done|].
      by apply (Hnd r'). }
    assert (forall fl r, result_for fl st1 fr r -> progress st1 (flag_when fl (finish_frame fr r st1))) as Hfin.
    { intros fl r Hr'. unfold finish_frame. change (m_result_stack st1) with (m_result_stack st).
      rewrite Hr, <- Hl, take_app_length. by apply (finish_progress fl st1 fr frs r below seg). }
    destruct b as [r|r|r|r|r|]; try (by apply Hre).
    + cbn [wp]. apply (Hfin true). split; [by apply Hto|]. intros ?%Hset. by split.
    + cbn [wp]. set (r := if m_new_child fr then App f seg else m_curr fr). rewrite flag_if_when. apply Hfin.
      assert (strict -> r = App f seg) as Hrs.
      { intros Hs. unfold r. destruct (m_new_child fr) eqn:Hn; [done|]. by rewrite Hcur, (Hsame Hs). }
      split; [|intros Hs; split; [rewrite (Hrs Hs); exact (Hset Hs)|]].
      * apply (rewrites_le (m_cfg st)); [done|]. unfold r. destruct (m_new_child fr); rewrite Hcur in *; [done|].
        by apply rewrites_refl.
      * intros Hb'%negb_false_iff. by apply bool_decide_eq_true in Hb'.
  - destruct Hred as [-> Hra]. split; [|by left]. intros Hs. specialize (Hc Hs). rewrite Hcur in Hc.
    cbn in Hc. by rewrite Hra in Hc.
Qed.

Lemma process_app_ok fuel f args st fr frs :
  inv st -> m_frame_stack st = fr :: frs -> m_curr fr = App f args -> (strict -> (0 < fuel)%nat) ->
  wp (progress st) (process_app ref_count fuel f args fr st).
Proof.
  intros Hi Hf Hcur Hfuel. unfold process_app. destruct (m_state fr) eqn:Hst; [|by apply (replace_result_ok st fr frs)].
  eapply wp_bind; [by apply (process_children_ok fuel f args _ st fr frs)|].
  intros [[] st'] Hres; [|exact Hres]. destruct Hres as (Hi' & Hw & fr' & frs' & Hf' & Hst' & Hcur' & Hd).
  rewrite Hf'. eapply wp_mono; [by apply (reduce_frame_ok fuel f args st' fr' frs')|].
  intros st2 [Hi2 Hw2]. split; [done|]. intros Hs. specialize (Hw2 Hs). lia.
Qed.

(** A frame that is popped leaves its term to be replaced. *)
Lemma expects_popped st fr frs :
  inv st -> m_frame_stack st = fr :: frs -> m_state fr = PROCESS_CHILDREN ->
  (forall below seg, m_result_stack st = below ++ seg -> length below = m_spos fr -> ready (m_cfg st) fr seg -> seg = []) ->
  expects (pop_frame st) (m_curr fr) /\ work st = (frame_work fr + work (pop_frame st))%nat.
Proof.
  intros Hi Hf Hst Hseg. pose proof (inv_top _ Hi) as Ht. rewrite Hf in Ht.
  destruct Ht as (Hc & Hu & below & seg & Hr & Hl & Hrd & Hb). pose proof (Hseg below seg Hr Hl Hrd) as ->.
  rewrite app_nil_r in Hr. split.
  - split; [by destruct (inv_side _ Hi)|done|done|]. unfold pop_frame. cbn. rewrite Hf, Hr. exact Hb.
  - rewrite (work_top st fr frs Hf). unfold work, pop_frame. cbn. by rewrite Hf.
Qed.

Lemma step_ok fuel st fr frs :
  inv st -> m_frame_stack st = fr :: frs -> (strict -> (0 < fuel)%nat) ->
  wp (progress st) (step ref_count fuel st).
Proof.
  intros Hi Hf Hfuel. unfold step. rewrite Hf. set (st1 := set_steps _ st).
  assert (inv st1) as Hi1 by (destruct Hi as [[] ?]; by split).
  destruct (cfg_max_steps_exceeded _ _) eqn:Hm.
  { split; [|by left]. intros Hs. pose proof (strict_finishing Hs). by rewrite no_step_limit in Hm. }
  destruct (if first_visit fr && m_cache_result fr then map_find (m_cache st1) (m_curr fr) else None) as [r|] eqn:Hca.
  - destruct (first_visit fr && m_cache_result fr) eqn:Hfv; [|done]. apply andb_true_iff in Hfv as [Hfv _].
    apply andb_true_iff in Hfv as [Hst%bool_decide_eq_true Hi0%Nat.eqb_eq].
    destruct (expects_popped st1 fr frs Hi1 Hf Hst) as [He Hw].
    { intros below seg _ _. unfold ready. rewrite Hst. destruct (m_curr fr); [done|]. intros [[_ Hseg] _]. auto. }
    cbn [wp]. split.
    + apply (deliver_if (pop_frame st1) (m_curr fr) r He); [by apply (side_cache _ (inv_side _ Hi1))|].
      intros Hs. destruct (side_settled _ (inv_side _ Hi1) Hs) as [Hset _]. by eapply Hset.
    + intros _. rewrite flag_if_work. pose proof (frame_work_pos fr).
      change (work st) with (work st1). change (work (pop_frame (push_result r st1))) with (work (pop_frame st1)). lia.
  - destruct (m_curr fr) as [i s|f args] eqn:Hcur; [|by apply (process_app_ok fuel f args st1 fr frs)].
    destruct (m_state fr) eqn:Hst.
    + destruct (expects_popped st1 fr frs Hi1 Hf Hst) as [He Hw].
      { intros below seg _ _. unfold ready. by rewrite Hst, Hcur. }
      rewrite Hcur in He. eapply wp_mono; [by apply process_var_ok|]. intros st2 [Hi2 Hs2]. split; [done|].
      intros _. pose proof (frame_work_pos fr). rewrite (same_frames_work _ _ Hs2).
      change (work st) with (work st1). lia.
    + pose proof (inv_top _ Hi) as Ht. rewrite Hf in Ht. destruct Ht as (_ & _ & below & seg & _ & _ & Hrd & _).
      unfold ready in Hrd. by rewrite Hst, Hcur in Hrd.
Qed.
(** What a finished run leaves. *)
Definition finished (r : expr * rewriter) : Prop :=
  side r.2 /\ rewrites (m_cfg r.2) root r.1 /\ (strict -> settled (m_cfg r.2) r.1)
  /\ m_frame_stack r.2 = [] /\ m_result_stack r.2 = [].

Lemma pop_result_ok st : inv st -> m_frame_stack st = [] -> wp finished (pop_result st).
Proof.
  intros [Hs Ht] Hf. rewrite Hf in Ht. destruct Ht as (r & Hr & Hrw & Hset). unfold pop_result. rewrite Hr. cbn [last wp].
  split_and!; [by destruct Hs|done|done|done|]. by cbn.
Qed.

Lemma resume_core_ok fuel st :
  inv st -> (strict -> (work st <= fuel)%nat) -> wp finished (resume_core ref_count fuel st).
Proof.
  revert st. induction fuel as [|fuel IH]; intros st Hi Hfuel;
    destruct (m_frame_stack st) as [|fr frs] eqn:Hf; cbn [resume_core]; rewrite Hf; try by apply pop_result_ok.
  - split; [|by right]. intros Hs. specialize (Hfuel Hs). rewrite (work_top st fr frs Hf) in Hfuel.
    pose proof (frame_work_pos fr). lia.
  - eapply wp_bind; [apply (step_ok _ st fr frs); [done|done|lia]|].
    intros st' [Hi' Hw]. apply IH; [done|]. intros Hs. specialize (Hfuel Hs). specialize (Hw Hs). lia.
Qed.

Lemma main_loop_ok fuel st :
  side st -> usable (m_cfg st) root -> calm (m_cfg st) root -> m_frame_stack st = [] -> m_result_stack st = [] ->
  (strict -> (2 * size root <= fuel)%nat) -> wp finished (main_loop ref_count fuel root st).
Proof.
  intros Hs Hu Hc Hf Hr Hfuel. unfold main_loop. set (st1 := set_steps _ _).
  assert (expects st1 root) as He.
  { split; [by destruct Hs|done|done|]. cbn. rewrite Hf, Hr. split; [done|]. by apply rewrites_refl. }
  assert (0 < size root)%nat as Hpos by (destruct root; cbn; lia).
  assert (work st1 = 0%nat) as Hw0 by (unfold work; cbn; by rewrite Hf).
  eapply wp_bind; [apply visit_term_ok; [exact He|intros Hst; specialize (Hfuel Hst); split; [lia|done]]|].
  intros [[] st'] [Hi Hw]; cbn [fst snd] in *.
  - apply pop_result_ok; [done|]. unfold same_frames in Hw. cbn in Hw. rewrite Hf in Hw.
    by destruct (m_frame_stack st').
  - apply resume_core_ok; [done|]. intros Hst. specialize (Hw Hst). specialize (Hfuel Hst). lia.
Qed.

Lemma rewrite_ok fuel st :
  side st -> usable (m_cfg st) root -> calm (m_cfg st) root -> (m_frame_stack st = [] -> m_result_stack st = []) ->
  (strict -> (2 * size root <= fuel)%nat) -> wp finished (rewrite ref_count fuel root st).
Proof.
  intros Hs Hu Hc Hr Hfuel. unfold rewrite. destruct (m_frame_stack st) as [|fr frs] eqn:Hf.
  - apply main_loop_ok; auto.
  - apply main_loop_ok; try done. destruct Hs as [Ho Hst Hca Hb Hse]. split; try done. intros [_ Hbi]%Hse. by split.
Qed.
End Run.
(** ** The theorems *)

(** Between two runs: what is cached and bound may be used in later states. *)
Record at_rest (st : rewriter) : Prop := mk_at_rest {
  rest_cfg : cfg_ok (m_cfg st);
  rest_cache : forall k v, map_find (m_cache st) k = Some v -> rewrites (m_cfg st) k v;
  rest_bindings : forall i s r c, m_bindings st !! (length (m_bindings st) - i - 1)%nat = Some r ->
    (i < length (m_bindings st))%nat -> cfg_le (m_cfg st) c -> usable c (Var i s) -> rewrites c (Var i s) r;
  rest_frames : m_frame_stack st = [];
  rest_results : m_result_stack st = []
}.

(** What is kept between two strict runs is settled. *)
Definition settled_rest (st : rewriter) : Prop :=
  (forall k v, map_find (m_cache st) k = Some v -> settled (m_cfg st) v)
  /\ Forall (settled (m_cfg st)) (m_bindings st).

(** Everything but the configuration may be reset between two runs. *)
Lemma rest_reset st : at_rest st -> at_rest (reset st) /\ settled_rest (reset st).
Proof. intros [Hok _ _ _ _]. split; [split|split]; cbn; done || lia || by constructor. Qed.

Lemma rest_side strict st : at_rest st -> (strict -> settled_rest st) -> side (m_cfg st) strict st.
Proof. by intros [] Hs; split. Qed.

Lemma finished_rest root strict st r :
  finished root (m_cfg st) strict r ->
  at_rest r.2 /\ cfg_le (m_cfg st) (m_cfg r.2) /\ rewrites (m_cfg r.2) root r.1
  /\ (strict -> settled_rest r.2 /\ settled (m_cfg r.2) r.1).
Proof. intros ([] & Hr & Hset & Hf & Hs). split_and!; [by split|done|done|]. intros H'. split; [by apply side_settled0|auto]. Qed.

(** A run that is not strict. *)
Lemma rewrite_sound fuel t st :
  at_rest st -> usable (m_cfg st) t ->
  match rewrite ref_count fuel t st with
  | Ok (r, st') => at_rest st' /\ cfg_le (m_cfg st) (m_cfg st') /\ rewrites (m_cfg st') t r
  | Fault e => e = Z3Exception \/ e = OutOfFuel
  end.
Proof.
  intros Hr Hu. pose proof (rewrite_ok t (m_cfg st) False ltac:(done) fuel st (rest_side False st Hr ltac:(done)) Hu) as Hok.
  specialize (Hok (fun F => match F with end) (fun _ => rest_results st Hr) (fun F => match F with end)).
  destruct (rewrite ref_count fuel t st) as [[r st']|e]; cbn in Hok; [|tauto].
  destruct (finished_rest t False st (r, st') Hok) as (? & ? & ? & _). by split_and!.
Qed.

(** A strict one. *)
Lemma rewrite_total `{!FinishingCfg C} fuel t st :
  at_rest st -> settled_rest st -> usable (m_cfg st) t -> quiet (m_cfg st) t = true -> (2 * size t <= fuel)%nat ->
  exists r st', rewrite ref_count fuel t st = Ok (r, st')
    /\ at_rest st' /\ settled_rest st' /\ cfg_le (m_cfg st) (m_cfg st') /\ rewrites (m_cfg st') t r
    /\ settled (m_cfg st') r.
Proof.
  intros Hr Hset Hu Hq Hfuel. pose proof (rewrite_ok t (m_cfg st) True ltac:(done) fuel st (rest_side True st Hr (fun _ => Hset)) Hu) as Hok.
  specialize (Hok (fun _ => Hq) (fun _ => rest_results st Hr) (fun _ => Hfuel)).
  destruct (rewrite ref_count fuel t st) as [[r st']|e]; cbn in Hok; [|tauto].
  destruct (finished_rest t True st (r, st') Hok) as (? & ? & ? & Hs). destruct (Hs I). exists r, st'. by split_and!.
Qed.

(** C13: The rewriting machine is sound over every configuration whose rules are:
    from a machine at rest it gives a term of the same sort and value over every
    interpretation the final state admits, and a machine at rest again; it throws
    only when a rule or a limit does. *)
Theorem rewriter_sound fuel t st :
  at_rest st -> usable (m_cfg st) t ->
  match rewrite ref_count fuel t st with
  | Ok (r, st') => at_rest st' /\ cfg_le (m_cfg st) (m_cfg st') /\ rewrites (m_cfg st') t r
  | Fault e => e = Z3Exception \/ e = OutOfFuel
  end.
Proof. apply rewrite_sound. Qed.

(** C14: Over a configuration whose rules give finished results and set no limits,
    the rewriting machine ends on every term whose operators do not throw, within
    twice the size of the term, and no rule applies to the result any more. *)
Theorem rewriter_terminates `{!FinishingCfg C} fuel t st :
  at_rest st -> settled_rest st -> usable (m_cfg st) t -> quiet (m_cfg st) t = true -> (2 * size t <= fuel)%nat ->
  exists r st', rewrite ref_count fuel t st = Ok (r, st')
    /\ at_rest st' /\ settled_rest st' /\ cfg_le (m_cfg st) (m_cfg st') /\ rewrites (m_cfg st') t r
    /\ settled (m_cfg st') r.
Proof. apply rewrite_total. Qed.
End Machine.
