(* ===== verification/RewriterSim.v ===== *)
(** Two configurations whose rules give the same results make the rewriting
    machine run in the same way, whatever else their states record. *)
From S2P Require Import Prelude Ast AstSem BoolRewriter Rewriter.

(** Related values, or the same fault. *)
Definition res_rel {A B} (P : A -> B -> Prop) (m : res A) (n : res B) : Prop :=
  match m, n with
  | Ok a, Ok b => P a b
  | Fault e, Fault e' => e = e'
  | _, _ => False
  end.

Lemma rel_bind {A B A' B'} (P : A -> B -> Prop) (Q : A' -> B' -> Prop) m n k k' :
  res_rel P m n -> (forall a b, P a b -> res_rel Q (k a) (k' b)) -> res_rel Q (m ≫= k) (n ≫= k').
Proof. destruct m, n; cbn; try done; auto. Qed.

Lemma rel_same {A B C} (Q : B -> C -> Prop) (m : res A) k k' :
  (forall a, res_rel Q (k a) (k' a)) -> res_rel Q (m ≫= k) (m ≫= k').
Proof. destruct m; cbn; auto. Qed.

Class CfgSim {C D : Type} (HC : RewriterCfg C) (HD : RewriterCfg D) (R : C -> D -> Prop) := {
  sim_reduce_app f args c d :
    R c d -> res_rel (fun x y => R (fst x) (fst y) /\ snd x = snd y) (cfg_reduce_app f args c) (cfg_reduce_app f args d);
  sim_reduce_var i s c d : R c d -> cfg_reduce_var i s d = cfg_reduce_var i s c;
  sim_get_subst t c d :
    R c d -> match cfg_get_subst t c, cfg_get_subst t d with
             | Some (r, c'), Some (r', d') => r = r' /\ R c' d'
             | None, None => True
             | _, _ => False
             end;
  sim_pre_visit t c d : R c d -> cfg_pre_visit t d = cfg_pre_visit t c;
  sim_flat_assoc f c d : R c d -> cfg_flat_assoc f d = cfg_flat_assoc f c;
  sim_cache_all c d : R c d -> cfg_cache_all_results d = cfg_cache_all_results c;
  sim_cache c d : R c d -> cfg_cache_results d = cfg_cache_results c;
  sim_max_frames n c d : R c d -> cfg_max_frames_exceeded n d = cfg_max_frames_exceeded n c;
  sim_max_steps n c d : R c d -> cfg_max_steps_exceeded n d = cfg_max_steps_exceeded n c
}.

Section Sim.
Context {C D : Type} `{HC : RewriterCfg C} `{HD : RewriterCfg D} (R : C -> D -> Prop) `{!CfgSim HC HD R}.
Context (counts : rewriter (C := C) -> expr -> nat) (counts' : rewriter (C := D) -> expr -> nat).

(** The same machine over another configuration. *)
Definition retarget (d : D) (st : rewriter (C := C)) : rewriter (C := D) :=
  mk_rewriter d (m_cache st) (m_frame_stack st) (m_result_stack st) (m_root st) (m_num_steps st) (m_bindings st).
Definition sim (st : rewriter (C := C)) (st' : rewriter (C := D)) : Prop :=
  exists d, st' = retarget d st /\ R (m_cfg st) d.
Context (same_counts : forall st st' e, sim st st' -> counts' st' e = counts st e).

Definition sim_snd {A} (x : A * rewriter (C := C)) (y : A * rewriter (C := D)) : Prop :=
  fst x = fst y /\ sim (snd x) (snd y).

Ltac related := by (eexists; split; [reflexivity|assumption]).

Lemma sim_flag st st' : sim st st' -> sim (set_new_child_flag st) (set_new_child_flag st').
Proof.
  intros (d & -> & Hd). exists d. unfold set_new_child_flag, update_top. cbn.
  destruct (m_frame_stack st); by split.
Qed.

Lemma sim_flag_if a b st st' : sim st st' -> sim (set_new_child_flag_if a b st) (set_new_child_flag_if a b st').
Proof. unfold set_new_child_flag_if. intros Hs. case_bool_decide; [done|by apply sim_flag]. Qed.

Lemma sim_push e st st' : sim st st' -> sim (push_result e st) (push_result e st').
Proof. intros (d & -> & Hd). related. Qed.

Lemma sim_state s st st' : sim st st' -> sim (set_state s st) (set_state s st').
Proof.
  intros (d & -> & Hd). exists d. unfold set_state, update_top. cbn. destruct (m_frame_stack st); by split.
Qed.

Lemma sim_next st st' : sim st st' -> sim (next_child st) (next_child st').
Proof.
  intros (d & -> & Hd). exists d. unfold next_child, update_top. cbn. destruct (m_frame_stack st); by split.
Qed.

Lemma sim_pop st st' : sim st st' -> sim (pop_frame st) (pop_frame st').
Proof. intros (d & -> & Hd). related. Qed.

Lemma sim_cache_result t r c st st' : sim st st' -> sim (cache_result t r c st) (cache_result t r c st').
Proof. unfold cache_result. destruct c; [|done]. intros (d & -> & Hd). related. Qed.

Lemma sim_results rs st st' : sim st st' -> sim (set_results rs st) (set_results rs st').
Proof. intros (d & -> & Hd). related. Qed.

Lemma sim_cfg c d st st' : R c d -> sim st st' -> sim (set_cfg c st) (set_cfg d st').
Proof. intros Hcd (d' & -> & _). exists d. by split. Qed.

Lemma sim_must_cache t st st' : sim st st' -> must_cache counts' t st' = must_cache counts t st.
Proof.
  intros Hs. pose proof (same_counts st st' t Hs) as Hn. destruct Hs as (d & -> & Hd). unfold must_cache. cbn in *.
  rewrite (sim_cache_all _ _ Hd), (sim_cache _ _ Hd). by rewrite Hn.
Qed.

Lemma sim_push_frame t c d st st' : sim st st' -> res_rel sim (push_frame t c d st) (push_frame t c d st').
Proof.
  intros (d' & -> & Hd). unfold push_frame. cbn. rewrite (sim_max_frames _ _ _ Hd).
  destruct (cfg_max_frames_exceeded _ _); [done|]. related.
Qed.

Lemma sim_fields st st' :
  sim st st' -> R (m_cfg st) (m_cfg st') /\ m_cache st' = m_cache st /\ m_frame_stack st' = m_frame_stack st
    /\ m_result_stack st' = m_result_stack st /\ m_num_steps st' = m_num_steps st /\ m_bindings st' = m_bindings st.
Proof. intros (d & -> & Hd). by split_and!. Qed.

Ltac fields Hs :=
  let Hd := fresh "Hd" in let E1 := fresh "Q" in let E2 := fresh "Q" in let E3 := fresh "Q" in let E4 := fresh "Q" in let E5 := fresh "Q" in
  destruct (sim_fields _ _ Hs) as (Hd & E1 & E2 & E3 & E4 & E5); rewrite ?E1, ?E2, ?E3, ?E4, ?E5.

Lemma sim_process_var i s st st' : sim st st' -> res_rel sim (process_var i s st) (process_var i s st').
Proof.
  intros Hs. unfold process_var. fields Hs. rewrite (sim_reduce_var _ _ _ _ Hd).
  destruct (cfg_reduce_var i s (m_cfg st)) as [r|]; [by apply sim_flag, sim_push|].
  destruct (Nat.ltb _ _); [|by apply sim_push]. apply rel_same. intros r. by apply sim_flag, sim_push.
Qed.

Lemma sim_process_const fuel t retried st st' :
  sim st st' -> res_rel sim_snd (process_const fuel t retried st) (process_const fuel t retried st').
Proof.
  revert t retried st st'. induction fuel as [|fuel IH]; intros t retried st st' Hs; [done|]. cbn [process_const]. fields Hs.
  eapply rel_bind; [by apply sim_reduce_app|]. intros [c b] [d b'] [Hcd Hb]; cbn [fst snd] in *. subst b'.
  pose proof (sim_cfg c d st st' Hcd Hs) as Hs1.
  destruct b as [r|r|r|r|r|]; try (destruct r as [|d' [|]]; [by split|by apply IH|by split]).
  - split; [done|]. by apply sim_flag, sim_push.
  - split; [done|]. cbn [snd]. destruct retried; [apply sim_flag|]; by apply sim_push.
Qed.

Lemma sim_visit fuel t depth st st' :
  sim st st' -> res_rel sim_snd (visit counts fuel t depth st) (visit counts' fuel t depth st').
Proof.
  intros Hs. unfold visit. rewrite (sim_must_cache t st st' Hs). fields Hs.
  pose proof (sim_get_subst t _ _ Hd) as Hsub. rewrite (sim_pre_visit _ _ _ Hd).
  destruct (cfg_get_subst t (m_cfg st)) as [[r c]|], (cfg_get_subst t (m_cfg st')) as [[r' c']|]; try done.
  { destruct Hsub as [<- Hc]. split; [done|]. by apply sim_flag_if, sim_push, sim_cfg. }
  destruct (Nat.eqb depth 0); [split; [done|]; by apply sim_push|]. cbv zeta.
  destruct (if must_cache counts t st then _ else None) as [r|]; [split; [done|]; by apply sim_flag_if, sim_push|].
  destruct (negb _); [split; [done|]; by apply sim_push|].
  destruct t as [i s|d [|a args]].
  - eapply rel_bind; [by apply sim_process_var|]. intros st1 st1' H1. by split.
  - eapply rel_bind; [by apply sim_process_const|]. intros [m_r st1] [m_r' st1'] [Hr H1]; cbn [fst snd] in *. subst m_r'.
    destruct m_r as [m_r|]; [|by split]. eapply rel_bind; [by apply sim_push_frame|]. intros st2 st2' H2. by split.
  - eapply rel_bind; [by apply sim_push_frame|]. intros st1 st1' H1. by split.
Qed.

Lemma sim_replace_result st st' : sim st st' -> res_rel sim (replace_result st) (replace_result st').
Proof.
  intros Hs. unfold replace_result. fields Hs. destruct (m_frame_stack st) as [|fr frs]; [done|].
  destruct (last (m_result_stack st)) as [r|]; [|done]. by apply sim_flag, sim_pop, sim_cache_result, sim_results.
Qed.

Definition sim_opt (x : option (rewriter (C := C))) (y : option (rewriter (C := D))) : Prop :=
  match x, y with Some s, Some s' => sim s s' | None, None => True | _, _ => False end.

Lemma sim_constant_fold fuel t fr st st' :
  sim st st' -> res_rel sim_opt (constant_fold counts fuel t fr st) (constant_fold counts' fuel t fr st').
Proof.
  intros Hs. unfold constant_fold. destruct (_ && _); [|done]. fields Hs. apply rel_same. intros cond. cbv zeta.
  destruct (if is_true cond then _ else _) as [arg|]; [|done].
  eapply rel_bind; [by apply sim_visit, sim_state, sim_results|]. intros [b st1] [b' st1'] [Hb H1]; cbn [fst snd] in *. subst b'.
  destruct b; [|done]. eapply rel_bind; [by apply sim_replace_result|]. by intros.
Qed.

Lemma sim_process_children fuel t rest st st' :
  sim st st' -> res_rel sim_snd (process_children counts fuel t rest st) (process_children counts' fuel t rest st').
Proof.
  revert st st'. induction rest as [|arg rest IH]; intros st st' Hs; cbn [process_children]; fields Hs.
  { destruct (m_frame_stack st); by split. }
  destruct (m_frame_stack st) as [|fr frs]; [done|].
  eapply rel_bind; [by apply sim_constant_fold|]. intros [s1|] [s1'|] H1; try done.
  eapply rel_bind; [by apply sim_visit, sim_next|]. intros [b st1] [b' st1'] [Hb Hs1]; cbn [fst snd] in *. subst b'.
  destruct b; [by apply IH|by split].
Qed.

Lemma sim_flattens f t st st' : sim st st' -> flattens counts' f t st' = flattens counts f t st.
Proof.
  intros Hs. unfold flattens. rewrite (same_counts st st' t Hs). fields Hs.
  destruct (m_frame_stack st) as [|fr [|prev frs]]; try done. by rewrite (sim_flat_assoc _ _ _ Hd).
Qed.

Lemma sim_finish_frame fr r st st' : sim st st' -> sim (finish_frame fr r st) (finish_frame fr r st').
Proof. intros Hs. unfold finish_frame. fields Hs. by apply sim_pop, sim_cache_result, sim_results. Qed.

Lemma sim_rewrite_result fuel fr r depth st st' :
  sim st st' -> res_rel sim (rewrite_result counts fuel fr r depth st) (rewrite_result counts' fuel fr r depth st').
Proof.
  intros Hs. unfold rewrite_result. fields Hs. eapply rel_bind; [by apply sim_visit, sim_state, sim_results|].
  intros [b st1] [b' st1'] [Hb H1]; cbn [fst snd] in *. subst b'. destruct b; [by apply sim_replace_result|done].
Qed.

Lemma sim_reduce_frame fuel f fr st st' :
  sim st st' -> res_rel sim (reduce_frame counts fuel f fr st) (reduce_frame counts' fuel f fr st').
Proof.
  intros Hs. unfold reduce_frame. rewrite (sim_flattens _ _ _ _ Hs). fields Hs.
  destruct (flattens counts f (m_curr fr) st); [by apply sim_flag, sim_pop|]. cbv zeta.
  eapply rel_bind; [by apply sim_reduce_app|]. intros [c b] [d b'] [Hcd Hb]; cbn [fst snd] in *. subst b'.
  pose proof (sim_cfg c d st st' Hcd Hs) as Hs1.
  destruct b; try (by apply sim_rewrite_result).
  - by apply sim_flag, sim_finish_frame.
  - by apply sim_flag_if, sim_finish_frame.
Qed.

Lemma sim_process_app fuel f args fr st st' :
  sim st st' -> res_rel sim (process_app counts fuel f args fr st) (process_app counts' fuel f args fr st').
Proof.
  intros Hs. unfold process_app. destruct (m_state fr); [|by apply sim_replace_result].
  eapply rel_bind; [by apply sim_process_children|]. intros [b st1] [b' st1'] [Hb H1]; cbn [fst snd] in *. subst b'.
  destruct b; [|done]. fields H1. destruct (m_frame_stack st1); [done|by apply sim_reduce_frame].
Qed.

Lemma sim_step fuel st st' : sim st st' -> res_rel sim (step counts fuel st) (step counts' fuel st').
Proof.
  intros Hs. unfold step. fields Hs. destruct (m_frame_stack st) as [|fr frs] eqn:Hf; [done|]. cbv zeta.
  assert (sim (set_steps (S (m_num_steps st)) st) (set_steps (S (m_num_steps st)) st')) as Hs1
    by (destruct Hs as (d & -> & Hd'); eexists; split; [reflexivity|done]).
  set (st1 := set_steps _ st) in *. set (st1' := set_steps _ st') in *. fields Hs1.
  rewrite (sim_max_steps _ _ _ Hd0). destruct (cfg_max_steps_exceeded _ _); [done|].
  destruct (if first_visit fr && m_cache_result fr then _ else None) as [r|]; [by apply sim_flag_if, sim_pop, sim_push|].
  destruct (m_curr fr); [by apply sim_process_var, sim_pop|by apply sim_process_app].
Qed.

Lemma sim_pop_result st st' : sim st st' -> res_rel sim_snd (pop_result st) (pop_result st').
Proof.
  intros Hs. unfold pop_result. fields Hs. destruct (last (m_result_stack st)) as [r|]; [|done].
  split; [done|]. by apply sim_results.
Qed.

Lemma sim_resume_core fuel st st' :
  sim st st' -> res_rel sim_snd (resume_core counts fuel st) (resume_core counts' fuel st').
Proof.
  revert st st'. induction fuel as [|fuel IH]; intros st st' Hs; cbn [resume_core]; fields Hs;
    destruct (m_frame_stack st) eqn:Hf; try done; try (by apply sim_pop_result).
  eapply rel_bind; [by apply sim_step|]. intros st1 st1' H1. by apply IH.
Qed.

Lemma sim_main_loop fuel t st st' :
  sim st st' -> res_rel sim_snd (main_loop counts fuel t st) (main_loop counts' fuel t st').
Proof.
  intros Hs. unfold main_loop. cbv zeta.
  assert (sim (set_steps 0 (set_root (Some t) st)) (set_steps 0 (set_root (Some t) st'))) as Hs1
    by (destruct Hs as (d & -> & Hd'); eexists; split; [reflexivity|done]).
  eapply rel_bind; [by apply sim_visit|]. intros [b st1] [b' st1'] [Hb H1]; cbn [fst snd] in *. subst b'.
  destruct b; [by apply sim_pop_result|by apply sim_resume_core].
Qed.

(** Related machines give the same term or the same fault. *)
Lemma rewrite_sim fuel t st st' :
  sim st st' -> res_rel sim_snd (rewrite counts fuel t st) (rewrite counts' fuel t st').
Proof.
  intros Hs. unfold rewrite. cbv zeta. fields Hs. destruct (m_frame_stack st); [by apply sim_main_loop|].
  apply sim_main_loop. destruct Hs as (d & -> & Hd'). eexists; split; [reflexivity|done].
Qed.
End Sim.
