(* ===== verification/ThRewriter.v ===== *)
(** th_rewriter (th_rewriter.h, th_rewriter.cpp): the simplifier that gives every
    application to the rewriter of its family, over the rewriting machine. Of the
    families the terms have two, the basic one and the bit-vectors; the rewriters
    of the others see none of these terms. *)
From S2P Require Import Prelude Ast AstSem BoolRewriter ExprSubstitution BvPlugin PolyRewriter BvRewriterLeq BvRewriterEq BvRewriter Rewriter.

(** The options of rewriter_params.pyg. *)
Record th_params := {
  th_flat : bool;
  m_max_steps : nat;
  m_pull_cheap_ite : bool;
  m_cache_all : bool;
  m_push_ite_arith : bool;
  m_push_ite_bv : bool
}.

(** The substitution, if there is one; what the replacements that were used depend
    on; and the trace of the rewriting steps, if there is a trace stream: the
    applications and what they were rewritten to. *)
Record th_state := mk_th_state {
  m_subst : option expr_substitution;
  m_used_dependencies : list expr;
  m_trace : option (list (expr * expr))
}.

Section Rewriter.
Context (params : th_params) (b_rw : bool_rewriter_params) (bv_rw : bv_params).
Context (get_id : expr -> Z) (ref_count : expr -> nat).
Context (mk_conversion : func_decl -> list expr -> br_status).

Definition flat_assoc (f : func_decl) : bool :=
  th_flat params
  && match kind f with
     | Basic (OP_AND | OP_OR) => true
     | Bv (OP_BADD | OP_BOR | OP_BAND | OP_BXOR) => true
     | _ => false
     end.

Definition max_steps_exceeded (num_steps : nat) : bool := Nat.ltb (m_max_steps params) num_steps.

(** ** Equations with a bit *)

(** An equation between a vector of one bit and a numeral: the vector, the value. *)
Definition is_eq_bit (t : expr) : option (expr * Z) :=
  if is_eq t && is_bv (get_arg t 0) && Nat.eqb (get_bv_size (get_arg t 0)) 1 then
    let lhs := get_arg t 0 in
    let rhs := get_arg t 1 in
    match is_numeral lhs with
    | Some (v, _) => Some (rhs, v)
    | None => '(v, _) ← is_numeral rhs; Some (lhs, v)
    end
  else None.

(** (= (= x bit) A) --> (= x (ite A bit (1 - bit))) *)
Definition apply_tamagotchi (lhs rhs : expr) : br_status :=
  let bit x val a := BR_REWRITE2 (m_mk_eq x (m_mk_ite a (mk_numeral val 1) (mk_numeral (1 - val) 1))) in
  match is_eq_bit lhs with
  | Some (x, val) => bit x val rhs
  | None => match is_eq_bit rhs with
            | Some (x, val) => bit x val lhs
            | None => BR_FAILED
            end
  end.

(** ** The rules of the families *)

Definition reduce_eq (a b : expr) : br_status :=
  br_else (if is_bv a then rw_eq bv_rw a b else BR_FAILED)
    (apply_tamagotchi a b).
Definition reduce_ite (c t e : expr) : br_status :=
  if is_bv t then rw_ite bv_rw c t e else BR_FAILED.

Definition reduce_app_core (f : func_decl) (args : list expr) : res br_status :=
  match kind f with
  | NullFid => Ok BR_FAILED
  | Basic k =>
      let st := match k, args with
                | OP_EQ, [a; b] => reduce_eq a b
                | OP_ITE, [c; t; e] => reduce_ite c t e
                | _, _ => BR_FAILED
                end in
      Ok (br_else st (BoolRewriter.mk_app_core b_rw get_id f args))
  | Bv k => BvRewriter.mk_app_core bv_rw get_id ref_count mk_conversion f k args
  end.

(** ** Pulling an if-then-else out of an application *)

Definition mk_eq_value (lhs value : expr) : expr :=
  if are_equal lhs value then m_true
  else if are_distinct lhs value then m_false
  else m_mk_eq lhs value.

Definition pull_ite_core (swap : bool) (p : func_decl) (ite value : expr) : br_status :=
  let app x :=
    match kind p with
    | Basic OP_EQ => mk_eq_value x value
    | _ => if swap then App p [value; x] else App p [x; value]
    end in
  BR_REWRITE2 (m_mk_ite (get_arg ite 0) (app (get_arg ite 1)) (app (get_arg ite 2))).

(** A tree of choices with values at the leaves; the inner ones are not shared. *)
Fixpoint is_ite_value_tree (t : expr) : bool :=
  match t with
  | App d [_; arg1; arg2] =>
      let subtree arg :=
        if is_ite arg && Nat.eqb (ref_count arg) 1 then is_ite_value_tree arg else is_value arg in
      bool_decide (kind d = Basic OP_ITE) && subtree arg1 && subtree arg2
  | _ => false
  end.

(** For a predicate that is not about formulas. *)
Definition pull_ite_pred (f : func_decl) (a0 a1 : expr) : br_status :=
  if is_ite a0 && is_value a1 then pull_ite_core false f a0 a1
  else if is_ite a0 && is_ite a1 && bool_decide (get_arg a0 0 = get_arg a1 0) then
    BR_REWRITE2 (m_mk_ite (get_arg a0 0) (App f [get_arg a0 1; get_arg a1 1]) (App f [get_arg a0 2; get_arg a1 2]))
  else if is_ite a1 && is_value a0 then pull_ite_core true f a1 a0
  else BR_FAILED.

Definition pull_ite (f : func_decl) (args : list expr) : br_status :=
  match args with
  | [a0; a1] =>
      br_else (if is_bool_sort (range f) && negb (is_bool a0) then pull_ite_pred f a0 a1 else BR_FAILED)
        (if bool_decide (kind f = NullFid) then BR_FAILED
         else if is_value a0 && is_ite_value_tree a1 then pull_ite_core true f a1 a0
         else if is_value a1 && is_ite_value_tree a0 then pull_ite_core false f a0 a1
         else BR_FAILED)
  | _ => BR_FAILED
  end.

(** On a result. *)
Definition pull_ite_result (result : expr) : br_status :=
  match result with
  | App d args => br_else (pull_ite d args) (BR_DONE result)
  | Var _ _ => BR_DONE result
  end.

(** ** Pushing an if-then-else into an application *)

Definition is_arith_bv_app (t : expr) : bool :=
  match t with
  | App d _ => match kind d with Bv _ => m_push_ite_bv params | _ => false end
  | Var _ _ => false
  end.

Definition get_neutral_elem (t : expr) : option expr :=
  if is_bv_add t then Some (mk_numeral 0 (get_bv_size t))
  else if is_bv_mul t then Some (mk_numeral 1 (get_bv_size t))
  else None.

(** Binary operators that the plugin marks commutative. *)
Definition is_commutative (f : func_decl) : bool :=
  match kind f with
  | Bv k => match bv_signature k with Some (_, BinaryOp true) | Some (_, CompOp) => true | _ => false end
  | _ => false
  end.

(** [t1] and [t2] as applications of one operator to a common argument: what is
    left of each, the common argument, and whether it comes first. *)
Definition unify_core (t1 t2 : expr) : option (expr * expr * expr * bool) :=
  match t1 with
  | App d1 [a1; b1] =>
      if bool_decide (t2 = b1) then n ← get_neutral_elem t1; Some (a1, n, b1, false)
      else if bool_decide (t2 = a1) then n ← get_neutral_elem t1; Some (b1, n, a1, true)
      else match t2 with
      | App d2 [a2; b2] =>
          if negb (bool_decide (d2 = d1)) then None
          else if bool_decide (b1 = b2) then Some (a1, a2, b2, false)
          else if bool_decide (a1 = a2) then Some (b1, b2, a1, true)
          else if is_commutative d1 && bool_decide (a1 = b2) then Some (b1, a2, a1, true)
          else if is_commutative d1 && bool_decide (b1 = a2) then Some (a1, b2, b1, false)
          else None
      | _ => None
      end
  | _ => None
  end.

(** With the operator first. *)
Definition unify (t1 t2 : expr) : option (func_decl * (expr * expr * expr * bool)) :=
  if is_arith_bv_app t1 then
    match t1 with App f _ => u ← unify_core t1 t2; Some (f, u) | Var _ _ => None end
  else if is_arith_bv_app t2 then
    match t2 with
    | App f _ => '(new_t2, new_t1, c, first) ← unify_core t2 t1; Some (f, (new_t1, new_t2, c, first))
    | Var _ _ => None
    end
  else None.

(** (ite c (+ k1 a) (+ k2 a)) --> (+ (ite c k1 k2) a) *)
Definition push_ite (f : func_decl) (args : list expr) : br_status :=
  match kind f, args with
  | Basic OP_ITE, [c; t; e] =>
      match unify t e with
      | Some (f_prime, (new_t, new_e, common, first)) =>
          let ite := m_mk_ite c new_t new_e in
          BR_DONE (App f_prime (if (first : bool) then [common; ite] else [ite; common]))
      | None => BR_FAILED
      end
  | _, _ => BR_FAILED
  end.

(** On a result. *)
Definition push_ite_result (result : expr) : br_status :=
  match result with
  | App d args => br_else (push_ite d args) (BR_DONE result)
  | Var _ _ => BR_DONE result
  end.

(** ** The configuration *)

Definition log_rewrite_axiom_instantiation (f : func_decl) (args : list expr) (st : br_status) (s : th_state)
    : th_state :=
  match m_trace s, br_result st with
  | Some tr, Some result => mk_th_state (m_subst s) (m_used_dependencies s) (Some (tr ++ [(App f args, result)]))
  | _, _ => s
  end.

(** What follows the rules: first [push_ite], then [pull_ite]. *)
Definition reduce_more (f : func_decl) (args : list expr) (st : br_status) : br_status :=
  match st with
  | BR_REWRITE1 _ | BR_REWRITE2 _ | BR_REWRITE3 _ | BR_REWRITE_FULL _ => st
  | _ =>
      let st :=
        if m_push_ite_bv params || m_push_ite_arith params then
          match st with BR_DONE result => push_ite_result result | _ => push_ite f args end
        else st in
      if m_pull_cheap_ite params then
        match st with BR_DONE result => pull_ite_result result | _ => pull_ite f args end
      else st
  end.

Definition reduce_app (f : func_decl) (args : list expr) (s : th_state) : res (th_state * br_status) :=
  st ← reduce_app_core f args;
  Ok (log_rewrite_axiom_instantiation f args st s, reduce_more f args st).

(** [th_rewriter_cfg::mk_app]. *)
Definition th_mk_app (f : func_decl) (args : list expr) (s : th_state) : res (th_state * expr) :=
  '(s, st) ← reduce_app f args s;
  Ok (s, default (App f args) (br_result st)).

(** The replacement of a term. *)
Definition find_subst (t : expr) (s : th_state) : option (expr * list expr) := sub ← m_subst s; es_find t sub.
Definition get_subst (t : expr) (s : th_state) : option (expr * th_state) :=
  '(r, d) ← find_subst t s;
  Some (r, mk_th_state (m_subst s) (m_used_dependencies s ++ d) (m_trace s)).

Definition th_rewriter_cfg : RewriterCfg th_state := {|
  cfg_reduce_app := reduce_app;
  cfg_reduce_var _ _ _ := None;
  cfg_get_subst := get_subst;
  cfg_pre_visit _ _ := true;
  cfg_flat_assoc f _ := flat_assoc f;
  cfg_cache_all_results _ := m_cache_all params;
  cfg_cache_results _ := true;
  cfg_max_frames_exceeded _ _ := false;
  cfg_max_steps_exceeded n _ := max_steps_exceeded n
|}.
#[local] Existing Instance th_rewriter_cfg.

(** ** The rewriter *)

Definition th_rewriter := rewriter (C := th_state).
Context (counts : th_rewriter -> expr -> nat).

Definition new_th_rewriter (trace : option (list (expr * expr))) : th_rewriter :=
  initial_rewriter (mk_th_state None [] trace).
Definition simplify (fuel : nat) (t : expr) (rw : th_rewriter) : res (expr * th_rewriter) :=
  rewrite counts fuel t rw.
Definition set_substitution (s : option expr_substitution) (rw : th_rewriter) : th_rewriter :=
  set_cfg (mk_th_state s (m_used_dependencies (m_cfg rw)) (m_trace (m_cfg rw))) (Rewriter.reset rw).
Definition th_reset (rw : th_rewriter) : th_rewriter := set_substitution None rw.
(** A new machine. *)
Definition th_cleanup (rw : th_rewriter) : th_rewriter := new_th_rewriter (m_trace (m_cfg rw)).

Definition get_used_dependencies (rw : th_rewriter) : list expr := m_used_dependencies (m_cfg rw).
(** The cache may depend on them. *)
Definition reset_used_dependencies (rw : th_rewriter) : th_rewriter :=
  match get_used_dependencies rw with
  | [] => rw
  | _ => let rw := set_substitution (m_subst (m_cfg rw)) rw in
         set_cfg (mk_th_state (m_subst (m_cfg rw)) [] (m_trace (m_cfg rw))) rw
  end.

(** The owner of the substitution changes it behind the pointer; the rewriter
    keeps its cache. *)
Definition change_substitution (f : expr_substitution -> expr_substitution) (rw : th_rewriter) : th_rewriter :=
  set_cfg (mk_th_state (f <$> m_subst (m_cfg rw)) (m_used_dependencies (m_cfg rw)) (m_trace (m_cfg rw))) rw.
End Rewriter.

(** The defaults: no limit on the steps is ever met. *)
Definition default_th_params (max_steps : nat) : th_params := {|
  th_flat := true;
  m_max_steps := max_steps;
  m_pull_cheap_ite := false;
  m_cache_all := false;
  m_push_ite_arith := false;
  m_push_ite_bv := false
|}.
