(* ===== verification/ThRewriterOk.v ===== *)
(** th_rewriter is correct: each of its rules replaces an application by a term
    of the same sort and value, and so does the machine over them. *)
From S2P Require Import Prelude Text Bits Ast AstSem AstFacts BoolRewriter BoolRewriterOk BvPlugin BvFacts PolyRewriter PolyRewriterOk BvRewriterLeq BvRewriterLeqOk BvRewriterTerms BvRewriterTermsOk BvRewriterXorOk BvRewriterEq BvRewriterEqOk BvRewriter BvRewriterOk Rewriter RewriterOk ThRewriter.

(** ** Replacing an argument *)

Lemma wf_replace f l x y r :
  wf (App f (l ++ x :: r)) = true -> wf y = true -> get_sort y = get_sort x -> wf (App f (l ++ y :: r)) = true.
Proof.
  rewrite !wf_app, !map_app. cbn [map]. intros (Hs & Hp & Ha) Hy ->. split_and!; [done..|].
  rewrite Forall_app, Forall_cons in *. tauto.
Qed.

Lemma eval_replace I f l x y r : eval I y = eval I x -> eval I (App f (l ++ y :: r)) = eval I (App f (l ++ x :: r)).
Proof. intros Hxy. cbn. by rewrite !map_app; cbn; rewrite Hxy. Qed.

(** An argument that is a choice makes the application one. *)
Lemma app_choice I f l c x y z r :
  wf (App f (l ++ z :: r)) = true -> wf x = true -> wf y = true -> wfb c = true ->
  get_sort x = get_sort z -> get_sort y = get_sort z ->
  eval I z = (if tr I c then eval I x else eval I y) ->
  wf (App f (l ++ x :: r)) = true /\ wf (App f (l ++ y :: r)) = true
  /\ eval I (App f (l ++ z :: r)) = (if tr I c then eval I (App f (l ++ x :: r)) else eval I (App f (l ++ y :: r))).
Proof.
  intros Hw Hx Hy Hc Hsx Hsy Hz. split; [by eapply wf_replace|]. split; [by eapply wf_replace|].
  destruct (tr I c); by apply eval_replace.
Qed.

Lemma choice_app_means I f l c x y z r :
  wf (App f (l ++ z :: r)) = true -> wf x = true -> wf y = true -> wfb c = true ->
  get_sort x = get_sort z -> get_sort y = get_sort z ->
  eval I z = (if tr I c then eval I x else eval I y) ->
  means I (range f) (eval I (App f (l ++ z :: r))) (m_mk_ite c (App f (l ++ x :: r)) (App f (l ++ y :: r))).
Proof.
  intros Hw Hx Hy Hc Hsx Hsy Hz. destruct (app_choice I f l c x y z r) as (Hwx & Hwy & ->); try done.
  by apply (means_ite I c (App f (l ++ x :: r)) (App f (l ++ y :: r))).
Qed.

Section Rules.
Context (I : interp) (params : th_params) (b_rw : bool_rewriter_params) (bv_rw : bv_params).
Context (get_id : expr -> Z) (ref_count : expr -> nat).
Context (mk_conversion : func_decl -> list expr -> br_status).
Local Abbreviation eval := (eval I).
Local Abbreviation tr := (tr I).
Local Abbreviation uv := (uv I).

(** ** Equations with a bit *)

Lemma is_eq_bit_ok t x v :
  wf t = true -> is_eq_bit t = Some (x, v) ->
  wfb t = true /\ vec 1 x /\ (v = 0 \/ v = 1) /\ tr t = (uv x =? v).
Proof.
  intros Hw. unfold is_eq_bit. destruct (is_eq t && is_bv (get_arg t 0) && _) eqn:Hc; [|done].
  apply andb_true_iff in Hc as [Hc H1%Nat.eqb_eq]. apply andb_true_iff in Hc as [Heq Hbv].
  destruct (eq_inv I t Heq Hw) as (a & b & Ea & Eb & _ & Ha & Hb & Hs & Hh & Ht). rewrite Ea, Eb in *.
  unfold is_bv, get_bv_size in *. destruct (get_sort a) as [|n|] eqn:Hsa; try done. cbn [sort_bv_size] in H1. subst n.
  assert (vec 1 a /\ vec 1 b) as [Hva Hvb] by done.
  assert (tr t = (uv a =? uv b)) as Htr.
  { rewrite Ht. apply eq_true_iff_eq. rewrite bool_decide_eq_true, Z.eqb_eq. by apply (vec_eq I 1). }
  assert (forall e w m, vec 1 e -> is_numeral e = Some (w, m) -> uv e = w /\ (w = 0 \/ w = 1)) as Hnum.
  { intros e w m He Hn. destruct (numeral_vec I _ _ _ _ Hn He) as (_ & Hr & Hu). change (pow2 1) with 2 in Hr. split; [done|lia]. }
  destruct (is_numeral a) as [[w m]|] eqn:Hna.
  - intros [= <- <-]. destruct (Hnum a w m Hva Hna) as [Hu ?]. split_and!; [by eapply holds_wfb|done..|].
    by rewrite Htr, Hu, Z.eqb_sym.
  - destruct (is_numeral b) as [[w m]|] eqn:Hnb; [|done]. intros [= <- <-].
    destruct (Hnum b w m Hvb Hnb) as [Hu ?]. split_and!; [by eapply holds_wfb|done..|]. by rewrite Htr, Hu.
Qed.

Lemma bit_formula x v a :
  vec 1 x -> v = 0 \/ v = 1 -> wfb a = true ->
  holds I (Bool.eqb (uv x =? v) (tr a)) (m_mk_eq x (m_mk_ite a (mk_numeral v 1) (mk_numeral (1 - v) 1))).
Proof.
  intros Hx Hv Ha. pose proof (den_numeral I 1 v ltac:(lia)) as D1. pose proof (den_numeral I 1 (1 - v) ltac:(lia)) as D2.
  pose proof (den_ite I 1 a _ _ Ha (den_vec _ _ _ _ D1) (den_vec _ _ _ _ D2)) as D.
  eapply holds_val; [apply (vec_eq_holds I 1); [done|by eapply den_vec]|].
  rewrite (den_uv I _ _ _ D), (den_uv I _ _ _ D1), (den_uv I _ _ _ D2).
  destruct (one_bit I x Hx) as [-> | ->], Hv as [-> | ->], (AstFacts.tr I a); reflexivity.
Qed.

Lemma apply_tamagotchi_ok a b :
  wf a = true -> wf b = true -> get_sort a = get_sort b ->
  br_holds I (bool_decide (eval a = eval b)) (apply_tamagotchi a b).
Proof.
  intros Ha Hb Hs. unfold apply_tamagotchi.
  destruct (is_eq_bit a) as [[x v]|] eqn:Hea.
  { destruct (is_eq_bit_ok a x v Ha Hea) as (Hwa & Hx & Hv & Ht). assert (wfb b = true) as Hwb.
    { apply wfb_spec in Hwa as [_ Hsa]. apply wfb_spec. split; [done|congruence]. }
    rewrite (eq_bool I a b Hwa Hwb), Ht. by apply rewrite2_holds, bit_formula. }
  destruct (is_eq_bit b) as [[x v]|] eqn:Heb; [|done].
  destruct (is_eq_bit_ok b x v Hb Heb) as (Hwb & Hx & Hv & Ht). assert (wfb a = true) as Hwa.
  { apply wfb_spec in Hwb as [_ Hsb]. apply wfb_spec. split; [done|congruence]. }
  rewrite (eq_bool I a b Hwa Hwb), Ht. apply rewrite2_holds.
  replace (Bool.eqb _ _) with (Bool.eqb (uv x =? v) (tr a)) by (by destruct (_ =? _), (tr a)). by apply bit_formula.
Qed.

(** ** The rules of the families *)

Lemma reduce_eq_ok a b :
  wf a = true -> wf b = true -> get_sort a = get_sort b ->
  br_holds I (bool_decide (eval a = eval b)) (reduce_eq bv_rw a b).
Proof.
  intros Ha Hb Hs. apply br_else_means; [|by apply apply_tamagotchi_ok].
  unfold is_bv. destruct (get_sort a) as [|n|] eqn:Hsa; try done. cbn [is_bv_sort].
  eapply br_ext; [by apply (rw_eq_ok I bv_rw n)|].
  apply eq_true_iff_eq. rewrite bool_decide_eq_true, Z.eqb_eq. symmetry. by apply (vec_eq I n).
Qed.

Lemma reduce_app_core_ok f args st :
  m_hi_div0 bv_rw = true -> wf (App f args) = true ->
  kind f ∉ [Bv OP_BSMUL_NO_OVFL; Bv OP_BV2INT; Bv OP_INT2BV] ->
  reduce_app_core b_rw bv_rw get_id ref_count mk_conversion f args = Ok st ->
  br_means I (range f) (eval (App f args)) st.
Proof.
  intros Hdiv Hw Hk Hst. unfold reduce_app_core in Hst. destruct (kind f) as [k|k|] eqn:Hkf.
  - injection Hst as <-. apply br_else_means; [|by apply BoolRewriterOk.mk_app_core_ok].
    pose proof Hw as (Hs & _ & Ha)%wf_app. unfold op_sort in Hs. rewrite Hkf in Hs.
    cbn [AstSem.eval]. unfold decl_apply. rewrite Hkf.
    destruct k; try done; destruct args as [|a [|b [|c [|]]]]; try done; cbn [map basic_sort] in Hs.
    + case_decide; [|done]. injection Hs as <-. apply Forall_cons in Ha as [Ha Hb]. apply Forall_cons in Hb as [Hb _].
      by apply reduce_eq_ok.
    + destruct (get_sort a) as [| |] eqn:Hsa; try done. case_decide; [|done]. injection Hs as <-.
      apply Forall_cons in Ha as [Ha Hb]. apply Forall_cons in Hb as [Hb Hc]. apply Forall_cons in Hc as [Hc _].
      unfold reduce_ite. destruct (is_bv b); [|done]. apply rw_ite_ok; [by apply wfb_spec|done..].
  - apply (bv_mk_app_core_ok I bv_rw get_id ref_count mk_conversion k f args st); try done. set_solver.
  - by injection Hst as <-.
Qed.

(** ** Pulling an if-then-else out *)

Lemma mk_eq_value_ok x v :
  wf x = true -> wf v = true -> get_sort x = get_sort v -> holds I (bool_decide (eval x = eval v)) (mk_eq_value x v).
Proof.
  intros Hx Hv Hs. unfold mk_eq_value, are_equal. destruct (bool_decide (x = v)) eqn:Heq.
  { apply bool_decide_eq_true in Heq as <-. eapply holds_val; [apply holds_true|]. by rewrite bool_decide_eq_true_2. }
  destruct (are_distinct x v) eqn:Hd; [|by apply holds_eq].
  eapply holds_val; [apply holds_false|]. symmetry. apply bool_decide_eq_false. by apply are_distinct_sound.
Qed.

(** The choice [ite] as the argument [z] of an application of [p]. *)
Lemma pull_ite_core_ok p l z v r (swap : bool) :
  (l, r) = (if swap then ([v], []) else ([], [v])) ->
  wf (App p (l ++ z :: r)) = true -> wf v = true -> is_ite z = true -> wf z = true ->
  br_means I (range p) (eval (App p (l ++ z :: r))) (pull_ite_core swap p z v).
Proof.
  intros Hlr Hw Hv Hi Hz. destruct (ite_inv I z Hi Hz) as (d & c & x & y & -> & Hc & Hx & Hy & Hsx & Hsy & Hev).
  unfold pull_ite_core. cbn [get_arg get_args nth].
  destruct (app_choice I p l c x y (App d [c; x; y]) r Hw Hx Hy Hc Hsx Hsy Hev) as (Hwx & Hwy & He).
  destruct (bool_decide (kind p = Basic OP_EQ)) eqn:Hk; [apply bool_decide_eq_true in Hk|apply bool_decide_eq_false in Hk].
  - rewrite Hk. pose proof Hw as (Hs & _ & _)%wf_app. unfold op_sort in Hs. rewrite Hk in Hs.
    assert (get_sort v = get_sort (App d [c; x; y]) /\ range p = BoolSort) as [Hsv Hr].
    { destruct swap; injection Hlr as -> ->; cbn [map app basic_sort] in Hs; case_decide; try done; split; congruence. }
    rewrite Hr. cbn [br_means].
    assert (forall u, wf u = true -> get_sort u = get_sort v ->
      eval (App p (l ++ u :: r)) = VBool (bool_decide (eval u = eval v))) as Heq.
    { intros u Hu Hsu. destruct swap; injection Hlr as -> ->; cbn; unfold decl_apply; rewrite Hk; cbn; f_equal.
      apply bool_decide_ext. naive_solver. }
    rewrite He, (Heq x), (Heq y) by (done || congruence).
    replace (if tr c then VBool _ else VBool _)
      with (VBool (if tr c then bool_decide (eval x = eval v) else bool_decide (eval y = eval v))) by (by destruct (tr c)).
    apply means_bool, holds_ite; [by apply holds_self|apply mk_eq_value_ok; congruence..].
  - assert (forall u, (match kind p with Basic OP_EQ => mk_eq_value u v
                       | _ => if swap then App p [v; u] else App p [u; v] end) = App p (l ++ u :: r)) as Happ.
    { intros u. replace (App p (l ++ u :: r)) with (if swap then App p [v; u] else App p [u; v])
        by (destruct swap; by injection Hlr as -> ->).
      destruct (kind p) as [[]| |]; done. }
    rewrite !Happ. cbn [br_means]. rewrite He.
    by apply (means_ite I c (App p (l ++ x :: r)) (App p (l ++ y :: r))).
Qed.

Lemma pull_first_ok f a0 a1 :
  wf (App f [a0; a1]) = true -> is_ite a0 = true ->
  br_means I (range f) (eval (App f [a0; a1])) (pull_ite_core false f a0 a1).
Proof.
  intros Hw Hi. pose proof Hw as (_ & _ & Ha)%wf_app. apply Forall_cons in Ha as [H0 Ha]. apply Forall_cons in Ha as [H1 _].
  by apply (pull_ite_core_ok f [] a0 a1 [a1]).
Qed.

Lemma pull_second_ok f a0 a1 :
  wf (App f [a0; a1]) = true -> is_ite a1 = true ->
  br_means I (range f) (eval (App f [a0; a1])) (pull_ite_core true f a1 a0).
Proof.
  intros Hw Hi. pose proof Hw as (_ & _ & Ha)%wf_app. apply Forall_cons in Ha as [H0 Ha]. apply Forall_cons in Ha as [H1 _].
  by apply (pull_ite_core_ok f [a0] a1 a0 []).
Qed.

Lemma value_tree_ite t : is_ite_value_tree ref_count t = true -> is_ite t = true.
Proof.
  destruct t as [|d [|c [|x [|y []]]]]; try done. cbn [is_ite_value_tree].
  by intros [[Hk _]%andb_true_iff _]%andb_true_iff.
Qed.

(** Two choices on the same condition. *)
Lemma pull_both_ok f a0 a1 :
  wf (App f [a0; a1]) = true -> is_ite a0 = true -> is_ite a1 = true -> get_arg a0 0 = get_arg a1 0 ->
  means I (range f) (eval (App f [a0; a1]))
    (m_mk_ite (get_arg a0 0) (App f [get_arg a0 1; get_arg a1 1]) (App f [get_arg a0 2; get_arg a1 2])).
Proof.
  intros Hw H0 H1. pose proof Hw as (_ & _ & Ha)%wf_app. apply Forall_cons in Ha as [Hw0 Ha]. apply Forall_cons in Ha as [Hw1 _].
  destruct (ite_inv I a0 H0 Hw0) as (d & c & x & y & -> & Hc & Hx & Hy & Hsx & Hsy & Hev).
  destruct (ite_inv I a1 H1 Hw1) as (d' & c' & x' & y' & -> & Hc' & Hx' & Hy' & Hsx' & Hsy' & Hev').
  cbn [get_arg get_args nth]. intros <-. set (z := App d [c; x; y]) in *. set (z' := App d' [c; x'; y']) in *.
  assert (wf (App f [x; x']) = true) as Hwx.
  { apply (wf_replace f [x] z' x' []); try done. by apply (wf_replace f [] z x [z']). }
  assert (wf (App f [y; y']) = true) as Hwy.
  { apply (wf_replace f [y] z' y' []); try done. by apply (wf_replace f [] z y [z']). }
  assert (eval (App f [z; z']) = (if tr c then eval (App f [x; x']) else eval (App f [y; y']))) as ->.
  { cbn [AstSem.eval map] in *. rewrite Hev, Hev'. by destruct (AstFacts.tr I c). }
  by apply (means_ite I c (App f [x; x']) (App f [y; y'])).
Qed.

Lemma pull_ite_ok f args :
  wf (App f args) = true -> br_means I (range f) (eval (App f args)) (pull_ite ref_count f args).
Proof.
  intros Hw. destruct args as [|a0 [|a1 [|]]]; try done. cbn [pull_ite]. apply br_else_means.
  - destruct (_ && _); [|done]. unfold pull_ite_pred. destruct (is_ite a0) eqn:H0, (is_ite a1) eqn:H1; cbn [andb].
    + destruct (is_value a1); [by apply pull_first_ok|]. destruct (bool_decide _) eqn:Hc.
      * apply bool_decide_eq_true in Hc. by apply pull_both_ok.
      * destruct (is_value a0); [by apply pull_second_ok|done].
    + destruct (is_value a1); [by apply pull_first_ok|done].
    + destruct (is_value a0); [by apply pull_second_ok|done].
    + done.
  - destruct (bool_decide _); [done|]. destruct (is_value a0 && _) eqn:H1.
    { apply andb_true_iff in H1 as [_ H1%value_tree_ite]. by apply pull_second_ok. }
    destruct (is_value a1 && _) eqn:H0; [|done]. apply andb_true_iff in H0 as [_ H0%value_tree_ite]. by apply pull_first_ok.
Qed.

(** ** Pushing an if-then-else in *)

(** An argument of a binary operator of the family fixes the sort of the other. *)
Lemma binary_sorts d k ss ss' r :
  bv_sort d k ss = Some r -> bv_sort d k ss' = Some r -> length ss = 2%nat -> length ss' = 2%nat ->
  (nth 0 ss BoolSort = nth 0 ss' BoolSort \/ nth 1 ss BoolSort = nth 1 ss' BoolSort) -> ss = ss'.
Proof.
  destruct ss as [|s1 [|s2 []]]; try done. destruct ss' as [|t1 [|t2 []]]; try done. cbn [nth]. intros H1 H2 _ _ Hst.
  assert (forall s t, all_same s [t] = true -> t = s) as Hsame.
  { intros s t. cbn. rewrite andb_true_r. by intros ?%bool_decide_eq_true. }
  assert (bv_uniform_sort k [s1; s2] = Some r -> bv_uniform_sort k [t1; t2] = Some r -> [s1; s2] = [t1; t2]) as Huni.
  { unfold bv_uniform_sort. intros U1 U2. destruct s1; try done. destruct t1; try done.
    destruct (all_same _ [s2]) eqn:E1; [|done]. destruct (all_same _ [t2]) eqn:E2; [|done].
    apply Hsame in E1 as ->. apply Hsame in E2 as ->. by destruct Hst as [[= ->]|[= ->]]. }
  assert ((if decide ([s1; s2] = domain d) then Some (range d) else None) = Some r ->
    (if decide ([t1; t2] = domain d) then Some (range d) else None) = Some r -> [s1; s2] = [t1; t2]) as Hdom.
  { do 2 (case_decide; [|done]). congruence. }
  destruct k; try (by apply Huni); try (by apply Hdom);
    cbn [bv_sort is_uniform is_structural bv_binary bv_assoc bv_pred] in H1, H2;
    try (repeat (case_match; try done); simplify_eq/=; done).
  - destruct (_ && _) eqn:E1 in H1; [|done]. destruct (_ && _) eqn:E2 in H2; [|done].
    apply andb_true_iff in E1 as [_ ->%bool_decide_eq_true], E2 as [_ E2%bool_decide_eq_true].
    by apply (f_equal domain) in E2.
  - destruct s1 as [|n1|]; try done. destruct s2 as [|n2|]; try done. destruct t1 as [|m1|]; try done.
    destruct t2 as [|m2|]; try done. destruct (Nat.eqb_spec n1 n2) as [->|]; [|done].
    destruct (Nat.eqb_spec m1 m2) as [->|]; [|done]. by destruct Hst as [[= ->]|[= ->]].
  - destruct (all_same _ [s1; s2]) eqn:E1; [|done]. destruct (all_same _ [t1; t2]) eqn:E2; [|done].
    cbn in E1, E2. rewrite andb_true_r in E1, E2.
    by apply andb_true_iff in E1 as [->%bool_decide_eq_true ->%bool_decide_eq_true], E2 as [->%bool_decide_eq_true ->%bool_decide_eq_true].
Qed.

Lemma zip_symmetric {A B} (f : A -> A -> B) l l' : (forall x y, f x y = f y x) -> zip_with f l l' = zip_with f l' l.
Proof. intros Hf. revert l'. induction l as [|x l IH]; intros [|y l']; try done. cbn. by rewrite Hf, IH. Qed.

Lemma unsigned_symmetric f x y : (forall u v, f u v = f v u) -> length x = length y -> unsigned_op f x y = unsigned_op f y x.
Proof. intros Hf Hl. unfold unsigned_op. by rewrite Hf, Hl. Qed.

Lemma commutes d a b :
  is_commutative d = true -> wf (App d [a; b]) = true ->
  get_sort a = get_sort b /\ eval (App d [b; a]) = eval (App d [a; b]).
Proof.
  intros Hc Hw. unfold is_commutative in Hc. destruct (kind d) as [|k|] eqn:Hk; try done.
  destruct (bv_inv (App d [a; b]) k) as (d' & args & [= <- <-] & _ & Hs & Ha); [by apply bool_decide_eq_true|done|].
  assert (is_uniform k = true -> get_sort a = get_sort b /\ exists n, vec n a /\ vec n b) as Hu.
  { intros Hu. destruct (uniform_sort_inv k d [a; b] Hu Hs Ha) as (n & x & rest & [= <- <-] & Hx & Hr & _).
    apply Forall_cons in Hr as [Hy _]. split; [destruct Hx, Hy; congruence|by exists n]. }
  assert (forall f, bv_binary k = None -> bv_assoc k = Some f -> (forall x y, length x = length y -> f x y = f y x) ->
    get_sort a = get_sort b /\ eval (App d [b; a]) = eval (App d [a; b])) as Hassoc.
  { intros f Hb Hf Hcomm. assert (is_uniform k = true) as Huk by (unfold is_uniform; by rewrite Hb, Hf).
    destruct (Hu Huk) as (Hsab & n & Hx & Hy). split; [done|].
    rewrite !(eval_uniform_app I d k) by done. unfold bv_uniform. rewrite Hb, Hf. cbn. f_equal. apply Hcomm.
    destruct (vec_bits I n a Hx) as [_ ->], (vec_bits I n b Hy) as [_ ->]. done. }
  destruct k; try discriminate Hc.
  - apply (Hassoc _ eq_refl eq_refl). intros x y. apply unsigned_symmetric, Z.add_comm.
  - apply (Hassoc _ eq_refl eq_refl). intros x y. apply unsigned_symmetric, Z.mul_comm.
  - apply (Hassoc _ eq_refl eq_refl). intros x y _. apply zip_symmetric. by intros [] [].
  - apply (Hassoc _ eq_refl eq_refl). intros x y _. apply zip_symmetric. by intros [] [].
  - apply (Hassoc _ eq_refl eq_refl). intros x y _. apply zip_symmetric. by intros [] [].
  - apply (Hassoc _ eq_refl eq_refl). intros x y _. apply zip_symmetric. by intros [] [].
  - cbn in Hs. destruct (get_sort a) as [|n|]; try done. destruct (get_sort b) as [|m|]; try done.
    destruct (Nat.eqb_spec n m) as [->|]; [|done]. split; [done|]. cbn. unfold decl_apply. rewrite Hk. cbn. do 3 f_equal.
    apply bool_decide_ext. naive_solver.
Qed.

(** The application of [d] to [x] and the common argument. *)
Definition with_common (d : func_decl) (c : expr) (first : bool) (x : expr) : expr :=
  App d (if first then [c; x] else [x; c]).

(** [x] stands for [t] as an argument next to the common one. *)
Definition stands_for (d : func_decl) (c : expr) (first : bool) (x t : expr) : Prop :=
  wf (with_common d c first x) = true /\ eval (with_common d c first x) = eval t.

Lemma stands_self d c (first : bool) x :
  wf (App d (if first then [c; x] else [x; c])) = true ->
  stands_for d c first x (App d (if first then [c; x] else [x; c])).
Proof. done. Qed.

Lemma stands_swapped d c (first : bool) x :
  is_commutative d = true -> wf (App d (if first then [x; c] else [c; x])) = true ->
  stands_for d c first x (App d (if first then [x; c] else [c; x])).
Proof.
  intros Hc Hw. unfold stands_for, with_common. destruct first; destruct (commutes d _ _ Hc Hw) as [Hs He]; (split; [|done]);
    pose proof Hw as (Hop & Hp & Ha)%wf_app; rewrite wf_app; cbn [map] in *; rewrite Hs in *;
    (split_and!; [done|done|]); apply Forall_cons in Ha as [Ha Hb]; apply Forall_cons in Hb as [Hb _]; by repeat constructor.
Qed.

Lemma neutral_stands t n d c (first : bool) x :
  get_neutral_elem t = Some n -> t = App d (if first then [c; x] else [x; c]) -> wf t = true ->
  stands_for d c first n c /\ get_sort n = get_sort x.
Proof.
  intros Hn -> Hw. assert (forall k g u, AssocOp k g u -> (forall v, g u v = v) -> kind d = Bv k ->
    n = mk_numeral u (get_bv_size (App d (if first then [c; x] else [x; c]))) ->
    stands_for d c first n c /\ get_sort n = get_sort x) as Hop.
  { intros k g u Hop Hleft Hk ->.
    destruct (assoc_inv I (k := k) (App d (if first then [c; x] else [x; c]))) as (m & d' & args & [= <- <-] & _ & Hv & _ & Hargs & Hd);
      [by apply bool_decide_eq_true|done|].
    rewrite (vec_size m) by done. pose proof (vec_pos _ _ Hv) as Hm. pose proof (den_numeral I m u Hm) as Du.
    pose proof (den_vec _ _ _ _ Du) as Hvu. set (n := mk_numeral u m) in *.
    assert (vec m c /\ vec m x) as [Hvc Hvx]
      by (destruct first; apply Forall_cons in Hargs as [? Hargs]; apply Forall_cons in Hargs as [? _]; done).
    assert (get_sort n = get_sort x) as Hsn by (destruct Hvu as [_ ->], Hvx as [_ ->]; done). split; [|done].
    assert (wf (with_common d c first n) = true) as Hwn.
    { unfold with_common. destruct first; [apply (wf_replace d [c] x n [])|apply (wf_replace d [] x n [c])]; done || apply Hvu. }
    split; [done|].
    destruct (assoc_inv I (k := k) (with_common d c first n)) as (m' & d' & args & [= <- <-] & _ & Hv' & _ & Hargs' & Hd');
      [by apply bool_decide_eq_true|done|].
    assert (m' = m) as ->.
    { destruct Hv as [_ Hv], Hv' as [_ Hv']. cbn in Hv, Hv'. congruence. }
    apply (vec_eq I m); [done..|]. rewrite (den_uv I _ _ _ Hd'). rewrite <- (Z.mod_small (uv c) (pow2 m)) by (by apply uv_range).
    change (eqm m (foldr g u (map uv (if first then [c; n] else [n; c]))) (uv c)).
    assert (eqm m (uv n) u) as Hun by (rewrite (den_uv I _ _ _ Du); apply eqm_mod).
    destruct first; cbn [map foldr].
    - transitivity (g (uv c) u); [|by rewrite (ao_unit (k := k) (g := g) (u := u))].
      apply (op_eqm (k := k) (g := g) (u := u)); [done|]. by rewrite (ao_unit (k := k) (g := g) (u := u)).
    - transitivity (g u (uv c)); [|by rewrite Hleft].
      apply (op_eqm (k := k) (g := g) (u := u)); [done|]. by rewrite (ao_unit (k := k) (g := g) (u := u)). }
  unfold get_neutral_elem in Hn. destruct (is_bv_add _) eqn:Hadd.
  { injection Hn as <-. apply (Hop OP_BADD Z.add 0 _); [done|by apply bool_decide_eq_true in Hadd|done]. }
  destruct (is_bv_mul _) eqn:Hmul; [|done]. injection Hn as <-.
  apply (Hop OP_BMUL Z.mul 1 _); [intros; lia|by apply bool_decide_eq_true in Hmul|done].
Qed.

Lemma stands_wf d c (first : bool) x t : stands_for d c first x t -> wf x = true.
Proof.
  intros [(_ & _ & Ha)%wf_app _]. destruct first; apply Forall_cons in Ha as [? Ha]; by apply Forall_cons in Ha as [? _].
Qed.

Lemma stands_sorts d k c (first : bool) x y t u :
  kind d = Bv k -> stands_for d c first x t -> stands_for d c first y u -> get_sort x = get_sort y.
Proof.
  intros Hk [(Hx & _ & _)%wf_app _] [(Hy & _ & _)%wf_app _]. unfold op_sort in Hx, Hy. rewrite Hk in Hx, Hy.
  pose proof (binary_sorts d k _ _ _ Hx Hy) as Hs. destruct first; cbn [map length nth] in Hs; specialize (Hs eq_refl eq_refl);
    [specialize (Hs (or_introl eq_refl))|specialize (Hs (or_intror eq_refl))]; congruence.
Qed.

Lemma unify_core_ok d k args t2 n1 n2 c first :
  kind d = Bv k -> wf (App d args) = true -> wf t2 = true -> 
  unify_core (App d args) t2 = Some (n1, n2, c, first) ->
  stands_for d c first n1 (App d args) /\ stands_for d c first n2 t2.
Proof.
  intros Hk Hw1 Hw2 Hu. destruct args as [|a1 [|b1 []]]; try done. cbn [unify_core] in Hu.
  destruct (bool_decide (t2 = b1)) eqn:E1; [apply bool_decide_eq_true in E1 as ->|clear E1].
  { destruct (get_neutral_elem _) as [n|] eqn:Hn; [|done]. injection Hu as <- <- <- <-.
    split; [done|]. by apply (neutral_stands _ n d b1 false a1 Hn). }
  destruct (bool_decide (t2 = a1)) eqn:E2; [apply bool_decide_eq_true in E2 as ->|clear E2].
  { destruct (get_neutral_elem _) as [n|] eqn:Hn; [|done]. injection Hu as <- <- <- <-.
    split; [done|]. by apply (neutral_stands _ n d a1 true b1 Hn). }
  destruct t2 as [|d2 [|a2 [|b2 []]]]; try done.
  destruct (bool_decide (d2 = d)) eqn:Ed; [apply bool_decide_eq_true in Ed as ->|done]. cbn [negb] in Hu.
  destruct (bool_decide (b1 = b2)) eqn:Eb; [apply bool_decide_eq_true in Eb as ->; by injection Hu as <- <- <- <-|].
  destruct (bool_decide (a1 = a2)) eqn:Ea; [apply bool_decide_eq_true in Ea as ->; by injection Hu as <- <- <- <-|].
  destruct (is_commutative d && bool_decide (a1 = b2)) eqn:E3.
  { apply andb_true_iff in E3 as [Hc ->%bool_decide_eq_true]. injection Hu as <- <- <- <-. split; [done|].
    by apply (stands_swapped d b2 true a2). }
  destruct (is_commutative d && bool_decide (b1 = a2)) eqn:E4; [|done].
  apply andb_true_iff in E4 as [Hc ->%bool_decide_eq_true]. injection Hu as <- <- <- <-. split; [done|].
  by apply (stands_swapped d a2 false b2).
Qed.

Lemma unify_ok t e d n1 n2 c first :
  wf t = true -> wf e = true -> unify params t e = Some (d, (n1, n2, c, first)) ->
  exists k, kind d = Bv k /\ stands_for d c first n1 t /\ stands_for d c first n2 e.
Proof.
  intros Ht He. unfold unify.
  assert (forall u, is_arith_bv_app params u = true -> exists f args k, u = App f args /\ kind f = Bv k) as Happ.
  { intros [|f args]; [done|]. cbn. destruct (kind f) as [|k|] eqn:Hk; [done| |done]. intros _. by exists f, args, k. }
  destruct (is_arith_bv_app params t) eqn:H1; [|destruct (is_arith_bv_app params e) eqn:H2; [|done]].
  - destruct (Happ t H1) as (f & args & k & -> & Hk). destruct (unify_core _ e) as [[[[x y] z] b]|] eqn:Hu; [|done].
    cbn. intros [= <- <- <- <- <-]. exists k. split; [done|]. by apply (unify_core_ok f k args e).
  - destruct (Happ e H2) as (f & args & k & -> & Hk). destruct (unify_core _ t) as [[[[x y] z] b]|] eqn:Hu; [|done].
    cbn. intros [= <- <- <- <- <-]. exists k. split; [done|].
    by destruct (unify_core_ok f k args t x y z b Hk He Ht Hu).
Qed.

Lemma push_ite_ok f args :
  wf (App f args) = true -> br_means I (range f) (eval (App f args)) (push_ite params f args).
Proof.
  intros Hw. unfold push_ite. destruct (kind f) as [[]| |] eqn:Hk; try done.
  destruct args as [|cnd [|t [|e []]]]; try done.
  destruct (ite_inv I (App f [cnd; t; e])) as (f' & c' & t' & e' & [= <- <- <- <-] & Hc & Ht & He & Hst & Hse & Hev);
    [by apply bool_decide_eq_true|done|]. cbn [get_sort] in Hst, Hse.
  destruct (unify params t e) as [[d [[[n1 n2] c] first]]|] eqn:Hu; [|done].
  destruct (unify_ok t e d n1 n2 c first Ht He Hu) as (k & Hkd & S1 & S2).
  pose proof (stands_wf _ _ _ _ _ S1) as W1. pose proof (stands_wf _ _ _ _ _ S2) as W2.
  pose proof (stands_sorts d k c first n1 n2 t e Hkd S1 S2) as Hs. destruct S1 as [Hw1 E1], S2 as [Hw2 E2].
  destruct (means_ite I cnd n1 n2 Hc W1 W2 Hs) as (Hwi & Hsi & Hei).
  assert (range d = range f) as Hr.
  { transitivity (get_sort t); [|done]. rewrite <- (eval_sort I t Ht), <- E1. symmetry.
    by apply (eval_sort I (with_common d c first n1)). }
  set (ite := m_mk_ite cnd n1 n2) in *. change (App d (if first then [c; ite] else [ite; c])) with (with_common d c first ite).
  assert (wf (with_common d c first ite) = true) as Hwr.
  { unfold with_common in *. destruct first; [by apply (wf_replace d [c] n1 ite [])|by apply (wf_replace d [] n1 ite [c])]. }
  cbn [br_means]. split_and!; [done|done|]. rewrite Hev, <- E1, <- E2. unfold with_common.
  destruct (AstFacts.tr I cnd); destruct first;
    first [by apply (eval_replace I d [c] n1 ite [])|by apply (eval_replace I d [] n1 ite [c])
          |by apply (eval_replace I d [c] n2 ite [])|by apply (eval_replace I d [] n2 ite [c])].
Qed.

(** ** Everything that follows the rules *)

Lemma on_result (g : func_decl -> list expr -> br_status) s v r :
  (forall d args, wf (App d args) = true -> br_means I (range d) (eval (App d args)) (g d args)) ->
  means I s v r ->
  br_means I s v (match r with App d args => br_else (g d args) (BR_DONE r) | Var _ _ => BR_DONE r end).
Proof.
  intros Hg Hr. destruct r as [|d args]; [exact Hr|]. apply br_else_means; [|exact Hr].
  destruct Hr as (Hw & <- & <-). by apply Hg.
Qed.

Lemma push_ite_result_done r : exists r', push_ite_result params r = BR_DONE r'.
Proof. unfold push_ite_result, push_ite. destruct r; [by eexists|]. cbn. repeat (case_match; try by eexists). Qed.

(** What follows keeps the value of an answer; where the rules answer nothing it
    is that of the application. *)
Lemma reduce_more_ok f args st v :
  wf (App f args) = true -> (st = BR_FAILED -> v = eval (App f args)) -> br_means I (range f) v st ->
  br_means I (range f) v (reduce_more params ref_count f args st).
Proof.
  intros Hw Hv Hst. unfold reduce_more. destruct st as [| | | |l|]; try exact Hst; set (st1 := if _ || _ then _ else _).
  - assert (br_means I (range f) v st1 /\ exists r, st1 = BR_DONE r) as [H1 [r ->]].
    { unfold st1. destruct (_ || _); [|by eauto]. split; [|apply push_ite_result_done].
      apply (on_result (push_ite params)); [apply push_ite_ok|exact Hst]. }
    destruct (m_pull_cheap_ite params); [|done]. apply (on_result (pull_ite ref_count)); [apply pull_ite_ok|exact H1].
  - rewrite Hv by done. assert (br_means I (range f) (eval (App f args)) st1) as H1.
    { unfold st1. destruct (_ || _); [by apply push_ite_ok|done]. }
    clearbody st1. destruct (m_pull_cheap_ite params); [|done]. destruct st1; try by apply pull_ite_ok.
    apply (on_result (pull_ite ref_count)); [apply pull_ite_ok|exact H1].
Qed.

(** ** Nested applications *)

Lemma all_bool_inv f args :
  (forall ss, op_sort f ss = if all_same BoolSort ss then Some BoolSort else None) ->
  wf (App f args) = true <-> range f = BoolSort /\ Forall (fun e => wfb e = true) args.
Proof.
  intros Hf. rewrite wf_app, Hf. split.
  - destruct (all_same _ _) eqn:Hall; [|by intros [? _]]. apply all_same_spec, Forall_map in Hall.
    intros ([= <-] & _ & Hw). split; [done|]. rewrite Forall_forall in Hall, Hw |- *. intros e He. apply wfb_spec. auto.
  - intros [-> Hb]. rewrite (proj2 (all_same_spec BoolSort (map get_sort args))).
    + split_and!; [done|done|]. apply (Forall_impl _ _ _ Hb). by intros e [? _]%wfb_spec.
    + apply Forall_map, (Forall_impl _ _ _ Hb). by intros e [_ ?]%wfb_spec.
Qed.

Lemma flat_formulas f l m r (g : bool -> bool -> bool) (u : bool) :
  (forall a b c, g a (g b c) = g (g a b) c) -> (forall a, g u a = a) ->
  (forall ss, op_sort f ss = if all_same BoolSort ss then Some BoolSort else None) ->
  (forall args, eval (App f args) = VBool (foldr g u (map tr args))) ->
  wf (App f (l ++ App f m :: r)) = true ->
  wf (App f (l ++ m ++ r)) = true /\ eval (App f (l ++ m ++ r)) = eval (App f (l ++ App f m :: r)).
Proof.
  intros Hg Hu Hs He. rewrite !(all_bool_inv f) by done. rewrite !Forall_app, Forall_cons. intros (Hr & Hl & Hm & Hrr).
  apply wfb_spec in Hm as [[_ Hm]%(all_bool_inv f) _]; [|done]. split; [done|].
  rewrite !He, !map_app, !foldr_app. cbn [map foldr]. f_equal. f_equal.
  assert (tr (App f m) = foldr g u (map tr m)) as ->. { unfold AstFacts.tr at 1. by rewrite He. }
  generalize (foldr g u (map tr r)). intros b. clear -Hg Hu. induction (map tr m) as [|x xs IH]; cbn; [by rewrite Hu|].
  by rewrite IH, Hg.
Qed.

Lemma vec_app k f n args :
  kind f = Bv k -> bv_binary k = None -> (exists h, bv_assoc k = Some h) -> range f = BvSort n ->
  (2 <= length args)%nat -> Forall (vec n) args -> wf (App f args) = true.
Proof.
  intros Hk Hb [h Hh] Hr Hl Ha. apply wf_app.
  assert (0 < n)%nat as Hn by (destruct Ha as [|x]; [cbn in Hl; lia|by eapply vec_pos]).
  split_and!; [|rewrite Hr; by apply positive_bv|by apply vec_wf with n].
  unfold op_sort. rewrite Hk. transitivity (bv_uniform_sort k (map get_sort args)); [by destruct k|].
  destruct args as [|a [|b rest]]; cbn [length] in Hl; try lia. pose proof Ha as [[_ Hsa] _]%Forall_cons.
  apply Forall_cons in Ha as [_ Ha]. apply vec_all_same in Ha. unfold bv_uniform_sort. cbn [map] in *.
  by rewrite Hsa, Ha, Hb, Hh, Hr.
Qed.

Lemma flat_vectors k g u `{!AssocOp k g u} f l m r :
  (forall a, g u a = a) -> kind f = Bv k -> wf (App f (l ++ App f m :: r)) = true ->
  wf (App f (l ++ m ++ r)) = true /\ eval (App f (l ++ m ++ r)) = eval (App f (l ++ App f m :: r)).
Proof.
  intros Hu Hk Hw. assert (forall args, is_app_of (App f args) (Bv k) = true) as Happ by (intros; by apply bool_decide_eq_true).
  destruct (assoc_inv I (k := k) _ (Happ _) Hw) as (n & d & args & [= <- <-] & _ & Hv & Hl & Hargs & Hd).
  pose proof Hargs as [Hvl [Hvm Hvr]%Forall_cons]%Forall_app.
  destruct (assoc_inv I (k := k) _ (Happ _) (proj1 Hvm)) as (n' & d & args & [= <- <-] & _ & Hv' & Hl' & Hargs' & Hd').
  assert (n' = n) as -> by (by eapply vec_width).
  assert (Forall (vec n) (l ++ m ++ r)) as Hnew by (by rewrite !Forall_app).
  assert (wf (App f (l ++ m ++ r)) = true) as Hw'.
  { apply (vec_app k f n); try done.
    - by destruct (assoc_signature k ao_fun ao_kind) as (_ & _ & ?).
    - exists ao_fun. apply ao_kind.
    - apply Hv.
    - rewrite !length_app. lia. }
  split; [done|].
  destruct (assoc_inv I (k := k) _ (Happ _) Hw') as (n' & d & args & [= <- <-] & _ & Hv2 & _ & _ & Hd2).
  assert (n' = n) as -> by (destruct Hv as [_ Hv], Hv2 as [_ Hv2]; cbn in Hv, Hv2; congruence).
  apply (vec_eq I n); [done..|]. rewrite (den_uv I _ _ _ Hd), (den_uv I _ _ _ Hd2).
  change (eqm n (foldr g u (map uv (l ++ m ++ r))) (foldr g u (map uv (l ++ App f m :: r)))).
  rewrite !map_app, !foldr_app. cbn [map foldr]. set (b := foldr g u (map uv r)).
  assert (forall x y L, eqm n x y -> eqm n (foldr g x L) (foldr g y L)) as Hstart.
  { intros x y L Hxy. induction L as [|z L IH]; [done|]. by apply (op_eqm (k := k) (g := g) (u := u)). }
  apply Hstart. transitivity (g (foldr g u (map uv m)) b).
  - apply eq_subrelation; [apply _|]. clear -Hu AssocOp0. induction (map uv m) as [|x xs IH]; cbn; [by rewrite Hu|].
    by rewrite IH, (ao_assoc (k := k) (g := g) (u := u)).
  - apply (op_eqm (k := k) (g := g) (u := u)); [|done]. symmetry. rewrite (den_uv I _ _ _ Hd'). apply eqm_mod.
Qed.

Lemma flat_assoc_ok f l m r :
  flat_assoc params f = true -> wf (App f (l ++ App f m :: r)) = true ->
  wf (App f (l ++ m ++ r)) = true /\ eval (App f (l ++ m ++ r)) = eval (App f (l ++ App f m :: r)).
Proof.
  unfold flat_assoc. intros [_ Hf]%andb_true_iff Hw.
  destruct (kind f) as [k|k|] eqn:Hk; [| |done]; destruct k; try done.
  - apply (flat_formulas f l m r andb true); try done.
    + apply andb_assoc.
    + intros ss. unfold op_sort. by rewrite Hk.
    + intros args. cbn. unfold decl_apply. rewrite Hk. cbn. f_equal. rewrite forallb_tr.
      induction args as [|a args IH]; [done|]. cbn. by rewrite IH.
  - apply (flat_formulas f l m r orb false); try done.
    + apply orb_assoc.
    + intros ss. unfold op_sort. by rewrite Hk.
    + intros args. cbn. unfold decl_apply. rewrite Hk. cbn. f_equal. rewrite existsb_tr.
      induction args as [|a args IH]; [done|]. cbn. by rewrite IH.
  - by apply (flat_vectors OP_BADD Z.add 0).
  - apply (flat_vectors OP_BAND Z.land (-1)); [apply Z.land_m1_l|done|done].
  - apply (flat_vectors OP_BOR Z.lor 0); [apply Z.lor_0_l|done|done].
  - apply (flat_vectors OP_BXOR Z.lxor 0); [apply Z.lxor_0_l|done|done].
Qed.
End Rules.
