(* ===== verification/ThRewriterRun.v ===== *)
(** The theory rewriter on the rewriting machine. The rule for the signed
    overflow predicate is not sound, and nothing but their sorts is known of the
    answers to the conversions, so a run is sound for the interpretations that
    agree with the instances of these rules the run used: its trace names them.
    A run without a trace gives the same result as a run with one. *)
From S2P Require Import Prelude Text Bits Ast AstSem AstFacts BoolRewriter BoolRewriterOk ExprSubstitution BvPlugin BvFacts PolyRewriter BvRewriterLeq BvRewriterEq BvRewriter BvRewriterOk BvRewriterTotal Rewriter RewriterOk RewriterSim ThRewriter ThRewriterOk.

(** ** What a run may assume *)

(** The step is one of the rule for the signed overflow predicate, or rewrites a
    conversion from or to the integers. *)
Definition is_unproved (e : expr) : bool :=
  is_app_of e (Bv OP_BSMUL_NO_OVFL) || is_app_of e (Bv OP_BV2INT) || is_app_of e (Bv OP_INT2BV).

Definition agrees (I : interp) (step : expr * expr) : Prop :=
  is_unproved step.1 = true -> eval I step.1 = eval I step.2.

(** [holds U I]: what [I] may be assumed to satisfy under the assumptions [U].
    The facts of the recorded dependencies and the unproved steps of the trace
    hold. *)
Definition th_admits (holds : list expr -> interp -> Prop) (s : th_state) (I : interp) : Prop :=
  holds (m_used_dependencies s) I /\ (forall tr, m_trace s = Some tr -> Forall (agrees I) tr).

(** More assumptions give more facts. *)
Definition monotone (holds : list expr -> interp -> Prop) : Prop :=
  forall U U' I, U ⊆ U' -> holds U' I -> holds U I.

(** A later state of the same run. *)
Definition th_le (s s' : th_state) : Prop :=
  m_used_dependencies s ⊆ m_used_dependencies s'
  /\ forall tr, m_trace s = Some tr -> exists more, m_trace s' = Some (tr ++ more).

(** The replacements keep the sorts, and follow from the facts of their
    dependencies. *)
Definition justified (holds : list expr -> interp -> Prop) (sub : option expr_substitution) : Prop :=
  forall t r d, wf t = true -> sub ≫= es_find t = Some (r, d) ->
  wf r = true /\ get_sort r = get_sort t /\ forall U I, d ⊆ U -> holds U I -> eval I r = eval I t.

(** A traced run under a substitution. *)
Definition th_ok (sub : option expr_substitution) (s : th_state) : Prop := m_subst s = sub /\ is_Some (m_trace s).

#[global] Instance th_le_preorder : PreOrder th_le.
Proof.
  split.
  - intros s. split; [done|]. intros tr ->. exists []. by rewrite app_nil_r.
  - intros s1 s2 s3 [H1 T1] [H2 T2]. split; [set_solver|]. intros tr [m1 E1]%T1. destruct (T2 _ E1) as [m2 E2].
    exists (m1 ++ m2). by rewrite app_assoc.
Qed.

Lemma th_admits_le holds s s' I : monotone holds -> th_le s s' -> th_admits holds s' I -> th_admits holds s I.
Proof.
  intros Hmono [Hu Ht] [Hh Ha]. split; [by eapply Hmono|]. intros tr [more E]%Ht. apply Ha, Forall_app in E. tauto.
Qed.

#[refine] Definition th_rel (holds : list expr -> interp -> Prop) (mono : monotone holds) : RewriterRel th_state := {|
  cfg_le := th_le;
  admits := th_admits holds;
  usable _ e := wf e = true;
  settled _ _ := True
|}.
Proof.
  - intros s s' I. by apply th_admits_le.
  - done.
  - done.
  - done.
  - by intros s f args (_ & _ & H)%wf_app.
  - intros s f args args' (Ho & Hp & _)%wf_app Ha Hs. apply wf_app. by rewrite Hs.
Defined.

Section Run.
Context (params : th_params) (b_rw : bool_rewriter_params) (bv_rw : bv_params).
Context (get_id : expr -> Z) (ref_count : expr -> nat).
Context (mk_conversion : func_decl -> list expr -> br_status).
Context (Hdiv : m_hi_div0 bv_rw = true) (Hconv : conversion_typed mk_conversion).
Context (holds : list expr -> interp -> Prop) (mono : monotone holds).
Context (sub : option expr_substitution) (Hsub : justified holds sub).
#[local] Instance th_run_rel : RewriterRel th_state := th_rel holds mono.

Local Abbreviation th_reduce_app := (reduce_app params b_rw bv_rw get_id ref_count mk_conversion).
Local Abbreviation rules := (reduce_app_core b_rw bv_rw get_id ref_count mk_conversion).
#[local] Instance th_cfg : RewriterCfg th_state := th_rewriter_cfg params b_rw bv_rw get_id ref_count mk_conversion.

(** ** One application *)

Lemma no_ovfl_rule f args st :
  kind f = Bv OP_BSMUL_NO_OVFL -> rules f args = Ok st -> st = BR_FAILED \/ exists b, st = BR_DONE (mk_bool_val b).
Proof.
  unfold reduce_app_core. intros ->. cbn [BvRewriter.mk_app_core]. unfold with_binary, mk_bvsmul_no_overflow, mul_no_overflow.
  destruct args as [|a [|b [|]]]; try (intros [= <-]; by left).
  repeat case_match; intros [= <-]; try (by left); right; by first [by eexists|by exists true].
Qed.

Lemma no_ovfl_range f args : kind f = Bv OP_BSMUL_NO_OVFL -> wf (App f args) = true -> range f = BoolSort.
Proof.
  intros Hk Hw. by destruct (pred_inv default_interp f args OP_BSMUL_NO_OVFL _ Hk eq_refl Hw) as (n & a & b & _ & _ & _ & ? & _).
Qed.

(** What the unproved rules answer has the right sort. *)
Lemma unproved_typed f args st l :
  is_unproved (App f args) = true -> wf (App f args) = true -> rules f args = Ok st -> br_result st = Some l ->
  wf l = true /\ get_sort l = range f.
Proof.
  intros Hu Hw Hst Hl. unfold is_unproved, is_app_of in Hu. cbn in Hu.
  rewrite !orb_true_iff, !bool_decide_eq_true in Hu. destruct (decide (kind f = Bv OP_BSMUL_NO_OVFL)) as [Hk|Hk].
  - destruct (no_ovfl_rule f args st Hk Hst) as [->|[b ->]]; [done|]. injection Hl as <-.
    rewrite (no_ovfl_range f args Hk Hw). by destruct b.
  - unfold reduce_app_core in Hst. destruct Hu as [[Hk'|Hk']|Hk']; [done|..]; rewrite Hk' in Hst; injection Hst as <-;
      apply (Hconv f args l); by auto.
Qed.

(** The answer to an application is right where the logged step holds. *)
Lemma reduced_ok f args st r :
  wf (App f args) = true -> rules f args = Ok st -> br_result (reduce_more params ref_count f args st) = Some r ->
  wf r = true /\ get_sort r = range f
  /\ forall I, (forall l, br_result st = Some l -> agrees I (App f args, l)) -> eval I r = eval I (App f args).
Proof.
  intros Hw Hst Hr.
  assert (forall I, exists v, br_means I (range f) v st /\ (st = BR_FAILED -> v = eval I (App f args))
    /\ ((forall l, br_result st = Some l -> agrees I (App f args, l)) -> v = eval I (App f args))) as Hv.
  { intros I. destruct (is_unproved (App f args)) eqn:Hu.
    - exists (default (eval I (App f args)) (eval I <$> br_result st)).
      pose proof (unproved_typed f args st) as Ht. unfold agrees. cbn [fst snd].
      destruct st as [l|l|l|l|l|]; cbn in *; try (by split_and!);
        destruct (Ht l Hu Hw Hst eq_refl); split_and!; try done; intros Hag; symmetry; by apply Hag.
    - exists (eval I (App f args)). split_and!; try done. eapply reduce_app_core_ok; try done.
      unfold is_unproved, is_app_of in Hu. rewrite !orb_false_iff, !bool_decide_eq_false in Hu. set_solver. }
  assert (forall I, exists v, (wf r = true /\ get_sort r = range f /\ eval I r = v)
    /\ ((forall l, br_result st = Some l -> agrees I (App f args, l)) -> v = eval I (App f args))) as Hall.
  { intros I. destruct (Hv I) as (v & Hm & Hf & Ha). exists v. split; [|done]. refine (br_means_result _ _ _ _ _ _ Hr).
    by apply (reduce_more_ok I params get_id ref_count mk_conversion). }
  destruct (Hall default_interp) as (_ & (H1 & H2 & _) & _). split_and!; [done..|].
  intros I Hag. destruct (Hall I) as (v & (_ & _ & ->) & Ha). by apply Ha.
Qed.

Lemma rules_fault f args e :
  rules f args = Fault e -> e = Z3Exception /\ kind f ∈ [Bv OP_BOR; Bv OP_BXOR; Bv OP_BMUL].
Proof.
  unfold reduce_app_core. destruct (kind f) as [k|k|] eqn:Hk; try done. intros [-> Hin]%mk_app_core_fault.
  split; [done|]. set_solver.
Qed.

(** The log of a step: the substitution and the dependencies stay, and a traced
    step is added. *)
Lemma logged f args st s :
  (m_subst (log_rewrite_axiom_instantiation f args st s) = m_subst s
   /\ m_used_dependencies (log_rewrite_axiom_instantiation f args st s) = m_used_dependencies s)
  /\ (m_trace s = None -> m_trace (log_rewrite_axiom_instantiation f args st s) = None)
  /\ forall tr, m_trace s = Some tr -> m_trace (log_rewrite_axiom_instantiation f args st s)
       = Some (tr ++ match br_result st with Some l => [(App f args, l)] | None => [] end).
Proof.
  unfold log_rewrite_axiom_instantiation. destruct (m_trace s) as [tr|] eqn:Ht.
  - split; [by destruct (br_result st)|split; [done|]]. intros tr' [= <-]. destruct (br_result st); [done|]. by rewrite app_nil_r.
  - by split_and!.
Qed.

Lemma log_admits f args st s I tr l :
  m_trace s = Some tr -> th_admits holds (log_rewrite_axiom_instantiation f args st s) I -> br_result st = Some l ->
  agrees I (App f args, l).
Proof.
  intros Ht [_ Ha] Hl. destruct (logged f args st s) as (_ & _ & Hlog). specialize (Ha _ (Hlog tr Ht)).
  rewrite Hl in Ha. apply Forall_app in Ha as [_ Ha]. by apply Forall_inv in Ha.
Qed.

Lemma th_reduce_ok s f args :
  th_ok sub s -> wf (App f args) = true ->
  match th_reduce_app f args s with
  | Ok (s', b) => th_ok sub s' /\ th_le s s' /\ forall r, br_result b = Some r -> rewrites s' (App f args) r
  | Fault e => e = Z3Exception /\ bool_decide (kind f ∈ [Bv OP_BOR; Bv OP_BXOR; Bv OP_BMUL]) = true
  end.
Proof.
  intros [Hs0 [tr Ht]] Hw. unfold reduce_app. destruct (rules f args) as [st|e] eqn:Hst; cbn [mbind res_bind].
  2: { destruct (rules_fault _ _ _ Hst). split; [done|]. by apply bool_decide_eq_true_2. }
  destruct (logged f args st s) as ([Hs Hd] & _ & Hlog). pose proof (Hlog tr Ht) as Htr. split_and!.
  - split; [congruence|by eexists].
  - split; [by rewrite Hd|]. intros tr' ?. simplify_eq. by eexists.
  - intros r Hr. destruct (reduced_ok f args st r Hw Hst Hr) as (Hwr & Hsr & He). split_and!; [done..|].
    intros I Ha. apply He. intros l Hl. by apply (log_admits f args st s I tr).
Qed.

#[local] Program Instance th_cfg_ok : RewriterCfgOk th_state := {|
  cfg_ok := th_ok sub;
  raises _ f := bool_decide (kind f ∈ [Bv OP_BOR; Bv OP_BXOR; Bv OP_BMUL])
|}.
Next Obligation. done. Qed.
Next Obligation. intros s f args. apply th_reduce_ok. Qed.
Next Obligation. done. Qed.
Next Obligation.
  intros s s' t r [Hs0 Htr] Hw Hr. cbn in Hr. unfold get_subst in Hr.
  destruct (find_subst t s) as [[r' d]|] eqn:Hf; [|done]. injection Hr as -> <-. unfold find_subst in Hf. rewrite Hs0 in Hf.
  destruct (Hsub t r d Hw Hf) as (Hwr & Hs & He). split; [by split|]. split; [split; [cbn; set_solver|]|].
  { intros tr Ht. exists []. by rewrite app_nil_r. }
  split_and!; [done..|]. intros I [Ha _]. eapply He; [|exact Ha]. cbn. set_solver.
Qed.
Next Obligation.
  intros s f l m r Hf _ Hw. pose proof (fun I => flat_assoc_ok I params f l m r Hf Hw) as Hok.
  split; [done|]. split; [exact (proj1 (Hok default_interp))|]. split; [done|]. intros I _. exact (proj2 (Hok I)).
Qed.

Context (counts : th_rewriter -> expr -> nat).

(** A machine between two runs, which are traced. *)
Definition rests (rw : th_rewriter) : Prop := at_rest rw.

Lemma rests_ok rw : rests rw -> th_ok sub (m_cfg rw).
Proof. by intros []. Qed.

Lemma rests_new c rw : th_ok sub c -> rests (set_cfg c (reset rw)).
Proof. intros Hok. split; [done|by intros k v Hf|by intros i s r c' _ Hlt; cbn in Hlt; lia|done..]. Qed.

Lemma simplify_rests fuel t rw :
  rests rw -> wf t = true ->
  match simplify params b_rw bv_rw get_id ref_count mk_conversion counts fuel t rw with
  | Ok (r, rw') => rests rw' /\ th_le (m_cfg rw) (m_cfg rw') /\ wf r = true /\ get_sort r = get_sort t
      /\ forall I, th_admits holds (m_cfg rw') I -> eval I r = eval I t
  | Fault e => e = Z3Exception \/ e = OutOfFuel
  end.
Proof.
  intros Hrest Hw. pose proof (rewrite_sound counts fuel t rw Hrest Hw) as Hok. unfold simplify.
  destruct (rewrite counts fuel t rw) as [[r rw']|e]; [|done]. destruct Hok as (H1 & H2 & _ & H3 & H4 & H5). by split_and!.
Qed.
End Run.

(** The facts may change between two runs: what was rewritten under weaker ones
    stays right. *)
Lemma rests_change params b_rw bv_rw get_id ref_count mk_conversion Hdiv Hconv
    holds mono sub Hsub holds' mono' sub' Hsub' c rw :
  rests params b_rw bv_rw get_id ref_count mk_conversion Hdiv Hconv holds mono sub Hsub rw ->
  (forall U I, holds' U I -> holds U I) -> th_le (m_cfg rw) c -> th_ok sub' c ->
  rests params b_rw bv_rw get_id ref_count mk_conversion Hdiv Hconv holds' mono' sub' Hsub' (set_cfg c rw).
Proof.
  intros [_ Hca Hbi Hf Hr] Hw Hle Hok.
  assert (forall c' I, th_admits holds' c' I -> th_admits holds c' I) as Hadm by (intros c' I [? ?]; split; auto).
  split; [done| | |done|done].
  - intros k v Hk. destruct (Hca k v Hk) as (H1 & H2 & H3 & H4). split_and!; [done..|]. intros I Ha. apply H4.
    by apply (th_admits_le holds _ c), Hadm.
  - intros i s r c' Hl Hlt Hle' Hv. destruct (Hbi i s r c' Hl Hlt) as (H1 & H2 & H3 & H4);
      [by etransitivity; [|exact Hle']|done|]. split_and!; [done..|]. intros I Ha. by apply H4, Hadm.
Qed.

(** ** A run without a trace *)

(** The substitutions and the dependencies are the same; the first state has no
    trace. *)
Definition untraced (s s' : th_state) : Prop :=
  (m_subst s' = m_subst s /\ m_used_dependencies s' = m_used_dependencies s) /\ m_trace s = None.

Section Untraced.
Context (params : th_params) (b_rw : bool_rewriter_params) (bv_rw : bv_params).
Context (get_id : expr -> Z) (ref_count : expr -> nat).
Context (mk_conversion : func_decl -> list expr -> br_status).
#[local] Instance th_run_cfg : RewriterCfg th_state := th_rewriter_cfg params b_rw bv_rw get_id ref_count mk_conversion.

#[local] Program Instance th_sim : CfgSim th_run_cfg th_run_cfg untraced.
Next Obligation.
  intros f args s s' [[Hs Hd] Ht]. cbn. unfold reduce_app. apply rel_same. intros st. split; [|done]. cbn [fst].
  destruct (logged f args st s) as ([H1 H1'] & H2 & _), (logged f args st s') as ([H3 H3'] & _).
  split; [split; congruence|by apply H2].
Qed.
Next Obligation. done. Qed.
Next Obligation.
  intros t s s' [[Hs Hd] Ht]. cbn. unfold get_subst, find_subst. rewrite Hs.
  destruct (m_subst s ≫= es_find t) as [[r d]|]; [|done].
  split; [done|]. split; [|done]. cbn. by rewrite Hd.
Qed.
Next Obligation. done. Qed.
Next Obligation. done. Qed.
Next Obligation. done. Qed.
Next Obligation. done. Qed.
Next Obligation. done. Qed.
Next Obligation. done. Qed.

Context (counts : th_rewriter -> expr -> nat).

(** A traced run shares what the run without the trace shares. *)
Definition traced_counts (rw : th_rewriter) (e : expr) : nat :=
  counts (set_cfg (mk_th_state (m_subst (m_cfg rw)) (m_used_dependencies (m_cfg rw)) None) rw) e.

(** Two machines that differ in the trace only. *)
Definition same_run (rw rw' : th_rewriter) : Prop := sim untraced rw rw'.

Lemma untraced_same rw c : same_run rw c -> set_cfg (mk_th_state (m_subst (m_cfg c)) (m_used_dependencies (m_cfg c)) None) c = rw.
Proof. intros (d & -> & [Hs Hd] & Ht). destruct rw as [[sub dp tr] ? ? ? ? ? ?]. cbn in *. by subst. Qed.

Lemma traced_counts_ok rw rw' e : same_run rw rw' -> traced_counts rw' e = counts rw e.
Proof. intros Hs. unfold traced_counts. by rewrite (untraced_same rw). Qed.

Lemma simplify_same fuel t rw rw' :
  same_run rw rw' ->
  res_rel (fun x y => fst x = fst y /\ same_run (snd x) (snd y))
    (simplify params b_rw bv_rw get_id ref_count mk_conversion counts fuel t rw)
    (simplify params b_rw bv_rw get_id ref_count mk_conversion traced_counts fuel t rw').
Proof. apply (rewrite_sim untraced counts traced_counts traced_counts_ok). Qed.
End Untraced.

Lemma same_run_cfg rw rw' : same_run rw rw' -> m_subst (m_cfg rw') = m_subst (m_cfg rw) /\ get_used_dependencies rw' = get_used_dependencies rw.
Proof. by intros (d & -> & ? & _). Qed.

Lemma set_substitution_same sub rw rw' : same_run rw rw' -> same_run (set_substitution sub rw) (set_substitution sub rw').
Proof. intros (d & -> & [Hs Hd] & Ht). eexists. split; [reflexivity|]. by repeat split; cbn. Qed.

Lemma change_substitution_same f rw rw' : same_run rw rw' -> same_run (change_substitution f rw) (change_substitution f rw').
Proof. intros (d & -> & [Hs Hd] & Ht). eexists. split; [reflexivity|]. cbn. by rewrite Hs. Qed.

Lemma reset_used_dependencies_same rw rw' : same_run rw rw' -> same_run (reset_used_dependencies rw) (reset_used_dependencies rw').
Proof.
  intros Hsame. pose proof (same_run_cfg rw rw' Hsame) as [Hs Hd]. unfold reset_used_dependencies. rewrite Hd.
  destruct (get_used_dependencies rw); [done|]. destruct Hsame as (d & -> & [Hs' Hd'] & Ht).
  eexists. split; [reflexivity|]. by repeat split; cbn.
Qed.

(** A rewriter that is about to simplify under a substitution. *)
Definition prepared (sub : option expr_substitution) (trace : option (list (expr * expr))) : th_rewriter :=
  set_substitution sub (new_th_rewriter trace).

Lemma prepared_same sub : same_run (prepared sub None) (prepared sub (Some [])).
Proof. by exists (mk_th_state sub [] (Some [])). Qed.

(** ** One simplification *)

(** The replacements that depend on [U] hold. *)
Definition replaced (sub : option expr_substitution) (U : list expr) (I : interp) : Prop :=
  forall k v d, sub ≫= es_find k = Some (v, d) -> d ⊆ U -> eval I v = eval I k.

Lemma replaced_monotone sub : monotone (replaced sub).
Proof. intros U U' I Hu Hr k v d Hf Hd. apply (Hr k v d Hf). set_solver. Qed.

(** The replacements keep the sorts. *)
Definition sorted_subst (sub : option expr_substitution) : Prop :=
  forall k v d, wf k = true -> sub ≫= es_find k = Some (v, d) ->
  wf v = true /\ get_sort v = get_sort k.

Lemma replaced_justified sub : sorted_subst sub -> justified (replaced sub) sub.
Proof.
  intros Hs k v d Hw Hf. destruct (Hs k v d Hw Hf). split_and!; [done..|].
  intros U' I Hd Hr. by apply (Hr k v d).
Qed.

Lemma simplify_ok params b_rw bv_rw get_id ref_count mk_conversion counts fuel t sub :
  m_hi_div0 bv_rw = true -> conversion_typed mk_conversion -> sorted_subst sub -> wf t = true ->
  match simplify params b_rw bv_rw get_id ref_count mk_conversion counts fuel t (prepared sub None) with
  | Ok (r, rw0) => wf r = true /\ get_sort r = get_sort t /\
      exists rw log, simplify params b_rw bv_rw get_id ref_count mk_conversion (traced_counts counts) fuel t
                       (prepared sub (Some [])) = Ok (r, rw)
      /\ m_trace (m_cfg rw) = Some log
      /\ forall I, replaced sub (get_used_dependencies rw0) I -> Forall (agrees I) log -> eval I r = eval I t
  | Fault e => e = Z3Exception \/ e = OutOfFuel
  end.
Proof.
  intros Hdiv Hconv Hsub Hw.
  pose proof (simplify_same params b_rw bv_rw get_id ref_count mk_conversion counts fuel t _ _ (prepared_same sub)) as Hrel.
  pose proof (simplify_rests params b_rw bv_rw get_id ref_count mk_conversion Hdiv Hconv (replaced sub) (replaced_monotone sub)
    sub (replaced_justified sub Hsub) (traced_counts counts) fuel t (prepared sub (Some []))) as Hok.
  destruct (simplify _ _ _ _ _ _ counts _ _ _) as [[r rw0]|e], (simplify _ _ _ _ _ _ (traced_counts counts) _ _ _) as [[r' rw]|e'];
    cbn in Hrel; try done.
  - destruct Hrel as [<- Hsame]. destruct Hok as (_ & [_ Htr] & Hwr & Hs & He); [|done|].
    { apply rests_new. by split; [|eexists]. }
    destruct (Htr [] eq_refl) as [log Hlog]. split_and!; [done..|]. exists rw, log. split_and!; [done..|].
    intros I Hr Hag. apply He. apply same_run_cfg in Hsame as [_ Hu]. split; [by rewrite <- Hu in Hr|]. intros tr Ht. rewrite Hlog in Ht. by injection Ht as <-.
  - subst. apply Hok; [|done]. apply rests_new. by split; [|eexists].
Qed.
