(* ===== verification/BvTheorems.v ===== *)
(** The theorems about the bit-vector rewriter, the polynomial rewriter below it
    and the theory rewriter above it, with what they say at concrete terms: two
    vectors x and y of four bits. *)
From S2P Require Import Prelude Text Bits Ast AstSem BoolRewriter AstFacts BoolRewriterOk ExprSubstitution BvPlugin BvFacts PolyRewriter PolyRewriterOk BvRewriterLeq BvRewriterTerms BvRewriterDiv BvRewriterBits BvRewriterEq BvRewriter BvRewriterLeqOk BvRewriterTermsOk BvRewriterEqOk BvRewriterOk BvRewriterTotal Rewriter RewriterOk ThRewriter ThRewriterRun.

(** ** Applications of the family *)

(** C12: The bit-vector rewriter is correct: for every operator but the signed
    overflow predicate and the two conversions from and to the integers, with
    division by zero as in the default and any choice of the other options, and
    for every well-sorted application, the term it answers is well-sorted, has the
    sort of the application and its value in every interpretation. *)
Theorem bv_rewriter_correct I p get_id ref_count mk_conversion f k args st r :
  m_hi_div0 p = true -> kind f = Bv k -> k ∉ [OP_BSMUL_NO_OVFL; OP_BV2INT; OP_INT2BV] -> wf (App f args) = true ->
  BvRewriter.mk_app_core p get_id ref_count mk_conversion f k args = Ok st -> br_result st = Some r ->
  wf r = true /\ get_sort r = range f /\ eval I r = eval I (App f args).
Proof.
  intros Hdiv Hk Hno Hw Hst. apply br_means_result.
  by apply (bv_mk_app_core_ok I p get_id ref_count mk_conversion k f args).
Qed.


(** ** Equations *)

(** C17: The rules for equations of vectors are correct: what they answer is a
    formula that is true exactly when the two vectors have the same value. *)
Theorem rw_eq_correct I p n lhs rhs r :
  vec n lhs -> vec n rhs -> br_result (rw_eq p lhs rhs) = Some r ->
  wf r = true /\ get_sort r = BoolSort /\ eval I r = VBool (bool_decide (eval I lhs = eval I rhs)).
Proof.
  intros Hl Hr Hres. destruct (br_means_result _ _ _ _ _ (rw_eq_ok I p n lhs rhs Hl Hr) Hres) as (Hw & Hs & ->).
  split_and!; [done..|]. f_equal. destruct (Z.eqb_spec (uv I lhs) (uv I rhs)) as [He|He]; symmetry;
    [apply bool_decide_eq_true|apply bool_decide_eq_false]; by rewrite (vec_eq I n).
Qed.

(** C18: The extended gcd finds the inverse modulo the width of exactly the odd
    coefficients. *)
Theorem mult_inverse_correct c n :
  0 <= c -> match mult_inverse c n with
            | Some i => Z.odd c = true /\ (i * c) mod pow2 n = 1 mod pow2 n
            | None => Z.even c = true
            end.
Proof.
  intros Hc. destruct (mult_inverse c n) as [i|] eqn:Hi; [split|].
  - unfold mult_inverse in Hi. destruct (Z.eqb_spec c 1) as [->|]; [done|].
    rewrite <- Z.negb_even. by destruct (Z.even c).
  - exact (mult_inverse_ok c n i Hc Hi).
  - unfold mult_inverse in Hi. destruct (c =? 1); [done|]. destruct (Z.even c); [done|]. by destruct (gcd_ext _ _) as [[]].
Qed.

(** Cancelling the monomials that the two sides of an equation share is an
    equivalence: the new sides are vectors of the same width, equal exactly when
    the old ones are. *)
Theorem cancel_monomials_correct I n lhs rhs l r :
  vec n lhs -> vec n rhs -> cancel_monomials n lhs rhs = Some (l, r) ->
  vec n l /\ vec n r /\ (eval I l = eval I r <-> eval I lhs = eval I rhs).
Proof.
  intros Hl Hr Hc. destruct (cancel_monomials_ok I (fun _ => 0) n (vec_pos n lhs Hl) lhs rhs l r Hl Hr Hc) as (H1 & H2 & He).
  split_and!; [done..|]. by rewrite !(vec_eq I n).
Qed.

(** ** The signed overflow predicate *)

(** C19: The rule for the signed overflow predicate folds two numerals above one by
    their unsigned values, while the predicate is about the signed ones; so it
    answers that the product of -1 and -1 overflows, which it does not. *)
Theorem mk_bvsmul_no_overflow_unsigned I f n a b v w :
  kind f = Bv OP_BSMUL_NO_OVFL -> wf (App f [a; b]) = true ->
  is_numeral a = Some (v, n) -> is_numeral b = Some (w, n) -> 1 < v -> 1 < w ->
  mk_bvsmul_no_overflow a b = BR_DONE (mk_bool_val (v * w <? pow2 (n - 1)))
  /\ eval I (App f [a; b]) = VBool (norm v n true * norm w n true <? pow2 (n - 1))
  /\ (v = pow2 n - 1 -> w = pow2 n - 1 ->
      mk_bvsmul_no_overflow a b = BR_DONE m_false /\ eval I (App f [a; b]) = VBool true).
Proof.
  intros Hk Hw Hv Hnw V W.
  destruct (pred_inv I f [a; b] OP_BSMUL_NO_OVFL _ Hk eq_refl Hw) as (m & a' & b' & [= <- <-] & Ha & Hb & _ & He).
  destruct (numeral_vec I _ _ _ _ Hv Ha) as (<- & Va & Hua), (numeral_vec I _ _ _ _ Hnw Hb) as (_ & Vb & Hub).
  pose proof (mk_bvsmul_no_overflow_means n a b v w Ha Hb Hv Hnw V W) as Hr.
  assert (eval I (App f [a; b]) = VBool (norm v n true * norm w n true <? pow2 (n - 1))) as Hev.
  { rewrite He. f_equal. fold (sv I a) (sv I b). rewrite (sv_norm I n a Ha), (sv_norm I n b Hb), Hua, Hub.
    by rewrite (proj2 (vec_bits I n a Ha)). }
  split_and!; [done..|]. intros -> ->. rewrite Hr, Hev. pose proof (vec_pos _ _ Ha) as Hn. pose proof (pow2_double n Hn) as Hd.
  pose proof (pow2_pos (n - 1)). rewrite !norm_small by lia. split.
  - by rewrite (proj2 (Z.ltb_ge _ _)) by nia.
  - f_equal. case_match; [|lia]. apply Z.ltb_lt. nia.
Qed.

(** ** The simplifier *)

(** C9: The simplifier is sound up to the signed overflow predicate and the
    conversions from and to the integers. With division by zero as in the default,
    rules for the conversions whose answers have the right sort and a substitution
    that keeps the sorts, whatever the other options, the sharing and the fuel:
    a run that returns gives a term of the sort of the given one, with its value
    in every interpretation in which the replacements that depend on the
    assumptions the run recorded are equal to what they replace, and the steps
    that rewrite that predicate or a conversion, which a traced run with the same
    result names, hold; a run that does not return throws the exception of a rule,
    or has not enough fuel. *)
Theorem simplify_correct params b_rw bv_rw get_id ref_count mk_conversion counts fuel t sub :
  m_hi_div0 bv_rw = true -> conversion_typed mk_conversion -> sorted_subst sub -> wf t = true ->
  match simplify params b_rw bv_rw get_id ref_count mk_conversion counts fuel t (prepared sub None) with
  | Ok (r, rw0) => wf r = true /\ get_sort r = get_sort t /\
      exists rw log, simplify params b_rw bv_rw get_id ref_count mk_conversion (traced_counts counts) fuel t
                       (prepared sub (Some [])) = Ok (r, rw)
      /\ m_trace (m_cfg rw) = Some log
      /\ forall I, replaced sub (get_used_dependencies rw0) I -> Forall (agrees I) log -> eval I r = eval I t
  | Fault e => e = Z3Exception \/ e = OutOfFuel
  end.
Proof. intros. by apply simplify_ok. Qed.

Definition nibble (name : string) : expr := App (mk_func_decl (SymStr name) NullFid [] [] (BvSort 4)) [].
Definition nibble_x : expr := nibble "x".
Definition nibble_y : expr := nibble "y".
Definition const4 (v : Z) : expr := mk_numeral v 4.
Definition by_size (e : expr) : Z := Z.of_nat (size e).
Definition once (e : expr) : nat := 1.

(** Nothing is known about the conversions. *)
Definition no_conversion (f : func_decl) (args : list expr) : br_status := BR_FAILED.

Lemma no_conversion_typed : conversion_typed no_conversion.
Proof. done. Qed.

Lemma const4_vec v : vec 4 (const4 v).
Proof. destruct (den_numeral default_interp 4 v ltac:(lia)) as (Hw & Hs & _). by split. Qed.

Definition head_decl (e : expr) : func_decl := match e with App d _ => d | Var _ s => mk_func_decl (SymStr "") NullFid [] [] s end.

(** The quotient of x and 4 is x shifted by two bits. *)
Definition quotient : expr := bv_app OP_BUDIV [] [nibble_x; const4 4].
Definition shifted_x : expr := bv_app OP_BLSHR [] [nibble_x; const4 2].

Lemma bv_rewriter_correct_witness :
  BvRewriter.mk_app_core default_bv_params by_size once no_conversion (head_decl quotient) OP_BUDIV [nibble_x; const4 4]
    = Ok (BR_REWRITE1 shifted_x)
  /\ wf shifted_x = true /\ get_sort shifted_x = BvSort 4 /\ eval default_interp shifted_x = eval default_interp quotient.
Proof.
  assert (BvRewriter.mk_app_core default_bv_params by_size once no_conversion (head_decl quotient) OP_BUDIV
    [nibble_x; const4 4] = Ok (BR_REWRITE1 shifted_x)) as Hst by (vm_compute; reflexivity).
  split; [exact Hst|].
  exact (bv_rewriter_correct default_interp default_bv_params by_size once no_conversion (head_decl quotient) OP_BUDIV
    [nibble_x; const4 4] _ shifted_x eq_refl eq_refl ltac:(apply (bool_decide_unpack _); vm_compute; exact Logic.I) eq_refl Hst eq_refl).
Defined.



(** 3 x + 2 = x + 2 *)
Definition three_x_two : expr := bv_app OP_BADD [] [bv_app OP_BMUL [] [const4 3; nibble_x]; const4 2].
Definition x_two : expr := bv_app OP_BADD [] [nibble_x; const4 2].

Lemma three_x_two_vec : vec 4 three_x_two /\ vec 4 x_two.
Proof. by repeat split. Qed.

Definition two_x : expr := bv_app OP_BMUL [] [const4 2; nibble_x].

Lemma rw_eq_correct_witness :
  rw_eq default_bv_params three_x_two x_two = BR_DONE (m_mk_eq two_x (const4 0))
  /\ eval default_interp (m_mk_eq two_x (const4 0))
     = VBool (bool_decide (eval default_interp three_x_two = eval default_interp x_two)).
Proof.
  assert (rw_eq default_bv_params three_x_two x_two = BR_DONE (m_mk_eq two_x (const4 0))) as He by (vm_compute; reflexivity).
  split; [exact He|]. apply (rw_eq_correct default_interp default_bv_params 4 three_x_two x_two _ (proj1 three_x_two_vec)
    (proj2 three_x_two_vec)). by rewrite He.
Defined.

Lemma cancel_monomials_correct_witness :
  cancel_monomials 4 three_x_two x_two = Some (two_x, const4 0)
  /\ (eval default_interp two_x = eval default_interp (const4 0)
      <-> eval default_interp three_x_two = eval default_interp x_two).
Proof.
  assert (cancel_monomials 4 three_x_two x_two = Some (two_x, const4 0)) as Hc by (vm_compute; reflexivity).
  split; [exact Hc|].
  apply (cancel_monomials_correct default_interp 4 three_x_two x_two _ _ (proj1 three_x_two_vec) (proj2 three_x_two_vec) Hc).
Defined.

Lemma mult_inverse_correct_witness : mult_inverse 3 4 = Some 11 /\ (11 * 3) mod pow2 4 = 1 mod pow2 4.
Proof.
  pose proof (mult_inverse_correct 3 4 ltac:(lia)) as H.
  assert (mult_inverse 3 4 = Some 11) as E by (vm_compute; reflexivity). rewrite E in H. split; [exact E|apply H].
Defined.

Definition minus_one_squared : expr := bv_app OP_BSMUL_NO_OVFL [] [const4 15; const4 15].

Lemma mk_bvsmul_no_overflow_unsigned_witness :
  mk_bvsmul_no_overflow (const4 15) (const4 15) = BR_DONE m_false /\ eval default_interp minus_one_squared = VBool true.
Proof.
  exact (proj2 (proj2 (mk_bvsmul_no_overflow_unsigned default_interp (head_decl minus_one_squared) 4 (const4 15) (const4 15) 15 15
    eq_refl eq_refl eq_refl eq_refl ltac:(lia) ltac:(lia))) eq_refl eq_refl).
Defined.

(** The simplifier solves 3 x + 2 + y = 8 where y is replaced by 0, which depends
    on the assumption p. *)
Definition assumption : expr := App (mk_func_decl (SymStr "p") NullFid [] [] BoolSort) [].
Definition zero_y : expr_substitution := es_insert nibble_y (const4 0) [assumption] (new_expr_substitution true).
Definition equation : expr := m_mk_eq (bv_app OP_BADD [] [three_x_two; nibble_y]) (const4 8).
Definition solution : expr := m_mk_eq nibble_x (const4 2).
Definition no_sharing (rw : th_rewriter) (e : expr) : nat := 1.
Local Abbreviation simplified counts trace :=
  (simplify (default_th_params 1000) default_params default_bv_params by_size once no_conversion counts 100 equation
     (prepared (Some zero_y) trace)).

Lemma zero_y_sorted : sorted_subst (Some zero_y).
Proof.
  intros k v d _. cbn -[const4]. case_bool_decide as Hk; [|done]. intros [= <- _]. subst k.
  exact (const4_vec 0).
Qed.

(** No step of the run is one of the unproved rules. *)
Definition silent (r : res (expr * th_rewriter)) : bool :=
  match r with
  | Ok (_, rw) => forallb (fun st => negb (is_unproved st.1)) (default [] (m_trace (m_cfg rw)))
  | Fault _ => false
  end.

Lemma silent_agrees J log : forallb (fun st => negb (is_unproved st.1)) log = true -> Forall (agrees J) log.
Proof.
  intros Hlog. apply Forall_forall. intros [l r] Hin%list_elem_of_In Hno.
  pose proof (proj1 (forallb_forall _ _) Hlog _ Hin) as H. unfold agrees in Hno. cbn in *. by rewrite Hno in H.
Qed.

Lemma simplify_correct_witness :
  match simplified no_sharing None with
  | Ok (r, rw) => (r = solution /\ get_used_dependencies rw = [assumption])
      /\ eval default_interp r = eval default_interp equation
  | Fault _ => False
  end.
Proof.
  assert (wf equation = true) as Hw by (vm_compute; reflexivity).
  pose proof (simplify_correct (default_th_params 1000) default_params default_bv_params by_size once no_conversion
    no_sharing 100 equation (Some zero_y) eq_refl no_conversion_typed zero_y_sorted Hw) as H.
  assert (match simplified no_sharing None with
          | Ok (r, rw) => r = solution /\ get_used_dependencies rw = [assumption]
          | Fault _ => False
          end) as Hsol by (vm_compute; split; reflexivity).
  assert (silent (simplified (traced_counts no_sharing) (Some [])) = true) as Hsil by (vm_compute; reflexivity).
  destruct (simplified no_sharing None) as [[r rw0]|e]; [|exact Hsol]. split; [exact Hsol|].
  destruct H as (_ & _ & rw & log & Hrun & Hlog & Hev). rewrite Hrun in Hsil. cbn [silent] in Hsil. rewrite Hlog in Hsil.
  apply Hev; [|apply silent_agrees, Hsil]. intros k v d Hf _. cbn -[const4] in Hf.
  case_bool_decide as Hk; [|done]. injection Hf as <- _. by subst k.
Defined.
