(* ===== verification/Goal.v ===== *)
(** Goals (tactic/goal.h, goal.cpp): a vector of formulas, each with the
    assumptions it depends on. Conjunctions and negated disjunctions are split
    when they are added, and [false] replaces everything. Proofs are off, and
    converters are left out. *)
From S2P Require Import Prelude Ast AstSem AstFacts.

(** ** Goals *)

Inductive precision := PRECISE | UNDER | OVER | UNDER_OVER.

#[global] Instance precision_eq_dec : EqDecision precision.
Proof. solve_decision. Defined.

Definition mk_union (p1 p2 : precision) : precision :=
  if bool_decide (p1 = PRECISE) then p2
  else if bool_decide (p2 = PRECISE) then p1
  else if bool_decide (p1 <> p2) then UNDER_OVER
  else p1.

(** A formula of the goal, and the assumptions it depends on. *)
Record goal_entry := mk_entry { form : expr; deps : list expr }.

(** [m_depth] is a field of 26 bits; [m_core_enabled]: whether the dependencies are
    recorded. *)
Record goal := mk_goal {
  m_entries : list goal_entry;
  m_depth : N;
  m_models_enabled : bool;
  m_core_enabled : bool;
  m_inconsistent : bool;
  m_precision : precision
}.

Definition new_goal (models_enabled core_enabled : bool) : goal :=
  mk_goal [] 0 models_enabled core_enabled false PRECISE.

Definition set_entries (es : list goal_entry) (g : goal) : goal :=
  mk_goal es (m_depth g) (m_models_enabled g) (m_core_enabled g) (m_inconsistent g) (m_precision g).
Definition inc_depth (g : goal) : goal :=
  mk_goal (m_entries g) ((m_depth g + 1) mod 2 ^ 26)%N (m_models_enabled g) (m_core_enabled g) (m_inconsistent g) (m_precision g).
Definition updt_prec (p : precision) (g : goal) : goal :=
  mk_goal (m_entries g) (m_depth g) (m_models_enabled g) (m_core_enabled g) (m_inconsistent g)
    (mk_union (m_precision g) p).
Definition reset (g : goal) : goal :=
  mk_goal [] (m_depth g) (m_models_enabled g) (m_core_enabled g) false (m_precision g).

Definition entry_of (f : expr) (d : list expr) (g : goal) : goal_entry :=
  mk_entry f (if m_core_enabled g then d else []).

Definition push_back (f : expr) (d : list expr) (g : goal) : goal :=
  if is_true f then g
  else if is_false f then
    mk_goal [entry_of m_false d g] (m_depth g) (m_models_enabled g) (m_core_enabled g) true (m_precision g)
  else set_entries (m_entries g ++ [entry_of f d g]) g.

(** The loop of [quick_process], over a stack of formulas with polarities; [f]
    is the variable that receives the first formula under [save_first]. *)
Fixpoint quick_loop (fuel : nat) (todo : list (expr * bool)) (save_first : bool) (f : expr)
    (d : list expr) (g : goal) : res (expr * goal) :=
  match todo, fuel with
  | [], _ => Ok (f, g)
  | _, O => Fault OutOfFuel
  | (curr, pol) :: todo, S fuel =>
      if m_inconsistent g then Ok (f, g)
      else if pol && is_and curr then
        quick_loop fuel (map (fun a => (a, true)) (get_args curr) ++ todo) save_first f d g
      else if negb pol && is_or curr then
        quick_loop fuel (map (fun a => (a, false)) (get_args curr) ++ todo) save_first f d g
      else if is_not curr then quick_loop fuel ((get_arg curr 0, negb pol) :: todo) save_first f d g
      else
        let curr := if pol then curr else m_mk_not curr in
        if save_first then quick_loop fuel todo false curr d g
        else quick_loop fuel todo false f d (push_back curr d g)
  end.

Definition quick_process (save_first : bool) (f : expr) (d : list expr) (g : goal) : res (expr * goal) :=
  if negb (is_and f) && negb (is_not f && is_or (get_arg f 0)) then
    Ok (f, if save_first then g else push_back f d g)
  else quick_loop (size f) [(f, true)] save_first f d g.

Definition assert_expr (f : expr) (d : list expr) (g : goal) : res goal :=
  if m_inconsistent g then Ok g else '(_, g) ← quick_process false f d g; Ok g.

(** The formula that replaces the [i]th. When its first part is [false] the code
    adds the whole formula, not that part. *)
Definition update (i : nat) (f : expr) (d : list expr) (g : goal) : res goal :=
  if m_inconsistent g then Ok g
  else
    '(fr, g) ← quick_process true f d g;
    if m_inconsistent g then Ok g
    else if is_false fr then Ok (push_back f d g)
    else es ← aset (m_entries g) (Z.of_nat i) (entry_of fr d g); Ok (set_entries es g).

(** [elim_true] moves the entries that stay to the front. *)
Definition elim_true (g : goal) : goal :=
  set_entries (List.filter (fun e => negb (is_true (form e))) (m_entries g)) g.

(** The dependencies of the first entry that [p] finds. *)
Definition deps_of (p : expr -> bool) (es : list goal_entry) : list expr :=
  match List.find (fun e => p (form e)) es with Some e => deps e | None => [] end.

(** The loop of [elim_redundancies]: [kept] is the front of the vector, where
    the marked formulas are; when two formulas contradict each other the goal
    becomes [false]. *)
Fixpoint elim_loop (es kept : list goal_entry) (neg_lits pos_lits : list expr) (g : goal) : goal :=
  match es with
  | [] => set_entries kept g
  | e :: es =>
      let f := form e in
      if is_true f then elim_loop es kept neg_lits pos_lits g
      else if is_not f then
        let atom := get_arg f 0 in
        if bool_decide (atom ∈ neg_lits) then elim_loop es kept neg_lits pos_lits g
        else if bool_decide (atom ∈ pos_lits) then
          push_back m_false (deps_of (fun x => bool_decide (x = atom)) kept ++ deps e) g
        else elim_loop es (kept ++ [e]) (atom :: neg_lits) pos_lits g
      else if bool_decide (f ∈ pos_lits) then elim_loop es kept neg_lits pos_lits g
      else if bool_decide (f ∈ neg_lits) then
        push_back m_false
          (deps_of (fun x => is_not x && bool_decide (get_arg x 0 = f)) kept ++ deps e) g
      else elim_loop es (kept ++ [e]) neg_lits (f :: pos_lits) g
  end.

Definition elim_redundancies (g : goal) : goal :=
  if m_inconsistent g then g else elim_loop (m_entries g) [] [] [] g.

Definition sat_preserved (g : goal) : bool := bool_decide (m_precision g = PRECISE \/ m_precision g = UNDER).
Definition unsat_preserved (g : goal) : bool := bool_decide (m_precision g = PRECISE \/ m_precision g = OVER).
Definition is_decided_sat (g : goal) : bool := Nat.eqb (length (m_entries g)) 0 && sat_preserved g.
Definition is_decided_unsat (g : goal) : bool := m_inconsistent g && unsat_preserved g.
Definition is_decided (g : goal) : bool := is_decided_sat g || is_decided_unsat g.

Definition is_literal (f : expr) : bool :=
  match (if is_not f then get_arg f 0 else f) with
  | Var _ _ => false
  | App d args => match kind d with Basic _ => negb (existsb is_bool args) | _ => true end
  end.

(** The loop of [is_cnf], which returns at the first disjunction. *)
Fixpoint is_cnf_loop (fs : list expr) : bool :=
  match fs with
  | [] => true
  | f :: fs =>
      if is_or f then forallb is_literal (get_args f)
      else if negb (is_literal f) then false
      else is_cnf_loop fs
  end.
Definition is_cnf (g : goal) : bool := is_cnf_loop (map form (m_entries g)).

Lemma push_back_models f d g : m_models_enabled (push_back f d g) = m_models_enabled g.
Proof. unfold push_back. by destruct (is_true f), (is_false f). Qed.

Lemma quick_loop_models fuel todo b f d g f' g' :
  quick_loop fuel todo b f d g = Ok (f', g') -> m_models_enabled g' = m_models_enabled g.
Proof.
  revert todo b f g. induction fuel as [|fuel IH]; intros [|[curr pol] todo] b f g; cbn [quick_loop];
    try (by intros [= <- <-]); try done.
  destruct (m_inconsistent g); [by intros [= <- <-]|]. destruct (pol && is_and curr); [apply IH|].
  destruct (negb pol && is_or curr); [apply IH|]. destruct (is_not curr); [apply IH|].
  destruct b; [apply IH|]. intros Hr. by rewrite (IH _ _ _ _ Hr), push_back_models.
Qed.

Lemma quick_process_models b f d g f' g' :
  quick_process b f d g = Ok (f', g') -> m_models_enabled g' = m_models_enabled g.
Proof.
  unfold quick_process. destruct (_ && _); [|apply quick_loop_models].
  intros [= <- <-]. destruct b; [done|apply push_back_models].
Qed.

Lemma update_models i f d g g' : update i f d g = Ok g' -> m_models_enabled g' = m_models_enabled g.
Proof.
  unfold update. destruct (m_inconsistent g); [by intros [= <-]|]. intros ([fr g1] & Hq & Hr)%bind_ok.
  apply quick_process_models in Hq. destruct (m_inconsistent g1); [by injection Hr as <-|].
  destruct (is_false fr); [injection Hr as <-; by rewrite push_back_models|].
  apply bind_ok in Hr as (es & _ & [= <-]). done.
Qed.

(** Without cores the entries have no dependencies. *)
Definition no_deps (e : goal_entry) : Prop := deps e = [].
Definition plain (g : goal) : Prop := m_core_enabled g = false /\ Forall no_deps (m_entries g).

Lemma entry_of_plain f d g : plain g -> no_deps (entry_of f d g).
Proof. intros [Hc _]. unfold no_deps. cbn. by rewrite Hc. Qed.

Lemma push_back_plain f d g : plain g -> plain (push_back f d g).
Proof.
  intros Hg. pose proof (entry_of_plain m_false d g Hg). pose proof (entry_of_plain f d g Hg). destruct Hg as [Hc He].
  unfold push_back. destruct (is_true f); [done|]. destruct (is_false f); split; try done; cbn.
  - by constructor.
  - rewrite Forall_app. split; [done|]. by constructor.
Qed.

Lemma quick_loop_plain fuel todo b f d g f' g' :
  plain g -> quick_loop fuel todo b f d g = Ok (f', g') -> plain g'.
Proof.
  revert todo b f g. induction fuel as [|fuel IH]; intros [|[curr pol] todo] b f g Hg; cbn [quick_loop];
    try (by intros [= <- <-]); try done.
  destruct (m_inconsistent g); [by intros [= <- <-]|]. destruct (pol && is_and curr); [by apply IH|].
  destruct (negb pol && is_or curr); [by apply IH|]. destruct (is_not curr); [by apply IH|].
  destruct b; [by apply IH|]. apply IH. by apply push_back_plain.
Qed.

Lemma update_plain i f d g g' : plain g -> update i f d g = Ok g' -> plain g'.
Proof.
  intros Hg. unfold update. destruct (m_inconsistent g); [by intros [= <-]|]. intros ([fr g1] & Hq & Hr)%bind_ok.
  assert (plain g1) as Hg1.
  { unfold quick_process in Hq. destruct (_ && _); [by injection Hq as _ <-|]. by apply quick_loop_plain in Hq. }
  destruct (m_inconsistent g1); [by injection Hr as <-|].
  destruct (is_false fr); [injection Hr as <-; by apply push_back_plain|].
  apply bind_ok in Hr as (es & [_ ->]%aset_inv & [= <-]). split; [apply Hg1|]. cbn.
  apply Forall_insert; [apply Hg1|by apply entry_of_plain].
Qed.

(** ** What a goal says *)

Section Meaning.
Context (I : interp).

(** Under its assumptions: all of its formulas. *)
Definition goal_true (g : goal) : Prop := Forall (fun e => tr I (form e) = true) (m_entries g).

Definition goal_wf (g : goal) : Prop :=
  Forall (fun e => wfb (form e) = true) (m_entries g)
  /\ (m_inconsistent g = true -> exists d, m_entries g = [mk_entry m_false d]).

Lemma goal_inconsistent g : goal_wf g -> m_inconsistent g = true -> ~ goal_true g.
Proof. intros [_ Hi] Ht. destruct (Hi Ht) as [d Hd]. unfold goal_true. rewrite Hd, Forall_singleton. done. Qed.

Lemma push_back_ok f d g :
  goal_wf g -> m_inconsistent g = false -> wfb f = true ->
  goal_wf (push_back f d g) /\ (goal_true (push_back f d g) <-> goal_true g /\ tr I f = true).
Proof.
  intros [Hw Hi] Hc Hf. unfold push_back. destruct (is_true f) eqn:Ht.
  { apply is_true_spec in Ht as ->. split; [done|]. split; [done|]. by intros [? _]. }
  destruct (is_false f) eqn:Hfa.
  { apply is_false_spec in Hfa as ->. split; [split; [by repeat constructor|by eauto]|].
    unfold goal_true. cbn. rewrite Forall_singleton. split; [done|]. by intros [_ ?]. }
  split; [split|]; unfold goal_true; cbn.
  - rewrite Forall_app. by repeat constructor.
  - by rewrite Hc.
  - by rewrite Forall_app, Forall_singleton.
Qed.

(** The value of a formula under a polarity. *)
Definition polar (p : expr * bool) : bool := if p.2 then tr I p.1 else negb (tr I p.1).
Definition todo_size (todo : list (expr * bool)) : nat := sum_list (map (fun p => size p.1) todo).

Lemma todo_size_args b args todo :
  todo_size (map (fun a => (a, b)) args ++ todo) = (sum_list (map size args) + todo_size todo)%nat.
Proof. unfold todo_size. rewrite map_app, sum_list_with_app, map_map. done. Qed.
(** [g'] is [g] with formulas added, which say [parts]. *)
Definition added (parts : bool) (g g' : goal) : Prop :=
  m_core_enabled g' = m_core_enabled g
  /\ if m_inconsistent g' then parts = false
     else exists es, m_entries g' = m_entries g ++ es
            /\ (Forall (fun e => tr I (form e) = true) es <-> parts = true).

Lemma added_refl g : m_inconsistent g = false -> added true g g.
Proof. intros Hi. split; [done|]. rewrite Hi. exists []. by rewrite app_nil_r. Qed.

Lemma added_true parts g g' : goal_wf g' -> added parts g g' -> goal_true g' <-> goal_true g /\ parts = true.
Proof.
  intros Hg' [_ Ha]. destruct (m_inconsistent g') eqn:Hi'.
  - pose proof (goal_inconsistent g' Hg' Hi'). subst parts. naive_solver.
  - destruct Ha as (es & He & Hes). unfold goal_true. rewrite He, Forall_app. tauto.
Qed.

Lemma added_trans p q g1 g2 g3 :
  m_inconsistent g2 = false -> added p g1 g2 -> added q g2 g3 -> added (p && q) g1 g3.
Proof.
  intros Hi [C1 A1] [C2 A2]. split; [congruence|]. rewrite Hi in A1. destruct A1 as (es1 & E1 & H1).
  destruct (m_inconsistent g3); [by rewrite A2, andb_false_r|]. destruct A2 as (es2 & E2 & H2).
  exists (es1 ++ es2). rewrite E2, E1, app_assoc, Forall_app, andb_true_iff. tauto.
Qed.

Lemma push_back_added f d g : m_inconsistent g = false -> added (tr I f) g (push_back f d g).
Proof.
  intros Hi. unfold push_back. destruct (is_true f) eqn:Ht.
  { apply is_true_spec in Ht as ->. by apply added_refl. }
  destruct (is_false f) eqn:Hf; [apply is_false_spec in Hf as ->; by split|].
  split; [done|]. cbn. rewrite Hi. eexists. split; [done|]. by rewrite Forall_singleton.
Qed.

(** One formula of the stack: its parts, or a formula to be kept. *)
Lemma todo_cases curr pol :
  wfb curr = true ->
  if pol && is_and curr then
    Forall (fun a => wfb a = true) (get_args curr)
    /\ polar (curr, pol) = forallb polar (map (fun a => (a, true)) (get_args curr))
    /\ (sum_list (map size (get_args curr)) < size curr)%nat
  else if negb pol && is_or curr then
    Forall (fun a => wfb a = true) (get_args curr)
    /\ polar (curr, pol) = forallb polar (map (fun a => (a, false)) (get_args curr))
    /\ (sum_list (map size (get_args curr)) < size curr)%nat
  else if is_not curr then
    wfb (get_arg curr 0) = true /\ polar (curr, pol) = polar (get_arg curr 0, negb pol)
    /\ (size (get_arg curr 0) < size curr)%nat
  else
    let r := if pol then curr else m_mk_not curr in wfb r = true /\ polar (curr, pol) = tr I r.
Proof.
  intros Hw. pose proof Hw as [Hwf _]%wfb_spec. unfold polar. cbn [fst snd].
  assert (sum_list (map size (get_args curr)) < size curr \/ get_args curr = [])%nat as Hs
    by (destruct curr; [by right|left; cbn; lia]).
  assert (0 < size curr)%nat as Hp by (destruct curr; cbn; lia).
  destruct (pol && is_and curr) eqn:Ha.
  { apply andb_true_iff in Ha as [-> Ha]. destruct (and_inv I curr Ha Hwf) as (Hargs & _ & ->). split_and!; [done| |].
    - clear. induction (get_args curr) as [|a l IH]; [done|]. cbn. by f_equal.
    - destruct Hs as [?| ->]; [done|]. cbn. lia. }
  destruct (negb pol && is_or curr) eqn:Ho.
  { apply andb_true_iff in Ho as [Hpol Ho]. destruct pol; [done|].
    destruct (or_inv I curr Ho Hwf) as (Hargs & _ & ->). split_and!; [done| |].
    - clear. induction (get_args curr) as [|a l IH]; [done|]. cbn. rewrite negb_orb. by f_equal.
    - destruct Hs as [?| ->]; [done|]. cbn. lia. }
  destruct (is_not curr) eqn:Hn.
  { destruct (not_inv I curr Hn Hwf) as (x & Hx & Hargs & Hwx & _ & ->). rewrite Hx. split_and!; [done| |].
    - destruct pol; cbn; [done|]. by rewrite negb_involutive.
    - destruct Hs as [Hs|Hs]; rewrite Hargs in Hs; [cbn in Hs; lia|done]. }
  cbn zeta. destruct pol; [done|]. destruct (holds_not I (tr I curr) curr) as [Hwn Hv]; [done|]. by rewrite Hv.
Qed.
Lemma quick_loop_inconsistent fuel todo b f d g :
  m_inconsistent g = true -> (todo_size todo <= fuel)%nat -> quick_loop fuel todo b f d g = Ok (f, g).
Proof.
  intros Hi Hfuel. destruct todo as [|[curr pol] todo]; [by destruct fuel|].
  destruct fuel as [|fuel]; [unfold todo_size in Hfuel; cbn in Hfuel; destruct curr; cbn in Hfuel; lia|].
  cbn. by rewrite Hi.
Qed.

(** What the loop adds is what the stack says; its fuel is the size. *)
Lemma quick_loop_ok fuel todo f d g :
  Forall (fun p => wfb p.1 = true) todo -> goal_wf g -> m_inconsistent g = false -> (todo_size todo <= fuel)%nat ->
  exists g', quick_loop fuel todo false f d g = Ok (f, g') /\ goal_wf g' /\ added (forallb polar todo) g g'.
Proof.
  revert todo g. induction fuel as [|fuel IH]; intros todo g Hw Hg Hi Hfuel.
  { destruct todo as [|[curr pol] todo]; [|unfold todo_size in Hfuel; cbn in Hfuel; destruct curr; cbn in Hfuel; lia].
    exists g. split_and!; [done|done|by apply added_refl]. }
  destruct todo as [|[curr pol] todo]; cbn [quick_loop].
  { exists g. split_and!; [done|done|by apply added_refl]. }
  rewrite Hi. apply Forall_cons in Hw as [Hc Hw]. cbn in Hc. unfold todo_size in Hfuel. cbn in Hfuel.
  fold (todo_size todo) in Hfuel. pose proof (todo_cases curr pol Hc) as Hcase. cbn [forallb].
  assert (forall b, Forall (fun a => wfb a = true) (get_args curr) ->
    Forall (fun p : expr * bool => wfb p.1 = true) (map (fun a => (a, b)) (get_args curr) ++ todo)) as Happ.
  { intros b Ha. rewrite Forall_app, Forall_map. by split. }
  destruct (pol && is_and curr); [|destruct (negb pol && is_or curr); [|destruct (is_not curr)]].
  - destruct Hcase as (Ha & -> & Hs). rewrite <- forallb_app. apply IH; try done; [by apply Happ|].
    rewrite todo_size_args. lia.
  - destruct Hcase as (Ha & -> & Hs). rewrite <- forallb_app. apply IH; try done; [by apply Happ|].
    rewrite todo_size_args. lia.
  - destruct Hcase as (Ha & -> & Hs).
    apply (IH ((get_arg curr 0, negb pol) :: todo)); try done; [by constructor|].
    unfold todo_size. cbn. fold (todo_size todo). lia.
  - destruct Hcase as [Hwr ->]. set (r := if pol then curr else m_mk_not curr) in *.
    destruct (push_back_ok r d g Hg Hi Hwr) as [Hg1 _]. pose proof (push_back_added r d g Hi) as Ha.
    assert (todo_size todo <= fuel)%nat as Hf by (destruct curr; cbn in Hfuel; lia).
    destruct (m_inconsistent (push_back r d g)) eqn:Hi1.
    + rewrite quick_loop_inconsistent by done. eexists. split_and!; [done|done|]. destruct Ha as [Hcore Ha].
      split; [done|]. rewrite Hi1 in *. by rewrite Ha.
    + destruct (IH todo (push_back r d g) Hw Hg1 Hi1 Hf) as (g' & Hr & Hg' & Ha'). exists g'.
      split_and!; [done|done|by eapply added_trans].
Qed.

(** Under [save_first] the first part is left to the caller. *)
Lemma quick_loop_first fuel todo f d g :
  Forall (fun p => wfb p.1 = true) todo -> goal_wf g -> m_inconsistent g = false -> (todo_size todo <= fuel)%nat ->
  wfb f = true -> tr I f = forallb polar todo ->
  exists f' g' parts, quick_loop fuel todo true f d g = Ok (f', g') /\ goal_wf g' /\ wfb f' = true
    /\ added parts g g' /\ tr I f = tr I f' && parts.
Proof.
  revert todo. induction fuel as [|fuel IH]; intros todo Hw Hg Hi Hfuel Hf Hv.
  { destruct todo as [|[curr pol] todo]; [|unfold todo_size in Hfuel; cbn in Hfuel; destruct curr; cbn in Hfuel; lia].
    exists f, g, true. rewrite andb_true_r. split_and!; try done. by apply added_refl. }
  destruct todo as [|[curr pol] todo]; cbn [quick_loop].
  { exists f, g, true. rewrite andb_true_r. split_and!; try done. by apply added_refl. }
  rewrite Hi. apply Forall_cons in Hw as [Hc Hw]. cbn in Hc. unfold todo_size in Hfuel. cbn in Hfuel.
  fold (todo_size todo) in Hfuel. pose proof (todo_cases curr pol Hc) as Hcase. cbn [forallb] in Hv.
  assert (forall b, Forall (fun a => wfb a = true) (get_args curr) ->
    Forall (fun p : expr * bool => wfb p.1 = true) (map (fun a => (a, b)) (get_args curr) ++ todo)) as Happ.
  { intros b Ha. rewrite Forall_app, Forall_map. by split. }
  destruct (pol && is_and curr); [|destruct (negb pol && is_or curr); [|destruct (is_not curr)]].
  - destruct Hcase as (Ha & Hp & Hs). apply IH; [by apply Happ|done..|rewrite todo_size_args; lia|done|].
    by rewrite Hv, Hp, forallb_app.
  - destruct Hcase as (Ha & Hp & Hs). apply IH; [by apply Happ|done..|rewrite todo_size_args; lia|done|].
    by rewrite Hv, Hp, forallb_app.
  - destruct Hcase as (Ha & Hp & Hs). apply IH; [by constructor|done..| |done|by rewrite Hv, Hp].
    unfold todo_size. cbn. fold (todo_size todo). lia.
  - destruct Hcase as [Hwr Hp]. set (r := if pol then curr else m_mk_not curr) in *.
    destruct (quick_loop_ok fuel todo r d g Hw Hg Hi) as (g' & Hr & Hg' & Ha); [destruct curr; cbn in Hfuel; lia|].
    exists r, g', (forallb polar todo). by rewrite Hv, Hp.
Qed.

Lemma quick_process_ok f d g :
  goal_wf g -> m_inconsistent g = false -> wfb f = true ->
  exists g', quick_process false f d g = Ok (f, g') /\ goal_wf g' /\ added (tr I f) g g'.
Proof.
  intros Hg Hi Hf. unfold quick_process. destruct (_ && _).
  { destruct (push_back_ok f d g Hg Hi Hf) as [Hg' _]. eexists. split_and!; [done|done|by apply push_back_added]. }
  destruct (quick_loop_ok (size f) [(f, true)] f d g) as (g' & Hr & Hg' & Ha);
    [by constructor|done|done|unfold todo_size; cbn; lia|].
  exists g'. split_and!; [done..|]. cbn in Ha. unfold polar in Ha. cbn in Ha. by rewrite andb_true_r in Ha.
Qed.

Lemma quick_process_first f d g :
  goal_wf g -> m_inconsistent g = false -> wfb f = true ->
  exists f' g' parts, quick_process true f d g = Ok (f', g') /\ goal_wf g' /\ wfb f' = true
    /\ added parts g g' /\ tr I f = tr I f' && parts.
Proof.
  intros Hg Hi Hf. unfold quick_process. destruct (_ && _).
  { exists f, g, true. rewrite andb_true_r. split_and!; try done. by apply added_refl. }
  apply quick_loop_first; try done; [by constructor|unfold todo_size; cbn; lia|].
  cbn. unfold polar. cbn. by rewrite andb_true_r.
Qed.

Lemma assert_expr_ok f d g :
  goal_wf g -> wfb f = true ->
  exists g', assert_expr f d g = Ok g' /\ goal_wf g' /\ (goal_true g' <-> goal_true g /\ tr I f = true).
Proof.
  intros Hg Hf. unfold assert_expr. destruct (m_inconsistent g) eqn:Hi.
  { exists g. split_and!; try done. pose proof (goal_inconsistent g Hg Hi). tauto. }
  destruct (quick_process_ok f d g Hg Hi Hf) as (g' & -> & Hg' & Ha). cbn. exists g'. split_and!; [done..|].
  by apply added_true.
Qed.

(** The formulas of the goal but for those whose positions [Q] leaves out. *)
Definition rest_true (Q : nat -> Prop) (g : goal) : Prop :=
  forall j x, ~ Q j -> m_entries g !! j = Some x -> tr I (form x) = true.

Lemma rest_true_all g : rest_true (fun _ => False) g <-> goal_true g.
Proof. unfold rest_true, goal_true. rewrite Forall_lookup. naive_solver. Qed.

(** What [update] leaves, away from the positions [Q]. *)
Definition updated (Q : nat -> Prop) (i : nat) (f : expr) (g g' : goal) : Prop :=
  if m_inconsistent g' then tr I f = false
  else rest_true Q g' <-> rest_true (fun j => Q j \/ j = i) g /\ tr I f = true.

Lemma update_ok i f d g :
  goal_wf g -> wfb f = true -> m_inconsistent g = false -> (i < length (m_entries g))%nat ->
  exists g', update i f d g = Ok g' /\ goal_wf g'
    /\ (forall Q, (forall j, Q j -> j < length (m_entries g) /\ j <> i)%nat -> updated Q i f g g')
    /\ m_core_enabled g' = m_core_enabled g
    /\ (m_inconsistent g' = true \/ length (m_entries g) <= length (m_entries g')
        /\ forall j, j <> i -> j < length (m_entries g) -> m_entries g' !! j = m_entries g !! j)%nat.
Proof.
  intros Hg Hf Hi Hlt. unfold update, updated. rewrite Hi. destruct (lookup_lt_is_Some_2 _ _ Hlt) as [e He].
  destruct (quick_process_first f d g Hg Hi Hf) as (f' & g1 & parts & -> & Hg1 & Hf' & [Hcore Ha] & Hv).
  cbn [mbind res_bind]. destruct (m_inconsistent g1) eqn:Hi1.
  { exists g1. rewrite Hv, Ha, andb_false_r, Hi1. split_and!; try done. by left. }
  destruct Ha as (es & Hes & Hparts).
  destruct (is_false f') eqn:Hff.
  - apply is_false_spec in Hff as ->. assert (tr I f = false) as Hfalse by by rewrite Hv.
    destruct (push_back_ok f d g1 Hg1 Hi1 Hf) as [Hg' Hiff']. eexists. split; [done|].
    pose proof (push_back_added f d g1 Hi1) as [Hcore' Ha']. split_and!; [done| |congruence|].
    + intros Q HQ. destruct (m_inconsistent (push_back f d g1)) eqn:Hi2; [done|].
      destruct Ha' as (es' & He' & Hes'). rewrite Hfalse in *. split; [|naive_solver].
      intros Hall. exfalso. assert (Forall (fun e => tr I (form e) = true) es') as Hall'; [|by apply Hes' in Hall'].
      rewrite Forall_lookup. intros j x Hx. apply (Hall (length (m_entries g1) + j)%nat x).
      * intros [HQj _]%HQ. rewrite Hes, length_app in HQj. lia.
      * rewrite He', lookup_app_r by lia. by replace (length (m_entries g1) + j - length (m_entries g1))%nat with j by lia.
    + destruct (m_inconsistent (push_back f d g1)) eqn:Hi2; [by left|right].
      destruct Ha' as (es' & -> & _). rewrite Hes, !length_app. split; [lia|].
      intros j _ Hj. rewrite lookup_app_l by (rewrite length_app; lia). by rewrite lookup_app_l.
  - rewrite aset_nat by (rewrite Hes, length_app; lia). cbn [mbind res_bind].
    set (e' := entry_of f' d g1). assert (form e' = f') as Hform by done. clearbody e'.
    eexists. split; [done|]. destruct Hg1 as [Hw1 _]. split_and!; [split| |done|right; split]; cbn.
    + apply Forall_insert; [done|by rewrite Hform].
    + by rewrite Hi1.
    + intros Q HQ. rewrite Hi1. unfold rest_true. cbn. rewrite Hes, Hv, andb_true_iff, <- Hparts, Forall_lookup.
      split.
      * intros Hall. split_and!.
        -- intros j x Hj Hx. apply (Hall j x); [tauto|]. rewrite list_lookup_insert_ne by (intros ->; tauto).
           by rewrite lookup_app_l by (by eapply lookup_lt_Some).
        -- rewrite <- Hform. apply (Hall i); [by intros [_ ?]%HQ|].
           apply list_lookup_insert_eq. rewrite length_app. lia.
        -- intros j x Hx. apply (Hall (length (m_entries g) + j)%nat x); [intros [HQj _]%HQ; lia|].
           rewrite list_lookup_insert_ne, lookup_app_r by lia.
           by replace (length (m_entries g) + j - length (m_entries g))%nat with j by lia.
      * intros (Hall & Htf & Hp) j x Hj Hx.
        apply list_lookup_insert_Some in Hx as [(_ & <- & _)|[Hij Hx]]; [by rewrite Hform|].
        apply lookup_app_Some in Hx as [Hx|[_ Hx]]; [|by eapply Hp]. apply (Hall j); [|done]. naive_solver.
    + rewrite length_insert, Hes, length_app. lia.
    + intros j Hj Hlj. rewrite list_lookup_insert_ne by done. rewrite Hes. by rewrite lookup_app_l.
Qed.

(** The goal says what it says with [f] in the place of the [i]th formula. *)
Lemma update_true i f g g' :
  goal_wf g' -> (forall Q, (forall j, Q j -> j < length (m_entries g) /\ j <> i)%nat -> updated Q i f g g') ->
  goal_true g' <-> rest_true (eq i) g /\ tr I f = true.
Proof.
  intros Hg' Hu. specialize (Hu (fun _ => False) ltac:(done)). unfold updated in Hu. rewrite <- rest_true_all.
  destruct (m_inconsistent g') eqn:Hi'.
  - rewrite rest_true_all. pose proof (goal_inconsistent g' Hg' Hi'). rewrite Hu. naive_solver.
  - rewrite Hu. unfold rest_true. naive_solver.
Qed.

(** ** Redundant formulas *)

Lemma elim_true_ok g : goal_wf g -> m_inconsistent g = false -> goal_wf (elim_true g) /\ (goal_true (elim_true g) <-> goal_true g).
Proof.
  intros [Hw _] Hi. split; [split; [|by cbn; rewrite Hi]|]; unfold goal_true; cbn.
  - rewrite Forall_forall in *. intros e He. apply Hw. apply list_elem_of_In in He. apply list_elem_of_In.
    by apply filter_In in He as [? _].
  - rewrite !Forall_forall. setoid_rewrite list_elem_of_In. setoid_rewrite filter_In. split; [|naive_solver].
    intros Hall e He. destruct (is_true (form e)) eqn:Ht; [by apply is_true_spec in Ht as ->|].
    apply Hall. by rewrite Ht.
Qed.

(** No formula twice, none that is [true], and no atom beside its negation. *)
Definition irredundant (fs : list expr) : Prop :=
  NoDup fs /\ m_true ∉ fs
  /\ forall x y, x ∈ fs -> y ∈ fs -> is_not x = true -> is_not y = false -> get_arg x 0 <> y.

(** The marks are the literals that were kept. *)
Record marked (fs neg_lits pos_lits : list expr) : Prop := mk_marked {
  marked_neg : forall a, a ∈ neg_lits <-> exists x, x ∈ fs /\ is_not x = true /\ get_arg x 0 = a;
  marked_pos : forall a, a ∈ pos_lits <-> a ∈ fs /\ is_not a = false
}.

Lemma irredundant_snoc fs f :
  irredundant fs -> f ∉ fs -> is_true f = false ->
  (forall x, x ∈ fs -> is_not x = true -> is_not f = false -> get_arg x 0 <> f) ->
  (forall y, y ∈ fs -> is_not f = true -> is_not y = false -> get_arg f 0 <> y) ->
  irredundant (fs ++ [f]).
Proof.
  intros (Hd & Ht & Hn) Hf Htf Hx Hy. split_and!.
  - apply NoDup_app. split_and!; [done|set_solver|by apply NoDup_singleton].
  - rewrite elem_of_app, list_elem_of_singleton. intros [?| <-]; [done|].
    unfold is_true in Htf. by apply bool_decide_eq_false in Htf.
  - intros x y Hxf Hyf Hnx Hny Heq. rewrite elem_of_app, list_elem_of_singleton in Hxf, Hyf.
    destruct Hxf as [Hxf| ->], Hyf as [Hyf| ->].
    + by apply (Hn x y).
    + by apply (Hx x).
    + by apply (Hy y).
    + congruence.
Qed.

Lemma marked_snoc_neg fs ns ps f :
  marked fs ns ps -> is_not f = true -> marked (fs ++ [f]) (get_arg f 0 :: ns) ps.
Proof.
  intros [Hn Hp] Hf. split; intros a.
  - rewrite elem_of_cons, Hn. setoid_rewrite elem_of_app. setoid_rewrite list_elem_of_singleton. naive_solver.
  - rewrite Hp, elem_of_app, list_elem_of_singleton. naive_solver congruence.
Qed.

Lemma marked_snoc_pos fs ns ps f :
  marked fs ns ps -> is_not f = false -> marked (fs ++ [f]) ns (f :: ps).
Proof.
  intros [Hn Hp] Hf. split; intros a.
  - rewrite Hn. setoid_rewrite elem_of_app. setoid_rewrite list_elem_of_singleton. naive_solver congruence.
  - rewrite elem_of_cons, Hp, elem_of_app, list_elem_of_singleton. naive_solver.
Qed.

Lemma not_value x a : wfb x = true -> is_not x = true -> get_arg x 0 = a -> tr I x = negb (tr I a).
Proof. intros [Hw _]%wfb_spec Hn <-. destruct (not_inv I x Hn Hw) as (y & -> & _ & _ & _ & ->). done. Qed.

Lemma contradiction d g :
  exists d', m_entries (push_back m_false d g) = [mk_entry m_false d'] /\ m_inconsistent (push_back m_false d g) = true.
Proof. by eexists. Qed.

Lemma elim_loop_ok es kept neg_lits pos_lits g :
  m_inconsistent g = false -> Forall (fun e => wfb (form e) = true) (kept ++ es) ->
  irredundant (map form kept) -> marked (map form kept) neg_lits pos_lits ->
  let g' := elim_loop es kept neg_lits pos_lits g in
  goal_wf g' /\ (goal_true g' <-> Forall (fun e => tr I (form e) = true) (kept ++ es))
  /\ (m_inconsistent g' = false -> irredundant (map form (m_entries g'))).
Proof.
  intros Hi. revert kept neg_lits pos_lits.
  induction es as [|e es IH]; intros kept neg_lits pos_lits Hw Hirr Hm; cbn [elim_loop].
  { rewrite app_nil_r in *. cbn. split_and!; try done. split; [done|]. cbn. by rewrite Hi. }
  pose proof Hw as [Hwk [Hwe Hwes]%Forall_cons]%Forall_app.
  assert (forall d : list expr, ~ Forall (fun e => tr I (form e) = true) (kept ++ e :: es) ->
    let g' := push_back m_false d g in
    goal_wf g' /\ (goal_true g' <-> Forall (fun e => tr I (form e) = true) (kept ++ e :: es))
    /\ (m_inconsistent g' = false -> irredundant (map form (m_entries g')))) as Hfalse.
  { intros d Hn. destruct (contradiction d g) as (d' & He & Hi'). cbn zeta.
    unfold goal_true. rewrite He. split_and!; [split; rewrite ?He; [by repeat constructor|by eauto]| |congruence].
    rewrite Forall_singleton. naive_solver. }
  assert ((Forall (fun e => tr I (form e) = true) kept -> tr I (form e) = true) ->
    let g' := elim_loop es kept neg_lits pos_lits g in
    goal_wf g' /\ (goal_true g' <-> Forall (fun e => tr I (form e) = true) (kept ++ e :: es))
    /\ (m_inconsistent g' = false -> irredundant (map form (m_entries g')))) as Hskip.
  { intros Himp. destruct (IH kept neg_lits pos_lits) as (Hg & Hiff & Hir); [by apply Forall_app|done|done|].
    cbn. rewrite Hiff, !Forall_app, Forall_cons. by split_and!; [|tauto|]. }
  assert (forall neg_lits' pos_lits', irredundant (map form (kept ++ [e])) ->
    marked (map form (kept ++ [e])) neg_lits' pos_lits' ->
    let g' := elim_loop es (kept ++ [e]) neg_lits' pos_lits' g in
    goal_wf g' /\ (goal_true g' <-> Forall (fun e => tr I (form e) = true) (kept ++ e :: es))
    /\ (m_inconsistent g' = false -> irredundant (map form (m_entries g')))) as Hkeep.
  { intros neg' pos' Hirr' Hm'. destruct (IH (kept ++ [e]) neg' pos') as (Hg & Hiff & Hir); [by rewrite <- app_assoc|done|done|].
    cbn. rewrite Hiff, <- app_assoc. by split_and!. }
  clear IH. set (f := form e) in *. destruct Hm as [Hneg Hpos].
  destruct (is_true f) eqn:Htf; [apply Hskip; by apply is_true_spec in Htf as ->|].
  assert (forall x, x ∈ map form kept -> wfb x = true /\ (Forall (fun e => tr I (form e) = true) kept -> tr I x = true)) as Hkept.
  { rewrite Forall_forall in Hwk. intros x (y & -> & Hy)%list_elem_of_fmap. split; [by apply Hwk|].
    rewrite Forall_forall. auto. }
  destruct (is_not f) eqn:Hnf.
  - set (a := get_arg f 0). case_bool_decide as Hna.
    { apply Hskip. intros Hall. apply Hneg in Hna as (x & Hx & Hnx & Hax). destruct (Hkept x Hx) as [Hwx Htx].
      rewrite (not_value f a) by done. rewrite <- (not_value x a) by done. auto. }
    case_bool_decide as Hpa.
    { apply Hfalse. rewrite Forall_app, Forall_cons. intros (Hall & Hte & _). apply Hpos in Hpa as [Hx _].
      destruct (Hkept a Hx) as [_ Hta]. fold f in Hte. rewrite (not_value f a) in Hte by done. by rewrite Hta in Hte. }
    apply Hkeep; rewrite map_app; [|by apply marked_snoc_neg].
    apply irredundant_snoc; try done.
    + intros Hin. apply Hna, Hneg. by exists f.
    + intros x _ _ Hff. fold f in Hff. by rewrite Hnf in Hff.
    + intros y Hy _ Hny Heq. fold f a in Heq. apply Hpa, Hpos. by rewrite Heq.
  - case_bool_decide as Hpf.
    { apply Hskip. apply Hpos in Hpf as [Hx _]. by apply Hkept. }
    case_bool_decide as Hnf'.
    { apply Hfalse. rewrite Forall_app, Forall_cons. intros (Hall & Hte & _).
      apply Hneg in Hnf' as (x & Hx & Hnx & Hax). destruct (Hkept x Hx) as [Hwx Htx].
      fold f in Hte. specialize (Htx Hall). by rewrite (not_value x f), Hte in Htx by done. }
    apply Hkeep; rewrite map_app; [|by apply marked_snoc_pos].
    apply irredundant_snoc; try done.
    + intros Hin. by apply Hpf, Hpos.
    + intros x Hx Hnx _ Heq. apply Hnf', Hneg. by exists x.
    + intros y _ Hny. fold f in Hny. by rewrite Hnf in Hny.
Qed.

(** What is left is part of the entries, or a contradiction of two of them that
    depends on what they depend on. *)
Definition reduced (es : list goal_entry) (g g' : goal) : Prop :=
  (forall e, e ∈ m_entries g' -> e ∈ es)
  \/ exists e1 e2 d, e1 ∈ es /\ e2 ∈ es /\ is_not (form e1) = true /\ get_arg (form e1) 0 = form e2
       /\ (forall x, x ∈ d <-> x ∈ deps e1 \/ x ∈ deps e2) /\ m_entries g' = [entry_of m_false d g].

Lemma deps_of_found (p : expr -> bool) es f :
  f ∈ map form es -> p f = true -> exists e, e ∈ es /\ p (form e) = true /\ deps_of p es = deps e.
Proof.
  intros (e & -> & He)%list_elem_of_fmap Hp. unfold deps_of.
  destruct (List.find (fun e => p (form e)) es) as [e'|] eqn:Hf.
  - apply find_some in Hf as [Hin Hp']. exists e'. split_and!; [by apply list_elem_of_In|done|done].
  - apply list_elem_of_In in He. pose proof (find_none _ _ Hf e He) as Hn. cbn in Hn. congruence.
Qed.

Lemma elim_loop_entries es kept neg_lits pos_lits g :
  marked (map form kept) neg_lits pos_lits ->
  reduced (kept ++ es) g (elim_loop es kept neg_lits pos_lits g).
Proof.
  revert kept neg_lits pos_lits. induction es as [|e es IH]; intros kept neg_lits pos_lits Hm; cbn [elim_loop].
  { left. cbn. by rewrite app_nil_r. }
  assert (forall neg' pos' g', marked (map form kept) neg' pos' -> g' = elim_loop es kept neg' pos' g ->
    reduced (kept ++ e :: es) g g') as Hskip.
  { intros neg' pos' g' Hm' ->. destruct (IH kept neg' pos' Hm') as [Hl|(e1 & e2 & d & H1 & H2 & Hr)].
    - left. intros x Hx%Hl. set_solver.
    - right. exists e1, e2, d. split; [set_solver|]. split; [set_solver|done]. }
  assert (forall neg' pos', marked (map form (kept ++ [e])) neg' pos' ->
    reduced (kept ++ e :: es) g (elim_loop es (kept ++ [e]) neg' pos' g)) as Hkeep.
  { intros neg' pos' Hm'. specialize (IH _ _ _ Hm'). by rewrite <- app_assoc in IH. }
  assert (forall d e1, e1 ∈ kept -> d = deps e1 ->
    (is_not (form e) = true /\ get_arg (form e) 0 = form e1 \/ is_not (form e1) = true /\ get_arg (form e1) 0 = form e) ->
    reduced (kept ++ e :: es) g (push_back m_false (d ++ deps e) g)) as Hfalse.
  { intros d e1 He1 -> Hc. right. assert (e1 ∈ kept ++ e :: es /\ e ∈ kept ++ e :: es) as [Hi1 Hi] by set_solver.
    destruct Hc as [[Hn Ha]|[Hn Ha]]; [exists e, e1|exists e1, e]; exists (deps e1 ++ deps e);
      split_and!; try done; intros x; rewrite elem_of_app; tauto. }
  destruct (is_true (form e)); [by eapply Hskip|]. destruct (is_not (form e)) eqn:Hn.
  - case_bool_decide; [by eapply Hskip|]. case_bool_decide as Hp.
    + apply Hm in Hp as [Hp _]. destruct (deps_of_found (fun x => bool_decide (x = get_arg (form e) 0)) kept _ Hp)
        as (e1 & He1 & Hf%bool_decide_eq_true & Hd); [by apply bool_decide_eq_true|].
      apply (Hfalse _ e1); [done|done|]. left. by rewrite Hf.
    + apply Hkeep. rewrite map_app. by apply marked_snoc_neg.
  - case_bool_decide; [by eapply Hskip|]. case_bool_decide as Hp.
    + apply Hm in Hp as (x & Hx & Hnx & Hax).
      destruct (deps_of_found (fun x => is_not x && bool_decide (get_arg x 0 = form e)) kept x Hx)
        as (e1 & He1 & [Hf Hg%bool_decide_eq_true]%andb_true_iff & Hd); [by rewrite Hnx, bool_decide_eq_true_2|].
      apply (Hfalse _ e1); [done|done|]. right. done.
    + apply Hkeep. rewrite map_app. by apply marked_snoc_pos.
Qed.

Lemma elim_redundancies_entries g : reduced (m_entries g) g (elim_redundancies g).
Proof.
  unfold elim_redundancies. destruct (m_inconsistent g); [by left|].
  apply (elim_loop_entries (m_entries g) [] [] []). split; intros a; set_solver.
Qed.

(** The reduced goal says the same. *)
Lemma elim_redundancies_ok g :
  goal_wf g ->
  goal_wf (elim_redundancies g) /\ (goal_true (elim_redundancies g) <-> goal_true g)
  /\ (m_inconsistent (elim_redundancies g) = false -> irredundant (map form (m_entries (elim_redundancies g)))).
Proof.
  intros Hg. unfold elim_redundancies. destruct (m_inconsistent g) eqn:Hi; [split; [done|split; [done|congruence]]|].
  apply (elim_loop_ok (m_entries g) [] [] []); [done|apply Hg| |split; intros a; set_solver].
  repeat split; [constructor|set_solver|]. intros x y Hx. by apply not_elem_of_nil in Hx.
Qed.

(** C15: [elim_redundancies] leaves a goal that says the same: it is inconsistent
    only if two of its formulas contradict each other, and otherwise no formula
    occurs twice, none is [true], and no atom stands beside its negation. *)
Theorem elim_redundancies_correct g :
  goal_wf g ->
  goal_wf (elim_redundancies g) /\ (goal_true (elim_redundancies g) <-> goal_true g)
  /\ (m_inconsistent (elim_redundancies g) = false -> irredundant (map form (m_entries (elim_redundancies g)))).
Proof. apply elim_redundancies_ok. Qed.
End Meaning.
