(* ===== verification/GoalUnder.v ===== *)
(** What a goal says under some of its assumptions: the formulas whose
    dependencies are among them. A tactic that keeps this keeps the cores. *)
From S2P Require Import Prelude Ast AstSem AstFacts Goal.

Section Under.
Context (U : list expr) (I : interp).

(** The formulas under [U], but for those at the positions [Q]. *)
Definition rest_under (Q : nat -> Prop) (g : goal) : Prop :=
  forall j e, ~ Q j -> m_entries g !! j = Some e -> deps e ⊆ U -> tr I (form e) = true.

Definition goal_under (g : goal) : Prop := Forall (fun e => deps e ⊆ U -> tr I (form e) = true) (m_entries g).

Lemma goal_under_rest g : goal_under g <-> rest_under (fun _ => False) g.
Proof. unfold goal_under, rest_under. rewrite Forall_lookup. naive_solver. Qed.

Lemma goal_true_under g : goal_true I g -> goal_under g.
Proof. intros Ht. eapply Forall_impl; [exact Ht|]. auto. Qed.

Lemma rest_true_under Q g : rest_true I Q g -> rest_under Q g.
Proof. intros Hr j e Hj He _. by eapply Hr. Qed.

(** All formulas at once. *)
Lemma plain_under g : plain g -> goal_under g -> goal_true I g.
Proof.
  intros [_ Hp] Hu. unfold goal_under, goal_true in *. rewrite Forall_forall in *. intros e He.
  apply Hu; [done|]. rewrite (Hp e He). set_solver.
Qed.
End Under.

(** Either cores are enabled or no formula has dependencies. *)
Definition tracked (g : goal) : Prop := m_core_enabled g = true \/ plain g.

(** The dependencies that an entry of the goal records. *)
Definition recorded (g : goal) (d : list expr) : list expr := if m_core_enabled g then d else [].

Lemma recorded_entry f d g : entry_of f d g = mk_entry f (recorded g d).
Proof. done. Qed.

(** ** New entries *)

Definition adds (d : list expr) (g g' : goal) : Prop :=
  m_core_enabled g' = m_core_enabled g
  /\ forall j e, m_entries g' !! j = Some e -> deps e = recorded g d \/ m_entries g !! j = Some e.

Lemma adds_refl d g : adds d g g.
Proof. split; [done|]. by right. Qed.

Lemma adds_trans d g1 g2 g3 : adds d g1 g2 -> adds d g2 g3 -> adds d g1 g3.
Proof.
  intros [C1 A1] [C2 A2]. split; [congruence|]. intros j e Hj.
  destruct (A2 j e Hj) as [He|He]; [|by apply A1]. left. rewrite He. unfold recorded. by rewrite C1.
Qed.

Lemma push_back_adds f d g : adds d g (push_back f d g).
Proof.
  unfold push_back. destruct (is_true f); [apply adds_refl|]. destruct (is_false f); split; try done; cbn; intros j e He.
  - left. by apply list_lookup_singleton_Some in He as [_ <-].
  - apply lookup_app_Some in He as [He|[_ He]]; [by right|]. left.
    by apply list_lookup_singleton_Some in He as [_ <-].
Qed.

Lemma quick_loop_adds fuel todo b f d g f' g' : quick_loop fuel todo b f d g = Ok (f', g') -> adds d g g'.
Proof.
  revert todo b f g. induction fuel as [|fuel IH]; intros [|[curr pol] todo] b f g; cbn [quick_loop];
    try (by intros [= _ <-]; apply adds_refl); try done.
  destruct (m_inconsistent g); [by intros [= _ <-]; apply adds_refl|]. destruct (pol && is_and curr); [apply IH|].
  destruct (negb pol && is_or curr); [apply IH|]. destruct (is_not curr); [apply IH|].
  destruct b; [apply IH|]. intros Hr%IH. eapply adds_trans; [apply push_back_adds|exact Hr].
Qed.

Lemma update_adds i f d g g' : update i f d g = Ok g' -> adds d g g'.
Proof.
  unfold update. destruct (m_inconsistent g); [by intros [= <-]; apply adds_refl|]. intros ([fr g1] & Hq & Hr)%bind_ok.
  assert (adds d g g1) as Hg1.
  { unfold quick_process in Hq. destruct (_ && _); [injection Hq as _ <-; apply adds_refl|]. by apply quick_loop_adds in Hq. }
  destruct (m_inconsistent g1); [by injection Hr as <-|].
  destruct (is_false fr); [injection Hr as <-; eapply adds_trans; [exact Hg1|apply push_back_adds]|].
  apply bind_ok in Hr as (es & [_ ->]%aset_inv & [= <-]). eapply adds_trans; [exact Hg1|].
  split; [done|]. cbn. intros j e [(_ & <- & _)|[_ He]]%list_lookup_insert_Some; [by left|by right].
Qed.

(** ** Update *)

Definition same_options (g g' : goal) : Prop :=
  m_core_enabled g' = m_core_enabled g /\ m_models_enabled g' = m_models_enabled g.

(** The position [i] of [g] has been updated by a formula that depends on [d]. *)
Record replaced_at (i : nat) (f : expr) (d : list expr) (g g' : goal) : Prop := mk_replaced_at {
  rep_wf : goal_wf g';
  rep_options : same_options g g';
  rep_tracked : tracked g';
  rep_true I : goal_true I g' <-> rest_true I (eq i) g /\ tr I f = true;
  rep_under U I : goal_under U I g -> (recorded g d ⊆ U -> tr I f = true) -> goal_under U I g';
  rep_rest Q U I : m_inconsistent g' = false -> Q i -> (forall j, Q j -> j < length (m_entries g))%nat ->
    rest_under U I (fun j => Q j /\ j <> i) g' -> rest_under U I Q g /\ (recorded g d ⊆ U -> tr I f = true);
  rep_length : m_inconsistent g' = false -> (length (m_entries g) <= length (m_entries g'))%nat;
  rep_keeps j : m_inconsistent g' = false -> (j < length (m_entries g))%nat -> j <> i ->
    m_entries g' !! j = m_entries g !! j
}.

(** The formulas of [g] that are not known under [U], and those at [Q]. *)
Definition unknown (U : list expr) (Q : nat -> Prop) (i : nat) (g : goal) (j : nat) : Prop :=
  (j < length (m_entries g) /\ j <> i)%nat /\ (Q j \/ exists e, m_entries g !! j = Some e /\ ~ deps e ⊆ U).

Lemma known_under U I Q i g e :
  m_entries g !! i = Some e ->
  rest_under U I (fun j => Q j \/ j = i) g -> rest_true I (fun j => unknown U Q i g j \/ j = i) g.
Proof.
  intros Hi Hr j x Hj Hx. apply (Hr j x); [|done|].
  - intros [HQ| ->]; [|tauto]. apply Hj. destruct (decide (j = i)); [by right|]. left. split; [|by left].
    split; [by eapply lookup_lt_Some|done].
  - destruct (decide (deps x ⊆ U)) as [|Hd]; [done|]. destruct Hj. destruct (decide (j = i)); [by right|]. left.
    split; [split; [by eapply lookup_lt_Some|done]|right; eauto].
Qed.

Lemma update_replaced i f d g e :
  goal_wf g -> tracked g -> wfb f = true -> m_inconsistent g = false -> m_entries g !! i = Some e ->
  deps e ⊆ recorded g d ->
  exists g', update i f d g = Ok g' /\ replaced_at i f d g g'.
Proof.
  intros Hg Htr Hf Hi He Hd. pose proof (lookup_lt_Some _ _ _ He) as Hlt.
  destruct (update_ok default_interp i f d g Hg Hf Hi Hlt) as (g' & Hup & Hg' & _ & Hcore & Hlen).
  pose proof (update_adds i f d g g' Hup) as [_ Hadd]. exists g'. split; [done|].
  assert (forall I Q, (forall j, Q j -> j < length (m_entries g) /\ j <> i)%nat -> updated I Q i f g g') as Hu.
  { intros I Q HQ. destruct (update_ok I i f d g Hg Hf Hi Hlt) as (g2 & Hup2 & _ & Hu & _).
    rewrite Hup in Hup2. injection Hup2 as <-. by apply Hu. }
  split; try done.
  - split; [done|by eapply update_models].
  - destruct Htr as [Hc|Hp]; [left; congruence|right; by eapply update_plain].
  - intros I. apply update_true; [done|]. intros Q HQ. by apply Hu.
  - intros U I Hr Hfu. apply goal_under_rest in Hr as Hr'. unfold goal_under. apply Forall_lookup. intros j x Hx Hdx.
    destruct (Hadd j x Hx) as [Hdj|Hold]; [|by apply (Hr' j x); [intros []|..]]. rewrite Hdj in Hdx. specialize (Hfu Hdx).
    specialize (Hu I (unknown U (fun _ => False) i g) ltac:(by intros ? [? _])). unfold updated in Hu.
    destruct (m_inconsistent g') eqn:Hi'; [congruence|]. destruct Hlen as [?|[_ Hkeep]]; [done|].
    refine (proj2 Hu _ j x _ Hx).
    + split; [|done]. eapply known_under; [exact He|]. intros k y _. by apply Hr'; intros [].
    + intros [[Hjl Hji] [[]|(y & Hy & Hny)]]. rewrite Hkeep, Hy in Hx by done. injection Hx as <-. by rewrite Hdj in Hny.
  - intros Q U I Hi' HQi HQ Hr. destruct Hlen as [?|[_ Hkeep]]; [congruence|]. split.
    + intros j x Hj Hx. apply (Hr j x); [tauto|]. rewrite Hkeep; [done|by intros ->|by eapply lookup_lt_Some].
    + intros HU. specialize (Hu I (unknown U Q i g) ltac:(by intros ? [? _])). unfold updated in Hu. rewrite Hi' in Hu.
      apply Hu. intros j x Hj Hx. destruct (Hadd j x Hx) as [Hdj|Hold].
      * apply (Hr j x); [|done|by rewrite Hdj]. intros [HQj Hji]. apply Hj. split; [split; [by apply HQ|done]|by left].
      * assert (deps x ⊆ U) as Hdx.
        { destruct (decide (j = i)) as [->|Hji]; [rewrite He in Hold; injection Hold as <-; set_solver|].
          destruct (decide (deps x ⊆ U)) as [|Hn]; [done|]. destruct Hj. split; [|right; by eauto].
          split; [by eapply lookup_lt_Some|done]. }
        apply (Hr j x); [|done..]. intros [HQj Hji]. apply Hj. split; [|by left]. split; [by eapply lookup_lt_Some|done].
  - intros Hi'. destruct Hlen as [?|[? _]]; [congruence|done].
  - intros j Hi' Hj Hji. destruct Hlen as [?|[_ Hkeep]]; [congruence|by apply Hkeep].
Qed.

(** ** Redundancies *)

Lemma elim_under U I g : goal_wf g -> tracked g -> goal_under U I g -> goal_under U I (elim_redundancies g).
Proof.
  intros [Hwf _] Htr Hu. unfold goal_under in *. rewrite Forall_forall in *.
  destruct (elim_redundancies_entries g) as [Hsub|(e1 & e2 & d & H1 & H2 & Hn & Ha & Hd & Hes)]; [auto|].
  rewrite Hes. intros e ->%list_elem_of_singleton Hde. exfalso.
  assert (deps e1 ⊆ U /\ deps e2 ⊆ U) as [D1 D2].
  { cbn in Hde. destruct Htr as [Hc|[_ Hp]]; [rewrite Hc in Hde; split; intros x Hx; apply Hde, Hd; tauto|].
    rewrite Forall_forall in Hp. rewrite (Hp e1 H1), (Hp e2 H2). set_solver. }
  pose proof (Hu e1 H1 D1) as T1. pose proof (Hu e2 H2 D2) as T2.
  rewrite (not_value I (form e1) (form e2)) in T1 by (done || by apply Hwf). by rewrite T2 in T1.
Qed.

Lemma elim_loop_core es kept ns ps g : m_core_enabled (elim_loop es kept ns ps g) = m_core_enabled g.
Proof. revert kept ns ps. induction es as [|e es IH]; intros; cbn [elim_loop]; [done|]. by repeat case_match. Qed.

Lemma elim_core g : m_core_enabled (elim_redundancies g) = m_core_enabled g.
Proof. unfold elim_redundancies. destruct (m_inconsistent g); [done|apply elim_loop_core]. Qed.

Lemma elim_tracked g : tracked g -> tracked (elim_redundancies g).
Proof.
  intros Htr. pose proof (elim_core g) as Hc.
  destruct Htr as [Hc'|[Hc' Hp]]; [left; congruence|right; split; [congruence|]]. rewrite Forall_forall in *.
  destruct (elim_redundancies_entries g) as [Hsub|(e1 & e2 & d & _ & _ & _ & _ & _ & Hes)]; [auto|].
  rewrite Hes. intros e ->%list_elem_of_singleton. unfold no_deps. cbn. by rewrite Hc'.
Qed.

(** ** Goals that say the same *)

(** Over the interpretations [adm], [g'] is true when [g] is, and what follows from
    some of the assumptions of [g'] follows from the same ones of [g]. *)
Definition keeps (adm : interp -> Prop) (g g' : goal) : Prop :=
  same_options g g'
  /\ forall I, adm I -> (goal_true I g' <-> goal_true I g) /\ forall U, goal_under U I g -> goal_under U I g'.

Lemma keeps_refl adm g : keeps adm g g.
Proof. split; [done|]. by intros I _. Qed.

Lemma keeps_weaken (adm adm' : interp -> Prop) g g' : (forall I, adm' I -> adm I) -> keeps adm g g' -> keeps adm' g g'.
Proof. intros Hadm [Ho Hk]. split; [done|]. intros I HI. by apply Hk, Hadm. Qed.

Lemma keeps_trans adm g1 g2 g3 : keeps adm g1 g2 -> keeps adm g2 g3 -> keeps adm g1 g3.
Proof.
  intros [[C1 M1] H12] [[C2 M2] H23]. split; [split; congruence|]. intros I HI.
  destruct (H12 I HI) as [T1 U1], (H23 I HI) as [T2 U2]. split; [tauto|auto].
Qed.

Lemma elim_models g : m_models_enabled (elim_redundancies g) = m_models_enabled g.
Proof.
  unfold elim_redundancies. destruct (m_inconsistent g); [done|].
  assert (forall es kept ns ps, m_models_enabled (elim_loop es kept ns ps g) = m_models_enabled g) as Hl; [|apply Hl].
  induction es as [|e es IH]; intros; cbn [elim_loop]; [done|]. by repeat case_match.
Qed.

Lemma keeps_elim adm g : goal_wf g -> tracked g -> keeps adm g (elim_redundancies g).
Proof.
  intros Hg Htr. split; [split; [apply elim_core|apply elim_models]|]. intros I _.
  split; [by apply elim_redundancies_ok|]. intros U. by apply elim_under.
Qed.

Lemma keeps_depth adm g g' : keeps adm g g' -> keeps adm g (inc_depth g').
Proof. done. Qed.

Lemma goal_true_split I i e g :
  m_entries g !! i = Some e -> goal_true I g <-> rest_true I (eq i) g /\ tr I (form e) = true.
Proof.
  intros He. unfold goal_true, rest_true. rewrite Forall_lookup. split; [eauto|]. intros [Hr Hi] j x Hx.
  destruct (decide (i = j)) as [<-|Hij]; [rewrite He in Hx; by injection Hx as <-|by eapply Hr].
Qed.

Lemma tracked_deps g i e : tracked g -> m_entries g !! i = Some e -> deps e ⊆ recorded g (deps e).
Proof.
  unfold recorded. intros [->|[_ Hp]] He; [done|]. rewrite Forall_lookup in Hp. rewrite (Hp i e He). set_solver.
Qed.

(** A formula is replaced by one that is equal to it where the others hold. *)
Lemma replaced_keeps adm i e f d g g' :
  replaced_at i f d g g' -> m_entries g !! i = Some e -> deps e ⊆ recorded g d ->
  (forall I, adm I -> rest_true I (eq i) g -> tr I f = tr I (form e)) ->
  (forall U I, adm I -> goal_under U I g -> recorded g d ⊆ U -> tr I f = tr I (form e)) ->
  keeps adm g g'.
Proof.
  intros Hrep He Hd Ht Hu. split; [apply Hrep|]. intros I HI. split.
  - rewrite (rep_true _ _ _ _ _ Hrep), (goal_true_split I i e g He). specialize (Ht I HI). naive_solver congruence.
  - intros U HU. apply (rep_under _ _ _ _ _ Hrep); [done|]. intros Hr. rewrite (Hu U I HI HU Hr).
    unfold goal_under in HU. rewrite Forall_lookup in HU. apply (HU i e He). set_solver.
Qed.
