(* ===== verification/SharedOccs.v ===== *)
(** shared_occs (ast/shared_occs.h, .cpp) and goal_shared_occs: the terms that a
    traversal of the formulas of a goal meets again. Quantifiers are left out. The
    traversal ends within twice the size of the terms and marks what a walk by
    recursion on the term marks. *)
From S2P Require Import Prelude Ast Goal.

(** The frames are terms with the number of visited arguments, the top first; the
    vector of the shared terms is a list of them without repetitions. *)
Record shared_occs := mk_shared_occs {
  m_track_atomic : bool;
  m_shared : list expr;
  m_stack : list (expr * nat)
}.

Section Occs.
Context (ref_count : expr -> nat).

Definition occs_insert (t : expr) (so : shared_occs) : shared_occs :=
  if bool_decide (t ∈ m_shared so) then so
  else mk_shared_occs (m_track_atomic so) (t :: m_shared so) (m_stack so).
Definition occs_reset (so : shared_occs) : shared_occs := mk_shared_occs (m_track_atomic so) [] (m_stack so).
Definition occs_cleanup (so : shared_occs) : shared_occs := mk_shared_occs (m_track_atomic so) [] [].
Definition set_stack (st : list (expr * nat)) (so : shared_occs) : shared_occs :=
  mk_shared_occs (m_track_atomic so) (m_shared so) st.

Definition is_shared (t : expr) (so : shared_occs) : bool := bool_decide (t ∈ m_shared so).
Definition num_shared (so : shared_occs) : nat := length (m_shared so).

(** The terms whose repetitions are looked for. *)
Definition counted (so : shared_occs) (t : expr) : bool :=
  Nat.ltb 1 (ref_count t) && (m_track_atomic so || match t with App _ (_ :: _) => true | _ => false end).

(** [true]: the term is done; [false]: its frame is on the stack. [visited] are the
    marked terms. *)
Definition occs_process (t : expr) (visited : list expr) (so : shared_occs) : bool * list expr * shared_occs :=
  if counted so t && bool_decide (t ∈ visited) then (true, visited, occs_insert t so)
  else
    let visited := if counted so t then t :: visited else visited in
    match t with
    | App _ (_ :: _) => (false, visited, set_stack ((t, 0%nat) :: m_stack so) so)
    | _ => (true, visited, so)
    end.

(** The loop over the stack. *)
Fixpoint occs_loop (fuel : nat) (visited : list expr) (so : shared_occs) : res (list expr * shared_occs) :=
  match m_stack so, fuel with
  | [], _ => Ok (visited, so)
  | _, O => Fault OutOfFuel
  | (curr, i) :: fs, S fuel =>
      match get_args curr !! i with
      | Some arg =>
          let '(_, visited, so) := occs_process arg visited (set_stack ((curr, S i) :: fs) so) in
          occs_loop fuel visited so
      | None => occs_loop fuel visited (set_stack fs so)
      end
  end.

Definition occs_visit (t : expr) (visited : list expr) (so : shared_occs) : res (list expr * shared_occs) :=
  let '(done, visited, so) := occs_process t visited so in
  if (done : bool) then Ok (visited, so) else occs_loop (2 * size t) visited so.

(** One term, with marks of its own. *)
Definition occs_term (t : expr) (so : shared_occs) : res (list expr * shared_occs) :=
  occs_visit t [] (occs_reset so).

(** goal_shared_occs: all formulas, with common marks. *)
Definition occs_goal (g : goal) (so : shared_occs) : res shared_occs :=
  '(_, so) ← foldl (fun r e => '(visited, so) ← r; occs_visit (form e) visited so)
               (Ok ([], occs_reset so)) (m_entries g);
  Ok so.

(** ** The walk by recursion *)

(** The marks and the shared terms. *)
Fixpoint walk (track_atomic : bool) (t : expr) (vs : list expr * list expr) : list expr * list expr :=
  let so := mk_shared_occs track_atomic [] [] in
  if counted so t && bool_decide (t ∈ vs.1) then
    (vs.1, if bool_decide (t ∈ vs.2) then vs.2 else t :: vs.2)
  else
    let vs := if counted so t then (t :: vs.1, vs.2) else vs in
    match t with
    | App _ args => foldl (fun vs a => walk track_atomic a vs) vs args
    | Var _ _ => vs
    end.

Definition walk_all (track_atomic : bool) (ts : list expr) (vs : list expr * list expr) : list expr * list expr :=
  foldl (fun vs a => walk track_atomic a vs) vs ts.

(** ** They agree *)

(** What is left to visit, and how many steps it takes. *)
Definition left_of (fr : expr * nat) : list expr := drop fr.2 (get_args fr.1).
Definition todo_of (fs : list (expr * nat)) : list expr := concat (map left_of fs).
Definition work_of (fs : list (expr * nat)) : nat :=
  (length fs + sum_list (map (fun t => 2 * size t) (todo_of fs)))%nat.

Lemma work_cons fr fs :
  work_of (fr :: fs) = S (sum_list (map (fun t => 2 * size t) (left_of fr)) + work_of fs)%nat.
Proof. unfold work_of, todo_of. cbn [map concat length]. rewrite map_app, sum_list_with_app. cbn. lia. Qed.

Lemma work_app fs gs : work_of (fs ++ gs) = (work_of fs + work_of gs)%nat.
Proof. induction fs as [|fr fs IH]; [done|]. cbn [app]. rewrite !work_cons, IH. lia. Qed.

Lemma sum_cons n l : sum_list (n :: l) = (n + sum_list l)%nat.
Proof. done. Qed.

Lemma size_args d args : size (App d args) = S (sum_list (map size args)).
Proof. done. Qed.

Lemma double_sum l : sum_list (map (fun t => 2 * size t)%nat l) = (2 * sum_list (map size l))%nat.
Proof. induction l as [|x l IH]; [done|]. cbn in *. lia. Qed.

Lemma occs_insert_fields t so :
  m_track_atomic (occs_insert t so) = m_track_atomic so /\ m_stack (occs_insert t so) = m_stack so
  /\ m_shared (occs_insert t so) = if bool_decide (t ∈ m_shared so) then m_shared so else t :: m_shared so.
Proof. unfold occs_insert. by destruct (bool_decide _). Qed.

(** Processing a term is the start of its walk. *)
Lemma process_walk t visited so :
  let '(b, visited', so') := occs_process t visited so in
  m_track_atomic so' = m_track_atomic so
  /\ exists fs, m_stack so' = fs ++ m_stack so /\ (b = true -> fs = []) /\ (work_of fs < 2 * size t)%nat
  /\ walk (m_track_atomic so) t (visited, m_shared so)
     = walk_all (m_track_atomic so) (todo_of fs) (visited', m_shared so').
Proof.
  unfold occs_process.
  assert (forall ta l, counted (mk_shared_occs ta l []) t = counted (mk_shared_occs ta [] []) t) as Hc by done.
  assert (counted so t = counted (mk_shared_occs (m_track_atomic so) [] []) t) as -> by done.
  destruct (counted _ t && _) eqn:Hm.
  - destruct (occs_insert_fields t so) as (-> & -> & ->). split; [done|]. exists [].
    split_and!; [done..|destruct t; cbn; lia|]. destruct t; cbn [walk fst snd]; by rewrite Hm.
  - destruct t as [i s|d [|x args]].
    + split; [done|]. exists []. split_and!; [done..|cbn; lia|]. cbn [walk fst snd]. rewrite Hm. cbn zeta. by destruct (counted _ _).
    + split; [done|]. exists []. split_and!; [done..|cbn; lia|]. cbn [walk fst snd]. rewrite Hm. cbn zeta. by destruct (counted _ _).
    + split; [done|]. exists [(App d (x :: args), 0%nat)]. split_and!; [done..| |].
      * rewrite work_cons, size_args. unfold left_of. cbn [fst snd drop get_args]. rewrite double_sum. unfold work_of. cbn. lia.
      * cbn [walk fst snd]. rewrite Hm. unfold todo_of, left_of, walk_all. cbn [map concat fst snd drop get_args].
        rewrite app_nil_r. by destruct (counted _ _).
Qed.

Lemma occs_loop_walk fuel visited so :
  (work_of (m_stack so) <= fuel)%nat ->
  exists visited' so', occs_loop fuel visited so = Ok (visited', so')
    /\ m_track_atomic so' = m_track_atomic so /\ m_stack so' = []
    /\ (visited', m_shared so') = walk_all (m_track_atomic so) (todo_of (m_stack so)) (visited, m_shared so).
Proof.
  revert visited so. induction fuel as [|fuel IH]; intros visited so Hf; cbn [occs_loop].
  { destruct (m_stack so) as [|fr fs] eqn:Hs; [exists visited, so; by rewrite Hs|]. rewrite work_cons in Hf. lia. }
  destruct (m_stack so) as [|[curr i] fs] eqn:Hs; [exists visited, so; by rewrite Hs|]. rewrite work_cons in Hf.
  unfold left_of in Hf. cbn [fst snd] in Hf.
  destruct (get_args curr !! i) as [arg|] eqn:Ha.
  - pose proof (process_walk arg visited (set_stack ((curr, S i) :: fs) so)) as Hp.
    destruct (occs_process arg visited _) as [[b visited1] so1]. destruct Hp as (Ht & fs1 & Hs1 & _ & Hw & He).
    cbn [m_track_atomic m_shared m_stack set_stack] in *. rewrite (drop_S _ arg) in Hf by done. cbn [map] in Hf. rewrite sum_cons in Hf.
    destruct (IH visited1 so1) as (v' & so' & Hr & Ht' & Hs' & Hwalk).
    { rewrite Hs1, work_app, work_cons. unfold left_of. cbn [fst snd]. lia. }
    exists v', so'. split_and!; [done|congruence|done|]. rewrite Hwalk, Ht, Hs1.
    unfold todo_of, walk_all in *. rewrite map_app, concat_app, foldl_app. rewrite <- He.
    cbn [map concat]. unfold left_of. cbn [fst snd]. by rewrite (drop_S _ arg i).
  - destruct (IH visited (set_stack fs so)) as (v' & so' & Hr & Ht' & Hs' & Hwalk); [cbn [m_stack set_stack]; lia|].
    exists v', so'. split_and!; [done..|]. rewrite Hwalk. cbn [m_track_atomic m_shared m_stack set_stack].
    unfold todo_of. cbn [map concat]. unfold left_of at 2. cbn [fst snd].
    rewrite drop_ge by (by apply lookup_ge_None_1). done.
Qed.

Lemma occs_visit_walk t visited so :
  m_stack so = [] ->
  exists visited' so', occs_visit t visited so = Ok (visited', so')
    /\ m_track_atomic so' = m_track_atomic so /\ m_stack so' = []
    /\ (visited', m_shared so') = walk (m_track_atomic so) t (visited, m_shared so).
Proof.
  intros Hs. unfold occs_visit. pose proof (process_walk t visited so) as Hp.
  destruct (occs_process t visited so) as [[b v1] so1]. destruct Hp as (Ht & fs & Hs1 & Hb & Hw & He).
  rewrite Hs, app_nil_r in Hs1. destruct b.
  - rewrite (Hb eq_refl) in *. exists v1, so1. by split_and!.
  - destruct (occs_loop_walk (2 * size t) v1 so1) as (v' & so' & Hr & Ht' & Hs' & Hwalk); [rewrite Hs1; lia|].
    exists v', so'. rewrite Hr, Hwalk, He, Hs1, Ht. split_and!; [done|congruence|done..].
Qed.

(** The traversal of a goal ends, and finds what the walk finds. *)
Lemma occs_goal_walk g so :
  m_stack so = [] ->
  exists so', occs_goal g so = Ok so' /\ m_track_atomic so' = m_track_atomic so /\ m_stack so' = []
    /\ m_shared so' = (walk_all (m_track_atomic so) (map form (m_entries g)) ([], [])).2.
Proof.
  intros Hs. unfold occs_goal.
  assert (forall es visited so1, m_stack so1 = [] -> m_track_atomic so1 = m_track_atomic so ->
    exists v' so', foldl (fun r e => '(visited, so) ← r; occs_visit (form e) visited so) (Ok (visited, so1)) es = Ok (v', so')
      /\ m_track_atomic so' = m_track_atomic so /\ m_stack so' = []
      /\ (v', m_shared so') = walk_all (m_track_atomic so) (map form es) (visited, m_shared so1)) as Hall.
  { induction es as [|e es IH]; intros visited so1 Hs1 Ht1; cbn [foldl map]; [exists visited, so1; by split_and!|].
    destruct (occs_visit_walk (form e) visited so1 Hs1) as (v2 & so2 & Hr & Ht2 & Hs2 & Hw).
    cbn [mbind res_bind]. rewrite Hr. destruct (IH v2 so2 Hs2) as (v3 & so3 & Hr3 & Ht3 & Hs3 & Hw3); [congruence|].
    exists v3, so3. split_and!; [done..|]. rewrite Hw3, Hw, Ht1. done. }
  destruct (Hall (m_entries g) [] (occs_reset so)) as (v' & so' & Hr & Ht & Hs' & Hw); [done..|].
  rewrite Hr. exists so'. split_and!; [done..|]. cbn in Hw. by rewrite <- Hw.
Qed.
End Occs.
