(* ===== verification/SimplifyTactic.v ===== *)
(** The tactic "simplify" (tactic/core/simplify_tactic.cpp): the simplifier on
    every formula of a goal, with proofs off. The goal it leaves says what the goal
    said, also under any of its assumptions, up to the logged steps that
    rewrite the signed overflow predicate or a conversion. *)
From S2P Require Import Prelude Ast AstSem BoolRewriter AstFacts BoolRewriterOk ExprSubstitution BvPlugin BvFacts PolyRewriter BvRewriterLeq BvRewriter BvRewriterOk Rewriter RewriterOk RewriterSim ThRewriter ThRewriterOk ThRewriterRun Goal GoalUnder.

Section Tactic.
Context (params : th_params) (b_rw : bool_rewriter_params) (bv_rw : bv_params).
Context (get_id : expr -> Z) (ref_count : expr -> nat).
Context (mk_conversion : func_decl -> list expr -> br_status).
Context (counts : th_rewriter -> expr -> nat).

(** The rewriter and the sum of its steps, an unsigned number. *)
Record simplify_imp := mk_simplify_imp { simp_r : th_rewriter; simp_num_steps : Z }.

Definition new_simplify_imp (trace : option (list (expr * expr))) : simplify_imp :=
  mk_simplify_imp (new_th_rewriter trace) 0.
Definition simp_reset (st : simplify_imp) : simplify_imp := mk_simplify_imp (th_reset (simp_r st)) 0.
(** A new [imp]. *)
Definition simp_cleanup (st : simplify_imp) : simplify_imp :=
  new_simplify_imp (ThRewriter.m_trace (m_cfg (simp_r st))).

(** The loop over the formulas the goal has at the start. *)
Fixpoint simplify_loop (fuel : nat) (idxs : list nat) (g : goal) (st : simplify_imp) : res (goal * simplify_imp) :=
  match idxs with
  | [] => Ok (g, st)
  | idx :: idxs =>
      if m_inconsistent g then Ok (g, st)
      else
        curr ← aget (m_entries g) (Z.of_nat idx);
        '(new_curr, rw) ← simplify params b_rw bv_rw get_id ref_count mk_conversion counts fuel (form curr) (simp_r st);
        let st := mk_simplify_imp rw (to_unsigned (simp_num_steps st + Z.of_nat (m_num_steps rw))) in
        g ← update idx new_curr (deps curr) g;
        simplify_loop fuel idxs g st
  end.

Definition simplify_imp_run (fuel : nat) (g : goal) (st : simplify_imp) : res (goal * simplify_imp) :=
  let st := mk_simplify_imp (simp_r st) 0 in
  if m_inconsistent g then Ok (g, st)
  else
    '(g, st) ← simplify_loop fuel (seq 0 (length (m_entries g))) g st;
    Ok (elim_redundancies g, st).

Definition simplify_tactic (fuel : nat) (g : goal) (st : simplify_imp) : res (goal * simplify_imp) :=
  '(g, st) ← simplify_imp_run fuel g st;
  Ok (inc_depth g, st).
End Tactic.

Section Correctness.
Context (params : th_params) (b_rw : bool_rewriter_params) (bv_rw : bv_params).
Context (get_id : expr -> Z) (ref_count : expr -> nat).
Context (mk_conversion : func_decl -> list expr -> br_status).
Context (Hdiv : m_hi_div0 bv_rw = true) (Hconv : conversion_typed mk_conversion).

(** ** A traced run *)

Definition no_facts (U : list expr) (I : interp) : Prop := True.
Lemma no_facts_monotone : monotone no_facts.
Proof. done. Qed.
Lemma no_subst_justified : justified no_facts None.
Proof. done. Qed.

Definition simp_rests (rw : th_rewriter) : Prop :=
  rests params b_rw bv_rw get_id ref_count mk_conversion Hdiv Hconv no_facts no_facts_monotone None no_subst_justified rw.

Lemma simp_rests_new trace : is_Some trace -> simp_rests (new_th_rewriter trace).
Proof.
  intros Ht. apply (rests_new params b_rw bv_rw get_id ref_count mk_conversion Hdiv Hconv no_facts no_facts_monotone None
    no_subst_justified (mk_th_state None [] trace) (new_th_rewriter trace)). by split.
Qed.

Context (counts : th_rewriter -> expr -> nat).

Lemma simplify_loop_ok fuel idxs g st log :
  goal_wf g -> tracked g -> simp_rests (simp_r st) -> m_trace (m_cfg (simp_r st)) = Some log ->
  Forall (fun i => i < length (m_entries g))%nat idxs ->
  match simplify_loop params b_rw bv_rw get_id ref_count mk_conversion counts fuel idxs g st with
  | Ok (g', st') => goal_wf g' /\ tracked g' /\ exists more, m_trace (m_cfg (simp_r st')) = Some (log ++ more)
      /\ keeps (fun I => Forall (agrees I) (log ++ more)) g g'
  | Fault e => e = Z3Exception \/ e = OutOfFuel
  end.
Proof.
  revert g st log. induction idxs as [|i idxs IH]; intros g st log Hg Htr Hrest Hlog Hin; cbn [simplify_loop].
  { split_and!; [done..|]. exists []. rewrite app_nil_r. split; [done|apply keeps_refl]. }
  apply Forall_cons in Hin as [Hlt Hin]. destruct (m_inconsistent g) eqn:Hi.
  { split_and!; [done..|]. exists []. rewrite app_nil_r. split; [done|apply keeps_refl]. }
  destruct (lookup_lt_is_Some_2 _ _ Hlt) as [e He]. rewrite (aget_nat _ _ e) by done. cbn [mbind res_bind].
  assert (wfb (form e) = true) as Hwe by (destruct Hg as [Hw _]; rewrite Forall_lookup in Hw; by eapply Hw).
  pose proof Hwe as [Hwf Hsort]%wfb_spec.
  pose proof (simplify_rests params b_rw bv_rw get_id ref_count mk_conversion Hdiv Hconv no_facts no_facts_monotone None
    no_subst_justified counts fuel (form e) (simp_r st) Hrest Hwf) as Hs.
  destruct (simplify _ _ _ _ _ _ _ _ _ _) as [[r rw]|er]; cbn [mbind res_bind]; [|done].
  destruct Hs as (Hrest1 & [_ Htrace] & Hwr & Hsr & Hev). destruct (Htrace log Hlog) as [more Hmore].
  destruct (update_replaced i r (deps e) g e) as (g1 & -> & Hrep); [done|done|apply wfb_spec; by rewrite Hsr|done..|
    by eapply tracked_deps|]. cbn [mbind res_bind].
  assert (keeps (fun I => Forall (agrees I) (log ++ more)) g g1) as Hk.
  { eapply replaced_keeps; [done|done|by eapply tracked_deps| |]; intros; unfold tr; f_equal; apply Hev;
      split; try done; intros tr' Htr'; rewrite Hmore in Htr'; by injection Htr' as <-. }
  destruct (m_inconsistent g1) eqn:Hi1.
  { destruct idxs; cbn [simplify_loop]; rewrite ?Hi1; (split_and!; [apply Hrep..|by exists more]). }
  assert (Forall (fun i => i < length (m_entries g1))%nat idxs) as Hin1.
  { eapply Forall_impl; [exact Hin|]. cbn. intros j Hj. pose proof (rep_length _ _ _ _ _ Hrep Hi1). lia. }
  set (st1 := mk_simplify_imp rw _).
  specialize (IH g1 st1 (log ++ more) (rep_wf _ _ _ _ _ Hrep) (rep_tracked _ _ _ _ _ Hrep) Hrest1 Hmore Hin1).
  destruct (simplify_loop _ _ _ _ _ _ _ _ _ _ _) as [[g' st']|er]; [|done].
  destruct IH as (Hg' & Htr' & more' & Hm' & Hk'). split_and!; [done..|].
  exists (more ++ more'). rewrite app_assoc. split; [done|].
  eapply keeps_trans; [|exact Hk']. eapply keeps_weaken; [|exact Hk]. intros I. rewrite Forall_app. tauto.
Qed.

Lemma simplify_tactic_traced fuel g :
  goal_wf g -> tracked g ->
  match simplify_tactic params b_rw bv_rw get_id ref_count mk_conversion counts fuel g (new_simplify_imp (Some [])) with
  | Ok (g', st') => goal_wf g' /\ tracked g' /\ (m_inconsistent g' = false -> irredundant (map form (m_entries g')))
      /\ exists log, m_trace (m_cfg (simp_r st')) = Some log /\ keeps (fun I => Forall (agrees I) log) g g'
  | Fault e => e = Z3Exception \/ e = OutOfFuel
  end.
Proof.
  intros Hg Htr. unfold simplify_tactic, simplify_imp_run. cbn [simp_r new_simplify_imp].
  destruct (m_inconsistent g) eqn:Hi; cbn [mbind res_bind].
  { split_and!; [done..|cbn; congruence|]. exists []. split; [done|apply keeps_depth, keeps_refl]. }
  pose proof (simplify_loop_ok fuel (seq 0 (length (m_entries g))) g (mk_simplify_imp (new_th_rewriter (Some [])) 0) []
    Hg Htr (simp_rests_new _ ltac:(by eexists)) eq_refl) as Hl.
  destruct (simplify_loop _ _ _ _ _ _ _ _ _ _ _) as [[g1 st1]|er]; cbn [mbind res_bind].
  2: { apply Hl, Forall_seq. intros. lia. }
  destruct Hl as (Hg1 & Htr1 & log & Hlog & Hk); [apply Forall_seq; intros; lia|].
  destruct (elim_redundancies_ok default_interp g1 Hg1) as (Hg2 & _ & Hirr).
  split_and!; [done|by apply elim_tracked|done|]. exists log. split; [done|]. apply keeps_depth.
  eapply keeps_trans; [exact Hk|by apply keeps_elim].
Qed.

(** ** A run without a trace *)

Definition same_imp (st st' : simplify_imp) : Prop :=
  same_run (simp_r st) (simp_r st') /\ simp_num_steps st' = simp_num_steps st.
Definition same_goal (x y : goal * simplify_imp) : Prop := fst x = fst y /\ same_imp (snd x) (snd y).

Local Abbreviation loop c := (simplify_loop params b_rw bv_rw get_id ref_count mk_conversion c).

Lemma simplify_loop_same fuel idxs g st st' :
  same_imp st st' -> res_rel same_goal (loop counts fuel idxs g st) (loop (traced_counts counts) fuel idxs g st').
Proof.
  revert g st st'. induction idxs as [|i idxs IH]; intros g st st' Hs; cbn [simplify_loop]; [by split|].
  destruct (m_inconsistent g); [by split|]. apply rel_same. intros e. destruct Hs as [Hs Hn].
  eapply rel_bind; [by apply simplify_same|]. intros [r rw] [r' rw'] [Hr Hrw]; cbn [fst snd] in *. subst r'.
  apply rel_same. intros g'. apply IH. split; [done|]. cbn. rewrite Hn. destruct Hrw as (d & -> & _). done.
Qed.

Lemma simplify_tactic_same fuel g st st' :
  same_imp st st' ->
  res_rel same_goal (simplify_tactic params b_rw bv_rw get_id ref_count mk_conversion counts fuel g st)
    (simplify_tactic params b_rw bv_rw get_id ref_count mk_conversion (traced_counts counts) fuel g st').
Proof.
  intros [Hs Hn]. unfold simplify_tactic, simplify_imp_run. eapply (rel_bind same_goal).
  - destruct (m_inconsistent g); [by split|]. eapply rel_bind; [by apply simplify_loop_same|].
    intros [g1 st1] [g1' st1'] [Hg H1]; cbn [fst snd] in *. subst g1'. by split.
  - intros [g1 st1] [g1' st1'] [Hg H1]; cbn [fst snd] in *. subst g1'. by split.
Qed.

Lemma new_imp_same : same_imp (new_simplify_imp None) (new_simplify_imp (Some [])).
Proof. split; [|done]. by exists (mk_th_state None [] (Some [])). Qed.
End Correctness.

Lemma simplify_tactic_ok params b_rw bv_rw get_id ref_count mk_conversion counts fuel g :
  m_hi_div0 bv_rw = true -> conversion_typed mk_conversion -> goal_wf g -> tracked g ->
  match simplify_tactic params b_rw bv_rw get_id ref_count mk_conversion counts fuel g (new_simplify_imp None) with
  | Ok (g', _) => goal_wf g' /\ tracked g' /\ (m_inconsistent g' = false -> irredundant (map form (m_entries g')))
      /\ exists st log, simplify_tactic params b_rw bv_rw get_id ref_count mk_conversion (traced_counts counts) fuel g
                          (new_simplify_imp (Some [])) = Ok (g', st)
      /\ m_trace (m_cfg (simp_r st)) = Some log
      /\ keeps (fun I => Forall (agrees I) log) g g'
  | Fault e => e = Z3Exception \/ e = OutOfFuel
  end.
Proof.
  intros Hdiv Hconv Hg Htr.
  pose proof (simplify_tactic_same params b_rw bv_rw get_id ref_count mk_conversion counts fuel g _ _ new_imp_same) as Hrel.
  pose proof (simplify_tactic_traced params b_rw bv_rw get_id ref_count mk_conversion Hdiv Hconv (traced_counts counts)
    fuel g Hg Htr) as Hok.
  destruct (simplify_tactic _ _ _ _ _ _ counts _ _ _) as [[g' st0]|e],
    (simplify_tactic _ _ _ _ _ _ (traced_counts counts) _ _ _) as [[g1 st]|e']; cbn in Hrel; try done; [|by subst].
  destruct Hrel as [Heq _]. cbn in Heq. subst g1. destruct Hok as (H1 & H2 & H3 & log & H4 & H5). split_and!; [done..|]. by exists st, log.
Qed.

(** C11: The tactic "simplify" keeps the meaning of the goal up to the signed
    overflow predicate and the conversions from and to the integers: over the
    interpretations that agree with the steps that rewrote one, which a traced run
    with the same result names, the new goal is true when the old one is, and every
    core of the new goal is one of the old. Nothing in the new goal is redundant;
    only the rules of the simplifier throw, or the fuel does not do. Division by
    zero is as in the default, and the answers to conversions have their sorts. *)
Theorem simplify_tactic_correct params b_rw bv_rw get_id ref_count mk_conversion counts fuel g :
  m_hi_div0 bv_rw = true -> conversion_typed mk_conversion -> goal_wf g -> tracked g ->
  match simplify_tactic params b_rw bv_rw get_id ref_count mk_conversion counts fuel g (new_simplify_imp None) with
  | Ok (g', _) => goal_wf g' /\ tracked g' /\ (m_inconsistent g' = false -> irredundant (map form (m_entries g')))
      /\ exists st log, simplify_tactic params b_rw bv_rw get_id ref_count mk_conversion (traced_counts counts) fuel g
                          (new_simplify_imp (Some [])) = Ok (g', st)
      /\ m_trace (m_cfg (simp_r st)) = Some log
      /\ keeps (fun I => Forall (agrees I) log) g g'
  | Fault e => e = Z3Exception \/ e = OutOfFuel
  end.
Proof. apply simplify_tactic_ok. Qed.
