(* ===== verification/PropagateValues.v ===== *)
(** The tactic "propagate-values" (tactic/core/propagate_values_tactic.cpp): a
    formula t, (not t) or (= t v) with a value v lets the simplifier replace t in
    the formulas that follow, forward through the goal and backward, for as many
    passes as the option allows. Proofs are off. *)
From S2P Require Import Prelude Ast BoolRewriter ExprSubstitution BvPlugin PolyRewriter BvRewriterLeq BvRewriter Rewriter ThRewriter Goal SharedOccs.

(** The substitution is the one that the rewriter points to. The position in the
    goal is an argument of the functions that use it. *)
Record propagate_values := mk_propagate_values {
  pv_r : th_rewriter;
  pv_goal : goal;
  pv_occs : shared_occs;
  pv_modified : bool
}.

Section Tactic.
Context (params : th_params) (b_rw : bool_rewriter_params) (bv_rw : bv_params).
Context (get_id : expr -> Z) (ref_count : expr -> nat).
Context (mk_conversion : func_decl -> list expr -> br_status).
Context (counts : th_rewriter -> expr -> nat).
(** The reference counts when the shared terms of the goal are looked for. *)
Context (refs : goal -> th_rewriter -> expr -> nat).

Definition set_rewriter (rw : th_rewriter) (st : propagate_values) : propagate_values :=
  mk_propagate_values rw (pv_goal st) (pv_occs st) (pv_modified st).
Definition set_goal (g : goal) (st : propagate_values) : propagate_values :=
  mk_propagate_values (pv_r st) g (pv_occs st) (pv_modified st).
Definition set_occs (so : shared_occs) (st : propagate_values) : propagate_values :=
  mk_propagate_values (pv_r st) (pv_goal st) so (pv_modified st).
Definition set_modified (b : bool) (st : propagate_values) : propagate_values :=
  mk_propagate_values (pv_r st) (pv_goal st) (pv_occs st) b.

Definition pv_subst (st : propagate_values) : option expr_substitution := ThRewriter.m_subst (m_cfg (pv_r st)).
Definition subst_insert (c def : expr) (d : list expr) (st : propagate_values) : propagate_values :=
  set_rewriter (change_substitution (es_insert c def d) (pv_r st)) st.

Definition is_shared_neg (t : expr) (so : shared_occs) : option expr :=
  if is_not t && is_shared (get_arg t 0) so then Some (get_arg t 0) else None.

(** The side that is replaced, and the value. *)
Definition is_shared_eq (t : expr) (so : shared_occs) : option (expr * expr) :=
  if is_eq t then
    let arg1 := get_arg t 0 in
    let arg2 := get_arg t 1 in
    if is_value arg1 && is_shared arg2 so then Some (arg2, arg1)
    else if is_value arg2 && is_shared arg1 so then Some (arg1, arg2)
    else None
  else None.

(** What a formula of the goal lets the rewriter replace. *)
Definition insert_facts (new_curr : expr) (d : list expr) (st : propagate_values) : propagate_values :=
  let so := pv_occs st in
  let st := if is_shared new_curr so then subst_insert new_curr m_true d st else st in
  let st := match is_shared_neg new_curr so with Some atom => subst_insert atom m_false d st | None => st end in
  match is_shared_eq new_curr so with Some (lhs, value) => subst_insert lhs value d st | None => st end.

(** The dependencies of the new formula; those that the rewriter has used are
    taken from it. *)
Definition take_dependencies (curr : goal_entry) (st : propagate_values) : list expr * propagate_values :=
  if m_core_enabled (pv_goal st) then
    let used_d := get_used_dependencies (pv_r st) in
    (deps curr ++ used_d, set_rewriter (reset_used_dependencies (pv_r st)) st)
  else ([], st).

Definition pv_push_result (idx : nat) (new_curr : expr) (st : propagate_values) : res propagate_values :=
  curr ← aget (m_entries (pv_goal st)) (Z.of_nat idx);
  let '(new_d, st) := take_dependencies curr st in
  g ← update idx new_curr new_d (pv_goal st);
  Ok (insert_facts new_curr new_d (set_goal g st)).

Definition process_current (fuel : nat) (idx : nat) (st : propagate_values) : res propagate_values :=
  curr ← aget (m_entries (pv_goal st)) (Z.of_nat idx);
  match pv_subst st with
  | None => Fault NullPointer
  | Some sub =>
      '(new_curr, st) ←
        (if es_empty sub then Ok (form curr, st)
         else '(r, rw) ← simplify params b_rw bv_rw get_id ref_count mk_conversion counts fuel (form curr) (pv_r st);
              Ok (r, set_rewriter rw st));
      let st := if bool_decide (new_curr = form curr) then st else set_modified true st in
      pv_push_result idx new_curr st
  end.

(** The formulas at the positions, in their order; [true] when the goal has become
    inconsistent. *)
Fixpoint pass (fuel : nat) (idxs : list nat) (st : propagate_values) : res (bool * propagate_values) :=
  match idxs with
  | [] => Ok (false, st)
  | idx :: idxs =>
      st ← process_current fuel idx st;
      if m_inconsistent (pv_goal st) then Ok (true, st) else pass fuel idxs st
  end.

Definition find_occs (st : propagate_values) : res propagate_values :=
  so ← occs_goal (refs (pv_goal st) (pv_r st)) (pv_goal st) (pv_occs st);
  Ok (set_occs so st).

(** The substitution is emptied, and the cache of the rewriter with it. *)
Definition reset_subst (st : propagate_values) : propagate_values :=
  set_rewriter (set_substitution (es_reset <$> pv_subst st) (pv_r st)) st.

(** The passes that are left; every second one is backward. *)
Fixpoint passes (fuel : nat) (n : nat) (forward : bool) (st : propagate_values) : res propagate_values :=
  match n with
  | O => Ok st
  | S n =>
      let idxs := seq 0 (length (m_entries (pv_goal st))) in
      '(stop, st) ← pass fuel (if forward then idxs else rev idxs) st;
      if (stop : bool) then Ok st
      else if forward then
        match pv_subst st with
        | None => Fault NullPointer
        | Some sub =>
            if es_empty sub && negb (pv_modified st) then Ok st
            else st ← find_occs st; passes fuel n false (reset_subst st)
        end
      else if negb (pv_modified st) then Ok st
      else st ← find_occs (set_modified false (reset_subst st)); passes fuel n true st
  end.

Definition new_propagate_values (trace : option (list (expr * expr))) (g : goal) : propagate_values :=
  mk_propagate_values (new_th_rewriter trace) g (mk_shared_occs true [] []) false.

Definition run_propagate (fuel max_rounds : nat) (st : propagate_values) : res propagate_values :=
  let st := set_modified false st in
  st ← (if m_inconsistent (pv_goal st) then Ok st
        else if Nat.eqb max_rounds 0 then Ok st
        else
          let sub := new_expr_substitution (m_core_enabled (pv_goal st)) in
          st ← find_occs (set_rewriter (set_substitution (Some sub) (pv_r st)) st);
          passes fuel max_rounds true st);
  Ok (set_goal (inc_depth (elim_redundancies (pv_goal st))) st).

(** [cleanup]: a new machine, and no shared terms. *)
Definition pv_cleanup (st : propagate_values) : propagate_values :=
  mk_propagate_values (th_cleanup (pv_r st)) (pv_goal st) (occs_cleanup (pv_occs st)) (pv_modified st).

(** The tactic on a goal. *)
Definition propagate_values_tactic (fuel max_rounds : nat) (g : goal) (st : propagate_values)
    : res (goal * propagate_values) :=
  st ← run_propagate fuel max_rounds (set_goal g st);
  Ok (pv_goal st, st).
End Tactic.

(** The default of the option max_rounds. *)
Definition default_max_rounds : nat := 4.
