(* ===== verification/PropagateValuesOk.v ===== *)
(** The tactic "propagate-values" is correct: the goal it leaves says what the goal
    said, also under any of its assumptions, up to the logged steps that
    rewrite the signed overflow predicate or a conversion. What a formula lets the simplifier replace
    follows from the formulas that the pass has been through, so no formula is
    simplified by itself. *)
From S2P Require Import Prelude Ast AstSem AstFacts BoolRewriter BoolRewriterOk ExprSubstitution BvPlugin BvFacts PolyRewriter BvRewriterLeq BvRewriter BvRewriterOk Rewriter RewriterOk RewriterSim ThRewriter ThRewriterOk ThRewriterRun Goal GoalUnder SharedOccs PropagateValues.

(** ** Justified replacements *)

Lemma justified_weaken holds holds' sub :
  (forall U I, holds' U I -> holds U I) -> justified holds sub -> justified holds' sub.
Proof.
  intros Hw Hj t r d Ht Hf. destruct (Hj t r d Ht Hf) as (H1 & H2 & H3). split_and!; [done..|].
  intros U I Hd Hh. eapply H3; [exact Hd|by apply Hw].
Qed.

Lemma justified_empty holds s : ExprSubstitution.m_subst s = [] -> justified holds (Some s).
Proof. intros Hs t r d _ Hf. cbn in Hf. unfold es_find in Hf. by rewrite Hs in Hf. Qed.

(** The dependency that is recorded for a replacement. *)
Definition kept_dep (s : expr_substitution) (d : list expr) : list expr := if m_cores_enabled s then d else [].

Lemma justified_insert holds s c def d :
  justified holds (Some s) -> wf def = true -> get_sort def = get_sort c ->
  (forall U I, kept_dep s d ⊆ U -> holds U I -> eval I def = eval I c) ->
  justified holds (Some (es_insert c def d s)).
Proof.
  intros Hj Hw Hs He t r d' Ht Hf. cbn [mbind option_bind] in Hf. rewrite es_find_insert in Hf.
  destruct (decide (c = t)) as [->|Hct]; [|by apply Hj]. injection Hf as <- <-. by split_and!.
Qed.

(** The replacements that a formula gives. *)
Definition facts_of (so : shared_occs) (e : expr) (d : list expr) (s : expr_substitution) : expr_substitution :=
  let s := if is_shared e so then es_insert e m_true d s else s in
  let s := match is_shared_neg e so with Some atom => es_insert atom m_false d s | None => s end in
  match is_shared_eq e so with Some (lhs, value) => es_insert lhs value d s | None => s end.

Lemma facts_of_cores so e d s : m_cores_enabled (facts_of so e d s) = m_cores_enabled s.
Proof. unfold facts_of. by destruct (is_shared e so), (is_shared_neg e so), (is_shared_eq e so) as [[]|]. Qed.

Lemma change_same f g rw : (forall s, f s = g s) -> change_substitution f rw = change_substitution g rw.
Proof. intros Hfg. unfold change_substitution. destruct (m_subst (m_cfg rw)); cbn; [by rewrite Hfg|done]. Qed.

Lemma change_id rw : change_substitution (fun s => s) rw = rw.
Proof. by destruct rw as [[[s|] u tr] ? ? ? ? ? ?]. Qed.

Lemma change_compose f g rw : change_substitution f (change_substitution g rw) = change_substitution (fun s => f (g s)) rw.
Proof. by destruct rw as [[[s|] u tr] ? ? ? ? ? ?]. Qed.

Lemma insert_facts_eq e d st :
  insert_facts e d st = set_rewriter (change_substitution (facts_of (pv_occs st) e d) (pv_r st)) st.
Proof.
  unfold insert_facts, subst_insert, set_rewriter, facts_of.
  destruct st as [rw g so b]. cbn [pv_r pv_goal pv_occs pv_modified].
  destruct (is_shared e so), (is_shared_neg e so), (is_shared_eq e so) as [[]|];
    cbn [pv_r pv_goal pv_occs pv_modified]; by rewrite ?change_compose, ?change_id.
Qed.

Lemma not_arg e : is_not e = true -> wf e = true -> wfb (get_arg e 0) = true /\ forall I, tr I e = negb (tr I (get_arg e 0)).
Proof.
  intros Hn Hw. split; [|intros I]; [destruct (not_inv default_interp e Hn Hw) as (x & -> & _ & ? & _); done|].
  by destruct (not_inv I e Hn Hw) as (x & -> & _ & _ & _ & ?).
Qed.

Lemma eq_args e :
  is_eq e = true -> wf e = true ->
  (wf (get_arg e 0) = true /\ wf (get_arg e 1) = true /\ get_sort (get_arg e 0) = get_sort (get_arg e 1))
  /\ forall I, tr I e = true -> eval I (get_arg e 0) = eval I (get_arg e 1).
Proof.
  intros Hn Hw. split.
  - by destruct (eq_inv default_interp e Hn Hw) as (a & b & -> & -> & _ & ? & ? & ? & _).
  - intros I. destruct (eq_inv I e Hn Hw) as (a & b & -> & -> & _ & _ & _ & _ & _ & ->). apply bool_decide_eq_true_1.
Qed.

Lemma formula_value I e b : wfb e = true -> tr I e = b -> eval I e = VBool b.
Proof. intros Hw <-. by apply eval_bool. Qed.

(** They follow from the formula. *)
Lemma facts_of_justified holds so e d s :
  justified holds (Some s) -> wfb e = true ->
  (forall U I, kept_dep s d ⊆ U -> holds U I -> tr I e = true) -> justified holds (Some (facts_of so e d s)).
Proof.
  intros Hj Hwb He. pose proof Hwb as [Hw Hs]%wfb_spec. unfold facts_of.
  set (s1 := if is_shared e so then _ else s).
  assert (justified holds (Some s1) /\ kept_dep s1 d = kept_dep s d) as [Hj1 Hd1].
  { unfold s1. destruct (is_shared e so); [|done]. split; [|done]. apply justified_insert; [done..|].
    intros U I HU Hh. symmetry. apply formula_value; [done|by apply (He U)]. }
  clearbody s1. set (s2 := match is_shared_neg e so with Some _ => _ | None => s1 end).
  assert (justified holds (Some s2) /\ kept_dep s2 d = kept_dep s d) as [Hj2 Hd2].
  { unfold s2, is_shared_neg. destruct (is_not e && _) eqn:Hn; [|done]. apply andb_true_iff in Hn as [Hn _].
    destruct (not_arg e Hn Hw) as [Hwx Ht]. pose proof Hwx as [_ Hsx]%wfb_spec. split; [|done].
    apply justified_insert; [done|done|by rewrite Hsx|]. intros U I HU Hh. rewrite Hd1 in HU. symmetry.
    apply formula_value; [done|]. specialize (He U I HU Hh). rewrite Ht in He. by apply negb_true_iff. }
  clearbody s2. unfold is_shared_eq. destruct (is_eq e) eqn:Heq; [|done].
  destruct (eq_args e Heq Hw) as [(Hw0 & Hw1 & Hss) Hev].
  destruct (is_value (get_arg e 0) && _); [|destruct (is_value (get_arg e 1) && _); [|done]];
    (apply justified_insert; [done..|]; intros U I HU Hh; rewrite Hd2 in HU); [|symmetry]; apply Hev; by apply (He U).
Qed.

(** ** A traced run *)

(** What is known of the formulas of [g] that are not at the positions [Q]. *)
Definition facts (Q : nat -> Prop) (g : goal) (U : list expr) (I : interp) : Prop := rest_under U I Q g.

Lemma facts_monotone Q g : monotone (facts Q g).
Proof. intros U U' I HU Hr j e Hj He Hd. apply (Hr j e Hj He). set_solver. Qed.

Lemma change_cfg f rw :
  change_substitution f rw
  = set_cfg (mk_th_state (f <$> m_subst (m_cfg rw)) (m_used_dependencies (m_cfg rw)) (m_trace (m_cfg rw))) rw.
Proof. done. Qed.

Section Tactic.
Context (params : th_params) (b_rw : bool_rewriter_params) (bv_rw : bv_params).
Context (get_id : expr -> Z) (ref_count : expr -> nat).
Context (mk_conversion : func_decl -> list expr -> br_status).
Context (Hdiv : m_hi_div0 bv_rw = true) (Hconv : conversion_typed mk_conversion).
Context (counts : th_rewriter -> expr -> nat) (refs : goal -> th_rewriter -> expr -> nat).

Local Abbreviation rests := (rests params b_rw bv_rw get_id ref_count mk_conversion Hdiv Hconv).

(** The rewriter between two formulas: its substitution follows from the formulas
    of [g] that are not at [Q]. *)
Record rests_at (Q : nat -> Prop) (g : goal) (s : expr_substitution) (rw : th_rewriter) : Prop := mk_rests_at {
  ra_just : justified (facts Q g) (Some s);
  ra_rests : rests (facts Q g) (facts_monotone Q g) (Some s) ra_just rw;
  ra_cores : m_cores_enabled s = m_core_enabled g
}.

Lemma ra_subst Q g s rw : rests_at Q g s rw -> m_subst (m_cfg rw) = Some s /\ is_Some (m_trace (m_cfg rw)).
Proof. intros [Hj Hr _]. by apply rests_ok in Hr. Qed.

(** The next formulas: those of [g'] that are not at [Q'] say at least as much. *)
Lemma rests_at_change Q g s rw Q' g' f :
  rests_at Q g s rw -> (forall U I, facts Q' g' U I -> facts Q g U I) ->
  justified (facts Q' g') (Some (f s)) -> m_cores_enabled (f s) = m_core_enabled g' ->
  rests_at Q' g' (f s) (change_substitution f rw)
  /\ rests_at Q' g' (f s) (change_substitution f (reset_used_dependencies rw)).
Proof.
  intros Hr Hw Hj Hc. pose proof (ra_subst _ _ _ _ Hr) as [Hs Ht].
  assert (forall rw', m_subst (m_cfg rw') = Some s -> m_trace (m_cfg rw') = m_trace (m_cfg rw) ->
    th_ok (Some (f s)) (mk_th_state (f <$> m_subst (m_cfg rw')) (m_used_dependencies (m_cfg rw')) (m_trace (m_cfg rw')))) as Hok.
  { intros rw' Hs' Ht'. split; cbn; [by rewrite Hs'|by rewrite Ht']. }
  assert (rests_at Q' g' (f s) (change_substitution f rw)) as Hch.
  { exists Hj; [|done]. rewrite change_cfg. eapply rests_change; [apply (ra_rests _ _ _ _ Hr)|exact Hw| |by apply Hok].
    split; [done|]. intros tr Htr. exists []. by rewrite app_nil_r. }
  split; [done|]. unfold reset_used_dependencies. destruct (get_used_dependencies rw) as [|x U]; [done|].
  exists Hj; [|done]. rewrite change_cfg.
  set (rw' := set_cfg _ (set_substitution _ rw)).
  exact (rests_new _ _ _ _ _ _ Hdiv Hconv _ (facts_monotone Q' g') _ Hj _ rw (Hok rw' Hs eq_refl)).
Qed.

Lemma rests_at_new Q g s c rw :
  justified (facts Q g) (Some s) -> th_ok (Some s) c -> m_cores_enabled s = m_core_enabled g ->
  rests_at Q g s (set_cfg c (Rewriter.reset rw)).
Proof. intros Hj Hok Hc. exists Hj; [by apply rests_new|done]. Qed.

(** What holds of the goal in every state. *)
Record outcome (g0 : goal) (log : list (expr * expr)) (st : propagate_values) : Prop := mk_outcome {
  out_wf : goal_wf (pv_goal st);
  out_tracked : tracked (pv_goal st);
  out_trace : m_trace (m_cfg (pv_r st)) = Some log;
  out_keeps : keeps (fun I => Forall (agrees I) log) g0 (pv_goal st);
  out_occs : m_stack (pv_occs st) = []
}.

(** Between two formulas of a pass, [Q] being left. *)
Record ready (Q : nat -> Prop) (g0 : goal) (log : list (expr * expr)) (st : propagate_values) : Prop := mk_ready {
  ready_outcome : outcome g0 log st;
  ready_consistent : m_inconsistent (pv_goal st) = false;
  ready_left j : Q j -> (j < length (m_entries (pv_goal st)))%nat;
  ready_rests : exists s, rests_at Q (pv_goal st) s (pv_r st)
}.

Lemma reset_used_trace rw : m_trace (m_cfg (reset_used_dependencies rw)) = m_trace (m_cfg rw).
Proof. unfold reset_used_dependencies. by destruct (get_used_dependencies rw). Qed.

(** The new formula is stored, with what it gives. *)
Lemma push_result_ok Q Q' g0 log i e new s st :
  goal_wf (pv_goal st) -> tracked (pv_goal st) -> m_stack (pv_occs st) = [] ->
  m_inconsistent (pv_goal st) = false -> (forall j, Q j -> j < length (m_entries (pv_goal st)))%nat ->
  Q i -> (forall j, Q' j -> Q j /\ j <> i) -> m_entries (pv_goal st) !! i = Some e ->
  rests_at Q (pv_goal st) s (pv_r st) -> m_trace (m_cfg (pv_r st)) = Some log -> wfb new = true ->
  keeps (fun I => Forall (agrees I) log) g0 (pv_goal st) ->
  (forall I, Forall (agrees I) log -> facts Q (pv_goal st) (get_used_dependencies (pv_r st)) I -> tr I new = tr I (form e)) ->
  exists st', pv_push_result i new st = Ok st' /\ outcome g0 log st'
    /\ (m_inconsistent (pv_goal st') = false -> ready Q' g0 log st').
Proof.
  set (g := pv_goal st). intros Hg Htr Hstack Hi Hleft HQ HQ' He Hr Hlog Hnew Hk0 Heq.
  unfold pv_push_result. fold g. rewrite (aget_nat _ _ e) by done. cbn [mbind res_bind].
  set (d := if m_core_enabled g then deps e ++ get_used_dependencies (pv_r st) else []).
  set (rw := if m_core_enabled g then reset_used_dependencies (pv_r st) else pv_r st).
  assert (take_dependencies e st = (d, set_rewriter rw st)) as ->.
  { unfold take_dependencies, d, rw, set_rewriter. fold g. destruct (m_core_enabled g); [done|]. by destruct st. }
  assert (recorded g d = d) as Hrec by (unfold recorded, d; by destruct (m_core_enabled g)).
  assert (deps e ⊆ recorded g d) as Hd.
  { rewrite Hrec. unfold d. destruct Htr as [Hc|[Hc Hp]]; rewrite Hc; [set_solver|].
    rewrite Forall_lookup in Hp. by rewrite (Hp i e He). }
  destruct (update_replaced i new d g e Hg Htr Hnew Hi He Hd) as (g' & Hup & Hrep).
  cbn [pv_goal set_rewriter]. fold g. rewrite Hup. cbn [mbind res_bind].
  assert (keeps (fun I => Forall (agrees I) log) g g') as Hk.
  { eapply replaced_keeps; [done..| |].
    - intros I HI Hrest. apply Heq; [done|]. apply rest_true_under. intros j x Hj Hx. apply (Hrest j x); [by intros <-|done].
    - intros U I HI HU Hsub. apply Heq; [done|]. rewrite Hrec in Hsub. unfold d in Hsub.
      destruct Htr as [Hc|Hp].
      + rewrite Hc in Hsub. apply (facts_monotone _ _ _ U); [set_solver|]. intros j x _ Hx. apply goal_under_rest in HU.
        by apply (HU j x); [intros []|..].
      + apply rest_true_under. apply plain_under in HU; [|done]. intros j x _ Hx. unfold goal_true in HU.
        rewrite Forall_lookup in HU. by apply (HU j x). }
  rewrite insert_facts_eq. cbn [pv_r pv_goal pv_occs set_goal set_rewriter]. eexists. split; [done|].
  assert (outcome g0 log (set_rewriter (change_substitution (facts_of (pv_occs st) new d) rw)
            (set_goal g' (set_rewriter rw st)))) as Hout.
  { split; cbn [pv_r pv_goal pv_occs set_goal set_rewriter]; [apply Hrep..| | |done].
    - cbn. unfold rw. destruct (m_core_enabled g); [by rewrite reset_used_trace|done].
    - by eapply keeps_trans; [exact Hk0|exact Hk]. }
  split; [done|]. cbn [pv_r pv_goal pv_occs set_goal set_rewriter] in *. intros Hi'.
  assert (forall U I, facts Q' g' U I -> facts Q g U I /\ (d ⊆ U -> tr I new = true)) as Hfacts.
  { intros U I Hf. rewrite <- Hrec. apply (rep_rest _ _ _ _ _ Hrep); [done..|].
    intros j x Hj Hx. apply (Hf j x); [|done]. by intros ?%HQ'. }
  assert (justified (facts Q' g') (Some (facts_of (pv_occs st) new d s))) as Hj.
  { apply facts_of_justified; [|done|].
    - eapply justified_weaken; [|apply (ra_just _ _ _ _ Hr)]. by intros U I [? _]%Hfacts.
    - unfold kept_dep. rewrite (ra_cores _ _ _ _ Hr). fold g. fold (recorded g d). rewrite Hrec. intros U I HU Hf. by apply (Hfacts U I). }
  destruct (rests_at_change Q g s (pv_r st) Q' g' (facts_of (pv_occs st) new d) Hr) as [Hr1 Hr2];
    [by intros U I [? _]%Hfacts|done|rewrite facts_of_cores, (ra_cores _ _ _ _ Hr), (proj1 (rep_options _ _ _ _ _ Hrep)); done|].
  split; [done|done| |].
  - intros j [HQj _]%HQ'. cbn [pv_goal set_goal set_rewriter]. pose proof (rep_length _ _ _ _ _ Hrep Hi'). specialize (Hleft j HQj). fold g in Hleft. lia.
  - cbn [pv_goal pv_r]. eexists. unfold rw. destruct (m_core_enabled g); [exact Hr2|exact Hr1].
Qed.
Definition thrown (e : fault) : Prop := e = Z3Exception \/ e = OutOfFuel.

Lemma outcome_modified g0 log b st : outcome g0 log st -> outcome g0 log (set_modified b st).
Proof. by intros []. Qed.

Lemma process_current_ok fuel Q Q' g0 log i st :
  ready Q g0 log st -> Q i -> (forall j, Q' j -> Q j /\ j <> i) ->
  match process_current params b_rw bv_rw get_id ref_count mk_conversion counts fuel i st with
  | Ok st' => exists more, outcome g0 (log ++ more) st'
      /\ (m_inconsistent (pv_goal st') = false -> ready Q' g0 (log ++ more) st')
  | Fault e => thrown e
  end.
Proof.
  intros [[Hg Htr Hlog Hk Hstack] Hi Hleft [s Hr]] HQ HQ'. unfold process_current.
  destruct (lookup_lt_is_Some_2 _ _ (Hleft i HQ)) as [e He]. rewrite (aget_nat _ _ e) by done. cbn [mbind res_bind].
  unfold pv_subst. rewrite (proj1 (ra_subst _ _ _ _ Hr)).
  assert (wfb (form e) = true) as Hwe by (destruct Hg as [Hw _]; rewrite Forall_lookup in Hw; by eapply Hw).
  destruct (es_empty s); cbn [mbind res_bind].
  - rewrite bool_decide_eq_true_2 by done.
    destruct (push_result_ok Q Q' g0 log i e (form e) s st) as (st' & -> & Ho & Hready); try done.
    exists []. by rewrite app_nil_r.
  - pose proof Hwe as [Hwf Hsort]%wfb_spec.
    pose proof (simplify_rests params b_rw bv_rw get_id ref_count mk_conversion Hdiv Hconv _ _ _ _ counts fuel (form e)
      (pv_r st) (ra_rests _ _ _ _ Hr) Hwf) as Hs.
    destruct (simplify _ _ _ _ _ _ _ _ _ _) as [[r rw]|er]; cbn [mbind res_bind]; [|exact Hs].
    destruct Hs as (Hrest1 & [_ Htrace] & Hwr & Hsr & Hev). destruct (Htrace log Hlog) as [more Hmore].
    set (st1 := if bool_decide (r = form e) then _ else _).
    assert (pv_goal st1 = pv_goal st /\ pv_r st1 = rw /\ pv_occs st1 = pv_occs st) as (Hg1 & Hr1 & Ho1)
      by (unfold st1; by destruct (bool_decide _)).
    destruct (push_result_ok Q Q' g0 (log ++ more) i e r s st1) as (st' & -> & Ho & Hready);
      rewrite ?Hg1, ?Hr1, ?Ho1; try done.
    + exists (ra_just _ _ _ _ Hr); [exact Hrest1|apply (ra_cores _ _ _ _ Hr)].
    + apply wfb_spec. by rewrite Hsr.
    + eapply keeps_weaken; [|exact Hk]. intros I HI. by apply Forall_app in HI as [? _].
    + intros I HI Hf. unfold tr. f_equal. apply Hev. split; [exact Hf|]. intros tr' Htr'. rewrite Hmore in Htr'.
      by injection Htr' as <-.
    + by exists more.
Qed.

Lemma pass_ok fuel idxs g0 log st :
  NoDup idxs -> ready (fun j => j ∈ idxs) g0 log st ->
  match pass params b_rw bv_rw get_id ref_count mk_conversion counts fuel idxs st with
  | Ok (stop, st') => exists more, outcome g0 (log ++ more) st'
      /\ (stop = false -> ready (fun _ => False) g0 (log ++ more) st')
  | Fault e => thrown e
  end.
Proof.
  revert log st. induction idxs as [|i idxs IH]; intros log st Hnd Hr; cbn [pass].
  { exists []. rewrite app_nil_r. split; [apply Hr|]. intros _. destruct Hr as [Ho Hi Hl [s Hs]]. split; [done..|].
    exists s. pose proof Hs as [Hj _ Hc]. eapply (rests_at_change _ _ _ _ _ _ (fun s => s)) in Hs as [Hs _].
    - rewrite change_id in Hs. exact Hs.
    - intros U I Hf j x _ Hx. by apply (Hf j x); [intros []|..].
    - eapply justified_weaken; [|exact Hj]. intros U I Hf j x _ Hx. by apply (Hf j x); [intros []|..].
    - done. }
  apply NoDup_cons in Hnd as [Hni Hnd].
  pose proof (process_current_ok fuel _ (fun j => j ∈ idxs) g0 log i st Hr ltac:(set_solver)) as Hp.
  destruct (process_current _ _ _ _ _ _ _ _ _ _) as [st1|e]; cbn [mbind res_bind].
  - destruct Hp as (more & Ho & Hready); [intros j Hj; split; [set_solver|by intros ->]|].
    destruct (m_inconsistent (pv_goal st1)); [by exists more|].
    specialize (IH (log ++ more) st1 Hnd (Hready eq_refl)).
    destruct (pass _ _ _ _ _ _ _ _ _ _) as [[stop st2]|e]; [|done]. destruct IH as (more' & ? & ?).
    exists (more ++ more'). by rewrite app_assoc.
  - apply Hp. intros j Hj. split; [set_solver|by intros ->].
Qed.

(** A new pass begins: the substitution is empty. *)
Definition cleared (g : goal) (rw : th_rewriter) : Prop :=
  exists s c rw0, rw = set_cfg c (Rewriter.reset rw0) /\ th_ok (Some s) c /\ ExprSubstitution.m_subst s = []
    /\ m_cores_enabled s = m_core_enabled g.

Lemma find_occs_ok st :
  m_stack (pv_occs st) = [] ->
  exists so, find_occs refs st = Ok (set_occs so st) /\ m_stack so = [].
Proof.
  intros Hs. unfold find_occs. destruct (occs_goal_walk (refs (pv_goal st) (pv_r st)) (pv_goal st) (pv_occs st) Hs)
    as (so & -> & _ & Hso & _). by exists so.
Qed.

Lemma reset_subst_cleared Q g0 log st s :
  outcome g0 log st -> rests_at Q (pv_goal st) s (pv_r st) ->
  outcome g0 log (reset_subst st) /\ cleared (pv_goal st) (pv_r (reset_subst st)).
Proof.
  intros [] Hr. pose proof (ra_subst _ _ _ _ Hr) as [Hs Ht]. split; [by split|]. unfold reset_subst, pv_subst. rewrite Hs.
  cbn [pv_r set_rewriter]. eexists (es_reset s), _, (pv_r st). split; [reflexivity|]. split_and!; [by split|done|].
  apply (ra_cores _ _ _ _ Hr).
Qed.

Lemma passes_ok fuel n forward g0 log st :
  outcome g0 log st -> m_inconsistent (pv_goal st) = false -> cleared (pv_goal st) (pv_r st) ->
  match passes params b_rw bv_rw get_id ref_count mk_conversion counts refs fuel n forward st with
  | Ok st' => exists more, outcome g0 (log ++ more) st'
  | Fault e => thrown e
  end.
Proof.
  revert forward log st. induction n as [|n IH]; intros forward log st Ho Hi Hcl; cbn [passes].
  { exists []. by rewrite app_nil_r. }
  set (idxs := if forward then _ else _).
  assert (NoDup idxs /\ forall j, j ∈ idxs <-> (j < length (m_entries (pv_goal st)))%nat) as [Hnd Hidx].
  { unfold idxs. destruct forward; (split; [|intros j]).
    - apply NoDup_seq.
    - rewrite elem_of_seq. lia.
    - rewrite <- Permutation_rev. apply NoDup_seq.
    - rewrite <- Permutation_rev, elem_of_seq. lia. }
  assert (ready (fun j => j ∈ idxs) g0 log st) as Hready.
  { destruct Hcl as (s & c & rw0 & Hrw & Hok & Hs & Hc). split; [done|done|by intros j ?%Hidx|]. exists s. rewrite Hrw.
    apply rests_at_new; [by apply justified_empty|done|done]. }
  pose proof (pass_ok fuel idxs g0 log st Hnd Hready) as Hp.
  destruct (pass _ _ _ _ _ _ _ _ _ _) as [[stop st1]|e]; cbn [mbind res_bind]; [|exact Hp].
  destruct Hp as (more & Ho1 & Hr1). destruct stop; [by exists more|]. specialize (Hr1 eq_refl).
  pose proof Hr1 as [_ Hi1 _ [s1 Hs1]].
  assert (forall st2 fw, outcome g0 (log ++ more) st2 -> pv_goal st2 = pv_goal st1 -> cleared (pv_goal st1) (pv_r st2) ->
    match passes params b_rw bv_rw get_id ref_count mk_conversion counts refs fuel n fw st2 with
    | Ok st' => exists more, outcome g0 (log ++ more) st'
    | Fault e => thrown e
    end) as Hnext.
  { intros st2 fw Ho2 Hg2 Hcl2. specialize (IH fw (log ++ more) st2 Ho2 ltac:(by rewrite Hg2) ltac:(by rewrite Hg2)).
    destruct (passes _ _ _ _ _ _ _ _ _ _ _ _) as [st3|e]; [|done]. destruct IH as [more' ?]. exists (more ++ more').
    by rewrite app_assoc. }
  destruct (reset_subst_cleared _ _ _ _ _ Ho1 Hs1) as [Ho2 Hcl2]. destruct forward.
  - unfold pv_subst. rewrite (proj1 (ra_subst _ _ _ _ Hs1)). destruct (es_empty s1 && _); [by exists more|].
    destruct (find_occs_ok st1) as (so & -> & Hso); [apply Ho1|]. cbn [mbind res_bind].
    apply Hnext; [|done|exact Hcl2]. destruct Ho2. by split.
  - destruct (negb (pv_modified st1)); [by exists more|].
    destruct (find_occs_ok (set_modified false (reset_subst st1))) as (so & -> & Hso); [apply Ho1|]. cbn [mbind res_bind].
    apply Hnext; [|done|exact Hcl2]. destruct Ho2. by split.
Qed.

Lemma propagate_values_traced fuel max_rounds g :
  goal_wf g -> tracked g ->
  match propagate_values_tactic params b_rw bv_rw get_id ref_count mk_conversion counts refs fuel max_rounds g
          (new_propagate_values (Some []) g) with
  | Ok (g', st') => goal_wf g' /\ tracked g' /\ (m_inconsistent g' = false -> irredundant (map form (m_entries g')))
      /\ exists log, m_trace (m_cfg (pv_r st')) = Some log /\ keeps (fun I => Forall (agrees I) log) g g'
  | Fault e => thrown e
  end.
Proof.
  intros Hg Htr. unfold propagate_values_tactic, run_propagate. cbn [pv_goal new_propagate_values set_goal set_modified].
  set (st0 := set_modified false _). assert (outcome g [] st0) as Ho0 by (split; [done..|apply keeps_refl|done]).
  match goal with |- context [if m_inconsistent g then ?a else ?b] => set (m := if m_inconsistent g then a else b) end.
  assert (match m with Ok st' => exists log, outcome g log st' | Fault e => thrown e end) as Hm.
  { unfold m. destruct (m_inconsistent g) eqn:Hi; [by exists []|]. destruct (Nat.eqb max_rounds 0); [by exists []|].
    set (st1 := set_rewriter _ st0). destruct (find_occs_ok st1) as (so & -> & Hso); [done|]. cbn [mbind res_bind].
    pose proof (passes_ok fuel max_rounds true g [] (set_occs so st1)) as Hp.
    destruct (passes _ _ _ _ _ _ _ _ _ _ _ _) as [st2|e]; apply Hp; try done.
    all: first [by split; [done..|apply keeps_refl|done]
               |eexists (new_expr_substitution (m_core_enabled g)), _, (new_th_rewriter (Some [])); split; [reflexivity|];
                split_and!; [by split; [|eexists]|done..]]. }
  clearbody m. destruct m as [st1|e]; cbn [mbind res_bind]; [|exact Hm]. destruct Hm as (log & [Hg1 Htr1 Hlog Hk _]).
  destruct (elim_redundancies_ok default_interp (pv_goal st1) Hg1) as (Hg2 & _ & Hirr). cbn [pv_goal set_goal pv_r].
  split_and!; [done|by apply elim_tracked|done|]. exists log. split; [done|]. apply keeps_depth.
  eapply keeps_trans; [exact Hk|by apply keeps_elim].
Qed.
End Tactic.

(** ** A run without a trace *)

Section Untraced.
Context (params : th_params) (b_rw : bool_rewriter_params) (bv_rw : bv_params).
Context (get_id : expr -> Z) (ref_count : expr -> nat).
Context (mk_conversion : func_decl -> list expr -> br_status).
Context (counts : th_rewriter -> expr -> nat) (refs : goal -> th_rewriter -> expr -> nat).

(** A traced run counts the references of the run without the trace. *)
Definition traced_refs (g : goal) : th_rewriter -> expr -> nat := traced_counts (refs g).

Lemma traced_refs_same g rw rw' : same_run rw rw' -> traced_refs g rw' = refs g rw.
Proof. intros Hs. unfold traced_refs, traced_counts. by rewrite (untraced_same rw). Qed.

Definition same_pv (st st' : propagate_values) : Prop :=
  same_run (pv_r st) (pv_r st') /\ exists rw', st' = set_rewriter rw' st.
Definition same_pair {A} (x y : A * propagate_values) : Prop := fst x = fst y /\ same_pv (snd x) (snd y).

Lemma same_pv_intro rw rw' g so b :
  same_run rw rw' -> same_pv (mk_propagate_values rw g so b) (mk_propagate_values rw' g so b).
Proof. intros Hs. split; [done|]. by exists rw'. Qed.

Lemma modified_same b st st' : same_pv st st' -> same_pv (set_modified b st) (set_modified b st').
Proof. intros [Hs [rw' ->]]. by apply same_pv_intro. Qed.

Local Abbreviation process c := (process_current params b_rw bv_rw get_id ref_count mk_conversion c).
Local Abbreviation pass_with c := (pass params b_rw bv_rw get_id ref_count mk_conversion c).
Local Abbreviation passes_with c r := (passes params b_rw bv_rw get_id ref_count mk_conversion c r).

Lemma push_result_same i e st st' :
  same_pv st st' -> res_rel same_pv (pv_push_result i e st) (pv_push_result i e st').
Proof.
  intros [Hs [rw' ->]]. destruct st as [rw g so b]. cbn [pv_r set_rewriter pv_goal pv_occs pv_modified] in *.
  unfold pv_push_result. cbn [pv_goal]. apply rel_same. intros curr.
  unfold take_dependencies, set_rewriter. cbn [pv_r pv_goal pv_occs pv_modified]. pose proof (same_run_cfg rw rw' Hs) as [_ Hu].
  destruct (m_core_enabled g); rewrite ?Hu; cbn [pv_r pv_goal pv_occs pv_modified]; apply rel_same; intros g';
    cbn [res_rel]; rewrite !insert_facts_eq; unfold set_rewriter, set_goal; cbn [pv_r pv_goal pv_occs pv_modified];
    apply same_pv_intro, change_substitution_same; [|done].
  by apply reset_used_dependencies_same.
Qed.

Lemma process_current_same fuel i st st' :
  same_pv st st' -> res_rel same_pv (process counts fuel i st) (process (traced_counts counts) fuel i st').
Proof.
  intros [Hs [rw' ->]]. destruct st as [rw g so b]. cbn [pv_r set_rewriter pv_goal pv_occs pv_modified] in *.
  unfold process_current, set_rewriter. cbn [pv_r pv_goal pv_occs pv_modified]. apply rel_same. intros curr. unfold pv_subst.
  cbn [pv_r].
  pose proof (same_run_cfg rw rw' Hs) as [-> _]. destruct (m_subst (m_cfg rw)) as [sub|]; [|done].
  eapply (rel_bind same_pair).
  - destruct (es_empty sub); [split; [done|by apply same_pv_intro]|].
    eapply rel_bind; [by apply simplify_same|]. intros [r rw1] [r' rw1'] [Hr Hrw]; cbn [fst snd] in *. subst r'.
    split; [done|by apply same_pv_intro].
  - intros [r st1] [r' st1'] [Hr H1]; cbn [fst snd] in *. subst r'. apply push_result_same.
    destruct (bool_decide _); [done|by apply modified_same].
Qed.

Lemma pass_same fuel idxs st st' :
  same_pv st st' -> res_rel same_pair (pass_with counts fuel idxs st) (pass_with (traced_counts counts) fuel idxs st').
Proof.
  revert st st'. induction idxs as [|i idxs IH]; intros st st' Hs; cbn [pass]; [by split|].
  eapply rel_bind; [by apply process_current_same|]. intros st1 st1' H1.
  pose proof H1 as [_ [rw1 Heq]]. assert (pv_goal st1' = pv_goal st1) as -> by by subst st1'.
  destruct (m_inconsistent (pv_goal st1)); [by split|by apply IH].
Qed.

Lemma find_occs_same st st' : same_pv st st' -> res_rel same_pv (find_occs refs st) (find_occs traced_refs st').
Proof.
  intros [Hs [rw' ->]]. unfold find_occs. cbn [pv_goal pv_r pv_occs set_rewriter]. cbn [pv_r set_rewriter] in Hs.
  rewrite (traced_refs_same _ _ _ Hs). apply rel_same. intros so. by apply same_pv_intro.
Qed.

Lemma reset_subst_same st st' : same_pv st st' -> same_pv (reset_subst st) (reset_subst st').
Proof.
  intros [Hs [rw' ->]]. cbn [pv_r set_rewriter] in Hs. unfold reset_subst, pv_subst. cbn [pv_r set_rewriter].
  rewrite (proj1 (same_run_cfg _ _ Hs)). by apply same_pv_intro, set_substitution_same.
Qed.

Lemma passes_same fuel n forward st st' :
  same_pv st st' ->
  res_rel same_pv (passes_with counts refs fuel n forward st) (passes_with (traced_counts counts) traced_refs fuel n forward st').
Proof.
  revert forward st st'. induction n as [|n IH]; intros forward st st' Hs; cbn [passes]; [done|].
  assert (pv_goal st' = pv_goal st) as -> by (destruct Hs as [_ [rw1 ->]]; done).
  eapply rel_bind; [by apply pass_same|]. intros [stop st1] [stop' st1'] [Hst H1]; cbn [fst snd] in *. subst stop'.
  destruct stop; [done|].
  assert (pv_modified st1' = pv_modified st1 /\ pv_subst st1' = pv_subst st1) as [-> ->].
  { destruct H1 as [H1 [rw1 ->]]. split; [done|]. cbn in H1. by apply same_run_cfg in H1 as [? _]. }
  destruct forward.
  - destruct (pv_subst st1) as [sub|]; [|done]. destruct (es_empty sub && _); [done|].
    eapply rel_bind; [by apply find_occs_same|]. intros st2 st2' H2. by apply IH, reset_subst_same.
  - destruct (negb _); [done|]. eapply rel_bind; [|intros st2 st2' H2; by apply IH].
    by apply find_occs_same, modified_same, reset_subst_same.
Qed.

Lemma propagate_values_same fuel max_rounds g :
  res_rel same_pair
    (propagate_values_tactic params b_rw bv_rw get_id ref_count mk_conversion counts refs fuel max_rounds g
       (new_propagate_values None g))
    (propagate_values_tactic params b_rw bv_rw get_id ref_count mk_conversion (traced_counts counts) traced_refs fuel
       max_rounds g (new_propagate_values (Some []) g)).
Proof.
  unfold propagate_values_tactic, run_propagate, new_propagate_values. cbn [pv_goal set_goal set_modified pv_r pv_occs pv_modified].
  assert (same_run (new_th_rewriter None) (new_th_rewriter (Some []))) as Hs by (by exists (mk_th_state None [] (Some []))).
  eapply (rel_bind same_pv).
  - eapply (rel_bind same_pv); [|intros st st' [H1 [rw1 ->]]; split; [done|by exists rw1]].
    destruct (m_inconsistent g); [by apply same_pv_intro|]. destruct (Nat.eqb max_rounds 0); [by apply same_pv_intro|].
    eapply rel_bind; [|intros st st' H1; by apply passes_same]. apply find_occs_same, same_pv_intro. by apply set_substitution_same.
  - intros st st' H1. split; [|done]. by destruct H1 as [_ [rw1 ->]].
Qed.
End Untraced.

Lemma propagate_values_ok params b_rw bv_rw get_id ref_count mk_conversion counts refs fuel max_rounds g :
  m_hi_div0 bv_rw = true -> conversion_typed mk_conversion -> goal_wf g -> tracked g ->
  match propagate_values_tactic params b_rw bv_rw get_id ref_count mk_conversion counts refs fuel max_rounds g
          (new_propagate_values None g) with
  | Ok (g', _) => goal_wf g' /\ tracked g' /\ (m_inconsistent g' = false -> irredundant (map form (m_entries g')))
      /\ exists st log, propagate_values_tactic params b_rw bv_rw get_id ref_count mk_conversion (traced_counts counts)
                          (traced_refs refs) fuel max_rounds g (new_propagate_values (Some []) g) = Ok (g', st)
      /\ m_trace (m_cfg (pv_r st)) = Some log
      /\ keeps (fun I => Forall (agrees I) log) g g'
  | Fault e => e = Z3Exception \/ e = OutOfFuel
  end.
Proof.
  intros Hdiv Hconv Hg Htr.
  pose proof (propagate_values_same params b_rw bv_rw get_id ref_count mk_conversion counts refs fuel max_rounds g) as Hrel.
  pose proof (propagate_values_traced params b_rw bv_rw get_id ref_count mk_conversion Hdiv Hconv (traced_counts counts)
    (traced_refs refs) fuel max_rounds g Hg Htr) as Hok.
  destruct (propagate_values_tactic _ _ _ _ _ _ counts _ _ _ _ _) as [[g' st0]|e],
    (propagate_values_tactic _ _ _ _ _ _ (traced_counts counts) _ _ _ _ _) as [[g1 st]|e']; cbn in Hrel; try done; [|by subst].
  destruct Hrel as [Heq _]. cbn in Heq. subst g1. destruct Hok as (H1 & H2 & H3 & log & H4 & H5).
  split_and!; [done..|]. by exists st, log.
Qed.

(** C10: The tactic "propagate-values" keeps the meaning of the goal up to the
    signed overflow predicate and the conversions from and to the integers, for
    every bound on the passes: over the interpretations that agree with the steps
    that rewrote one, which a traced run with the same result names, the new goal
    is true when the old one is, and every core of the new goal is one of the old.
    Nothing in the new goal is redundant; only the rules of the simplifier throw,
    or the fuel does not do. Division by zero is as in the default, and the answers
    to conversions have their sorts. *)
Theorem propagate_values_correct params b_rw bv_rw get_id ref_count mk_conversion counts refs fuel max_rounds g :
  m_hi_div0 bv_rw = true -> conversion_typed mk_conversion -> goal_wf g -> tracked g ->
  match propagate_values_tactic params b_rw bv_rw get_id ref_count mk_conversion counts refs fuel max_rounds g
          (new_propagate_values None g) with
  | Ok (g', _) => goal_wf g' /\ tracked g' /\ (m_inconsistent g' = false -> irredundant (map form (m_entries g')))
      /\ exists st log, propagate_values_tactic params b_rw bv_rw get_id ref_count mk_conversion (traced_counts counts)
                          (traced_refs refs) fuel max_rounds g (new_propagate_values (Some []) g) = Ok (g', st)
      /\ m_trace (m_cfg (pv_r st)) = Some log
      /\ keeps (fun I => Forall (agrees I) log) g g'
  | Fault e => e = Z3Exception \/ e = OutOfFuel
  end.
Proof. apply propagate_values_ok. Qed.
