(* ===== verification/BitBlaster.v ===== *)
(** bit_blaster_rewriter (bit_blaster_rewriter.h, bit_blaster_rewriter.cpp): the
    rewriting machine over the configuration of the bit-blaster; the tactic
    "bit-blast" (tactic/bv/bit_blaster_tactic.cpp), which applies it to the
    formulas of a goal; and the converter that turns a model of the result into
    a model of the goal (tactic/bv/bit_blaster_model_converter.cpp). *)
From S2P Require Import Prelude Ast AstSem BoolRewriter BlasterRewriter Rewriter Goal.

(** ** The configuration *)

(** The defaults of max_steps and max_memory are never exceeded. *)
Section Config.
Context (get_id : expr -> Z) (opts : options).

Definition reduce_var (i : nat) (s : sort) (st : state) : option expr :=
  if m_blast_full opts && is_bv_sort s then Some (blast_bv_term (Var i s)) else None.

Definition blaster_rewriter_cfg : RewriterCfg state := {|
  cfg_reduce_app := reduce_app get_id opts;
  cfg_reduce_var := reduce_var;
  cfg_get_subst _ _ := None;
  cfg_pre_visit _ _ := true;
  cfg_flat_assoc _ _ := false;
  cfg_cache_all_results _ := false;
  cfg_cache_results _ := true;
  cfg_max_frames_exceeded _ _ := false;
  cfg_max_steps_exceeded _ _ := false
|}.
#[local] Existing Instance blaster_rewriter_cfg.

Definition bit_blaster_rewriter := rewriter (C := state).
Context (ref_count : bit_blaster_rewriter -> expr -> nat).

Definition blast (fuel : nat) (t : expr) (rw : bit_blaster_rewriter) : res (expr * bit_blaster_rewriter) :=
  rewrite ref_count fuel t rw.

(** The scopes are those of the configuration: the cache is not scoped. *)
Definition bb_push (rw : bit_blaster_rewriter) : bit_blaster_rewriter := set_cfg (push (m_cfg rw)) rw.
Definition bb_pop (num_scopes : nat) (rw : bit_blaster_rewriter) : res bit_blaster_rewriter :=
  st ← pop num_scopes (m_cfg rw); Ok (set_cfg st rw).
Definition bb_start_rewrite (rw : bit_blaster_rewriter) : bit_blaster_rewriter :=
  set_cfg (start_rewrite (m_cfg rw)) rw.
Definition cleanup (rw : bit_blaster_rewriter) : bit_blaster_rewriter := Rewriter.reset rw.

(** ** The model converter *)

(** The constants of a model and their values; what it leaves out is [false],
    or zero. *)
Definition model := list (func_decl * expr).

Record bit_blaster_model_converter := mk_mc {
  m_vars : list func_decl;
  m_bits : list expr;
  mc_newbits : list func_decl
}.

Definition mk_bit_blaster_model_converter (const2bits : list (func_decl * expr)) (newbits : list func_decl)
    : option bit_blaster_model_converter :=
  match const2bits with
  | [] => None
  | _ => Some (mk_mc (map fst const2bits) (map snd const2bits) newbits)
  end.

(** [get_const_interp] of the declaration of a constant. *)
Definition const_interp (md : model) (c : expr) : option expr :=
  match c with App d _ => map_find md d | Var _ _ => None end.

Definition collect_bits (mc : bit_blaster_model_converter) : list func_decl :=
  concat (map (fun bs => concat (map (fun bit => match bit with App d _ => [d] | Var _ _ => [] end)
                                  (get_args bs))) (m_bits mc)).

Definition copy_non_bits (bits : list func_decl) (old_model : model) : model :=
  List.filter (fun kv => negb (bool_decide (fst kv ∈ bits))) old_model.

(** The value of a vector of bits, from the last one down. *)
Definition bits_numeral (old_model : model) (bs : expr) : Z :=
  foldr (fun bit val =>
      val * 2 + match const_interp old_model bit with
                | Some bit_val => if is_true bit_val then 1 else 0
                | None => 0
                end) 0 (get_args bs).

(** [bv_util::mk_numeral]. *)
Definition mk_numeral (val : Z) (bv_size : nat) : expr :=
  App (bv_num_decl (val mod 2 ^ Z.of_nat bv_size) bv_size) [].

Definition mk_bvs (mc : bit_blaster_model_converter) (old_model new_model : model) : model :=
  foldl (fun m '(v, bs) =>
      map_insert m v (match map_find old_model v with
                      | Some new_val => new_val
                      | None => mk_numeral (bits_numeral old_model bs) (length (get_args bs))
                      end)) new_model (zip (m_vars mc) (m_bits mc)).

Definition convert_model (mc : bit_blaster_model_converter) (md : model) : model :=
  mk_bvs mc md (copy_non_bits (collect_bits mc) md).

(** The formula with the definitions of the constants, which are then forgotten. *)
Definition convert_formula (mc : bit_blaster_model_converter) (fml : expr) : expr * bit_blaster_model_converter :=
  match m_vars mc with
  | [] => (fml, mc)
  | _ => (m_mk_and (fml :: map (fun '(v, bs) => m_mk_eq (App v []) bs) (zip (m_vars mc) (m_bits mc))),
          mk_mc [] [] (mc_newbits mc))
  end.

(** ** The tactic *)

(** The loop over the formulas the goal has at the start. *)
Fixpoint blast_loop (fuel : nat) (idxs : list nat) (change : bool) (g : goal) (rw : bit_blaster_rewriter)
    : res (bool * goal * bit_blaster_rewriter) :=
  match idxs with
  | [] => Ok (change, g, rw)
  | idx :: idxs =>
      if m_inconsistent g then Ok (change, g, rw)
      else
        curr ← aget (m_entries g) (Z.of_nat idx);
        '(new_curr, rw) ← blast fuel (form curr) rw;
        if bool_decide (form curr = new_curr) then blast_loop fuel idxs change g rw
        else g ← update idx new_curr (deps curr) g; blast_loop fuel idxs true g rw
  end.

Definition bit_blaster_tactic (fuel : nat) (g : goal) (rw : bit_blaster_rewriter)
    : res (goal * option bit_blaster_model_converter * bit_blaster_rewriter) :=
  let rw := bb_start_rewrite rw in
  '(change, g, rw) ← blast_loop fuel (seq 0 (length (m_entries g))) false g rw;
  let mc := if change && m_models_enabled g then
              let '(const2bits, newbits) := end_rewrite (m_cfg rw) [] [] in
              mk_bit_blaster_model_converter const2bits newbits
            else None in
  Ok (inc_depth g, mc, cleanup rw).
End Config.
