(* ===== verification/BitBlasterOk.v ===== *)
(** The bit-blaster is correct: the rewriting machine over its configuration
    ends and gives terms that are equal in every interpretation consistent with
    the new bits, and every interpretation of the old symbols has such an
    extension; the terms do not depend on the bit-vector constants, so a model
    of the result is turned into a model of the goal by the converter. *)
From S2P Require Import Prelude Bits Ast AstSem AstFacts BlastSpec BoolRewriter BoolRewriterOk BlasterRewriter BlasterRewriterOk Rewriter RewriterOk Goal BitBlaster.

(** ** Independence of the bit-vector constants *)

Definition bv_const (d : func_decl) : bool := bool_decide (kind d = NullFid) && is_bv_sort (range d).

(** Two interpretations that differ on the bit-vector constants only. *)
Definition same_but_consts (I J : interp) : Prop :=
  (forall d vs, bv_const d = false \/ vs <> [] -> i_decl I d vs = i_decl J d vs)
  /\ (forall i s, i_var I i s = i_var J i s).

Definition independent (e : expr) : Prop := forall I J, same_but_consts I J -> eval I e = eval J e.

Lemma independent_app f args :
  bv_const f = false \/ args <> [] -> Forall independent args -> independent (App f args).
Proof.
  intros Hf Ha I J HIJ. cbn. assert (map (eval I) args = map (eval J) args) as ->.
  { clear Hf. induction Ha as [|e args He _ IH]; [done|]. cbn. by rewrite (He I J HIJ), IH. }
  assert (i_decl I f (map (eval J) args) = i_decl J f (map (eval J) args)) as Hd.
  { apply HIJ. destruct Hf as [?|Hf]; [by left|right]. by destruct args. }
  unfold decl_apply. destruct (kind f); by rewrite ?Hd.
Qed.

Lemma independent_value e e' : (forall I, eval I e' = eval I e) -> independent e -> independent e'.
Proof. intros He Hi I J HIJ. rewrite !He. by apply Hi. Qed.

Definition fresh_vector (n k : nat) : expr := app_mkbv (map (fun d => App d []) (map fresh_bool (seq n k))).

Lemma independent_bits n k : independent (fresh_vector n k).
Proof.
  apply independent_app; [by left|]. rewrite !Forall_map, Forall_forall. intros i _.
  apply independent_app; [by left|done].
Qed.

(** ** The configuration keeps its promise *)

Section Config.
Context (get_id : expr -> Z) (opts : options).
#[local] Instance cfg : RewriterCfg state := blaster_rewriter_cfg get_id opts.

(** The states grow: the recorded bits stay, the new ones are fresh, and every
    interpretation consistent with the old bits has an extension to the new. *)
Definition grows (st st' : state) : Prop :=
  ((m_fresh_id st <= m_fresh_id st')%nat
   /\ forall f r, map_find (m_const2bits st') f = Some r ->
        map_find (m_const2bits st) f = Some r
        \/ exists n, r = fresh_vector n (sort_bv_size (range f)) /\ (m_fresh_id st <= n)%nat)
  /\ (forall I, consistent I st' -> consistent I st)
  /\ (forall I, consistent I st -> exists J, agree (m_fresh_id st) I J /\ consistent J st').

#[export] Instance grows_preorder : PreOrder grows.
Proof.
  split.
  - intros st. split; [split; [done|by left]|]. split; [done|]. intros I HI. exists I. split; [by split|done].
  - intros a b c ([Hn Hf] & Hc & He) ([Hn' Hf'] & Hc' & He'). split; [split; [lia|]|split; [by auto|]].
    { intros f r [Hr|(n & Hr & Hle)]%Hf'; [by apply Hf|]. right. exists n. split; [done|lia]. }
    intros I HI.
    destruct (He I HI) as (J & HJ & HJb). destruct (He' J HJb) as (K & HK & HKc). exists K. split; [|done].
    eapply agree_trans; [exact HJ|]. by apply (agree_mono _ (m_fresh_id b)).
Qed.

#[export, refine] Instance blaster_rel : RewriterRel state := {|
  cfg_le := grows;
  admits st I := consistent I st;
  usable _ e := wf e = true;
  settled _ e := independent e;
  admits_le := _; usable_le := _; settled_le := _; usable_wf := _; usable_args := _; usable_app := _
|}.
Proof.
  - intros c c' I (_ & Hc & _). apply Hc.
  - done.
  - done.
  - done.
  - intros _ f args (_ & _ & Hw)%wf_app. exact Hw.
  - intros _ f args args' (Hs & Hp & _)%wf_app Hw Hsorts. rewrite wf_app, Hsorts. done.
Defined.

(** The operators whose rule throws. *)
Definition throws (f : func_decl) : bool :=
  match kind f with
  | Bv k => match expected opts k with Throws => true | _ => false end
  | _ => false
  end.

Record state_ok (st : state) : Prop := mk_state_ok {
  ok_below : recorded_below st;
  ok_consistent : exists I, consistent I st;
  ok_recorded : forall f r, map_find (m_const2bits st) f = Some r ->
    bv_const f = true /\ exists n, r = fresh_vector n (sort_bv_size (range f));
  ok_lengths : length (m_values st) = length (m_keys st);
  ok_nodup : NoDup (m_keys st);
  ok_keys : forall f, map_find (m_const2bits st) f = map_find (zip (m_keys st) (m_values st)) f
}.

Lemma recorded_independent st f r : state_ok st -> map_find (m_const2bits st) f = Some r -> independent r.
Proof. intros Hok Hr. destruct (ok_recorded _ Hok f r Hr) as (_ & n & ->). apply independent_bits. Qed.

Lemma zip_keys {A B} (l : list A) (l' : list B) : length l' = length l -> map fst (zip l l') = l.
Proof. intros Hl. rewrite <- (fst_zip l l') at 2 by lia. done. Qed.

Lemma reduce_app_const f st :
  bv_const f = true -> reduce_app get_id opts f [] st = Ok ((mk_const f st).1, BR_DONE (mk_const f st).2).
Proof.
  unfold bv_const. rewrite andb_true_iff. intros [Hk%bool_decide_eq_true Hs]. unfold reduce_app.
  rewrite Hk, Hs. by destruct (mk_const f st).
Qed.

(** The other rules do not look at the state. *)
Lemma reduce_app_other f args st st' b :
  bv_const f = false \/ args <> [] -> reduce_app get_id opts f args st = Ok (st', b) ->
  st' = st /\ forall s, reduce_app get_id opts f args s = Ok (s, b).
Proof.
  unfold bv_const, reduce_app. intros Hf Hr. destruct (kind f) as [k|k|] eqn:Hk.
  - destruct k; try (by injection Hr as <- <-); repeat (case_match; try (by injection Hr as <- <-)).
  - destruct (reduce_bv get_id opts f k args); [|done]. by injection Hr as <- <-.
  - destruct args; [|by injection Hr as <- <-]. destruct Hf as [Hf|]; [|done].
    rewrite bool_decide_eq_true_2 in Hf by done. cbn in Hf. rewrite Hf in *. by injection Hr as <- <-.
Qed.

Lemma consistent_initial I n : consistent I (initial_state n).
Proof. intros f r. done. Qed.

(** Their results are equal in every interpretation. *)
Lemma reduce_app_value I f args st st' b :
  bv_const f = false \/ args <> [] -> wf (App f args) = true -> reduce_app get_id opts f args st = Ok (st', b) ->
  br_means I (range f) (eval I (App f args)) b.
Proof.
  intros Hf Hw Hr. destruct (reduce_app_other f args st st' b Hf Hr) as [_ Ho].
  eapply (reduce_app_ok I get_id opts f args _ _ b Hw (Ho (initial_state 0))). apply consistent_initial.
Qed.

(** A constant gets its bits. *)
Lemma mk_const_ok f st :
  state_ok st -> wf (App f []) = true -> bv_const f = true ->
  let '(st', r) := mk_const f st in
  state_ok st' /\ m_keypos st' = m_keypos st /\ grows st st' /\ rewrites st' (App f []) r /\ independent r.
Proof.
  intros Hok Hw Hf. pose proof Hok as [Hb [I HI] Hrec Hlen Hnd Hkeys].
  assert (is_bv_sort (range f) = true) as Hs by by apply andb_true_iff in Hf as [_ ?].
  pose proof (fun I => mk_const_conservative I f st Hw Hs Hb) as Hcons.
  unfold mk_const in *. destruct (map_find (m_const2bits st) f) as [r|] eqn:Hm.
  { split; [done|]. split; [done|]. split; [reflexivity|]. split; [|by eapply recorded_independent].
    split_and!; [done|by apply (HI f r)..|]. intros K HK. by apply (HK f r). }
  set (k := sort_bv_size (range f)) in *. change (app_mkbv _) with (fresh_vector (m_fresh_id st) k) in *.
  set (r := fresh_vector (m_fresh_id st) k) in *. set (st' := mk_state _ _ _ _ _ _ _ _) in *.
  assert (forall g, map_find (m_const2bits st') g = if decide (f = g) then Some r else map_find (m_const2bits st) g)
    as Hfind by (intros g; apply map_find_insert).
  assert (forall J, consistent J st' -> consistent J st) as Hanti.
  { intros J HJ g r' Hg. apply HJ. by rewrite Hfind, decide_False by congruence. }
  assert (forall I, consistent I st -> exists J, agree (m_fresh_id st) I J /\ consistent J st') as Hext.
  { intros I0 HI0. destruct (Hcons I0 HI0) as (_ & J & ? & ? & _). by exists J. }
  destruct (Hext I HI) as (J & _ & HJ). assert (map_find (m_const2bits st') f = Some r) as Hr
    by by rewrite Hfind, decide_True.
  split; [split|split; [done|split; [|split]]].
  - by destruct (Hcons I HI).
  - by exists J.
  - intros g r'. rewrite Hfind. case_decide as Hg; [|by apply Hrec]. subst g. intros [= <-]. split; [done|]. by eexists.
  - cbn. rewrite !length_app. cbn. lia.
  - cbn. apply NoDup_app. split_and!; [done| |apply NoDup_singleton]. intros g Hg ->%list_elem_of_singleton.
    rewrite Hkeys in Hm. rewrite <- (zip_keys _ _ Hlen) in Hg. apply list_elem_of_fmap in Hg as ([g v] & -> & Hg).
    rewrite (map_find_nodup _ g v) in Hm; [done| |done]. by rewrite zip_keys.
  - intros g. rewrite Hfind. cbn. rewrite zip_with_app by done. cbn. rewrite map_find_app, <- Hkeys. cbn.
    case_decide as Hg; [subst g; by rewrite Hm, bool_decide_eq_true_2|]. rewrite bool_decide_eq_false_2 by done.
    by destruct (map_find (m_const2bits st) g).
  - split; [split; [cbn; lia|]|done]. intros g r'. rewrite Hfind. case_decide as Hg; [|by left].
    subst g. intros [= <-]. right. by exists (m_fresh_id st).
  - split_and!; [exact Hw|by apply (HJ f r)..|]. intros K HK. by apply (HK f r).
  - apply independent_bits.
Qed.

(** Rewriting leaves alone the position [keypos], from which the translation
    starts. *)
#[refine] Definition blaster_cfg_sound (keypos : nat) : RewriterCfgOk state (H := cfg) := {|
  cfg_ok st := state_ok st /\ m_keypos st = keypos;
  raises _ := throws;
  raises_le := _; reduce_app_sound := _; reduce_var_sound := _; get_subst_sound := _; flat_assoc_sound := _
|}.
Proof.
  - done.
  - intros st f args [Hok Hkp] Hw. cbn [cfg_reduce_app cfg blaster_rewriter_cfg usable blaster_rel cfg_le] in *.
    destruct (decide (bv_const f = true /\ args = [])) as [[Hf ->]|Hf].
    { rewrite reduce_app_const by done. pose proof (mk_const_ok f st Hok Hw Hf) as Hc.
      destruct (mk_const f st) as [st' r]. destruct Hc as (? & Hkp' & ? & ? & _). cbn.
      split; [split; [done|congruence]|]. split; [done|]. by intros r' [= <-]. }
    assert (bv_const f = false \/ args <> []) as Hf' by (destruct (bv_const f); [right; naive_solver|by left]).
    destruct (reduce_app get_id opts f args st) as [[st' b]|e] eqn:Hr.
    + destruct (reduce_app_other f args st st' b Hf' Hr) as [-> _]. split; [done|]. split; [done|].
      intros r Hb. pose proof (fun I => reduce_app_value I f args st st b Hf' Hw Hr) as Hv.
      destruct (br_means_result _ _ _ _ _ (Hv default_interp) Hb) as (Hwr & Hsr & _).
      split_and!; [done..|]. intros I _. by apply (br_means_result _ _ _ _ _ (Hv I) Hb).
    + unfold throws. destruct (kind f) as [k|k|] eqn:Hk.
      * unfold reduce_app in Hr. rewrite Hk in Hr. destruct k; repeat (case_match; try done).
      * pose proof (reduce_app_outcome get_id opts f k args st Hk Hw) as Ho. rewrite Hr in Ho.
        destruct (expected opts k); [by destruct Ho|done|by injection Ho as ->].
      * unfold reduce_app in Hr. rewrite Hk in Hr. destruct args; [|done]. destruct (is_bv_sort (range f)); [|done].
        by destruct (mk_const f st).
  - intros st i s r Hok Hw. cbn. unfold reduce_var. destruct (m_blast_full opts && is_bv_sort s) eqn:Hb; [|done].
    intros [= <-]. apply andb_true_iff in Hb as [_ Hs]. unfold is_bv_sort in Hs. destruct s as [|n|] eqn:Hn; try done.
    cbn in Hw. split_and!; [done| | |]; [apply (term_done default_interp (Var i (BvSort n)) n); done..|].
    intros I _. apply (term_done I (Var i (BvSort n)) n); done.
  - done.
  - done.
Defined.

Lemma reduce_app_finished f args st st' b :
  reduce_app get_id opts f args st = Ok (st', b) -> b = BR_FAILED \/ exists r, b = BR_DONE r.
Proof.
  intros Hr. destruct (decide (bv_const f = true /\ args = [])) as [[Hf ->]|Hf].
  { rewrite reduce_app_const in Hr by done. injection Hr as _ <-. right. by eexists. }
  assert (forall (b : bool) r, (if b then BR_DONE r else BR_FAILED) = BR_FAILED
            \/ exists r', (if b then BR_DONE r else BR_FAILED) = BR_DONE r') as Hif
    by (intros [] r; [right; by eexists|by left]).
  unfold reduce_app in Hr. destruct (kind f) as [k|k|] eqn:Hk.
  - repeat (case_match; try (injection Hr as _ <-; by eauto)).
  - apply bind_ok in Hr as (b' & Hb & [= _ <-]). unfold reduce_bv in Hb.
    repeat (case_match; try (injection Hb as <-; by eauto); try done).
  - destruct args as [|x args]; [|injection Hr as _ <-; by eauto].
    destruct (is_bv_sort (range f)) eqn:Hs; [|injection Hr as _ <-; by eauto].
    destruct Hf. split; [|done]. unfold bv_const. by rewrite Hk, Hs, bool_decide_eq_true_2.
Qed.

#[refine] Definition blaster_finishing (keypos : nat) : FinishingCfg state (H1 := blaster_cfg_sound keypos) := {|
  finishing := _; settled_app := _; settled_var := _; settled_subst := _;
  every_term := _; no_frame_limit := _; no_step_limit := _
|}.
Proof.
  - intros st st' f args b Hr. by apply (reduce_app_finished f args st st').
  - cbn. intros st st' f args b [Hok _] Hw Ha Hr. destruct (decide (bv_const f = true /\ args = [])) as [[Hf ->]|Hf].
    { rewrite reduce_app_const in Hr by done. pose proof (mk_const_ok f st Hok Hw Hf) as Hc.
      destruct (mk_const f st) as [s r]. injection Hr as _ <-. by apply Hc. }
    assert (bv_const f = false \/ args <> []) as Hf' by (destruct (bv_const f); [right; naive_solver|by left]).
    pose proof (independent_app f args Hf' Ha) as Hi.
    destruct (br_result b) as [r|] eqn:Hb; [|exact Hi]. apply (independent_value (App f args)); [|done].
    intros I. pose proof (reduce_app_value I f args st st' b Hf' Hw Hr) as Hv.
    by apply (br_means_result _ _ _ _ _ Hv Hb).
  - cbn. intros st i s Hw. assert (independent (Var i s)) as Hi by (intros I J [_ Hv]; apply Hv).
    unfold reduce_var. destruct (m_blast_full opts && is_bv_sort s) eqn:Hb; [|done].
    apply andb_true_iff in Hb as [_ Hs]. destruct s as [|n|]; try done.
    apply (independent_value (Var i (BvSort n))); [|done]. intros I. by apply (term_done I (Var i (BvSort n)) n).
  - done.
  - done.
  - done.
  - done.
Defined.

(** ** The rewriter *)

Context (ref_count : rewriter (C := state) -> expr -> nat).

(** What is left alone throws nothing: no operator of the term is one of those
    the options ask for but the code does not blast. *)
Fixpoint supported (e : expr) : bool :=
  match e with
  | Var _ _ => true
  | App f args => negb (throws f) && forallb supported args
  end.

(** Between two calls. *)
Definition bb_ok (rw : rewriter (C := state)) : Prop :=
  at_rest (H1 := blaster_cfg_sound (m_keypos (m_cfg rw))) rw /\ settled_rest rw.

Lemma bb_state_ok rw : bb_ok rw -> state_ok (m_cfg rw).
Proof. intros [[[? _] _ _ _ _] _]. done. Qed.

Lemma blast_ok fuel t rw :
  bb_ok rw -> wf t = true -> supported t = true -> (2 * size t <= fuel)%nat ->
  exists r rw', blast get_id opts ref_count fuel t rw = Ok (r, rw')
    /\ bb_ok rw' /\ grows (m_cfg rw) (m_cfg rw') /\ m_keypos (m_cfg rw') = m_keypos (m_cfg rw)
    /\ wf r = true /\ get_sort r = get_sort t /\ independent r
    /\ forall I, consistent I (m_cfg rw') -> eval I r = eval I t.
Proof.
  intros [Hr Hs] Hw Hsup Hfuel.
  pose (blaster_cfg_sound (m_keypos (m_cfg rw))) as Hsound. pose (blaster_finishing (m_keypos (m_cfg rw))) as Hfinish.
  assert (quiet (H1 := Hsound) (m_cfg rw) t = true) as Hq.
  { clear -Hsup. induction t as [|f args IH] using expr_induction; [done|]. cbn in *.
    apply andb_true_iff in Hsup as [-> Hargs]. cbn. clear f. induction IH as [|x args Hx _ IHa]; [done|]. cbn in *.
    apply andb_true_iff in Hargs as [Hsx Hargs]. rewrite IHa by done. by rewrite Hx. }
  destruct (rewrite_total ref_count fuel t rw Hr Hs Hw Hq Hfuel) as (r & rw' & He & Hr' & Hs' & Hg & (_ & Hwr & Hsr & Hv) & Hi).
  assert (m_keypos (m_cfg rw') = m_keypos (m_cfg rw)) as Hkp by by destruct (rest_cfg _ Hr').
  exists r, rw'. split; [exact He|]. split; [split; [by rewrite Hkp|done]|]. split; [exact Hg|]. by split_and!.
Qed.

Lemma initial_bb_ok n : bb_ok (initial_rewriter (initial_state n)).
Proof.
  split; [split|split]; try done. split; [|done].
  split; try done; [|constructor]. exists default_interp. apply consistent_initial.
Qed.

(** ** The loop of the tactic *)

Definition true_in (I : interp) (e : expr) : Prop := tr I e = true.

(** What the loop needs of a formula. *)
Definition blastable (fuel : nat) (e : goal_entry) : Prop :=
  wfb (form e) = true /\ supported (form e) = true /\ (2 * size (form e) <= fuel)%nat.

(** The first formulas of the goal [g0] are replaced by the results [rs], and
    those from [k] on are still there. *)
Record blasted (g0 : goal) (k : nat) (rs : list expr) (g : goal) (st : state) : Prop := mk_blasted {
  bl_wf : goal_wf g;
  bl_independent : Forall independent rs;
  bl_results : forall I, consistent I st ->
    Forall2 (fun r e => eval I r = eval I (form e)) rs (take k (m_entries g0));
  bl_goal : if m_inconsistent g then forall I, ~ Forall (true_in I) rs
            else (length (m_entries g0) <= length (m_entries g))%nat
                 /\ (forall j, (k <= j < length (m_entries g0))%nat -> m_entries g !! j = m_entries g0 !! j)
                 /\ forall I, rest_true I (fun j => k <= j < length (m_entries g0))%nat g <-> Forall (true_in I) rs
}.

Lemma rest_true_ext I Q Q' g : (forall j, Q j <-> Q' j) -> rest_true I Q g <-> rest_true I Q' g.
Proof. intros HQ. unfold rest_true. by setoid_rewrite HQ. Qed.

(** Leaving out one position less. *)
Lemma rest_true_one I (Q : nat -> Prop) g k x :
  m_entries g !! k = Some x -> ~ Q k ->
  rest_true I Q g <-> rest_true I (fun j => Q j \/ j = k) g /\ true_in I (form x).
Proof.
  intros Hx HQ. unfold rest_true, true_in. split; [naive_solver|]. intros [Hall Hk] j y Hj Hy.
  destruct (decide (j = k)) as [->|Hjk]; [congruence|]. apply (Hall j); [naive_solver|done].
Qed.

Lemma blasted_step g0 k rs g st e r d :
  blasted g0 k rs g st -> m_inconsistent g = false -> m_entries g0 !! k = Some e ->
  wfb r = true -> independent r -> (forall I, consistent I st -> eval I r = eval I (form e)) ->
  (forall g', update k r d g = Ok g' -> blasted g0 (S k) (rs ++ [r]) g' st)
  /\ is_Some (m_entries g !! k) /\ (form e = r -> blasted g0 (S k) (rs ++ [r]) g st).
Proof.
  intros [Hwf Hind Hres Hg] Hi He Hw Hir Hv. rewrite Hi in Hg. destruct Hg as (Hlen & Hold & Hrest).
  pose proof (lookup_lt_Some _ _ _ He) as Hk. pose proof (Hold k ltac:(lia)) as Hgk. rewrite He in Hgk.
  assert (Forall independent (rs ++ [r])) as Hind' by (rewrite Forall_app; by repeat constructor).
  assert (forall I, consistent I st ->
    Forall2 (fun r e => eval I r = eval I (form e)) (rs ++ [r]) (take (S k) (m_entries g0))) as Hres'.
  { intros I HI. rewrite (take_S_r _ _ e) by done. apply Forall2_app; [by apply Hres|]. repeat constructor. by apply Hv. }
  assert (forall I, Forall (true_in I) (rs ++ [r]) <-> Forall (true_in I) rs /\ true_in I r) as Hsnoc
    by (intros I; by rewrite Forall_app, Forall_singleton).
  assert (forall I, rest_true I (fun j => (S k <= j < length (m_entries g0))%nat \/ j = k) g <-> Forall (true_in I) rs) as Hrk.
  { intros I. rewrite <- Hrest. apply rest_true_ext. intros j. lia. }
  split; [|split; [by eexists|]].
  - intros g' Hg'. destruct (update_ok default_interp k r d g Hwf Hw Hi ltac:(lia)) as (g1 & Hu & Hwf' & _ & _ & Hl).
    assert (g1 = g') as -> by congruence. split; [done..|]. destruct (m_inconsistent g') eqn:Hi'.
    + intros I [_ Hr]%Hsnoc. destruct (update_ok I k r d g Hwf Hw Hi ltac:(lia)) as (g2 & Hu2 & _ & Hup & _).
      assert (g2 = g') as -> by congruence. specialize (Hup (fun _ => False) ltac:(done)). unfold updated in Hup.
      rewrite Hi' in Hup. unfold true_in in Hr. congruence.
    + destruct Hl as [?|[Hl Hsame]]; [done|]. split; [lia|]. split.
      * intros j Hj. rewrite <- Hold by lia. apply Hsame; lia.
      * intros I. destruct (update_ok I k r d g Hwf Hw Hi ltac:(lia)) as (g2 & Hu2 & _ & Hup & _).
        assert (g2 = g') as -> by congruence.
        specialize (Hup (fun j => S k <= j < length (m_entries g0))%nat ltac:(cbn; lia)). unfold updated in Hup.
        rewrite Hi' in Hup. by rewrite Hup, Hrk, Hsnoc.
  - intros Hsame. split; [done..|]. rewrite Hi. split; [done|]. split; [intros j Hj; apply Hold; lia|].
    intros I. rewrite (rest_true_one I _ g k e) by (done || lia). by rewrite Hrk, Hsnoc, Hsame.
Qed.

Lemma blasted_grows g0 k rs g st st' : grows st st' -> blasted g0 k rs g st -> blasted g0 k rs g st'.
Proof. intros (_ & Hc & _) [Hw Hi Hr Hg]. split; [done|done| |done]. intros I HI. by apply Hr, Hc. Qed.

Lemma blasted_start g st : goal_wf g -> m_inconsistent g = false -> blasted g 0 [] g st.
Proof.
  intros Hg Hi. split; [done|done|done|]. rewrite Hi. split_and!; try done. intros I. split; [done|].
  intros _ j x Hj Hx%lookup_lt_Some. lia.
Qed.

Lemma blast_loop_ok fuel g0 m k rs change g rw :
  blasted g0 k rs g (m_cfg rw) -> bb_ok rw -> Forall (blastable fuel) (m_entries g0) ->
  (k + m = length (m_entries g0))%nat ->
  exists change' g' rw' k' rs', blast_loop get_id opts ref_count fuel (seq k m) change g rw = Ok (change', g', rw')
    /\ bb_ok rw' /\ grows (m_cfg rw) (m_cfg rw') /\ m_keypos (m_cfg rw') = m_keypos (m_cfg rw)
    /\ m_models_enabled g' = m_models_enabled g
    /\ (change' = false -> change = false /\ g' = g)
    /\ blasted g0 k' rs' g' (m_cfg rw') /\ (m_inconsistent g' = true \/ k' = length (m_entries g0)).
Proof.
  revert k rs change g rw. induction m as [|m IH]; intros k rs change g rw Hb Hok Hall Hkm; cbn [seq blast_loop].
  { exists change, g, rw, k, rs. do 6 (split; [done|]). split; [done|]. right. lia. }
  destruct (m_inconsistent g) eqn:Hi.
  { exists change, g, rw, k, rs. do 6 (split; [done|]). split; [done|]. by left. }
  destruct (lookup_lt_is_Some_2 (m_entries g0) k ltac:(lia)) as [e He].
  destruct (Forall_lookup_1 _ _ _ _ Hall He) as (Hwe & Hse & Hfe). pose proof Hwe as [Hwfe Hsorte]%wfb_spec.
  pose proof (bl_goal _ _ _ _ _ Hb) as Hg. rewrite Hi in Hg. destruct Hg as (_ & Hold & _).
  rewrite (aget_nat _ _ e) by (rewrite Hold by lia; exact He). cbn [mbind res_bind].
  destruct (blast_ok fuel (form e) rw Hok Hwfe Hse Hfe) as (r & rw1 & -> & Hok1 & Hgr1 & Hkp1 & Hwr & Hsr & Hir & Hv).
  cbn [mbind res_bind]. pose proof (blasted_grows _ _ _ _ _ _ Hgr1 Hb) as Hb1.
  assert (wfb r = true) as Hwbr by (apply wfb_spec; split; [done|congruence]).
  destruct (blasted_step g0 k rs g (m_cfg rw1) e r (deps e) Hb1 Hi He Hwbr Hir Hv) as (Hup & _ & Hsame).
  case_bool_decide as Heq.
  - destruct (IH (S k) (rs ++ [r]) change g rw1 (Hsame Heq) Hok1 Hall ltac:(lia))
      as (c' & g' & rw' & k' & rs' & Hl & Hok' & Hgr & Hkp & Hm & Hc & Hb' & Hend).
    exists c', g', rw', k', rs'. split; [exact Hl|]. split; [done|]. split; [by etransitivity|].
    split; [congruence|]. done.
  - destruct (update_ok default_interp k r (deps e) g (bl_wf _ _ _ _ _ Hb) Hwbr Hi) as (g1 & Hu & _).
    { pose proof (bl_goal _ _ _ _ _ Hb) as Hg. rewrite Hi in Hg. lia. }
    rewrite Hu. cbn [mbind res_bind].
    destruct (IH (S k) (rs ++ [r]) true g1 rw1 (Hup g1 Hu) Hok1 Hall ltac:(lia))
      as (c' & g' & rw' & k' & rs' & Hl & Hok' & Hgr & Hkp & Hm & Hc & Hb' & Hend).
    exists c', g', rw', k', rs'. split; [exact Hl|]. split; [done|]. split; [by etransitivity|]. split; [congruence|].
    split; [by rewrite Hm, (update_models _ _ _ _ _ Hu)|]. split; [|done]. by intros [? _]%Hc.
Qed.

(** The results say what the goal says, and do not depend on the constants. *)
Lemma blasted_end g0 k rs g st :
  blasted g0 k rs g st -> m_inconsistent g = true \/ k = length (m_entries g0) ->
  (forall I, goal_true I g <-> Forall (true_in I) rs)
  /\ (forall I, consistent I st -> Forall (true_in I) rs <-> goal_true I g0).
Proof.
  intros [Hw Hind Hres Hg] Hend.
  assert (forall I, consistent I st -> Forall (true_in I) rs
            <-> Forall (fun e => tr I (form e) = true) (take k (m_entries g0))) as Hiff.
  { intros I HI. specialize (Hres I HI). unfold true_in, tr. clear -Hres.
    induction Hres as [|r e rs es Hv _ IH]; [done|]. by rewrite !Forall_cons, IH, Hv. }
  destruct (m_inconsistent g) eqn:Hi.
  - split.
    + intros I. pose proof (goal_inconsistent I g Hw Hi). specialize (Hg I). tauto.
    + intros I HI. split; [by intros ?%Hg|]. intros Hall. apply Hiff; [done|]. by apply Forall_take.
  - destruct Hend as [?|Hk]; [done|]. destruct Hg as (_ & _ & Hrest). split.
    + intros I. rewrite <- Hrest, <- rest_true_all. apply rest_true_ext. intros j. lia.
    + intros I HI. rewrite Hiff by done. subst k. by rewrite take_ge.
Qed.
End Config.
