(* ===== verification/BitBlasterTactic.v ===== *)
(** The tactic "bit-blast" is correct: it ends, its result has a model where the
    goal has one, and every model of the result gives one of the goal, which is
    what the model converter computes. *)
From S2P Require Import Prelude Bits Ast AstSem AstFacts BlastSpec BoolRewriter BoolRewriterOk BlasterRewriter BlasterRewriterOk Rewriter RewriterOk Goal BitBlaster BitBlasterOk.

(** ** The constants get the values of their bits *)

Definition assign_decl (st : state) (J : interp) (d : func_decl) (vs : list value) : value :=
  match vs, map_find (m_const2bits st) d with
  | [], Some r => if decide (value_sort (eval J r) = range d) then eval J r else i_decl J d vs
  | _, _ => i_decl J d vs
  end.

Lemma assign_decl_sort st J d vs : value_sort (assign_decl st J d vs) = range d.
Proof.
  unfold assign_decl. destruct vs; [|apply i_decl_sort]. destruct (map_find _ d); [|apply i_decl_sort].
  destruct (decide _); [done|apply i_decl_sort].
Qed.

Definition assign (st : state) (J : interp) : interp := {|
  i_decl := assign_decl st J; i_var := i_var J;
  i_decl_sort := assign_decl_sort st J; i_var_sort := i_var_sort J |}.

Lemma assign_same st J : state_ok st -> same_but_consts J (assign st J).
Proof.
  intros Hok. split; [|done]. intros d vs Hd. cbn. unfold assign_decl. destruct vs as [|v vs]; [|done].
  destruct (map_find (m_const2bits st) d) as [r|] eqn:Hr; [|done].
  destruct (ok_recorded _ Hok d r Hr) as [Hb _]. destruct Hd; congruence.
Qed.

Lemma recorded_vector st f r :
  state_ok st -> map_find (m_const2bits st) f = Some r ->
  kind f = NullFid /\ wf r = true /\ get_sort r = range f.
Proof.
  intros Hok Hr. destruct (ok_consistent _ Hok) as [I HI]. destruct (HI f r Hr) as (Hw & Hs & _).
  destruct (ok_recorded _ Hok f r Hr) as [[Hk%bool_decide_eq_true _]%andb_true_iff _]. done.
Qed.

Lemma assign_consistent st J : state_ok st -> consistent (assign st J) st.
Proof.
  intros Hok f r Hr. destruct (recorded_vector st f r Hok Hr) as (Hk & Hw & Hs). split_and!; [done|done|].
  rewrite <- (recorded_independent st f r Hok Hr J) by by apply assign_same.
  cbn. unfold decl_apply. rewrite Hk. cbn. unfold assign_decl. rewrite Hr.
  by rewrite decide_True by by rewrite eval_sort.
Qed.

(** ** What a model of the result says *)

Definition model_decl (md : model) (d : func_decl) (vs : list value) : value :=
  match vs, map_find md d with
  | [], Some v =>
      if decide (value_sort (eval default_interp v) = range d) then eval default_interp v else default_value (range d)
  | _, _ => default_value (range d)
  end.

Lemma model_decl_sort md d vs : value_sort (model_decl md d vs) = range d.
Proof.
  unfold model_decl. destruct vs; [|apply default_value_sort]. destruct (map_find md d); [|apply default_value_sort].
  destruct (decide _); [done|apply default_value_sort].
Qed.

(** A model, completed. *)
Definition interp_of (md : model) : interp := {|
  i_decl := model_decl md; i_var _ s := default_value s;
  i_decl_sort := model_decl_sort md; i_var_sort _ s := default_value_sort s |}.

(** The models of a blasted goal: truth values for the Boolean constants, and
    nothing for the bit-vectors. *)
Definition boolean_model (md : model) : Prop :=
  forall d v, map_find md d = Some v -> bv_const d = false /\ (range d = BoolSort -> v = m_true \/ v = m_false).

Section Converter.
Context (st : state) (n : nat) (md : model).
Hypothesis st_ok : state_ok st.
Hypothesis keypos_start : m_keypos st = 0%nat.
Hypothesis bits_fresh : forall f r, map_find (m_const2bits st) f = Some r ->
  exists k, r = fresh_vector k (sort_bv_size (range f)) /\ (n <= k)%nat.
Hypothesis md_ok : boolean_model md.

Definition const2bits : list (func_decl * expr) := fst (end_rewrite st [] []).

Lemma const2bits_find f : map_find const2bits f = map_find (m_const2bits st) f.
Proof.
  destruct st_ok as [_ _ _ Hl Hn Hk]. unfold const2bits, end_rewrite, translation_from. cbn [fst].
  rewrite keypos_start, drop_0.
  etransitivity; [apply (map_find_inserts (fun _ v => v)); by rewrite zip_keys|]. rewrite Hk.
  by destruct (map_find _ f).
Qed.

Lemma const2bits_keys : NoDup (map fst const2bits).
Proof. apply (map_keys_inserts (fun _ v => v)). constructor. Qed.

Lemma bit_value_in k : truth (eval (interp_of md) (App (fresh_bool k) []))
  = match map_find md (fresh_bool k) with Some v => is_true v | None => false end.
Proof.
  cbn. unfold model_decl. destruct (map_find md (fresh_bool k)) as [v|] eqn:Hv; [|done].
  destruct (md_ok _ _ Hv) as [_ Hb]. by destruct (Hb eq_refl) as [-> | ->].
Qed.

Lemma bits_numeral_value k m :
  eval (interp_of md) (fresh_vector k m) = VBv (bits_of m (bits_numeral md (fresh_vector k m))).
Proof.
  change (eval (interp_of md) (fresh_vector k m)) with
    (VBv (map truth (map (eval (interp_of md)) (map (fun d => App d []) (map fresh_bool (seq k m)))))).
  f_equal. set (l := map truth _). assert (length l = m) as Hl by (unfold l; by rewrite !length_map, length_seq).
  assert (bits_numeral md (fresh_vector k m) = uval l) as ->.
  { unfold bits_numeral, fresh_vector, app_mkbv, l. cbn [get_args]. clear -md_ok. generalize (seq k m). intros ids.
    induction ids as [|i ids IH]; [done|].
    change (uval (map truth (map (eval (interp_of md)) (map (fun d => App d []) (map fresh_bool (i :: ids))))))
      with (Z.b2z (truth (eval (interp_of md) (App (fresh_bool i) [])))
            + 2 * uval (map truth (map (eval (interp_of md)) (map (fun d => App d []) (map fresh_bool ids))))).
    cbn [map foldr const_interp]. rewrite IH, bit_value_in.
    destruct (map_find md (fresh_bool i)) as [v|]; [destruct (is_true v)|]; cbn [Z.b2z]; lia. }
  rewrite <- Hl. apply uval_inj; [by rewrite bits_of_length|]. by rewrite uval_bits_of, uval_mod.
Qed.

Definition converter := mk_mc (map fst const2bits) (map snd const2bits) (snd (end_rewrite st [] [])).

Lemma converted_find d :
  map_find (convert_model converter md) d
  = match map_find (m_const2bits st) d with
    | Some bs => Some (match map_find md d with
                       | Some v => v
                       | None => mk_numeral (bits_numeral md bs) (length (get_args bs))
                       end)
    | None => if negb (bool_decide (d ∈ collect_bits converter)) then map_find md d else None
    end.
Proof.
  unfold convert_model, mk_bvs. cbn [m_vars m_bits converter].
  assert (zip (map fst const2bits) (map snd const2bits) = const2bits) as -> by apply zip_fst_snd.
  etransitivity; [apply (map_find_inserts (fun v bs => match map_find md v with
                           | Some v => v
                           | None => mk_numeral (bits_numeral md bs) (length (get_args bs)) end)), const2bits_keys|].
  rewrite const2bits_find. destruct (map_find (m_const2bits st) d); [done|].
  pose (other := fun d : func_decl => negb (bool_decide (d ∈ collect_bits converter))). apply (map_find_filter other).
Qed.

(** The bits are not among the older names. *)
Lemma collected_fresh d : d ∈ collect_bits converter -> name_below n d = false.
Proof.
  unfold collect_bits, converter. cbn [m_bits]. rewrite list_elem_of_In, in_concat. intros (l & Hl & Hd).
  apply in_map_iff in Hl as (bs & <- & Hbs). apply in_map_iff in Hbs as ([f r] & <- & Hr). cbn [snd] in Hd.
  apply list_elem_of_In in Hr. apply (map_find_nodup _ _ _ const2bits_keys) in Hr. rewrite const2bits_find in Hr.
  destruct (bits_fresh f r Hr) as (k & -> & Hk). apply in_concat in Hd as (l & Hl & Hd).
  apply in_map_iff in Hl as (b & <- & Hb). unfold fresh_vector, app_mkbv in Hb. cbn [get_args] in Hb.
  apply in_map_iff in Hb as (d' & <- & Hd'). apply in_map_iff in Hd' as (i & <- & [Hi _]%in_seq).
  destruct Hd as [<-|[]]. unfold name_below. cbn. rewrite bool_decide_eq_true_2 by done. cbn.
  apply Nat.ltb_ge. lia.
Qed.

(** The converted model is the assignment of the values of the bits. *)
Lemma converted_agree : agree n (assign st (interp_of md)) (interp_of (convert_model converter md)).
Proof.
  split; [|done]. intros d vs Hd. cbn [i_decl assign interp_of]. unfold assign_decl. destruct vs as [|v vs]; [|done].
  unfold model_decl. rewrite converted_find. destruct (map_find (m_const2bits st) d) as [r|] eqn:Hr.
  - destruct (recorded_vector st d r st_ok Hr) as (Hk & Hw & Hs).
    rewrite decide_True by by rewrite eval_sort. destruct (ok_recorded _ st_ok d r Hr) as [Hbv [k ->]].
    assert (map_find md d = None) as ->.
    { destruct (map_find md d) as [v|] eqn:Hv; [|done]. destruct (md_ok d v Hv). congruence. }
    assert (length (get_args (fresh_vector k (sort_bv_size (range d)))) = sort_bv_size (range d)) as ->
      by (cbn; by rewrite !length_map, length_seq).
    set (m := sort_bv_size (range d)) in *.
    assert (eval default_interp (mk_numeral (bits_numeral md (fresh_vector k m)) m)
            = eval (interp_of md) (fresh_vector k m)) as ->.
    { rewrite bits_numeral_value. cbn. f_equal. apply bits_of_mod. }
    by rewrite decide_True by by rewrite eval_sort.
  - destruct (bool_decide (d ∈ collect_bits converter)) eqn:Hc; [|done].
    apply bool_decide_eq_true, collected_fresh in Hc. congruence.
Qed.
End Converter.

(** ** The tactic *)

Section Tactic.
Context (get_id : expr -> Z) (opts : options) (ref_count : rewriter (C := state) -> expr -> nat).
#[local] Existing Instance cfg.
Local Abbreviation bb_ok := (bb_ok get_id opts).
Local Abbreviation tactic := (bit_blaster_tactic get_id opts ref_count).

Lemma start_rewrite_ok rw : bb_ok rw -> bb_ok (bb_start_rewrite rw) /\ grows (m_cfg rw) (m_cfg (bb_start_rewrite rw)).
Proof.
  intros [[[Hok _] Hc Hb Hf Hr] [Hsc Hsb]].
  assert (grows (m_cfg rw) (start_rewrite (m_cfg rw))) as Hg.
  { split; [split; [done|by left]|]. split; [done|]. intros I HI. exists I. by split. }
  split; [split; [split|split]|exact Hg]; try done.
  split; [|done]. by destruct Hok.
Qed.

Lemma loop_inconsistent fuel idxs g rw :
  m_inconsistent g = true -> blast_loop get_id opts ref_count fuel idxs false g rw = Ok (false, g, rw).
Proof. intros Hi. destruct idxs; [done|]. cbn. by rewrite Hi. Qed.

(** What the loop leaves: the results [rs]. *)
Lemma tactic_loop fuel g rw :
  bb_ok rw -> goal_wf g -> Forall (blastable opts fuel) (m_entries g) ->
  exists change g' rw' rs,
    blast_loop get_id opts ref_count fuel (seq 0 (length (m_entries g))) false g (bb_start_rewrite rw) = Ok (change, g', rw')
    /\ bb_ok rw' /\ grows (m_cfg rw) (m_cfg rw') /\ m_keypos (m_cfg rw') = length (m_keys (m_cfg rw))
    /\ goal_wf g' /\ m_models_enabled g' = m_models_enabled g
    /\ (change = false -> g' = g)
    /\ Forall independent rs /\ (forall I, goal_true I g' <-> Forall (true_in I) rs)
    /\ (forall I, consistent I (m_cfg rw') -> Forall (true_in I) rs <-> goal_true I g).
Proof.
  intros Hok Hg Hall. destruct (start_rewrite_ok rw Hok) as [Hok0 Hgr0]. destruct (m_inconsistent g) eqn:Hi.
  { exists false, g, (bb_start_rewrite rw), [m_false]. rewrite loop_inconsistent by done.
    assert (forall I, Forall (true_in I) [m_false] <-> goal_true I g) as Hfalse.
    { intros I. pose proof (goal_inconsistent I g Hg Hi). rewrite Forall_singleton. by split. }
    do 7 (split; [done|]). split; [repeat constructor; by apply independent_app; [left|]|].
    split; intros I; by rewrite Hfalse. }
  destruct (blast_loop_ok get_id opts ref_count fuel g (length (m_entries g)) 0 [] false g (bb_start_rewrite rw)
    (blasted_start g _ Hg Hi) Hok0 Hall eq_refl) as (c & g' & rw' & k & rs & Hl & Hok' & Hgr & Hkp & Hm & Hc & Hb & Hend).
  destruct (blasted_end g k rs g' (m_cfg rw') Hb Hend) as [Ht Ht0].
  exists c, g', rw', rs. split; [exact Hl|]. split; [done|]. split; [by etransitivity|].
  split; [done|]. split; [by apply (bl_wf _ _ _ _ _ Hb)|]. split; [done|]. split; [by intros [_ ?]%Hc|].
  split; [by apply (bl_independent _ _ _ _ _ Hb)|]. by split.
Qed.

Lemma tactic_result fuel g rw :
  bb_ok rw -> goal_wf g -> Forall (blastable opts fuel) (m_entries g) ->
  exists change g1 rw1 mc rw', tactic fuel g rw = Ok (inc_depth g1, mc, rw')
    /\ rw' = cleanup rw1 /\ bb_ok rw' /\ grows (m_cfg rw) (m_cfg rw')
    /\ m_keypos (m_cfg rw') = length (m_keys (m_cfg rw)) /\ goal_wf g1
    /\ m_models_enabled g1 = m_models_enabled g /\ (change = false -> g1 = g)
    /\ mc = (if change && m_models_enabled g1 then
               let '(const2bits, newbits) := end_rewrite (m_cfg rw') [] [] in
               mk_bit_blaster_model_converter const2bits newbits
             else None)
    /\ (forall I, consistent I (m_cfg rw') -> goal_true I g1 <-> goal_true I g)
    /\ forall J, goal_true J g1 -> goal_true (assign (m_cfg rw') J) g.
Proof.
  intros Hok Hg Hall. destruct (tactic_loop fuel g rw Hok Hg Hall)
    as (change & g1 & rw1 & rs & Hl & Hok' & Hgr & Hkp & Hg1 & Hm & Hc & Hind & Ht & Ht0).
  unfold bit_blaster_tactic. rewrite Hl. cbn [mbind res_bind].
  exists change, g1, rw1, (if change && m_models_enabled g1 then
    let '(const2bits, newbits) := end_rewrite (m_cfg rw1) [] [] in
    mk_bit_blaster_model_converter const2bits newbits else None), (cleanup rw1).
  pose proof (bb_state_ok _ _ _ Hok') as Hst. split; [done|]. split; [done|]. split; [by apply rest_reset, Hok'|].
  split; [exact Hgr|]. split; [exact Hkp|]. split; [done|]. split; [done|]. split; [done|]. split; [done|]. split.
  - intros I HI. by rewrite Ht, Ht0.
  - intros J HJ%Ht. apply Ht0; [by apply assign_consistent|]. rewrite Forall_forall in *. intros r Hr.
    specialize (HJ r Hr). unfold true_in, tr in *. rewrite <- (Hind r Hr J); [done|]. by apply assign_same.
Qed.

(** The formulas were built before the [n]th fresh name. *)
Definition goal_below (n : nat) (g : goal) : Prop := Forall (fun e => below n (form e) = true) (m_entries g).

Lemma goal_true_agree n I J g : agree n I J -> goal_below n g -> goal_true I g <-> goal_true J g.
Proof.
  intros Ha Hg. unfold goal_true, tr. rewrite !Forall_forall. unfold goal_below in Hg. rewrite Forall_forall in Hg.
  split; intros Ht e He; [rewrite <- (eval_agree n I J)|rewrite (eval_agree n I J)]; auto.
Qed.

Lemma tactic_ok fuel g rw :
  bb_ok rw -> goal_wf g -> Forall (blastable opts fuel) (m_entries g) -> goal_below (m_fresh_id (m_cfg rw)) g ->
  exists g' mc rw', tactic fuel g rw = Ok (g', mc, rw') /\ bb_ok rw' /\ goal_wf g'
    /\ (forall I, consistent I (m_cfg rw) -> goal_true I g ->
          exists J, agree (m_fresh_id (m_cfg rw)) I J /\ consistent J (m_cfg rw') /\ goal_true J g')
    /\ (forall J, goal_true J g' -> goal_true (assign (m_cfg rw') J) g).
Proof.
  intros Hok Hg Hall Hbelow. destruct (tactic_result fuel g rw Hok Hg Hall)
    as (change & g1 & rw1 & mc & rw' & Hrun & _ & Hok' & Hgr & _ & Hg1 & _ & _ & _ & Hiff & Hback).
  exists (inc_depth g1), mc, rw'. split; [exact Hrun|]. split; [done|]. split; [done|]. split; [|done].
  intros I HI Ht. destruct Hgr as (_ & _ & Hext). destruct (Hext I HI) as (J & Ha & HJ). exists J.
  split; [done|]. split; [done|]. change (goal_true J g1). apply Hiff; [done|]. by apply (goal_true_agree (m_fresh_id (m_cfg rw)) I J).
Qed.

Lemma converter_ok fuel g n :
  goal_wf g -> m_models_enabled g = true -> Forall (blastable opts fuel) (m_entries g) -> goal_below n g ->
  exists g' mc rw', tactic fuel g (initial_rewriter (initial_state n)) = Ok (g', mc, rw')
    /\ forall md, boolean_model md -> goal_true (interp_of md) g' ->
         goal_true (interp_of (match mc with Some mc => convert_model mc md | None => md end)) g.
Proof.
  intros Hg Hmodels Hall Hbelow. destruct (tactic_result fuel g _ (initial_bb_ok get_id opts n) Hg Hall)
    as (change & g1 & rw1 & mc & rw' & Hrun & _ & Hok' & [[_ Hfresh] _] & Hkp & Hg1 & Hm & Hc & Hmc & _ & Hback).
  exists (inc_depth g1), mc, rw'. split; [exact Hrun|]. intros md Hmd Ht. pose proof (bb_state_ok _ _ _ Hok') as Hst.
  assert (forall f r, map_find (m_const2bits (m_cfg rw')) f = Some r ->
    exists k, r = fresh_vector k (sort_bv_size (range f)) /\ (n <= k)%nat) as Hbits.
  { intros f r [?|Hk]%Hfresh; [done|exact Hk]. }
  destruct change; [|by rewrite Hmc, <- (Hc eq_refl)]. rewrite Hm, Hmodels in Hmc. cbn [andb] in Hmc.
  pose proof (converted_agree (m_cfg rw') n md Hst Hkp Hbits Hmd) as Hag.
  unfold converter, const2bits in Hag. pose proof (const2bits_find (m_cfg rw') Hst Hkp) as Hfind. unfold const2bits in Hfind.
  destruct (end_rewrite (m_cfg rw') [] []) as [c2b nb]. cbn [fst snd] in *. apply Hback in Ht. rewrite Hmc.
  unfold mk_bit_blaster_model_converter. destruct c2b as [|kv c2b].
  - apply (goal_true_agree n (assign (m_cfg rw') (interp_of md))); [|done|done]. split; [|done]. intros d vs _.
    cbn. unfold assign_decl. rewrite <- Hfind. by destruct vs.
  - by apply (goal_true_agree n (assign (m_cfg rw') (interp_of md))).
Qed.
(** C6: The tactic "bit-blast" ends on every goal whose operators the options
    support, with fuel twice the size of the formulas, and its result is
    equisatisfiable to the goal: every interpretation consistent with the bits
    given so far that satisfies the goal satisfies the result once it is extended
    to the new bits, and if an interpretation satisfies the result then the
    goal holds when every constant has the value of its bits. *)
Theorem bit_blaster_tactic_correct fuel g rw :
  bb_ok rw -> goal_wf g -> Forall (blastable opts fuel) (m_entries g) -> goal_below (m_fresh_id (m_cfg rw)) g ->
  exists g' mc rw', tactic fuel g rw = Ok (g', mc, rw') /\ bb_ok rw' /\ goal_wf g'
    /\ (forall I, consistent I (m_cfg rw) -> goal_true I g ->
          exists J, agree (m_fresh_id (m_cfg rw)) I J /\ consistent J (m_cfg rw') /\ goal_true J g')
    /\ (forall J, goal_true J g' -> goal_true (assign (m_cfg rw') J) g).
Proof. apply tactic_ok. Qed.

(** C7: The model converter is correct: for a goal that records models, every
    model of what the tactic makes of it (truth values for Boolean constants)
    is converted into a model of the goal. *)
Theorem model_converter_correct fuel g n :
  goal_wf g -> m_models_enabled g = true -> Forall (blastable opts fuel) (m_entries g) -> goal_below n g ->
  exists g' mc rw', tactic fuel g (initial_rewriter (initial_state n)) = Ok (g', mc, rw')
    /\ forall md, boolean_model md -> goal_true (interp_of md) g' ->
         goal_true (interp_of (match mc with Some mc => convert_model mc md | None => md end)) g.
Proof. apply converter_ok. Qed.
End Tactic.
