(* ===== verification/SatTypes.v ===== *)
(** Literals (sat_types.h) and the interface of the SAT solver that the
    translation uses (solver_core of sat_solver_core.h), with its contract and
    an instance that records the clauses. *)
From S2P Require Import Prelude.

(** Three-valued answers (util/lbool.h). *)
Inductive lbool := l_true | l_false | l_undef.

(** ** Literals *)

(** A Boolean variable and a sign, [true] for its negation. *)
Record literal := mk_literal { var : nat; sign : bool }.
#[global] Instance literal_eq_dec : EqDecision literal.
Proof. solve_decision. Defined.

Definition neg (l : literal) : literal := mk_literal (var l) (negb (sign l)).

(** The encoding of the code: [2 * var] or [2 * var + 1] in 32 bits. *)
Definition index (l : literal) : Z := to_unsigned (Z.shiftl (Z.of_nat (var l)) 1 + Z.b2z (sign l)).
Definition index_var (m_val : Z) : Z := Z.shiftr m_val 1.
Definition index_sign (m_val : Z) : bool := Z.testbit m_val 0.
Definition index_neg (m_val : Z) : Z := Z.lxor m_val 1.
Definition null_bool_var : Z := Z.shiftr (2 ^ 32 - 1) 1.

(** Below [null_bool_var] the encoding keeps variable and sign. *)
Lemma index_value l : Z.of_nat (var l) <= null_bool_var -> index l = 2 * Z.of_nat (var l) + Z.b2z (sign l).
Proof.
  unfold null_bool_var, index, to_unsigned. change (Z.shiftr (2 ^ 32 - 1) 1) with (2 ^ 31 - 1).
  rewrite Z.shiftl_mul_pow2 by lia. intros Hv. rewrite Z.mod_small; destruct (sign l); cbn [Z.b2z]; lia.
Qed.

Lemma index_roundtrip l :
  Z.of_nat (var l) <= null_bool_var ->
  index_var (index l) = Z.of_nat (var l) /\ index_sign (index l) = sign l
  /\ index_neg (index l) = index (neg l).
Proof.
  intros Hv. unfold index_var, index_sign, index_neg. rewrite (index_value (neg l)) by done.
  rewrite index_value by done. cbn [neg var sign]. split_and!.
  - rewrite Z.shiftr_div_pow2 by lia. destruct (sign l); cbn [Z.b2z]; symmetry;
      [apply (Z.div_unique _ _ _ 1)|apply (Z.div_unique _ _ _ 0)]; lia.
  - rewrite Z.bit0_odd. rewrite Z.odd_add, Z.odd_mul. by destruct (sign l).
  - destruct (Z.of_nat (var l)) as [|q|q] eqn:Hq; [|by destruct (sign l)|lia]. by destruct (sign l).
Qed.

Lemma neg_involutive l : neg (neg l) = l.
Proof. by destruct l as [v []]. Qed.

(** ** Clauses *)

Abbreviation clause := (list literal).

Section Valuation.
Context (s : nat -> bool).
Definition lit_true (l : literal) : bool := xorb (sign l) (s (var l)).
Definition clause_true (c : clause) : bool := existsb lit_true c.

Lemma lit_true_neg l : lit_true (neg l) = negb (lit_true l).
Proof. unfold lit_true. cbn. by destruct (sign l), (s (var l)). Qed.

Lemma clause_true_cons l c : clause_true (l :: c) = lit_true l || clause_true c.
Proof. done. Qed.
Lemma clause_true_nil : clause_true [] = false.
Proof. done. Qed.
Lemma clause_true_app c1 c2 : clause_true (c1 ++ c2) = clause_true c1 || clause_true c2.
Proof. apply existsb_app. Qed.
End Valuation.

Create Rewrite HintDb clauses.
#[export] Hint Rewrite clause_true_cons clause_true_nil clause_true_app lit_true_neg orb_false_r : clauses.

(** ** The solver *)

(** The methods of [solver_core] the translation calls. *)
Class SatSolver (S : Type) := {
  add_var : bool -> S -> nat * S;
  add_clause : clause -> S -> S;
  set_external : nat -> S -> S;
  set_eliminated : nat -> bool -> S -> S;
  set_phase : literal -> S -> S
}.

(** The contract: [models] are the valuations that satisfy what was added, over
    the variables [used]; a new variable is unused and free, a clause is one
    more constraint, and the other methods are hints. *)
Class SatSolverOk (S : Type) `{SatSolver S} := {
  used : S -> nat -> Prop;
  models : S -> (nat -> bool) -> Prop;
  models_ext x s t : (forall v, used x v -> s v = t v) -> models x s -> models x t;
  add_var_unused ext x : ~ used x (add_var ext x).1;
  add_var_used ext x v : used (add_var ext x).2 v <-> v = (add_var ext x).1 \/ used x v;
  add_var_models ext x s : models (add_var ext x).2 s <-> models x s;
  add_clause_used c x v :
    Forall (fun l => used x (var l)) c -> used (add_clause c x) v <-> used x v;
  add_clause_models c x s :
    Forall (fun l => used x (var l)) c ->
    models (add_clause c x) s <-> models x s /\ clause_true s c = true;
  set_external_used v x u : used (set_external v x) u <-> used x u;
  set_external_models v x s : models (set_external v x) s <-> models x s;
  set_eliminated_used v b x u : used (set_eliminated v b x) u <-> used x u;
  set_eliminated_models v b x s : models (set_eliminated v b x) s <-> models x s;
  set_phase_used l x u : used (set_phase l x) u <-> used x u;
  set_phase_models l x s : models (set_phase l x) s <-> models x s
}.

(** ** A solver that keeps a log of the calls *)

Inductive call :=
  | AddVar (ext : bool)
  | AddClause (c : clause)
  | SetExternal (v : nat).

(** The last call first. *)
Definition recorder := list call.

Definition clause_bound (c : clause) : nat := foldr (fun l n => Nat.max (S (var l)) n) 0%nat c.

(** The next variable: past those added and those in the clauses. *)
Fixpoint num_vars (x : recorder) : nat :=
  match x with
  | [] => 0
  | AddVar _ :: x => S (num_vars x)
  | AddClause c :: x => Nat.max (clause_bound c) (num_vars x)
  | SetExternal _ :: x => num_vars x
  end.

(** The clauses in the order they were added. *)
Definition clauses (x : recorder) : list clause :=
  rev (omap (fun c => match c with AddClause c => Some c | _ => None end) x).

#[global] Instance recorder_solver : SatSolver recorder := {|
  add_var ext x := (num_vars x, AddVar ext :: x);
  add_clause c x := AddClause c :: x;
  set_external v x := SetExternal v :: x;
  set_eliminated _ _ x := x;
  set_phase _ x := x
|}.

Fixpoint satisfied (s : nat -> bool) (x : recorder) : Prop :=
  match x with
  | [] => True
  | AddClause c :: x => satisfied s x /\ clause_true s c = true
  | _ :: x => satisfied s x
  end.

Lemma clause_bound_le c n :
  Forall (fun l => (var l < n)%nat) c <-> (clause_bound c <= n)%nat.
Proof.
  unfold clause_bound. induction c as [|l c IH]; cbn [foldr]; [split; [lia|constructor]|].
  rewrite Forall_cons, IH. lia.
Qed.

Lemma clause_true_ext c s t :
  (forall l, l ∈ c -> s (var l) = t (var l)) -> clause_true s c = clause_true t c.
Proof.
  unfold clause_true. induction c as [|l c IH]; intros He; [done|]. cbn [existsb]. rewrite IH by (intros; apply He; by right).
  f_equal. unfold lit_true. rewrite (He l); [done|left].
Qed.

Lemma satisfied_ext x s t :
  (forall v, (v < num_vars x)%nat -> s v = t v) -> satisfied s x -> satisfied t x.
Proof.
  induction x as [|[ext|c|v] x IH]; cbn [num_vars satisfied]; intros He;
    [done|apply IH; intros; apply He; lia| |by apply IH].
  intros [Hx Hc]. split; [apply IH; [|done]; intros; apply He; lia|].
  rewrite <- Hc. symmetry. apply clause_true_ext. intros l Hl. apply He.
  assert (clause_bound c <= clause_bound c)%nat as Hb by done.
  apply clause_bound_le in Hb. rewrite Forall_forall in Hb. specialize (Hb l Hl). lia.
Qed.

Lemma satisfied_clauses x s : satisfied s x <-> Forall (fun c => clause_true s c = true) (clauses x).
Proof.
  unfold clauses. induction x as [|[ext|c|v] x IH]; cbn; [split; done|done| |done].
  rewrite Forall_app, Forall_singleton, IH. done.
Qed.

#[global, refine] Instance recorder_ok : SatSolverOk recorder := {|
  used x v := (v < num_vars x)%nat;
  models x s := satisfied s x
|}.
Proof.
  all: cbn; try done; try lia.
  - apply satisfied_ext.
  - intros c x v Hc%clause_bound_le. lia.
Defined.
