(* ===== verification/Tactical.v ===== *)
(** Tactics and their combinators (tactic/tactic.h, tactic.cpp, tactical.cpp,
    dependency_converter.cpp, core/split_clause_tactic.cpp). Goals are shared: a
    tactic gets a reference to one, may change it in place, and adds references
    to the subgoals to a buffer; it may also throw, after it has changed goals.
    The combinators over a store of goals are those of the code, but for the
    parallel ones, the time limit and the parameters; proofs are off. *)
From S2P Require Import Prelude Ast AstSem AstFacts Goal SatTypes.

(** ** More of goal.cpp *)

Definition reset_all (g : goal) : goal :=
  mk_goal [] 0 (m_models_enabled g) (m_core_enabled g) false PRECISE.

(** The marks of [is_equal] are lists; the numbers count distinct formulas. *)
Fixpoint mark_forms (fs visited : list expr) (num : nat) : list expr * nat :=
  match fs with
  | [] => (visited, num)
  | f :: fs =>
      if bool_decide (f ∈ visited) then mark_forms fs visited num else mark_forms fs (f :: visited) (S num)
  end.
Fixpoint count_forms (visited1 fs visited2 : list expr) (num : nat) : option nat :=
  match fs with
  | [] => Some num
  | f :: fs =>
      if bool_decide (f ∈ visited2) then count_forms visited1 fs visited2 num
      else if negb (bool_decide (f ∈ visited1)) then None
      else count_forms visited1 fs (f :: visited2) (S num)
  end.
Definition is_equal (s1 s2 : goal) : bool :=
  if negb (Nat.eqb (length (m_entries s1)) (length (m_entries s2))) then false
  else
    let '(visited1, num1) := mark_forms (map form (m_entries s1)) [] 0 in
    match count_forms visited1 (map form (m_entries s2)) [] 0 with
    | Some num2 => Nat.eqb num1 num2
    | None => false
    end.

(** ** Exceptions *)

(** The last is no exception of the code: a fault of the model ends the run. *)
Inductive exception :=
  | tactic_exception (msg : string)
  | default_exception (msg : string)
  | z3_error (code : Z)
  | stuck (f : fault).

Inductive outcome (A : Type) := Returns (a : A) | Throws (e : exception).
Arguments Returns {A} a.
Arguments Throws {A} e.

Section Tacticals.
(** [M]: models; [C]: model converters; [W]: the states of the tactics. *)
Context {M C W : Type} (convert : C -> M -> M) (empty_model : M).

(** ** Converters *)

(** The references to converters are null or not: [option]. *)
Inductive model_converter :=
  | leaf_converter (c : C)
  | concat_model_converter (c1 c2 : model_converter).

Definition concat_mc (mc1 mc2 : option model_converter) : option model_converter :=
  match mc1, mc2 with
  | None, _ => mc2
  | _, None => mc1
  | Some c1, Some c2 => Some (concat_model_converter c1 c2)
  end.

Fixpoint run_mc (c : model_converter) (m : M) : M :=
  match c with
  | leaf_converter c => convert c m
  | concat_model_converter c1 c2 => run_mc c1 (run_mc c2 m)
  end.

(** The last refers to goals, whose converters are read when it runs. *)
Inductive dependency_converter :=
  | unit_dependency_converter (d : list expr)
  | concat_dependency_converter (c1 c2 : dependency_converter)
  | goal_dependency_converter (goals : list nat).

Definition concat_dc (dc1 dc2 : option dependency_converter) : option dependency_converter :=
  match dc1, dc2 with
  | None, _ => dc2
  | _, None => dc1
  | Some c1, Some c2 => Some (concat_dependency_converter c1 c2)
  end.
Definition concat_goals (goals : list nat) : option dependency_converter :=
  match goals with [] => None | _ => Some (goal_dependency_converter goals) end.

(** ** Goals with their converters *)

Record goal_obj := mk_obj {
  contents : goal;
  m_mc : option model_converter;
  m_dc : option dependency_converter
}.

Definition set_contents (g : goal) (o : goal_obj) : goal_obj := mk_obj g (m_mc o) (m_dc o).
Definition add_mc (mc : option model_converter) (o : goal_obj) : goal_obj :=
  mk_obj (contents o) (concat_mc (m_mc o) mc) (m_dc o).
Definition add_dc (dc : option dependency_converter) (o : goal_obj) : goal_obj :=
  mk_obj (contents o) (m_mc o) (concat_dc (m_dc o) dc).

(** The options of the target stay. *)
Definition copy_to (src target : goal_obj) : goal_obj :=
  let g := contents src in let t := contents target in
  mk_obj (mk_goal (m_entries g) (N.max (m_depth g) (m_depth t)) (m_models_enabled t) (m_core_enabled t)
            (m_inconsistent g) (mk_union (m_precision g) (m_precision t)))
    (m_mc src) (m_dc src).
Definition copy_goal (src : goal_obj) : goal_obj :=
  copy_to src (mk_obj (new_goal (m_models_enabled (contents src)) (m_core_enabled (contents src))) None None).

(** ** Runs *)

Record state := mk_state { heap : gmap nat goal_obj; world : W }.
Definition act (A : Type) : Type := state -> outcome A * state.

#[global] Instance act_ret : MRet act := fun A a σ => (Returns a, σ).
#[global] Instance act_bind : MBind act :=
  fun A B k m σ => match m σ with (Returns a, σ) => k a σ | (Throws e, σ) => (Throws e, σ) end.

Definition throw {A} (e : exception) : act A := fun σ => (Throws e, σ).
(** [catch (tactic_exception &)] and [catch (z3_exception &)]. *)
Definition catch_tactic {A} (m : act A) (h : exception -> act A) : act A :=
  fun σ => match m σ with (Throws (tactic_exception _ as e), σ) => h e σ | r => r end.
Definition catch_z3 {A} (m : act A) (h : exception -> act A) : act A :=
  fun σ => match m σ with
           | (Throws (stuck f), σ) => (Throws (stuck f), σ)
           | (Throws e, σ) => h e σ
           | r => r
           end.
Definition lift {A} (r : res A) : act A :=
  match r with Ok a => mret a | Fault f => throw (stuck f) end.

Definition load (l : nat) : act goal_obj :=
  fun σ => match heap σ !! l with Some o => (Returns o, σ) | None => (Throws (stuck NullPointer), σ) end.
Definition store (l : nat) (o : goal_obj) : act unit :=
  fun σ => (Returns tt, mk_state (<[l := o]> (heap σ)) (world σ)).
Definition alloc (o : goal_obj) : act nat :=
  fun σ => let l := fresh (dom (heap σ)) in (Returns l, mk_state (<[l := o]> (heap σ)) (world σ)).
Definition update_world (f : W -> W) : act unit := fun σ => (Returns tt, mk_state (heap σ) (f (world σ))).
Definition get_world : act W := fun σ => (Returns (world σ), σ).

(** The goals of a [goal_dependency_converter] may have converters of their own. *)
Fixpoint run_dc (fuel : nat) (c : dependency_converter) : act (list expr) :=
  match fuel with
  | O => throw (stuck OutOfFuel)
  | S fuel =>
      match c with
      | unit_dependency_converter d => mret d
      | concat_dependency_converter c1 c2 => d1 ← run_dc fuel c1; d2 ← run_dc fuel c2; mret (d1 ++ d2)
      | goal_dependency_converter goals =>
          foldl (fun m l =>
            result ← m; o ← load l;
            match m_dc o with
            | Some dc => d ← run_dc fuel dc; mret (result ++ d)
            | None => mret result
            end) (mret []) goals
      end
  end.

(** ** Tactics *)

(** [run in result]: the buffer after the run, [result] and the subgoals. *)
Record tactic := mk_tactic {
  run : nat -> list nat -> act (list nat);
  cleanup : W -> W;
  reset_statistics : W -> W
}.

(** The tests of goal.h on a buffer. *)
Definition all_decided (p : goal -> bool) (result : list nat) : act bool :=
  match result with [l] => o ← load l; mret (p (contents o)) | _ => mret false end.

Definition skip_tactic : tactic := mk_tactic (fun l result => mret (result ++ [l])) id id.
Definition fail_tactic : tactic := mk_tactic (fun l result => throw (tactic_exception "fail tactic")) id id.
Definition fail_if_undecided_tactic : tactic :=
  mk_tactic (fun l result =>
    o ← load l;
    if negb (is_decided (contents o)) then throw (tactic_exception "undecided") else run skip_tactic l result) id id.

(** The goal becomes [false], with the core its dependency converter gives. *)
Definition close_goal (dc_fuel : nat) (cores_enabled : bool) (l : nat) : act unit :=
  o ← load l;
  let o := set_contents (reset_all (contents o)) o in
  _ ← store l o;
  core ← (match m_dc o with
          | Some dc => if cores_enabled then run_dc dc_fuel dc else mret []
          | None => mret []
          end);
  g ← lift (assert_expr m_false core (contents o));
  store l (set_contents g o).

(** The loop over the subgoals; [clear]: a solution replaces what there is. *)
Fixpoint try_subgoals (clear : bool) (t : nat -> act (list nat)) (r1 result : list nat) : act (bool * list nat) :=
  match r1 with
  | [] => mret (false, result)
  | g :: r1 =>
      r2 ← t g;
      decided ← all_decided is_decided r2;
      if decided : bool then
        sat ← all_decided is_decided_sat r2;
        if sat : bool then mret (true, (if clear then [] else result) ++ take 1 r2)
        else try_subgoals clear t r1 result
      else try_subgoals clear t r1 (result ++ r2)
  end.

Definition and_then_run (dc_fuel : nat) (t1 t2 : tactic) (l : nat) (result : list nat) : act (list nat) :=
  o ← load l;
  let cores_enabled := m_core_enabled (contents o) in
  r1 ← run t1 l [];
  match r1 with
  | [r1_0] =>
      o ← load r1_0;
      if is_decided (contents o) then mret (result ++ [r1_0]) else run t2 r1_0 result
  | _ =>
      '(found, result) ← try_subgoals true (fun g => run t2 g []) r1 result;
      if found : bool then mret result
      else
        match result with
        | [] => _ ← close_goal dc_fuel cores_enabled l; mret [l]
        | _ => mret result
        end
  end.
Definition and_then (dc_fuel : nat) (t1 t2 : tactic) : tactic :=
  mk_tactic (and_then_run dc_fuel t1 t2) (cleanup t2 ∘ cleanup t1) (reset_statistics t2 ∘ reset_statistics t1).

(** An exception of a tactic but the last: the goal is restored for the next. *)
Fixpoint or_else_loop (ts : list tactic) (orig : goal_obj) (l : nat) (result : list nat) : act (list nat) :=
  match ts with
  | [] => mret result
  | [t] => run t l result
  | t :: ts =>
      catch_tactic (run t l result) (fun _ =>
        o ← load l;
        _ ← store l (copy_to orig (set_contents (reset_all (contents o)) o));
        or_else_loop ts orig l [])
  end.
Definition or_else (ts : list tactic) : tactic :=
  mk_tactic (fun l result => o ← load l; or_else_loop ts (copy_goal o) l result)
    (fun w => foldl (fun w t => cleanup t w) w ts) (fun w => foldl (fun w t => reset_statistics t w) w ts).
Definition skip_if_failed (t : tactic) : tactic := or_else [t; skip_tactic].

(** A [tactic] again and again, until it changes nothing, the goal is decided or
    the depth, an unsigned number, is above the limit. [cores_enabled] is that of
    the goal the call began with. *)
Fixpoint repeat_loop (dc_fuel fuel : nat) (t : tactic) (m_max_depth depth : Z) (g : nat) (cores_enabled : bool)
    : act (list nat) :=
  match fuel with
  | O => throw (stuck OutOfFuel)
  | S fuel =>
      if m_max_depth <? depth then mret [g]
      else
        o ← load g;
        r1 ← run t g [];
        match r1 with
        | [r1_0] =>
            o' ← load r1_0;
            if is_equal (contents (copy_goal o)) (contents o') then mret [r1_0]
            else if is_decided (contents o') then mret [r1_0]
            else repeat_loop dc_fuel fuel t m_max_depth (to_unsigned (depth + 1)) r1_0 cores_enabled
        | _ =>
            '(found, result) ← try_subgoals false (fun g =>
              o ← load g;
              repeat_loop dc_fuel fuel t m_max_depth (to_unsigned (depth + 1)) g (m_core_enabled (contents o))) r1 [];
            if found : bool then mret result
            else
              match result with
              | [] => _ ← close_goal dc_fuel cores_enabled g; mret [g]
              | _ => mret result
              end
        end
  end.
Definition repeat (dc_fuel fuel : nat) (t : tactic) (max : Z) : tactic :=
  mk_tactic (fun l _ => o ← load l; repeat_loop dc_fuel fuel t max 0 l (m_core_enabled (contents o)))
    (cleanup t) (reset_statistics t).

Definition fail_if_branching (t : tactic) (threshold : nat) : tactic :=
  mk_tactic (fun l result =>
    result ← run t l result;
    if Nat.ltb threshold (length result) then throw (tactic_exception "failed-if-branching tactical") else mret result)
    (cleanup t) (reset_statistics t).

Definition clean (t : tactic) : tactic :=
  mk_tactic (fun l result => result ← run t l result; _ ← update_world (cleanup t); mret result)
    (cleanup t) (reset_statistics t).

(** A probe: whether its result is not zero. *)
Definition cond (p : goal -> bool) (t1 t2 : tactic) : tactic :=
  mk_tactic (fun l result => o ← load l; if p (contents o) then run t1 l result else run t2 l result)
    (cleanup t2 ∘ cleanup t1) (reset_statistics t2 ∘ reset_statistics t1).
Definition when (p : goal -> bool) (t : tactic) : tactic := cond p t skip_tactic.
Definition fail_if (p : goal -> bool) : tactic :=
  mk_tactic (fun l result =>
    o ← load l; if p (contents o) then throw (tactic_exception "fail-if tactic") else mret (result ++ [l])) id id.
Definition fail_if_not (p : goal -> bool) : tactic := fail_if (fun g => negb (p g)).
Definition if_no_unsat_cores (t : tactic) : tactic :=
  mk_tactic (fun l result => o ← load l; if m_core_enabled (contents o) then mret (result ++ [l]) else run t l result)
    (cleanup t) (reset_statistics t).
Definition if_no_models (t : tactic) : tactic :=
  mk_tactic (fun l result => o ← load l; if m_models_enabled (contents o) then mret (result ++ [l]) else run t l result)
    (cleanup t) (reset_statistics t).

(** ** split-clause *)

(** The position of the first clause of two or more literals, or of the first of
    the longest ones; [len]: the longest so far. *)
Fixpoint select_clause (m_largest_clause : bool) (fs : list expr) (i : nat) (result : option nat) (len : nat) : option nat :=
  match fs with
  | [] => result
  | f :: fs =>
      let curr_len := length (get_args f) in
      if is_or f && Nat.leb 2 curr_len then
        if negb m_largest_clause then Some i
        else if Nat.ltb len curr_len then select_clause m_largest_clause fs (S i) (Some i) curr_len
        else select_clause m_largest_clause fs (S i) result len
      else select_clause m_largest_clause fs (S i) result len
  end.

Fixpoint split_loop (l cls_pos : nat) (cls_dep : list expr) (lits : list expr) (result : list nat) : act (list nat) :=
  match lits with
  | [] => mret result
  | lit_i :: lits =>
      o ← load l;
      let subgoal_i := copy_goal o in
      g ← lift (update cls_pos lit_i cls_dep (contents subgoal_i));
      subgoal_i ← alloc (mk_obj (inc_depth g) (m_mc o) (m_dc subgoal_i));
      split_loop l cls_pos cls_dep lits (result ++ [subgoal_i])
  end.

Definition split_clause_run (m_largest_clause : bool) (l : nat) (result : list nat) : act (list nat) :=
  o ← load l;
  match select_clause m_largest_clause (map form (m_entries (contents o))) 0 None 0 with
  | None => throw (tactic_exception "split-clause tactic failed, goal does not contain any clause")
  | Some cls_pos =>
      cls ← lift (aget (m_entries (contents o)) (Z.of_nat cls_pos));
      result ← split_loop l cls_pos (deps cls) (get_args (form cls)) result;
      o ← load l;
      _ ← store l (add_dc (concat_goals result) o); mret result
  end.
Definition split_clause_tactic (m_largest_clause : bool) : tactic :=
  mk_tactic (split_clause_run m_largest_clause) id id.
Definition mk_split_clause_tactic (m_largest_clause : bool) : tactic := clean (split_clause_tactic m_largest_clause).

(** ** Deciding a goal *)

Definition exec (t : tactic) (l : nat) : act (list nat) :=
  _ ← update_world (reset_statistics t);
  catch_tactic (r ← run t l []; _ ← update_world (cleanup t); mret r)
    (fun e => _ ← update_world (cleanup t); throw e).

(** The messages of the exceptions; that of an error code is a parameter. *)
Definition exception_msg (error_msg : Z -> string) (e : exception) : string :=
  match e with
  | tactic_exception msg | default_exception msg => msg
  | z3_error code => error_msg code
  | stuck _ => ""
  end.

Record verdict := mk_verdict { v_result : lbool; v_md : option M; v_core : list expr; v_reason : string }.

(** The model that the converter of a goal makes of the empty model. *)
Definition mc_model (o : goal_obj) : option M := (fun mc => run_mc mc empty_model) <$> m_mc o.

(** [inc]: whether the run was cancelled is a part of the states. *)
Definition check_sat (error_msg : Z -> string) (inc : W -> bool) (t : tactic) (g : nat) : act verdict :=
  o ← load g;
  let models_enabled := m_models_enabled (contents o) in
  let cores_enabled := m_core_enabled (contents o) in
  run ← catch_z3 (r ← exec t g; mret (inr r)) (fun e => mret (inl (exception_msg error_msg e)));
  match run with
  | inl msg => mret (mk_verdict l_undef None [] msg)
  | inr r =>
      sat ← all_decided is_decided_sat r;
      unsat ← all_decided is_decided_unsat r;
      if sat : bool then
        final ← load (default O (head r));
        w ← get_world;
        let md := mc_model final in
        if negb (inc w) then mret (mk_verdict l_undef md [] "canceled")
        else mret (mk_verdict l_true (Some (default empty_model md)) [] "")
      else if unsat : bool then
        final ← load (default O (head r));
        e ← lift (aget (m_entries (contents final)) 0);
        mret (mk_verdict l_false None (if cores_enabled then deps e else []) "")
      else
        match r with
        | r_0 :: _ =>
            o ← load r_0;
            mret (mk_verdict l_undef (if models_enabled then mc_model o else None) [] "incomplete")
        | [] => mret (mk_verdict l_undef None [] "incomplete")
        end
  end.
End Tacticals.
