(* ===== verification/TacticalOk.v ===== *)
(** Sound tactics over shared goals. A tactic changes no goal but the one it is
    given, also when it throws, and the goals it answers are that one or new; it
    is sound if a model of one of them becomes, through the converters, a model
    of the goal, and if the goal has no model when none of them has one. Every
    combinator keeps this, and [check_sat] with a sound tactic is right. *)
From S2P Require Import Prelude Ast AstSem AstFacts Goal GoalUnder SatTypes Tactical.

(** ** Runs *)

Section Runs.
Context {C W : Type}.
Local Abbreviation state := (state (C := C) (W := W)).
Local Abbreviation act := (act (C := C) (W := W)).

Definition wp {A} (m : act A) (Q : outcome A -> state -> Prop) (σ : state) : Prop :=
  let '(r, σ') := m σ in Q r σ'.

Lemma wp_weaken {A} (m : act A) (Q Q' : outcome A -> state -> Prop) σ :
  wp m Q σ -> (forall r σ', Q r σ' -> Q' r σ') -> wp m Q' σ.
Proof. unfold wp. destruct (m σ). auto. Qed.

Lemma wp_seq {A B} (m : act A) (k : A -> act B) Q σ :
  wp m (fun r σ' => match r with Returns a => wp (k a) Q σ' | Throws e => Q (Throws e) σ' end) σ ->
  wp (m ≫= k) Q σ.
Proof. unfold wp, mbind, act_bind. by destruct (m σ) as [[a|e] σ']. Qed.

Lemma wp_ret {A} (a : A) (Q : outcome A -> state -> Prop) σ : Q (Returns a) σ -> wp (mret a) Q σ.
Proof. done. Qed.

(** Loading a goal that is there. *)
Lemma wp_load {A} l o (k : goal_obj -> act A) Q σ :
  heap σ !! l = Some o -> wp (k o) Q σ -> wp (load l ≫= k) Q σ.
Proof. intros Hl Hk. apply wp_seq. unfold wp at 1, load. by rewrite Hl. Qed.

Lemma run_load {A} l o (k : goal_obj -> act A) σ : heap σ !! l = Some o -> (load l ≫= k) σ = k o σ.
Proof. intros Hl. unfold mbind, act_bind, load. by rewrite Hl. Qed.

Lemma run_store {A} l o (k : unit -> act A) σ :
  (store l o ≫= k) σ = k tt (mk_state (<[l := o]> (heap σ)) (world σ)).
Proof. done. Qed.

Lemma wp_store {A} l o (k : unit -> act A) Q σ :
  wp (k tt) Q (mk_state (<[l := o]> (heap σ)) (world σ)) -> wp (store l o ≫= k) Q σ.
Proof. intros Hk. by apply wp_seq. Qed.

(** Runs that change no goal. *)
Lemma run_dc_reads fuel c σ : wp (run_dc fuel c) (fun _ σ' => σ' = σ) σ.
Proof.
  revert c σ. induction fuel as [|fuel IH]; intros c σ; [done|]. destruct c as [d|c1 c2|goals]; cbn [run_dc]; [done| |].
  - apply wp_seq. eapply wp_weaken; [apply IH|]. intros [d1|e] ? ->; [|done]. apply wp_seq.
    eapply wp_weaken; [apply IH|]. by intros [d2|e] ? ->.
  - assert (forall m : act (list expr), wp m (fun _ σ' => σ' = σ) σ -> wp (foldl (fun m l =>
      result ← m; o ← load l;
      match m_dc o with Some dc => d ← run_dc fuel dc; mret (result ++ d) | None => mret result end) m goals)
      (fun _ σ' => σ' = σ) σ) as Hfold.
    { induction goals as [|l goals IHg]; intros m Hm; [done|]. cbn [foldl]. apply IHg. apply wp_seq.
      eapply wp_weaken; [exact Hm|]. intros [result|e] ? ->; [|done]. apply wp_seq. unfold wp at 1, load.
      destruct (heap σ !! l) as [o|]; [|done]. destruct (m_dc o) as [dc|]; [|done].
      apply wp_seq. eapply wp_weaken; [apply IH|]. by intros [d|e] ? ->. }
    by apply Hfold.
Qed.

Lemma all_decided_reads p ls os (Q : outcome bool -> state -> Prop) σ :
  Forall2 (fun l o => heap σ !! l = Some o) ls os ->
  Q (Returns match os with [o] => p (contents o) | _ => false end) σ ->
  wp (all_decided p ls) Q σ.
Proof.
  intros Hls HQ. destruct Hls as [|l o ls os Hl Hls]; [done|]. destruct Hls; [|done]. cbn [all_decided].
  by eapply wp_load.
Qed.
End Runs.

(** ** The contract *)

Section Sound.
Context {M C W : Type} (as_interp : M -> interp) (convert : C -> M -> M) (empty_model : M).
Local Abbreviation goal_obj := (goal_obj (C := C)).
Local Abbreviation state := (state (C := C) (W := W)).
Local Abbreviation act := (act (C := C) (W := W)).
Local Abbreviation tactic := (tactic (C := C) (W := W)).
Implicit Types (o : goal_obj) (os : list goal_obj) (h : gmap nat goal_obj) (σ : state) (t : tactic).

Definition obj_ok o : Prop := goal_wf (contents o) /\ tracked (contents o).
Definition satisfies (m : M) o : Prop := goal_true (as_interp m) (contents o).

(** The model that the converter of a goal makes of a model. *)
Definition converted o (m : M) : M := match m_mc o with Some c => run_mc convert c m | None => m end.

(** No model, and this says as much of the goal it came from. *)
Definition refuted o : Prop := unsat_preserved (contents o) = true /\ forall m, ~ satisfies m o.

(** The goals [os] stand for the goal [o]. *)
Record covers o os : Prop := mk_covers {
  cov_ok : Forall (fun o' => obj_ok o' /\ same_options (contents o) (contents o')) os;
  cov_sat o' m : o' ∈ os -> sat_preserved (contents o') = true -> satisfies m o' ->
    sat_preserved (contents o) = true
    /\ exists m', satisfies m' o /\ (m_models_enabled (contents o) = true -> converted o' m = converted o m');
  cov_unsat : (forall o', o' ∈ os -> refuted o') -> refuted o
}.

(** A run on [l]: the other goals stay, and [l] keeps its options. *)
Definition frame (l : nat) h h' : Prop :=
  (forall l' o, l' <> l -> h !! l' = Some o -> h' !! l' = Some o)
  /\ forall o, h !! l = Some o -> exists o', h' !! l = Some o' /\ same_options (contents o) (contents o').

Definition stored h (ls : list nat) os : Prop := Forall2 (fun l o => h !! l = Some o) ls os.
(** The goal that was given, or new ones. *)
Definition own h (l : nat) (ls : list nat) : Prop := forall l', l' ∈ ls -> l' = l \/ h !! l' = None.

Definition answers (l : nat) o h (ls : list nat) h' : Prop :=
  NoDup ls /\ own h l ls /\ exists os, stored h' ls os /\ covers o os.

Definition post (l : nat) o h (r : outcome (list nat)) (σ' : state) : Prop :=
  frame l h (heap σ') /\ match r with Returns ls => answers l o h ls (heap σ') | Throws _ => True end.

Definition sound_run (f : nat -> act (list nat)) : Prop :=
  forall σ l o, heap σ !! l = Some o -> obj_ok o -> wp (f l) (post l o (heap σ)) σ.

Class SoundTactic t : Prop := sound : sound_run (fun l => run t l []).

(** ** Laws of the contract *)

Lemma same_options_refl (g : goal) : same_options g g.
Proof. done. Qed.
Lemma same_options_trans (g1 g2 g3 : goal) : same_options g1 g2 -> same_options g2 g3 -> same_options g1 g3.
Proof. unfold same_options. intuition congruence. Qed.

Lemma covers_refl o : obj_ok o -> covers o [o].
Proof.
  intros Ho. split.
  - rewrite Forall_singleton. by split.
  - intros o' m ->%list_elem_of_singleton Hp Hm. eauto.
  - intros Hall. apply Hall. by left.
Qed.

Lemma covers_replace o x a b ys : covers o (a ++ x :: b) -> covers x ys -> covers o (a ++ ys ++ b).
Proof.
  intros [Hok Hsat Hun] [Hok' Hsat' Hun']. rewrite Forall_app, Forall_cons in Hok. destruct Hok as (Ha & [Hx Hopt] & Hb).
  split.
  - rewrite !Forall_app. split_and!; [done| |done]. eapply Forall_impl; [exact Hok'|]. cbn. intros y [Hy Hyo].
    split; [done|]. by eapply same_options_trans.
  - intros o' m Hin Hp Hm. rewrite !elem_of_app in Hin.
    destruct Hin as [Hin|[Hin|Hin]]; [apply (Hsat o' m); [set_solver|done..]| |apply (Hsat o' m); [set_solver|done..]].
    destruct (Hsat' o' m Hin Hp Hm) as (Hpx & m' & Hm' & Hc). destruct (Hsat x m') as (Hpo & m2 & Hm2 & Hc2); [set_solver|done|done|].
    split; [done|]. exists m2. split; [done|]. intros He. rewrite Hc; [by apply Hc2|]. destruct Hopt as [_ Hopt]. congruence.
  - intros Hall. apply Hun. intros o' Hin. rewrite elem_of_app, elem_of_cons in Hin.
    destruct Hin as [Hin|[->|Hin]]; [apply Hall; set_solver| |apply Hall; set_solver].
    apply Hun'. intros y Hy. apply Hall. set_solver.
Qed.

Lemma covers_trans o x ys : covers o [x] -> covers x ys -> covers o ys.
Proof. intros H1 H2. pose proof (covers_replace o x [] [] ys H1 H2) as H. by rewrite app_nil_r in H. Qed.

(** A refuted goal need not be shown. *)
Lemma covers_drop o x a b : covers o (a ++ x :: b) -> refuted x -> covers o (a ++ b).
Proof.
  intros [Hok Hsat Hun] Hx. rewrite Forall_app, Forall_cons in Hok. split.
  - rewrite Forall_app. tauto.
  - intros o' m Hin. apply Hsat. set_solver.
  - intros Hall. apply Hun. intros o' Hin. rewrite elem_of_app, elem_of_cons in Hin.
    destruct Hin as [Hin|[->|Hin]]; [apply Hall; set_solver|done|apply Hall; set_solver].
Qed.

(** A goal with a model makes the others superfluous. *)
Lemma covers_found o x a a' b : covers o (a ++ x :: b) -> a' ⊆ a -> ~ refuted x -> covers o (a' ++ [x]).
Proof.
  intros [Hok Hsat Hun] Ha Hx. rewrite Forall_app, Forall_cons in Hok. split.
  - rewrite Forall_app, Forall_singleton. split; [|tauto]. destruct Hok as [Hok _]. rewrite Forall_forall in *. auto.
  - intros o' m Hin. apply Hsat. set_solver.
  - intros Hall. destruct Hx. apply Hall. set_solver.
Qed.

Lemma covers_close o x : covers o [] -> obj_ok x -> same_options (contents o) (contents x) -> refuted x -> covers o [x].
Proof.
  intros [_ _ Hun] Hx Hopt Hr. split.
  - by rewrite Forall_singleton.
  - intros o' m ->%list_elem_of_singleton _ Hm. by destruct (proj2 Hr m).
  - intros _. apply Hun. intros o' []%not_elem_of_nil.
Qed.

Lemma frame_refl l h : frame l h h.
Proof. split; [done|]. eauto using same_options_refl. Qed.

(** A part of the run on a goal that is the given one or new. *)
Lemma frame_sub l g h h1 h2 : frame l h h1 -> g = l \/ h !! g = None -> frame g h1 h2 -> frame l h h2.
Proof.
  intros [F1 O1] Hg [F2 O2]. split.
  - intros l' o Hl Ho. apply F2; [|by apply F1]. intros ->. destruct Hg; congruence.
  - intros o Ho. destruct (O1 o Ho) as (o1 & Ho1 & Hopt). destruct (decide (g = l)) as [->|Hn].
    + destruct (O2 o1 Ho1) as (o2 & Ho2 & Hopt2). exists o2. split; [done|]. by eapply same_options_trans.
    + exists o1. split; [by apply F2|done].
Qed.

Lemma frame_trans l h h1 h2 : frame l h h1 -> frame l h1 h2 -> frame l h h2.
Proof. intros H1 H2. eapply frame_sub; eauto. Qed.

Lemma frame_insert l o o' h : h !! l = Some o -> same_options (contents o) (contents o') -> frame l h (<[l := o']> h).
Proof.
  intros Hl Hopt. split.
  - intros l' x Hn Hx. by rewrite lookup_insert_ne.
  - intros x Hx. rewrite lookup_insert_eq. exists o'. split; [done|]. congruence.
Qed.

Lemma frame_new l h h' l' : frame l h h' -> h' !! l' = None -> h !! l' = None.
Proof.
  intros [F O] Hn. destruct (h !! l') as [o|] eqn:Ho; [|done]. destruct (decide (l' = l)) as [->|Hne].
  - destruct (O o Ho) as (o' & Ho' & _). congruence.
  - rewrite (F l' o) in Hn; done.
Qed.

Lemma frame_stored g h h' ls os : frame g h h' -> g ∉ ls -> stored h ls os -> stored h' ls os.
Proof.
  intros [F _] Hg Hs. induction Hs as [|l o ls os Hl Hs IH]; [constructor|].
  apply not_elem_of_cons in Hg as [Hgl Hgs]. constructor; [|by apply IH]. by apply F; [intros ->|].
Qed.

Lemma stored_elem h ls os l : stored h ls os -> l ∈ ls -> h !! l <> None.
Proof.
  intros Hs Hin. induction Hs as [|l' o ls os Hl Hs IH]; [by apply not_elem_of_nil in Hin|].
  apply elem_of_cons in Hin as [->|Hin]; [congruence|by apply IH].
Qed.

Lemma own_frame g l h h1 ls : frame l h h1 -> g = l \/ h !! g = None -> own h1 g ls -> own h l ls.
Proof.
  intros Hf Hg Ho l' Hl'. destruct (Ho l' Hl') as [->|Hn]; [done|]. right. by eapply frame_new.
Qed.

(** What a run on one subgoal says of the goal. *)
Lemma post_step l g o o1 h h1 r σ :
  frame l h h1 -> g = l \/ h !! g = None -> covers o [o1] -> post g o1 h1 r σ -> post l o h r σ.
Proof.
  intros Hf Hg Hc [Hf1 Hr]. split; [by eapply frame_sub|]. destruct r as [ls|]; [|done].
  destruct Hr as (Hnd & Hown & os & Hs & Hos). split_and!; [done|by eapply own_frame|]. exists os. split; [done|].
  by eapply covers_trans.
Qed.

(** ** One tactic *)

Lemma answers_self σ l o : heap σ !! l = Some o -> obj_ok o -> post l o (heap σ) (Returns [l]) σ.
Proof.
  intros Hl Ho. split; [apply frame_refl|]. split_and!; [apply NoDup_singleton| |].
  - intros l' ->%list_elem_of_singleton. by left.
  - exists [o]. split; [by repeat constructor|by apply covers_refl].
Qed.
Hint Resolve answers_self : core.

Lemma throws_post σ l o e : post l o (heap σ) (Throws e) σ.
Proof. split; [apply frame_refl|done]. Qed.
Hint Resolve throws_post : core.

#[export] Instance skip_sound : SoundTactic skip_tactic.
Proof. intros σ l o Hl Ho. apply wp_ret. auto. Qed.

#[export] Instance fail_sound : SoundTactic fail_tactic.
Proof. intros σ l o Hl Ho. apply throws_post. Qed.

#[export] Instance fail_if_undecided_sound : SoundTactic fail_if_undecided_tactic.
Proof. intros σ l o Hl Ho. eapply wp_load; [done|]. destruct (negb _); [apply throws_post|by apply answers_self]. Qed.

#[export] Instance fail_if_sound p : SoundTactic (fail_if p).
Proof. intros σ l o Hl Ho. eapply wp_load; [done|]. destruct (p _); [apply throws_post|by apply answers_self]. Qed.

#[export] Instance fail_if_not_sound p : SoundTactic (fail_if_not p).
Proof. apply fail_if_sound. Qed.

#[export] Instance cond_sound p t1 t2 : SoundTactic t1 -> SoundTactic t2 -> SoundTactic (cond p t1 t2).
Proof. intros H1 H2 σ l o Hl Ho. eapply wp_load; [done|]. destruct (p _); [by apply H1|by apply H2]. Qed.

#[export] Instance when_sound p t : SoundTactic t -> SoundTactic (when p t).
Proof. intros Ht. by apply cond_sound; [|apply skip_sound]. Qed.

#[export] Instance if_no_unsat_cores_sound t : SoundTactic t -> SoundTactic (if_no_unsat_cores t).
Proof. intros Ht σ l o Hl Ho. eapply wp_load; [done|]. destruct (m_core_enabled _); [by apply answers_self|by apply Ht]. Qed.

#[export] Instance if_no_models_sound t : SoundTactic t -> SoundTactic (if_no_models t).
Proof. intros Ht σ l o Hl Ho. eapply wp_load; [done|]. destruct (m_models_enabled _); [by apply answers_self|by apply Ht]. Qed.

#[export] Instance clean_sound t : SoundTactic t -> SoundTactic (clean t).
Proof.
  intros Ht σ l o Hl Ho. apply wp_seq. eapply wp_weaken; [by apply Ht|]. by intros [ls|e] σ' Hp.
Qed.

#[export] Instance fail_if_branching_sound t n : SoundTactic t -> SoundTactic (fail_if_branching t n).
Proof.
  intros Ht σ l o Hl Ho. apply wp_seq. eapply wp_weaken; [by apply Ht|]. intros [ls|e] σ' Hp; [|done].
  destruct (Nat.ltb _ _); [|done]. by destruct Hp.
Qed.

(** ** Several subgoals *)

Lemma goal_refuted o : obj_ok o -> is_decided_unsat (contents o) = true -> refuted o.
Proof.
  intros [Hwf _] [Hi Hu]%andb_true_iff. split; [done|]. intros m. by apply goal_inconsistent.
Qed.

Lemma goal_satisfied o : is_decided_sat (contents o) = true -> satisfies empty_model o /\ sat_preserved (contents o) = true.
Proof.
  intros [Hl%Nat.eqb_eq Hp]%andb_true_iff. split; [|done]. unfold satisfies, goal_true.
  by rewrite (nil_length_inv _ Hl).
Qed.

(** A goal is closed with [false]. *)
Lemma close_goal_ok fuel b l o σ :
  heap σ !! l = Some o ->
  wp (close_goal fuel b l) (fun r σ' => frame l (heap σ) (heap σ') /\
    match r with
    | Returns _ => exists o', heap σ' !! l = Some o' /\ obj_ok o' /\ same_options (contents o) (contents o') /\ refuted o'
    | Throws _ => True
    end) σ.
Proof.
  intros Hl. eapply wp_load; [done|]. cbn zeta. apply wp_store. cbn [heap world m_dc set_contents contents].
  set (h1 := <[l := _]> (heap σ)).
  assert (frame l (heap σ) h1) as Hf by (by apply (frame_insert l o)).
  apply wp_seq. eapply wp_weaken with (Q := fun _ σ' => σ' = mk_state h1 (world σ)).
  { destruct (m_dc o) as [dc|]; [|done]. destruct b; [apply run_dc_reads|done]. }
  intros [core|e] ? ->; [|done]. split.
  - eapply frame_trans; [exact Hf|]. cbn. eapply frame_insert; [apply lookup_insert_eq|done].
  - cbn. eexists. split; [apply lookup_insert_eq|]. split; [|split; [done|]].
    + split; [split; [by repeat constructor|by eauto]|]. unfold tracked, plain. cbn.
      destruct (m_core_enabled (contents o)) eqn:Hce; [by left|right]. split; [done|]. apply Forall_singleton.
      unfold no_deps, entry_of. cbn. by rewrite Hce.
    + split; [done|]. intros m Hm. unfold satisfies, goal_true in Hm. by inversion Hm.
Qed.

(** The subgoals [done_] shown and [todo] to be tried. *)
Lemma try_subgoals_ok clear f l o h rs os done_ osd σ :
  sound_run f -> frame l h (heap σ) -> NoDup (done_ ++ rs) -> own h l (done_ ++ rs) ->
  stored (heap σ) done_ osd -> stored (heap σ) rs os -> Forall obj_ok os -> covers o (osd ++ os) ->
  wp (try_subgoals clear f rs done_) (fun r σ' => frame l h (heap σ') /\
    match r with Returns (_, ls) => answers l o h ls (heap σ') | Throws _ => True end) σ.
Proof.
  intros Hf. revert os done_ osd σ. induction rs as [|g rs IH]; intros os done_ osd σ Hfr Hnd Hown Hd Hs Hok Hc.
  { inversion Hs; subst. rewrite app_nil_r in *. split; [done|]. split_and!; [done..|]. by exists osd. }
  inversion Hs as [|? og ? os' Hg Hs']; subst. apply Forall_cons in Hok as [Hog Hok].
  cbn [try_subgoals]. apply wp_seq. eapply wp_weaken; [by apply Hf|]. intros [r2|e] σ1 [Hfr1 Ha].
  2: { split; [|done]. eapply frame_sub; [exact Hfr| |exact Hfr1]. apply Hown. set_solver. }
  assert (g = l \/ h !! g = None) as Hgl by (apply Hown; set_solver).
  apply NoDup_app in Hnd as (Hnd1 & Hdisj & [Hgr Hnd2]%NoDup_cons).
  assert (g ∉ done_) as Hgd by (intros Hin; apply (Hdisj g); set_solver).
  destruct Ha as (Hnd3 & Hown1 & os2 & Hs2 & Hc2).
  pose proof (frame_sub _ _ _ _ _ Hfr Hgl Hfr1) as Hfr2.
  pose proof (frame_stored _ _ _ _ _ Hfr1 Hgd Hd) as Hd1. pose proof (frame_stored _ _ _ _ _ Hfr1 Hgr Hs') as Hs1.
  pose proof (own_frame _ _ _ _ _ Hfr Hgl Hown1) as Hown2.
  assert (forall l', l' ∈ done_ \/ l' ∈ rs -> l' ∉ r2) as Hnew.
  { intros l' Hin H2. destruct (Hown1 l' H2) as [->|Hn]; [naive_solver|].
    destruct Hin as [Hin|Hin]; [apply (stored_elem _ _ _ _ Hd Hin Hn)|apply (stored_elem _ _ _ _ Hs' Hin Hn)]. }
  pose proof (covers_replace _ _ _ _ _ Hc Hc2) as Hc3.
  apply wp_seq. eapply all_decided_reads; [exact Hs2|]. cbn beta iota.
  assert (NoDup ((done_ ++ r2) ++ rs)) as Hnd4.
  { rewrite !NoDup_app. split_and!; try done; intros l' Hin; [intros H2; by apply (Hnew l'); [left|]|].
    rewrite elem_of_app in Hin. destruct Hin as [Hin|Hin]; [|intros Hr; by apply (Hnew l'); [right|]].
    intros Hr. apply (Hdisj l' Hin). by right. }
  assert (own h l ((done_ ++ r2) ++ rs)) as Hown4.
  { intros l'. rewrite !elem_of_app. intros [[Hin|Hin]|Hin]; [apply Hown|by apply Hown2|apply Hown]; set_solver. }
  assert (wp (try_subgoals clear f rs (done_ ++ r2)) (fun r σ' => frame l h (heap σ') /\
    match r with Returns (_, ls) => answers l o h ls (heap σ') | Throws _ => True end) σ1) as Hmore.
  { apply (IH os' (done_ ++ r2) (osd ++ os2)); try done; [by apply Forall2_app|by rewrite <- app_assoc]. }
  destruct os2 as [|o2 [|]]; [done| |done]. destruct (is_decided (contents o2)) eqn:Hdec; [|done]. clear Hmore.
  apply wp_seq. eapply all_decided_reads; [exact Hs2|]. cbn beta iota.
  inversion Hs2 as [|l2 ? ls2 ? Hl2 Hnil]; subst. inversion Hnil; subst.
  destruct (is_decided_sat (contents o2)) eqn:Hsat.
  - apply wp_ret. split; [done|]. apply goal_satisfied in Hsat as [Hm _]. set (kept := if clear then [] else done_).
    assert (exists osk, stored (heap σ1) kept osk /\ osk ⊆ osd /\ NoDup kept /\ kept ⊆ done_) as (osk & Hk & Hsub & Hnk & Hkd).
    { unfold kept. destruct clear; [exists []|by exists osd]. split_and!; [constructor|set_solver|constructor|set_solver]. }
    cbn [take]. split_and!.
    + apply NoDup_app. split_and!; [done| |by apply NoDup_singleton]. intros l' Hin%Hkd ->%list_elem_of_singleton.
      apply (Hnew l2); [by left|by left].
    + intros l' Hin. apply Hown4. set_solver.
    + exists (osk ++ [o2]). split; [apply Forall2_app; [done|by repeat constructor]|].
      eapply covers_found; [exact Hc3|done|]. intros [_ Hr]. by apply (Hr empty_model).
  - assert (refuted o2) as Href.
    { apply goal_refuted; [|unfold is_decided in Hdec; by rewrite Hsat in Hdec].
      destruct Hc2 as [Hok2 _ _]. rewrite Forall_singleton in Hok2. by destruct Hok2. }
    apply (IH os' done_ osd); try done.
    + apply NoDup_app in Hnd4 as (Ha & Hb & Hcc). apply NoDup_app. split_and!; [done| |done].
      intros l' Hin. apply Hb. set_solver.
    + intros l' Hin. apply Hown4. set_solver.
    + by apply (covers_drop o o2).
Qed.

Lemma branches_ok clear f dc_fuel b l o h rs σ :
  sound_run f -> h !! l = Some o -> frame l h (heap σ) -> answers l o h rs (heap σ) ->
  wp ('(found, result) ← try_subgoals clear f rs [];
      if found : bool then mret result
      else match result with [] => _ ← close_goal dc_fuel b l; mret [l] | _ => mret result end) (post l o h) σ.
Proof.
  intros Hf Hl Hfr (Hnd & Hown & os & Hs & Hc). apply wp_seq.
  assert (Forall obj_ok os) as Hok by (eapply Forall_impl; [apply Hc|]; by intros ? [? _]).
  eapply wp_weaken; [apply (try_subgoals_ok clear f l o h rs os [] []); done || constructor|].
  intros [[found ls]|e] σ1 [Hfr1 Ha]; [|done]. destruct found; [done|]. destruct ls as [|l1 ls]; [|done].
  destruct Ha as (_ & _ & os1 & Hs1 & Hc1). inversion Hs1; subst. apply wp_seq.
  destruct (proj2 Hfr1 o Hl) as (o1 & Hl1 & Hopt). eapply wp_weaken; [by apply (close_goal_ok dc_fuel b l o1)|].
  intros [[]|e] σ2 [Hfr2 Hr]; [|split; [by eapply frame_trans|done]].
  destruct Hr as (o' & Hl' & Hok' & Hopt' & Href). apply wp_ret. split; [by eapply frame_trans|]. split_and!.
  - apply NoDup_singleton.
  - intros l' ->%list_elem_of_singleton. by left.
  - exists [o']. split; [by repeat constructor|]. apply covers_close; try done. by eapply same_options_trans.
Qed.

Lemma answers_one l o h ls h' : answers l o h ls h' ->
  match ls with
  | [g] => exists og, h' !! g = Some og /\ (g = l \/ h !! g = None) /\ covers o [og] /\ obj_ok og
  | _ => True
  end.
Proof.
  destruct ls as [|g [|]]; [done| |done]. intros (_ & Hown & os & Hs & Hc).
  inversion Hs as [|? og ? ? Hg Hnil]; subst. inversion Hnil; subst. exists og. split_and!; [done|apply Hown; by left|done|].
  destruct Hc as [Hok _ _]. rewrite Forall_singleton in Hok. by destruct Hok.
Qed.

#[export] Instance and_then_sound dc_fuel t1 t2 : SoundTactic t1 -> SoundTactic t2 -> SoundTactic (and_then dc_fuel t1 t2).
Proof.
  intros H1 H2 σ l o Hl Ho. eapply wp_load; [done|]. apply wp_seq. eapply wp_weaken; [by apply H1|].
  intros [r1|e] σ1 [Hfr Ha]; [|done]. pose proof (answers_one _ _ _ _ _ Ha) as Hone.
  destruct r1 as [|g [|g2 r1]]; [by apply branches_ok| |by apply branches_ok].
  destruct Hone as (og & Hg & Hgl & Hc & Hok). eapply wp_load; [done|]. destruct (is_decided _); [done|].
  eapply wp_weaken; [by apply H2|]. intros r σ2 Hp. by eapply post_step.
Qed.

(** ** Alternatives *)

Lemma copy_back o o1 :
  same_options (contents o) (contents o1) -> copy_to (copy_goal o) (set_contents (reset_all (contents o1)) o1) = o.
Proof.
  intros [Hc Hm]. destruct o as [[es d m c i p] mc dc], o1 as [[es1 d1 m1 c1 i1 p1] mc1 dc1]. cbn in *. subst.
  unfold copy_to, copy_goal. cbn. rewrite !N.max_0_r. by destruct p.
Qed.

(** What a tactic that throws leaves to the next ones. *)
Lemma or_else_next t t2 ts o o1 l msg σ σ1 :
  run t l [] σ = (Throws (tactic_exception msg), σ1) -> heap σ1 !! l = Some o1 -> same_options (contents o) (contents o1) ->
  or_else_loop (t :: t2 :: ts) (copy_goal o) l [] σ
  = or_else_loop (t2 :: ts) (copy_goal o) l [] (mk_state (<[l := o]> (heap σ1)) (world σ1)).
Proof.
  intros Hrun Hl1 Hopt. change (catch_tactic (run t l []) (fun _ =>
    o1 ← load l; _ ← store l (copy_to (copy_goal o) (set_contents (reset_all (contents o1)) o1));
    or_else_loop (t2 :: ts) (copy_goal o) l []) σ
    = or_else_loop (t2 :: ts) (copy_goal o) l [] (mk_state (<[l := o]> (heap σ1)) (world σ1))).
  unfold catch_tactic. rewrite Hrun, (run_load l o1) by done. by rewrite run_store, copy_back.
Qed.

Lemma or_else_loop_ok ts l o σ :
  Forall SoundTactic ts -> ts <> [] -> heap σ !! l = Some o -> obj_ok o ->
  wp (or_else_loop ts (copy_goal o) l []) (post l o (heap σ)) σ.
Proof.
  intros Hts. revert σ. induction Hts as [|t ts Ht Hts IH]; intros σ Hne Hl Ho; [done|].
  destruct ts as [|t2 ts]; [by apply Ht|]. pose proof (Ht σ l o Hl Ho) as Hrun.
  destruct (run t l [] σ) as [r σ1] eqn:Heq. unfold wp in Hrun. rewrite Heq in Hrun.
  destruct r as [r|[msg| | |]]; [|..]; try (unfold wp; cbn [or_else_loop]; unfold catch_tactic; by rewrite Heq).
  destruct Hrun as [Hfr _]. destruct (proj2 Hfr o Hl) as (o1 & Hl1 & Hopt).
  unfold wp. rewrite (or_else_next t t2 ts o o1 l msg σ σ1) by done. set (σ2 := mk_state _ _).
  assert (frame l (heap σ) (heap σ2)) as Hfr2.
  { eapply frame_trans; [exact Hfr|]. eapply frame_insert; [done|]. by destruct Hopt. }
  assert (heap σ2 !! l = Some o) as Hl2 by apply lookup_insert_eq.
  change (wp (or_else_loop (t2 :: ts) (copy_goal o) l []) (post l o (heap σ)) σ2).
  eapply wp_weaken; [by apply IH|]. intros r σ3. apply post_step; [done|by left|by apply covers_refl].
Qed.

#[export] Instance or_else_sound ts : Forall SoundTactic ts -> ts <> [] -> SoundTactic (or_else ts).
Proof. intros Hts Hne σ l o Hl Ho. eapply wp_load; [done|]. by apply or_else_loop_ok. Qed.

#[export] Instance skip_if_failed_sound t : SoundTactic t -> SoundTactic (skip_if_failed t).
Proof. intros Ht. apply or_else_sound; [|done]. constructor; [done|]. constructor; [apply skip_sound|constructor]. Qed.

(** ** Repetition *)

Lemma repeat_loop_ok dc_fuel fuel t max depth b :
  SoundTactic t -> sound_run (fun l => repeat_loop dc_fuel fuel t max depth l b).
Proof.
  intros Ht. revert depth b. induction fuel as [|fuel IH]; intros depth b σ l o Hl Ho; [apply throws_post|].
  cbn [repeat_loop]. destruct (max <? depth); [by apply answers_self|]. eapply wp_load; [done|].
  apply wp_seq. eapply wp_weaken; [by apply Ht|]. intros [r1|e] σ1 [Hfr Ha]; [|done].
  pose proof (answers_one _ _ _ _ _ Ha) as Hone.
  assert (sound_run (fun g => o ← load g;
    repeat_loop dc_fuel fuel t max (to_unsigned (depth + 1)) g (m_core_enabled (contents o)))) as Hrec.
  { intros σ2 g og Hg Hog. eapply wp_load; [done|]. by apply IH. }
  destruct r1 as [|g [|g2 r1]]; [by apply branches_ok| |by apply branches_ok].
  destruct Hone as (og & Hg & Hgl & Hc & Hok). eapply wp_load; [done|].
  destruct (is_equal _ _); [done|]. destruct (is_decided _); [done|].
  eapply wp_weaken; [by apply IH|]. intros r σ2 Hp. by eapply post_step.
Qed.

#[export] Instance repeat_sound dc_fuel fuel t max : SoundTactic t -> SoundTactic (repeat dc_fuel fuel t max).
Proof. intros Ht σ l o Hl Ho. eapply wp_load; [done|]. by apply repeat_loop_ok. Qed.

(** ** Splitting *)

Lemma copy_goal_self o : copy_goal o = o.
Proof.
  destruct o as [[es d m c i p] mc dc]. unfold copy_goal, copy_to. cbn. rewrite N.max_0_r. by destruct p.
Qed.

Lemma select_clause_found b fs i result len k :
  select_clause b fs i result len = Some k ->
  result = Some k \/ exists j f, k = (i + j)%nat /\ fs !! j = Some f /\ is_or f = true /\ (2 <= length (get_args f))%nat.
Proof.
  revert i result len. induction fs as [|f fs IH]; intros i result len; cbn [select_clause]; [by left|].
  assert (forall result len, select_clause b fs (S i) result len = Some k ->
    result = Some k \/ exists j f', k = (i + j)%nat /\ (f :: fs) !! j = Some f' /\ is_or f' = true
      /\ (2 <= length (get_args f'))%nat) as Hnext.
  { intros r n [Hr|(j & f' & -> & Hj & Hor)]%IH; [by left|right]. exists (S j), f'. split; [lia|done]. }
  destruct (is_or f && Nat.leb 2 _) eqn:Hc; [|apply Hnext]. apply andb_true_iff in Hc as [Hor Hlen%Nat.leb_le].
  assert (exists j f', i = (i + j)%nat /\ (f :: fs) !! j = Some f' /\ is_or f' = true
    /\ (2 <= length (get_args f'))%nat) as Hhere by (exists O, f; split; [lia|done]).
  destruct (negb b); [intros [= <-]; by right|]. destruct (Nat.ltb _ _); [|apply Hnext].
  intros [[= <-]|Hr]%Hnext; by right.
Qed.

Lemma push_back_precision f d (g : goal) : m_precision (push_back f d g) = m_precision g.
Proof. unfold push_back. by destruct (is_true f), (is_false f). Qed.

Lemma quick_loop_precision fuel todo b f d (g : goal) f' g' :
  quick_loop fuel todo b f d g = Ok (f', g') -> m_precision g' = m_precision g.
Proof.
  revert todo b f g. induction fuel as [|fuel IH]; intros [|[curr pol] todo] b f g; cbn [quick_loop];
    try (by intros [= <- <-]); try done.
  destruct (m_inconsistent g); [by intros [= <- <-]|]. destruct (pol && is_and curr); [apply IH|].
  destruct (negb pol && is_or curr); [apply IH|]. destruct (is_not curr); [apply IH|].
  destruct b; [apply IH|]. intros Hr. by rewrite (IH _ _ _ _ Hr), push_back_precision.
Qed.

Lemma update_precision i f d (g g' : goal) : update i f d g = Ok g' -> m_precision g' = m_precision g.
Proof.
  unfold update. destruct (m_inconsistent g); [by intros [= <-]|]. intros ([fr g1] & Hq & Hr)%bind_ok.
  assert (m_precision g1 = m_precision g) as <-.
  { unfold quick_process in Hq. destruct (_ && _); [|by eapply quick_loop_precision].
    injection Hq as _ <-. done. }
  destruct (m_inconsistent g1); [by injection Hr as <-|].
  destruct (is_false fr); [injection Hr as <-; by rewrite push_back_precision|].
  by apply bind_ok in Hr as (es & _ & [= <-]).
Qed.

(** The subgoal for the literal [lit] of the clause at [i]. *)
Definition case_of o (i : nat) (d : list expr) (lit : expr) (o' : goal_obj) : Prop :=
  exists g', o' = mk_obj (inc_depth g') (m_mc o) (m_dc o) /\ update i lit d (contents o) = Ok g'
    /\ replaced_at i lit d (contents o) g' /\ m_precision g' = m_precision (contents o).

Lemma split_loop_ok l o i d e lits dn σ :
  heap σ !! l = Some o -> obj_ok o -> m_inconsistent (contents o) = false -> m_entries (contents o) !! i = Some e ->
  deps e ⊆ GoalUnder.recorded (contents o) d -> Forall (fun lit => wfb lit = true) lits ->
  wp (split_loop l i d lits dn) (fun r σ' => heap σ ⊆ heap σ' /\ exists new os, r = Returns (dn ++ new) /\ NoDup new
    /\ (forall l', l' ∈ new -> heap σ !! l' = None) /\ stored (heap σ') new os /\ Forall2 (case_of o i d) lits os) σ.
Proof.
  intros Hl [Hwf Htr] Hi He Hd Hlits. revert dn σ Hl. induction Hlits as [|lit lits Hlit Hlits IH]; intros dn σ Hl.
  { apply wp_ret. split; [done|]. exists [], []. rewrite app_nil_r. split_and!; try constructor. by intros ? ?%not_elem_of_nil. }
  cbn [split_loop]. eapply wp_load; [done|]. rewrite copy_goal_self.
  destruct (update_replaced i lit d (contents o) e Hwf Htr Hlit Hi He Hd) as (g' & Hup & Hrep).
  rewrite Hup. apply wp_seq. cbn [lift]. apply wp_ret. apply wp_seq. unfold wp at 1, alloc.
  set (o' := mk_obj _ _ _). set (l' := fresh (dom (heap σ))). set (σ1 := mk_state _ _).
  assert (heap σ !! l' = None) as Hl' by (apply not_elem_of_dom, is_fresh).
  assert (heap σ1 !! l' = Some o') as Hl1 by apply lookup_insert_eq.
  assert (heap σ ⊆ heap σ1) as Hsub by (by apply insert_subseteq).
  eapply wp_weaken; [apply (IH (dn ++ [l']) σ1); by eapply lookup_weaken|].
  intros r σ2 (Hsub2 & new & os & -> & Hnd & Hnew & Hs & Hall). split; [by etrans|].
  exists (l' :: new), (o' :: os). split_and!.
  - by rewrite <- app_assoc.
  - constructor; [|done]. intros Hin%Hnew. congruence.
  - intros x [->|Hin]%elem_of_cons; [done|]. apply Hnew in Hin. by eapply lookup_weaken_None.
  - constructor; [|done]. by eapply lookup_weaken.
  - constructor; [|done]. exists g'. split_and!; [done..|]. by eapply update_precision.
Qed.

Lemma cases_cover o i e os :
  obj_ok o -> m_entries (contents o) !! i = Some e -> is_or (form e) = true -> (2 <= length (get_args (form e)))%nat ->
  Forall2 (case_of o i (deps e)) (get_args (form e)) os -> covers o os.
Proof.
  intros [Hwf Htr] He Hor Hlen Hall. pose proof (Forall_lookup_1 _ _ _ _ (proj1 Hwf) He) as Hwe. cbn in Hwe.
  apply wfb_spec in Hwe as [Hw _].
  assert (forall m, tr (as_interp m) (form e) = existsb (tr (as_interp m)) (get_args (form e))) as Hval.
  { intros m. by destruct (or_inv (as_interp m) (form e) Hor Hw) as [_ [_ Hv]]. }
  assert (forall m, satisfies m o <-> rest_true (as_interp m) (eq i) (contents o) /\ tr (as_interp m) (form e) = true) as Hsplit.
  { intros m. unfold satisfies, goal_true, rest_true. rewrite Forall_lookup. split.
    - intros Hm. split; [intros j x _; apply Hm|by eapply Hm].
    - intros [Hr Hte] j x Hx. destruct (decide (i = j)) as [<-|Hn]; [congruence|by eapply Hr]. }
  split.
  - rewrite Forall_forall. intros o' Hin. apply list_elem_of_lookup in Hin as [k Hk].
    destruct (Forall2_lookup_r _ _ _ _ _ Hall Hk) as (lit & _ & g' & -> & _ & Hrep & _). destruct Hrep. by split.
  - intros o' m Hin Hp Hm. apply list_elem_of_lookup in Hin as [k Hk].
    destruct (Forall2_lookup_r _ _ _ _ _ Hall Hk) as (lit & Hlit & g' & -> & _ & Hrep & Hprec). destruct Hrep.
    split; [by unfold sat_preserved in *; rewrite <- Hprec|]. exists m. split; [|done].
    apply Hsplit. apply rep_true in Hm as [Hr Htl]. split; [done|]. rewrite Hval. apply existsb_exists.
    exists lit. split; [|done]. apply list_elem_of_In. by eapply list_elem_of_lookup_2.
  - intros Href. assert (forall lit, lit ∈ get_args (form e) -> exists g', replaced_at i lit (deps e) (contents o) g'
      /\ refuted (mk_obj (inc_depth g') (m_mc o) (m_dc o)) /\ m_precision g' = m_precision (contents o)) as Hcase.
    { intros lit [k Hk]%list_elem_of_lookup. destruct (Forall2_lookup_l _ _ _ _ _ Hall Hk) as (o' & Hk' & g' & -> & _ & Hrep & Hp).
      exists g'. split_and!; [done| |done]. apply Href. by eapply list_elem_of_lookup_2. }
    split.
    + destruct (get_args (form e)) as [|lit lits]; [cbn in Hlen; lia|]. destruct (Hcase lit) as (g' & _ & [Hun _] & Hp); [by left|].
      unfold unsat_preserved in *. cbn in Hun. by rewrite <- Hp.
    + intros m [Hr Hte]%Hsplit. rewrite Hval in Hte. apply existsb_exists in Hte as (lit & Hin & Hlit).
      apply list_elem_of_In in Hin. destruct (Hcase lit Hin) as (g' & Hrep & [_ Hno] & _). destruct Hrep.
      apply (Hno m). by apply rep_true.
Qed.

(** The run on a goal whose clause at [j] is selected. *)
Lemma split_clause_cases b σ l o j e :
  heap σ !! l = Some o -> obj_ok o -> select_clause b (map form (m_entries (contents o))) 0 None 0 = Some j ->
  m_entries (contents o) !! j = Some e -> is_or (form e) = true ->
  wp (split_clause_run b l []) (fun r σ' => exists new os, r = Returns new /\ NoDup new
    /\ (forall l', l' ∈ new -> heap σ !! l' = None) /\ stored (heap σ') new os
    /\ Forall2 (case_of o j (deps e)) (get_args (form e)) os
    /\ (forall l' x, l' <> l -> heap σ !! l' = Some x -> heap σ' !! l' = Some x)
    /\ heap σ' !! l = Some (add_dc (concat_goals new) o)) σ.
Proof.
  intros Hl Ho Hsel He Hor. eapply wp_load; [done|]. rewrite Hsel, (aget_nat _ _ _ He). apply wp_seq. cbn [lift]. apply wp_ret.
  destruct Ho as [Hwf Htr]. pose proof (Forall_lookup_1 _ _ _ _ (proj1 Hwf) He) as Hwe. cbn in Hwe.
  assert (m_inconsistent (contents o) = false) as Hi.
  { destruct (m_inconsistent (contents o)) eqn:Hi; [|done]. destruct (proj2 Hwf Hi) as [d Hes]. rewrite Hes in He.
    apply list_lookup_singleton_Some in He as [_ <-]. done. }
  apply wp_seq. eapply wp_weaken; [apply (split_loop_ok l o j (deps e) e); try done|].
  { unfold GoalUnder.recorded. destruct (m_core_enabled (contents o)) eqn:Hc; [done|].
    destruct Htr as [?|[_ Hp]]; [congruence|]. by rewrite (Forall_lookup_1 _ _ _ _ Hp He). }
  { apply wfb_spec in Hwe as [Hw _]. by destruct (or_inv default_interp (form e) Hor Hw) as [? _]. }
  intros r σ1 (Hsub & new & os & -> & Hnd & Hnew & Hs & Hall). cbn [app].
  assert (heap σ1 !! l = Some o) as Hl1 by (by eapply lookup_weaken).
  eapply wp_load; [done|]. apply wp_store. apply wp_ret. exists new, os. cbn. split_and!; [done..| |done| |].
  - eapply frame_stored; [by eapply (frame_insert l o)| |exact Hs]. intros Hin%Hnew. congruence.
  - intros l' x Hn Hx. rewrite lookup_insert_ne by done. by eapply lookup_weaken.
  - apply lookup_insert_eq.
Qed.

(** The clause that is selected. *)
Lemma selected_clause b o i :
  select_clause b (map form (m_entries (contents o))) 0 None 0 = Some i ->
  exists e, m_entries (contents o) !! i = Some e /\ is_or (form e) = true /\ (2 <= length (get_args (form e)))%nat.
Proof.
  intros [?|(j & f & -> & Hj & Hor & Hlen)]%select_clause_found; [done|].
  apply list_lookup_fmap_Some in Hj as (e & -> & He). by exists e.
Qed.

#[export] Instance split_clause_sound b : SoundTactic (split_clause_tactic b).
Proof.
  intros σ l o Hl Ho. destruct (select_clause b (map form (m_entries (contents o))) 0 None 0) as [i|] eqn:Hsel.
  - destruct (selected_clause b o i Hsel) as (e & He & Hor & Hlen).
    eapply wp_weaken; [by apply (split_clause_cases b σ l o i e)|].
    intros r σ1 (new & os & -> & Hnd & Hnew & Hs & Hall & Hold & Hl1). split.
    + split; [exact Hold|]. intros x Hx. eexists. split; [exact Hl1|]. cbn. by replace x with o by congruence.
    + split_and!; [done|by intros l' ?; right; apply Hnew|]. exists os. split; [done|by eapply cases_cover].
  - eapply wp_load; [done|]. rewrite Hsel. apply throws_post.
Qed.

#[export] Instance mk_split_clause_sound b : SoundTactic (mk_split_clause_tactic b).
Proof. apply clean_sound, split_clause_sound. Qed.

(** ** What is built from sound tactics *)

Inductive strategy (base : tactic -> Prop) : tactic -> Prop :=
  | strategy_base t : base t -> strategy base t
  | strategy_skip : strategy base skip_tactic
  | strategy_fail : strategy base fail_tactic
  | strategy_fail_if_undecided : strategy base fail_if_undecided_tactic
  | strategy_fail_if p : strategy base (fail_if p)
  | strategy_split b : strategy base (mk_split_clause_tactic b)
  | strategy_and_then dc_fuel t1 t2 : strategy base t1 -> strategy base t2 -> strategy base (and_then dc_fuel t1 t2)
  | strategy_or_else ts : ts <> [] -> (forall t, t ∈ ts -> strategy base t) -> strategy base (or_else ts)
  | strategy_repeat dc_fuel fuel t max : strategy base t -> strategy base (repeat dc_fuel fuel t max)
  | strategy_fail_if_branching t n : strategy base t -> strategy base (fail_if_branching t n)
  | strategy_clean t : strategy base t -> strategy base (clean t)
  | strategy_cond p t1 t2 : strategy base t1 -> strategy base t2 -> strategy base (cond p t1 t2)
  | strategy_if_no_unsat_cores t : strategy base t -> strategy base (if_no_unsat_cores t)
  | strategy_if_no_models t : strategy base t -> strategy base (if_no_models t).

Lemma strategy_sound base t : (forall t, base t -> SoundTactic t) -> strategy base t -> SoundTactic t.
Proof.
  intros Hbase Ht. induction Ht; try apply _; [by apply Hbase|]. apply or_else_sound; [|done]. by apply Forall_forall.
Qed.

(** ** Deciding *)

(** What a verdict says of the goal it was asked for. *)
Definition verdict_ok o (v : verdict (M := M)) : Prop :=
  match v_result v with
  | l_true => exists m, satisfies m o
      /\ (m_models_enabled (contents o) = true -> v_md v = Some (converted o m))
  | l_false => forall m, ~ satisfies m o
  | l_undef => True
  end.

(** The part of [check_sat] that catches what the tactic throws. *)
Lemma caught_exec t l error_msg (Q : list nat -> gmap nat goal_obj -> Prop) σ :
  wp (run t l []) (fun r σ' => match r with Returns ls => Q ls (heap σ') | Throws _ => True end)
    (mk_state (heap σ) (reset_statistics t (world σ))) ->
  wp (catch_z3 (r ← exec t l; mret (inr r)) (fun e => mret (inl (exception_msg error_msg e))))
    (fun r σ' => match r with Returns (inr ls) => Q ls (heap σ') | Returns (inl _) => True
                 | Throws e => exists f, e = stuck f end) σ.
Proof.
  unfold wp, catch_z3, exec, catch_tactic, mbind, act_bind. cbn [update_world heap world].
  destruct (run t l [] _) as [[r|[]] σ2]; intros HQ; try done. by eexists.
Qed.

Lemma caught_returns t l error_msg ls σ σ1 :
  run t l [] (mk_state (heap σ) (reset_statistics t (world σ))) = (Returns ls, σ1) ->
  catch_z3 (r ← exec t l; mret (inr r)) (fun e => mret (inl (exception_msg error_msg e))) σ
  = (Returns (inr ls), mk_state (heap σ1) (cleanup t (world σ1))).
Proof.
  intros Hrun. unfold catch_z3, exec, catch_tactic, mbind, act_bind. cbn [update_world heap world]. by rewrite Hrun.
Qed.

Lemma check_sat_ok error_msg inc t σ l o :
  SoundTactic t -> heap σ !! l = Some o -> obj_ok o ->
  wp (check_sat convert empty_model error_msg inc t l) (fun r _ =>
    match r with Returns v => verdict_ok o v | Throws e => exists f, e = stuck f end) σ.
Proof.
  intros Ht Hl Ho. eapply wp_load; [done|]. cbn zeta. apply wp_seq.
  eapply wp_weaken; [apply (caught_exec t l _ (fun ls h => answers l o (heap σ) ls h))|].
  { eapply wp_weaken; [by apply (Ht (mk_state (heap σ) _))|]. by intros [ls|e] σ' [_ Hr]. }
  intros [[msg|ls]|e] σ1 Ha; [done| |done].
  pose proof (answers_one _ _ _ _ _ Ha) as Hone. destruct Ha as (_ & _ & os & Hs & Hc).
  apply wp_seq. eapply all_decided_reads; [exact Hs|]. cbn beta iota.
  apply wp_seq. eapply all_decided_reads; [exact Hs|]. cbn beta iota.
  assert (wp (match ls with
    | r_0 :: _ => o1 ← load r_0;
        mret (mk_verdict l_undef (if m_models_enabled (contents o) then mc_model convert empty_model o1 else None) [] "incomplete")
    | [] => mret (mk_verdict l_undef None [] "incomplete") end)
    (fun r _ => match r with Returns v => verdict_ok o v | Throws e => exists f, e = stuck f end) σ1) as Hundef.
  { destruct Hs as [|g og ls os Hg _]; [done|]. by eapply wp_load. }
  destruct os as [|og [|]]; [done| |done]. inversion Hs as [|g ? ? ? Hg Hnil]; subst. inversion Hnil; subst.
  destruct (is_decided_sat (contents og)) eqn:Hsat.
  - cbn [head default]. eapply wp_load; [done|]. apply wp_seq. unfold wp at 1, get_world. destruct (negb _); [done|].
    apply wp_ret. apply goal_satisfied in Hsat as [Hm Hp]. destruct Hc as [_ Hc _].
    destruct (Hc og empty_model) as (_ & m' & Hm' & Hconv); [by left|done|done|]. exists m'. split; [done|].
    intros Hme. rewrite <- Hconv by done. unfold converted, mc_model. cbn. by destruct (m_mc og).
  - destruct (is_decided_unsat (contents og)) eqn:Hun; [|done]. cbn [head default]. eapply wp_load; [done|].
    destruct Hone as (? & Hg' & _ & _ & Hok). replace x with og in * by congruence.
    assert (exists d, m_entries (contents og) = [mk_entry m_false d]) as [d Hd].
    { apply Hok. by apply andb_true_iff in Hun as [? _]. }
    rewrite Hd. apply wp_ret. destruct Hc as [_ _ Hc].
    destruct Hc as [_ Hc]; [|exact Hc]. intros o' ->%list_elem_of_singleton. by apply goal_refuted.
Qed.

(** C5: A tactic built by the combinators from sound tactics decides rightly:
    when [check_sat] answers true, the goal has a model, and if the goal records
    models the one it returns is what the converters of the goal make of it; when
    it answers false, the goal has no model. Only a fault of the model, no
    exception of a tactic, leaves [check_sat]. *)
Theorem check_sat_correct base t error_msg inc σ l o r σ' :
  (forall t, base t -> SoundTactic t) -> strategy base t -> heap σ !! l = Some o -> obj_ok o ->
  check_sat convert empty_model error_msg inc t l σ = (r, σ') ->
  match r with Returns v => verdict_ok o v | Throws e => exists f, e = stuck f end.
Proof.
  intros Hbase Ht Hl Ho Hrun. pose proof (check_sat_ok error_msg inc t σ l o (strategy_sound base t Hbase Ht) Hl Ho) as Hw.
  unfold wp in Hw. by rewrite Hrun in Hw.
Qed.

(** C30: When a tactic of [or_else] throws, the next ones run on the goal as it
    was: the run is that of [or_else] of the tactics that are left, or of the
    last one alone, from the state in which only the goal has been put back. *)
Theorem or_else_restores t1 t2 ts σ l o msg σ1 :
  SoundTactic t1 -> heap σ !! l = Some o -> obj_ok o -> run t1 l [] σ = (Throws (tactic_exception msg), σ1) ->
  run (or_else (t1 :: t2 :: ts)) l [] σ
  = run (match ts with [] => t2 | _ => or_else (t2 :: ts) end) l [] (mk_state (<[l := o]> (heap σ1)) (world σ1))
  /\ forall l' o', heap σ !! l' = Some o' -> <[l := o]> (heap σ1) !! l' = Some o'.
Proof.
  intros Ht Hl Ho Hrun. pose proof (Ht σ l o Hl Ho) as Hp. unfold wp in Hp. rewrite Hrun in Hp. destruct Hp as [[Hf Hopt] _].
  destruct (Hopt o Hl) as (o1 & Hl1 & Hopt1). split.
  - cbn [run or_else]. rewrite (run_load l o) by done. rewrite (or_else_next t1 t2 ts o o1 l msg σ σ1) by done.
    destruct ts as [|t3 ts]; [done|]. cbn [run or_else]. by rewrite (run_load l o) by apply lookup_insert_eq.
  - intros l' o' Hl'. destruct (decide (l' = l)) as [->|Hn]; [rewrite lookup_insert_eq; congruence|].
    rewrite lookup_insert_ne by done. by apply Hf.
Qed.

(** ** Cores *)

(** Some model satisfies the formulas that depend on no more than [U]. *)
Definition under (U : list expr) o : Prop := exists m, goal_under U (as_interp m) (contents o).
Definition core_kept o o' : Prop := forall U, under U o -> under U o'.

(** One goal, which has the cores of the one that was given. *)
Definition one_kept o (r : outcome (list nat)) (σ' : state) : Prop :=
  match r with Returns ls => exists g o', ls = [g] /\ heap σ' !! g = Some o' /\ core_kept o o' | Throws _ => True end.

Class CoreTactic t : Prop := {
  core_sound : SoundTactic t;
  core_one σ l o : heap σ !! l = Some o -> obj_ok o -> wp (run t l []) (one_kept o) σ
}.

Lemma core_kept_refl o : core_kept o o.
Proof. by intros U. Qed.

Lemma one_kept_trans o o1 r σ' : core_kept o o1 -> one_kept o1 r σ' -> one_kept o r σ'.
Proof.
  intros Hc. destruct r as [ls|]; [|done]. intros (g & o' & -> & Hg & Hk). exists g, o'. split_and!; [done..|].
  intros U HU. by apply Hk, Hc.
Qed.

Lemma core_run t σ l o :
  CoreTactic t -> heap σ !! l = Some o -> obj_ok o ->
  wp (run t l []) (fun r σ' => post l o (heap σ) r σ' /\ one_kept o r σ') σ.
Proof.
  intros [Hs Hk] Hl Ho. specialize (Hs σ l o Hl Ho). specialize (Hk σ l o Hl Ho). unfold wp in *. by destruct (run t l [] σ).
Qed.

Lemma one_self o l σ : heap σ !! l = Some o -> one_kept o (Returns [l]) σ.
Proof. intros Hl. exists l, o. split_and!; [done..|apply core_kept_refl]. Qed.

(** What the goal of a run says. *)
Lemma one_answer l o h ls σ' : post l o h (Returns ls) σ' -> one_kept o (Returns ls) σ' ->
  exists g o', ls = [g] /\ heap σ' !! g = Some o' /\ obj_ok o' /\ core_kept o o'.
Proof.
  intros [_ Ha] (g & o' & -> & Hg & Hk). apply answers_one in Ha as (og & Hg' & _ & _ & Hok).
  exists g, o'. replace og with o' in * by congruence. done.
Qed.

#[export] Instance skip_core : CoreTactic skip_tactic.
Proof. split; [apply skip_sound|]. intros σ l o Hl Ho. by apply wp_ret, one_self. Qed.

#[export] Instance fail_core : CoreTactic fail_tactic.
Proof. split; [apply fail_sound|done]. Qed.

#[export] Instance fail_if_core p : CoreTactic (fail_if p).
Proof. split; [apply fail_if_sound|]. intros σ l o Hl Ho. eapply wp_load; [done|]. destruct (p _); [done|by apply wp_ret, one_self]. Qed.

#[export] Instance fail_if_undecided_core : CoreTactic fail_if_undecided_tactic.
Proof.
  split; [apply fail_if_undecided_sound|]. intros σ l o Hl Ho. eapply wp_load; [done|].
  destruct (negb _); [done|by apply wp_ret, one_self].
Qed.

#[export] Instance cond_core p t1 t2 : CoreTactic t1 -> CoreTactic t2 -> CoreTactic (cond p t1 t2).
Proof.
  intros [] []. split; [by apply cond_sound|]. intros σ l o Hl Ho. eapply wp_load; [done|]. by destruct (p _); auto.
Qed.

#[export] Instance clean_core t : CoreTactic t -> CoreTactic (clean t).
Proof.
  intros [Hs Hk]. split; [by apply clean_sound|]. intros σ l o Hl Ho. apply wp_seq. eapply wp_weaken; [by apply Hk|].
  by intros [ls|e] σ' Hp.
Qed.

#[export] Instance and_then_core dc_fuel t1 t2 : CoreTactic t1 -> CoreTactic t2 -> CoreTactic (and_then dc_fuel t1 t2).
Proof.
  intros H1 H2. split; [apply and_then_sound; apply core_sound|]. intros σ l o Hl Ho. eapply wp_load; [done|]. apply wp_seq.
  eapply wp_weaken; [by apply core_run|]. intros [r1|e] σ1 [Hp Hk]; [|done].
  destruct (one_answer _ _ _ _ _ Hp Hk) as (g & og & -> & Hg & Hok & Hc). eapply wp_load; [done|].
  destruct (is_decided _); [by apply wp_ret|]. eapply wp_weaken; [by apply core_one|]. intros r σ2. by apply one_kept_trans.
Qed.

#[export] Instance or_else_core ts : Forall CoreTactic ts -> ts <> [] -> CoreTactic (or_else ts).
Proof.
  intros Hts Hne. split; [apply or_else_sound; [|done]; eapply Forall_impl; [exact Hts|by intros t []]|].
  intros σ l o Hl Ho. eapply wp_load; [done|]. revert σ Hne Hl.
  induction Hts as [|t ts Ht Hts IH]; intros σ Hne Hl; [done|]. destruct ts as [|t2 ts]; [by apply core_one|].
  pose proof (core_run t σ l o Ht Hl Ho) as Hrun. destruct (run t l [] σ) as [r σ1] eqn:Heq.
  unfold wp in Hrun. rewrite Heq in Hrun. destruct Hrun as [[[_ Hopt] _] Hk].
  destruct r as [r|[msg| | |]]; [|destruct (Hopt o Hl) as (o1 & Hl1 & Hopt1);
    unfold wp; rewrite (or_else_next t t2 ts o o1 l msg σ σ1) by done; apply IH; [done|apply lookup_insert_eq]|..];
    unfold wp; cbn [or_else_loop]; unfold catch_tactic; by rewrite Heq.
Qed.

#[export] Instance repeat_core dc_fuel fuel t max : CoreTactic t -> CoreTactic (repeat dc_fuel fuel t max).
Proof.
  intros Ht. split; [apply repeat_sound, core_sound|]. intros σ l o Hl Ho. eapply wp_load; [done|].
  generalize (m_core_enabled (contents o)). generalize 0. intros depth b. revert depth σ l o Hl Ho.
  induction fuel as [|fuel IH]; intros depth σ l o Hl Ho; [done|]. cbn [repeat_loop].
  destruct (max <? depth); [by apply wp_ret, one_self|]. eapply wp_load; [done|]. apply wp_seq.
  eapply wp_weaken; [by apply core_run|]. intros [r1|e] σ1 [Hp Hk]; [|done].
  destruct (one_answer _ _ _ _ _ Hp Hk) as (g & og & -> & Hg & Hok & Hc). eapply wp_load; [done|].
  destruct (is_equal _ _); [by apply wp_ret|]. destruct (is_decided _); [by apply wp_ret|].
  eapply wp_weaken; [by apply IH|]. intros r σ2. by apply one_kept_trans.
Qed.

Lemma check_sat_core_ok error_msg inc t σ l o :
  CoreTactic t -> heap σ !! l = Some o -> obj_ok o ->
  wp (check_sat convert empty_model error_msg inc t l) (fun r _ =>
    match r with Returns v => v_result v = l_false -> ~ under (v_core v) o | Throws _ => True end) σ.
Proof.
  intros Ht Hl Ho. eapply wp_load; [done|]. cbn zeta. apply wp_seq.
  eapply wp_weaken; [apply (caught_exec t l _ (fun ls h => answers l o (heap σ) ls h
    /\ exists g o', ls = [g] /\ h !! g = Some o' /\ core_kept o o'))|].
  { eapply wp_weaken; [by apply (core_run t (mk_state (heap σ) _) l o)|]. by intros [ls|e] σ' [[_ Ha] Hk]. }
  intros [[msg|ls]|e] σ1 Ha; [done| |done]. destruct Ha as [(_ & _ & os & Hs & [Hok _ _]) (g & og & -> & Hg & Hk)].
  inversion Hs as [|? o1 ? ? Hg' Hnil]; subst. inversion Hnil; subst. replace o1 with og in * by congruence.
  rewrite Forall_singleton in Hok. destruct Hok as [[Hwf Htr] [Hcore _]].
  apply wp_seq. eapply all_decided_reads; [exact Hs|]. cbn beta iota.
  apply wp_seq. eapply all_decided_reads; [exact Hs|]. cbn beta iota.
  destruct (is_decided_sat (contents og)).
  { cbn [head default]. eapply wp_load; [done|]. apply wp_seq. unfold wp at 1, get_world. by destruct (negb _). }
  destruct (is_decided_unsat (contents og)) eqn:Hun; [|by eapply wp_load].
  cbn [head default]. eapply wp_load; [done|]. apply andb_true_iff in Hun as [Hi _].
  destruct (proj2 Hwf Hi) as [d Hd]. rewrite Hd. apply wp_ret. intros _ HU. cbn [v_core deps] in HU.
  destruct (Hk _ HU) as [m Hm]. unfold goal_under in Hm. rewrite Hd, Forall_singleton in Hm. cbn [deps form] in Hm.
  discriminate Hm. destruct (m_core_enabled (contents o)) eqn:Hce; [done|]. destruct Htr as [?|[_ Hp]]; [congruence|].
  rewrite Hd, Forall_singleton in Hp. unfold no_deps in Hp. cbn in Hp. by rewrite Hp.
Qed.

(** Strategies that do not branch. *)
Inductive linear (base : tactic -> Prop) : tactic -> Prop :=
  | linear_base t : base t -> linear base t
  | linear_skip : linear base skip_tactic
  | linear_fail : linear base fail_tactic
  | linear_fail_if_undecided : linear base fail_if_undecided_tactic
  | linear_fail_if p : linear base (fail_if p)
  | linear_and_then dc_fuel t1 t2 : linear base t1 -> linear base t2 -> linear base (and_then dc_fuel t1 t2)
  | linear_or_else ts : ts <> [] -> (forall t, t ∈ ts -> linear base t) -> linear base (or_else ts)
  | linear_repeat dc_fuel fuel t max : linear base t -> linear base (repeat dc_fuel fuel t max)
  | linear_clean t : linear base t -> linear base (clean t)
  | linear_cond p t1 t2 : linear base t1 -> linear base t2 -> linear base (cond p t1 t2).

Lemma linear_core base t : (forall t, base t -> CoreTactic t) -> linear base t -> CoreTactic t.
Proof.
  intros Hbase Ht. induction Ht; try apply _; [by apply Hbase|]. apply or_else_core; [|done]. by apply Forall_forall.
Qed.

(** C29: A tactic built without branching from tactics that keep the cores of a
    goal gives a right core: when [check_sat] answers false, no model satisfies
    the formulas that depend on no more than the assumptions it returns. *)
Theorem check_sat_core_correct base t error_msg inc σ l o v σ' :
  (forall t, base t -> CoreTactic t) -> linear base t -> heap σ !! l = Some o -> obj_ok o ->
  check_sat convert empty_model error_msg inc t l σ = (Returns v, σ') -> v_result v = l_false ->
  forall m, ~ goal_under (v_core v) (as_interp m) (contents o).
Proof.
  intros Hbase Ht Hl Ho Hrun Hv m Hm.
  pose proof (check_sat_core_ok error_msg inc t σ l o (linear_core base t Hbase Ht) Hl Ho) as Hw.
  unfold wp in Hw. rewrite Hrun in Hw. apply (Hw Hv). by exists m.
Qed.

(** ** What a split does to the cores *)

(** The tactic answers the goal with one goal, which is [false], and gives it no
    dependency converter. *)
Definition closes t o : Prop :=
  forall σ g, heap σ !! g = Some o ->
  exists g' og o' σ', run t g [] σ = (Returns [g'], σ') /\ heap σ' !! g' = Some og
    /\ is_decided_unsat (contents og) = true /\ heap σ' !! g = Some o' /\ m_dc o' = None.

Lemma decided_unsat_not_sat o : obj_ok o -> is_decided_unsat (contents o) = true -> is_decided_sat (contents o) = false.
Proof.
  intros Ho Hu. pose proof (goal_refuted o Ho Hu) as [_ Hr]. destruct (is_decided_sat (contents o)) eqn:Hs; [|done].
  apply goal_satisfied in Hs as [Hm _]. by destruct (Hr empty_model).
Qed.

(** Every case is closed, and none is kept. *)
Lemma try_closed t rs os σ :
  SoundTactic t -> stored (heap σ) rs os -> NoDup rs -> Forall (fun o => obj_ok o /\ closes t o) os ->
  wp (try_subgoals true (fun g => run t g []) rs []) (fun r σ' => r = Returns (false, [])
    /\ (forall l o, l ∉ rs -> heap σ !! l = Some o -> heap σ' !! l = Some o)
    /\ forall l, l ∈ rs -> exists o, heap σ' !! l = Some o /\ m_dc o = None) σ.
Proof.
  intros Ht Hs. revert σ Hs. revert os. induction rs as [|g rs IH]; intros os σ Hs Hnd Hok.
  { apply wp_ret. split_and!; [done..|]. by intros l ?%not_elem_of_nil. }
  inversion Hs as [|? og ? os' Hg Hs']; subst. apply NoDup_cons in Hnd as [Hgr Hnd].
  apply Forall_cons in Hok as [[Hog Hcl] Hok]. destruct (Hcl σ g Hg) as (g' & og' & o' & σ1 & Hrun & Hg' & Hun & Ho' & Hdc).
  pose proof (Ht σ g og Hg Hog) as Hp. unfold wp in Hp. rewrite Hrun in Hp. destruct Hp as [Hfr Ha].
  pose proof (answers_one _ _ _ _ _ Ha) as (? & Hg'' & _ & _ & Hok'). replace x with og' in * by congruence.
  cbn [try_subgoals]. apply wp_seq. unfold wp at 1. rewrite Hrun.
  assert (forall p b, p (contents og') = b -> all_decided p [g'] σ1 = (Returns b, σ1)) as Hall.
  { intros p b <-. cbn [all_decided]. by rewrite (run_load g' og'). }
  apply wp_seq. unfold wp at 1. rewrite (Hall is_decided true) by (unfold is_decided; by rewrite Hun, orb_true_r).
  apply wp_seq. unfold wp at 1. rewrite (Hall is_decided_sat false) by by apply decided_unsat_not_sat.
  eapply wp_weaken; [apply (IH os' σ1); [by eapply frame_stored|done..]|].
  intros r σ2 (-> & Hold & Hnew). split_and!; [done| |].
  - intros l o [Hlg Hlr]%not_elem_of_cons Hl. apply Hold; [done|]. by apply Hfr.
  - intros l [->|Hin]%elem_of_cons; [|by apply Hnew]. exists o'. split; [by apply Hold|done].
Qed.

Lemma run_dc_none fuel goals σ :
  (forall l, l ∈ goals -> exists o, heap σ !! l = Some o /\ m_dc o = None) ->
  run_dc (S fuel) (goal_dependency_converter goals) σ = (Returns [], σ).
Proof.
  intros Hg. cbn [run_dc]. assert (forall m : act (list expr), m σ = (Returns [], σ) -> foldl (fun m l =>
    result ← m; o ← load l;
    match m_dc o with Some dc => d ← run_dc fuel dc; mret (result ++ d) | None => mret result end) m goals σ
    = (Returns [], σ)) as Hfold; [|by apply Hfold].
  induction goals as [|l goals IH]; intros m Hm; [done|]. cbn [foldl]. apply IH; [intros l' Hin; apply Hg; by right|].
  destruct (Hg l) as (o & Hl & Hdc); [by left|]. unfold mbind at 1, act_bind at 1. rewrite Hm, (run_load l o) by done.
  by rewrite Hdc.
Qed.

(** A goal with cores that is closed when its converter finds no dependencies. *)
Lemma close_goal_bare fuel l o σ :
  heap σ !! l = Some o ->
  (forall dc, m_dc o = Some dc -> forall o', run_dc fuel dc (mk_state (<[l := o']> (heap σ)) (world σ))
     = (Returns [], mk_state (<[l := o']> (heap σ)) (world σ))) ->
  exists σ' o', close_goal fuel true l σ = (Returns tt, σ') /\ heap σ' !! l = Some o'
    /\ m_entries (contents o') = [mk_entry m_false []] /\ is_decided_unsat (contents o') = true.
Proof.
  intros Hl Hdc. unfold close_goal. rewrite (run_load l o) by done. cbn zeta. rewrite run_store.
  cbn [m_dc set_contents contents]. set (h1 := <[l := _]> (heap σ)).
  assert ((match m_dc o with Some dc => run_dc fuel dc | None => mret [] end) (mk_state h1 (world σ))
    = (Returns [], mk_state h1 (world σ))) as Hrun by (destruct (m_dc o); [by apply Hdc|done]).
  unfold mbind at 1, act_bind at 1. rewrite Hrun. eexists _, _. split; [reflexivity|]. cbn.
  split; [apply lookup_insert_eq|]. split; [|done].
  unfold push_back, entry_of, reset_all. cbn. by destruct (m_core_enabled (contents o)).
Qed.

Lemma split_then_close t dc_fuel b σ l o i e :
  SoundTactic t -> heap σ !! l = Some o -> obj_ok o -> m_core_enabled (contents o) = true -> m_dc o = None ->
  (0 < dc_fuel)%nat -> select_clause b (map form (m_entries (contents o))) 0 None 0 = Some i ->
  m_entries (contents o) !! i = Some e ->
  (forall lit g, lit ∈ get_args (form e) -> update i lit (deps e) (contents o) = Ok g ->
     closes t (mk_obj (inc_depth g) (m_mc o) None)) ->
  wp (run (and_then dc_fuel (mk_split_clause_tactic b) t) l []) (fun r σ' => r = Returns [l] /\ exists o',
    heap σ' !! l = Some o' /\ m_entries (contents o') = [mk_entry m_false []] /\ is_decided_unsat (contents o') = true) σ.
Proof.
  intros Ht Hl Ho Hce Hdc Hfuel Hsel He Hcl. destruct (selected_clause b o i Hsel) as (e0 & He0 & Hor & Hlen).
  assert (e0 = e) as -> by congruence. cbn [run and_then]. unfold and_then_run. eapply wp_load; [done|]. rewrite Hce.
  apply wp_seq. cbn [run mk_split_clause_tactic clean split_clause_tactic].
  apply wp_seq. eapply wp_weaken; [by apply (split_clause_cases b σ l o i e)|].
  intros r σ1 (new & os & -> & Hnd & Hnew & Hs & Hall & _ & Hl1).
  apply wp_seq. unfold wp at 1, update_world. apply wp_ret. set (σ1' := mk_state (heap σ1) _).
  assert (Forall (fun o' => obj_ok o' /\ closes t o') os) as Hok.
  { apply Forall_lookup. intros k o' Hk. destruct (Forall2_lookup_r _ _ _ _ _ Hall Hk) as (lit & Hlit & g & -> & Hup & Hrep & _).
    rewrite Hdc. split; [destruct Hrep; by split|]. apply (Hcl lit); [by eapply list_elem_of_lookup_2|done]. }
  assert (length new = length (get_args (form e))) as Hn.
  { rewrite (Forall2_length _ _ _ Hs). by rewrite (Forall2_length _ _ _ Hall). }
  destruct new as [|g1 [|g2 new]]; [cbn in Hn; lia..|]. set (rs := g1 :: g2 :: new) in *.
  apply wp_seq. eapply wp_weaken; [by apply (try_closed t rs os σ1')|]. intros r σ2 (-> & Hold & Hnone). cbv iota beta.
  assert (l ∉ rs) as Hlr by (intros Hin%Hnew; congruence).
  destruct (close_goal_bare dc_fuel l (add_dc (concat_goals rs) o) σ2) as (σ3 & o' & Hclose & Hl3 & Hes & Hu).
  - apply Hold; [done|]. exact Hl1.
  - cbn. rewrite Hdc. intros dc [= <-] o'. destruct dc_fuel as [|fuel]; [lia|]. apply run_dc_none.
    intros l' Hin. cbn. rewrite lookup_insert_ne by (by intros ->). by apply Hnone.
  - apply wp_seq. unfold wp at 1. rewrite Hclose. apply wp_ret. split; [done|]. by exists o'.
Qed.

(** C32: A split into cases loses the core. On a goal that records cores and has
    no dependency converter yet, "and-then split-clause t", where [t] answers
    each case with [false] and gives it no dependency converter, answers that the
    goal is unsatisfiable with no assumption in the core: the converter that the
    split leaves collects those of the cases, not the assumptions their [false]
    depends on. When every formula depends on some assumption that is wrong,
    since without assumptions nothing is said at all. *)
Theorem split_loses_core t dc_fuel b error_msg inc σ l o i e :
  SoundTactic t -> heap σ !! l = Some o -> obj_ok o -> m_core_enabled (contents o) = true -> m_dc o = None ->
  (0 < dc_fuel)%nat -> select_clause b (map form (m_entries (contents o))) 0 None 0 = Some i ->
  m_entries (contents o) !! i = Some e ->
  (forall lit g, lit ∈ get_args (form e) -> update i lit (deps e) (contents o) = Ok g ->
     closes t (mk_obj (inc_depth g) (m_mc o) None)) ->
  (exists v σ', check_sat convert empty_model error_msg inc (and_then dc_fuel (mk_split_clause_tactic b) t) l σ = (Returns v, σ')
     /\ v_result v = l_false /\ v_core v = [])
  /\ (Forall (fun e' => deps e' <> []) (m_entries (contents o)) -> forall I, goal_under [] I (contents o)).
Proof.
  intros Ht Hl Ho Hce Hdc Hfuel Hsel He Hcl. split.
  - set (t' := and_then _ _ _).
    pose proof (split_then_close t dc_fuel b (mk_state (heap σ) (reset_statistics t' (world σ))) l o i e
      Ht Hl Ho Hce Hdc Hfuel Hsel He Hcl) as Hrun. fold t' in Hrun. unfold wp in Hrun.
    destruct (run t' l [] _) as [r σ1] eqn:Heq. destruct Hrun as (-> & o' & Hl1 & Hes & Hu).
    unfold check_sat. rewrite (run_load l o) by done. cbn zeta. unfold mbind at 1, act_bind at 1.
    rewrite (caught_returns t' l error_msg [l] σ σ1 Heq). set (σ2 := mk_state _ _).
    assert (heap σ2 !! l = Some o') as Hl2 by done.
    assert (forall A p (k : bool -> act A), (all_decided p [l] ≫= k) σ2 = k (p (contents o')) σ2) as Hall.
    { intros A p k. unfold mbind, act_bind. cbn [all_decided]. by rewrite (run_load l o'). }
    rewrite !Hall, Hu. assert (is_decided_sat (contents o') = false) as -> by (unfold is_decided_sat; by rewrite Hes).
    cbn [head default]. rewrite (run_load l o') by done. rewrite Hes, Hce. eexists _, _. split; [reflexivity|done].
  - intros Hd I. eapply Forall_impl; [exact Hd|]. intros e' Hne Hsub. cbn in Hne. destruct (deps e') as [|d ds]; [done|].
    destruct (not_elem_of_nil d). apply Hsub. by left.
Qed.

(** ** Termination of [repeat] *)

Definition in_fuel (inv : state -> Prop) {A} (r : outcome A) σ : Prop := r <> Throws (stuck OutOfFuel) /\ inv σ.
(** Runs from a state of [inv] that end in one, and do not lack fuel. *)
Definition ends (inv : state -> Prop) {A} (m : act A) : Prop := forall σ, inv σ -> wp m (in_fuel inv) σ.

Lemma ends_bind inv {A B} (m : act A) (k : A -> act B) : ends inv m -> (forall a, ends inv (k a)) -> ends inv (m ≫= k).
Proof.
  intros Hm Hk σ Hσ. apply wp_seq. eapply wp_weaken; [by apply Hm|]. intros [a|e] σ1 [He Hi]; [by apply Hk|].
  split; [|done]. congruence.
Qed.

Lemma ends_ret inv {A} (a : A) : ends inv (mret a).
Proof. by intros σ Hσ. Qed.

Lemma ends_load inv l : ends inv (load l).
Proof. intros σ Hσ. unfold wp, load. by destruct (heap σ !! l). Qed.

Lemma ends_all_decided inv p ls : ends inv (all_decided p ls).
Proof.
  destruct ls as [|l [|]]; [apply ends_ret| |apply ends_ret]. apply ends_bind; [apply ends_load|]. intros a. apply ends_ret.
Qed.

Lemma ends_try_subgoals inv clear f rs dn :
  (forall g, ends inv (f g)) -> ends inv (try_subgoals clear f rs dn).
Proof.
  intros Hf. revert dn. induction rs as [|g rs IH]; intros dn; [apply ends_ret|]. cbn [try_subgoals].
  apply ends_bind; [apply Hf|]. intros r2. apply ends_bind; [apply ends_all_decided|]. intros [|]; [|apply IH].
  apply ends_bind; [apply ends_all_decided|]. intros [|]; [apply ends_ret|apply IH].
Qed.

Lemma repeat_loop_ends inv dc_fuel fuel t max depth g b :
  (forall l, ends inv (run t l [])) -> (forall b l, ends inv (close_goal dc_fuel b l)) ->
  0 <= depth <= max + 1 -> max + 1 < 2 ^ 32 -> max + 2 - depth <= Z.of_nat fuel ->
  ends inv (repeat_loop dc_fuel fuel t max depth g b).
Proof.
  intros Ht Hclose. revert depth g b. induction fuel as [|fuel IH]; intros depth g b Hd Hmax Hfuel; [lia|]. cbn [repeat_loop].
  destruct (max <? depth) eqn:Hlt; [apply ends_ret|]. apply Z.ltb_ge in Hlt.
  apply ends_bind; [apply ends_load|]. intros o. apply ends_bind; [apply Ht|]. intros r1.
  assert (to_unsigned (depth + 1) = depth + 1) as -> by (unfold to_unsigned; apply Z.mod_small; lia).
  assert (forall g b, ends inv (repeat_loop dc_fuel fuel t max (depth + 1) g b)) as Hrec by (intros; apply IH; lia).
  assert (ends inv ('(found, result) ← try_subgoals false (fun g =>
      o ← load g; repeat_loop dc_fuel fuel t max (depth + 1) g (m_core_enabled (contents o))) r1 [];
    if found : bool then mret result
    else match result with [] => _ ← close_goal dc_fuel b g; mret [g] | _ => mret result end)) as Hmany.
  { apply ends_bind; [apply ends_try_subgoals; intros g'; apply ends_bind; [apply ends_load|intros; apply Hrec]|].
    intros [[|] ls]; [apply ends_ret|]. destruct ls; [|apply ends_ret].
    apply ends_bind; [apply Hclose|intros; apply ends_ret]. }
  destruct r1 as [|r1_0 [|]]; [exact Hmany| |exact Hmany]. apply ends_bind; [apply ends_load|]. intros o'.
  destruct (is_equal _ _); [apply ends_ret|]. destruct (is_decided _); [apply ends_ret|apply Hrec].
Qed.

(** C31: [repeat] with a limit below the largest unsigned number ends: a fuel of
    two more than the limit is enough, whatever the tactic answers, provided the
    tactic ends, and the dependency converters that are run when a goal is
    closed. *)
Theorem repeat_terminates inv dc_fuel fuel t max l σ :
  (forall l, ends inv (run t l [])) -> (forall b l, ends inv (close_goal dc_fuel b l)) ->
  0 <= max < 2 ^ 32 - 1 -> max + 2 <= Z.of_nat fuel -> inv σ ->
  (run (repeat dc_fuel fuel t max) l [] σ).1 <> Throws (stuck OutOfFuel).
Proof.
  intros Ht Hclose Hmax Hfuel Hσ.
  assert (ends inv (run (repeat dc_fuel fuel t max) l [])) as Hends.
  { apply ends_bind; [apply ends_load|]. intros o. apply repeat_loop_ends; try done; lia. }
  specialize (Hends σ Hσ). unfold wp in Hends. destruct (run _ _ _ _). by destruct Hends.
Qed.

(** ** Tactics of one goal *)

(** The tactic that replaces the goal by what [f] makes of it; an exception of
    the rewriter is one of the tactic. *)
Definition in_place (f : goal -> res goal) : tactic :=
  mk_tactic (fun l result =>
    o ← load l;
    match f (contents o) with
    | Ok g => _ ← store l (set_contents g o); mret (result ++ [l])
    | Fault Z3Exception => throw (tactic_exception "")
    | Fault e => throw (stuck e)
    end) id id.

(** The goal says the same, with the same options. *)
Definition same_goal (g g' : goal) : Prop :=
  goal_wf g' /\ tracked g' /\ same_options g g' /\ m_precision g' = m_precision g
  /\ forall I, goal_true I g' <-> goal_true I g.

Lemma in_place_sound f :
  (forall g g', goal_wf g -> tracked g -> f g = Ok g' -> same_goal g g') -> SoundTactic (in_place f).
Proof.
  intros Hf σ l o Hl [Hwf Htr]. eapply wp_load; [done|].
  destruct (f (contents o)) as [g|e] eqn:Hr; [|by destruct e; apply throws_post].
  destruct (Hf (contents o) g Hwf Htr Hr) as (Hwf' & Htr' & Hopt & Hprec & Hiff).
  apply wp_store, wp_ret. set (o' := set_contents _ o).
  split; [by eapply frame_insert|]. split_and!; [apply NoDup_singleton| |].
  - intros l' ->%list_elem_of_singleton. by left.
  - exists [o']. split; [constructor; [apply lookup_insert_eq|constructor]|]. split.
    + rewrite Forall_singleton. by split.
    + intros x m ->%list_elem_of_singleton Hp Hm. split; [unfold sat_preserved in *; cbn in Hp; by rewrite <- Hprec|].
      exists m. split; [by apply Hiff|done].
    + intros Hall. destruct (Hall o') as [Hu Hn]; [by left|].
      split; [unfold unsat_preserved in *; cbn in Hu; by rewrite <- Hprec|]. intros m Hm. apply (Hn m). by apply Hiff.
Qed.

Lemma in_place_core f :
  (forall g g', goal_wf g -> tracked g -> f g = Ok g' ->
     same_goal g g' /\ forall U I, goal_under U I g -> goal_under U I g') -> CoreTactic (in_place f).
Proof.
  intros Hf. split; [apply in_place_sound; intros g g' Hwf Htr Hr; by apply Hf|].
  intros σ l o Hl [Hwf Htr]. eapply wp_load; [done|]. destruct (f (contents o)) as [g|e] eqn:Hr; [|by destruct e].
  apply wp_store, wp_ret. exists l, (set_contents g o). split_and!; [done|apply lookup_insert_eq|].
  intros U [m Hm]. exists m. by apply (Hf (contents o)).
Qed.

Lemma in_place_closes f o g :
  f (contents o) = Ok g -> is_decided_unsat g = true -> m_dc o = None -> closes (in_place f) o.
Proof.
  intros Hf Hu Hdc σ l Hl. exists l, (set_contents g o), (set_contents g o). eexists. split.
  - cbn [run in_place]. rewrite (run_load l o) by done. rewrite Hf. by rewrite run_store.
  - split_and!; [apply lookup_insert_eq|done|apply lookup_insert_eq|done].
Qed.
End Sound.

(** ** Equality of goals *)

Lemma mark_forms_spec fs visited num visited' num' :
  mark_forms fs visited num = (visited', num') -> NoDup visited -> length visited = num ->
  NoDup visited' /\ length visited' = num' /\ forall f, f ∈ visited' <-> f ∈ visited \/ f ∈ fs.
Proof.
  revert visited num. induction fs as [|f fs IH]; intros visited num; cbn [mark_forms].
  { intros [= <- <-] Hnd Hl. split_and!; [done..|]. set_solver. }
  case_bool_decide as Hf; intros Hr Hnd Hl.
  - destruct (IH _ _ Hr Hnd Hl) as (H1 & H2 & H3). split_and!; [done..|]. intros x. rewrite H3, elem_of_cons. naive_solver.
  - destruct (IH _ _ Hr) as (H1 & H2 & H3); [by constructor|cbn; lia|]. split_and!; [done..|].
    intros x. rewrite H3, !elem_of_cons. tauto.
Qed.

Lemma count_forms_spec visited1 fs visited2 num :
  NoDup visited2 -> length visited2 = num -> visited2 ⊆ visited1 ->
  match count_forms visited1 fs visited2 num with
  | Some num2 => fs ⊆ visited1 /\ exists v, NoDup v /\ length v = num2 /\ v ⊆ visited1
                   /\ forall f, f ∈ v <-> f ∈ visited2 \/ f ∈ fs
  | None => ~ fs ⊆ visited1
  end.
Proof.
  revert visited2 num. induction fs as [|f fs IH]; intros visited2 num Hnd Hl Hsub; cbn [count_forms].
  { split; [set_solver|]. exists visited2. split_and!; [done..|]. set_solver. }
  case_bool_decide as Hf; [|case_bool_decide as H1; cbn [negb]].
  - specialize (IH _ _ Hnd Hl Hsub). destruct (count_forms _ _ _ _); [|set_solver].
    destruct IH as (Hfs & v & Hv1 & Hv2 & Hv3 & Hv4). split; [set_solver|]. exists v. split_and!; [done..|].
    intros x. rewrite Hv4, elem_of_cons. naive_solver.
  - specialize (IH (f :: visited2) (S num)). destruct (count_forms _ _ _ _).
    + destruct IH as (Hfs & v & Hv1 & Hv2 & Hv3 & Hv4); [by constructor|cbn; lia|set_solver|].
      split; [set_solver|]. exists v. split_and!; [done..|]. intros x. rewrite Hv4, !elem_of_cons. tauto.
    + intros Hs. apply IH; [by constructor|cbn; lia|set_solver|set_solver].
  - set_solver.
Qed.

(** Two goals are equal if they have as many formulas, and the same ones. *)
Lemma is_equal_spec s1 s2 :
  is_equal s1 s2 = true <->
  length (m_entries s1) = length (m_entries s2)
  /\ forall f, f ∈ map form (m_entries s1) <-> f ∈ map form (m_entries s2).
Proof.
  unfold is_equal. destruct (Nat.eqb_spec (length (m_entries s1)) (length (m_entries s2))) as [Hl|Hl]; cbn [negb]; [|naive_solver].
  destruct (mark_forms _ _ _) as [v1 n1] eqn:Hm.
  destruct (mark_forms_spec _ _ _ _ _ Hm) as (Hnd1 & Hn1 & Hv1); [constructor|done|].
  pose proof (count_forms_spec v1 (map form (m_entries s2)) [] 0) as Hc.
  destruct (count_forms _ _ _ _) as [n2|].
  - destruct Hc as (Hsub & v & Hndv & Hlv & Hvsub & Hv); [constructor|done|set_solver|].
    rewrite Nat.eqb_eq. split.
    + intros Hn. split; [done|]. intros f. split; [|intros Hf%Hsub; apply Hv1 in Hf; set_solver].
      intros Hf. assert (v ≡ₚ v1) as Hperm by (apply submseteq_length_Permutation; [by apply NoDup_submseteq|lia]).
      assert (f ∈ v) as Hfv by (rewrite Hperm; apply Hv1; by right). apply Hv in Hfv. set_solver.
    + intros [_ Heq]. rewrite <- Hn1, <- Hlv. apply Permutation_length, NoDup_Permutation; [done..|].
      intros x. rewrite Hv1, Hv. set_solver.
  - split; [done|]. intros [_ Heq]. destruct Hc; [constructor|done|set_solver|]. intros x Hx. apply Hv1. right. by apply Heq.
Qed.
