(* ===== verification/Expr2Var.v ===== *)
(** The map from atoms to Boolean variables: expr2var (ast/expr2var.h, .cpp) and
    atom2bool_var (sat/smt/atom2bool_var.h, .cpp), a vector of entries with an
    index by node and scopes; [pop] removes by swapping with the last entry. *)
From S2P Require Import Prelude Ast.

(** [m_id2map] is indexed by the node's id, so by the node. *)
Record expr2var := mk_expr2var {
  m_id2map : list (expr * nat);
  m_mapping : list (expr * nat);
  m_recent_exprs : list expr;
  m_recent_lim : list nat;
  m_interpreted_vars : bool
}.

Definition empty_expr2var : expr2var := mk_expr2var [] [] [] [] false.

Definition insert (n : expr) (v : nat) (x : expr2var) : res expr2var :=
  let interpreted := m_interpreted_vars x || negb (is_uninterp_const n) in
  match map_find (m_id2map x) n with
  | None =>
      Ok (mk_expr2var (map_insert (m_id2map x) n (length (m_mapping x))) (m_mapping x ++ [(n, v)])
            (m_recent_exprs x ++ [n]) (m_recent_lim x) interpreted)
  | Some idx =>
      mapping ← aset (m_mapping x) (Z.of_nat idx) (n, v);
      Ok (mk_expr2var (m_id2map x) mapping (m_recent_exprs x ++ [n]) (m_recent_lim x) interpreted)
  end.

(** [to_var], and [to_bool_var] with [None] for [null_bool_var]. *)
Definition to_bool_var (n : expr) (x : expr2var) : res (option nat) :=
  match map_find (m_id2map x) n with
  | None => Ok None
  | Some idx => e ← aget (m_mapping x) (Z.of_nat idx); Ok (Some e.2)
  end.

Definition push (x : expr2var) : expr2var :=
  mk_expr2var (m_id2map x) (m_mapping x) (m_recent_exprs x)
    (m_recent_lim x ++ [length (m_recent_exprs x)]) (m_interpreted_vars x).

(** The body of the loop of [pop]: the entry of [n] is replaced by the last. *)
Definition remove_entry (n : expr) (m : list (expr * nat) * list (expr * nat))
    : res (list (expr * nat) * list (expr * nat)) :=
  let '(id2map, mapping) := m in
  match map_find id2map n, last mapping with
  | Some idx, Some back =>
      '(id2map, mapping) ←
        (if Nat.eqb (S idx) (length mapping) then Ok (id2map, mapping)
         else mapping' ← aset mapping (Z.of_nat idx) back; Ok (map_insert id2map back.1 idx, mapping'));
      Ok (map_remove id2map n, removelast mapping)
  | None, _ => Fault OutOfBounds
  | _, None => Fault EmptyVector
  end.

Definition pop (num_scopes : nat) (x : expr2var) : res expr2var :=
  if Nat.eqb num_scopes 0 then Ok x
  else if Nat.ltb (length (m_recent_lim x)) num_scopes then Fault OutOfBounds
  else
    let new_lvl := (length (m_recent_lim x) - num_scopes)%nat in
    sz ← aget (m_recent_lim x) (Z.of_nat new_lvl);
    '(id2map, mapping) ← for_in remove_entry (drop sz (m_recent_exprs x)) (m_id2map x, m_mapping x);
    Ok (mk_expr2var id2map mapping (take sz (m_recent_exprs x)) (take new_lvl (m_recent_lim x))
          (m_interpreted_vars x)).

(** [mk_inv] of atom2bool_var: the literal of each entry, and its negation. *)
Definition mk_inv (x : expr2var) (lit2expr : list (option expr)) : res (list (option expr)) :=
  for_in (fun e l =>
    l ← aset l (2 * Z.of_nat e.2) (Some e.1);
    aset l (2 * Z.of_nat e.2 + 1) (Some (m_mk_not e.1)))
  (m_mapping x) lit2expr.

(** ** The map it stands for *)

(** Every entry is indexed under its node. *)
Definition map_ok (m : list (expr * nat) * list (expr * nat)) : Prop :=
  forall n idx, map_find m.1 n = Some idx <-> exists v, m.2 !! idx = Some (n, v).

Definition e2v_ok (x : expr2var) : Prop := map_ok (m_id2map x, m_mapping x).

(** The variable of [n], if it has one. *)
Definition lookup_var (n : expr) (x : expr2var) : option nat :=
  idx ← map_find (m_id2map x) n; snd <$> m_mapping x !! idx.

Lemma empty_expr2var_ok : e2v_ok empty_expr2var.
Proof. intros n idx. cbn. split; [done|]. by intros [v Hv]. Qed.

Lemma to_bool_var_ok n x : e2v_ok x -> to_bool_var n x = Ok (lookup_var n x).
Proof.
  intros Hx. unfold to_bool_var, lookup_var. destruct (map_find (m_id2map x) n) as [idx|] eqn:Hi; [|done].
  apply Hx in Hi as [v Hv]. cbn in Hv |- *. rewrite (aget_nat _ _ _ Hv), Hv. done.
Qed.

Lemma map_ok_snoc id2map mapping n v :
  map_ok (id2map, mapping) -> map_find id2map n = None ->
  map_ok (map_insert id2map n (length mapping), mapping ++ [(n, v)]).
Proof.
  unfold map_ok. cbn [fst snd]. intros Hm Hn k idx. rewrite map_find_insert. case_decide as Hk.
  - subst k. split.
    + intros [= <-]. exists v. by rewrite lookup_app_r, Nat.sub_diag by lia.
    + intros [w Hw]. apply lookup_app_Some in Hw as [Hw|[Hle Hw]].
      * assert (map_find id2map n = Some idx) as Hf by (apply Hm; by exists w). congruence.
      * apply list_lookup_singleton_Some in Hw as [Hw _]. f_equal. lia.
  - rewrite Hm. split; intros [w Hw]; exists w; [by apply lookup_app_l_Some|].
    apply lookup_app_Some in Hw as [Hw|[Hle Hw]]; [done|].
    apply list_lookup_singleton_Some in Hw as [_ [= -> ->]]. done.
Qed.

(** Inserting a node that has no variable. *)
Lemma insert_new n v x :
  e2v_ok x -> lookup_var n x = None ->
  exists x', insert n v x = Ok x' /\ e2v_ok x'
    /\ m_recent_exprs x' = m_recent_exprs x ++ [n] /\ m_recent_lim x' = m_recent_lim x
    /\ m_mapping x' = m_mapping x ++ [(n, v)]
    /\ forall k, lookup_var k x' = if decide (n = k) then Some v else lookup_var k x.
Proof.
  intros Hx Hn. assert (map_find (m_id2map x) n = None) as Hf.
  { unfold lookup_var in Hn. destruct (map_find (m_id2map x) n) as [idx|] eqn:Hi; [|done].
    apply Hx in Hi as [w Hw]. cbn in Hw, Hn. by rewrite Hw in Hn. }
  unfold insert. rewrite Hf. eexists. split; [done|]. split_and!; try done.
  - by apply map_ok_snoc.
  - intros k. unfold lookup_var. cbn [m_id2map m_mapping]. rewrite map_find_insert. case_decide as Hk; cbn.
    + by rewrite lookup_app_r, Nat.sub_diag by lia.
    + destruct (map_find (m_id2map x) k) as [idx|] eqn:Hi; [|done]. cbn.
      apply Hx in Hi as [w Hw]. cbn in Hw. by rewrite lookup_app_l by by eapply lookup_lt_Some.
Qed.

(** ** Scopes *)

(** The entry [idx] replaced by the last one, which is removed. *)
Definition swap_remove (idx : nat) (b : expr * nat) (m : list (expr * nat)) : list (expr * nat) :=
  removelast (<[idx := b]> m).

Lemma swap_lookup idx b m j :
  (idx < length m)%nat ->
  swap_remove idx b m !! j
  = if decide (S j < length m)%nat then (if decide (j = idx) then Some b else m !! j) else None.
Proof.
  intros Hi. unfold swap_remove. rewrite removelast_firstn_len, length_insert.
  case_decide as Hj; [|apply lookup_take_None; lia].
  rewrite lookup_take_lt by lia. case_decide as He; [subst; by apply list_lookup_insert_eq|].
  by apply list_lookup_insert_ne.
Qed.

Lemma swap_length idx b m : length (swap_remove idx b m) = (length m - 1)%nat.
Proof. unfold swap_remove. rewrite removelast_firstn_len, length_take, length_insert. lia. Qed.

Lemma map_ok_key m n v w i j :
  map_ok m -> m.2 !! i = Some (n, v) -> m.2 !! j = Some (n, w) -> i = j.
Proof.
  intros Hm Hi Hj. assert (map_find m.1 n = Some i) as H1 by (apply Hm; by exists v).
  assert (map_find m.1 n = Some j) as H2 by (apply Hm; by exists w). congruence.
Qed.

Lemma remove_entry_ok n id2map mapping idx v :
  map_ok (id2map, mapping) -> mapping !! idx = Some (n, v) ->
  exists id2map' b, last mapping = Some b
    /\ remove_entry n (id2map, mapping) = Ok (id2map', swap_remove idx b mapping)
    /\ map_ok (id2map', swap_remove idx b mapping).
Proof.
  intros Hm Hi. pose proof (lookup_lt_Some _ _ _ Hi) as Hlt.
  assert (map_find id2map n = Some idx) as Hf by (apply (Hm n idx); by exists v).
  destruct (last mapping) as [[k w]|] eqn:Hb; [|apply last_None in Hb as ->; cbn in Hlt; lia].
  assert (mapping !! (length mapping - 1)%nat = Some (k, w)) as Hlast.
  { rewrite last_lookup in Hb. rewrite <- Hb. f_equal. lia. }
  unfold remove_entry. rewrite Hf, Hb. destruct (Nat.eqb_spec (S idx) (length mapping)) as [He|He].
  - assert (idx = length mapping - 1)%nat as -> by lia. rewrite Hlast in Hi. injection Hi as -> ->.
    assert (swap_remove (length mapping - 1) (n, v) mapping = removelast mapping) as Hs
      by (unfold swap_remove; by rewrite list_insert_id).
    exists (map_remove id2map n), (n, v). cbn. rewrite Hs. split_and!; [done..|]. rewrite <- Hs.
    intros u j. cbn [fst snd]. rewrite map_find_remove, swap_lookup by lia. case_decide as Hu.
    + subst u. split; [done|]. intros [x Hx]. case_decide; [|done]. case_decide; [lia|].
      assert (j = length mapping - 1)%nat by (by eapply (map_ok_key _ _ _ _ _ _ Hm)). lia.
    + rewrite (Hm u j). cbn. split; intros [x Hx].
      * exists x. pose proof (lookup_lt_Some _ _ _ Hx). case_decide; [by case_decide; [lia|]|].
        assert (j = length mapping - 1)%nat as -> by lia. congruence.
      * case_decide; [|done]. case_decide; [lia|]. by exists x.
  - rewrite (aset_nat _ _ _ Hlt). cbn [mbind res_bind fst]. eexists _, (k, w). split_and!; [done..|].
    assert (k <> n) as Hkn.
    { intros ->. assert (length mapping - 1 = idx)%nat by (by eapply (map_ok_key _ _ _ _ _ _ Hm)). lia. }
    intros u j. cbn [fst snd]. rewrite map_find_remove, map_find_insert, swap_lookup by lia.
    case_decide as Hu; [|case_decide as Hk].
    + subst u. split; [done|]. intros [x Hx]. case_decide; [|done]. case_decide; [congruence|].
      assert (j = idx) by (by eapply (map_ok_key _ _ _ _ _ _ Hm)). lia.
    + subst u. split.
      * intros [= <-]. exists w. rewrite decide_True by lia. by rewrite decide_True.
      * intros [x Hx]. case_decide; [|done]. case_decide; [by subst|].
        assert (j = length mapping - 1)%nat by (by eapply (map_ok_key _ _ _ _ _ _ Hm)). lia.
    + rewrite (Hm u j). cbn. split; intros [x Hx].
      * exists x. pose proof (lookup_lt_Some _ _ _ Hx). case_decide.
        -- case_decide; [subst; congruence|done].
        -- assert (j = length mapping - 1)%nat as -> by lia. congruence.
      * case_decide; [|done]. case_decide; [congruence|]. by exists x.
Qed.

(** The entries from [k] on are those of [ns]. *)
Definition tail_of (k : nat) (old mapping : list (expr * nat)) (ns : list expr) : Prop :=
  take k mapping = old /\ length mapping = (k + length ns)%nat /\ NoDup ns
  /\ forall n, n ∈ ns -> exists i v, (k <= i)%nat /\ mapping !! i = Some (n, v).

Lemma remove_entries_ok k old ns id2map mapping :
  map_ok (id2map, mapping) -> tail_of k old mapping ns ->
  exists id2map', for_in remove_entry ns (id2map, mapping) = Ok (id2map', old)
    /\ map_ok (id2map', old).
Proof.
  revert id2map mapping. induction ns as [|n ns IH]; intros id2map mapping Hm (Ht & Hl & Hd & Hn).
  { exists id2map. rewrite take_ge in Ht by (cbn in Hl; lia). by subst. }
  apply NoDup_cons in Hd as [Hnn Hd]. destruct (Hn n) as (i & v & Hi & Hv); [left|].
  destruct (remove_entry_ok n id2map mapping i v Hm Hv) as (id2map1 & b & Hb & Hr & Hm1).
  cbn [for_in]. rewrite Hr. cbn [mbind res_bind]. apply IH; [done|].
  pose proof (lookup_lt_Some _ _ _ Hv) as Hlt. cbn in Hl. split_and!; try done.
  - rewrite <- Ht. apply list_eq. intros j. destruct (decide (j < k)%nat) as [Hj|Hj].
    + rewrite !lookup_take_lt by done. rewrite swap_lookup by done.
      rewrite decide_True by lia. by rewrite decide_False by lia.
    + rewrite !(proj2 (lookup_take_None _ _ _)) by lia. done.
  - rewrite swap_length. lia.
  - intros u Hu. destruct (Hn u) as (j & w & Hj & Hw); [by right|].
    assert (j <> i) as Hji. { intros ->. rewrite Hv in Hw. congruence. }
    pose proof (lookup_lt_Some _ _ _ Hw). destruct (decide (S j < length mapping)%nat) as [Hs|Hs].
    + exists j, w. split; [done|]. rewrite swap_lookup by done.
      rewrite decide_True by done. by rewrite decide_False.
    + exists i, w. split; [done|]. rewrite swap_lookup by done.
      rewrite decide_True by lia. rewrite decide_True by done.
      rewrite last_lookup in Hb. rewrite <- Hb, <- Hw. f_equal. lia.
Qed.

(** Nodes that had no variable, with the variables they are given. *)
Definition insert_all (l : list (expr * nat)) (x : expr2var) : res expr2var :=
  for_in (fun e => insert e.1 e.2) l x.

Lemma insert_all_new l x :
  e2v_ok x -> NoDup l.*1 -> (forall n, n ∈ l.*1 -> lookup_var n x = None) ->
  exists x', insert_all l x = Ok x' /\ e2v_ok x' /\ m_mapping x' = m_mapping x ++ l
    /\ m_recent_exprs x' = m_recent_exprs x ++ l.*1 /\ m_recent_lim x' = m_recent_lim x.
Proof.
  revert x. induction l as [|[n v] l IH]; intros x Hx Hd Hn.
  { exists x. by rewrite !app_nil_r. }
  apply NoDup_cons in Hd as [Hnl Hd]. destruct (insert_new n v x Hx) as (x1 & H1 & Hx1 & Hr1 & Hl1 & Hm1 & Hv1);
    [apply Hn; left|].
  destruct (IH x1 Hx1 Hd) as (x' & H' & Hx' & Hm' & Hr' & Hl').
  { intros k Hk. rewrite Hv1. rewrite decide_False by (intros ->; done). apply Hn. by right. }
  exists x'. unfold insert_all. cbn [for_in fst snd]. rewrite H1. split_and!; try done.
  - by rewrite Hm', Hm1, <- app_assoc.
  - by rewrite Hr', Hr1, <- app_assoc.
  - congruence.
Qed.

(** [pop] of the atom map undoes everything inserted since the matching
    [push]: the entries, their order and every variable are as before, although
    [pop] removes by swapping with the last entry. *)
Theorem push_insert_pop x l :
  e2v_ok x -> NoDup l.*1 -> (forall n, n ∈ l.*1 -> lookup_var n x = None) ->
  exists x1 x', insert_all l (push x) = Ok x1 /\ pop 1 x1 = Ok x'
    /\ e2v_ok x' /\ m_mapping x' = m_mapping x /\ m_recent_exprs x' = m_recent_exprs x
    /\ m_recent_lim x' = m_recent_lim x /\ forall n, lookup_var n x' = lookup_var n x.
Proof.
  intros Hx Hd Hn. destruct (insert_all_new l (push x) Hx Hd Hn) as (x1 & H1 & Hx1 & Hm1 & Hr1 & Hl1).
  cbn [push m_mapping m_recent_exprs m_recent_lim] in Hm1, Hr1, Hl1.
  destruct (remove_entries_ok (length (m_mapping x)) (m_mapping x) l.*1 (m_id2map x1) (m_mapping x1))
    as (id2map' & Hf & Hok); [exact Hx1| |].
  { rewrite Hm1. split_and!; [by rewrite take_app_length|by rewrite length_app, length_fmap|done|].
    intros n (e & -> & He)%list_elem_of_fmap. apply list_elem_of_lookup in He as [i Hi].
    exists (length (m_mapping x) + i)%nat, e.2. split; [lia|].
    rewrite lookup_app_r by lia. rewrite <- surjective_pairing, <- Hi. f_equal. lia. }
  exists x1. unfold pop. cbn [Nat.eqb]. rewrite Hl1, length_app. cbn [length].
  destruct (Nat.ltb_spec (length (m_recent_lim x) + 1) 1) as [?|_]; [lia|].
  replace (length (m_recent_lim x) + 1 - 1)%nat with (length (m_recent_lim x)) by lia.
  rewrite (aget_nat _ _ (length (m_recent_exprs x)))
    by (by rewrite lookup_app_r, Nat.sub_diag by lia).
  cbn [mbind res_bind]. rewrite Hr1, drop_app_length, Hf. cbn [mbind res_bind].
  eexists. split; [done|]. split; [done|]. cbn. rewrite !take_app_length. split_and!; try done.
  intros n. unfold lookup_var. cbn. destruct (map_find id2map' n) as [idx|] eqn:Hi.
  - apply Hok in Hi as [v Hv]. cbn in Hv. assert (map_find (m_id2map x) n = Some idx) as ->; [|done].
    apply Hx. by exists v.
  - destruct (map_find (m_id2map x) n) as [idx|] eqn:Hj; [|done]. apply Hx in Hj as [v Hv]. cbn in Hv.
    assert (map_find id2map' n = Some idx) as Hk by (apply Hok; by exists v). congruence.
Qed.
