(* ===== verification/Goal2Sat.v ===== *)
(** goal2sat (sat/tactic/goal2sat.cpp): the translation of formulas into clauses
    by definitions (Tseitin), a machine with a stack of frames and a stack of
    results, with a cache of the subformulas already defined and its scopes.
    The extensions are at their defaults, off: EUF and xor solving, cardinality
    constraints, proof logging, and the cut simplifier. *)
From S2P Require Import Prelude Ast Goal SatTypes Expr2Var.

(** A formula whose arguments are being translated, [idx] of them so far. *)
Record frame := mk_frame { fr_t : expr; fr_root : bool; fr_sign : bool; fr_idx : nat }.

Record g2s_params := { ite_extra : bool; default_external : bool }.

Section Goal2Sat.
Context {S : Type} `{SatSolver S} (p : g2s_params).

(** [m_lit2app] is keyed by the literal, of which the code takes the index; the
    frame on top is the first. *)
Record imp := mk_imp {
  frame_stack : list frame;
  result_stack : list literal;
  app2lit : list (expr * literal);
  lit2app : list (literal * expr);
  cache_trail : list expr;
  cache_lim : list nat;
  interface_vars : list expr;
  solver : S;
  atoms : expr2var;
  lit_of_true : option literal;
  unhandled_funs : list func_decl;
  num_scopes : nat
}.

Definition set_frames (fs : list frame) (st : imp) : imp :=
  mk_imp fs (result_stack st) (app2lit st) (lit2app st) (cache_trail st) (cache_lim st)
    (interface_vars st) (solver st) (atoms st) (lit_of_true st) (unhandled_funs st) (num_scopes st).
Definition set_results (rs : list literal) (st : imp) : imp :=
  mk_imp (frame_stack st) rs (app2lit st) (lit2app st) (cache_trail st) (cache_lim st)
    (interface_vars st) (solver st) (atoms st) (lit_of_true st) (unhandled_funs st) (num_scopes st).
Definition set_cache (a2l : list (expr * literal)) (l2a : list (literal * expr))
    (trail : list expr) (lim : list nat) (st : imp) : imp :=
  mk_imp (frame_stack st) (result_stack st) a2l l2a trail lim
    (interface_vars st) (solver st) (atoms st) (lit_of_true st) (unhandled_funs st) (num_scopes st).
Definition set_solver (s : S) (st : imp) : imp :=
  mk_imp (frame_stack st) (result_stack st) (app2lit st) (lit2app st) (cache_trail st) (cache_lim st)
    (interface_vars st) s (atoms st) (lit_of_true st) (unhandled_funs st) (num_scopes st).
Definition set_atoms (a : expr2var) (st : imp) : imp :=
  mk_imp (frame_stack st) (result_stack st) (app2lit st) (lit2app st) (cache_trail st) (cache_lim st)
    (interface_vars st) (solver st) a (lit_of_true st) (unhandled_funs st) (num_scopes st).
Definition set_true (l : literal) (st : imp) : imp :=
  mk_imp (frame_stack st) (result_stack st) (app2lit st) (lit2app st) (cache_trail st) (cache_lim st)
    (interface_vars st) (solver st) (atoms st) (Some l) (unhandled_funs st) (num_scopes st).
Definition set_unhandled (fs : list func_decl) (st : imp) : imp :=
  mk_imp (frame_stack st) (result_stack st) (app2lit st) (lit2app st) (cache_trail st) (cache_lim st)
    (interface_vars st) (solver st) (atoms st) (lit_of_true st) fs (num_scopes st).
Definition set_scopes (n : nat) (st : imp) : imp :=
  mk_imp (frame_stack st) (result_stack st) (app2lit st) (lit2app st) (cache_trail st) (cache_lim st)
    (interface_vars st) (solver st) (atoms st) (lit_of_true st) (unhandled_funs st) n.

(** ** Clauses and variables *)

Definition mk_clause (c : clause) (st : imp) : imp := set_solver (add_clause c (solver st)) st.

(** Root clauses differ in their status only, which the solver may log. *)
Definition mk_root_clause (c : clause) (st : imp) : imp := mk_clause c st.

Definition mk_clauses (cs : list clause) (st : imp) : imp := foldl (fun st c => mk_clause c st) st cs.

Definition new_var (ext : bool) (st : imp) : nat * imp :=
  let '(v, s) := add_var ext (solver st) in (v, set_solver s st).

Definition mk_true (st : imp) : literal * imp :=
  match lit_of_true st with
  | Some l => (l, st)
  | None =>
      let '(v, st) := new_var false st in
      let l := mk_literal v false in
      (l, mk_clause [l] (set_true l st))
  end.

(** ** Scopes and the cache *)

Fixpoint force_push_loop (n : nat) (st : imp) : imp :=
  match n with
  | O => st
  | Datatypes.S n =>
      force_push_loop n
        (set_cache (app2lit st) (lit2app st) (cache_trail st)
          (cache_lim st ++ [length (cache_trail st)])
          (set_atoms (Expr2Var.push (atoms st)) st))
  end.
Definition force_push (st : imp) : imp := set_scopes 0 (force_push_loop (num_scopes st) st).

Definition push (st : imp) : imp := set_scopes (Datatypes.S (num_scopes st)) st.

(** The loop of [pop], from the last entry of the trail down. *)
Definition uncache_trail (ts : list expr) (m : list (expr * literal) * list (literal * expr)) :=
  foldl (fun '(a2l, l2a) t =>
    match map_find a2l t with
    | Some l => (map_remove a2l t, map_remove l2a l)
    | None => (a2l, l2a)
    end) m (rev ts).

Definition pop (n : nat) (st : imp) : res imp :=
  if Nat.leb n (num_scopes st) then Ok (set_scopes (num_scopes st - n) st)
  else
    let n := (n - num_scopes st)%nat in
    atoms' ← Expr2Var.pop n (atoms st);
    if Nat.ltb (length (cache_lim st)) n then Fault OutOfBounds
    else
      let lvl := (length (cache_lim st) - n)%nat in
      k ← aget (cache_lim st) (Z.of_nat lvl);
      let '(a2l, l2a) := uncache_trail (drop k (cache_trail st)) (app2lit st, lit2app st) in
      Ok (set_scopes 0 (set_atoms atoms'
            (set_cache a2l l2a (take k (cache_trail st)) (take lvl (cache_lim st)) st))).

Definition uncache (l : literal) (st : imp) : imp :=
  match map_find (lit2app st) l with
  | Some t => set_cache (map_remove (app2lit st) t) (map_remove (lit2app st) l)
                (cache_trail st) (cache_lim st) st
  | None => st
  end.

Definition cache (t : expr) (l : literal) (st : imp) : imp :=
  let st := force_push st in
  set_cache (map_insert (app2lit st) t l) (map_insert (lit2app st) l t) (cache_trail st ++ [t])
    (cache_lim st) st.

Definition mk_bool_var (t : expr) (st : imp) : res (nat * imp) :=
  let '(v, st) := new_var true (force_push st) in
  a ← insert t v (atoms st);
  Ok (v, set_atoms a st).

(** ** Atoms *)

Definition signed (l : literal) (sign : bool) : literal := if sign then neg l else l.

(** The end of a translation: a unit clause, or a result. *)
Definition finish (l : literal) (root : bool) (st : imp) : imp :=
  if root then mk_root_clause [l] st else set_results (result_stack st ++ [l]) st.

(** The literal of a formula that is not a connective. *)
Definition atom_literal (t : expr) (st : imp) : res (literal * imp) :=
  v ← to_bool_var t (atoms st);
  match v with
  | Some v => Ok (mk_literal v false, set_solver (set_eliminated v false (solver st)) st)
  | None =>
      if is_true t then Ok (mk_true st)
      else if is_false t then let '(l, st) := mk_true st in Ok (neg l, st)
      else match t with
      | Var _ _ => Fault Z3Exception
      | App d _ =>
          let st := if is_uninterp_const t then st
                    else set_unhandled (unhandled_funs st ++ [d]) st in
          '(v, st) ← mk_bool_var t st;
          let ext := default_external p || negb (is_uninterp_const t)
                     || bool_decide (t ∈ interface_vars st) in
          Ok (mk_literal v false, if ext then set_solver (set_external v (solver st)) st else st)
      end
  end.

Definition convert_atom (t : expr) (root sign : bool) (st : imp) : res imp :=
  '(l, st) ← atom_literal t st; Ok (finish (signed l sign) root st).

(** [None] when the formula has no literal yet. *)
Definition process_cached (t : expr) (root sign : bool) (st : imp) : option imp :=
  match map_find (app2lit st) t with
  | None => None
  | Some l => Some (finish (signed l sign) root st)
  end.

Definition push_frame (t : expr) (root sign : bool) (st : imp) : imp :=
  set_frames (mk_frame t root sign 0 :: frame_stack st) st.

(** [true]: done; [false]: a frame was pushed. *)
Definition visit (t : expr) (root sign : bool) (st : imp) : res (bool * imp) :=
  let atom := st ← convert_atom t root sign st; Ok (true, st) in
  let frame := Ok (false, push_frame t root sign st) in
  match t with
  | Var _ _ => atom
  | App d args =>
      match process_cached t root sign st with
      | Some st => Ok (true, st)
      | None =>
          match kind d with
          | Basic (OP_NOT | OP_OR | OP_AND | OP_ITE | OP_XOR | OP_IMPLIES) => frame
          | Basic OP_EQ => if is_bool (get_arg t 1) then frame else atom
          | Basic OP_DISTINCT => Fault Z3Exception
          | _ => atom
          end
      end
  end.

(** ** Connectives *)

(** The last [num] results, and the stack without them. *)
Definition top_results (num : nat) (st : imp) : list literal :=
  drop (length (result_stack st) - num) (result_stack st).
Definition shrink_results (num : nat) (st : imp) : imp :=
  set_results (take (length (result_stack st) - num) (result_stack st)) st.

(** A definition of [t]: a new variable, in the cache, and its clauses. *)
Definition define (t : expr) (cached : literal -> literal) (cs : literal -> list clause)
    (phase : literal -> S -> S) (sign : bool) (st : imp) : imp :=
  let '(k, st) := new_var false st in
  let l := mk_literal k false in
  let st := mk_clauses (cs l) (cache t (cached l) st) in
  let st := set_solver (phase l (solver st)) st in
  set_results (result_stack st ++ [signed l sign]) st.

Definition no_phase (l : literal) (s : S) : S := s.

Definition or_clauses (lits : list literal) (l : literal) : list clause :=
  map (fun x => [neg x; l]) lits ++ [lits ++ [neg l]].

Definition convert_or (t : expr) (root sign : bool) (st : imp) : imp :=
  let num := length (get_args t) in
  let lits := top_results num st in
  if root then
    shrink_results num
      (if sign then mk_clauses (map (fun l => [neg l]) (take num (result_stack st))) st
       else mk_root_clause (result_stack st) st)
  else define t (fun l => l) (or_clauses lits) (fun l => set_phase (neg l)) sign (shrink_results num st).

Definition and_clauses (lits : list literal) (l : literal) : list clause :=
  map (fun x => [neg l; x]) lits ++ [map neg lits ++ [l]].

Definition convert_and (t : expr) (root sign : bool) (st : imp) : imp :=
  let num := length (get_args t) in
  let lits := top_results num st in
  if root then
    shrink_results num
      (if sign then
         let st := set_results (map neg (take num (result_stack st)) ++ drop num (result_stack st)) st in
         mk_root_clause (result_stack st) st
       else mk_clauses (map (fun l => [l]) (take num (result_stack st))) st)
  else define t (fun l => l) (and_clauses lits) set_phase sign (shrink_results num st).

Definition ite_clauses (c t e l : literal) : list clause :=
  [[neg l; neg c; t]; [neg l; c; e]; [l; neg c; neg t]; [l; c; neg e]]
  ++ (if ite_extra p then [[neg t; neg e; l]; [t; e; neg l]] else []).

(** The code takes its operands from a stack that holds them. *)
Definition convert_ite (n : expr) (root sign : bool) (st : imp) : res imp :=
  match top_results 3 st with
  | [c; t; e] =>
      let st := shrink_results 3 st in
      Ok (if root then
            if sign then mk_clauses [[neg c; neg t]; [c; neg e]] st
            else mk_clauses [[neg c; t]; [c; e]] st
          else define n (fun l => l) (ite_clauses c t e) no_phase sign st)
  | _ => Fault OutOfBounds
  end.

Definition implies_clauses (l1 l2 l : literal) : list clause := [[neg l; neg l1; l2]; [l1; l]; [neg l2; l]].

Definition convert_implies (t : expr) (root sign : bool) (st : imp) : res imp :=
  match top_results 2 st with
  | [l1; l2] =>
      let st := shrink_results 2 st in
      Ok (if root then
            if sign then mk_clauses [[l1]; [neg l2]] st else mk_clauses [[neg l1; l2]] st
          else define t (fun l => l) (implies_clauses l1 l2) no_phase sign st)
  | _ => Fault OutOfBounds
  end.

Definition iff_clauses (l1 l2 l : literal) : list clause :=
  [[neg l; l1; neg l2]; [neg l; neg l1; l2]; [l; l1; l2]; [l; neg l1; neg l2]].

(** [t] is an equality or an exclusive or; for the second, [sign] is flipped. *)
Definition convert_iff2 (t : expr) (root sign : bool) (st : imp) : res imp :=
  match top_results 2 st with
  | [l2; l1] =>
      let st := shrink_results 2 st in
      Ok (if root then
            if sign then mk_clauses [[l1; l2]; [neg l1; neg l2]] st
            else mk_clauses [[l1; neg l2]; [neg l1; l2]] st
          else define t (fun l => if is_app_of t (Basic OP_XOR) then neg l else l)
                 (iff_clauses l1 l2) no_phase sign st)
  | _ => Fault OutOfBounds
  end.

(** Other kinds are unreachable. *)
Definition convert (t : expr) (root sign : bool) (st : imp) : res imp :=
  match t with
  | App d _ =>
      match kind d with
      | Basic OP_OR => Ok (convert_or t root sign st)
      | Basic OP_AND => Ok (convert_and t root sign st)
      | Basic OP_ITE => convert_ite t root sign st
      | Basic OP_EQ => convert_iff2 t root sign st
      | Basic OP_XOR => convert_iff2 t root (negb sign) st
      | Basic OP_IMPLIES => convert_implies t root sign st
      | _ => Fault OutOfBounds
      end
  | Var _ _ => Fault OutOfBounds
  end.

(** ** The machine *)

Definition pop_frame (st : imp) : imp := set_frames (tail (frame_stack st)) st.

(** The inner loop of [process]: visit the arguments from [idx] on, in the frame
    on top, until one pushes a frame; then translate the formula. *)
Fixpoint visit_args (t : expr) (root sign : bool) (args : list expr) (idx : nat) (below : list frame)
    (st : imp) : res imp :=
  match args with
  | [] => st ← convert t root sign st; Ok (pop_frame st)
  | arg :: args =>
      let st := set_frames (mk_frame t root sign (Datatypes.S idx) :: below) st in
      '(finished, st) ← visit arg false false st;
      if (finished : bool) then visit_args t root sign args (Datatypes.S idx) below st else Ok st
  end.

(** One iteration of the loop of [process]. *)
Definition step (st : imp) : res imp :=
  match frame_stack st with
  | [] => Fault EmptyVector
  | mk_frame t root sign idx :: below =>
      match (if Nat.eqb idx 0 then process_cached t root sign st else None) with
      | Some st => Ok (pop_frame st)
      | None =>
          if is_not t then
            '(_, st) ← visit (get_arg t 0) root (negb sign) (pop_frame st); Ok st
          else visit_args t root sign (drop idx (get_args t)) idx below st
      end
  end.

(** The frames above the first [sz]; [fuel] bounds the iterations. *)
Fixpoint process_loop (fuel sz : nat) (st : imp) : res imp :=
  match fuel with
  | O => Fault OutOfFuel
  | Datatypes.S fuel =>
      if Nat.ltb sz (length (frame_stack st)) then st ← step st; process_loop fuel sz st
      else Ok st
  end.

Definition process (n : expr) (is_root : bool) (st : imp) : res imp :=
  let sz := length (frame_stack st) in
  '(finished, st) ← visit n is_root false st;
  if (finished : bool) then Ok st else process_loop (2 * size n) sz st.

(** [internalize]: the literal of a formula, recorded in the atom map. *)
Definition internalize (n : expr) (st : imp) : res (literal * imp) :=
  st ← process n false st;
  match last (result_stack st) with
  | None => Fault EmptyVector
  | Some l =>
      let st := set_results (removelast (result_stack st)) st in
      v ← to_bool_var n (atoms st);
      match v with
      | None =>
          if sign l then Ok (l, st)
          else
            let st := force_push st in
            a ← insert n (var l) (atoms st);
            Ok (l, set_solver (set_external (var l) (solver st)) (set_atoms a st))
      | Some _ => Ok (l, st)
      end
  end.

(** ** Goals *)

Record goal_state := mk_goal_state {
  g_imp : imp;
  dep2asm : list (expr * literal);
  fresh_id : nat
}.

Definition with_imp (st : imp) (g : goal_state) : goal_state :=
  mk_goal_state st (dep2asm g) (fresh_id g).

(** [process] of one asserted formula, which starts with no results. *)
Definition process_root (n : expr) (g : goal_state) : res goal_state :=
  match result_stack (g_imp g) with
  | [] => st ← process n true (g_imp g); Ok (with_imp st g)
  | _ => Fault OutOfBounds
  end.

(** The literal that stands for an assumption; one that is not a constant gets
    a fresh constant, which is asserted to be equivalent to it. *)
Definition insert_dep (dep0 dep : expr) (sign : bool) (g : goal_state) : res goal_state :=
  '(new_dep, g) ←
    (if is_uninterp_const dep then Ok (dep, g)
     else
       let new_dep := App (fresh_bool (fresh_id g)) [] in
       let st := g_imp g in
       let st := mk_imp (frame_stack st) (result_stack st) (app2lit st) (lit2app st) (cache_trail st)
                   (cache_lim st) (new_dep :: interface_vars st) (solver st) (atoms st)
                   (lit_of_true st) (unhandled_funs st) (num_scopes st) in
       g ← process_root (m_mk_eq new_dep dep) (mk_goal_state st (dep2asm g) (Datatypes.S (fresh_id g)));
       Ok (new_dep, g));
  st ← convert_atom new_dep false false (g_imp g);
  match last (result_stack st) with
  | None => Fault EmptyVector
  | Some l =>
      Ok (mk_goal_state (set_results (removelast (result_stack st)) st)
            (map_insert (dep2asm g) dep0 (signed l sign)) (fresh_id g))
  end.

(** The loop over the assumptions of [f]: [None] when [f] is one of them and the
    formula is skipped, else the disjunction's further members. *)
Fixpoint insert_deps (f : expr) (ds fmls : list expr) (g : goal_state)
    : res (option (list expr) * goal_state) :=
  match ds with
  | [] => Ok (Some fmls, g)
  | d :: ds =>
      let sign := is_not d in
      let d1 := if sign then get_arg d 0 else d in
      g ← insert_dep d d1 sign g;
      if bool_decide (d = f) then Ok (None, g)
      else insert_deps f ds (fmls ++ [if sign then d1 else m_mk_not d]) g
  end.

Definition assert_entry (e : goal_entry) (g : goal_state) : res goal_state :=
  match deps e with
  | [] => process_root (form e) g
  | ds =>
      '(fmls, g) ← insert_deps (form e) ds [form e] g;
      match fmls with
      | None => Ok g
      | Some fmls => process_root (m_mk_or fmls) g
      end
  end.

(** [operator()]; the interface variables come from collect_boolean_interface,
    and [scoped_reset] forgets them and the cache at the end. *)
Definition goal2sat (interface : list expr) (goal : list goal_entry) (g : goal_state) : res goal_state :=
  let st := g_imp g in
  let st := mk_imp (frame_stack st) (result_stack st) (app2lit st) (lit2app st) (cache_trail st)
              (cache_lim st) (interface ++ interface_vars st) (solver st) (atoms st)
              (lit_of_true st) (unhandled_funs st) (num_scopes st) in
  g ← for_in assert_entry goal (with_imp st g);
  let st := g_imp g in
  Ok (with_imp (mk_imp (frame_stack st) (result_stack st) [] [] (cache_trail st) (cache_lim st) []
        (solver st) (atoms st) (lit_of_true st) (unhandled_funs st) (num_scopes st)) g).

(** The translator over a fresh map, and a solver [s]. *)
Definition initial_imp (s : S) : imp := mk_imp [] [] [] [] [] [] [] s empty_expr2var None [] 0.
End Goal2Sat.
