(* ===== verification/Goal2SatOk.v ===== *)
(** The translation into clauses is correct: the clauses have a model over given
    values of the atoms exactly when the formulas are true of them, and the
    machine ends within twice the size of the formula. *)
From S2P Require Import Prelude Ast AstSem AstFacts Goal SatTypes Expr2Var Goal2Sat.

(** ** The Boolean skeleton *)

(** The value of a formula whose atoms have the values [V]. *)
Fixpoint beval (V : expr -> bool) (e : expr) : bool :=
  match e with
  | Var _ _ => V e
  | App d args =>
      match kind d, args with
      | Basic OP_NOT, [a] => negb (beval V a)
      | Basic OP_OR, _ => existsb (beval V) args
      | Basic OP_AND, _ => forallb (beval V) args
      | Basic OP_ITE, [c; t; f] => if beval V c then beval V t else beval V f
      | Basic OP_XOR, [a; b] => xorb (beval V a) (beval V b)
      | Basic OP_IMPLIES, [a; b] => implb (beval V a) (beval V b)
      | Basic OP_EQ, [a; b] => if is_bool b then Bool.eqb (beval V a) (beval V b) else V e
      | _, _ => if is_true e then true else if is_false e then false else V e
      end
  end.

(** The translation handles the formula: no variables, no [distinct], and
    every atom is Boolean. *)
Fixpoint convertible (e : expr) : bool :=
  match e with
  | Var _ _ => false
  | App d args =>
      let all n := Nat.eqb (length args) n && forallb convertible args in
      match kind d with
      | Basic OP_NOT => all 1%nat
      | Basic (OP_OR | OP_AND) => forallb convertible args
      | Basic OP_ITE => all 3%nat
      | Basic (OP_XOR | OP_IMPLIES) => all 2%nat
      | Basic OP_EQ => if is_bool (get_arg e 1) then all 2%nat else Nat.eqb (length args) 2
      | Basic OP_DISTINCT => false
      | _ => is_bool e
      end
  end.

(** [visit] pushes a frame for it. *)
Definition connective (e : expr) : bool :=
  match e with
  | Var _ _ => false
  | App d _ =>
      match kind d with
      | Basic (OP_NOT | OP_OR | OP_AND | OP_ITE | OP_XOR | OP_IMPLIES) => true
      | Basic OP_EQ => is_bool (get_arg e 1)
      | _ => false
      end
  end.

Lemma beval_atom V e :
  convertible e = true -> connective e = false ->
  beval V e = if is_true e then true else if is_false e then false else V e.
Proof.
  destruct e as [i s|d args]; [done|]. cbn [convertible connective]. intros Hc Hn.
  destruct (kind d) as [[]|k|] eqn:Hk; try discriminate; cbn [beval]; rewrite Hk; try done.
  - rewrite Hn in Hc. destruct args as [|a [|b [|]]]; try discriminate Hc.
    change (is_bool b = false) in Hn. rewrite Hn.
    assert (is_true (App d [a; b]) = false) as -> by (by apply bool_decide_eq_false).
    assert (is_false (App d [a; b]) = false) as -> by (by apply bool_decide_eq_false). done.
Qed.

(** A connective has its arguments' sorts, and their values decide its own. *)
Lemma connective_cases e :
  connective e = true -> wfb e = true ->
  exists d k args, e = App d args /\ kind d = Basic k /\ Forall (fun x => wfb x = true) args
    /\ forall I, tr I e = truth (default (VBool false) (basic_apply k (map (eval I) args))).
Proof.
  destruct e as [i s|d args]; [done|]. cbn [connective]. intros Hc [Hw Hs]%wfb_spec.
  pose proof Hw as (Hsort & _ & Hargs)%wf_app. unfold op_sort in Hsort.
  destruct (kind d) as [k|k|] eqn:Hk; try discriminate Hc. exists d, k, args. split_and!; try done.
  - assert (all_same BoolSort (map get_sort args) = true) as Hall.
    { destruct k; try discriminate Hc; cbn [basic_sort] in Hsort;
        try (by destruct (all_same _ _));
        destruct args as [|x [|y [|z [|]]]]; try discriminate Hsort; cbn [map] in *;
        unfold is_bool, get_arg, is_bool_sort in Hc; cbn [get_args nth] in Hc;
        repeat (case_match; try discriminate); simplify_eq/=; unfold all_same; cbn;
        rewrite ?bool_decide_eq_true_2 by congruence; done. }
    apply all_same_spec, Forall_map in Hall. rewrite Forall_forall in *.
    intros x Hx. apply wfb_spec. auto.
  - intros I. unfold tr. cbn [eval]. unfold decl_apply. rewrite Hk.
    destruct k; try discriminate Hc; cbn [basic_sort] in Hsort; try done;
      destruct args as [|x [|y [|z [|]]]]; try discriminate Hsort; cbn [map] in *; try done;
      repeat (case_match; try discriminate); done.
Qed.

(** Over the truth values of an interpretation it is the truth value. *)
Lemma beval_tr I e : wfb e = true -> convertible e = true -> beval (tr I) e = tr I e.
Proof.
  induction e as [i s|d args IH] using expr_induction; [done|]. intros Hw Hc.
  destruct (connective (App d args)) eqn:Hn.
  - destruct (connective_cases _ Hn Hw) as (d' & k & args' & [= <- <-] & Hk & Hargs & Hv). rewrite Hv.
    assert (Forall (fun x => convertible x = true -> beval (tr I) x = tr I x) args) as Hall.
    { rewrite Forall_forall in *. intros x Hx. auto. }
    clear IH Hv. cbn [convertible connective] in Hc, Hn.
    destruct k; rewrite Hk in Hc, Hn; try discriminate; cbn [beval]; rewrite Hk; cbn [basic_apply].
    all: try (rewrite ?forallb_tr, ?existsb_tr; cbn [default truth];
      clear -Hall Hc; induction Hall as [|x args Hx _ IH]; [done|];
      cbn [forallb] in Hc; apply andb_true_iff in Hc as [Hcx Hc]; cbn;
      rewrite Hx, IH by done; done).
    all: cbn [get_arg get_args nth] in *; rewrite ?Hn in Hc;
      apply andb_true_iff in Hc as [Hl%Nat.eqb_eq Hc];
      destruct args as [|x [|y [|z [|]]]]; try discriminate Hl; cbn [forallb] in Hc;
      rewrite ?andb_true_iff in Hc; decompose_Forall_hyps; destruct_and!;
        cbn [map foldr default truth]; rewrite ?xorb_false_r.
    all: repeat match goal with
      | Hx : convertible ?x = true -> _, Hy : convertible ?x = true |- _ => specialize (Hx Hy); rewrite Hx
      end; try done.
    + unfold get_arg in Hn. cbn [get_args nth] in Hn. rewrite Hn. symmetry. by apply eq_bool.
    + unfold tr. by destruct (truth (eval I x)).
  - rewrite beval_atom by done. destruct (is_true _) eqn:Ht; [by apply is_true_spec in Ht as ->|].
    destruct (is_false _) eqn:Hf; [by apply is_false_spec in Hf as ->|done].
Qed.

(** ** The invariant *)

Section Correct.
Context {S : Type} `{SatSolverOk S} (p : g2s_params).
Local Abbreviation imp := (imp (S := S)).

Definition used_in (st : imp) (v : nat) : Prop := used (solver st) v.
Definition sat_in (st : imp) (s : nat -> bool) : Prop := models (solver st) s.

(** The valuation gives the atoms their values. *)
Definition agrees (st : imp) (s : nat -> bool) (V : expr -> bool) : Prop :=
  forall x v, lookup_var x (atoms st) = Some v -> s v = beval V x.

(** In every model [l] has the value of [e], negated under a sign. *)
Definition means_lit (st : imp) (l : literal) (e : expr) (sgn : bool) : Prop :=
  used_in st (var l)
  /\ forall s V, sat_in st s -> agrees st s V -> lit_true s l = xorb sgn (beval V e).

(** Signed formulas that were asserted. *)
Abbreviation signed_expr := (expr * bool)%type.
Definition holds_signed (V : expr -> bool) (e : signed_expr) : Prop := xorb e.2 (beval V e.1) = true.

(** A node that can have a variable of the atom map. *)
Definition atom_node (x : expr) : Prop :=
  convertible x = true /\ connective x = false /\ is_true x = false /\ is_false x = false.

Definition map_ok (a : expr2var) : Prop :=
  e2v_ok a /\ forall x v, lookup_var x a = Some v -> atom_node x.

Record inv (R : list signed_expr) (st : imp) : Prop := mk_inv {
  inv_atoms : map_ok (atoms st);
  inv_atoms_used : forall x v, lookup_var x (atoms st) = Some v -> used_in st v;
  inv_cache : forall t l, map_find (app2lit st) t = Some l -> means_lit st l t false;
  inv_true : forall l, lit_of_true st = Some l ->
    used_in st (var l) /\ forall s, sat_in st s -> lit_true s l = true;
  inv_sound : forall s V, sat_in st s -> agrees st s V -> Forall (holds_signed V) R;
  inv_complete : forall V, Forall (holds_signed V) R -> exists s, sat_in st s /\ agrees st s V;
  inv_handled : unhandled_funs st = [] -> forall x v, lookup_var x (atoms st) = Some v -> is_uninterp_const x = true
}.

(** What a translation step may add. *)
Record extends (st st' : imp) : Prop := mk_extends {
  ext_used : forall v, used_in st v -> used_in st' v;
  ext_sat : forall s, sat_in st' s -> sat_in st s;
  ext_atoms : forall x v, lookup_var x (atoms st) = Some v -> lookup_var x (atoms st') = Some v
}.

#[local] Instance extends_preorder : PreOrder extends.
Proof.
  split; [by intros st; split|]. intros st st1 st2 [U1 S1 A1] [U2 S2 A2]. split; auto.
Qed.

Lemma extends_agrees st st' s V : extends st st' -> agrees st' s V -> agrees st s V.
Proof. intros He Ha x v Hx. by apply Ha, He. Qed.

Lemma extends_means st st' l e sgn : extends st st' -> means_lit st l e sgn -> means_lit st' l e sgn.
Proof.
  intros He [Hu Hv]. split; [by apply He|]. intros s V Hs Ha. apply Hv; [by apply He|by eapply extends_agrees].
Qed.

(** The stacks, the flags and the scopes do not matter. *)
Record core_eq (st st' : imp) : Prop := mk_core_eq {
  core_used : forall v, used_in st' v <-> used_in st v;
  core_sat : forall s, sat_in st' s <-> sat_in st s;
  core_cache : app2lit st' = app2lit st;
  core_true : lit_of_true st' = lit_of_true st;
  core_atoms : m_id2map (atoms st') = m_id2map (atoms st) /\ m_mapping (atoms st') = m_mapping (atoms st);
  core_handled : unhandled_funs st' = [] -> unhandled_funs st = []
}.

Lemma core_lookup st st' x :
  core_eq st st' -> lookup_var x (atoms st') = lookup_var x (atoms st).
Proof. intros [_ _ _ _ [Hi Hm] _]. unfold lookup_var. by rewrite Hi, Hm. Qed.

Lemma core_extends st st' : core_eq st st' -> extends st st'.
Proof.
  intros Hc. split; [intros v; apply Hc|intros s; apply Hc|]. intros x v. by rewrite (core_lookup _ _ _ Hc).
Qed.

Lemma core_extended st st' : core_eq st st' -> extends st' st.
Proof.
  intros Hc. split; [intros v; apply Hc|intros s; apply Hc|]. intros x v. by rewrite (core_lookup _ _ _ Hc).
Qed.

Lemma inv_core R st st' : core_eq st st' -> inv R st -> inv R st'.
Proof.
  intros Hc [Ha Hau Hca Ht Hs Hco Hh]. pose proof (core_extends _ _ Hc) as He.
  pose proof (core_extended _ _ Hc) as He'. split.
  - destruct Hc as [_ _ _ _ [Hi Hm] _]. unfold map_ok, e2v_ok, lookup_var. by rewrite Hi, Hm.
  - intros x v. rewrite (core_lookup _ _ _ Hc). intros Hx. by apply He, (Hau x).
  - intros t l. rewrite (core_cache _ _ Hc). intros Hl. by apply (extends_means _ _ _ _ _ He), Hca.
  - intros l. rewrite (core_true _ _ Hc). intros Hl. destruct (Ht l Hl) as [Hu Hv].
    split; [by apply He|]. intros s Hss. by apply Hv, He.
  - intros s V Hss Hag. apply (Hs s V); [by apply He|by eapply extends_agrees].
  - intros V HV. destruct (Hco V HV) as (s & Hss & Hag). exists s. split; [by apply He'|].
    by eapply extends_agrees.
  - intros Hu x v. rewrite (core_lookup _ _ _ Hc). by apply Hh, Hc.
Qed.

Lemma force_push_parts (st : imp) :
  solver (force_push st) = solver st /\ app2lit (force_push st) = app2lit st
  /\ lit_of_true (force_push st) = lit_of_true st
  /\ (m_id2map (atoms (force_push st)) = m_id2map (atoms st)
      /\ m_mapping (atoms (force_push st)) = m_mapping (atoms st))
  /\ result_stack (force_push st) = result_stack st /\ frame_stack (force_push st) = frame_stack st
  /\ interface_vars (force_push st) = interface_vars st /\ unhandled_funs (force_push st) = unhandled_funs st.
Proof.
  unfold force_push. generalize (num_scopes st) as n. intros n. cbn. revert st.
  induction n as [|n IH]; intros st; [done|]. cbn [force_push_loop].
  destruct (IH (set_cache (app2lit st) (lit2app st) (cache_trail st)
    (cache_lim st ++ [length (cache_trail st)]) (set_atoms (Expr2Var.push (atoms st)) st)))
    as (-> & -> & -> & [-> ->] & -> & -> & -> & ->). done.
Qed.

Lemma force_push_core st : core_eq st (force_push st).
Proof.
  destruct (force_push_parts st) as (Hs & Hc & Ht & Ha & _ & _ & _ & Hun).
  split; try done; unfold used_in, sat_in; by rewrite ?Hs, ?Hun.
Qed.

(** Asserted formulas matter through their values. *)
Lemma inv_assert_ext R e1 s1 e2 s2 st :
  (forall V, xorb s1 (beval V e1) = xorb s2 (beval V e2)) ->
  inv ((e1, s1) :: R) st -> inv ((e2, s2) :: R) st.
Proof.
  intros Heq [Ha Hau Hca Ht Hs Hco Hh].
  assert (forall V, Forall (holds_signed V) ((e1, s1) :: R) <-> Forall (holds_signed V) ((e2, s2) :: R)) as Hiff.
  { intros V. rewrite !Forall_cons. unfold holds_signed at 1 3. cbn. by rewrite Heq. }
  split; try done.
  - intros s V Hss Hag. by apply Hiff, (Hs s).
  - intros V HV. by apply Hco, Hiff.
Qed.

(** ** Clauses *)

Lemma mk_clauses_solver cs st :
  Forall (Forall (fun l => used_in st (var l))) cs ->
  app2lit (mk_clauses cs st) = app2lit st /\ lit_of_true (mk_clauses cs st) = lit_of_true st
  /\ atoms (mk_clauses cs st) = atoms st /\ result_stack (mk_clauses cs st) = result_stack st
  /\ frame_stack (mk_clauses cs st) = frame_stack st
  /\ (forall v, used_in (mk_clauses cs st) v <-> used_in st v)
  /\ (forall s, sat_in (mk_clauses cs st) s <-> sat_in st s /\ forallb (clause_true s) cs = true)
  /\ unhandled_funs (mk_clauses cs st) = unhandled_funs st.
Proof.
  unfold mk_clauses. revert st. induction cs as [|c cs IH]; intros st Hcs; cbn [foldl forallb].
  { split_and!; try done. intros s. by intuition. }
  apply Forall_cons in Hcs as [Hc Hcs].
  assert (forall v, used_in (mk_clause c st) v <-> used_in st v) as Hu.
  { intros v. unfold used_in. cbn. by apply add_clause_used. }
  destruct (IH (mk_clause c st)) as (-> & -> & -> & -> & -> & HU & HS & ->).
  { eapply Forall_impl; [done|]. intros c' Hc'. eapply Forall_impl; [done|]. intros l. apply Hu. }
  split_and!; try done.
  - intros v. by rewrite HU, Hu.
  - intros s. rewrite HS. unfold sat_in at 1. cbn. rewrite add_clause_models by done.
    rewrite andb_true_iff. unfold sat_in. tauto.
Qed.

(** Clauses that say a formula holds assert it. *)
Lemma assert_clauses R cs e sgn st :
  inv R st -> Forall (Forall (fun l => used_in st (var l))) cs ->
  (forall s V, sat_in st s -> agrees st s V -> forallb (clause_true s) cs = xorb sgn (beval V e)) ->
  inv ((e, sgn) :: R) (mk_clauses cs st) /\ extends st (mk_clauses cs st).
Proof.
  intros [Ha Hau Hca Ht Hs Hco Hh] Hcs Hv.
  destruct (mk_clauses_solver cs st Hcs) as (Ec & Et & Ea & _ & _ & HU & HS & Eun).
  assert (extends st (mk_clauses cs st)) as He.
  { split; [intros v; by apply HU|intros s [? _]%HS; done|]. by rewrite Ea. }
  split; [|done]. split.
  - by rewrite Ea.
  - intros x v. rewrite Ea, HU. apply Hau.
  - intros t l. rewrite Ec. intros Hl. by apply (extends_means _ _ _ _ _ He), Hca.
  - intros l. rewrite Et. intros Hl. destruct (Ht l Hl) as [Hu Hlv]. split; [by apply HU|].
    intros s [Hss _]%HS. by apply Hlv.
  - intros s V [Hss Hcl]%HS Hag. pose proof (extends_agrees _ _ _ _ He Hag) as Hag'. constructor.
    + unfold holds_signed. cbn. by rewrite <- (Hv s V).
    + by apply (Hs s).
  - intros V [HeV HR]%Forall_cons. destruct (Hco V HR) as (s & Hss & Hag). exists s. split.
    + apply HS. split; [done|]. rewrite (Hv s V) by done. exact HeV.
    + intros x v. rewrite Ea. apply Hag.
  - by rewrite Eun, Ea.
Qed.

(** ** New variables *)

Definition upd (s : nat -> bool) (k : nat) (b : bool) (v : nat) : bool := if Nat.eqb v k then b else s v.

Lemma upd_same s k b : upd s k b k = b.
Proof. unfold upd. by rewrite Nat.eqb_refl. Qed.

Lemma upd_used (st : imp) s k b : ~ used_in st k -> forall v, used_in st v -> s v = upd s k b v.
Proof. intros Hk v Hv. unfold upd. destruct (Nat.eqb_spec v k); [subst; done|done]. Qed.

Lemma upd_agrees R st s k b V :
  inv R st -> ~ used_in st k -> agrees st s V -> agrees st (upd s k b) V.
Proof.
  intros Hi Hk Ha x v Hx. rewrite <- (upd_used st s k b Hk); [by apply Ha|].
  by eapply (inv_atoms_used _ _ Hi).
Qed.

Lemma upd_sat (st : imp) s k b : ~ used_in st k -> sat_in st s -> sat_in st (upd s k b).
Proof. intros Hk. apply models_ext. by apply upd_used. Qed.

(** A new variable is a new part of the state only. *)
Lemma new_var_ok R ext st k st1 :
  inv R st -> new_var ext st = (k, st1) ->
  inv R st1 /\ extends st st1 /\ ~ used_in st k /\ used_in st1 k
  /\ (forall s, sat_in st1 s <-> sat_in st s) /\ (forall v, used_in st1 v <-> v = k \/ used_in st v)
  /\ exists x, st1 = set_solver x st.
Proof.
  intros [Ha Hau Hca Ht Hs Hco Hh]. unfold new_var.
  pose proof (add_var_unused ext (solver st)) as Hn. pose proof (add_var_used ext (solver st)) as Hu.
  pose proof (add_var_models ext (solver st)) as Hm.
  destruct (add_var ext (solver st)) as [k' x] eqn:Hx. cbn [fst snd] in *. intros [= <- <-].
  assert (extends st (set_solver x st)) as He.
  { split; unfold used_in, sat_in; cbn; [intros v; rewrite Hu; by right|intros s; by apply Hm|done]. }
  split_and!; try done.
  - split; try done.
    + intros y v Hy. apply He. by apply (Hau y).
    + intros t l Hl. by apply (extends_means _ _ _ _ _ He), Hca.
    + intros l Hl. destruct (Ht l Hl) as [Hul Hv]. split; [by apply He|]. intros s Hss. apply Hv. by apply He.
    + intros s V Hss Hag. apply (Hs s V); [by apply He|done].
    + intros V HV. destruct (Hco V HV) as (s & Hss & Hag). exists s. split; [by apply Hm|done].
  - unfold used_in. cbn. apply Hu. by left.
  - by exists x.
Qed.

Lemma cache_parts t l (st : imp) :
  solver (cache t l st) = solver st /\ lit_of_true (cache t l st) = lit_of_true st
  /\ app2lit (cache t l st) = map_insert (app2lit st) t l
  /\ (m_id2map (atoms (cache t l st)) = m_id2map (atoms st)
      /\ m_mapping (atoms (cache t l st)) = m_mapping (atoms st))
  /\ result_stack (cache t l st) = result_stack st /\ frame_stack (cache t l st) = frame_stack st
  /\ unhandled_funs (cache t l st) = unhandled_funs st.
Proof.
  destruct (force_push_parts st) as (Hs & Hc & Ht & Ha & Hr & Hf & _ & Hun).
  unfold cache. set (f := force_push st) in *. clearbody f. cbn. by rewrite Hc.
Qed.

Definition phase_ok (phase : literal -> S -> S) : Prop :=
  forall l x, (forall v, used (phase l x) v <-> used x v)
              /\ (forall s, models (phase l x) s <-> models x s).

(** A definition: the clauses say that the new variable [k] has the value [b],
    and the cached literal then that of [t]. *)
Lemma define_ok R t cached cs phase sgn b st :
  inv R st -> phase_ok phase ->
  (forall k, Forall (Forall (fun l => var l = k \/ used_in st (var l))) (cs (mk_literal k false))) ->
  (forall k s V, sat_in st s -> agrees st s V ->
     forallb (clause_true s) (cs (mk_literal k false)) = Bool.eqb (s k) (b V)) ->
  (forall k, var (cached (mk_literal k false)) = k
     /\ forall s V, s k = b V -> lit_true s (cached (mk_literal k false)) = beval V t) ->
  let st' := define t cached cs phase sgn st in
  inv R st' /\ extends st st' /\ frame_stack st' = frame_stack st
  /\ exists l, result_stack st' = result_stack st ++ [l] /\ used_in st' (var l)
       /\ forall s V, sat_in st' s -> agrees st' s V -> lit_true s l = xorb sgn (b V).
Proof.
  intros Hi Hph Hcu Hcs Hcached. unfold define. destruct (new_var false st) as [k st1] eqn:Hk.
  destruct (new_var_ok R false st k st1 Hi Hk) as (Hi1 & He1 & Hfresh & Hku & Hs1 & Hu1 & [x ->]).
  set (l := mk_literal k false) in *. set (st1 := set_solver x st) in *.
  assert (forall s V, sat_in st s -> agrees st s V ->
    forallb (clause_true s) (cs l) = Bool.eqb (s k) (b V)) as Hcl' by apply Hcs.
  destruct (cache_parts t (cached l) st1) as (Ps & Pt & Pc & Pa & Pr & Pf & Pun).
  set (st2 := cache t (cached l) st1) in *.
  assert (forall v, used_in st2 v <-> used_in st1 v) as Hu2 by (intros v; unfold used_in; by rewrite Ps).
  assert (Forall (Forall (fun l => used_in st2 (var l))) (cs l)) as Hcs2.
  { eapply Forall_impl; [apply Hcu|]. intros c Hc. eapply Forall_impl; [exact Hc|].
    intros l' Hl'. apply Hu2, Hu1. exact Hl'. }
  destruct (mk_clauses_solver (cs l) st2 Hcs2) as (Ec & Et & Ea & Er & Ef & HU & HS & Eun).
  set (st3 := mk_clauses (cs l) st2) in *. destruct (Hph l (solver st3)) as [Hpu Hpm].
  assert (forall y, lookup_var y (atoms st3) = lookup_var y (atoms st)) as Hlk.
  { intros y. rewrite Ea. unfold lookup_var. by rewrite (proj1 Pa), (proj2 Pa). }
  set (st' := set_results (result_stack (set_solver (phase l (solver st3)) st3) ++ [signed l sgn])
                (set_solver (phase l (solver st3)) st3)).
  assert (forall v, used_in st' v <-> v = k \/ used_in st v) as HU'.
  { intros v. unfold used_in at 1. cbn. rewrite Hpu. fold (used_in st3 v). by rewrite HU, Hu2, Hu1. }
  assert (forall s, sat_in st' s <-> sat_in st s /\ forallb (clause_true s) (cs l) = true) as HS'.
  { intros s. unfold sat_in at 1. cbn. rewrite Hpm. fold (sat_in st3 s). rewrite HS.
    unfold sat_in at 1. rewrite Ps. fold (sat_in st1 s). by rewrite Hs1. }
  assert (forall s V, agrees st' s V <-> agrees st s V) as Hag.
  { intros s V. unfold agrees. cbn. by setoid_rewrite Hlk. }
  assert (extends st st') as He.
  { split; [intros v Hv; apply HU'; by right|intros s [? _]%HS'; done|].
    intros y v. cbn. by rewrite Hlk. }
  assert (forall s V, sat_in st' s -> agrees st' s V -> s k = b V) as Hval.
  { intros s V [Hss Hcl]%HS' Ha%Hag. rewrite (Hcl' s V Hss Ha) in Hcl. by apply eqb_prop. }
  assert (used_in st' k) as Hk' by (apply HU'; by left).
  split_and!; [|done|exact (eq_trans Ef Pf)|].
  - destruct Hi as [Ha Hau Hca Ht Hs Hco Hh]. split.
    + unfold map_ok, e2v_ok, lookup_var. cbn. rewrite Ea, (proj1 Pa), (proj2 Pa). exact Ha.
    + intros y v. cbn. rewrite Hlk. intros Hy. by apply He, (Hau y).
    + intros u lu. cbn. rewrite Ec, Pc, map_find_insert. cbn. case_decide as Htu.
      * intros [= <-]. subst u. destruct (Hcached k) as [Hvar Hcv].
        fold l in Hvar, Hcv. split; [by rewrite Hvar|].
        intros s V Hss Has. rewrite (Hcv s V); [by rewrite xorb_false_l|by apply Hval].
      * intros Hl. by apply (extends_means _ _ _ _ _ He), Hca.
    + intros lu. cbn. rewrite Et, Pt. intros Hl. destruct (Ht lu Hl) as [Hul Hv].
      split; [by apply He|]. intros s Hss. by apply Hv, He.
    + intros s V [Hss _]%HS' Has%Hag. by apply (Hs s V).
    + intros V HV. destruct (Hco V HV) as (s & Hss & Has). exists (upd s k (b V)).
      pose proof (upd_sat st s k (b V) Hfresh Hss) as Hss'.
      assert (agrees st (upd s k (b V)) V) as Has'.
      { intros y v Hy. rewrite <- (upd_used st s k (b V) Hfresh); [by apply Has|by apply (Hau y)]. }
      split; [|by apply Hag]. apply HS'. split; [done|].
      rewrite (Hcl' _ V Hss' Has'), upd_same. apply eqb_reflx.
    + cbn. rewrite Eun, Pun. intros Hun y v. rewrite Hlk. by apply Hh.
  - exists (signed l sgn). split_and!.
    + cbn. by rewrite Er, Pr.
    + by destruct sgn.
    + intros s V Hss Has. rewrite <- (Hval s V Hss Has). by destruct sgn.
Qed.

(** ** Atoms *)

Definition same_stacks (st st' : imp) : Prop :=
  result_stack st' = result_stack st /\ frame_stack st' = frame_stack st.

Lemma mk_true_ok R st :
  inv R st ->
  let '(l, st') := mk_true st in
  inv R st' /\ extends st st' /\ same_stacks st st' /\ used_in st' (var l)
  /\ forall s, sat_in st' s -> lit_true s l = true.
Proof.
  intros Hi. unfold mk_true. destruct (lit_of_true st) as [l|] eqn:Hl.
  { destruct (inv_true _ _ Hi l Hl). by split_and!. }
  destruct (new_var false st) as [k st1] eqn:Hk.
  destruct (new_var_ok R false st k st1 Hi Hk) as (_ & _ & Hfresh & Hku & Hs1 & Hu1 & [x ->]).
  set (l := mk_literal k false). set (st2 := set_true l (set_solver x st)).
  assert (Forall (fun l => used_in st2 (var l)) [l]) as Hu by (by constructor).
  assert (forall v, used_in (mk_clause [l] st2) v <-> v = k \/ used_in st v) as HU.
  { intros v. unfold used_in at 1. cbn. rewrite add_clause_used by done. apply Hu1. }
  assert (forall s, sat_in (mk_clause [l] st2) s <-> sat_in st s /\ s k = true) as HS.
  { intros s. unfold sat_in at 1. cbn. rewrite add_clause_models by done.
    change (models x s) with (sat_in (set_solver x st) s). rewrite Hs1. unfold clause_true, lit_true. cbn.
    by rewrite orb_false_r. }
  assert (extends st (mk_clause [l] st2)) as He.
  { split; [intros v Hv; apply HU; by right|intros s [? _]%HS; done|done]. }
  split_and!; [|done|done|apply HU; by left|intros s [_ Hs]%HS; exact Hs].
  destruct Hi as [Ha Hau Hca Ht Hs Hco Hh]. split; try done.
  - intros y v Hy. by apply He, (Hau y).
  - intros t lt Hlt. by apply (extends_means _ _ _ _ _ He), Hca.
  - intros l' [= <-]. split; [apply HU; by left|]. intros s [_ Hsk]%HS. exact Hsk.
  - intros s V [Hss _]%HS Hag. by apply (Hs s V).
  - intros V HV. destruct (Hco V HV) as (s & Hss & Hag). exists (upd s k true). split.
    + apply HS. split; [by apply upd_sat|apply upd_same].
    + intros y v Hy. rewrite <- (upd_used st s k true Hfresh); [by apply Hag|by apply (Hau y)].
Qed.

(** A node without a variable gets a new one. *)
Lemma mk_bool_var_ok R t st :
  inv R st -> lookup_var t (atoms st) = None -> atom_node t ->
  (unhandled_funs st = [] -> is_uninterp_const t = true) ->
  exists v st', mk_bool_var t st = Ok (v, st') /\ inv R st' /\ extends st st' /\ same_stacks st st'
    /\ lookup_var t (atoms st') = Some v /\ interface_vars st' = interface_vars st.
Proof.
  intros Hi Hn Hnode Hconst. unfold mk_bool_var. destruct (force_push_parts st) as (_ & _ & _ & _ & Hr & Hf & Hif & Hun).
  pose proof (inv_core _ _ _ (force_push_core st) Hi) as Hi0. pose proof (core_extends _ _ (force_push_core st)) as He0.
  rewrite <- (core_lookup _ _ t (force_push_core st)) in Hn.
  rewrite <- Hun in Hconst. set (st0 := force_push st) in *. clearbody st0.
  destruct (new_var true st0) as [k st1] eqn:Hk.
  destruct (new_var_ok R true st0 k st1 Hi0 Hk) as (Hi1 & He1 & Hfresh & Hku & Hs1 & Hu1 & [x ->]).
  destruct (insert_new t k (atoms st0) (proj1 (inv_atoms _ _ Hi0)) Hn) as (a & Ha & Hok & _ & _ & _ & Hlk).
  cbn [atoms set_solver]. rewrite Ha. cbn [mbind res_bind].
  set (st1 := set_solver x st0) in *. set (st2 := set_atoms a st1).
  assert (extends st1 st2) as He2.
  { split; try done. intros y v Hy. cbn. rewrite Hlk. case_decide; [|done]. subst y. cbn in Hy. congruence. }
  exists k, st2. split_and!; try done.
  - destruct Hi1 as [Ha1 Hau Hca Ht Hs Hco Hh]. split; try done.
    + split; [done|]. intros y v. cbn. rewrite Hlk. case_decide as Hy; [by subst|apply Ha1].
    + intros y v. cbn. rewrite Hlk. case_decide as Hy; [by intros [= <-]|]. apply Hau.
    + intros u l Hl. by apply (extends_means _ _ _ _ _ He2), Hca.
    + intros s V Hss Hag. apply (Hs s V Hss). by eapply extends_agrees.
    + intros V HV. destruct (inv_complete _ _ Hi0 V HV) as (s & Hss & Hag).
      exists (upd s k (beval V t)). split; [apply Hs1; by apply upd_sat|].
      intros y v. cbn. rewrite Hlk. case_decide as Hy; [intros [= <-]; subst y; apply upd_same|].
      intros Hyv. by apply (upd_agrees R st0 s k (beval V t) V Hi0 Hfresh Hag).
    + intros Hu y v. cbn. rewrite Hlk. case_decide as Hy; [subst y; auto|by apply Hh].
  - etransitivity; [exact He0|]. by etransitivity.
  - cbn. rewrite Hlk. by rewrite decide_True.
Qed.

Lemma means_var R st t v : inv R st -> lookup_var t (atoms st) = Some v -> means_lit st (mk_literal v false) t false.
Proof.
  intros Hi Hv. split; [by apply (inv_atoms_used _ _ Hi t)|]. intros s V Hs Ha.
  unfold lit_true. cbn. by apply Ha.
Qed.

(** A change of the solver by a hint. *)
Lemma core_hint (st : imp) x :
  (forall v, used x v <-> used (solver st) v) -> (forall s, models x s <-> models (solver st) s) ->
  core_eq st (set_solver x st).
Proof. by split. Qed.

Lemma atom_literal_ok R t st :
  inv R st -> convertible t = true -> connective t = false ->
  exists l st', atom_literal p t st = Ok (l, st') /\ inv R st' /\ extends st st' /\ same_stacks st st'
    /\ means_lit st' l t false.
Proof.
  intros Hi Hc Hn. unfold atom_literal. rewrite (to_bool_var_ok _ _ (proj1 (inv_atoms _ _ Hi))).
  cbn [mbind res_bind]. destruct (lookup_var t (atoms st)) as [v|] eqn:Hv.
  { assert (core_eq st (set_solver (set_eliminated v false (solver st)) st)) as Hcore.
    { apply core_hint; [apply set_eliminated_used|apply set_eliminated_models]. }
    eexists _, _. split; [done|]. pose proof (inv_core _ _ _ Hcore Hi) as Hi'.
    split_and!; [done|by apply core_extends|done|]. by apply (means_var R). }
  pose proof (mk_true_ok R st Hi) as Htrue. destruct (mk_true st) as [l st1].
  destruct Htrue as (Hi1 & He1 & Hs1 & Hu1 & Hl1).
  destruct (is_true t) eqn:Ht; [|destruct (is_false t) eqn:Hf].
  - exists l, st1. split_and!; try done. split; [done|]. intros s V Hs _. rewrite beval_atom, Ht by done. by apply Hl1.
  - exists (neg l), st1. split_and!; try done. split; [done|]. intros s V Hs _.
    rewrite beval_atom, Ht, Hf, lit_true_neg by done. by rewrite Hl1.
  - destruct t as [i so|d args]; [done|].
    set (st2 := if is_uninterp_const _ then st else _).
    assert (core_eq st st2) as Hc2
      by (unfold st2; destruct (is_uninterp_const _); split; try done; cbn; by intros [? _]%app_nil).
    assert (same_stacks st st2) as Hs2 by (unfold st2; by destruct (is_uninterp_const _)).
    destruct (mk_bool_var_ok R (App d args) st2) as (v & st3 & -> & Hi3 & He3 & Hs3 & Hv3 & _);
      [by apply (inv_core _ st)|by rewrite (core_lookup _ _ _ Hc2)|done| |].
    { unfold st2. destruct (is_uninterp_const (App d args)); [done|]. cbn. intros Hu. by apply app_nil in Hu as [_ ?]. }
    cbn [mbind res_bind]. set (ext := default_external p || _ || _).
    assert (core_eq st3 (if ext then set_solver (set_external v (solver st3)) st3 else st3)) as Hc4.
    { destruct ext; [|by repeat split].
      apply core_hint; [apply set_external_used|apply set_external_models]. }
    eexists _, _. split; [done|]. pose proof (inv_core _ _ _ Hc4 Hi3) as Hi4. split_and!; [done| | |].
    + etransitivity; [by apply core_extends|]. etransitivity; [done|]. by apply core_extends.
    + destruct Hs2 as [R2 F2], Hs3 as [R3 F3]. destruct ext; split; cbn; congruence.
    + apply (means_var R); [done|]. by rewrite (core_lookup _ _ _ Hc4).
Qed.

(** ** Outcomes *)

(** [e], negated under [sgn], was asserted (at the root) or has a literal on top
    of the results of [st]. *)
Definition outcome (R : list signed_expr) (e : expr) (sgn root : bool) (st st' : imp) : Prop :=
  frame_stack st' = frame_stack st /\ extends st st'
  /\ if root then result_stack st' = [] /\ inv ((e, sgn) :: R) st'
     else inv R st' /\ exists l, result_stack st' = result_stack st ++ [l] /\ means_lit st' l e sgn.

Lemma outcome_from R e sgn root st st1 st' :
  same_stacks st st1 -> extends st st1 -> outcome R e sgn root st1 st' -> outcome R e sgn root st st'.
Proof.
  intros [Hr Hf] He (Hf' & He' & Ho). split; [congruence|]. split; [by etransitivity|].
  destruct root; [done|]. by rewrite <- Hr.
Qed.

Lemma outcome_ext R e1 s1 e2 s2 root st st' :
  (forall V, xorb s1 (beval V e1) = xorb s2 (beval V e2)) ->
  outcome R e1 s1 root st st' -> outcome R e2 s2 root st st'.
Proof.
  intros Heq (Hf & He & Ho). split; [done|]. split; [done|]. destruct root.
  - destruct Ho as [Hr Hi]. split; [done|]. by apply (inv_assert_ext _ e1 s1).
  - destruct Ho as (Hi & l & Hr & Hu & Hv). split; [done|]. exists l. split; [done|]. split; [done|].
    intros s V Hs Ha. rewrite <- Heq. by apply Hv.
Qed.

Lemma signed_means st l e sgn : means_lit st l e false -> means_lit st (signed l sgn) e sgn.
Proof.
  intros [Hu Hv]. split; [by destruct sgn|]. intros s V Hs Ha.
  destruct sgn; cbn [signed]; rewrite ?lit_true_neg, (Hv s V Hs Ha); by destruct (beval V e).
Qed.

Lemma finish_ok R e sgn root l st :
  inv R st -> means_lit st l e false -> (root = true -> result_stack st = []) ->
  outcome R e sgn root st (finish (signed l sgn) root st).
Proof.
  intros Hi Hm Hroot. pose proof (signed_means st l e sgn Hm) as [Hu Hv].
  unfold finish. destruct root.
  - destruct (assert_clauses R [[signed l sgn]] e sgn st Hi) as [Hi' He'].
    + by repeat constructor.
    + intros s V Hs Ha. cbn. by rewrite (Hv s V Hs Ha), orb_false_r, andb_true_r.
    + by split_and!; auto.
  - split; [done|]. split; [by split|]. split; [by apply (inv_core _ st)|]. by exists (signed l sgn).
Qed.

Lemma convert_atom_ok R t root sgn st :
  inv R st -> convertible t = true -> connective t = false -> (root = true -> result_stack st = []) ->
  exists st', convert_atom p t root sgn st = Ok st' /\ outcome R t sgn root st st'.
Proof.
  intros Hi Hc Hn Hroot. destruct (atom_literal_ok R t st Hi Hc Hn) as (l & st1 & H1 & Hi1 & He1 & Hs1 & Hm).
  unfold convert_atom. rewrite H1. eexists. split; [done|].
  apply (outcome_from _ _ _ _ _ st1); [done..|]. apply finish_ok; [done..|].
  intros Hr. destruct Hs1 as [-> _]. auto.
Qed.

Lemma process_cached_ok R t root sgn st st' :
  inv R st -> (root = true -> result_stack st = []) ->
  process_cached t root sgn st = Some st' -> outcome R t sgn root st st'.
Proof.
  intros Hi Hroot. unfold process_cached. destruct (map_find (app2lit st) t) as [l|] eqn:Hl; [|done].
  intros [= <-]. apply finish_ok; [done| |done]. by apply (inv_cache _ _ Hi).
Qed.

(** [visit] finishes with the formula, or pushes a frame for a connective. *)
Lemma visit_ok R t root sgn st :
  inv R st -> convertible t = true -> (root = true -> result_stack st = []) ->
  (exists st', visit p t root sgn st = Ok (true, st') /\ outcome R t sgn root st st')
  \/ (visit p t root sgn st = Ok (false, push_frame t root sgn st) /\ connective t = true).
Proof.
  intros Hi Hc Hroot. unfold visit. destruct t as [i so|d args]; [done|].
  destruct (process_cached _ _ _ _) as [st'|] eqn:Hca.
  { left. exists st'. split; [done|]. by apply process_cached_ok. }
  destruct (connective (App d args)) eqn:Hn.
  - right. split; [|done]. cbn [connective convertible] in *.
    destruct (kind d) as [[]|k|]; try discriminate; try done. by rewrite Hn.
  - left. destruct (convert_atom_ok R (App d args) root sgn st Hi Hc Hn Hroot) as (st' & Ha & Ho).
    exists st'. split; [|done]. cbn [connective convertible] in *. rewrite Ha.
    destruct (kind d) as [[]|k|]; try discriminate; try done. by rewrite Hn.
Qed.

(** ** Connectives *)

Definition operands (st : imp) (lits : list literal) (args : list expr) : Prop :=
  Forall2 (fun l a => means_lit st l a false) lits args.

Lemma operands_extends st st' lits args : extends st st' -> operands st lits args -> operands st' lits args.
Proof. intros He Ho. eapply Forall2_impl; [exact Ho|]. intros l a. by apply extends_means. Qed.

Lemma operands_values st lits args s V :
  operands st lits args -> sat_in st s -> agrees st s V -> map (lit_true s) lits = map (beval V) args.
Proof.
  intros Ho Hs Ha. induction Ho as [|l a lits args [_ Hv] _ IH]; [done|]. cbn. by rewrite IH, (Hv s V), xorb_false_l.
Qed.

Lemma operands_used st lits args : operands st lits args -> Forall (fun l => used_in st (var l)) lits.
Proof. intros Ho. induction Ho as [|l a lits args [Hu _] _ IH]; by constructor. Qed.

Lemma map_existsb (s : nat -> bool) lits (f : expr -> bool) args :
  map (lit_true s) lits = map f args ->
  existsb (lit_true s) lits = existsb f args /\ forallb (lit_true s) lits = forallb f args.
Proof.
  revert args. induction lits as [|l lits IH]; intros [|a args]; try done. cbn. intros [= -> Hm].
  destruct (IH _ Hm) as [-> ->]. done.
Qed.

Lemma or_clauses_true s lits l :
  forallb (clause_true s) (or_clauses lits l) = Bool.eqb (lit_true s l) (existsb (lit_true s) lits).
Proof.
  unfold or_clauses. rewrite forallb_app. cbn [forallb]. autorewrite with clauses.
  assert (forallb (clause_true s) (map (fun x => [neg x; l]) lits)
          = lit_true s l || negb (existsb (lit_true s) lits)) as ->.
  { induction lits as [|x lits IH]; [by rewrite orb_true_r|]. cbn [map forallb existsb].
    autorewrite with clauses. rewrite IH. by destruct (lit_true s x), (lit_true s l), (existsb _ _). }
  unfold clause_true. by destruct (lit_true s l), (existsb _ _).
Qed.

Lemma and_clauses_true s lits l :
  forallb (clause_true s) (and_clauses lits l) = Bool.eqb (lit_true s l) (forallb (lit_true s) lits).
Proof.
  unfold and_clauses. rewrite forallb_app. cbn [forallb]. autorewrite with clauses.
  assert (forallb (clause_true s) (map (fun x => [neg l; x]) lits)
          = negb (lit_true s l) || forallb (lit_true s) lits) as ->.
  { induction lits as [|x lits IH]; [by rewrite orb_true_r|]. cbn [map forallb].
    autorewrite with clauses. rewrite IH. by destruct (lit_true s x), (lit_true s l), (forallb _ _). }
  assert (clause_true s (map neg lits) = negb (forallb (lit_true s) lits)) as ->.
  { induction lits as [|x lits IH]; [done|]. cbn [map forallb]. autorewrite with clauses.
    rewrite IH. by destruct (lit_true s x). }
  by destruct (lit_true s l), (forallb _ _).
Qed.

Lemma set_results_clauses r cs (st : imp) :
  set_results r (mk_clauses cs st) = mk_clauses cs (set_results r st).
Proof.
  unfold mk_clauses. revert st. induction cs as [|c cs IH]; intros st; [done|]. cbn [foldl].
  by rewrite IH.
Qed.

(** Clauses that assert a formula. *)
Lemma root_outcome R t sgn cs st :
  inv R st -> result_stack st = [] -> Forall (Forall (fun l => used_in st (var l))) cs ->
  (forall s V, sat_in st s -> agrees st s V -> forallb (clause_true s) cs = xorb sgn (beval V t)) ->
  outcome R t sgn true st (mk_clauses cs st).
Proof.
  intros Hi Hr Hcs Hv. destruct (assert_clauses R cs t sgn st Hi Hcs Hv) as [Hi' He].
  destruct (mk_clauses_solver cs st Hcs) as (_ & _ & _ & Er & Ef & _).
  split; [done|]. split; [done|]. split; [congruence|done].
Qed.

(** Clauses that define a formula. *)
Lemma define_outcome R t cached cs phase sgn1 sgn b st :
  inv R st -> phase_ok phase ->
  (forall k, Forall (Forall (fun l => var l = k \/ used_in st (var l))) (cs (mk_literal k false))) ->
  (forall k s V, sat_in st s -> agrees st s V ->
     forallb (clause_true s) (cs (mk_literal k false)) = Bool.eqb (s k) (b V)) ->
  (forall k, var (cached (mk_literal k false)) = k
     /\ forall s V, s k = b V -> lit_true s (cached (mk_literal k false)) = beval V t) ->
  (forall V, xorb sgn1 (b V) = xorb sgn (beval V t)) ->
  outcome R t sgn false st (define t cached cs phase sgn1 st).
Proof.
  intros Hi Hph Hu Hcs Hca Hb.
  destruct (define_ok R t cached cs phase sgn1 b st Hi Hph Hu Hcs Hca) as (Hi' & He & Hf & l & Hr & Hul & Hv).
  split; [done|]. split; [done|]. split; [done|]. exists l. split; [done|]. split; [done|].
  intros s V Hs Ha. rewrite <- Hb. by apply Hv.
Qed.

Lemma no_phase_ok : phase_ok no_phase.
Proof. done. Qed.
Lemma set_phase_ok (f : literal -> literal) : phase_ok (fun l => set_phase (f l)).
Proof. intros l x. split; [apply set_phase_used|apply set_phase_models]. Qed.

Lemma cached_self t b k :
  (forall V, beval V t = b V) ->
  var (mk_literal k false) = k
  /\ forall s (V : expr -> bool), s k = b V -> lit_true s (mk_literal k false) = beval V t.
Proof. intros Hb. split; [done|]. intros s V Hk. rewrite Hb, <- Hk. done. Qed.

(** The operands on top of the results [base] of [st], which holds the others. *)
Section Convert.
Context (R : list signed_expr) (t : expr) (root sgn : bool) (st : imp).
Context (base lits : list literal) (args : list expr).
Context (st_inv : inv R st) (st_results : result_stack st = base ++ lits).
Context (st_operands : operands st lits args) (at_root : root = true -> base = []).
Local Abbreviation st0 := (set_results base st).

Lemma take_operands n : n = length lits -> top_results n st = lits /\ shrink_results n st = st0.
Proof.
  intros ->. unfold top_results, shrink_results. rewrite st_results, length_app.
  replace (length base + length lits - length lits)%nat with (length base) by lia.
  by rewrite drop_app_length, take_app_length.
Qed.

Lemma st0_inv : inv R st0.
Proof. by apply (inv_core _ st). Qed.

Lemma st0_operands : operands st0 lits args.
Proof. apply (operands_extends st); [by split|done]. Qed.

Lemma lits_length : length lits = length args.
Proof. by eapply Forall2_length. Qed.

Lemma values s V : sat_in st s -> agrees st s V -> map (lit_true s) lits = map (beval V) args.
Proof. by apply operands_values. Qed.

Lemma used_map (f : literal -> clause) :
  (forall l, In l lits -> Forall (fun x => var x = var l) (f l)) ->
  Forall (Forall (fun l => used_in st (var l))) (map f lits).
Proof.
  intros Hf. pose proof (operands_used _ _ _ st_operands) as Hu. apply Forall_map. rewrite Forall_forall in *.
  intros l Hl. apply list_elem_of_In in Hl as Hin. eapply Forall_impl; [by apply Hf|].
  intros x Hx. rewrite Hx. by apply Hu.
Qed.

Lemma convert_or_ok :
  args = get_args t -> (forall V, beval V t = existsb (beval V) args) ->
  outcome R t sgn root st0 (convert_or t root sgn st).
Proof.
  intros Hargs Hb. unfold convert_or. rewrite <- Hargs, <- lits_length.
  destruct (take_operands (length lits) eq_refl) as [Ht Hsh]. rewrite Ht.
  pose proof (operands_used _ _ _ st_operands) as Hu. destruct root.
  - rewrite (at_root eq_refl) in *. cbn [app] in st_results.
    assert (forall cs, Forall (Forall (fun l => used_in st (var l))) cs ->
      (forall s V, sat_in st s -> agrees st s V -> forallb (clause_true s) cs = xorb sgn (beval V t)) ->
      outcome R t sgn true (set_results [] st) (shrink_results (length lits) (mk_clauses cs st))) as Hout.
    { intros cs Hcs Hv. unfold shrink_results. destruct (mk_clauses_solver cs st Hcs) as (_ & _ & _ & -> & _).
      rewrite st_results, Nat.sub_diag. cbn [take]. rewrite set_results_clauses.
      apply root_outcome; [by apply (inv_core _ st)|done|exact Hcs|exact Hv]. }
    destruct sgn.
    + rewrite st_results, firstn_all. apply Hout; [by apply used_map; intros l _; repeat constructor|].
      intros s V Hs Ha. rewrite Hb, <- (proj1 (map_existsb s lits _ _ (values s V Hs Ha))).
      clear. induction lits as [|l ls IH]; [done|]. cbn [map forallb existsb].
      autorewrite with clauses. rewrite IH. by destruct (lit_true s l).
    + rewrite st_results. apply (Hout [lits]); [by constructor|].
      intros s V Hs Ha. rewrite Hb, <- (proj1 (map_existsb s lits _ _ (values s V Hs Ha))).
      cbn. by rewrite andb_true_r.
  - rewrite Hsh.
    apply (define_outcome R t _ _ _ _ _ (fun V => existsb (beval V) args));
      [apply st0_inv|apply (set_phase_ok neg)| | |intros k; by apply cached_self|intros V; by rewrite Hb].
    + intros k. unfold or_clauses. apply Forall_app. split.
      * apply Forall_map. eapply Forall_impl; [exact Hu|]. intros l Hl. repeat constructor; by auto.
      * repeat constructor. apply Forall_app. split; [|by repeat constructor; auto].
        eapply Forall_impl; [exact Hu|]. by auto.
    + intros k s V Hs Ha. rewrite or_clauses_true.
      by rewrite (proj1 (map_existsb s lits _ _ (values s V Hs Ha))).
Qed.

Lemma convert_and_ok :
  args = get_args t -> (forall V, beval V t = forallb (beval V) args) ->
  outcome R t sgn root st0 (convert_and t root sgn st).
Proof.
  intros Hargs Hb. unfold convert_and. rewrite <- Hargs, <- lits_length.
  destruct (take_operands (length lits) eq_refl) as [Ht Hsh]. rewrite Ht.
  pose proof (operands_used _ _ _ st_operands) as Hu. destruct root.
  - rewrite (at_root eq_refl) in *. cbn [app] in st_results. rewrite st_results, firstn_all.
    destruct sgn.
    + rewrite drop_all, app_nil_r.
      change (shrink_results _ _) with (set_results (take (length (map neg lits) - length lits) (map neg lits))
        (mk_clauses [map neg lits] st)).
      rewrite length_map, Nat.sub_diag, set_results_clauses. cbn [take].
      apply (root_outcome R t true [map neg lits]); [by apply (inv_core _ st)|done| |].
      * repeat constructor. apply Forall_map. eapply Forall_impl; [exact Hu|]. by intros l.
      * intros s V Hs Ha. rewrite Hb, <- (proj2 (map_existsb s lits _ _ (values s V Hs Ha))).
        cbn [forallb]. rewrite andb_true_r. clear. induction lits as [|l ls IH]; [done|].
        cbn [map forallb]. autorewrite with clauses. rewrite IH. by destruct (lit_true s l).
    + assert (Forall (Forall (fun l => used_in st (var l))) (map (fun l => [l]) lits)) as Hcs
        by (apply used_map; intros l _; by repeat constructor).
      unfold shrink_results. destruct (mk_clauses_solver _ st Hcs) as (_ & _ & _ & -> & _).
      rewrite st_results, Nat.sub_diag. cbn [take]. rewrite set_results_clauses.
      apply root_outcome; [by apply (inv_core _ st)|done|exact Hcs|].
      intros s V Hs Ha. rewrite Hb, <- (proj2 (map_existsb s lits _ _ (values s V Hs Ha))).
      clear. induction lits as [|l ls IH]; [done|]. cbn [map forallb]. autorewrite with clauses.
      rewrite IH. by destruct (lit_true s l).
  - rewrite Hsh.
    apply (define_outcome R t _ _ _ _ _ (fun V => forallb (beval V) args));
      [apply st0_inv|apply (set_phase_ok (fun l => l))| | |intros k; by apply cached_self|intros V; by rewrite Hb].
    + intros k. unfold and_clauses. apply Forall_app. split.
      * apply Forall_map. eapply Forall_impl; [exact Hu|]. intros l Hl. repeat constructor; by auto.
      * repeat constructor. apply Forall_app. split; [|by repeat constructor; auto].
        apply Forall_map. eapply Forall_impl; [exact Hu|]. by auto.
    + intros k s V Hs Ha. rewrite and_clauses_true.
      by rewrite (proj2 (map_existsb s lits _ _ (values s V Hs Ha))).
Qed.

(** Clauses over operands that are all used. *)
Local Ltac used_clauses :=
  repeat match goal with
  | |- Forall _ [] => constructor
  | |- Forall _ (_ :: _) => constructor
  end; cbn; auto.

Lemma convert_ite_ok a b c :
  args = [a; b; c] -> (forall V, beval V t = if beval V a then beval V b else beval V c) ->
  exists st', convert_ite p t root sgn st = Ok st' /\ outcome R t sgn root st0 st'.
Proof.
  intros Hargs Hb. pose proof lits_length as Hl. pose proof (operands_used _ _ _ st_operands) as Hu.
  pose proof values as Hval. rewrite Hargs in Hl, Hval. cbn [length] in Hl.
  pose proof st0_inv as Hi0. destruct (take_operands 3 (eq_sym Hl)) as [Ht Hsh].
  unfold convert_ite. rewrite Ht, Hsh.
  destruct lits as [|l1 [|l2 [|l3 [|]]]]; try discriminate Hl.
  apply Forall_cons in Hu as [U1 Hu]. apply Forall_cons in Hu as [U2 Hu]. apply Forall_cons in Hu as [U3 _].
  destruct root eqn:Er; eexists; (split; [done|]).
  - destruct sgn; (apply root_outcome; [exact Hi0|by rewrite at_root|used_clauses|]);
      intros s V Hs Ha; injection (Hval s V Hs Ha) as E1 E2 E3; rewrite Hb, <- E1, <- E2, <- E3;
      cbn [forallb]; autorewrite with clauses;
      by destruct (lit_true s l1), (lit_true s l2), (lit_true s l3).
  - apply (define_outcome R t _ _ _ _ _ (fun V => if beval V a then beval V b else beval V c));
      [exact Hi0|apply no_phase_ok| | |intros k; by apply cached_self|intros V; by rewrite Hb].
    + intros k. unfold ite_clauses. destruct (ite_extra p); cbn [app]; used_clauses.
    + intros k s V Hs Ha. injection (Hval s V Hs Ha) as E1 E2 E3. rewrite <- E1, <- E2, <- E3.
      set (l := mk_literal k false). assert (s k = lit_true s l) as -> by done.
      unfold ite_clauses. destruct (ite_extra p); cbn [forallb app]; autorewrite with clauses;
        by destruct (lit_true s l), (lit_true s l1), (lit_true s l2), (lit_true s l3).
Qed.

Lemma convert_implies_ok a b :
  args = [a; b] -> (forall V, beval V t = implb (beval V a) (beval V b)) ->
  exists st', convert_implies t root sgn st = Ok st' /\ outcome R t sgn root st0 st'.
Proof.
  intros Hargs Hb. pose proof lits_length as Hl. pose proof (operands_used _ _ _ st_operands) as Hu.
  pose proof values as Hval. rewrite Hargs in Hl, Hval. cbn [length] in Hl.
  pose proof st0_inv as Hi0. destruct (take_operands 2 (eq_sym Hl)) as [Ht Hsh].
  unfold convert_implies. rewrite Ht, Hsh.
  destruct lits as [|l1 [|l2 [|]]]; try discriminate Hl.
  apply Forall_cons in Hu as [U1 Hu]. apply Forall_cons in Hu as [U2 _].
  destruct root eqn:Er; eexists; (split; [done|]).
  - destruct sgn; (apply root_outcome; [exact Hi0|by rewrite at_root|used_clauses|]);
      intros s V Hs Ha; injection (Hval s V Hs Ha) as E1 E2; rewrite Hb, <- E1, <- E2;
      cbn [forallb]; autorewrite with clauses; by destruct (lit_true s l1), (lit_true s l2).
  - apply (define_outcome R t _ _ _ _ _ (fun V => implb (beval V a) (beval V b)));
      [exact Hi0|apply no_phase_ok| | |intros k; by apply cached_self|intros V; by rewrite Hb].
    + intros k. unfold implies_clauses. used_clauses.
    + intros k s V Hs Ha. injection (Hval s V Hs Ha) as E1 E2. rewrite <- E1, <- E2.
      set (l := mk_literal k false). assert (s k = lit_true s l) as -> by done.
      unfold implies_clauses. cbn [forallb]; autorewrite with clauses;
        by destruct (lit_true s l), (lit_true s l1), (lit_true s l2).
Qed.

(** [flip]: an exclusive or, called with the opposite sign. *)
Lemma convert_iff2_ok a b flip :
  flip = is_app_of t (Basic OP_XOR) -> args = [a; b] ->
  (forall V, beval V t = xorb flip (Bool.eqb (beval V a) (beval V b))) ->
  exists st', convert_iff2 t root (xorb flip sgn) st = Ok st' /\ outcome R t sgn root st0 st'.
Proof.
  intros Hflip Hargs Hb. pose proof lits_length as Hl. pose proof (operands_used _ _ _ st_operands) as Hu.
  pose proof values as Hval. rewrite Hargs in Hl, Hval. cbn [length] in Hl.
  pose proof st0_inv as Hi0. destruct (take_operands 2 (eq_sym Hl)) as [Ht Hsh].
  unfold convert_iff2. rewrite Ht, Hsh, <- Hflip.
  destruct lits as [|l2 [|l1 [|]]]; try discriminate Hl.
  apply Forall_cons in Hu as [U2 Hu]. apply Forall_cons in Hu as [U1 _].
  destruct root eqn:Er; eexists; (split; [done|]).
  - destruct flip, sgn; (apply root_outcome; [exact Hi0|by rewrite at_root|used_clauses|]);
      intros s V Hs Ha; injection (Hval s V Hs Ha) as E1 E2; rewrite Hb, <- E1, <- E2;
      cbn [forallb]; autorewrite with clauses; by destruct (lit_true s l1), (lit_true s l2).
  - apply (define_outcome R t _ _ _ _ _ (fun V => Bool.eqb (beval V a) (beval V b)));
      [exact Hi0|apply no_phase_ok| | | |].
    + intros k. unfold iff_clauses. used_clauses.
    + intros k s V Hs Ha. injection (Hval s V Hs Ha) as E1 E2. rewrite <- E1, <- E2.
      set (l := mk_literal k false). assert (s k = lit_true s l) as -> by done.
      unfold iff_clauses. cbn [forallb]; autorewrite with clauses;
        by destruct (lit_true s l), (lit_true s l1), (lit_true s l2).
    + intros k. destruct flip; (split; [done|]); intros s V Hk; rewrite Hb, <- Hk; unfold lit_true; cbn;
        by destruct (s k).
    + intros V. rewrite Hb. by destruct flip, sgn, (Bool.eqb _ _).
Qed.

Lemma convert_ok :
  args = get_args t -> convertible t = true -> connective t = true -> is_not t = false ->
  exists st', convert p t root sgn st = Ok st' /\ outcome R t sgn root st0 st'.
Proof.
  intros Hargs Hc Hn Hnot. pose proof convert_or_ok as Hor. pose proof convert_and_ok as Hand.
  pose proof convert_ite_ok as Hite. pose proof convert_implies_ok as Himp.
  pose proof (fun a b => convert_iff2_ok a b false) as Heq. pose proof (fun a b => convert_iff2_ok a b true) as Hxor.
  destruct t as [i so|d l]; [done|]. cbn [get_args] in Hargs. subst args.
  unfold is_not, is_app_of in *. cbn [convertible connective] in Hc, Hn. unfold convert.
  destruct (kind d) as [k|k|] eqn:Hk; try discriminate Hn.
  destruct k; try discriminate; cbn [beval] in *; rewrite ?Hk in *.
  - rewrite Hn in Hc. apply andb_true_iff in Hc as [Hl%Nat.eqb_eq _].
    destruct l as [|a [|b [|]]]; try discriminate Hl.
    change (is_bool b = true) in Hn. rewrite Hn in Heq. by apply (Heq a b).
  - apply andb_true_iff in Hc as [Hl%Nat.eqb_eq _].
    destruct l as [|a [|b [|c [|]]]]; try discriminate Hl. by apply (Hite a b c).
  - eexists. split; [done|]. by apply Hand.
  - eexists. split; [done|]. by apply Hor.
  - apply andb_true_iff in Hc as [Hl%Nat.eqb_eq _].
    destruct l as [|a [|b [|]]]; try discriminate Hl. rewrite <- (xorb_true_l sgn).
    apply (Hxor a b); [done|done|]. intros V. by destruct (beval V a), (beval V b).
  - apply andb_true_iff in Hc as [Hl%Nat.eqb_eq _].
    destruct l as [|a [|b [|]]]; try discriminate Hl. by apply (Himp a b).
Qed.
End Convert.

(** ** The machine *)

(** The frame of [e] is on top of those of [st]; after [n] iterations the machine
    has dealt with it. *)
Definition runs (n : nat) (st1 st' : imp) (depth : nat) : Prop :=
  forall m sz, (sz <= depth)%nat -> process_loop p (n + m) sz st1 = process_loop p m sz st'.

Lemma size_pos e : (1 <= size e)%nat.
Proof. destruct e; cbn; lia. Qed.

Lemma process_loop_step n sz st :
  (sz < length (frame_stack st))%nat ->
  process_loop p (Datatypes.S n) sz st = (st' ← step p st; process_loop p n sz st').
Proof. intros Hl. cbn [process_loop]. destruct (Nat.ltb_spec sz (length (frame_stack st))); [done|lia]. Qed.

(** What the frame of [e] needs from its arguments. *)
Definition runs_ok (e : expr) : Prop :=
  forall R root sgn st, inv R st -> convertible e = true -> connective e = true ->
  (root = true -> result_stack st = []) ->
  exists n st', (n < 2 * size e)%nat /\ outcome R e sgn root st st'
    /\ runs n (push_frame e root sgn st) st' (length (frame_stack st)).

Lemma outcome_pop R e sgn root (st st1 st2 : imp) fr :
  outcome R e sgn root st1 st2 -> frame_stack st1 = fr :: frame_stack st ->
  result_stack st1 = result_stack st -> extends st st1 -> outcome R e sgn root st (pop_frame st2).
Proof.
  intros (Hf & He & Ho) Hf1 Hr1 He1.
  assert (core_eq st2 (pop_frame st2)) as Hc by by repeat split.
  split; [cbn; by rewrite Hf, Hf1|]. split; [etransitivity; [exact He1|]; etransitivity; [exact He|by apply core_extends]|].
  destruct root.
  - destruct Ho as [Hr Hi]. split; [done|by apply (inv_core _ st2)].
  - destruct Ho as (Hi & l & Hr & Hm). split; [by apply (inv_core _ st2)|]. exists l.
    split; [cbn; congruence|]. by apply (extends_means st2); [apply core_extends|].
Qed.

Lemma convertible_args e :
  convertible e = true -> connective e = true -> Forall (fun a => convertible a = true) (get_args e).
Proof.
  destruct e as [i so|d args]; [done|]. cbn [convertible connective get_args]. intros Hc Hn.
  assert (forallb convertible args = true) as Hall.
  { destruct (kind d) as [[]|k|]; try discriminate; rewrite ?Hn in Hc;
      try done; by apply andb_true_iff in Hc as [_ ?]. }
  rewrite Forall_forall. intros a Ha. rewrite forallb_forall in Hall. by apply Hall, list_elem_of_In.
Qed.

Section Args.
Context (R : list signed_expr) (e : expr) (root sgn : bool) (st : imp).
Context (e_convertible : convertible e = true) (e_connective : connective e = true).
Context (e_not : is_not e = false) (at_root : root = true -> result_stack st = []).

Lemma visit_args_ok rest done lits st1 fr :
  get_args e = done ++ rest -> Forall runs_ok rest ->
  inv R st1 -> extends st st1 -> result_stack st1 = result_stack st ++ lits ->
  operands st1 lits done -> frame_stack st1 = fr :: frame_stack st ->
  exists n st', (n <= 2 * sum_list (map size rest))%nat /\ outcome R e sgn root st st'
    /\ forall m sz, (sz <= length (frame_stack st))%nat ->
         (s ← visit_args p e root sgn rest (length done) (frame_stack st) st1; process_loop p (n + m) sz s)
         = process_loop p m sz st'.
Proof.
  revert done lits st1 fr. induction rest as [|a rest IH]; intros done lits st1 fr Hargs Hruns Hi He Hr Ho Hf.
  - rewrite app_nil_r in Hargs.
    destruct (convert_ok R e root sgn st1 (result_stack st) lits done Hi Hr Ho at_root (eq_sym Hargs)
      e_convertible e_connective e_not) as (st2 & Hc & Hout).
    exists 0%nat, (pop_frame st2). split_and!; [cbn; lia| |].
    + apply (outcome_pop _ _ _ _ st (set_results (result_stack st) st1) st2 fr Hout); [done|done|].
      etransitivity; [exact He|by apply core_extends].
    + intros m sz Hsz. cbn [visit_args]. by rewrite Hc.
  - apply Forall_cons in Hruns as [Hrun Hruns].
    pose proof (convertible_args e e_convertible e_connective) as Hca. rewrite Hargs in Hca.
    apply Forall_app in Hca as [_ [Hca _]%Forall_cons].
    set (idx := length done). set (fr' := mk_frame e root sgn (Datatypes.S idx)).
    set (st2 := set_frames (fr' :: frame_stack st) st1).
    assert (core_eq st1 st2) as Hc2 by by repeat split.
    assert (length (done ++ [a]) = Datatypes.S idx) as Hidx by (rewrite length_app; cbn; lia).
    assert (forall st3, outcome R a false false st2 st3 ->
      exists n st', (n <= 2 * sum_list (map size rest))%nat /\ outcome R e sgn root st st'
        /\ frame_stack st3 = fr' :: frame_stack st
        /\ forall m sz, (sz <= length (frame_stack st))%nat ->
             (s ← visit_args p e root sgn rest (Datatypes.S idx) (frame_stack st) st3;
              process_loop p (n + m) sz s) = process_loop p m sz st') as Hnext.
    { intros st3 (Hf3 & He3 & Hi3 & l & Hr3 & Hm3).
      destruct (IH (done ++ [a]) (lits ++ [l]) st3 fr') as (n & st' & Hn & Hout & Hloop); try done.
      - by rewrite Hargs, <- app_assoc.
      - etransitivity; [exact He|]. etransitivity; [exact (core_extends _ _ Hc2)|exact He3].
      - rewrite Hr3. cbn. by rewrite Hr, <- app_assoc.
      - apply Forall2_app; [|constructor; [exact Hm3|constructor]].
        apply (operands_extends st1); [|done]. etransitivity; [exact (core_extends _ _ Hc2)|exact He3].
      - exists n, st'. rewrite Hidx in Hloop. by split_and!. }
    destruct (visit_ok R a false false st2) as [(st3 & Hv & Hout3)|[Hv Hcon]];
      [by apply (inv_core _ st1)|done|done| |].
    + destruct (Hnext st3 Hout3) as (n & st' & Hn & Hout & _ & Hloop).
      exists n, st'. split_and!; [cbn [map sum_list]; cbn in Hn |- *; lia|done|].
      intros m sz Hsz. cbn [visit_args]. fold fr' st2. rewrite Hv. by apply Hloop.
    + destruct (Hrun R false false st2) as (na & st3 & Hna & Hout3 & Hrun3); try done;
        [by apply (inv_core _ st1)|].
      destruct (Hnext st3 Hout3) as (n & st' & Hn & Hout & Hf3 & Hloop).
      exists (na + Datatypes.S n)%nat, st'. split_and!; [cbn in Hn |- *; lia|done|].
      intros m sz Hsz. cbn [visit_args]. fold fr' st2. rewrite Hv. cbn [mbind res_bind].
      replace (na + Datatypes.S n + m)%nat with (na + Datatypes.S (n + m))%nat by lia.
      rewrite Hrun3 by (cbn; lia). rewrite process_loop_step by (rewrite Hf3; cbn; lia).
      rewrite <- Hloop by done. unfold step. rewrite Hf3. unfold fr'. cbn [Nat.eqb]. rewrite e_not.
      replace (drop (Datatypes.S idx) (get_args e)) with rest; [done|].
      rewrite Hargs, (cons_middle a done rest), app_assoc, <- Hidx. by rewrite drop_app_length.
Qed.
End Args.

Lemma pop_push_frame e root sgn (st : imp) : pop_frame (push_frame e root sgn st) = st.
Proof. by destruct st. Qed.

Lemma step_push_frame e root sgn (st : imp) :
  step p (push_frame e root sgn st)
  = match process_cached e root sgn (push_frame e root sgn st) with
    | Some st => Ok (pop_frame st)
    | None =>
        if is_not e then '(_, s) ← visit p (get_arg e 0) root (negb sgn) st; Ok s
        else visit_args p e root sgn (get_args e) 0 (frame_stack st) (push_frame e root sgn st)
    end.
Proof.
  unfold step. cbn [frame_stack push_frame set_frames Nat.eqb].
  change (set_frames _ st) with (push_frame e root sgn st). by rewrite pop_push_frame, drop_0.
Qed.

(** The machine deals with every frame. *)
Lemma runs_all e : runs_ok e.
Proof.
  induction e as [i so|d args IH] using expr_induction; intros R root sgn st Hi Hc Hn Hroot; [done|].
  set (e := App d args) in *. set (st1 := push_frame e root sgn st).
  assert (core_eq st st1) as Hc1 by by repeat split.
  assert (forall n sz, (sz <= length (frame_stack st))%nat ->
    process_loop p (Datatypes.S n) sz st1 = (s ← step p st1; process_loop p n sz s)) as Hstep.
  { intros n sz Hsz. apply process_loop_step. cbn. lia. }
  destruct (process_cached e root sgn st1) as [st2|] eqn:Hca.
  { exists 1%nat, (pop_frame st2). split_and!; [pose proof (size_pos e); lia| |].
    - apply (outcome_pop _ _ _ _ st st1 st2 (mk_frame e root sgn 0)); try done.
      apply process_cached_ok; [by apply (inv_core _ st)|done|done].
    - intros m sz Hsz. cbn [Nat.add]. rewrite (Hstep m sz Hsz). unfold st1. rewrite step_push_frame.
      fold st1. by rewrite Hca. }
  destruct (is_not e) eqn:Hnot.
  - assert (exists a, args = [a]) as [a ->].
    { unfold is_not in Hnot. cbn in Hnot. apply bool_decide_eq_true in Hnot. cbn [convertible e] in Hc.
      rewrite Hnot in Hc. apply andb_true_iff in Hc as [Hl%Nat.eqb_eq _].
      destruct args as [|a [|]]; try discriminate Hl. by exists a. }
    apply Forall_cons in IH as [IHa _]. pose proof (convertible_args e Hc Hn) as [Hca' _]%Forall_cons.
    assert (forall V, xorb (negb sgn) (beval V a) = xorb sgn (beval V e)) as Hval.
    { intros V. unfold is_not in Hnot. cbn in Hnot. apply bool_decide_eq_true in Hnot.
      unfold e. cbn [beval]. rewrite Hnot. by destruct sgn, (beval V a). }
    assert (step p st1 = ('(_, s) ← visit p a root (negb sgn) st; Ok s)) as Hst1.
    { unfold st1. rewrite step_push_frame. fold st1. by rewrite Hca, Hnot. }
    destruct (visit_ok R a root (negb sgn) st Hi Hca' Hroot) as [(st2 & Hv & Hout)|[Hv Hcon]].
    + exists 1%nat, st2. split_and!; [pose proof (size_pos e); lia|by apply (outcome_ext _ a (negb sgn))|].
      intros m sz Hsz. cbn [Nat.add]. by rewrite (Hstep m sz Hsz), Hst1, Hv.
    + destruct (IHa R root (negb sgn) st Hi Hca' Hcon Hroot) as (n & st2 & Hsz & Hout & Hrun).
      exists (Datatypes.S n), st2. split_and!; [unfold e; cbn; lia|by apply (outcome_ext _ a (negb sgn))|].
      intros m sz Hd. cbn [Nat.add]. rewrite (Hstep (n + m)%nat sz Hd), Hst1, Hv. cbn. by apply Hrun.
  - destruct (visit_args_ok R e root sgn st Hc Hn Hnot Hroot args [] [] st1 (mk_frame e root sgn 0))
      as (n & st2 & Hsz & Hout & Hloop); try done.
    + exact (inv_core _ _ _ Hc1 Hi).
    + cbn. by rewrite app_nil_r.
    + constructor.
    + exists (Datatypes.S n), st2. split_and!; [unfold e; cbn; lia|done|].
      intros m sz Hd. cbn [Nat.add]. rewrite (Hstep (n + m)%nat sz Hd).
      rewrite <- Hloop by done. unfold st1 at 1. rewrite step_push_frame. fold st1.
      by rewrite Hca, Hnot.
Qed.

(** [process] ends, within its fuel. *)
Lemma process_ok R e root st :
  inv R st -> convertible e = true -> (root = true -> result_stack st = []) ->
  exists st', process p e root st = Ok st' /\ outcome R e false root st st'.
Proof.
  intros Hi Hc Hroot. unfold process.
  destruct (visit_ok R e root false st Hi Hc Hroot) as [(st' & Hv & Hout)|[Hv Hn]]; rewrite Hv;
    cbn [mbind res_bind]; [by exists st'|].
  destruct (runs_all e R root false st Hi Hc Hn Hroot) as (n & st' & Hsz & Hout & Hrun).
  exists st'. split; [|done].
  replace (2 * size e)%nat with (n + Datatypes.S (2 * size e - n - 1))%nat by lia.
  rewrite Hrun by lia. cbn [process_loop]. destruct Hout as [-> _].
  by rewrite Nat.ltb_irrefl.
Qed.

(** ** Goals *)

Local Abbreviation goal_state := (goal_state (S := S)).

(** Between the formulas of a goal; the assumptions have literals of their value. *)
Record goal_ok (R : list signed_expr) (g : goal_state) : Prop := mk_goal_ok {
  goal_inv : inv R (g_imp g);
  goal_results : result_stack (g_imp g) = [];
  goal_deps : forall d l, map_find (dep2asm g) d = Some l -> means_lit (g_imp g) l d false
}.

Lemma deps_extend st st' (m : list (expr * literal)) :
  extends st st' -> (forall d l, map_find m d = Some l -> means_lit st l d false) ->
  forall d l, map_find m d = Some l -> means_lit st' l d false.
Proof. intros He Hm d l Hl. by apply (extends_means st), Hm. Qed.

Lemma process_root_ok R n g :
  goal_ok R g -> convertible n = true ->
  exists g', process_root p n g = Ok g' /\ goal_ok ((n, false) :: R) g'
    /\ extends (g_imp g) (g_imp g') /\ dep2asm g' = dep2asm g /\ fresh_id g' = fresh_id g.
Proof.
  intros [Hi Hr Hd] Hc. unfold process_root. rewrite Hr.
  destruct (process_ok R n true (g_imp g) Hi Hc (fun _ => Hr)) as (st' & Hp & _ & He & Hr' & Hi').
  rewrite Hp. eexists. split; [done|]. split_and!; try done. split; [done|done|]. by apply (deps_extend (g_imp g)).
Qed.

(** A literal as an assumption, and the formula for its negation. *)
Definition atom_of (d : expr) : expr := if is_not d then get_arg d 0 else d.
Definition negated (d : expr) : expr := if is_not d then get_arg d 0 else m_mk_not d.

Definition good_dep (d : expr) : Prop := convertible d = true /\ is_bool (atom_of d) = true.

Lemma dep_parts d :
  convertible d = true ->
  convertible (atom_of d) = true /\ convertible (negated d) = true
  /\ (forall V, beval V d = xorb (is_not d) (beval V (atom_of d)))
  /\ (forall V, beval V (negated d) = negb (beval V d)).
Proof.
  intros Hc. unfold atom_of, negated. destruct (is_not d) eqn:Hn.
  - destruct d as [i so|fd l]; [done|]. unfold is_not in Hn. cbn in Hn. apply bool_decide_eq_true in Hn.
    cbn [convertible] in Hc. rewrite Hn in Hc. apply andb_true_iff in Hc as [Hl%Nat.eqb_eq Hc].
    destruct l as [|a [|]]; try discriminate Hl. cbn in Hc. rewrite andb_true_r in Hc. cbn [get_arg get_args nth].
    assert (forall V, beval V (App fd [a]) = negb (beval V a)) as Hb by (intros V; cbn [beval]; by rewrite Hn).
    split_and!; try done; intros V; rewrite Hb; by destruct (beval V a).
  - split_and!; try done. unfold m_mk_not. cbn. by rewrite Hc.
Qed.

Lemma const_atom e : is_uninterp_const e = true -> is_bool e = true -> convertible e = true /\ connective e = false.
Proof.
  destruct e as [i so|d [|]]; try done. cbn. intros Hk%bool_decide_eq_true. by rewrite Hk.
Qed.

(** The literal of the constant that stands for an assumption. *)
Lemma dep_literal_ok R c dep0 sgn g :
  goal_ok R g -> is_uninterp_const c = true -> is_bool c = true ->
  (forall s V, sat_in (g_imp g) s -> agrees (g_imp g) s V -> beval V dep0 = xorb sgn (beval V c)) ->
  exists st l, convert_atom p c false false (g_imp g) = Ok st /\ last (result_stack st) = Some l
    /\ extends (g_imp g) st
    /\ goal_ok R (mk_goal_state (set_results (removelast (result_stack st)) st)
                    (map_insert (dep2asm g) dep0 (signed l sgn)) (fresh_id g)).
Proof.
  intros [Hi Hr Hd] Hc Hcb Hv. destruct (const_atom c Hc Hcb) as [Hcc Hcn].
  destruct (convert_atom_ok R c false false (g_imp g) Hi Hcc Hcn ltac:(done))
    as (st & Ha & _ & He & Hi' & l & Hrs & Hm).
  rewrite Hr in Hrs. cbn in Hrs. exists st, l. rewrite Hrs. cbn [last removelast].
  split_and!; try done. split; cbn [g_imp dep2asm].
  - by apply (inv_core _ st).
  - done.
  - intros d l'. rewrite map_find_insert. case_decide as Hdd.
    + intros [= <-]. subst d. pose proof (signed_means st l c sgn Hm) as [Hu Hlv].
      split; [exact Hu|]. intros s V Hs Hag. rewrite (Hlv s V Hs Hag), xorb_false_l. symmetry.
      apply (Hv s V); [by apply He|by apply (extends_agrees _ st)].
    + intros Hl. apply (extends_means (g_imp g)); [|by apply Hd]. etransitivity; [exact He|]. by split.
Qed.

(** More was asserted, and nothing if the assumption is a literal. *)
Definition grows (R R' : list signed_expr) (literals : Prop) : Prop :=
  (forall V, Forall (holds_signed V) R' -> Forall (holds_signed V) R)
  /\ (literals -> R' = R).

Definition literal_dep (d : expr) : Prop := is_uninterp_const (atom_of d) = true.

Lemma insert_dep_ok R d g :
  goal_ok R g -> good_dep d ->
  exists R' g', insert_dep p d (atom_of d) (is_not d) g = Ok g' /\ goal_ok R' g'
    /\ grows R R' (literal_dep d).
Proof.
  intros Hg [Hc Hb]. destruct (dep_parts d Hc) as (Hca & _ & Hbd & _).
  unfold insert_dep, literal_dep. destruct (is_uninterp_const (atom_of d)) eqn:Hu; cbn [mbind res_bind].
  - destruct (dep_literal_ok R (atom_of d) d (is_not d) g Hg Hu Hb) as (st & l & Ha & Hl & _ & Hg'); [by auto|].
    rewrite Ha. cbn [mbind res_bind]. rewrite Hl. by exists R, (mk_goal_state
      (set_results (removelast (result_stack st)) st) (map_insert (dep2asm g) d (signed l (is_not d))) (fresh_id g)).
  - set (c := App (fresh_bool (fresh_id g)) []). set (st0 := mk_imp _ _ _ _ _ _ _ _ _ _ _ _).
    set (g0 := mk_goal_state st0 _ _).
    assert (core_eq (g_imp g) st0) as Hc0 by by repeat split.
    assert (goal_ok R g0) as Hg0.
    { destruct Hg as [Hi Hr Hd]. split; [by apply (inv_core _ (g_imp g))|done|].
      by apply (deps_extend (g_imp g)); [apply core_extends|]. }
    assert (convertible (m_mk_eq c (atom_of d)) = true) as Hceq.
    { unfold m_mk_eq. cbn [convertible kind]. cbn. rewrite Hb. cbn. by rewrite Hca. }
    assert (forall V, beval V (m_mk_eq c (atom_of d)) = Bool.eqb (beval V c) (beval V (atom_of d))) as Hbeq.
    { intros V. unfold m_mk_eq. cbn [beval kind]. by rewrite Hb. }
    destruct (process_root_ok R _ g0 Hg0 Hceq) as (g1 & Hp & Hg1 & _ & _ & _). rewrite Hp. cbn [mbind res_bind].
    destruct (dep_literal_ok _ c d (is_not d) g1 Hg1 eq_refl eq_refl) as (st & l & Ha & Hl & _ & Hg').
    { intros s V Hs Hag. pose proof (inv_sound _ _ (goal_inv _ _ Hg1) s V Hs Hag) as [Heq _]%Forall_cons.
      unfold holds_signed in Heq. cbn [fst snd] in Heq. rewrite xorb_false_l, Hbeq in Heq.
      apply eqb_prop in Heq. by rewrite Hbd, <- Heq. }
    rewrite Ha. cbn [mbind res_bind]. rewrite Hl. eexists _, _. split; [done|]. split; [exact Hg'|].
    split; [|done]. intros V HV. by apply Forall_cons in HV as [_ ?].
Qed.

Lemma insert_deps_ok R f ds fmls g :
  goal_ok R g -> Forall good_dep ds ->
  exists R' o g', insert_deps p f ds fmls g = Ok (o, g') /\ goal_ok R' g'
    /\ grows R R' (Forall literal_dep ds)
    /\ match o with None => f ∈ ds | Some l => l = fmls ++ map negated ds end.
Proof.
  revert R fmls g. induction ds as [|d ds IH]; intros R fmls g Hg Hd.
  { exists R, (Some fmls), g. split_and!; try done. cbn. by rewrite app_nil_r. }
  apply Forall_cons in Hd as [Hd Hds]. cbn [insert_deps].
  destruct (insert_dep_ok R d g Hg Hd) as (R1 & g1 & Hi & Hg1 & Hgr & Hlit).
  unfold atom_of in Hi. rewrite Hi. cbn [mbind res_bind]. case_bool_decide as Hdf.
  - exists R1, None, g1. split_and!; try done; [|by subst; left].
    split; [done|]. intros [Hl _]%Forall_cons. auto.
  - destruct (IH R1 (fmls ++ [if is_not d then (if is_not d then get_arg d 0 else d) else m_mk_not d]) g1 Hg1 Hds)
      as (R2 & o & g2 & Hr & Hg2 & [Hgr2 Hlit2] & Ho).
    exists R2, o, g2. split_and!; try done.
    + split; [by auto|]. intros [Hl Hls]%Forall_cons. rewrite Hlit2 by done. auto.
    + destruct o as [l|]; [|by right]. rewrite Ho, <- app_assoc. cbn. unfold negated. by destruct (is_not d).
Qed.

(** What an entry of the goal says. *)
Definition entry_holds (V : expr -> bool) (e : goal_entry) : Prop :=
  forallb (beval V) (deps e) = true -> beval V (form e) = true.

Definition good_entry (e : goal_entry) : Prop := convertible (form e) = true /\ Forall good_dep (deps e).

Lemma beval_or_negated V f ds :
  Forall good_dep ds ->
  beval V (m_mk_or ([f] ++ map negated ds)) = true <-> (forallb (beval V) ds = true -> beval V f = true).
Proof.
  intros Hds. unfold m_mk_or. cbn [beval kind app existsb].
  assert (existsb (beval V) (map negated ds) = negb (forallb (beval V) ds)) as ->.
  { induction Hds as [|d ds [Hc _] _ IH]; [done|]. cbn [map existsb forallb].
    destruct (dep_parts d Hc) as (_ & _ & _ & Hn). rewrite Hn, IH. by destruct (beval V d). }
  destruct (beval V f), (forallb (beval V) ds); cbn; naive_solver.
Qed.

Lemma convertible_or_negated f ds :
  convertible f = true -> Forall good_dep ds -> convertible (m_mk_or ([f] ++ map negated ds)) = true.
Proof.
  intros Hf Hds. cbn. rewrite Hf. cbn. induction Hds as [|d ds [Hc _] _ IH]; [done|]. cbn.
  destruct (dep_parts d Hc) as (_ & -> & _). done.
Qed.

Lemma assert_entry_ok R e g :
  goal_ok R g -> good_entry e ->
  exists R' g', assert_entry p e g = Ok g' /\ goal_ok R' g'
    /\ (forall V, Forall (holds_signed V) R' -> entry_holds V e /\ Forall (holds_signed V) R)
    /\ (Forall literal_dep (deps e) ->
        forall V, entry_holds V e -> Forall (holds_signed V) R -> Forall (holds_signed V) R').
Proof.
  intros Hg [Hf Hd]. unfold assert_entry, entry_holds. destruct (deps e) as [|d ds] eqn:Hds.
  { destruct (process_root_ok R (form e) g Hg Hf) as (g' & Hp & Hg' & _).
    exists ((form e, false) :: R), g'. split_and!; try done.
    - by intros V [? ?]%Forall_cons.
    - intros _ V He HR. constructor; [|done]. unfold holds_signed. cbn [fst snd].
      rewrite xorb_false_l. by apply He. }
  rewrite <- Hds in *. destruct (insert_deps_ok R (form e) (deps e) [form e] g Hg Hd)
    as (R1 & o & g1 & Hi & Hg1 & [Hgr Hlit] & Ho).
  rewrite Hi. cbn [mbind res_bind]. destruct o as [l|].
  - subst l. destruct (process_root_ok R1 _ g1 Hg1 (convertible_or_negated _ _ Hf Hd)) as (g2 & Hp & Hg2 & _).
    exists ((m_mk_or ([form e] ++ map negated (deps e)), false) :: R1), g2. split_and!; try done.
    + intros V [Hor HR]%Forall_cons. split; [|by apply Hgr]. by apply beval_or_negated.
    + intros Hl V He HR. rewrite Hlit by done. constructor; [|done]. unfold holds_signed. cbn [fst snd].
      rewrite xorb_false_l. by apply beval_or_negated.
  - exists R1, g1. split_and!; try done.
    + intros V HR. split; [|by apply Hgr]. intros Hall. rewrite forallb_forall in Hall.
      by apply Hall, list_elem_of_In.
    + intros Hl V _ HR. by rewrite Hlit.
Qed.

Lemma assert_entries_ok entries R g :
  goal_ok R g -> Forall good_entry entries ->
  exists R' g', for_in (assert_entry p) entries g = Ok g' /\ goal_ok R' g'
    /\ (forall V, Forall (holds_signed V) R' -> Forall (entry_holds V) entries /\ Forall (holds_signed V) R)
    /\ (Forall (fun e => Forall literal_dep (deps e)) entries ->
        forall V, Forall (entry_holds V) entries -> Forall (holds_signed V) R -> Forall (holds_signed V) R').
Proof.
  revert R g. induction entries as [|e es IH]; intros R g Hg He; [by exists R, g|].
  apply Forall_cons in He as [He Hes].
  destruct (assert_entry_ok R e g Hg He) as (R1 & g1 & H1 & Hg1 & Hs1 & Hc1).
  destruct (IH R1 g1 Hg1 Hes) as (R2 & g2 & H2 & Hg2 & Hs2 & Hc2).
  exists R2, g2. cbn [for_in]. rewrite H1. cbn [mbind res_bind]. split_and!; [done|done| |].
  - intros V [Hes' [He' HR]%Hs1]%Hs2. by rewrite Forall_cons.
  - intros [Hl Hls]%Forall_cons V [Hv Hvs]%Forall_cons HR. auto.
Qed.

(** The state of a goal without its cache, which [scoped_reset] forgets. *)
Lemma reset_ok R g st' :
  goal_ok R g -> solver st' = solver (g_imp g) -> atoms st' = atoms (g_imp g) ->
  lit_of_true st' = lit_of_true (g_imp g) -> app2lit st' = [] -> result_stack st' = [] ->
  unhandled_funs st' = unhandled_funs (g_imp g) -> goal_ok R (with_imp st' g).
Proof.
  intros [[Ha Hau Hca Ht Hs Hco Hh] _ Hd] Es Ea Et Ec Er Eu.
  split; cbn; [split|done|]; unfold means_lit, used_in, sat_in, agrees; rewrite ?Es, ?Ea, ?Et, ?Ec, ?Eu; try done.
Qed.

Lemma goal2sat_ok interface entries R g :
  goal_ok R g -> Forall good_entry entries ->
  exists R' g', goal2sat p interface entries g = Ok g' /\ goal_ok R' g'
    /\ (forall V, Forall (holds_signed V) R' -> Forall (entry_holds V) entries /\ Forall (holds_signed V) R)
    /\ (Forall (fun e => Forall literal_dep (deps e)) entries ->
        forall V, Forall (entry_holds V) entries -> Forall (holds_signed V) R -> Forall (holds_signed V) R').
Proof.
  intros Hg He. unfold goal2sat. set (st0 := mk_imp _ _ _ _ _ _ _ _ _ _ _ _).
  assert (goal_ok R (with_imp st0 g)) as Hg0.
  { destruct Hg as [Hi Hr Hd]. split; [by apply (inv_core _ (g_imp g))|done|].
    by apply (deps_extend (g_imp g)); [apply core_extends|]. }
  destruct (assert_entries_ok entries R _ Hg0 He) as (R' & g' & Hf & Hg' & Hs & Hc). rewrite Hf.
  cbn [mbind res_bind]. eexists R', _. split; [done|]. split_and!; [|done|done].
  apply (reset_ok R' g' _ Hg'); try done. apply Hg'.
Qed.

Lemma initial_ok x n : (exists s, models x s) -> goal_ok [] (mk_goal_state (initial_imp x) [] n).
Proof.
  intros [s Hs]. split; [split|done|done]; try done.
  - split; [apply empty_expr2var_ok|]. done.
  - intros V _. by exists s.
Qed.

(** The values a valuation of the variables gives to the atoms. *)
Definition decode (st : imp) (s : nat -> bool) (x : expr) : bool :=
  match lookup_var x (atoms st) with Some v => s v | None => false end.

Lemma decode_agrees R st s : inv R st -> agrees st s (decode st s).
Proof.
  intros Hi x v Hx. destruct (proj2 (inv_atoms _ _ Hi) x v Hx) as (Hc & Hn & Ht & Hf).
  rewrite beval_atom, Ht, Hf by done. unfold decode. by rewrite Hx.
Qed.
(** C21: goal2sat, on a fresh map and a solver whose clauses have a model, ends
    on every goal without variables and [distinct] whose assumptions are
    Boolean, and its clauses are equisatisfiable to the goal, over the atoms:
    every model of the clauses gives the atoms values under which every formula
    of the goal holds if its assumptions do, and if the assumptions are
    constants or their negations (else they have definitions of their own) all
    such values come from a model. The literal recorded for an assumption has
    its value in every model. *)
Theorem goal2sat_correct interface goal x n :
  (exists s, models x s) -> Forall good_entry goal ->
  exists g, goal2sat p interface goal (mk_goal_state (initial_imp x) [] n) = Ok g
    /\ (forall s, models (solver (g_imp g)) s ->
          agrees (g_imp g) s (decode (g_imp g) s)
          /\ forall V, agrees (g_imp g) s V -> Forall (entry_holds V) goal
               /\ forall d l, map_find (dep2asm g) d = Some l -> lit_true s l = beval V d)
    /\ (Forall (fun e => Forall literal_dep (deps e)) goal ->
          forall V, Forall (entry_holds V) goal ->
          exists s, models (solver (g_imp g)) s /\ agrees (g_imp g) s V).
Proof.
  intros Hx Hg. destruct (goal2sat_ok interface goal [] _ (initial_ok x n Hx) Hg)
    as (R & g & Hrun & [Hi _ Hd] & Hs & Hc).
  exists g. split_and!; [done| |].
  - intros s Hss. split; [by apply (decode_agrees R)|]. intros V Hag. split.
    + by apply Hs, (inv_sound R (g_imp g) Hi s).
    + intros d l Hl. destruct (Hd d l Hl) as [_ Hv]. by rewrite (Hv s V), xorb_false_l.
  - intros Hl V HV. by apply (inv_complete R (g_imp g) Hi V), Hc.
Qed.
End Correct.
