(* ===== verification/SatTactic.v ===== *)
(** The tactic "sat" (sat/tactic/sat_tactic.cpp): the formulas of a goal without
    redundancies become clauses, the solver decides them under the assumptions
    of the goal, and its answer is an unsatisfiable core, a model, or else the
    formulas that sat2goal recovers from the clauses of the solver. The solver is
    abstract here, so sat2goal is a parameter. *)
From S2P Require Import Prelude Ast Goal BitBlaster SatTypes Expr2Var Goal2Sat.

(** ** The solver's answer *)

(** The methods of [solver_core] that decide. *)
Class SatCheck (S : Type) := {
  check : list literal -> S -> lbool * S;
  get_model : S -> list lbool;
  get_core : S -> list literal;
  pop_to_base_level : S -> S
}.

(** The contract: a model gives every variable a value, satisfies the clauses and
    makes the assumptions true; a core is part of the assumptions, and no model of
    the clauses makes all of it true. *)
Class SatCheckOk (S : Type) `{SatSolverOk S, !SatCheck S} := {
  check_true ls x x' : check ls x = (l_true, x') ->
    exists s, models x s /\ Forall (fun l => lit_true s l = true) ls
      /\ forall v, used x v -> get_model x' !! v = Some (if s v then l_true else l_false);
  check_false ls x x' : check ls x = (l_false, x') ->
    get_core x' ⊆ ls /\ forall s, models x s -> ~ Forall (fun l => lit_true s l = true) (get_core x')
}.

(** ** The tactic *)

Section SatTactic.
Context {S MC : Type} `{SatSolver S, !SatCheck S} (p : g2s_params).
Context (sat2goal : S -> expr2var -> goal -> goal * option MC).

Inductive converter := Model2Model (md : model) | Sat2Goal (mc : MC).

Definition dep2assumptions (dep2asm : list (expr * literal)) : list literal := map snd dep2asm.

(** Keyed by the literal, of which the code takes the index. *)
Definition mk_asm2dep (dep2asm : list (expr * literal)) : list (literal * expr) :=
  foldl (fun m '(d, l) => map_insert m l d) [] dep2asm.

Fixpoint core_deps (asm2dep : list (literal * expr)) (ucore : list literal) (lcore : list expr) : res (list expr) :=
  match ucore with
  | [] => Ok lcore
  | lit :: ucore =>
      match map_find asm2dep lit with
      | Some dep => core_deps asm2dep ucore (lcore ++ [dep])
      | None => Fault OutOfBounds
      end
  end.

(** The values of the atoms that are constants. *)
Definition extract_model (map : list (expr * nat)) (ll_m : list lbool) : res model :=
  for_in (fun '(n, v) md =>
    match n with
    | App d [] =>
        if is_uninterp_const n then
          b ← aget ll_m (Z.of_nat v);
          Ok match b with
             | l_true => map_insert md d m_true
             | l_false => map_insert md d m_false
             | l_undef => md
             end
        else Ok md
    | _ => Ok md
    end) map [].

Definition sat_tactic (interface : list expr) (g : goal) (s : S) (fresh_id : nat)
    : res (goal * option converter * lbool) :=
  let produce_models := m_models_enabled g in
  let produce_core := m_core_enabled g in
  let g := elim_redundancies g in
  gs ← goal2sat p interface (m_entries g) (mk_goal_state (initial_imp s) [] fresh_id);
  let g := reset g in
  let st := g_imp gs in
  let unhandled := negb (bool_decide (unhandled_funs st = [])) in
  let '(r, s) := check (dep2assumptions (dep2asm gs)) (solver st) in
  match r, unhandled with
  | l_false, _ =>
      lcore ← (if produce_core then core_deps (mk_asm2dep (dep2asm gs)) (get_core s) [] else Ok []);
      g ← assert_expr m_false lcore g;
      Ok (inc_depth g, None, r)
  | l_true, false =>
      mc ← (if produce_models then
              md ← extract_model (m_mapping (atoms st)) (get_model s); Ok (Some (Model2Model md))
            else Ok None);
      Ok (inc_depth g, mc, r)
  | _, _ =>
      let s := pop_to_base_level s in
      let '(g, mc) := sat2goal s (atoms st) g in
      let g := if produce_core || unhandled then updt_prec OVER g else g in
      Ok (inc_depth g, option_map Sat2Goal mc, r)
  end.
End SatTactic.
