(* ===== verification/SatTacticOk.v ===== *)
(** The tactic "sat" is correct: a core is unsatisfiable with the goal, a model of
    the atoms is a model of the goal; and so is the composition with "bit-blast",
    which decides goals over bit-vectors. *)
From S2P Require Import Prelude Ast AstSem AstFacts Goal GoalUnder BlasterRewriter BlasterRewriterOk Rewriter BitBlaster BitBlasterOk BitBlasterTactic SatTypes Expr2Var Goal2Sat Goal2SatOk SatTactic.

(** ** The assumptions have literals *)

Section Deps.
Context {S : Type} `{SatSolver S} (p : g2s_params).

Lemma process_root_deps n (g g' : goal_state (S := S)) :
  process_root p n g = Ok g' -> dep2asm g' = dep2asm g.
Proof.
  unfold process_root. destruct (result_stack (g_imp g)); [|done]. intros (st & _ & [= <-])%bind_ok. done.
Qed.

Lemma insert_dep_deps dep0 dep sgn (g g' : goal_state (S := S)) :
  insert_dep p dep0 dep sgn g = Ok g' -> exists l, dep2asm g' = map_insert (dep2asm g) dep0 l.
Proof.
  unfold insert_dep. intros ([new_dep g1] & Hg & Hr)%bind_ok.
  assert (dep2asm g1 = dep2asm g) as Hd.
  { destruct (is_uninterp_const dep); [by injection Hg as _ <-|].
    apply bind_ok in Hg as (g2 & Hp%process_root_deps & [= _ <-]). done. }
  apply bind_ok in Hr as (st & _ & Hr). destruct (last (result_stack st)) as [l|]; [|done]. injection Hr as <-.
  exists (signed l sgn). cbn. by rewrite Hd.
Qed.

(** The assumptions recorded so far, each once. *)
Record recorded (g g' : goal_state (S := S)) : Prop := mk_recorded {
  rec_keys : NoDup (map fst (dep2asm g)) -> NoDup (map fst (dep2asm g'));
  rec_grows : forall d, is_Some (map_find (dep2asm g) d) -> is_Some (map_find (dep2asm g') d)
}.

#[local] Instance recorded_preorder : PreOrder recorded.
Proof. split; [by intros g; split|]. intros a b c [Hk Hg] [Hk' Hg']. split; auto. Qed.

Lemma recorded_same g g' : dep2asm g' = dep2asm g -> recorded g g'.
Proof. intros He. split; by rewrite He. Qed.

Lemma insert_dep_recorded dep0 dep sgn g g' :
  insert_dep p dep0 dep sgn g = Ok g' -> recorded g g' /\ is_Some (map_find (dep2asm g') dep0).
Proof.
  intros [l He]%insert_dep_deps. split; [split|]; rewrite He.
  - apply map_keys_insert.
  - intros d Hd. rewrite map_find_insert. by destruct (decide (dep0 = d)).
  - rewrite map_find_insert, decide_True by done. done.
Qed.

(** The formula is an assumption that is recorded, or all of them are. *)
Definition covered (f : expr) (ds : list expr) (g : goal_state (S := S)) : Prop :=
  is_Some (map_find (dep2asm g) f) /\ f ∈ ds \/ Forall (fun d => is_Some (map_find (dep2asm g) d)) ds.

Lemma covered_recorded f ds g g' : recorded g g' -> covered f ds g -> covered f ds g'.
Proof.
  intros [_ Hg] [[Hf Hin]|Hall]; [left; auto|right]. eapply Forall_impl; [exact Hall|]. auto.
Qed.

Lemma insert_deps_recorded f ds fmls g o g' :
  insert_deps p f ds fmls g = Ok (o, g') -> recorded g g' /\ covered f ds g'.
Proof.
  revert fmls g. induction ds as [|d ds IH]; intros fmls g; cbn [insert_deps].
  { intros [= _ <-]. split; [done|]. by right. }
  intros (g1 & Hi & Hr)%bind_ok. apply insert_dep_recorded in Hi as [Hg1 Hd]. case_bool_decide as Hdf.
  - injection Hr as _ <-. split; [done|]. left. subst d. split; [done|left].
  - apply IH in Hr as [Hg2 Hc]. split; [by etransitivity|]. destruct Hc as [[Hf Hin]|Hall].
    + left. split; [done|by right].
    + right. constructor; [|done]. by apply Hg2.
Qed.

Lemma assert_entry_recorded e g g' :
  assert_entry p e g = Ok g' -> recorded g g' /\ covered (form e) (deps e) g'.
Proof.
  unfold assert_entry. destruct (deps e) as [|d ds] eqn:Hd.
  { intros Hp%process_root_deps. split; [by apply recorded_same|by right]. }
  rewrite <- Hd. intros ([o g1] & Hi & Hr)%bind_ok. apply insert_deps_recorded in Hi as [Hg1 Hc].
  destruct o as [l|]; [|by injection Hr as <-].
  apply process_root_deps in Hr. split; [|by eapply covered_recorded; [apply recorded_same|]].
  etransitivity; [exact Hg1|by apply recorded_same].
Qed.

Lemma goal2sat_recorded interface es g g' :
  goal2sat p interface es g = Ok g' ->
  recorded g g' /\ Forall (fun e => covered (form e) (deps e) g') es.
Proof.
  unfold goal2sat. set (st0 := mk_imp _ _ _ _ _ _ _ _ _ _ _ _). intros (g1 & Hf & [= <-])%bind_ok.
  assert (forall g0, for_in (assert_entry p) es g0 = Ok g1 ->
    recorded g0 g1 /\ Forall (fun e => covered (form e) (deps e) g1) es) as Hloop.
  { clear. induction es as [|e es IH]; intros g0; cbn [for_in]; [by intros [= <-]|].
    intros (g2 & He & [Hr Hes]%IH)%bind_ok. apply assert_entry_recorded in He as [Hr2 Hc].
    split; [by etransitivity|]. constructor; [|done]. by apply (covered_recorded _ _ g2). }
  apply Hloop in Hf as [[Hk Hg] Hc]. split; [by split|exact Hc].
Qed.
End Deps.

(** ** The core and the model *)

Lemma asm2dep_find (es : list (expr * literal)) (acc : list (literal * expr)) (m : list (expr * literal)) l :
  (forall d l, (d, l) ∈ es -> map_find m d = Some l) ->
  (forall d, map_find acc l = Some d -> map_find m d = Some l) ->
  l ∈ map snd es \/ is_Some (map_find acc l) ->
  exists d, map_find (foldl (fun m '(d, l) => map_insert m l d) acc es) l = Some d /\ map_find m d = Some l.
Proof.
  revert acc. induction es as [|[d0 l0] es IH]; intros acc Hes Hacc Hl; cbn [foldl map snd] in *.
  { destruct Hl as [Hl|[d Hd]]; [by apply not_elem_of_nil in Hl|]. exists d. auto. }
  apply IH.
  - intros d l' Hin. apply Hes. by right.
  - intros d. rewrite map_find_insert. case_decide as Hll; [intros [= <-]; subst l0; apply Hes; left|apply Hacc].
  - rewrite map_find_insert. case_decide as Hll; [right; by eexists|].
    rewrite elem_of_cons in Hl. destruct Hl as [[?|?]|?]; [congruence|by left|by right].
Qed.

Lemma core_deps_ok (m : list (expr * literal)) core acc :
  NoDup (map fst m) -> core ⊆ dep2assumptions m ->
  exists lcore, core_deps (mk_asm2dep m) core acc = Ok (acc ++ lcore)
    /\ Forall2 (fun l d => map_find m d = Some l) core lcore.
Proof.
  intros Hnd. revert acc. induction core as [|l core IH]; intros acc Hsub; cbn [core_deps].
  { exists []. rewrite app_nil_r. by split. }
  destruct (asm2dep_find m [] m l) as (d & Hd & Hm).
  - intros d l' Hin. by apply map_find_nodup.
  - done.
  - left. apply Hsub. left.
  - unfold mk_asm2dep in *. rewrite Hd. destruct (IH (acc ++ [d])) as (lcore & Hr & Hf); [set_solver|].
    exists (d :: lcore). rewrite Hr, <- app_assoc. split; [done|by constructor].
Qed.

(** The value of a constant under the valuation of the variables. *)
Definition truth_value (b : bool) : expr := if b then m_true else m_false.

Lemma extract_model_ok (pairs : list (expr * nat)) (ll_m : list lbool) (s : nat -> bool) :
  (forall n v, (n, v) ∈ pairs -> ll_m !! v = Some (if s v then l_true else l_false)) ->
  exists md, extract_model pairs ll_m = Ok md
    /\ (forall (d : func_decl) (w : expr), map_find md d = Some w ->
          exists v, (App d [], v) ∈ pairs /\ is_uninterp_const (App d []) = true /\ w = truth_value (s v))
    /\ (forall d v, (App d [], v) ∈ pairs -> is_uninterp_const (App d []) = true -> is_Some (map_find md d)).
Proof.
  intros Hv. unfold extract_model.
  edestruct (for_in_rule (fun (seen : list (expr * nat)) (md : model) =>
    (forall (d : func_decl) (w : expr), map_find md d = Some w ->
       exists v, (App d [], v) ∈ seen /\ is_uninterp_const (App d []) = true /\ w = truth_value (s v))
    /\ (forall d v, (App d [], v) ∈ seen -> is_uninterp_const (App d []) = true -> is_Some (map_find md d))))
    with (l := pairs) as (md & Hr & Hp); [| |exists md; split; [exact Hr|exact Hp]].
  - split; [done|]. intros d v Hin. by apply not_elem_of_nil in Hin.
  - intros seen [n v] rest md Hpairs [Hf Hb].
    assert (forall d w, map_find md d = Some w -> exists v', (App d [], v') ∈ seen ++ [(n, v)]
      /\ is_uninterp_const (App d []) = true /\ w = truth_value (s v')) as Hf'.
    { intros d w (v' & Hin & Hr)%Hf. exists v'. split; [set_solver|done]. }
    assert (forall d v', is_uninterp_const n = false -> (App d [], v') ∈ seen ++ [(n, v)] ->
      is_uninterp_const (App d []) = true -> is_Some (map_find md d)) as Hb'.
    { intros d v' Hn [Hin|Hin%list_elem_of_singleton]%elem_of_app Hc; [by eapply Hb|].
      injection Hin as <- _. congruence. }
    destruct n as [i so|d [|a args]]; [exists md; split; [done|split; [done|]]; intros; by eapply Hb'| |].
    + destruct (is_uninterp_const (App d [])) eqn:Hc; [|exists md; split; [done|split; [done|]]; intros; by eapply Hb'].
      rewrite (aget_nat _ _ (if s v then l_true else l_false)) by (apply (Hv (App d [])); rewrite Hpairs; set_solver).
      cbn [mbind res_bind]. exists (map_insert md d (truth_value (s v))). split; [by destruct (s v)|]. split.
      * intros d' w. rewrite map_find_insert. case_decide as Hd; [|apply Hf']. intros [= <-]. subst d'.
        exists v. split; [set_solver|done].
      * intros d' v' Hin Hc'. rewrite map_find_insert. case_decide as Hd; [by eexists|].
        apply elem_of_app in Hin as [Hin|Hin%list_elem_of_singleton]; [by eapply Hb|]. congruence.
    + exists md. split; [done|]. split; [done|]. intros; by eapply Hb'.
Qed.

(** ** Without redundancies *)

Lemma reduced_cases (P : goal_entry -> Prop) es g g' :
  reduced es g g' -> Forall P es ->
  (forall e1 e2 d, P e1 -> P e2 -> is_not (form e1) = true -> get_arg (form e1) 0 = form e2 ->
     (forall x, x ∈ d <-> x ∈ deps e1 \/ x ∈ deps e2) -> P (entry_of m_false d g)) ->
  Forall P (m_entries g').
Proof.
  intros [Hsub|(e1 & e2 & d & H1 & H2 & Hn & Ha & Hd & He)] Hall Hf; rewrite Forall_forall in Hall.
  - rewrite Forall_forall. auto.
  - rewrite He, Forall_singleton. by apply (Hf e1 e2); auto.
Qed.

Lemma entry_of_deps (Q : expr -> Prop) f d g : Forall Q d -> Forall Q (deps (entry_of f d g)).
Proof. cbn. by destruct (m_core_enabled g). Qed.

Lemma joined_deps (Q : expr -> Prop) d d1 d2 :
  (forall x : expr, x ∈ d <-> x ∈ d1 \/ x ∈ d2) -> Forall Q d1 -> Forall Q d2 -> Forall Q d.
Proof. rewrite !Forall_forall. intros Hd H1 H2 x [?|?]%Hd; auto. Qed.

Lemma reduced_good es g g' : reduced es g g' -> Forall good_entry es -> Forall good_entry (m_entries g').
Proof.
  intros Hr Hall. apply (reduced_cases good_entry es g g' Hr Hall). intros e1 e2 d [_ H1] [_ H2] _ _ Hd.
  split; [done|]. by eapply entry_of_deps, joined_deps.
Qed.

Lemma reduced_literal es g g' :
  reduced es g g' -> Forall (fun e => Forall literal_dep (deps e)) es ->
  Forall (fun e => Forall literal_dep (deps e)) (m_entries g').
Proof.
  intros Hr Hall. apply (reduced_cases _ es g g' Hr Hall). intros e1 e2 d H1 H2 _ _ Hd.
  by eapply entry_of_deps, joined_deps.
Qed.

Lemma reduced_no_deps es g g' : reduced es g g' -> Forall no_deps es -> Forall no_deps (m_entries g').
Proof.
  intros Hr Hall. apply (reduced_cases _ es g g' Hr Hall). intros e1 e2 d H1 H2 _ _ Hd.
  unfold no_deps. cbn. destruct (m_core_enabled g); [|done]. destruct d as [|x d]; [done|].
  assert (x ∈ deps e1 \/ x ∈ deps e2) as [Hx|Hx] by (apply Hd; left); [rewrite H1 in Hx|rewrite H2 in Hx];
    by apply not_elem_of_nil in Hx.
Qed.

(** A negation has the opposite value of its argument. *)
Lemma beval_negation V e a : convertible e = true -> is_not e = true -> get_arg e 0 = a -> beval V e = negb (beval V a).
Proof.
  destruct e as [i s|d args]; [done|]. unfold is_not. cbn [is_app_of convertible]. intros Hc Hk%bool_decide_eq_true <-.
  rewrite Hk in Hc. apply andb_true_iff in Hc as [Hl%Nat.eqb_eq _]. destruct args as [|x [|]]; try done.
  cbn [beval]. by rewrite Hk.
Qed.

Lemma reduced_holds V es g g' :
  reduced es g g' -> Forall good_entry es -> (m_core_enabled g = false -> Forall no_deps es) ->
  Forall (entry_holds V) es -> Forall (entry_holds V) (m_entries g').
Proof.
  intros [Hsub|(e1 & e2 & d & H1 & H2 & Hn & Ha & Hd & He)] Hgood Hcore Hall.
  - rewrite Forall_forall in *. auto.
  - rewrite He, Forall_singleton. rewrite Forall_forall in Hall, Hgood. unfold entry_holds in *. cbn [form deps entry_of].
    intros Hds. exfalso. assert (forallb (beval V) (deps e1) = true /\ forallb (beval V) (deps e2) = true) as [Hd1 Hd2].
    { destruct (m_core_enabled g).
      - rewrite !forallb_forall in *. split; intros x Hx; apply Hds, list_elem_of_In, Hd; [left|right]; by apply list_elem_of_In.
      - specialize (Hcore eq_refl). rewrite Forall_forall in Hcore. by rewrite (Hcore e1), (Hcore e2). }
    pose proof (Hall e1 H1 Hd1) as Hv1. pose proof (Hall e2 H2 Hd2) as Hv2. destruct (Hgood e1 H1) as [Hc _].
    rewrite (beval_negation V _ _ Hc Hn Ha), Hv2 in Hv1. done.
Qed.

(** ** The tactic *)

Section Correct.
Context {S MC : Type} `{SatCheckOk S} (p : g2s_params).
Context (sat2goal : S -> expr2var -> goal -> goal * option MC).
Local Abbreviation tactic := (sat_tactic p sat2goal).
Local Abbreviation goal_state := (goal_state (S := S)).

Lemma no_deps_asm interface es (g g' : goal_state) :
  goal2sat p interface es g = Ok g' -> Forall no_deps es -> dep2asm g' = dep2asm g.
Proof.
  unfold goal2sat. set (st0 := mk_imp _ _ _ _ _ _ _ _ _ _ _ _). intros (g1 & Hf & [= <-])%bind_ok Hes.
  change (dep2asm g) with (dep2asm (with_imp st0 g)). revert Hf. generalize (with_imp st0 g).
  induction Hes as [|e es He _ IH]; intros g0; cbn [for_in]; [by intros [= <-]|].
  intros (g2 & Hp & ->%IH)%bind_ok. unfold assert_entry in Hp. rewrite He in Hp. by apply process_root_deps in Hp.
Qed.

(** An assumption of the core that fails. *)
Lemma core_unsat R (gs : goal_state) s V core lcore :
  goal_ok R gs -> models (solver (g_imp gs)) s -> agrees (g_imp gs) s V ->
  Forall2 (fun l d => map_find (dep2asm gs) d = Some l) core lcore ->
  ~ Forall (fun l => lit_true s l = true) core -> forallb (beval V) lcore = false.
Proof.
  intros Hg Hs Hag Hcore Hn. destruct (forallb (beval V) lcore) eqn:Hall; [|done]. destruct Hn.
  rewrite forallb_forall in Hall. rewrite Forall_forall. intros l Hl.
  apply list_elem_of_lookup in Hl as [i Hi]. destruct (Forall2_lookup_l _ _ _ _ _ Hcore Hi) as (d & Hd & Hm).
  destruct (goal_deps _ _ Hg d l Hm) as [_ Hv]. rewrite (Hv s V Hs Hag), xorb_false_l. apply Hall.
  apply list_elem_of_In. by eapply list_elem_of_lookup_2.
Qed.

(** An interpretation with the values of the model. *)
Definition follows (I : interp) (md : model) : Prop :=
  forall d w, map_find md d = Some w -> i_decl I d [] = eval default_interp w.

Lemma atom_pair (a : expr2var) n v : e2v_ok a -> (n, v) ∈ m_mapping a <-> lookup_var n a = Some v.
Proof.
  intros Ha. unfold lookup_var. rewrite list_elem_of_lookup. split.
  - intros [i Hi]. assert (map_find (m_id2map a) n = Some i) as -> by (apply (Ha n i); by exists v). cbn. by rewrite Hi.
  - destruct (map_find (m_id2map a) n) as [i|] eqn:Hn; [|done]. apply (Ha n i) in Hn as [w Hw]. cbn in *.
    rewrite Hw. intros [= <-]. by exists i.
Qed.

Lemma follows_agrees R (st : imp (S := S)) s md I :
  inv R st -> unhandled_funs st = [] ->
  (forall d w, map_find md d = Some w ->
     exists v, (App d [], v) ∈ m_mapping (atoms st) /\ is_uninterp_const (App d []) = true /\ w = truth_value (s v)) ->
  (forall d v, (App d [], v) ∈ m_mapping (atoms st) -> is_uninterp_const (App d []) = true -> is_Some (map_find md d)) ->
  follows I md -> agrees st s (tr I).
Proof.
  intros Hi Hu Hf Hb HI x v Hx. pose proof (inv_handled _ _ Hi Hu x v Hx) as Hc.
  pose proof (inv_atoms _ _ Hi) as [He2v Hnode]. destruct (Hnode x v Hx) as (Hcx & Hnx & Htx & Hfx).
  rewrite beval_atom, Htx, Hfx by done. destruct x as [i so|d [|]]; try done.
  apply atom_pair in Hx as Hp; [|done]. destruct (Hb d v Hp Hc) as [w Hw]. destruct (Hf d w Hw) as (v' & Hv' & _ & ->).
  apply atom_pair in Hv'; [|done]. assert (v' = v) as -> by congruence. apply HI in Hw.
  cbn in Hc. apply bool_decide_eq_true in Hc. unfold tr. cbn. unfold decl_apply. rewrite Hc. cbn. rewrite Hw.
  by destruct (s v).
Qed.

(** Under a model of the clauses that makes the assumptions true. *)
Lemma all_true es (gs : goal_state) R s V :
  goal_ok R gs -> (forall V, Forall (holds_signed V) R -> Forall (entry_holds V) es) ->
  Forall (fun e => covered (form e) (deps e) gs) es ->
  models (solver (g_imp gs)) s -> agrees (g_imp gs) s V -> NoDup (map fst (dep2asm gs)) ->
  Forall (fun l => lit_true s l = true) (dep2assumptions (dep2asm gs)) ->
  Forall (fun e => beval V (form e) = true) es.
Proof.
  intros Hg Hsound Hcov Hs Hag Hnd Hasm. pose proof (inv_sound _ _ (goal_inv _ _ Hg) s V Hs Hag) as Hall%Hsound.
  assert (forall d, is_Some (map_find (dep2asm gs) d) -> beval V d = true) as Hd.
  { intros d [l Hl]. destruct (goal_deps _ _ Hg d l Hl) as [_ Hv]. specialize (Hv s V Hs Hag). rewrite xorb_false_l in Hv.
    rewrite <- Hv. rewrite Forall_forall in Hasm. apply Hasm. apply map_find_elem in Hl.
    unfold dep2assumptions. apply list_elem_of_fmap. by exists (d, l). }
  rewrite Forall_forall in *. intros e He. specialize (Hall e He). destruct (Hcov e He) as [[Hf _]|Hds]; [by apply Hd|].
  apply Hall. rewrite forallb_forall. intros d Hin%list_elem_of_In. rewrite Forall_forall in Hds. by apply Hd, Hds.
Qed.

(** Truth values for Boolean constants. *)
Definition truth_model (md : model) : Prop :=
  forall d w, map_find md d = Some w -> range d = BoolSort /\ (w = m_true \/ w = m_false).

(** What the tactic promises of its answer for the goal [g]. *)
Definition answer_ok (g : goal) (answer : goal * option (converter (MC := MC)) * lbool) : Prop :=
  let '(g', mc, r) := answer in
  match r, mc with
  | l_false, _ =>
      m_inconsistent g' = true
      /\ exists lcore, m_entries g' = [mk_entry m_false lcore]
           /\ (m_core_enabled g = false -> lcore = [])
           /\ (Forall (fun e => Forall literal_dep (deps e)) (m_entries g) ->
               forall V, Forall (entry_holds V) (m_entries g) -> forallb (beval V) lcore = false)
  | l_true, Some (Model2Model md) =>
      m_entries g' = [] /\ truth_model md /\ forall I, follows I md -> goal_true I g
  | _, _ => True
  end.

Lemma sat_tactic_ok interface g x n :
  goal_wf g -> Forall good_entry (m_entries g) -> (m_core_enabled g = false -> Forall no_deps (m_entries g)) ->
  (exists s, models x s) ->
  exists answer, tactic interface g x n = Ok answer /\ answer_ok g answer.
Proof.
  intros Hg Hgood Hcore Hx. pose proof (elim_redundancies_entries g) as Hred.
  pose proof (elim_core g) as Hec. set (g1 := elim_redundancies g) in *.
  pose proof (reduced_good _ _ _ Hred Hgood) as Hgood1.
  destruct (goal2sat_ok p interface (m_entries g1) [] _ (initial_ok x n Hx) Hgood1)
    as (R & gs & Hrun & Hgs & Hsound & Hcomplete).
  destruct (goal2sat_recorded p interface _ _ _ Hrun) as [[Hnd _] Hcov]. specialize (Hnd ltac:(constructor)).
  unfold sat_tactic. fold g1. rewrite Hrun. cbn [mbind res_bind].
  destruct (check (dep2assumptions (dep2asm gs)) (solver (g_imp gs))) as [r s'] eqn:Hcheck.
  destruct r.
  - destruct (check_true _ _ _ Hcheck) as (s & Hs & Hasm & Hmodel).
    destruct (bool_decide (unhandled_funs (g_imp gs) = [])) eqn:Hu; cbn [negb].
    + apply bool_decide_eq_true in Hu. destruct (m_models_enabled g); [|eexists; split; [done|exact I]].
      destruct (inv_atoms _ _ (goal_inv _ _ Hgs)) as [He2v Hnode].
      destruct (extract_model_ok (m_mapping (atoms (g_imp gs))) (get_model s') s) as (md & Hmd & Hf & Hb).
      { intros e v Hin. apply atom_pair in Hin; [|done]. apply Hmodel. by apply (inv_atoms_used _ _ (goal_inv _ _ Hgs) e). }
      rewrite Hmd. cbn [mbind res_bind]. eexists. split; [done|]. split; [done|]. split.
      * intros d w (v & Hin & Hc & ->)%Hf. apply atom_pair in Hin; [|done]. destruct (Hnode _ _ Hin) as (Hcv & _).
        cbn in Hc, Hcv. apply bool_decide_eq_true in Hc. rewrite Hc in Hcv. unfold is_bool in Hcv. cbn in Hcv.
        destruct (range d); try done. split; [done|]. destruct (s v); [by left|by right].
      * intros I HI. pose proof (follows_agrees R (g_imp gs) s md I (goal_inv _ _ Hgs) Hu Hf Hb HI) as Hag.
        destruct (elim_redundancies_ok I g Hg) as (Hg1 & Hiff & _). apply Hiff.
        assert (forall V, Forall (holds_signed V) R -> Forall (entry_holds V) (m_entries g1)) as Hs1 by (intros V HV; by apply Hsound).
        pose proof (all_true (m_entries g1) gs R s (tr I) Hgs Hs1 Hcov Hs Hag Hnd Hasm) as Hall.
        destruct Hg1 as [Hw _]. unfold goal_true. fold g1 in Hw |- *. rewrite Forall_forall in *. intros e He.
        rewrite <- beval_tr; [by apply Hall|by apply Hw|by apply Hgood1].
    + destruct (sat2goal _ _ _) as [g2 mc]. eexists. split; [done|by destruct mc].
  - destruct (check_false _ _ _ Hcheck) as [Hsub Hunsat].
    assert (exists lcore, (if m_core_enabled g then core_deps (mk_asm2dep (dep2asm gs)) (get_core s') [] else Ok []) = Ok lcore
      /\ (m_core_enabled g = false -> lcore = [])
      /\ Forall2 (fun l d => map_find (dep2asm gs) d = Some l) (get_core s') lcore) as (lcore & -> & Hnc & Hlcore).
    { destruct (m_core_enabled g).
      { destruct (core_deps_ok _ _ [] Hnd Hsub) as (lcore & Hr & Hf). by exists lcore. }
      exists []. split; [done|]. split; [done|].
      rewrite (no_deps_asm interface _ _ _ Hrun) in Hsub by (by eapply reduced_no_deps; [exact Hred|auto]).
      cbn in Hsub. destruct (get_core s') as [|l core]; [done|]. specialize (Hsub l ltac:(left)).
      by apply not_elem_of_nil in Hsub. }
    cbn [mbind res_bind]. eexists. split; [done|]. split; [done|]. exists lcore. split; [|split; [done|]].
    + change (m_entries (push_back m_false lcore (Goal.reset g1)) = [mk_entry m_false lcore]).
      unfold push_back, entry_of. cbn [m_entries]. change (m_core_enabled (Goal.reset g1)) with (m_core_enabled g1).
      rewrite Hec. cbn. destruct (m_core_enabled g); [done|by rewrite Hnc].
    + intros Hlit V HV. specialize (Hcomplete (reduced_literal _ _ _ Hred Hlit) V).
      destruct (inv_complete _ _ (goal_inv _ _ Hgs) V) as (s & Hs & Hag).
      { apply Hcomplete; [|constructor]. by apply (reduced_holds V _ g _ Hred). }
      by apply (core_unsat R gs s V (get_core s') lcore Hgs Hs Hag Hlcore), Hunsat.
  - destruct (sat2goal _ _ _) as [g2 mc]. eexists. split; [done|by destruct mc].
Qed.

(** C8: The tactic "sat" ends on every goal it can translate, over a solver that
    keeps its contract, and its answer is right: if the goal becomes [false], the
    recorded assumptions are an unsatisfiable core (when assumptions are literals)
    - no values of the atoms satisfy the goal under all of them; if a model is
    returned, every interpretation with its values satisfies all the formulas of
    the goal, also those that depend on assumptions. *)
Theorem sat_tactic_correct interface g x n :
  goal_wf g -> Forall good_entry (m_entries g) -> (m_core_enabled g = false -> Forall no_deps (m_entries g)) ->
  (exists s, models x s) ->
  exists answer, tactic interface g x n = Ok answer /\ answer_ok g answer.
Proof. apply sat_tactic_ok. Qed.

(** ** Bit-blasting, then deciding *)

Context (get_id : expr -> Z) (opts : options) (ref_count : rewriter (C := state) -> expr -> nat).

(** What the answer for the blasted goal says of the goal [g] over bit-vectors. *)
Definition decided (g : goal) (mc : option bit_blaster_model_converter)
    (answer : goal * option (converter (MC := MC)) * lbool) : Prop :=
  let '(_, sat_mc, r) := answer in
  match r, sat_mc with
  | l_false, _ => forall I, ~ goal_true I g
  | l_true, Some (Model2Model md) =>
      goal_true (interp_of (match mc with Some mc => convert_model mc md | None => md end)) g
  | _, _ => True
  end.

Lemma truth_model_boolean md : truth_model md -> boolean_model md.
Proof.
  intros Hmd d w [Hr Hw]%Hmd. split; [|done]. unfold bv_const. by rewrite Hr, andb_false_r.
Qed.

Lemma follows_interp_of md : truth_model md -> follows (interp_of md) md.
Proof.
  intros Hmd d w Hw. cbn. unfold model_decl. rewrite Hw. destruct (Hmd d w Hw) as [-> Hb].
  rewrite decide_True; [done|]. by destruct Hb as [-> | ->].
Qed.

Lemma blast_loop_plain fuel idxs change g rw change' g' rw' :
  plain g -> blast_loop get_id opts ref_count fuel idxs change g rw = Ok (change', g', rw') -> plain g'.
Proof.
  revert change g rw. induction idxs as [|idx idxs IH]; intros change g rw Hg; cbn [blast_loop]; [by intros [= _ <- _]|].
  destruct (m_inconsistent g); [by intros [= _ <- _]|]. intros (curr & _ & ([r rw1] & _ & Hr)%bind_ok)%bind_ok.
  case_bool_decide; [by eapply IH|]. apply bind_ok in Hr as (g1 & Hu & Hr). eapply IH; [|exact Hr].
  by eapply update_plain.
Qed.

Lemma goals_decided fuel interface g n m x :
  goal_wf g -> plain g -> m_models_enabled g = true -> Forall (blastable opts fuel) (m_entries g) ->
  goal_below n g -> (exists s, models x s) ->
  exists g' mc rw', bit_blaster_tactic get_id opts ref_count fuel g (initial_rewriter (initial_state n)) = Ok (g', mc, rw')
    /\ (Forall good_entry (m_entries g') ->
        exists answer, tactic interface g' x m = Ok answer /\ decided g mc answer).
Proof.
  intros Hg Hplain Hmodels Hall Hbelow Hx.
  destruct (tactic_ok get_id opts ref_count fuel g _ (initial_bb_ok get_id opts n) Hg Hall Hbelow)
    as (g' & mc & rw' & Hrun & _ & Hg' & Hext & _).
  destruct (converter_ok get_id opts ref_count fuel g n Hg Hmodels Hall Hbelow) as (g2 & mc2 & rw2 & Hrun2 & Hconv).
  rewrite Hrun in Hrun2. injection Hrun2 as <- <- <-.
  assert (plain g') as Hplain'.
  { unfold bit_blaster_tactic in Hrun. apply bind_ok in Hrun as ([[c g1] rw1] & Hl & [= <- _ _]).
    by apply blast_loop_plain in Hl. }
  exists g', mc, rw'. split; [exact Hrun|]. intros Hgood.
  destruct (sat_tactic_ok interface g' x m Hg' Hgood (fun _ => proj2 Hplain') Hx) as (answer & Ha & Hok).
  exists answer. split; [exact Ha|]. destruct answer as [[ga mca] r]. unfold answer_ok, decided in *. destruct r.
  - destruct mca as [[md|mc']|]; try done. destruct Hok as (_ & Hmd & HI). apply Hconv; [by apply truth_model_boolean|].
    by apply HI, follows_interp_of.
  - destruct Hok as (_ & lcore & _ & Hnil & Hunsat). rewrite (Hnil (proj1 Hplain')) in Hunsat. intros I HI.
    destruct (Hext I (consistent_initial I n) HI) as (J & _ & _ & HJ).
    assert (Forall (fun e => Forall literal_dep (deps e)) (m_entries g')) as Hlit.
    { eapply Forall_impl; [apply Hplain'|]. intros e ->. constructor. }
    assert (Forall (entry_holds (tr J)) (m_entries g')) as HV; [|by specialize (Hunsat Hlit (tr J) HV)].
    destruct Hg' as [Hw _]. unfold goal_true in HJ. rewrite Forall_forall in *. intros e He _.
    destruct (Hgood e He) as [Hc _]. rewrite beval_tr by auto. by apply HJ.
  - done.
Qed.
(** C3: Bit-blasting and then "sat" decide a goal over bit-vectors that records
    models and no cores: if the second tactic answers false, no interpretation
    satisfies the goal; if it returns a model, the converted model, with the
    values its bits give to the bit-vector constants, satisfies the goal. *)
Theorem bit_vector_goals_decided fuel interface g n m x :
  goal_wf g -> plain g -> m_models_enabled g = true -> Forall (blastable opts fuel) (m_entries g) ->
  goal_below n g -> (exists s, models x s) ->
  exists g' mc rw', bit_blaster_tactic get_id opts ref_count fuel g (initial_rewriter (initial_state n)) = Ok (g', mc, rw')
    /\ (Forall good_entry (m_entries g') ->
        exists answer, tactic interface g' x m = Ok answer /\ decided g mc answer).
Proof. apply goals_decided. Qed.
End Correct.
