(* ===== verification/Pipeline.v ===== *)
(** The tactics one after the other: "simplify", "propagate-values", "bit-blast"
    and "sat". The first two keep the meaning of the goal up to the logged steps
    that rewrite the signed overflow predicate or a conversion from or to the
    integers, so what the last two decide is decided for the goal up to them. *)
From S2P Require Import Prelude Ast AstSem AstFacts BoolRewriter BoolRewriterOk ExprSubstitution BvPlugin BvFacts PolyRewriter BvRewriterLeq BvRewriter BvRewriterOk Rewriter RewriterOk ThRewriter ThRewriterRun Goal GoalUnder SimplifyTactic SharedOccs PropagateValues PropagateValuesOk BlasterRewriter BlasterRewriterOk BitBlaster BitBlasterOk BitBlasterTactic SatTypes Expr2Var Goal2Sat Goal2SatOk SatTactic SatTacticOk.

Section Preprocess.
Context (params : th_params) (b_rw : bool_rewriter_params) (bv_rw : bv_params).
Context (get_id : expr -> Z) (ref_count : expr -> nat).
Context (mk_conversion : func_decl -> list expr -> br_status).
Context (counts : th_rewriter -> expr -> nat) (refs : goal -> th_rewriter -> expr -> nat).

(** The two tactics, each with a rewriter of its own; the traces of the two. *)
Definition preprocess (fuel max_rounds : nat) (g : goal) : res goal :=
  '(g, _) ← simplify_tactic params b_rw bv_rw get_id ref_count mk_conversion counts fuel g (new_simplify_imp None);
  '(g, _) ← propagate_values_tactic params b_rw bv_rw get_id ref_count mk_conversion counts refs fuel max_rounds g
              (new_propagate_values None g);
  Ok g.

Definition preprocess_log (fuel max_rounds : nat) (g : goal) : res (list (expr * expr)) :=
  '(g, st) ← simplify_tactic params b_rw bv_rw get_id ref_count mk_conversion (traced_counts counts) fuel g
               (new_simplify_imp (Some []));
  '(_, st') ← propagate_values_tactic params b_rw bv_rw get_id ref_count mk_conversion (traced_counts counts)
                (traced_refs refs) fuel max_rounds g (new_propagate_values (Some []) g);
  Ok (default [] (ThRewriter.m_trace (m_cfg (simp_r st))) ++ default [] (ThRewriter.m_trace (m_cfg (pv_r st')))).

Lemma preprocess_ok fuel max_rounds g g' :
  m_hi_div0 bv_rw = true -> conversion_typed mk_conversion -> goal_wf g -> tracked g ->
  preprocess fuel max_rounds g = Ok g' ->
  exists log, preprocess_log fuel max_rounds g = Ok log
    /\ goal_wf g' /\ tracked g' /\ keeps (fun I => Forall (ThRewriterRun.agrees I) log) g g'.
Proof.
  intros Hdiv Hconv Hg Htr. unfold preprocess, preprocess_log.
  intros ([g1 st1] & Hs & ([g2 st2] & Hp & [= <-])%bind_ok)%bind_ok.
  pose proof (simplify_tactic_ok params b_rw bv_rw get_id ref_count mk_conversion counts fuel g Hdiv Hconv Hg Htr) as H1.
  rewrite Hs in H1. destruct H1 as (Hg1 & Htr1 & _ & st1' & log1 & Hs' & Hl1 & Hk1).
  pose proof (propagate_values_ok params b_rw bv_rw get_id ref_count mk_conversion counts refs fuel max_rounds g1
    Hdiv Hconv Hg1 Htr1) as H2.
  rewrite Hp in H2. destruct H2 as (Hg2 & Htr2 & _ & st2' & log2 & Hp' & Hl2 & Hk2).
  rewrite Hs'. cbn [mbind res_bind]. rewrite Hp'. cbn [mbind res_bind]. rewrite Hl1, Hl2. exists (log1 ++ log2).
  split_and!; [done..|]. eapply keeps_trans; (eapply keeps_weaken; [|done]); intros I [? ?]%Forall_app; done.
Qed.
End Preprocess.

Section Pipeline.
Context {S MC : Type} `{SatCheckOk S} (p : g2s_params).
Context (sat2goal : S -> expr2var -> goal -> goal * option MC).
Context (opts : options) (bb_count : rewriter (C := state) -> expr -> nat).

(** What the answer says of the goal, up to the interpretations [adm]. *)
Definition decided_over (adm : interp -> Prop) (g : goal) (mc : option bit_blaster_model_converter)
    (answer : goal * option (converter (MC := MC)) * lbool) : Prop :=
  let '(_, sat_mc, r) := answer in
  match r, sat_mc with
  | l_false, _ => forall I, adm I -> ~ goal_true I g
  | l_true, Some (Model2Model md) =>
      let I := interp_of (match mc with Some mc => convert_model mc md | None => md end) in adm I -> goal_true I g
  | _, _ => True
  end.

Lemma decided_keeps adm g g' mc answer : keeps adm g g' -> decided g' mc answer -> decided_over adm g mc answer.
Proof.
  intros [_ Hk]. destruct answer as [[ga sat_mc] r]. unfold decided, decided_over.
  destruct r, sat_mc as [[md|mc']|]; try done; [by intros Ht HI; apply Hk| | |]; intros Hu I HI Ht; by apply (Hu I), Hk.
Qed.

(** C4: The four tactics decide a goal over bit-vectors that records models and no
    cores, up to the steps that rewrote the signed overflow predicate or a
    conversion from or to the integers, with division by zero as in the default and
    answers of the right sort to the conversions: when the first two leave a goal whose operators bit-blasting supports, bit-blasting ends
    on it, and then an answer false of "sat" means that no interpretation that
    agrees with the logged steps satisfies the goal, and a model converted back
    satisfies the goal if it agrees with them. *)
Theorem preprocessed_goals_decided params b_rw bv_rw get_id ref_count mk_conversion counts refs
    fuel max_rounds bb_fuel interface g g1 n m x :
  m_hi_div0 bv_rw = true -> conversion_typed mk_conversion ->
  goal_wf g -> plain g -> m_models_enabled g = true ->
  preprocess params b_rw bv_rw get_id ref_count mk_conversion counts refs fuel max_rounds g = Ok g1 ->
  Forall (blastable opts bb_fuel) (m_entries g1) -> goal_below n g1 -> (exists s, models x s) ->
  exists log g' mc rw',
    preprocess_log params b_rw bv_rw get_id ref_count mk_conversion counts refs fuel max_rounds g = Ok log
    /\ bit_blaster_tactic get_id opts bb_count bb_fuel g1 (initial_rewriter (initial_state n)) = Ok (g', mc, rw')
    /\ (Forall good_entry (m_entries g') ->
        exists answer, sat_tactic p sat2goal interface g' x m = Ok answer
          /\ decided_over (fun I => Forall (ThRewriterRun.agrees I) log) g mc answer).
Proof.
  intros Hdiv Hconv Hg Hp Hm Hpre Hall Hbelow Hx.
  destruct (preprocess_ok params b_rw bv_rw get_id ref_count mk_conversion counts refs fuel max_rounds g g1
    Hdiv Hconv Hg (or_intror Hp) Hpre) as (log & Hlog & Hg1 & Htr1 & Hk).
  pose proof Hk as [[Hc1 Hm1] _]. assert (plain g1) as Hp1 by (destruct Htr1 as [Hc|]; [destruct Hp; congruence|done]).
  destruct (goals_decided p sat2goal get_id opts bb_count bb_fuel interface g1 n m x Hg1 Hp1 ltac:(congruence) Hall Hbelow Hx)
    as (g' & mc & rw' & Hrun & Hdec).
  exists log, g', mc, rw'. split_and!; [done..|]. intros (answer & Ha & Hd)%Hdec. exists answer. split; [done|].
  by eapply decided_keeps.
Qed.
End Pipeline.
