(* ===== verification/RewriterTheorems.v ===== *)
(** More on the Boolean rewriter and the bit-blaster: the normal form of the
    disjunctions, the full adders of the two configurations, and the operators
    the bit-blaster blasts, keeps or refuses. *)
From S2P Require Import Prelude Text Bits Gates Ast AstSem AstFacts BoolRewriter BoolRewriterOk BlasterCfg.
From S2P Require Import BlasterRewriter BlasterRewriterOk.

(** ** The normal form of a disjunction *)

Section Normal.
Context (get_id : expr -> Z).

(** No constant, no repetition, no atom next to its negation. *)
Definition normal_literals (l : list expr) : Prop :=
  NoDup l
  /\ (forall e, e ∈ l -> is_true e = false /\ is_false e = false)
  /\ (forall e, e ∈ l -> is_not e = true -> is_not (get_arg e 0) = false -> get_arg e 0 ∉ l).

(** The marks are those of the literals kept so far. *)
Definition marked (neg_lits pos_lits buffer : list expr) : Prop :=
  (forall x, x ∈ neg_lits <-> exists e, e ∈ buffer /\ is_not e = true /\ get_arg e 0 = x)
  /\ (forall x, x ∈ pos_lits <-> x ∈ buffer /\ is_not x = false).

Lemma elem_of_snoc (x y : expr) l : x ∈ l ++ [y] <-> x ∈ l \/ x = y.
Proof. by rewrite elem_of_app, list_elem_of_singleton. Qed.

Lemma normal_snoc_not arg neg_lits pos_lits buffer :
  normal_literals buffer -> marked neg_lits pos_lits buffer ->
  is_true arg = false -> is_false arg = false -> is_not arg = true ->
  get_arg arg 0 ∉ neg_lits -> get_arg arg 0 ∉ pos_lits ->
  normal_literals (buffer ++ [arg]) /\ marked (get_arg arg 0 :: neg_lits) pos_lits (buffer ++ [arg]).
Proof.
  intros (Hnd & Hc & Hn) [Hneg Hpos] Ht Hf Ha Han Hap.
  assert (arg ∉ buffer) as Hnew by (intros Hin; apply Han, Hneg; eauto).
  split; [split_and!|split].
  - apply NoDup_snoc. done.
  - intros e [He| ->%list_elem_of_singleton]%elem_of_app; auto.
  - intros e [He| ->%list_elem_of_singleton]%elem_of_app Hne Hnn; apply not_elem_of_app.
    + split; [by apply Hn|]. intros Hx%list_elem_of_singleton. congruence.
    + split; [intros Hin; by apply Hap, Hpos|]. intros Hx%list_elem_of_singleton. congruence.
  - intros x. rewrite elem_of_cons, Hneg. setoid_rewrite elem_of_snoc. clear -Ha. naive_solver.
  - intros x. rewrite Hpos, elem_of_snoc. clear -Ha. naive_solver congruence.
Qed.

Lemma normal_snoc_pos arg neg_lits pos_lits buffer :
  normal_literals buffer -> marked neg_lits pos_lits buffer ->
  is_true arg = false -> is_false arg = false -> is_not arg = false ->
  arg ∉ neg_lits -> arg ∉ pos_lits ->
  normal_literals (buffer ++ [arg]) /\ marked neg_lits (arg :: pos_lits) (buffer ++ [arg]).
Proof.
  intros (Hnd & Hc & Hn) [Hneg Hpos] Ht Hf Ha Han Hap.
  assert (arg ∉ buffer) as Hnew by (intros Hin; by apply Hap, Hpos).
  split; [split_and!|split].
  - apply NoDup_snoc. done.
  - intros e [He| ->%list_elem_of_singleton]%elem_of_app; auto.
  - intros e [He| ->%list_elem_of_singleton]%elem_of_app Hne Hnn; [|congruence]. apply not_elem_of_app.
    split; [by apply Hn|]. intros Hx%list_elem_of_singleton. apply Han, Hneg. eauto.
  - intros x. rewrite Hneg. setoid_rewrite elem_of_snoc. clear -Ha. naive_solver congruence.
  - intros x. rewrite elem_of_cons, Hpos, elem_of_snoc. clear -Ha. naive_solver.
Qed.

Lemma scan_normal ordered args neg_lits pos_lits s buffer s' l :
  normal_literals buffer -> marked neg_lits pos_lits buffer ->
  scan is_false is_true ordered args neg_lits pos_lits s buffer = Some (s', l) ->
  normal_literals l /\ (s' = false -> s = false /\ l = buffer ++ args).
Proof.
  revert neg_lits pos_lits s buffer.
  induction args as [|arg args IH]; intros neg pos s buffer Hb Hm.
  { cbn. rewrite app_nil_r. by intros [= <- <-]. }
  assert (scan is_false is_true ordered args neg pos true buffer = Some (s', l) ->
    normal_literals l /\ (s' = false -> s = false /\ l = buffer ++ arg :: args)) as Hdrop.
  { intros Hs. apply IH in Hs as [Hl Hs]; [|done..]. split; [done|]. by intros [? _]%Hs. }
  assert (forall neg' pos' late, normal_literals (buffer ++ [arg]) /\ marked neg' pos' (buffer ++ [arg]) ->
    scan is_false is_true ordered args neg' pos' (s || late) (buffer ++ [arg]) = Some (s', l) ->
    normal_literals l /\ (s' = false -> s = false /\ l = buffer ++ arg :: args)) as Hkeep.
  { intros neg' pos' late [Hb' Hm'] Hs. apply IH in Hs as [Hl Hs]; [|done..]. split; [done|].
    intros [[-> _]%orb_false_iff ->]%Hs. by rewrite <- app_assoc. }
  cbn [scan]. destruct (is_true arg) eqn:Ht; [done|]. destruct (is_false arg) eqn:Hf; [done|].
  destruct (is_not arg) eqn:Hn.
  - case_bool_decide as Hxn; [done|]. case_bool_decide as Hxp; [done|]. by apply Hkeep, normal_snoc_not.
  - case_bool_decide as Hxp; [done|]. case_bool_decide as Hxn; [done|]. by apply Hkeep, normal_snoc_pos.
Qed.

Lemma scan_subset ordered args all neg_lits pos_lits s buffer s' l :
  args ⊆ all -> buffer ⊆ all ->
  scan is_false is_true ordered args neg_lits pos_lits s buffer = Some (s', l) -> l ⊆ all.
Proof.
  revert neg_lits pos_lits s buffer. induction args as [|arg args IH]; intros neg pos s buffer Ha Hb.
  { cbn. by intros [= _ <-]. }
  assert (args ⊆ all /\ buffer ++ [arg] ⊆ all) as [Ha' Hb'] by set_solver.
  cbn [scan]. repeat case_match; try done; by apply IH.
Qed.

Lemma sort_ids_sorted l : Sorted (ast_lt get_id) (sort_ids get_id l).
Proof. apply Sorted_merge_sort. intros x y. unfold ast_lt. lia. Qed.

Lemma normal_perm l l' : l ≡ₚ l' -> normal_literals l -> normal_literals l'.
Proof.
  intros Hp (Hnd & Hc & Hn). split_and!; [by rewrite <- Hp|..]; intros e; rewrite <- !Hp; auto.
Qed.

(** what the disjunction simplifier leaves. It answers [true], [false],
    one of the arguments, or a disjunction of at least two arguments in the
    order of their ids, without constants, repetitions or an atom next to its
    negation; and it leaves the arguments alone only when they are already
    free of these. *)
Theorem mk_nflat_or_core_normal args :
  match mk_nflat_or_core get_id args with
  | BR_FAILED => (2 <= length args)%nat /\ normal_literals args
  | BR_DONE r => r = m_true \/ r = m_false \/ r ∈ args
      \/ exists l, r = m_mk_or l /\ (2 <= length l)%nat /\ Sorted (ast_lt get_id) l /\ normal_literals l
  | _ => False
  end.
Proof.
  unfold mk_nflat_or_core. set (ordered := fun prev arg => negb (lt arg prev)).
  assert (normal_literals [] /\ marked [] [] []) as [Hn Hm].
  { split; [split_and!; [constructor|set_solver..]|split; set_solver]. }
  pose proof (scan_normal ordered args [] [] false []) as Hs.
  assert (forall s l, scan is_false is_true ordered args [] [] false [] = Some (s, l) -> l ⊆ args) as Hsub.
  { intros s l. apply (scan_subset ordered args args); set_solver. }
  destruct (scan _ _ _ _ _ _ _ _) as [[s l]|] eqn:Hscan; [|by left].
  specialize (Hs s l Hn Hm eq_refl) as [Hl Hfix]. specialize (Hsub s l eq_refl).
  destruct l as [|e [|e' l]]; [by right; left|right; right; left; set_solver|].
  destruct s.
  - right; right; right. exists (sort_ids get_id (e :: e' :: l)).
    pose proof (sort_ids_perm get_id (e :: e' :: l)) as Hp. split_and!; [done| |apply sort_ids_sorted|].
    + rewrite Hp. cbn. lia.
    + eapply normal_perm; [|exact Hl]. by symmetry.
  - destruct (Hfix eq_refl) as [_ Heq]. cbn [app] in Heq. rewrite <- Heq. split; [cbn; lia|done].
Qed.
End Normal.

(** ** The full adders *)

(** the two configurations build the sum and the carry of three formulas:
    with every choice of options, and whatever the order of the ids by which
    [bit_blaster_cfg] sorts its arguments, the two terms are formulas whose
    values are the parity and the majority of the three values. *)
Theorem full_adders_correct I p get_id ext_gates x y z :
  wfb x = true -> wfb y = true -> wfb z = true ->
  let parity := xorb (tr I x) (xorb (tr I y) (tr I z)) in
  let carry := majority (tr I x) (tr I y) (tr I z) in
  holds I parity (blaster_mk_xor3 p x y z) /\ holds I carry (blaster_mk_carry p get_id x y z)
  /\ holds I parity (bb_mk_xor3 p get_id ext_gates x y z)
  /\ holds I carry (bb_mk_carry p get_id ext_gates x y z).
Proof.
  intros Hx Hy Hz. split_and!;
    [by apply blaster_xor3_ok|by apply blaster_carry_ok|by apply bb_mk_xor3_ok|by apply bb_mk_carry_ok].
Qed.
