(* ===== verification/CircuitTheorems.v ===== *)
(** What the bit-blaster template promises, for every configuration that keeps
    the promises of [GatesOk]: each circuit, read through the values of its
    gates, is the SMT-LIB function of the vectors it is built from. *)
From S2P Require Import Prelude Text Bits Gates BlastArith BlastMul BlastOverflow BlastCompare BlastDiv BlastShift BlastSigned Ast AstSem BlastSpec.

Section Circuits.
Context {E : Type} `{Gates E} (eval : E -> bool) `{!GatesOk eval}.
Local Abbreviation values := (map eval).
Local Abbreviation uv := (uv eval).
Local Abbreviation sv := (sv eval).

(** The vectors have the same, positive, width. *)
Definition same_width (a b : list E) : Prop := (0 < length a)%nat /\ length b = length a.

(** ** Addition and subtraction *)

(** the ripple-carry circuits are arithmetic modulo the width: sum,
    difference with its borrow, two's complement and absolute value; the
    carry-save adder keeps the sum of three vectors. *)
Theorem mk_add_sub_correct a b c :
  same_width a b -> length c = length a ->
  let n := length a in
  values (mk_adder a b) = bits_of n (uv a + uv b)
  /\ values (mk_subtracter a b).1 = bits_of n (uv a - uv b)
  /\ eval (mk_subtracter a b).2 = (uv b <=? uv a)
  /\ values (mk_neg a) = bits_of n (- uv a)
  /\ uv (mk_abs a) = Z.abs (sv a)
  /\ uv (mk_carry_save_adder a b c).1 + 2 * uv (mk_carry_save_adder a b c).2 = uv a + uv b + uv c.
Proof.
  intros [Ha Hb] Hc n. destruct (mk_subtracter_uv eval a b) as [Hs Hcout]; [done|].
  split_and!; try done.
  - apply (bits_of_value_mod eval); [by apply mk_adder_length|by apply mk_adder_uv].
  - apply (bits_of_value_mod eval); [by apply mk_subtracter_length|done].
  - apply (bits_of_value_mod eval); [by apply mk_neg_length|by apply mk_neg_uv].
  - by apply mk_abs_abs.
  - by apply mk_carry_save_adder_uv.
Qed.

(** ** Multiplication *)

(** C26: every multiplier of the template computes the product modulo the width:
    the array multiplier, the Wallace tree, and [mk_multiplier] with whatever
    choice of tree and of Booth's algorithm for constant factors. *)
Theorem mk_multiplier_correct use_wtm use_bcm a b :
  same_width a b ->
  let product := bits_of (length a) (uv a * uv b) in
  values (mk_array_multiplier a b) = product
  /\ values (mk_wallace_multiplier a b) = product
  /\ values (mk_multiplier use_wtm use_bcm a b) = product.
Proof.
  intros [Ha Hb] product. split_and!; apply (bits_of_value_mod eval).
  - by apply mk_array_multiplier_length.
  - by apply mk_array_multiplier_uv.
  - by apply (mk_wallace_multiplier_uv eval).
  - by apply (mk_wallace_multiplier_uv eval).
  - by apply (mk_multiplier_value eval).
  - by apply (mk_multiplier_value eval).
Qed.

(** the loop of the Wallace tree, which runs until exactly two summands are
    left, ends: on two or more summands of one width, a pass leaves at least
    two and, while there are more than two, strictly fewer; with as many
    passes as summands the loop has reached two, of the same total. *)
Theorem wallace_terminates n pps :
  (2 <= length pps)%nat -> widths n pps ->
  (length pps <> 2 -> 2 <= length (wallace_pass pps) < length pps)%nat
  /\ exists p1 p2, wallace (length pps) pps = [p1; p2] /\ length p1 = n /\ length p2 = n
       /\ (uv p1 + uv p2) mod pow2 n = total eval pps mod pow2 n.
Proof.
  intros Hl Hw. split; [intros; apply wallace_pass_length; lia|].
  destruct (wallace_total eval n (length pps) pps Hw) as (p1 & p2 & He & H1 & H2 & k & Hk); [lia|].
  exists p1, p2. split_and!; try done. symmetry. apply (mod_eq _ _ _ (- k)). lia.
Qed.

(** The case split on the non-constant bits computes the product, in the
    recursion's own depth; but the function that does it returns false on every
    path, so its caller never uses the result. *)
Theorem const_case_discarded a b :
  same_width a b ->
  exists out, mk_const_case_multiplier a b = (false, out)
    /\ (out = [] \/ values out = bits_of (length a) (uv a * uv b)).
Proof.
  intros [Ha Hb]. unfold mk_const_case_multiplier. case_match; [by exists []; auto|].
  eexists. split; [done|]. right. apply case_multiplier_value; try done; [lia|lia|].
  intros j Hj. lia.
Qed.

(** C28: the overflow predicates are exact: an unsigned product fits, a signed
    product is not too large, a signed product is not too small. *)
Theorem mk_overflow_correct use_wtm use_bcm a b :
  same_width a b ->
  let n := length a in
  eval (mk_umul_no_overflow use_wtm use_bcm a b) = (uv a * uv b <? pow2 n)
  /\ eval (mk_smul_no_overflow use_wtm use_bcm a b) = (sv a * sv b <? pow2 (n - 1))
  /\ eval (mk_smul_no_underflow use_wtm use_bcm a b) = (- pow2 (n - 1) <=? sv a * sv b).
Proof.
  intros [Ha Hb] n. unfold mk_smul_no_overflow, mk_smul_no_underflow.
  split_and!; [by apply mk_umul_no_overflow_value| |];
    by rewrite (mk_smul_no_overflow_core_value eval).
Qed.

(** ** Division *)

(** C27: the restoring divider and the four circuits built on it are SMT-LIB's
    division: quotients truncate, a zero divisor gives the all-ones quotient (1
    for a negative signed dividend) and the dividend as remainder, [srem] has
    the sign of the dividend and [smod] that of the divisor. *)
Theorem mk_division_correct a b :
  same_width a b ->
  let n := length a in
  values (mk_udiv a b) = bits_of n (if uv b =? 0 then pow2 n - 1 else uv a / uv b)
  /\ values (mk_urem a b) = bits_of n (uv a mod uv b)
  /\ values (mk_sdiv a b) = bits_of n (if sv b =? 0 then (if sv a <? 0 then 1 else -1) else Z.quot (sv a) (sv b))
  /\ values (mk_srem a b) = bits_of n (Z.rem (sv a) (sv b))
  /\ values (mk_smod a b) = bits_of n (sv a mod sv b).
Proof.
  intros [Ha Hb] n.
  pose proof (udiv_spec eval n Ha a b eq_refl Hb) as H1. pose proof (urem_spec eval n Ha a b eq_refl Hb) as H2.
  pose proof (sdiv_spec eval n Ha a b eq_refl Hb) as H3. pose proof (srem_spec eval n Ha a b eq_refl Hb) as H4.
  pose proof (smod_spec eval n Ha a b eq_refl Hb) as H5. cbv beta in H1.
  unfold unsigned_op, signed_op in *. by rewrite length_map in H1, H2, H3, H4, H5.
Qed.

(** the divider with four copies computes quotient and remainder, but for
    the modulus it adds the divisor without looking at the remainder: when the
    signs differ and the division is exact it answers the divisor, not zero. *)
Theorem mk_sdiv_srem_smod_correct a b :
  same_width a b ->
  let n := length a in let x := sv a in let y := sv b in
  values (mk_sdiv_srem_smod SDIV a b) = bits_of n (if y =? 0 then (if x <? 0 then 1 else -1) else Z.quot x y)
  /\ values (mk_sdiv_srem_smod SREM a b) = bits_of n (Z.rem x y)
  /\ values (mk_sdiv_srem_smod SMOD a b)
     = if (Z.abs x mod Z.abs y =? 0) && xorb (x <? 0) (y <? 0) then values b else bits_of n (x mod y).
Proof.
  intros [Ha Hb] n x y.
  assert (forall k, values (mk_sdiv_srem_smod k a b) = bits_of n (signed_result k x y)) as Hk.
  { intros k. destruct (mk_sdiv_srem_smod_value eval k a b) as [Hv Hl]; [done..|].
    by apply (bits_of_value_mod eval). }
  split_and!; [apply Hk..|]. rewrite Hk. cbn [signed_result].
  transitivity (bits_of n (four_copy_smod x y mod pow2 n)); [by rewrite bits_of_mod|].
  rewrite four_copy_smod_cases by by apply sv_abs_small.
  destruct (_ && _); rewrite bits_of_mod; [|done].
  symmetry. apply (bits_of_value_mod eval); [done|]. unfold y, n, Gates.sv. rewrite <- Hb, <- (length_map eval b).
  symmetry. apply sval_uval_mod.
Qed.

(** ** Shifts and rotations *)

Lemma rotate_bits a b i :
  same_width a b -> (i < length a)%nat ->
  let n := Z.of_nat (length a) in
  eval (bit (mk_ext_rotate_left a b) i) = eval (bit a (Z.to_nat ((Z.of_nat i - uv b) mod n)))
  /\ eval (bit (mk_ext_rotate_right a b) i) = eval (bit a (Z.to_nat ((Z.of_nat i + uv b) mod n))).
Proof.
  intros [Ha Hb] Hi n. unfold mk_ext_rotate_left, mk_ext_rotate_right.
  rewrite !(mk_ext_rotate_value eval) by done. unfold rot_index, rot_amount.
  by rewrite Z.sub_opp_r.
Qed.

(** the shifters, constant or barrel, multiply or divide by the power of
    two of the whole second vector, also when it exceeds the width; a rotation
    moves every bit by the vector's value modulo the width, to the left or to
    the right, whether the amount is constant or not. *)
Theorem mk_shift_correct a b :
  same_width a b ->
  let n := length a in
  values (mk_shl a b) = bits_of n (uv a * 2 ^ uv b)
  /\ values (mk_lshr a b) = bits_of n (uv a / 2 ^ uv b)
  /\ values (mk_ashr a b) = bits_of n (sv a / 2 ^ uv b)
  /\ forall i, (i < n)%nat ->
       eval (bit (mk_ext_rotate_left a b) i)
       = eval (bit a (Z.to_nat ((Z.of_nat i - uv b) mod Z.of_nat n)))
       /\ eval (bit (mk_ext_rotate_right a b) i)
          = eval (bit a (Z.to_nat ((Z.of_nat i + uv b) mod Z.of_nat n))).
Proof.
  intros Hw n. pose proof Hw as [Ha Hb].
  pose proof (shl_spec eval n a b eq_refl Hb) as H1. pose proof (lshr_spec eval n a b eq_refl Hb) as H2.
  pose proof (ashr_spec eval n Ha a b eq_refl Hb) as H3. cbv beta in H3.
  unfold unsigned_op in *. rewrite length_map in H1, H2, H3.
  split_and!; [done..|]. intros i. by apply rotate_bits.
Qed.

(** ** Comparisons *)

(** equality and the two orders compare the numbers the vectors stand for;
    the decoder [mk_eqs] has exactly the line of the vector's value high. *)
Theorem mk_compare_correct a b i :
  same_width a b -> (i < length a)%nat ->
  eval (BlastCompare.mk_eq a b) = (uv a =? uv b)
  /\ eval (mk_ule a b) = (uv a <=? uv b)
  /\ eval (mk_sle a b) = (sv a <=? sv b)
  /\ eval (bit (mk_eqs a) i) = (uv a =? Z.of_nat i).
Proof.
  intros [Ha Hb] Hi.
  split_and!; [by apply mk_eq_value|by apply mk_ule_value|by apply mk_sle_value|by apply mk_eqs_value].
Qed.
End Circuits.
