(* ===== verification/MonitorWitnesses.v ===== *)
(** The theorems about the monitors, the ring and the data reader at concrete
    inputs: one small trace file, room, ring and database. *)
From S2P Require Import Prelude Text MonitorState Trace SolveSMT CutRun CutFacts Verdicts MainDriver.
From S2P Require Ring GetData.

(** A trace file of two blocks and the monitor that reads it. *)
Definition switch_block : block := ("switch_1"%string, ["1"; "0"; "1"; "1"; "0"]%string).
Definition light_block : block := ("light_1"%string, ["0"; "0"; "1"; "1"; "1"]%string).
Definition third_block : block := ("switch_2"%string, ["1"; "1"]%string).
Definition trace_of (bs : list block) : string := put_lines EmptyString (bs ≫= block_lines).
Definition trace_files (bs : list block) : files := <["t.txt"%string := trace_of bs]> ∅.
Definition reader : Monitor := setValues (Monitor_default 0 initial_store) 0 [] 1 "t.txt".

Ltac concrete := first [ reflexivity | by vm_compute | by repeat constructor
  | by (split; [cbn; unfold max_process; lia | repeat constructor; cbn; unfold max_event; lia]) ].

Lemma readFile_blocks_witness :
  readFile (trace_files [switch_block; light_block]) reader
  = Ok (with_store reader (loaded initial_store [switch_block; light_block])).
Proof.
  apply (readFile_blocks _ _ (trace_of [switch_block; light_block]) [switch_block; light_block]); concrete.
Defined.

Definition long_block : block := ("light_2"%string, replicate 101 "1"%string).

Lemma readFile_overflow_witness :
  readFile (trace_files [switch_block; long_block]) reader = Fault OutOfBounds.
Proof.
  apply (readFile_overflow _ _ (trace_of [switch_block; long_block]) [switch_block]
    (long_block.1) (long_block.2) []); try concrete; cbn; unfold max_process, max_event; lia.
Defined.

Lemma initial_shape : store_shape initial_store.
Proof. apply initial_store_shape. Qed.

Lemma readFile_shape_witness :
  exists m, readFile (trace_files [switch_block]) reader = Ok m /\ store_shape (store m).
Proof.
  exists (with_store reader (loaded initial_store [switch_block])).
  assert (readFile (trace_files [switch_block]) reader
          = Ok (with_store reader (loaded initial_store [switch_block]))) as H by by vm_compute.
  split; [exact H|]. by apply (readFile_shape _ reader _ initial_shape) in H as [Hs _].
Defined.

(** What is loaded from three blocks, two of which are processes. *)
Definition three_processes : TraceStore :=
  loaded initial_store [switch_block; light_block; third_block].

Lemma three_shape : store_shape three_processes.
Proof.
  assert (readFile (trace_files [switch_block; light_block; third_block]) reader
          = Ok (with_store reader three_processes)) as H by by vm_compute.
  by apply (readFile_keeps _ reader _ initial_shape) in H as [Hs _].
Qed.

Lemma readSegTrace_spec_witness :
  exists t', readSegTrace_store 0 2 1 three_processes = Ok t'
    /\ segment_read three_processes 0 [2; 2] (hb_pairs 1 [2; 2]) t'.
Proof.
  apply (readSegTrace_spec three_processes 0 2 1 three_shape); [split; by vm_compute|by vm_compute].
Defined.

Lemma readSegTrace_overflow_witness :
  readSegTrace_store 0 4 0 (with_hb three_processes (hbSet three_processes) 40) = Fault OutOfBounds.
Proof.
  apply readSegTrace_overflow; [|split; by vm_compute|by vm_compute].
  destruct three_shape. by split.
Defined.

Lemma two_block_trace_witness :
  exists m1 m2, readFile (trace_files [switch_block; light_block]) reader = Ok m1
    /\ readSegTrace 0 4 0 m1 = Ok m2 /\ numProcess (store m2) = 1 /\ numHbSet (store m2) = 0
    /\ numEvent (store m2) !! 0%nat = Some 4.
Proof.
  apply (two_block_trace _ _ (trace_of [switch_block; light_block]) switch_block light_block 0 4 0);
    concrete.
Defined.

(** A solver that gives up on everything keeps its contract. *)
Definition no_answer (asserts : list expr) : check_result := unknown.
#[global] Instance no_answer_ok : SolverOk no_answer.
Proof. by split. Qed.

Lemma single_block_crash_witness :
  exists m1, readFile (trace_files [switch_block]) reader = Ok m1
    /\ monitor_segment no_answer 0 4 0 m1 = Fault Z3Exception.
Proof. apply (single_block_crash no_answer _ _ (trace_of [switch_block]) switch_block); concrete. Defined.

(** ** The solver's questions *)

(** Segments of the three-block trace: two events, one and two per process. *)
Definition one_process (n : Z) : TraceStore :=
  with_segment (with_numProcess initial_store 1) empty_table empty_table
    (n :: replicate 9 0).

Lemma one_process_segment n : segment (one_process n) n [].
Proof. split; by vm_compute. Qed.

Lemma solveSMT_refines_witness :
  exists asserts, solveSMT_assertions (one_process 2) = Ok asserts
    /\ (satisfiable asserts <-> exists f, cut_run 2 [] f).
Proof. apply (solveSMT_refines (one_process 2) 2 []); [lia|apply one_process_segment]. Defined.

Lemma solveSMT_no_pairs_witness :
  solveSMT no_answer (one_process 3) 0 = Ok false
  /\ exists asserts, solveSMT_assertions (one_process 4) = Ok asserts /\ satisfiable asserts.
Proof.
  split.
  - apply (solveSMT_no_pairs no_answer (one_process 3) 3 []); [lia|apply one_process_segment|by right].
  - destruct (solveSMT_no_pairs no_answer (one_process 4) 4 [] 0) as [_ H]; [lia|apply one_process_segment|].
    destruct (H eq_refl) as (asserts & He & Hs). exists asserts. split; [exact He|]. apply Hs. lia.
Defined.

Lemma solveSMT_related_false_witness :
  exists t', readSegTrace_store 0 2 1 three_processes = Ok t' /\ solveSMT no_answer t' 0 = Ok false.
Proof.
  assert (is_ok (readSegTrace_store 0 2 1 three_processes) = true) as H by by vm_compute.
  destruct (readSegTrace_store 0 2 1 three_processes) as [t'|] eqn:E; [|discriminate H].
  exists t'. split; [reflexivity|].
  apply (solveSMT_related_false no_answer three_processes 0 2 1 t' 0 three_shape); try exact E.
  - split; by vm_compute.
  - by vm_compute.
  - right. by vm_compute.
  - by vm_compute.
Defined.

Lemma solveSMT_no_events_witness : solveSMT no_answer initial_store 0 = Fault Z3Exception.
Proof. apply solveSMT_no_events. by vm_compute. Defined.

(** ** A room with one switch and one light *)

Definition room_files : files :=
  <["data/officeswitch_1.txt"%string := trace_of [switch_block]]>
    (<["data/officelight_1.txt"%string := trace_of [light_block]]> ∅).
Definition room_switches (p : Z) : block := switch_block.
Definition room_lights (l : Z) : block := light_block.

Lemma setup_room_spec_witness :
  exists r cent, setup_room 0 initial_store "office" room_files = Ok (r, cent, 1)
    /\ store cent = loaded initial_store [switch_block; light_block].
Proof.
  destruct (setup_room_spec room_files "office" 0 initial_store 1 1 room_switches room_lights)
    as (r & cent & He & _ & Hc).
  - by vm_compute.
  - intros p Hp. assert (p = 1) as -> by lia. split_and!; [by vm_compute|concrete|by vm_compute; lia].
  - intros l Hl. assert (l = 1) as -> by lia. split_and!; [by vm_compute|concrete|by vm_compute; lia].
  - unfold max_monitors. lia.
  - by vm_compute; lia.
  - exists r, cent. split; [exact He|exact Hc].
Defined.

Definition room_run : res (files * list Monitor * Monitor) :=
  run_room no_answer 0 initial_store "office" room_files.

Lemma run_room_verdicts_false_witness :
  exists fs l cent, room_run = Ok (fs, l, cent) /\ Forall all_false l /\ all_false cent.
Proof.
  assert (is_ok room_run = true) as H by by vm_compute.
  destruct room_run as [[[fs l] cent]|] eqn:E; [|discriminate H].
  exists fs, l, cent. split; [reflexivity|].
  exact (run_room_verdicts_false no_answer 0 initial_store "office" room_files fs l cent E).
Defined.

Definition loaded_reader : Monitor := with_store reader (loaded initial_store [switch_block; light_block]).

Lemma segments_windows_witness :
  segments no_answer (segment_fuel loaded_reader) 1 0 0 ([loaded_reader], loaded_reader)
  = for_range 0 2
      (fun k s => segment_round no_answer 1 (segLength * k) (segLength * k + segLength) 0 s)
      ([loaded_reader], loaded_reader).
Proof. apply (segments_windows no_answer 1 0 ([loaded_reader], loaded_reader) 5); concrete. Defined.

(** Only the office has a pair. *)
Lemma room_without fs path : count_files path (data_paths fs) = (0, 0) -> room_ready fs path.
Proof. unfold room_ready. intros ->. by left. Qed.

Lemma office_ready : room_ready room_files "office".
Proof.
  unfold room_ready. replace (count_files "office" (data_paths room_files)) with (1, 1) by by vm_compute.
  right. split; [done|]. exists switch_block, light_block.
  split; (split; [by vm_compute|]); (split; [concrete|by vm_compute; lia]).
Qed.

Lemma room_files_ready path : path ∈ rooms -> room_ready room_files path.
Proof.
  intros Hp. unfold rooms in Hp. rewrite !elem_of_cons in Hp. destruct Hp as [->|[->|[->|[->|[->|[->|Hp]]]]]].
  3: exact office_ready.
  6: destruct (not_elem_of_nil _ Hp).
  all: apply room_without; vm_compute; reflexivity.
Qed.

Lemma main_terminates_witness : exists fs, main no_answer 0 initial_store room_files = Ok fs.
Proof. exact (proj2 (main_terminates no_answer 0 initial_store room_files) room_files_ready). Defined.

(** ** Verdicts *)

Definition told : Monitor :=
  with_verdicts (setValues (Monitor_default 0 initial_store) 1 [] 2 "t.txt") [true; false] [true; false].
Definition hearer : Monitor := setValues (Monitor_default 0 initial_store) 0 [] 2 "t.txt".

Lemma ShareVerdict_spec_witness :
  exists m', ShareVerdict told hearer = Ok m'
    /\ verdicts m' !! 0%nat = Some true /\ verdicts m' !! 1%nat = Some false.
Proof.
  destruct (ShareVerdict_spec told hearer 2) as (m' & He & _ & _ & Hp); try by vm_compute.
  exists m'. split; [exact He|].
  split; [rewrite (proj1 (Hp 0%nat ltac:(lia)))|rewrite (proj1 (Hp 1%nat ltac:(lia)))]; reflexivity.
Defined.

(** ** The ring *)

Lemma Evaluate_spec_witness :
  Ring.Evaluate_monitor (Ring.with_observations (Ring.Monitor_new 0 ["and"%string] 2) [true; true])
  = Ok (Ring.with_verdicts (Ring.with_observations (Ring.Monitor_new 0 ["and"%string] 2) [true; true])
          [true; false] [true; false]).
Proof.
  apply (Ring.Evaluate_spec (Ring.with_observations (Ring.Monitor_new 0 ["and"%string] 2) [true; true])
    true [true]); first [reflexivity|discriminate|by split].
Defined.

Lemma Evaluate_errors_witness :
  Ring.Evaluate_monitor (Ring.Monitor_new 0 ["and"%string] 2) = Fault EmptyVector
  /\ Ring.Evaluate_monitor (Ring.with_observations (Ring.Monitor_new 0 [] 2) [true; true]) = Fault OutOfBounds.
Proof.
  split.
  - apply (proj1 (Ring.Evaluate_errors (Ring.Monitor_new 0 ["and"%string] 2))). cbn. lia.
  - apply (proj2 (Ring.Evaluate_errors (Ring.with_observations (Ring.Monitor_new 0 [] 2) [true; true]))).
    cbn. lia.
Defined.

Lemma main_heap_fresh : Ring.fresh_heap Ring.main_heap.
Proof.
  intros d m Hm. assert (d < 3)%nat as Hd by (apply lookup_lt_Some in Hm; exact Hm).
  destruct d as [|[|[|]]]; try lia; injection Hm as <-; (split; [split|..]); try reflexivity; try (cbn; lia);
    intros [|[|[|]]] Hp; cbn in Hp |- *; try lia; reflexivity.
Qed.

Lemma run_ring_agrees_witness :
  exists h', Ring.run_ring 3 Ring.main_heap = Ok h' /\ length h' = 3%nat
    /\ forall m, m ∈ h' -> Ring.verdicts m = map Ring.local_verdict Ring.main_heap
         /\ Ring.Evaluate_All m = Ok (forallb Ring.local_verdict Ring.main_heap).
Proof. apply (Ring.run_ring_agrees Ring.main_heap 3 main_heap_fresh); [reflexivity|lia]. Defined.

(** ** The database *)

Definition cells (l : list string) : list GetData.row := map (fun v => [Some "1"%string; Some v]) l.
Definition one_table (rows : list GetData.row) : GetData.database := {|
  GetData.connects := true;
  GetData.query := fun q =>
    if String.eqb q GetData.show_tables then Some [[Some "switch_1"%string]]
    else if String.eqb q (GetData.select_all "switch_1") then Some rows else None |}.

Definition house : GetData.database := one_table (cells (switch_block.2)).
Definition house_content : list (string * option (list string)) := [("switch_1"%string, Some (switch_block.2))].

Lemma house_holds : GetData.holds house house_content.
Proof.
  split; [reflexivity|exists [[Some "switch_1"%string]]; concrete|by repeat constructor; set_solver|].
  intros t vs [= -> ->]%list_elem_of_singleton. by repeat constructor.
Qed.

Definition house_reader : Monitor := setValues (Monitor_default 0 initial_store) 0 [] 1 "switch_1.txt".

Lemma table_round_trip_witness :
  exists fs', GetData.main house ∅ = Ok fs'
    /\ readFile fs' house_reader = Ok (with_store house_reader (loaded initial_store [switch_block])).
Proof.
  apply (GetData.table_round_trip house house_content ∅ "switch_1" (switch_block.2) house_reader house_holds);
    [by left|reflexivity|concrete|cbn; unfold max_event; lia|reflexivity|reflexivity].
Defined.

Lemma main_frame_witness :
  exists fs', GetData.main house ∅ = Ok fs' /\ fs' !! "other.txt"%string = None.
Proof.
  destruct (GetData.main_frame house house_content ∅ house_holds) as (fs' & He & Hf & _).
  exists fs'. split; [exact He|]. rewrite Hf; [reflexivity|].
  intros t vs [= -> ->]%list_elem_of_singleton. discriminate.
Defined.

Lemma main_null_cell_witness :
  GetData.main (one_table [[Some "1"; Some "0"]; [Some "2"; None]]%string) ∅ = Fault NullPointer.
Proof.
  apply (GetData.main_null_cell _ ∅ "switch_1" [] [[Some "1"; Some "0"]; [Some "2"; None]]%string
    [[Some "1"; Some "0"]]%string [Some "2"; None]%string []); try reflexivity.
  repeat constructor. exists "0"%string. reflexivity.
Defined.
