(* ===== verification/BlasterWitnesses.v ===== *)
(** The theorems about Z3's rewriters and circuits at concrete inputs. *)
From S2P Require Import Prelude Text Bits Gates BlastArith BlastMul BlastOverflow BlastCompare BlastDiv BlastShift BlastSigned Ast AstSem AstFacts BoolRewriter BoolRewriterOk LocalCtx LocalCtxOk BlasterCfg BlasterRewriter BlasterRewriterOk Rewriter RewriterOk Goal BitBlaster BitBlasterOk BitBlasterTactic RewriterTheorems CircuitTheorems.

(** ** Circuits over constants: 6 and 11 on four bits *)

Definition six : list bool := [false; true; true; false].
Definition eleven : list bool := [true; true; false; true].
Definition value (b : bool) : bool := b.
#[global] Instance value_ok : GatesOk value := bool_gates_ok.

Lemma six_eleven : same_width six eleven.
Proof. split; [cbn; lia|reflexivity]. Qed.

Lemma mk_add_sub_correct_witness : map value (mk_adder six eleven) = bits_of 4 17.
Proof.
  exact (proj1 (mk_add_sub_correct value six eleven six six_eleven eq_refl)).
Defined.

Lemma mk_multiplier_correct_witness :
  map value (mk_multiplier true true six eleven) = bits_of 4 66.
Proof.
  exact (proj2 (proj2 (mk_multiplier_correct value true true six eleven six_eleven))).
Defined.

Lemma wallace_terminates_witness :
  exists p1 p2, wallace 3 [six; eleven; six] = [p1; p2] /\ length p1 = 4%nat /\ length p2 = 4%nat
    /\ (uv value p1 + uv value p2) mod pow2 4 = total value [six; eleven; six] mod pow2 4.
Proof.
  apply (proj2 (wallace_terminates value 4 [six; eleven; six] ltac:(cbn; lia) ltac:(by repeat constructor))).
Defined.

Lemma mk_overflow_correct_witness :
  mk_umul_no_overflow true true six eleven = false
  /\ mk_smul_no_overflow true true six eleven = true
  /\ mk_smul_no_underflow true true six eleven = false.
Proof. exact (mk_overflow_correct value true true six eleven six_eleven). Defined.

Lemma mk_division_correct_witness :
  map value (mk_udiv six eleven) = bits_of 4 0 /\ map value (mk_smod six eleven) = bits_of 4 (-4).
Proof.
  pose proof (mk_division_correct value six eleven six_eleven) as (H1 & _ & _ & _ & H2).
  split; [exact H1|exact H2].
Defined.

Lemma mk_shift_correct_witness : map value (mk_ashr eleven six) = bits_of 4 (-1).
Proof.
  exact (proj1 (proj2 (proj2 (mk_shift_correct value eleven six (conj (proj1 six_eleven) eq_refl))))).
Defined.

(** The modulus of -8 and 2 on four bits: the circuit answers 2. *)
Lemma mk_sdiv_srem_smod_correct_witness :
  map value (mk_sdiv_srem_smod SMOD [false; false; false; true] [false; true; false; false])
  = [false; true; false; false].
Proof.
  exact (proj2 (proj2 (mk_sdiv_srem_smod_correct value [false; false; false; true]
    [false; true; false; false] (conj (Nat.lt_0_succ 3) eq_refl)))).
Defined.

Lemma mk_compare_correct_witness :
  BlastCompare.mk_eq six eleven = false /\ mk_ule six eleven = true /\ mk_sle six eleven = false
  /\ bit (mk_eqs six) 2 = false.
Proof. exact (mk_compare_correct value six eleven 2 six_eleven ltac:(cbn; lia)). Defined.

(** ** Terms: two constants of two bits and their sum *)

Definition const_decl (name : string) (s : sort) : func_decl := mk_func_decl (SymStr name) NullFid [] [] s.
Definition word_x : expr := App (const_decl "x" (BvSort 2)) [].
Definition word_y : expr := App (const_decl "y" (BvSort 2)) [].
Definition add_decl : func_decl :=
  mk_func_decl (SymStr "bvadd") (Bv OP_BADD) [] [BvSort 2; BvSort 2] (BvSort 2).
Definition prop_a : expr := App (const_decl "a" BoolSort) [].
Definition prop_b : expr := App (const_decl "b" BoolSort) [].
Definition no_ids (e : expr) : Z := 0.

Lemma mk_not_unfold_witness :
  mk_not default_params (m_mk_eq prop_a prop_b)
  = result_or (mk_not_core default_params (m_mk_eq prop_a prop_b)) (m_mk_not (m_mk_eq prop_a prop_b)).
Proof. apply (mk_not_unfold default_params (m_mk_eq prop_a prop_b)). reflexivity. Defined.

Definition and_decl : func_decl := mk_func_decl (SymStr "and") (Basic OP_AND) [] [BoolSort; BoolSort] BoolSort.

Lemma mk_app_sound_witness :
  means default_interp BoolSort (eval default_interp (App and_decl [prop_a; m_mk_not prop_a]))
    (mk_app default_params no_ids and_decl [prop_a; m_mk_not prop_a]).
Proof. apply (mk_app_sound default_interp default_params no_ids and_decl [prop_a; m_mk_not prop_a]). reflexivity. Defined.

Lemma full_adders_correct_witness :
  holds default_interp false (blaster_mk_xor3 blaster_params prop_a prop_b m_false)
  /\ holds default_interp false (bb_mk_carry default_params no_ids true prop_a prop_b m_true).
Proof.
  split.
  - exact (proj1 (full_adders_correct default_interp blaster_params no_ids true prop_a prop_b m_false
      eq_refl eq_refl eq_refl)).
  - exact (proj2 (proj2 (proj2 (full_adders_correct default_interp default_params no_ids true prop_a prop_b m_true
      eq_refl eq_refl eq_refl)))).
Defined.

Lemma push_pop_witness :
  exists st', pop 1 (foldl (fun s f => (mk_const f s).1) (push (initial_state 0))
                       [const_decl "x" (BvSort 2); const_decl "y" (BvSort 2)]) = Ok st'
    /\ m_keys st' = [] /\ m_newbits st' = [].
Proof.
  destruct (push_pop (initial_state 0) [const_decl "x" (BvSort 2); const_decl "y" (BvSort 2)])
    as (st' & He & Hk & _ & Hn & _); [|reflexivity|].
  - split; [reflexivity|]. intros f. split; [intros H; inversion H|intros [r H]; discriminate H].
  - exists st'. split; [exact He|]. split; [exact Hk|exact Hn].
Defined.

(** ** Contextual simplification: (or a (ite a b (not b))) *)

Definition choice : list expr := [prop_a; m_mk_ite prop_a prop_b (m_mk_not prop_b)].

Lemma choice_wfb : Forall (fun e => wfb e = true) choice.
Proof. repeat constructor. Qed.

Lemma local_ctx_simp_correct_witness :
  local_ctx_simp default_params choice 0
  = Ok (Some (m_mk_or [prop_a; m_mk_not prop_b]), 40)
  /\ holds default_interp (existsb (tr default_interp) choice) (m_mk_or [prop_a; m_mk_not prop_b]).
Proof.
  destruct (local_ctx_simp_correct default_interp default_params choice 0 choice_wfb) as (o & c & E & H).
  assert (local_ctx_simp default_params choice 0
          = Ok (Some (m_mk_or [prop_a; m_mk_not prop_b]), 40)) as F by (vm_compute; reflexivity).
  split; [exact F|]. apply H. congruence.
Defined.

Lemma mk_or_core_ctx_correct_witness :
  mk_or_core_ctx default_params true 10 no_ids choice 11
  = Ok (mk_or_core default_params no_ids choice, 11).
Proof.
  apply (proj2 (mk_or_core_ctx_correct default_interp default_params true 10 no_ids choice 11 choice_wfb)).
  right. reflexivity.
Defined.

(** ** Bit-blasting x + y = 2 and y = x, every term shared *)

Definition num (k : Z) : expr := App (bv_num_decl k 2) [].
Definition sum_is_two : expr := m_mk_eq (App add_decl [word_x; word_y]) (num 2).
Definition shared (rw : rewriter (C := state)) (e : expr) : nat := 2.

#[local] Instance small_cfg : RewriterCfg state := cfg no_ids default_options.
#[local] Instance small_sound : RewriterCfgOk state := blaster_cfg_sound no_ids default_options 0.
#[local] Instance small_finishing : FinishingCfg state := blaster_finishing no_ids default_options 0.

Definition at_start : rewriter (C := state) := initial_rewriter (initial_state 0).

Lemma rewriter_sound_witness :
  match rewrite shared 1 sum_is_two at_start with Ok _ => False | Fault e => e = OutOfFuel end
  /\ match rewrite shared 20 sum_is_two at_start with
     | Ok (r, st) => rewrites (m_cfg st) sum_is_two r
     | Fault _ => False
     end.
Proof.
  pose proof (rewriter_sound shared 1 sum_is_two at_start (proj1 (initial_bb_ok no_ids default_options 0)) eq_refl) as H1.
  pose proof (rewriter_sound shared 20 sum_is_two at_start (proj1 (initial_bb_ok no_ids default_options 0)) eq_refl) as H20.
  assert (match rewrite shared 20 sum_is_two at_start with Ok _ => True | Fault _ => False end) as Hok by (vm_compute; exact I).
  split; [vm_compute; reflexivity|]. destruct (rewrite shared 20 sum_is_two at_start) as [[r st]|e]; [apply H20|exact Hok].
Defined.

Lemma rewriter_terminates_witness :
  exists r st, rewrite shared 20 sum_is_two at_start = Ok (r, st) /\ independent r.
Proof.
  destruct (rewriter_terminates shared 20 sum_is_two at_start) as (r & st & He & _ & _ & _ & _ & Hi).
  - apply (initial_bb_ok no_ids default_options 0).
  - apply (initial_bb_ok no_ids default_options 0).
  - reflexivity.
  - reflexivity.
  - cbn. lia.
  - exists r, st. split; [exact He|exact Hi].
Defined.

Definition word_goal : goal :=
  mk_goal [mk_entry sum_is_two []; mk_entry (m_mk_eq word_y word_x) []] 0 true false false PRECISE.

Lemma word_goal_wf : goal_wf word_goal.
Proof. split; [repeat constructor|intros H; discriminate H]. Qed.

Lemma word_goal_blastable : Forall (blastable default_options 20) (m_entries word_goal).
Proof. repeat (constructor; [split; [reflexivity|split; [reflexivity|cbn; lia]]|]). constructor. Qed.

Lemma word_goal_below : goal_below 0 word_goal.
Proof. repeat constructor. Qed.

(** The result has a model where the goal has one. *)
Lemma bit_blaster_tactic_correct_witness :
  exists g' mc rw', bit_blaster_tactic no_ids default_options shared 20 word_goal at_start = Ok (g', mc, rw')
    /\ ((exists I, goal_true I word_goal) <-> exists I, goal_true I g').
Proof.
  destruct (bit_blaster_tactic_correct no_ids default_options shared 20 word_goal at_start
    (initial_bb_ok no_ids default_options 0) word_goal_wf word_goal_blastable word_goal_below)
    as (g' & mc & rw' & He & _ & _ & Hto & Hfrom).
  exists g', mc, rw'. split; [exact He|]. split.
  - intros [I HI]. destruct (Hto I (consistent_initial I 0) HI) as (J & _ & _ & HJ). exists J. exact HJ.
  - intros [J HJ]. eexists. exact (Hfrom J HJ).
Defined.

(** A model of the bits gives x and y the value 1. *)
Definition bits_model : model := [(fresh_bool 0, m_true); (fresh_bool 2, m_true)].

Lemma model_converter_correct_witness :
  exists g' mc rw', bit_blaster_tactic no_ids default_options shared 20 word_goal at_start = Ok (g', Some mc, rw')
    /\ goal_true (interp_of bits_model) g'
    /\ goal_true (interp_of (convert_model mc bits_model)) word_goal
    /\ map snd (convert_model mc bits_model) = [num 1; num 1].
Proof.
  destruct (model_converter_correct no_ids default_options shared 20 word_goal 0
    word_goal_wf eq_refl word_goal_blastable word_goal_below) as (g' & mc & rw' & He & Hconv).
  assert (match bit_blaster_tactic no_ids default_options shared 20 word_goal at_start with
          | Ok (g', Some mc, _) => forallb (fun e => tr (interp_of bits_model) (form e)) (m_entries g')
                                   && bool_decide (map snd (convert_model mc bits_model) = [num 1; num 1])
          | _ => false end = true) as Hrun by (vm_compute; reflexivity).
  unfold at_start in *. rewrite He in Hrun |- *. destruct mc as [mc|]; [|discriminate Hrun].
  apply andb_true_iff in Hrun as [Ht Hv%bool_decide_eq_true].
  assert (goal_true (interp_of bits_model) g') as Hg.
  { apply Forall_forall. intros e Hin%list_elem_of_In. rewrite forallb_forall in Ht. by apply Ht. }
  exists g', mc, rw'. split; [reflexivity|]. split; [exact Hg|]. split; [|exact Hv].
  apply Hconv; [|exact Hg]. intros d v. cbn. repeat case_bool_decide; subst; try (intros [= <-]; split; [reflexivity|by left]). done.
Defined.
