(* ===== verification/TacticWitnesses.v ===== *)
(** The theorems about the tactics at concrete goals: "sat" after "bit-blast", then
    "simplify" and "propagate-values", and the four tactics together, over vectors
    of four bits. *)
From S2P Require Import Prelude Text Bits Ast AstSem BoolRewriter AstFacts BoolRewriterOk ExprSubstitution BvPlugin BvFacts PolyRewriter BvRewriterLeq BvRewriter BvRewriterOk BlasterRewriter BlasterRewriterOk Rewriter RewriterOk ThRewriter ThRewriterRun BvTheorems Goal GoalUnder SharedOccs SimplifyTactic PropagateValues PropagateValuesOk BitBlaster BitBlasterOk BitBlasterTactic SatTypes Expr2Var Goal2Sat Goal2SatOk SatTactic SatTacticOk Pipeline BlasterWitnesses.
From S2P Require Tactical TacticalOk.

Definition atom (i : Z) : expr := App (fresh_bool (100 + Z.to_nat i)) [].
Definition atom_a : expr := atom 0.
Definition atom_b : expr := atom 1.

Lemma push_insert_pop_witness :
  exists x1 x', insert_all [(atom_a, 7%nat); (atom_b, 8%nat)] (Expr2Var.push empty_expr2var) = Ok x1
    /\ Expr2Var.pop 1 x1 = Ok x' /\ m_mapping x' = [].
Proof.
  destruct (push_insert_pop empty_expr2var [(atom_a, 7%nat); (atom_b, 8%nat)] empty_expr2var_ok)
    as (x1 & x' & H1 & H2 & _ & Hm & _).
  - apply (bool_decide_unpack _). by vm_compute.
  - by intros n _.
  - by exists x1, x'.
Defined.

(** Two formulas, the second under the assumption [not b]. *)
Definition small_goal : list goal_entry :=
  [mk_entry (m_mk_ite atom_a (m_mk_or [atom_b; m_mk_not atom_a]) (m_mk_and [atom_b; m_true])) [];
   mk_entry atom_a [m_mk_not atom_b]].

Definition no_params : g2s_params := {| ite_extra := true; default_external := false |}.

Lemma small_goal_good : Forall good_entry small_goal.
Proof. repeat (constructor; try done). Qed.

(** The clauses have a model, since both formulas hold when both atoms do. *)
Lemma goal2sat_correct_witness :
  exists g, goal2sat no_params [] small_goal (mk_goal_state (initial_imp ([] : recorder)) [] 0) = Ok g
    /\ exists s, models (solver (g_imp g)) s.
Proof.
  destruct (goal2sat_correct no_params [] small_goal ([] : recorder) 0) as (g & Hg & _ & Hc).
  - by exists (fun _ => true).
  - exact small_goal_good.
  - exists g. split; [exact Hg|]. destruct (Hc ltac:(repeat constructor) (fun _ => true)) as (s & Hs & _).
    + repeat constructor.
    + by exists s.
Defined.

(** ** A solver that decides *)

Fixpoint valuations (n : nat) : list (list bool) :=
  match n with
  | O => [[]]
  | S n => map (cons false) (valuations n) ++ map (cons true) (valuations n)
  end.

Lemma valuations_all (s : nat -> bool) n k : map s (seq k n) ∈ valuations n.
Proof.
  revert k. induction n as [|n IH]; intros k; cbn; [left|]. apply elem_of_app.
  destruct (s k); [right|left]; apply list_elem_of_fmap_2, IH.
Qed.

Definition valuation (bs : list bool) (v : nat) : bool := nth v bs false.

(** The first valuation that satisfies the clauses. *)
Definition find_model (x : recorder) : option (list bool) :=
  List.find (fun bs => forallb (clause_true (valuation bs)) (clauses x)) (valuations (num_vars x)).

Lemma satisfied_forallb s x : forallb (clause_true s) (clauses x) = true <-> satisfied s x.
Proof.
  rewrite satisfied_clauses, forallb_forall, Forall_forall. split; intros Hc c Hin; by apply Hc, list_elem_of_In.
Qed.

Lemma valuation_seq s n v : (v < n)%nat -> valuation (map s (seq 0 n)) v = s v.
Proof.
  intros Hv. unfold valuation. rewrite (nth_indep _ false (s 0%nat)) by by rewrite length_map, length_seq.
  rewrite map_nth, seq_nth by done. done.
Qed.

Lemma find_model_none x s : find_model x = None -> ~ satisfied s x.
Proof.
  intros Hf Hs. set (bs := map s (seq 0 (num_vars x))).
  assert (forallb (clause_true (valuation bs)) (clauses x) = true) as Ht.
  { apply satisfied_forallb. eapply satisfied_ext; [|exact Hs]. intros v Hv. unfold bs. by rewrite valuation_seq. }
  pose proof (find_none _ _ Hf bs (proj1 (list_elem_of_In _ _) (valuations_all s _ 0))) as Hn. cbn beta in Hn. congruence.
Qed.

(** After an answer, the log holds the assumptions, or the core alone. *)
#[global] Instance recorder_check : SatCheck recorder := {|
  check ls x :=
    let y := map (fun l => AddClause [l]) ls ++ x in
    match find_model y with Some _ => (l_true, y) | None => (l_false, [AddClause ls]) end;
  get_model y :=
    match find_model y with
    | Some bs => map (fun v => if valuation bs v then l_true else l_false) (seq 0 (num_vars y))
    | None => []
    end;
  get_core y := match y with [AddClause ls] => ls | _ => [] end;
  pop_to_base_level x := x
|}.

Lemma assumed_satisfied s ls x :
  satisfied s (map (fun l => AddClause [l]) ls ++ x)
  <-> satisfied s x /\ Forall (fun l => lit_true s l = true) ls.
Proof.
  induction ls as [|l ls IH]; cbn; [split; [done|tauto]|]. rewrite IH, Forall_cons, orb_false_r. tauto.
Qed.

Lemma assumed_vars ls x : (num_vars x <= num_vars (map (fun l => AddClause [l]) ls ++ x))%nat.
Proof. induction ls as [|l ls IH]; cbn; lia. Qed.

#[global, refine] Instance recorder_check_ok : SatCheckOk recorder := {| check_true := _; check_false := _ |}.
Proof.
  - intros ls x x'. cbn [check recorder_check]. set (y := map _ ls ++ x). destruct (find_model y) as [bs|] eqn:Hf; [|done].
    intros [= <-]. exists (valuation bs). pose proof (find_some _ _ Hf) as [_ Hs%satisfied_forallb].
    apply assumed_satisfied in Hs as [Hs Hl]. split; [exact Hs|]. split; [exact Hl|]. intros v Hv. cbn. rewrite Hf.
    pose proof (assumed_vars ls x) as Hle. fold y in Hle. cbn in Hv. rewrite list_lookup_fmap, lookup_seq_lt by lia. done.
  - intros ls x x'. cbn [check recorder_check]. destruct (find_model _) as [bs|] eqn:Hf; [done|].
    intros [= <-]. cbn. split; [done|]. intros s Hs Hl. by apply (find_model_none _ s Hf), assumed_satisfied.
Defined.

(** ** Redundancies: [a], [b], [a] and the negation of [b] *)

Definition clashing_goal : goal :=
  mk_goal (map (fun f => mk_entry f []) [atom_a; atom_b; atom_a; m_mk_not atom_b]) 0 true false false PRECISE.

Lemma elim_redundancies_correct_witness :
  m_entries (elim_redundancies clashing_goal) = [mk_entry m_false []]
  /\ ~ goal_true default_interp clashing_goal.
Proof.
  destruct (elim_redundancies_correct default_interp clashing_goal) as (Hw & Ht & _).
  - split; [repeat constructor|intros H; discriminate H].
  - split; [vm_compute; reflexivity|]. intros H%Ht. by apply (goal_inconsistent default_interp _ Hw eq_refl H).
Defined.

(** ** Deciding *)

Definition no_models (s : recorder) (a : expr2var) (g : goal) : goal * option unit := (g, None).

(** [a or b], [not a] under the assumption [not b], with cores. *)
Definition core_goal : goal :=
  mk_goal [mk_entry (m_mk_or [atom_a; atom_b]) []; mk_entry (m_mk_not atom_a) [m_mk_not atom_b]]
    0 false true false PRECISE.

Lemma sat_tactic_correct_witness :
  exists g' mc, sat_tactic no_params no_models [] core_goal [] 0 = Ok (g', mc, l_false)
    /\ m_entries g' = [mk_entry m_false [m_mk_not atom_b]]
    /\ forall V, Forall (entry_holds V) (m_entries core_goal) -> beval V (m_mk_not atom_b) = false.
Proof.
  destruct (sat_tactic_correct no_params no_models [] core_goal ([] : recorder) 0) as ([[g' mc] r] & He & Hok).
  - split; [repeat constructor|intros H; discriminate H].
  - repeat (constructor; try done).
  - intros H; discriminate H.
  - by exists (fun _ => true).
  - assert (match sat_tactic no_params no_models [] core_goal ([] : recorder) 0 with
            | Ok (g, _, l_false) => m_entries g = [mk_entry m_false [m_mk_not atom_b]]
            | _ => False end) as Hrun by (vm_compute; reflexivity).
    rewrite He in Hrun. destruct r; try contradiction Hrun.
    exists g', mc. split; [exact He|]. split; [exact Hrun|]. destruct Hok as (_ & lcore & Hl & _ & Hu).
    intros V HV. rewrite Hrun in Hl. injection Hl as <-. pose proof (Hu ltac:(repeat constructor) V HV) as Hf.
    cbn [forallb] in Hf. by rewrite andb_true_r in Hf.
Defined.

Definition convertible_entry (e : goal_entry) : bool :=
  convertible (form e) && bool_decide (deps e = []).

Lemma convertible_entries es : forallb convertible_entry es = true -> Forall good_entry es.
Proof.
  rewrite forallb_forall, Forall_forall. intros Hall e Hin%list_elem_of_In%Hall.
  apply andb_true_iff in Hin as [Hc Hd%bool_decide_eq_true]. split; [exact Hc|]. rewrite Hd. constructor.
Qed.

(** The goal x + y = 2, y = x over words of two bits is satisfiable. *)
Lemma bit_vector_goals_decided_witness :
  exists g' mc rw' md g2, bit_blaster_tactic no_ids default_options shared 20 word_goal (initial_rewriter (initial_state 0)) = Ok (g', Some mc, rw')
    /\ sat_tactic no_params no_models [] g' [] 0 = Ok (g2, Some (Model2Model md), l_true)
    /\ goal_true (interp_of (convert_model mc md)) word_goal.
Proof.
  destruct (bit_vector_goals_decided no_params no_models no_ids default_options shared 20 [] word_goal 0 0 ([] : recorder))
    as (g' & mc & rw' & He & Hdec).
  - exact word_goal_wf.
  - split; [reflexivity|repeat constructor].
  - reflexivity.
  - exact word_goal_blastable.
  - exact word_goal_below.
  - by exists (fun _ => true).
  - assert (match bit_blaster_tactic no_ids default_options shared 20 word_goal (initial_rewriter (initial_state 0)) with
            | Ok (g, Some _, _) => forallb convertible_entry (m_entries g)
                && match sat_tactic no_params no_models [] g ([] : recorder) 0 with
                   | Ok (_, Some (Model2Model _), l_true) => true | _ => false end
            | _ => false end = true) as Hrun by (vm_compute; reflexivity).
    rewrite He in Hrun. destruct mc as [mc|]; [|discriminate Hrun]. apply andb_true_iff in Hrun as [Hg Hs].
    destruct (Hdec (convertible_entries _ Hg)) as ([[g2 smc] r] & Ha & Hd). rewrite Ha in Hs.
    destruct smc as [[md|]|]; try discriminate Hs. destruct r; try discriminate Hs.
    exists g', mc, rw', md, g2. split; [exact He|]. split; [exact Ha|exact Hd].
Defined.

(** ** A goal with dependencies *)

Definition claim (name : string) : expr := App (mk_func_decl (SymStr name) NullFid [] [] BoolSort) [].
Definition three_x_y : expr := bv_app OP_BADD [] [bv_app OP_BMUL [] [const4 3; nibble_x]; nibble_y].
Definition two_facts : list expr := [m_mk_eq nibble_x (const4 2); m_mk_eq three_x_y (const4 8)].

Definition traced_goal : goal :=
  mk_goal (zip_with mk_entry two_facts [[claim "p"]; [claim "q"]]) 0 true true false PRECISE.
Definition often (g : goal) (rw : th_rewriter) (e : expr) : nat := 2.

Local Abbreviation simplified c g trace :=
  (simplify_tactic (default_th_params 1000) default_params default_bv_params by_size once no_conversion c 100 g
     (new_simplify_imp trace)).
Local Abbreviation propagated c r g trace :=
  (propagate_values_tactic (default_th_params 1000) default_params default_bv_params by_size once no_conversion c r 100
     default_max_rounds g (new_propagate_values trace g)).

(** No logged step is one of the unproved rules. *)
Definition quiet_log (log : list (expr * expr)) : bool := forallb (fun st => negb (is_unproved st.1)) log.
Definition quiet_trace (rw : th_rewriter) : bool := quiet_log (default [] (m_trace (m_cfg rw))).

Lemma quiet_keeps log g g' : quiet_log log = true -> keeps (fun I => Forall (ThRewriterRun.agrees I) log) g g' ->
  forall I, (goal_true I g' <-> goal_true I g) /\ forall U, goal_under U I g -> goal_under U I g'.
Proof. intros Hq [_ Hk] I. apply Hk, silent_agrees, Hq. Qed.

(** 3 x + 2 = 8 and x = 2 become one formula. *)
Definition x_is_two : expr := m_mk_eq nibble_x (const4 2).
Definition y_is_two : expr := m_mk_eq nibble_y (const4 2).
Definition repeated_goal : goal :=
  mk_goal (zip_with mk_entry [m_mk_eq three_x_two (const4 8); x_is_two] [[claim "p"]; [claim "q"]]) 0 true true false PRECISE.

Lemma goal_wf_forms g : forallb (fun e => wfb (form e)) (m_entries g) && negb (m_inconsistent g) = true -> goal_wf g.
Proof.
  intros [Hf Hi]%andb_true_iff. split; [|intros H; rewrite H in Hi; discriminate Hi].
  rewrite forallb_forall in Hf. apply Forall_forall. intros e He%list_elem_of_In. by apply Hf.
Qed.

Lemma simplify_tactic_correct_witness :
  match simplified no_sharing repeated_goal None with
  | Ok (g, _) => m_entries g = [mk_entry x_is_two [claim "p"]]
      /\ forall I, goal_true I g <-> goal_true I repeated_goal
  | Fault _ => False
  end.
Proof.
  assert (match simplified no_sharing repeated_goal None with
          | Ok (g, _) => m_entries g = [mk_entry x_is_two [claim "p"]]
          | Fault _ => False
          end) as Hrun by (vm_compute; reflexivity).
  assert (match simplified (traced_counts no_sharing) repeated_goal (Some []) with
          | Ok (_, st) => quiet_trace (simp_r st) | Fault _ => false end = true) as Hq by (vm_compute; reflexivity).
  pose proof (simplify_tactic_correct (default_th_params 1000) default_params default_bv_params by_size once no_conversion
    no_sharing 100 repeated_goal eq_refl no_conversion_typed (goal_wf_forms repeated_goal eq_refl) (or_introl eq_refl)) as H.
  destruct (simplified no_sharing repeated_goal None) as [[g st0]|e]; [|exact Hrun]. split; [exact Hrun|].
  destruct H as (_ & _ & _ & st & log & Ht & Hlog & Hk). rewrite Ht in Hq. unfold quiet_trace in Hq. rewrite Hlog in Hq.
  intros I. apply (quiet_keeps log _ _ Hq Hk).
Defined.

(** From x = 2 and 3 x + y = 8 follows y = 2, which depends on both assumptions. *)
Lemma propagate_values_correct_witness :
  match propagated no_sharing often traced_goal None with
  | Ok (g, _) => m_entries g = [mk_entry x_is_two [claim "p"]; mk_entry y_is_two [claim "q"; claim "p"]]
      /\ forall I, (goal_true I g <-> goal_true I traced_goal)
           /\ forall U, goal_under U I traced_goal -> goal_under U I g
  | Fault _ => False
  end.
Proof.
  assert (match propagated no_sharing often traced_goal None with
          | Ok (g, _) => m_entries g = [mk_entry x_is_two [claim "p"]; mk_entry y_is_two [claim "q"; claim "p"]]
          | Fault _ => False
          end) as Hrun by (vm_compute; reflexivity).
  assert (match propagated (traced_counts no_sharing) (traced_refs often) traced_goal (Some []) with
          | Ok (_, st) => quiet_trace (pv_r st) | Fault _ => false end = true) as Hq by (vm_compute; reflexivity).
  pose proof (propagate_values_correct (default_th_params 1000) default_params default_bv_params by_size once no_conversion
    no_sharing often 100 default_max_rounds traced_goal eq_refl no_conversion_typed (goal_wf_forms traced_goal eq_refl)
    (or_introl eq_refl)) as H.
  destruct (propagated no_sharing often traced_goal None) as [[g st0]|e]; [|exact Hrun]. split; [exact Hrun|].
  destruct H as (_ & _ & _ & st & log & Ht & Hlog & Hk). rewrite Ht in Hq. unfold quiet_trace in Hq. rewrite Hlog in Hq.
  apply (quiet_keeps log _ _ Hq Hk).
Defined.

(** ** The four tactics *)

Definition plain_goal : goal := mk_goal (map (fun f => mk_entry f []) two_facts) 0 true false false PRECISE.
Definition solved_goal : goal := mk_goal [mk_entry x_is_two []; mk_entry y_is_two []] 2 true false false PRECISE.

Local Abbreviation preprocessed :=
  (preprocess (default_th_params 1000) default_params default_bv_params by_size once no_conversion no_sharing often 100
     default_max_rounds plain_goal).
Local Abbreviation preprocessed_log :=
  (preprocess_log (default_th_params 1000) default_params default_bv_params by_size once no_conversion no_sharing often 100
     default_max_rounds plain_goal).

Lemma preprocessed_goals_decided_witness :
  exists g' mc rw' md g2,
    bit_blaster_tactic by_size default_options shared 20 solved_goal (initial_rewriter (initial_state 0)) = Ok (g', Some mc, rw')
    /\ sat_tactic no_params no_models [] g' [] 0 = Ok (g2, Some (Model2Model md), l_true)
    /\ goal_true (interp_of (convert_model mc md)) plain_goal.
Proof.
  assert (preprocessed = Ok solved_goal) as Hpre by (vm_compute; reflexivity).
  assert (match preprocessed_log with Ok log => quiet_log log | Fault _ => false end = true) as Hq by (vm_compute; reflexivity).
  assert (match bit_blaster_tactic by_size default_options shared 20 solved_goal (initial_rewriter (initial_state 0)) with
          | Ok (g, Some _, _) => forallb convertible_entry (m_entries g)
              && match sat_tactic no_params no_models [] g ([] : recorder) 0 with
                 | Ok (_, Some (Model2Model _), l_true) => true | _ => false end
          | _ => false end = true) as Hrun by (vm_compute; reflexivity).
  destruct (preprocessed_goals_decided no_params no_models default_options shared (default_th_params 1000) default_params
    default_bv_params by_size once no_conversion no_sharing often 100 default_max_rounds 20 [] plain_goal solved_goal 0 0
    ([] : recorder) eq_refl no_conversion_typed (goal_wf_forms plain_goal eq_refl)) as (log & g' & mc & rw' & Hlog & He & Hdec).
  - split; [reflexivity|repeat constructor].
  - reflexivity.
  - exact Hpre.
  - repeat (constructor; [split; [reflexivity|split; [reflexivity|cbn; lia]]|]). constructor.
  - repeat constructor.
  - by exists (fun _ => true).
  - rewrite Hlog in Hq. rewrite He in Hrun. destruct mc as [mc|]; [|discriminate Hrun].
    apply andb_true_iff in Hrun as [Hg Hs]. destruct (Hdec (convertible_entries _ Hg)) as ([[g2 smc] r] & Ha & Hd).
    rewrite Ha in Hs. destruct smc as [[md|]|]; try discriminate Hs. destruct r; try discriminate Hs.
    exists g', mc, rw', md, g2. split; [exact He|]. split; [exact Ha|]. apply Hd, silent_agrees, Hq.
Defined.

(** ** Strategies *)

Import Tactical TacticalOk.

(** Interpretations are the models, and tactics keep no state. *)
Local Abbreviation strategy_tactic := (Tactical.tactic (C := unit) (W := unit)).
Local Abbreviation store_of g := (mk_state {[ O := mk_obj g None None ]} tt : state (C := unit) (W := unit)).
Definition no_convert (c : unit) (I : interp) : interp := I.
Definition no_message (code : Z) : string := "".
Definition never_cancelled (w : unit) : bool := true.
Local Abbreviation ask t g := (check_sat no_convert default_interp no_message never_cancelled t O (store_of g)).

Definition reduce : strategy_tactic := in_place (fun g => Ok (elim_redundancies g)).

Lemma elim_loop_precision es kept ns ps g : m_precision (elim_loop es kept ns ps g) = m_precision g.
Proof. revert kept ns ps. induction es as [|e es IH]; intros; cbn [elim_loop]; [done|]. by repeat case_match. Qed.

Lemma elim_same g : goal_wf g -> tracked g -> same_goal g (elim_redundancies g).
Proof.
  intros Hwf Htr. destruct (elim_redundancies_ok default_interp g Hwf) as [Hwf' _]. split_and!; try done.
  - by apply elim_tracked.
  - split; [apply elim_core|apply elim_models].
  - unfold elim_redundancies. destruct (m_inconsistent g); [done|apply elim_loop_precision].
  - intros I. by destruct (elim_redundancies_ok I g Hwf) as (_ & Hiff & _).
Qed.

#[local] Instance reduce_sound : SoundTactic (fun I => I) no_convert reduce.
Proof. apply in_place_sound. intros g g' Hwf Htr [= <-]. by apply elim_same. Qed.

Definition reduce_cases : strategy_tactic := and_then 10 (mk_split_clause_tactic false) reduce.

Definition literal_goal (core : bool) (fs : list (expr * list expr)) : goal :=
  mk_goal (map (fun '(f, d) => mk_entry f d) fs) 0 true core false PRECISE.
(** p or q, not p, not q. *)
Definition three_clauses (core : bool) : goal :=
  literal_goal core [(m_mk_or [claim "p"; claim "q"], if core then [claim "a"] else []);
    (m_mk_not (claim "p"), if core then [claim "b"] else []); (m_mk_not (claim "q"), if core then [claim "c"] else [])].
(** p or true. *)
Definition one_clause : goal := literal_goal false [(m_mk_or [claim "p"; m_true], [])].

Definition verdict_of (r : outcome (verdict (M := interp))) : option lbool :=
  match r with Returns v => Some (v_result v) | Throws _ => None end.

Lemma check_sat_correct_witness :
  (exists v σ', ask reduce_cases (three_clauses false) = (Returns v, σ') /\ v_result v = l_false
     /\ forall I, ~ goal_true I (three_clauses false))
  /\ exists v σ', ask reduce_cases one_clause = (Returns v, σ') /\ v_result v = l_true
     /\ exists I, goal_true I one_clause.
Proof.
  assert (forall g r, goal_wf g -> tracked g -> verdict_of (ask reduce_cases g).1 = Some r ->
    exists v σ', ask reduce_cases g = (Returns v, σ') /\ v_result v = r
      /\ verdict_ok (fun I => I) no_convert (mk_obj g None None) v) as Hask.
  { intros g r Hwf Htr Hr. destruct (ask reduce_cases g) as [o σ'] eqn:Hrun.
    pose proof (check_sat_correct (fun I => I) no_convert default_interp (eq reduce) reduce_cases no_message never_cancelled
      (store_of g) O (mk_obj g None None) o σ' ltac:(intros ? <-; apply reduce_sound)
      ltac:(apply strategy_and_then; [apply strategy_split|by apply strategy_base])
      ltac:(apply lookup_singleton_eq) ltac:(by split) Hrun) as Hok.
    destruct o as [v|]; [|done]. exists v, σ'. split; [done|]. split; [|done]. by injection Hr. }
  assert (plain (three_clauses false) /\ plain one_clause) as [P1 P2] by (split; split; repeat constructor; done).
  split.
  - destruct (Hask (three_clauses false) l_false) as (v & σ' & Hrun & Hv & Hok);
      [apply goal_wf_forms; vm_compute; reflexivity|by right|vm_compute; reflexivity|].
    exists v, σ'. split; [done|]. split; [done|]. unfold verdict_ok in Hok. rewrite Hv in Hok. exact Hok.
  - destruct (Hask one_clause l_true) as (v & σ' & Hrun & Hv & Hok);
      [apply goal_wf_forms; vm_compute; reflexivity|by right|vm_compute; reflexivity|].
    exists v, σ'. split; [done|]. split; [done|]. unfold verdict_ok in Hok. rewrite Hv in Hok.
    destruct Hok as (I & HI & _). by exists I.
Defined.

(** p under a, not p under b, q under c. *)
Definition contradiction_goal : goal :=
  literal_goal true [(claim "p", [claim "a"]); (claim "q", [claim "c"]); (m_mk_not (claim "p"), [claim "b"])].
Definition core_of (r : outcome (verdict (M := interp))) : option (lbool * list expr) :=
  match r with Returns v => Some (v_result v, v_core v) | Throws _ => None end.

#[local] Instance reduce_core : CoreTactic (fun I => I) no_convert reduce.
Proof. apply in_place_core. intros g g' Hwf Htr [= <-]. split; [by apply elim_same|]. intros U I. by apply elim_under. Qed.

Lemma check_sat_core_correct_witness :
  core_of (ask (and_then 10 reduce fail_if_undecided_tactic) contradiction_goal).1 = Some (l_false, [claim "a"; claim "b"])
  /\ forall I, ~ goal_under [claim "a"; claim "b"] I contradiction_goal.
Proof.
  assert (core_of (ask (and_then 10 reduce fail_if_undecided_tactic) contradiction_goal).1
    = Some (l_false, [claim "a"; claim "b"])) as Hcore by (vm_compute; reflexivity).
  split; [exact Hcore|]. destruct (ask _ _) as [[v|e] σ'] eqn:Hrun; [|done]. injection Hcore as Hv <-.
  apply (check_sat_core_correct (fun I => I) no_convert default_interp (eq reduce)
    (and_then 10 reduce fail_if_undecided_tactic) no_message never_cancelled
    (store_of contradiction_goal) O (mk_obj contradiction_goal None None) v σ').
  - intros ? <-. apply reduce_core.
  - apply linear_and_then; [by apply linear_base|apply linear_fail_if_undecided].
  - apply lookup_singleton_eq.
  - split; [apply goal_wf_forms; vm_compute; reflexivity|by left].
  - exact Hrun.
  - exact Hv.
Defined.

(** A tactic that changes the goal and then throws. *)
Definition reduce_fail : strategy_tactic := and_then 10 reduce fail_tactic.
Definition twice_p : goal := literal_goal false [(claim "p", []); (claim "p", [])].

Lemma or_else_restores_witness :
  exists σ1, run reduce_fail O [] (store_of twice_p) = (Throws (tactic_exception "fail tactic"), σ1)
    /\ (length ∘ m_entries ∘ contents <$> heap σ1 !! O) = Some 1%nat
    /\ (contents <$> heap (run (or_else [reduce_fail; fail_tactic; skip_tactic]) O [] (store_of twice_p)).2 !! O) = Some twice_p.
Proof.
  destruct (run reduce_fail O [] (store_of twice_p)) as [r σ1] eqn:Hrun. exists σ1.
  assert (r = Throws (tactic_exception "fail tactic")) as ->.
  { change r with (fst (r, σ1)). rewrite <- Hrun. vm_compute. reflexivity. }
  assert (σ1 = (run reduce_fail O [] (store_of twice_p)).2) as Hσ1 by (by rewrite Hrun).
  destruct (or_else_restores (fun I => I) no_convert reduce_fail fail_tactic [skip_tactic] (store_of twice_p) O (mk_obj twice_p None None)
    "fail tactic" σ1) as [Hrest _].
  - apply and_then_sound; [exact default_interp|apply reduce_sound|apply fail_sound].
  - apply lookup_singleton_eq.
  - split; [apply goal_wf_forms; vm_compute; reflexivity|right; split; repeat constructor].
  - exact Hrun.
  - split; [done|]. split.
    + rewrite Hσ1. vm_compute. reflexivity.
    + rewrite Hrest, Hσ1. vm_compute. reflexivity.
Defined.

(** No goal has a dependency converter. *)
Definition no_converters (σ : state (C := unit) (W := unit)) : Prop := forall l o, heap σ !! l = Some o -> m_dc o = None.

Lemma no_converters_insert l o σ w :
  no_converters σ -> m_dc o = None -> no_converters (mk_state (<[l := o]> (heap σ)) w).
Proof. intros Hσ Ho l' o' Hl'. cbn in Hl'. apply lookup_insert_Some in Hl' as [[_ <-]|[_ Hl']]; [done|by eapply Hσ]. Qed.

Lemma ends_load_bind {A} l (k : goal_obj -> act (C := unit) (W := unit) A) :
  (forall o, m_dc o = None -> ends no_converters (k o)) -> ends no_converters (load l ≫= k).
Proof.
  intros Hk σ Hσ. apply wp_seq. unfold wp at 1, load. destruct (heap σ !! l) as [o|] eqn:Ho; [|by split].
  apply Hk; [by eapply Hσ|done].
Qed.

Lemma ends_store l o : m_dc o = None -> ends no_converters (store (W := unit) l o).
Proof. intros Ho σ Hσ. split; [done|]. by apply no_converters_insert. Qed.

Lemma repeat_terminates_witness :
  (run (repeat 10 7 reduce 5) O [] (store_of twice_p)).1 <> Throws (stuck OutOfFuel).
Proof.
  apply (repeat_terminates no_converters 10 7 reduce 5 O (store_of twice_p)).
  - intros l. apply ends_load_bind. intros o Ho. apply ends_bind; [by apply ends_store|]. intros []. apply ends_ret.
  - intros b l. apply ends_load_bind. intros o Ho. apply ends_bind; [by apply ends_store|]. intros [].
    cbn [m_dc set_contents]. rewrite Ho. apply ends_bind; [apply ends_ret|]. intros core. cbn [lift].
    apply ends_bind; [apply ends_ret|]. intros g. by apply ends_store.
  - lia.
  - lia.
  - intros l o Hl. cbn [heap] in Hl. apply lookup_singleton_Some in Hl as [_ <-]. done.
Defined.

(** ** What a case split loses *)

(** The two cases, p and q: in each the clause meets the negation of its literal. *)
Lemma reduce_closes lit g :
  lit ∈ get_args (m_mk_or [claim "p"; claim "q"]) -> update 0 lit [claim "a"] (three_clauses true) = Ok g ->
  closes (W := unit) reduce (mk_obj (inc_depth g) None None).
Proof.
  intros Hlit Hup. eapply in_place_closes; [reflexivity| |done]. cbn in Hlit.
  apply elem_of_cons in Hlit as [->| ->%list_elem_of_singleton]; injection Hup as <-; vm_compute; reflexivity.
Qed.

(** p or q under the assumption a, not p under b and not q under c: no core, although
    the two closed cases recorded theirs. *)
Lemma split_loses_core_witness :
  (exists v σ', ask reduce_cases (three_clauses true) = (Returns v, σ') /\ v_result v = l_false /\ v_core v = [])
  /\ map (fun l => m_entries ∘ contents <$> heap (ask reduce_cases (three_clauses true)).2 !! l) [1%nat; 2%nat]
     = [Some [mk_entry m_false [claim "a"; claim "b"]]; Some [mk_entry m_false [claim "a"; claim "c"]]]
  /\ forall I, goal_under [] I (three_clauses true).
Proof.
  destruct (split_loses_core (fun I => I) no_convert default_interp reduce 10 false no_message never_cancelled
    (store_of (three_clauses true)) O (mk_obj (three_clauses true) None None) O
    (mk_entry (m_mk_or [claim "p"; claim "q"]) [claim "a"])) as [Hv Hg].
  - apply reduce_sound.
  - apply lookup_singleton_eq.
  - split; [apply goal_wf_forms; vm_compute; reflexivity|by left].
  - reflexivity.
  - reflexivity.
  - lia.
  - reflexivity.
  - reflexivity.
  - exact reduce_closes.
  - split; [exact Hv|]. split; [vm_compute; reflexivity|]. apply Hg. repeat constructor; discriminate.
Defined.

(** ** What a repetition keeps *)

Definition split_or_reduce : strategy_tactic := or_else [mk_split_clause_tactic false; reduce].

(** The cases p and true: "repeat" has found that the second has a model and keeps
    the first beside it, so the answer is not known; "and-then" drops the first. *)
Lemma repeat_hides_solution :
  verdict_of (ask (repeat 10 10 split_or_reduce 5) one_clause).1 = Some l_undef
  /\ verdict_of (ask reduce_cases one_clause).1 = Some l_true.
Proof. vm_compute. done. Qed.
